(* ===== verification/_CoqProject ===== *)
-Q . S2P
Prelude.v
SimpleRng.v
RefTree.v
Geometry.v
TreeHash.v
ChunkTree.v
Shape.v
Builder.v
TreeBuild.v
Verify.v
VerifySegment.v
DataTreeTheorems.v
BlockTree.v
Lineage.v
BlockTreeQueries.v
BlockTreeInv.v
BlockTreeTip.v
BlockTreeRemove.v
BlockTreePrune.v
BlockTreeService.v
BlockTreeRestore.v
BlockTreeQueryFacts.v
BlockTreeTheorems.v
BlockTreeExample.v
Sampling.v
SamplingTheorems.v
Pricing.v
Ema.v
EmaTheorems.v
Difficulty.v
VdfState.v
Header.v
HeaderTheorems.v
StateErr.v
DataLedger.v
EpochSnapshot.v
CommitmentSnapshot.v
EpochInv.v
EpochSlots.v
EpochCommit.v
EpochTransition.v
CommitmentFacts.v
LedgerExpiry.v
Settlement.v
EpochTheorems.v
EpochExample.v
Codec.v
ShadowTx.v
ShadowExec.v
Packing.v
Merkle.v
MerkleFacts.v
MerkleBuild.v
MerkleTheorems.v
BlockIndex.v
BlockIndexFacts.v
IndexFile.v
Poa.v
PoaFacts.v
PoaTheorems.v
PoaExample.v
FeeSplit.v
BTree.v
ExpiryWalk.v
ExpirySettle.v
ExpiryCollect.v
Promotion.v
ExpiryFees.v
ExpiryTheorems.v
ExpiryExample.v
ShadowGen.v
ShadowValidate.v
TreasuryFacts.v
ShadowTyped.v
TreasuryTheorems.v
TreasuryExample.v
DataTxs.v
DataTxsTheorems.v
BlockProducer.v
ProducerTheorems.v
