(* ===== verification/Prelude.v ===== *)
(** * Irys node: verification library

    Irys is a data chain.  Users upload data in chunks; miners stake, pledge and are assigned
    partitions, store packed copies of the chunks of ledger slots, and mine by reading recall
    ranges that a VDF selects; blocks carry ledgers of data and commitment transactions, and
    an EVM layer executes the balance changes of a block as shadow transactions.  At every
    epoch block the assignment of partitions and the ledger slots are recomputed, and slots
    whose term is over are settled and recycled.

    The files below are a shallow embedding of parts of the node: data are records and
    inductive types with the constructors of the source, operations are executable functions.
    A method that can fail returns a [result] ([Ok], [Err], or [Panic] for an [expect], an
    index out of range or an arithmetic overflow that panics); a method on [&mut self] returns
    the state it leaves behind, also on an error.  Integers are [Z], [N] or [nat] with the
    width of the source written out where it matters.  Paths are relative to [src/crates].

    ** Parts and files

    - [Prelude]: the [result] monad with its reduction tactics, checks as decision procedures
      ([decides], the hint databases [checks], [no_panic] and [yields]), machine integers,
      bytes, and the lemmas on lists that the components share.  [StateErr]: computations on a
      state that can fail.  [BTree]: ordered maps.
    - Data tree ([data-tree/src]): the Merkle tree of an upload with chunk and segment proofs.
      [RefTree] (reference tree of RFC 6962), [Geometry] ([geometry.rs]), [TreeHash]
      ([hash.rs]; SHA-256 is the class [Sha256]), [ChunkTree] ([chunk.rs]), [Shape]
      ([shape.rs]), [Builder] and [TreeBuild] ([builder.rs]), [Verify] and
      [VerifySegment] ([verify.rs]), [DataTreeTheorems].
    - Merkle tree of single transactions ([types/src/merkle.rs], [chunked.rs], [irys.rs]), the
      one of the live protocol: [Merkle] (paths and their verifiers), [MerkleBuild] (chunking
      of a stream, leaves, tree, proofs), [MerkleFacts], [MerkleTheorems].
    - Block tree ([domain/src/models/block_tree.rs], [actors/src/block_tree_service.rs]): the
      fork cache and the service that owns it.  [BlockTree] (state and mutations),
      [BlockTreeQueries], [Lineage], [BlockTreeInv] (invariant, and adding blocks), the files
      [BlockTreeTip], [BlockTreeRemove], [BlockTreePrune] and [BlockTreeQueryFacts] for one
      operation each, [BlockTreeService], [BlockTreeRestore], [BlockTreeTheorems],
      [BlockTreeExample].
    - Block index ([domain/src/models/block_index.rs], [database/src/database.rs]):
      [BlockIndex], [BlockIndexFacts], and the migration of the old file in [IndexFile].
    - Proofs of access ([poa_is_valid] of [actors/src/block_validation.rs]): [Poa] with the
      transaction roots of blocks, [PoaFacts], [PoaTheorems], [PoaExample].  They call the
      block index, the Merkle tree and the packing.
    - Sampling ([efficient-sampling/src], [types/src/simple_rng.rs],
      [actors/src/partition_mining_service.rs], [actors/src/block_validation.rs]): [SimpleRng],
      [Sampling], [SamplingTheorems].  Packing ([packing/src/lib.rs],
      [c/src/capacity_single.rs]): [Packing].
    - Prices ([types/src/storage_pricing.rs], [domain/src/snapshots/ema_snapshot.rs]):
      [Pricing], [Ema], [EmaTheorems].  Difficulty
      ([types/src/difficulty_adjustment_config.rs]): [Difficulty].  VDF steps
      ([vdf/src/state.rs]): [VdfState].
    - Headers ([actors/src/block_validation.rs], [vdf/src/verify.rs]): [Header],
      [HeaderTheorems].  They call the difficulty, VDF and price components.
    - Epochs: [DataLedger] ([database/src/data_ledger.rs]), [EpochSnapshot]
      ([domain/src/snapshots/epoch_snapshot]), [CommitmentSnapshot]
      ([domain/src/snapshots/commitment_snapshot.rs] and the snapshots of a block in
      [block_tree.rs]), the invariant [EpochInv] and its preservation step by step in
      [EpochSlots] and [EpochCommit], the whole transition in [EpochTransition], the contract
      of commitments in [CommitmentFacts], the slots that settle in [LedgerExpiry], histories
      in [Settlement], [EpochTheorems] (with the selection of pledges) and [EpochExample].
    - Expired slots ([actors/src/block_producer/ledger_expiry.rs], with the ancestry walk of
      [block_ancestry.rs] and lookups of [database.rs]): [FeeSplit]
      ([types/src/transaction/fee_distribution.rs], [actors/src/block_reward.rs],
      [reward-curve/src/lib.rs]), [ExpiryWalk] (from chunk offsets to the transactions of the
      slots), [ExpirySettle] (payments, refunds and the promotion filter), their facts in
      [ExpiryCollect], [Promotion] and [ExpiryFees], [ExpiryTheorems], [ExpiryExample].  They
      call the block index, the fee splits and the epoch snapshot.
    - Shadow transactions: [Codec] (readers, and the class of formats with their laws) and
      [ShadowTx] ([irys-reth/src/shadow_tx.rs]); their generation with the treasury in
      [ShadowGen] ([actors/src/shadow_tx_generator.rs]); what a validator expects and checks
      in [ShadowValidate] ([actors/src/block_validation.rs], [commitment_refunds.rs]) and what
      a producer composes ([create_evm_block_txs]); their execution in [ShadowExec]
      ([irys-reth/src/evm.rs]).  [TreasuryFacts] (the iterator as a sequence of credits and
      payouts), [ShadowTyped] (amounts of their types, and the match and the execution of a
      payload), [TreasuryTheorems], [TreasuryExample].
    - Data transactions of a block: [DataTxs] pairs the body of a block with its header
      ([order_transactions] in [types/src/block.rs]), checks anchors ([block_discovered] in
      [actors/src/block_discovery.rs]), places and prices ([data_txs_are_valid] in
      [actors/src/block_validation.rs], with the fees of [types/src/config/mod.rs] and the term
      of [types/src/ledger_expiry.rs]) and the ingress proofs of promotions
      ([prevalidate_block]), and quotes fees ([get_price] in
      [api-server/src/routes/price.rs]); [DataTxsTheorems] has their facts and examples.  They
      call the block index, the ancestry walk and the fees of expired slots, and the blocks of
      [ShadowValidate].
    - Block production ([actors/src/block_producer.rs], the promotions of
      [actors/src/tx_selector]): [BlockProducer] goes from a mining solution and a parent to a
      sealed block with its payload, with every gate and error; what it reads from the node are
      the fields of [Reads], [Selection] and [ProofReads].  [ProducerTheorems] has its theorems
      and an example.  They call the header, the proofs of access, the expired slots, the
      shadow transactions and the data transactions.

    ** What the theorems show

    - Data tree: a proof that a verifier accepts is one of the upload it was built from, or
      two distinct inputs of the hash with one digest are exhibited; proofs of the tree are
      accepted; the streaming and the parallel builder give the tree of RFC 6962; the
      verifiers never panic.
    - Merkle tree of single transactions: the same for its paths and chunks, and the root, the
      size and the proofs do not depend on how a stream is cut into pieces.
    - Block index and proofs of access: a lookup finds exactly the block across an offset; an
      accepted data proof is a chunk of the parent chain packed for the miner, honest proofs
      are accepted, and two nodes give one verdict wherever they have the blocks.
    - Block tree: the invariant of every tree the service can reach; the exact effect of tip
      moves, removals, prunes and the restore; the answers of the queries.  A failed tip move
      can leave inconsistent chain states, which is shown by an example.
    - Headers: chains of accepted headers have the heights, timestamps, difficulties and epoch
      links they should have.
    - Sampling, prices, difficulty, VDF steps: a cycle visits every range once and the miner
      and the validator agree; snapshots of prices kept block by block are those rebuilt from
      the chain; an adjustment of the difficulty stays within its bounds; the step buffer is a
      window of the log of all steps; packed chunks unpack to themselves.
    - Epochs: over histories that start at a genesis block and add an epoch block whenever the
      commitments accepted in between are listed in it, the next transition always succeeds;
      every partition hash is unassigned, a data or a capacity partition, exactly once; the
      replicas of a slot are of distinct staked miners; once Cascade is active the slots whose
      fees settle on the parent are the slots that recycle; the expired range of the Submit
      ledger is exact; water-filling is repeated choice of the lowest holder.  Examples show
      where the agreement of settlement and recycling stops before Cascade.
    - Expired slots, before and after Cascade: the miners of a slot that is collected share
      exactly the pools of the uploads that start in it, and of the Submit ledger exactly the
      uploads that were not promoted on the branch are refunded; the
      per-transaction promotion filter is the walk over all expired slots, so a refunded
      upload can not be promoted.
    - Shadow transactions have exactly one accepted input.  The iterator over those of a block
      never panics and its result has a closed form.  An accepted block moves exactly what its
      shadow transactions say, and treasury and balances together change by the emission of the
      height less a burn, which is the part of fees that is credited to no one; along a chain
      they never exceed those of genesis and the inflation cap.
    - Data transactions: on a chain of accepted blocks every data transaction is stored once
      and promoted at most once, after it was stored; what a node accepts after a chain depends
      on the chain alone and not on the branch its index follows; promotions have the ingress
      proofs of distinct stakers that the rewards are paid for.  A fork below the window of
      transaction anchors is refused although the block tree still admits it.  Fees that the
      API quoted pass the price check up to the next change of prices (in its last quarter, the
      one after), while no fee parameter changes and, before Delta, no cycle of the term ends.
    - Block production: a block passes the header checks of every node with the same parent; a
      solution is skipped or fails only for the listed reasons; and on the node that built it
      the block passes the reward checks and the whole check of shadow transactions.

    ** Parameters, bounds and fuel

    - Code of other crates is a parameter: SHA-256 with the length of its digests ([Sha256]),
      the iteration order of hash sets ([HashOrder]) and hash maps ([MapOrder]), the order of
      values under one key of the database ([DupSort]), the commit of the EVM library
      ([RevmState]) and its execution of transactions that are not shadow transactions
      ([transact], which is assumed to make no value in [RevmConserves]), the recovery of
      signers, the payload builder and the engine of the execution layer ([ExecutionLayer],
      assumed to build what it is asked for in [layer_builds]) with its transaction hashes, the
      big-float curve of the capacity target, decimal conversions, constants of the execution
      layer.  Hash functions are not assumed injective, those of EVM transactions for the
      validity of produced blocks apart; [chain_ok] asks that the chain of partition hashes does
      not repeat.
    - The rejection loop of the generator has fuel 33, which [next_range_terminates] shows to
      be enough for every state and bound.  The loops of [Shape] have one round per bit of a
      [u32], the search of the block index 64 rounds, the walks to ancestors a round per
      height, the read of the parent's EVM block a round per attempt, the probes of a slot a
      round per chunk, the reader of the index file a round per
      byte.  The iterator over shadow transactions goes on at most seven times without an
      item, and its callers' loop has a round per item; the theorems about all of them are
      total.  The hypotheses [config_ok], [chain_ok] and [epoch_room] keep the counters of the
      epoch transition below the widths at which the code panics, and [gf_promotions] the sum
      of the ingress rewards of a block below 256 bits.

    ** Not modelled

    The services around these components (mempool, the selection of transactions other than
    promotions, chunk ingress, migration, gossip, the API other than its quotes, packing and
    validation scheduling) are asynchronous input and output over a database, a network and a
    file system; failing reads and writes of the database are left out of the modelled parts
    too.  Of the execution layer only shadow transactions are modelled: the rest is code of a
    third-party client.  Storage modules depend on files and crash behaviour.  How close the
    reward curve is to the exponential it approximates is a statement on real functions; only
    its bounds are shown.  Serialisation other than that of shadow transactions and the index
    file is derived by macros of other crates, and signatures are those of a cryptographic
    library.  Within the modelled parts: the checks of signatures and versions of single
    transactions in [prevalidate_block], the anchors of commitments and ingress proofs, the
    chunks that [data_txs_are_valid] reads to verify ingress proofs and the count of proofs by
    assigned miners, the mapping of storage modules to partition assignments, logs and system
    calls of the EVM, and the debug hashes of snapshots. *)

From Stdlib Require Export ZArith Lia ZifyNat ZifyBool Strings.Byte.
From stdpp Require Export base tactics option numbers sets.
From stdpp Require Export list sorting.

#[global] Open Scope Z_scope.
#[export] Set Default Goal Selector "!".

(** [lia] extended to division and modulo by introducing their equations. *)
Ltac div_lia := zify; Z.to_euclidean_division_equations; lia.

(** ** Outcomes of fallible code

    [Ok] and [Err] are the two constructors of Rust's [Result].  [Panic] is a
    call to [expect], [unwrap], an out-of-range index or a failed [assert!]
    that aborts the computation: it is a value of the model so that its absence
    can be a theorem. *)

Inductive result (E A : Type) : Type :=
| Ok (a : A)
| Err (e : E)
| Panic.
Arguments Ok {E A} a.
Arguments Err {E A} e.
Arguments Panic {E A}.

#[export] Instance result_ret {E} : MRet (result E) := fun A a => Ok a.
#[export] Instance result_bind {E} : MBind (result E) := fun A B f m =>
  match m with
  | Ok a => f a
  | Err e => Err e
  | Panic => Panic
  end.
#[export] Instance result_fmap {E} : FMap (result E) := fun A B f m =>
  match m with
  | Ok a => Ok (f a)
  | Err e => Err e
  | Panic => Panic
  end.

(** [Option::expect] and [Option::unwrap]. *)
Definition expect {E A} (o : option A) : result E A :=
  match o with Some a => Ok a | None => Panic end.

(** [Option::ok_or]. *)
Definition ok_or {E A} (o : option A) (e : E) : result E A :=
  match o with Some a => Ok a | None => Err e end.

(** The [From] conversion the [?] operator applies to an error. *)
Definition map_err {E F A} (f : E → F) (r : result E A) : result F A :=
  match r with Ok a => Ok a | Err e => Err (f e) | Panic => Panic end.

(** [Result::expect]. *)
Definition expect_ok {E F A} (r : result E A) : result F A :=
  match r with Ok a => Ok a | Err _ | Panic => Panic end.

Definition is_ok {E A} (r : result E A) : bool :=
  match r with Ok _ => true | _ => false end.

(** Guards of the form [if c { return Err(e) }]. *)
Definition guard_err {E} (c : bool) (e : E) : result E unit :=
  if c then Err e else Ok tt.

(** Reduce binds of known outcomes and nothing else. *)
Ltac res_simpl :=
  cbn [mbind mret fmap result_bind result_ret result_fmap
       expect expect_ok ok_or map_err guard_err].
Tactic Notation "res_simpl" "in" hyp(H) :=
  cbn [mbind mret fmap result_bind result_ret result_fmap
       expect expect_ok ok_or map_err guard_err] in H.

Lemma bind_ok {E A B} (m : result E A) (f : A → result E B) (b : B) :
  m ≫= f = Ok b ↔ ∃ a, m = Ok a ∧ f a = Ok b.
Proof. destruct m; naive_solver. Qed.

Lemma guard_err_ok {E} (c : bool) (e : E) : guard_err c e = Ok tt ↔ c = false.
Proof. destruct c; naive_solver. Qed.

(** Computations that do not panic. *)
Lemma bind_no_panic {E A B} (m : result E A) (f : A → result E B) : m ≠ Panic → (∀ a, f a ≠ Panic) → m ≫= f ≠ Panic.
Proof. destruct m; cbn; auto. Qed.
Lemma guard_no_panic {E} (c : bool) (e : E) : guard_err c e ≠ Panic.
Proof. by destruct c. Qed.
Lemma ok_or_no_panic {E A} (o : option A) (e : E) : ok_or o e ≠ Panic.
Proof. by destruct o. Qed.
Lemma map_err_no_panic {E F A} (f : E → F) (r : result E A) : r ≠ Panic → map_err f r ≠ Panic.
Proof. by destruct r. Qed.
Lemma ok_no_panic {E A} (a : A) : (Ok a : result E A) ≠ Panic.
Proof. done. Qed.
Lemma err_no_panic {E A} (e : E) : (Err e : result E A) ≠ Panic.
Proof. done. Qed.
Create HintDb no_panic.
#[export] Hint Resolve bind_no_panic guard_no_panic ok_or_no_panic map_err_no_panic ok_no_panic err_no_panic : no_panic.

(** What a computation yields when it succeeds. *)
Definition yields {E A} (P : A → Prop) (r : result E A) : Prop := ∀ a, r = Ok a → P a.
Lemma yields_ok {E A} (P : A → Prop) a : P a → yields (E:=E) P (Ok a).
Proof. by intros HP ? [= <-]. Qed.
Lemma yields_err {E A} (P : A → Prop) e : yields (E:=E) P (Err e).
Proof. done. Qed.
Lemma yields_panic {E A} (P : A → Prop) : yields (E:=E) P Panic.
Proof. done. Qed.
Lemma yields_bind {E A B} (P : A → Prop) (Q : B → Prop) (m : result E A) f : yields P m → (∀ a, P a → yields Q (f a)) → yields Q (m ≫= f).
Proof. intros Hm Hf b (a & Ha & Hb)%bind_ok. by apply (Hf a (Hm a Ha)). Qed.
Lemma yields_map_err {E F A} (P : A → Prop) (f : E → F) (r : result E A) : yields P r → yields P (map_err f r).
Proof. intros Hr a Ha. apply Hr. by destruct r; cbn in Ha; [injection Ha as ->|..]. Qed.
Lemma yields_any {E A} (r : result E A) : yields (λ _, True) r.
Proof. done. Qed.
Lemma yields_ok_or {E A} (P : A → Prop) (o : option A) (e : E) : (∀ a, o = Some a → P a) → yields P (ok_or o e).
Proof. intros Ho a. destruct o; [|done]. intros [= <-]. by apply Ho. Qed.
Create HintDb yields.
#[export] Hint Resolve yields_ok yields_err yields_panic yields_map_err : yields.

Lemma expect_ok_Ok {E F A} (r : result E A) (a : A) :
  @expect_ok E F A r = Ok a ↔ r = Ok a.
Proof. destruct r; naive_solver. Qed.

(** ** Checks as decision procedures

    A check that never panics and succeeds exactly when [P] holds. *)

Definition decides {E} (m : result E ()) (P : Prop) : Prop := m ≠ Panic ∧ (m = Ok () ↔ P).

Declare Scope check_scope.
Notation "m ⊢? P" := (decides m P) (at level 82, P at level 82, no associativity) : check_scope.
#[global] Open Scope check_scope.
Create HintDb checks.

Lemma decides_guard {E} (c : bool) (e : E) (P : Prop) : (c = false ↔ P) → guard_err c e ⊢? P.
Proof. intros HP. split; [by destruct c|]. rewrite <- HP. apply guard_err_ok. Qed.

Lemma decides_bind {E} (m : result E ()) (k : result E ()) (P Q : Prop) :
  m ⊢? P → (P → k ⊢? Q) → (m ≫= λ _, k) ⊢? P ∧ Q.
Proof.
  intros [Hm HP] Hk. unfold decides. destruct m as [[]|e|]; cbn [mbind result_bind].
  - destruct Hk as [Hk1 Hk2]; [by apply HP|]. split; [done|]. rewrite Hk2. naive_solver.
  - split; [done|]. split; [done|]. intros [HPP _]. apply HP in HPP. done.
  - done.
Qed.

Lemma decides_eq {E} (m m' : result E ()) (P : Prop) : m = m' → m' ⊢? P → m ⊢? P.
Proof. by intros ->. Qed.

Lemma decides_guard_eqb {E} a b (e : E) : guard_err (negb (a =? b)) e ⊢? a = b.
Proof. apply decides_guard. rewrite negb_false_iff. apply Z.eqb_eq. Qed.

Lemma decides_guard_dec {E} (P : Prop) `{Decision P} (e : E) : guard_err (negb (bool_decide P)) e ⊢? P.
Proof. apply decides_guard. rewrite negb_false_iff. apply bool_decide_eq_true. Qed.

(** A guard on an equality, up to unfolding of the check it is in. *)
#[export] Hint Extern 0 (decides _ _) =>
  first [apply decides_guard_eqb | apply decides_guard_dec] : checks.

(** ** Machine integers

    A [w]-bit unsigned integer is a [Z] in [0 <= x < 2^w].  Checked operations
    return [None] on overflow, saturating ones clamp. *)

Definition fits (w x : Z) : bool := (0 <=? x) && (x <? 2 ^ w).

Definition checked_add (w a b : Z) : option Z :=
  if a + b <? 2 ^ w then Some (a + b) else None.
Definition checked_mul (w a b : Z) : option Z :=
  if a * b <? 2 ^ w then Some (a * b) else None.
Definition checked_sub (a b : Z) : option Z :=
  if b <=? a then Some (a - b) else None.
Definition saturating_sub (a b : Z) : Z := Z.max 0 (a - b).
Definition saturating_add (w a b : Z) : Z := Z.min (2 ^ w - 1) (a + b).
Definition saturating_mul (w a b : Z) : Z := Z.min (2 ^ w - 1) (a * b).
Definition div_ceil (a b : Z) : Z := (a + b - 1) / b.
Definition is_multiple_of (a b : Z) : bool := if b =? 0 then a =? 0 else a mod b =? 0.
Definition is_power_of_two (x : Z) : bool := (0 <? x) && (2 ^ Z.log2 x =? x).

Fixpoint pos_trailing_zeros (p : positive) : Z :=
  match p with xO q => 1 + pos_trailing_zeros q | _ => 0 end.

(** [u32::trailing_zeros] and [u32::leading_zeros]. *)
Definition trailing_zeros32 (x : Z) : Z :=
  match x with Zpos p => pos_trailing_zeros p | _ => 32 end.
Definition leading_zeros32 (x : Z) : Z :=
  if 0 <? x then 31 - Z.log2 x else 32.

Lemma checked_add_Some w a b c :
  checked_add w a b = Some c ↔ c = a + b ∧ a + b < 2 ^ w.
Proof. unfold checked_add. destruct (Z.ltb_spec (a + b) (2 ^ w)); naive_solver lia. Qed.

Lemma checked_mul_Some w a b c :
  checked_mul w a b = Some c ↔ c = a * b ∧ a * b < 2 ^ w.
Proof. unfold checked_mul. destruct (Z.ltb_spec (a * b) (2 ^ w)); naive_solver lia. Qed.

Lemma checked_sub_Some a b c :
  checked_sub a b = Some c ↔ c = a - b ∧ b ≤ a.
Proof. unfold checked_sub. destruct (Z.leb_spec b a); naive_solver lia. Qed.

Lemma trailing_zeros32_pow2 k : 0 ≤ k → trailing_zeros32 (2 ^ k) = k.
Proof.
  intros Hk. pattern k. apply natlike_ind; [done| |done].
  intros n Hn IH. rewrite Z.pow_succ_r by done.
  assert (0 < 2 ^ n) by (apply Z.pow_pos_nonneg; lia).
  destruct (2 ^ n) as [|p|p]; [lia| |lia].
  change (1 + trailing_zeros32 (Z.pos p) = Z.succ n). lia.
Qed.

Lemma is_power_of_two_spec x :
  is_power_of_two x = true ↔ ∃ k, 0 ≤ k ∧ x = 2 ^ k.
Proof.
  unfold is_power_of_two. rewrite andb_true_iff, Z.ltb_lt, Z.eqb_eq. split.
  - intros [Hx Heq]. exists (Z.log2 x). split; [apply Z.log2_nonneg|lia].
  - intros (k & Hk & ->). split; [apply Z.pow_pos_nonneg; lia|].
    by rewrite Z.log2_pow2.
Qed.

Lemma div_ceil_spec a b : 0 < b → b * (div_ceil a b - 1) < a ≤ b * div_ceil a b.
Proof. unfold div_ceil. intros Hb. pose proof (Z.div_mod (a + b - 1) b).
  pose proof (Z.mod_pos_bound (a + b - 1) b). nia. Qed.

Lemma div_ceil_unique a b q : 0 < b → b * (q - 1) < a ≤ b * q → div_ceil a b = q.
Proof.
  intros Hb Hq. pose proof (div_ceil_spec a b Hb).
  destruct (Z.lt_trichotomy (div_ceil a b) q) as [|[|]]; [nia|done|nia].
Qed.

Lemma div_ceil_lt_iff a b c : 0 < b → c < div_ceil a b ↔ c * b < a.
Proof. intros Hb. pose proof (div_ceil_spec a b Hb). nia. Qed.

Lemma div_ceil_le_iff a b c : 0 < b → div_ceil a b ≤ c ↔ a ≤ c * b.
Proof. intros Hb. pose proof (div_ceil_spec a b Hb). nia. Qed.

(** ** Bytes and big-endian encodings *)

#[export] Instance byte_eq_dec : EqDecision byte := Byte.byte_eq_dec.

Definition byte_of_Z (z : Z) : byte :=
  match Byte.of_N (Z.to_N (z mod 256)) with Some b => b | None => x00 end.
Definition Z_of_byte (b : byte) : Z := Z.of_N (Byte.to_N b).

(** [to_be_bytes] of an integer of [n] bytes. *)
Fixpoint be_bytes (n : nat) (z : Z) : list byte :=
  match n with
  | O => []
  | S n' => byte_of_Z (z / 256 ^ Z.of_nat n') :: be_bytes n' z
  end.

(** [from_be_bytes]. *)
Definition of_be_bytes (l : list byte) : Z :=
  fold_left (fun acc b => acc * 256 + Z_of_byte b) l 0.

Lemma Z_of_byte_range b : 0 ≤ Z_of_byte b < 256.
Proof. unfold Z_of_byte. pose proof (Byte.to_N_bounded b). lia. Qed.

Lemma Z_of_byte_of_Z z : Z_of_byte (byte_of_Z z) = z mod 256.
Proof.
  unfold Z_of_byte, byte_of_Z. pose proof (Z.mod_pos_bound z 256 ltac:(lia)).
  destruct (Byte.of_N _) as [b|] eqn:E.
  - apply Byte.to_of_N in E. lia.
  - apply Byte.of_N_None_iff in E. lia.
Qed.

Lemma byte_of_Z_of_byte b : byte_of_Z (Z_of_byte b) = b.
Proof.
  unfold byte_of_Z. pose proof (Z_of_byte_range b).
  rewrite Z.mod_small by done. unfold Z_of_byte. rewrite N2Z.id.
  by rewrite Byte.of_to_N.
Qed.

Lemma length_be_bytes n z : length (be_bytes n z) = n.
Proof. induction n; simpl; auto. Qed.

Lemma of_be_bytes_acc l acc :
  fold_left (fun acc b => acc * 256 + Z_of_byte b) l acc =
  acc * 256 ^ Z.of_nat (length l) + of_be_bytes l.
Proof.
  unfold of_be_bytes. revert acc. induction l as [|b l IH]; intros acc.
  - cbn. lia.
  - cbn [fold_left length]. rewrite IH, (IH (0 * 256 + _)).
    rewrite Nat2Z.inj_succ, Z.pow_succ_r by lia. ring.
Qed.

Lemma of_be_bytes_cons b l :
  of_be_bytes (b :: l) = Z_of_byte b * 256 ^ Z.of_nat (length l) + of_be_bytes l.
Proof. unfold of_be_bytes at 1. cbn [fold_left]. by rewrite of_be_bytes_acc. Qed.

Lemma of_be_bytes_range l : 0 ≤ of_be_bytes l < 256 ^ Z.of_nat (length l).
Proof.
  induction l as [|b l IH]; [cbn; lia|].
  rewrite of_be_bytes_cons. cbn [length]. rewrite Nat2Z.inj_succ, Z.pow_succ_r by lia.
  pose proof (Z_of_byte_range b). nia.
Qed.

Lemma of_be_bytes_be_bytes_mod n z : of_be_bytes (be_bytes n z) = z mod 256 ^ Z.of_nat n.
Proof.
  induction n as [|n IH]; [cbn; by rewrite Z.mod_1_r|].
  cbn [be_bytes]. rewrite of_be_bytes_cons, IH, length_be_bytes, Z_of_byte_of_Z.
  rewrite Nat2Z.inj_succ, Z.pow_succ_r by lia.
  assert (0 < 256 ^ Z.of_nat n) by (apply Z.pow_pos_nonneg; lia).
  rewrite (Z.mul_comm 256), Z.rem_mul_r by lia. ring.
Qed.

Lemma of_be_bytes_be_bytes n z :
  0 ≤ z < 256 ^ Z.of_nat n → of_be_bytes (be_bytes n z) = z.
Proof. intros Hz. by rewrite of_be_bytes_be_bytes_mod, Z.mod_small. Qed.

Lemma be_bytes_inj n x y :
  0 ≤ x < 256 ^ Z.of_nat n → 0 ≤ y < 256 ^ Z.of_nat n →
  be_bytes n x = be_bytes n y → x = y.
Proof.
  intros Hx Hy Heq. apply (f_equal of_be_bytes) in Heq.
  by rewrite !of_be_bytes_be_bytes in Heq.
Qed.

(** ** Lists *)

(** Induction that consumes two elements at a time. *)
Lemma list_pair_ind {A} (P : list A → Prop) :
  P [] → (∀ x, P [x]) → (∀ x y r, P r → P (x :: y :: r)) → ∀ l, P l.
Proof.
  intros H0 H1 H2 l.
  enough (P l ∧ ∀ x, P (x :: l)) by tauto.
  induction l as [|y l [IH1 IH2]]; split; auto.
Qed.

Lemma app_inj_length {A} (a b c d : list A) :
  length a = length c → a ++ b = c ++ d → a = c ∧ b = d.
Proof. intros Hl Heq. by apply app_inj_1 in Heq. Qed.

Lemma cons_inv {A} (x y : A) (l k : list A) : x :: l = y :: k → x = y ∧ l = k.
Proof. by intros [= -> ->]. Qed.

Lemma list_snoc_cases {A} (l : list A) : l = [] ∨ ∃ l' x, l = l' ++ [x].
Proof. destruct l using rev_ind; eauto. Qed.

(** [&l[a..b]] for an in-range pair of offsets. *)
Definition slice {A} (a b : Z) (l : list A) : list A :=
  take (Z.to_nat b - Z.to_nat a) (drop (Z.to_nat a) l).

(** [u32] left shift: bits past the top are lost. *)
Definition shl32 (x k : Z) : Z := Z.shiftl x k mod 2 ^ 32.

Lemma shl32_small x k : 0 ≤ x → 0 ≤ k → x * 2 ^ k < 2 ^ 32 → shl32 x k = x * 2 ^ k.
Proof.
  intros Hx Hk Hlt. unfold shl32. rewrite Z.shiftl_mul_pow2 by done.
  apply Z.mod_small. pose proof (Z.pow_pos_nonneg 2 k ltac:(lia) Hk). nia.
Qed.

(** [x ^ 1] moves to the other element of a pair. *)
Lemma lxor_1 x : 0 ≤ x → Z.lxor x 1 = if Z.even x then x + 1 else x - 1.
Proof. destruct x as [|p|p]; [done| |lia]. by destruct p. Qed.

Lemma even_of_nat n : Z.even (Z.of_nat n) = Nat.even n.
Proof.
  induction n as [|n IH]; [done|].
  rewrite Nat2Z.inj_succ, Z.even_succ, Nat.even_succ.
  by rewrite <- Z.negb_even, <- Nat.negb_even, IH.
Qed.

Lemma land_1_even x : (Z.land x 1 =? 0) = Z.even x.
Proof.
  change 1 with (Z.ones 1) at 1. rewrite Z.land_ones by lia. change (2 ^ 1) with 2.
  rewrite Zmod_even. by destruct (Z.even x).
Qed.

Lemma take_add_drop {A} (n m k : nat) (l : list A) :
  take (n + m) (drop k l) = take n (drop k l) ++ take m (drop (k + n) l).
Proof. by rewrite <- (drop_drop l n k), take_take_drop. Qed.

(** [slice::chunks_exact(n)]: the full pieces of [n] elements, in order. *)
Fixpoint chunks_exact_fuel {A} (fuel n : nat) (l : list A) : list (list A) :=
  match fuel with
  | O => []
  | S fuel' =>
      if (length l <? n)%nat then []
      else take n l :: chunks_exact_fuel fuel' n (drop n l)
  end.
Definition chunks_exact {A} (n : nat) (l : list A) : list (list A) :=
  chunks_exact_fuel (length l) n l.

Lemma chunks_exact_fuel_concat {A} (n fuel : nat) (ls : list (list A)) :
  (0 < n)%nat → Forall (fun x => length x = n) ls → (length ls ≤ fuel)%nat →
  chunks_exact_fuel fuel n (concat ls) = ls.
Proof.
  intros Hn Hls. revert fuel. induction Hls as [|x ls Hx Hls IH]; intros fuel Hf.
  - destruct fuel; [done|]. cbn [concat chunks_exact_fuel length].
    destruct (Nat.ltb_spec 0 n); [done|lia].
  - destruct fuel as [|fuel]; [cbn in Hf; lia|]. cbn [chunks_exact_fuel concat].
    rewrite length_app, Hx. destruct (Nat.ltb_spec (n + length (concat ls)) n); [lia|].
    rewrite take_app_length', drop_app_length' by done. f_equal.
    apply IH. cbn in Hf. lia.
Qed.

Lemma length_concat_const {A} (n : nat) (ls : list (list A)) :
  Forall (fun x => length x = n) ls → length (concat ls) = (length ls * n)%nat.
Proof. induction 1 as [|x ls Hx _ IH]; [done|]. cbn. rewrite length_app, IH, Hx. done. Qed.

Lemma chunks_exact_concat {A} (n : nat) (ls : list (list A)) :
  (0 < n)%nat → Forall (fun x => length x = n) ls → chunks_exact n (concat ls) = ls.
Proof.
  intros Hn Hls. apply chunks_exact_fuel_concat; [done..|].
  rewrite (length_concat_const n) by done. nia.
Qed.

(** A list of [k * n] elements splits into [k] pieces. *)
Lemma chunks_exact_spec {A} (n k : nat) (l : list A) :
  (0 < n)%nat → length l = (k * n)%nat →
  length (chunks_exact n l) = k ∧ Forall (fun x => length x = n) (chunks_exact n l) ∧
  concat (chunks_exact n l) = l.
Proof.
  intros Hn Hl.
  assert (∃ ls, l = concat ls ∧ length ls = k ∧ Forall (fun x => length x = n) ls)
    as (ls & -> & <- & Hls).
  { revert l Hl. induction k as [|k IH]; intros l Hl.
    - exists []. by destruct l.
    - destruct (IH (drop n l)) as (ls & Heq & Hlen & Hls); [rewrite length_drop; lia|].
      exists (take n l :: ls). cbn. rewrite <- Heq, take_drop. split_and!; [done|lia|].
      constructor; [rewrite length_take; lia|done]. }
  by rewrite chunks_exact_concat.
Qed.

Lemma take_drop_concat_const {A} (n k : nat) (ls : list (list A)) :
  Forall (fun x => length x = n) ls →
  take (k * n) (concat ls) = concat (take k ls) ∧ drop (k * n) (concat ls) = concat (drop k ls).
Proof.
  intros Hls. revert k. induction Hls as [|x ls Hx _ IH]; intros k.
  - cbn [concat]. by rewrite !take_nil, !drop_nil.
  - destruct k as [|k]; [done|]. cbn [Nat.mul concat take drop].
    destruct (IH k) as [IH1 IH2].
    by rewrite take_app_add', drop_app_add', IH1, IH2.
Qed.

Lemma Z_pow2_of_nat k : 2 ^ Z.of_nat k = Z.of_nat (2 ^ k).
Proof. by rewrite Nat2Z.inj_pow. Qed.

Lemma Z_log2_of_nat n : Z.log2 (Z.of_nat n) = Z.of_nat (Nat.log2 n).
Proof.
  destruct n as [|n]; [done|]. apply Z.log2_unique; [lia|].
  pose proof (Nat.log2_spec (S n) ltac:(lia)).
  rewrite <- Nat2Z.inj_succ, !Z_pow2_of_nat. lia.
Qed.

(** ** Sorted lists *)

Lemma StronglySorted_rev {A} (R : A → A → Prop) (l : list A) :
  StronglySorted (flip R) l → StronglySorted R (rev l).
Proof.
  induction 1 as [|x l _ IH Hall]; cbn; [constructor|].
  apply StronglySorted_app_2; [|done|by repeat constructor].
  intros y z Hy Hz. apply list_elem_of_singleton in Hz as ->.
  rewrite Forall_forall in Hall. apply Hall. apply list_elem_of_In, in_rev, list_elem_of_In, Hy.
Qed.

Lemma StronglySorted_take {A} (R : A → A → Prop) n (l : list A) :
  StronglySorted R l → StronglySorted R (take n l).
Proof. rewrite <- (take_drop n l) at 1. apply StronglySorted_app_1_l. Qed.

(** ** Filters and maps *)

Lemma filter_filter_andb {A} (f g : A → bool) (l : list A) :
  List.filter g (List.filter f l) = List.filter (λ x, f x && g x) l.
Proof. induction l as [|x l IH]; [done|]. cbn. destruct (f x); cbn; [destruct (g x)|]; by rewrite IH. Qed.

Lemma filter_none {A} (f : A → bool) (l : list A) : (∀ x, In x l → f x = false) → List.filter f l = [].
Proof. intros Hf. induction l as [|x l IH]; [done|]. cbn. rewrite Hf by (by left). apply IH. intros y Hy. apply Hf. by right. Qed.

Lemma bind_single {A B} (g : A → list B) (x : A) (l : list A) :
  NoDup l → x ∈ l → (∀ y, y ∈ l → y ≠ x → g y = []) → l ≫= g = g x.
Proof.
  intros Hnd Hin Hg. induction Hnd as [|y l Hnot Hnd IH]; [by apply elem_of_nil in Hin|]. cbn [mbind list_bind].
  apply elem_of_cons in Hin as [->|Hin].
  - replace (l ≫= g) with (@nil B); [apply app_nil_r|]. symmetry.
    assert (∀ z, z ∈ l → g z = []) as Hz by (intros z Hz; apply Hg; [by right|by intros ->]). clear -Hz.
    induction l as [|z l IH]; [done|]. cbn [mbind list_bind]. rewrite Hz by left. apply IH. intros w Hw. apply Hz. by right.
  - rewrite (Hg y); [|by left|by intros ->]. apply IH; [done|]. intros z Hz. apply Hg. by right.
Qed.

Lemma bind_nil {A B} (g : A → list B) (l : list A) : (∀ y, y ∈ l → g y = []) → l ≫= g = [].
Proof.
  intros Hg. induction l as [|y l IH]; [done|]. cbn [mbind list_bind]. rewrite Hg by left. apply IH.
  intros z Hz. apply Hg. by right.
Qed.

Lemma omap_fmap_filter {A B} (f : A → bool) (g : A → B) (l : list A) :
  omap (λ x, if f x then Some (g x) else None) l = g <$> List.filter f l.
Proof. induction l as [|x l IH]; [done|]. cbn. by destruct (f x); cbn; rewrite IH. Qed.

Lemma omap_bind_list {A B D} (f : B → option D) (g : A → list B) (l : list A) :
  omap f (l ≫= g) = l ≫= λ x, omap f (g x).
Proof. induction l as [|x l IH]; [done|]. cbn. by rewrite omap_app, IH. Qed.

Lemma list_bind_ext_in {A B} (f g : A → list B) (l : list A) : (∀ x, x ∈ l → f x = g x) → l ≫= f = l ≫= g.
Proof.
  intros Hfg. induction l as [|x l IH]; [done|]. cbn [mbind list_bind]. rewrite (Hfg x) by left.
  f_equal. apply IH. intros y Hy. apply Hfg. by right.
Qed.

Lemma filter_seq_In (f : nat → bool) n i : i ∈ List.filter f (seq 0 n) ↔ (i < n)%nat ∧ f i = true.
Proof. rewrite list_elem_of_In, filter_In, in_seq. naive_solver lia. Qed.

Lemma NoDup_filter_seq (f : nat → bool) n : NoDup (List.filter f (seq 0 n)).
Proof. apply NoDup_ListNoDup, List.NoDup_filter, NoDup_ListNoDup, NoDup_seq. Qed.

Lemma list_filter_id {A} (P : A → Prop) `{!∀ x, Decision (P x)} (l : list A) :
  (∀ x, x ∈ l → P x) → filter P l = l.
Proof.
  intros HP. induction l as [|x l IH]; [done|]. rewrite filter_cons_True by (apply HP; left).
  f_equal. apply IH. intros y Hy. apply HP. by right.
Qed.

(** A downward closed predicate selects a prefix. *)
Lemma filter_seq_prefix (f : nat → bool) n :
  (∀ i j, (i < j < n)%nat → f j = true → f i = true) →
  ∃ m, (m ≤ n)%nat ∧ List.filter f (seq 0 n) = seq 0 m.
Proof.
  induction n as [|n IH]; intros Hf; [by exists 0%nat|].
  destruct IH as (m & Hm & Heq); [intros i j Hij; apply Hf; lia|].
  rewrite seq_S, List.filter_app, Heq. cbn [List.filter Nat.add]. destruct (f n) eqn:Hn.
  - exists (S n). split; [done|]. rewrite seq_S. f_equal.
    assert (length (List.filter f (seq 0 n)) = n) as Hlen; [|rewrite Heq, length_seq in Hlen; by rewrite Hlen].
    rewrite (List.filter_ext_in f (λ _, true)), List.filter_true; [apply length_seq|].
    intros i [_ Hi]%in_seq. apply (Hf i n); [lia|done].
  - exists m. split; [lia|]. apply app_nil_r.
Qed.

Lemma omap_ext_all {A B} (f g : A → option B) (l : list A) : (∀ x, f x = g x) → omap f l = omap g l.
Proof. intros Hfg. by apply list_omap_ext, Forall_Forall2_diag, Forall_true. Qed.

Lemma filter_all {A} (f : A → bool) (l : list A) : (∀ x, x ∈ l → f x = true) → List.filter f l = l.
Proof.
  intros Hf. induction l as [|x l IH]; [done|]. cbn. rewrite Hf by left. f_equal. apply IH.
  intros y Hy. apply Hf. by right.
Qed.

(** ** Loops over lists *)

(** [iter().map(f).collect::<Result<Vec<_>, _>>()]. *)
Lemma mapM_result_ok {E A B} (f : A → result E B) (l : list A) (k : list B) :
  mapM f l = Ok k ↔ Forall2 (λ x y, f x = Ok y) l k.
Proof.
  revert k. induction l as [|x l IH]; intros k; cbn [mapM].
  - split; [by intros [= <-]|]. by intros ->%Forall2_nil_inv_l.
  - rewrite bind_ok. split.
    + intros (y & Hy & (k' & Hk & [= <-])%bind_ok). constructor; [done|by apply IH].
    + intros (y & k' & Hy & Hk & ->)%Forall2_cons_inv_l. exists y. split; [done|]. apply IH in Hk.
      by rewrite Hk.
Qed.

(** [slice::chunks(n)]: pieces of [n] elements, the last one possibly shorter. *)
Fixpoint chunks_fuel {A} (fuel n : nat) (l : list A) : list (list A) :=
  match fuel, l with
  | S fuel', _ :: _ => take n l :: chunks_fuel fuel' n (drop n l)
  | _, _ => []
  end.
Definition chunks {A} (n : nat) (l : list A) : list (list A) := chunks_fuel (length l) n l.

Section Chunks.
  Context {A : Type} (n : nat) (Hn : (0 < n)%nat).
  Implicit Types l : list A.

Lemma chunks_fuel_enough fuel l : (length l ≤ fuel)%nat → chunks_fuel fuel n l = chunks n l.
Proof.
  unfold chunks. generalize (Nat.le_refl (length l)). generalize (length l) at 2 4 as m.
  revert l fuel. enough (∀ m fuel l, (length l ≤ m)%nat → (length l ≤ fuel)%nat → chunks_fuel fuel n l = chunks_fuel m n l)
    as Hgen by (intros; by apply Hgen).
  induction m as [|m IH]; intros fuel [|x l] Hm Hf; [by destruct fuel|cbn in Hm; lia|by destruct fuel|].
  destruct fuel as [|fuel]; [cbn in Hf; lia|]. cbn [chunks_fuel]. f_equal.
  apply IH; rewrite length_drop; cbn [length] in *; lia.
Qed.

Lemma chunks_nil : chunks n (@nil A) = [].
Proof. done. Qed.

Lemma chunks_cons l : l ≠ [] → chunks n l = take n l :: chunks n (drop n l).
Proof.
  intros Hl. destruct l as [|x l]; [done|]. unfold chunks at 1. cbn [length chunks_fuel]. f_equal.
  apply chunks_fuel_enough. rewrite length_drop. cbn [length]. lia.
Qed.

Lemma chunks_ind (P : list A → Prop) : P [] → (∀ l, l ≠ [] → P (drop n l) → P l) → ∀ l, P l.
Proof.
  intros Hnil Hstep l. remember (length l) as m eqn:Hm. revert l Hm.
  induction m as [m IH] using lt_wf_ind. intros l ->.
  destruct l as [|x l]; [done|]. apply Hstep; [done|]. eapply IH; [|done].
  rewrite length_drop. cbn [length]. lia.
Qed.

Lemma chunks_concat l : concat (chunks n l) = l.
Proof.
  induction l as [|l Hl IH] using chunks_ind; [done|].
  rewrite chunks_cons by done. cbn [concat]. by rewrite IH, take_drop.
Qed.

Lemma chunks_of_concat (ls : list (list A)) : Forall (λ x, length x = n) ls → chunks n (concat ls) = ls.
Proof.
  induction 1 as [|x ls Hx _ IH]; [done|]. cbn [concat]. rewrite chunks_cons.
  - by rewrite take_app_length', drop_app_length', IH.
  - intros Hnil%app_nil. destruct Hnil as [-> _]. cbn in Hx. lia.
Qed.

Lemma chunks_nonempty l : Forall (λ x, x ≠ []) (chunks n l).
Proof.
  induction l as [|l Hl IH] using chunks_ind; [done|]. rewrite chunks_cons by done. constructor; [|done].
  destruct l; [done|]. by destruct n; [lia|].
Qed.

Lemma chunks_lookup l i : chunks n l !! i = if (i * n <? length l)%nat then Some (take n (drop (i * n) l)) else None.
Proof.
  revert l. induction i as [|i IH]; intros l.
  - destruct (decide (l = [])) as [->|Hl]; [done|]. rewrite chunks_cons by done. cbn. destruct l; [done|].
    by rewrite drop_0.
  - destruct (decide (l = [])) as [->|Hl]; [by rewrite chunks_nil|]. rewrite chunks_cons by done.
    cbn [lookup list_lookup]. rewrite IH, drop_drop, length_drop.
    replace (n + i * n)%nat with (S i * n)%nat by lia.
    destruct (Nat.ltb_spec (i * n) (length l - n)), (Nat.ltb_spec (S i * n) (length l)); [done|lia|lia|done].
Qed.
End Chunks.

(** ** Sums *)

Definition sum_Z (l : list Z) : Z := foldr Z.add 0 l.

Lemma sum_Z_cons x l : sum_Z (x :: l) = x + sum_Z l.
Proof. done. Qed.

Lemma sum_Z_app l l' : sum_Z (l ++ l') = sum_Z l + sum_Z l'.
Proof. unfold sum_Z. induction l as [|x l IH]; cbn; [done|]. rewrite IH. lia. Qed.

Lemma sum_Z_perm l l' : l ≡ₚ l' → sum_Z l = sum_Z l'.
Proof. induction 1; rewrite ?sum_Z_cons; lia. Qed.

Lemma sum_Z_nonneg l : Forall (λ x, 0 ≤ x) l → 0 ≤ sum_Z l.
Proof. induction 1 as [|x l Hx _ IH]; [done|]. rewrite sum_Z_cons. lia. Qed.

Lemma sum_Z_fmap_add {A} (f g : A → Z) l : sum_Z ((λ a, f a + g a) <$> l) = sum_Z (f <$> l) + sum_Z (g <$> l).
Proof. induction l as [|a l IH]; [done|]. rewrite !fmap_cons, !sum_Z_cons, IH. lia. Qed.
Lemma sum_Z_fmap_opp {A} (f : A → Z) l : sum_Z ((λ a, - f a) <$> l) = - sum_Z (f <$> l).
Proof. induction l as [|a l IH]; [done|]. rewrite !fmap_cons, !sum_Z_cons, IH. lia. Qed.
Lemma sum_Z_fmap_ext {A} (f g : A → Z) l : (∀ a, f a = g a) → sum_Z (f <$> l) = sum_Z (g <$> l).
Proof. intros Heq. induction l as [|a l IH]; [done|]. by rewrite !fmap_cons, !sum_Z_cons, IH, Heq. Qed.
Lemma sum_Z_zero {A} (f : A → Z) l : (∀ a, f a = 0) → sum_Z (f <$> l) = 0.
Proof. intros Heq. induction l as [|a l IH]; [done|]. by rewrite fmap_cons, sum_Z_cons, IH, Heq. Qed.

Lemma sum_Z_take_le i l : Forall (λ x, 0 ≤ x) l → sum_Z (take i l) ≤ sum_Z l.
Proof.
  intros Hl. rewrite <- (take_drop i l) at 2. rewrite sum_Z_app.
  pose proof (sum_Z_nonneg (drop i l) (Forall_drop _ _ _ Hl)). lia.
Qed.

Lemma sum_Z_take_S i l x : l !! i = Some x → sum_Z (take (S i) l) = sum_Z (take i l) + x.
Proof. intros Hx. rewrite (take_S_r _ _ _ Hx), sum_Z_app, sum_Z_cons. change (sum_Z []) with 0. lia. Qed.
