(* ===== verification/SimpleRng.v ===== *)
(** The pseudorandom generator of the partition assignment and of the recall range picker
    ([crates/types/src/simple_rng.rs]).

    The state is a [u32] as a [Z].  [next_range] draws until a value is below the largest
    multiple of its bound; the loop is bounded by fuel, and the bound of 33 draws is shown to
    be enough for every state and every bound. *)

From S2P Require Import Prelude.

(** [SimpleRNG::next] on its state: xorshift. *)
Definition rng_next (seed : Z) : Z :=
  let x := Z.lxor seed (shl32 seed 13) in
  let x := Z.lxor x (Z.shiftr x 17) in
  Z.lxor x (shl32 x 5).

Definition U32_MAX : Z := 2 ^ 32 - 1.

(** The loop of [SimpleRNG::next_range]: [rand] is the value drawn last, which is also the
    state; [None] is a loop that has not ended. *)
Fixpoint next_range_loop (fuel : nat) (threshold rand : Z) : option Z :=
  if threshold <=? rand then
    match fuel with O => None | S fuel' => next_range_loop fuel' threshold (rng_next rand) end
  else Some rand.

Definition RNG_FUEL : nat := 33.

(** [SimpleRNG::next_range]: the new state and the number. *)
Definition next_range (seed max : Z) : option (Z * Z) :=
  let threshold := U32_MAX - U32_MAX mod max in
  rand ← next_range_loop RNG_FUEL threshold (rng_next seed);
  Some (rand, rand mod max).

(** ** Linearity over bits *)

Definition u32 (x : Z) : Prop := 0 ≤ x < 2 ^ 32.

Definition linear (f : Z → Z) : Prop := f 0 = 0 ∧ ∀ x y, f (Z.lxor x y) = Z.lxor (f x) (f y).

Lemma shl32_lxor x y k : 0 ≤ k → shl32 (Z.lxor x y) k = Z.lxor (shl32 x k) (shl32 y k).
Proof.
  intros Hk. unfold shl32. rewrite <- !Z.land_ones by lia. apply Z.bits_inj'. intros n Hn.
  rewrite !Z.land_spec, !Z.lxor_spec, !Z.land_spec, !Z.shiftl_spec, Z.lxor_spec by lia.
  by destruct (Z.testbit x (n - k)), (Z.testbit y (n - k)), (Z.testbit (Z.ones 32) n).
Qed.

Lemma lxor_swap4 a b c d : Z.lxor (Z.lxor a b) (Z.lxor c d) = Z.lxor (Z.lxor a c) (Z.lxor b d).
Proof. rewrite !Z.lxor_assoc. f_equal. rewrite <- !Z.lxor_assoc. f_equal. apply Z.lxor_comm. Qed.

Lemma linear_id : linear (λ x, x).
Proof. done. Qed.
Lemma linear_shl32 f k : 0 ≤ k → linear f → linear (λ x, shl32 (f x) k).
Proof.
  intros Hk [H0 H]. split; [rewrite H0; unfold shl32; by rewrite Z.shiftl_0_l|].
  intros x y. by rewrite H, shl32_lxor.
Qed.
Lemma linear_shiftr f k : linear f → linear (λ x, Z.shiftr (f x) k).
Proof.
  intros [H0 H]. split; [by rewrite H0, Z.shiftr_0_l|]. intros x y. by rewrite H, Z.shiftr_lxor.
Qed.
Lemma linear_lxor f g : linear f → linear g → linear (λ x, Z.lxor (f x) (g x)).
Proof. intros [H0 H] [G0 G]. split; [by rewrite H0, G0|]. intros x y. rewrite H, G. apply lxor_swap4. Qed.
Lemma linear_compose f g : linear f → linear g → linear (λ x, f (g x)).
Proof. intros [H0 H] [G0 G]. split; [by rewrite G0|]. intros x y. by rewrite G, H. Qed.

Ltac lin :=
  first [exact linear_id | lia | apply linear_lxor; lin | apply (linear_shl32 (λ x, x)); lin
        | apply (linear_shiftr (λ x, x)); lin].

Lemma rng_next_linear : linear rng_next.
Proof.
  assert (linear (λ x, Z.lxor x (shl32 x 13))) as H1 by lin.
  assert (linear (λ x, Z.lxor x (Z.shiftr x 17))) as H2 by lin.
  assert (linear (λ x, Z.lxor x (shl32 x 5))) as H3 by lin.
  exact (linear_compose _ _ H3 (linear_compose _ _ H2 H1)).
Qed.

(** Linear functions that agree on the powers of two agree on every word. *)
Lemma linear_ext f g : linear f → linear g → (∀ i, 0 ≤ i < 32 → f (2 ^ i) = g (2 ^ i)) → ∀ x, u32 x → f x = g x.
Proof.
  intros [F0 F] [G0 G] Hb.
  assert (∀ n : nat, (n ≤ 32)%nat → ∀ x, 0 ≤ x < 2 ^ Z.of_nat n → f x = g x) as Hind.
  { induction n as [|n IH]; intros Hn x Hx; [replace x with 0 by lia; congruence|].
    rewrite Nat2Z.inj_succ, Z.pow_succ_r in Hx by lia. set (p := 2 ^ Z.of_nat n) in *.
    assert (0 < p) by (apply Z.pow_pos_nonneg; lia).
    assert (f p = g p) as Hp by (apply Hb; lia).
    destruct (Z.lt_ge_cases x p) as [|Hge]; [apply IH; lia|].
    assert (x = Z.lxor (x - p) p) as ->; [|rewrite F, G, (IH ltac:(lia) (x - p)), Hp by lia; done].
    rewrite <- Z.add_nocarry_lxor; [lia|]. apply Z.bits_inj'. intros k Hk.
    rewrite Z.land_spec, Z.bits_0. destruct (Z.eq_dec k (Z.of_nat n)) as [->|Hne].
    - assert (Z.testbit (x - p) (Z.of_nat n) = false) as -> by
        (apply Z.testbit_false; [lia|]; fold p; rewrite Z.div_small by lia; done). done.
    - unfold p at 2. rewrite Z.pow2_bits_false by lia. apply andb_false_r. }
  intros x Hx. by apply (Hind 32%nat).
Qed.

(** ** Inverting a linear function on words *)

(** The combination of [cols] selected by the bits of [w]. *)
Fixpoint combine_cols (cols : list Z) (w : Z) : Z :=
  match cols with
  | [] => 0
  | c :: cols' => Z.lxor (if Z.odd w then c else 0) (combine_cols cols' (Z.shiftr w 1))
  end.

Lemma combine_cols_linear cols : linear (combine_cols cols).
Proof.
  induction cols as [|c cols [IH0 IH]]; [done|]. split; [done|]. intros x y. cbn.
  rewrite Z.shiftr_lxor, IH, lxor_swap4. f_equal.
  rewrite <- !Z.bit0_odd, Z.lxor_spec. destruct (Z.testbit x 0), (Z.testbit y 0); cbn;
    by rewrite ?Z.lxor_nilpotent, ?Z.lxor_0_r, ?Z.lxor_0_l.
Qed.

Lemma linear_kernel cols f :
  linear f → forallb (λ i, combine_cols cols (f (2 ^ i)) =? 2 ^ i) (seqZ 0 32) = true →
  ∀ x, u32 x → f x = 0 → x = 0.
Proof.
  intros Hf Hcheck x Hx H0. rewrite forallb_forall in Hcheck.
  assert (combine_cols cols (f x) = x) as <-; [|by rewrite H0; apply combine_cols_linear].
  apply (linear_ext (λ x, combine_cols cols (f x)) (λ x, x)); [|done| |done].
  - apply (linear_compose (combine_cols cols) f); [apply combine_cols_linear|done].
  - intros i Hi. apply Z.eqb_eq, Hcheck, list_elem_of_In, elem_of_seqZ. lia.
Qed.

(** The top bits of the first [n] states from [x], the first one lowest. *)
Fixpoint top_bits (n : nat) (x : Z) : Z :=
  match n with
  | O => 0
  | S n' => Z.lxor (Z.shiftr x 31) (shl32 (top_bits n' (rng_next x)) 1)
  end.

Lemma top_bits_linear n : linear (top_bits n).
Proof.
  induction n as [|n IH]; [done|]. apply linear_lxor; [apply (linear_shiftr (λ x, x)), linear_id|].
  apply (linear_shl32 (λ x, top_bits n (rng_next x))); [lia|].
  apply (linear_compose _ _ IH rng_next_linear).
Qed.

Definition top_cols : list Z :=
  [3183801024; 446090040; 1269823111; 708817979; 949231873; 656472355; 890369982; 487427609;
   316565045; 960135989; 1012172739; 1387167014; 196914901; 1129115425; 1462194871;
   810060737; 1685202850; 689188494; 1042885064; 745423343; 1055469212; 763395872; 932787153;
   761159349; 930690279; 510117696; 1583882833; 571358879; 815470777; 2021660338; 1265974946;
   1342210766].
Definition step_cols : list Z :=
  [2456421193; 645318041; 1313818681; 1280725041; 1214537761; 1073741825; 2147483650;
   3502817351; 1901674701; 3803349402; 3351756863; 2408546430; 522125564; 4009148859;
   260538430; 3485974591; 2676981886; 1058996476; 2935407035; 2408022078; 521076860;
   4007051451; 264733246; 3477587007; 2660206718; 1025446140; 2868306363; 2273820734;
   252674172; 3470246075; 2645524854; 3912565156].

(** A state is determined by 32 top bits, and 0 is the only state that [rng_next] fixes. *)
Lemma top_bits_kernel x : u32 x → top_bits 32 x = 0 → x = 0.
Proof. apply (linear_kernel top_cols _ (top_bits_linear 32)). vm_compute. reflexivity. Qed.

Lemma rng_fixed_point x : u32 x → rng_next x = x → x = 0.
Proof.
  intros Hx Hfix. apply (linear_kernel step_cols (λ x, Z.lxor x (rng_next x))); [|vm_compute; reflexivity|done|].
  - apply linear_lxor; [apply linear_id|apply rng_next_linear].
  - by rewrite Hfix, Z.lxor_nilpotent.
Qed.

(** ** Termination *)

Lemma lxor_u32 x y : u32 x → u32 y → u32 (Z.lxor x y).
Proof.
  intros [Hx0 Hx] [Hy0 Hy]. split; [by apply Z.lxor_nonneg|].
  destruct (Z.eq_dec (Z.lxor x y) 0) as [->|]; [done|]. apply Z.log2_lt_pow2; [pose proof (Z.lxor_nonneg x y); lia|].
  pose proof (Z.log2_lxor x y Hx0 Hy0).
  assert (∀ z, 0 ≤ z < 2 ^ 32 → Z.log2 z < 32).
  { intros z Hz. destruct (Z.eq_dec z 0) as [->|]; [done|]. apply Z.log2_lt_pow2; lia. }
  pose proof (H0 x ltac:(lia)). pose proof (H0 y ltac:(lia)). lia.
Qed.

Lemma shl32_u32 x k : u32 (shl32 x k).
Proof. apply Z.mod_pos_bound. lia. Qed.

Lemma shiftr_u32 x k : 0 ≤ k → u32 x → u32 (Z.shiftr x k).
Proof.
  intros Hk Hx. unfold u32 in *. rewrite Z.shiftr_div_pow2 by done.
  assert (0 < 2 ^ k) by (apply Z.pow_pos_nonneg; lia). split; [apply Z.div_pos; lia|].
  apply Z.le_lt_trans with x; [|lia]. apply Z.div_le_upper_bound; nia.
Qed.

Lemma rng_next_u32 x : u32 x → u32 (rng_next x).
Proof.
  intros Hx. unfold rng_next. apply lxor_u32, shl32_u32.
  apply lxor_u32; [|apply shiftr_u32; [lia|]]; by apply lxor_u32, shl32_u32.
Qed.

Definition top (x : Z) : Prop := 2 ^ 31 ≤ x.

Lemma top_shiftr x : u32 x → top x → Z.shiftr x 31 = 1.
Proof.
  unfold u32, top. intros Hx Ht. rewrite Z.shiftr_div_pow2 by lia. symmetry.
  apply (Z.div_unique _ _ _ (x - 2 ^ 31)); lia.
Qed.

(** Where the top bits of [n + 1] states are all set, those of the differences are all clear. *)
Lemma top_bits_diff n x :
  u32 x → (∀ k, (k ≤ n)%nat → top (Nat.iter k rng_next x)) → top_bits n (Z.lxor x (rng_next x)) = 0.
Proof.
  revert x. induction n as [|n IH]; intros x Hx Ht; [done|]. cbn [top_bits].
  rewrite Z.shiftr_lxor, (top_shiftr x), (top_shiftr (rng_next x)); [|by apply rng_next_u32|exact (Ht 1%nat ltac:(lia))|done|exact (Ht 0%nat ltac:(lia))].
  destruct rng_next_linear as [_ ->]. rewrite IH; [done|by apply rng_next_u32|].
  intros k Hk. rewrite <- Nat.iter_succ_r. apply Ht. lia.
Qed.

Lemma some_low_draw x : u32 x → ∃ k, (k ≤ 32)%nat ∧ Nat.iter k rng_next x < 2 ^ 31.
Proof.
  intros Hx. destruct (decide (Forall (λ k, 2 ^ 31 ≤ Nat.iter k rng_next x) (seq 0 33))) as [Hall|Hex].
  - exfalso. rewrite Forall_seq in Hall. assert (x = 0) as ->.
    { apply rng_fixed_point; [done|].
      assert (Z.lxor x (rng_next x) = 0) as Hd.
      { apply top_bits_kernel; [by apply lxor_u32, rng_next_u32|]. apply top_bits_diff; [done|].
        intros k Hk. apply Hall. lia. }
      by apply Z.lxor_eq in Hd. }
    specialize (Hall 0%nat ltac:(lia)). cbn in Hall. lia.
  - apply not_Forall_Exists in Hex; [|apply _]. apply Exists_exists in Hex as (k & Hk & Hlt).
    unfold compose in Hlt. apply elem_of_seq in Hk. exists k. split; lia.
Qed.

Lemma threshold_high max : 0 < max < 2 ^ 32 → 2 ^ 31 ≤ U32_MAX - U32_MAX mod max.
Proof.
  intros Hm. unfold U32_MAX. pose proof (Z.mod_pos_bound (2 ^ 32 - 1) max ltac:(lia)).
  pose proof (Z.div_mod (2 ^ 32 - 1) max ltac:(lia)).
  assert (1 ≤ (2 ^ 32 - 1) / max) by (apply Z.div_le_lower_bound; lia).
  assert (max * 1 ≤ max * ((2 ^ 32 - 1) / max)) by (apply Z.mul_le_mono_nonneg_l; lia). lia.
Qed.

Lemma next_range_loop_ends k : ∀ fuel threshold x,
  Nat.iter k rng_next x < threshold → (k ≤ fuel)%nat →
  ∃ j, (j ≤ k)%nat ∧ next_range_loop fuel threshold x = Some (Nat.iter j rng_next x) ∧
    Nat.iter j rng_next x < threshold.
Proof.
  induction k as [|k IH]; intros fuel threshold x Hlow Hf.
  - exists 0%nat. cbn in Hlow. split; [lia|]. destruct fuel; cbn; destruct (Z.leb_spec threshold x); try lia; done.
  - destruct (Z.lt_ge_cases x threshold) as [Hx|Hx].
    + exists 0%nat. split; [lia|]. destruct fuel; cbn; destruct (Z.leb_spec threshold x); try lia; done.
    + destruct fuel as [|fuel]; [lia|]. cbn [next_range_loop]. destruct (Z.leb_spec threshold x); [|lia].
      rewrite Nat.iter_succ_r in Hlow. destruct (IH fuel threshold (rng_next x) Hlow ltac:(lia)) as (j & Hj & -> & Hjt).
      exists (S j). rewrite Nat.iter_succ_r. split; [lia|done].
Qed.

Lemma iter_u32 k x : u32 x → u32 (Nat.iter k rng_next x).
Proof. induction k; [done|]. intros. cbn. by apply rng_next_u32; auto. Qed.

Lemma next_range_total seed max :
  u32 seed → 0 < max < 2 ^ 32 →
  ∃ seed' r, next_range seed max = Some (seed', r) ∧ u32 seed' ∧ 0 ≤ r < max.
Proof.
  intros Hs Hm. destruct (some_low_draw (rng_next seed) (rng_next_u32 _ Hs)) as (k & Hk & Hlow).
  pose proof (threshold_high max Hm).
  destruct (next_range_loop_ends k RNG_FUEL (U32_MAX - U32_MAX mod max) (rng_next seed)) as (j & _ & Hj & _);
    [lia|unfold RNG_FUEL; lia|].
  exists (Nat.iter j rng_next (rng_next seed)), (Nat.iter j rng_next (rng_next seed) mod max).
  unfold next_range. rewrite Hj. split; [done|]. split; [by apply iter_u32, rng_next_u32|apply Z.mod_pos_bound; lia].
Qed.

(** A draw that ends the loop is the first one below the threshold. *)
Lemma next_range_loop_first fuel : ∀ threshold x y,
  next_range_loop fuel threshold x = Some y →
  ∃ k, (k ≤ fuel)%nat ∧ y = Nat.iter k rng_next x ∧ y < threshold ∧
    ∀ j, (j < k)%nat → threshold ≤ Nat.iter j rng_next x.
Proof.
  induction fuel as [|fuel IH]; intros threshold x y; cbn [next_range_loop]; destruct (Z.leb_spec threshold x); [done| | |].
  1, 3: intros [= <-]; exists 0%nat; split_and!; [lia|done|done|lia].
  intros (k & Hk & -> & Hlt & Hbelow)%IH. exists (S k). rewrite Nat.iter_succ_r. split_and!; [lia|done|done|].
  intros [|j] Hj; [done|]. rewrite Nat.iter_succ_r. apply Hbelow. lia.
Qed.

(** [next_range] ends for every state and every bound, after at most 33 draws; it returns the
    first draw below the largest multiple of the bound that a word holds, modulo the bound,
    and that draw is the new state. *)
Theorem next_range_terminates seed max :
  u32 seed → 0 < max < 2 ^ 32 →
  ∃ (k : nat) (threshold : Z), (k ≤ 32)%nat ∧ (max | threshold) ∧ U32_MAX - max < threshold ≤ U32_MAX ∧
    let draw j := Nat.iter (S j) rng_next seed in
    next_range seed max = Some (draw k, draw k mod max) ∧ draw k < threshold ∧
    ∀ j, (j < k)%nat → threshold ≤ draw j.
Proof.
  intros Hs Hm. set (t := U32_MAX - U32_MAX mod max). pose proof (threshold_high max Hm) as Hhigh. fold t in Hhigh.
  destruct (some_low_draw (rng_next seed) (rng_next_u32 _ Hs)) as (k & Hk & Hlow).
  destruct (next_range_loop_ends k RNG_FUEL t (rng_next seed)) as (k1 & _ & Hrun1 & _); [lia|unfold RNG_FUEL; lia|].
  destruct (next_range_loop_first _ _ _ _ Hrun1) as (k' & _ & Heq & Hlt & Hbelow).
  assert (k' ≤ k)%nat as Hkk by (destruct (le_lt_dec k' k) as [|Hgt]; [done|]; specialize (Hbelow k Hgt); lia).
  exists k', t. pose proof (Z.mod_pos_bound U32_MAX max ltac:(lia)) as Hmod. split_and!; [lia| |unfold t; lia|unfold t; lia|].
  { exists (U32_MAX / max). unfold t. pose proof (Z.div_mod U32_MAX max ltac:(lia)). lia. }
  cbv zeta. split_and!.
  - unfold next_range. fold t. rewrite Hrun1, Heq. cbn [mbind option_bind]. by rewrite Nat.iter_succ_r.
  - by rewrite Nat.iter_succ_r, <- Heq.
  - intros j Hj. rewrite Nat.iter_succ_r. by apply Hbelow.
Qed.

Lemma next_range_witness :
  next_range 1 7 = Some (270369, 1) ∧
  ∃ (k : nat) (threshold : Z), (k ≤ 32)%nat ∧ (7 | threshold) ∧ U32_MAX - 7 < threshold ≤ U32_MAX ∧
    let draw j := Nat.iter (S j) rng_next 1 in
    next_range 1 7 = Some (draw k, draw k mod 7) ∧ draw k < threshold ∧ ∀ j, (j < k)%nat → threshold ≤ draw j.
Proof. split; [vm_compute; reflexivity|]. apply (next_range_terminates 1 7); [by split|lia]. Defined.
