(* ===== verification/RefTree.v ===== *)
(** Reference Merkle trees: the shape both Irys trees share.

    [build_layer] pairs a layer left to right and carries an unpaired last node
    up unchanged; it is the layer function of the v1 tree
    ([crates/types/src/merkle.rs]) and of the v2 tree
    ([crates/data-tree/src/builder.rs]).  [tree_root] is the recursive
    definition of RFC 6962 (split at the largest power of two below the leaf
    count) and [audit_path] its audit path.  The lemmas relate the two: reducing
    layer by layer gives the recursive root, reading one sibling per layer gives
    the audit path, and a walk over that path from the leaf gives the root. *)

From S2P Require Import Prelude.

Section RefTree.
  Context {A : Type} `{Inhabited A} (node : A → A → A).
  Local Open Scope nat_scope.
  Implicit Types (L : list A) (c h n : nat).

(** One layer up: pair left to right, carry an unpaired last node. *)
Fixpoint build_layer (L : list A) : list A :=
  match L with
  | x :: y :: r => node x y :: build_layer r
  | _ => L
  end.

(** The complete pairs only: what a streaming builder has of the next layer. *)
Fixpoint pair_layer (L : list A) : list A :=
  match L with
  | x :: y :: r => node x y :: pair_layer r
  | _ => []
  end.

(** RFC 6962 tree hash of at most [2 ^ h] leaves. *)
Fixpoint tree_root_at (h : nat) (L : list A) : A :=
  match h with
  | O => default inhabitant (head L)
  | S h' =>
      if length L <=? 2 ^ h' then tree_root_at h' L
      else node (tree_root_at h' (take (2 ^ h') L)) (tree_root_at h' (drop (2 ^ h') L))
  end.

Definition tree_root (L : list A) : A := tree_root_at (Nat.log2_up (length L)) L.

(** RFC 6962 audit path of leaf [c], leaf to root. *)
Fixpoint audit_path_at (h c : nat) (L : list A) : list A :=
  match h with
  | O => []
  | S h' =>
      if length L <=? 2 ^ h' then audit_path_at h' c L
      else if c <? 2 ^ h'
           then audit_path_at h' c (take (2 ^ h') L) ++ [tree_root_at h' (drop (2 ^ h') L)]
           else audit_path_at h' (c - 2 ^ h') (drop (2 ^ h') L)
                ++ [tree_root_at h' (take (2 ^ h') L)]
  end.

Definition audit_path (c : nat) (L : list A) : list A :=
  audit_path_at (Nat.log2_up (length L)) c L.

(** The index of the sibling of node [c] in its layer. *)
Definition sibling_index (c : nat) : nat := if Nat.even c then S c else pred c.

Definition sibling_in (L : list A) (c : nat) : list A :=
  match L !! sibling_index c with Some s => [s] | None => [] end.

(** Every layer from the leaves to the root. *)
Fixpoint full_layers_fuel (n : nat) (L : list A) : list (list A) :=
  match n with
  | O => []
  | S n' =>
      if length L <=? 1 then [L]
      else L :: full_layers_fuel n' (build_layer L)
  end.
Definition full_layers (L : list A) : list (list A) := full_layers_fuel (length L) L.

(** Every layer of complete pairs: the state of a streaming builder. *)
Fixpoint open_layers_fuel (n : nat) (L : list A) : list (list A) :=
  match n, L with
  | S n', _ :: _ => L :: open_layers_fuel n' (pair_layer L)
  | _, _ => []
  end.
Definition open_layers (L : list A) : list (list A) := open_layers_fuel (length L) L.

(** Climb one layer per step, consuming a sibling only where one exists. *)
Fixpoint walk_fuel (n : nat) (r : A) (c last : nat) (sibs : list A) : option A :=
  if last =? 0 then match sibs with [] => Some r | _ :: _ => None end
  else match n with
       | O => None
       | S n' =>
           if Nat.even c && (c =? last)
           then walk_fuel n' r (c / 2) (last / 2) sibs
           else match sibs with
                | [] => None
                | p :: ps =>
                    walk_fuel n' (if Nat.odd c then node p r else node r p)
                              (c / 2) (last / 2) ps
                end
       end.

(** *** Lengths and splits of layers *)

Lemma length_pair_layer L : length (pair_layer L) = length L / 2.
Proof.
  induction L as [|x|x y r IH] using list_pair_ind; [done..|].
  cbn [pair_layer length]. rewrite IH.
  replace (S (S (length r))) with (length r + 1 * 2) by lia.
  rewrite Nat.div_add; lia.
Qed.

Lemma length_build_layer L : length (build_layer L) = (length L + 1) / 2.
Proof.
  induction L as [|x|x y r IH] using list_pair_ind; [done..|].
  cbn [build_layer length]. rewrite IH.
  replace (S (S (length r)) + 1) with (length r + 1 + 1 * 2) by lia.
  rewrite Nat.div_add; lia.
Qed.

Lemma pair_layer_even L : Nat.even (length L) = true → pair_layer L = build_layer L.
Proof.
  induction L as [|x|x y r IH] using list_pair_ind; [done..|].
  cbn. intros Hr. f_equal. by apply IH.
Qed.

Lemma pair_layer_snoc_even L x :
  Nat.even (length L) = true → pair_layer (L ++ [x]) = pair_layer L.
Proof.
  induction L as [|y|y z r IH] using list_pair_ind; [done..|].
  cbn. intros Hr. f_equal. by apply IH.
Qed.

Lemma pair_layer_snoc_odd L x y :
  Nat.even (length L) = true →
  pair_layer (L ++ [x; y]) = pair_layer L ++ [node x y].
Proof.
  induction L as [|w|w z r IH] using list_pair_ind; [done..|].
  cbn. intros Hr. f_equal. by apply IH.
Qed.

Lemma build_layer_snoc_even L x :
  Nat.even (length L) = true → build_layer (L ++ [x]) = pair_layer L ++ [x].
Proof.
  induction L as [|y|y z r IH] using list_pair_ind; [done..|].
  cbn. intros Hr. f_equal. by apply IH.
Qed.

Lemma build_layer_take_drop n L :
  build_layer (take (2 * n) L) = take n (build_layer L) ∧
  build_layer (drop (2 * n) L) = drop n (build_layer L).
Proof.
  revert L. induction n as [|n IH]; intros L; [by rewrite !drop_0|].
  replace (2 * S n) with (S (S (2 * n))) by lia.
  destruct L as [|x [|y r]]; cbn [take drop build_layer]; [done| |].
  - by rewrite take_nil, drop_nil.
  - destruct (IH r) as [IH1 IH2]. by rewrite IH1, IH2.
Qed.

Lemma build_layer_lookup_pair L i x y :
  L !! (2 * i) = Some x → L !! S (2 * i) = Some y →
  build_layer L !! i = Some (node x y).
Proof.
  revert i. induction L as [|w|w z r IH] using list_pair_ind; intros i Hx Hy.
  - done.
  - destruct i; done.
  - destruct i as [|i]; [cbn in *; congruence|].
    replace (2 * S i) with (S (S (2 * i))) in * by lia. cbn in *. by apply IH.
Qed.

Lemma build_layer_lookup_carry L i x :
  L !! (2 * i) = Some x → L !! S (2 * i) = None → build_layer L !! i = Some x.
Proof.
  revert i. induction L as [|w|w z r IH] using list_pair_ind; intros i Hx Hy.
  - done.
  - destruct i; cbn in *; [done|]. by rewrite Nat.add_succ_r in Hx.
  - destruct i as [|i]; [done|].
    replace (2 * S i) with (S (S (2 * i))) in * by lia. cbn in *. by apply IH.
Qed.

(** *** Layer-by-layer reduction computes the recursive root *)

Lemma tree_root_at_build_layer h L :
  L ≠ [] → length L ≤ 2 ^ S h → tree_root_at (S h) L = tree_root_at h (build_layer L).
Proof.
  revert L. induction h as [|h IH]; intros L Hne Hlen.
  - destruct L as [|x [|y [|]]]; cbn in *; [done..|lia].
  - cbn [tree_root_at] in *. rewrite length_build_layer.
    assert (2 ^ S h = 2 * 2 ^ h) as Hp by (cbn; lia).
    assert (2 ^ S (S h) = 2 * 2 ^ S h) as Hp' by (cbn; lia).
    destruct (Nat.leb_spec (length L) (2 ^ S h)).
    + rewrite IH by done.
      destruct (Nat.leb_spec ((length L + 1) / 2) (2 ^ h)) as [|Hgt]; [done|].
      exfalso. assert ((length L + 1) / 2 < S (2 ^ h)); [|lia].
      apply Nat.Div0.div_lt_upper_bound; lia.
    + destruct (Nat.leb_spec ((length L + 1) / 2) (2 ^ h)) as [Hle|].
      { exfalso. assert (S (2 ^ h) ≤ (length L + 1) / 2); [|lia].
        apply Nat.div_le_lower_bound; lia. }
      destruct (build_layer_take_drop (2 ^ h) L) as [Ht Hd].
      rewrite <- Hp in Ht, Hd. rewrite <- Ht, <- Hd.
      rewrite !IH; [done|..].
      * intros Hn%(f_equal length). rewrite length_drop in Hn. cbn in Hn. lia.
      * rewrite length_drop. lia.
      * intros Hn%(f_equal length). rewrite length_take in Hn. cbn in Hn. lia.
      * rewrite length_take. lia.
Qed.

Lemma tree_root_at_more h h' L :
  h ≤ h' → length L ≤ 2 ^ h → tree_root_at h' L = tree_root_at h L.
Proof.
  intros Hh Hlen. induction Hh as [|h' Hh IH]; [done|].
  cbn [tree_root_at]. assert (2 ^ h ≤ 2 ^ h') by (apply Nat.pow_le_mono_r; lia).
  destruct (Nat.leb_spec (length L) (2 ^ h')); [done|lia].
Qed.

Lemma log2_up_pow2_ge n : n ≤ 2 ^ Nat.log2_up n.
Proof.
  destruct (Nat.le_gt_cases n 1) as [Hn|Hn].
  - pose proof (Nat.pow_nonzero 2 (Nat.log2_up n)). lia.
  - pose proof (Nat.log2_up_spec n Hn). lia.
Qed.

Lemma tree_root_enough h L : length L ≤ 2 ^ h → tree_root_at h L = tree_root L.
Proof.
  intros Hlen. unfold tree_root.
  destruct (Nat.le_ge_cases (Nat.log2_up (length L)) h) as [Hle|Hle].
  - apply tree_root_at_more; [done|apply log2_up_pow2_ge].
  - symmetry. by apply tree_root_at_more.
Qed.

Lemma tree_root_singleton x : tree_root [x] = x.
Proof. done. Qed.

(** The recursive equation of RFC 6962: split at the largest power of two below
    the number of leaves. *)
Lemma tree_root_split L :
  2 ≤ length L →
  let k := 2 ^ Nat.log2 (length L - 1) in
  k < length L ≤ 2 * k ∧
  tree_root L = node (tree_root (take k L)) (tree_root (drop k L)).
Proof.
  intros Hlen k.
  pose proof (Nat.log2_spec (length L - 1) ltac:(lia)) as Hk.
  cbn [Nat.pow] in Hk. fold k in Hk.
  split; [lia|].
  rewrite <- (tree_root_enough (S (Nat.log2 (length L - 1)))) by (cbn; fold k; lia).
  cbn [tree_root_at]. fold k. destruct (Nat.leb_spec (length L) k); [lia|].
  rewrite !tree_root_enough; [done|..]; rewrite ?length_drop, ?length_take; fold k; lia.
Qed.

Lemma build_layer_ne L : L ≠ [] → build_layer L ≠ [].
Proof. destruct L as [|x [|y r]]; done. Qed.

Lemma tree_root_build_layer L : L ≠ [] → tree_root (build_layer L) = tree_root L.
Proof.
  intros Hne. set (h := Nat.log2_up (length L)).
  assert (length L ≤ 2 ^ S h).
  { pose proof (log2_up_pow2_ge (length L)). cbn. unfold h. lia. }
  assert (length (build_layer L) ≤ 2 ^ h).
  { rewrite length_build_layer.
    assert ((length L + 1) / 2 < S (2 ^ h)); [|lia].
    apply Nat.Div0.div_lt_upper_bound. cbn in *. lia. }
  rewrite <- (tree_root_enough h), <- (tree_root_enough (S h)) by done.
  symmetry. by apply tree_root_at_build_layer.
Qed.

(** *** One sibling per layer is the audit path *)

Lemma audit_path_at_more h h' c L :
  h ≤ h' → length L ≤ 2 ^ h → audit_path_at h' c L = audit_path_at h c L.
Proof.
  intros Hh Hlen. induction Hh as [|h' Hh IH]; [done|].
  cbn [audit_path_at]. assert (2 ^ h ≤ 2 ^ h') by (apply Nat.pow_le_mono_r; lia).
  destruct (Nat.leb_spec (length L) (2 ^ h')); [done|lia].
Qed.

Lemma audit_path_enough h c L : length L ≤ 2 ^ h → audit_path_at h c L = audit_path c L.
Proof.
  intros Hlen. unfold audit_path.
  destruct (Nat.le_ge_cases (Nat.log2_up (length L)) h) as [Hle|Hle].
  - apply audit_path_at_more; [done|apply log2_up_pow2_ge].
  - symmetry. by apply audit_path_at_more.
Qed.

Lemma even_pow2_S h : Nat.even (2 ^ S h) = true.
Proof. apply Nat.even_spec. exists (2 ^ h). cbn. lia. Qed.

Lemma sibling_in_take n c L :
  Nat.even n = true → c < n → sibling_in (take n L) c = sibling_in L c.
Proof.
  intros Hev Hc. unfold sibling_in. rewrite lookup_take_lt; [done|].
  unfold sibling_index. destruct (Nat.even c) eqn:E; [|lia].
  destruct (decide (S c = n)) as [<-|]; [|lia].
  rewrite Nat.even_succ, <- Nat.negb_even, E in Hev. done.
Qed.

Lemma sibling_in_drop n c L :
  Nat.even n = true → n ≤ c → sibling_in (drop n L) (c - n) = sibling_in L c.
Proof.
  intros Hev Hc. unfold sibling_in. rewrite lookup_drop.
  replace (n + sibling_index (c - n)) with (sibling_index c); [done|].
  unfold sibling_index. rewrite Nat.even_sub, Hev by done.
  destruct (Nat.even c) eqn:E; cbn; [lia|].
  destruct (decide (c = n)) as [->|]; [congruence|lia].
Qed.

Lemma audit_path_at_S h c L :
  audit_path_at (S h) c L =
  (if length L <=? 2 ^ h then audit_path_at h c L
   else if c <? 2 ^ h
   then audit_path_at h c (take (2 ^ h) L) ++ [tree_root_at h (drop (2 ^ h) L)]
   else audit_path_at h (c - 2 ^ h) (drop (2 ^ h) L) ++ [tree_root_at h (take (2 ^ h) L)]).
Proof. done. Qed.

(** The comparisons with a split are the same one layer up. *)
Lemma half_split n c h :
  ((n + 1) / 2 <=? 2 ^ h) = (n <=? 2 ^ S h) ∧ (c / 2 <? 2 ^ h) = (c <? 2 ^ S h) ∧
  (2 ^ S h ≤ c → (c - 2 ^ S h) / 2 = c / 2 - 2 ^ h).
Proof.
  assert (2 ^ S h = 2 * 2 ^ h) as -> by (cbn; lia). generalize (2 ^ h). intros k. split_and!.
  - destruct (Nat.leb_spec n (2 * k)), (Nat.leb_spec ((n + 1) / 2) k); [done|div_lia..|done].
  - destruct (Nat.ltb_spec c (2 * k)), (Nat.ltb_spec (c / 2) k); [done|div_lia..|done].
  - intros. div_lia.
Qed.

Lemma audit_path_at_build_layer h c L :
  c < length L → length L ≤ 2 ^ S h →
  audit_path_at (S h) c L = sibling_in L c ++ audit_path_at h (c / 2) (build_layer L).
Proof.
  revert c L. induction h as [|h IH]; intros c L Hc Hlen.
  - unfold sibling_in.
    destruct L as [|x [|y [|]]]; cbn in *; [lia|..].
    + destruct c; [done|lia].
    + destruct c as [|[|]]; [done..|lia].
    + lia.
  - assert (2 ^ S h = 2 * 2 ^ h) as Hp by (cbn; lia).
    assert (2 ^ S (S h) = 2 * 2 ^ S h) as Hp' by (cbn; lia).
    destruct (half_split (length L) c h) as (Hn & Hsplit & Hdiv).
    rewrite (audit_path_at_S (S h)), (audit_path_at_S h (c / 2)), length_build_layer, Hn, Hsplit.
    destruct (Nat.leb_spec (length L) (2 ^ S h)); [by rewrite IH|].
    destruct (build_layer_take_drop (2 ^ h) L) as [Ht Hd].
    rewrite <- Hp in Ht, Hd. rewrite <- Ht, <- Hd.
    assert (take (2 ^ S h) L ≠ []) as Hnt.
    { intros Hn'%(f_equal length). rewrite length_take in Hn'. cbn in Hn'. lia. }
    assert (drop (2 ^ S h) L ≠ []) as Hnd.
    { intros Hn'%(f_equal length). rewrite length_drop in Hn'. cbn in Hn'. lia. }
    rewrite <- !tree_root_at_build_layer; try done;
      [|rewrite ?length_take, ?length_drop; lia..].
    destruct (Nat.ltb_spec c (2 ^ S h)) as [Hcl|Hcl].
    + rewrite IH by (rewrite length_take; lia).
      rewrite sibling_in_take by (done || apply even_pow2_S).
      by rewrite <- app_assoc.
    + rewrite IH by (rewrite length_drop; lia).
      rewrite sibling_in_drop by (done || apply even_pow2_S).
      by rewrite <- app_assoc, Hdiv.
Qed.

Lemma audit_path_build_layer c L :
  c < length L → 2 ≤ length L →
  audit_path c L = sibling_in L c ++ audit_path (c / 2) (build_layer L).
Proof.
  intros Hc Hlen. set (h := Nat.log2_up (length L)).
  assert (length L ≤ 2 ^ S h).
  { pose proof (log2_up_pow2_ge (length L)). cbn. unfold h. lia. }
  assert (length (build_layer L) ≤ 2 ^ h).
  { rewrite length_build_layer.
    assert ((length L + 1) / 2 < S (2 ^ h)); [|lia].
    apply Nat.Div0.div_lt_upper_bound. cbn in *. lia. }
  rewrite <- (audit_path_enough h (c / 2)), <- (audit_path_enough (S h)) by done.
  by apply audit_path_at_build_layer.
Qed.

(** *** The layers a builder keeps *)

Lemma open_layers_fuel_enough n L :
  length L ≤ n → open_layers_fuel n L = open_layers L.
Proof.
  unfold open_layers. remember (length L) as m eqn:Hm.
  revert n L Hm. induction m as [m IH] using lt_wf_ind; intros n L Hm Hn.
  destruct L as [|x r]; [by destruct n, m|].
  destruct n as [|n]; [cbn in *; lia|]. destruct m as [|m]; [done|].
  cbn [open_layers_fuel]. f_equal.
  pose proof (length_pair_layer (x :: r)) as Hp.
  assert (length (pair_layer (x :: r)) ≤ m) by (rewrite Hp; cbn [length] in *; div_lia).
  rewrite (IH (length (pair_layer (x :: r)))) by (cbn [length] in *; lia || done).
  symmetry. apply IH; [lia|done..].
Qed.

Lemma open_layers_cons L :
  L ≠ [] → open_layers L = L :: open_layers (pair_layer L).
Proof.
  intros Hne. destruct L as [|x r]; [done|].
  unfold open_layers at 1. cbn [length open_layers_fuel]. f_equal.
  apply open_layers_fuel_enough. rewrite length_pair_layer. cbn [length]. div_lia.
Qed.

Lemma full_layers_fuel_enough n L :
  L ≠ [] → length L ≤ n → full_layers_fuel n L = full_layers L.
Proof.
  unfold full_layers. remember (length L) as m eqn:Hm.
  revert n L Hm. induction m as [m IH] using lt_wf_ind; intros n L Hm Hne Hn.
  destruct L as [|x r]; [done|].
  destruct n as [|n]; [cbn in *; lia|]. destruct m as [|m]; [done|].
  cbn [full_layers_fuel].
  destruct (Nat.leb_spec (length (x :: r)) 1); [done|]. f_equal.
  pose proof (length_build_layer (x :: r)) as Hp.
  assert (length (build_layer (x :: r)) ≤ m) by (rewrite Hp; cbn [length] in *; div_lia).
  assert (build_layer (x :: r) ≠ []) by by apply build_layer_ne.
  rewrite (IH (length (build_layer (x :: r)))) by (cbn [length] in *; lia || done).
  symmetry. apply IH; [lia|done..].
Qed.

Lemma full_layers_singleton x : full_layers [x] = [[x]].
Proof. done. Qed.

Lemma full_layers_cons L :
  2 ≤ length L → full_layers L = L :: full_layers (build_layer L).
Proof.
  intros Hlen. unfold full_layers at 1.
  destruct (length L) as [|n] eqn:E; [lia|]. cbn [full_layers_fuel]. rewrite E.
  destruct (Nat.leb_spec (S n) 1); [lia|]. f_equal.
  apply full_layers_fuel_enough.
  - apply build_layer_ne. intros ->. done.
  - rewrite length_build_layer, E. div_lia.
Qed.

(** Strong induction that follows the layers of a tree. *)
Lemma layers_ind (P : list A → Prop) :
  (∀ x, P [x]) → (∀ L, 2 ≤ length L → P (build_layer L) → P L) → ∀ L, L ≠ [] → P L.
Proof.
  intros H1 H2 L. remember (length L) as n eqn:Hn. revert L Hn.
  induction n as [n IH] using lt_wf_ind; intros L Hn Hne.
  destruct L as [|x [|y r]]; [done|apply H1|].
  apply H2; [cbn; lia|]. eapply IH; [|reflexivity|by apply build_layer_ne].
  rewrite length_build_layer. cbn [length] in *. div_lia.
Qed.

Lemma full_layers_root L : L ≠ [] → last (full_layers L) = Some [tree_root L].
Proof.
  intros Hne. pattern L. revert L Hne. apply layers_ind; [done|].
  intros L Hlen IH. rewrite full_layers_cons by done. rewrite last_cons, IH.
  rewrite tree_root_build_layer; [done|]. by intros ->.
Qed.

Lemma full_layers_hd L : L ≠ [] → ∃ rest, full_layers L = L :: rest.
Proof.
  intros Hne. destruct L as [|x [|y r]]; [done|by eexists|].
  rewrite full_layers_cons by (cbn; lia). by eexists.
Qed.

(** Siblings of leaf [c], read from one layer at a time. *)
Fixpoint layer_siblings (c : nat) (layers : list (list A)) : list A :=
  match layers with
  | [] => []
  | L :: ls => sibling_in L c ++ layer_siblings (c / 2) ls
  end.

Lemma layer_siblings_audit_path L c :
  c < length L → layer_siblings c (full_layers L) = audit_path c L.
Proof.
  intros Hc. assert (L ≠ []) as Hne by (by intros ->; cbn in Hc; lia).
  revert c Hc. pattern L. revert L Hne. apply layers_ind.
  - intros x c Hc. cbn in Hc. assert (c = 0) as -> by lia. done.
  - intros L Hlen IH c Hc. rewrite full_layers_cons by done. cbn [layer_siblings].
    rewrite IH by (rewrite length_build_layer; div_lia).
    symmetry. by apply audit_path_build_layer.
Qed.

(** *** Walking up the audit path gives the root *)

Lemma walk_audit_path L : L ≠ [] → ∀ n c r,
  length L ≤ n → L !! c = Some r →
  walk_fuel n r c (length L - 1) (audit_path c L) = Some (tree_root L).
Proof.
  intros Hne. pattern L. revert L Hne. apply layers_ind.
  - intros x n c r Hn Hc. apply lookup_lt_Some in Hc as Hlt. cbn in Hlt.
    assert (c = 0) as -> by lia. cbn in Hc. injection Hc as <-.
    rewrite tree_root_singleton. by destruct n.
  - intros L Hlen IH n c r Hn Hc. pose proof (lookup_lt_Some _ _ _ Hc) as Hlt.
    destruct n as [|n]; [lia|]. cbn [walk_fuel].
    destruct (Nat.eqb_spec (length L - 1) 0); [lia|].
    rewrite audit_path_build_layer by done. unfold sibling_in, sibling_index.
    assert (length (build_layer L) - 1 = (length L - 1) / 2) as Hl2
      by (rewrite length_build_layer; div_lia).
    assert (length (build_layer L) ≤ n) by (rewrite length_build_layer; div_lia).
    assert (L ≠ []) as Hne by (by intros ->).
    rewrite <- (tree_root_build_layer L Hne), <- Hl2, <- Nat.negb_even.
    destruct (Nat.even c) eqn:Hev; cbn [andb negb].
    + apply Nat.even_spec in Hev as [i ->].
      replace (2 * i / 2) with i by div_lia.
      destruct (Nat.eqb_spec (2 * i) (length L - 1)) as [Heq|Hneq].
      * rewrite (lookup_ge_None_2 L (S (2 * i))) by lia. cbn [app].
        apply IH; [done|]. apply build_layer_lookup_carry; [done|].
        apply lookup_ge_None_2. lia.
      * destruct (lookup_lt_is_Some_2 L (S (2 * i))) as [s Hs]; [lia|].
        rewrite Hs. cbn [app]. apply IH; [done|].
        by apply build_layer_lookup_pair.
    + assert (Nat.odd c = true) as Hodd by (by rewrite <- Nat.negb_even, Hev).
      apply Nat.odd_spec in Hodd as [i ->].
      replace ((2 * i + 1) / 2) with i by div_lia.
      replace (pred (2 * i + 1)) with (2 * i) by lia.
      destruct (lookup_lt_is_Some_2 L (2 * i)) as [s Hs]; [lia|].
      rewrite Hs. cbn [app]. apply IH; [done|].
      rewrite Nat.add_1_r in Hc. by apply build_layer_lookup_pair.
Qed.

Lemma length_audit_path_indep L L' c :
  length L = length L' → length (audit_path c L) = length (audit_path c L').
Proof.
  unfold audit_path. intros Hl. rewrite Hl. generalize (Nat.log2_up (length L')).
  intros h. revert L L' c Hl. induction h as [|h IH]; intros L L' c Hl; [done|].
  cbn [audit_path_at]. rewrite Hl.
  destruct (length L' <=? 2 ^ h); [by apply IH|].
  destruct (c <? 2 ^ h); rewrite !length_app; cbn [length]; f_equal;
    apply IH; rewrite ?length_take, ?length_drop; lia.
Qed.
End RefTree.
