(* ===== verification/Geometry.v ===== *)
(** Chunk and segment layout of the v2 data tree ([crates/data-tree/src/geometry.rs]
    and its errors in [error.rs]).

    A [Geometry] holds the three consensus parameters; every length the tree uses
    is computed from them.  [u32] and [u64] values are [Z]; the unchecked product
    and the [as u32] cast of the source keep their wrap-around. *)

From S2P Require Import Prelude.

Definition MAX_SEGMENTS_PER_CHUNK : Z := 256.
Definition MAX_SUBTREE_HEIGHT : Z := trailing_zeros32 MAX_SEGMENTS_PER_CHUNK.

(** [SubtreeHeight::new]: [None] above [MAX_SUBTREE_HEIGHT]. *)
Definition SubtreeHeight_new (height : Z) : option Z :=
  if height <=? MAX_SUBTREE_HEIGHT then Some height else None.

Record Geometry : Type := mkGeometry {
  chunk_size : Z;
  segments_per_chunk : Z;
  max_data_tx_chunks : Z
}.

Inductive GeometryError : Type :=
| GE_SegmentsPerChunk (segments : Z)
| GE_ChunkSizeZero
| GE_ChunkSizeNotMultiple (size segments : Z)
| GE_MaxChunksZero
| GE_MaxDataSizeOverflow.

Inductive SizeError : Type :=
| DataSizeOutOfRange (data_size max_size : Z)
| ChunkIndexOutOfRange (chunk_index count : Z)
| SegmentIndexOutOfRange (segment_index segments : Z).

Definition MAINNET : Geometry := mkGeometry 262144 64 20971520.
Definition TESTING : Geometry := mkGeometry 32 4 20971520.

Definition Geometry_new (cs spc mx : Z) : result GeometryError Geometry :=
  if (MAX_SEGMENTS_PER_CHUNK <? spc) || negb (is_power_of_two spc)
  then Err (GE_SegmentsPerChunk spc)
  else if cs =? 0 then Err GE_ChunkSizeZero
  else if negb (is_multiple_of cs spc) then Err (GE_ChunkSizeNotMultiple cs spc)
  else if mx =? 0 then Err GE_MaxChunksZero
  else match checked_mul 64 cs mx with
       | None => Err GE_MaxDataSizeOverflow
       | Some _ => Ok (mkGeometry cs spc mx)
       end.

Definition segment_size (g : Geometry) : Z := chunk_size g / segments_per_chunk g.
Definition height (g : Geometry) : Z := trailing_zeros32 (segments_per_chunk g).
Definition max_data_size {E} (g : Geometry) : result E Z :=
  expect (checked_mul 64 (chunk_size g) (max_data_tx_chunks g)).

Definition chunk_count (g : Geometry) (data_size : Z) : result SizeError Z :=
  mx ← max_data_size g;
  if (data_size =? 0) || (mx <? data_size)
  then Err (DataSizeOutOfRange data_size mx)
  else Ok (div_ceil data_size (chunk_size g) mod 2 ^ 32).

Definition chunk_len (g : Geometry) (data_size chunk_index : Z) : result SizeError Z :=
  count ← chunk_count g data_size;
  if count <=? chunk_index then Err (ChunkIndexOutOfRange chunk_index count)
  else
    start ← expect (checked_mul 64 chunk_index (chunk_size g));
    remain ← expect (checked_sub data_size start);
    Ok (if remain <? chunk_size g then remain else chunk_size g).

Definition segment_len (g : Geometry) (data_size chunk_index segment_index : Z)
  : result SizeError Z :=
  count ← chunk_count g data_size;
  if count <=? chunk_index then Err (ChunkIndexOutOfRange chunk_index count)
  else if segments_per_chunk g <=? segment_index
  then Err (SegmentIndexOutOfRange segment_index (segments_per_chunk g))
  else
    let ss := segment_size g in
    chunk_start ← expect (checked_mul 64 chunk_index (chunk_size g));
    segment_offset ← expect (checked_mul 64 segment_index ss);
    start ← expect (checked_add 64 chunk_start segment_offset);
    if data_size <=? start then Ok 0
    else
      remain ← expect (checked_sub data_size start);
      Ok (if remain <? ss then remain else ss).

(** ** The invariant of a constructed geometry *)

Record geometry_ok (g : Geometry) : Prop := {
  go_spc : ∃ k, 0 ≤ k ≤ 8 ∧ segments_per_chunk g = 2 ^ k;
  go_chunk_size : 0 < chunk_size g;
  go_multiple : chunk_size g mod segments_per_chunk g = 0;
  go_max : 0 < max_data_tx_chunks g < 2 ^ 32;
  go_product : chunk_size g * max_data_tx_chunks g < 2 ^ 64
}.

(** Segments per chunk and segment size of a valid geometry. *)
Lemma geometry_ok_segments g :
  geometry_ok g →
  1 ≤ segments_per_chunk g ≤ 256 ∧ 1 ≤ segment_size g ∧
  segment_size g * segments_per_chunk g = chunk_size g.
Proof.
  intros [(k & Hk & Hs) Hc Hm _ _]. unfold segment_size.
  assert (1 ≤ segments_per_chunk g ≤ 256).
  { rewrite Hs. split; [apply (Z.pow_le_mono_r 2 0); lia|].
    apply (Z.pow_le_mono_r 2 k 8); lia. }
  pose proof (Z.div_mod (chunk_size g) (segments_per_chunk g) ltac:(lia)). nia.
Qed.

Lemma height_spec g :
  geometry_ok g → 0 ≤ height g ≤ MAX_SUBTREE_HEIGHT ∧ segments_per_chunk g = 2 ^ height g.
Proof.
  intros [(k & Hk & Hs) _ _ _ _]. unfold height. rewrite Hs, trailing_zeros32_pow2 by lia.
  change MAX_SUBTREE_HEIGHT with 8. lia.
Qed.

Lemma max_data_size_spec {E} g :
  geometry_ok g → max_data_size (E:=E) g = Ok (chunk_size g * max_data_tx_chunks g).
Proof.
  intros []. unfold max_data_size, checked_mul.
  by destruct (Z.ltb_spec (chunk_size g * max_data_tx_chunks g) (2 ^ 64)); [|lia].
Qed.

(** The number of chunks of an upload of [n] bytes, when the geometry admits it. *)
Definition admits (g : Geometry) (n : Z) : Prop :=
  1 ≤ n ≤ chunk_size g * max_data_tx_chunks g.

Lemma chunk_count_spec g n :
  geometry_ok g → admits g n →
  chunk_count g n = Ok (div_ceil n (chunk_size g)) ∧
  1 ≤ div_ceil n (chunk_size g) ≤ max_data_tx_chunks g.
Proof.
  intros Hg [Hn1 Hn2]. pose proof Hg as []. unfold chunk_count.
  rewrite max_data_size_spec by done. res_simpl.
  assert (1 ≤ div_ceil n (chunk_size g) ≤ max_data_tx_chunks g) as Hb.
  { split; [|apply div_ceil_le_iff; lia].
    enough (0 < div_ceil n (chunk_size g)) by lia. apply div_ceil_lt_iff; lia. }
  destruct (Z.eqb_spec n 0); [lia|].
  destruct (Z.ltb_spec (chunk_size g * max_data_tx_chunks g) n); [lia|].
  cbn [orb]. rewrite Z.mod_small by lia. done.
Qed.

Lemma chunk_count_err g n :
  geometry_ok g → 0 ≤ n → ¬ admits g n →
  chunk_count g n = Err (DataSizeOutOfRange n (chunk_size g * max_data_tx_chunks g)).
Proof.
  intros Hg Hn Hna. unfold chunk_count. rewrite max_data_size_spec by done. res_simpl.
  unfold admits in Hna. destruct (Z.eqb_spec n 0); [done|].
  destruct (Z.ltb_spec (chunk_size g * max_data_tx_chunks g) n); [done|lia].
Qed.

Lemma chunk_count_Ok_inv g n C :
  geometry_ok g → 0 ≤ n → chunk_count g n = Ok C →
  admits g n ∧ C = div_ceil n (chunk_size g).
Proof.
  intros Hg Hn HC.
  assert (admits g n ∨ ¬ admits g n) as [Ha|Ha] by (unfold admits; lia).
  - destruct (chunk_count_spec g n Hg Ha) as [Heq _]. split; congruence.
  - by rewrite chunk_count_err in HC.
Qed.

(** Every chunk index of an admitted upload has the length the layout gives it,
    and the source's [expect] calls do not fire. *)
Lemma chunk_len_spec g n c :
  geometry_ok g → admits g n → 0 ≤ c < div_ceil n (chunk_size g) →
  chunk_len g n c = Ok (Z.min (chunk_size g) (n - c * chunk_size g)) ∧
  0 < n - c * chunk_size g.
Proof.
  intros Hg Ha Hc. unfold chunk_len.
  destruct (chunk_count_spec g n Hg Ha) as [-> [_ HC]]. pose proof Hg as [].
  assert (c * chunk_size g < n) by (apply div_ceil_lt_iff; lia).
  destruct Ha as [_ Ha]. cbn. destruct (Z.leb_spec (div_ceil n (chunk_size g)) c); [lia|].
  unfold checked_mul. destruct (Z.ltb_spec (c * chunk_size g) (2 ^ 64)); [|lia].
  cbn. unfold checked_sub. destruct (Z.leb_spec (c * chunk_size g) n); [|lia]. cbn.
  split; [|lia]. destruct (Z.ltb_spec (n - c * chunk_size g) (chunk_size g)); f_equal; lia.
Qed.

Lemma chunk_len_Ok_inv g n c l :
  geometry_ok g → 0 ≤ n → 0 ≤ c → chunk_len g n c = Ok l →
  admits g n ∧ c < div_ceil n (chunk_size g) ∧ l = Z.min (chunk_size g) (n - c * chunk_size g).
Proof.
  intros Hg Hn Hc Hl. pose proof Hl as Hl'. unfold chunk_len in Hl.
  apply bind_ok in Hl as (C & HC & Hl).
  apply chunk_count_Ok_inv in HC as [Ha ->]; [|done..].
  destruct (Z.leb_spec (div_ceil n (chunk_size g)) c); [done|].
  destruct (chunk_len_spec g n c Hg Ha ltac:(lia)) as [Heq _].
  split_and!; [done|done|congruence].
Qed.

Lemma segment_len_spec g n c j :
  geometry_ok g → admits g n → 0 ≤ c < div_ceil n (chunk_size g) →
  0 ≤ j < segments_per_chunk g →
  segment_len g n c j =
    Ok (Z.max 0 (Z.min (segment_size g) (n - c * chunk_size g - j * segment_size g))).
Proof.
  intros Hg Ha Hc Hj. unfold segment_len.
  destruct (chunk_count_spec g n Hg Ha) as [-> [_ HC]]. pose proof Hg as [].
  destruct (geometry_ok_segments g Hg) as (Hs1 & Hs2 & Hs3).
  assert (c * chunk_size g < n) by (apply div_ceil_lt_iff; lia).
  destruct Ha as [_ Ha]. cbn. destruct (Z.leb_spec (div_ceil n (chunk_size g)) c); [lia|].
  destruct (Z.leb_spec (segments_per_chunk g) j); [lia|].
  assert (j * segment_size g < chunk_size g) by nia.
  assert (c * chunk_size g + chunk_size g ≤ chunk_size g * max_data_tx_chunks g) by nia.
  unfold checked_mul. destruct (Z.ltb_spec (c * chunk_size g) (2 ^ 64)); [|lia].
  cbn. destruct (Z.ltb_spec (j * segment_size g) (2 ^ 64)); [|nia]. cbn.
  unfold checked_add.
  destruct (Z.ltb_spec (c * chunk_size g + j * segment_size g) (2 ^ 64)); [|lia]. cbn.
  destruct (Z.leb_spec n (c * chunk_size g + j * segment_size g)); [f_equal; lia|].
  unfold checked_sub.
  destruct (Z.leb_spec (c * chunk_size g + j * segment_size g) n); [|lia]. cbn.
  destruct (Z.ltb_spec (n - (c * chunk_size g + j * segment_size g)) (segment_size g));
    f_equal; lia.
Qed.

Lemma segment_len_Ok_inv g n c j l :
  geometry_ok g → 0 ≤ n → 0 ≤ c → 0 ≤ j → segment_len g n c j = Ok l →
  admits g n ∧ c < div_ceil n (chunk_size g) ∧ j < segments_per_chunk g ∧
  l = Z.max 0 (Z.min (segment_size g) (n - c * chunk_size g - j * segment_size g)).
Proof.
  intros Hg Hn Hc Hj Hl. pose proof Hl as Hl'. unfold segment_len in Hl.
  apply bind_ok in Hl as (C & HC & Hl).
  apply chunk_count_Ok_inv in HC as [Ha ->]; [|done..].
  destruct (Z.leb_spec (div_ceil n (chunk_size g)) c); [done|].
  destruct (Z.leb_spec (segments_per_chunk g) j); [done|].
  pose proof (segment_len_spec g n c j Hg Ha ltac:(lia) ltac:(lia)) as Heq.
  split_and!; [done..|congruence].
Qed.

(** Sum of a function over [0 .. count]. *)
Definition sum_below (f : Z → Z) (count : nat) : Z :=
  foldr (fun i acc => f (Z.of_nat i) + acc) 0 (seq 0 count).

(** Consecutive windows of width [w] clipped to [0 .. total] add up to the part of
    the total they reach. *)
Lemma sum_below_windows w total count :
  0 ≤ w → 0 ≤ total →
  sum_below (fun i => Z.max 0 (Z.min w (total - i * w))) count =
    Z.min total (Z.of_nat count * w).
Proof.
  intros Hw Ht. unfold sum_below. induction count as [|k IH]; [cbn; lia|].
  rewrite seq_S, foldr_app. cbn [foldr Nat.add].
  assert (∀ l a, foldr (fun i acc => Z.max 0 (Z.min w (total - Z.of_nat i * w)) + acc) a l =
            a + foldr (fun i acc => Z.max 0 (Z.min w (total - Z.of_nat i * w)) + acc) 0 l)
    as Hacc by (induction l as [|x l IHl]; intros a; cbn; [lia|rewrite IHl; lia]).
  rewrite Hacc, IH. nia.
Qed.

Lemma sum_below_ext f f' count :
  (∀ i, 0 ≤ i < Z.of_nat count → f i = f' i) → sum_below f count = sum_below f' count.
Proof.
  unfold sum_below. intros Hf. induction count as [|k IH]; [done|].
  rewrite seq_S, !foldr_app. cbn [foldr Nat.add]. rewrite (Hf (Z.of_nat k)) by lia.
  generalize (f' (Z.of_nat k) + 0). intros a. revert a.
  assert (∀ i, i ∈ seq 0 k → f (Z.of_nat i) = f' (Z.of_nat i)) as Hl.
  { intros i Hi%elem_of_seq. apply Hf. lia. }
  clear IH Hf. induction (seq 0 k) as [|x l IHl]; intros a; [done|].
  cbn. rewrite IHl by (intros; apply Hl; by right). by rewrite Hl by left.
Qed.

(** The value of a length computation that succeeded. *)
Definition ok_value {E} (r : result E Z) : Z := match r with Ok v => v | _ => 0 end.

(** [Geometry::new] accepts exactly the parameter sets that satisfy the geometry
    invariant: a power of two of at most 256 segments that divides a non-zero chunk
    size, at least one chunk, and a maximum upload that fits in 64 bits. It never
    panics and stores its arguments unchanged. *)
Theorem Geometry_new_accepts_iff_ok cs spc mx g :
  0 ≤ cs < 2 ^ 64 → 0 ≤ spc < 2 ^ 32 → 0 ≤ mx < 2 ^ 32 →
  (Geometry_new cs spc mx = Ok g ↔ g = mkGeometry cs spc mx ∧ geometry_ok g) ∧
  Geometry_new cs spc mx ≠ Panic.
Proof.
  intros Hcs Hspc Hmx. unfold Geometry_new, MAX_SEGMENTS_PER_CHUNK.
  destruct (Z.ltb_spec 256 spc); [|destruct (is_power_of_two spc) eqn:Hp].
  - split; [|done]. split; [done|]. intros [-> Hg].
    apply geometry_ok_segments in Hg. cbn in Hg. lia.
  - apply is_power_of_two_spec in Hp as (k & Hk & Hspc2). cbn [orb negb].
    assert (0 < 2 ^ k) by (apply Z.pow_pos_nonneg; lia).
    assert (k ≤ 8) by (apply (Z.pow_le_mono_r_iff 2); lia).
    unfold is_multiple_of, checked_mul. destruct (Z.eqb_spec spc 0); [lia|].
    destruct (Z.eqb_spec cs 0), (Z.eqb_spec (cs mod spc) 0), (Z.eqb_spec mx 0),
      (Z.ltb_spec (cs * mx) (2 ^ 64)); (split; [|done]); cbn [negb];
      (split; [intros [= <-]|intros [-> []]; cbn in *; lia || done]).
    split; [done|]. constructor; cbn; [exists k|..]; lia.
  - split; [|done]. split; [done|]. intros [-> [(k & Hk & Hspc2) _ _ _ _]]. cbn in Hspc2.
    assert (is_power_of_two spc = true); [|congruence].
    apply is_power_of_two_spec. exists k. lia.
Qed.

(** The layout tiles the upload. For every admitted size the chunk count is
    [ceil(n / chunk_size)], every chunk below it has a length in [1 ..= chunk_size],
    the chunk lengths add up to the upload size, and within each chunk the segment
    lengths add up to the chunk length; none of the [expect] calls fires. *)
Theorem layout_tiles_upload g n :
  geometry_ok g → admits g n →
  ∃ C, chunk_count g n = Ok C ∧ C = div_ceil n (chunk_size g) ∧
    sum_below (fun c => ok_value (chunk_len g n c)) (Z.to_nat C) = n ∧
    ∀ c, 0 ≤ c < C →
      (∃ l, chunk_len g n c = Ok l ∧ 1 ≤ l ≤ chunk_size g ∧
        sum_below (fun j => ok_value (segment_len g n c j))
                  (Z.to_nat (segments_per_chunk g)) = l) ∧
      ∀ j, 0 ≤ j < segments_per_chunk g → is_ok (segment_len g n c j) = true.
Proof.
  intros Hg Ha. destruct (chunk_count_spec g n Hg Ha) as [HC HCb]. pose proof Hg as [].
  destruct (geometry_ok_segments g Hg) as (Hs1 & Hs2 & Hs3).
  pose proof (div_ceil_spec n (chunk_size g) ltac:(lia)).
  exists (div_ceil n (chunk_size g)). split_and!; [done..| |].
  - rewrite (sum_below_ext _ (fun i => Z.max 0 (Z.min (chunk_size g) (n - i * chunk_size g)))).
    + rewrite sum_below_windows by (destruct Ha; lia). destruct Ha. lia.
    + intros i Hi. destruct (chunk_len_spec g n i Hg Ha ltac:(lia)) as [-> ?]. cbn. lia.
  - intros c Hc. split.
    + destruct (chunk_len_spec g n c Hg Ha Hc) as [Hl Hpos].
      eexists. split; [exact Hl|]. split; [lia|].
      rewrite (sum_below_ext _ (fun j => Z.max 0 (Z.min (segment_size g)
        (n - c * chunk_size g - j * segment_size g)))).
      * rewrite sum_below_windows by lia. rewrite Z2Nat.id by lia.
        rewrite (Z.mul_comm (segments_per_chunk g)), Hs3. lia.
      * intros j Hj. by rewrite segment_len_spec by (done || lia).
    + intros j Hj. by rewrite segment_len_spec.
Qed.

Lemma Geometry_new_witness :
  Geometry_new 32 4 20971520 = Ok TESTING ↔ TESTING = mkGeometry 32 4 20971520 ∧ geometry_ok TESTING.
Proof. apply (Geometry_new_accepts_iff_ok 32 4 20971520 TESTING); lia. Defined.

Lemma layout_tiles_witness :
  ∃ C, chunk_count TESTING 100 = Ok C ∧ C = 4 ∧
    sum_below (fun c => ok_value (chunk_len TESTING 100 c)) 4 = 100.
Proof.
  destruct (layout_tiles_upload TESTING 100) as (C & H1 & H2 & H3 & _).
  - constructor; cbn; [exists 2; lia|lia..].
  - unfold admits. cbn. lia.
  - exists C. rewrite H2 in H3. by split_and!.
Defined.
