(* ===== verification/TreeHash.v ===== *)
(** Domain-separated hashing of the v2 data tree ([crates/data-tree/src/hash.rs]).

    SHA-256 is the [sha2] crate, outside the repository: it is the operation of the
    interface [Sha256], whose one law is the width of a digest.  Nothing assumes it
    injective; binding theorems conclude that two accepted proofs agree or exhibit
    two distinct preimages, both hashed by the verifier, with one digest. *)

From S2P Require Import Prelude Geometry.

(** What the tree relies on of the hash function: 32-byte digests. *)
Class Sha256 : Type := {
  sha256 : list byte → list byte;
  sha256_length : ∀ m, length (sha256 m) = 32%nat
}.

Definition HASH_SIZE : nat := 32.

Inductive TreeDomainTag : Type :=
| TagLeaf | TagNode | TagSize | TagChunkKey | TagTicket | TagChunkIndex.

Definition as_byte (t : TreeDomainTag) : byte :=
  match t with
  | TagLeaf => x00 | TagNode => x01 | TagSize => x02
  | TagChunkKey => x03 | TagTicket => x04 | TagChunkIndex => x08
  end.

Section TreeHash.
  Context `{Sha256}.
  Implicit Types (l r m : list byte).

Definition digest (tag : byte) (parts : list (list byte)) : list byte :=
  sha256 (tag :: concat parts).

Definition leaf (bytes : list byte) : list byte := digest (as_byte TagLeaf) [bytes].

Definition node (left right : list byte) : list byte :=
  digest (as_byte TagNode) [left; right].

(** [u16::try_from(...).expect(...)] guards the [be16] field. *)
Definition size_witness {E} (g : Geometry) (data_size : Z) : result E (list byte) :=
  spc ← expect (if fits 16 (segments_per_chunk g) then Some (segments_per_chunk g) else None);
  Ok (digest (as_byte TagSize)
        [be_bytes 8 data_size; be_bytes 8 (chunk_size g); be_bytes 2 spc]).

Definition chunk_key (commitment : list byte) (chunk_index : Z) : list byte :=
  digest (as_byte TagChunkKey) [commitment; be_bytes 4 chunk_index].

Definition chunk_leaf (chunk_index : Z) (root : list byte) : list byte :=
  digest (as_byte TagChunkIndex) [be_bytes 4 chunk_index; root].

(** The table [empty(0) ..= empty(MAX_SUBTREE_HEIGHT)], filled in order. *)
Fixpoint empty_table_from (count : nat) (current : list byte) : list (list byte) :=
  match count with
  | O => []
  | S count' => current :: empty_table_from count' (node current current)
  end.

Definition empty_table : list (list byte) :=
  empty_table_from (Z.to_nat MAX_SUBTREE_HEIGHT + 1) (leaf []).

(** [TABLE[index]] for an index that [SubtreeHeight] keeps in range. *)
Definition empty (empty_height : Z) : list byte :=
  default (replicate HASH_SIZE x00) (empty_table !! Z.to_nat empty_height).

Definition data_commitment {E} (g : Geometry) (root : list byte) (data_size : Z)
  : result E (list byte) :=
  witness ← size_witness g data_size;
  Ok (node root witness).

(** ** Collisions *)

(** Two distinct preimages, one from each list, with the same digest. *)
Definition collides (Q1 Q2 : list (list byte)) : Prop :=
  ∃ x y, x ∈ Q1 ∧ y ∈ Q2 ∧ x ≠ y ∧ sha256 x = sha256 y.

Lemma collides_mono Q1 Q2 Q1' Q2' :
  collides Q1 Q2 → Q1 ⊆ Q1' → Q2 ⊆ Q2' → collides Q1' Q2'.
Proof. intros (x & y & ?). exists x, y. naive_solver. Qed.

Definition node_preimage (left right : list byte) : list byte := x01 :: left ++ right.
Definition leaf_preimage (bytes : list byte) : list byte := x00 :: bytes.
Definition chunk_leaf_preimage (chunk_index : Z) (root : list byte) : list byte :=
  x08 :: be_bytes 4 chunk_index ++ root.
Definition size_preimage (g : Geometry) (data_size : Z) : list byte :=
  x02 :: be_bytes 8 data_size ++ be_bytes 8 (chunk_size g) ++ be_bytes 2 (segments_per_chunk g).

Lemma node_eq l r : node l r = sha256 (node_preimage l r).
Proof. unfold node, digest, node_preimage. cbn. by rewrite app_nil_r. Qed.
Lemma leaf_eq m : leaf m = sha256 (leaf_preimage m).
Proof. unfold leaf, digest, leaf_preimage. cbn. by rewrite app_nil_r. Qed.
Lemma chunk_leaf_eq c m : chunk_leaf c m = sha256 (chunk_leaf_preimage c m).
Proof. unfold chunk_leaf, digest, chunk_leaf_preimage. cbn -[be_bytes]. by rewrite app_nil_r. Qed.

Lemma size_witness_eq {E} g n :
  geometry_ok g → @size_witness E g n = Ok (sha256 (size_preimage g n)).
Proof.
  intros Hg. destruct (geometry_ok_segments g Hg) as [Hs _]. unfold size_witness, fits.
  destruct (Z.leb_spec 0 (segments_per_chunk g)); [|lia].
  destruct (Z.ltb_spec (segments_per_chunk g) (2 ^ 16)); [|lia].
  cbn -[be_bytes]. unfold digest, size_preimage. cbn -[be_bytes]. by rewrite app_nil_r.
Qed.

Lemma length_node l r : length (node l r) = HASH_SIZE.
Proof. apply sha256_length. Qed.
Lemma length_leaf m : length (leaf m) = HASH_SIZE.
Proof. apply sha256_length. Qed.
Lemma length_chunk_leaf c m : length (chunk_leaf c m) = HASH_SIZE.
Proof. apply sha256_length. Qed.

Lemma sha256_same x y : sha256 x = sha256 y → x = y ∨ collides [x] [y].
Proof.
  intros Heq. destruct (decide (x = y)) as [|Hne]; [by left|right].
  exists x, y. rewrite !list_elem_of_singleton. done.
Qed.

Lemma node_same l r l' r' :
  length l = length l' → node l r = node l' r' →
  (l = l' ∧ r = r') ∨ collides [node_preimage l r] [node_preimage l' r'].
Proof.
  rewrite !node_eq. intros Hl [Heq|]%sha256_same; [left|by right].
  injection Heq as Heq. by apply app_inj_length.
Qed.

Lemma leaf_same m m' :
  leaf m = leaf m' → m = m' ∨ collides [leaf_preimage m] [leaf_preimage m'].
Proof. rewrite !leaf_eq. intros [[= ->]|]%sha256_same; auto. Qed.

Lemma chunk_leaf_same c m c' m' :
  0 ≤ c < 2 ^ 32 → 0 ≤ c' < 2 ^ 32 → chunk_leaf c m = chunk_leaf c' m' →
  (c = c' ∧ m = m') ∨ collides [chunk_leaf_preimage c m] [chunk_leaf_preimage c' m'].
Proof.
  rewrite !chunk_leaf_eq. intros Hc Hc' [Heq|]%sha256_same; [left|by right].
  apply (f_equal tail) in Heq. unfold chunk_leaf_preimage in Heq. cbn [tail] in Heq.
  apply app_inj_length in Heq as [Heq ->]; [|by rewrite !length_be_bytes].
  by apply be_bytes_inj in Heq.
Qed.

(** Distinct sizes or geometries have distinct witness preimages. *)
Lemma size_preimage_inj g n g' n' :
  geometry_ok g → geometry_ok g' → 0 ≤ n < 2 ^ 64 → 0 ≤ n' < 2 ^ 64 →
  size_preimage g n = size_preimage g' n' →
  n = n' ∧ chunk_size g = chunk_size g' ∧ segments_per_chunk g = segments_per_chunk g'.
Proof.
  intros Hg Hg' Hn Hn' Heq. apply (f_equal tail) in Heq.
  unfold size_preimage in Heq. cbn [tail] in Heq.
  apply app_inj_length in Heq as [H1 Heq]; [|by rewrite !length_be_bytes].
  apply app_inj_length in Heq as [H2 H3]; [|by rewrite !length_be_bytes].
  pose proof (geometry_ok_segments g Hg). pose proof (geometry_ok_segments g' Hg').
  destruct Hg, Hg'.
  apply be_bytes_inj in H1; [|done..].
  apply be_bytes_inj in H2; [|change (256 ^ Z.of_nat 8) with (2 ^ 64); nia..].
  apply be_bytes_inj in H3; [|change (256 ^ Z.of_nat 2) with (2 ^ 16); lia..].
  done.
Qed.

(** ** Empty subtrees *)

Fixpoint empty_at (k : nat) : list byte :=
  match k with O => leaf [] | S k' => node (empty_at k') (empty_at k') end.

Lemma empty_table_from_lookup count current k :
  (k < count)%nat →
  empty_table_from count current !! k = Some (Nat.iter k (fun h => node h h) current).
Proof.
  revert current k. induction count as [|count IH]; intros current k Hk; [lia|].
  destruct k as [|k]; [done|]. cbn [empty_table_from lookup list_lookup].
  rewrite IH by lia. by rewrite Nat.iter_succ_r.
Qed.

Lemma empty_spec k : (Z.of_nat k ≤ MAX_SUBTREE_HEIGHT) → empty (Z.of_nat k) = empty_at k.
Proof.
  intros Hk. unfold empty, empty_table. rewrite Nat2Z.id.
  rewrite empty_table_from_lookup by lia.
  change (Nat.iter k (fun h => node h h) (leaf []) = empty_at k).
  induction k as [|k IH]; [done|]. cbn [empty_at]. by rewrite Nat.iter_succ, IH by lia.
Qed.
End TreeHash.

(** Close a binding goal with a collision found among a part of the queries. *)
Ltac by_collision H := right; eapply collides_mono; [exact H|set_solver..].
