(* ===== verification/ChunkTree.v ===== *)
(** One chunk is a perfect subtree over its segments ([crates/data-tree/src/chunk.rs]).

    [subtree] is the recursive root of an aligned run of segments, with the table
    shortcut for a run that lies past the bytes.  [seg_tree] is the reference: the
    same perfect tree with every segment hashed at its exact length, no shortcut. *)

From S2P Require Import Prelude RefTree Geometry TreeHash.

Inductive ChunkLengthError : Type :=
| CL_Empty
| CL_TooLong (length size : Z).

Section ChunkTree.
  Context `{Sha256}.
  Implicit Types (g : Geometry) (b : list byte).

(** Root of the aligned subtree of height [subtree_height] at [start_leaf]. *)
Fixpoint subtree {E} (g : Geometry) (bytes : list byte) (start_leaf : Z)
    (subtree_height : nat) : result E (list byte) :=
  let chunk_length := Z.of_nat (length bytes) in
  range_start ← expect (checked_mul 64 start_leaf (segment_size g));
  if chunk_length <=? range_start then
    k ← expect (SubtreeHeight_new (Z.of_nat subtree_height));
    Ok (empty k)
  else
    match subtree_height with
    | O =>
        segment_end ← expect (checked_add 64 range_start (segment_size g));
        Ok (leaf (slice range_start (Z.min segment_end chunk_length) bytes))
    | S h' =>
        let left_subtree_size := shl32 1 (Z.of_nat h') in
        left ← subtree g bytes start_leaf h';
        right_start ← expect (checked_add 32 start_leaf left_subtree_size);
        right ← subtree g bytes right_start h';
        Ok (node left right)
    end.

Definition chunk_root (g : Geometry) (bytes : list byte)
  : result ChunkLengthError (list byte) :=
  let chunk_length := Z.of_nat (length bytes) in
  if chunk_length =? 0 then Err CL_Empty
  else if chunk_size g <? chunk_length then Err (CL_TooLong chunk_length (chunk_size g))
  else subtree g bytes 0 (Z.to_nat (height g)).

(** The loop of [segment_siblings]: one sibling subtree per level. *)
Fixpoint segment_siblings_loop {E} (g : Geometry) (bytes : list byte)
    (remaining level : nat) (node_index : Z) : result E (list (list byte)) :=
  match remaining with
  | O => Ok []
  | S remaining' =>
      let start_leaf := shl32 (Z.lxor node_index 1) (Z.of_nat level) in
      sibling ← subtree g bytes start_leaf level;
      rest ← segment_siblings_loop g bytes remaining' (S level) (Z.shiftr node_index 1);
      Ok (sibling :: rest)
  end.

Definition segment_siblings {E} (g : Geometry) (bytes : list byte) (segment_index : Z)
  : result E (list (list byte)) :=
  segment_siblings_loop g bytes (Z.to_nat (height g)) 0 segment_index.

(** ** Reference: the perfect tree over the segments *)

Local Open Scope nat_scope.

Fixpoint seg_tree (ss : nat) (b : list byte) (start h : nat) : list byte :=
  match h with
  | O => leaf (take ss (drop (start * ss) b))
  | S h' => node (seg_tree ss b start h') (seg_tree ss b (start + 2 ^ h') h')
  end.

(** The preimages hashed for that tree. *)
Fixpoint seg_tree_queries (ss : nat) (b : list byte) (start h : nat) : list (list byte) :=
  match h with
  | O => [leaf_preimage (take ss (drop (start * ss) b))]
  | S h' =>
      node_preimage (seg_tree ss b start h') (seg_tree ss b (start + 2 ^ h') h')
      :: seg_tree_queries ss b start h' ++ seg_tree_queries ss b (start + 2 ^ h') h'
  end.

Lemma length_seg_tree ss b start h : length (seg_tree ss b start h) = HASH_SIZE.
Proof. destruct h; [apply length_leaf|apply length_node]. Qed.

Lemma seg_tree_past ss b start h :
  length b ≤ start * ss → seg_tree ss b start h = empty_at h.
Proof.
  revert start. induction h as [|h IH]; intros start Hlen.
  - cbn. by rewrite drop_ge, take_nil.
  - cbn. rewrite !IH; [done|nia|done].
Qed.

(** Equal roots open to equal bytes, or the two trees exhibit a collision. *)
Lemma seg_tree_binding ss b b' start h :
  seg_tree ss b start h = seg_tree ss b' start h →
  take (2 ^ h * ss) (drop (start * ss) b) = take (2 ^ h * ss) (drop (start * ss) b') ∨
  collides (seg_tree_queries ss b start h) (seg_tree_queries ss b' start h).
Proof.
  revert start. induction h as [|h IH]; intros start Heq.
  - cbn in *. apply leaf_same in Heq. by rewrite Nat.add_0_r.
  - cbn [seg_tree seg_tree_queries] in *.
    apply node_same in Heq as [[Hl Hr]|Hc]; [| |by rewrite !length_seg_tree].
    2: by_collision Hc.
    destruct (IH _ Hl) as [Hl'|Hc].
    2: by_collision Hc.
    destruct (IH _ Hr) as [Hr'|Hc].
    2: by_collision Hc.
    left. replace (2 ^ S h * ss) with (2 ^ h * ss + 2 ^ h * ss) by (cbn; lia).
    rewrite !take_add_drop, Hl'. f_equal.
    by replace (start * ss + 2 ^ h * ss) with ((start + 2 ^ h) * ss) by lia.
Qed.

(** The parent of node [i] at level [l], from the node and its sibling. *)
Lemma seg_tree_parent ss b i l :
  seg_tree ss b (i / 2 * 2 ^ S l) (S l) =
  if Nat.even i
  then node (seg_tree ss b (i * 2 ^ l) l) (seg_tree ss b (sibling_index i * 2 ^ l) l)
  else node (seg_tree ss b (sibling_index i * 2 ^ l) l) (seg_tree ss b (i * 2 ^ l) l).
Proof.
  unfold sibling_index. cbn [seg_tree Nat.pow]. destruct (Nat.even i) eqn:Hev.
  - apply Nat.even_spec in Hev as [q ->].
    replace (2 * q / 2) with q by div_lia. f_equal; f_equal; lia.
  - assert (Nat.odd i = true) as Hodd by (by rewrite <- Nat.negb_even, Hev).
    apply Nat.odd_spec in Hodd as [q ->].
    replace ((2 * q + 1) / 2) with q by div_lia.
    replace (pred (2 * q + 1)) with (2 * q) by lia. f_equal; f_equal; lia.
Qed.

(** In-chunk siblings of node [i], from level [l], of the reference tree. *)
Fixpoint seg_siblings (ss : nat) (b : list byte) (remaining l i : nat) : list (list byte) :=
  match remaining with
  | O => []
  | S r => seg_tree ss b (sibling_index i * 2 ^ l) l :: seg_siblings ss b r (S l) (i / 2)
  end.

Local Open Scope Z_scope.

Lemma sibling_index_Z i : Z.lxor (Z.of_nat i) 1 = Z.of_nat (sibling_index i).
Proof.
  rewrite lxor_1, even_of_nat by lia. unfold sibling_index.
  destruct (Nat.even i) eqn:E; [lia|]. destruct i; [done|lia].
Qed.

Lemma sibling_index_lt i r : (i < 2 ^ S r)%nat → (sibling_index i < 2 ^ S r)%nat.
Proof.
  intros Hi. unfold sibling_index. destruct (Nat.even i) eqn:E; [|lia].
  destruct (decide (S i = 2 ^ S r)%nat) as [Heq|]; [|lia].
  pose proof (even_pow2_S r) as Hev. rewrite <- Heq, Nat.even_succ, <- Nat.negb_even, E in Hev.
  done.
Qed.

(** ** The code computes the reference *)

Lemma subtree_spec {E} g b start h :
  geometry_ok g → (start + 2 ^ h ≤ Z.to_nat (segments_per_chunk g))%nat →
  subtree (E:=E) g b (Z.of_nat start) h = Ok (seg_tree (Z.to_nat (segment_size g)) b start h).
Proof.
  intros Hg. destruct (geometry_ok_segments g Hg) as (Hs1 & Hs2 & Hs3).
  destruct Hg as [_ Hcs _ Hmx Hprod]. revert start. induction h as [|h IH]; intros start Hstart.
  - cbn [Nat.pow] in Hstart.
    assert (Z.of_nat start * segment_size g < chunk_size g) by nia.
    cbn [subtree]. unfold checked_mul.
    destruct (Z.ltb_spec (Z.of_nat start * segment_size g) (2 ^ 64)); [|nia]. res_simpl.
    destruct (Z.leb_spec (Z.of_nat (length b)) (Z.of_nat start * segment_size g)).
    + change (SubtreeHeight_new (Z.of_nat 0)) with (Some (Z.of_nat 0)). res_simpl.
      rewrite empty_spec by done. by rewrite seg_tree_past by nia.
    + unfold checked_add.
      destruct (Z.ltb_spec (Z.of_nat start * segment_size g + segment_size g) (2 ^ 64)); [|nia].
      res_simpl. unfold slice. cbn [seg_tree]. do 2 f_equal.
      replace (Z.to_nat (Z.of_nat start * segment_size g)) with
        (start * Z.to_nat (segment_size g))%nat by nia.
      destruct (Z.min_spec (Z.of_nat start * segment_size g + segment_size g)
        (Z.of_nat (length b))) as [[Hlt ->]|[Hge ->]].
      * f_equal. nia.
      * rewrite Nat2Z.id, !take_ge; [done|..]; rewrite length_drop; nia.
  - assert (2 ^ S h ≤ 256)%nat by (cbn in *; lia).
    assert (S h ≤ 8)%nat by (apply (Nat.pow_le_mono_r_iff 2); [lia|done]).
    assert (Z.of_nat start * segment_size g < chunk_size g) by (cbn in *; nia).
    cbn [subtree]. unfold checked_mul.
    destruct (Z.ltb_spec (Z.of_nat start * segment_size g) (2 ^ 64)); [|nia]. res_simpl.
    destruct (Z.leb_spec (Z.of_nat (length b)) (Z.of_nat start * segment_size g)).
    + unfold SubtreeHeight_new.
      destruct (Z.leb_spec (Z.of_nat (S h)) MAX_SUBTREE_HEIGHT) as [Hle|Hgt].
      2:{ change MAX_SUBTREE_HEIGHT with 8 in Hgt. lia. }
      res_simpl. rewrite empty_spec by done.
      rewrite seg_tree_past; [done|nia].
    + assert (2 ^ S h = 2 ^ h + 2 ^ h)%nat as Hp by (cbn; lia).
      rewrite IH by lia. res_simpl.
      assert (Z.of_nat (2 ^ h) = 2 ^ Z.of_nat h) as Hpz by (by rewrite Nat2Z.inj_pow).
      assert (2 ^ h ≤ 256)%nat by lia.
      rewrite shl32_small by lia. unfold checked_add. rewrite Z.mul_1_l.
      destruct (Z.ltb_spec (Z.of_nat start + 2 ^ Z.of_nat h) (2 ^ 32)); [|lia].
      res_simpl.
      replace (Z.of_nat start + 2 ^ Z.of_nat h) with (Z.of_nat (start + 2 ^ h)) by lia.
      rewrite IH by lia. done.
Qed.

Lemma height_nat g :
  geometry_ok g →
  (2 ^ Z.to_nat (height g))%nat = Z.to_nat (segments_per_chunk g) ∧ (Z.to_nat (height g) ≤ 8)%nat.
Proof.
  intros Hg. destruct (height_spec g Hg) as [Hh ->].
  change MAX_SUBTREE_HEIGHT with 8 in Hh. split; [|lia].
  pose proof (Z.pow_pos_nonneg 2 (height g) ltac:(lia) ltac:(lia)).
  apply Nat2Z.inj. by rewrite Nat2Z.inj_pow, !Z2Nat.id by lia.
Qed.

(** The root of a legal chunk: the perfect tree over its segments. *)
Definition chunk_root_ref (g : Geometry) (b : list byte) : list byte :=
  seg_tree (Z.to_nat (segment_size g)) b 0 (Z.to_nat (height g)).

Definition chunk_root_queries (g : Geometry) (b : list byte) : list (list byte) :=
  seg_tree_queries (Z.to_nat (segment_size g)) b 0 (Z.to_nat (height g)).

Lemma chunk_root_spec g b :
  geometry_ok g → 1 ≤ Z.of_nat (length b) ≤ chunk_size g →
  chunk_root g b = Ok (chunk_root_ref g b).
Proof.
  intros Hg Hb. unfold chunk_root.
  destruct (Z.eqb_spec (Z.of_nat (length b)) 0); [lia|].
  destruct (Z.ltb_spec (chunk_size g) (Z.of_nat (length b))); [lia|].
  destruct (height_nat g Hg) as [Hh _].
  apply (subtree_spec g b 0); [done|]. by rewrite Hh.
Qed.

Lemma chunk_root_ref_binding g b b' :
  geometry_ok g → Z.of_nat (length b) ≤ chunk_size g → Z.of_nat (length b') ≤ chunk_size g →
  chunk_root_ref g b = chunk_root_ref g b' →
  b = b' ∨ collides (chunk_root_queries g b) (chunk_root_queries g b').
Proof.
  intros Hg Hb Hb' Heq. destruct (height_nat g Hg) as [Hh _].
  destruct (geometry_ok_segments g Hg) as (Hs1 & Hs2 & Hs3).
  destruct (seg_tree_binding _ _ _ _ _ Heq) as [Ht|]; [left|by right].
  cbn [Nat.mul] in Ht. rewrite !drop_0, Hh, !take_ge in Ht; [done|nia..].
Qed.

Lemma segment_siblings_loop_spec {E} g b r l i :
  geometry_ok g → (l + r)%nat = Z.to_nat (height g) → (i < 2 ^ r)%nat →
  segment_siblings_loop (E:=E) g b r l (Z.of_nat i) =
    Ok (seg_siblings (Z.to_nat (segment_size g)) b r l i).
Proof.
  intros Hg. destruct (height_nat g Hg) as [Hh Hh8]. revert l i.
  induction r as [|r IH]; intros l i Hlr Hi; [done|].
  cbn [segment_siblings_loop seg_siblings]. rewrite sibling_index_Z.
  pose proof (sibling_index_lt i r Hi) as Hsi.
  assert (2 ^ S r * 2 ^ l = Z.to_nat (segments_per_chunk g))%nat as Hpow.
  { rewrite <- Nat.pow_add_r, <- Hh. f_equal. lia. }
  destruct (geometry_ok_segments g Hg) as (Hs1 & _ & _).
  assert (Z.of_nat (2 ^ l) = 2 ^ Z.of_nat l) as Hpl by (by rewrite Nat2Z.inj_pow).
  rewrite shl32_small; [|lia..|rewrite <- Hpl; nia].
  rewrite <- Hpl, <- Nat2Z.inj_mul.
  rewrite subtree_spec by (done || nia). res_simpl.
  rewrite Z.shiftr_div_pow2 by lia. change (2 ^ 1) with (Z.of_nat 2).
  rewrite <- Nat2Z.inj_div, IH; [done|lia|].
  cbn [Nat.pow] in Hi. div_lia.
Qed.
End ChunkTree.
