(* ===== verification/Shape.v ===== *)
(** Shape of the chunk level ([crates/data-tree/src/shape.rs]): proof depth and the
    RFC 9162 inclusion walk.

    The two loops of the source get a fuel of one round per bit of a [u32], which
    [depth_spec] and [climb_audit_path] show to be enough. *)

From S2P Require Import Prelude RefTree Geometry TreeHash.

Section Shape.
  Context `{Sha256}.

Definition largest_power_of_two_below (chunk_count : Z) : Z :=
  shl32 1 (32 - 1 - leading_zeros32 (chunk_count - 1)).

(** The [while chunk_count > 1] loop of [depth]. *)
Fixpoint depth_loop (fuel : nat) (chunk_index chunk_count sibling_count : Z) : option Z :=
  if chunk_count <=? 1 then Some sibling_count
  else
    match fuel with
    | O => None
    | S fuel' =>
        let left_subtree_size := largest_power_of_two_below chunk_count in
        if chunk_index <? left_subtree_size
        then Some (sibling_count + 1 + trailing_zeros32 left_subtree_size)
        else depth_loop fuel' (chunk_index - left_subtree_size)
               (chunk_count - left_subtree_size) (sibling_count + 1)
    end.

Definition depth (chunk_index chunk_count : Z) : option Z :=
  if (chunk_count =? 0) || (chunk_count <=? chunk_index) then None
  else depth_loop 32 chunk_index chunk_count 0.

(** The inner loop: while the index is even and not zero, both move up a level. *)
Fixpoint shift_even (fuel : nat) (node_index last_index : Z) : Z * Z :=
  match fuel with
  | O => (node_index, last_index)
  | S fuel' =>
      if (Z.land node_index 1 =? 0) && negb (node_index =? 0)
      then shift_even fuel' (Z.shiftr node_index 1) (Z.shiftr last_index 1)
      else (node_index, last_index)
  end.

(** The [for sibling in proof.chunks_exact(HASH_SIZE)] loop of [climb]. *)
Fixpoint climb_loop (running_hash : list byte) (node_index last_index : Z)
    (siblings : list (list byte)) : option (list byte) :=
  match siblings with
  | [] => if last_index =? 0 then Some running_hash else None
  | sibling :: rest =>
      if last_index =? 0 then None
      else if (Z.land node_index 1 =? 1) || (node_index =? last_index) then
        let '(node_index', last_index') := shift_even 32 node_index last_index in
        climb_loop (node sibling running_hash)
          (Z.shiftr node_index' 1) (Z.shiftr last_index' 1) rest
      else
        climb_loop (node running_hash sibling)
          (Z.shiftr node_index 1) (Z.shiftr last_index 1) rest
  end.

Definition climb (running_hash : list byte) (chunk_index chunk_count : Z)
    (proof : list byte) : option (list byte) :=
  if (chunk_count =? 0) || (chunk_count <=? chunk_index)
     || negb (length proof mod HASH_SIZE =? 0)%nat
  then None
  else climb_loop running_hash chunk_index (chunk_count - 1) (chunks_exact HASH_SIZE proof).

(** ** Depth is the length of the audit path *)

Lemma largest_power_of_two_below_spec C :
  2 ≤ C < 2 ^ 32 → largest_power_of_two_below C = 2 ^ Z.log2 (C - 1).
Proof.
  intros HC. unfold largest_power_of_two_below, leading_zeros32.
  destruct (Z.ltb_spec 0 (C - 1)); [|lia].
  pose proof (Z.log2_nonneg (C - 1)). pose proof (Z.log2_spec (C - 1) ltac:(lia)).
  replace (32 - 1 - (31 - Z.log2 (C - 1))) with (Z.log2 (C - 1)) by lia.
  rewrite shl32_small by lia. lia.
Qed.

Lemma audit_path_split {A} `{Inhabited A} (nd : A → A → A) c (L : list A) :
  (2 ≤ length L)%nat →
  let k := (2 ^ Nat.log2 (length L - 1))%nat in
  length (audit_path nd c L) =
  if (c <? k)%nat then S (length (audit_path nd c (take k L)))
  else S (length (audit_path nd (c - k) (drop k L))).
Proof.
  intros Hlen k. destruct (tree_root_split nd L Hlen) as [Hk _]. fold k in Hk.
  rewrite <- (audit_path_enough nd (S (Nat.log2 (length L - 1)))) by (cbn; fold k; lia).
  cbn [audit_path_at]. fold k. destruct (Nat.leb_spec (length L) k); [lia|].
  destruct (c <? k)%nat; rewrite length_app, audit_path_enough by
    (fold k; rewrite ?length_take, ?length_drop; lia); cbn; lia.
Qed.

Lemma length_audit_path_pow2 {A} `{Inhabited A} (nd : A → A → A) m c (L : list A) :
  length L = (2 ^ m)%nat → (c < 2 ^ m)%nat → length (audit_path nd c L) = m.
Proof.
  intros HL Hc. rewrite <- (audit_path_enough nd m) by lia.
  revert c L HL Hc. induction m as [|m IH]; intros c L HL Hc; [done|].
  assert (2 ^ S m = 2 ^ m + 2 ^ m)%nat as Hp by (cbn; lia).
  pose proof (Nat.pow_nonzero 2 m).
  cbn [audit_path_at]. destruct (Nat.leb_spec (length L) (2 ^ m)); [lia|].
  destruct (Nat.ltb_spec c (2 ^ m)); rewrite length_app, IH; cbn; try lia;
    rewrite ?length_take, ?length_drop; lia.
Qed.

Lemma depth_loop_spec {A} `{Inhabited A} (nd : A → A → A) fuel c d (L : list A) :
  L ≠ [] → Z.of_nat (length L) < 2 ^ 32 → Z.of_nat (length L) - 1 < 2 ^ Z.of_nat fuel →
  (c < length L)%nat →
  depth_loop fuel (Z.of_nat c) (Z.of_nat (length L)) d =
    Some (d + Z.of_nat (length (audit_path nd c L))).
Proof.
  revert c d L. induction fuel as [|fuel IH]; intros c d L Hne H32 Hfuel Hc.
  - assert (length L = 1)%nat as Hl by (destruct L; cbn in *; [done|lia]).
    destruct L as [|x [|]]; [done| |done]. cbn. f_equal. lia.
  - cbn [depth_loop]. destruct (Z.leb_spec (Z.of_nat (length L)) 1).
    { destruct L as [|x [|]]; [done| |cbn in *; lia]. cbn. f_equal. lia. }
    rewrite largest_power_of_two_below_spec by lia.
    pose proof (audit_path_split nd c L ltac:(lia)) as Hsplit. cbv zeta in Hsplit.
    destruct (tree_root_split nd L ltac:(lia)) as [Hk _].
    set (m := Nat.log2 (length L - 1)) in *.
    assert (Z.log2 (Z.of_nat (length L) - 1) = Z.of_nat m) as Hm.
    { unfold m. rewrite <- Z_log2_of_nat. f_equal. lia. }
    rewrite Hm. assert (2 ^ Z.of_nat m = Z.of_nat (2 ^ m)) as Hpm by apply Z_pow2_of_nat.
    destruct (Z.ltb_spec (Z.of_nat c) (2 ^ Z.of_nat m)) as [Hcm|Hcm].
    + rewrite trailing_zeros32_pow2 by lia. f_equal. rewrite Hsplit.
      destruct (Nat.ltb_spec c (2 ^ m)); [|lia].
      rewrite (length_audit_path_pow2 nd m) by (rewrite ?length_take; lia). lia.
    + rewrite Hpm.
      replace (Z.of_nat c - Z.of_nat (2 ^ m)) with (Z.of_nat (c - 2 ^ m)) by lia.
      replace (Z.of_nat (length L) - Z.of_nat (2 ^ m))
        with (Z.of_nat (length (drop (2 ^ m) L))) by (rewrite length_drop; lia).
      rewrite IH.
      * f_equal. rewrite Hsplit. destruct (Nat.ltb_spec c (2 ^ m)); lia.
      * intros Hn%(f_equal length). rewrite length_drop in Hn. cbn in Hn. lia.
      * rewrite length_drop. lia.
      * rewrite length_drop.
        assert (Z.of_nat m ≤ Z.of_nat fuel) as Hmf.
        { assert (Z.of_nat m < Z.succ (Z.of_nat fuel)); [|lia].
          apply (Z.pow_lt_mono_r_iff 2); lia. }
        pose proof (Z.pow_le_mono_r 2 _ _ ltac:(lia) Hmf). lia.
      * rewrite length_drop. lia.
Qed.

Lemma depth_spec {A} `{Inhabited A} (nd : A → A → A) c (L : list A) :
  (c < length L)%nat → Z.of_nat (length L) < 2 ^ 32 →
  depth (Z.of_nat c) (Z.of_nat (length L)) = Some (Z.of_nat (length (audit_path nd c L))).
Proof.
  intros Hc HL. unfold depth.
  destruct (Z.eqb_spec (Z.of_nat (length L)) 0); [lia|].
  destruct (Z.leb_spec (Z.of_nat (length L)) (Z.of_nat c)); [lia|]. cbn [orb].
  rewrite (depth_loop_spec nd); [done| |done| |done].
  - by intros ->.
  - change (Z.of_nat 32) with 32. lia.
Qed.

(** ** The walk of the code is the layer-by-layer walk *)

Lemma land_1_odd x : (Z.land x 1 =? 1) = negb (Z.even x).
Proof.
  change 1 with (Z.ones 1) at 1. rewrite Z.land_ones by lia. change (2 ^ 1) with 2.
  rewrite Zmod_even. by destruct (Z.even x).
Qed.

Lemma shiftr_1_of_nat n : Z.shiftr (Z.of_nat n) 1 = Z.of_nat (n / 2).
Proof. rewrite Z.shiftr_div_pow2 by lia. change (2 ^ 1) with 2. by rewrite Nat2Z.inj_div. Qed.

Lemma shift_even_S f x y :
  shift_even (S f) x y =
  if Z.even x && negb (x =? 0) then shift_even f (Z.shiftr x 1) (Z.shiftr y 1) else (x, y).
Proof. cbn [shift_even]. by rewrite land_1_even. Qed.

Lemma shift_even_fuel f x y :
  0 < x < 2 ^ Z.of_nat f → shift_even (S f) x y = shift_even f x y.
Proof.
  revert x y. induction f as [|f IH]; intros x y Hx; [cbn in Hx; lia|].
  rewrite (shift_even_S (S f) x y), (shift_even_S f x y).
  destruct (Z.even x) eqn:Hev; [|done].
  destruct (Z.eqb_spec x 0); [lia|]. cbn [andb negb].
  apply Z.even_spec in Hev as [q ->]. rewrite Z.shiftr_div_pow2 by lia. change (2 ^ 1) with 2.
  replace (2 * q / 2) with q by div_lia. rewrite <- IH; [done|].
  rewrite Nat2Z.inj_succ, Z.pow_succ_r in Hx by lia. lia.
Qed.

Lemma climb_loop_carry r c sibs :
  Nat.even c = true → c ≠ 0%nat → Z.of_nat c < 2 ^ 32 →
  climb_loop r (Z.of_nat c) (Z.of_nat c) sibs =
  climb_loop r (Z.of_nat (c / 2)) (Z.of_nat (c / 2)) sibs.
Proof.
  intros Hev Hc H32. pose proof Hev as Hev'. apply Nat.even_spec in Hev' as [q Hq].
  assert (c / 2 = q)%nat as Hq2 by div_lia.
  destruct sibs as [|p ps]; cbn [climb_loop].
  - destruct (Z.eqb_spec (Z.of_nat c) 0), (Z.eqb_spec (Z.of_nat (c / 2)) 0); lia || done.
  - destruct (Z.eqb_spec (Z.of_nat c) 0), (Z.eqb_spec (Z.of_nat (c / 2)) 0); try lia.
    rewrite !Z.eqb_refl, !orb_true_r.
    rewrite <- (shift_even_fuel 32 (Z.of_nat (c / 2))) by (change (Z.of_nat 32) with 32; lia).
    assert (shift_even 33 (Z.of_nat c) (Z.of_nat c) =
            shift_even 32 (Z.of_nat c) (Z.of_nat c)) as <-
      by (apply shift_even_fuel; change (Z.of_nat 32) with 32; lia).
    rewrite (shift_even_S 32 (Z.of_nat c)), even_of_nat, Hev, shiftr_1_of_nat.
    destruct (Z.eqb_spec (Z.of_nat c) 0); [lia|]. cbn [andb negb].
    by rewrite (shift_even_fuel 32) by (change (Z.of_nat 32) with 32; lia).
Qed.

Lemma climb_loop_walk n r c last sibs :
  (c ≤ last)%nat → (last < 2 ^ n)%nat → Z.of_nat last < 2 ^ 32 →
  climb_loop r (Z.of_nat c) (Z.of_nat last) sibs = walk_fuel node n r c last sibs.
Proof.
  revert r c last sibs. induction n as [|n IH]; intros r c last sibs Hc Hn H32.
  - cbn in Hn. assert (last = 0%nat) as -> by lia. by destruct sibs.
  - cbn [walk_fuel]. destruct (Nat.eqb_spec last 0) as [->|Hl]; [by destruct sibs|].
    assert (c / 2 ≤ last / 2)%nat by div_lia.
    assert (last / 2 < 2 ^ n)%nat by (cbn [Nat.pow] in Hn; div_lia).
    assert (Z.of_nat (last / 2) < 2 ^ 32) by div_lia.
    destruct (Nat.even c) eqn:Hev; cbn [andb].
    + destruct (Nat.eqb_spec c last) as [->|Hne].
      { rewrite climb_loop_carry by done. by apply IH. }
      destruct sibs as [|p ps]; cbn [climb_loop].
      { by destruct (Z.eqb_spec (Z.of_nat last) 0); [lia|]. }
      destruct (Z.eqb_spec (Z.of_nat last) 0); [lia|].
      rewrite land_1_odd, even_of_nat, Hev.
      destruct (Z.eqb_spec (Z.of_nat c) (Z.of_nat last)); [lia|]. cbn [negb orb].
      rewrite !shiftr_1_of_nat, <- Nat.negb_even, Hev. by apply IH.
    + destruct sibs as [|p ps]; cbn [climb_loop].
      { by destruct (Z.eqb_spec (Z.of_nat last) 0); [lia|]. }
      destruct (Z.eqb_spec (Z.of_nat last) 0); [lia|].
      rewrite land_1_odd, even_of_nat, Hev. cbn [negb orb shift_even].
      rewrite land_1_even, even_of_nat, Hev. cbn [andb].
      rewrite !shiftr_1_of_nat, <- Nat.negb_even, Hev. by apply IH.
Qed.

(** ** Completeness of the walk *)

#[local] Instance bytes_inhabited : Inhabited (list byte) := populate [].

Lemma climb_loop_audit_path (L : list (list byte)) c r :
  L !! c = Some r → Z.of_nat (length L) < 2 ^ 32 →
  climb_loop r (Z.of_nat c) (Z.of_nat (length L) - 1) (audit_path node c L) =
    Some (tree_root node L).
Proof.
  intros Hc HL. pose proof (lookup_lt_Some _ _ _ Hc).
  assert (L ≠ []) as Hne by (by intros ->).
  replace (Z.of_nat (length L) - 1) with (Z.of_nat (length L - 1)) by lia.
  pose proof (Nat.pow_gt_lin_r 2 (length L) ltac:(lia)).
  rewrite (climb_loop_walk (length L)) by lia. by apply walk_audit_path.
Qed.

(** ** Acceptance depends on the sibling count alone *)

Lemma climb_loop_same_length r r' fn sn s s' :
  length s = length s' → is_Some (climb_loop r fn sn s) → is_Some (climb_loop r' fn sn s').
Proof.
  revert r r' fn sn s'. induction s as [|p s IH]; intros r r' fn sn [|p' s'] Hl;
    cbn [climb_loop length] in Hl |- *; try lia.
  - by destruct (sn =? 0).
  - destruct (sn =? 0); [done|]. destruct (_ || _).
    + destruct (shift_even 32 fn sn). apply IH. lia.
    + apply IH. lia.
Qed.

Lemma climb_loop_Some_length r r' fn sn s s' :
  is_Some (climb_loop r fn sn s) → is_Some (climb_loop r' fn sn s') → length s = length s'.
Proof.
  revert r r' fn sn s'. induction s as [|p s IH]; intros r r' fn sn [|p' s'];
    cbn [climb_loop length]; destruct (sn =? 0); try done; try (intros []; done); try (intros _ []; done).
  destruct (_ || _).
  - destruct (shift_even 32 fn sn). intros ??. f_equal. eapply IH; done.
  - intros ??. f_equal. eapply IH; done.
Qed.

Lemma climb_loop_Some_iff r c (C : nat) s :
  (c < C)%nat → Z.of_nat C < 2 ^ 32 →
  is_Some (climb_loop r (Z.of_nat c) (Z.of_nat C - 1) s) ↔
  depth (Z.of_nat c) (Z.of_nat C) = Some (Z.of_nat (length s)).
Proof.
  intros Hc HC. set (L := replicate C (@nil byte)).
  assert (length L = C) as HL by apply length_replicate.
  assert (L !! c = Some []) as HLc by (apply lookup_replicate; done).
  pose proof (depth_spec node c L ltac:(lia) ltac:(lia)) as Hd. rewrite HL in Hd.
  pose proof (climb_loop_audit_path L c [] HLc ltac:(lia)) as Hw. rewrite HL in Hw.
  rewrite Hd. split.
  - intros Hs. do 2 f_equal. eapply climb_loop_Some_length; [|exact Hs]. by eexists.
  - intros [= Hlen]. eapply climb_loop_same_length; [|by eexists]. lia.
Qed.

(** ** Binding of the walk *)

(** The node preimages hashed by the walk. *)
Fixpoint climb_queries (running_hash : list byte) (node_index last_index : Z)
    (siblings : list (list byte)) : list (list byte) :=
  match siblings with
  | [] => []
  | sibling :: rest =>
      if (Z.land node_index 1 =? 1) || (node_index =? last_index) then
        let '(node_index', last_index') := shift_even 32 node_index last_index in
        node_preimage sibling running_hash
        :: climb_queries (node sibling running_hash)
             (Z.shiftr node_index' 1) (Z.shiftr last_index' 1) rest
      else
        node_preimage running_hash sibling
        :: climb_queries (node running_hash sibling)
             (Z.shiftr node_index 1) (Z.shiftr last_index 1) rest
  end.

Lemma climb_loop_binding r r' fn sn s s' x :
  length r = length r' →
  Forall (fun h => length h = HASH_SIZE) s → Forall (fun h => length h = HASH_SIZE) s' →
  climb_loop r fn sn s = Some x → climb_loop r' fn sn s' = Some x →
  (r = r' ∧ s = s') ∨ collides (climb_queries r fn sn s) (climb_queries r' fn sn s').
Proof.
  revert r r' fn sn s'. induction s as [|p s IH]; intros r r' fn sn [|p' s'] Hr Hs Hs' H1 H2.
  - cbn in H1, H2. destruct (sn =? 0); [|done]. left. split; congruence.
  - cbn in H1, H2. by destruct (sn =? 0).
  - cbn in H1, H2. by destruct (sn =? 0).
  - apply Forall_cons in Hs as [Hp Hs], Hs' as [Hp' Hs'].
    cbn [climb_loop climb_queries] in *. destruct (sn =? 0); [done|].
    destruct (_ || _).
    + destruct (shift_even 32 fn sn) as [fn' sn'].
      destruct (IH _ _ _ _ _ ltac:(by rewrite !length_node) Hs Hs' H1 H2) as [[Hn ->]|Hc].
      * apply node_same in Hn as [[-> ->]|Hc]; [by left| |congruence].
        by_collision Hc.
      * by_collision Hc.
    + destruct (IH _ _ _ _ _ ltac:(by rewrite !length_node) Hs Hs' H1 H2) as [[Hn ->]|Hc].
      * apply node_same in Hn as [[-> ->]|Hc]; [by left| |done].
        by_collision Hc.
      * by_collision Hc.
Qed.
End Shape.
