(* ===== verification/Builder.v ===== *)
(** The streaming builder and the finished data tree
    ([crates/data-tree/src/builder.rs]).

    A builder keeps every layer of complete pairs; [finish] carries the unpaired
    tails.  The layers are vectors indexed by level: a push appends to one layer and
    cascades while that layer's length is even.  [usize] lengths and levels are
    [nat]; [u32] chunk indices and [u64] sizes are [Z]. *)

From S2P Require Import Prelude RefTree Geometry TreeHash ChunkTree Shape.

Inductive BuildError : Type :=
| BE_ChunkLength (e : ChunkLengthError)
| BE_AfterShortChunk
| BE_TooManyChunks (max_chunks : Z)
| BE_Empty.

Inductive ProofError : Type :=
| PE_Size (e : SizeError)
| PE_InvalidChunkLength (expected actual : Z)
| PE_ChunkRootMismatch.

Record DataTreeBuilder : Type := mkBuilder {
  b_geometry : Geometry;
  b_layers : list (list (list byte));
  b_layer_capacities : list nat;
  b_data_size : Z;
  b_last_chunk_short : bool
}.

Record DataTree : Type := mkTree {
  t_geometry : Geometry;
  t_layers : list (list (list byte));
  t_data_size : Z
}.

(** [u32::try_from(len).expect("chunk count fits u32")]. *)
Definition len_u32 {E} (n : nat) : result E Z :=
  expect (if Z.of_nat n <? 2 ^ 32 then Some (Z.of_nat n) else None).

Section Builder.
  Context `{Sha256}.
#[local] Instance hash_inhabited : Inhabited (list byte) := populate [].

Definition Builder_new (g : Geometry) : DataTreeBuilder := mkBuilder g [] [] 0 false.

(** Final length of each cache layer: halve, rounding up, until one node remains. *)
Fixpoint layer_capacities_loop (fuel : nat) (layer_length : nat) : list nat :=
  match fuel with
  | O => []
  | S fuel' =>
      if (1 <? layer_length)%nat then
        let layer_length' := ((layer_length + 1) / 2)%nat in
        layer_length' :: layer_capacities_loop fuel' layer_length'
      else []
  end.

Definition layer_capacities (chunk_count : Z) : list nat :=
  let layer_length := Z.to_nat chunk_count in
  layer_length :: layer_capacities_loop 32 layer_length.

Definition Builder_with_capacity (g : Geometry) (data_size : Z)
  : result SizeError DataTreeBuilder :=
  count ← chunk_count g data_size;
  Ok (mkBuilder g [] (layer_capacities count) 0 false).

Definition pushed_chunk_count {E} (b : DataTreeBuilder) : result E Z :=
  len_u32 (match b_layers b with [] => 0%nat | layer :: _ => length layer end).

(** [push_node_at] on the layers from its level up: append, and while the layer
    becomes even append the parent of its last pair to the next layer. *)
Fixpoint push_node_up {E} (layers : list (list (list byte))) (hash : list byte)
  : result E (list (list (list byte))) :=
  match layers with
  | [] => Ok [[hash]]
  | layer :: rest =>
      let layer' := layer ++ [hash] in
      let layer_length := length layer' in
      if Nat.even layer_length then
        left ← expect (layer' !! (layer_length - 2)%nat);
        right ← expect (layer' !! (layer_length - 1)%nat);
        rest' ← push_node_up rest (node left right);
        Ok (layer' :: rest')
      else Ok (layer' :: rest)
  end.

(** [self.layers[level]] is out of range, a panic, above [layers.len()]. *)
Definition push_node_at {E} (layers : list (list (list byte))) (level : nat)
    (hash : list byte) : result E (list (list (list byte))) :=
  if (length layers <? level)%nat then Panic
  else
    upper ← push_node_up (drop level layers) hash;
    Ok (take level layers ++ upper).

Definition prepare_push (b : DataTreeBuilder) (chunk_length : Z) : result BuildError unit :=
  if b_last_chunk_short b then Err BE_AfterShortChunk
  else if chunk_length =? 0 then Err (BE_ChunkLength CL_Empty)
  else if chunk_size (b_geometry b) <? chunk_length
  then Err (BE_ChunkLength (CL_TooLong chunk_length (chunk_size (b_geometry b))))
  else
    pushed ← pushed_chunk_count b;
    if max_data_tx_chunks (b_geometry b) <=? pushed
    then Err (BE_TooManyChunks (max_data_tx_chunks (b_geometry b)))
    else Ok tt.

Definition commit_push {E} (b : DataTreeBuilder) (root : list byte) (chunk_length : Z)
  : result E DataTreeBuilder :=
  chunk_index ← pushed_chunk_count b;
  layers ← push_node_at (b_layers b) 0 (chunk_leaf chunk_index root);
  data_size ← expect (checked_add 64 (b_data_size b) chunk_length);
  Ok (mkBuilder (b_geometry b) layers (b_layer_capacities b) data_size
        (chunk_length <? chunk_size (b_geometry b))).

Definition push_chunk (b : DataTreeBuilder) (bytes : list byte)
  : result BuildError DataTreeBuilder :=
  let chunk_length := Z.of_nat (length bytes) in
  _ ← prepare_push b chunk_length;
  root ← map_err BE_ChunkLength (chunk_root (b_geometry b) bytes);
  commit_push b root chunk_length.

Definition push_chunk_root (b : DataTreeBuilder) (root : list byte) (chunk_length : Z)
  : result BuildError DataTreeBuilder :=
  _ ← prepare_push b chunk_length;
  commit_push b root chunk_length.

(** The [while offset < bytes.len()] loop of [validate_chunk_batch]. *)
Fixpoint validate_batch_loop (fuel : nat) (b : DataTreeBuilder) (byte_length split : nat)
    (offset : nat) (pushed : Z) (previous_piece_short : bool) (piece_count : nat)
  : result BuildError nat :=
  if (offset <? byte_length)%nat then
    match fuel with
    | O => Panic
    | S fuel' =>
        if previous_piece_short then Err BE_AfterShortChunk
        else
          let end_ := Nat.min (offset + split) byte_length in
          let chunk_length := Z.of_nat (end_ - offset) in
          if max_data_tx_chunks (b_geometry b) <=? pushed
          then Err (BE_TooManyChunks (max_data_tx_chunks (b_geometry b)))
          else
            pushed' ← expect (checked_add 32 pushed 1);
            validate_batch_loop fuel' b byte_length split end_ pushed'
              (chunk_length <? chunk_size (b_geometry b)) (S piece_count)
    end
  else Ok piece_count.

Definition validate_chunk_batch (b : DataTreeBuilder) (bytes : list byte)
  : result BuildError (nat * nat) :=
  match bytes with
  | [] => _ ← prepare_push b 0; Panic
  | _ =>
      let split := Z.to_nat (chunk_size (b_geometry b)) in
      pushed ← pushed_chunk_count b;
      piece_count ← validate_batch_loop (length bytes) b (length bytes) split 0 pushed
                      (b_last_chunk_short b) 0;
      Ok (split, piece_count)
  end.

Definition piece_bounds (byte_length split piece_index : nat) : nat * nat :=
  let start := (piece_index * split)%nat in
  (start, Nat.min (start + split) byte_length).

(** One chunk root per piece; the output index is the piece index. *)
Fixpoint hash_chunk_pieces (g : Geometry) (bytes : list byte) (split : nat)
    (piece_indices : list nat) : result BuildError (list (list byte)) :=
  match piece_indices with
  | [] => Ok []
  | i :: rest =>
      let '(start, end_) := piece_bounds (length bytes) split i in
      root ← map_err BE_ChunkLength
               (chunk_root g (take (end_ - start)%nat (drop start bytes)));
      roots ← hash_chunk_pieces g bytes split rest;
      Ok (root :: roots)
  end.

(** The [enumerate] loop of [push_chunks_parallel]; the pushes are [expect]ed. *)
Fixpoint push_roots_loop (b : DataTreeBuilder) (byte_length split piece_index : nat)
    (roots : list (list byte)) : result BuildError DataTreeBuilder :=
  match roots with
  | [] => Ok b
  | root :: rest =>
      let '(start, end_) := piece_bounds byte_length split piece_index in
      b' ← expect_ok (push_chunk_root b root (Z.of_nat (end_ - start)));
      push_roots_loop b' byte_length split (S piece_index) rest
  end.

Definition push_chunks_parallel (b : DataTreeBuilder) (bytes : list byte)
  : result BuildError DataTreeBuilder :=
  '(split, piece_count) ← validate_chunk_batch b bytes;
  roots ← hash_chunk_pieces (b_geometry b) bytes split (seq 0 piece_count);
  push_roots_loop b (length bytes) split 0 roots.

(** The [while level < self.layers.len()] loop of [carry_odd_tails]. *)
Fixpoint carry_odd_tails_loop {E} (fuel : nat) (layers : list (list (list byte)))
    (level : nat) : result E (list (list (list byte))) :=
  if (level <? length layers)%nat then
    match fuel with
    | O => Panic
    | S fuel' =>
        layer ← expect (layers !! level);
        let layer_length := length layer in
        if Nat.odd layer_length then
          if (layer_length =? 1)%nat && (level + 1 =? length layers)%nat then Ok layers
          else
            tail ← expect (layer !! (layer_length - 1)%nat);
            layers' ← push_node_at layers (level + 1) tail;
            carry_odd_tails_loop fuel' layers' (level + 1)
        else carry_odd_tails_loop fuel' layers (level + 1)
    end
  else Ok layers.

(** No layer is empty, so the stored hashes bound the rounds. *)
Definition carry_odd_tails {E} (layers : list (list (list byte)))
  : result E (list (list (list byte))) :=
  carry_odd_tails_loop (S (length (concat layers))) layers 0.

Definition finish (b : DataTreeBuilder) : result BuildError DataTree :=
  pushed ← pushed_chunk_count b;
  if pushed =? 0 then Err BE_Empty
  else
    layers ← carry_odd_tails (b_layers b);
    Ok (mkTree (b_geometry b) layers (b_data_size b)).

(** The sequential loop of [DataTree::from_bytes]. *)
Fixpoint from_bytes_loop (fuel : nat) (b : DataTreeBuilder) (data : list byte)
    (offset : nat) : result BuildError DataTreeBuilder :=
  if (offset <? length data)%nat then
    match fuel with
    | O => Panic
    | S fuel' =>
        let remaining := (length data - offset)%nat in
        let chunk_length := Nat.min (Z.to_nat (chunk_size (b_geometry b))) remaining in
        b' ← push_chunk b (take chunk_length (drop offset data));
        from_bytes_loop fuel' b' data (offset + chunk_length)
    end
  else Ok b.

Definition from_bytes (g : Geometry) (data : list byte) : result BuildError DataTree :=
  let builder := Builder_new g in
  if (length data =? 0)%nat then finish builder
  else
    builder' ← from_bytes_loop (length data) builder data 0;
    finish builder'.

(** The same with the [parallel] feature. *)
Definition from_bytes_parallel (g : Geometry) (data : list byte)
  : result BuildError DataTree :=
  let builder := Builder_new g in
  if (length data =? 0)%nat then finish builder
  else
    builder' ← push_chunks_parallel builder data;
    finish builder'.

(** ** The finished tree *)

Definition tree_chunk_count {E} (t : DataTree) : result E Z :=
  match t_layers t with [] => Ok 0 | layer :: _ => len_u32 (length layer) end.

Definition tree_chunk_leaf (t : DataTree) (chunk_index : Z) : result SizeError (list byte) :=
  match t_layers t with
  | [] => Err (ChunkIndexOutOfRange chunk_index 0)
  | layer :: _ =>
      chunk_count ← len_u32 (length layer);
      match layer !! Z.to_nat chunk_index with
      | Some h => Ok h
      | None => Err (ChunkIndexOutOfRange chunk_index chunk_count)
      end
  end.

Definition root_hash {E} (t : DataTree) : result E (list byte) :=
  layer ← expect (last (t_layers t));
  expect (layer !! (length layer - 1)%nat).

Definition tree_size_witness {E} (t : DataTree) : result E (list byte) :=
  size_witness (t_geometry t) (t_data_size t).

Definition tree_data_commitment {E} (t : DataTree) : result E (list byte) :=
  root ← root_hash t;
  data_commitment (t_geometry t) root (t_data_size t).

Definition ensure_chunk (t : DataTree) (chunk_index : Z) : result SizeError Z :=
  chunk_count ← len_u32 (match t_layers t with [] => 0%nat | layer :: _ => length layer end);
  if chunk_count <=? chunk_index then Err (ChunkIndexOutOfRange chunk_index chunk_count)
  else Ok chunk_count.

Definition tree_chunk_key (t : DataTree) (chunk_index : Z) : result SizeError (list byte) :=
  _ ← ensure_chunk t chunk_index;
  commitment ← tree_data_commitment t;
  Ok (chunk_key commitment chunk_index).

Definition sibling_at (layer : list (list byte)) (chunk_index : Z) (level : nat)
  : option (list byte) :=
  if Z.of_nat level <? 32 then
    let index := Z.shiftr chunk_index (Z.of_nat level) in
    layer !! Z.to_nat (Z.lxor index 1)
  else None.

(** The [for (level, layer) in self.layers.iter().enumerate()] loop. *)
Fixpoint chunk_proof_loop (layers : list (list (list byte))) (chunk_index : Z)
    (level : nat) : list byte :=
  match layers with
  | [] => []
  | layer :: rest =>
      match sibling_at layer chunk_index level with
      | Some sibling => sibling ++ chunk_proof_loop rest chunk_index (S level)
      | None => chunk_proof_loop rest chunk_index (S level)
      end
  end.

Definition chunk_proof (t : DataTree) (chunk_index : Z) : result ProofError (list byte) :=
  _ ← map_err PE_Size (ensure_chunk t chunk_index);
  witness ← tree_size_witness t;
  Ok (chunk_proof_loop (t_layers t) chunk_index 0 ++ witness).

Definition segment_proof (t : DataTree) (chunk_index segment_index : Z)
    (chunk_bytes : list byte) : result ProofError (list byte) :=
  _ ← map_err PE_Size (ensure_chunk t chunk_index);
  if segments_per_chunk (t_geometry t) <=? segment_index
  then Err (PE_Size (SegmentIndexOutOfRange segment_index (segments_per_chunk (t_geometry t))))
  else
    expected ← map_err PE_Size (chunk_len (t_geometry t) (t_data_size t) chunk_index);
    let actual := Z.of_nat (length chunk_bytes) in
    if negb (actual =? expected) then Err (PE_InvalidChunkLength expected actual)
    else
      computed ← expect_ok (chunk_root (t_geometry t) chunk_bytes);
      stored ← map_err PE_Size (tree_chunk_leaf t chunk_index);
      if bool_decide (chunk_leaf chunk_index computed ≠ stored)
      then Err PE_ChunkRootMismatch
      else
        siblings ← segment_siblings (t_geometry t) chunk_bytes segment_index;
        rest ← chunk_proof t chunk_index;
        Ok (concat siblings ++ rest).
End Builder.

(** * The builder implements the recursive tree of the specification.

    A reachable builder is a function of the pushes it accepted ([builder_of]); the
    push operations extend that list or report an error, [finish] turns the layers
    of complete pairs into every layer of the RFC 6962 tree, the parallel batch
    equals the sequential pushes, and the proof of a chunk is its audit path
    followed by the size witness. *)

Section BuilderFacts.
  Context `{Sha256}.
  #[local] Existing Instance hash_inhabited.
  Implicit Types (g : Geometry) (L : list (list byte)).

(** ** Layers *)

Lemma push_node_up_open {E} L h :
  push_node_up (E:=E) (open_layers node L) h = Ok (open_layers node (L ++ [h])).
Proof.
  remember (length L) as n eqn:Hn. revert L h Hn.
  induction n as [n IH] using lt_wf_ind; intros L h Hn.
  destruct (decide (L = [])) as [->|Hne]; [done|].
  rewrite (open_layers_cons node L), (open_layers_cons node (L ++ [h])) by
    (done || by destruct L).
  cbn [push_node_up]. rewrite length_app, Nat.add_1_r, Nat.even_succ, <- Nat.negb_even.
  cbn [length].
  destruct (Nat.even (length L)) eqn:Hev; cbn [negb].
  - by rewrite pair_layer_snoc_even.
  - destruct (list_snoc_cases L) as [->|(L' & x & ->)]; [done|].
    rewrite length_app in *. cbn [length] in *.
    rewrite Nat.add_1_r, Nat.even_succ, <- Nat.negb_even in Hev.
    assert (Nat.even (length L') = true) as Hev' by (by destruct (Nat.even (length L'))).
    replace (S (length L' + 1) - 2)%nat with (length L') by lia.
    replace (S (length L' + 1) - 1)%nat with (S (length L')) by lia.
    rewrite <- !app_assoc. cbn [app].
    rewrite (list_lookup_middle L' [h] x (length L')) by done. res_simpl.
    rewrite (lookup_app_r L') by lia.
    replace (S (length L') - length L')%nat with 1%nat by lia. cbn [lookup list_lookup]. res_simpl.
    rewrite (pair_layer_snoc_even node L' x), (pair_layer_snoc_odd node L' x h) by done.
    rewrite (IH (length (pair_layer node L'))); [done| |done].
    rewrite length_pair_layer. div_lia.
Qed.

Lemma push_node_at_open {E} pre L h :
  push_node_at (E:=E) (pre ++ open_layers node L) (length pre) h =
    Ok (pre ++ open_layers node (L ++ [h])).
Proof.
  unfold push_node_at. rewrite length_app.
  destruct (Nat.ltb_spec (length pre + length (open_layers node L)) (length pre)); [lia|].
  rewrite drop_app_length, take_app_length, push_node_up_open. done.
Qed.

Lemma push_node_at_0 {E} L h :
  push_node_at (E:=E) (open_layers node L) 0 h = Ok (open_layers node (L ++ [h])).
Proof. apply (push_node_at_open [] L h). Qed.

Lemma carry_odd_tails_loop_spec {E} L :
  L ≠ [] → ∀ pre fuel, (length L < fuel)%nat →
  carry_odd_tails_loop (E:=E) fuel (pre ++ open_layers node L) (length pre) =
    Ok (pre ++ full_layers node L).
Proof.
  intros Hne. pattern L. revert L Hne. apply (layers_ind node).
  - intros x pre fuel Hf. destruct fuel as [|fuel]; [lia|]. cbn [carry_odd_tails_loop].
    change (open_layers node [x]) with [[x]]. rewrite full_layers_singleton.
    rewrite length_app. cbn [length].
    destruct (Nat.ltb_spec (length pre) (length pre + 1)); [|lia].
    rewrite list_lookup_middle by done. res_simpl. cbn [length Nat.odd Nat.even negb].
    rewrite !Nat.eqb_refl. done.
  - intros L Hlen IH pre fuel Hf. destruct fuel as [|fuel]; [lia|].
    assert (L ≠ []) as HneL by (intros ->; cbn in Hlen; lia).
    rewrite (open_layers_cons node L), (full_layers_cons node L) by done.
    cbn [carry_odd_tails_loop]. rewrite length_app. cbn [length].
    destruct (Nat.ltb_spec (length pre) (length pre + S (length (open_layers node (pair_layer node L)))));
      [|lia].
    rewrite list_lookup_middle by done. res_simpl.
    replace (length pre + 1)%nat with (length (pre ++ [L])) by (rewrite length_app; cbn; lia).
    rewrite <- Nat.negb_even. destruct (Nat.even (length L)) eqn:Hev; cbn [negb].
    + rewrite pair_layer_even by done.
      rewrite (cons_middle L pre (open_layers node (build_layer node L))),
        (cons_middle L pre (full_layers node (build_layer node L))), !(app_assoc pre [L]).
      apply IH. rewrite length_build_layer. div_lia.
    + destruct (Nat.eqb_spec (length L) 1); [lia|]. cbn [andb].
      destruct (list_snoc_cases L) as [?|(L' & x & HL)]; [done|].
      assert (Nat.even (length L') = true) as Hev'.
      { rewrite HL, length_app, Nat.add_1_r, Nat.even_succ, <- Nat.negb_even in Hev.
        by destruct (Nat.even (length L')). }
      assert (L !! (length L - 1)%nat = Some x) as ->.
      { rewrite HL, length_app. cbn [length].
        replace (length L' + 1 - 1)%nat with (length L') by lia. by apply list_lookup_middle. }
      res_simpl.
      rewrite (cons_middle L pre (open_layers node (pair_layer node L))),
        (cons_middle L pre (full_layers node (build_layer node L))), !(app_assoc pre [L]).
      rewrite push_node_at_open. res_simpl.
      replace (pair_layer node L ++ [x]) with (build_layer node L)
        by (by rewrite HL, build_layer_snoc_even, pair_layer_snoc_even).
      apply IH. rewrite length_build_layer. div_lia.
Qed.

Lemma carry_odd_tails_spec {E} L :
  L ≠ [] → carry_odd_tails (E:=E) (open_layers node L) = Ok (full_layers node L).
Proof.
  intros Hne. unfold carry_odd_tails.
  apply (carry_odd_tails_loop_spec L Hne []).
  rewrite open_layers_cons by done. cbn. rewrite length_app. lia.
Qed.

(** ** Reachable builders *)

(** Chunk leaves: each root is wrapped with its push index. *)
Definition chunk_leaves (roots : list (list byte)) : list (list byte) :=
  imap (fun i r => chunk_leaf (Z.of_nat i) r) roots.

Definition last_short (g : Geometry) (pushes : list (list byte * Z)) : bool :=
  match last pushes with Some (_, l) => l <? chunk_size g | None => false end.

Definition builder_of (g : Geometry) (caps : list nat) (pushes : list (list byte * Z))
  : DataTreeBuilder :=
  mkBuilder g (open_layers node (chunk_leaves pushes.*1)) caps (sum_Z pushes.*2)
    (last_short g pushes).

Record pushes_ok (g : Geometry) (pushes : list (list byte * Z)) : Prop := {
  po_lens : Forall (fun p : list byte * Z => 1 ≤ p.2 ≤ chunk_size g) pushes;
  po_count : Z.of_nat (length pushes) ≤ max_data_tx_chunks g
}.

Lemma length_chunk_leaves roots : length (chunk_leaves roots) = length roots.
Proof. apply length_imap. Qed.

Lemma chunk_leaves_snoc roots r :
  chunk_leaves (roots ++ [r]) = chunk_leaves roots ++ [chunk_leaf (Z.of_nat (length roots)) r].
Proof. unfold chunk_leaves. rewrite imap_app. cbn. by rewrite Nat.add_0_r. Qed.


Lemma pushes_sum_bound g (pushes : list (list byte * Z)) :
  Forall (fun p : list byte * Z => 1 ≤ p.2 ≤ chunk_size g) pushes →
  0 ≤ sum_Z pushes.*2 ≤ chunk_size g * Z.of_nat (length pushes).
Proof. induction 1 as [|p ps Hp _ IH]; cbn [fmap list_fmap sum_Z foldr length] in *; [lia|].
  unfold sum_Z in *. lia. Qed.

Lemma len_u32_small {E} n : Z.of_nat n < 2 ^ 32 → len_u32 (E:=E) n = Ok (Z.of_nat n).
Proof. intros Hn. unfold len_u32. destruct (Z.ltb_spec (Z.of_nat n) (2 ^ 32)); [done|lia]. Qed.

Lemma pushed_chunk_count_of {E} g caps pushes :
  geometry_ok g → pushes_ok g pushes →
  pushed_chunk_count (E:=E) (builder_of g caps pushes) = Ok (Z.of_nat (length pushes)).
Proof.
  intros [] []. unfold pushed_chunk_count, builder_of. cbn [b_layers].
  destruct (decide (pushes = [])) as [->|Hne]; [done|].
  rewrite open_layers_cons.
  - rewrite length_chunk_leaves, length_fmap. apply len_u32_small. lia.
  - intros Hl%(f_equal length). rewrite length_chunk_leaves, length_fmap in Hl.
    by destruct pushes.
Qed.

(** The outcome of a push, on every branch. *)
Definition push_error (g : Geometry) (pushes : list (list byte * Z)) (len : Z)
  : option BuildError :=
  if last_short g pushes then Some BE_AfterShortChunk
  else if len =? 0 then Some (BE_ChunkLength CL_Empty)
  else if chunk_size g <? len then Some (BE_ChunkLength (CL_TooLong len (chunk_size g)))
  else if max_data_tx_chunks g <=? Z.of_nat (length pushes)
       then Some (BE_TooManyChunks (max_data_tx_chunks g))
  else None.

Lemma prepare_push_of g caps pushes len :
  geometry_ok g → pushes_ok g pushes →
  prepare_push (builder_of g caps pushes) len =
  match push_error g pushes len with Some e => Err e | None => Ok tt end.
Proof.
  intros Hg Hp. unfold prepare_push, push_error. cbn [builder_of b_last_chunk_short b_geometry].
  rewrite pushed_chunk_count_of by done.
  destruct (last_short g pushes), (len =? 0), (chunk_size g <? len); try done.
  res_simpl. by destruct (_ <=? _).
Qed.

Lemma push_error_None g pushes len :
  push_error g pushes len = None → 0 ≤ len →
  last_short g pushes = false ∧ 1 ≤ len ≤ chunk_size g ∧
  Z.of_nat (length pushes) < max_data_tx_chunks g.
Proof.
  unfold push_error. intros Hn Hl. destruct (last_short g pushes); [done|].
  destruct (Z.eqb_spec len 0); [done|]. destruct (Z.ltb_spec (chunk_size g) len); [done|].
  destruct (Z.leb_spec (max_data_tx_chunks g) (Z.of_nat (length pushes))); [done|]. lia.
Qed.

Lemma pushes_ok_snoc g pushes root len :
  pushes_ok g pushes → push_error g pushes len = None → 0 ≤ len →
  pushes_ok g (pushes ++ [(root, len)]).
Proof.
  intros [Hl Hc] He Hlen. apply push_error_None in He as (_ & Hlen' & Hcnt); [|done].
  constructor; [apply Forall_app; by rewrite Forall_singleton|].
  rewrite length_app. cbn. lia.
Qed.

Lemma push_chunk_root_of g caps pushes root len :
  geometry_ok g → pushes_ok g pushes → 0 ≤ len →
  push_chunk_root (builder_of g caps pushes) root len =
  match push_error g pushes len with
  | Some e => Err e
  | None => Ok (builder_of g caps (pushes ++ [(root, len)]))
  end.
Proof.
  intros Hg Hp Hlen. unfold push_chunk_root. rewrite prepare_push_of by done.
  destruct (push_error g pushes len) as [e|] eqn:He; [done|]. res_simpl.
  pose proof (pushes_ok_snoc g pushes root len Hp He Hlen) as [Hl' Hc'].
  pose proof (pushes_sum_bound g _ Hl') as Hs. rewrite fmap_app, sum_Z_app in Hs.
  cbn [fmap list_fmap snd] in Hs. change (sum_Z [len]) with (len + 0) in Hs.
  pose proof Hg as []. unfold commit_push. rewrite pushed_chunk_count_of by done. res_simpl.
  cbn [builder_of b_layers b_data_size b_geometry b_layer_capacities].
  rewrite push_node_at_0. res_simpl.
  unfold checked_add. destruct (Z.ltb_spec (sum_Z pushes.*2 + len) (2 ^ 64)); [|nia].
  res_simpl. unfold builder_of, last_short.
  rewrite last_snoc, !fmap_app, sum_Z_app. cbn [fmap list_fmap fst snd].
  rewrite chunk_leaves_snoc, length_fmap. change (sum_Z [len]) with (len + 0).
  by rewrite Z.add_0_r.
Qed.

Lemma push_chunk_of g caps pushes bytes :
  geometry_ok g → pushes_ok g pushes →
  push_chunk (builder_of g caps pushes) bytes =
  match push_error g pushes (Z.of_nat (length bytes)) with
  | Some e => Err e
  | None => Ok (builder_of g caps
              (pushes ++ [(chunk_root_ref g bytes, Z.of_nat (length bytes))]))
  end.
Proof.
  intros Hg Hp. pose proof (push_chunk_root_of g caps pushes (chunk_root_ref g bytes)
    (Z.of_nat (length bytes)) Hg Hp ltac:(lia)) as Hroot.
  unfold push_chunk, push_chunk_root in *. rewrite prepare_push_of in * by done.
  destruct (push_error _ _ _) as [e|] eqn:He; [done|]. res_simpl. res_simpl in Hroot.
  apply push_error_None in He as (_ & Hlen & _); [|lia].
  cbn [builder_of b_geometry]. rewrite chunk_root_spec by done. by res_simpl.
Qed.

Lemma finish_of g caps pushes :
  geometry_ok g → pushes_ok g pushes → pushes ≠ [] →
  finish (builder_of g caps pushes) =
    Ok (mkTree g (full_layers node (chunk_leaves pushes.*1)) (sum_Z pushes.*2)).
Proof.
  intros Hg Hp Hne. unfold finish. rewrite pushed_chunk_count_of by done. res_simpl.
  destruct (Z.eqb_spec (Z.of_nat (length pushes)) 0); [by destruct pushes|].
  cbn [builder_of b_layers b_geometry b_data_size].
  rewrite carry_odd_tails_spec; [done|].
  intros Hl%(f_equal length). rewrite length_chunk_leaves, length_fmap in Hl. cbn in Hl. lia.
Qed.
End BuilderFacts.
