(* ===== verification/TreeBuild.v ===== *)
(** From bytes to the finished tree: [DataTree::from_bytes], sequential and parallel,
    and the proofs the tree serves. *)

From S2P Require Import Prelude RefTree Geometry TreeHash ChunkTree Shape Builder.

Section TreeBuild.
  Context `{Sha256}.
  #[local] Existing Instance hash_inhabited.
  Implicit Types (g : Geometry) (data R : list byte).

(** ** The pieces of an upload *)

Fixpoint pieces_fuel (fuel cs : nat) (R : list byte) : list (list byte) :=
  match fuel, R with
  | S fuel', _ :: _ => take cs R :: pieces_fuel fuel' cs (drop cs R)
  | _, _ => []
  end.
Definition pieces (cs : nat) (R : list byte) : list (list byte) := pieces_fuel (length R) cs R.

Lemma pieces_fuel_enough fuel cs R :
  (0 < cs)%nat → (length R ≤ fuel)%nat → pieces_fuel fuel cs R = pieces cs R.
Proof.
  intros Hcs. unfold pieces. remember (length R) as m eqn:Hm. revert fuel R Hm.
  induction m as [m IH] using lt_wf_ind; intros fuel R Hm Hf.
  destruct R as [|x r]; [by destruct fuel, m|].
  destruct fuel as [|fuel]; [cbn in *; lia|]. destruct m as [|m]; [done|].
  cbn [pieces_fuel]. f_equal.
  assert (length (drop cs (x :: r)) ≤ m)%nat by (rewrite length_drop; lia).
  rewrite (IH (length (drop cs (x :: r)))) by (done || lia).
  symmetry. by apply IH; [lia|..].
Qed.

Lemma pieces_cons cs R :
  (0 < cs)%nat → R ≠ [] → pieces cs R = take cs R :: pieces cs (drop cs R).
Proof.
  intros Hcs Hne. destruct R as [|x r]; [done|]. unfold pieces at 1.
  cbn [length pieces_fuel]. f_equal. apply pieces_fuel_enough; [done|].
  rewrite length_drop. cbn [length]. lia.
Qed.

(** Induction on an upload, one chunk at a time. *)
Lemma pieces_ind cs (Hcs : (0 < cs)%nat) (P : list byte → Prop) :
  P [] → (∀ R, R ≠ [] → P (drop cs R) → P R) → ∀ R, P R.
Proof.
  intros H0 H1 R. remember (length R) as n eqn:Hn. revert R Hn.
  induction n as [n IH] using lt_wf_ind; intros R Hn.
  destruct (decide (R = [])) as [->|Hne]; [done|]. apply H1; [done|].
  eapply IH; [|reflexivity]. rewrite length_drop. destruct R; [done|]. cbn in *. lia.
Qed.

Lemma concat_pieces cs R : (0 < cs)%nat → concat (pieces cs R) = R.
Proof.
  intros Hcs. induction R as [|R Hne IH] using (pieces_ind cs Hcs); [done|].
  rewrite pieces_cons by done. cbn. by rewrite IH, take_drop.
Qed.

Lemma length_pieces cs R :
  (0 < cs)%nat → Z.of_nat (length (pieces cs R)) = div_ceil (Z.of_nat (length R)) (Z.of_nat cs).
Proof.
  intros Hcs. induction R as [|R Hne IH] using (pieces_ind cs Hcs).
  - unfold div_ceil. change (Z.of_nat (length [])) with 0. by rewrite Z.div_small by lia.
  - rewrite pieces_cons by done. cbn [length].
    assert (0 < length R)%nat by (destruct R; [done|cbn; lia]).
    rewrite Nat2Z.inj_succ, IH. symmetry. apply div_ceil_unique; [lia|].
    pose proof (div_ceil_spec (Z.of_nat (length (drop cs R))) (Z.of_nat cs) ltac:(lia)) as Hq.
    rewrite length_drop in *. destruct (Nat.le_gt_cases (length R) cs).
    + replace (length R - cs)%nat with 0%nat in * by lia.
      rewrite (div_ceil_unique (Z.of_nat 0) (Z.of_nat cs) 0) by lia. lia.
    + rewrite Nat2Z.inj_sub in * by lia. lia.
Qed.

Lemma pieces_lookup cs R i p :
  (0 < cs)%nat → pieces cs R !! i = Some p → p = take cs (drop (i * cs) R).
Proof.
  intros Hcs. revert i. induction R as [|R Hne IH] using (pieces_ind cs Hcs); intros i Hi; [done|].
  rewrite pieces_cons in Hi by done. destruct i as [|i].
  - cbn in Hi. injection Hi as <-. done.
  - cbn in Hi. apply IH in Hi. rewrite drop_drop in Hi. rewrite Hi. by f_equal.
Qed.

(** ** Pushing the pieces *)

Definition piece_push (g : Geometry) (p : list byte) : list byte * Z :=
  (chunk_root_ref g p, Z.of_nat (length p)).

Fixpoint push_all (g : Geometry) (pushes : list (list byte * Z)) (ps : list (list byte))
  : result BuildError (list (list byte * Z)) :=
  match ps with
  | [] => Ok pushes
  | p :: ps' =>
      match push_error g pushes (Z.of_nat (length p)) with
      | Some e => Err e
      | None => push_all g (pushes ++ [piece_push g p]) ps'
      end
  end.

Lemma push_all_ok g pushes ps pushes' :
  pushes_ok g pushes → push_all g pushes ps = Ok pushes' →
  pushes' = pushes ++ (piece_push g <$> ps) ∧ pushes_ok g pushes'.
Proof.
  revert pushes. induction ps as [|p ps IH]; intros pushes Hp Ho; cbn in Ho.
  - injection Ho as <-. by rewrite app_nil_r.
  - destruct (push_error g pushes _) eqn:He; [done|].
    apply IH in Ho as [-> Hok].
    + by rewrite <- app_assoc in *.
    + apply pushes_ok_snoc; [done..|lia].
Qed.

Lemma push_all_no_panic g pushes ps : push_all g pushes ps ≠ Panic.
Proof.
  revert pushes. induction ps as [|p ps IH]; intros pushes; cbn; [done|].
  destruct (push_error g pushes _); [done|apply IH].
Qed.

Lemma drop_eq_nil {A} n (l : list A) : (length l ≤ n)%nat → drop n l = [].
Proof. apply drop_ge. Qed.

Lemma from_bytes_loop_of g caps fuel pushes data offset :
  geometry_ok g → pushes_ok g pushes → (length data - offset ≤ fuel)%nat →
  from_bytes_loop fuel (builder_of g caps pushes) data offset =
  builder_of g caps <$>
    push_all g pushes (pieces (Z.to_nat (chunk_size g)) (drop offset data)).
Proof.
  intros Hg. set (cs := Z.to_nat (chunk_size g)).
  assert (0 < cs)%nat as Hcs by (destruct Hg; lia).
  revert pushes offset. induction fuel as [|fuel IH]; intros pushes offset Hp Hf.
  - cbn [from_bytes_loop]. destruct (Nat.ltb_spec offset (length data)); [lia|].
    by rewrite drop_eq_nil by lia.
  - cbn [from_bytes_loop]. destruct (Nat.ltb_spec offset (length data)) as [Hlt|Hge].
    2:{ by rewrite drop_eq_nil by lia. }
    cbn [builder_of b_geometry]. fold cs.
    assert (drop offset data ≠ []) as Hne.
    { intros Hn%(f_equal length). rewrite length_drop in Hn. cbn in Hn. lia. }
    rewrite pieces_cons by done. cbn [push_all].
    assert (take (cs `min` (length data - offset)) (drop offset data) =
            take cs (drop offset data)) as Hpc.
    { destruct (Nat.min_spec cs (length data - offset)) as [[_ ->]|[? ->]]; [done|].
      rewrite !take_ge; [done|..]; rewrite length_drop; lia. }
    rewrite Hpc, push_chunk_of by done.
    destruct (push_error _ _ _) as [e|] eqn:He; [done|]. res_simpl.
    rewrite IH; [| |lia].
    + unfold piece_push. rewrite drop_drop.
      do 2 f_equal. destruct (Nat.min_spec cs (length data - offset)) as [[_ ->]|[? ->]]; [done|].
      by rewrite !drop_eq_nil by lia.
    + apply pushes_ok_snoc; [done..|lia].
Qed.

(** ** The parallel batch *)

Lemma validate_batch_loop_of g b fuel pushes data offset count :
  geometry_ok g → pushes_ok g pushes → b_geometry b = g → (length data - offset ≤ fuel)%nat →
  let ps := pieces (Z.to_nat (chunk_size g)) (drop offset data) in
  validate_batch_loop fuel b (length data) (Z.to_nat (chunk_size g)) offset
    (Z.of_nat (length pushes)) (last_short g pushes) count =
  (fun _ => (count + length ps)%nat) <$> push_all g pushes ps.
Proof.
  intros Hg Hp Hb. set (cs := Z.to_nat (chunk_size g)).
  assert (0 < cs)%nat as Hcs by (destruct Hg; lia).
  revert pushes offset count Hp. induction fuel as [|fuel IH]; intros pushes offset count Hp Hf.
  - cbn [validate_batch_loop]. destruct (Nat.ltb_spec offset (length data)); [lia|].
    rewrite drop_eq_nil by lia. cbn. by rewrite Nat.add_0_r.
  - cbn [validate_batch_loop]. destruct (Nat.ltb_spec offset (length data)) as [Hlt|Hge].
    2:{ rewrite drop_eq_nil by lia. cbn. by rewrite Nat.add_0_r. }
    assert (drop offset data ≠ []) as Hne.
    { intros Hn%(f_equal length). rewrite length_drop in Hn. cbn in Hn. lia. }
    rewrite pieces_cons by done. cbn zeta. cbn [push_all length]. rewrite Hb.
    set (p := take cs (drop offset data)).
    assert (Z.of_nat ((offset + cs) `min` length data - offset) = Z.of_nat (length p)) as Hlen.
    { unfold p. rewrite length_take, length_drop. lia. }
    rewrite Hlen. unfold push_error at 1.
    destruct (last_short g pushes); [done|].
    assert (1 ≤ length p ≤ cs)%nat by (unfold p; rewrite length_take, length_drop; lia).
    destruct (Z.eqb_spec (Z.of_nat (length p)) 0); [lia|].
    destruct (Z.ltb_spec (chunk_size g) (Z.of_nat (length p))); [lia|].
    destruct (Z.leb_spec (max_data_tx_chunks g) (Z.of_nat (length pushes))); [done|].
    unfold checked_add. destruct Hg as [? ? ? Hmax ?].
    destruct (Z.ltb_spec (Z.of_nat (length pushes) + 1) (2 ^ 32)); [|lia]. res_simpl.
    pose proof (IH (pushes ++ [piece_push g p]) ((offset + cs) `min` length data)%nat (S count))
      as IH'. cbn zeta in IH'.
    assert (last_short g (pushes ++ [piece_push g p]) = (Z.of_nat (length p) <? chunk_size g))
      as Hls by (unfold last_short; by rewrite last_snoc).
    rewrite Hls, length_app in IH'. cbn [length] in IH'.
    replace (Z.of_nat (length pushes + 1)) with (Z.of_nat (length pushes) + 1) in IH' by lia.
    assert (drop ((offset + cs) `min` length data) data = drop cs (drop offset data)) as Hd.
    { rewrite drop_drop. destruct (Nat.min_spec (offset + cs) (length data)) as [[_ ->]|[? ->]];
        [done|]. by rewrite !drop_eq_nil by lia. }
    assert (pushes_ok g (pushes ++ [piece_push g p])).
    { destruct Hp as [Hl Hc]. constructor.
      - apply Forall_app. rewrite Forall_singleton. unfold piece_push. cbn [snd]. split; [done|lia].
      - rewrite length_app. cbn [length]. lia. }
    rewrite IH', Hd by (done || lia).
    by rewrite Nat.add_succ_r.
Qed.

Lemma piece_bounds_take cs data i p :
  (0 < cs)%nat → pieces cs data !! i = Some p →
  let '(start, end_) := piece_bounds (length data) cs i in
  take (end_ - start) (drop start data) = p ∧ (end_ - start)%nat = length p.
Proof.
  intros Hcs Hi. apply pieces_lookup in Hi as ->; [|done]. unfold piece_bounds.
  assert (take ((i * cs + cs) `min` length data - i * cs) (drop (i * cs) data) =
          take cs (drop (i * cs) data)) as Heq.
  { destruct (Nat.min_spec (i * cs + cs) (length data)) as [[_ ->]|[? ->]].
    - f_equal. lia.
    - rewrite !take_ge; [done|..]; rewrite length_drop; lia. }
  split; [done|]. rewrite <- Heq, length_take, length_drop. lia.
Qed.

Lemma pieces_length_bound cs R :
  (0 < cs)%nat → Forall (fun p => (1 ≤ length p ≤ cs)%nat) (pieces cs R).
Proof.
  intros Hcs. induction R as [|R Hne IH] using (pieces_ind cs Hcs); [constructor|].
  rewrite pieces_cons by done. constructor; [|done].
  rewrite length_take. destruct R; [done|cbn; lia].
Qed.

Lemma hash_chunk_pieces_of g data i ps :
  geometry_ok g → drop i (pieces (Z.to_nat (chunk_size g)) data) = ps →
  hash_chunk_pieces g data (Z.to_nat (chunk_size g)) (seq i (length ps)) =
    Ok (chunk_root_ref g <$> ps).
Proof.
  intros Hg. set (cs := Z.to_nat (chunk_size g)).
  assert (0 < cs)%nat as Hcs by (destruct Hg; lia).
  revert i. induction ps as [|p ps IH]; intros i Hi; [done|].
  cbn [length seq hash_chunk_pieces].
  assert (pieces cs data !! i = Some p) as Hlk.
  { rewrite <- (Nat.add_0_r i), <- lookup_drop, Hi. done. }
  pose proof (piece_bounds_take cs data i p Hcs Hlk) as Hb.
  destruct (piece_bounds (length data) cs i) as [start end_]. destruct Hb as [-> _].
  assert (1 ≤ length p ≤ cs)%nat.
  { eapply (Forall_lookup_1 _ _ i p (pieces_length_bound cs data Hcs)). done. }
  rewrite chunk_root_spec by (done || lia). res_simpl.
  rewrite IH; [done|]. by rewrite <- Nat.add_1_r, <- drop_drop, Hi.
Qed.

Lemma push_roots_loop_of g caps data i ps pushes pushes' :
  geometry_ok g → pushes_ok g pushes →
  drop i (pieces (Z.to_nat (chunk_size g)) data) = ps →
  push_all g pushes ps = Ok pushes' →
  push_roots_loop (builder_of g caps pushes) (length data) (Z.to_nat (chunk_size g)) i
    (chunk_root_ref g <$> ps) = Ok (builder_of g caps pushes').
Proof.
  intros Hg. set (cs := Z.to_nat (chunk_size g)).
  assert (0 < cs)%nat as Hcs by (destruct Hg; lia).
  revert i pushes. induction ps as [|p ps IH]; intros i pushes Hp Hi Ho; cbn in Ho.
  { by injection Ho as <-. }
  cbn [fmap list_fmap push_roots_loop].
  assert (pieces cs data !! i = Some p) as Hlk.
  { rewrite <- (Nat.add_0_r i), <- lookup_drop, Hi. done. }
  pose proof (piece_bounds_take cs data i p Hcs Hlk) as Hb.
  destruct (piece_bounds (length data) cs i) as [start end_]. destruct Hb as [_ ->].
  rewrite push_chunk_root_of by (done || lia).
  destruct (push_error g pushes _) eqn:He; [done|]. res_simpl.
  apply IH; [apply pushes_ok_snoc; [done..|lia]| |done].
  by rewrite <- Nat.add_1_r, <- drop_drop, Hi.
Qed.

Lemma push_chunks_parallel_of g caps pushes bytes :
  geometry_ok g → pushes_ok g pushes → bytes ≠ [] →
  push_chunks_parallel (builder_of g caps pushes) bytes =
  builder_of g caps <$> push_all g pushes (pieces (Z.to_nat (chunk_size g)) bytes).
Proof.
  intros Hg Hp Hne. unfold push_chunks_parallel, validate_chunk_batch.
  destruct bytes as [|x r] eqn:Hb; [done|]. rewrite <- Hb in *.
  rewrite pushed_chunk_count_of by done. res_simpl.
  cbn [builder_of b_geometry b_last_chunk_short].
  rewrite (validate_batch_loop_of g) by (done || lia). rewrite drop_0.
  destruct (push_all g pushes _) as [pushes'|e|] eqn:Ho; res_simpl; [|done..].
  cbn [Nat.add]. rewrite (hash_chunk_pieces_of g bytes 0) by (done || by rewrite drop_0).
  res_simpl. eapply push_roots_loop_of; [done..|]. exact Ho.
Qed.
End TreeBuild.

(** * The tree of an upload: what [DataTree::from_bytes] returns on every input, and the
    proofs the finished tree serves. *)

Section UploadTree.
  Context `{Sha256}.
  #[local] Existing Instance hash_inhabited.
  Implicit Types (g : Geometry) (data R : list byte).

(** ** The reference tree *)

Definition upload_pieces (g : Geometry) (data : list byte) : list (list byte) :=
  pieces (Z.to_nat (chunk_size g)) data.

Definition upload_leaves (g : Geometry) (data : list byte) : list (list byte) :=
  chunk_leaves (chunk_root_ref g <$> upload_pieces g data).

Definition upload_root (g : Geometry) (data : list byte) : list byte :=
  tree_root node (upload_leaves g data).

Definition upload_tree (g : Geometry) (data : list byte) : DataTree :=
  mkTree g (full_layers node (upload_leaves g data)) (Z.of_nat (length data)).

Lemma length_upload_pieces g data :
  geometry_ok g →
  Z.of_nat (length (upload_pieces g data)) = div_ceil (Z.of_nat (length data)) (chunk_size g).
Proof.
  intros []. unfold upload_pieces. rewrite length_pieces by lia. by rewrite Z2Nat.id by lia.
Qed.

Lemma length_upload_leaves g data :
  length (upload_leaves g data) = length (upload_pieces g data).
Proof. unfold upload_leaves. by rewrite length_chunk_leaves, length_fmap. Qed.

Lemma upload_leaves_32 g data : Forall (fun h => length h = HASH_SIZE) (upload_leaves g data).
Proof.
  unfold upload_leaves, chunk_leaves. apply Forall_lookup_2. intros i x Hi.
  rewrite list_lookup_imap in Hi. destruct (_ !! i); [|done].
  injection Hi as <-. apply length_chunk_leaf.
Qed.

Lemma upload_leaves_lookup g data i p :
  upload_pieces g data !! i = Some p →
  upload_leaves g data !! i = Some (chunk_leaf (Z.of_nat i) (chunk_root_ref g p)).
Proof.
  intros Hi. unfold upload_leaves, chunk_leaves.
  by rewrite list_lookup_imap, list_lookup_fmap, Hi.
Qed.

(** ** Pushing the pieces of one upload *)

Lemma push_all_pieces g pushes R :
  geometry_ok g → pushes_ok g pushes → last_short g pushes = false →
  let ps := pieces (Z.to_nat (chunk_size g)) R in
  push_all g pushes ps =
  if Z.of_nat (length pushes + length ps) <=? max_data_tx_chunks g
  then Ok (pushes ++ (piece_push g <$> ps))
  else Err (BE_TooManyChunks (max_data_tx_chunks g)).
Proof.
  intros Hg. set (cs := Z.to_nat (chunk_size g)).
  assert (0 < cs)%nat as Hcs by (destruct Hg; lia). revert pushes.
  induction R as [|R Hne IH] using (pieces_ind cs Hcs); intros pushes Hp Hs ps.
  { unfold ps, pieces. cbn. rewrite Nat.add_0_r, app_nil_r.
    by destruct Hp as [_ Hc%Z.leb_le], (_ <=? _). }
  unfold ps. rewrite pieces_cons by done. cbn [push_all length fmap list_fmap].
  assert (1 ≤ length (take cs R) ≤ cs)%nat as Hl.
  { rewrite length_take. destruct R; [done|cbn; lia]. }
  destruct (push_error g pushes _) as [e|] eqn:He.
  - unfold push_error in He. rewrite Hs in He.
    destruct (Z.eqb_spec (Z.of_nat (length (take cs R))) 0); [lia|].
    destruct (Z.ltb_spec (chunk_size g) (Z.of_nat (length (take cs R)))); [lia|].
    destruct (Z.leb_spec (max_data_tx_chunks g) (Z.of_nat (length pushes))); [|done].
    destruct (Z.leb_spec (Z.of_nat (length pushes + S (length (pieces cs (drop cs R)))))
      (max_data_tx_chunks g)); [lia|congruence].
  - pose proof (pushes_ok_snoc g pushes (chunk_root_ref g (take cs R)) _ Hp He ltac:(lia)) as Hok.
    fold (piece_push g (take cs R)) in Hok.
    destruct (decide (drop cs R = [])) as [Hd|Hd].
    + rewrite Hd. change (pieces cs []) with (@nil (list byte)). cbn [push_all length fmap list_fmap].
      destruct Hok as [_ Hc]. rewrite length_app in Hc. cbn in Hc.
      by destruct (Z.leb_spec (Z.of_nat (length pushes + 1)) (max_data_tx_chunks g)); [|lia].
    + rewrite IH; [|done|].
      * rewrite length_app, <- app_assoc. cbn [length app].
        by replace (length pushes + 1 + length (pieces cs (drop cs R)))%nat
          with (length pushes + S (length (pieces cs (drop cs R))))%nat by lia.
      * unfold last_short. rewrite last_snoc. unfold piece_push. apply Z.ltb_ge.
        assert (length (drop cs R) ≠ 0)%nat by (by intros ?%nil_length_inv).
        rewrite length_drop in *. rewrite length_take. lia.
Qed.

Lemma sum_Z_piece_push g ps :
  sum_Z (piece_push g <$> ps).*2 = Z.of_nat (length (concat ps)).
Proof.
  induction ps as [|p ps IH]; [done|].
  cbn [fmap list_fmap concat]. unfold sum_Z in *. cbn [foldr piece_push snd].
  rewrite IH, length_app. lia.
Qed.

Lemma builder_new_of g : Builder_new g = builder_of g [] [].
Proof. done. Qed.

Lemma pushes_ok_nil g : geometry_ok g → pushes_ok g [].
Proof. intros []. constructor; [constructor|cbn; lia]. Qed.

(** A builder that was fed the pieces of an upload finishes into the upload's tree. *)
Lemma finish_pieces g caps data :
  geometry_ok g → data ≠ [] →
  (push_all g [] (upload_pieces g data) ≫= fun pushes => finish (builder_of g caps pushes)) =
  if Z.of_nat (length data) <=? chunk_size g * max_data_tx_chunks g
  then Ok (upload_tree g data) else Err (BE_TooManyChunks (max_data_tx_chunks g)).
Proof.
  intros Hg Hne. unfold upload_pieces. rewrite push_all_pieces by (done || by apply pushes_ok_nil).
  fold (upload_pieces g data). cbn [length Nat.add app].
  pose proof (length_upload_pieces g data Hg) as Hlen.
  pose proof (div_ceil_le_iff (Z.of_nat (length data)) (chunk_size g) (max_data_tx_chunks g))
    as Hiff.
  destruct (Z.leb_spec (Z.of_nat (length (upload_pieces g data))) (max_data_tx_chunks g)),
    (Z.leb_spec (Z.of_nat (length data)) (chunk_size g * max_data_tx_chunks g));
    try (destruct Hg; lia); [|done].
  res_simpl. assert (0 < Z.to_nat (chunk_size g))%nat as Hcs by (destruct Hg; lia).
  assert (pushes_ok g (piece_push g <$> upload_pieces g data)) as Hok.
  { constructor; [|by rewrite length_fmap]. apply Forall_fmap.
    eapply Forall_impl; [by apply pieces_length_bound|]. cbn. lia. }
  rewrite finish_of; [|done..|].
  - unfold upload_tree, upload_leaves. rewrite sum_Z_piece_push.
    unfold upload_pieces at 2. rewrite concat_pieces by done.
    by rewrite <- list_fmap_compose.
  - unfold upload_pieces. rewrite pieces_cons by done. done.
Qed.

Lemma from_bytes_of g data :
  geometry_ok g →
  from_bytes g data =
  if (length data =? 0)%nat then Err BE_Empty
  else if Z.of_nat (length data) <=? chunk_size g * max_data_tx_chunks g
  then Ok (upload_tree g data) else Err (BE_TooManyChunks (max_data_tx_chunks g)).
Proof.
  intros Hg. unfold from_bytes. destruct (Nat.eqb_spec (length data) 0) as [|Hl]; [done|].
  rewrite builder_new_of, from_bytes_loop_of by (done || lia || by apply pushes_ok_nil).
  rewrite drop_0. fold (upload_pieces g data). rewrite <- (finish_pieces g []) by (done || by intros ->).
  by destruct (push_all g [] _).
Qed.

Lemma from_bytes_parallel_of g data :
  geometry_ok g → from_bytes_parallel g data = from_bytes g data.
Proof.
  intros Hg. rewrite from_bytes_of by done. unfold from_bytes_parallel.
  destruct (Nat.eqb_spec (length data) 0) as [|Hl]; [done|].
  rewrite builder_new_of, push_chunks_parallel_of by
    (done || by apply pushes_ok_nil || by intros ->).
  fold (upload_pieces g data). rewrite <- (finish_pieces g []) by (done || by intros ->).
  by destruct (push_all g [] _).
Qed.

(** ** The commitment of the finished tree *)

Lemma upload_leaves_ne g data : geometry_ok g → data ≠ [] → upload_leaves g data ≠ [].
Proof.
  intros [] Hne Hn%(f_equal length). rewrite length_upload_leaves in Hn.
  unfold upload_pieces in Hn. rewrite pieces_cons in Hn by (done || lia). done.
Qed.

Lemma root_hash_of {E} g data :
  geometry_ok g → data ≠ [] → root_hash (E:=E) (upload_tree g data) = Ok (upload_root g data).
Proof.
  intros Hg Hne. unfold root_hash, upload_tree. cbn [t_layers].
  rewrite full_layers_root by (by apply upload_leaves_ne). done.
Qed.

(** The commitment of an upload: its root hashed with its size witness. *)
Definition upload_commitment (g : Geometry) (data : list byte) : list byte :=
  node (upload_root g data) (sha256 (size_preimage g (Z.of_nat (length data)))).

Lemma tree_data_commitment_of {E} g data :
  geometry_ok g → data ≠ [] →
  tree_data_commitment (E:=E) (upload_tree g data) = Ok (upload_commitment g data).
Proof.
  intros Hg Hne. unfold tree_data_commitment. rewrite root_hash_of by done. res_simpl.
  unfold data_commitment. cbn [t_geometry t_data_size upload_tree].
  by rewrite size_witness_eq by done.
Qed.
End UploadTree.

(** * The proofs a finished tree serves: [DataTree::chunk_proof] concatenates the audit
    path of the chunk and the size witness, [DataTree::segment_proof] prepends the
    in-chunk siblings. *)

Section TreeProofs.
  Context `{Sha256}.
  #[local] Existing Instance hash_inhabited.
  Implicit Types (g : Geometry) (data : list byte) (L : list (list byte)).

(** ** Layers of hashes *)

Lemma build_layer_32 L :
  Forall (fun h => length h = HASH_SIZE) L →
  Forall (fun h => length h = HASH_SIZE) (build_layer node L).
Proof.
  induction L as [|x|x y r IH] using list_pair_ind; [done..|].
  cbn [build_layer]. intros [_ [_ Hr]%Forall_cons]%Forall_cons.
  constructor; [apply length_node|by apply IH].
Qed.

Lemma audit_path_32 L c :
  (c < length L)%nat → Forall (fun h => length h = HASH_SIZE) L →
  Forall (fun h => length h = HASH_SIZE) (audit_path node c L).
Proof.
  intros Hc. assert (L ≠ []) as Hne by (by intros ->; cbn in Hc; lia).
  revert c Hc. pattern L. revert L Hne. apply (layers_ind node).
  - intros x c _ _. constructor.
  - intros L Hlen IH c Hc HL. rewrite audit_path_build_layer by done. apply Forall_app. split.
    + unfold sibling_in. destruct (L !! _) as [s|] eqn:Hs; [|constructor].
      constructor; [|constructor]. by apply (Forall_lookup_1 _ _ _ _ HL Hs).
    + apply IH; [|by apply build_layer_32]. rewrite length_build_layer. div_lia.
Qed.

Lemma shiftr_of_nat c k : Z.shiftr (Z.of_nat c) (Z.of_nat k) = Z.of_nat (c / 2 ^ k).
Proof. rewrite Z.shiftr_div_pow2 by lia. by rewrite Nat2Z.inj_div, Z_pow2_of_nat. Qed.

(** The siblings the tree reads are the ones of the reference; the level bound of
    [sibling_at] never drops one. *)
Lemma chunk_proof_loop_of L c :
  L ≠ [] → ∀ level,
  (c / 2 ^ level < length L)%nat → Z.of_nat ((length L - 1) * 2 ^ level) < 2 ^ 32 →
  chunk_proof_loop (full_layers node L) (Z.of_nat c) level =
    concat (audit_path node (c / 2 ^ level) L).
Proof.
  intros Hne. pattern L. revert L Hne. apply (layers_ind node).
  - intros x level Hc _. rewrite full_layers_singleton. cbn [chunk_proof_loop length] in *.
    unfold sibling_at. rewrite shiftr_of_nat. replace (c / 2 ^ level)%nat with 0%nat by lia.
    by destruct (_ <? 32).
  - intros L Hlen IH level Hc Hb. rewrite full_layers_cons by done. cbn [chunk_proof_loop].
    assert (c / 2 ^ S level = c / 2 ^ level / 2)%nat as Hdiv.
    { rewrite Nat.Div0.div_div. f_equal. cbn. lia. }
    assert (Z.of_nat level < 32) as Hlv.
    { assert (2 ^ Z.of_nat level < 2 ^ 32) as Hp by (rewrite Z_pow2_of_nat; nia).
      apply Z.pow_lt_mono_r_iff in Hp; lia. }
    rewrite audit_path_build_layer by done. unfold sibling_at.
    destruct (Z.ltb_spec (Z.of_nat level) 32); [|lia].
    rewrite shiftr_of_nat, sibling_index_Z, Nat2Z.id.
    rewrite IH; rewrite ?Hdiv, ?length_build_layer.
    + unfold sibling_in. by destruct (L !! _).
    + div_lia.
    + assert (((length L + 1) / 2 - 1) * 2 ≤ length L - 1)%nat by div_lia.
      cbn [Nat.pow]. nia.
Qed.

(** ** The proof of a chunk *)

Definition upload_path (g : Geometry) (data : list byte) (c : nat) : list (list byte) :=
  audit_path node c (upload_leaves g data).

Definition upload_witness (g : Geometry) (data : list byte) : list byte :=
  sha256 (size_preimage g (Z.of_nat (length data))).

(** An upload that [from_bytes] accepts. *)
Definition upload_ok (g : Geometry) (data : list byte) : Prop :=
  geometry_ok g ∧ admits g (Z.of_nat (length data)).

Lemma upload_ok_pieces g data :
  upload_ok g data →
  data ≠ [] ∧ 1 ≤ Z.of_nat (length (upload_pieces g data)) < 2 ^ 32.
Proof.
  intros [Hg Ha]. rewrite length_upload_pieces by done.
  pose proof (chunk_count_spec _ _ Hg Ha) as [_ HC]. destruct Hg. unfold admits in Ha.
  split; [intros ->; cbn in Ha; lia|lia].
Qed.

Lemma ensure_chunk_of g data c :
  upload_ok g data → 0 ≤ c →
  ensure_chunk (upload_tree g data) c =
  if c <? Z.of_nat (length (upload_pieces g data))
  then Ok (Z.of_nat (length (upload_pieces g data)))
  else Err (ChunkIndexOutOfRange c (Z.of_nat (length (upload_pieces g data)))).
Proof.
  intros Hu Hc. destruct (upload_ok_pieces g data Hu) as [Hne HC]. destruct Hu as [Hg _].
  unfold ensure_chunk, upload_tree. cbn [t_layers].
  destruct (full_layers_hd node (upload_leaves g data) (upload_leaves_ne g data Hg Hne))
    as [rest ->].
  rewrite length_upload_leaves, len_u32_small by lia. res_simpl.
  destruct (Z.leb_spec (Z.of_nat (length (upload_pieces g data))) c),
    (Z.ltb_spec c (Z.of_nat (length (upload_pieces g data)))); lia || done.
Qed.

Lemma chunk_proof_of g data c :
  upload_ok g data → (c < length (upload_pieces g data))%nat →
  chunk_proof (upload_tree g data) (Z.of_nat c) =
    Ok (concat (upload_path g data c) ++ upload_witness g data).
Proof.
  intros Hu Hc. destruct (upload_ok_pieces g data Hu) as [Hne HC]. pose proof Hu as [Hg _].
  unfold chunk_proof. rewrite ensure_chunk_of by (done || lia).
  destruct (Z.ltb_spec (Z.of_nat c) (Z.of_nat (length (upload_pieces g data)))); [|lia].
  res_simpl. unfold tree_size_witness. cbn [t_geometry t_data_size t_layers upload_tree].
  rewrite size_witness_eq by done. res_simpl.
  pose proof (chunk_proof_loop_of (upload_leaves g data) c
    (upload_leaves_ne g data Hg Hne) 0) as Hl.
  rewrite Nat.pow_0_r, Nat.div_1_r, length_upload_leaves in Hl.
  rewrite Hl by lia. done.
Qed.

(** ** The proof of a segment *)

Lemma upload_piece_len g data c p :
  upload_ok g data → upload_pieces g data !! c = Some p →
  Z.of_nat c < div_ceil (Z.of_nat (length data)) (chunk_size g) ∧
  chunk_len g (Z.of_nat (length data)) (Z.of_nat c) = Ok (Z.of_nat (length p)) ∧
  1 ≤ Z.of_nat (length p) ≤ chunk_size g.
Proof.
  intros [Hg Ha] Hp. pose proof (lookup_lt_Some _ _ _ Hp) as Hc.
  pose proof (length_upload_pieces g data Hg) as Hl.
  destruct (chunk_len_spec g _ (Z.of_nat c) Hg Ha ltac:(lia)) as [-> Hpos].
  destruct Hg. apply pieces_lookup in Hp as ->; [|lia].
  rewrite length_take, length_drop. split_and!; [lia|f_equal; nia|nia..].
Qed.

Lemma tree_chunk_leaf_of g data c p :
  upload_ok g data → upload_pieces g data !! c = Some p →
  tree_chunk_leaf (upload_tree g data) (Z.of_nat c) =
    Ok (chunk_leaf (Z.of_nat c) (chunk_root_ref g p)).
Proof.
  intros Hu Hp. destruct (upload_ok_pieces g data Hu) as [Hne HC]. pose proof Hu as [Hg _].
  unfold tree_chunk_leaf, upload_tree. cbn [t_layers].
  destruct (full_layers_hd node (upload_leaves g data) (upload_leaves_ne g data Hg Hne))
    as [rest ->].
  rewrite length_upload_leaves, len_u32_small by lia. res_simpl.
  by rewrite Nat2Z.id, (upload_leaves_lookup g data c p Hp).
Qed.

Definition in_chunk_path (g : Geometry) (p : list byte) (j : nat) : list (list byte) :=
  seg_siblings (Z.to_nat (segment_size g)) p (Z.to_nat (height g)) 0 j.

Lemma seg_siblings_32 ss b r l i :
  Forall (fun h => length h = HASH_SIZE) (seg_siblings ss b r l i) ∧
  length (seg_siblings ss b r l i) = r.
Proof.
  revert l i. induction r as [|r IH]; intros l i; [by split; [constructor|]|].
  cbn [seg_siblings length]. destruct (IH (S l) (i / 2)%nat) as [H1 ->].
  split; [|done]. constructor; [apply length_seg_tree|done].
Qed.

Lemma segment_siblings_of {E} g b j :
  geometry_ok g → 0 ≤ j < segments_per_chunk g →
  segment_siblings (E:=E) g b j = Ok (in_chunk_path g b (Z.to_nat j)).
Proof.
  intros Hg Hj. unfold segment_siblings, in_chunk_path.
  destruct (height_nat g Hg) as [Hh _].
  rewrite <- (Z2Nat.id j) at 1 by lia. apply segment_siblings_loop_spec; [done..|lia].
Qed.

(** [segment_proof] on bytes of any content: it answers exactly when the bytes open the
    stored leaf, and the answer is the in-chunk path followed by the chunk proof. *)
Lemma segment_proof_of g data c j p b :
  upload_ok g data → upload_pieces g data !! c = Some p → 0 ≤ j < segments_per_chunk g →
  length b = length p →
  segment_proof (upload_tree g data) (Z.of_nat c) j b =
  if bool_decide (chunk_leaf (Z.of_nat c) (chunk_root_ref g b) ≠
                  chunk_leaf (Z.of_nat c) (chunk_root_ref g p))
  then Err PE_ChunkRootMismatch
  else Ok (concat (in_chunk_path g b (Z.to_nat j)) ++
           concat (upload_path g data c) ++ upload_witness g data).
Proof.
  intros Hu Hp Hj Hb. pose proof (lookup_lt_Some _ _ _ Hp) as Hc. pose proof Hu as [Hg _].
  destruct (upload_piece_len g data c p Hu Hp) as (Hcd & Hlen & Hpl).
  unfold segment_proof. rewrite ensure_chunk_of by (done || lia).
  destruct (Z.ltb_spec (Z.of_nat c) (Z.of_nat (length (upload_pieces g data)))); [|lia].
  res_simpl. cbn [t_geometry t_data_size upload_tree].
  destruct (Z.leb_spec (segments_per_chunk g) j); [lia|].
  rewrite Hlen. res_simpl. rewrite Hb, Z.eqb_refl. cbn [negb].
  rewrite chunk_root_spec by (done || lia). res_simpl.
  fold (upload_tree g data). rewrite (tree_chunk_leaf_of g data c p) by done. res_simpl.
  case_bool_decide; [done|].
  rewrite segment_siblings_of by done. res_simpl. by rewrite chunk_proof_of.
Qed.
End TreeProofs.
