(* ===== verification/Verify.v ===== *)
(** Checking chunk, segment and size proofs ([crates/data-tree/src/verify.rs]).

    The order of the checks is the source's: range, byte length, proof length, size
    witness, climb, commitment.  The [expect] calls are [Panic]s of the model. *)

From S2P Require Import Prelude RefTree Geometry TreeHash ChunkTree Shape Builder TreeBuild.

Inductive VerifyError : Type :=
| VE_Size (e : SizeError)
| VE_InvalidChunkLength (expected actual : Z)
| VE_InvalidSegmentLength (expected actual : Z)
| VE_InvalidProofLength (expected actual : nat)
| VE_SizeWitnessMismatch
| VE_CommitmentMismatch.

Definition proof_byte_length (hash_count : Z) : nat := (Z.to_nat hash_count * HASH_SIZE)%nat.

Section Verify.
  Context `{Sha256}.

(** [Err] carries the actual length. *)
Definition exact_byte_length (bytes : list byte) (expected : Z) : result Z unit :=
  let actual := Z.of_nat (length bytes) in
  if actual =? expected then Ok tt else Err actual.

(** Last hash equals the size witness; the siblings before it are returned. *)
Definition require_size_witness (g : Geometry) (proof : list byte) (data_size : Z)
  : result VerifyError (list byte) :=
  if (length proof <? HASH_SIZE)%nat then Panic
  else
    let sibling_len := (length proof - HASH_SIZE)%nat in
    expected ← size_witness g data_size;
    if bool_decide (drop sibling_len proof = expected) then Ok (take sibling_len proof)
    else Err VE_SizeWitnessMismatch.

Definition commitment_matches (g : Geometry) (commitment root : list byte) (data_size : Z)
  : result VerifyError unit :=
  computed ← data_commitment g root data_size;
  if bool_decide (computed = commitment) then Ok tt else Err VE_CommitmentMismatch.

Definition verify_size (g : Geometry) (commitment root : list byte) (data_size : Z)
  : result VerifyError unit :=
  computed ← data_commitment g root data_size;
  if bool_decide (computed = commitment) then Ok tt else Err VE_CommitmentMismatch.

Definition verify_chunk (g : Geometry) (commitment : list byte) (data_size chunk_index : Z)
    (bytes proof : list byte) : result VerifyError unit :=
  chunk_length ← map_err VE_Size (chunk_len g data_size chunk_index);
  _ ← map_err (VE_InvalidChunkLength chunk_length) (exact_byte_length bytes chunk_length);
  count ← map_err VE_Size (chunk_count g data_size);
  d ← expect (depth chunk_index count);
  let hash_count := d + 1 in
  let expected_proof := proof_byte_length hash_count in
  if negb (length proof =? expected_proof)%nat
  then Err (VE_InvalidProofLength expected_proof (length proof))
  else
    siblings ← require_size_witness g proof data_size;
    root ← expect_ok (chunk_root g bytes);
    let leaf_of_chunk := chunk_leaf chunk_index root in
    climbed ← ok_or (climb leaf_of_chunk chunk_index count siblings) VE_CommitmentMismatch;
    commitment_matches g commitment climbed data_size.

(** The in-chunk loop of [verify_segment]: one sibling per level, with the pin of a
    sibling that lies entirely past the data. *)
Fixpoint in_chunk_loop (data_segments : Z) (level : nat) (siblings : list (list byte))
    (root : list byte) (node_index : Z) : result VerifyError (list byte) :=
  match siblings with
  | [] => Ok root
  | sibling :: rest =>
      let sibling_start := shl32 (Z.lxor node_index 1) (Z.of_nat level) in
      pinned ←
        (if data_segments <=? sibling_start then
           k ← expect (SubtreeHeight_new (Z.of_nat level));
           Ok (bool_decide (sibling ≠ empty k))
         else Ok false);
      if (pinned : bool) then Err VE_CommitmentMismatch
      else
        in_chunk_loop data_segments (S level) rest
          (if Z.land node_index 1 =? 0 then node root sibling else node sibling root)
          (Z.shiftr node_index 1)
  end.

Definition verify_segment (g : Geometry) (commitment : list byte)
    (data_size chunk_index segment_index : Z) (bytes proof : list byte)
  : result VerifyError unit :=
  segment_length ← map_err VE_Size (segment_len g data_size chunk_index segment_index);
  _ ← map_err (VE_InvalidSegmentLength segment_length) (exact_byte_length bytes segment_length);
  count ← map_err VE_Size (chunk_count g data_size);
  d ← expect (depth chunk_index count);
  let hash_count := height g + d + 1 in
  let expected_proof := proof_byte_length hash_count in
  if negb (length proof =? expected_proof)%nat
  then Err (VE_InvalidProofLength expected_proof (length proof))
  else
    siblings ← require_size_witness g proof data_size;
    let in_chunk_bytes := (Z.to_nat (height g) * HASH_SIZE)%nat in
    '(in_chunk, chunk_siblings) ←
      expect (if (in_chunk_bytes <=? length siblings)%nat
              then Some (take in_chunk_bytes siblings, drop in_chunk_bytes siblings)
              else None);
    chunk_length ← expect_ok (chunk_len g data_size chunk_index);
    let segments := div_ceil chunk_length (segment_size g) in
    data_segments ← expect (if segments <? 2 ^ 32 then Some segments else None);
    root ← in_chunk_loop data_segments 0 (chunks_exact HASH_SIZE in_chunk)
             (leaf bytes) segment_index;
    let leaf_of_chunk := chunk_leaf chunk_index root in
    climbed ← ok_or (climb leaf_of_chunk chunk_index count chunk_siblings) VE_CommitmentMismatch;
    commitment_matches g commitment climbed data_size.
End Verify.

(** * The verifiers: what they accept, that they accept the proofs a tree serves, and
    that an accepted proof fixes the size, the bytes and the proof. *)

Section VerifyFacts.
  Context `{Sha256}.
  #[local] Existing Instance hash_inhabited.
  Implicit Types (g : Geometry) (D b P : list byte) (s : list (list byte)).

Notation hashes s := (Forall (fun h => length h = HASH_SIZE) s).

(** ** Proofs as lists of hashes *)

Definition witness g n : list byte := sha256 (size_preimage g n).

(** The siblings a verifier reads from a proof: every hash but the last. *)
Definition proof_siblings P : list (list byte) :=
  chunks_exact HASH_SIZE (take (length P - HASH_SIZE) P).

Lemma proof_siblings_of s w :
  hashes s → length w = HASH_SIZE → proof_siblings (concat s ++ w) = s.
Proof.
  intros Hs Hw. unfold proof_siblings. rewrite length_app, Hw, Nat.add_sub, take_app_length.
  by apply chunks_exact_concat; [unfold HASH_SIZE; lia|].
Qed.

Lemma proof_shape P (k : nat) :
  length P = (S k * HASH_SIZE)%nat →
  hashes (proof_siblings P) ∧ length (proof_siblings P) = k ∧
  concat (proof_siblings P) = take (length P - HASH_SIZE) P.
Proof.
  intros HP. unfold proof_siblings.
  destruct (chunks_exact_spec HASH_SIZE k (take (length P - HASH_SIZE) P)) as (Hl & Hf & Hc).
  - unfold HASH_SIZE; lia.
  - rewrite length_take. unfold HASH_SIZE in *. lia.
  - done.
Qed.

Lemma length_concat_hashes s : hashes s → length (concat s) = (length s * HASH_SIZE)%nat.
Proof. intros Hs. rewrite (length_concat_const HASH_SIZE) by done. lia. Qed.

Lemma climb_hashes r c (C : nat) s :
  (c < C)%nat → hashes s →
  climb r (Z.of_nat c) (Z.of_nat C) (concat s) = climb_loop r (Z.of_nat c) (Z.of_nat C - 1) s.
Proof.
  intros Hc Hs. unfold climb.
  destruct (Z.eqb_spec (Z.of_nat C) 0); [lia|].
  destruct (Z.leb_spec (Z.of_nat C) (Z.of_nat c)); [lia|].
  rewrite length_concat_hashes, Nat.Div0.mod_mul by done. cbn [orb negb Nat.eqb].
  by rewrite chunks_exact_concat by (done || unfold HASH_SIZE; lia).
Qed.

(** ** The two checks every verifier ends with *)

Lemma require_size_witness_of g P n :
  geometry_ok g → (HASH_SIZE ≤ length P)%nat →
  require_size_witness g P n =
  if bool_decide (drop (length P - HASH_SIZE) P = witness g n)
  then Ok (take (length P - HASH_SIZE) P) else Err VE_SizeWitnessMismatch.
Proof.
  intros Hg HP. unfold require_size_witness.
  destruct (Nat.ltb_spec (length P) HASH_SIZE); [lia|].
  by rewrite size_witness_eq by done.
Qed.

Lemma commitment_matches_of g D r n :
  geometry_ok g →
  commitment_matches g D r n =
  if bool_decide (node r (witness g n) = D) then Ok tt else Err VE_CommitmentMismatch.
Proof.
  intros Hg. unfold commitment_matches, data_commitment. by rewrite size_witness_eq by done.
Qed.

(** The depth of a chunk of an admitted upload, as a number of hashes. *)
Lemma depth_admits g n c :
  geometry_ok g → admits g n → 0 ≤ c < div_ceil n (chunk_size g) →
  ∃ d : nat, depth c (div_ceil n (chunk_size g)) = Some (Z.of_nat d).
Proof.
  intros Hg Ha Hc. destruct (chunk_count_spec g n Hg Ha) as [_ HC]. destruct Hg.
  set (C := Z.to_nat (div_ceil n (chunk_size g))).
  pose proof (depth_spec node (Z.to_nat c) (replicate C (@nil byte))) as Hd.
  rewrite length_replicate in Hd. unfold C in Hd. rewrite !Z2Nat.id in Hd by lia.
  eexists. apply Hd; lia.
Qed.

(** ** Chunk proofs *)

(** What is left of [verify_chunk] once the ranges and lengths are right. *)
Lemma verify_chunk_of g D n c b P d :
  geometry_ok g → admits g n → 0 ≤ c < div_ceil n (chunk_size g) →
  Z.of_nat (length b) = Z.min (chunk_size g) (n - c * chunk_size g) →
  depth c (div_ceil n (chunk_size g)) = Some (Z.of_nat d) →
  length P = (S d * HASH_SIZE)%nat →
  ∃ r, climb_loop (chunk_leaf c (chunk_root_ref g b)) c (div_ceil n (chunk_size g) - 1)
         (proof_siblings P) = Some r ∧
    verify_chunk g D n c b P =
    if bool_decide (drop (length P - HASH_SIZE) P = witness g n) then
      if bool_decide (node r (witness g n) = D) then Ok tt else Err VE_CommitmentMismatch
    else Err VE_SizeWitnessMismatch.
Proof.
  intros Hg Ha Hc Hb Hd HP. unfold verify_chunk.
  destruct (chunk_len_spec g n c Hg Ha Hc) as [-> Hpos].
  destruct (chunk_count_spec g n Hg Ha) as [-> HC]. res_simpl.
  unfold exact_byte_length. rewrite Hb, Z.eqb_refl. res_simpl. rewrite Hd. res_simpl.
  unfold proof_byte_length. replace (Z.to_nat (Z.of_nat d + 1)) with (S d) by lia.
  destruct (Nat.eqb_spec (length P) (S d * HASH_SIZE)) as [_|]; [cbn [negb]|done].
  rewrite require_size_witness_of by (done || unfold HASH_SIZE in *; lia).
  destruct (proof_shape P d HP) as (Hs & Hl & HPs).
  pose proof Hg as []. set (C := div_ceil n (chunk_size g)) in *.
  set (r0 := chunk_leaf c (chunk_root_ref g b)).
  assert (is_Some (climb_loop r0 c (C - 1) (proof_siblings P))) as [r Hr].
  { pose proof (climb_loop_Some_iff r0 (Z.to_nat c) (Z.to_nat C) (proof_siblings P)) as Hiff.
    rewrite !Z2Nat.id in Hiff by lia. apply Hiff; [lia..|]. by rewrite Hl. }
  exists r. split; [done|].
  case_bool_decide; [|done].
  res_simpl. rewrite chunk_root_spec by (done || lia). res_simpl. fold r0.
  rewrite <- HPs.
  pose proof (climb_hashes r0 (Z.to_nat c) (Z.to_nat C) (proof_siblings P)) as Hclimb.
  rewrite !Z2Nat.id in Hclimb by lia. rewrite Hclimb, Hr by (done || lia). res_simpl.
  by apply commitment_matches_of.
Qed.

(** The ranges and lengths a proof of chunk [c] has to respect. *)
Record chunk_request (g : Geometry) (n c : Z) (bytes_len : Z) (d : nat) : Prop := {
  cr_admits : admits g n;
  cr_index : 0 ≤ c < div_ceil n (chunk_size g);
  cr_bytes : bytes_len = Z.min (chunk_size g) (n - c * chunk_size g);
  cr_depth : depth c (div_ceil n (chunk_size g)) = Some (Z.of_nat d)
}.

Lemma chunk_len_cases g n c :
  geometry_ok g → 0 ≤ n → 0 ≤ c →
  (admits g n ∧ 0 ≤ c < div_ceil n (chunk_size g)) ∨ ∃ e, chunk_len g n c = Err e.
Proof.
  intros Hg Hn Hc. assert (admits g n ∨ ¬ admits g n) as [Ha|Ha] by (unfold admits; lia).
  - destruct (Z.lt_ge_cases c (div_ceil n (chunk_size g))) as [Hlt|Hge]; [by left; split|right].
    unfold chunk_len. destruct (chunk_count_spec g n Hg Ha) as [-> _]. res_simpl.
    destruct (Z.leb_spec (div_ceil n (chunk_size g)) c); [by eexists|lia].
  - right. unfold chunk_len. rewrite chunk_count_err by done. by eexists.
Qed.

(** [verify_chunk] rejects a request outside the ranges or lengths with an error, and
    otherwise compares the witness and the climbed commitment. *)
Lemma verify_chunk_cases g D n c b P :
  geometry_ok g → 0 ≤ n → 0 ≤ c →
  (∃ d, chunk_request g n c (Z.of_nat (length b)) d ∧ length P = (S d * HASH_SIZE)%nat) ∨
  ∃ e, verify_chunk g D n c b P = Err e.
Proof.
  intros Hg Hn Hc. unfold verify_chunk.
  destruct (chunk_len_cases g n c Hg Hn Hc) as [[Ha Hlt]|[e ->]]; [|right; by eexists].
  destruct (chunk_len_spec g n c Hg Ha Hlt) as [-> Hpos].
  destruct (chunk_count_spec g n Hg Ha) as [-> HC]. res_simpl. unfold exact_byte_length.
  destruct (Z.eqb_spec (Z.of_nat (length b)) (Z.min (chunk_size g) (n - c * chunk_size g)))
    as [Hb|]; res_simpl; [|right; by eexists].
  destruct (depth_admits g n c Hg Ha Hlt) as [d Hd]. rewrite Hd. res_simpl.
  unfold proof_byte_length. replace (Z.to_nat (Z.of_nat d + 1)) with (S d) by lia.
  destruct (Nat.eqb_spec (length P) (S d * HASH_SIZE)); cbn [negb]; [|right; by eexists].
  left. by exists d.
Qed.

Lemma verify_chunk_total g D n c b P :
  geometry_ok g → 0 ≤ n → 0 ≤ c → verify_chunk g D n c b P ≠ Panic.
Proof.
  intros Hg Hn Hc.
  destruct (verify_chunk_cases g D n c b P Hg Hn Hc) as [(d & [] & HP)|[e ->]]; [|done].
  destruct (verify_chunk_of g D n c b P d) as (r & _ & ->); [done..|].
  by repeat case_bool_decide.
Qed.

(** What an accepted chunk proof says. *)
Lemma verify_chunk_Ok g D n c b P :
  geometry_ok g → 0 ≤ n → 0 ≤ c →
  verify_chunk g D n c b P = Ok tt ↔
  ∃ d r, chunk_request g n c (Z.of_nat (length b)) d ∧ length P = (S d * HASH_SIZE)%nat ∧
    P = concat (proof_siblings P) ++ witness g n ∧
    climb_loop (chunk_leaf c (chunk_root_ref g b)) c (div_ceil n (chunk_size g) - 1)
      (proof_siblings P) = Some r ∧ node r (witness g n) = D.
Proof.
  intros Hg Hn Hc. split.
  - intros Hv. destruct (verify_chunk_cases g D n c b P Hg Hn Hc) as [(d & Hq & HP)|[e He]];
      [|congruence]. pose proof Hq as [].
    destruct (verify_chunk_of g D n c b P d) as (r & Hr & Heq); [done..|].
    rewrite Heq in Hv. exists d, r. destruct (proof_shape P d HP) as (_ & _ & Hcat).
    repeat case_bool_decide; try done. split_and!; try done.
    rewrite Hcat. by match goal with H : drop _ P = _ |- _ => rewrite <- H, take_drop end.
  - intros (d & r & [] & HP & Hw & Hr & HD).
    destruct (verify_chunk_of g D n c b P d) as (r' & Hr' & ->); [done..|].
    assert (r' = r) as -> by congruence.
    destruct (proof_shape P d HP) as (_ & _ & Hcat).
    rewrite bool_decide_true; [by rewrite bool_decide_true|].
    rewrite Hcat in Hw. rewrite <- (take_drop (length P - HASH_SIZE) P) in Hw at 1.
    by apply app_inv_head in Hw.
Qed.

(** Every chunk of an accepted upload verifies with the proof of its tree. *)
Lemma verify_chunk_complete g data c p :
  upload_ok g data → upload_pieces g data !! c = Some p →
  verify_chunk g (upload_commitment g data) (Z.of_nat (length data)) (Z.of_nat c) p
    (concat (upload_path g data c) ++ upload_witness g data) = Ok tt.
Proof.
  intros Hu Hp. pose proof Hu as [Hg Ha]. pose proof (lookup_lt_Some _ _ _ Hp) as Hc.
  destruct (upload_piece_len g data c p Hu Hp) as (Hcd & Hlen & Hpl).
  destruct (upload_ok_pieces g data Hu) as [Hne HC].
  pose proof (length_upload_pieces g data Hg) as Hcnt.
  apply chunk_len_Ok_inv in Hlen as (_ & _ & Hlen); [|done|lia..].
  pose proof (depth_spec node c (upload_leaves g data)) as Hd.
  rewrite length_upload_leaves, Hcnt in Hd. specialize (Hd Hc ltac:(lia)).
  assert (hashes (upload_path g data c)) as Hs.
  { apply audit_path_32; [by rewrite length_upload_leaves|apply upload_leaves_32]. }
  apply verify_chunk_Ok; [done|lia..|].
  exists (length (upload_path g data c)), (upload_root g data).
  rewrite proof_siblings_of by (done || apply sha256_length).
  split_and!; [by constructor; [..|lia|done|done]| |done| |done].
  - rewrite length_app, length_concat_hashes by done. unfold upload_witness.
    rewrite sha256_length. unfold HASH_SIZE. lia.
  - rewrite <- Hcnt, <- (length_upload_leaves g data).
    apply climb_loop_audit_path; [by apply upload_leaves_lookup|].
    rewrite length_upload_leaves. lia.
Qed.

(** ** Binding of chunk proofs *)

(** The preimages [verify_chunk] hashes. *)
Definition chunk_queries g n c b P : list (list byte) :=
  let leaf := chunk_leaf c (chunk_root_ref g b) in
  let last := div_ceil n (chunk_size g) - 1 in
  node_preimage (default [] (climb_loop leaf c last (proof_siblings P))) (witness g n)
  :: size_preimage g n :: chunk_leaf_preimage c (chunk_root_ref g b)
  :: climb_queries leaf c last (proof_siblings P) ++ chunk_root_queries g b.

(** Geometries with the same chunk and segment sizes hash a chunk alike. *)
Lemma chunk_root_ref_same g g' b :
  chunk_size g = chunk_size g' → segments_per_chunk g = segments_per_chunk g' →
  chunk_root_ref g b = chunk_root_ref g' b.
Proof. intros H1 H2. unfold chunk_root_ref, segment_size, height. by rewrite H1, H2. Qed.

(** The commitment check pins the size and the layout of the upload. *)
Lemma commitment_binding g g' r r' n n' :
  geometry_ok g → geometry_ok g' → 0 ≤ n < 2 ^ 64 → 0 ≤ n' < 2 ^ 64 →
  length r = length r' → node r (witness g n) = node r' (witness g' n') →
  (r = r' ∧ n = n' ∧ chunk_size g = chunk_size g' ∧ segments_per_chunk g = segments_per_chunk g')
  ∨ collides [node_preimage r (witness g n); size_preimage g n]
             [node_preimage r' (witness g' n'); size_preimage g' n'].
Proof.
  intros Hg Hg' Hn Hn' Hl Heq.
  apply node_same in Heq as [[-> Hw]|Hc]; [| |done].
  2: by_collision Hc.
  apply sha256_same in Hw as [Hw|Hc].
  - left. split; [done|]. by apply size_preimage_inj.
  - by_collision Hc.
Qed.

Lemma climb_loop_length r fn sn s x :
  length r = HASH_SIZE → climb_loop r fn sn s = Some x → length x = HASH_SIZE.
Proof.
  revert r fn sn. induction s as [|p s IH]; intros r fn sn Hr; cbn [climb_loop].
  - by destruct (sn =? 0); [intros [= <-]|].
  - destruct (sn =? 0); [done|]. destruct (_ || _); [destruct (shift_even 32 fn sn)|];
      apply IH, length_node.
Qed.

Lemma verify_chunk_binding g g' D c n b P n' b' P' :
  geometry_ok g → geometry_ok g' → 0 ≤ n < 2 ^ 64 → 0 ≤ n' < 2 ^ 64 → 0 ≤ c < 2 ^ 32 →
  verify_chunk g D n c b P = Ok tt → verify_chunk g' D n' c b' P' = Ok tt →
  (n = n' ∧ b = b' ∧ P = P' ∧ chunk_size g = chunk_size g' ∧
   segments_per_chunk g = segments_per_chunk g')
  ∨ collides (chunk_queries g n c b P) (chunk_queries g' n' c b' P').
Proof.
  intros Hg Hg' Hn Hn' Hc (d & r & Hq & HP & HPw & Hr & HD)%verify_chunk_Ok
    (d' & r' & Hq' & HP' & HPw' & Hr' & HD')%verify_chunk_Ok; try (done || lia).
  unfold chunk_queries. rewrite Hr, Hr'. cbn [default].
  destruct (proof_shape P d HP) as (Hs & _ & _), (proof_shape P' d' HP') as (Hs' & _ & _).
  destruct Hq as [_ _ Hb _], Hq' as [_ _ Hb' _].
  destruct (commitment_binding g g' r r' n n') as [(<- & <- & Hcs & Hspc)|Hcol]; try done.
  { by rewrite (climb_loop_length _ _ _ _ _ (length_chunk_leaf _ _) Hr),
      (climb_loop_length _ _ _ _ _ (length_chunk_leaf _ _) Hr'). }
  { congruence. }
  2: by_collision Hcol.
  rewrite <- Hcs in *.
  destruct (climb_loop_binding _ _ _ _ _ _ _ ltac:(by rewrite !length_chunk_leaf) Hs Hs' Hr Hr')
    as [[Hl Hss]|Hcol].
  2: by_collision Hcol.
  apply chunk_leaf_same in Hl as [[_ Hroot]|Hcol]; [| |done..].
  2: by_collision Hcol.
  rewrite <- (chunk_root_ref_same g g' b') in Hroot by done.
  assert (witness g' n = witness g n) as Hww
    by (unfold witness, size_preimage; by rewrite Hcs, Hspc).
  destruct (chunk_root_ref_binding g b b') as [->|Hcol]; try (done || lia).
  - left. split_and!; try done. rewrite HPw, HPw', Hss. by rewrite Hww.
  - right. assert (chunk_root_queries g b' = chunk_root_queries g' b') as Hcq.
    { unfold chunk_root_queries, segment_size, height. by rewrite Hcs, Hspc. }
    rewrite <- Hcq. eapply collides_mono; [exact Hcol|set_solver..].
Qed.
End VerifyFacts.
