(* ===== verification/VerifySegment.v ===== *)
(** Segment proofs: the in-chunk climb with its empty-subtree pin, and what
    [verify_segment] accepts. *)

From S2P Require Import Prelude RefTree Geometry TreeHash ChunkTree Shape Builder TreeBuild Verify.

Section VerifySegment.
  Context `{Sha256}.
  #[local] Existing Instance hash_inhabited.
  Implicit Types (g : Geometry) (D b P : list byte) (s : list (list byte)).

Notation hashes s := (Forall (fun h => length h = HASH_SIZE) s).

(** ** The in-chunk loop *)

Lemma in_chunk_loop_total ds l s x j :
  (l + length s ≤ 8)%nat → in_chunk_loop ds l s x j ≠ Panic.
Proof.
  revert l x j. induction s as [|p s IH]; intros l x j Hl; [done|].
  cbn [in_chunk_loop length] in *. unfold SubtreeHeight_new.
  destruct (Z.leb_spec (Z.of_nat l) MAX_SUBTREE_HEIGHT) as [|Hgt].
  2:{ change MAX_SUBTREE_HEIGHT with 8 in Hgt. lia. }
  destruct (ds <=? _); res_simpl; [case_bool_decide; [done|]|]; apply IH; lia.
Qed.

(** One round on natural indices. *)
Lemma in_chunk_loop_cons ds l p s x i r :
  (l + S r ≤ 8)%nat → (i < 2 ^ S r)%nat →
  in_chunk_loop ds l (p :: s) x (Z.of_nat i) =
  if (ds <=? Z.of_nat (sibling_index i * 2 ^ l)) && bool_decide (p ≠ empty_at l)
  then Err VE_CommitmentMismatch
  else in_chunk_loop ds (S l) s (if Nat.even i then node x p else node p x) (Z.of_nat (i / 2)).
Proof.
  intros Hl Hi. cbn [in_chunk_loop]. unfold SubtreeHeight_new.
  destruct (Z.leb_spec (Z.of_nat l) MAX_SUBTREE_HEIGHT) as [Hle|Hgt].
  2:{ change MAX_SUBTREE_HEIGHT with 8 in Hgt. lia. }
  pose proof (sibling_index_lt i r Hi) as Hs.
  assert (Z.of_nat (2 ^ l) = 2 ^ Z.of_nat l) as Hpl by (by rewrite Nat2Z.inj_pow).
  assert (2 ^ S r * 2 ^ l ≤ 256)%nat.
  { rewrite <- Nat.pow_add_r. apply (Nat.pow_le_mono_r 2 _ 8); lia. }
  rewrite sibling_index_Z, shl32_small; [|lia..|rewrite <- Hpl; nia].
  rewrite <- Hpl, <- Nat2Z.inj_mul, land_1_even, even_of_nat, shiftr_1_of_nat.
  destruct (ds <=? _); res_simpl; [|done]. rewrite empty_spec by done. by case_bool_decide.
Qed.

(** Climbing the siblings of the reference tree gives its root, and the pin passes:
    a sibling subtree past the data is the empty one. *)
Lemma in_chunk_loop_complete ss b ds r l i :
  (0 < ss)%nat → ds = div_ceil (Z.of_nat (length b)) (Z.of_nat ss) →
  (l + r ≤ 8)%nat → (i < 2 ^ r)%nat →
  in_chunk_loop ds l (seg_siblings ss b r l i) (seg_tree ss b (i * 2 ^ l) l) (Z.of_nat i) =
    Ok (seg_tree ss b 0 (l + r)).
Proof.
  intros Hss Hds. revert l i. induction r as [|r IH]; intros l i Hl Hi.
  - cbn in Hi. assert (i = 0)%nat as -> by lia. by rewrite Nat.add_0_r.
  - cbn [seg_siblings]. rewrite (in_chunk_loop_cons _ _ _ _ _ _ r) by done.
    destruct (Z.leb_spec ds (Z.of_nat (sibling_index i * 2 ^ l))) as [Hpast|_]; cbn [andb].
    + rewrite Hds in Hpast. apply div_ceil_le_iff in Hpast; [|lia].
      rewrite bool_decide_false by (intros []; apply seg_tree_past; nia).
      rewrite <- (seg_tree_parent ss b i l), IH; [by rewrite Nat.add_succ_r|lia|].
      cbn [Nat.pow] in Hi. div_lia.
    + rewrite <- (seg_tree_parent ss b i l), IH; [by rewrite Nat.add_succ_r|lia|].
      cbn [Nat.pow] in Hi. div_lia.
Qed.

(** The preimages the loop hashes. *)
Fixpoint in_chunk_queries (x : list byte) (i : nat) (s : list (list byte)) : list (list byte) :=
  match s with
  | [] => []
  | p :: s' =>
      (if Nat.even i then node_preimage x p else node_preimage p x)
      :: in_chunk_queries (if Nat.even i then node x p else node p x) (i / 2) s'
  end.

Lemma in_chunk_loop_binding ds ds' l r s s' x x' i R :
  (l + r ≤ 8)%nat → (i < 2 ^ r)%nat → length s = r → length s' = r →
  hashes s → hashes s' → length x = HASH_SIZE → length x' = HASH_SIZE →
  in_chunk_loop ds l s x (Z.of_nat i) = Ok R →
  in_chunk_loop ds' l s' x' (Z.of_nat i) = Ok R →
  (x = x' ∧ s = s') ∨ collides (in_chunk_queries x i s) (in_chunk_queries x' i s').
Proof.
  revert l s s' x x' i. induction r as [|r IH];
    intros l s s' x x' i Hl Hi Hs Hs' Hf Hf' Hx Hx' H1 H2.
  { apply nil_length_inv in Hs as ->, Hs' as ->. cbn in *. left. split; congruence. }
  destruct s as [|p s], s' as [|p' s']; try done.
  apply Forall_cons in Hf as [Hp Hf], Hf' as [Hp' Hf'].
  rewrite (in_chunk_loop_cons _ _ _ _ _ _ r) in H1 by done.
  rewrite (in_chunk_loop_cons _ _ _ _ _ _ r) in H2 by done.
  destruct (_ && _) in H1; [done|]. destruct (_ && _) in H2; [done|].
  cbn [in_chunk_queries].
  assert (i / 2 < 2 ^ r)%nat as Hi2 by (cbn [Nat.pow] in Hi; div_lia).
  injection Hs as Hs. injection Hs' as Hs'.
  eapply IH in H1 as [[Hn ->]|Hc]; [| |lia|done..| | |exact H2];
    [| |destruct (Nat.even i); apply length_node..].
  2: by_collision Hc.
  destruct (Nat.even i); apply node_same in Hn as [[-> ->]|Hc]; try congruence;
    try (by left); right; eapply collides_mono; try exact Hc; set_solver.
Qed.

(** The honest path hashes only nodes of the chunk's tree. *)
Lemma seg_tree_queries_up ss b i l :
  seg_tree_queries ss b (i * 2 ^ l) l ⊆ seg_tree_queries ss b (i / 2 * 2 ^ S l) (S l).
Proof.
  cbn [seg_tree_queries Nat.pow]. destruct (Nat.even i) eqn:Hev.
  - apply Nat.even_spec in Hev as [q ->]. replace (2 * q / 2)%nat with q by div_lia.
    replace (2 * q * 2 ^ l)%nat with (q * (2 * 2 ^ l))%nat by lia. set_solver.
  - assert (Nat.odd i = true) as Hodd by (by rewrite <- Nat.negb_even, Hev).
    apply Nat.odd_spec in Hodd as [q ->]. replace ((2 * q + 1) / 2)%nat with q by div_lia.
    replace ((2 * q + 1) * 2 ^ l)%nat with (q * (2 * 2 ^ l) + 2 ^ l)%nat by lia. set_solver.
Qed.

Lemma seg_tree_queries_root ss b r l i :
  (i < 2 ^ r)%nat → seg_tree_queries ss b (i * 2 ^ l) l ⊆ seg_tree_queries ss b 0 (l + r).
Proof.
  revert l i. induction r as [|r IH]; intros l i Hi.
  - cbn in Hi. assert (i = 0)%nat as -> by lia. by rewrite Nat.add_0_r.
  - rewrite Nat.add_succ_r, <- Nat.add_succ_l. etrans; [apply seg_tree_queries_up|].
    apply IH. cbn [Nat.pow] in Hi. div_lia.
Qed.

Lemma in_chunk_queries_honest ss b r l i :
  (i < 2 ^ r)%nat →
  in_chunk_queries (seg_tree ss b (i * 2 ^ l) l) i (seg_siblings ss b r l i) ⊆
  seg_tree_queries ss b 0 (l + r).
Proof.
  revert l i. induction r as [|r IH]; intros l i Hi; [cbn; set_solver|].
  assert (i / 2 < 2 ^ r)%nat as Hi2 by (cbn [Nat.pow] in Hi; div_lia).
  cbn [seg_siblings in_chunk_queries]. rewrite <- (seg_tree_parent ss b i l).
  rewrite Nat.add_succ_r, <- Nat.add_succ_l.
  intros z [->|Hz]%elem_of_cons; [|by apply (IH (S l) (i / 2)%nat Hi2)].
  apply (seg_tree_queries_root ss b r (S l) (i / 2) Hi2).
  cbn [seg_tree_queries Nat.pow]. unfold sibling_index. destruct (Nat.even i) eqn:Hev.
  - apply Nat.even_spec in Hev as [q ->]. replace (2 * q / 2)%nat with q by div_lia.
    replace (2 * q * 2 ^ l)%nat with (q * (2 * 2 ^ l))%nat by lia.
    replace (S (2 * q) * 2 ^ l)%nat with (q * (2 * 2 ^ l) + 2 ^ l)%nat by lia. set_solver.
  - assert (Nat.odd i = true) as Hodd by (by rewrite <- Nat.negb_even, Hev).
    apply Nat.odd_spec in Hodd as [q ->]. replace ((2 * q + 1) / 2)%nat with q by div_lia.
    replace (pred (2 * q + 1) * 2 ^ l)%nat with (q * (2 * 2 ^ l))%nat by lia.
    replace ((2 * q + 1) * 2 ^ l)%nat with (q * (2 * 2 ^ l) + 2 ^ l)%nat by lia. set_solver.
Qed.

(** ** What [verify_segment] accepts *)

(** The number of data segments of chunk [c]. *)
Definition data_segments g n c : Z :=
  div_ceil (Z.min (chunk_size g) (n - c * chunk_size g)) (segment_size g).

Record segment_request (g : Geometry) (n c j : Z) (bytes_len : Z) (d : nat) : Prop := {
  sr_admits : admits g n;
  sr_index : 0 ≤ c < div_ceil n (chunk_size g);
  sr_segment : 0 ≤ j < segments_per_chunk g;
  sr_bytes : bytes_len =
    Z.max 0 (Z.min (segment_size g) (n - c * chunk_size g - j * segment_size g));
  sr_depth : depth c (div_ceil n (chunk_size g)) = Some (Z.of_nat d)
}.

Definition hgt g : nat := Z.to_nat (height g).

Lemma split_siblings g P k :
  length P = (S (hgt g + k) * HASH_SIZE)%nat →
  let siblings := take (length P - HASH_SIZE) P in
  (hgt g * HASH_SIZE ≤ length siblings)%nat ∧
  chunks_exact HASH_SIZE (take (hgt g * HASH_SIZE) siblings) = take (hgt g) (proof_siblings P) ∧
  drop (hgt g * HASH_SIZE) siblings = concat (drop (hgt g) (proof_siblings P)) ∧
  hashes (take (hgt g) (proof_siblings P)) ∧ hashes (drop (hgt g) (proof_siblings P)) ∧
  length (take (hgt g) (proof_siblings P)) = hgt g ∧
  length (drop (hgt g) (proof_siblings P)) = k.
Proof.
  intros HP siblings. destruct (proof_shape P _ HP) as (Hs & Hl & Hc).
  unfold siblings. rewrite <- Hc.
  destruct (take_drop_concat_const HASH_SIZE (hgt g) (proof_siblings P) Hs) as [-> ->].
  rewrite length_concat_hashes, length_take, length_drop, Hl by done.
  rewrite chunks_exact_concat by (unfold HASH_SIZE; lia || by apply Forall_take).
  split_and!; try done; try (unfold HASH_SIZE; lia).
  - by apply Forall_take.
  - by apply Forall_drop.
Qed.

Lemma verify_segment_of g D n c j b P d :
  geometry_ok g → segment_request g n c j (Z.of_nat (length b)) d →
  length P = (S (hgt g + d) * HASH_SIZE)%nat →
  verify_segment g D n c j b P =
  if bool_decide (drop (length P - HASH_SIZE) P = witness g n) then
    root ← in_chunk_loop (data_segments g n c) 0 (take (hgt g) (proof_siblings P)) (leaf b) j;
    r ← ok_or (climb_loop (chunk_leaf c root) c (div_ceil n (chunk_size g) - 1)
                 (drop (hgt g) (proof_siblings P))) VE_CommitmentMismatch;
    if bool_decide (node r (witness g n) = D) then Ok tt else Err VE_CommitmentMismatch
  else Err VE_SizeWitnessMismatch.
Proof.
  intros Hg [Ha Hc Hj Hb Hd] HP. unfold verify_segment.
  rewrite segment_len_spec by done. destruct (chunk_len_spec g n c Hg Ha Hc) as [-> Hpos].
  destruct (chunk_count_spec g n Hg Ha) as [-> HC]. res_simpl.
  unfold exact_byte_length. rewrite Hb, Z.eqb_refl. res_simpl. rewrite Hd. res_simpl.
  destruct (height_spec g Hg) as [Hh _].
  unfold proof_byte_length. replace (Z.to_nat (height g + Z.of_nat d + 1)) with (S (hgt g + d))
    by (unfold hgt; lia).
  destruct (Nat.eqb_spec (length P) (S (hgt g + d) * HASH_SIZE)) as [_|]; [cbn [negb]|done].
  rewrite require_size_witness_of by (done || unfold HASH_SIZE in *; lia).
  case_bool_decide; [|done]. res_simpl. fold (hgt g).
  destruct (split_siblings g P d HP) as (Hle & Hin & Hdr & Hf1 & Hf2 & Hl1 & Hl2).
  cbn zeta in *. destruct (Nat.leb_spec (hgt g * HASH_SIZE) (length (take (length P - HASH_SIZE) P)));
    [|lia]. res_simpl. rewrite Hin, Hdr. fold (data_segments g n c).
  pose proof Hg as [_ Hcs _ Hmx Hprod].
  destruct (geometry_ok_segments g Hg) as (Hs1 & Hs2 & Hs3).
  assert (data_segments g n c ≤ segments_per_chunk g).
  { unfold data_segments. apply div_ceil_le_iff; lia. }
  destruct (Z.ltb_spec (data_segments g n c) (2 ^ 32)); [|lia]. res_simpl.
  destruct (in_chunk_loop _ _ _ _ _) as [root|e|]; res_simpl; [|done..].
  pose proof (climb_hashes (chunk_leaf c root) (Z.to_nat c) (Z.to_nat (div_ceil n (chunk_size g)))
    (drop (hgt g) (proof_siblings P))) as Hclimb.
  rewrite !Z2Nat.id in Hclimb by lia. rewrite Hclimb by (done || lia).
  destruct (climb_loop _ _ _ _); res_simpl; [|done]. by apply commitment_matches_of.
Qed.

Lemma verify_segment_cases g D n c j b P :
  geometry_ok g → 0 ≤ n → 0 ≤ c → 0 ≤ j →
  (∃ d, segment_request g n c j (Z.of_nat (length b)) d ∧
        length P = (S (hgt g + d) * HASH_SIZE)%nat) ∨
  ∃ e, verify_segment g D n c j b P = Err e.
Proof.
  intros Hg Hn Hc Hj. unfold verify_segment.
  assert (admits g n ∨ ¬ admits g n) as [Ha|Ha] by (unfold admits; lia).
  2:{ right. unfold segment_len. rewrite chunk_count_err by done. by eexists. }
  destruct (chunk_count_spec g n Hg Ha) as [HC _].
  destruct (Z.lt_ge_cases c (div_ceil n (chunk_size g))) as [Hlt|Hge].
  2:{ right. unfold segment_len. rewrite HC. res_simpl.
      destruct (Z.leb_spec (div_ceil n (chunk_size g)) c); [by eexists|lia]. }
  destruct (Z.lt_ge_cases j (segments_per_chunk g)) as [Hjs|Hjs].
  2:{ right. unfold segment_len. rewrite HC. res_simpl.
      destruct (Z.leb_spec (div_ceil n (chunk_size g)) c); [lia|].
      destruct (Z.leb_spec (segments_per_chunk g) j); [by eexists|lia]. }
  rewrite segment_len_spec, HC by done. res_simpl. unfold exact_byte_length.
  destruct (Z.eqb_spec (Z.of_nat (length b)) (Z.max 0 (Z.min (segment_size g)
    (n - c * chunk_size g - j * segment_size g)))) as [Hb|]; res_simpl; [|right; by eexists].
  destruct (depth_admits g n c Hg Ha ltac:(lia)) as [d Hd]. rewrite Hd. res_simpl.
  destruct (height_spec g Hg) as [Hh _].
  unfold proof_byte_length. replace (Z.to_nat (height g + Z.of_nat d + 1)) with (S (hgt g + d))
    by (unfold hgt; lia).
  destruct (Nat.eqb_spec (length P) (S (hgt g + d) * HASH_SIZE)); cbn [negb]; [|right; by eexists].
  left. by exists d.
Qed.
End VerifySegment.

(** * Completeness and binding of segment proofs, and their agreement with chunk proofs. *)

Section SegmentFacts.
  Context `{Sha256}.
  #[local] Existing Instance hash_inhabited.
  Implicit Types (g : Geometry) (D b P : list byte) (s : list (list byte)).

Notation hashes s := (Forall (fun h => length h = HASH_SIZE) s).

Lemma verify_segment_total g D n c j b P :
  geometry_ok g → 0 ≤ n → 0 ≤ c → 0 ≤ j → verify_segment g D n c j b P ≠ Panic.
Proof.
  intros Hg Hn Hc Hj.
  destruct (verify_segment_cases g D n c j b P Hg Hn Hc Hj) as [(d & Hq & HP)|[e ->]]; [|done].
  rewrite (verify_segment_of g D n c j b P d) by done. case_bool_decide; [|done].
  destruct (split_siblings g P d HP) as (_ & _ & _ & _ & _ & Hl & _).
  destruct (height_nat g Hg) as [_ Hh].
  destruct (in_chunk_loop _ _ _ _ _) as [root|e|] eqn:Hin; res_simpl; [|done|].
  - destruct (climb_loop _ _ _ _); res_simpl; [by case_bool_decide|done].
  - by apply in_chunk_loop_total in Hin; [|unfold hgt in *; lia].
Qed.

(** The two halves of the sibling list of a segment proof. *)
Definition in_chunk_part g P := take (hgt g) (proof_siblings P).
Definition chunk_part g P := drop (hgt g) (proof_siblings P).

Lemma verify_segment_Ok g D n c j b P :
  geometry_ok g → 0 ≤ n → 0 ≤ c → 0 ≤ j →
  verify_segment g D n c j b P = Ok tt ↔
  ∃ d root r, segment_request g n c j (Z.of_nat (length b)) d ∧
    length P = (S (hgt g + d) * HASH_SIZE)%nat ∧
    P = concat (proof_siblings P) ++ witness g n ∧
    in_chunk_loop (data_segments g n c) 0 (in_chunk_part g P) (leaf b) j = Ok root ∧
    climb_loop (chunk_leaf c root) c (div_ceil n (chunk_size g) - 1) (chunk_part g P) = Some r ∧
    node r (witness g n) = D.
Proof.
  intros Hg Hn Hc Hj. split.
  - intros Hv.
    destruct (verify_segment_cases g D n c j b P Hg Hn Hc Hj) as [(d & Hq & HP)|[e He]];
      [|congruence].
    rewrite (verify_segment_of g D n c j b P d) in Hv by done.
    destruct (proof_shape P _ HP) as (_ & _ & Hcat).
    case_bool_decide as Hw; [|done]. apply bind_ok in Hv as (root & Hin & Hv).
    fold (chunk_part g P) in Hv.
    destruct (climb_loop _ _ _ _) as [r|] eqn:Hr; res_simpl in Hv; [|done].
    case_bool_decide; [|done]. exists d, root, r. split_and!; try done.
    by rewrite Hcat, <- Hw, take_drop.
  - intros (d & root & r & Hq & HP & Hw & Hin & Hr & HD).
    rewrite (verify_segment_of g D n c j b P d) by done.
    destruct (proof_shape P _ HP) as (_ & _ & Hcat).
    rewrite bool_decide_true.
    + fold (in_chunk_part g P) (chunk_part g P). rewrite Hin. res_simpl. rewrite Hr. res_simpl.
      by rewrite bool_decide_true.
    + rewrite Hcat in Hw. rewrite <- (take_drop (length P - HASH_SIZE) P) in Hw at 1.
      by apply app_inv_head in Hw.
Qed.

(** Segment [j] of a chunk. *)
Definition segment g (p : list byte) (j : nat) : list byte :=
  let ss := Z.to_nat (segment_size g) in take ss (drop (j * ss) p).

(** The climb from a segment of a chunk along the chunk's own siblings. *)
Lemma in_chunk_loop_upload g n c (j : Z) p :
  geometry_ok g → 0 ≤ j < segments_per_chunk g →
  Z.of_nat (length p) = Z.min (chunk_size g) (n - c * chunk_size g) →
  in_chunk_loop (data_segments g n c) 0 (in_chunk_path g p (Z.to_nat j))
    (leaf (segment g p (Z.to_nat j))) j = Ok (chunk_root_ref g p).
Proof.
  intros Hg Hj Hp. destruct (height_nat g Hg) as [Hh Hh8].
  destruct (geometry_ok_segments g Hg) as (_ & Hs2 & _).
  rewrite <- (Z2Nat.id j) at 3 by lia.
  pose proof (in_chunk_loop_complete (Z.to_nat (segment_size g)) p (data_segments g n c)
    (Z.to_nat (height g)) 0 (Z.to_nat j)) as Hc.
  cbn [seg_tree Nat.pow] in Hc. rewrite Nat.mul_1_r in Hc. apply Hc; [lia| |lia|lia].
  unfold data_segments. rewrite Z2Nat.id by lia. by rewrite Hp.
Qed.

Lemma verify_segment_complete g data c p j :
  upload_ok g data → upload_pieces g data !! c = Some p → 0 ≤ j < segments_per_chunk g →
  verify_segment g (upload_commitment g data) (Z.of_nat (length data)) (Z.of_nat c) j
    (segment g p (Z.to_nat j))
    (concat (in_chunk_path g p (Z.to_nat j)) ++ concat (upload_path g data c) ++
     upload_witness g data) = Ok tt.
Proof.
  intros Hu Hp Hj. pose proof Hu as [Hg Ha].
  pose proof (verify_chunk_complete g data c p Hu Hp) as Hv.
  apply verify_chunk_Ok in Hv as (d & r & [Ha' Hc Hb Hd] & HP & _ & Hr & HD); [|done|lia..].
  assert (hashes (upload_path g data c)) as Hs.
  { apply audit_path_32; [|apply upload_leaves_32].
    rewrite length_upload_leaves. by eapply lookup_lt_Some. }
  rewrite proof_siblings_of in Hr by (done || apply sha256_length).
  destruct (seg_siblings_32 (Z.to_nat (segment_size g)) p (Z.to_nat (height g)) 0 (Z.to_nat j))
    as [Hi Hil]. fold (in_chunk_path g p (Z.to_nat j)) in Hi, Hil.
  set (ic := in_chunk_path g p (Z.to_nat j)) in *. set (up := upload_path g data c) in *.
  apply verify_segment_Ok; [done|lia..|].
  exists d, (chunk_root_ref g p), r. rewrite app_assoc, <- concat_app.
  unfold in_chunk_part, chunk_part.
  rewrite proof_siblings_of by (by apply Forall_app || apply sha256_length).
  fold (hgt g) in Hil. rewrite take_app_length', drop_app_length' by done.
  destruct (geometry_ok_segments g Hg) as (Hs1 & Hs2 & Hs3).
  split_and!; try done.
  - constructor; try done. unfold segment. cbn zeta. rewrite length_take, length_drop. nia.
  - revert HP. rewrite !length_app, !length_concat_hashes by (by apply Forall_app || done).
    rewrite length_app, Hil. unfold HASH_SIZE. lia.
  - by apply in_chunk_loop_upload.
Qed.

(** ** Binding *)

(** The preimages [verify_segment] hashes. *)
Definition segment_queries g n c j b P : list (list byte) :=
  let in_chunk := in_chunk_part g P in
  let root := match in_chunk_loop (data_segments g n c) 0 in_chunk (leaf b) j with
              | Ok root => root | _ => [] end in
  let last := div_ceil n (chunk_size g) - 1 in
  node_preimage (default [] (climb_loop (chunk_leaf c root) c last (chunk_part g P)))
    (witness g n)
  :: size_preimage g n :: leaf_preimage b :: chunk_leaf_preimage c root
  :: in_chunk_queries (leaf b) (Z.to_nat j) in_chunk
  ++ climb_queries (chunk_leaf c root) c last (chunk_part g P).

Lemma verify_segment_binding g D c j n b P n' b' P' :
  geometry_ok g → 0 ≤ n < 2 ^ 64 → 0 ≤ n' < 2 ^ 64 → 0 ≤ c < 2 ^ 32 → 0 ≤ j →
  verify_segment g D n c j b P = Ok tt → verify_segment g D n' c j b' P' = Ok tt →
  (n = n' ∧ b = b' ∧ P = P') ∨
  collides (segment_queries g n c j b P) (segment_queries g n' c j b' P').
Proof.
  intros Hg Hn Hn' Hc Hj (d & root & r & Hq & HP & HPw & Hin & Hr & HD)%verify_segment_Ok
    (d' & root' & r' & Hq' & HP' & HPw' & Hin' & Hr' & HD')%verify_segment_Ok; try (done || lia).
  unfold segment_queries. rewrite Hin, Hin', Hr, Hr'. cbn [default].
  destruct (split_siblings g P d HP) as (_ & _ & _ & Hf1 & Hf2 & Hl1 & _).
  destruct (split_siblings g P' d' HP') as (_ & _ & _ & Hf1' & Hf2' & Hl1' & _).
  fold (in_chunk_part g P) (chunk_part g P) in *.
  fold (in_chunk_part g P') (chunk_part g P') in *.
  destruct (height_nat g Hg) as [Hh Hh8]. destruct Hq as [_ _ Hjs _ _].
  destruct (commitment_binding g g r r' n n') as [(<- & <- & _)|Hcol]; try done.
  { by rewrite (climb_loop_length _ _ _ _ _ (length_chunk_leaf _ _) Hr),
      (climb_loop_length _ _ _ _ _ (length_chunk_leaf _ _) Hr'). }
  { congruence. }
  2: by_collision Hcol.
  destruct (climb_loop_binding _ _ _ _ _ _ _ ltac:(by rewrite !length_chunk_leaf) Hf2 Hf2' Hr Hr')
    as [[Hl Hs2]|Hcol].
  2: by_collision Hcol.
  apply chunk_leaf_same in Hl as [[_ <-]|Hcol]; [| |done..].
  2: by_collision Hcol.
  rewrite <- (Z2Nat.id j) in Hin, Hin' by lia.
  destruct (in_chunk_loop_binding _ _ 0 (hgt g) _ _ _ _ (Z.to_nat j) root Hh8 ltac:(unfold hgt; lia)
    Hl1 Hl1' Hf1 Hf1' (length_leaf _) (length_leaf _) Hin Hin') as [[Hlf Hs1]|Hcol].
  2: by_collision Hcol.
  apply leaf_same in Hlf as [->|Hcol].
  2: by_collision Hcol.
  left. split_and!; try done. rewrite HPw, HPw'. do 2 f_equal.
  rewrite <- (take_drop (hgt g) (proof_siblings P)), <- (take_drop (hgt g) (proof_siblings P')).
  unfold in_chunk_part, chunk_part in *. by rewrite Hs1, Hs2.
Qed.

(** ** Agreement of the two kinds of proof *)

Lemma segment_chunk_agree g D c j n b P n' b' P' :
  geometry_ok g → 0 ≤ n < 2 ^ 64 → 0 ≤ n' < 2 ^ 64 → 0 ≤ c < 2 ^ 32 → 0 ≤ j →
  verify_segment g D n c j b P = Ok tt → verify_chunk g D n' c b' P' = Ok tt →
  (n = n' ∧ b = segment g b' (Z.to_nat j) ∧
   P = concat (in_chunk_path g b' (Z.to_nat j)) ++ P') ∨
  collides (segment_queries g n c j b P) (chunk_queries g n' c b' P').
Proof.
  intros Hg Hn Hn' Hc Hj (d & root & r & Hq & HP & HPw & Hin & Hr & HD)%verify_segment_Ok
    (d' & r' & Hq' & HP' & HPw' & Hr' & HD')%verify_chunk_Ok; try (done || lia).
  unfold segment_queries, chunk_queries. rewrite Hin, Hr, Hr'. cbn [default].
  destruct (split_siblings g P d HP) as (_ & _ & _ & Hf1 & Hf2 & Hl1 & _).
  destruct (proof_shape P' d' HP') as (Hf2' & _ & _).
  fold (in_chunk_part g P) (chunk_part g P) in *.
  destruct (height_nat g Hg) as [Hh Hh8]. destruct Hq as [_ _ Hjs _ _], Hq' as [_ _ Hb' _].
  destruct (commitment_binding g g r r' n n') as [(<- & <- & _)|Hcol]; try done.
  { by rewrite (climb_loop_length _ _ _ _ _ (length_chunk_leaf _ _) Hr),
      (climb_loop_length _ _ _ _ _ (length_chunk_leaf _ _) Hr'). }
  { congruence. }
  2: by_collision Hcol.
  destruct (climb_loop_binding _ _ _ _ _ _ _ ltac:(by rewrite !length_chunk_leaf) Hf2 Hf2' Hr Hr')
    as [[Hl Hs2]|Hcol].
  2: by_collision Hcol.
  apply chunk_leaf_same in Hl as [[_ ->]|Hcol]; [| |done..].
  2: by_collision Hcol.
  pose proof (in_chunk_loop_upload g n c j b' Hg Hjs Hb') as Hin'.
  rewrite <- (Z2Nat.id j) in Hin by lia. rewrite <- (Z2Nat.id j) in Hin' at 3 by lia.
  destruct (seg_siblings_32 (Z.to_nat (segment_size g)) b' (Z.to_nat (height g)) 0 (Z.to_nat j))
    as [Hi Hil].
  destruct (in_chunk_loop_binding _ _ 0 (hgt g) _ _ _ _ (Z.to_nat j) _ Hh8 ltac:(unfold hgt; lia)
    Hl1 Hil Hf1 Hi (length_leaf _) (length_leaf _) Hin Hin') as [[Hlf Hs1]|Hcol].
  2:{ right. eapply collides_mono; [exact Hcol|set_solver|].
      pose proof (in_chunk_queries_honest (Z.to_nat (segment_size g)) b' (hgt g) 0 (Z.to_nat j)
        ltac:(unfold hgt; lia)) as Hsub.
      cbn [seg_tree Nat.pow] in Hsub. rewrite Nat.mul_1_r in Hsub.
      unfold chunk_root_queries. set_solver. }
  apply leaf_same in Hlf as [->|Hcol].
  2:{ right. eapply collides_mono; [exact Hcol|set_solver|].
      pose proof (seg_tree_queries_root (Z.to_nat (segment_size g)) b' (hgt g) 0 (Z.to_nat j)
        ltac:(unfold hgt; lia)) as Hsub.
      cbn [seg_tree_queries Nat.pow] in Hsub. rewrite Nat.mul_1_r in Hsub.
      unfold chunk_root_queries, segment. set_solver. }
  left. split_and!; try done. rewrite HPw, HPw', app_assoc. f_equal.
  rewrite <- (take_drop (hgt g) (proof_siblings P)), concat_app.
  unfold in_chunk_part, chunk_part in *. by rewrite Hs1, Hs2.
Qed.
End SegmentFacts.
