(* ===== verification/DataTreeTheorems.v ===== *)
(** What the v2 data tree guarantees: correctness of the builder on every input,
    completeness of the proofs a tree serves, and binding of the proofs a verifier
    accepts.  Witnesses run the code on a small upload with a stand-in hash. *)

From S2P Require Import Prelude RefTree Geometry TreeHash ChunkTree Shape Builder.
From S2P Require Import TreeBuild Verify VerifySegment.

Section DataTreeTheorems.
  Context `{Sha256}.
  #[local] Existing Instance hash_inhabited.
  Implicit Types (g : Geometry) (D P : list byte).

(** Bytes of chunk [c], and of segment [j] inside a chunk. *)
Definition chunk_bytes g (data : list byte) (c : Z) : list byte :=
  slice (c * chunk_size g) ((c + 1) * chunk_size g) data.

Lemma chunk_bytes_piece g data c :
  upload_ok g data → 0 ≤ c < div_ceil (Z.of_nat (length data)) (chunk_size g) →
  upload_pieces g data !! Z.to_nat c = Some (chunk_bytes g data c).
Proof.
  intros [Hg _] Hc. pose proof (length_upload_pieces g data Hg) as Hl.
  destruct (lookup_lt_is_Some_2 (upload_pieces g data) (Z.to_nat c)) as [p Hp]; [lia|].
  rewrite Hp. f_equal. destruct Hg. apply pieces_lookup in Hp as ->; [|lia].
  unfold chunk_bytes, slice. f_equal; [lia|]. f_equal. lia.
Qed.

(** ** Streaming *)

(** The builders a caller can hold, with the (root, length) pairs of the pushes that made
    them: a chunk pushed as bytes has the root of its segment tree and its length, a batch is
    cut into chunks. *)
Inductive builder_pushed (g : Geometry) : list (list byte * Z) → DataTreeBuilder → Prop :=
| pushed_new : builder_pushed g [] (Builder_new g)
| pushed_with_capacity n b :
    Builder_with_capacity g n = Ok b → builder_pushed g [] b
| pushed_chunk pushes b bytes b' :
    builder_pushed g pushes b → push_chunk b bytes = Ok b' →
    builder_pushed g (pushes ++ [(chunk_root_ref g bytes, Z.of_nat (length bytes))]) b'
| pushed_chunk_root pushes b root len b' :
    builder_pushed g pushes b → 0 ≤ len → push_chunk_root b root len = Ok b' →
    builder_pushed g (pushes ++ [(root, len)]) b'
| pushed_parallel pushes b bytes b' :
    builder_pushed g pushes b → push_chunks_parallel b bytes = Ok b' →
    builder_pushed g
      (pushes ++ ((λ c, (chunk_root_ref g c, Z.of_nat (length c))) <$> pieces (Z.to_nat (chunk_size g)) bytes)) b'.

(** What a list of pushes determines of a builder. *)
Record stands_for (g : Geometry) (pushes : list (list byte * Z)) (b : DataTreeBuilder) : Prop := {
  sf_geometry : b_geometry b = g;
  sf_layers : b_layers b = open_layers node (chunk_leaves pushes.*1);
  sf_size : b_data_size b = sum_Z pushes.*2;
  sf_short : b_last_chunk_short b = last_short g pushes
}.

Lemma push_chunks_parallel_nil g caps pushes :
  geometry_ok g → pushes_ok g pushes →
  push_chunks_parallel (builder_of g caps pushes) [] = push_chunk (builder_of g caps pushes) [].
Proof.
  intros Hg Hp. unfold push_chunks_parallel, validate_chunk_batch, push_chunk.
  rewrite !prepare_push_of by done. cbn [length Z.of_nat].
  unfold push_error. by destruct (last_short g pushes).
Qed.

Lemma builder_pushed_of g pushes b :
  geometry_ok g → builder_pushed g pushes b →
  (∃ caps, b = builder_of g caps pushes) ∧ pushes_ok g pushes.
Proof.
  intros Hg. induction 1 as [|n b Hb|pushes b bytes b' _ [[caps ->] Hp] Hb
    |pushes b root len b' _ [[caps ->] Hp] Hlen Hb|pushes b bytes b' _ [[caps ->] Hp] Hb].
  - split; [by exists []|by apply pushes_ok_nil].
  - unfold Builder_with_capacity in Hb. apply bind_ok in Hb as (count & _ & [= <-]).
    split; [by exists (layer_capacities count)|by apply pushes_ok_nil].
  - rewrite push_chunk_of in Hb by done. destruct (push_error g pushes _) eqn:He; [done|].
    injection Hb as <-. split; [by eexists|]. apply pushes_ok_snoc; [done..|lia].
  - rewrite push_chunk_root_of in Hb by done. destruct (push_error g pushes _) eqn:He; [done|].
    injection Hb as <-. split; [by eexists|]. by apply pushes_ok_snoc.
  - destruct (decide (bytes = [])) as [->|Hne].
    { rewrite push_chunks_parallel_nil, push_chunk_of in Hb by done.
      unfold push_error in Hb. cbn in Hb. by destruct (last_short g pushes). }
    rewrite push_chunks_parallel_of in Hb by done.
    destruct (push_all g pushes _) as [pushes'| |] eqn:Ha; [|done..]. injection Hb as <-.
    apply push_all_ok in Ha as [-> Ha]; [|done]. split; [by eexists|done].
Qed.

Lemma builder_of_stands_for g caps pushes : stands_for g pushes (builder_of g caps pushes).
Proof. done. Qed.

(** What an upload commits to: queries of the honest tree for chunk [c]. *)
Definition upload_queries g (data : list byte) (c : nat) : list (list byte) :=
  let n := Z.of_nat (length data) in
  node_preimage (upload_root g data) (witness g n) :: size_preimage g n
  :: match upload_pieces g data !! c with
     | Some p => chunk_queries g n (Z.of_nat c) p
                   (concat (upload_path g data c) ++ upload_witness g data)
     | None => []
     end.

(** C1: An accepted chunk proof carries the committed data. If [verify_chunk] accepts
    bytes for chunk [c] against the commitment of an upload, the claimed size is the
    size of the upload, the chunk exists, the bytes are its bytes and the proof is the
    one the tree serves -- or the verifier and the tree have hashed two different
    messages to the same digest. *)
Theorem accepted_chunk_is_upload_data g data n c bytes P :
  upload_ok g data → 0 ≤ n < 2 ^ 64 → 0 ≤ c < 2 ^ 32 →
  verify_chunk g (upload_commitment g data) n c bytes P = Ok tt →
  (n = Z.of_nat (length data) ∧ c < div_ceil n (chunk_size g) ∧
   bytes = chunk_bytes g data c ∧ chunk_proof (upload_tree g data) c = Ok P)
  ∨ collides (chunk_queries g n c bytes P) (upload_queries g data (Z.to_nat c)).
Proof.
  intros Hu Hn Hc Hv. pose proof Hu as [Hg Ha].
  assert (0 ≤ Z.of_nat (length data) < 2 ^ 64) as Hd by (destruct Hg; unfold admits in Ha; lia).
  destruct (Z.lt_ge_cases c (div_ceil (Z.of_nat (length data)) (chunk_size g))) as [Hlt|Hge].
  - pose proof (chunk_bytes_piece g data c Hu ltac:(lia)) as Hp.
    pose proof (verify_chunk_complete g data (Z.to_nat c) _ Hu Hp) as Hh.
    pose proof (lookup_lt_Some _ _ _ Hp) as Hcl.
    unfold upload_queries. rewrite Hp. rewrite Z2Nat.id in * by lia.
    destruct (verify_chunk_binding g g _ c _ _ _ _ _ _ Hg Hg Hn Hd Hc Hv Hh)
      as [(-> & -> & -> & _)|Hcol].
    + left. split_and!; try done. rewrite <- (Z2Nat.id c) at 1 by lia. by apply chunk_proof_of.
    + by_collision Hcol.
  - apply verify_chunk_Ok in Hv as (d & r & [_ Hci _ _] & _ & _ & Hr & HD); [|done|lia..].
    unfold upload_commitment in HD. fold (witness g (Z.of_nat (length data))) in HD.
    assert (length (upload_root g data) = HASH_SIZE) as Hrl.
    { destruct (upload_ok_pieces g data Hu) as [Hne HC].
      assert (upload_leaves g data !! 0%nat ≠ None) as Hl.
      { rewrite lookup_ge_None, length_upload_leaves. lia. }
      destruct (upload_leaves g data !! 0%nat) as [l0|] eqn:Hl0; [|done].
      eapply (climb_loop_length l0); [|apply climb_loop_audit_path; [exact Hl0|]].
      - by apply (Forall_lookup_1 _ _ _ _ (upload_leaves_32 g data) Hl0).
      - rewrite length_upload_leaves. lia. }
    destruct (commitment_binding g g r (upload_root g data) n (Z.of_nat (length data)))
      as [(_ & -> & _)|Hcol]; try done; [|lia|].
    { by rewrite Hrl, (climb_loop_length _ _ _ _ _ (length_chunk_leaf _ _) Hr). }
    unfold chunk_queries. rewrite Hr. cbn [default]. by_collision Hcol.
Qed.

(** C13: Binding of chunk proofs. Two chunk proofs for the same index accepted against
    the same commitment agree on the upload size, the bytes, the proof and the chunk
    and segment sizes of the geometry, or exhibit a hash collision between the
    messages the two runs hashed. *)
Theorem chunk_proofs_bind g g' D c n b P n' b' P' :
  geometry_ok g → geometry_ok g' → 0 ≤ n < 2 ^ 64 → 0 ≤ n' < 2 ^ 64 → 0 ≤ c < 2 ^ 32 →
  verify_chunk g D n c b P = Ok tt → verify_chunk g' D n' c b' P' = Ok tt →
  (n = n' ∧ b = b' ∧ P = P' ∧ chunk_size g = chunk_size g' ∧
   segments_per_chunk g = segments_per_chunk g')
  ∨ collides (chunk_queries g n c b P) (chunk_queries g' n' c b' P').
Proof. apply verify_chunk_binding. Qed.

(** C32: Binding of segment proofs. Two accepted proofs of the same segment against the
    same commitment agree on the size, the segment bytes and the whole proof, or
    exhibit a hash collision. *)
Theorem segment_proofs_bind g D c j n b P n' b' P' :
  geometry_ok g → 0 ≤ n < 2 ^ 64 → 0 ≤ n' < 2 ^ 64 → 0 ≤ c < 2 ^ 32 → 0 ≤ j →
  verify_segment g D n c j b P = Ok tt → verify_segment g D n' c j b' P' = Ok tt →
  (n = n' ∧ b = b' ∧ P = P') ∨
  collides (segment_queries g n c j b P) (segment_queries g n' c j b' P').
Proof. apply verify_segment_binding. Qed.

(** A segment proof and a chunk proof accepted against one commitment agree: the
    segment is the [j]-th segment of the chunk and its proof is the chunk's in-chunk
    siblings followed by the chunk proof, or there is a hash collision. *)
Theorem segment_and_chunk_proofs_agree g D c j n b P n' b' P' :
  geometry_ok g → 0 ≤ n < 2 ^ 64 → 0 ≤ n' < 2 ^ 64 → 0 ≤ c < 2 ^ 32 → 0 ≤ j →
  verify_segment g D n c j b P = Ok tt → verify_chunk g D n' c b' P' = Ok tt →
  (n = n' ∧ b = segment g b' (Z.to_nat j) ∧
   P = concat (in_chunk_path g b' (Z.to_nat j)) ++ P') ∨
  collides (segment_queries g n c j b P) (chunk_queries g n' c b' P').
Proof. apply segment_chunk_agree. Qed.

(** C14: Completeness of chunk proofs. For every upload within the geometry,
    [from_bytes] returns a tree whose commitment is defined, and for every chunk the
    tree serves a proof of [32 * (depth + 1)] bytes that [verify_chunk] accepts with
    the chunk's bytes and the upload's size. *)
Theorem chunk_proofs_verify g data :
  upload_ok g data →
  ∃ t D, from_bytes g data = Ok t ∧ tree_data_commitment (E:=VerifyError) t = Ok D ∧
  ∀ c, 0 ≤ c < div_ceil (Z.of_nat (length data)) (chunk_size g) →
    ∃ P d, chunk_proof t c = Ok P ∧
      depth c (div_ceil (Z.of_nat (length data)) (chunk_size g)) = Some (Z.of_nat d) ∧
      length P = (32 * (d + 1))%nat ∧
      verify_chunk g D (Z.of_nat (length data)) c (chunk_bytes g data c) P = Ok tt.
Proof.
  intros Hu. pose proof Hu as [Hg Ha]. destruct (upload_ok_pieces g data Hu) as [Hne _].
  exists (upload_tree g data), (upload_commitment g data). split_and!.
  - rewrite from_bytes_of by done. unfold admits in Ha.
    destruct (Nat.eqb_spec (length data) 0); [lia|].
    by destruct (Z.leb_spec (Z.of_nat (length data)) (chunk_size g * max_data_tx_chunks g)); [|lia].
  - by apply tree_data_commitment_of.
  - intros c Hc. pose proof (chunk_bytes_piece g data c Hu Hc) as Hp.
    pose proof (chunk_proof_of g data (Z.to_nat c) Hu (lookup_lt_Some _ _ _ Hp)) as HP.
    pose proof (verify_chunk_complete g data (Z.to_nat c) _ Hu Hp) as Hv.
    rewrite Z2Nat.id in HP, Hv by lia. pose proof Hv as Hv'.
    apply verify_chunk_Ok in Hv' as (d & r & [_ _ _ Hd] & Hl & _); [|done|lia..].
    eexists _, d. split_and!; [exact HP|done| |done]. rewrite Hl. unfold HASH_SIZE. lia.
Qed.

(** Completeness of segment proofs. Every segment of every chunk of an accepted
    upload, empty segments past the end included, gets from [segment_proof] a proof
    that [verify_segment] accepts. *)
Theorem segment_proofs_verify g data c j :
  upload_ok g data → 0 ≤ c < div_ceil (Z.of_nat (length data)) (chunk_size g) →
  0 ≤ j < segments_per_chunk g →
  ∃ t D P, from_bytes g data = Ok t ∧ tree_data_commitment (E:=VerifyError) t = Ok D ∧
    segment_proof t c j (chunk_bytes g data c) = Ok P ∧
    verify_segment g D (Z.of_nat (length data)) c j
      (segment g (chunk_bytes g data c) (Z.to_nat j)) P = Ok tt.
Proof.
  intros Hu Hc Hj. pose proof Hu as [Hg Ha]. destruct (upload_ok_pieces g data Hu) as [Hne _].
  pose proof (chunk_bytes_piece g data c Hu Hc) as Hp.
  pose proof (segment_proof_of g data (Z.to_nat c) j _ _ Hu Hp Hj eq_refl) as HP.
  rewrite bool_decide_false in HP by (by intros []).
  pose proof (verify_segment_complete g data (Z.to_nat c) _ j Hu Hp Hj) as Hv.
  rewrite Z2Nat.id in HP, Hv by lia.
  eexists (upload_tree g data), (upload_commitment g data), _. split_and!; [| |exact HP|exact Hv].
  - rewrite from_bytes_of by done. unfold admits in Ha.
    destruct (Nat.eqb_spec (length data) 0); [lia|].
    by destruct (Z.leb_spec (Z.of_nat (length data)) (chunk_size g * max_data_tx_chunks g)); [|lia].
  - by apply tree_data_commitment_of.
Qed.

(** C33: [from_bytes] on every input: an empty upload is rejected as [Empty], one past
    the geometry's maximum as [TooManyChunks], and any other yields a tree that stores
    the geometry and the size and whose root is the RFC 6962 tree hash of the
    index-bound chunk leaves of the upload's consecutive chunks. *)
Theorem from_bytes_builds_rfc6962_tree g data :
  geometry_ok g →
  let n := Z.of_nat (length data) in
  (from_bytes g data = Err BE_Empty ↔ data = []) ∧
  (from_bytes g data = Err (BE_TooManyChunks (max_data_tx_chunks g)) ↔
     chunk_size g * max_data_tx_chunks g < n) ∧
  (admits g n → ∃ t, from_bytes g data = Ok t ∧ t_geometry t = g ∧ t_data_size t = n ∧
     root_hash (E:=BuildError) t = Ok (tree_root node
       (chunk_leaves (chunk_root_ref g <$> upload_pieces g data))) ∧
     concat (upload_pieces g data) = data ∧
     Z.of_nat (length (upload_pieces g data)) = div_ceil n (chunk_size g)).
Proof.
  intros Hg n. rewrite from_bytes_of by done. fold n. pose proof Hg as [].
  assert (0 < chunk_size g * max_data_tx_chunks g) by lia. split_and!.
  - destruct (Nat.eqb_spec (length data) 0) as [Hz|Hz].
    + apply nil_length_inv in Hz as ->. done.
    + split; [by destruct (_ <=? _)|by intros ->].
  - destruct (Nat.eqb_spec (length data) 0) as [Hz|Hz]; [split; [done|lia]|].
    destruct (Z.leb_spec n (chunk_size g * max_data_tx_chunks g)); split; done || lia.
  - intros Ha. unfold admits in Ha. destruct (Nat.eqb_spec (length data) 0) as [Hz|Hz]; [lia|].
    destruct (Z.leb_spec n (chunk_size g * max_data_tx_chunks g)); [|lia].
    eexists. split; [done|]. split_and!; try done.
    + rewrite root_hash_of; [done..|]. by intros ->.
    + apply concat_pieces. lia.
    + by apply length_upload_pieces.
Qed.

(** The parallel batch is the sequential loop. On every builder a caller can reach,
    [push_chunks_parallel] returns what pushing the pieces one after the other returns,
    errors included, and neither panics; with the [parallel] feature [from_bytes] gives
    the same tree. *)
Theorem parallel_push_is_sequential g pushes b bytes :
  geometry_ok g → builder_pushed g pushes b →
  push_chunks_parallel b bytes =
    (if decide (bytes = []) then push_chunk b []
     else from_bytes_loop (length bytes) b bytes 0) ∧
  push_chunks_parallel b bytes ≠ Panic ∧
  from_bytes_parallel g bytes = from_bytes g bytes.
Proof.
  intros Hg [[caps ->] Hp]%builder_pushed_of; [|done].
  split_and!; [| |by apply from_bytes_parallel_of].
  - case_decide as Hne; [subst; by apply push_chunks_parallel_nil|].
    rewrite push_chunks_parallel_of by done. symmetry.
    rewrite <- (drop_0 bytes) at 3. apply from_bytes_loop_of; [done..|lia].
  - destruct (decide (bytes = [])) as [->|Hne].
    + rewrite push_chunks_parallel_nil, push_chunk_of by done. unfold push_error. cbn.
      by destruct (last_short g pushes).
    + rewrite push_chunks_parallel_of by done.
      destruct (push_all g pushes _) eqn:Ho; [done..|]. by apply push_all_no_panic in Ho.
Qed.

(** C34: Streaming refines the list of pushes. A builder made by any pushes, of bytes, of
    roots or of batches, holds exactly what the list of their (root, length) pairs determines:
    the open layers of the RFC 6962 tree over the roots, the total of the lengths, which is
    within the bound of the geometry, and whether the last chunk was short. A further push
    appends its own pair to the list or fails with the error that the list and the length
    determine, and [finish] returns the tree over all roots with the total size, or [Empty]
    when nothing was pushed. None of them panics. *)
Theorem streaming_refines_push_list g pushes b :
  geometry_ok g → builder_pushed g pushes b →
  stands_for g pushes b ∧ 0 ≤ b_data_size b ≤ chunk_size g * max_data_tx_chunks g ∧
  (∀ bytes, match push_chunk b bytes with
     | Ok b' => push_error g pushes (Z.of_nat (length bytes)) = None ∧
         stands_for g (pushes ++ [(chunk_root_ref g bytes, Z.of_nat (length bytes))]) b'
     | Err e => push_error g pushes (Z.of_nat (length bytes)) = Some e
     | Panic => False
     end) ∧
  (∀ root len, 0 ≤ len → match push_chunk_root b root len with
     | Ok b' => push_error g pushes len = None ∧ stands_for g (pushes ++ [(root, len)]) b'
     | Err e => push_error g pushes len = Some e
     | Panic => False
     end) ∧
  match finish b with
  | Ok t => pushes ≠ [] ∧ t_data_size t = sum_Z pushes.*2 ∧
      root_hash (E:=BuildError) t = Ok (tree_root node (chunk_leaves pushes.*1))
  | Err e => pushes = [] ∧ e = BE_Empty
  | Panic => False
  end.
Proof.
  intros Hg [[caps ->] Hp]%builder_pushed_of; [|done].
  pose proof (pushes_sum_bound g pushes (po_lens g pushes Hp)) as Hsum. split_and!; cbn [builder_of b_data_size]; [done|lia| | | |].
  - destruct Hp as [_ Hp], Hg. nia.
  - intros bytes. rewrite push_chunk_of by done. by destruct (push_error g pushes _).
  - intros root len Hlen. rewrite push_chunk_root_of by done. by destruct (push_error g pushes len).
  - destruct (decide (pushes = [])) as [->|Hne].
    + unfold finish. by rewrite pushed_chunk_count_of.
    + rewrite finish_of by done. split_and!; try done.
      unfold root_hash. cbn [t_layers]. rewrite full_layers_root; [done|].
      intros Hl%(f_equal length). rewrite length_chunk_leaves, length_fmap in Hl.
      by destruct pushes.
Qed.

(** The verifiers never panic. On any bytes and any proof -- of any length and
    content -- with any indices and size, the three checks return [Ok] or an error. *)
Theorem verifiers_never_panic g D n c j b P root :
  geometry_ok g → 0 ≤ n → 0 ≤ c → 0 ≤ j →
  verify_chunk g D n c b P ≠ Panic ∧ verify_segment g D n c j b P ≠ Panic ∧
  verify_size g D root n ≠ Panic.
Proof.
  intros Hg Hn Hc Hj. split_and!.
  - by apply verify_chunk_total.
  - by apply verify_segment_total.
  - unfold verify_size, data_commitment. rewrite size_witness_eq by done. res_simpl.
    by case_bool_decide.
Qed.

(** The shape of a proof. For a chunk index below the chunk count, [depth] returns
    the length of the RFC 6962 audit path; [climb] accepts exactly the proofs of that
    many hashes; and climbing the audit path of a leaf gives the root of the tree. *)
Theorem climb_accepts_exactly_depth_hashes (L : list (list byte)) c leaf P :
  L !! c = Some leaf → Z.of_nat (length L) < 2 ^ 32 → Forall (fun h => length h = HASH_SIZE) L →
  let C := Z.of_nat (length L) in
  ∃ d, depth (Z.of_nat c) C = Some (Z.of_nat d) ∧ d = length (audit_path node c L) ∧
    (is_Some (climb leaf (Z.of_nat c) C P) ↔ length P = (d * HASH_SIZE)%nat) ∧
    climb leaf (Z.of_nat c) C (concat (audit_path node c L)) = Some (tree_root node L).
Proof.
  intros Hl HL H32 C. pose proof (lookup_lt_Some _ _ _ Hl) as Hc.
  exists (length (audit_path node c L)). split_and!; [by apply depth_spec|done| |].
  - pose proof (depth_spec node c L Hc HL) as Hd. unfold climb.
    destruct (Z.eqb_spec C 0); [lia|]. destruct (Z.leb_spec C (Z.of_nat c)); [lia|].
    destruct (Nat.eqb_spec (length P mod HASH_SIZE) 0) as [Hm|Hm]; cbn [orb negb].
    2:{ split; [by intros []|]. intros HP. rewrite HP, Nat.Div0.mod_mul in Hm. done. }
    apply Nat.Div0.div_exact in Hm. set (k := (length P / HASH_SIZE)%nat) in *.
    destruct (chunks_exact_spec HASH_SIZE k P) as (Hk & _ & _); [unfold HASH_SIZE; lia|lia|].
    unfold C. rewrite climb_loop_Some_iff, Hd, Hk by done. rewrite Hm.
    unfold HASH_SIZE. split; [intros [= Hx]|intros ?; do 2 f_equal]; lia.
  - unfold C. rewrite climb_hashes by (done || by apply audit_path_32).
    by apply climb_loop_audit_path.
Qed.
End DataTreeTheorems.

(** ** Witnesses *)

Module Witness.

(** A stand-in hash with 32-byte digests: a polynomial checksum. *)
Definition toy_digest (m : list byte) : list byte :=
  be_bytes 32 (foldl (fun acc x => (acc * 257 + Z_of_byte x + 1) mod 65521) 7 m).

#[local] Instance toy_sha256 : Sha256 :=
  {| sha256 := toy_digest; sha256_length m := length_be_bytes 32 _ |}.

(** Three chunks of four bytes, the last one short, two segments per chunk. *)
Definition geo : Geometry := mkGeometry 4 2 5.
Definition upload : list byte := [x10; x11; x12; x13; x20; x21; x22; x23; x30; x31].

Lemma geo_ok : geometry_ok geo.
Proof. constructor; cbn; [exists 1; lia|lia..]. Defined.
Lemma upload_good : upload_ok geo upload.
Proof. split; [exact geo_ok|]. unfold admits. cbn. lia. Defined.

Definition chunk_proof_1 : list byte :=
  match chunk_proof (upload_tree geo upload) 1 with Ok P => P | _ => [] end.
Definition segment_proof_1_0 : list byte :=
  match segment_proof (upload_tree geo upload) 1 0 [x20; x21; x22; x23] with
  | Ok P => P | _ => [] end.

Lemma accepted_chunk_witness :
  (10 = Z.of_nat (length upload) ∧ 1 < div_ceil 10 (chunk_size geo) ∧
   [x20; x21; x22; x23] = chunk_bytes geo upload 1 ∧
   chunk_proof (upload_tree geo upload) 1 = Ok chunk_proof_1)
  ∨ collides (chunk_queries geo 10 1 [x20; x21; x22; x23] chunk_proof_1)
             (upload_queries geo upload 1).
Proof.
  apply (accepted_chunk_is_upload_data geo upload 10 1 [x20; x21; x22; x23] chunk_proof_1);
    [exact upload_good|lia|lia|vm_compute; reflexivity].
Defined.

Lemma chunk_proofs_bind_witness :
  let D := upload_commitment geo upload in
  let b := [x20; x21; x22; x23] in
  (10 = 10 ∧ b = b ∧ chunk_proof_1 = chunk_proof_1 ∧ chunk_size geo = chunk_size geo ∧
   segments_per_chunk geo = segments_per_chunk geo)
  ∨ collides (chunk_queries geo 10 1 b chunk_proof_1) (chunk_queries geo 10 1 b chunk_proof_1).
Proof.
  intros D b. apply (chunk_proofs_bind geo geo D 1 10 b chunk_proof_1 10 b chunk_proof_1);
    [exact geo_ok|exact geo_ok|lia|lia|lia|vm_compute; reflexivity|vm_compute; reflexivity].
Defined.

Lemma segment_proofs_bind_witness :
  let D := upload_commitment geo upload in
  let b := [x20; x21] in
  (10 = 10 ∧ b = b ∧ segment_proof_1_0 = segment_proof_1_0) ∨
  collides (segment_queries geo 10 1 0 b segment_proof_1_0)
           (segment_queries geo 10 1 0 b segment_proof_1_0).
Proof.
  intros D b.
  apply (segment_proofs_bind geo D 1 0 10 b segment_proof_1_0 10 b segment_proof_1_0);
    [exact geo_ok|lia|lia|lia|lia|vm_compute; reflexivity|vm_compute; reflexivity].
Defined.

Lemma segment_and_chunk_agree_witness :
  let D := upload_commitment geo upload in
  let b := [x20; x21; x22; x23] in
  (10 = 10 ∧ [x20; x21] = segment geo b 0 ∧
   segment_proof_1_0 = concat (in_chunk_path geo b 0) ++ chunk_proof_1) ∨
  collides (segment_queries geo 10 1 0 [x20; x21] segment_proof_1_0)
           (chunk_queries geo 10 1 b chunk_proof_1).
Proof.
  intros D b.
  apply (segment_and_chunk_proofs_agree geo D 1 0 10 [x20; x21] segment_proof_1_0
           10 b chunk_proof_1);
    [exact geo_ok|lia|lia|lia|lia|vm_compute; reflexivity|vm_compute; reflexivity].
Defined.

Lemma chunk_proofs_verify_witness :
  ∃ t D, from_bytes geo upload = Ok t ∧ tree_data_commitment (E:=VerifyError) t = Ok D ∧
  ∀ c, 0 ≤ c < div_ceil (Z.of_nat (length upload)) (chunk_size geo) →
    ∃ P d, chunk_proof t c = Ok P ∧
      depth c (div_ceil (Z.of_nat (length upload)) (chunk_size geo)) = Some (Z.of_nat d) ∧
      length P = (32 * (d + 1))%nat ∧
      verify_chunk geo D (Z.of_nat (length upload)) c (chunk_bytes geo upload c) P = Ok tt.
Proof. exact (chunk_proofs_verify geo upload upload_good). Defined.

Lemma segment_proofs_verify_witness :
  ∃ t D P, from_bytes geo upload = Ok t ∧ tree_data_commitment (E:=VerifyError) t = Ok D ∧
    segment_proof t 2 1 (chunk_bytes geo upload 2) = Ok P ∧
    verify_segment geo D (Z.of_nat (length upload)) 2 1
      (segment geo (chunk_bytes geo upload 2) 1) P = Ok tt.
Proof.
  apply (segment_proofs_verify geo upload 2 1 upload_good); vm_compute; split; done.
Defined.

Lemma from_bytes_witness :
  ∃ t, from_bytes geo upload = Ok t ∧ t_data_size t = 10.
Proof.
  destruct (from_bytes_builds_rfc6962_tree geo upload geo_ok) as (_ & _ & Hok).
  destruct (Hok (proj2 upload_good)) as (t & Ht & _ & Hs & _). by exists t.
Defined.

Lemma parallel_push_witness :
  push_chunks_parallel (Builder_new geo) upload =
  from_bytes_loop 10 (Builder_new geo) upload 0.
Proof.
  exact (proj1 (parallel_push_is_sequential geo [] (Builder_new geo) upload geo_ok
                  (pushed_new geo))).
Defined.

(** A full chunk, then a short one: the builder takes no third. *)
Definition after (b : result BuildError DataTreeBuilder) : DataTreeBuilder :=
  match b with Ok b => b | _ => Builder_new geo end.
Definition one_chunk : DataTreeBuilder := after (push_chunk (Builder_new geo) [x10; x11; x12; x13]).
Definition two_chunks : DataTreeBuilder := after (push_chunk one_chunk [x20; x21]).

Lemma two_chunks_pushed :
  builder_pushed geo [(chunk_root_ref geo [x10; x11; x12; x13], 4); (chunk_root_ref geo [x20; x21], 2)] two_chunks.
Proof.
  apply (pushed_chunk geo [(chunk_root_ref geo [x10; x11; x12; x13], 4)] one_chunk [x20; x21]); [|by vm_compute].
  apply (pushed_chunk geo [] (Builder_new geo) [x10; x11; x12; x13]); [apply pushed_new|by vm_compute].
Defined.

Lemma streaming_witness :
  b_data_size two_chunks = 6 ∧ push_chunk two_chunks [x30] = Err BE_AfterShortChunk ∧
  ∃ t, finish two_chunks = Ok t ∧ t_data_size t = 6.
Proof.
  destruct (streaming_refines_push_list geo _ two_chunks geo_ok two_chunks_pushed) as ([_ _ Hs _] & _ & Hpush & _ & Hfin).
  split; [exact Hs|]. split.
  - specialize (Hpush [x30]). destruct (push_chunk two_chunks [x30]) as [b'|e|]; [by destruct Hpush|by injection Hpush as <-|done].
  - destruct (finish two_chunks) as [t|e|]; [|by destruct Hfin|done]. exists t. split; [done|]. apply Hfin.
Defined.

Lemma verifiers_never_panic_witness :
  verify_chunk geo [] 10 1 [] [] ≠ Panic ∧ verify_segment geo [] 10 1 0 [] [] ≠ Panic ∧
  verify_size geo [] [] 10 ≠ Panic.
Proof. apply (verifiers_never_panic geo [] 10 1 0 [] [] [] geo_ok); lia. Defined.

Lemma climb_accepts_witness :
  let L := [leaf [x01]; leaf [x02]; leaf [x03]] in
  ∃ d, depth (Z.of_nat 2) (Z.of_nat (length L)) = Some (Z.of_nat d) ∧
    d = length (audit_path node 2 L).
Proof.
  intros L.
  destruct (climb_accepts_exactly_depth_hashes L 2 (leaf [x03]) []) as (d & Hd & Hl & _).
  - reflexivity.
  - cbn. lia.
  - repeat constructor.
  - by exists d.
Defined.
End Witness.
