(* ===== verification/BlockTree.v ===== *)
(** The block tree cache ([crates/domain/src/models/block_tree.rs]).

    Hashes ([H256]), cumulative difficulties ([U256]), heights and sequence numbers
    ([u64]) are [N]; the order of [H256] is the order of its big-endian value.  A
    method on [&mut self] returns the tree it leaves behind beside its result, so that
    a mutation before an early error return is visible.  The order in which a
    [HashSet] is iterated is the operation of the class [HashOrder]. *)

From S2P Require Import Prelude.
From stdpp Require Import gmap.

#[local] Open Scope N_scope.

(** Iteration order of a [HashSet]: some permutation of its elements. *)
Class HashOrder : Type := {
  iter_set : gset N → list N;
  iter_set_perm : ∀ X, iter_set X ≡ₚ elements X
}.

(** The header fields the tree reads. *)
Record Header : Type := mkHeader {
  block_hash : N;
  previous_block_hash : N;
  height : N;
  solution_hash : N;
  cumulative_diff : N;
  previous_cumulative_diff : N;
  global_step_number : N
}.

Inductive BlockState : Type := Unknown | ValidationScheduled | ValidBlock.

Inductive ChainState : Type :=
| Onchain
| Validated (s : BlockState)
| NotOnchain (s : BlockState).

#[export] Instance BlockState_eq_dec : EqDecision BlockState.
Proof. solve_decision. Defined.
#[export] Instance ChainState_eq_dec : EqDecision ChainState.
Proof. solve_decision. Defined.

Definition is_onchain (s : ChainState) : bool :=
  match s with Onchain => true | _ => false end.

Inductive TreeError : Type :=
| PreviousBlockNotFound
| BlockNotFound
| CannotRemoveOnchain (hash : N)
| BlockNotFoundInCache
| InvalidTip
| UnableToMarkValid (state : ChainState)
| UnableToMarkMissing
| NewTipNotInCache (hash : N)
| OldTipNotInCache (hash : N)
| NoCommonAncestorExhausted
| NoCommonAncestorGenesis.

Section BlockTree.
  Context `{HashOrder}.
  (** The block body and the three snapshots are carried, never inspected. *)
  Context {Body CommitmentSnapshot EpochSnapshot EmaSnapshot : Type}.

Record SealedBlock : Type := mkSealed { header : Header; body : Body }.

Record BlockMetadata : Type := mkMeta {
  entry_block : SealedBlock;
  chain_state : ChainState;
  timestamp : Z;
  children : gset N;
  epoch_snapshot : EpochSnapshot;
  commitment_snapshot : CommitmentSnapshot;
  ema_snapshot : EmaSnapshot;
  insertion_sequence : N
}.

(** [consensus_config] contributes the two depths the tree reads. *)
Record BlockTree : Type := mkBlockTree {
  blocks : gmap N BlockMetadata;
  solutions : gmap N (gset N);
  tip : N;
  max_cumulative_difficulty : N * N;
  next_insertion_sequence : N;
  height_index : gmap N (gset N);
  longest_chain_cache : list SealedBlock * nat;
  block_tree_depth : N;
  block_migration_depth : N
}.

Definition hdr (e : BlockMetadata) : Header := header (entry_block e).
Definition parent (e : BlockMetadata) : N := previous_block_hash (hdr e).

(** Field updates. *)
Definition set_state (s : ChainState) (e : BlockMetadata) : BlockMetadata :=
  mkMeta (entry_block e) s (timestamp e) (children e) (epoch_snapshot e) (commitment_snapshot e)
    (ema_snapshot e) (insertion_sequence e).
Definition set_children (f : gset N → gset N) (e : BlockMetadata) : BlockMetadata :=
  mkMeta (entry_block e) (chain_state e) (timestamp e) (f (children e)) (epoch_snapshot e)
    (commitment_snapshot e) (ema_snapshot e) (insertion_sequence e).
Definition with_blocks (t : BlockTree) (m : gmap N BlockMetadata) : BlockTree :=
  mkBlockTree m (solutions t) (tip t) (max_cumulative_difficulty t) (next_insertion_sequence t)
    (height_index t) (longest_chain_cache t) (block_tree_depth t) (block_migration_depth t).
Definition with_tip (t : BlockTree) (h : N) : BlockTree :=
  mkBlockTree (blocks t) (solutions t) h (max_cumulative_difficulty t)
    (next_insertion_sequence t) (height_index t) (longest_chain_cache t) (block_tree_depth t)
    (block_migration_depth t).
Definition with_max (t : BlockTree) (m : N * N) : BlockTree :=
  mkBlockTree (blocks t) (solutions t) (tip t) m (next_insertion_sequence t) (height_index t)
    (longest_chain_cache t) (block_tree_depth t) (block_migration_depth t).
Definition with_cache (t : BlockTree) (c : list SealedBlock * nat) : BlockTree :=
  mkBlockTree (blocks t) (solutions t) (tip t) (max_cumulative_difficulty t)
    (next_insertion_sequence t) (height_index t) c (block_tree_depth t)
    (block_migration_depth t).
Definition with_indices (t : BlockTree) (s hi : gmap N (gset N)) : BlockTree :=
  mkBlockTree (blocks t) s (tip t) (max_cumulative_difficulty t) (next_insertion_sequence t)
    hi (longest_chain_cache t) (block_tree_depth t) (block_migration_depth t).
Definition with_next_seq (t : BlockTree) (n : N) : BlockTree :=
  mkBlockTree (blocks t) (solutions t) (tip t) (max_cumulative_difficulty t) n
    (height_index t) (longest_chain_cache t) (block_tree_depth t) (block_migration_depth t).

(** [map.entry(k).or_default().insert(x)]. *)
Definition index_insert (k x : N) (m : gmap N (gset N)) : gmap N (gset N) :=
  <[k := {[x]} ∪ default ∅ (m !! k)]> m.

(** Remove [x] from the set at [k], and the set with its last element. *)
Definition index_remove (k x : N) (m : gmap N (gset N)) : gmap N (gset N) :=
  match m !! k with
  | Some s =>
      let s' := s ∖ {[x]} in
      if decide (s' = ∅) then delete k m else <[k := s']> m
  | None => m
  end.

(** ** The canonical chain cache *)

(** The [while let] loop: collected tip first, with the count of entries that are not
    [Onchain].  [blocks_to_collect] bounds the rounds. *)
Fixpoint collect_chain (m : gmap N BlockMetadata) (blocks_to_collect : nat) (current : N)
  : list SealedBlock * nat :=
  match m !! current with
  | None => ([], 0%nat)
  | Some entry =>
      let here := if is_onchain (chain_state entry) then 0%nat else 1%nat in
      match blocks_to_collect with
      | O => ([entry_block entry], here)
      | S rest =>
          if height (hdr entry) =? 0 then ([entry_block entry], here)
          else
            let '(pairs, count) := collect_chain m rest (parent entry) in
            (entry_block entry :: pairs, (here + count)%nat)
      end
  end.

Definition update_longest_chain_cache (t : BlockTree) : BlockTree :=
  let '(pairs, not_onchain_count) :=
    collect_chain (blocks t) (N.to_nat (block_tree_depth t)) (tip t) in
  with_cache t (rev pairs, not_onchain_count).

(** ** Adding blocks *)

Definition add_common (t : BlockTree) (hash : N) (b : SealedBlock)
    (cs : CommitmentSnapshot) (es : EpochSnapshot) (ema : EmaSnapshot) (state : ChainState)
    (now : Z) : BlockTree * result TreeError unit :=
  let prev_hash := previous_block_hash (header b) in
  match blocks t !! prev_hash with
  | None => (t, Err PreviousBlockNotFound)
  | Some prev_entry =>
      let t := with_blocks t
        (<[prev_hash := set_children (fun c => {[hash]} ∪ c) prev_entry]> (blocks t)) in
      let t := with_indices t
        (index_insert (solution_hash (header b)) hash (solutions t))
        (index_insert (height (header b)) hash (height_index t)) in
      let t :=
        if (max_cumulative_difficulty t).1 <? cumulative_diff (header b)
        then with_max t (cumulative_diff (header b), hash) else t in
      let finish t insertion_sequence :=
        let t := with_blocks t
          (<[hash := mkMeta b state now ∅ es cs ema insertion_sequence]> (blocks t)) in
        (update_longest_chain_cache t, Ok tt) in
      match blocks t !! hash with
      | Some existing => finish t (insertion_sequence existing)
      | None =>
          let sequence := next_insertion_sequence t in
          if sequence + 1 <? 2 ^ 64
          then finish (with_next_seq t (sequence + 1)) sequence
          else (t, Panic)
      end
  end.

Definition add_block (t : BlockTree) (b : SealedBlock) (cs : CommitmentSnapshot)
    (es : EpochSnapshot) (ema : EmaSnapshot) (now : Z) : BlockTree * result TreeError unit :=
  let hash := block_hash (header b) in
  match blocks t !! hash with
  | Some e =>
      if is_onchain (chain_state e) then (t, Ok tt)
      else add_common t hash b cs es ema (NotOnchain Unknown) now
  | None => add_common t hash b cs es ema (NotOnchain Unknown) now
  end.

(** ** Parent walks

    The [while] loops over parent links get one round per block of the tree; in a tree
    whose heights decrease along parent links that is enough. *)
Definition walk_fuel_of (m : gmap N BlockMetadata) : nat := S (size m).

(** [canonical_fork_height]. *)
Fixpoint fork_height_walk (m : gmap N BlockMetadata) (fuel : nat) (current : BlockMetadata)
  : option N :=
  if is_onchain (chain_state current) then Some (height (hdr current))
  else
    match fuel with
    | O => None
    | S fuel' =>
        match m !! parent current with
        | None => None
        | Some e => fork_height_walk m fuel' e
        end
    end.
Definition canonical_fork_height (m : gmap N BlockMetadata) (e : BlockMetadata) : option N :=
  fork_height_walk m (walk_fuel_of m) e.

(** The key of [min_by_key]: sequence, then highest fork point, then hash. *)
Definition max_key_lt (m : gmap N BlockMetadata) (a b : N * BlockMetadata) : bool :=
  let fork_opt x := canonical_fork_height m x.2 in
  match insertion_sequence a.2 ?= insertion_sequence b.2 with
  | Lt => true
  | Gt => false
  | Eq =>
      match fork_opt a, fork_opt b with
      | Some x, Some y =>
          match x ?= y with Gt => true | Lt => false | Eq => a.1 <? b.1 end
      | Some _, None => true
      | None, Some _ => false
      | None, None => a.1 <? b.1
      end
  end.

Definition pick_min (m : gmap N BlockMetadata) (l : list (N * BlockMetadata))
  : option (N * BlockMetadata) :=
  foldr (fun x acc =>
           match acc with
           | None => Some x
           | Some y => if max_key_lt m y x then Some y else Some x
           end) None l.

Definition find_max_difficulty (m : gmap N BlockMetadata) : result TreeError (N * N) :=
  let entries := map_to_list m in
  match entries with
  | [] => Ok (0, 0)
  | _ =>
      let max_diff := foldr N.max 0 ((fun x => cumulative_diff (hdr x.2)) <$> entries) in
      '(hash, _) ←
        expect (pick_min m (filter (fun x => cumulative_diff (hdr x.2) = max_diff) entries));
      Ok (max_diff, hash)
  end.

(** ** Removing blocks *)

Definition delete_block (t : BlockTree) (hash : N) : BlockTree * result TreeError unit :=
  match blocks t !! hash with
  | None => (t, Err BlockNotFound)
  | Some entry =>
      let t := with_blocks t
        (alter (set_children (fun c => c ∖ {[hash]})) (parent entry) (blocks t)) in
      let t := with_indices t
        (index_remove (solution_hash (hdr entry)) hash (solutions t))
        (index_remove (height (hdr entry)) hash (height_index t)) in
      let t := with_blocks t (delete hash (blocks t)) in
      if (max_cumulative_difficulty t).2 =? hash then
        match find_max_difficulty (blocks t) with
        | Ok m => (update_longest_chain_cache (with_max t m), Ok tt)
        | Err e => (t, Err e)
        | Panic => (t, Panic)
        end
      else (update_longest_chain_cache t, Ok tt)
  end.

(** A [for] loop whose body ends in [?]. *)
Fixpoint try_each (op : BlockTree → N → BlockTree * result TreeError unit) (t : BlockTree)
    (l : list N) : BlockTree * result TreeError unit :=
  match l with
  | [] => (t, Ok tt)
  | x :: l' =>
      match op t x with
      | (t', Ok _) => try_each op t' l'
      | (t', r) => (t', r)
      end
  end.

(** [remove_block]: the recursion goes down the tree, one level per unit of fuel. *)
Fixpoint remove_block_fuel (fuel : nat) (t : BlockTree) (hash : N)
  : BlockTree * result TreeError unit :=
  match fuel with
  | O => (t, Panic)
  | S fuel' =>
      match blocks t !! hash with
      | None => (t, Err BlockNotFound)
      | Some entry =>
          if is_onchain (chain_state entry) then (t, Err (CannotRemoveOnchain hash))
          else
            match try_each (remove_block_fuel fuel') t (iter_set (children entry)) with
            | (t', Ok _) => delete_block t' hash
            | (t', r) => (t', r)
            end
      end
  end.
Definition remove_block (t : BlockTree) (hash : N) : BlockTree * result TreeError unit :=
  remove_block_fuel (walk_fuel_of (blocks t)) t hash.

(** ** Chain states *)

(** [mark_off_chain]: [Onchain] children other than [current] become [Validated], and
    theirs in turn. *)
Fixpoint mark_off_chain_fuel (fuel : nat) (m : gmap N BlockMetadata) (cs : gset N)
    (current : N) : gmap N BlockMetadata :=
  match fuel with
  | O => m
  | S fuel' =>
      foldl (fun m child =>
               if child =? current then m
               else
                 match m !! child with
                 | Some entry =>
                     if is_onchain (chain_state entry) then
                       mark_off_chain_fuel fuel'
                         (<[child := set_state (Validated ValidBlock) entry]> m)
                         (children entry) current
                     else m
                 | None => m
                 end) m (iter_set cs)
  end.
Definition mark_off_chain (m : gmap N BlockMetadata) (cs : gset N) (current : N)
  : gmap N BlockMetadata := mark_off_chain_fuel (walk_fuel_of m) m cs current.

(** [mark_on_chain] walks up from a header; the map it leaves behind is returned also on
    the error path. *)
Fixpoint mark_on_chain_fuel (fuel : nat) (m : gmap N BlockMetadata) (h : Header)
  : gmap N BlockMetadata * result TreeError unit :=
  match fuel with
  | O => (m, Panic)
  | S fuel' =>
      match m !! previous_block_hash h with
      | None => (m, Ok tt)
      | Some prev_entry =>
          match chain_state prev_entry with
          | Onchain => (mark_off_chain m (children prev_entry) (block_hash h), Ok tt)
          | NotOnchain ValidBlock | Validated _ =>
              mark_on_chain_fuel fuel'
                (<[previous_block_hash h := set_state Onchain prev_entry]> m) (hdr prev_entry)
          | NotOnchain _ => (m, Err InvalidTip)
          end
      end
  end.
Definition mark_on_chain (m : gmap N BlockMetadata) (h : Header)
  : gmap N BlockMetadata * result TreeError unit := mark_on_chain_fuel (walk_fuel_of m) m h.

Definition mark_tip (t : BlockTree) (hash : N) : BlockTree * result TreeError bool :=
  match blocks t !! hash with
  | None => (t, Err BlockNotFoundInCache)
  | Some block_entry =>
      let block_header := hdr block_entry in
      let old_tip := tip t in
      let '(canonical_diff, canonical_block_hash) := max_cumulative_difficulty t in
      if (cumulative_diff block_header =? canonical_diff) && negb (canonical_block_hash =? hash)
      then (t, Ok false)
      else
        match mark_on_chain (blocks t) block_header with
        | (m, Ok _) =>
            let t := with_blocks t (alter (set_state Onchain) hash m) in
            (update_longest_chain_cache (with_tip t hash), Ok (negb (old_tip =? hash)))
        | (m, Err e) => (with_blocks t m, Err e)
        | (m, Panic) => (with_blocks t m, Panic)
        end
  end.

Definition mark_block_as_validation_scheduled (t : BlockTree) (hash : N) : BlockTree :=
  match blocks t !! hash with
  | Some entry =>
      match chain_state entry with
      | NotOnchain Unknown =>
          update_longest_chain_cache
            (with_blocks t (<[hash := set_state (NotOnchain ValidationScheduled) entry]> (blocks t)))
      | Validated Unknown =>
          update_longest_chain_cache
            (with_blocks t (<[hash := set_state (Validated ValidationScheduled) entry]> (blocks t)))
      | _ => t
      end
  | None => t
  end.

Definition mark_block_as_valid (t : BlockTree) (hash : N)
  : BlockTree * result TreeError unit :=
  match blocks t !! hash with
  | Some entry =>
      match chain_state entry with
      | NotOnchain ValidationScheduled =>
          (update_longest_chain_cache
             (with_blocks t (<[hash := set_state (NotOnchain ValidBlock) entry]> (blocks t))),
           Ok tt)
      | Validated ValidationScheduled =>
          (update_longest_chain_cache
             (with_blocks t (<[hash := set_state (Validated ValidBlock) entry]> (blocks t))),
           Ok tt)
      | s => (t, Err (UnableToMarkValid s))
      end
  | None => (t, Err UnableToMarkMissing)
  end.

(** ** Pruning *)

(** The body of the loop over the hashes of one height.  A failed removal is logged and
    the loop goes on; a panic stops it. *)
Definition prune_hash (t : BlockTree) (hash : N) : BlockTree * result TreeError unit :=
  match blocks t !! hash with
  | Some entry =>
      if is_onchain (chain_state entry) then
        let '(t', r) :=
          try_each (fun t child =>
                      match blocks t !! child with
                      | Some child_entry =>
                          if is_onchain (chain_state child_entry) then (t, Ok tt)
                          else
                            match remove_block t child with
                            | (t', Panic) => (t', Panic)
                            | (t', _) => (t', Ok tt)
                            end
                      | None => (t, Ok tt)
                      end) t (iter_set (children entry)) in
        match r with
        | Panic => (t', Panic)
        | _ => match delete_block t' hash with
               | (t'', Panic) => (t'', Panic)
               | (t'', _) => (t'', Ok tt)
               end
        end
      else (t, Ok tt)
  | None => (t, Ok tt)
  end.

(** The [while current_height < min_keep_height] loop, [rounds] heights from
    [current_height] on. *)
Fixpoint prune_loop (rounds : nat) (t : BlockTree) (current_height : N)
  : BlockTree * result TreeError unit :=
  match rounds with
  | O => (t, Ok tt)
  | S rounds' =>
      match height_index t !! current_height with
      | None => prune_loop rounds' t (current_height + 1)
      | Some hashes =>
          match try_each prune_hash t (iter_set hashes) with
          | (t', Ok _) => prune_loop rounds' t' (current_height + 1)
          | (t', r) => (t', r)
          end
      end
  end.

(** [self.height_index.keys().min()]. *)
Definition min_height (t : BlockTree) : option N :=
  foldr (fun h acc => match acc with None => Some h | Some x => Some (N.min h x) end) None
    (map_to_list (height_index t)).*1.

Definition prune (t : BlockTree) (depth : N) : BlockTree * result TreeError unit :=
  match blocks t !! tip t with
  | None => (t, Panic)
  | Some tip_entry =>
      let min_keep_height := height (hdr tip_entry) - depth in
      match min_height t with
      | None => (t, Ok tt)
      | Some h => prune_loop (N.to_nat (min_keep_height - h)) t h
      end
  end.
End BlockTree.
