(* ===== verification/Lineage.v ===== *)
(** Ancestry in the block tree: the relation, the list of ancestors of a block, and the
    induction along parent links the loops of the tree follow. *)

From S2P Require Import Prelude BlockTree.
From stdpp Require Import gmap.

#[local] Open Scope N_scope.

Section Lineage.
  Context {Body CommitmentSnapshot EpochSnapshot EmaSnapshot : Type}.
  Notation Meta := (@BlockMetadata Body CommitmentSnapshot EpochSnapshot EmaSnapshot).
  Implicit Types (m : gmap N Meta) (e : Meta).

(** [anc m a h]: [a] is [h] or an ancestor of it, the path staying inside the tree. *)
Inductive anc (m : gmap N Meta) : N → N → Prop :=
| anc_refl h e : m !! h = Some e → anc m h h
| anc_up a h e : m !! h = Some e → anc m a (parent e) → anc m a h.

(** Headers are filed under their hash, and along a parent link heights rise by one
    and difficulty and VDF steps strictly increase. *)
Record links_ok (m : gmap N Meta) : Prop := {
  lk_hash : ∀ h e, m !! h = Some e → block_hash (hdr e) = h;
  lk_parent : ∀ h e p, m !! h = Some e → m !! parent e = Some p →
    height (hdr e) = height (hdr p) + 1 ∧
    cumulative_diff (hdr p) < cumulative_diff (hdr e) ∧
    global_step_number (hdr p) < global_step_number (hdr e)
}.

(** Maps with the same headers have the same ancestry. *)
Definition same_headers m m' : Prop := ∀ h, hdr <$> m !! h = hdr <$> m' !! h.

Lemma same_headers_refl m : same_headers m m.
Proof. done. Qed.
Lemma same_headers_sym m m' : same_headers m m' → same_headers m' m.
Proof. intros Hs h. by rewrite Hs. Qed.
Lemma same_headers_trans m m' m'' :
  same_headers m m' → same_headers m' m'' → same_headers m m''.
Proof. intros Hs Hs' h. by rewrite Hs. Qed.

Lemma same_headers_lookup m m' h e :
  same_headers m m' → m !! h = Some e → ∃ e', m' !! h = Some e' ∧ hdr e' = hdr e.
Proof.
  intros Hs He. specialize (Hs h). rewrite He in Hs. destruct (m' !! h) as [e'|]; [|done].
  exists e'. split; [done|]. by injection Hs.
Qed.

Lemma same_headers_insert m h e e' :
  m !! h = Some e → hdr e' = hdr e → same_headers m (<[h := e']> m).
Proof.
  intros He Hh k. destruct (decide (k = h)) as [->|Hne].
  - by rewrite lookup_insert_eq, He; cbn; rewrite Hh.
  - by rewrite lookup_insert_ne.
Qed.

Lemma same_headers_alter m h (f : Meta → Meta) :
  (∀ e, hdr (f e) = hdr e) → same_headers m (alter f h m).
Proof.
  intros Hf k. destruct (decide (k = h)) as [->|Hne].
  - rewrite lookup_alter_eq. by destruct (m !! h); cbn; rewrite ?Hf.
  - by rewrite lookup_alter_ne.
Qed.

Lemma anc_same_headers m m' a h : same_headers m m' → anc m a h → anc m' a h.
Proof.
  intros Hs. induction 1 as [h e He|a h e He _ IH];
    destruct (same_headers_lookup _ _ _ _ Hs He) as (e' & He' & Hh).
  - by eapply anc_refl.
  - eapply anc_up; [done|]. unfold parent in *. by rewrite Hh.
Qed.

Lemma anc_same_headers_iff m m' a h : same_headers m m' → anc m a h ↔ anc m' a h.
Proof. intros Hs. split; apply anc_same_headers; [done|by apply same_headers_sym]. Qed.

Lemma links_ok_same_headers m m' : same_headers m m' → links_ok m → links_ok m'.
Proof.
  intros Hs%same_headers_sym [Hh Hp]. constructor.
  - intros h e He. destruct (same_headers_lookup _ _ _ _ Hs He) as (e0 & He0 & Heq).
    rewrite <- Heq. by apply Hh.
  - intros h e p He Hpe.
    destruct (same_headers_lookup _ _ _ _ Hs He) as (e0 & He0 & Heq).
    destruct (same_headers_lookup _ _ _ _ Hs Hpe) as (p0 & Hp0 & Heqp).
    rewrite <- Heq, <- Heqp. eapply Hp; [done|]. unfold parent. by rewrite Heq.
Qed.

(** ** Basic facts *)

Lemma anc_lookup_r m a h : anc m a h → is_Some (m !! h).
Proof. by destruct 1; eexists. Qed.

Lemma anc_lookup_l m a h : anc m a h → is_Some (m !! a).
Proof. induction 1; [by eexists|done]. Qed.

Lemma anc_inv m a h e : m !! h = Some e → anc m a h ↔ a = h ∨ anc m a (parent e).
Proof.
  intros He. split.
  - destruct 1 as [h e' He'|a h e' He' Ha]; [by left|right]. congruence.
  - intros [->|Ha]; [by eapply anc_refl|by eapply anc_up].
Qed.

Lemma anc_trans m a b c : anc m a b → anc m b c → anc m a c.
Proof. intros Hab. induction 1 as [h e He|b h e He _ IH]; [done|]. eapply anc_up; eauto. Qed.

(** Ancestors of one block are comparable. *)
Lemma anc_linear m a b h : anc m a h → anc m b h → anc m a b ∨ anc m b a.
Proof.
  intros Ha. revert b. induction Ha as [h e He|a h e He Ha IH]; intros b Hb; [by right|].
  apply (anc_inv m b h e He) in Hb as [->|Hb]; [left|by apply IH]. by eapply anc_up.
Qed.

Section Links.
  Context (m : gmap N Meta) (Hm : links_ok m).

Lemma anc_height a h ea e :
  anc m a h → m !! a = Some ea → m !! h = Some e →
  a = h ∨ (height (hdr ea) < height (hdr e) ∧ cumulative_diff (hdr ea) < cumulative_diff (hdr e) ∧
           global_step_number (hdr ea) < global_step_number (hdr e)).
Proof.
  intros Ha. revert e. induction Ha as [h e' He'|a h e' He' Ha IH]; intros e Hea He; [by left|].
  assert (e' = e) as -> by congruence.
  destruct (anc_lookup_r _ _ _ Ha) as [p Hp].
  pose proof (lk_parent m Hm h e p He Hp) as (H1 & H2 & H3).
  destruct (IH p Hea Hp) as [->|IH']; right.
  - assert (ea = p) as -> by congruence. lia.
  - lia.
Qed.

Lemma anc_antisym a h : anc m a h → anc m h a → a = h.
Proof.
  intros H1 H2. destruct (anc_lookup_l _ _ _ H1) as [ea Hea], (anc_lookup_r _ _ _ H1) as [e He].
  destruct (anc_height a h ea e H1 Hea He) as [|Hlt]; [done|].
  destruct (anc_height h a e ea H2 He Hea) as [->|Hlt']; [done|]. lia.
Qed.

Lemma parent_ne h e : m !! h = Some e → parent e ≠ h.
Proof.
  intros He Hp. assert (m !! parent e = Some e) as Hpe by (by rewrite Hp).
  pose proof (lk_parent m Hm h e e He Hpe). lia.
Qed.

(** A block is not an ancestor of its parent. *)
Lemma not_anc_parent h e : m !! h = Some e → ¬ anc m h (parent e).
Proof.
  intros He Ha. destruct (anc_lookup_r _ _ _ Ha) as [p Hp].
  pose proof (lk_parent m Hm h e p He Hp).
  destruct (anc_height h (parent e) e p Ha He Hp) as [Heq|?]; [|lia].
  by apply (parent_ne h e He).
Qed.
End Links.

(** ** The list of ancestors *)

Fixpoint lineage_fuel (n : nat) m (h : N) : list (N * Meta) :=
  match n with
  | O => []
  | S n' => match m !! h with None => [] | Some e => (h, e) :: lineage_fuel n' m (parent e) end
  end.
Definition lineage m (h : N) : list (N * Meta) := lineage_fuel (walk_fuel_of m) m h.

Lemma lineage_fuel_elem n m h k e : (k, e) ∈ lineage_fuel n m h → m !! k = Some e ∧ anc m k h.
Proof.
  revert h. induction n as [|n IH]; intros h; cbn [lineage_fuel]; [by intros ?%elem_of_nil|].
  destruct (m !! h) as [eh|] eqn:Hh; [|by intros ?%elem_of_nil].
  intros [[= -> ->]|[Hk Ha]%IH]%elem_of_cons.
  - split; [done|by eapply anc_refl].
  - split; [done|by eapply anc_up].
Qed.

Lemma lineage_fuel_nodup n m h : links_ok m → NoDup (lineage_fuel n m h).*1.
Proof.
  intros Hm. revert h. induction n as [|n IH]; intros h; cbn [lineage_fuel]; [constructor|].
  destruct (m !! h) as [e|] eqn:He; [|constructor]. cbn. constructor; [|apply IH].
  intros ((k & ek) & -> & Hk)%list_elem_of_fmap. cbn in He. apply lineage_fuel_elem in Hk as [Hk Ha].
  by apply (not_anc_parent m Hm k e He).
Qed.

Lemma lineage_fuel_size n m h : links_ok m → (length (lineage_fuel n m h) ≤ size m)%nat.
Proof.
  intros Hm. rewrite <- (length_fmap fst), <- size_dom.
  rewrite <- (size_list_to_set (C:=gset N)) by (by apply lineage_fuel_nodup).
  apply subseteq_size. intros k. rewrite elem_of_list_to_set.
  intros ((k' & e) & -> & Hk)%list_elem_of_fmap.
  apply lineage_fuel_elem in Hk as [Hk _]. apply elem_of_dom. by eexists.
Qed.

Lemma lineage_fuel_more n n' m h :
  (length (lineage_fuel n m h) < n)%nat → (n ≤ n')%nat →
  lineage_fuel n' m h = lineage_fuel n m h.
Proof.
  revert n' h. induction n as [|n IH]; intros n' h Hl Hn; [lia|].
  destruct n' as [|n']; [lia|]. cbn [lineage_fuel] in *.
  destruct (m !! h); [|done]. cbn in Hl. f_equal. apply IH; lia.
Qed.

(** Fuel of one round per block, and one more, is enough. *)
Lemma lineage_enough n m h :
  links_ok m → (walk_fuel_of m ≤ n)%nat → lineage_fuel n m h = lineage m h.
Proof.
  intros Hm Hn. apply lineage_fuel_more; [|done].
  pose proof (lineage_fuel_size (walk_fuel_of m) m h Hm). unfold walk_fuel_of in *. lia.
Qed.

Lemma lineage_unfold m h :
  links_ok m →
  lineage m h = match m !! h with None => [] | Some e => (h, e) :: lineage m (parent e) end.
Proof.
  intros Hm. rewrite <- (lineage_enough (S (walk_fuel_of m)) m h Hm) by lia.
  done.
Qed.

Lemma lineage_some m h e :
  links_ok m → m !! h = Some e → lineage m h = (h, e) :: lineage m (parent e).
Proof. intros Hm He. by rewrite lineage_unfold, He. Qed.

Lemma lineage_none m h : links_ok m → m !! h = None → lineage m h = [].
Proof. intros Hm He. by rewrite lineage_unfold, He. Qed.

(** Induction along parent links. *)
Lemma lineage_ind m (Hm : links_ok m) (P : N → Prop) :
  (∀ h, m !! h = None → P h) → (∀ h e, m !! h = Some e → P (parent e) → P h) → ∀ h, P h.
Proof.
  intros H0 H1 h. remember (length (lineage m h)) as n eqn:Hn. revert h Hn.
  induction n as [|n IH]; intros h Hn; (destruct (m !! h) as [e|] eqn:He; [|by apply H0]);
    rewrite (lineage_some m h e Hm He) in Hn; cbn [length] in Hn; [done|].
  eapply H1; [done|]. apply IH. by injection Hn.
Qed.

Lemma lineage_anc m h k : links_ok m → k ∈ (lineage m h).*1 ↔ anc m k h.
Proof.
  intros Hm. split.
  - intros ((k' & e) & -> & Hk)%list_elem_of_fmap. by apply lineage_fuel_elem in Hk as [_ Ha].
  - intros Ha. induction Ha as [h e He|k h e He _ IH]; rewrite (lineage_some m h e Hm He); cbn;
      [by left|by right].
Qed.

#[global] Instance anc_dec m a h : links_ok m → Decision (anc m a h).
Proof.
  intros Hm. destruct (decide (a ∈ (lineage m h).*1)) as [Hin|Hin];
    rewrite (lineage_anc m h a Hm) in Hin; [by left|by right].
Defined.

Lemma lineage_lookup m h k e : links_ok m → (k, e) ∈ lineage m h → m !! k = Some e.
Proof. intros Hm Hk. by apply lineage_fuel_elem in Hk as [? _]. Qed.

Lemma lineage_size m h : links_ok m → (length (lineage m h) ≤ size m)%nat.
Proof. apply lineage_fuel_size. Qed.
End Lineage.
