(* ===== verification/BlockTreeQueries.v ===== *)
(** Read-only queries of the block tree ([crates/domain/src/models/block_tree.rs]):
    canonical chain lookups, parent walks, reorg split, solution lookup. *)

From S2P Require Import Prelude BlockTree.
From stdpp Require Import gmap sorting.

#[local] Open Scope N_scope.

Section BlockTreeQueries.
  Context {Body CommitmentSnapshot EpochSnapshot EmaSnapshot : Type}.
  Notation Meta := (@BlockMetadata Body CommitmentSnapshot EpochSnapshot EmaSnapshot).
  Notation Tree := (@BlockTree Body CommitmentSnapshot EpochSnapshot EmaSnapshot).
  Notation Sealed := (@SealedBlock Body).
  Implicit Types (t : Tree) (m : gmap N Meta) (e : Meta).

(** ** The canonical chain *)

Definition get_canonical_chain t : list Sealed * nat := longest_chain_cache t.

Definition get_latest_canonical_entry t : result TreeError Sealed :=
  expect (last (longest_chain_cache t).1).

(** [slice::partition_point] on a slice the predicate partitions. *)
Fixpoint partition_point {A} (p : A → bool) (l : list A) : nat :=
  match l with
  | x :: l' => if p x then S (partition_point p l') else O
  | [] => O
  end.

Definition canonical_entry_at_or_below_step t (step : N) : option Sealed :=
  let chain := (longest_chain_cache t).1 in
  match partition_point (fun b => global_step_number (header b) <=? step) chain with
  | O => None
  | S idx => chain !! idx
  end.

(** [usize::try_from(depth).unwrap_or(usize::MAX)] and the saturating sum are the exact
    numbers here: the skip only matters up to the length of the chain. *)
Definition confirmed_canonical_step t (depth : N) : N :=
  let '(chain, not_onchain_count) := longest_chain_cache t in
  let skip := Nat.max not_onchain_count (N.to_nat depth) in
  let idx := (length chain - (skip + 1))%nat in
  match chain !! idx with
  | Some b => global_step_number (header b)
  | None => 0
  end.

Definition canonical_head_entry t : result TreeError Meta :=
  head_entry ← get_latest_canonical_entry t;
  expect (blocks t !! block_hash (header head_entry)).
Definition canonical_commitment_snapshot t : result TreeError CommitmentSnapshot :=
  commitment_snapshot <$> canonical_head_entry t.
Definition canonical_epoch_snapshot t : result TreeError EpochSnapshot :=
  epoch_snapshot <$> canonical_head_entry t.

(** [get_optimistic_chain]: the ancestry of the max-difficulty block, oldest first. *)
Fixpoint collect_optimistic m (blocks_to_collect : nat) (current : N) : list (N * N) :=
  match m !! current with
  | None => []
  | Some entry =>
      (current, height (hdr entry)) ::
      match blocks_to_collect with
      | O => []
      | S rest => if height (hdr entry) =? 0 then [] else collect_optimistic m rest (parent entry)
      end
  end.
Definition get_optimistic_chain t : list (N * N) :=
  rev (collect_optimistic (blocks t) (N.to_nat (block_tree_depth t))
         (max_cumulative_difficulty t).2).

(** ** Reorg split *)

Record ReorgSplit : Type := mkReorgSplit {
  lca : Sealed;
  old_divergent : list Sealed;
  new_divergent : list Sealed
}.

(** The walk from the new tip: the visited hashes with their blocks, tip first. *)
Fixpoint new_tip_walk (fuel : nat) m (cursor : N) : list (N * Sealed) :=
  match fuel with
  | O => []
  | S fuel' =>
      match m !! cursor with
      | None => []
      | Some entry =>
          (cursor, entry_block entry) ::
          (if height (hdr entry) =? 0 then [] else new_tip_walk fuel' m (parent entry))
      end
  end.

(** The [loop] from the old tip, up to the first hash of the new walk. *)
Fixpoint old_tip_walk (fuel : nat) m (new_hashes : list N) (old_tip cursor : N)
    (old_walk : list Sealed) : result TreeError (Sealed * list Sealed) :=
  match fuel with
  | O => Panic
  | S fuel' =>
      match m !! cursor with
      | None =>
          match old_walk with
          | [] => Err (OldTipNotInCache old_tip)
          | _ => Err NoCommonAncestorExhausted
          end
      | Some entry =>
          if bool_decide (cursor ∈ new_hashes) then Ok (entry_block entry, old_walk)
          else
            let old_walk := old_walk ++ [entry_block entry] in
            if height (hdr entry) =? 0 then Err NoCommonAncestorGenesis
            else old_tip_walk fuel' m new_hashes old_tip (parent entry) old_walk
      end
  end.

(** Index of the first element that satisfies the predicate ([Iterator::position]). *)
Fixpoint position {A} (p : A → bool) (l : list A) : option nat :=
  match l with
  | [] => None
  | x :: l' => if p x then Some O else S <$> position p l'
  end.

Definition find_reorg_split t (new_tip old_tip : N) : result TreeError ReorgSplit :=
  let fuel := S (walk_fuel_of (blocks t)) in
  let walk := new_tip_walk fuel (blocks t) new_tip in
  match walk with
  | [] => Err (NewTipNotInCache new_tip)
  | _ =>
      '(l, old_walk) ← old_tip_walk fuel (blocks t) walk.*1 old_tip old_tip [];
      let new_walk := walk.*2 in
      lca_idx ← expect (position (fun b => block_hash (header b) =? block_hash (header l)) new_walk);
      Ok (mkReorgSplit l (rev old_walk) (rev (take lca_idx new_walk)))
  end.

(** ** Validation status *)

Definition get_block t (hash : N) : option Header := hdr <$> blocks t !! hash.

(** [get_max_chain_validated_head]. *)
Fixpoint validated_head_walk (fuel : nat) m (validated_head : option N) (current : N)
  : option N :=
  match fuel with
  | O => None
  | S fuel' =>
      match m !! current with
      | None => None
      | Some entry =>
          match chain_state entry with
          | Onchain => Some (default current validated_head)
          | NotOnchain ValidBlock | Validated ValidBlock =>
              validated_head_walk fuel' m
                (Some (default current validated_head)) (parent entry)
          | NotOnchain _ | Validated _ => validated_head_walk fuel' m None (parent entry)
          end
      end
  end.
Definition get_max_chain_validated_head t : option N :=
  validated_head_walk (walk_fuel_of (blocks t)) (blocks t) None (max_cumulative_difficulty t).2.

Definition can_be_built_upon t (hash : N) : bool :=
  match blocks t !! hash with
  | Some entry =>
      match chain_state entry with Onchain | Validated ValidBlock => true | _ => false end
  | None => false
  end.

Definition get_max_block_info t : result TreeError (N * N * bool) :=
  let hash := (max_cumulative_difficulty t).2 in
  entry ← expect (blocks t !! hash);
  Ok (hash, height (hdr entry), can_be_built_upon t hash).

(** [get_validation_chain_status]. *)
Fixpoint validation_status_walk (fuel : nat) m (current : N) (blocks_awaiting : nat)
    (last_validated : option N) : nat * option N :=
  match fuel with
  | O => (blocks_awaiting, last_validated)
  | S fuel' =>
      match m !! current with
      | None => (blocks_awaiting, last_validated)
      | Some entry =>
          let '(blocks_awaiting, last_validated) :=
            match chain_state entry with
            | Onchain | Validated ValidBlock =>
                (blocks_awaiting, Some (default current last_validated))
            | NotOnchain ValidBlock =>
                (match last_validated with
                 | None => S blocks_awaiting | Some _ => blocks_awaiting end, last_validated)
            | _ => (S blocks_awaiting, last_validated)
            end in
          if height (hdr entry) =? 0 then (blocks_awaiting, last_validated)
          else validation_status_walk fuel' m (parent entry) blocks_awaiting last_validated
      end
  end.
Definition get_validation_chain_status t (from : N) : nat * option N :=
  validation_status_walk (walk_fuel_of (blocks t)) (blocks t) from O None.

(** [get_fork_blocks], collected tip first and reversed. *)
Fixpoint fork_blocks_walk (fuel : nat) m (prev_hash : N) : list Sealed :=
  match fuel with
  | O => []
  | S fuel' =>
      match m !! prev_hash with
      | None => []
      | Some entry =>
          entry_block entry ::
          (if is_onchain (chain_state entry) then [] else fork_blocks_walk fuel' m (parent entry))
      end
  end.
Definition get_fork_blocks t (previous : N) : list Sealed :=
  rev (fork_blocks_walk (walk_fuel_of (blocks t)) (blocks t) previous).

(** [get_earliest_not_onchain]: [depth_count] runs up to [block_tree_depth]. *)
Fixpoint earliest_not_onchain_walk t (rounds : nat) (current_entry : Meta)
  : option (Meta * list Sealed * Z) :=
  match rounds with
  | O => None
  | S rounds' =>
      if height (hdr current_entry) =? 0 then None
      else
        match blocks t !! parent current_entry with
        | None => None
        | Some prev_entry =>
            match chain_state prev_entry with
            | Validated ValidBlock | Onchain =>
                Some (current_entry, get_fork_blocks t (parent current_entry),
                      timestamp current_entry)
            | _ => earliest_not_onchain_walk t rounds' prev_entry
            end
        end
  end.
Definition get_earliest_not_onchain t (e : Meta) : option (Meta * list Sealed * Z) :=
  earliest_not_onchain_walk t (N.to_nat (block_tree_depth t)) e.

Definition get_earliest_not_onchain_in_longest_chain t : option (Meta * list Sealed * Z) :=
  let '(max_diff, max_diff_hash) := max_cumulative_difficulty t in
  tip_entry ← blocks t !! tip t;
  if max_diff <=? cumulative_diff (hdr tip_entry) then None
  else
    entry ← blocks t !! max_diff_hash;
    if is_onchain (chain_state entry) then None else get_earliest_not_onchain t entry.

Definition get_earliest_unvalidated_block_height t : option N :=
  '(_, fork, _) ← get_earliest_not_onchain_in_longest_chain t;
  foldr (fun b acc => match acc with
                      | None => Some (height (header b))
                      | Some h => Some (N.min (height (header b)) h) end) None fork.

Definition can_process_height t (h : N) : result TreeError bool :=
  let max_tree_depth := block_migration_depth t in
  if h <? max_tree_depth then Ok true
  else
    match get_earliest_unvalidated_block_height t with
    | None => Ok true
    | Some earliest_height =>
        let max_height := earliest_height + max_tree_depth / 2 in
        if max_height <? 2 ^ 64 then Ok (h <=? max_height) else Panic
    end.

(** ** Solutions *)

Fixpoint solution_scan m (excluding cumulative_difficulty previous_cumulative_difficulty : N)
    (best_block : option Header) (hashes : list N) : option Header :=
  match hashes with
  | [] => best_block
  | hash :: rest =>
      let continue best := solution_scan m excluding cumulative_difficulty
                             previous_cumulative_difficulty best rest in
      if hash =? excluding then continue best_block
      else
        match m !! hash with
        | None => continue best_block
        | Some entry =>
            let header := hdr entry in
            if cumulative_diff header =? cumulative_difficulty then Some header
            else if (previous_cumulative_difficulty <? cumulative_diff header)
                    && (previous_cumulative_diff header <? cumulative_difficulty)
            then Some header
            else continue (match best_block with None => Some header | b => b end)
        end
  end.

(** [BTreeSet] iterates in ascending order. *)
Definition get_by_solution_hash t (solution excluding cumulative_difficulty
    previous_cumulative_difficulty : N) : option Header :=
  block_hashes ← solutions t !! solution;
  solution_scan (blocks t) excluding cumulative_difficulty previous_cumulative_difficulty None
    (merge_sort N.le (elements block_hashes)).

Definition is_known_solution_hash t (solution : N) : bool :=
  bool_decide (is_Some (solutions t !! solution)).
End BlockTreeQueries.
