(* ===== verification/BlockTreeInv.v ===== *)
(** The invariant of the block tree: links, indices, chain states, difficulty maximum and
    the canonical chain cache, with the lemmas on its parts. *)

From stdpp Require Import gmap.
From S2P Require Import Prelude BlockTree Lineage.

#[local] Open Scope N_scope.

Section BlockTreeInv.
  Context {Body CommitmentSnapshot EpochSnapshot EmaSnapshot : Type}.
  Notation Meta := (@BlockMetadata Body CommitmentSnapshot EpochSnapshot EmaSnapshot).
  Notation Tree := (@BlockTree Body CommitmentSnapshot EpochSnapshot EmaSnapshot).
  Implicit Types (t : Tree) (m : gmap N Meta) (e : Meta) (idx : gmap N (gset N)).

(** ** The parts *)

(** The children of a block are the blocks that name it as their parent. *)
Definition children_ok m : Prop :=
  ∀ p e c, m !! p = Some e →
    (c ∈ children e ↔ ∃ ce, m !! c = Some ce ∧ parent ce = p).

(** An index files every block under its key, and keeps no empty set. *)
Definition index_at idx (k : N) : gset N := default ∅ (idx !! k).
Definition index_ok (key : Header → N) m idx : Prop :=
  (∀ k h, h ∈ index_at idx k ↔ ∃ e, m !! h = Some e ∧ key (hdr e) = k) ∧
  (∀ k, idx !! k ≠ Some ∅).

(** Every block descends from one root. *)
Definition rooted m (r : N) : Prop := ∀ h, is_Some (m !! h) → anc m r h.

(** Exactly the ancestry of the tip is [Onchain]. *)
Definition states_ok m (tp : N) : Prop :=
  ∀ h e, m !! h = Some e → chain_state e = Onchain ↔ anc m h tp.

(** The recorded maximum is the highest difficulty in the tree, and its block the
    earliest inserted among those that have it. *)
Definition max_ok m (mx : N * N) : Prop :=
  ∃ e, m !! mx.2 = Some e ∧ cumulative_diff (hdr e) = mx.1 ∧
    ∀ h e', m !! h = Some e' → cumulative_diff (hdr e') ≤ mx.1 ∧
      (cumulative_diff (hdr e') = mx.1 → insertion_sequence e ≤ insertion_sequence e').

Definition seq_ok m (next : N) : Prop :=
  ∀ h e, m !! h = Some e → insertion_sequence e ≤ next.

Record core_ok t : Prop := {
  ok_links : links_ok (blocks t);
  ok_children : children_ok (blocks t);
  ok_root : ∃ r, rooted (blocks t) r;
  ok_tip : is_Some (blocks t !! tip t);
  ok_states : states_ok (blocks t) (tip t);
  ok_heights : index_ok height (blocks t) (height_index t);
  ok_solutions : index_ok solution_hash (blocks t) (solutions t);
  ok_max : max_ok (blocks t) (max_cumulative_difficulty t);
  ok_seq : seq_ok (blocks t) (next_insertion_sequence t)
}.

(** The cache is the chain collected from the tip. *)
Definition cache_of m (depth tp : N) : list SealedBlock * nat :=
  let '(pairs, count) := collect_chain m (N.to_nat depth) tp in (rev pairs, count).

Record tree_ok t : Prop := {
  ok_core : core_ok t;
  ok_cache : longest_chain_cache t = cache_of (blocks t) (block_tree_depth t) (tip t)
}.

Lemma update_cache_eq t :
  update_longest_chain_cache t =
  with_cache t (cache_of (blocks t) (block_tree_depth t) (tip t)).
Proof. unfold update_longest_chain_cache, cache_of. by destruct (collect_chain _ _ _). Qed.

Lemma update_cache_ok t : core_ok t → tree_ok (update_longest_chain_cache t).
Proof. rewrite update_cache_eq. intros []. by split. Qed.

(** ** Indices *)

Lemma index_ok_same_headers key m m' idx :
  same_headers m m' → index_ok key m idx → index_ok key m' idx.
Proof.
  intros Hs [H1 H2]. split; [|done]. intros k h. rewrite H1. split.
  - intros (e & He & <-). destruct (same_headers_lookup _ _ _ _ Hs He) as (e' & He' & Hh).
    exists e'. by rewrite Hh.
  - intros (e & He & <-).
    destruct (same_headers_lookup _ _ _ _ (same_headers_sym _ _ Hs) He) as (e' & He' & Hh).
    exists e'. by rewrite Hh.
Qed.

Lemma index_insert_ok key m idx h e :
  m !! h = None → index_ok key m idx →
  index_ok key (<[h := e]> m) (index_insert (key (hdr e)) h idx).
Proof.
  intros Hn [H1 H2]. split.
  - intros k x. unfold index_at, index_insert. destruct (decide (k = key (hdr e))) as [->|Hk].
    + rewrite lookup_insert_eq. cbn. rewrite elem_of_union, elem_of_singleton.
      fold (index_at idx (key (hdr e))). rewrite H1. split.
      * intros [->|(e' & He' & Hk)].
        -- exists e. by rewrite lookup_insert_eq.
        -- exists e'. rewrite lookup_insert_ne; [done|]. by intros ->; simplify_eq.
      * intros (e' & He' & Hk). destruct (decide (x = h)) as [->|Hx]; [by left|right].
        rewrite lookup_insert_ne in He' by done. by exists e'.
    + rewrite lookup_insert_ne by done. fold (index_at idx k). rewrite H1. split.
      * intros (e' & He' & <-). exists e'. rewrite lookup_insert_ne; [done|].
        by intros ->; simplify_eq.
      * intros (e' & He' & <-). destruct (decide (x = h)) as [->|Hx].
        -- rewrite lookup_insert_eq in He'. by simplify_eq.
        -- rewrite lookup_insert_ne in He' by done. by exists e'.
  - intros k. unfold index_insert. destruct (decide (k = key (hdr e))) as [->|Hk].
    + rewrite lookup_insert_eq. intros [= Hu]. set_solver.
    + by rewrite lookup_insert_ne.
Qed.

Lemma index_remove_at idx k h k' :
  index_at (index_remove k h idx) k' =
  if decide (k' = k) then index_at idx k ∖ {[h]} else index_at idx k'.
Proof.
  unfold index_at, index_remove. destruct (idx !! k) as [s|] eqn:Hs.
  - cbn. repeat case_decide; subst; rewrite ?lookup_delete_eq, ?lookup_insert_eq, ?Hs; cbn;
      rewrite ?lookup_delete_ne, ?lookup_insert_ne by done; congruence || set_solver.
  - case_decide; subst; rewrite ?Hs; cbn; set_solver.
Qed.

Lemma index_remove_ok key m idx h e :
  m !! h = Some e → index_ok key m idx →
  index_ok key (delete h m) (index_remove (key (hdr e)) h idx).
Proof.
  intros He [H1 H2]. split.
  - intros k x. rewrite index_remove_at. case_decide as Hk.
    + rewrite elem_of_difference, elem_of_singleton, H1. subst. split.
      * intros ((e' & He' & Hk) & Hx). exists e'. by rewrite lookup_delete_ne.
      * intros (e' & [Hx He']%lookup_delete_Some & Hk). split; [by exists e'|done].
    + rewrite H1. split.
      * intros (e' & He' & <-). exists e'. rewrite lookup_delete_ne; [done|].
        intros ->. congruence.
      * intros (e' & [Hx He']%lookup_delete_Some & <-). by exists e'.
  - intros k Hk. destruct (decide (k = key (hdr e))) as [->|Hne].
    + unfold index_remove in Hk. destruct (idx !! key (hdr e)) as [s|] eqn:Hs; [|by rewrite Hs in Hk].
      case_decide as Hd; [by rewrite lookup_delete_eq in Hk|].
      rewrite lookup_insert_eq in Hk. congruence.
    + apply (H2 k). rewrite <- Hk. unfold index_remove.
      destruct (idx !! key (hdr e)) as [s|]; [|done].
      case_decide; by rewrite ?lookup_delete_ne, ?lookup_insert_ne.
Qed.

(** ** Changing states *)

(** Maps that differ in chain states only. *)
Definition same_but_state m m' : Prop :=
  ∀ h, set_state Onchain <$> m !! h = set_state Onchain <$> m' !! h.

Lemma same_but_state_lookup m m' h e :
  same_but_state m m' → m !! h = Some e →
  ∃ e', m' !! h = Some e' ∧ set_state Onchain e' = set_state Onchain e.
Proof.
  intros Hs He. specialize (Hs h). rewrite He in Hs. destruct (m' !! h) as [e'|]; [|done].
  exists e'. split; [done|]. cbn in Hs. congruence.
Qed.

Lemma same_but_state_sym m m' : same_but_state m m' → same_but_state m' m.
Proof. intros Hs h. by rewrite Hs. Qed.
Lemma same_but_state_trans m m' m'' :
  same_but_state m m' → same_but_state m' m'' → same_but_state m m''.
Proof. intros Hs Hs' h. by rewrite Hs. Qed.

Lemma same_but_state_insert m h e s :
  m !! h = Some e → same_but_state m (<[h := set_state s e]> m).
Proof.
  intros He k. destruct (decide (k = h)) as [->|Hne].
  - by rewrite lookup_insert_eq, He.
  - by rewrite lookup_insert_ne.
Qed.

Lemma same_but_state_headers m m' : same_but_state m m' → same_headers m m'.
Proof.
  intros Hs h. specialize (Hs h). destruct (m !! h) as [e|], (m' !! h) as [e'|]; try done.
  cbn in *. injection Hs as Hs. intros. f_equal. unfold hdr. congruence.
Qed.

Lemma children_ok_state m m' : same_but_state m m' → children_ok m → children_ok m'.
Proof.
  intros Hs Hc p e c He.
  pose proof (same_headers_sym _ _ (same_but_state_headers _ _ Hs)) as Hh.
  destruct (same_but_state_lookup _ _ _ _ (same_but_state_sym _ _ Hs) He) as (e0 & He0 & Heq).
  assert (children e = children e0) as -> by congruence || (by injection Heq).
  rewrite (Hc p e0 c He0). split; intros (ce & Hce & <-).
  - destruct (same_headers_lookup _ _ _ _ (same_headers_sym _ _ Hh) Hce) as (ce' & Hce' & Hq).
    exists ce'. split; [done|]. unfold parent. by rewrite Hq.
  - destruct (same_headers_lookup _ _ _ _ Hh Hce) as (ce' & Hce' & Hq).
    exists ce'. split; [done|]. unfold parent. by rewrite Hq.
Qed.

Lemma rooted_same_headers m m' r : same_headers m m' → rooted m r → rooted m' r.
Proof.
  intros Hs Hr h [e He].
  destruct (same_headers_lookup _ _ _ _ (same_headers_sym _ _ Hs) He) as (e0 & He0 & _).
  apply (anc_same_headers m m'); [done|]. apply Hr. by eexists.
Qed.

Lemma max_ok_state m m' mx : same_but_state m m' → max_ok m mx → max_ok m' mx.
Proof.
  intros Hs (e & He & Hd & Hall).
  destruct (same_but_state_lookup _ _ _ _ Hs He) as (e' & He' & Heq). exists e'.
  assert (hdr e' = hdr e ∧ insertion_sequence e' = insertion_sequence e) as [-> ->].
  { unfold hdr. injection Heq. intros. split; congruence. }
  split_and!; [done..|]. intros h x Hx.
  destruct (same_but_state_lookup _ _ _ _ (same_but_state_sym _ _ Hs) Hx) as (x0 & Hx0 & Heq0).
  assert (hdr x0 = hdr x ∧ insertion_sequence x0 = insertion_sequence x) as [Hh Hq].
  { unfold hdr. injection Heq0. intros. split; congruence. }
  rewrite <- Hh, <- Hq. by apply (Hall h).
Qed.

Lemma seq_ok_state m m' nx : same_but_state m m' → seq_ok m nx → seq_ok m' nx.
Proof.
  intros Hs Hq h e He.
  destruct (same_but_state_lookup _ _ _ _ (same_but_state_sym _ _ Hs) He) as (e0 & He0 & Heq).
  assert (insertion_sequence e = insertion_sequence e0) as -> by (by injection Heq).
  by apply (Hq h).
Qed.

(** States may change freely as long as exactly the tip's ancestry ends up [Onchain]. *)
Lemma core_ok_restate t m tp :
  core_ok t → same_but_state (blocks t) m → is_Some (m !! tp) → states_ok m tp →
  core_ok (with_tip (with_blocks t m) tp).
Proof.
  intros [Hl Hc [r Hr] Ht Hst Hhi Hso Hmx Hsq] Hs Htp Hstates.
  pose proof (same_but_state_headers _ _ Hs) as Hh.
  constructor; cbn; try done.
  - by eapply links_ok_same_headers.
  - by eapply children_ok_state.
  - exists r. by eapply rooted_same_headers.
  - by eapply index_ok_same_headers.
  - by eapply index_ok_same_headers.
  - by eapply max_ok_state.
  - by eapply seq_ok_state.
Qed.
End BlockTreeInv.

(** * Adding a block and recording its validation keep the invariant of the tree. *)

#[local] Open Scope N_scope.

Section BlockTreeAdd.
  Context {Body CommitmentSnapshot EpochSnapshot EmaSnapshot : Type}.
  Notation Meta := (@BlockMetadata Body CommitmentSnapshot EpochSnapshot EmaSnapshot).
  Notation Tree := (@BlockTree Body CommitmentSnapshot EpochSnapshot EmaSnapshot).
  Notation Sealed := (@SealedBlock Body).
  Implicit Types (t : Tree) (m : gmap N Meta) (e : Meta).

(** A block the tree can take: not there yet, child of a block that is there, with the
    height, difficulty and VDF step pre-validation requires of a child, and not itself
    named as a parent by a block of the tree. *)
Record add_ok t (b : Sealed) : Prop := {
  ao_new : blocks t !! block_hash (header b) = None;
  ao_parent : ∃ p, blocks t !! previous_block_hash (header b) = Some p ∧
    height (header b) = height (hdr p) + 1 ∧
    cumulative_diff (hdr p) < cumulative_diff (header b) ∧
    global_step_number (hdr p) < global_step_number (header b);
  ao_leaf : ∀ h e, blocks t !! h = Some e → parent e ≠ block_hash (header b);
  ao_seq : next_insertion_sequence t + 1 < 2 ^ 64
}.

Lemma anc_insert_leaf m h e a b :
  m !! h = None → (∀ k e', m !! k = Some e' → parent e' ≠ h) →
  anc (<[h := e]> m) a b ↔ if decide (b = h) then a = h ∨ anc m a (parent e) else anc m a b.
Proof.
  intros Hn Hl. split.
  - induction 1 as [b eb Hb|a b eb Hb Ha IH]; destruct (decide (b = h)) as [->|Hbh].
    + by left.
    + rewrite lookup_insert_ne in Hb by done. by eapply anc_refl.
    + rewrite lookup_insert_eq in Hb. injection Hb as ->. case_decide as Hp; [|by right].
      destruct IH as [->|IH]; [by left|]. by right.
    + rewrite lookup_insert_ne in Hb by done. case_decide as Hp.
      * by apply Hl in Hb.
      * by eapply anc_up.
  - assert (∀ x, anc m a x → anc (<[h := e]> m) a x) as Hmono.
    { intros x. induction 1 as [x ex Hx|a x ex Hx _ IH].
      - eapply anc_refl. rewrite lookup_insert_ne; [done|]. by intros ->; simplify_eq.
      - eapply anc_up; [|exact IH]. rewrite lookup_insert_ne; [done|]. by intros ->; simplify_eq. }
    case_decide as Hbh; [subst|by apply Hmono]. intros [->|Ha].
    + eapply anc_refl. by rewrite lookup_insert_eq.
    + eapply anc_up; [by rewrite lookup_insert_eq|]. by apply Hmono.
Qed.

(** The blocks after a new leaf: its parent knows it, nothing else changes. *)
Definition add_leaf m (h : N) e : gmap N Meta :=
  <[h := e]> (alter (set_children (fun c => {[h]} ∪ c)) (parent e) m).

Section AddLeaf.
  Context (m : gmap N Meta) (h : N) (e p : Meta).
  Context (Hl : links_ok m) (Hn : m !! h = None) (Hh : block_hash (hdr e) = h).
  Context (Hp : m !! parent e = Some p).
  Context (Hleaf : ∀ k e', m !! k = Some e' → parent e' ≠ h).

#[local] Notation m1 := (alter (set_children (fun c => {[h]} ∪ c)) (parent e) m).

Lemma add_leaf_m1_headers : same_headers m m1.
Proof. by apply same_headers_alter. Qed.

Lemma add_leaf_m1_none : m1 !! h = None.
Proof.
  rewrite lookup_alter_None. done.
Qed.

Lemma add_leaf_m1_parents k e' : m1 !! k = Some e' → parent e' ≠ h.
Proof.
  intros Hk.
  destruct (same_headers_lookup _ _ _ _ (same_headers_sym _ _ add_leaf_m1_headers) Hk)
    as (e0 & He0 & Hq). unfold parent. rewrite <- Hq. by apply (Hleaf k).
Qed.

Lemma anc_add_leaf a b :
  anc (add_leaf m h e) a b ↔
  if decide (b = h) then a = h ∨ anc m a (parent e) else anc m a b.
Proof.
  unfold add_leaf. rewrite anc_insert_leaf by (apply add_leaf_m1_none || apply add_leaf_m1_parents).
  by case_decide; rewrite <- (anc_same_headers_iff _ _ _ _ add_leaf_m1_headers).
Qed.

Lemma links_ok_add_leaf :
  height (hdr e) = height (hdr p) + 1 → cumulative_diff (hdr p) < cumulative_diff (hdr e) →
  global_step_number (hdr p) < global_step_number (hdr e) → links_ok (add_leaf m h e).
Proof.
  intros H1 H2 H3. pose proof (links_ok_same_headers _ _ add_leaf_m1_headers Hl) as [Hk1 Hk2].
  unfold add_leaf. constructor.
  - intros k ek. destruct (decide (k = h)) as [->|Hne].
    + rewrite lookup_insert_eq. by intros [= <-].
    + rewrite lookup_insert_ne by done. apply Hk1.
  - intros k ek pk. destruct (decide (k = h)) as [->|Hne].
    + rewrite lookup_insert_eq. intros [= <-].
      rewrite lookup_insert_ne by congruence. rewrite lookup_alter_eq, Hp. by intros [= <-].
    + rewrite lookup_insert_ne by done. intros Hk.
      rewrite lookup_insert_ne by (intros Heq; by apply add_leaf_m1_parents in Hk).
      by apply Hk2 with (h := k).
Qed.

Lemma children_ok_add_leaf : children e = ∅ → children_ok m → children_ok (add_leaf m h e).
Proof.
  intros He Hc q eq c Hq. unfold add_leaf in *.
  assert (∀ c, (∃ ce, <[h:=e]> m1 !! c = Some ce ∧ parent ce = q) ↔
    (c = h ∧ parent e = q) ∨ (c ≠ h ∧ ∃ ce, m !! c = Some ce ∧ parent ce = q)) as Hex.
  { intros c'. destruct (decide (c' = h)) as [->|Hne].
    - rewrite lookup_insert_eq. naive_solver.
    - rewrite lookup_insert_ne by done. split.
      + intros (ce & Hce & Hpq). right. split; [done|].
        destruct (same_headers_lookup _ _ _ _ (same_headers_sym _ _ add_leaf_m1_headers) Hce)
          as (ce0 & Hce0 & Hhq). exists ce0. unfold parent in *. by rewrite Hhq.
      + intros [[-> _]|(_ & ce & Hce & Hpq)]; [done|].
        destruct (same_headers_lookup _ _ _ _ add_leaf_m1_headers Hce) as (ce0 & Hce0 & Hhq).
        exists ce0. unfold parent in *. by rewrite Hhq. }
  rewrite Hex. destruct (decide (q = h)) as [->|Hqh].
  - rewrite lookup_insert_eq in Hq. injection Hq as <-. rewrite He.
    split; [set_solver|]. intros [[-> Hpe]|(_ & ce & Hce & Hpq)].
    + rewrite Hpe in Hp. congruence.
    + by apply Hleaf in Hce.
  - rewrite lookup_insert_ne in Hq by done. destruct (decide (q = parent e)) as [->|Hqp].
    + rewrite lookup_alter_eq, Hp in Hq. injection Hq as <-. cbn.
      rewrite elem_of_union, elem_of_singleton, (Hc _ _ c Hp). split.
      * intros [->|(ce & Hce & Hpq)]; [by left|right]. split; [|by exists ce]. congruence.
      * intros [[-> _]|(_ & Hce)]; [by left|by right].
    + rewrite lookup_alter_ne in Hq by done. rewrite (Hc _ _ c Hq). split.
      * intros (ce & Hce & Hpq). right. split; [|by exists ce]. congruence.
      * intros [[_ Hpe]|(_ & Hce)]; [congruence|done].
Qed.

Lemma rooted_add_leaf r : rooted m r → rooted (add_leaf m h e) r.
Proof.
  intros Hr k Hk. rewrite anc_add_leaf. case_decide as Hkh.
  - right. apply Hr. by eexists.
  - apply Hr. unfold add_leaf in Hk. rewrite lookup_insert_ne in Hk by done.
    destruct Hk as [ek Hk].
    destruct (same_headers_lookup _ _ _ _ (same_headers_sym _ _ add_leaf_m1_headers) Hk)
      as (e0 & He0 & _). by eexists.
Qed.

(** Blocks that were there keep all but their children. *)
Lemma add_leaf_lookup k ek :
  add_leaf m h e !! k = Some ek →
  (k = h ∧ ek = e) ∨
  (k ≠ h ∧ ∃ e0, m !! k = Some e0 ∧ hdr ek = hdr e0 ∧ chain_state ek = chain_state e0 ∧
     insertion_sequence ek = insertion_sequence e0).
Proof.
  unfold add_leaf. destruct (decide (k = h)) as [->|Hne].
  - rewrite lookup_insert_eq. intros [= <-]. by left.
  - rewrite lookup_insert_ne by done. intros Hk. right. split; [done|].
    destruct (decide (k = parent e)) as [->|Hkp].
    + rewrite lookup_alter_eq, Hp in Hk. injection Hk as <-. by exists p.
    + rewrite lookup_alter_ne in Hk by done. by exists ek.
Qed.

Lemma add_leaf_keeps k e0 :
  m !! k = Some e0 →
  ∃ ek, add_leaf m h e !! k = Some ek ∧ hdr ek = hdr e0 ∧ chain_state ek = chain_state e0 ∧
     insertion_sequence ek = insertion_sequence e0.
Proof.
  intros Hk. unfold add_leaf. rewrite lookup_insert_ne by congruence.
  destruct (decide (k = parent e)) as [->|Hkp].
  - rewrite lookup_alter_eq, Hp. exists (set_children (fun c => {[h]} ∪ c) p). split; [done|].
    assert (p = e0) as -> by congruence. done.
  - rewrite lookup_alter_ne by done. by exists e0.
Qed.
End AddLeaf.

(** [add_common] on a block the tree can take, with the state the caller gives it. *)
Lemma add_common_new t b cs es ema st now :
  add_ok t b →
  add_common t (block_hash (header b)) b cs es ema st now =
  (update_longest_chain_cache
     (mkBlockTree
        (add_leaf (blocks t) (block_hash (header b))
           (mkMeta b st now ∅ es cs ema (next_insertion_sequence t)))
        (index_insert (solution_hash (header b)) (block_hash (header b)) (solutions t))
        (tip t)
        (if (max_cumulative_difficulty t).1 <? cumulative_diff (header b)
         then (cumulative_diff (header b), block_hash (header b))
         else max_cumulative_difficulty t)
        (next_insertion_sequence t + 1)
        (index_insert (height (header b)) (block_hash (header b)) (height_index t))
        (longest_chain_cache t) (block_tree_depth t) (block_migration_depth t)), Ok tt).
Proof.
  intros [Hn (p & Hp & Hht & _) Hleaf Hseq]. unfold add_common. rewrite Hp.
  set (h := block_hash (header b)) in *.
  assert (previous_block_hash (header b) ≠ h) as Hne by congruence.
  set (t1 := with_indices _ _ _).
  assert (blocks (if (max_cumulative_difficulty t1).1 <? cumulative_diff (header b)
     then with_max t1 (cumulative_diff (header b), h) else t1) !! h = None) as ->.
  { destruct (_ <? _); cbn; by rewrite lookup_insert_ne. }
  assert (next_insertion_sequence (if (max_cumulative_difficulty t1).1 <? cumulative_diff (header b)
     then with_max t1 (cumulative_diff (header b), h) else t1) = next_insertion_sequence t) as ->.
  { by destruct (_ <? _). }
  destruct (N.ltb_spec (next_insertion_sequence t + 1) (2 ^ 64)); [|lia].
  assert (alter (set_children (fun c => {[h]} ∪ c)) (previous_block_hash (header b)) (blocks t) =
    <[previous_block_hash (header b) := set_children (fun c => {[h]} ∪ c) p]> (blocks t)) as Hal.
  { apply map_eq. intros k. destruct (decide (k = previous_block_hash (header b))) as [->|Hk].
    - by rewrite lookup_alter_eq, lookup_insert_eq, Hp.
    - by rewrite lookup_alter_ne, lookup_insert_ne. }
  unfold add_leaf, parent, hdr. cbn [entry_block]. rewrite Hal.
  cbn [max_cumulative_difficulty t1 with_indices with_blocks].
  by destruct (_ <? _).
Qed.

(** A new block that is not [Onchain] keeps the invariant. *)
Lemma add_common_ok t b cs es ema st now :
  tree_ok t → add_ok t b → st ≠ Onchain →
  ∃ t', add_common t (block_hash (header b)) b cs es ema st now = (t', Ok tt) ∧ tree_ok t' ∧
    tip t' = tip t ∧ block_tree_depth t' = block_tree_depth t ∧
    next_insertion_sequence t' = next_insertion_sequence t + 1 ∧
    blocks t' = add_leaf (blocks t) (block_hash (header b))
                  (mkMeta b st now ∅ es cs ema (next_insertion_sequence t)).
Proof.
  intros [[Hl Hc [r Hr] Ht Hst Hhi Hso Hmx Hsq] _] Hadd Hnon.
  rewrite add_common_new by done. eexists. split; [done|]. rewrite update_cache_eq at 2 3 4 5.
  split_and!; try done. destruct Hadd as [Hn (p & Hp & H1 & H2 & H3) Hleaf Hseq].
  set (h := block_hash (header b)) in *.
  set (e := mkMeta b st now ∅ es cs ema (next_insertion_sequence t)).
  assert (block_hash (hdr e) = h) as Hh by done.
  apply update_cache_ok. constructor; cbn.
  - by eapply links_ok_add_leaf.
  - by eapply children_ok_add_leaf.
  - exists r. by eapply rooted_add_leaf.
  - destruct Ht as [et Ht].
    destruct (add_leaf_keeps _ h e p Hn Hp _ _ Ht) as (ek & -> & _). by eexists.
  - intros k ek Hk. rewrite (anc_add_leaf _ h e) by done.
    destruct (decide (tip t = h)) as [Heq|_]; [rewrite Heq in Ht; destruct Ht; congruence|].
    destruct (add_leaf_lookup _ h e p Hp _ _ Hk) as [[-> ->]|(Hkh & e0 & He0 & _ & -> & _)].
    + split; [done|]. intros Ha%anc_lookup_l. destruct Ha; congruence.
    + by apply Hst.
  - apply (index_insert_ok height _ _ _ e).
    + rewrite lookup_alter_None. done.
    + eapply index_ok_same_headers; [by apply same_headers_alter|done].
  - apply (index_insert_ok solution_hash _ _ _ e).
    + rewrite lookup_alter_None. done.
    + eapply index_ok_same_headers; [by apply same_headers_alter|done].
  - destruct Hmx as (em & Hem & Hd & Hall). destruct (N.ltb_spec (max_cumulative_difficulty t).1
      (cumulative_diff (header b))) as [Hlt|Hge].
    + exists e. split_and!; [by apply lookup_insert_eq|done|]. intros k ek Hk.
      destruct (add_leaf_lookup _ h e p Hp _ _ Hk) as [[-> ->]|(Hkh & e0 & He0 & -> & _ & ->)];
        [split; intros; apply N.le_refl|]. destruct (Hall k e0 He0). cbn. lia.
    + destruct (add_leaf_keeps _ h e p Hn Hp _ _ Hem) as (em' & Hem' & Heq & _ & Hsq').
      exists em'. rewrite Heq, Hsq'. split_and!; [done..|]. intros k ek Hk.
      destruct (add_leaf_lookup _ h e p Hp _ _ Hk) as [[-> ->]|(Hkh & e0 & He0 & -> & _ & ->)].
      * cbn. split; [done|]. intros _. apply Hsq in Hem. lia.
      * by apply (Hall k).
  - intros k ek Hk. destruct (add_leaf_lookup _ h e p Hp _ _ Hk)
      as [[-> ->]|(_ & e0 & He0 & _ & _ & ->)]; [cbn; lia|]. apply Hsq in He0. lia.
Qed.

Lemma add_block_new t b cs es ema now :
  add_ok t b →
  add_block t b cs es ema now =
  add_common t (block_hash (header b)) b cs es ema (NotOnchain Unknown) now.
Proof. intros Hadd. unfold add_block. by rewrite (ao_new _ _ Hadd). Qed.

(** ** Validation states *)

(** Setting a state that is not [Onchain] on a block that is not [Onchain]. *)
Lemma restate_ok t h e st :
  tree_ok t → blocks t !! h = Some e → chain_state e ≠ Onchain → st ≠ Onchain →
  tree_ok (update_longest_chain_cache (with_blocks t (<[h := set_state st e]> (blocks t)))).
Proof.
  intros [Hco _] He Hne Hst. pose proof Hco as [_ _ _ Htip Hstates _ _ _ _].
  pose proof (same_but_state_insert (blocks t) h e st He) as Hs.
  apply update_cache_ok.
  change (core_ok (with_tip (with_blocks t (<[h := set_state st e]> (blocks t))) (tip t))).
  apply core_ok_restate; try done.
  - destruct Htip as [et Het].
    destruct (same_but_state_lookup _ _ _ _ Hs Het) as (e' & -> & _). by eexists.
  - intros k ek Hk. rewrite <- (anc_same_headers_iff _ _ _ _ (same_but_state_headers _ _ Hs)).
    destruct (decide (k = h)) as [->|Hkh].
    + rewrite lookup_insert_eq in Hk. injection Hk as <-. cbn. split; [done|].
      intros Ha. by apply (Hstates h e He) in Ha.
    + rewrite lookup_insert_ne in Hk by done. by apply Hstates.
Qed.

Lemma mark_scheduled_ok t h : tree_ok t → tree_ok (mark_block_as_validation_scheduled t h).
Proof.
  intros Ht. unfold mark_block_as_validation_scheduled.
  destruct (blocks t !! h) as [e|] eqn:He; [|done].
  destruct (chain_state e) as [|[]|[]] eqn:Hst; try done; apply restate_ok; congruence || done.
Qed.

Lemma mark_valid_ok t h : tree_ok t → tree_ok (mark_block_as_valid t h).1.
Proof.
  intros Ht. unfold mark_block_as_valid.
  destruct (blocks t !! h) as [e|] eqn:He; [|done].
  destruct (chain_state e) as [|[]|[]] eqn:Hst; cbn; try done; apply restate_ok; congruence || done.
Qed.
End BlockTreeAdd.
