(* ===== verification/BlockTreeTip.v ===== *)
(** Moving the tip: [mark_off_chain], [mark_on_chain] and [mark_tip]. *)

From S2P Require Import Prelude BlockTree Lineage BlockTreeInv.
From stdpp Require Import gmap.

#[local] Open Scope N_scope.

Section BlockTreeTip.
  Context `{HashOrder}.
  Context {Body CommitmentSnapshot EpochSnapshot EmaSnapshot : Type}.
  Notation Meta := (@BlockMetadata Body CommitmentSnapshot EpochSnapshot EmaSnapshot).
  Notation Tree := (@BlockTree Body CommitmentSnapshot EpochSnapshot EmaSnapshot).
  Implicit Types (m : gmap N Meta) (e : Meta).

(** ** Downward paths *)

(** [path_down m y ys t]: the blocks below [y] on the way to its descendant [t]. *)
Fixpoint path_down m (y : N) (ys : list N) (t : N) : Prop :=
  match ys with
  | [] => y = t
  | c :: ys' => (∃ ec, m !! c = Some ec ∧ parent ec = y) ∧ path_down m c ys' t
  end.

Lemma path_down_snoc m y ys p t e :
  path_down m y ys p → m !! t = Some e → parent e = p → path_down m y (ys ++ [t]) t.
Proof.
  revert y. induction ys as [|c ys IH]; intros y; cbn.
  - intros -> He Hp. split; [by exists e|done].
  - intros [Hc Hd] He Hp. split; [done|by apply IH].
Qed.

Lemma anc_path_down m y t : anc m y t → ∃ ys, path_down m y ys t.
Proof.
  induction 1 as [h e He|y h e He _ [ys IH]]; [by exists []|].
  exists (ys ++ [h]). by eapply path_down_snoc.
Qed.

Lemma path_down_anc m y ys t : is_Some (m !! y) → path_down m y ys t → anc m y t.
Proof.
  revert y. induction ys as [|c ys IH]; intros y [ey Hy]; cbn.
  - intros ->. by eapply anc_refl.
  - intros [(ec & Hc & Hp) Hd]. eapply anc_trans; [|apply IH; [by eexists|exact Hd]].
    eapply anc_up; [exact Hc|]. rewrite Hp. by eapply anc_refl.
Qed.

Lemma path_down_elem m y ys t k :
  links_ok m → is_Some (m !! y) → path_down m y ys t →
  k ∈ ys ↔ anc m k t ∧ anc m y k ∧ k ≠ y.
Proof.
  intros Hm. revert y k. induction ys as [|c ys IH]; intros y k Hy; cbn.
  - intros ->. split; [by intros ?%elem_of_nil|]. intros (Ha & Hb & Hne).
    by destruct Hne; apply (anc_antisym m Hm).
  - intros [(ec & Hc & Hp) Hd].
    assert (is_Some (m !! c)) as Hcs by (by eexists).
    pose proof (path_down_anc m c ys t Hcs Hd) as Hct.
    assert (anc m y c) as Hyc.
    { eapply anc_up; [done|]. rewrite Hp. destruct Hy. by eapply anc_refl. }
    rewrite elem_of_cons, (IH c k Hcs Hd). split.
    + intros [->|(Hk & Hck & Hne)]; split_and!; try done.
      * intros ->. rewrite <- Hp in Hc. by apply (parent_ne m Hm _ ec Hc).
      * by eapply anc_trans.
      * intros ->. apply Hne. by apply (anc_antisym m Hm).
    + intros (Hk & Hyk & Hne). destruct (decide (k = c)) as [|Hkc]; [by left|right].
      split_and!; [done| |done]. destruct (anc_linear m k c t Hk Hct) as [Hkc'|]; [|done].
      apply (anc_inv m k c ec Hc) in Hkc' as [->|Hkp]; [done|]. rewrite Hp in Hkp.
      by destruct Hne; apply (anc_antisym m Hm).
Qed.

Lemma path_down_nodup m y ys t :
  links_ok m → is_Some (m !! y) → path_down m y ys t → NoDup ys.
Proof.
  intros Hm. revert y. induction ys as [|c ys IH]; intros y Hy; [constructor|].
  cbn. intros [(ec & Hc & Hp) Hd]. assert (is_Some (m !! c)) as Hcs by (by eexists).
  constructor; [|by eapply IH].
  intros Hin. by apply (path_down_elem m c ys t c Hm Hcs Hd) in Hin as (_ & _ & ?).
Qed.

Lemma path_down_size m y ys t :
  links_ok m → is_Some (m !! y) → path_down m y ys t → (length ys ≤ size m)%nat.
Proof.
  intros Hm Hy Hd. rewrite <- size_dom.
  rewrite <- (size_list_to_set (C:=gset N)) by (by eapply path_down_nodup).
  apply subseteq_size. intros k. rewrite elem_of_list_to_set.
  rewrite (path_down_elem m y ys t k Hm Hy Hd). intros (Hk & _ & _).
  apply elem_of_dom. by eapply anc_lookup_l.
Qed.

(** ** [mark_off_chain] *)

Definition onchain m (k : N) : Prop := ∃ e, m !! k = Some e ∧ chain_state e = Onchain.

Lemma is_onchain_true s : is_onchain s = true ↔ s = Onchain.
Proof. by destruct s. Qed.
Lemma is_onchain_false s : is_onchain s = false ↔ s ≠ Onchain.
Proof. by destruct s. Qed.

(** The old branch, off the chain. *)
Definition off_all (ys : list N) m : gmap N Meta :=
  foldl (fun m k => alter (set_state (Validated ValidBlock)) k m) m ys.

Lemma off_all_lookup ys m k :
  off_all ys m !! k =
  if decide (k ∈ ys) then set_state (Validated ValidBlock) <$> m !! k else m !! k.
Proof.
  unfold off_all. revert m. induction ys as [|y ys IH]; intros m; cbn; [done|].
  rewrite IH. destruct (decide (k = y)) as [->|Hne].
  - rewrite lookup_alter_eq. rewrite (decide_True (P := y ∈ y :: ys)) by left.
    case_decide; [|done]. by destruct (m !! y).
  - rewrite lookup_alter_ne by done. repeat case_decide; try done; set_solver.
Qed.

Lemma off_chain_skip fuel m l x :
  (∀ c, c ∈ l → c = x ∨ ¬ onchain m c) →
  foldl (fun m child =>
           if child =? x then m
           else match m !! child with
                | Some entry =>
                    if is_onchain (chain_state entry) then
                      mark_off_chain_fuel fuel
                        (<[child := set_state (Validated ValidBlock) entry]> m)
                        (children entry) x
                    else m
                | None => m
                end) m l = m.
Proof.
  induction l as [|c l IH]; intros Hl; [done|]. cbn.
  assert ((if c =? x then m else match m !! c with
    | Some entry => if is_onchain (chain_state entry) then mark_off_chain_fuel fuel
        (<[c := set_state (Validated ValidBlock) entry]> m) (children entry) x else m
    | None => m end) = m) as ->.
  { destruct (N.eqb_spec c x) as [|Hcx]; [done|]. destruct (m !! c) as [e|] eqn:He; [|done].
    destruct (is_onchain (chain_state e)) eqn:Ho; [|done].
    destruct (Hl c) as [?|Hc]; [by left|done|]. destruct Hc. exists e.
    by rewrite <- is_onchain_true. }
  apply IH. intros c' Hc'. apply Hl. by right.
Qed.

Lemma off_all_cons m c e ys :
  m !! c = Some e → off_all (c :: ys) m = off_all ys (<[c := set_state (Validated ValidBlock) e]> m).
Proof.
  intros He. unfold off_all. cbn [foldl]. f_equal. apply map_eq. intros k.
  destruct (decide (k = c)) as [->|Hkc].
  - by rewrite lookup_alter_eq, lookup_insert_eq, He.
  - by rewrite lookup_alter_ne, lookup_insert_ne.
Qed.

(** Besides the next block of the path and [x], no child of [y] is on the chain. *)
Lemma path_siblings_off m0 m x y ey c ec ys t :
  links_ok m0 → children_ok m0 → m0 !! y = Some ey → m0 !! c = Some ec → parent ec = y → path_down m0 c ys t →
  (∀ k ek, m0 !! k = Some ek → parent ek ∈ y :: c :: ys → k ∉ c :: ys → k ≠ x → ¬ onchain m k) →
  ∀ c', c' ∈ iter_set (children ey) → c' ≠ c → c' = x ∨ ¬ onchain m c'.
Proof.
  intros Hm Hch Hy Hec Hp Hd Hoff c' Hc' Hne. destruct (decide (c' = x)) as [|Hcx]; [by left|right].
  rewrite iter_set_perm, elem_of_elements in Hc'.
  apply (Hch y ey c' Hy) in Hc' as (ec' & Hec' & Hp').
  apply (Hoff c' ec' Hec'); [rewrite Hp'; by left| |done].
  intros [->|Hc'y]%elem_of_cons; [done|].
  assert (is_Some (m0 !! c)) as Hcs by (by eexists).
  apply (path_down_elem m0 c ys t c' Hm Hcs Hd) in Hc'y as (_ & Hcc' & _).
  apply (anc_inv m0 c c' ec' Hec') in Hcc' as [->|Hcp]; [done|].
  rewrite Hp', <- Hp in Hcp. by apply (not_anc_parent m0 Hm c ec Hec).
Qed.

(** From a block of the old chain, exactly the rest of the old chain goes off. *)
Lemma mark_off_chain_path fuel m0 m x y ey ys t :
  links_ok m0 → children_ok m0 → same_but_state m0 m → m0 !! y = Some ey →
  path_down m0 y ys t → x ∉ ys → (∀ k, k ∈ ys → onchain m k) →
  (∀ c ec, m0 !! c = Some ec → parent ec ∈ y :: ys → c ∉ ys → c ≠ x → ¬ onchain m c) →
  (length ys < fuel)%nat →
  mark_off_chain_fuel fuel m (children ey) x = off_all ys m.
Proof.
  intros Hm Hch. revert m y ey ys.
  induction fuel as [|fuel IH]; intros m y ey ys Hs Hy Hd Hx Hon Hoff Hf; [lia|].
  cbn [mark_off_chain_fuel]. destruct ys as [|c ys].
  - rewrite off_chain_skip; [done|]. intros c Hc. rewrite iter_set_perm, elem_of_elements in Hc.
    apply (Hch y ey c Hy) in Hc as (ec & Hec & Hp).
    destruct (decide (c = x)) as [|Hcx]; [by left|right].
    apply (Hoff c ec Hec); [rewrite Hp; by left|by apply not_elem_of_nil|done].
  - pose proof (path_down_nodup m0 y _ t Hm ltac:(by eexists) Hd) as [Hcys Hnd]%NoDup_cons.
    destruct Hd as [(ec & Hec & Hp) Hd].
    destruct (Hon c ltac:(by left)) as (e1 & He1 & Hst1).
    destruct (same_but_state_lookup _ _ _ _ Hs Hec) as (e1' & He1' & Heq).
    assert (e1' = e1) as -> by congruence.
    assert (children e1 = children ec) as Hce by congruence || (by injection Heq).
    assert (c ∈ iter_set (children ey)) as Hin.
    { rewrite iter_set_perm, elem_of_elements. apply (Hch y ey c Hy). by exists ec. }
    assert (NoDup (iter_set (children ey))) as Hndi.
    { rewrite iter_set_perm. apply NoDup_elements. }
    pose proof (path_siblings_off m0 m x y ey c ec ys t Hm Hch Hy Hec Hp Hd Hoff) as Hskip.
    apply list_elem_of_split in Hin as (l1 & l2 & Hl). rewrite Hl in *.
    apply NoDup_app in Hndi as (_ & Hdis & [Hc2 _]%NoDup_cons).
    rewrite foldl_app, (off_chain_skip fuel m l1 x).
    2:{ intros c' Hc'. apply Hskip; [by apply elem_of_app; left|]. intros ->.
        apply (Hdis c Hc'). by left. }
    cbn [foldl]. destruct (N.eqb_spec c x) as [->|Hcx]; [by destruct Hx; left|].
    rewrite He1, Hst1. cbn [is_onchain]. rewrite Hce.
    set (m1 := <[c := _]> m).
    assert (∀ k, k ≠ c → onchain m1 k ↔ onchain m k) as Hm1.
    { intros k Hk. unfold onchain, m1. by rewrite lookup_insert_ne. }
    pose proof (off_all_cons m c e1 ys He1) as Hoffall. fold m1 in Hoffall.
    rewrite (IH m1 c ec ys), Hoffall.
    + apply off_chain_skip. intros c' Hc'.
      destruct (Hskip c') as [|Hno]; [set_solver|by intros ->|by left|right].
      intros (e' & He' & Hst'). rewrite off_all_lookup in He'. case_decide as Hd'.
      * destruct (m1 !! c') as [e2|]; [|done]. by injection He' as <-.
      * apply Hno. apply Hm1; [by intros ->|]. by exists e'.
    + eapply same_but_state_trans; [exact Hs|]. by apply same_but_state_insert.
    + done.
    + done.
    + intros Hxy. apply Hx. by right.
    + intros k Hk. apply Hm1; [by intros ->|]. apply Hon. by right.
    + intros k ek Hek Hpk Hky Hkx. destruct (decide (k = c)) as [->|Hkc].
      * intros (e' & He' & Hst'). unfold m1 in He'. rewrite lookup_insert_eq in He'. by simplify_eq.
      * rewrite Hm1 by done. apply (Hoff k ek Hek); [by right| |done]. set_solver.
    + cbn in Hf. lia.
Qed.

(** ** [mark_on_chain] *)

Lemma same_headers_size m m' : same_headers m m' → size m = size m'.
Proof.
  intros Hs. rewrite <- !size_dom. f_equal. apply set_eq. intros k. rewrite !elem_of_dom.
  specialize (Hs k). destruct (m !! k), (m' !! k); try done; split; intros []; done.
Qed.

(** The states of an ancestor that let the tip move over it. *)
Definition tip_ready (s : ChainState) : bool :=
  match s with NotOnchain ValidBlock | Validated _ | Onchain => true | _ => false end.

(** States once [h] is the tip, before and after [h] itself is marked. *)
Definition moved_state (is_anc : bool) (s : ChainState) : ChainState :=
  if is_anc then Onchain else if is_onchain s then Validated ValidBlock else s.

Section MoveTip.
  Context (m0 : gmap N Meta) (tp h r : N).
  Context (Hl : links_ok m0) (Hch : children_ok m0) (Hr : rooted m0 r).
  Context (Htp : is_Some (m0 !! tp)) (Hst : states_ok m0 tp) (Hnew : ¬ anc m0 h tp).

(** The blocks of the new branch already marked when the walk is at [x]. *)
Definition marked (x k : N) : Prop := anc m0 x k ∧ anc m0 k h ∧ k ≠ h.

#[local] Instance marked_dec x k : Decision (marked x k).
Proof using Hl. unfold marked. pose proof (anc_dec m0 x k Hl). pose proof (anc_dec m0 k h Hl). apply _. Qed.

Record stage (x : N) (m : gmap N Meta) : Prop := {
  st_same : same_but_state m0 m;
  st_marked : ∀ k e1, m !! k = Some e1 → marked x k → chain_state e1 = Onchain;
  st_rest : ∀ k e0 e1, m0 !! k = Some e0 → m !! k = Some e1 → ¬ marked x k →
    chain_state e1 = chain_state e0
}.

Record moved (m : gmap N Meta) : Prop := {
  mv_same : same_but_state m0 m;
  mv_new : ∀ k e1, m !! k = Some e1 → anc m0 k h → k ≠ h → chain_state e1 = Onchain;
  mv_rest : ∀ k e0 e1, m0 !! k = Some e0 → m !! k = Some e1 → ¬ (anc m0 k h ∧ k ≠ h) →
    chain_state e1 = moved_state false (chain_state e0)
}.

(** The fork point: [x] is the first block of the new branch, [ys] is the old branch. *)
Section Fork.
  Context (m : gmap N Meta) (x : N) (ex p : Meta) (ys : list N).
  Context (Hx : m0 !! x = Some ex) (Hxh : anc m0 x h) (Hxt : ¬ anc m0 x tp) (Hsg : stage x m).
  Context (Hp : m0 !! parent ex = Some p) (Hpt : anc m0 (parent ex) tp).
  Context (Hys : ∀ k, k ∈ ys ↔ anc m0 k tp ∧ anc m0 (parent ex) k ∧ k ≠ parent ex).

Lemma fork_anc : anc m0 (parent ex) x.
Proof using Hx Hp. eapply anc_up; [exact Hx|by eapply anc_refl]. Qed.

Lemma old_branch_not_new k : k ∈ ys → ¬ anc m0 k h.
Proof using Hl Hx Hxh Hxt Hys.
  intros (Hkt & Hyk & Hky)%Hys Hkh. destruct (anc_linear m0 k x h Hkh Hxh) as [Hkx|Hxk].
  - apply (anc_inv m0 k x ex Hx) in Hkx as [->|Hkp]; [done|].
    by apply Hky; apply (anc_antisym m0 Hl).
  - apply Hxt. by eapply anc_trans.
Qed.

Lemma off_all_moved : moved (off_all ys m).
Proof using Hl Hst Hnew Hx Hxh Hxt Hsg Hp Hpt Hys.
  pose proof fork_anc as Hyx. destruct Hsg as [Hs Hmk Hre]. constructor.
  - eapply same_but_state_trans; [exact Hs|]. intros k. rewrite off_all_lookup.
    case_decide; [|done]. by destruct (m !! k).
  - intros k e1 He1 Hkh Hkne. rewrite off_all_lookup in He1.
    rewrite decide_False in He1 by (intros Hk; by apply (old_branch_not_new k)).
    destruct (decide (marked x k)) as [Hm|Hm]; [by apply (Hmk k e1)|].
    destruct (same_but_state_lookup _ _ _ _ (same_but_state_sym _ _ Hs) He1) as (e0 & He0 & _).
    rewrite (Hre k e0 e1 He0 He1 Hm). apply (Hst k e0 He0).
    destruct (anc_linear m0 k x h Hkh Hxh) as [Hkx|Hxk]; [|by destruct Hm; split].
    apply (anc_inv m0 k x ex Hx) in Hkx as [->|Hkp].
    + destruct Hm. split_and!; [by eapply anc_refl|done|done].
    + by eapply anc_trans.
  - intros k e0 e1 He0 He1 Hkh. rewrite off_all_lookup in He1. unfold moved_state.
    case_decide as Hk.
    + apply Hys in Hk as (Hkt & _). apply (Hst k e0 He0) in Hkt. rewrite Hkt. cbn.
      destruct (m !! k) as [ek|]; [|done]. by injection He1 as <-.
    + rewrite (Hre k e0 e1 He0 He1) by (unfold marked; tauto).
      destruct (is_onchain (chain_state e0)) eqn:Ho; [|done].
      apply is_onchain_true, (Hst k e0 He0) in Ho. destruct Hk. apply Hys.
      destruct (anc_linear m0 k (parent ex) tp Ho Hpt) as [Hky|Hyk].
      * destruct Hkh. split; [|by intros ->]. eapply anc_trans; [exact Hky|]. by eapply anc_trans.
      * split_and!; [done..|]. intros ->. destruct Hkh. split; [exact (anc_trans _ _ _ _ Hyx Hxh)|].
        by intros <-.
Qed.

Lemma old_branch_onchain k : k ∈ ys → onchain m k.
Proof using Hl Hst Hx Hxh Hxt Hsg Hys.
  intros Hk. destruct Hsg as [Hs Hmk Hre]. pose proof Hk as (Hkt & _)%Hys.
  destruct (anc_lookup_l _ _ _ Hkt) as [e0 He0].
  destruct (same_but_state_lookup _ _ _ _ Hs He0) as (e1 & He1 & _). exists e1. split; [done|].
  rewrite (Hre k e0 e1 He0 He1); [by apply (Hst k e0 He0)|]. intros (_ & Hkh & _). by apply (old_branch_not_new k).
Qed.

Lemma old_branch_only c ec :
  m0 !! c = Some ec → parent ec ∈ parent ex :: ys → c ∉ ys → c ≠ x → ¬ onchain m c.
Proof using Hl Hst Hx Hxh Hxt Hsg Hp Hys.
  intros Hec Hpc Hc Hcx (e1 & He1 & Hon). destruct Hsg as [Hs Hmk Hre].
  destruct (decide (marked x c)) as [(Hxc & Hcb & _)|Hm].
  - apply (anc_inv m0 x c ec Hec) in Hxc as [->|Hxp]; [done|].
    apply elem_of_cons in Hpc as [Hpy|(Hpt' & _)%Hys].
    + rewrite Hpy in Hxp. by apply (not_anc_parent m0 Hl x ex Hx).
    + apply Hxt. by eapply anc_trans.
  - rewrite (Hre c ec e1 Hec He1 Hm) in Hon. apply (Hst c ec Hec) in Hon. apply Hc, Hys.
    assert (anc m0 (parent ex) (parent ec)) as Hyp.
    { apply elem_of_cons in Hpc as [->|(_ & ? & _)%Hys]; [by eapply anc_refl|done]. }
    split_and!; [done|by eapply anc_up|]. intros ->. by apply (not_anc_parent m0 Hl (parent ex) ec Hec).
Qed.
End Fork.

(** At the fork point the old branch goes off the chain and every state is final. *)
Lemma mark_off_chain_moved m x ex p :
  m0 !! x = Some ex → anc m0 x h → ¬ anc m0 x tp → stage x m →
  m0 !! parent ex = Some p → anc m0 (parent ex) tp →
  moved (mark_off_chain m (children p) x).
Proof using Hl Hch Hst Hnew.
  intros Hx Hxh Hxt Hsg Hp Hpt. assert (is_Some (m0 !! parent ex)) as Hys by (by eexists).
  destruct (anc_path_down m0 (parent ex) tp Hpt) as [ys Hd].
  assert (∀ k, k ∈ ys ↔ anc m0 k tp ∧ anc m0 (parent ex) k ∧ k ≠ parent ex) as Hys'
    by (intros k; by apply path_down_elem).
  unfold mark_off_chain. pose proof (st_same _ _ Hsg) as Hs.
  assert (walk_fuel_of m = walk_fuel_of m0) as ->.
  { unfold walk_fuel_of. f_equal. symmetry. by apply same_headers_size, same_but_state_headers. }
  rewrite (mark_off_chain_path _ m0 m x (parent ex) p ys tp); try done.
  - by apply (off_all_moved m x ex p).
  - intros (Hxt' & _)%Hys'. done.
  - intros k. by apply (old_branch_onchain m x ex).
  - intros c ec. by apply (old_branch_only m x ex p).
  - pose proof (path_down_size m0 (parent ex) ys tp Hl Hys Hd). unfold walk_fuel_of. lia.
Qed.

Lemma off_chain_parent x ex :
  m0 !! x = Some ex → ¬ anc m0 x tp → is_Some (m0 !! parent ex).
Proof using Hr Htp.
  intros Hx Hxt. assert (anc m0 r x) as Hrx by (apply Hr; by eexists).
  apply (anc_inv m0 r x ex Hx) in Hrx as [<-|Hrp]; [by destruct Hxt; apply Hr|].
  by eapply anc_lookup_r.
Qed.

Lemma marked_parent x ex k :
  m0 !! x = Some ex → anc m0 x h → is_Some (m0 !! parent ex) → marked (parent ex) k ↔ k = parent ex ∨ marked x k.
Proof using Hl.
  intros Hx Hxh [p0 Hp0].
  assert (anc m0 (parent ex) x) as Hpx by (eapply anc_up; [exact Hx|by eapply anc_refl]).
  unfold marked. split.
  - intros (Hpk & Hkh & Hkne). destruct (decide (k = parent ex)) as [|Hkp]; [by left|right].
    split_and!; [|done..]. destruct (anc_linear m0 k x h Hkh Hxh) as [Hkx|]; [|done].
    apply (anc_inv m0 k x ex Hx) in Hkx as [->|Hkp']; [by eapply anc_refl|].
    by destruct Hkp; apply (anc_antisym m0 Hl).
  - intros [->|(Hxk & Hkh & Hkne)].
    + split_and!; [by eapply anc_refl|by eapply anc_trans|]. intros Heqh.
      apply (not_anc_parent m0 Hl x ex Hx). by rewrite Heqh.
    + split_and!; [by eapply anc_trans|done..].
Qed.

(** Marking the parent is the next stage. *)
Lemma stage_up m x ex p0 p :
  m0 !! x = Some ex → anc m0 x h → m0 !! parent ex = Some p0 → stage x m → m !! parent ex = Some p →
  stage (parent ex) (<[parent ex := set_state Onchain p]> m).
Proof using Hl.
  intros Hx Hxh Hp0 [Hs Hmk Hre] Hp.
  assert (∀ k, marked (parent ex) k ↔ k = parent ex ∨ marked x k) as Hmark by (intros k; apply marked_parent; eauto).
  constructor.
  - eapply same_but_state_trans; [exact Hs|]. by apply same_but_state_insert.
  - intros k e1 He1 [->|Hm]%Hmark; [rewrite lookup_insert_eq in He1; by injection He1 as <-|].
    destruct (decide (k = parent ex)) as [->|Hk]; [rewrite lookup_insert_eq in He1; by injection He1 as <-|].
    rewrite lookup_insert_ne in He1 by done. by apply (Hmk k).
  - intros k e0 e1 He0 He1 Hm. rewrite Hmark in Hm.
    rewrite lookup_insert_ne in He1 by (intros <-; apply Hm; by left).
    apply (Hre k); [done..|]. intros ?. apply Hm. by right.
Qed.

(** The walk up: it reaches the fork point and settles every state, or stops at an
    ancestor that is not validated. *)
Lemma mark_on_chain_walk fuel m x ex :
  m0 !! x = Some ex → anc m0 x h → ¬ anc m0 x tp → stage x m →
  (length (lineage m0 x) ≤ fuel)%nat →
  ∃ m', same_but_state m0 m' ∧
   ((mark_on_chain_fuel fuel m (hdr ex) = (m', Ok tt) ∧ moved m' ∧
     ∀ k e0, anc m0 k (parent ex) → m0 !! k = Some e0 → tip_ready (chain_state e0) = true)
    ∨ (mark_on_chain_fuel fuel m (hdr ex) = (m', Err InvalidTip) ∧
       ∃ k e0, anc m0 k (parent ex) ∧ m0 !! k = Some e0 ∧ tip_ready (chain_state e0) = false)).
Proof using Hl Hch Hr Htp Hst Hnew.
  revert m x ex. induction fuel as [|fuel IH]; intros m x ex Hx Hxh Hxt Hsg Hf;
    rewrite (lineage_some m0 x ex Hl Hx) in Hf; cbn [length] in Hf; [lia|].
  destruct (off_chain_parent x ex Hx Hxt) as [p0 Hp0].
  pose proof Hsg as [Hs Hmk Hre]. cbn [mark_on_chain_fuel].
  change (previous_block_hash (hdr ex)) with (parent ex).
  destruct (same_but_state_lookup _ _ _ _ Hs Hp0) as (p & Hp & Heq). rewrite Hp.
  assert (¬ marked x (parent ex)) as Hnm
    by (intros (Hxp & _); by apply (not_anc_parent m0 Hl x ex Hx)).
  rewrite (Hre _ _ _ Hp0 Hp Hnm).
  assert (children p = children p0 ∧ hdr p = hdr p0) as [Hcp Hhp].
  { injection Heq. intros. unfold hdr. split; congruence. }
  rewrite (lk_hash m0 Hl x ex Hx).
  assert (∀ s, tip_ready s = true → s ≠ Onchain → chain_state p0 = s →
    ∃ m', same_but_state m0 m' ∧
     ((mark_on_chain_fuel fuel (<[parent ex := set_state Onchain p]> m) (hdr p) = (m', Ok tt) ∧
       moved m' ∧
       ∀ k e0, anc m0 k (parent ex) → m0 !! k = Some e0 → tip_ready (chain_state e0) = true)
      ∨ (mark_on_chain_fuel fuel (<[parent ex := set_state Onchain p]> m) (hdr p) =
           (m', Err InvalidTip) ∧
         ∃ k e0, anc m0 k (parent ex) ∧ m0 !! k = Some e0 ∧
           tip_ready (chain_state e0) = false))) as Hup.
  { intros s Hsr Hson Hps. rewrite Hhp.
    assert (¬ anc m0 (parent ex) tp) as Hpt.
    { intros Ha. apply (Hst _ _ Hp0) in Ha. congruence. }
    assert (anc m0 (parent ex) h) as Hph.
    { eapply anc_trans; [|exact Hxh]. eapply anc_up; [exact Hx|by eapply anc_refl]. }
    destruct (IH (<[parent ex := set_state Onchain p]> m) (parent ex) p0) as (m' & Hs' & Hres);
      [done..|by apply (stage_up m x ex p0 p)|lia|].
    exists m'. split; [done|]. destruct Hres as [(Hok & Hmv & Hrd)|(Herr & k & e0 & Hk & He0 & Hb)].
    - left. split_and!; [done..|]. intros k e0 Hk He0.
      apply (anc_inv m0 k (parent ex) p0 Hp0) in Hk as [->|Hk].
      + assert (e0 = p0) as -> by congruence. by rewrite Hps.
      + by apply (Hrd k e0).
    - right. split; [done|]. exists k, e0. split_and!; [|done..]. by eapply anc_up. }
  destruct (chain_state p0) as [|s0|[]] eqn:Hps; try (eapply Hup; [..|reflexivity]; done); clear Hup.
  - eexists. split; [|left; split; [done|split]].
    + apply mv_same. rewrite Hcp. eapply mark_off_chain_moved; try done. by apply (Hst _ _ Hp0).
    + rewrite Hcp. eapply mark_off_chain_moved; try done. by apply (Hst _ _ Hp0).
    + intros k e0 Hk He0. assert (chain_state e0 = Onchain) as ->; [|done].
      apply (Hst k e0 He0). eapply anc_trans; [exact Hk|]. by apply (Hst _ _ Hp0).
  - exists m. split; [done|right]. split; [done|]. exists (parent ex), p0.
    rewrite Hps. split_and!; try done. by eapply anc_refl.
  - exists m. split; [done|right]. split; [done|]. exists (parent ex), p0.
    rewrite Hps. split_and!; try done. by eapply anc_refl.
Qed.

Lemma stage_start : stage h m0.
Proof using Hl.
  constructor; [done|..].
  - intros k e1 He1 (Hhk & Hkh & Hne). by destruct Hne; apply (anc_antisym m0 Hl).
  - intros k e0 e1 He0 He1 _. congruence.
Qed.
End MoveTip.

(** What moving the tip does to the chain states. *)
Definition tip_moved (t t' : Tree) (h : N) : Prop :=
  tip t' = h ∧ same_but_state (blocks t) (blocks t') ∧
  (∀ k e0 e1, blocks t !! k = Some e0 → blocks t' !! k = Some e1 →
     (anc (blocks t) k h → chain_state e1 = Onchain) ∧
     (¬ anc (blocks t) k h → chain_state e1 = moved_state false (chain_state e0))) ∧
  max_cumulative_difficulty t' = max_cumulative_difficulty t ∧
  block_tree_depth t' = block_tree_depth t ∧
  next_insertion_sequence t' = next_insertion_sequence t.

Definition ties_max (t : Tree) (h : N) (e : Meta) : bool :=
  (cumulative_diff (hdr e) =? (max_cumulative_difficulty t).1) &&
  negb ((max_cumulative_difficulty t).2 =? h).

Lemma mark_tip_cases (t : Tree) h e :
  tree_ok t → blocks t !! h = Some e → ¬ anc (blocks t) h (tip t) →
  (ties_max t h e = true ∧ mark_tip t h = (t, Ok false)) ∨
  (ties_max t h e = false ∧
   (∀ k e0, anc (blocks t) k (parent e) → blocks t !! k = Some e0 →
      tip_ready (chain_state e0) = true) ∧
   ∃ t', mark_tip t h = (t', Ok true) ∧ tree_ok t' ∧ tip_moved t t' h) ∨
  (ties_max t h e = false ∧
   (∃ k e0, anc (blocks t) k (parent e) ∧ blocks t !! k = Some e0 ∧
      tip_ready (chain_state e0) = false) ∧
   ∃ t', mark_tip t h = (t', Err InvalidTip)).
Proof.
  intros [Hco Hca] He Hnew. pose proof Hco as [Hl Hch [r Hr] Htp Hst _ _ _ _].
  unfold mark_tip. rewrite He. unfold ties_max.
  destruct (max_cumulative_difficulty t) as [md mh] eqn:Hmax. cbn [fst snd].
  destruct (_ && _) eqn:Htie; [by left|right].
  assert (anc (blocks t) h h) as Hhh by (by eapply anc_refl).
  assert (length (lineage (blocks t) h) ≤ walk_fuel_of (blocks t))%nat as Hf.
  { pose proof (lineage_size (blocks t) h Hl). unfold walk_fuel_of. lia. }
  destruct (mark_on_chain_walk (blocks t) (tip t) h r Hl Hch Hr Htp Hst Hnew _ (blocks t) h e He
    Hhh Hnew (stage_start _ _ Hl) Hf) as (m' & Hs & [(Hok & Hmv & Hrd)|(Herr & Hbad)]).
  - left. split; [done|]. split; [done|]. unfold mark_on_chain. rewrite Hok.
    destruct (N.eqb_spec (tip t) h) as [Heq|_].
    { destruct Hnew. by rewrite Heq. }
    destruct (same_but_state_lookup _ _ _ _ Hs He) as (e' & He' & Heq).
    set (m1 := alter (set_state Onchain) h m').
    assert (same_but_state (blocks t) m1) as Hs1.
    { eapply same_but_state_trans; [exact Hs|]. intros k. unfold m1.
      destruct (decide (k = h)) as [->|Hk]; [by rewrite lookup_alter_eq, He'|].
      by rewrite lookup_alter_ne. }
    assert (∀ k e0 e1, blocks t !! k = Some e0 → m1 !! k = Some e1 →
      (anc (blocks t) k h → chain_state e1 = Onchain) ∧
      (¬ anc (blocks t) k h → chain_state e1 = moved_state false (chain_state e0))) as Hstates.
    { intros k e0 e1 He0 He1. unfold m1 in He1. destruct (decide (k = h)) as [->|Hk].
      - rewrite lookup_alter_eq, He' in He1. injection He1 as <-. by split.
      - rewrite lookup_alter_ne in He1 by done. split; intros Ha.
        + by apply (mv_new _ _ _ Hmv k).
        + apply (mv_rest _ _ _ Hmv k e0 e1 He0 He1). tauto. }
    eexists. split; [done|]. split.
    + apply update_cache_ok. apply core_ok_restate; [done|done|..].
      * unfold m1. rewrite lookup_alter_eq, He'. by eexists.
      * intros k e1 He1. rewrite <- (anc_same_headers_iff _ _ _ _ (same_but_state_headers _ _ Hs1)).
        destruct (same_but_state_lookup _ _ _ _ (same_but_state_sym _ _ Hs1) He1) as (e0 & He0 & _).
        destruct (Hstates k e0 e1 He0 He1) as [H1 H2]. split; [|done]. intros Hon.
        destruct (anc_dec _ k h Hl) as [|Hn]; [done|]. rewrite (H2 Hn) in Hon.
        unfold moved_state in Hon. by destruct (chain_state e0).
    + rewrite update_cache_eq. unfold tip_moved. cbn. split_and!; try done.
  - right. split; [done|]. split; [done|]. unfold mark_on_chain. rewrite Herr. by eexists.
Qed.
End BlockTreeTip.
