(* ===== verification/BlockTreeRemove.v ===== *)
(** Removing blocks: the new difficulty maximum, [delete_block] and [remove_block]. *)

From S2P Require Import Prelude BlockTree Lineage BlockTreeInv BlockTreeTip.
From stdpp Require Import gmap.

#[local] Open Scope N_scope.

Section BlockTreeRemove.
  Context `{HashOrder}.
  Context {Body CommitmentSnapshot EpochSnapshot EmaSnapshot : Type}.
  Notation Meta := (@BlockMetadata Body CommitmentSnapshot EpochSnapshot EmaSnapshot).
  Notation Tree := (@BlockTree Body CommitmentSnapshot EpochSnapshot EmaSnapshot).
  Implicit Types (t : Tree) (m : gmap N Meta) (e : Meta).

(** ** [find_max_difficulty] *)

(** The fork point as a number, [-1] without one. *)
Definition fork_rank m (x : N * Meta) : Z :=
  match canonical_fork_height m x.2 with Some h => Z.of_N h | None => -1 end.

Lemma max_key_lt_iff m a b :
  max_key_lt m a b = true ↔
  insertion_sequence a.2 < insertion_sequence b.2 ∨
  (insertion_sequence a.2 = insertion_sequence b.2 ∧
   ((fork_rank m b < fork_rank m a)%Z ∨ (fork_rank m a = fork_rank m b ∧ a.1 < b.1))).
Proof.
  unfold max_key_lt, fork_rank.
  destruct (N.compare_spec (insertion_sequence a.2) (insertion_sequence b.2)) as [Hs|Hs|Hs].
  - destruct (canonical_fork_height m a.2) as [x|], (canonical_fork_height m b.2) as [y|].
    + destruct (N.compare_spec x y); rewrite ?N.ltb_lt; split; lia.
    + split; lia.
    + split; lia.
    + rewrite N.ltb_lt. split; lia.
  - split; lia.
  - split; lia.
Qed.

Lemma pick_min_spec m l x :
  pick_min m l = Some x → x ∈ l ∧ ∀ y, y ∈ l → max_key_lt m y x = false.
Proof.
  revert x. induction l as [|z l IH]; intros x; cbn; [done|].
  fold (pick_min m l). destruct (pick_min m l) as [y|] eqn:Hy.
  - destruct (IH y eq_refl) as [Hin Hmin].
    destruct (max_key_lt m y z) eqn:Hlt; intros [= <-].
    + split; [by right|]. intros w [->|Hw]%elem_of_cons; [|by apply Hmin].
      apply not_true_iff_false. rewrite max_key_lt_iff in *. lia.
    + split; [by left|]. intros w [->|Hw]%elem_of_cons.
      * apply not_true_iff_false. rewrite max_key_lt_iff. lia.
      * apply Hmin in Hw. apply not_true_iff_false in Hw, Hlt. apply not_true_iff_false.
        rewrite max_key_lt_iff in *. lia.
  - intros [= <-]. split; [by left|]. intros w [->|Hw]%elem_of_cons.
    + apply not_true_iff_false. rewrite max_key_lt_iff. lia.
    + destruct l as [|z' l]; [by apply elem_of_nil in Hw|]. cbn in Hy.
      destruct (foldr _ _ l) as [y'|]; [|done]. by destruct (max_key_lt m y' z').
Qed.

Lemma pick_min_some m l : l ≠ [] → is_Some (pick_min m l).
Proof.
  destruct l as [|z l]; [done|]. intros _. cbn. destruct (foldr _ _ l) as [y|]; [|by eexists].
  destruct (max_key_lt m y z); by eexists.
Qed.

Lemma foldr_max_spec (l : list N) :
  (∀ x, x ∈ l → x ≤ foldr N.max 0 l) ∧ (l ≠ [] → foldr N.max 0 l ∈ l).
Proof.
  induction l as [|y l [IH1 IH2]]; [split; [by intros x ?%elem_of_nil|done]|].
  cbn. split.
  - intros x [->|Hx]%elem_of_cons; [lia|]. apply IH1 in Hx. lia.
  - intros _. destruct (N.max_spec y (foldr N.max 0 l)) as [[Hlt ->]|[_ ->]]; [|by left].
    destruct l as [|z l]; [cbn in Hlt; lia|]. right. by apply IH2.
Qed.

(** The new maximum: highest difficulty, then earliest insertion, then highest fork
    point with the canonical chain, then smallest hash. *)
Lemma find_max_difficulty_spec m :
  m ≠ ∅ → ∃ d h e, find_max_difficulty m = Ok (d, h) ∧ m !! h = Some e ∧
    cumulative_diff (hdr e) = d ∧
    ∀ h' e', m !! h' = Some e' → cumulative_diff (hdr e') ≤ d ∧
      (cumulative_diff (hdr e') = d → max_key_lt m (h', e') (h, e) = false).
Proof.
  intros Hne. unfold find_max_difficulty.
  destruct (map_to_list m) as [|x0 l0] eqn:Hl; [by apply map_to_list_empty_iff in Hl|].
  rewrite <- Hl. set (d := foldr N.max 0 _).
  set (sel := filter _ _).
  destruct (foldr_max_spec ((fun x => cumulative_diff (hdr x.2)) <$> map_to_list m)) as [Hle Hin].
  fold d in Hle, Hin. rewrite Hl in Hin at 1. specialize (Hin ltac:(done)).
  apply list_elem_of_fmap in Hin as ([k ek] & Hd & Hk). cbn in Hd.
  assert ((k, ek) ∈ sel) as Hsel by (apply list_elem_of_filter; by split).
  destruct (pick_min_some m sel) as [[h e] Hp]; [by intros Hn; rewrite Hn in Hsel; apply elem_of_nil in Hsel|].
  pose proof (pick_min_spec m sel _ Hp) as [Hin Hmin].
  apply list_elem_of_filter in Hin as [Hde Hin]. cbn in Hde. apply elem_of_map_to_list in Hin.
  rewrite Hp. exists d, h, e. split_and!; [done..|]. intros h' e' He'. split.
  - apply Hle. apply list_elem_of_fmap. exists (h', e'). split; [done|]. by apply elem_of_map_to_list.
  - intros Hd'. apply Hmin. apply list_elem_of_filter. split; [done|]. by apply elem_of_map_to_list.
Qed.

Lemma find_max_difficulty_ok m :
  m ≠ ∅ → ∃ mx, find_max_difficulty m = Ok mx ∧ max_ok m mx.
Proof.
  intros Hne. destruct (find_max_difficulty_spec m Hne) as (d & h & e & Hf & He & Hd & Hall).
  exists (d, h). split; [done|]. exists e. split_and!; [done..|]. intros h' e' He'.
  destruct (Hall h' e' He') as [H1 H2]. split; [done|]. cbn. intros Hd'.
  specialize (H2 Hd'). apply not_true_iff_false in H2. rewrite max_key_lt_iff in H2. cbn in H2. lia.
Qed.

(** ** Deleting one block *)

Definition del m (h : N) e : gmap N Meta :=
  delete h (alter (set_children (fun c => c ∖ {[h]})) (parent e) m).

(** Ancestry after a deletion: the paths that do not pass through the block. *)
Lemma anc_delete m h a b :
  links_ok m → anc (delete h m) a b ↔ anc m a b ∧ ¬ (anc m a h ∧ anc m h b).
Proof.
  intros Hm. split.
  - induction 1 as [b eb [Hb Heb]%lookup_delete_Some|a b eb [Hb Heb]%lookup_delete_Some Ha [IH1 IH2]].
    + split; [by eapply anc_refl|]. intros [H1 H2]. by destruct Hb; apply (anc_antisym m Hm).
    + split; [by eapply anc_up|]. intros [H1 H2]. apply IH2. split; [done|].
      by apply (anc_inv m h b eb Heb) in H2 as [->|].
  - intros [Ha Hn]. induction Ha as [b eb Heb|a b eb Heb Ha IH].
    + eapply anc_refl. apply lookup_delete_Some. split; [|exact Heb]. intros ->.
      apply Hn. split; by eapply anc_refl.
    + eapply anc_up.
      * apply lookup_delete_Some. split; [|exact Heb]. intros ->. apply Hn. split.
        -- by eapply anc_up.
        -- by eapply anc_refl.
      * apply IH. intros [H1 H2]. apply Hn. split; [done|by eapply anc_up].
Qed.

Section Del.
  Context (m : gmap N Meta) (h : N) (e : Meta).
  Context (Hl : links_ok m) (He : m !! h = Some e).

#[local] Notation m1 := (alter (set_children (fun c => c ∖ {[h]})) (parent e) m).

Lemma del_headers : same_headers m m1.
Proof using. by apply same_headers_alter. Qed.

Lemma anc_del a b : anc (del m h e) a b ↔ anc m a b ∧ ¬ (anc m a h ∧ anc m h b).
Proof using Hl.
  unfold del. rewrite anc_delete by (eapply links_ok_same_headers; [apply del_headers|done]).
  by rewrite <- !(anc_same_headers_iff _ _ _ _ del_headers).
Qed.

Lemma del_lookup k ek :
  del m h e !! k = Some ek →
  k ≠ h ∧ ∃ e0, m !! k = Some e0 ∧ hdr ek = hdr e0 ∧ chain_state ek = chain_state e0 ∧
    insertion_sequence ek = insertion_sequence e0 ∧ timestamp ek = timestamp e0 ∧
    (∀ c, c ∈ children ek ↔ c ∈ children e0 ∧ ¬ (c = h ∧ k = parent e)).
Proof using.
  clear Hl He. unfold del. intros [Hk Hek]%lookup_delete_Some. split; [done|].
  destruct (decide (k = parent e)) as [->|Hne].
  - rewrite lookup_alter_eq in Hek. destruct (m !! parent e) as [e0|] eqn:He0; [|done].
    injection Hek as <-. exists e0. split_and!; try done. cbn. set_solver.
  - rewrite lookup_alter_ne in Hek by done. exists ek. split_and!; try done. naive_solver.
Qed.

Lemma del_keeps k e0 :
  k ≠ h → m !! k = Some e0 →
  ∃ ek, del m h e !! k = Some ek ∧ hdr ek = hdr e0 ∧ chain_state ek = chain_state e0 ∧
    insertion_sequence ek = insertion_sequence e0.
Proof using.
  clear Hl He. intros Hk He0. unfold del. rewrite lookup_delete_ne by done.
  destruct (decide (k = parent e)) as [->|Hne].
  - rewrite lookup_alter_eq, He0. by eexists.
  - rewrite lookup_alter_ne by done. by exists e0.
Qed.

Lemma links_ok_del : links_ok (del m h e).
Proof using Hl.
  constructor.
  - intros k ek (Hk & e0 & He0 & -> & _)%del_lookup. by apply (lk_hash m Hl).
  - intros k ek p (Hk & e0 & He0 & Hh & _)%del_lookup (Hp & p0 & Hp0 & -> & _)%del_lookup.
    rewrite Hh. apply (lk_parent m Hl k e0 p0 He0). unfold parent in *. by rewrite Hh in Hp0.
Qed.

Lemma children_ok_del : children_ok m → children_ok (del m h e).
Proof using He.
  intros Hc p ep c (Hp & e0 & He0 & Hh & _ & _ & _ & Hch)%del_lookup.
  rewrite Hch, (Hc p e0 c He0). split.
  - intros ((ce & Hce & Hpc) & Hn). assert (c ≠ h) as Hch'.
    { intros ->. apply Hn. split; [done|]. congruence. }
    destruct (del_keeps c ce Hch' Hce) as (ce' & Hce' & Hhc & _).
    exists ce'. split; [done|]. unfold parent. by rewrite Hhc.
  - intros (ce & (Hch' & ce0 & Hce0 & Hhc & _)%del_lookup & Hpc). split.
    + exists ce0. split; [done|]. unfold parent in *. by rewrite <- Hhc.
    + intros [-> _]. done.
Qed.
End Del.

(** [delete_block] keeps the invariant whenever the remaining blocks still hang from a
    root and the [Onchain] ones are the ancestry of the tip. *)
Lemma delete_block_ok t h e r :
  core_ok t → blocks t !! h = Some e → h ≠ tip t →
  rooted (del (blocks t) h e) r → states_ok (del (blocks t) h e) (tip t) →
  ∃ t', delete_block t h = (t', Ok tt) ∧ tree_ok t' ∧ blocks t' = del (blocks t) h e ∧
    tip t' = tip t ∧ block_tree_depth t' = block_tree_depth t ∧
    block_migration_depth t' = block_migration_depth t ∧
    next_insertion_sequence t' = next_insertion_sequence t.
Proof.
  intros [Hl Hc _ [et Het] _ Hhi Hso Hmx Hsq] He Hht Hroot Hstates. unfold delete_block. rewrite He.
  set (t1 := with_blocks (with_indices _ _ _) _).
  assert (blocks t1 = del (blocks t) h e) as Hb by done.
  assert (∀ mx, max_ok (blocks t1) mx → core_ok (with_max t1 mx)) as Hcore.
  { intros mx Hmx'. constructor; cbn; fold (del (blocks t) h e); try done.
    - by apply links_ok_del.
    - by apply children_ok_del.
    - by exists r.
    - destruct (del_keeps (blocks t) h e (tip t) et) as (ek & -> & _); [done..|]. by eexists.
    - pose proof (index_ok_same_headers height _ _ _ (del_headers (blocks t) h e) Hhi) as Hhi'.
      destruct (same_headers_lookup _ _ _ _ (del_headers (blocks t) h e) He) as (e1 & He1 & Hq).
      rewrite <- Hq. by apply index_remove_ok.
    - pose proof (index_ok_same_headers solution_hash _ _ _ (del_headers (blocks t) h e) Hso) as Hso'.
      destruct (same_headers_lookup _ _ _ _ (del_headers (blocks t) h e) He) as (e1 & He1 & Hq).
      rewrite <- Hq. by apply index_remove_ok.
    - intros k ek (_ & e0 & He0 & _ & _ & -> & _)%del_lookup. by apply (Hsq k). }
  destruct (N.eqb_spec (max_cumulative_difficulty t1).2 h) as [Heq|Hne].
  - destruct (find_max_difficulty_ok (blocks t1)) as (mx & -> & Hmx').
    { rewrite Hb. intros Hemp.
      destruct (del_keeps (blocks t) h e (tip t) et) as (ek & Hek & _); [done..|].
      rewrite Hemp in Hek. by rewrite lookup_empty in Hek. }
    eexists. split; [done|]. split; [by apply update_cache_ok, Hcore|].
    rewrite update_cache_eq. by split_and!.
  - eexists. split; [done|]. split.
    + apply update_cache_ok. change t1 with (with_max t1 (max_cumulative_difficulty t1)).
      apply Hcore. destruct Hmx as (em & Hem & Hd & Hall).
      destruct (del_keeps (blocks t) h e _ _ Hne Hem) as (em' & Hem' & Hh & _ & Hq).
      exists em'. rewrite Hh, Hq. split_and!; [done..|].
      intros k ek (_ & e0 & He0 & -> & _ & -> & _)%del_lookup. by apply (Hall k).
    + rewrite update_cache_eq. by split_and!.
Qed.

(** ** Removing a subtree *)

Definition strip e : Meta := set_children (fun _ => ∅) e.

(** [t'] is [t] without the blocks of [D]; the others keep all but their children. *)
Record removed t t' (D : N → Prop) : Prop := {
  rm_gone : ∀ k, D k → blocks t' !! k = None;
  rm_kept : ∀ k, ¬ D k → strip <$> blocks t' !! k = strip <$> blocks t !! k;
  rm_tip : tip t' = tip t;
  rm_depth : block_tree_depth t' = block_tree_depth t;
  rm_migration : block_migration_depth t' = block_migration_depth t;
  rm_next : next_insertion_sequence t' = next_insertion_sequence t
}.

Lemma removed_refl t : removed t t (fun _ => False).
Proof. by constructor. Qed.

Lemma removed_iff t t' D D' : (∀ k, D k ↔ D' k) → removed t t' D → removed t t' D'.
Proof.
  intros Hd []. constructor; try done; intros k Hk.
  - apply rm_gone0. by apply Hd.
  - apply rm_kept0. by rewrite Hd.
Qed.

Lemma removed_trans t t1 t2 D1 D2 :
  removed t t1 D1 → removed t1 t2 D2 → (∀ k, D2 k → is_Some (blocks t1 !! k)) →
  removed t t2 (fun k => D1 k ∨ D2 k).
Proof.
  intros [Hg1 Hk1 ? ? ? ?] [Hg2 Hk2 ? ? ? ?] Hin. constructor; try congruence.
  - intros k [HD|HD]; [|by apply Hg2]. specialize (Hg1 k HD).
    assert (¬ D2 k) as Hn by (intros H2; apply Hin in H2 as []; congruence).
    specialize (Hk2 k Hn). rewrite Hg1 in Hk2. by destruct (blocks t2 !! k).
  - intros k HD. rewrite Hk2 by tauto. apply Hk1. tauto.
Qed.

Lemma removed_lookup t t' D k e :
  removed t t' D → blocks t' !! k = Some e →
  ¬ D k ∧ ∃ e0, blocks t !! k = Some e0 ∧ strip e = strip e0.
Proof.
  intros [Hg Hk _ _ _ _] He. assert (¬ D k) as Hn by (intros HD; specialize (Hg k HD); congruence).
  split; [done|]. specialize (Hk k Hn). rewrite He in Hk.
  destruct (blocks t !! k) as [e0|]; [|done]. exists e0. split; [done|]. cbn in Hk. congruence.
Qed.

Lemma removed_keeps t t' D k e0 :
  removed t t' D → ¬ D k → blocks t !! k = Some e0 →
  ∃ e, blocks t' !! k = Some e ∧ strip e = strip e0.
Proof.
  intros Hrm Hn He0. pose proof (rm_kept _ _ _ Hrm k Hn) as Hk. rewrite He0 in Hk.
  destruct (blocks t' !! k) as [e|]; [|done]. exists e. split; [done|]. cbn in Hk. congruence.
Qed.

Lemma strip_fields e e' :
  strip e = strip e' → hdr e = hdr e' ∧ parent e = parent e' ∧ chain_state e = chain_state e'.
Proof. intros Hs. injection Hs. intros. unfold parent, hdr. split_and!; congruence. Qed.

Lemma removed_anc t t' D a b : removed t t' D → anc (blocks t') a b → anc (blocks t) a b.
Proof.
  intros Hrm. induction 1 as [b e He|a b e He _ IH];
    destruct (removed_lookup _ _ _ _ _ Hrm He) as (_ & e0 & He0 & Hs).
  - by eapply anc_refl.
  - apply strip_fields in Hs as (_ & Hp & _). rewrite Hp in IH. by eapply anc_up.
Qed.

Lemma anc_removed t t' D a b :
  removed t t' D → anc (blocks t) a b →
  (∀ x, anc (blocks t) a x → anc (blocks t) x b → ¬ D x) → anc (blocks t') a b.
Proof.
  intros Hrm. induction 1 as [b e He|a b e He Ha IH]; intros Hn.
  - destruct (removed_keeps _ _ _ b e Hrm) as (e' & He' & _); [|done|by eapply anc_refl].
    apply Hn; by eapply anc_refl.
  - destruct (removed_keeps _ _ _ b e Hrm) as (e' & He' & Hs); [|done|].
    { apply Hn; [by eapply anc_up|by eapply anc_refl]. }
    eapply anc_up; [exact He'|]. apply strip_fields in Hs as (_ & -> & _). apply IH.
    intros x H1 H2. apply Hn; [done|by eapply anc_up].
Qed.

Lemma removed_size t t' D :
  removed t t' D → (∀ k, D k → is_Some (blocks t !! k)) →
  (size (blocks t') ≤ size (blocks t))%nat.
Proof.
  intros Hrm Hin. rewrite <- !size_dom. apply subseteq_size. intros k.
  rewrite !elem_of_dom. intros [e He].
  destruct (removed_lookup _ _ _ _ _ Hrm He) as (_ & e0 & He0 & _). by eexists.
Qed.

Lemma lineage_length_mono m m1 c :
  links_ok m → links_ok m1 → (∀ a, anc m a c → hdr <$> m1 !! a = hdr <$> m !! a) →
  (length (lineage m c) ≤ length (lineage m1 c))%nat.
Proof.
  intros Hm Hm1. induction c as [c Hc|c e Hc IH] using (lineage_ind m Hm); intros Ha.
  - rewrite (lineage_none m c Hm Hc). cbn. lia.
  - rewrite (lineage_some m c e Hm Hc). pose proof (Ha c ltac:(by eapply anc_refl)) as Hh.
    rewrite Hc in Hh. destruct (m1 !! c) as [e1|] eqn:Hc1; [|done].
    rewrite (lineage_some m1 c e1 Hm1 Hc1). cbn [length]. cbn in Hh. injection Hh as Hh.
    assert (parent e1 = parent e) as -> by (unfold parent; congruence).
    apply le_n_S, IH. intros a Hap. apply Ha. by eapply anc_up.
Qed.

(** Descendants of a block are itself and the descendants of its children. *)
Lemma anc_children m h e k :
  children_ok m → m !! h = Some e →
  anc m h k ↔ k = h ∨ ∃ c, c ∈ children e ∧ anc m c k.
Proof.
  intros Hc He. split.
  - intros Ha. destruct (anc_path_down m h k Ha) as [[|c ys] Hd]; [by left; symmetry|right].
    destruct Hd as [(ec & Hec & Hp) Hd]. exists c. split; [apply (Hc h e c He); by exists ec|].
    eapply path_down_anc; [by eexists|done].
  - intros [->|(c & Hch & Ha)]; [by eapply anc_refl|].
    apply (Hc h e c He) in Hch as (ec & Hec & Hp). eapply anc_trans; [|exact Ha].
    eapply anc_up; [done|]. rewrite Hp. by eapply anc_refl.
Qed.

(** Children of one block have disjoint subtrees. *)
Lemma siblings_disjoint m h c c' ec ec' k :
  links_ok m → m !! c = Some ec → m !! c' = Some ec' → parent ec = h → parent ec' = h →
  c ≠ c' → is_Some (m !! h) → anc m c k → ¬ anc m c' k.
Proof.
  intros Hl Hec Hec' Hp Hp' Hne [e He] Ha Ha'.
  assert (∀ x y ex ey, m !! x = Some ex → m !! y = Some ey → parent ex = h → parent ey = h →
    x ≠ y → ¬ anc m x y) as Hno.
  { intros x y ex ey Hx Hy Hpx Hpy Hxy Hxy'.
    apply (anc_inv m x y ey Hy) in Hxy' as [->|Hxp]; [done|]. rewrite Hpy, <- Hpx in Hxp.
    by apply (not_anc_parent m Hl x ex Hx). }
  destruct (anc_linear m c c' k Ha Ha') as [?|?];
    [by apply (Hno c c' ec ec')|by apply (Hno c' c ec' ec)].
Qed.

(** Deleting a block, seen as a removal. *)
Lemma delete_removed t t' h e :
  parent e ≠ h → blocks t' = del (blocks t) h e →
  tip t' = tip t → block_tree_depth t' = block_tree_depth t →
  block_migration_depth t' = block_migration_depth t →
  next_insertion_sequence t' = next_insertion_sequence t →
  removed t t' (fun k => k = h).
Proof.
  intros Hp Hb ? ? ? ?. constructor; try done; intros k Hk; rewrite Hb; unfold del.
  - subst. apply lookup_delete_eq.
  - rewrite lookup_delete_ne by done. destruct (decide (k = parent e)) as [->|Hne].
    + rewrite lookup_alter_eq. by destruct (blocks t !! parent e).
    + by rewrite lookup_alter_ne.
Qed.

(** A leaf off the chain can go. *)
Lemma delete_leaf_ok t h e :
  tree_ok t → blocks t !! h = Some e → chain_state e ≠ Onchain → children e = ∅ →
  ∃ t', delete_block t h = (t', Ok tt) ∧ tree_ok t' ∧ removed t t' (fun k => k = h).
Proof.
  intros [Hco _] He Hst Hch. pose proof Hco as [Hl Hc [r Hr] _ Hs _ _ _ _].
  assert (¬ anc (blocks t) h (tip t)) as Hnt by (intros Ha; by apply (Hs h e He) in Ha).
  destruct (delete_block_ok t h e r Hco He) as (t' & Hd & Hok & Hb & ? & ? & ? & ?).
  - intros ->. apply Hnt. by eapply anc_refl.
  - intros k [ek Hek]. apply del_lookup in Hek as (Hk & e0 & He0 & _).
    rewrite anc_del by done. split; [apply Hr; by eexists|]. intros [_ Ha].
    apply (anc_children _ h e k Hc He) in Ha as [->|(c & Hc' & _)]; [done|].
    rewrite Hch in Hc'. by apply elem_of_empty in Hc'.
  - intros k ek (Hk & e0 & He0 & _ & -> & _)%del_lookup. rewrite anc_del, (Hs k e0 He0) by done.
    split; [|tauto]. intros Ha. split; [done|]. by intros [_ ?].
  - exists t'. split_and!; try done. eapply delete_removed; try done. by apply (parent_ne _ Hl).
Qed.

(** ** A loop over the children of a block *)

(** The children of a block that are not [Onchain]. *)
Definition off_child m e (c : N) : Prop :=
  c ∈ children e ∧ ∃ ec, m !! c = Some ec ∧ chain_state ec ≠ Onchain.

Section ChildLoop.
  Context (t : Tree) (h : N) (e : Meta) (op : Tree → N → Tree * result TreeError unit).
  Context (Hok : tree_ok t) (He : blocks t !! h = Some e).
  Context (Hskip : ∀ t1 c ec ec1, c ∈ children e → blocks t !! c = Some ec →
             chain_state ec = Onchain → blocks t1 !! c = Some ec1 → chain_state ec1 = Onchain →
             op t1 c = (t1, Ok tt)).
  Context (Hrem : ∀ t1 c ec, tree_ok t1 → blocks t1 !! c = Some ec → c ∈ children e →
             chain_state ec ≠ Onchain → (size (blocks t1) ≤ size (blocks t))%nat →
             (length (lineage (blocks t) c) ≤ length (lineage (blocks t1) c))%nat →
             ∃ t2, op t1 c = (t2, Ok tt) ∧ tree_ok t2 ∧ removed t1 t2 (anc (blocks t1) c)).

#[local] Notation m := (blocks t).

Lemma child_entry c : c ∈ children e → ∃ ec, m !! c = Some ec ∧ parent ec = h.
Proof using Hok He. intros Hc. by apply (ok_children _ (ok_core _ Hok) h e c He). Qed.

Lemma children_disjoint c c' k :
  c ∈ children e → c' ∈ children e → c ≠ c' → anc m c k → ¬ anc m c' k.
Proof using Hok He.
  intros H1 H2 Hne. destruct (child_entry c H1) as (ec & ? & ?), (child_entry c' H2) as (ec' & ? & ?).
  pose proof (ok_links _ (ok_core _ Hok)).
  apply (siblings_disjoint m h c c' ec ec' k); done.
Qed.

(** Blocks gone after the children of [fin] have been handled. *)
Definition gone_below (fin : list N) (k : N) : Prop :=
  ∃ c, c ∈ fin ∧ off_child m e c ∧ anc m c k.

Lemma child_loop_step c fin t1 :
  c ∈ children e → c ∉ fin → tree_ok t1 → removed t t1 (gone_below fin) →
  ∃ t2, op t1 c = (t2, Ok tt) ∧ tree_ok t2 ∧ removed t t2 (gone_below (fin ++ [c])).
Proof using Hok He Hskip Hrem.
  intros Hc Hfin Hok1 Hrm. destruct (child_entry c Hc) as (ec & Hec & Hpc).
  pose proof (ok_links _ (ok_core _ Hok)) as Hl.
  assert (∀ k, anc m c k → ¬ gone_below fin k) as Hdown.
  { intros k Hck (c' & Hc' & [Hch' _] & Hck').
    by apply (children_disjoint c c' k Hc Hch'); [intros ->|..]. }
  assert (∀ a, anc m a c → ¬ gone_below fin a) as Hup.
  { intros a Hac (c' & Hc' & Hoff & Hca'). apply (Hdown c); [by eapply anc_refl|].
    exists c'. split_and!; [done..|by eapply anc_trans]. }
  destruct (removed_keeps _ _ _ c ec Hrm) as (ec1 & Hec1 & Hs); [apply Hup; by eapply anc_refl|done|].
  apply strip_fields in Hs as (Hh1 & _ & Hst1).
  destruct (decide (chain_state ec = Onchain)) as [Hon|Hoff].
  - exists t1. split_and!; [by eapply (Hskip t1 c ec ec1); congruence|done|]. eapply removed_iff; [|exact Hrm].
    intros k. unfold gone_below. split; intros (c' & Hc' & Ho & Ha); exists c'; [set_solver|].
    split_and!; try done. apply elem_of_app in Hc' as [| ->%list_elem_of_singleton]; [done|].
    destruct Ho as (_ & ec' & Hec' & Hne). congruence.
  - destruct (Hrem t1 c ec1) as (t2 & Hop & Hok2 & Hrm2); try done; [by rewrite Hst1|..].
    + eapply removed_size; [exact Hrm|]. intros k (c' & _ & _ & Ha). by eapply anc_lookup_r.
    + apply lineage_length_mono; [done|by destruct (ok_core _ Hok1)|].
      intros a Ha. destruct (anc_lookup_l _ _ _ Ha) as [ea Hea].
      destruct (removed_keeps _ _ _ a ea Hrm (Hup a Ha) Hea) as (ea1 & Hea1 & Hsa).
      rewrite Hea, Hea1. cbn. f_equal. by apply strip_fields in Hsa as (-> & _).
    + exists t2. split_and!; try done.
      eapply removed_iff; [|eapply (removed_trans t t1 t2); [exact Hrm|exact Hrm2|]].
      * intros k. cbn. unfold gone_below. split.
        -- intros [(c' & Hc' & Ho & Ha)|Ha]; [exists c'; set_solver|].
           exists c. split_and!; [set_solver| |by eapply removed_anc]. split; [done|by exists ec].
        -- intros (c' & [Hc'| ->%list_elem_of_singleton]%elem_of_app & Ho & Ha); [left; by exists c'|].
           right. eapply anc_removed; [exact Hrm|done|]. intros x Hcx _. by apply Hdown.
      * intros k Ha. by eapply anc_lookup_r.
Qed.

Lemma child_loop l fin t1 :
  NoDup (fin ++ l) → (∀ c, c ∈ l → c ∈ children e) → tree_ok t1 → removed t t1 (gone_below fin) →
  ∃ t2, try_each op t1 l = (t2, Ok tt) ∧ tree_ok t2 ∧ removed t t2 (gone_below (fin ++ l)).
Proof using Hok He Hskip Hrem.
  revert fin t1. induction l as [|c l IH]; intros fin t1 Hnd Hsub Hok1 Hrm.
  { exists t1. rewrite app_nil_r. by split_and!. }
  pose proof Hnd as (_ & Hdis & _)%NoDup_app.
  destruct (child_loop_step c fin t1) as (t2 & Hop & Hok2 & Hrm2); [by apply Hsub; left| |done..|].
  { intros Hc. apply (Hdis c Hc). by left. }
  destruct (IH (fin ++ [c]) t2) as (t3 & Ht3 & Hok3 & Hrm3);
    [by rewrite <- app_assoc|intros c' Hc'; apply Hsub; by right|done..|].
  exists t3. cbn [try_each]. rewrite Hop, Ht3. rewrite <- app_assoc in Hrm3. by split_and!.
Qed.

(** The whole loop removes the subtrees of the children that are not [Onchain]. *)
Lemma children_loop :
  ∃ t2, try_each op t (iter_set (children e)) = (t2, Ok tt) ∧ tree_ok t2 ∧
    removed t t2 (fun k => ∃ c, off_child m e c ∧ anc m c k).
Proof using Hok He Hskip Hrem.
  destruct (child_loop (iter_set (children e)) [] t) as (t2 & Ht2 & Hok2 & Hrm2).
  - cbn. rewrite iter_set_perm. apply NoDup_elements.
  - intros c. by rewrite iter_set_perm, elem_of_elements.
  - done.
  - eapply removed_iff; [|apply removed_refl]. intros k. split; [done|].
    intros (c & Hc & _). by apply elem_of_nil in Hc.
  - exists t2. split_and!; try done. eapply removed_iff; [|exact Hrm2].
    intros k. unfold gone_below. cbn. split.
    + intros (c & _ & ? & ?). by exists c.
    + intros (c & Hoff & Ha). exists c. split_and!; try done.
      rewrite iter_set_perm, elem_of_elements. by destruct Hoff.
Qed.
End ChildLoop.

(** [remove_block] takes exactly the subtree of a block that is not [Onchain]. *)
Lemma remove_block_fuel_ok fuel t h e :
  tree_ok t → blocks t !! h = Some e → chain_state e ≠ Onchain →
  (size (blocks t) < fuel + length (lineage (blocks t) h))%nat →
  ∃ t', remove_block_fuel fuel t h = (t', Ok tt) ∧ tree_ok t' ∧
    removed t t' (anc (blocks t) h).
Proof.
  revert t h e. induction fuel as [|fuel IH]; intros t h e Hok He Hst Hf.
  { pose proof (lineage_size (blocks t) h (ok_links _ (ok_core _ Hok))). lia. }
  pose proof (ok_core _ Hok) as [Hl Hc _ _ Hs _ _ _ _].
  cbn [remove_block_fuel]. rewrite He.
  destruct (is_onchain (chain_state e)) eqn:Ho; [by apply is_onchain_true in Ho|].
  assert (∀ c, c ∈ children e → ∃ ec, blocks t !! c = Some ec ∧ parent ec = h ∧
    chain_state ec ≠ Onchain) as Hkids.
  { intros c Hch. apply (Hc h e c He) in Hch as (ec & Hec & Hp). exists ec. split_and!; try done.
    intros Hon. apply Hst. apply (Hs h e He). apply (Hs c ec Hec) in Hon.
    eapply anc_trans; [|exact Hon]. eapply anc_up; [done|]. rewrite Hp. by eapply anc_refl. }
  destruct (children_loop t h e (remove_block_fuel fuel) Hok He) as (t2 & -> & Hok2 & Hrm2).
  { intros t1 c ec ec1 Hch Hec Hon. destruct (Hkids c Hch) as (ec' & Hec' & _ & Hne). congruence. }
  { intros t1 c ec Hok1 Hec Hch Hne Hsz Hln. apply (IH t1 c ec Hok1 Hec Hne).
    destruct (Hkids c Hch) as (ec0 & Hec0 & Hp0 & _).
    rewrite (lineage_some _ c ec0 Hl Hec0), Hp0 in Hln. cbn [length] in Hln. lia. }
  assert (∀ k, (∃ c, off_child (blocks t) e c ∧ anc (blocks t) c k) ↔
    ∃ c, c ∈ children e ∧ anc (blocks t) c k) as Hit.
  { intros k. split; intros (c & Hc' & Ha); exists c; (split; [|done]); [by destruct Hc'|].
    split; [done|]. destruct (Hkids c Hc') as (ec & ? & _ & ?). by exists ec. }
  apply (removed_iff _ _ _ _ Hit) in Hrm2.
  destruct (removed_keeps _ _ _ h e Hrm2) as (e2 & He2 & Hs2); [|done|].
  { intros (c & Hc' & Ha). destruct (Hkids c Hc') as (ec & Hec & Hp & _).
    rewrite <- Hp in Ha. by apply (not_anc_parent _ Hl c ec Hec). }
  apply strip_fields in Hs2 as (_ & _ & Hst2).
  destruct (delete_leaf_ok t2 h e2 Hok2 He2) as (t3 & Hd3 & Hok3 & Hrm3); [by rewrite Hst2| |].
  { apply elem_of_equiv_empty_L. intros c Hcc.
    apply (ok_children _ (ok_core _ Hok2) h e2 c He2) in Hcc as (ec & Hec & Hp).
    destruct (removed_lookup _ _ _ _ _ Hrm2 Hec) as (Hn & e0 & He0 & Hs0).
    apply Hn. exists c. split; [|by eapply anc_refl]. apply (Hc h e c He). exists e0.
    split; [done|]. apply strip_fields in Hs0 as (_ & Hp0 & _). congruence. }
  exists t3. split_and!; try done.
  eapply removed_iff; [|eapply (removed_trans t t2 t3); [exact Hrm2|exact Hrm3|]].
  - intros k. cbn. rewrite (anc_children _ h e k Hc He). tauto.
  - intros k ->. by eexists.
Qed.

Lemma remove_block_cases t h :
  tree_ok t →
  match blocks t !! h with
  | None => remove_block t h = (t, Err BlockNotFound)
  | Some e =>
      if is_onchain (chain_state e) then remove_block t h = (t, Err (CannotRemoveOnchain h))
      else ∃ t', remove_block t h = (t', Ok tt) ∧ tree_ok t' ∧ removed t t' (anc (blocks t) h)
  end.
Proof.
  intros Hok. destruct (blocks t !! h) as [e|] eqn:He.
  - destruct (is_onchain (chain_state e)) eqn:Ho.
    + unfold remove_block, walk_fuel_of. cbn. by rewrite He, Ho.
    + apply remove_block_fuel_ok with (e := e); try done; [by apply is_onchain_false|].
      unfold walk_fuel_of. lia.
  - unfold remove_block, walk_fuel_of. cbn. by rewrite He.
Qed.
End BlockTreeRemove.
