(* ===== verification/BlockTreePrune.v ===== *)
(** Pruning: the tree is cut back to the descendants of one canonical block; and the parent
    walks of the queries as functions of the list of ancestors. *)

From stdpp Require Import gmap.
From S2P Require Import Prelude BlockTree Lineage BlockTreeQueries BlockTreeInv BlockTreeTip BlockTreeRemove.

#[local] Open Scope N_scope.

Section BlockTreePrune.
  Context `{HashOrder}.
  Context {Body CommitmentSnapshot EpochSnapshot EmaSnapshot : Type}.
  Notation Meta := (@BlockMetadata Body CommitmentSnapshot EpochSnapshot EmaSnapshot).
  Notation Tree := (@BlockTree Body CommitmentSnapshot EpochSnapshot EmaSnapshot).
  Implicit Types (t : Tree) (m : gmap N Meta) (e : Meta).

(** The blocks that do not descend from [b]. *)
Definition outside m (b k : N) : Prop := is_Some (m !! k) ∧ ¬ anc m b k.

(** ** Pruning the root *)

Section PruneRoot.
  Context (t : Tree) (r c : N) (er ec : Meta).
  Context (Hok : tree_ok t) (Hr : rooted (blocks t) r) (Her : blocks t !! r = Some er).
  Context (Hec : blocks t !! c = Some ec) (Hpc : parent ec = r) (Hct : anc (blocks t) c (tip t)).

#[local] Notation m := (blocks t).

Lemma canonical_child : c ∈ children er.
Proof using Hok Her Hec Hpc. apply (ok_children _ (ok_core _ Hok) r er c Her). by exists ec. Qed.

Lemma canonical_child_below : ¬ anc m c r.
Proof using Hok Hec Hpc.
  intros Ha. rewrite <- Hpc in Ha. by apply (not_anc_parent m (ok_links _ (ok_core _ Hok)) c ec Hec).
Qed.

(** The children of the root that are not [Onchain] are all but [c]. *)
Lemma outside_split k :
  (∃ c', off_child m er c' ∧ anc m c' k) ∨ k = r ↔ outside m c k.
Proof using Hok Hr Her Hec Hpc Hct.
  pose proof (ok_core _ Hok) as [Hl Hch _ _ Hs _ _ _ _]. unfold outside. split.
  - intros [(c' & [Hc' (ec' & Hec' & Hne)] & Ha)| ->].
    + split; [by eapply anc_lookup_r|]. apply (children_disjoint t r er Hok Her c' c k Hc');
        [apply canonical_child| |done].
      intros ->. apply Hne. by apply (Hs c ec' Hec').
    + split; [by eexists|apply canonical_child_below].
  - intros [Hk Hn]. pose proof (Hr k Hk) as Ha.
    apply (anc_children m r er k Hch Her) in Ha as [->|(c' & Hc' & Ha)]; [by right|left].
    exists c'. split; [|done]. split; [done|].
    destruct (child_entry t r er Hok Her c' Hc') as (ec' & Hec' & _). exists ec'. split; [done|].
    intros Hon. apply (Hs c' ec' Hec') in Hon.
    apply (children_disjoint t r er Hok Her c c' (tip t)); try done; [apply canonical_child|].
    intros ->. done.
Qed.

Lemma prune_root :
  ∃ t', prune_hash t r = (t', Ok tt) ∧ tree_ok t' ∧ removed t t' (outside m c) ∧
    rooted (blocks t') c.
Proof using Hok Hr Her Hec Hpc Hct.
  pose proof (ok_core _ Hok) as [Hl Hch _ Htip Hs _ _ _ _].
  assert (chain_state er = Onchain) as Hon by (apply (Hs r er Her); by apply Hr).
  unfold prune_hash. rewrite Her, Hon. cbn [is_onchain].
  set (op := fun t child => _).
  destruct (children_loop t r er op Hok Her) as (t2 & -> & Hok2 & Hrm2).
  { intros t1 c' ec' ec1 _ _ _ Hec1 Hon1. unfold op. by rewrite Hec1, Hon1. }
  { intros t1 c' ec1 Hok1 Hec1 _ Hne _ _. unfold op. rewrite Hec1.
    pose proof (remove_block_cases t1 c' Hok1) as Hrb. rewrite Hec1 in Hrb.
    destruct (is_onchain (chain_state ec1)) eqn:Ho; [by apply is_onchain_true in Ho|].
    destruct Hrb as (t' & -> & Hok' & Hrm'). by exists t'. }
  assert (∀ k, anc m c k → ¬ ∃ c', off_child m er c' ∧ anc m c' k) as Hbelow.
  { intros k Hck Hex. by destruct (proj1 (outside_split k) (or_introl Hex)). }
  destruct (removed_keeps _ _ _ r er Hrm2) as (e2 & He2 & Hs2); [|done|].
  { intros (c' & [Hc' _] & Ha). destruct (child_entry t r er Hok Her c' Hc') as (ec' & Hec' & Hp').
    rewrite <- Hp' in Ha. by apply (not_anc_parent m Hl c' ec' Hec'). }
  assert (r ≠ tip t) as Hrt by (intros Heq; apply canonical_child_below; by rewrite Heq).
  pose proof (ok_core _ Hok2) as [Hl2 _ _ _ Hst2 _ _ _ _]. pose proof (rm_tip _ _ _ Hrm2) as Htip2.
  assert (rooted (del (blocks t2) r e2) c) as Hroot'.
  { intros k [ek Hek]. pose proof Hek as (Hk & e0 & He0 & _)%del_lookup.
    destruct (removed_lookup _ _ _ _ _ Hrm2 He0) as (Hn & e1 & He1 & _).
    rewrite anc_del by done. split.
    - eapply anc_removed; [exact Hrm2| |intros x Hcx _; by apply Hbelow].
      destruct (anc_dec m c k Hl) as [|Hno]; [done|].
      destruct (proj2 (outside_split k)) as [Hex| ->]; [by split; [eexists|]|done..].
    - intros [Hcr _]. by apply canonical_child_below; eapply removed_anc. }
  destruct (delete_block_ok t2 r e2 c (ok_core _ Hok2) He2) as (t3 & Hd & Hok3 & Hb3 & ? & ? & ? & ?).
  - by rewrite Htip2.
  - done.
  - intros k ek (Hk & e0 & He0 & _ & -> & _)%del_lookup. rewrite anc_del, (Hst2 k e0 He0) by done.
    split; [|tauto]. intros Ha. split; [done|]. intros [Hkr _]. apply Hk.
    apply (anc_antisym m Hl); [by eapply removed_anc|]. apply Hr.
    destruct (removed_lookup _ _ _ _ _ Hrm2 He0) as (_ & e1 & He1 & _). by eexists.
  - exists t3. rewrite Hd. split_and!; try done; [|by rewrite Hb3].
    eapply removed_iff; [exact outside_split|].
    eapply removed_trans; [exact Hrm2| |by intros k ->; eexists].
    eapply delete_removed; try done. by apply (parent_ne _ Hl2).
Qed.
End PruneRoot.

(** ** The loop *)

Lemma root_height m r er k ek :
  links_ok m → rooted m r → m !! r = Some er → m !! k = Some ek →
  k = r ∨ height (hdr er) < height (hdr ek).
Proof.
  intros Hl Hr Her Hek. assert (anc m r k) as Ha by (apply Hr; by eexists).
  destruct (anc_height m Hl r k er ek Ha Her Hek) as [->|?]; [by left|right; lia].
Qed.

(** The root is the one block of its height. *)
Lemma root_index t r er :
  core_ok t → rooted (blocks t) r → blocks t !! r = Some er →
  ∃ s, height_index t !! height (hdr er) = Some s ∧ iter_set s = [r].
Proof.
  intros [Hl _ _ _ _ [Hhi Hne] _ _ _] Hr Her.
  assert (index_at (height_index t) (height (hdr er)) = {[r]}) as Hset.
  { apply set_eq. intros k. rewrite Hhi, elem_of_singleton. split.
    - intros (ek & Hek & Hh). destruct (root_height _ r er k ek Hl Hr Her Hek); [done|lia].
    - intros ->. by exists er. }
  unfold index_at in Hset. destruct (height_index t !! height (hdr er)) as [s|] eqn:Hs.
  - exists s. split; [done|]. cbn in Hset. subst. apply Permutation_singleton_r.
    by rewrite iter_set_perm, elements_singleton.
  - cbn in Hset. set_solver.
Qed.

Lemma next_canonical t r er :
  core_ok t → rooted (blocks t) r → blocks t !! r = Some er → r ≠ tip t →
  ∃ c ec, blocks t !! c = Some ec ∧ parent ec = r ∧ anc (blocks t) c (tip t) ∧
    height (hdr ec) = height (hdr er) + 1.
Proof.
  intros [Hl Hch _ Htip _ _ _ _ _] Hr Her Hne. pose proof (Hr _ Htip) as Ha.
  apply (anc_children _ r er _ Hch Her) in Ha as [Heq|(c & Hc & Ha)]; [by destruct Hne|].
  apply (Hch r er c Her) in Hc as (ec & Hec & Hp). exists c, ec. split_and!; try done.
  apply (lk_parent _ Hl c ec er Hec). by rewrite Hp.
Qed.

Lemma prune_loop_ok rounds t r er et :
  tree_ok t → rooted (blocks t) r → blocks t !! r = Some er → blocks t !! tip t = Some et →
  height (hdr er) + N.of_nat rounds ≤ height (hdr et) →
  ∃ t' b eb, prune_loop rounds t (height (hdr er)) = (t', Ok tt) ∧ tree_ok t' ∧
    rooted (blocks t') b ∧ anc (blocks t) b (tip t) ∧ blocks t !! b = Some eb ∧
    height (hdr eb) = height (hdr er) + N.of_nat rounds ∧ removed t t' (outside (blocks t) b).
Proof.
  revert t r er et. induction rounds as [|rounds IH]; intros t r er et Hok Hr Her Het Hh.
  { exists t, r, er. split_and!; try done.
    - apply Hr. by eexists.
    - lia.
    - eapply removed_iff; [|apply removed_refl]. intros k. split; [done|].
      intros [Hk Hn]. by apply Hn, Hr. }
  pose proof (ok_core _ Hok) as Hco. pose proof (ok_links _ Hco) as Hl.
  assert (r ≠ tip t) as Hrt by (intros ->; simplify_eq; lia).
  destruct (next_canonical t r er Hco Hr Her Hrt) as (c & ec & Hec & Hp & Hct & Hhc).
  destruct (prune_root t r c er ec Hok Hr Her Hec Hp Hct) as (t1 & Hpr & Hok1 & Hrm1 & Hr1).
  destruct (root_index t r er Hco Hr Her) as (s & Hs & Hit).
  assert (∀ k, anc (blocks t) c k → ¬ outside (blocks t) c k) as Hin by (intros k Ha []; done).
  destruct (removed_keeps _ _ _ c ec Hrm1) as (ec1 & Hec1 & Hsc);
    [apply Hin; by eapply anc_refl|done|].
  destruct (removed_keeps _ _ _ (tip t) et Hrm1) as (et1 & Het1 & Hst); [by apply Hin|done|].
  apply strip_fields in Hsc as (Hhc1 & _ & _), Hst as (Hht1 & _ & _).
  rewrite <- (rm_tip _ _ _ Hrm1) in Het1.
  destruct (IH t1 c ec1 et1 Hok1 Hr1 Hec1 Het1) as (t2 & b & eb & Hpl & Hok2 & Hr2 & Hbt & Heb & Hhb & Hrm2).
  { rewrite Hhc1, Hht1, Hhc. lia. }
  destruct (removed_lookup _ _ _ _ _ Hrm1 Heb) as (_ & eb0 & Heb0 & Hsb).
  apply strip_fields in Hsb as (Hhb0 & _ & _).
  assert (anc (blocks t) c b) as Hcb.
  { eapply removed_anc; [exact Hrm1|]. apply Hr1. by eexists. }
  exists t2, b, eb0. split_and!; try done.
  - cbn [prune_loop]. rewrite Hs, Hit. cbn [try_each]. rewrite Hpr.
    rewrite Hhc1, Hhc in Hpl. exact Hpl.
  - eapply removed_anc; [exact Hrm1|]. by rewrite (rm_tip _ _ _ Hrm1) in Hbt.
  - rewrite <- Hhb0, Hhb, Hhc1, Hhc. lia.
  - eapply removed_iff; [|eapply (removed_trans t t1 t2); [exact Hrm1|exact Hrm2|by intros k []]].
    intros k. unfold outside. split.
    + intros [[Hk Hn]|[[ek Hek] Hn]].
      * split; [done|]. intros Ha. apply Hn. by eapply anc_trans.
      * destruct (removed_lookup _ _ _ _ _ Hrm1 Hek) as (Hno & e0 & He0 & _).
        split; [by eexists|]. intros Ha. apply Hn. eapply anc_removed; [exact Hrm1|done|].
        intros x Hbx _. apply Hin. by eapply anc_trans.
    + intros [Hk Hn]. destruct (anc_dec (blocks t) c k Hl) as [Hck|Hck]; [right|by left].
      destruct Hk as [ek Hek].
      destruct (removed_keeps _ _ _ k ek Hrm1 (Hin k Hck) Hek) as (ek1 & Hek1 & _).
      split; [by eexists|]. intros Ha. by apply Hn; eapply removed_anc.
Qed.

Lemma min_height_spec t r er :
  core_ok t → rooted (blocks t) r → blocks t !! r = Some er →
  min_height t = Some (height (hdr er)).
Proof.
  intros Hco Hr Her. destruct (root_index t r er Hco Hr Her) as (s & Hs & _).
  destruct Hco as [Hl _ _ _ _ [Hhi Hne] _ _ _]. unfold min_height.
  set (keys := (map_to_list (height_index t)).*1).
  assert (height (hdr er) ∈ keys) as Hin.
  { apply list_elem_of_fmap. exists (height (hdr er), s). split; [done|].
    by apply elem_of_map_to_list. }
  assert (∀ k, k ∈ keys → height (hdr er) ≤ k) as Hle.
  { intros k ([k' s'] & -> & Hk)%list_elem_of_fmap. apply elem_of_map_to_list in Hk. cbn.
    destruct (decide (s' = ∅)) as [->|Hs']; [by apply Hne in Hk|].
    apply set_choose_L in Hs' as [x Hx].
    assert (x ∈ index_at (height_index t) k') as Hx' by (unfold index_at; by rewrite Hk).
    apply Hhi in Hx' as (ex & Hex & <-).
    destruct (root_height _ r er x ex Hl Hr Her Hex) as [->|]; [simplify_eq; lia|lia]. }
  clear -Hin Hle. induction keys as [|k keys IH]; [by apply elem_of_nil in Hin|]. cbn.
  apply elem_of_cons in Hin as [<-|Hin].
  - assert (∀ x, foldr (fun h acc => match acc with None => Some h | Some x => Some (N.min h x) end)
      None keys = Some x → height (hdr er) ≤ x) as Hf.
    { clear IH. induction keys as [|k keys IH]; cbn; [done|]. intros x.
      destruct (foldr _ _ keys) as [y|].
      - intros [= <-]. assert (height (hdr er) ≤ y).
        { apply IH; [|done]. intros z Hz. apply Hle. set_solver. }
        assert (height (hdr er) ≤ k) by (apply Hle; set_solver). lia.
      - intros [= <-]. apply Hle. set_solver. }
    destruct (foldr _ _ keys) as [x|]; [|done]. specialize (Hf x eq_refl). f_equal. lia.
  - rewrite IH; [|done|intros z Hz; apply Hle; by right]. f_equal.
    assert (height (hdr er) ≤ k) by (apply Hle; by left). lia.
Qed.

(** [prune] keeps exactly the descendants of the canonical block at the cut height, and
    neither panics nor fails. *)
Lemma prune_ok t depth r er et :
  tree_ok t → rooted (blocks t) r → blocks t !! r = Some er → blocks t !! tip t = Some et →
  ∃ t' b eb, prune t depth = (t', Ok tt) ∧ tree_ok t' ∧ rooted (blocks t') b ∧
    anc (blocks t) b (tip t) ∧ blocks t !! b = Some eb ∧
    height (hdr eb) = N.max (height (hdr er)) (height (hdr et) - depth) ∧
    removed t t' (outside (blocks t) b).
Proof.
  intros Hok Hr Her Het. unfold prune. rewrite Het.
  pose proof (ok_core _ Hok) as Hco. rewrite (min_height_spec t r er Hco Hr Her).
  assert (height (hdr er) ≤ height (hdr et)).
  { destruct (root_height _ r er _ et (ok_links _ Hco) Hr Her Het) as [Heq|?]; [|lia].
    rewrite Heq in Het. simplify_eq. lia. }
  destruct (prune_loop_ok (N.to_nat (height (hdr et) - depth - height (hdr er))) t r er et Hok Hr Her Het)
    as (t' & b & eb & Hpl & ? & ? & ? & ? & Hh & ?); [lia|].
  exists t', b, eb. split_and!; try done. rewrite Hh. lia.
Qed.
End BlockTreePrune.

(** * The parent walks of the queries, as functions of the list of ancestors. *)

#[local] Open Scope N_scope.

Section BlockTreeWalks.
  Context {Body CommitmentSnapshot EpochSnapshot EmaSnapshot : Type}.
  Notation Meta := (@BlockMetadata Body CommitmentSnapshot EpochSnapshot EmaSnapshot).
  Notation Tree := (@BlockTree Body CommitmentSnapshot EpochSnapshot EmaSnapshot).
  Notation Sealed := (@SealedBlock Body).
  Implicit Types (t : Tree) (m : gmap N Meta) (e : Meta).

Definition lineage_blocks (l : list (N * Meta)) : list Sealed := (fun x => entry_block x.2) <$> l.

(** A block at height 0 ends every lineage. *)
Lemma lineage_genesis m h e :
  links_ok m → m !! h = Some e → height (hdr e) = 0 → lineage m (parent e) = [].
Proof.
  intros Hl He Hz. destruct (m !! parent e) as [p|] eqn:Hp; [|by apply lineage_none].
  pose proof (lk_parent m Hl h e p He Hp). lia.
Qed.

(** ** The canonical chain *)

Definition count_off (l : list (N * Meta)) : nat :=
  length (filter (fun x => chain_state x.2 ≠ Onchain) l).

Lemma count_off_cons h e l :
  count_off ((h, e) :: l) =
  ((if is_onchain (chain_state e) then 0 else 1) + count_off l)%nat.
Proof.
  unfold count_off. rewrite filter_cons. cbn [snd].
  destruct (is_onchain (chain_state e)) eqn:Ho; case_decide as Hd; try done.
  - by apply is_onchain_true in Ho.
  - by apply is_onchain_false in Ho.
Qed.

Lemma count_off_zero l : (∀ x, x ∈ l → chain_state x.2 = Onchain) → count_off l = 0%nat.
Proof.
  induction l as [|[h e] l IH]; intros Hl; [done|]. rewrite count_off_cons.
  rewrite (Hl (h, e) ltac:(by left) : chain_state e = Onchain). cbn.
  apply IH. intros x Hx. apply Hl. by right.
Qed.

Lemma collect_chain_lineage m n h :
  links_ok m →
  collect_chain m n h =
  (lineage_blocks (take (S n) (lineage m h)), count_off (take (S n) (lineage m h))).
Proof.
  intros Hl. revert h. induction n as [|n IH]; intros h; cbn [collect_chain];
    (destruct (m !! h) as [e|] eqn:He; [|by rewrite (lineage_none m h Hl He)]);
    rewrite (lineage_some m h e Hl He), firstn_cons, count_off_cons.
  - cbn [take]. change (count_off []) with 0%nat. rewrite Nat.add_0_r.
    by destruct (is_onchain _).
  - destruct (N.eqb_spec (height (hdr e)) 0) as [Hz|Hz].
    + rewrite (lineage_genesis m h e Hl He Hz), take_nil.
      change (count_off []) with 0%nat. rewrite Nat.add_0_r. done.
    + rewrite IH. done.
Qed.

Lemma lineage_onchain t x :
  core_ok t → x ∈ lineage (blocks t) (tip t) → chain_state x.2 = Onchain.
Proof.
  intros [Hl _ _ _ Hs _ _ _ _] Hx. destruct x as [k e]. cbn.
  apply lineage_fuel_elem in Hx as [Hk Ha]. by apply (Hs k e Hk).
Qed.

Lemma canonical_chain_eq t :
  tree_ok t →
  longest_chain_cache t =
  (rev (lineage_blocks (take (S (N.to_nat (block_tree_depth t))) (lineage (blocks t) (tip t)))), 0%nat).
Proof.
  intros [Hco ->]. unfold cache_of. rewrite collect_chain_lineage by (by destruct Hco).
  f_equal. apply count_off_zero. intros x Hx. apply elem_of_take in Hx as (i & Hx & _).
  apply list_elem_of_lookup_2 in Hx. by apply lineage_onchain in Hx.
Qed.

(** ** Paths and lineages *)

Lemma lineage_path_down m a ys z :
  links_ok m → is_Some (m !! a) → path_down m a ys z →
  (lineage m z).*1 = rev ys ++ (lineage m a).*1.
Proof.
  intros Hl. revert a. induction ys as [|c ys IH]; intros a Ha; cbn [path_down].
  - by intros ->.
  - intros [(ec & Hec & Hp) Hd]. rewrite (IH c) by (done || by eexists).
    rewrite (lineage_some m c ec Hl Hec), Hp. cbn [fmap list_fmap fst rev].
    by rewrite <- app_assoc.
Qed.

Definition path_blocks m (ys : list N) : list Sealed :=
  omap (fun k => entry_block <$> m !! k) ys.

Lemma path_blocks_app m ys zs : path_blocks m (ys ++ zs) = path_blocks m ys ++ path_blocks m zs.
Proof. apply omap_app. Qed.

Lemma path_blocks_rev m ys : path_blocks m (rev ys) = rev (path_blocks m ys).
Proof.
  induction ys as [|y ys IH]; [done|]. cbn [rev]. rewrite path_blocks_app, IH.
  unfold path_blocks at 2 3. cbn. destruct (m !! y); [done|]. cbn. by rewrite app_nil_r.
Qed.

Lemma lineage_path_blocks m h :
  links_ok m → lineage_blocks (lineage m h) = path_blocks m (lineage m h).*1.
Proof.
  intros Hl. induction h as [h Hh|h e Hh IH] using (lineage_ind m Hl).
  - by rewrite (lineage_none m h Hl Hh).
  - rewrite (lineage_some m h e Hl Hh). unfold lineage_blocks, path_blocks in *.
    cbn [fmap list_fmap fst snd omap list_omap]. rewrite Hh. cbn. f_equal. exact IH.
Qed.

Lemma path_blocks_length m ys : (∀ k, k ∈ ys → is_Some (m !! k)) → length (path_blocks m ys) = length ys.
Proof.
  induction ys as [|y ys IH]; intros Hy; [done|]. unfold path_blocks in *. cbn.
  destruct (Hy y) as [e He]; [by left|]. rewrite He. cbn. f_equal. apply IH.
  intros k Hk. apply Hy. by right.
Qed.

(** ** The reorg split *)

Lemma new_tip_walk_lineage fuel m h :
  links_ok m → (length (lineage m h) < fuel)%nat →
  new_tip_walk fuel m h = (fun x => (x.1, entry_block x.2)) <$> lineage m h.
Proof.
  intros Hl. revert h. induction fuel as [|fuel IH]; intros h Hf; [lia|].
  cbn [new_tip_walk]. destruct (m !! h) as [e|] eqn:He; [|by rewrite (lineage_none m h Hl He)].
  rewrite (lineage_some m h e Hl He) in *. cbn [fmap list_fmap fst snd length] in *. f_equal.
  destruct (N.eqb_spec (height (hdr e)) 0) as [Hz|Hz].
  - by rewrite (lineage_genesis m h e Hl He Hz).
  - apply IH. lia.
Qed.

(** The walk from the old tip finds the first block on the new chain, if there is one. *)
Lemma old_tip_walk_spec fuel m hashes old x acc a0 :
  links_ok m → (length (lineage m x) < fuel)%nat → anc m a0 x → a0 ∈ hashes →
  ∃ a ea ys, m !! a = Some ea ∧ a ∈ hashes ∧ path_down m a ys x ∧ (∀ k, k ∈ ys → k ∉ hashes) ∧
    old_tip_walk fuel m hashes old x acc = Ok (entry_block ea, acc ++ path_blocks m (rev ys)).
Proof.
  intros Hl. revert x acc. induction fuel as [|fuel IH]; intros x acc Hf Ha0 Hin; [lia|].
  destruct (anc_lookup_r _ _ _ Ha0) as [e He]. cbn [old_tip_walk]. rewrite He.
  case_bool_decide as Hx.
  - exists x, e, []. split_and!; try done; [by intros k ?%elem_of_nil|].
    cbn. by rewrite app_nil_r.
  - rewrite (lineage_some m x e Hl He) in Hf. cbn [length] in Hf.
    apply (anc_inv m a0 x e He) in Ha0 as [->|Ha0]; [done|].
    destruct (N.eqb_spec (height (hdr e)) 0) as [Hz|Hz].
    { destruct (anc_lookup_r _ _ _ Ha0) as [p Hp]. pose proof (lk_parent m Hl x e p He Hp). lia. }
    destruct (IH (parent e) (acc ++ [entry_block e])) as (a & ea & ys & Hea & Hah & Hd & Hys & Heq);
      [lia|done..|].
    exists a, ea, (ys ++ [x]). split_and!; try done.
    + by eapply path_down_snoc.
    + intros k [Hk| ->%list_elem_of_singleton]%elem_of_app; [by apply Hys|done].
    + rewrite Heq, rev_app_distr. cbn [rev app]. unfold path_blocks at 2. cbn [omap list_omap].
      rewrite He. cbn. by rewrite <- app_assoc.
Qed.

Lemma old_tip_walk_missing fuel m hashes old acc :
  m !! old = None → old_tip_walk (S fuel) m hashes old old acc =
  match acc with [] => Err (OldTipNotInCache old) | _ => Err NoCommonAncestorExhausted end.
Proof. intros Hn. cbn. by rewrite Hn. Qed.

Lemma position_app {A} (p : A → bool) (l1 l2 : list A) x :
  (∀ y, y ∈ l1 → p y = false) → p x = true → position p (l1 ++ x :: l2) = Some (length l1).
Proof.
  intros Hl Hx. induction l1 as [|y l1 IH]; cbn; [by rewrite Hx|].
  rewrite (Hl y) by left. rewrite IH; [done|]. intros z Hz. apply Hl. by right.
Qed.

(** Both divergent suffixes run from the lowest common ancestor to their tips. *)
Record split_ok m (new old : N) (s : ReorgSplit) (a : N) (nys oys : list N) : Prop := {
  sp_lca : ∃ ea, m !! a = Some ea ∧ lca s = entry_block ea;
  sp_new : path_down m a nys new;
  sp_old : path_down m a oys old;
  sp_new_blocks : new_divergent s = path_blocks m nys;
  sp_old_blocks : old_divergent s = path_blocks m oys;
  sp_disjoint : ∀ k, k ∈ oys → ¬ anc m k new
}.

Lemma find_reorg_split_ok t new old r :
  links_ok (blocks t) → rooted (blocks t) r →
  is_Some (blocks t !! new) → is_Some (blocks t !! old) →
  ∃ s a nys oys, find_reorg_split t new old = Ok s ∧ split_ok (blocks t) new old s a nys oys.
Proof.
  intros Hl Hr Hnew Hold. set (m := blocks t) in *. unfold find_reorg_split. fold m.
  set (fuel := S (walk_fuel_of m)).
  assert (∀ x, (length (lineage m x) < fuel)%nat) as Hfuel.
  { intros x. pose proof (lineage_size m x Hl). unfold fuel, walk_fuel_of. lia. }
  rewrite (new_tip_walk_lineage fuel m new Hl (Hfuel new)).
  destruct Hnew as [en Hen]. set (walk := _ <$> lineage m new).
  assert (walk.*1 = (lineage m new).*1) as Hw1 by (unfold walk; by rewrite <- list_fmap_compose).
  assert (walk.*2 = lineage_blocks (lineage m new)) as Hw2
    by (unfold walk; by rewrite <- list_fmap_compose).
  destruct walk as [|w0 walk'] eqn:Hwalk.
  { unfold walk in Hwalk. rewrite (lineage_some m new en Hl Hen) in Hwalk. done. }
  rewrite <- Hwalk in *. rewrite Hw1.
  destruct (old_tip_walk_spec fuel m (lineage m new).*1 old old [] r Hl (Hfuel old))
    as (a & ea & oys & Hea & Hah & Hd & Hys & ->).
  { by apply Hr. }
  { apply lineage_anc; [done|]. apply Hr. by eexists. }
  res_simpl. apply (lineage_anc m new a Hl) in Hah.
  destruct (anc_path_down m a new Hah) as [nys Hdn].
  assert (is_Some (m !! a)) as Has by (by eexists).
  assert (walk.*2 = path_blocks m (rev nys) ++ path_blocks m (lineage m a).*1) as Hsplit.
  { rewrite Hw2, lineage_path_blocks, <- path_blocks_app by done. f_equal.
    by apply lineage_path_down. }
  assert (∀ k, k ∈ nys → is_Some (m !! k)) as Hin.
  { intros k Hk. apply (path_down_elem m a nys new k Hl Has Hdn) in Hk as (Hk & _).
    by eapply anc_lookup_l. }
  rewrite Hsplit, (lineage_some m a ea Hl Hea). cbn [fmap list_fmap fst].
  change (path_blocks m (a :: (lineage m (parent ea)).*1)) with
    (path_blocks m ([a] ++ (lineage m (parent ea)).*1)). rewrite path_blocks_app.
  assert (path_blocks m [a] = [entry_block ea]) as -> by (unfold path_blocks; cbn; by rewrite Hea).
  cbn [app]. rewrite position_app.
  - res_simpl. rewrite take_app_length.
    eexists _, a, nys, oys. split; [done|]. constructor; cbn; try done.
    + by exists ea.
    + by rewrite path_blocks_rev, rev_involutive.
    + by rewrite path_blocks_rev, rev_involutive.
    + intros k Hk Ha. apply (Hys k Hk). by apply lineage_anc.
  - intros b Hb. unfold path_blocks in Hb. apply list_elem_of_omap in Hb as (k & Hk & Hkb).
    apply N.eqb_neq.
    destruct (m !! k) as [ek|] eqn:Hek; [|done]. injection Hkb as <-.
    change (block_hash (hdr ek) ≠ block_hash (hdr ea)).
    rewrite (lk_hash m Hl k ek Hek), (lk_hash m Hl a ea Hea). intros ->.
    rewrite list_elem_of_In, <- in_rev, <- list_elem_of_In in Hk.
    by apply (path_down_elem m a nys new a Hl Has Hdn) in Hk as (_ & _ & ?).
  - by rewrite N.eqb_refl.
Qed.
End BlockTreeWalks.
