(* ===== verification/BlockTreeService.v ===== *)
(** The block tree service on its tree: pre-validated blocks, validation results, discards,
    tip moves ([crates/actors/src/block_tree_service.rs]) and the restore at startup
    ([BlockTree::restore_from_db]).

    The service owns the tree behind a write lock, so its handlers run one after the
    other.  Broadcasts, metrics and database writes leave the tree alone and are not
    modelled; what a handler reads from outside the tree is a parameter. *)

From stdpp Require Import gmap.
From S2P Require Import Prelude BlockTree Lineage BlockTreeQueries BlockTreeInv BlockTreeTip BlockTreeRemove BlockTreePrune.

#[local] Open Scope N_scope.

Inductive ServiceError : Type :=
| SE_Tree (e : TreeError)
| SE_ParentNotInCache
| SE_SnapshotFailed
| SE_TipNotFound
| SE_CandidateNotFound
| SE_ReorgTooDeep (fork_height min_keep_height : N)
| SE_MarkersFailed
| SE_RecoveryFailed
| SE_EmptyIndex
| SE_MissingIndexEntry (start : N).

(** [validate_reorg_within_cache_window]. *)
Definition validate_reorg_within_cache_window (fork_height new_tip_height block_tree_depth : N)
  : result ServiceError unit :=
  let min_keep_height := new_tip_height - (block_tree_depth - 1) in
  if fork_height <? min_keep_height then Err (SE_ReorgTooDeep fork_height min_keep_height)
  else Ok tt.

(** [restore_cache_floor]: [saturating_add] and [saturating_sub] on [u64]. *)
Definition restore_cache_floor (confirmed_tip block_tree_depth migration_depth : N) : N :=
  let precrash_head := N.min (confirmed_tip + migration_depth) (2 ^ 64 - 1) in
  precrash_head - (block_tree_depth - 1).

Section BlockTreeService.
  Context `{HashOrder}.
  Context {Body CommitmentSnapshot EpochSnapshot EmaSnapshot : Type}.
  Notation Meta := (@BlockMetadata Body CommitmentSnapshot EpochSnapshot EmaSnapshot).
  Notation Tree := (@BlockTree Body CommitmentSnapshot EpochSnapshot EmaSnapshot).
  Notation Sealed := (@SealedBlock Body).
  Notation Snapshots := (CommitmentSnapshot * EpochSnapshot * EmaSnapshot)%type.

(** What the handlers read outside the tree: [create_epoch_snapshot_for_block],
    [create_commitment_snapshot_for_block] and [EmaSnapshot::next_snapshot] on the parent
    entry; whether [ForkChoiceMarkers::from_block_tree], which reads the block index and
    the database, succeeds on the moved tree; whether [recover_from_network_partition]
    succeeds; the epoch length of the configuration. *)
Record ServiceEnv : Type := mkServiceEnv {
  env_snapshots : Meta → Sealed → option Snapshots;
  env_markers : Tree → bool;
  env_recover : N → bool;
  num_blocks_in_epoch : N
}.

(** [ReorgEvent], without its timestamp and database handle. *)
Record ReorgEvent : Type := mkReorgEvent {
  old_fork : list Sealed;
  new_fork : list Sealed;
  fork_parent : Header;
  reorg_new_tip : N
}.

(** [TipMove], without the fork-choice markers. *)
Record TipMove : Type := mkTipMove {
  new_tip : Header;
  reorg_event : option ReorgEvent;
  epoch_block : option Header;
  blocks_to_confirm : list Sealed
}.

(** [is_epoch_block]; [is_multiple_of(0)] holds of 0 alone. *)
Definition is_epoch_block (env : ServiceEnv) (h : Header) : bool :=
  height h mod num_blocks_in_epoch env =? 0.

(** The first epoch block of a list. *)
Definition find_epoch_block (env : ServiceEnv) (l : list Sealed) : option Header :=
  header <$> List.find (λ b, is_epoch_block env (header b)) l.

(** The end of [try_move_tip_to], after the prune. *)
Definition classify_move (env : ServiceEnv) (migration_depth : N) (candidate : N) (tip_header : Header)
    (split : @ReorgSplit Body) : result ServiceError TipMove :=
  match old_divergent split with
  | [] =>
      Ok (mkTipMove tip_header None (find_epoch_block env (new_divergent split)) (new_divergent split))
  | _ =>
      let fork_block := header (lca split) in
      let event := mkReorgEvent (old_divergent split) (new_divergent split) fork_block candidate in
      let move := mkTipMove tip_header (Some event) (find_epoch_block env (new_divergent split))
                    (new_divergent split) in
      if migration_depth <? N.of_nat (length (old_divergent split)) mod 2 ^ 32 then
        if env_recover env (height fork_block) then Ok move else Err SE_RecoveryFailed
      else Ok move
  end.

(** [try_move_tip_to]. *)
Definition try_move_tip_to (env : ServiceEnv) (t : Tree) (candidate : N)
  : Tree * result ServiceError (option TipMove) :=
  match blocks t !! candidate with
  | None => (t, Err SE_CandidateNotFound)
  | Some entry =>
      let tip_header := hdr entry in
      match get_block t (tip t) with
      | None => (t, Err SE_TipNotFound)
      | Some old_tip_block =>
          if cumulative_diff tip_header <=? cumulative_diff old_tip_block then (t, Ok None)
          else if (cumulative_diff tip_header =? (max_cumulative_difficulty t).1)
                  && negb ((max_cumulative_difficulty t).2 =? candidate)
          then (t, Ok None)
          else
            match find_reorg_split t candidate (block_hash old_tip_block) with
            | Err e => (t, Err (SE_Tree e))
            | Panic => (t, Panic)
            | Ok split =>
                match validate_reorg_within_cache_window (height (header (lca split)))
                        (height tip_header) (block_tree_depth t) with
                | Err e => (t, Err e)
                | Panic => (t, Panic)
                | Ok _ =>
                    match mark_tip t candidate with
                    | (t, Err e) => (t, Err (SE_Tree e))
                    | (t, Panic) => (t, Panic)
                    | (t, Ok false) => (t, Ok None)
                    | (t, Ok true) =>
                        if env_markers env t then
                          match prune t (block_tree_depth t - 1) with
                          | (t, Ok _) =>
                              (t, Some <$> classify_move env (block_migration_depth t) candidate
                                    tip_header split)
                          | (t, Err e) => (t, Err (SE_Tree e))
                          | (t, Panic) => (t, Panic)
                          end
                        else (t, Err SE_MarkersFailed)
                    end
                end
            end
      end
  end.

(** [on_block_prevalidated]. *)
Definition on_block_prevalidated (env : ServiceEnv) (t : Tree) (b : Sealed) (now : Z)
  : Tree * result ServiceError unit :=
  match get_block t (block_hash (header b)) with
  | Some _ => (t, Ok tt)
  | None =>
      match blocks t !! previous_block_hash (header b) with
      | None => (t, Err SE_ParentNotInCache)
      | Some parent_entry =>
          match env_snapshots env parent_entry b with
          | None => (t, Err SE_SnapshotFailed)
          | Some (cs, es, ema) =>
              match add_block t b cs es ema now with
              | (t, Ok _) => (mark_block_as_validation_scheduled t (block_hash (header b)), Ok tt)
              | (t, Err e) => (t, Err (SE_Tree e))
              | (t, Panic) => (t, Panic)
              end
          end
      end
  end.

(** [move_tip_after_discard]. *)
Definition move_tip_after_discard (env : ServiceEnv) (t : Tree)
  : Tree * result ServiceError (option TipMove) :=
  match get_earliest_not_onchain_in_longest_chain t with
  | None => (t, Ok None)
  | Some _ =>
      let max_hash := (max_cumulative_difficulty t).2 in
      if decide (get_max_chain_validated_head t = Some max_hash)
      then try_move_tip_to env t max_hash else (t, Ok None)
  end.

(** [DiscardKind]. *)
Inductive DiscardKind : Type :=
| SoftInternal
| Invalid.

(** [discard_and_broadcast], its effect on the tree. *)
Definition discard_and_broadcast (t : Tree) (hash : N) (kind : DiscardKind)
  : Tree * result ServiceError unit :=
  match blocks t !! hash, kind with
  | None, _ => (t, Ok tt)
  | Some entry, SoftInternal =>
      if is_onchain (chain_state entry) then (t, Ok tt)
      else match remove_block t hash with
           | (t, Panic) => (t, Panic)
           | (t, _) => (t, Ok tt)
           end
  | Some entry, Invalid =>
      match remove_block t hash with
      | (t, Ok _) => (t, Ok tt)
      | (t, Err e) => if is_onchain (chain_state entry) then (t, Err (SE_Tree e)) else (t, Ok tt)
      | (t, Panic) => (t, Panic)
      end
  end.

(** [ValidationResult], with the two kinds of [InternalFailure] told apart. *)
Inductive ValidationResult : Type :=
| VR_Valid
| VR_Invalid
| VR_SoftInternalFailure
| VR_NodeFault.

(** The part of [on_block_validation_finished] for a fully validated block. *)
Definition on_block_valid (env : ServiceEnv) (t : Tree) (hash : N)
  : Tree * result ServiceError (option TipMove) :=
  match get_block t hash, get_block t (tip t) with
  | None, _ => (t, Ok None)
  | Some _, None => (t, Err SE_TipNotFound)
  | Some _, Some _ =>
      match mark_block_as_valid t hash with
      | (t, Err _) => (t, Ok None)
      | (t, Panic) => (t, Panic)
      | (t, Ok _) =>
          match get_earliest_not_onchain_in_longest_chain t, blocks t !! hash with
          | Some _, Some _ => try_move_tip_to env t hash
          | _, _ => (t, Ok None)
          end
      end
  end.

(** [on_block_validation_finished]: a node fault panics, a rejected block is discarded and
    the tip may move to another block, a valid block is marked and may become the tip. *)
Definition on_block_validation_finished (env : ServiceEnv) (t : Tree) (hash : N)
    (r : ValidationResult) : Tree * result ServiceError (option TipMove) :=
  let discard kind :=
    match discard_and_broadcast t hash kind with
    | (t, Ok _) => move_tip_after_discard env t
    | (t, Err e) => (t, Err e)
    | (t, Panic) => (t, Panic)
    end in
  match r with
  | VR_NodeFault => (t, Panic)
  | VR_SoftInternalFailure => discard SoftInternal
  | VR_Invalid => discard Invalid
  | VR_Valid => on_block_valid env t hash
  end.

(** ** Restore at startup *)

(** The loop of [restore_from_db] over the blocks after the start block; [add_common] is
    unwrapped. *)
Fixpoint restore_loop (t : Tree) (rest : list (Sealed * Snapshots)) (now : Z)
  : Tree * result ServiceError unit :=
  match rest with
  | [] => (t, Ok tt)
  | (b, (cs, es, ema)) :: rest' =>
      match add_common t (block_hash (header b)) b cs es ema (Validated ValidBlock) now with
      | (t', Ok _) => restore_loop t' rest' now
      | (t', _) => (t', Panic)
      end
  end.

Definition set_insertion_sequence (n : N) (e : Meta) : Meta :=
  mkMeta (entry_block e) (chain_state e) (timestamp e) (children e) (epoch_snapshot e)
    (commitment_snapshot e) (ema_snapshot e) n.

(** Blocks loaded from the index share sequence 0. *)
Definition reset_sequences (t : Tree) : Tree :=
  with_next_seq (with_blocks t (set_insertion_sequence 0 <$> blocks t)) 1.

(** The tree of the start block alone. *)
Definition start_tree (start : Sealed) (s : Snapshots) (now : Z) (depth migration : N) : Tree :=
  let '(cs, es, ema) := s in
  let hash := block_hash (header start) in
  mkBlockTree {[hash := mkMeta start Onchain now ∅ es cs ema 0]}
    {[solution_hash (header start) := {[hash]}]} hash (cumulative_diff (header start), hash) 0
    {[height (header start) := {[hash]}]} ([start], 0%nat) depth migration.

(** [restore_from_db] from the start block on: the blocks the block index lists after it,
    loaded from the database, with the snapshots computed for them. *)
Definition restore_from_blocks (start : Sealed) (s : Snapshots) (rest : list (Sealed * Snapshots))
    (now : Z) (depth migration : N) : Tree * result ServiceError unit :=
  match restore_loop (start_tree start s now depth migration) rest now with
  | (t, Ok _) =>
      let t := reset_sequences t in
      let tip_hash := match last rest with
                      | Some (b, _) => block_hash (header b)
                      | None => block_hash (header start)
                      end in
      match mark_tip t tip_hash with
      | (t, Ok _) =>
          match prune t (depth - 1) with
          | (t, Ok _) => (t, Ok tt)
          | (t, Err e) => (t, Err (SE_Tree e))
          | (t, Panic) => (t, Panic)
          end
      | (t, Err e) => (t, Err (SE_Tree e))
      | (t, Panic) => (t, Panic)
      end
  | r => r
  end.

(** [restore_from_db] on the block index, whose positions are heights. *)
Definition restore_from_db (index : list (Sealed * Snapshots)) (now : Z) (depth migration : N)
  : option Tree * result ServiceError unit :=
  let num_blocks := N.of_nat (length index) in
  if num_blocks =? 0 then (None, Err SE_EmptyIndex)
  else
    let start := restore_cache_floor (num_blocks - 1) depth migration in
    match drop (N.to_nat start) index with
    | [] => (None, Err (SE_MissingIndexEntry start))
    | (b, s) :: rest =>
        let '(t, r) := restore_from_blocks b s rest now depth migration in (Some t, r)
    end.
End BlockTreeService.

(** * The service handlers keep the block tree invariant; what a tip move does. *)

#[local] Open Scope N_scope.

Section ServiceInv.
  Context `{HashOrder}.
  Context {Body CommitmentSnapshot EpochSnapshot EmaSnapshot : Type}.
  Notation Meta := (@BlockMetadata Body CommitmentSnapshot EpochSnapshot EmaSnapshot).
  Notation Tree := (@BlockTree Body CommitmentSnapshot EpochSnapshot EmaSnapshot).
  Notation Sealed := (@SealedBlock Body).
  Notation Env := (@ServiceEnv Body CommitmentSnapshot EpochSnapshot EmaSnapshot).
  Implicit Types (t : Tree) (m : gmap N Meta) (e : Meta) (env : Env).

(** ** Moving the tip *)

(** The block is in both trees, with the same contents. *)
Definition kept t t' (k : N) : Prop :=
  ∃ e e', blocks t !! k = Some e ∧ blocks t' !! k = Some e' ∧ entry_block e' = entry_block e.

(** What a completed move from [t] to [t'] guarantees: the new tip is heavier, the
    published lists are the two sides of the fork, oldest first, and every block of them,
    like the fork point, is still in the tree. *)
Record move_ok t t' (c : N) (mv : @TipMove Body) : Prop := {
  mo_tip : tip t' = c;
  mo_heavier : ∃ e eo, blocks t !! c = Some e ∧ blocks t !! tip t = Some eo ∧
    new_tip mv = hdr e ∧ cumulative_diff (hdr eo) < cumulative_diff (hdr e);
  mo_split : ∃ s a nys oys, split_ok (blocks t) c (tip t) s a nys oys ∧
    blocks_to_confirm mv = new_divergent s ∧
    reorg_event mv = (if decide (oys = []) then None else
      Some (mkReorgEvent (old_divergent s) (new_divergent s) (header (lca s)) c)) ∧
    ∀ k, k ∈ a :: nys ++ oys → kept t t' k
}.

Lemma heavier_not_anc t c e eo :
  links_ok (blocks t) → blocks t !! c = Some e → blocks t !! tip t = Some eo →
  cumulative_diff (hdr eo) < cumulative_diff (hdr e) → ¬ anc (blocks t) c (tip t).
Proof.
  intros Hl He Heo Hlt Ha. destruct (anc_height _ Hl c (tip t) e eo Ha He Heo) as [->|?]; [|lia].
  simplify_eq. lia.
Qed.

Lemma classify_move_ok env d c th s mv :
  classify_move env d c th s = Ok mv →
  new_tip mv = th ∧ blocks_to_confirm mv = new_divergent s ∧
  reorg_event mv = match old_divergent s with [] => None | _ =>
      Some (mkReorgEvent (old_divergent s) (new_divergent s) (header (lca s)) c) end.
Proof.
  unfold classify_move. destruct (old_divergent s); [by intros [= <-]|].
  repeat case_match; by intros [= <-].
Qed.

Lemma split_old_nil m new old s a nys oys :
  links_ok m → split_ok m new old s a nys oys → old_divergent s = [] ↔ oys = [].
Proof.
  intros Hl [(ea & Hea & _) _ Hold _ Hob _]. rewrite Hob. split; [|by intros ->].
  intros Hn. destruct oys as [|k oys]; [done|]. exfalso.
  assert (is_Some (m !! k)) as [ek Hek].
  { destruct Hold as [(ek & Hek & _) _]. by eexists. }
  unfold path_blocks in Hn. cbn in Hn. by rewrite Hek in Hn.
Qed.

(** The blocks of the split descend from the fork point. *)
Lemma split_desc m new old s a nys oys k :
  links_ok m → split_ok m new old s a nys oys → k ∈ a :: nys ++ oys → anc m a k.
Proof.
  intros Hl [(ea & Hea & _) Hnew Hold _ _ _] Hk.
  assert (is_Some (m !! a)) as Ha by by eexists.
  apply elem_of_cons in Hk as [->|[Hk|Hk]%elem_of_app]; [by eapply anc_refl| |];
    eapply path_down_elem in Hk as (? & ? & ?); done.
Qed.

(** An ancestor of the tip at or above the cut survives the prune with its descendants. *)
Lemma prune_keeps t t' b eb a ea k er cut :
  tree_ok t → removed t t' (outside (blocks t) b) → anc (blocks t) b (tip t) →
  blocks t !! b = Some eb → (∃ r, rooted (blocks t) r ∧ blocks t !! r = Some er) →
  height (hdr eb) = N.max (height (hdr er)) (cut) →
  blocks t !! a = Some ea → anc (blocks t) a (tip t) →
  cut ≤ height (hdr ea) → anc (blocks t) a k → kept t t' k.
Proof.
  intros [Hco _] Hrm Hbt Hb (r & Hr & Her) Hh Ha Hat Hle Hak.
  pose proof (ok_links _ Hco) as Hl.
  assert (anc (blocks t) b a) as Hba.
  { destruct (anc_linear _ _ _ _ Hbt Hat) as [|Hab]; [done|].
    destruct (anc_height _ Hl a b ea eb Hab Ha Hb) as [->|Hlt]; [by eapply anc_refl|].
    assert (anc (blocks t) r a) as Hra by (apply Hr; by eexists).
    destruct (anc_height _ Hl r a er ea Hra Her Ha) as [Heq|?]; [|lia].
    subst. simplify_eq. lia. }
  destruct (anc_lookup_r _ _ _ Hak) as [ek Hek].
  destruct (removed_keeps _ _ _ k ek Hrm) as (ek' & Hek' & Hs); [|done|].
  { intros [_ Hn]. apply Hn. by eapply anc_trans. }
  exists ek, ek'. split_and!; [done..|]. unfold strip, set_children in Hs. congruence.
Qed.

Lemma kept_trans t t1 t2 k : same_but_state (blocks t) (blocks t1) → kept t1 t2 k → kept t t2 k.
Proof.
  intros Hs (e1 & e2 & He1 & He2 & Heq).
  destruct (same_but_state_lookup _ _ _ _ (same_but_state_sym _ _ Hs) He1) as (e & He & Hst).
  exists e, e2. split_and!; [done..|]. unfold set_state in Hst. congruence.
Qed.

Lemma tip_moved_anc t t' c a b : tip_moved t t' c → anc (blocks t) a b ↔ anc (blocks t') a b.
Proof.
  intros (_ & Hs & _). apply anc_same_headers_iff. by apply same_but_state_headers.
Qed.

(** Outcomes of [try_move_tip_to]: no panic; a refusal and a move outside the window leave
    the tree alone; only an ancestor of the candidate that is not validated can leave the
    tree between two tips. *)
Definition move_outcome t t' (c : N) (r : result ServiceError (option TipMove)) : Prop :=
  match r with
  | Ok None | Err SE_CandidateNotFound | Err (SE_ReorgTooDeep _ _) => t' = t
  | Ok (Some mv) => tree_ok t' ∧ move_ok t t' c mv
  | Err SE_MarkersFailed | Err SE_RecoveryFailed => tree_ok t' ∧ tip t' = c
  | Err (SE_Tree InvalidTip) => ∃ e k e0, blocks t !! c = Some e ∧
      anc (blocks t) k (parent e) ∧ blocks t !! k = Some e0 ∧ tip_ready (chain_state e0) = false
  | Err _ | Panic => False
  end.

(** The move once the tip is marked: markers, prune, classification. *)
Lemma finish_move env t t1 c e eo s a nys oys :
  tree_ok t → tree_ok t1 → tip_moved t t1 c →
  blocks t !! c = Some e → blocks t !! tip t = Some eo →
  cumulative_diff (hdr eo) < cumulative_diff (hdr e) →
  split_ok (blocks t) c (tip t) s a nys oys →
  height (hdr e) - (block_tree_depth t - 1) ≤ height (header (lca s)) →
  ∃ t2, prune t1 (block_tree_depth t1 - 1) = (t2, Ok tt) ∧ tree_ok t2 ∧ tip t2 = c ∧
    (∀ mv, classify_move env (block_migration_depth t2) c (hdr e) s = Ok mv → move_ok t t2 c mv).
Proof.
  intros Hok Hok1 Hmv He Heo Hlt Hsp Hwin.
  pose proof (ok_links _ (ok_core _ Hok)) as Hl. pose proof Hmv as (Htip & Hsame & _ & _ & Hdep & _).
  destruct (ok_root _ (ok_core _ Hok1)) as [r Hr].
  destruct (anc_lookup_l _ _ _ (Hr _ (ok_tip _ (ok_core _ Hok1)))) as [er Her].
  destruct (same_but_state_lookup _ _ _ _ Hsame He) as (e1 & He1 & Hse).
  assert (hdr e1 = hdr e) as Hh1 by (unfold hdr, set_state in *; congruence).
  destruct (prune_ok t1 (block_tree_depth t1 - 1) r er e1 Hok1 Hr Her) as
    (t2 & b & eb & Hp & Hok2 & _ & Hbt & Hb & Hhb & Hrm); [by rewrite Htip|].
  assert (tip t2 = c) as Ht2 by (rewrite (rm_tip _ _ _ Hrm); done).
  exists t2. split_and!; [done..|]. intros mv (Hn & Hb1 & Hre)%classify_move_ok.
  constructor; [done|by exists e, eo|]. exists s, a, nys, oys. split_and!; [done..| |].
  - rewrite Hre. pose proof (split_old_nil _ _ _ _ _ _ _ Hl Hsp) as Hiff.
    destruct (decide (oys = [])) as [Ho|Ho]; [by rewrite (proj2 Hiff Ho)|].
    destruct (old_divergent s); [by destruct Ho; apply Hiff|done].
  - intros k Hk. eapply kept_trans; [done|].
    pose proof (split_desc _ _ _ _ _ _ _ _ Hl Hsp Hk) as Hak.
    destruct (sp_lca _ _ _ _ _ _ _ Hsp) as (ea & Hea & Hlca).
    destruct (same_but_state_lookup _ _ _ _ Hsame Hea) as (ea1 & Hea1 & Hsa).
    eapply (prune_keeps t1 t2 b eb a ea1 k er); try done.
    + by exists r.
    + rewrite Htip. apply (tip_moved_anc _ _ _ _ _ Hmv).
      by apply (path_down_anc _ _ nys); [by eexists|apply Hsp].
    + rewrite Hh1, Hdep. rewrite Hlca in Hwin. unfold hdr, set_state in *. congruence.
    + by apply (tip_moved_anc _ _ _ _ _ Hmv).
Qed.

Lemma try_move_tip_to_cases env t c t' r :
  tree_ok t → try_move_tip_to env t c = (t', r) → move_outcome t t' c r.
Proof.
  intros Hok. unfold try_move_tip_to. pose proof (ok_core _ Hok) as Hco.
  destruct (blocks t !! c) as [e|] eqn:He; [|by intros [= <- <-]].
  destruct (ok_tip _ Hco) as [eo Heo]. unfold get_block. rewrite Heo. cbn [fmap option_fmap option_map].
  destruct (N.leb_spec (cumulative_diff (hdr e)) (cumulative_diff (hdr eo))) as [|Hlt];
    [by intros [= <- <-]|].
  destruct (_ && _) eqn:Htie; [by intros [= <- <-]|].
  rewrite (lk_hash _ (ok_links _ Hco) _ _ Heo). destruct (ok_root _ Hco) as [r0 Hr0].
  destruct (find_reorg_split_ok t c (tip t) r0 (ok_links _ Hco) Hr0) as (s & a & nys & oys & -> & Hsp);
    [by eexists..|].
  unfold validate_reorg_within_cache_window.
  destruct (N.ltb_spec (height (header (lca s))) (height (hdr e) - (block_tree_depth t - 1)))
    as [|Hwin]; [by intros [= <- <-]|].
  destruct (mark_tip_cases t c e Hok He (heavier_not_anc _ _ _ _ (ok_links _ Hco) He Heo Hlt))
    as [[Ht2 _]|[(_ & _ & t1 & -> & Hok1 & Hmv)|(_ & (k & e0 & ? & ? & ?) & t1 & ->)]].
  - unfold ties_max in Ht2. congruence.
  - destruct (env_markers env t1); [|intros [= <- <-]; by split; [|apply Hmv]].
    destruct (finish_move env t t1 c e eo s a nys oys) as (t2 & -> & Hok2 & Htip & Hmove); try done.
    destruct (classify_move _ _ _ _ _) as [mv|err|] eqn:Hcl; cbn; intros [= <- <-].
    + by split; [|apply Hmove].
    + unfold classify_move in Hcl. repeat case_match; simplify_eq. by split.
    + unfold classify_move in Hcl. repeat case_match; simplify_eq.
  - intros [= <- <-]. by exists e, k, e0.
Qed.

(** ** The handlers *)

(** What pre-validation checked of a block that is new to the tree and whose parent is in
    it: it follows its parent, and its hash is not the parent hash of the root.  The
    insertion counter does not overflow. *)
Definition arrives t (b : Sealed) : Prop :=
  blocks t !! block_hash (header b) = None →
  is_Some (blocks t !! previous_block_hash (header b)) → add_ok t b.

Lemma on_block_prevalidated_ok env t b now t' r :
  tree_ok t → arrives t b → on_block_prevalidated env t b now = (t', r) →
  tree_ok t' ∧ tip t' = tip t ∧ r ≠ Panic ∧
  (r = Ok tt → is_Some (blocks t' !! block_hash (header b))) ∧ (r ≠ Ok tt → t' = t).
Proof.
  intros Hok Harr. unfold on_block_prevalidated, get_block.
  destruct (blocks t !! block_hash (header b)) as [e|] eqn:He; cbn.
  { intros [= <- <-]. rewrite He. split_and!; by eauto. }
  destruct (blocks t !! previous_block_hash (header b)) as [p|] eqn:Hp;
    [|by intros [= <- <-]].
  destruct (env_snapshots env p b) as [[[cs es] ema]|]; [|by intros [= <- <-]].
  pose proof (Harr He ltac:(by rewrite Hp)) as Hadd.
  rewrite add_block_new by done.
  destruct (add_common_ok t b cs es ema (NotOnchain Unknown) now Hok Hadd)
    as (t1 & -> & Hok1 & Ht1 & _ & _ & Hb1); [done|]. intros [= <- <-].
  pose proof (mark_scheduled_ok t1 (block_hash (header b)) Hok1) as Hok2.
  unfold mark_block_as_validation_scheduled in *. rewrite Hb1 in *. unfold add_leaf in *.
  rewrite lookup_insert_eq in *. cbn in *. rewrite update_cache_eq in *. cbn in *.
  rewrite lookup_insert_eq. split_and!; by eauto.
Qed.

Lemma mark_valid_no_panic t h t1 : mark_block_as_valid t h ≠ (t1, Panic).
Proof. unfold mark_block_as_valid. repeat case_match; congruence. Qed.

(** A discard removes the block with its descendants, unless it is canonical. *)
Lemma discard_ok t h k t' r :
  tree_ok t → discard_and_broadcast t h k = (t', r) →
  tree_ok t' ∧ tip t' = tip t ∧ r ≠ Panic ∧
  match blocks t !! h with
  | None => t' = t ∧ r = Ok tt
  | Some e =>
      if is_onchain (chain_state e)
      then t' = t ∧ (r = Ok tt ↔ k = SoftInternal)
      else r = Ok tt ∧ removed t t' (anc (blocks t) h)
  end.
Proof.
  intros Hok. unfold discard_and_broadcast. pose proof (remove_block_cases t h Hok) as Hrm.
  destruct (blocks t !! h) as [e|] eqn:He; [|by intros [= <- <-]].
  destruct (is_onchain (chain_state e)) eqn:Ho.
  - rewrite Hrm. destruct k; intros [= <- <-]; by split_and!.
  - destruct Hrm as (t1 & -> & Hok1 & Hr1). pose proof (rm_tip _ _ _ Hr1).
    destruct k; intros [= <- <-]; by split_and!.
Qed.

Lemma move_tip_after_discard_ok env t t' r :
  tree_ok t → move_tip_after_discard env t = (t', r) →
  (t' = t ∧ r = Ok None) ∨
  move_outcome t t' (max_cumulative_difficulty t).2 r.
Proof.
  intros Hok. unfold move_tip_after_discard.
  destruct (get_earliest_not_onchain_in_longest_chain t); [|intros [= <- <-]; by left].
  destruct (decide _); [|intros [= <- <-]; by left].
  intros Hm. right. by eapply try_move_tip_to_cases.
Qed.

Lemma move_outcome_ok t t' c o : tree_ok t → move_outcome t t' c (Ok o) → tree_ok t'.
Proof. intros Hok. destruct o; cbn; [by intros []|by intros ->]. Qed.

(** A completed handler keeps the invariant, and only a node fault panics. *)
Lemma on_block_validation_finished_ok env t h v t' r :
  tree_ok t → on_block_validation_finished env t h v = (t', r) →
  (∀ o, r = Ok o → tree_ok t') ∧ (r = Panic → v = VR_NodeFault).
Proof.
  intros Hok. unfold on_block_validation_finished, on_block_valid, get_block.
  assert (∀ k, match discard_and_broadcast t h k with
    | (t1, Ok _) => move_tip_after_discard env t1 | (t1, Err er) => (t1, Err er)
    | (t1, Panic) => (t1, Panic) end = (t', r) → (∀ o, r = Ok o → tree_ok t') ∧ r ≠ Panic) as Hdis.
  { intros k. destruct (discard_and_broadcast t h k) as [t1 r1] eqn:Hd.
    destruct (discard_ok _ _ _ _ _ Hok Hd) as (Hok1 & _ & Hnp & _).
    destruct r1 as [[]|er|]; [|intros [= <- <-]; by split_and!|done].
    intros [[-> ->]|Hm]%move_tip_after_discard_ok; [by split_and!| |done]. split.
    - intros o ->. by eapply (move_outcome_ok t1).
    - by intros ->. }
  destruct v.
  - destruct (blocks t !! h) as [e|] eqn:He; cbn; [|by intros [= <- <-]].
    destruct (ok_tip _ (ok_core _ Hok)) as [eo ->]. cbn.
    pose proof (mark_valid_ok t h Hok) as Hok1.
    destruct (mark_block_as_valid t h) as [t1 [u|er|]] eqn:Hmv; cbn in Hok1;
      [|by intros [= <- <-]|by apply mark_valid_no_panic in Hmv].
    destruct (get_earliest_not_onchain_in_longest_chain t1), (blocks t1 !! h);
      try (by intros [= <- <-]).
    intros Hm%try_move_tip_to_cases; [|done]. split.
    + intros o ->. by eapply (move_outcome_ok t1).
    + by intros ->.
  - intros Hx%Hdis. naive_solver.
  - intros Hx%Hdis. naive_solver.
  - intros [= <- <-]. by split_and!.
Qed.

(** ** Reachable trees *)

(** One completed handler run; an error stops the service. *)
Inductive service_step env : Tree → Tree → Prop :=
| step_prevalidated t b now t' r :
    arrives t b → on_block_prevalidated env t b now = (t', r) → service_step env t t'
| step_validation_finished t h v t' o :
    on_block_validation_finished env t h v = (t', Ok o) → service_step env t t'.

Lemma service_step_ok env t t' : tree_ok t → service_step env t t' → tree_ok t'.
Proof.
  intros Hok Hs. revert Hok. destruct Hs as [t0 b now t1 r Harr Hp|t0 h v t1 o Hv]; intros Hok.
  - by apply on_block_prevalidated_ok in Hp as [? _].
  - apply on_block_validation_finished_ok in Hv as [Ht _]; [|done]. by eapply Ht.
Qed.

Lemma service_run_ok env t t' : tree_ok t → rtc (service_step env) t t' → tree_ok t'.
Proof. intros Hok. induction 1; eauto using service_step_ok. Qed.
End ServiceInv.
