(* ===== verification/BlockTreeRestore.v ===== *)
(** The restore at startup: on a block index that is a chain, the loop, the sequence reset,
    the tip and the prune give a tree with the invariant whose tip is the last block. *)

From S2P Require Import Prelude BlockTree Lineage BlockTreeQueries BlockTreeInv.
From S2P Require Import BlockTreeTip BlockTreeRemove BlockTreePrune BlockTreeService.
From stdpp Require Import gmap.

#[local] Open Scope N_scope.

(** Each block follows the one before it. *)
Definition follows (p b : Header) : Prop :=
  previous_block_hash b = block_hash p ∧ height b = height p + 1 ∧
  cumulative_diff p < cumulative_diff b ∧ global_step_number p < global_step_number b.
Fixpoint linked (p : Header) (l : list Header) : Prop :=
  match l with [] => True | b :: l' => follows p b ∧ linked b l' end.

(** A chain of blocks with distinct hashes, the first block's parent not among them. *)
Definition chain_ok (start : Header) (rest : list Header) : Prop :=
  linked start rest ∧ NoDup (block_hash start :: (block_hash <$> rest)) ∧
  previous_block_hash start ∉ block_hash start :: (block_hash <$> rest).

Section Restore.
  Context `{HashOrder}.
  Context {Body CommitmentSnapshot EpochSnapshot EmaSnapshot : Type}.
  Notation Meta := (@BlockMetadata Body CommitmentSnapshot EpochSnapshot EmaSnapshot).
  Notation Tree := (@BlockTree Body CommitmentSnapshot EpochSnapshot EmaSnapshot).
  Notation Sealed := (@SealedBlock Body).
  Notation Snapshots := (CommitmentSnapshot * EpochSnapshot * EmaSnapshot)%type.
  Implicit Types (t : Tree) (m : gmap N Meta) (e : Meta) (rest : list (Sealed * Snapshots)).

Definition hd_of (x : Sealed * Snapshots) : Header := header x.1.

(** ** The start block *)

Lemma anc_singleton h e a b :
  parent e ≠ h → anc ({[h := e]} : gmap N Meta) a b ↔ a = h ∧ b = h.
Proof.
  intros Hp. split.
  - induction 1 as [b eb [-> _]%lookup_singleton_Some|a b eb [-> <-]%lookup_singleton_Some _ [_ IH]];
      [done|by destruct Hp].
  - intros [-> ->]. apply (anc_refl _ _ e). by apply lookup_singleton_eq.
Qed.

Lemma index_ok_singleton key h e :
  index_ok key ({[h := e]} : gmap N Meta) {[key (hdr e) := {[h]}]}.
Proof.
  replace {[key (hdr e) := {[h]}]} with (index_insert (key (hdr e)) h ∅).
  - apply (index_insert_ok key ∅ ∅ h e); [done|]. split; [set_solver|done].
  - unfold index_insert. rewrite lookup_empty. cbn. by rewrite (right_id_L ∅ (∪)).
Qed.

Lemma start_tree_ok (start : Sealed) (s : Snapshots) now depth mig :
  previous_block_hash (header start) ≠ block_hash (header start) →
  tree_ok (start_tree start s now depth mig).
Proof.
  intros Hp. destruct s as [[cs es] ema]. unfold start_tree.
  set (h := block_hash (header start)) in *. set (e := mkMeta start Onchain now ∅ es cs ema 0).
  assert (parent e ≠ h) as Hpe by done.
  split.
  - constructor; cbn.
    + constructor.
      * by intros k ek [<- <-]%lookup_singleton_Some.
      * intros k ek p [<- <-]%lookup_singleton_Some [Heq _]%lookup_singleton_Some. by destruct Hpe.
    + intros p ep c [<- <-]%lookup_singleton_Some. split; [set_solver|].
      intros (ce & [<- <-]%lookup_singleton_Some & Heq). done.
    + exists h. intros k [ek [<- <-]%lookup_singleton_Some]. by apply anc_singleton.
    + exists e. by apply lookup_singleton_eq.
    + intros k ek [<- <-]%lookup_singleton_Some. rewrite anc_singleton; done.
    + apply (index_ok_singleton height h e).
    + apply (index_ok_singleton solution_hash h e).
    + exists e. split_and!; [by apply lookup_singleton_eq|done|].
      intros k ek [<- <-]%lookup_singleton_Some. split; [apply N.le_refl|done].
    + intros k ek [<- <-]%lookup_singleton_Some. apply N.le_refl.
  - cbn. unfold cache_of. cbn [blocks block_tree_depth tip].
    destruct (N.to_nat depth) as [|n]; cbn [collect_chain]; rewrite lookup_singleton_eq; cbn; [done|].
    destruct (height _ =? 0); [done|].
    replace (collect_chain _ n _) with (@nil Sealed, 0%nat); [done|].
    destruct n; cbn; by rewrite lookup_singleton_ne.
Qed.

(** ** The loop *)

(** Every block of the tree is an ancestor of [p] and may become canonical. *)
Record spine t (p : Header) : Prop := {
  spn_head : ∃ ep, blocks t !! block_hash p = Some ep ∧ hdr ep = p;
  spn_anc : ∀ k, is_Some (blocks t !! k) → anc (blocks t) k (block_hash p);
  spn_ready : ∀ k e, blocks t !! k = Some e → tip_ready (chain_state e) = true
}.

(** The next block of the index. *)
Lemma restore_add t p (b : Sealed) cs es ema now :
  tree_ok t → spine t p → follows p (header b) →
  blocks t !! block_hash (header b) = None →
  (∀ k e, blocks t !! k = Some e → parent e ≠ block_hash (header b)) →
  next_insertion_sequence t + 1 < 2 ^ 64 →
  ∃ t', add_common t (block_hash (header b)) b cs es ema (Validated ValidBlock) now = (t', Ok tt) ∧
    tree_ok t' ∧ spine t' (header b) ∧ tip t' = tip t ∧ block_tree_depth t' = block_tree_depth t ∧
    next_insertion_sequence t' = next_insertion_sequence t + 1 ∧
    hdr <$> blocks t' = <[block_hash (header b) := header b]> (hdr <$> blocks t).
Proof.
  intros Hok [(ep & Hep & Hpe) Hanc Hrd] (Hprev & Hh & Hd & Hg) Hn Hleaf Hseq.
  assert (add_ok t b) as Hadd.
  { constructor; try done. exists ep. by rewrite Hprev, Hpe. }
  destruct (add_common_ok t b cs es ema (Validated ValidBlock) now Hok Hadd)
    as (t' & Ha & Hok' & Htip & Hdep & Hnx & Hb); [done|].
  exists t'. set (e := mkMeta b _ _ _ _ _ _ _) in Hb.
  assert (blocks t !! parent e = Some ep) as Hpar by (unfold parent, hdr; cbn; by rewrite Hprev).
  split_and!; try done.
  - constructor; rewrite Hb.
    + exists e. unfold add_leaf. by rewrite lookup_insert_eq.
    + intros k [ek Hk]. apply anc_add_leaf; try done. rewrite decide_True by done.
      destruct (add_leaf_lookup _ _ e ep Hpar _ _ Hk) as [[-> _]|(_ & e0 & He0 & _)]; [by left|right].
      unfold parent, hdr. cbn. rewrite Hprev. apply Hanc. by eexists.
    + intros k ek Hk.
      destruct (add_leaf_lookup _ _ e ep Hpar _ _ Hk) as [[_ ->]|(_ & e0 & He0 & _ & -> & _)]; [done|].
      by eapply Hrd.
  - rewrite Hb. unfold add_leaf. rewrite fmap_insert. f_equal. apply map_eq. intros k.
    rewrite !lookup_fmap. symmetry. by apply same_headers_alter.
Qed.

(** Headers by their hash. *)
Definition by_hash (l : list Header) : gmap N Header := list_to_map ((λ x, (block_hash x, x)) <$> l).

Lemma by_hash_none l k : k ∉ block_hash <$> l → by_hash l !! k = None.
Proof.
  intros Hk. apply not_elem_of_list_to_map_1. by rewrite <- list_fmap_compose.
Qed.

Lemma by_hash_cons_union x l (M : gmap N Header) :
  block_hash x ∉ block_hash <$> l →
  by_hash l ∪ <[block_hash x := x]> M = by_hash (x :: l) ∪ M.
Proof.
  intros Hx. cbn. rewrite <- insert_union_l. symmetry. apply insert_union_r. by apply by_hash_none.
Qed.

Lemma hdr_lookup t k x : (hdr <$> blocks t) !! k = Some x ↔ ∃ e, blocks t !! k = Some e ∧ hdr e = x.
Proof. rewrite lookup_fmap, fmap_Some. naive_solver. Qed.

Lemma restore_loop_ok rest : ∀ t p now,
  tree_ok t → spine t p → linked p (hd_of <$> rest) →
  NoDup (block_hash <$> (hd_of <$> rest)) →
  (∀ k, k ∈ block_hash <$> (hd_of <$> rest) → blocks t !! k = None) →
  (∀ k e, blocks t !! k = Some e → parent e ∉ block_hash <$> (hd_of <$> rest)) →
  next_insertion_sequence t + N.of_nat (length rest) < 2 ^ 64 →
  ∃ t', restore_loop t rest now = (t', Ok tt) ∧ tree_ok t' ∧
    spine t' (default p (hd_of <$> last rest)) ∧ tip t' = tip t ∧
    block_tree_depth t' = block_tree_depth t ∧
    hdr <$> blocks t' = by_hash (hd_of <$> rest) ∪ (hdr <$> blocks t).
Proof.
  induction rest as [|[b [[cs es] ema]] rest IH]; intros t p now Hok Hsp Hlk Hnd Hnew Hpar Hseq.
  { exists t. split_and!; try done. cbn. by rewrite (left_id_L ∅ (∪)). }
  cbn [length] in Hseq. apply NoDup_cons in Hnd as [Hnb Hnd]. destruct Hlk as [Hf Hlk].
  destruct (restore_add t p b cs es ema now) as
    (t1 & Ha & Hok1 & Hsp1 & Htip1 & Hdep1 & Hnx1 & Hb1); try done.
  { apply Hnew. by left. }
  { intros k e He Heq. apply (Hpar k e He). rewrite Heq. by left. }
  { lia. }
  cbn [restore_loop]. rewrite Ha.
  assert (∀ k e, blocks t1 !! k = Some e → (k = block_hash (header b) ∧ hdr e = header b) ∨
    ∃ e0, blocks t !! k = Some e0 ∧ hdr e = hdr e0) as Hinv.
  { intros k e He. assert ((hdr <$> blocks t1) !! k = Some (hdr e)) as Hk
      by (rewrite lookup_fmap; by rewrite He).
    rewrite Hb1 in Hk. apply lookup_insert_Some in Hk as [[<- <-]|[_ (e0 & He0 & Hq)%hdr_lookup]];
      [by left|right]. by exists e0. }
  destruct (IH t1 (header b) now) as (t' & Hl & Hok' & Hsp' & Htip' & Hdep' & Hd'); try done.
  { intros k Hk. destruct (blocks t1 !! k) as [e|] eqn:He; [|done].
    destruct (Hinv k e He) as [[-> _]|(e0 & He0 & _)]; [done|].
    rewrite Hnew in He0; [done|by right]. }
  { intros k e He Hin. destruct (Hinv k e He) as [[-> Hq]|(e0 & He0 & Hq)]; unfold parent in Hin;
      rewrite Hq in Hin.
    - destruct Hf as [Hf _]. unfold hd_of in Hf. cbn in Hf. rewrite Hf in Hin.
      destruct Hsp as [(ep & Hep & _) _ _]. rewrite Hnew in Hep; [done|by right].
    - apply (Hpar k e0 He0). by right. }
  { lia. }
  exists t'. split_and!; try congruence.
  - rewrite last_cons. destruct (last rest); done.
  - rewrite Hd', Hb1. by apply (by_hash_cons_union (header b)).
Qed.

(** ** The sequence reset *)

Lemma set_seq_headers m : same_headers m (set_insertion_sequence 0 <$> m).
Proof. intros k. rewrite lookup_fmap. by destruct (m !! k). Qed.

Lemma set_seq_lookup m k e :
  (set_insertion_sequence 0 <$> m) !! k = Some e → ∃ e0, m !! k = Some e0 ∧ e = set_insertion_sequence 0 e0.
Proof. intros (e0 & ? & ?)%lookup_fmap_Some. by exists e0. Qed.

Lemma collect_chain_seq m n h : collect_chain (set_insertion_sequence 0 <$> m) n h = collect_chain m n h.
Proof.
  revert h. induction n as [|n IH]; intros h; cbn [collect_chain]; rewrite lookup_fmap;
    destruct (m !! h) as [e|]; cbn; try done. by rewrite IH.
Qed.

Lemma reset_sequences_ok t p : tree_ok t → spine t p → tree_ok (reset_sequences t) ∧ spine (reset_sequences t) p.
Proof.
  intros [[Hl Hc [r Hr] Ht Hst Hhi Hso (em & Hem & Hd & Hall) Hsq] Hca] [(ep & Hep & Hpe) Han Hrd].
  pose proof (set_seq_headers (blocks t)) as Hs. split; [split; [constructor; cbn|]|constructor; cbn].
  - by eapply links_ok_same_headers.
  - intros q eq c (e0 & He0 & ->)%set_seq_lookup. cbn. rewrite (Hc q e0 c He0). split.
    + intros (ce & Hce & <-). exists (set_insertion_sequence 0 ce). by rewrite lookup_fmap, Hce.
    + intros (ce & (ce0 & Hce0 & ->)%set_seq_lookup & <-). by exists ce0.
  - exists r. by eapply rooted_same_headers.
  - by rewrite lookup_fmap, fmap_is_Some.
  - intros k ek (e0 & He0 & ->)%set_seq_lookup. cbn. rewrite (Hst k e0 He0).
    by apply anc_same_headers_iff.
  - by eapply index_ok_same_headers.
  - by eapply index_ok_same_headers.
  - exists (set_insertion_sequence 0 em). rewrite lookup_fmap, Hem. split_and!; [done..|].
    intros k ek (e0 & He0 & ->)%set_seq_lookup. destruct (Hall k e0 He0) as [Hle _].
    split; [exact Hle|intros _; apply N.le_refl].
  - intros k ek (e0 & He0 & ->)%set_seq_lookup. cbn. lia.
  - cbn. rewrite Hca. unfold cache_of. cbn. by rewrite collect_chain_seq.
  - exists (set_insertion_sequence 0 ep). by rewrite lookup_fmap, Hep.
  - intros k. rewrite lookup_fmap, fmap_is_Some. intros Hk. by apply (anc_same_headers _ _ _ _ Hs), Han.
  - intros k ek (e0 & He0 & ->)%set_seq_lookup. exact (Hrd k e0 He0).
Qed.

(** ** The tip and the prune *)

Lemma spine_no_tie t p ep :
  tree_ok t → spine t p → blocks t !! block_hash p = Some ep → ties_max t (block_hash p) ep = false.
Proof.
  intros [[Hl _ _ _ _ _ _ (em & Hem & Hd & _) _] _] Hsp Hep. unfold ties_max.
  apply andb_false_iff. destruct (N.eqb_spec (max_cumulative_difficulty t).2 (block_hash p)) as [|Hne];
    [by right|left]. apply N.eqb_neq.
  assert (anc (blocks t) (max_cumulative_difficulty t).2 (block_hash p)) as Ha
    by (apply Hsp; by eexists).
  destruct (anc_height _ Hl _ _ _ _ Ha Hem Hep) as [|Hlt]; [done|]. lia.
Qed.

(** Marking a root that is the tip already. *)
Lemma mark_tip_root t e :
  tree_ok t → blocks t !! tip t = Some e → blocks t !! parent e = None →
  ties_max t (tip t) e = false →
  mark_tip t (tip t) = (update_longest_chain_cache t, Ok false).
Proof.
  intros Hok He Hp Htie. unfold mark_tip. rewrite He. unfold ties_max in Htie.
  destruct (max_cumulative_difficulty t) as [md mh] eqn:Hmx. cbn [fst snd] in Htie. rewrite Htie.
  unfold mark_on_chain, walk_fuel_of. cbn [mark_on_chain_fuel].
  change (previous_block_hash (hdr e)) with (parent e). rewrite Hp, N.eqb_refl. cbn.
  assert (alter (set_state Onchain) (tip t) (blocks t) = blocks t) as ->; [|by destruct t].
  apply map_eq. intros k. destruct (decide (k = tip t)) as [->|Hk]; [|by rewrite lookup_alter_ne].
  rewrite lookup_alter_eq, He. cbn. f_equal.
  assert (chain_state e = Onchain) as Ho.
  { apply (ok_states _ (ok_core _ Hok) _ e He). by eapply anc_refl. }
  unfold set_state. rewrite <- Ho. by destruct e.
Qed.

Lemma mark_tip_spine t p :
  tree_ok t → spine t p → (tip t = block_hash p → blocks t !! previous_block_hash p = None) →
  ∃ t' changed, mark_tip t (block_hash p) = (t', Ok changed) ∧ tree_ok t' ∧
    tip t' = block_hash p ∧ same_headers (blocks t) (blocks t') ∧
    block_tree_depth t' = block_tree_depth t.
Proof.
  intros Hok Hsp Hroot. destruct (spn_head _ _ Hsp) as (ep & Hep & Hpe).
  pose proof (spine_no_tie t p ep Hok Hsp Hep) as Htie.
  pose proof (ok_links _ (ok_core _ Hok)) as Hl.
  destruct (decide (tip t = block_hash p)) as [Htp|Htp].
  - specialize (Hroot Htp). rewrite <- Htp in *. eexists _, _. split.
    + apply (mark_tip_root t ep); try done. unfold parent. by rewrite Hpe.
    + rewrite update_cache_eq. cbn. split_and!; try done.
      rewrite <- update_cache_eq. apply update_cache_ok, Hok.
  - assert (¬ anc (blocks t) (block_hash p) (tip t)) as Hna.
    { intros Ha. apply Htp. apply (anc_antisym _ Hl); [|done]. apply Hsp, Hok. }
    destruct (mark_tip_cases t _ ep Hok Hep Hna)
      as [[? _]|[(_ & _ & t1 & Hm & Hok1 & Hmv)|(_ & (k & e0 & _ & He0 & Hbad) & _)]].
    + congruence.
    + exists t1, true. destruct Hmv as (? & ?%same_but_state_headers & _ & _ & ? & _). by split_and!.
    + by rewrite (spn_ready _ _ Hsp k e0 He0) in Hbad.
Qed.

(** A pruned spine keeps exactly the blocks within the depth of the tip. *)
Lemma prune_spine t p depth :
  tree_ok t → tip t = block_hash p → spine t p →
  ∃ t', prune t depth = (t', Ok tt) ∧ tree_ok t' ∧ tip t' = tip t ∧
    ∀ k x, (hdr <$> blocks t') !! k = Some x ↔
      (hdr <$> blocks t) !! k = Some x ∧ height p - depth ≤ height x.
Proof.
  intros Hok Htp Hsp. pose proof (ok_links _ (ok_core _ Hok)) as Hl.
  destruct (spn_head _ _ Hsp) as (ep & Hep & Hpe). destruct (ok_root _ (ok_core _ Hok)) as [r Hr].
  destruct (anc_lookup_l _ _ _ (Hr _ (ok_tip _ (ok_core _ Hok)))) as [er Her].
  rewrite <- Htp in Hep.
  destruct (prune_ok t depth r er ep Hok Hr Her Hep)
    as (t' & b & eb & Hp & Hok' & _ & Hbt & Hb & Hhb & Hrm).
  exists t'. split_and!; [done..|apply (rm_tip _ _ _ Hrm)|]. rewrite Hpe in Hhb.
  assert (∀ k e, blocks t !! k = Some e → anc (blocks t) b k ↔ height p - depth ≤ height (hdr e)) as Hiff.
  { intros k e He. assert (anc (blocks t) k (tip t)) as Hkt by (rewrite Htp; apply Hsp; by eexists).
    assert (height (hdr er) ≤ height (hdr e)) as Hre.
    { assert (anc (blocks t) r k) as Hrk by (apply Hr; by eexists).
      destruct (anc_height _ Hl r k er e Hrk Her He) as [Heq|?]; [|lia].
      rewrite <- Heq in He. simplify_eq. lia. }
    split; intros Hx.
    - destruct (anc_height _ Hl b k eb e Hx Hb He) as [Heq|?]; [|lia].
      rewrite <- Heq in He. simplify_eq. lia.
    - destruct (anc_linear _ _ _ _ Hbt Hkt) as [|Hkb]; [done|].
      destruct (anc_height _ Hl k b e eb Hkb He Hb) as [->|?]; [|lia]. by eapply anc_refl. }
  intros k x. rewrite !hdr_lookup. split.
  - intros (e' & He' & <-). destruct (removed_lookup _ _ _ _ _ Hrm He') as (Hn & e & He & Hs).
    apply strip_fields in Hs as (-> & _). split; [by exists e|]. apply (Hiff k e He).
    destruct (anc_dec (blocks t) b k Hl) as [|Hnb]; [done|]. destruct Hn. split; [by eexists|done].
  - intros [(e & He & <-) Hh]. apply (Hiff k e He) in Hh.
    destruct (removed_keeps _ _ _ k e Hrm) as (e' & He' & Hs); [by intros [_ ?]|done|].
    exists e'. by apply strip_fields in Hs as (-> & _).
Qed.

Lemma spine_moved t t' p :
  tree_ok t' → tip t' = block_hash p → same_headers (blocks t) (blocks t') → spine t p → spine t' p.
Proof.
  intros Hok' Htp Hs [(ep & Hep & Hpe) Han _].
  assert (∀ k, is_Some (blocks t' !! k) → anc (blocks t') k (block_hash p)) as Han'.
  { intros k [e' He']. apply (anc_same_headers _ _ _ _ Hs), Han.
    destruct (same_headers_lookup _ _ _ _ (same_headers_sym _ _ Hs) He') as (e & He & _). by eexists. }
  constructor; [|done|].
  - destruct (same_headers_lookup _ _ _ _ Hs Hep) as (e' & He' & Hh). exists e'. by rewrite Hh.
  - intros k e He. assert (chain_state e = Onchain) as ->; [|done].
    apply (ok_states _ (ok_core _ Hok') k e He). rewrite Htp. apply Han'. by eexists.
Qed.

Lemma same_headers_map m m' : same_headers m m' → hdr <$> m = hdr <$> m'.
Proof. intros Hs. apply map_eq. intros k. rewrite !lookup_fmap. apply Hs. Qed.

Lemma restore_from_blocks_ok (start : Sealed) (s : Snapshots) rest now depth mig :
  chain_ok (header start) (hd_of <$> rest) → N.of_nat (length rest) < 2 ^ 64 →
  let p := default (header start) (hd_of <$> last rest) in
  ∃ t, restore_from_blocks start s rest now depth mig = (t, Ok tt) ∧ tree_ok t ∧
    tip t = block_hash p ∧
    ∀ k x, (hdr <$> blocks t) !! k = Some x ↔
      by_hash (header start :: (hd_of <$> rest)) !! k = Some x ∧ height p - (depth - 1) ≤ height x.
Proof.
  intros (Hlk & [Hns Hnd]%NoDup_cons & Hpv) Hlen p.
  apply not_elem_of_cons in Hpv as [Hps Hpr].
  set (t0 := start_tree start s now depth mig).
  assert (blocks t0 = {[block_hash (header start) := mkMeta start Onchain now ∅ s.1.2 s.1.1 s.2 0]}
    ∧ next_insertion_sequence t0 = 0 ∧ tip t0 = block_hash (header start)) as (Hb0 & Hn0 & Ht0)
    by (unfold t0, start_tree; by destruct s as [[cs es] ema]).
  assert (tree_ok t0) as Hok0 by (by apply start_tree_ok).
  assert (spine t0 (header start)) as Hsp0.
  { constructor; rewrite Hb0.
    - eexists. by rewrite lookup_singleton_eq.
    - intros k [ek [<- _]%lookup_singleton_Some]. by apply anc_singleton.
    - by intros k e [_ <-]%lookup_singleton_Some. }
  destruct (restore_loop_ok rest t0 (header start) now) as (t1 & Hl & Hok1 & Hsp1 & Ht1 & _ & Hd1);
    try done.
  { intros k Hk. rewrite Hb0. apply lookup_singleton_ne. by intros <-. }
  { intros k e. rewrite Hb0. by intros [_ <-]%lookup_singleton_Some. }
  { by rewrite Hn0. }
  fold p in Hsp1. destruct (reset_sequences_ok t1 p Hok1 Hsp1) as [Hok2 Hsp2].
  destruct (mark_tip_spine (reset_sequences t1) p Hok2 Hsp2) as (t3 & ch & Hm & Hok3 & Ht3 & Hs3 & _).
  { cbn. rewrite Ht1, Ht0. intros Heq. unfold p in *. destruct rest as [|x rest] using rev_ind.
    - cbn in *. injection Hl as <-. rewrite Hb0, lookup_fmap, lookup_singleton_ne; done.
    - exfalso. apply Hns. rewrite last_snoc in Heq. cbn in Heq. rewrite Heq.
      rewrite !fmap_app. cbn. set_solver. }
  destruct (prune_spine t3 p (depth - 1) Hok3 Ht3) as (t4 & Hp4 & Hok4 & Ht4 & Hd4).
  { by eapply spine_moved. }
  exists t4. unfold restore_from_blocks. fold t0. rewrite Hl.
  replace (match last rest with Some (b, _) => block_hash (header b) | None => _ end)
    with (block_hash p) by (unfold p; by destruct (last rest) as [[]|]).
  rewrite Hm, Hp4. split_and!; [done..|congruence|]. intros k x.
  rewrite Hd4, <- (same_headers_map _ _ Hs3). cbn [blocks reset_sequences with_next_seq with_blocks].
  rewrite <- (same_headers_map _ _ (set_seq_headers (blocks t1))), Hd1, Hb0, map_fmap_singleton.
  rewrite <- insert_empty, by_hash_cons_union by done. by rewrite (right_id_L ∅ (∪)).
Qed.

(** The block index is a chain whose positions are heights. *)
Definition index_chain (index : list (Sealed * Snapshots)) : Prop :=
  (∀ i x, index !! i = Some x → height (hd_of x) = N.of_nat i) ∧
  (∀ i x y, index !! i = Some x → index !! S i = Some y → follows (hd_of x) (hd_of y)) ∧
  NoDup (block_hash ∘ hd_of <$> index) ∧
  (∀ i x, index !! i = Some x → i = 0%nat → previous_block_hash (hd_of x) ∉ block_hash ∘ hd_of <$> index).

Lemma index_linked index i x rest :
  index_chain index → drop i index = x :: rest → linked (hd_of x) (hd_of <$> rest).
Proof.
  intros (_ & Hf & _). revert i x. induction rest as [|y rest IH]; intros i x Hd; [done|].
  assert (index !! i = Some x) as Hx.
  { rewrite <- (Nat.add_0_r i), <- lookup_drop, Hd. done. }
  assert (index !! S i = Some y) as Hy.
  { rewrite <- Nat.add_1_r, <- lookup_drop, Hd. done. }
  split; [by eapply Hf|]. apply (IH (S i)). by rewrite <- Nat.add_1_r, <- drop_drop, Hd.
Qed.

Lemma index_chain_ok index i x rest :
  index_chain index → drop i index = x :: rest → chain_ok (hd_of x) (hd_of <$> rest).
Proof.
  intros Hic Hd. pose proof (index_linked _ _ _ _ Hic Hd) as Hlk.
  destruct Hic as (_ & Hf & Hnd & H0).
  assert (index !! i = Some x) as Hx.
  { rewrite <- (Nat.add_0_r i), <- lookup_drop, Hd. done. }
  assert (block_hash ∘ hd_of <$> index =
    (block_hash ∘ hd_of <$> take i index) ++ block_hash (hd_of x) :: (block_hash <$> (hd_of <$> rest))) as Heq.
  { rewrite <- (take_drop i index) at 1. rewrite fmap_app, Hd, fmap_cons. by rewrite <- list_fmap_compose. }
  pose proof Hnd as Hnd'. rewrite Heq in Hnd'. apply NoDup_app in Hnd' as (_ & Hdis & Hnr).
  split_and!; [done..|]. destruct i as [|i].
  - pose proof (H0 0%nat x Hx eq_refl) as Hn. by rewrite Heq in Hn.
  - destruct (lookup_lt_is_Some_2 index i) as [y Hy]; [apply lookup_lt_Some in Hx; lia|].
    destruct (Hf i y x Hy Hx) as [-> _]. apply Hdis. apply list_elem_of_fmap. exists y. split; [done|].
    apply list_elem_of_lookup. exists i. rewrite lookup_take_lt by lia. done.
Qed.

Lemma by_hash_lookup l k x :
  NoDup (block_hash <$> l) → by_hash l !! k = Some x ↔ x ∈ l ∧ block_hash x = k.
Proof.
  intros Hnd. unfold by_hash. rewrite <- elem_of_list_to_map.
  - rewrite list_elem_of_fmap. split; [intros (y & [= -> ->] & ?); done|]. intros [? <-]. by exists x.
  - by rewrite <- list_fmap_compose.
Qed.

Lemma restore_from_db_ok (index : list (Sealed * Snapshots)) now depth mig :
  index_chain index → index ≠ [] → N.of_nat (length index) < 2 ^ 64 → mig ≤ depth - 1 →
  let floor := restore_cache_floor (N.of_nat (length index) - 1) depth mig in
  ∃ t, restore_from_db index now depth mig = (Some t, Ok tt) ∧ tree_ok t ∧
    (∃ x, last index = Some x ∧ tip t = block_hash (hd_of x)) ∧
    ∀ k x, (hdr <$> blocks t) !! k = Some x ↔
      ∃ i y, index !! i = Some y ∧ hd_of y = x ∧ block_hash x = k ∧ floor ≤ N.of_nat i.
Proof.
  intros Hic Hne Hlen Hmig floor. unfold restore_from_db. fold floor.
  assert (0 < length index)%nat as Hpos by (destruct index; cbn; [done|lia]).
  destruct (N.eqb_spec (N.of_nat (length index)) 0); [lia|].
  assert (N.to_nat floor < length index)%nat as Hfl by (unfold floor, restore_cache_floor; lia).
  destruct (drop (N.to_nat floor) index) as [|[b s] rest] eqn:Hd.
  { apply (f_equal length) in Hd. rewrite length_drop in Hd. cbn in Hd. lia. }
  pose proof (index_chain_ok _ _ _ _ Hic Hd) as Hch. change (hd_of (b, s)) with (header b) in Hch.
  assert (length index = N.to_nat floor + S (length rest))%nat as Hll.
  { apply (f_equal length) in Hd. rewrite length_drop in Hd. cbn in Hd. lia. }
  destruct (restore_from_blocks_ok b s rest now depth mig Hch) as (t & -> & Hok & Htip & Hdom); [lia|].
  assert (last index = Some (default (b, s) (last rest))) as Hlast.
  { rewrite <- (take_drop (N.to_nat floor) index), Hd, last_app_cons. rewrite last_cons.
    by destruct (last rest). }
  set (z := default (b, s) (last rest)) in *.
  assert (default (header b) (hd_of <$> last rest) = hd_of z) as Hz by (unfold z; by destruct (last rest)).
  rewrite Hz in *. exists t. split_and!; [done|done|by exists z|]. intros k x. rewrite Hdom.
  assert (height (hd_of z) = N.of_nat (length index) - 1) as Hhz.
  { destruct Hic as [Hh _]. rewrite (Hh (pred (length index)) z); [lia|]. by rewrite <- last_lookup. }
  rewrite by_hash_lookup by apply Hch. rewrite <- (fmap_cons hd_of (b, s)), <- Hd.
  rewrite list_elem_of_fmap. destruct Hic as [Hh _]. split.
  - intros [[(y & -> & (j & Hj)%list_elem_of_lookup) <-] _]. rewrite lookup_drop in Hj.
    exists (N.to_nat floor + j)%nat, y. split_and!; [done..|lia].
  - intros (i & y & Hy & <- & <- & Hi). split; [split; [|done]|].
    + exists y. split; [done|]. apply list_elem_of_lookup. exists (i - N.to_nat floor)%nat.
      rewrite lookup_drop. rewrite <- Hy. f_equal. lia.
    + rewrite (Hh i y Hy), Hhz. unfold floor, restore_cache_floor in Hi. lia.
Qed.
End Restore.
