(* ===== verification/BlockTreeQueryFacts.v ===== *)
(** The queries on a tree with the invariant: validated head, progress after a discard,
    canonical entry by VDF step, equivocation lookup. *)

From S2P Require Import Prelude BlockTree Lineage BlockTreeQueries BlockTreeInv BlockTreeTip.
From S2P Require Import BlockTreeRemove BlockTreePrune BlockTreeService.
From S2P Require Import BlockTreeService.
From stdpp Require Import gmap sorting.

#[local] Open Scope N_scope.

(** The states of a block whose full validation succeeded. *)
Definition fully_validated (s : ChainState) : bool :=
  match s with Onchain | NotOnchain ValidBlock | Validated ValidBlock => true | _ => false end.

Section QueryFacts.
  Context `{HashOrder}.
  Context {Body CommitmentSnapshot EpochSnapshot EmaSnapshot : Type}.
  Notation Meta := (@BlockMetadata Body CommitmentSnapshot EpochSnapshot EmaSnapshot).
  Notation Tree := (@BlockTree Body CommitmentSnapshot EpochSnapshot EmaSnapshot).
  Notation Sealed := (@SealedBlock Body).
  Implicit Types (t : Tree) (m : gmap N Meta) (e : Meta).

(** ** The validated head *)

(** The block and all its ancestors are fully validated. *)
Definition validated_back m (h : N) : Prop :=
  is_Some (m !! h) ∧ ∀ k e, anc m k h → m !! k = Some e → fully_validated (chain_state e) = true.

Lemma validated_back_step m h e :
  m !! h = Some e → is_Some (m !! parent e) →
  validated_back m h ↔ fully_validated (chain_state e) = true ∧ validated_back m (parent e).
Proof.
  intros He Hp. split.
  - intros [_ Hv]. split; [apply (Hv h e); [by eapply anc_refl|done]|]. split; [done|].
    intros k ek Hk. apply Hv. by eapply anc_up.
  - intros [Hs [_ Hv]]. split; [by eexists|]. intros k ek Hk Hek.
    apply (anc_inv m k h e He) in Hk as [->|Hk]; [by simplify_eq|by apply (Hv k)].
Qed.

(** Canonical blocks are fully validated, with their ancestors. *)
Lemma onchain_validated_back t h e :
  tree_ok t → blocks t !! h = Some e → chain_state e = Onchain → validated_back (blocks t) h.
Proof.
  intros [Hco _] He Ho. split; [by eexists|]. intros k ek Hk Hek.
  apply (ok_states _ Hco h e He) in Ho.
  rewrite (proj2 (ok_states _ Hco k ek Hek)); [done|]. by eapply anc_trans.
Qed.

Lemma offchain_parent t h e :
  tree_ok t → blocks t !! h = Some e → chain_state e ≠ Onchain → is_Some (blocks t !! parent e).
Proof.
  intros [Hco _] He Hn. destruct (ok_root _ Hco) as [r Hr].
  assert (anc (blocks t) r h) as Hrh by (apply Hr; by eexists).
  apply (anc_inv _ _ _ _ He) in Hrh as [->|Ha%anc_lookup_r]; [|done].
  destruct Hn. apply (ok_states _ Hco h e He). apply Hr, Hco.
Qed.

(** The best validated prefix of the ancestry of [h]. *)
Definition head_of m (h v : N) : Prop :=
  anc m v h ∧ validated_back m v ∧ ∀ k, anc m k h → validated_back m k → anc m k v.

Lemma validated_head_walk_ok t (Hok : tree_ok t) : ∀ h e n acc,
  blocks t !! h = Some e → (length (lineage (blocks t) h) ≤ n)%nat →
  ∃ v, validated_head_walk n (blocks t) acc h = Some v ∧
    ((validated_back (blocks t) h ∧ v = default h acc) ∨
     (¬ validated_back (blocks t) h ∧ head_of (blocks t) h v)).
Proof.
  pose proof (ok_links _ (ok_core _ Hok)) as Hl. set (m := blocks t) in *.
  apply (lineage_ind m Hl (fun h => ∀ e n acc, m !! h = Some e → _ → _)); [congruence|].
  intros h eh Hh IH e n acc He Hn. assert (eh = e) as -> by congruence. rewrite (lineage_some m h e Hl He) in Hn.
  cbn [length] in Hn. destruct n as [|n]; [lia|]. cbn [validated_head_walk]. rewrite He.
  destruct (decide (chain_state e = Onchain)) as [Ho|Ho].
  { rewrite Ho. eexists. split; [done|]. left. split; [|done]. by eapply onchain_validated_back. }
  destruct (offchain_parent t h e Hok He Ho) as [p Hp]. fold m in Hp.
  pose proof (validated_back_step m h e He ltac:(by eexists)) as Hvb.
  assert (∀ v, head_of m (parent e) v → ¬ validated_back m h → head_of m h v) as Hup.
  { intros v (Hv1 & Hv2 & Hv3) Hnv. split_and!; [by eapply anc_up|done|]. intros k Hk Hkv.
    apply (anc_inv m k h e He) in Hk as [->|Hk]; [done|by apply Hv3]. }
  assert (∀ a, ∃ v, validated_head_walk n m a (parent e) = Some v ∧
    ((validated_back m (parent e) ∧ v = default (parent e) a) ∨
     (¬ validated_back m (parent e) ∧ head_of m (parent e) v))) as IH' by (intros a; apply (IH p); [done|lia]).
  destruct (fully_validated (chain_state e)) eqn:Hfv.
  - destruct (IH' (Some (default h acc))) as (v & Hw & [[Hv ->]|[Hv Hb]]).
    + exists (default h acc). split; [destruct (chain_state e) as [|[]|[]]; done|left]. split; [|done].
      by apply Hvb.
    + exists v. assert (¬ validated_back m h) by (rewrite Hvb; naive_solver).
      split; [destruct (chain_state e) as [|[]|[]]; done|right]. by split; [|apply Hup].
  - assert (¬ validated_back m h) as Hnv by (rewrite Hvb; naive_solver).
    destruct (IH' None) as (v & Hw & Hv). exists v.
    split; [destruct (chain_state e) as [|[]|[]]; done|right]. split; [done|]. apply Hup; [|done].
    destruct Hv as [[Hv ->]|[_ Hb]]; [|done]. cbn.
    split_and!; [by eapply anc_refl|done|]. by intros k Hk _.
Qed.

Lemma validated_head_ok t :
  tree_ok t → ∃ v, get_max_chain_validated_head t = Some v ∧
    head_of (blocks t) (max_cumulative_difficulty t).2 v.
Proof.
  intros Hok. destruct (ok_max _ (ok_core _ Hok)) as (em & Hem & _).
  pose proof (lineage_size (blocks t) (max_cumulative_difficulty t).2 (ok_links _ (ok_core _ Hok))).
  destruct (validated_head_walk_ok t Hok _ em (walk_fuel_of (blocks t)) None Hem) as (v & Hw & Hv);
    [unfold walk_fuel_of; lia|]. exists v. split; [done|].
  destruct Hv as [[Hv ->]|[_ Hv]]; [|done]. cbn. split_and!; [by eapply anc_refl|done|].
  by intros k Hk _.
Qed.

Lemma validated_head_max t :
  tree_ok t → validated_back (blocks t) (max_cumulative_difficulty t).2 →
  get_max_chain_validated_head t = Some (max_cumulative_difficulty t).2.
Proof.
  intros Hok Hv. destruct (validated_head_ok t Hok) as (v & -> & Hv1 & _ & Hv3). f_equal.
  destruct Hv as [[e He] Hv]. apply (anc_antisym _ (ok_links _ (ok_core _ Hok))); [done|].
  apply Hv3; [by eapply anc_refl|]. split; [by eexists|done].
Qed.

(** ** Progress after a discard *)

(** [h] forks off the canonical chain at [a] or later, and the fork fits the cache window. *)
Definition fork_in_window t (h : N) : Prop :=
  ∃ a ea e, blocks t !! h = Some e ∧ blocks t !! a = Some ea ∧ anc (blocks t) a h ∧
    anc (blocks t) a (tip t) ∧ height (hdr e) - (block_tree_depth t - 1) ≤ height (hdr ea).

Lemma earliest_walk_some t a ea (Hok : tree_ok t) : blocks t !! a = Some ea → anc (blocks t) a (tip t) →
  ∀ n h e, blocks t !! h = Some e → anc (blocks t) a h → chain_state e ≠ Onchain →
    validated_back (blocks t) h → height (hdr e) ≤ height (hdr ea) + N.of_nat n →
    is_Some (earliest_not_onchain_walk t n e).
Proof.
  intros Ha Hat. pose proof (ok_core _ Hok) as Hco. pose proof (ok_links _ Hco) as Hl.
  induction n as [|n IH]; intros h e He Hah Ho Hv Hn.
  all: assert (a ≠ h) as Hne by (intros ->; simplify_eq; by apply Ho, (ok_states _ Hco h)).
  all: destruct (anc_height _ Hl a h ea e Hah Ha He) as [|Hlt]; [done|].
  { lia. }
  cbn [earliest_not_onchain_walk]. destruct (N.eqb_spec (height (hdr e)) 0); [lia|].
  destruct (offchain_parent t h e Hok He Ho) as [p Hp]. rewrite Hp.
  assert (is_Some (blocks t !! parent e)) as Hps by by eexists.
  destruct (proj1 (validated_back_step _ h e He Hps) Hv) as [_ Hvp].
  assert (fully_validated (chain_state p) = true) as Hfv
    by (apply (proj2 Hvp (parent e)); [by eapply anc_refl|done]).
  destruct (chain_state p) as [|[]|[]] eqn:Hst; try done.
  apply (IH (parent e)); try done; [|congruence|].
  - apply (anc_inv _ _ _ _ He) in Hah as [|]; [done|done].
  - destruct (lk_parent _ Hl h e p He Hp) as [Hh _]. lia.
Qed.

Lemma earliest_not_onchain_some t em :
  tree_ok t → blocks t !! (max_cumulative_difficulty t).2 = Some em →
  (∃ eo, blocks t !! tip t = Some eo ∧ cumulative_diff (hdr eo) < cumulative_diff (hdr em)) →
  validated_back (blocks t) (max_cumulative_difficulty t).2 →
  fork_in_window t (max_cumulative_difficulty t).2 →
  is_Some (get_earliest_not_onchain_in_longest_chain t).
Proof.
  intros Hok Hem (eo & Heo & Hlt) Hv (a & ea & e & He & Ha & Hah & Hat & Hw).
  assert (e = em) as -> by congruence. clear He.
  pose proof (ok_core _ Hok) as Hco.
  unfold get_earliest_not_onchain_in_longest_chain, get_earliest_not_onchain.
  destruct (ok_max _ Hco) as (em' & Hem' & Hd & _).
  assert (em' = em) as -> by congruence. clear Hem'.
  destruct (max_cumulative_difficulty t) as [md mh]. cbn in *. rewrite Heo. cbn.
  destruct (N.leb_spec md (cumulative_diff (hdr eo))); [lia|]. rewrite Hem. cbn.
  assert (chain_state em ≠ Onchain) as Ho.
  { intros Ho%(ok_states _ Hco mh em Hem). by apply (heavier_not_anc t mh em eo (ok_links _ Hco)). }
  rewrite (proj2 (is_onchain_false _) Ho). by eapply (earliest_walk_some t a ea); try done; lia.
Qed.

(** The fork point of the split is the latest common ancestor. *)
Lemma split_lca_latest m new old s a nys oys k ek ea :
  links_ok m → split_ok m new old s a nys oys → m !! a = Some ea →
  anc m k new → anc m k old → m !! k = Some ek → height (hdr ek) ≤ height (hdr ea).
Proof.
  intros Hl [_ Hn Ho _ _ Hdis] Ha Hkn Hko Hk.
  assert (is_Some (m !! a)) as Has by by eexists.
  assert (anc m a new) as Han by (by eapply path_down_anc).
  destruct (anc_linear _ _ _ _ Hkn Han) as [Hka|Hak].
  - destruct (anc_height _ Hl k a ek ea Hka Hk Ha) as [->|?]; [by simplify_eq|lia].
  - destruct (decide (k = a)) as [->|Hne]; [by simplify_eq|].
    destruct (Hdis k); [|done]. apply (path_down_elem m a oys old k Hl Has Ho). by split_and!.
Qed.

(** Once every block of the heaviest chain is validated, the tip moves to it. *)
Lemma move_to_max env t em :
  tree_ok t → blocks t !! (max_cumulative_difficulty t).2 = Some em →
  (∃ eo, blocks t !! tip t = Some eo ∧ cumulative_diff (hdr eo) < cumulative_diff (hdr em)) →
  validated_back (blocks t) (max_cumulative_difficulty t).2 →
  fork_in_window t (max_cumulative_difficulty t).2 →
  (∀ t', env_markers env t' = true) → (∀ h, env_recover env h = true) →
  ∃ t' mv, move_tip_after_discard env t = (t', Ok (Some mv)) ∧ tip t' = (max_cumulative_difficulty t).2.
Proof.
  intros Hok Hem (eo & Heo & Hlt) Hv Hw Hmk Hrec. pose proof (ok_core _ Hok) as Hco.
  set (h := (max_cumulative_difficulty t).2) in *.
  destruct (earliest_not_onchain_some t em Hok Hem) as [x Hx]; [by exists eo|done..|].
  unfold move_tip_after_discard. rewrite Hx. fold h.
  rewrite (decide_True _ _ (validated_head_max t Hok Hv)).
  destruct (try_move_tip_to env t h) as [t' r] eqn:Htm.
  pose proof (try_move_tip_to_cases env t h t' r Hok Htm) as Hout.
  unfold try_move_tip_to, get_block in Htm. rewrite Hem, Heo in Htm. cbn in Htm.
  destruct (N.leb_spec (cumulative_diff (hdr em)) (cumulative_diff (hdr eo))); [lia|].
  fold h in Htm. rewrite N.eqb_refl, andb_false_r, (lk_hash _ (ok_links _ Hco) _ _ Heo) in Htm.
  destruct (ok_root _ Hco) as [r0 Hr0].
  destruct (find_reorg_split_ok t h (tip t) r0 (ok_links _ Hco) Hr0)
    as (s & a & nys & oys & Hs & Hsp); [by eexists..|]. rewrite Hs in Htm.
  destruct (sp_lca _ _ _ _ _ _ _ Hsp) as (ea & Ha & Hlca).
  destruct Hw as (k & ek & e & He & Hk & Hkh & Hkt & Hwin).
  assert (e = em) as -> by congruence.
  pose proof (split_lca_latest _ _ _ _ _ _ _ k ek ea (ok_links _ Hco) Hsp Ha Hkh Hkt Hk).
  unfold validate_reorg_within_cache_window in Htm. rewrite Hlca in Htm. fold (hdr ea) in Htm.
  destruct (N.ltb_spec (height (hdr ea)) (height (hdr em) - (block_tree_depth t - 1))); [lia|].
  destruct (mark_tip_cases t h em Hok Hem (heavier_not_anc _ _ _ _ (ok_links _ Hco) Hem Heo Hlt))
    as [[Ht2 _]|[(_ & _ & t1 & Hm & Hok1 & Hmv)|(_ & (x' & e0 & Hx1 & Hx2 & Hx3) & _)]].
  - unfold ties_max in Ht2. fold h in Ht2. by rewrite N.eqb_refl, andb_false_r in Ht2.
  - destruct (finish_move env t t1 h em eo s a nys oys) as (t2 & Hp & _); try done.
    { by rewrite Hlca. }
    rewrite Hm, Hmk, Hp in Htm.
    unfold classify_move in Htm. destruct (old_divergent s) as [|o os]; cbn [fmap result_fmap] in Htm;
      [|rewrite Hrec in Htm; destruct (_ <? _); cbn in Htm]; injection Htm as <- <-;
      (eexists _, _; split; [done|apply Hout]).
  - destruct Hv as [_ Hv]. specialize (Hv x' e0 ltac:(by eapply anc_up) Hx2).
    by destruct (chain_state e0) as [|[]|[]].
Qed.

(** ** Canonical entry by VDF step *)

Lemma lineage_steps m h :
  links_ok m →
  StronglySorted (fun x y => global_step_number (hdr y.2) < global_step_number (hdr x.2)) (lineage m h).
Proof.
  intros Hl. revert h. apply (lineage_ind m Hl).
  - intros h Hh. rewrite lineage_none by done. constructor.
  - intros h e He IH. rewrite (lineage_some m h e Hl He). constructor; [done|].
    apply Forall_forall. intros [k ek] Hk. pose proof (lineage_lookup _ _ _ _ Hl Hk) as Hek. cbn.
    assert (anc m k (parent e)) as Ha.
    { apply lineage_anc; [done|]. apply list_elem_of_fmap. by exists (k, ek). }
    destruct (anc_height _ Hl k h ek e) as [->|]; try done; [by eapply anc_up| |lia].
    by apply (not_anc_parent _ Hl h e He) in Ha.
Qed.

Lemma canonical_steps t :
  tree_ok t →
  StronglySorted (fun a b => global_step_number (header a) < global_step_number (header b))
    (get_canonical_chain t).1.
Proof.
  intros Hok. unfold get_canonical_chain. rewrite (canonical_chain_eq t Hok). cbn [fst].
  apply StronglySorted_rev. unfold lineage_blocks. eapply StronglySorted_fmap.
  2: { apply StronglySorted_take, lineage_steps, (ok_core _ Hok). }
  done.
Qed.

Lemma partition_point_le {A} (p : A → bool) l : (partition_point p l ≤ length l)%nat.
Proof. induction l as [|x l IH]; cbn; [lia|]. destruct (p x); lia. Qed.

Lemma canonical_entry_spec t step :
  tree_ok t →
  match canonical_entry_at_or_below_step t step with
  | Some b => b ∈ (get_canonical_chain t).1 ∧ global_step_number (header b) ≤ step ∧
      ∀ b', b' ∈ (get_canonical_chain t).1 → global_step_number (header b') ≤ step →
        global_step_number (header b') ≤ global_step_number (header b)
  | None => ∀ b', b' ∈ (get_canonical_chain t).1 → step < global_step_number (header b')
  end.
Proof.
  intros Hs%canonical_steps. unfold canonical_entry_at_or_below_step, get_canonical_chain in *.
  induction Hs as [|b l Hs IH Hall]; cbn; [by intros b' ?%elem_of_nil|].
  rewrite Forall_forall in Hall.
  destruct (N.leb_spec (global_step_number (header b)) step) as [Hle|Hgt].
  - destruct (partition_point _ l) as [|i] eqn:Hpi.
    + cbn. split_and!; [by left|done|]. intros b' [->|Hb]%elem_of_cons Hb'; [lia|].
      specialize (IH b' Hb). lia.
    + pose proof (partition_point_le (fun b => global_step_number (header b) <=? step) l) as Hpp.
      rewrite Hpi in Hpp.
      destruct (lookup_lt_is_Some_2 l i) as [x Hx]; [lia|]. rewrite Hx in IH.
      change ((b :: l) !! S i) with (l !! i). rewrite Hx.
      destruct IH as (Hin & Hxs & Hmx). split_and!; [by right|done|].
      intros b' [->|Hb]%elem_of_cons Hb'; [|by apply Hmx]. specialize (Hall x Hin). lia.
  - intros b' [->|Hb]%elem_of_cons; [done|]. specialize (Hall b' Hb). lia.
Qed.

(** ** Equivocation lookup *)

(** Two blocks of one solution that no single chain holds: same difficulty, or ranges of
    cumulative difficulty that overlap. *)
Definition conflicts (cumulative_difficulty previous_cumulative_difficulty : N) (x : Header) : bool :=
  (cumulative_diff x =? cumulative_difficulty) ||
  ((previous_cumulative_difficulty <? cumulative_diff x) &&
   (previous_cumulative_diff x <? cumulative_difficulty)).

(** [k] is the hash of a block with header [x] other than the excluded one. *)
Definition other_block m (excluding k : N) (x : Header) : Prop :=
  k ≠ excluding ∧ ∃ e, m !! k = Some e ∧ hdr e = x.

Definition scan_result m ex cd pcd (best : option Header) (l : list N) (r : option Header) : Prop :=
  match r with
  | None => best = None ∧ ∀ k x, k ∈ l → ¬ other_block m ex k x
  | Some x =>
      (conflicts cd pcd x = true ∧ ∃ k, k ∈ l ∧ other_block m ex k x ∧
         ∀ k' x', k' ∈ l → other_block m ex k' x' → conflicts cd pcd x' = true → k ≤ k') ∨
      ((∀ k' x', k' ∈ l → other_block m ex k' x' → conflicts cd pcd x' = false) ∧
       (best = Some x ∨ best = None ∧ ∃ k, k ∈ l ∧ other_block m ex k x ∧
          ∀ k' x', k' ∈ l → other_block m ex k' x' → k ≤ k'))
  end.

(** A hash that names no other block changes nothing. *)
Lemma scan_result_skip m ex cd pcd best k l r :
  (∀ x, ¬ other_block m ex k x) → scan_result m ex cd pcd best l r →
  scan_result m ex cd pcd best (k :: l) r.
Proof.
  intros Hn. assert (∀ k' x', k' ∈ k :: l → other_block m ex k' x' → k' ∈ l) as Hin.
  { intros k' x' [->|]%elem_of_cons Ho; [by apply Hn in Ho|done]. }
  destruct r as [x|]; cbn.
  - intros [(Hc & k0 & Hk0 & Ho & Hmin)|(Hnc & Hb)].
    + left. split; [done|]. exists k0. split_and!; [by right|done|]. eauto.
    + right. split; [eauto|]. destruct Hb as [|(? & k0 & ? & ? & ?)]; [by left|right].
      split; [done|]. exists k0. split_and!; [by right|done|]. eauto.
  - intros [Hb Ho]. split; [done|]. intros k' x' Hk' Hx'. by eapply Ho; eauto.
Qed.

(** A block that does not conflict is kept when it is the first one. *)
Lemma scan_result_keep m ex cd pcd best k x l r :
  other_block m ex k x → conflicts cd pcd x = false → (∀ k', k' ∈ l → k ≤ k') →
  scan_result m ex cd pcd (match best with None => Some x | b => b end) l r →
  scan_result m ex cd pcd best (k :: l) r.
Proof.
  intros Hk Hnc Hle. assert (∀ x', other_block m ex k x' → x' = x) as Hux.
  { destruct Hk as (_ & e & He & <-). intros x' (_ & e' & He' & <-). by simplify_eq. }
  destruct r as [y|]; cbn.
  - intros [(Hc & k0 & Hk0 & Ho & Hmin)|(Hall & Hb)].
    + left. split; [done|]. exists k0. split_and!; [by right|done|].
      intros k' x' [->|Hin]%elem_of_cons Ho' Hc'; [|by eauto]. apply Hux in Ho' as ->. congruence.
    + right. split.
      { intros k' x' [->|Hin]%elem_of_cons Ho'; [|by eauto]. by apply Hux in Ho' as ->. }
      destruct best as [b|]; [left; naive_solver|right]. split; [done|].
      destruct Hb as [[= <-]|[? _]]; [|done]. exists k. split_and!; [by left|done|].
      intros k' x' [->|Hin]%elem_of_cons _; [lia|by apply Hle].
  - intros [Hb _]. by destruct best.
Qed.

Lemma solution_scan_ok m ex cd pcd l : ∀ best,
  StronglySorted N.le l → scan_result m ex cd pcd best l (solution_scan m ex cd pcd best l).
Proof.
  induction l as [|k l IH]; intros best Hs.
  { destruct best; cbn; [right; split; [by intros ? ? ?%elem_of_nil|by left]|].
    split; [done|by intros ? ? ?%elem_of_nil]. }
  apply StronglySorted_inv in Hs as [Hs Hle]. rewrite Forall_forall in Hle. cbn [solution_scan].
  destruct (N.eqb_spec k ex) as [->|Hne]; [apply scan_result_skip; [by intros x [? _]|by apply IH]|].
  destruct (m !! k) as [e|] eqn:He.
  2: { apply scan_result_skip; [|by apply IH]. intros x (_ & e & ? & _). congruence. }
  assert (other_block m ex k (hdr e)) as Ho by (split; [done|by exists e]).
  assert (conflicts cd pcd (hdr e) = true →
    scan_result m ex cd pcd best (k :: l) (Some (hdr e))) as Hyes.
  { intros Hc. left. split; [done|]. exists k. split_and!; [by left|done|].
    intros k' x' [->|Hin]%elem_of_cons _ _; [lia|by apply Hle]. }
  destruct (N.eqb_spec (cumulative_diff (hdr e)) cd) as [Hcd|Hcd].
  { apply Hyes. unfold conflicts. by rewrite Hcd, N.eqb_refl. }
  destruct (_ && _) eqn:Hov.
  { apply Hyes. unfold conflicts. rewrite Hov. by rewrite orb_true_r. }
  apply (scan_result_keep _ _ _ _ _ _ (hdr e)); [done| |done|by apply IH].
  unfold conflicts. rewrite Hov, orb_false_r. by apply N.eqb_neq.
Qed.

(** A block of the tree with this solution, other than the excluded one. *)
Definition same_solution t (solution excluding k : N) (x : Header) : Prop :=
  other_block (blocks t) excluding k x ∧ solution_hash x = solution.

Lemma get_by_solution_hash_ok t sol ex cd pcd :
  tree_ok t →
  match get_by_solution_hash t sol ex cd pcd with
  | None => ∀ k x, ¬ same_solution t sol ex k x
  | Some x => ∃ k, same_solution t sol ex k x ∧
      ∀ k' x', same_solution t sol ex k' x' →
        (conflicts cd pcd x' = true → conflicts cd pcd x = true) ∧
        (conflicts cd pcd x' = conflicts cd pcd x → k ≤ k')
  end.
Proof.
  intros Hok. destruct (ok_solutions _ (ok_core _ Hok)) as [Hix _]. unfold get_by_solution_hash.
  specialize (Hix sol). unfold index_at in Hix.
  destruct (solutions t !! sol) as [hs|]; cbn.
  2: { intros k x [(_ & e & He & <-) Hs]. assert (k ∈ (∅ : gset N)) by (apply Hix; by exists e). set_solver. }
  set (l := merge_sort N.le (elements hs)).
  assert (∀ k x, same_solution t sol ex k x ↔ k ∈ l ∧ other_block (blocks t) ex k x) as Hl.
  { intros k x. unfold l. rewrite merge_sort_Permutation, elem_of_elements. cbn in Hix.
    rewrite Hix. unfold same_solution, other_block. naive_solver. }
  assert (StronglySorted N.le l) as Hsrt by (apply (StronglySorted_merge_sort N.le)).
  pose proof (solution_scan_ok (blocks t) ex cd pcd l None Hsrt) as Hr.
  destruct (solution_scan _ _ _ _ _ _) as [x|].
  - destruct Hr as [(Hc & k & Hk & Ho & Hmin)|(Hnc & [?|(_ & k & Hk & Ho & Hmin)])]; [|done|];
      exists k; (split; [by apply Hl|]); intros k' x' [Hk' Ho']%Hl.
    + split; [done|]. rewrite Hc. by apply Hmin.
    + rewrite (Hnc k x), (Hnc k' x') by done. split; [done|]. intros _. by apply (Hmin k' x').
  - intros k x [Hk Ho]%Hl. by apply (proj2 Hr k x).
Qed.
End QueryFacts.
