(* ===== verification/BlockTreeTheorems.v ===== *)
(** What the block tree and its service guarantee: the invariant of every reachable tree,
    the exact effect of tip moves, removals and prunes, and the answers of the queries. *)

From S2P Require Import Prelude BlockTree Lineage BlockTreeQueries BlockTreeInv.
From S2P Require Import BlockTreeTip BlockTreeRemove BlockTreePrune BlockTreeService.
From S2P Require Import BlockTreeService BlockTreeRestore BlockTreeQueryFacts.
From stdpp Require Import gmap.

#[local] Open Scope N_scope.

Section Theorems.
  Context `{HashOrder}.
  Context {Body CommitmentSnapshot EpochSnapshot EmaSnapshot : Type}.
  Notation Meta := (@BlockMetadata Body CommitmentSnapshot EpochSnapshot EmaSnapshot).
  Notation Tree := (@BlockTree Body CommitmentSnapshot EpochSnapshot EmaSnapshot).
  Notation Sealed := (@SealedBlock Body).
  Notation Snapshots := (CommitmentSnapshot * EpochSnapshot * EmaSnapshot)%type.
  Notation Env := (@ServiceEnv Body CommitmentSnapshot EpochSnapshot EmaSnapshot).

(** C2: Restoring from a block index that is a chain succeeds, and every tree the service
    reaches from there by its handlers satisfies the invariant: parent and child links
    agree, one root, exactly the ancestry of the tip is [Onchain], both indices and the
    difficulty maximum are exact, and the canonical chain cache is the chain of the tip. *)
Theorem service_reachable_ok (env : Env) (index : list (Sealed * Snapshots)) (now : Z)
    (depth mig : N) :
  index_chain index → index ≠ [] → N.of_nat (length index) < 2 ^ 64 → mig ≤ depth - 1 →
  ∃ t0, restore_from_db index now depth mig = (Some t0, Ok tt) ∧
    ∀ t, rtc (service_step env) t0 t → tree_ok t.
Proof.
  intros Hi Hn Hl Hm. destruct (restore_from_db_ok index now depth mig Hi Hn Hl Hm)
    as (t0 & Hr & Hok & _). exists t0. split; [done|]. intros t. by apply service_run_ok.
Qed.

(** C15: [try_move_tip_to] on a tree with the invariant never panics.  A completed move
    goes to a heavier block, publishes exactly the two sides of the fork (oldest first),
    reports a reorg exactly when the old side is not empty, and leaves the fork point and
    both sides in the pruned tree.  A refusal or a fork point outside the cache window
    leaves the tree unchanged. *)
Theorem try_move_tip_to_outcome (env : Env) (t : Tree) (candidate : N) t' r :
  tree_ok t → try_move_tip_to env t candidate = (t', r) → move_outcome t t' candidate r.
Proof. apply try_move_tip_to_cases. Qed.

(** C35: [mark_tip] on a block outside the canonical chain: a tie with the heaviest block
    keeps the tree; when every ancestor is validated it makes exactly the ancestry of the
    new tip [Onchain], turns the abandoned canonical blocks into [Validated ValidBlock],
    changes no other state and keeps the invariant; otherwise it fails. *)
Theorem mark_tip_exact (t : Tree) (h : N) (e : Meta) :
  tree_ok t → blocks t !! h = Some e → ¬ anc (blocks t) h (tip t) →
  (ties_max t h e = true ∧ mark_tip t h = (t, Ok false)) ∨
  (ties_max t h e = false ∧
   (∀ k e0, anc (blocks t) k (parent e) → blocks t !! k = Some e0 →
      tip_ready (chain_state e0) = true) ∧
   ∃ t', mark_tip t h = (t', Ok true) ∧ tree_ok t' ∧ tip_moved t t' h) ∨
  (ties_max t h e = false ∧
   (∃ k e0, anc (blocks t) k (parent e) ∧ blocks t !! k = Some e0 ∧
      tip_ready (chain_state e0) = false) ∧
   ∃ t', mark_tip t h = (t', Err InvalidTip)).
Proof. apply mark_tip_cases. Qed.

(** C36: [remove_block] fails on an unknown block and on an [Onchain] block without
    changing the tree; on any other block it removes exactly the block and its
    descendants, from the tree and from all its indices, for every iteration order of the
    children. *)
Theorem remove_block_exact (t : Tree) (h : N) :
  tree_ok t →
  match blocks t !! h with
  | None => remove_block t h = (t, Err BlockNotFound)
  | Some e =>
      if is_onchain (chain_state e) then remove_block t h = (t, Err (CannotRemoveOnchain h))
      else ∃ t', remove_block t h = (t', Ok tt) ∧ tree_ok t' ∧ removed t t' (anc (blocks t) h)
  end.
Proof. apply remove_block_cases. Qed.

(** C37: [prune] never fails and keeps exactly the descendants of one canonical block: the
    one at height [tip height - depth], or the root when that lies below the root. *)
Theorem prune_exact (t : Tree) (depth r : N) (er et : Meta) :
  tree_ok t → rooted (blocks t) r → blocks t !! r = Some er → blocks t !! tip t = Some et →
  ∃ t' b eb, prune t depth = (t', Ok tt) ∧ tree_ok t' ∧ rooted (blocks t') b ∧
    anc (blocks t) b (tip t) ∧ blocks t !! b = Some eb ∧
    height (hdr eb) = N.max (height (hdr er)) (height (hdr et) - depth) ∧
    removed t t' (outside (blocks t) b).
Proof. apply prune_ok. Qed.

(** After a discard the service does not wedge: when the heaviest block is heavier
    than the tip, it and all its ancestors are fully validated, and its fork fits the cache
    window, [move_tip_after_discard] moves the tip to it. *)
Theorem discard_moves_tip_to_max (env : Env) (t : Tree) (em eo : Meta) :
  let max_hash := (max_cumulative_difficulty t).2 in
  tree_ok t → blocks t !! max_hash = Some em → blocks t !! tip t = Some eo →
  cumulative_diff (hdr eo) < cumulative_diff (hdr em) →
  validated_back (blocks t) max_hash → fork_in_window t max_hash →
  (∀ t', env_markers env t' = true) → (∀ h, env_recover env h = true) →
  ∃ t' mv, move_tip_after_discard env t = (t', Ok (Some mv)) ∧ tip t' = max_hash.
Proof.
  intros mh Hok Hem Heo Hlt. apply move_to_max with (em := em); [done..|]. by exists eo.
Qed.

(** [find_reorg_split] of two blocks of the tree returns their latest common ancestor
    and the two paths from it, oldest first; no block of the old path is an ancestor of the
    new tip. *)
Theorem find_reorg_split_correct (t : Tree) (new old : N) :
  tree_ok t → is_Some (blocks t !! new) → is_Some (blocks t !! old) →
  ∃ s a nys oys ea, find_reorg_split t new old = Ok s ∧
    split_ok (blocks t) new old s a nys oys ∧ blocks t !! a = Some ea ∧
    ∀ k ek, anc (blocks t) k new → anc (blocks t) k old → blocks t !! k = Some ek →
      height (hdr ek) ≤ height (hdr ea).
Proof.
  intros Hok Hn Ho. pose proof (ok_core _ Hok) as Hco. destruct (ok_root _ Hco) as [r Hr].
  destruct (find_reorg_split_ok t new old r (ok_links _ Hco) Hr Hn Ho) as (s & a & nys & oys & Hs & Hsp).
  destruct (sp_lca _ _ _ _ _ _ _ Hsp) as (ea & Ha & _). exists s, a, nys, oys, ea.
  split_and!; [done..|]. intros k ek Hkn Hko Hk.
  by apply (split_lca_latest _ _ _ _ _ _ _ k ek ea (ok_links _ Hco) Hsp Ha).
Qed.

(** The canonical chain is the ancestry of the tip, oldest first, cut to
    [block_tree_depth] blocks below the tip, and no block of it is off chain. *)
Theorem canonical_chain_is_tip_ancestry (t : Tree) :
  tree_ok t →
  get_canonical_chain t =
  (rev (lineage_blocks (take (S (N.to_nat (block_tree_depth t))) (lineage (blocks t) (tip t)))),
   0%nat).
Proof. apply canonical_chain_eq. Qed.

(** [get_max_chain_validated_head] returns the latest ancestor of the heaviest block
    that is fully validated with all its ancestors. *)
Theorem validated_head_correct (t : Tree) :
  tree_ok t → ∃ v, get_max_chain_validated_head t = Some v ∧
    head_of (blocks t) (max_cumulative_difficulty t).2 v.
Proof. apply validated_head_ok. Qed.

(** [get_by_solution_hash] finds a block exactly when another block has the solution.
    It returns a conflicting one whenever there is one, and among equals the smallest hash,
    so every node makes the same choice. *)
Theorem get_by_solution_hash_correct (t : Tree) (solution excluding cd pcd : N) :
  tree_ok t →
  match get_by_solution_hash t solution excluding cd pcd with
  | None => ∀ k x, ¬ same_solution t solution excluding k x
  | Some x => ∃ k, same_solution t solution excluding k x ∧
      ∀ k' x', same_solution t solution excluding k' x' →
        (conflicts cd pcd x' = true → conflicts cd pcd x = true) ∧
        (conflicts cd pcd x' = conflicts cd pcd x → k ≤ k')
  end.
Proof. apply get_by_solution_hash_ok. Qed.

(** [canonical_entry_at_or_below_step] returns the canonical block with the highest
    VDF step not above the given one, and nothing exactly when all steps are above it. *)
Theorem canonical_entry_at_or_below_step_correct (t : Tree) (step : N) :
  tree_ok t →
  match canonical_entry_at_or_below_step t step with
  | Some b => b ∈ (get_canonical_chain t).1 ∧ global_step_number (header b) ≤ step ∧
      ∀ b', b' ∈ (get_canonical_chain t).1 → global_step_number (header b') ≤ step →
        global_step_number (header b') ≤ global_step_number (header b)
  | None => ∀ b', b' ∈ (get_canonical_chain t).1 → step < global_step_number (header b')
  end.
Proof. apply canonical_entry_spec. Qed.

(** C38: [restore_from_db] rebuilds the canonical chain: the tip is the last block of the
    index and the tree holds exactly the index blocks from the cache floor on. *)
Theorem restore_from_db_exact (index : list (Sealed * Snapshots)) (now : Z) (depth mig : N) :
  index_chain index → index ≠ [] → N.of_nat (length index) < 2 ^ 64 → mig ≤ depth - 1 →
  let floor := restore_cache_floor (N.of_nat (length index) - 1) depth mig in
  ∃ t, restore_from_db index now depth mig = (Some t, Ok tt) ∧
    (∃ x, last index = Some x ∧ tip t = block_hash (hd_of x)) ∧
    ∀ k x, (hdr <$> blocks t) !! k = Some x ↔
      ∃ i y, index !! i = Some y ∧ hd_of y = x ∧ block_hash x = k ∧ floor ≤ N.of_nat i.
Proof.
  intros Hi Hn Hl Hm floor. destruct (restore_from_db_ok index now depth mig Hi Hn Hl Hm)
    as (t & Hr & _ & Ht & Hb). by exists t.
Qed.
End Theorems.
