(* ===== verification/BlockTreeExample.v ===== *)
(** A concrete block tree: a restored chain of three blocks, a competing fork, a tie and a
    failed tip.  The theorems of the block tree are applied to it. *)

From S2P Require Import Prelude BlockTree Lineage BlockTreeQueries BlockTreeInv.
From S2P Require Import BlockTreeTip BlockTreeRemove BlockTreePrune BlockTreeService.
From S2P Require Import BlockTreeService BlockTreeRestore BlockTreeQueryFacts BlockTreeTheorems.
From stdpp Require Import gmap.

#[local] Open Scope N_scope.

#[local] Instance sorted_order : HashOrder := {| iter_set := elements; iter_set_perm := fun X => Permutation_refl _ |}.

Notation ExTree := (@BlockTree unit unit unit unit).
Notation ExMeta := (@BlockMetadata unit unit unit unit).
Notation ExSealed := (@SealedBlock unit).

Definition blk (hash prev ht sol cd pcd step : N) : ExSealed :=
  mkSealed (mkHeader hash prev ht sol cd pcd step) tt.

(** The restored chain is 1, 2, 3; blocks 4 and 7 compete with 3 at the same difficulty;
    block 5 follows 4 and block 6 follows 5. *)
Definition b1 := blk 1 100 0 11 10 0 1.
Definition b2 := blk 2 1 1 12 20 10 2.
Definition b3 := blk 3 2 2 13 30 20 3.
Definition b4 := blk 4 2 2 14 31 20 4.
Definition b5 := blk 5 4 3 15 45 31 5.
Definition b6 := blk 6 5 4 15 60 45 6.
Definition b7 := blk 7 2 2 17 31 20 4.

Definition index3 : list (ExSealed * (unit * unit * unit)) :=
  [(b1, (tt, tt, tt)); (b2, (tt, tt, tt)); (b3, (tt, tt, tt))].

Definition ex_env : @ServiceEnv unit unit unit unit :=
  mkServiceEnv (fun _ _ => Some (tt, tt, tt)) (fun _ => true) (fun _ => true) 100.

Definition no_tree : ExTree := start_tree b1 (tt, tt, tt) 0 4 1.
Definition restored : ExTree := default no_tree (restore_from_db index3 0 4 1).1.
Definition arrive (t : ExTree) (b : ExSealed) : ExTree := (on_block_prevalidated ex_env t b 0).1.
Definition finish (t : ExTree) (h : N) (v : ValidationResult) : ExTree :=
  (on_block_validation_finished ex_env t h v).1.

(** The fork 4, 5, 6 with only 5 validated; the fork 4 validated; the tie of 4 and 7 with
    7 validated, before and after 4 is discarded. *)
Definition forked : ExTree := arrive (arrive restored b4) b5.
Definition moved4 : ExTree := finish forked 4 VR_Valid.
Definition gap : ExTree := (mark_block_as_valid (arrive forked b6) 5).1.
Definition tied : ExTree := finish (arrive (arrive restored b4) b7) 7 VR_Valid.
Definition untied : ExTree := (discard_and_broadcast tied 4 Invalid).1.

Lemma index3_chain : index_chain index3.
Proof.
  split_and!.
  - intros [|[|[|i]]] x Hx; cbn in Hx; simplify_eq; reflexivity.
  - intros [|[|[|i]]] x y Hx Hy; cbn in Hx, Hy; simplify_eq; by vm_compute.
  - by apply (bool_decide_unpack _); vm_compute.
  - intros i x Hx ->. cbn in Hx. simplify_eq. by apply (bool_decide_unpack _); vm_compute.
Qed.

Lemma restored_ok : tree_ok restored.
Proof.
  destruct (restore_from_db_ok index3 0 4 1 index3_chain) as (t & Hr & Hok & _); [done..|].
  unfold restored. by rewrite Hr.
Qed.

(** [arrives] by evaluation. *)
Definition arrives_b (t : ExTree) (b : ExSealed) : bool :=
  match blocks t !! previous_block_hash (header b) with
  | Some p => (height (header b) =? height (hdr p) + 1) &&
      (cumulative_diff (hdr p) <? cumulative_diff (header b)) &&
      (global_step_number (hdr p) <? global_step_number (header b))
  | None => true
  end &&
  bool_decide (map_Forall (fun _ e => parent e ≠ block_hash (header b)) (blocks t)) &&
  (next_insertion_sequence t + 1 <? 2 ^ 64).

Lemma arrives_check (t : ExTree) (b : ExSealed) : arrives_b t b = true → arrives t b.
Proof.
  unfold arrives_b. intros [[Hp Hl%bool_decide_eq_true]%andb_prop Hs%N.ltb_lt]%andb_prop Hn [p Hpp].
  rewrite Hpp in Hp. apply andb_prop in Hp as [[?%N.eqb_eq ?%N.ltb_lt]%andb_prop ?%N.ltb_lt].
  constructor; try done. by exists p.
Qed.

Lemma arrive_ok (t : ExTree) (b : ExSealed) :
  tree_ok t → arrives_b t b = true → tree_ok (arrive t b).
Proof.
  intros Hok Ha%arrives_check. unfold arrive.
  destruct (on_block_prevalidated ex_env t b 0) as [t' r] eqn:Hp.
  by apply on_block_prevalidated_ok in Hp as [? _].
Qed.

Lemma finish_ok (t : ExTree) (h : N) (v : ValidationResult) :
  tree_ok t → is_ok (on_block_validation_finished ex_env t h v).2 = true → tree_ok (finish t h v).
Proof.
  intros Hok Hr. unfold finish.
  destruct (on_block_validation_finished ex_env t h v) as [t' [o|e|]] eqn:Hv; try done.
  apply on_block_validation_finished_ok in Hv as [Ht _]; [|done]. by eapply Ht.
Qed.

Lemma forked_ok : tree_ok forked.
Proof. apply arrive_ok; [apply arrive_ok; [apply restored_ok|]|]; by vm_compute. Qed.

Lemma moved4_ok : tree_ok moved4.
Proof. apply finish_ok; [apply forked_ok|by vm_compute]. Qed.

Lemma gap_ok : tree_ok gap.
Proof. apply mark_valid_ok, arrive_ok; [apply forked_ok|by vm_compute]. Qed.

Lemma tied_ok : tree_ok tied.
Proof.
  apply finish_ok; [|by vm_compute].
  apply arrive_ok; [apply arrive_ok; [apply restored_ok|]|]; by vm_compute.
Qed.

Lemma untied_ok : tree_ok untied.
Proof.
  unfold untied. destruct (discard_and_broadcast tied 4 Invalid) as [t' r] eqn:Hd.
  by apply discard_ok in Hd as [? _]; [|apply tied_ok].
Qed.

(** Entries for evaluated lookups. *)
Definition entry (t : ExTree) (h : N) : ExMeta :=
  default (mkMeta b1 Onchain 0 ∅ tt tt tt 0) (blocks t !! h).

(** ** Deciding ancestry by evaluation *)

Lemma anc_check (t : ExTree) (k h : N) :
  tree_ok t → bool_decide (k ∈ (lineage (blocks t) h).*1) = true → anc (blocks t) k h.
Proof. intros Hok Hk%bool_decide_eq_true. by apply lineage_anc; [apply Hok|]. Qed.

Lemma not_anc_check (t : ExTree) (k h : N) :
  tree_ok t → bool_decide (k ∈ (lineage (blocks t) h).*1) = false → ¬ anc (blocks t) k h.
Proof. intros Hok Hk%bool_decide_eq_false Ha. apply Hk. by apply lineage_anc; [apply Hok|]. Qed.

Lemma rooted_check (t : ExTree) (r : N) :
  tree_ok t → bool_decide (map_Forall (fun h _ => r ∈ (lineage (blocks t) h).*1) (blocks t)) = true →
  rooted (blocks t) r.
Proof.
  intros Hok Hr%bool_decide_eq_true h [e He]. apply lineage_anc; [apply Hok|]. by apply (Hr h e).
Qed.

Lemma validated_back_check (t : ExTree) (h : N) :
  tree_ok t → bool_decide (is_Some (blocks t !! h)) = true →
  forallb (fun x => fully_validated (chain_state x.2)) (lineage (blocks t) h) = true →
  validated_back (blocks t) h.
Proof.
  intros Hok Hs%bool_decide_eq_true Hf. split; [done|]. intros k e Ha He.
  apply lineage_anc in Ha; [|apply Hok].
  apply list_elem_of_fmap in Ha as ([k' e'] & -> & Hin).
  pose proof (lineage_lookup _ _ _ _ (ok_links _ (ok_core _ Hok)) Hin) as Hl. cbn in He. simplify_eq.
  rewrite forallb_forall in Hf. by apply (Hf (k', e)), list_elem_of_In.
Qed.

(** ** The theorems on the example *)

Lemma service_reachable_witness :
  ∃ t0, restore_from_db index3 0 4 1 = (Some t0, Ok tt) ∧ tree_ok (arrive t0 b4).
Proof.
  destruct (service_reachable_ok ex_env index3 0 4 1 index3_chain) as (t0 & Hr & Hall);
    [done..|]. exists t0. split; [exact Hr|]. apply Hall, rtc_once.
  assert (t0 = restored) as -> by (unfold restored; by rewrite Hr).
  apply (step_prevalidated _ restored b4 0 _ (on_block_prevalidated ex_env restored b4 0).2).
  - apply arrives_check. by vm_compute.
  - unfold arrive. by destruct (on_block_prevalidated ex_env restored b4 0).
Defined.

Lemma try_move_tip_to_witness :
  ∃ t' r, try_move_tip_to ex_env forked 4 = (t', r) ∧ tip t' = 4 ∧ move_outcome forked t' 4 r.
Proof.
  assert (tip (try_move_tip_to ex_env forked 4).1 = 4) as Ht by (vm_compute; reflexivity).
  destruct (try_move_tip_to ex_env forked 4) as [t' r] eqn:Hm. exists t', r.
  split; [reflexivity|]. split; [exact Ht|].
  exact (try_move_tip_to_outcome ex_env forked 4 t' r forked_ok Hm).
Defined.

Lemma mark_tip_witness :
  ∃ t', mark_tip forked 4 = (t', Ok true) ∧ tree_ok t' ∧ tip_moved forked t' 4.
Proof.
  destruct (mark_tip_exact forked 4 (entry forked 4) forked_ok) as [[Ht _]|[(_ & _ & Ht)|(_ & _ & t' & Ht)]].
  - by vm_compute.
  - apply not_anc_check; [apply forked_ok|by vm_compute].
  - by vm_compute in Ht.
  - exact Ht.
  - apply (f_equal snd) in Ht. by vm_compute in Ht.
Defined.

Lemma remove_block_witness :
  ∃ t', remove_block forked 4 = (t', Ok tt) ∧ tree_ok t' ∧ removed forked t' (anc (blocks forked) 4).
Proof.
  pose proof (remove_block_exact forked 4 forked_ok) as Hr.
  assert (blocks forked !! 4 = Some (entry forked 4)) as He by (vm_compute; reflexivity).
  assert (is_onchain (chain_state (entry forked 4)) = false) as Ho by (vm_compute; reflexivity).
  rewrite He, Ho in Hr. exact Hr.
Defined.

Lemma prune_witness :
  ∃ t' b eb, prune restored 1 = (t', Ok tt) ∧ blocks restored !! b = Some eb ∧ height (hdr eb) = 1.
Proof.
  destruct (prune_exact restored 1 1 (entry restored 1) (entry restored 3) restored_ok)
    as (t' & b & eb & Hp & _ & _ & _ & Hb & Hh & _).
  - apply rooted_check; [apply restored_ok|by vm_compute].
  - by vm_compute.
  - by vm_compute.
  - exists t', b, eb. split_and!; [exact Hp|exact Hb|]. rewrite Hh. by vm_compute.
Defined.

Lemma discard_moves_tip_witness :
  (max_cumulative_difficulty untied).2 = 7 ∧
  ∃ t' mv, move_tip_after_discard ex_env untied = (t', Ok (Some mv)) ∧
    tip t' = (max_cumulative_difficulty untied).2.
Proof.
  assert ((max_cumulative_difficulty untied).2 = 7) as Hmx by (vm_compute; reflexivity).
  split; [exact Hmx|].
  apply (discard_moves_tip_to_max ex_env untied (entry untied 7) (entry untied 3)).
  - apply untied_ok.
  - vm_compute. reflexivity.
  - vm_compute. reflexivity.
  - vm_compute. reflexivity.
  - rewrite Hmx. apply validated_back_check; [apply untied_ok|vm_compute; reflexivity..].
  - rewrite Hmx. exists 2, (entry untied 2), (entry untied 7). split; [vm_compute; reflexivity|].
    split; [vm_compute; reflexivity|]. split; [|split].
    + apply anc_check; [apply untied_ok|vm_compute; reflexivity].
    + apply anc_check; [apply untied_ok|vm_compute; reflexivity].
    + vm_compute. intros [=].
  - intros t'. reflexivity.
  - intros h. reflexivity.
Defined.

Lemma find_reorg_split_witness :
  ∃ s, find_reorg_split forked 5 3 = Ok s ∧ block_hash (header (lca s)) = 2.
Proof.
  destruct (find_reorg_split_correct forked 5 3 forked_ok) as (s & a & nys & oys & ea & Hs & _).
  - vm_compute. by eexists.
  - vm_compute. by eexists.
  - exists s. split; [exact Hs|].
    assert (block_hash ∘ header ∘ lca <$> find_reorg_split forked 5 3 = Ok 2) as Hl
      by (vm_compute; reflexivity).
    rewrite Hs in Hl. by injection Hl.
Defined.

Lemma canonical_chain_witness :
  get_canonical_chain moved4 =
  (rev (lineage_blocks (take (S (N.to_nat (block_tree_depth moved4))) (lineage (blocks moved4) (tip moved4)))),
   0%nat).
Proof. exact (canonical_chain_is_tip_ancestry moved4 moved4_ok). Defined.

Lemma validated_head_witness :
  ∃ v, get_max_chain_validated_head gap = Some v ∧ head_of (blocks gap) (max_cumulative_difficulty gap).2 v.
Proof. exact (validated_head_correct gap gap_ok). Defined.

Lemma get_by_solution_hash_witness :
  ∃ x k, get_by_solution_hash (arrive forked b6) 15 6 60 45 = Some x ∧
    same_solution (arrive forked b6) 15 6 k x.
Proof.
  assert (tree_ok (arrive forked b6)) as Hok by (apply arrive_ok; [apply forked_ok|by vm_compute]).
  pose proof (get_by_solution_hash_correct (arrive forked b6) 15 6 60 45 Hok) as Hx.
  assert (is_Some (get_by_solution_hash (arrive forked b6) 15 6 60 45)) as [x Hs]
    by (vm_compute; by eexists).
  rewrite Hs in Hx. destruct Hx as (k & Hk & _). exists x, k. split; [exact Hs|exact Hk].
Defined.

Lemma canonical_entry_witness :
  ∃ b, canonical_entry_at_or_below_step moved4 3 = Some b ∧ b ∈ (get_canonical_chain moved4).1 ∧
    global_step_number (header b) ≤ 3.
Proof.
  pose proof (canonical_entry_at_or_below_step_correct moved4 3 moved4_ok) as Hx.
  assert (is_Some (canonical_entry_at_or_below_step moved4 3)) as [b Hb] by (vm_compute; by eexists).
  rewrite Hb in Hx. destruct Hx as (H1 & H2 & _). exists b. split; [exact Hb|]. split; [exact H1|exact H2].
Defined.

Lemma restore_from_db_witness :
  ∃ t, restore_from_db index3 0 4 1 = (Some t, Ok tt) ∧ tip t = 3.
Proof.
  destruct (restore_from_db_exact index3 0 4 1 index3_chain) as (t & Hr & (x & Hx & Ht) & _);
    [done..|]. exists t. split; [exact Hr|]. cbn in Hx. rewrite Ht. by injection Hx as <-.
Defined.

(** A tip that [mark_tip] rejects can leave the tree without its invariant: on a tree
    with the invariant where block 4 is not validated and its child 5 is, marking 6 fails
    after 5 became [Onchain], although 5 is no ancestor of the tip 3.  Removing block 4
    then fails too, since its descendant 5 counts as [Onchain]. *)
Theorem failed_mark_tip_breaks_states :
  ∃ t', tree_ok gap ∧ mark_tip gap 6 = (t', Err InvalidTip) ∧ tip t' = 3 ∧
    ¬ states_ok (blocks t') (tip t') ∧
    (remove_block gap 4).2 = Ok tt ∧ (remove_block t' 4).2 = Err (CannotRemoveOnchain 5).
Proof.
  exists (mark_tip gap 6).1. split; [apply gap_ok|].
  assert ((mark_tip gap 6).2 = Err InvalidTip) as Hr by (vm_compute; reflexivity).
  assert (tip (mark_tip gap 6).1 = 3) as Ht by (vm_compute; reflexivity).
  assert (blocks (mark_tip gap 6).1 !! 5 = Some (entry (mark_tip gap 6).1 5)) as He
    by (vm_compute; reflexivity).
  assert (chain_state (entry (mark_tip gap 6).1 5) = Onchain) as Ho by (vm_compute; reflexivity).
  assert (bool_decide (5 ∈ (lineage (blocks (mark_tip gap 6).1) 3).*1) = false) as Hn
    by (vm_compute; reflexivity).
  assert ((remove_block (mark_tip gap 6).1 4).2 = Err (CannotRemoveOnchain 5)) as Hrm
    by (vm_compute; reflexivity).
  assert (links_ok (blocks (mark_tip gap 6).1)) as Hl.
  { apply (links_ok_same_headers (blocks gap)); [|apply gap_ok]. intros k.
    destruct (decide (k = 5)) as [->|Hk]; [vm_compute; reflexivity|].
    assert (delete 5 (blocks (mark_tip gap 6).1) = delete 5 (blocks gap)) as Hd
      by (vm_compute; reflexivity).
    apply (f_equal (.!! k)) in Hd. rewrite !lookup_delete_ne in Hd by done. by rewrite Hd. }
  destruct (mark_tip gap 6) as [t' r]. cbn [fst snd] in *. rewrite Hr, Ht.
  split; [reflexivity|]. split; [reflexivity|]. split.
  - intros Hst. apply (Hst 5 _ He), (lineage_anc _ _ _ Hl) in Ho.
    by apply bool_decide_eq_false in Hn.
  - split; [vm_compute; reflexivity|exact Hrm].
Qed.
