(* ===== verification/Sampling.v ===== *)
(** Efficient sampling of recall ranges: the picker ([crates/efficient-sampling/src/lib.rs],
    [crates/types/src/simple_rng.rs]), the miner's iterator
    ([PartitionMiningServiceInner::get_recall_range] in
    [crates/actors/src/partition_mining_service.rs]) and the validation side
    ([recall_recall_range_is_valid], [build_fork_local_step_window] in
    [crates/actors/src/block_validation.rs]).

    Step numbers are [u64] as [N], range indices and positions are [usize] as [nat], the
    generator works on [u32] as [Z].  SHA-256 is the interface [Sha256]. *)

From stdpp Require Import gmap.
From S2P Require Import Prelude SimpleRng TreeHash.

Inductive SamplingError : Type :=
| NonConsecutiveStep (last_step_num step : N)
| RangePosTooLarge
| NoRanges
| StepOverflow (step offset : N)
| NoRecallRange
| InvalidRecallRange (recall_range expected : nat)
| StepsUnavailable
| Mismatch (e : SamplingError).

Definition NUMBER_OF_KEPT_LAST_STEPS : N := 20.
Definition H256 : Type := list byte.

(** ** The picker *)

Record Ranges : Type := mkRanges {
  ranges : list nat;
  last_range_pos : nat;
  last_step_num : N;
  last_recall_ranges : gmap N nat;
  num_recall_ranges_in_partition : nat
}.

Definition Ranges_new (n : nat) : result SamplingError Ranges :=
  if (n =? 0)%nat then Err NoRanges
  else Ok (mkRanges (seq 0 n) (n - 1) 0 ∅ n).

Definition reinitialize (r : Ranges) : Ranges :=
  let n := num_recall_ranges_in_partition r in
  let last_step_to_keep := (last_step_num r - NUMBER_OF_KEPT_LAST_STEPS)%N in
  mkRanges (seq 0 n) (n - 1) (last_step_num r)
    (filter (fun kv => (last_step_to_keep < kv.1)%N) (last_recall_ranges r)) n.

Section Sampling.
  Context `{Sha256}.

(** The seed of the generator: bytes 28 to 31 of the hash, big endian. *)
Definition rng_seed (seed partition_hash : H256) : Z :=
  of_be_bytes (take 4 (drop 28 (sha256 (seed ++ partition_hash)))).

(** [pick_next]; an index out of bounds panics. *)
Definition pick_next (r : Ranges) (seed partition_hash : H256) : Ranges * result SamplingError nat :=
  if (last_range_pos r =? 0)%nat then
    match ranges r !! 0%nat with
    | Some range => (reinitialize r, Ok range)
    | None => (r, Panic)
    end
  else if (Z.of_nat (last_range_pos r) <? 2 ^ 32)%Z then
    let next_range_pos :=
      Z.to_nat (rng_next (rng_seed seed partition_hash) mod Z.of_nat (last_range_pos r)) in
    match ranges r !! next_range_pos, ranges r !! last_range_pos r with
    | Some range, Some last =>
        (mkRanges (<[next_range_pos := last]> (ranges r)) (last_range_pos r - 1)
           (last_step_num r) (last_recall_ranges r) (num_recall_ranges_in_partition r),
         Ok range)
    | _, _ => (r, Panic)
    end
  else (r, Err RangePosTooLarge).

Definition next_recall_range (r : Ranges) (step : N) (seed partition_hash : H256)
  : Ranges * result SamplingError nat :=
  if decide (step ≠ 0 ∧ step - 1 = last_step_num r)%N then
    match pick_next r seed partition_hash with
    | (r, Ok range) =>
        (mkRanges (ranges r) (last_range_pos r) step (<[step := range]> (last_recall_ranges r))
           (num_recall_ranges_in_partition r), Ok range)
    | (r, e) => (r, e)
    end
  else (r, Err (NonConsecutiveStep (last_step_num r) step)).

(** [Ranges::get_recall_range]. *)
Definition cached_recall_range (r : Ranges) (step : N) (seed partition_hash : H256)
  : Ranges * result SamplingError nat :=
  match last_recall_ranges r !! step with
  | Some range => (r, Ok range)
  | None => next_recall_range r step seed partition_hash
  end.

(** [Ranges::reconstruct]: the closure of [try_for_each] on the seeds, [i] the position. *)
Fixpoint reconstruct_from (r : Ranges) (step i : N) (next_steps : list H256) (partition_hash : H256)
  : Ranges * result SamplingError unit :=
  match next_steps with
  | [] => (r, Ok tt)
  | seed :: rest =>
      if (step + 1 + i <? 2 ^ 64)%N then
        match next_recall_range r (step + 1 + i) seed partition_hash with
        | (r, Ok _) => reconstruct_from r step (i + 1) rest partition_hash
        | (r, Err e) => (r, Err e)
        | (r, Panic) => (r, Panic)
        end
      else (r, Err (StepOverflow step i))
  end.
Definition reconstruct (r : Ranges) (next_steps : list H256) (partition_hash : H256)
  : Ranges * result SamplingError unit :=
  reconstruct_from r (last_step_num r) 0 next_steps partition_hash.

(** [reset_step]; division by zero panics, which [Ranges::new] excludes. *)
Definition reset_step (step_num num_ranges : N) : N :=
  if (step_num =? 0)%N then 0%N
  else ((step_num - 1) / num_ranges * num_ranges + 1)%N.

(** The free function [get_recall_range]. *)
Fixpoint pick_all (r : Ranges) (last : option nat) (steps : list H256) (partition_hash : H256)
  : result SamplingError (option nat) :=
  match steps with
  | [] => Ok last
  | seed :: rest =>
      match pick_next r seed partition_hash with
      | (r, Ok range) => pick_all r (Some range) rest partition_hash
      | (_, Err e) => Err e
      | (_, Panic) => Panic
      end
  end.
Definition get_recall_range (n : nat) (steps : list H256) (partition_hash : H256)
  : result SamplingError nat :=
  r ← Ranges_new n;
  last ← pick_all r None steps partition_hash;
  ok_or last NoRecallRange.

Definition recall_range_is_valid (recall_range n : nat) (steps : list H256) (partition_hash : H256)
  : result SamplingError unit :=
  reconstructed_range ← get_recall_range n steps partition_hash;
  if (reconstructed_range =? recall_range)%nat then Ok tt
  else Err (InvalidRecallRange recall_range reconstructed_range).

(** ** The miner *)

(** [PartitionMiningServiceInner::get_recall_range]; [get_steps a b] reads the VDF seed
    buffer for the steps [a] to [b]. *)
Definition miner_recall_range (get_steps : N → N → result SamplingError (list H256)) (r : Ranges)
    (step : N) (seed partition_hash : H256) : Ranges * result SamplingError nat :=
  if (last_step_num r + 1 <? 2 ^ 64)%N then
    let next_ranges_step := (last_step_num r + 1)%N in
    if (next_ranges_step =? step)%N then cached_recall_range r step seed partition_hash
    else
      let reset := reset_step step (N.of_nat (num_recall_ranges_in_partition r)) in
      let '(r, start) :=
        if ((next_ranges_step <? reset) || (step <? next_ranges_step))%N then
          let r := reinitialize r in
          (mkRanges (ranges r) (last_range_pos r) (reset - 1)%N (last_recall_ranges r)
             (num_recall_ranges_in_partition r), reset)
        else (r, next_ranges_step) in
      if (start <? step)%N then
        match get_steps start (step - 1)%N with
        | Ok steps =>
            match reconstruct r steps partition_hash with
            | (r, Ok _) => cached_recall_range r step seed partition_hash
            | (r, Err e) => (r, Err e)
            | (r, Panic) => (r, Panic)
            end
        | Err e => (r, Err e)
        | Panic => (r, Panic)
        end
      else cached_recall_range r step seed partition_hash
  else (r, Panic).

(** ** Block validation *)

(** The part of a block header the recall range check reads. *)
Record VdfHeader : Type := mkVdfHeader {
  vh_height : N;
  vh_previous_block_hash : N;
  vh_global_step_number : N;
  vh_steps : list H256
}.

Definition first_step_number (h : VdfHeader) : N :=
  (N.min (vh_global_step_number h + 1) (2 ^ 64 - 1) - N.of_nat (length (vh_steps h)))%N.

(** The loop of [build_fork_local_step_window] that copies one header's steps. *)
Fixpoint copy_steps (h_first want_start : N) (steps : list H256) (step : N) (count : nat)
    (out : list H256) : option (list H256) :=
  match count with
  | O => Some out
  | S count' =>
      match steps !! N.to_nat (step - h_first) with
      | Some s =>
          copy_steps h_first want_start steps (step + 1) count'
            (<[N.to_nat (step - want_start) := s]> out)
      | None => None
      end
  end.

(** The walk over the ancestry, by fuel. *)
Fixpoint step_window_walk (fuel : nat) (resolve : N → option VdfHeader) (h : VdfHeader)
    (want_start want_end : N) (out : list H256) : option (list H256) :=
  match fuel with
  | O => None
  | S fuel' =>
      let h_first := first_step_number h in
      let seg_start := N.max want_start h_first in
      let seg_end := N.min want_end (vh_global_step_number h) in
      let count := N.to_nat (seg_end + 1 - seg_start) in
      match copy_steps h_first want_start (vh_steps h) seg_start count out with
      | None => None
      | Some out =>
          if (h_first <=? want_start)%N then Some out
          else if (vh_height h =? 0)%N then None
          else
            match resolve (vh_previous_block_hash h) with
            | None => None
            | Some parent =>
                if (vh_global_step_number parent =? h_first - 1)%N
                then step_window_walk fuel' resolve parent want_start want_end out
                else None
            end
      end
  end.

Definition build_fork_local_step_window (fuel : nat) (resolve : N → option VdfHeader)
    (block : VdfHeader) (want_start want_end : N) : option (list H256) :=
  if (want_end <? want_start)%N then None
  else
    step_window_walk fuel resolve block want_start want_end
      (replicate (N.to_nat (want_end - want_start + 1)) (repeat x00 32)).

(** [recall_recall_range_is_valid]; [chunks_in_range] is [num_chunks_in_recall_range] of
    the configuration, [n] the number of recall ranges. *)
Definition recall_recall_range_is_valid (fuel : nat) (resolve : N → option VdfHeader)
    (get_steps : N → N → result SamplingError (list H256)) (block : VdfHeader)
    (partition_chunk_offset chunks_in_range : N) (n : nat) (partition_hash : H256)
    (buffer_suspect : bool) : result SamplingError unit :=
  let global_step := vh_global_step_number block in
  let reset := reset_step global_step (N.of_nat n) in
  if (chunks_in_range =? 0)%N then Panic
  else
    let recall_offset := N.to_nat (partition_chunk_offset / chunks_in_range) in
    let mismatch r := match r with Err e => Err (Mismatch e) | x => x end in
    let fork_local_check :=
      match build_fork_local_step_window fuel resolve block reset global_step with
      | None => Err StepsUnavailable
      | Some fork_steps => mismatch (recall_range_is_valid recall_offset n fork_steps partition_hash)
      end in
    if buffer_suspect then fork_local_check
    else
      match get_steps reset global_step with
      | Err _ => Err StepsUnavailable
      | Panic => Panic
      | Ok steps =>
          match recall_range_is_valid recall_offset n steps partition_hash with
          | Ok _ => Ok tt
          | Panic => Panic
          | Err _ => fork_local_check
          end
      end.
End Sampling.

(** * Facts on efficient sampling: one cycle visits every range once, the picker forgets
    everything at a cycle boundary, the miner's iterator and block validation agree. *)

#[local] Open Scope nat_scope.

Section SamplingFacts.
  Context `{Sha256}.
  Context (n : nat) (ph : H256).
  Context (Hn0 : 0 < n) (Hn32 : (Z.of_nat n ≤ 2 ^ 32)%Z).

(** ** The picker *)

Definition live (r : Ranges) : list nat := take (S (last_range_pos r)) (ranges r).

Record picker_ok (r : Ranges) : Prop := {
  pk_num : num_recall_ranges_in_partition r = n;
  pk_len : length (ranges r) = n;
  pk_pos : last_range_pos r < n;
  pk_nodup : NoDup (live r);
  pk_bound : ∀ x, x ∈ live r → x < n
}.

(** What a pick depends on. *)
Definition pick_state (r : Ranges) : list nat * nat := (ranges r, last_range_pos r).
Definition fresh_ranges : Ranges := mkRanges (seq 0 n) (n - 1) 0 ∅ n.

Lemma fresh_live r : pick_state r = pick_state fresh_ranges → live r = seq 0 n.
Proof.
  intros Hs. unfold live, pick_state in *. cbn in Hs. injection Hs as Hr Hp. rewrite Hr, Hp.
  apply take_ge. rewrite length_seq. lia.
Qed.

Lemma fresh_picker_ok r :
  pick_state r = pick_state fresh_ranges → num_recall_ranges_in_partition r = n → picker_ok r.
Proof.
  intros Hs Hnum. pose proof (fresh_live r Hs) as Hl. injection Hs as Hr Hp.
  constructor; rewrite ?Hl; try done.
  - by rewrite Hr, length_seq.
  - lia.
  - apply NoDup_seq.
  - intros x Hx%elem_of_seq. lia.
Qed.

(** One pick removes the returned range from the live ones; the last one starts over. *)
Lemma pick_next_ok r seed :
  picker_ok r →
  ∃ r' v, pick_next r seed ph = (r', Ok v) ∧ picker_ok r' ∧ v < n ∧
    last_step_num r' = last_step_num r ∧ last_recall_ranges r' ⊆ last_recall_ranges r ∧
    match last_range_pos r with
    | O => live r = [v] ∧ pick_state r' = pick_state fresh_ranges
    | S p => live r ≡ₚ v :: live r' ∧ last_range_pos r' = p ∧
        last_recall_ranges r' = last_recall_ranges r
    end.
Proof.
  intros Hok. pose proof Hok as [Hnum Hlen Hpos Hnd Hb]. unfold pick_next.
  destruct (last_range_pos r) as [|p] eqn:Hp; cbn [Nat.eqb].
  - unfold live in *. rewrite Hp in *. destruct (ranges r) as [|v l] eqn:Hr; [cbn in Hlen; lia|].
    exists (reinitialize r), v. cbn [lookup list_lookup take] in *. split_and!; try done.
    + apply fresh_picker_ok; [|done]. unfold reinitialize, pick_state. by rewrite Hnum.
    + apply Hb. by left.
    + cbn. apply map_filter_subseteq.
    + unfold reinitialize, pick_state. by rewrite Hnum.
  - destruct (Z.ltb_spec (Z.of_nat (S p)) (2 ^ 32)); [|lia].
    set (i := Z.to_nat _). assert (i < S p) as Hi.
    { unfold i. pose proof (Z.mod_pos_bound (rng_next (rng_seed seed ph)) (Z.of_nat (S p))). lia. }
    destruct (lookup_lt_is_Some_2 (ranges r) i) as [v Hv]; [lia|].
    destruct (lookup_lt_is_Some_2 (ranges r) (S p)) as [l Hl]; [lia|]. rewrite Hv, Hl.
    assert (live r ≡ₚ v :: take (S p) (<[i:=l]> (ranges r))) as Hperm.
    { unfold live. rewrite Hp, (take_S_r _ _ l Hl).
      rewrite <- (take_drop_middle (take (S p) (ranges r)) i v) by (rewrite lookup_take_lt; done).
      rewrite take_insert_lt by done.
      rewrite insert_take_drop by (rewrite length_take; lia). solve_Permutation. }
    eexists _, v. split; [done|]. unfold live at 1 in Hperm. rewrite Hp in Hperm.
    split_and!; cbn; try done.
    + constructor; cbn; rewrite ?length_insert, ?Nat.sub_0_r; try done; [lia| |];
        unfold live; cbn; rewrite ?Nat.sub_0_r.
      * unfold live in Hnd. rewrite Hp, Hperm in Hnd. by apply NoDup_cons in Hnd as [_ ?].
      * intros x Hx. apply Hb. unfold live. rewrite Hp, Hperm. by right.
    + apply Hb. unfold live. rewrite Hp, Hperm. by left.
    + unfold live. rewrite Hp. cbn. rewrite Nat.sub_0_r. done.
    + lia.
Qed.

(** ** Runs of picks *)

Fixpoint picks (r : Ranges) (seeds : list H256) : Ranges * list nat :=
  match seeds with
  | [] => (r, [])
  | s :: rest =>
      match pick_next r s ph with
      | (r', Ok v) => let '(r'', vs) := picks r' rest in (r'', v :: vs)
      | (r', _) => (r', [])
      end
  end.

Lemma picks_app r s1 s2 :
  picker_ok r →
  picks r (s1 ++ s2) =
  let '(r1, v1) := picks r s1 in let '(r2, v2) := picks r1 s2 in (r2, v1 ++ v2).
Proof.
  revert r. induction s1 as [|s s1 IH]; intros r Hok; cbn.
  - by destruct (picks r s2).
  - destruct (pick_next_ok r s Hok) as (r' & v & Hp & Hok' & _). rewrite Hp, (IH r' Hok').
    destruct (picks r' s1) as [r1 v1], (picks r1 s2) as [r2 v2]. done.
Qed.

Lemma picks_ok r seeds :
  picker_ok r → picker_ok (picks r seeds).1 ∧ length (picks r seeds).2 = length seeds ∧
    (∀ v, v ∈ (picks r seeds).2 → v < n).
Proof.
  revert r. induction seeds as [|s seeds IH]; intros r Hok; cbn.
  - split_and!; [done..|]. by intros v ?%elem_of_nil.
  - destruct (pick_next_ok r s Hok) as (r' & v & -> & Hok' & Hv & _).
    destruct (IH r' Hok') as (H1 & H2 & H3). destruct (picks r' seeds) as [r1 v1]. cbn in *.
    split_and!; [done|lia|]. intros x [->|Hx]%elem_of_cons; [done|by apply H3].
Qed.

(** A pick reads only the pick state. *)
Lemma pick_next_same r1 r2 seed :
  picker_ok r1 → picker_ok r2 → pick_state r1 = pick_state r2 →
  (pick_next r1 seed ph).2 = (pick_next r2 seed ph).2 ∧
  pick_state (pick_next r1 seed ph).1 = pick_state (pick_next r2 seed ph).1.
Proof.
  intros H1 H2 Hs. pose proof Hs as [= Hr Hp]. unfold pick_next. rewrite <- Hr, <- Hp.
  destruct (last_range_pos r1 =? 0).
  - destruct (ranges r1 !! 0); [|by split]. unfold reinitialize, pick_state. cbn.
    by rewrite (pk_num _ H1), (pk_num _ H2).
  - destruct (_ <? _)%Z; [|by split].
    destruct (ranges r1 !! Z.to_nat _), (ranges r1 !! last_range_pos r1); by split.
Qed.

Lemma picks_same r1 r2 seeds :
  picker_ok r1 → picker_ok r2 → pick_state r1 = pick_state r2 →
  (picks r1 seeds).2 = (picks r2 seeds).2 ∧ pick_state (picks r1 seeds).1 = pick_state (picks r2 seeds).1.
Proof.
  revert r1 r2. induction seeds as [|s seeds IH]; intros r1 r2 H1 H2 Hs; cbn; [done|].
  destruct (pick_next_same r1 r2 s H1 H2 Hs) as [Hv Hst].
  destruct (pick_next_ok r1 s H1) as (r1' & v1 & Hp1 & Hok1 & _).
  destruct (pick_next_ok r2 s H2) as (r2' & v2 & Hp2 & Hok2 & _).
  rewrite Hp1, Hp2 in *. cbn in *. injection Hv as ->.
  destruct (IH r1' r2' Hok1 Hok2 Hst). destruct (picks r1' seeds), (picks r2' seeds). cbn in *.
  split; congruence.
Qed.

(** As many picks as there are live ranges return each of them once and start over. *)
Lemma picks_cycle k : ∀ r seeds,
  picker_ok r → last_range_pos r = k → length seeds = S k →
  (picks r seeds).2 ≡ₚ live r ∧ pick_state (picks r seeds).1 = pick_state fresh_ranges.
Proof.
  induction k as [|k IH]; intros r seeds Hok Hp Hlen.
  all: destruct seeds as [|s seeds]; [done|]; cbn [length] in Hlen; cbn [picks].
  all: destruct (pick_next_ok r s Hok) as (r' & v & -> & Hok' & _ & _ & _ & Hst); rewrite Hp in Hst.
  - destruct seeds; [|done]. destruct Hst as [-> Hf]. done.
  - destruct Hst as (Hl & Hp' & _). destruct (IH r' seeds Hok' Hp') as [Hperm Hf]; [lia|].
    destruct (picks r' seeds). cbn in *. split; [|done]. by rewrite Hl, Hperm.
Qed.

Lemma fresh_ok : picker_ok fresh_ranges.
Proof. by apply fresh_picker_ok. Qed.

Lemma picks_full_cycle seeds :
  length seeds = n →
  (picks fresh_ranges seeds).2 ≡ₚ seq 0 n ∧ pick_state (picks fresh_ranges seeds).1 = pick_state fresh_ranges.
Proof.
  intros Hl. destruct (picks_cycle (n - 1) fresh_ranges seeds fresh_ok) as [Hp Hf]; [done|lia|].
  split; [|done]. by rewrite Hp, fresh_live.
Qed.

(** Whole cycles leave no trace. *)
Lemma picks_cycles q seeds :
  length seeds = q * n → pick_state (picks fresh_ranges seeds).1 = pick_state fresh_ranges.
Proof.
  revert seeds. induction q as [|q IH]; intros seeds Hl.
  - destruct seeds; [done|]. cbn in Hl. lia.
  - rewrite <- (take_drop n seeds), picks_app by apply fresh_ok.
    destruct (picks_full_cycle (take n seeds)) as [_ Hf]; [rewrite length_take; lia|].
    destruct (picks_ok fresh_ranges (take n seeds) fresh_ok) as [Hok _].
    destruct (picks fresh_ranges (take n seeds)) as [r1 v1]. cbn in *.
    destruct (picks_same r1 fresh_ranges (drop n seeds) Hok fresh_ok Hf) as [_ Hs].
    destruct (picks r1 (drop n seeds)). cbn in *. rewrite Hs. apply IH. rewrite length_drop. lia.
Qed.

Lemma pick_all_picks r last seeds :
  picker_ok r → pick_all r last seeds ph = Ok (match list.last (picks r seeds).2 with Some v => Some v | None => last end).
Proof.
  revert r last. induction seeds as [|s seeds IH]; intros r last Hok; cbn; [done|].
  destruct (pick_next_ok r s Hok) as (r' & v & -> & Hok' & _). rewrite (IH r' (Some v) Hok').
  destruct (picks r' seeds) as [r1 v1]. cbn [snd]. rewrite last_cons. by destruct (list.last v1).
Qed.

Lemma get_recall_range_picks seeds :
  seeds ≠ [] → ∃ v, get_recall_range n seeds ph = Ok v ∧ list.last (picks fresh_ranges seeds).2 = Some v ∧ v < n.
Proof.
  intros Hne. unfold get_recall_range, Ranges_new.
  destruct (Nat.eqb_spec n 0); [lia|]. fold fresh_ranges. cbn [mbind result_bind].
  rewrite (pick_all_picks fresh_ranges None seeds fresh_ok). cbn [mbind result_bind].
  destruct (picks_ok fresh_ranges seeds fresh_ok) as (_ & Hl & Hb).
  destruct (list.last (picks fresh_ranges seeds).2) as [v|] eqn:Hv.
  - exists v. split_and!; [done..|]. apply Hb. by apply last_Some_elem_of.
  - apply last_None in Hv. rewrite Hv in Hl. destruct seeds; [done|]. cbn in Hl. lia.
Qed.

(** ** Reset steps *)

Local Notation W := (N.of_nat n).

Lemma reset_step_spec s :
  (s ≠ 0)%N → (reset_step s W ≤ s < reset_step s W + W)%N ∧ (reset_step s W ≠ 0)%N.
Proof.
  intros Hs. unfold reset_step. destruct (N.eqb_spec s 0); [done|].
  pose proof (N.div_mod (s - 1) W ltac:(lia)). pose proof (N.mod_lt (s - 1) W ltac:(lia)). lia.
Qed.

(** The next step resets exactly when the cycle is full. *)
Lemma reset_step_next s :
  (s ≠ 0)%N →
  reset_step (s + 1) W = if decide (s + 1 = reset_step s W + W)%N then (s + 1)%N else reset_step s W.
Proof.
  intros Hs. unfold reset_step. destruct (N.eqb_spec s 0); [done|].
  destruct (N.eqb_spec (s + 1) 0); [lia|].
  pose proof (N.div_mod (s - 1) W ltac:(lia)) as Hdm. pose proof (N.mod_lt (s - 1) W ltac:(lia)).
  set (q := ((s - 1) / W)%N) in *. destruct (decide _) as [He|He].
  - rewrite <- (N.div_unique (s + 1 - 1) W (q + 1) 0); lia.
  - rewrite <- (N.div_unique (s + 1 - 1) W q ((s - 1) mod W + 1)); lia.
Qed.

Lemma reset_step_idem s : (s ≠ 0)%N → reset_step (reset_step s W) W = reset_step s W.
Proof.
  intros Hs. unfold reset_step. destruct (N.eqb_spec s 0); [done|].
  destruct (N.eqb_spec ((s - 1) / W * W + 1) 0); [lia|].
  by rewrite N.add_sub, N.div_mul by lia.
Qed.

(** ** Histories of VDF steps *)

Section History.
  Context (h : N → H256).

(** The seeds of the steps [a] to [b]. *)
Definition window (a b : N) : list H256 :=
  (fun i => h (a + N.of_nat i)%N) <$> seq 0 (N.to_nat (b + 1 - a)).

Lemma length_window a b : length (window a b) = N.to_nat (b + 1 - a).
Proof. unfold window. by rewrite length_fmap, length_seq. Qed.

Lemma window_snoc a b : (a ≤ b + 1)%N → window a (b + 1) = window a b ++ [h (b + 1)%N].
Proof.
  intros Hab. unfold window. replace (N.to_nat (b + 1 + 1 - a)) with (N.to_nat (b + 1 - a) + 1) by lia.
  rewrite seq_app, fmap_app. cbn. do 3 f_equal. lia.
Qed.

Lemma window_cons a b : (a ≤ b)%N → window a b = h a :: window (a + 1) b.
Proof.
  intros Hab. unfold window. replace (N.to_nat (b + 1 - a)) with (S (N.to_nat (b + 1 - (a + 1)))) by lia.
  cbn. f_equal; [f_equal; lia|]. rewrite <- fmap_S_seq, <- list_fmap_compose. apply list_fmap_ext.
  intros _ i _. cbn. f_equal. lia.
Qed.

Lemma window_empty a b : (b < a)%N → window a b = [].
Proof. intros Hab. unfold window. by replace (N.to_nat (b + 1 - a)) with 0 by lia. Qed.

(** The range validation expects at a step. *)
Definition expected (s : N) : nat :=
  default 0 (list.last (picks fresh_ranges (window (reset_step s W) s)).2).

Lemma expected_spec s :
  (s ≠ 0)%N → get_recall_range n (window (reset_step s W) s) ph = Ok (expected s) ∧ expected s < n.
Proof.
  intros Hs. destruct (reset_step_spec s Hs) as [Hr _].
  destruct (get_recall_range_picks (window (reset_step s W) s)) as (v & Hg & Hl & Hv).
  - intros Hw. apply (f_equal length) in Hw. rewrite length_window in Hw. cbn in Hw. lia.
  - unfold expected. by rewrite Hl.
Qed.

(** ** The miner's iterator *)

Record miner_ok (r : Ranges) : Prop := {
  mn_picker : picker_ok r;
  mn_state : pick_state r =
    pick_state (picks fresh_ranges (window (reset_step (last_step_num r + 1) W) (last_step_num r))).1;
  mn_cache : ∀ k v, last_recall_ranges r !! k = Some v → (k ≠ 0)%N ∧ v = expected k
}.

(** The pick state after the window of a step is the one before the next step. *)
Lemma state_next s :
  (s ≠ 0)%N →
  pick_state (picks fresh_ranges (window (reset_step (s + 1) W) s)).1 =
  pick_state (picks fresh_ranges (window (reset_step s W) s)).1.
Proof.
  intros Hs. rewrite reset_step_next by done. destruct (decide _) as [He|_]; [|done].
  rewrite (window_empty (s + 1) s) by lia. symmetry. apply picks_full_cycle.
  rewrite length_window. lia.
Qed.

Lemma next_recall_range_ok r s :
  miner_ok r → (s = last_step_num r + 1)%N →
  ∃ r', next_recall_range r s (h s) ph = (r', Ok (expected s)) ∧ miner_ok r' ∧ last_step_num r' = s.
Proof.
  intros [Hok Hst Hca] Hs. unfold next_recall_range.
  rewrite decide_True by lia. set (w := window (reset_step s W) (last_step_num r)).
  assert (window (reset_step s W) s = w ++ [h s]) as Hw.
  { unfold w. rewrite Hs. apply window_snoc. apply reset_step_spec. lia. }
  rewrite <- Hs in Hst. fold w in Hst.
  destruct (picks_ok fresh_ranges w fresh_ok) as (Hokw & _).
  destruct (picks_same r (picks fresh_ranges w).1 [h s] Hok Hokw Hst) as [Hv Hp]. cbn [picks] in Hv, Hp.
  destruct (pick_next_ok r (h s) Hok) as (r1 & v & Hp1 & Hok1 & _ & Hls & Hsub & _).
  destruct (pick_next_ok (picks fresh_ranges w).1 (h s) Hokw) as (r2 & v2 & Hp2 & _).
  rewrite Hp1, Hp2 in Hv, Hp. cbn in Hv, Hp. injection Hv as ->.
  assert (picks fresh_ranges (window (reset_step s W) s) = (r2, (picks fresh_ranges w).2 ++ [v2])) as Hfull.
  { rewrite Hw, picks_app by apply fresh_ok. destruct (picks fresh_ranges w) as [r3 v3] eqn:Hfw. cbn.
    cbn in Hp2. by rewrite Hp2. }
  assert (v2 = expected s) as -> by (unfold expected; rewrite Hfull; cbn; by rewrite last_snoc).
  rewrite Hp1. eexists. split_and!; [done| |done]. constructor; cbn.
  - destruct Hok1. by constructor.
  - rewrite state_next by lia. rewrite Hfull. cbn. exact Hp.
  - intros k x. destruct (decide (k = s)) as [->|Hk].
    + rewrite lookup_insert_eq. intros [= <-]. split; [lia|done].
    + rewrite lookup_insert_ne by done. intros Hx. apply Hca. by eapply lookup_weaken.
Qed.

Lemma cached_recall_range_ok r s :
  miner_ok r → (s = last_step_num r + 1)%N →
  ∃ r', cached_recall_range r s (h s) ph = (r', Ok (expected s)) ∧ miner_ok r' ∧
    (last_step_num r' ≤ s)%N.
Proof.
  intros Hok Hs. unfold cached_recall_range.
  destruct (last_recall_ranges r !! s) as [v|] eqn:Hc.
  - exists r. destruct (mn_cache _ Hok s v Hc) as [_ ->]. split_and!; [done..|lia].
  - destruct (next_recall_range_ok r s Hok Hs) as (r' & -> & Hok' & Hl). exists r'.
    split_and!; [done..|lia].
Qed.

Lemma reconstruct_from_ok k : ∀ r step i b,
  miner_ok r → (last_step_num r = step + i)%N → N.to_nat (b - (step + i)) = k →
  (step + i ≤ b)%N → (b < 2 ^ 64)%N →
  ∃ r', reconstruct_from r step i (window (step + 1 + i) b) ph = (r', Ok tt) ∧
    miner_ok r' ∧ last_step_num r' = b.
Proof.
  induction k as [|k IH]; intros r step i b Hok Hl Hk Hle Hb.
  - rewrite window_empty by lia. exists r. split_and!; [done..|lia].
  - rewrite window_cons by lia. cbn [reconstruct_from].
    destruct (N.ltb_spec (step + 1 + i) (2 ^ 64)); [|lia].
    destruct (next_recall_range_ok r (step + 1 + i) Hok) as (r1 & -> & Hok1 & Hl1); [lia|].
    rewrite <- N.add_assoc. apply IH; try done; lia.
Qed.

Lemma reconstruct_ok r b :
  miner_ok r → (last_step_num r ≤ b)%N → (b < 2 ^ 64)%N →
  ∃ r', reconstruct r (window (last_step_num r + 1) b) ph = (r', Ok tt) ∧
    miner_ok r' ∧ last_step_num r' = b.
Proof.
  intros Hok Hle Hb. unfold reconstruct.
  destruct (reconstruct_from_ok (N.to_nat (b - last_step_num r)) r (last_step_num r) 0 b)
    as (r' & Hr & Hok'); try done; [lia..|]. rewrite N.add_0_r in Hr. by exists r'.
Qed.

(** Starting over at a reset boundary. *)
Lemma restart_ok r s :
  miner_ok r → (s ≠ 0)%N →
  let r1 := reinitialize r in
  miner_ok (mkRanges (ranges r1) (last_range_pos r1) (reset_step s W - 1) (last_recall_ranges r1)
              (num_recall_ranges_in_partition r1)).
Proof.
  intros [Hok _ Hca] Hs r1. destruct (reset_step_spec s Hs) as [_ Hr0]. constructor; cbn.
  - apply fresh_picker_ok; unfold pick_state; cbn; by rewrite (pk_num _ Hok).
  - replace (reset_step s W - 1 + 1)%N with (reset_step s W) by lia.
    rewrite reset_step_idem, window_empty by (done || lia). unfold pick_state. cbn.
    by rewrite (pk_num _ Hok).
  - intros k v [Hk _]%map_lookup_filter_Some. by apply Hca.
Qed.

Lemma miner_recall_range_ok get_steps r s :
  miner_ok r → (s ≠ 0)%N → (s < 2 ^ 64)%N → (last_step_num r + 1 < 2 ^ 64)%N →
  (∀ a b, (a ≠ 0)%N → (a ≤ b)%N → (b < s)%N → get_steps a b = Ok (window a b)) →
  ∃ r', miner_recall_range get_steps r s (h s) ph = (r', Ok (expected s)) ∧ miner_ok r' ∧
    (last_step_num r' ≤ s)%N.
Proof.
  intros Hok Hs Hs64 Hl64 Hgs. unfold miner_recall_range.
  destruct (N.ltb_spec (last_step_num r + 1) (2 ^ 64)); [|lia].
  destruct (N.eqb_spec (last_step_num r + 1) s) as [He|Hne]; [by apply cached_recall_range_ok|].
  rewrite (pk_num _ (mn_picker _ Hok)). destruct (reset_step_spec s Hs) as [Hrs Hr0].
  assert (∀ r1, miner_ok r1 → (last_step_num r1 + 1 ≤ s)%N →
    ∃ r', (if (last_step_num r1 + 1 <? s)%N then
      match get_steps (last_step_num r1 + 1)%N (s - 1)%N with
      | Ok steps => match reconstruct r1 steps ph with
          | (r2, Ok _) => cached_recall_range r2 s (h s) ph
          | (r2, Err e) => (r2, Err e) | (r2, Panic) => (r2, Panic) end
      | Err e => (r1, Err e) | Panic => (r1, Panic) end
      else cached_recall_range r1 s (h s) ph) = (r', Ok (expected s)) ∧ miner_ok r' ∧
      (last_step_num r' ≤ s)%N) as Hrun.
  { intros r1 Hok1 Hle. destruct (N.ltb_spec (last_step_num r1 + 1) s) as [Hlt|Hge].
    - rewrite Hgs by lia. destruct (reconstruct_ok r1 (s - 1) Hok1) as (r2 & -> & Hok2 & Hl2); [lia..|].
      apply cached_recall_range_ok; [done|lia].
    - apply cached_recall_range_ok; [done|lia]. }
  destruct ((_ <? _) || (_ <? _))%N eqn:Hc.
  - pose proof (Hrun _ (restart_ok r s Hok Hs)) as Hx. cbn [last_step_num] in Hx.
    replace (reset_step s W - 1 + 1)%N with (reset_step s W) in Hx by lia. apply Hx. lia.
  - apply Hrun; [done|]. apply orb_false_iff in Hc as [_ Hc%N.ltb_ge]. lia.
Qed.

Lemma fresh_miner_ok : miner_ok fresh_ranges.
Proof.
  pose proof (reset_step_spec 1 ltac:(done)) as [_ Hr]. constructor.
  - apply fresh_ok.
  - change (last_step_num fresh_ranges) with 0%N. change (0 + 1)%N with 1%N.
    by rewrite window_empty by lia.
  - intros k v. cbn. by rewrite lookup_empty.
Qed.
End History.
End SamplingFacts.
