(* ===== verification/SamplingTheorems.v ===== *)
(** What efficient sampling guarantees, with a concrete instance of each theorem, and that the
    VDF step window rebuilt from a block's ancestry holds exactly the steps of that
    ancestry. *)

From stdpp Require Import gmap.
From S2P Require Import Prelude SimpleRng TreeHash Sampling.

#[local] Open Scope N_scope.

Section StepWindow.
  Context (resolve : N → option VdfHeader).

(** [v] is the VDF output of step [s] in the ancestry of [h]; consecutive headers carry
    consecutive steps. *)
Inductive anc_step (h : VdfHeader) (s : N) (v : H256) : Prop :=
| step_here :
    first_step_number h ≤ s ≤ vh_global_step_number h →
    vh_steps h !! N.to_nat (s - first_step_number h) = Some v → anc_step h s v
| step_above p :
    s < first_step_number h → resolve (vh_previous_block_hash h) = Some p →
    vh_global_step_number p = first_step_number h - 1 → anc_step p s v → anc_step h s v.

Lemma anc_step_det h s v v' : anc_step h s v → anc_step h s v' → v = v'.
Proof.
  induction 1 as [h s v Hs Hv|h s v p Hs Hr Hg Ha IH]; destruct 1 as [Hs' Hv'|p' Hs' Hr' Hg' Ha'].
  - congruence.
  - lia.
  - lia.
  - simplify_eq. by apply IH.
Qed.

(** The declared steps fit the step numbers. *)
Definition steps_fit (h : VdfHeader) : Prop :=
  N.of_nat (length (vh_steps h)) ≤ vh_global_step_number h + 1 < 2 ^ 64.

(** The ancestry of [h] reaches back to step [ws] within [k] headers. *)
Inductive reaches (ws : N) : nat → VdfHeader → Prop :=
| reach_here h : steps_fit h → first_step_number h ≤ ws → reaches ws 1 h
| reach_up k h p :
    steps_fit h → ws < first_step_number h → vh_height h ≠ 0 → resolve (vh_previous_block_hash h) = Some p →
    vh_global_step_number p = first_step_number h - 1 → reaches ws k p → reaches ws (S k) h.

Lemma steps_fit_lookup h s :
  steps_fit h → first_step_number h ≤ s ≤ vh_global_step_number h →
  is_Some (vh_steps h !! N.to_nat (s - first_step_number h)).
Proof.
  unfold steps_fit, first_step_number. intros Hf Hs. apply lookup_lt_is_Some_2. lia.
Qed.

(** ** Copying one header *)

Lemma copy_steps_spec hf ws steps : ∀ count step out out',
  ws ≤ step → copy_steps hf ws steps step count out = Some out' →
  length out' = length out ∧
  ∀ j, (j < length out)%nat →
    out' !! j = if decide (step ≤ ws + N.of_nat j < step + N.of_nat count)
                then steps !! N.to_nat (ws + N.of_nat j - hf) else out !! j.
Proof.
  induction count as [|count IH]; intros step out out' Hle; cbn [copy_steps].
  - intros [= <-]. split; [done|]. intros j Hj. by rewrite decide_False by lia.
  - destruct (steps !! N.to_nat (step - hf)) as [v|] eqn:Hv; [|done].
    intros [Hlen Hl]%IH; [|lia]. rewrite length_insert in Hlen, Hl. split; [done|]. intros j Hj.
    rewrite (Hl j Hj). destruct (decide (step + 1 ≤ _ < _)) as [H1|H1].
    + by rewrite decide_True by lia.
    + destruct (decide (j = N.to_nat (step - ws))) as [->|Hne].
      * rewrite list_lookup_insert_eq by done. rewrite decide_True by lia. rewrite <- Hv. f_equal. lia.
      * rewrite list_lookup_insert_ne by done. by rewrite decide_False by lia.
Qed.

Lemma copy_steps_some hf ws steps : ∀ count step out,
  (∀ s, step ≤ s < step + N.of_nat count → is_Some (steps !! N.to_nat (s - hf))) →
  is_Some (copy_steps hf ws steps step count out).
Proof.
  induction count as [|count IH]; intros step out Hs; cbn [copy_steps]; [by eexists|].
  destruct (Hs step) as [v ->]; [lia|]. apply IH. intros s Hss. apply Hs. lia.
Qed.

(** ** The walk *)

(** Slots above [top] are final, slots up to it come from the ancestry of [h]. *)
Lemma step_window_walk_sound : ∀ fuel h ws we out w,
  ws ≤ we → length out = N.to_nat (we + 1 - ws) →
  step_window_walk fuel resolve h ws we out = Some w →
  length w = length out ∧
  ∀ j v, w !! j = Some v →
    if decide (ws + N.of_nat j ≤ vh_global_step_number h) then anc_step h (ws + N.of_nat j) v
    else out !! j = Some v.
Proof.
  induction fuel as [|fuel IH]; intros h ws we out w Hwe Hlen; cbn [step_window_walk]; [done|].
  set (hf := first_step_number h). set (count := N.to_nat _).
  destruct (copy_steps _ _ _ _ _ _) as [out1|] eqn:Hc; [|done].
  apply copy_steps_spec in Hc as [Hl1 Hc]; [|lia].
  assert (∀ j v, (j < length out)%nat → out1 !! j = Some v → hf ≤ ws + N.of_nat j →
    if decide (ws + N.of_nat j ≤ vh_global_step_number h) then anc_step h (ws + N.of_nat j) v
    else out !! j = Some v) as Hhere.
  { intros j v Hj. rewrite (Hc j Hj). intros Hv Hf. destruct (decide (_ ≤ vh_global_step_number h)).
    - rewrite decide_True in Hv by lia. by apply step_here.
    - by rewrite decide_False in Hv by lia. }
  destruct (N.leb_spec hf ws) as [Hf|Hf].
  { intros [= <-]. split; [done|]. intros j v Hv. apply Hhere; [|done|lia].
    apply lookup_lt_Some in Hv. lia. }
  destruct (vh_height h =? 0); [done|].
  destruct (resolve (vh_previous_block_hash h)) as [p|] eqn:Hp; [|done].
  destruct (N.eqb_spec (vh_global_step_number p) (hf - 1)) as [Hg|]; [|done].
  intros [Hlw Hw]%IH; [|done|lia]. split; [lia|]. intros j v Hv. specialize (Hw j v Hv).
  pose proof (lookup_lt_Some _ _ _ Hv) as Hj. destruct (decide (_ ≤ vh_global_step_number p)) as [Hle|Hgt].
  - rewrite decide_True; [by apply (step_above _ _ _ p); try done; lia|].
    assert (hf ≤ vh_global_step_number h + 1) by (unfold hf, first_step_number; lia). lia.
  - apply Hhere; [lia|done|lia].
Qed.

Lemma step_window_walk_complete : ∀ k h ws we out,
  reaches ws k h → ∀ fuel, (k ≤ fuel)%nat →
  is_Some (step_window_walk fuel resolve h ws we out).
Proof.
  intros k h ws we out Hr. revert out. induction Hr as [h Hfit Hf|k h p Hfit Hf Hh Hp Hg Hr IH];
    intros out fuel Hfuel; (destruct fuel as [|fuel]; [lia|]); cbn [step_window_walk];
    match goal with |- context [copy_steps ?a ?b ?c ?d ?n ?o] =>
      destruct (copy_steps_some a b c n d o) as [out1 ->] end.
  - intros s Hs. apply steps_fit_lookup; [done|]. lia.
  - destruct (N.leb_spec (first_step_number h) ws); [by eexists|lia].
  - intros s Hs. apply steps_fit_lookup; [done|]. lia.
  - destruct (N.leb_spec (first_step_number h) ws); [lia|].
    destruct (N.eqb_spec (vh_height h) 0); [done|]. rewrite Hp.
    destruct (N.eqb_spec (vh_global_step_number p) (first_step_number h - 1)); [|done].
    apply IH. lia.
Qed.
End StepWindow.

(** * What efficient sampling guarantees, with a concrete instance of each theorem. *)

#[local] Open Scope nat_scope.

Section Theorems.
  Context `{Sha256}.
  Context (n : nat) (ph : H256).

(** ** Mining *)

(** The miner asks for the ranges of the given steps, one after the other. *)
Fixpoint mine_steps (get_steps : N → N → result SamplingError (list H256)) (h : N → H256)
    (r : Ranges) (steps : list N) : list (N * result SamplingError nat) :=
  match steps with
  | [] => []
  | s :: rest =>
      let '(r', v) := miner_recall_range get_steps r s (h s) ph in
      (s, v) :: mine_steps get_steps h r' rest
  end.

(** C26: Whatever steps the miner processes, consecutive, with gaps or going back, every
    recall range it mines from one history of VDF steps passes block validation on the
    window since the last reset, and lies in the partition. *)
Theorem mined_ranges_validate (get_steps : N → N → result SamplingError (list H256))
    (h : N → H256) (r0 : Ranges) (steps : list N) (s : N) (res : result SamplingError nat) :
  0 < n → (Z.of_nat n ≤ 2 ^ 32)%Z → Ranges_new n = Ok r0 →
  (∀ x, x ∈ steps → (x ≠ 0)%N ∧ (x + 1 < 2 ^ 64)%N) →
  (∀ a b, (a ≠ 0)%N → (a ≤ b)%N → get_steps a b = Ok (window h a b)) →
  (s, res) ∈ mine_steps get_steps h r0 steps →
  ∃ v, res = Ok v ∧ v < n ∧
    recall_range_is_valid v n (window h (reset_step s (N.of_nat n)) s) ph = Ok tt.
Proof.
  intros Hn0 Hn32 Hnew Hst Hgs.
  assert (r0 = fresh_ranges n) as ->.
  { unfold Ranges_new in Hnew. destruct (Nat.eqb_spec n 0); [lia|]. by injection Hnew. }
  pose proof (fresh_miner_ok n ph Hn0 h) as Hok.
  assert (last_step_num (fresh_ranges n) + 1 < 2 ^ 64)%N as Hl by done.
  revert Hok Hl. generalize (fresh_ranges n) as r. induction steps as [|x steps IH]; intros r Hok Hl.
  { by intros ?%elem_of_nil. }
  cbn [mine_steps]. destruct (Hst x) as [Hx0 Hx]; [by left|].
  destruct (miner_recall_range_ok n ph Hn0 Hn32 h get_steps r x Hok Hx0) as (r' & -> & Hok' & Hl');
    [lia|lia|by intros; apply Hgs|].
  intros [[= -> ->]|Hin]%elem_of_cons.
  - destruct (expected_spec n ph Hn0 Hn32 h x Hx0) as [Hg Hlt]. eexists. split_and!; [done..|].
    unfold recall_range_is_valid. rewrite Hg. cbn. by rewrite Nat.eqb_refl.
  - apply (IH ltac:(intros; apply Hst; by right) r' Hok'); [lia|done].
Qed.

(** Within one cycle of as many steps as there are ranges, sampling picks every
    recall range of the partition exactly once, whatever the seeds are. *)
Theorem cycle_samples_every_range_once (seeds : list H256) :
  0 < n → (Z.of_nat n ≤ 2 ^ 32)%Z → length seeds = n →
  ∃ vs, vs ≡ₚ seq 0 n ∧
    ∀ k v, vs !! k = Some v → get_recall_range n (take (S k) seeds) ph = Ok v.
Proof.
  intros Hn0 Hn32 Hl. exists (picks ph (fresh_ranges n) seeds).2.
  split; [by apply picks_full_cycle|]. intros k v Hk.
  pose proof (fresh_ok n) as Hf.
  assert (k < n) as Hkn.
  { apply lookup_lt_Some in Hk. destruct (picks_ok n ph Hn0 Hn32 (fresh_ranges n) seeds (Hf Hn0)) as (_ & Hlp & _).
    lia. }
  destruct (get_recall_range_picks n ph Hn0 Hn32 (take (S k) seeds)) as (v' & Hg & Hlast & _).
  { intros Ht. apply (f_equal length) in Ht. rewrite length_take in Ht. cbn [length] in Ht. lia. }
  rewrite Hg. f_equal. rewrite <- (take_drop (S k) seeds) in Hk.
  rewrite (picks_app n ph Hn0 Hn32) in Hk by (by apply Hf).
  destruct (picks_ok n ph Hn0 Hn32 (fresh_ranges n) (take (S k) seeds) (Hf Hn0)) as (_ & Hlp & _).
  destruct (picks ph (fresh_ranges n) (take (S k) seeds)) as [r1 v1]. cbn [snd] in *.
  destruct (picks ph r1 (drop (S k) seeds)) as [r2 v2]. cbn [snd] in *.
  rewrite length_take in Hlp. rewrite lookup_app_l in Hk by lia.
  rewrite last_lookup in Hlast. replace (pred (length v1)) with k in Hlast by lia. congruence.
Qed.

(** ** Validation *)

(** The window of a block's own ancestry. *)
Definition ancestry_window (resolve : N → option VdfHeader) (block : VdfHeader) (a b : N)
    (w : list H256) : Prop :=
  length w = N.to_nat (b + 1 - a) ∧
  ∀ j v, w !! j = Some v → anc_step resolve block (a + N.of_nat j)%N v.

Lemma fork_window_ok fuel resolve block a :
  (a ≤ vh_global_step_number block)%N →
  match build_fork_local_step_window fuel resolve block a (vh_global_step_number block) with
  | Some w => ancestry_window resolve block a (vh_global_step_number block) w
  | None => ∀ k, k ≤ fuel → ¬ reaches resolve a k block
  end.
Proof.
  intros Ha. unfold build_fork_local_step_window. destruct (N.ltb_spec (vh_global_step_number block) a); [lia|].
  destruct (step_window_walk _ _ _ _ _ _) as [w|] eqn:Hw.
  - apply step_window_walk_sound in Hw as [Hl Hw]; [|done|rewrite length_replicate; lia].
    rewrite length_replicate in Hl. split; [lia|]. intros j v Hj. specialize (Hw j v Hj).
    apply lookup_lt_Some in Hj. by rewrite decide_True in Hw by lia.
  - intros k Hk Hr. eapply step_window_walk_complete in Hr as [w Hw']; [|done].
    rewrite Hw in Hw'. done.
Qed.

(** The verdict of recall range validation: an accepted range is the one sampled from
    the seed buffer or from the block's own ancestry; a mismatch, which blames the peer, is
    only reported when the block's own ancestry samples another range; otherwise the result
    is that the steps are not available locally, and then they are indeed missing. *)
Theorem recall_range_verdict fuel (resolve : N → option VdfHeader) get_steps (block : VdfHeader)
    (offset chunks : N) (suspect : bool) :
  0 < n → (Z.of_nat n ≤ 2 ^ 32)%Z → (chunks ≠ 0)%N → (vh_global_step_number block ≠ 0)%N →
  (∀ a b, get_steps a b ≠ Panic) →
  let reset := reset_step (vh_global_step_number block) (N.of_nat n) in
  let claimed := N.to_nat (offset / chunks) in
  match recall_recall_range_is_valid fuel resolve get_steps block offset chunks n ph suspect with
  | Ok _ => ∃ w, get_recall_range n w ph = Ok claimed ∧
      ((suspect = false ∧ get_steps reset (vh_global_step_number block) = Ok w) ∨
       ancestry_window resolve block reset (vh_global_step_number block) w)
  | Err (Mismatch _) => ∃ w v, get_recall_range n w ph = Ok v ∧ v ≠ claimed ∧
      ancestry_window resolve block reset (vh_global_step_number block) w
  | Err StepsUnavailable =>
      (suspect = false ∧ ∃ e, get_steps reset (vh_global_step_number block) = Err e) ∨
      (∀ k, k ≤ fuel → ¬ reaches resolve reset k block)
  | Err _ | Panic => False
  end.
Proof.
  intros Hn0 Hn32 Hch Hg Hnp reset claimed. unfold recall_recall_range_is_valid.
  destruct (N.eqb_spec chunks 0); [done|]. fold claimed reset.
  destruct (reset_step_spec n Hn0 (vh_global_step_number block) Hg) as [Hr _]. fold reset in Hr.
  pose proof (fork_window_ok fuel resolve block reset ltac:(lia)) as Hfw.
  set (fork := match build_fork_local_step_window _ _ _ _ _ with None => _ | Some _ => _ end).
  assert (match fork with
    | Ok _ => ∃ w, get_recall_range n w ph = Ok claimed ∧
        ancestry_window resolve block reset (vh_global_step_number block) w
    | Err (Mismatch _) => ∃ w v, get_recall_range n w ph = Ok v ∧ v ≠ claimed ∧
        ancestry_window resolve block reset (vh_global_step_number block) w
    | Err StepsUnavailable => ∀ k, k ≤ fuel → ¬ reaches resolve reset k block
    | Err _ | Panic => False end) as Hfork.
  { unfold fork. destruct (build_fork_local_step_window _ _ _ _ _) as [w|]; [|done].
    destruct (get_recall_range_picks n ph Hn0 Hn32 w) as (v & Hv & _).
    { intros ->. destruct Hfw as [Hl _]. cbn in Hl. lia. }
    unfold recall_range_is_valid. rewrite Hv. cbn. destruct (Nat.eqb_spec v claimed) as [->|Hne].
    - by exists w.
    - by exists w, v. }
  destruct suspect; [destruct fork as [|[]|]; naive_solver|].
  destruct (get_steps reset (vh_global_step_number block)) as [w|e|] eqn:Hgs; [|naive_solver|by apply Hnp in Hgs].
  assert (∀ x, recall_range_is_valid claimed n w ph = Ok x → get_recall_range n w ph = Ok claimed) as Hacc.
  { intros x. unfold recall_range_is_valid. destruct (get_recall_range n w ph); cbn; try done.
    by destruct (Nat.eqb_spec a claimed) as [->|]. }
  destruct (recall_range_is_valid claimed n w ph) as [x|e|] eqn:Hv.
  - exists w. split; [by apply (Hacc x)|]. by left.
  - destruct fork as [|[]|]; naive_solver.
  - exfalso. unfold recall_range_is_valid in Hv. destruct w as [|s w].
    + unfold get_recall_range, Ranges_new in Hv. destruct (Nat.eqb_spec n 0); [lia|]. done.
    + destruct (get_recall_range_picks n ph Hn0 Hn32 (s :: w) ltac:(done)) as (v & Hv' & _).
      rewrite Hv' in Hv. cbn in Hv. by destruct (v =? claimed).
Qed.

(** ** A rewind *)

(** A pick keeps the cached range of a later step. *)
Lemma pick_next_cached r seed s v :
  (last_step_num r < s)%N → last_recall_ranges r !! s = Some v →
  last_recall_ranges (pick_next r seed ph).1 !! s = Some v.
Proof.
  intros Hs Hv. unfold pick_next. repeat case_match; try done. cbn.
  apply map_lookup_filter_Some. split; [done|]. cbn. lia.
Qed.

Lemma reconstruct_from_cached seeds : ∀ r step i s v,
  0 < n → (Z.of_nat n ≤ 2 ^ 32)%Z → picker_ok n r → (last_step_num r = step + i)%N →
  (step + i + N.of_nat (length seeds) < s)%N → (s < 2 ^ 64)%N →
  last_recall_ranges r !! s = Some v →
  ∃ r', reconstruct_from r step i seeds ph = (r', Ok tt) ∧ last_recall_ranges r' !! s = Some v.
Proof.
  induction seeds as [|seed seeds IH]; intros r step i s v Hn0 Hn32 Hok Hl Hlen Hs Hv;
    cbn [reconstruct_from length] in *; [by exists r|].
  destruct (N.ltb_spec (step + 1 + i) (2 ^ 64)); [|lia].
  unfold next_recall_range. rewrite decide_True by lia.
  destruct (pick_next_ok n ph Hn0 Hn32 r seed Hok) as (r1 & x & Hp & Hok1 & _ & Hl1 & _).
  pose proof (pick_next_cached r seed s v ltac:(lia) Hv) as Hc. rewrite Hp in *. cbn in Hc.
  apply IH; cbn; try done; [by destruct Hok1; constructor|lia|lia|].
  rewrite lookup_insert_ne by lia. done.
Qed.

(** When the miner goes back to one of the last steps it sampled, it returns the range it
    cached for that step, whatever seed the step has now: the rotation is rebuilt, the
    cached range is not. *)
Theorem rewound_miner_returns_cached_range get_steps (r : Ranges) (s : N) (seed : H256) (v : nat) :
  0 < n → (Z.of_nat n ≤ 2 ^ 32)%Z → picker_ok n r → (s ≠ 0)%N → (s ≤ last_step_num r)%N →
  (last_step_num r + 1 < 2 ^ 64)%N → (last_step_num r - NUMBER_OF_KEPT_LAST_STEPS < s)%N →
  last_recall_ranges r !! s = Some v →
  (∀ a b, ∃ w, get_steps a b = Ok w ∧ length w = N.to_nat (b + 1 - a)) →
  (miner_recall_range get_steps r s seed ph).2 = Ok v.
Proof.
  intros Hn0 Hn32 Hok Hs0 Hs Hl64 Hkeep Hv Hgs. unfold miner_recall_range.
  destruct (N.ltb_spec (last_step_num r + 1) (2 ^ 64)); [|lia].
  destruct (N.eqb_spec (last_step_num r + 1) s); [lia|].
  destruct (N.ltb_spec s (last_step_num r + 1)); [|lia]. rewrite orb_true_r.
  rewrite (pk_num _ _ Hok). destruct (reset_step_spec n Hn0 s Hs0) as [Hrs Hr0].
  set (rs := reset_step s (N.of_nat n)) in *. set (r1 := mkRanges _ _ _ _ _).
  assert (picker_ok n r1) as Hok1.
  { apply fresh_picker_ok; [done|unfold pick_state, r1; cbn; by rewrite (pk_num _ _ Hok)|].
    unfold r1. cbn. apply Hok. }
  assert (last_recall_ranges r1 !! s = Some v) as Hv1.
  { unfold r1. cbn. apply map_lookup_filter_Some. split; [done|]. cbn. exact Hkeep. }
  assert (∀ r', last_recall_ranges r' !! s = Some v → (cached_recall_range r' s seed ph).2 = Ok v) as Hc.
  { intros r' Hr'. unfold cached_recall_range. by rewrite Hr'. }
  destruct (N.ltb_spec rs s); [|by apply Hc].
  destruct (Hgs rs (s - 1)%N) as (w & -> & Hw).
  destruct (reconstruct_from_cached w r1 (rs - 1)%N 0 s v) as (r' & Hr & Hv'); try done.
  - cbn. lia.
  - lia.
  - lia.
  - unfold reconstruct. change (last_step_num r1) with (rs - 1)%N. rewrite Hr. by apply Hc.
Qed.
End Theorems.

(** ** A concrete instance *)

Module SamplingWitness.

Definition toy_hash (m : list byte) : list byte :=
  replicate 28 x00 ++ be_bytes 4 (of_be_bytes m * 2654435761 + 12345).

Lemma toy_hash_length m : length (toy_hash m) = 32.
Proof. unfold toy_hash. by rewrite length_app, length_replicate, length_be_bytes. Qed.

#[local] Instance toy_sha : Sha256 := {| sha256 := toy_hash; sha256_length := toy_hash_length |}.

Definition part : H256 := [x05; x09].
Definition hist (s : N) : H256 := be_bytes 4 (Z.of_N s * 7919).
Definition buffer (a b : N) : result SamplingError (list H256) := Ok (window hist a b).
Definition start4 : Ranges := fresh_ranges 4.

(** Steps 1, 2, 3, a gap to 7, back to 6, on to 8. *)
Definition session : list N := [1; 2; 3; 7; 6; 8]%N.

Lemma mined_ranges_witness :
  ∃ v, ((7, Ok v) ∈ mine_steps part buffer hist start4 session)%N ∧ v < 4 ∧
    recall_range_is_valid v 4 (window hist (reset_step 7 4) 7) part = Ok tt.
Proof.
  destruct (mined_ranges_validate 4 part buffer hist start4 session 7
    (default Panic (snd <$> mine_steps part buffer hist start4 session !! 3))) as (v & Hv & Hlt & Hok).
  - lia.
  - lia.
  - reflexivity.
  - intros x Hx. unfold session in Hx. rewrite !elem_of_cons, elem_of_nil in Hx.
    destruct_or! Hx; try done; subst; split; lia.
  - intros a b _ _. reflexivity.
  - apply list_elem_of_lookup. exists 3. vm_compute. reflexivity.
  - exists v. split_and!; [|exact Hlt|exact Hok]. rewrite <- Hv.
    apply list_elem_of_lookup. exists 3. vm_compute. reflexivity.
Defined.

Lemma cycle_witness :
  ∃ vs, vs ≡ₚ seq 0 4 ∧ ∀ k v, vs !! k = Some v →
    get_recall_range 4 (take (S k) (window hist 1 4)) part = Ok v.
Proof. apply (cycle_samples_every_range_once 4 part (window hist 1 4)); [lia|lia|reflexivity]. Defined.

Definition tip_header : VdfHeader := mkVdfHeader 2 1 6 (window hist 5 6).
Definition parent_header : VdfHeader := mkVdfHeader 1 0 4 (window hist 1 4).
Definition resolve_ex (k : N) : option VdfHeader := if (k =? 1)%N then Some parent_header else None.

Lemma recall_range_verdict_witness :
  ∃ w, get_recall_range 4 w part = Ok 1 ∧
    ((true = false ∧ buffer 5 6 = Ok w) ∨ ancestry_window resolve_ex tip_header 5 6 w).
Proof.
  pose proof (recall_range_verdict 4 part 2 resolve_ex buffer tip_header 10 10 true) as Hv.
  assert (recall_recall_range_is_valid 2 resolve_ex buffer tip_header 10 10 4 part true = Ok tt) as He
    by (vm_compute; reflexivity).
  rewrite He in Hv. apply Hv; [lia|lia|done|done|]. by intros a b.
Defined.
End SamplingWitness.
