(* ===== verification/Pricing.v ===== *)
(** Fixed-point storage pricing ([crates/types/src/storage_pricing.rs]): checked 256-bit
    arithmetic, the moving average, price ranges and the storage fees.

    A [U256] is a [Z] in [0 <= x < 2^256].  Decimal conversions are those of the
    [rust_decimal] crate; the values they produce (the cost of a chunk per epoch) are
    arguments. *)

From S2P Require Import Prelude.

Definition TOKEN_SCALE : Z := 10 ^ 18.
Definition PRECISION_SCALE : Z := 10 ^ 12.
Definition LN2_FP18 : Z := 693147180559945309.
Definition TAYLOR_TERMS : nat := 30.

Inductive PriceError : Type :=
| OverflowAdd
| UnderflowSub
| OverflowMul
| DivisionByZero
| AlphaOutOfRange
| PriceNotPositive
| LnOfZero
| LnBelowOne.

(** ** Checked arithmetic *)

Definition safe_add (lhs rhs : Z) : result PriceError Z := ok_or (checked_add 256 lhs rhs) OverflowAdd.
Definition safe_sub (lhs rhs : Z) : result PriceError Z := ok_or (checked_sub lhs rhs) UnderflowSub.
Definition safe_mul (lhs rhs : Z) : result PriceError Z := ok_or (checked_mul 256 lhs rhs) OverflowMul.
Definition safe_div (lhs rhs : Z) : result PriceError Z :=
  if rhs =? 0 then Err DivisionByZero else Ok (lhs / rhs).
Definition mul_div (mul_lhs mul_rhs div : Z) : result PriceError Z :=
  prod ← safe_mul mul_lhs mul_rhs; safe_div prod div.

(** ** Powers, logarithm, exponential *)

(** The loop of [precision_pow]: one round per bit of the exponent. *)
Fixpoint precision_pow_loop (fuel : nat) (res base_ps exp : Z) : result PriceError Z :=
  match fuel with
  | O => Panic
  | S fuel' =>
      if exp =? 0 then Ok res
      else
        res ← (if Z.land exp 1 =? 1 then mul_div res base_ps PRECISION_SCALE else Ok res);
        base_ps ← mul_div base_ps base_ps PRECISION_SCALE;
        precision_pow_loop fuel' res base_ps (Z.shiftr exp 1)
  end.
Definition precision_pow (base_ps exp : Z) : result PriceError Z :=
  precision_pow_loop 65 PRECISION_SCALE base_ps exp.

(** The two scaling loops of [ln_fp18]. *)
Fixpoint ln_scale_down (fuel : nat) (m k : Z) : result PriceError (Z * Z) :=
  match fuel with
  | O => Panic
  | S fuel' =>
      if 2 * TOKEN_SCALE <=? m then m ← safe_div m 2; ln_scale_down fuel' m (k + 1) else Ok (m, k)
  end.
Fixpoint ln_scale_up (fuel : nat) (m k : Z) : result PriceError (Z * Z) :=
  match fuel with
  | O => Panic
  | S fuel' =>
      if m <? TOKEN_SCALE then m ← safe_mul m 2; ln_scale_up fuel' m (saturating_sub k 1) else Ok (m, k)
  end.

(** The Taylor loop of [ln_fp18] from term [i] on, [rest] terms left. *)
Fixpoint ln_taylor (rest : nat) (i y y_power sum : Z) : result PriceError Z :=
  match rest with
  | O => Ok sum
  | S rest' =>
      term ← safe_div y_power i;
      sum ← (if i mod 2 =? 1 then safe_add sum term else safe_sub sum term);
      y_power ← mul_div y_power y TOKEN_SCALE;
      ln_taylor rest' (i + 1) y y_power sum
  end.

Definition ln_fp18 (x : Z) : result PriceError Z :=
  if x =? 0 then Err LnOfZero
  else if x <? TOKEN_SCALE then Err LnBelowOne
  else
    '(m, k) ← ln_scale_down 257 x 0;
    '(m, k) ← ln_scale_up 257 m k;
    y ← safe_sub m TOKEN_SCALE;
    sum ← ln_taylor TAYLOR_TERMS 1 y y 0;
    k_ln2 ← safe_mul k LN2_FP18;
    safe_add k_ln2 sum.

Fixpoint exp_taylor (rest : nat) (i x term sum : Z) : result PriceError Z :=
  match rest with
  | O => Ok sum
  | S rest' =>
      term ← mul_div term x TOKEN_SCALE;
      term ← safe_div term i;
      sum ← safe_add sum term;
      exp_taylor rest' (i + 1) x term sum
  end.
Definition exp_fp18 (x : Z) : result PriceError Z := exp_taylor TAYLOR_TERMS 1 x TOKEN_SCALE TOKEN_SCALE.

Fixpoint exp_neg_taylor (rest : nat) (i x term sum : Z) : result PriceError Z :=
  match rest with
  | O => Ok sum
  | S rest' =>
      term ← mul_div term x TOKEN_SCALE;
      term ← safe_div term i;
      sum ← (if Z.land i 1 =? 1 then safe_sub sum term else safe_add sum term);
      exp_neg_taylor rest' (i + 1) x term sum
  end.
Definition exp_neg_fp18 (x : Z) : result PriceError Z :=
  exp_neg_taylor TAYLOR_TERMS 1 x TOKEN_SCALE TOKEN_SCALE.

(** [Amount::<Irys>::apply_pledge_decay]; the count is a [u64]. *)
Definition apply_pledge_decay (amount current_pledge_count decay_rate : Z) : result PriceError Z :=
  count_plus_one ← expect (checked_add 64 current_pledge_count 1);
  count_fp18 ← safe_mul count_plus_one TOKEN_SCALE;
  ln_count ← ln_fp18 count_fp18;
  decay_rate_fp18 ← mul_div decay_rate TOKEN_SCALE PRECISION_SCALE;
  exponent ← mul_div decay_rate_fp18 ln_count TOKEN_SCALE;
  divisor ← exp_fp18 exponent;
  mul_div amount TOKEN_SCALE divisor.

(** ** Storage costs and fees *)

Definition cost_per_replica (amount epochs decay_rate : Z) : result PriceError Z :=
  if decay_rate =? 0 then safe_mul amount epochs
  else
    one_minus_r ← safe_sub PRECISION_SCALE decay_rate;
    pow_val ← precision_pow one_minus_r epochs;
    numerator ← safe_sub PRECISION_SCALE pow_val;
    fraction_ps ← mul_div numerator PRECISION_SCALE decay_rate;
    fraction_1e18 ← mul_div fraction_ps TOKEN_SCALE PRECISION_SCALE;
    mul_div amount fraction_1e18 TOKEN_SCALE.

Definition replica_count (amount count : Z) : result PriceError Z := safe_mul amount count.

Definition base_network_fee (amount bytes_to_store chunk_size irys_token_price : Z)
  : result PriceError Z :=
  if irys_token_price =? 0 then Err PriceNotPositive
  else
    chunk_minus_1 ← safe_sub chunk_size 1;
    padded ← safe_add bytes_to_store chunk_minus_1;
    num_chunks ← safe_div padded chunk_size;
    usd_fee ← safe_mul amount num_chunks;
    mul_div usd_fee TOKEN_SCALE irys_token_price.

(** The fields of [ConsensusConfig] the fees read; [cc_cost_per_chunk_per_epoch] is the
    result of [cost_per_chunk_per_epoch_at] for the block's timestamp. *)
Record FeeConfig : Type := mkFeeConfig {
  cc_cost_per_chunk_per_epoch : result PriceError Z;
  cc_chunk_size : Z;
  cc_minimum_term_fee_usd : Z;
  cc_safe_minimum_number_of_years : Z;
  cc_epochs_per_year : Z;
  cc_decay_rate : Z
}.

Definition calculate_term_fee (bytes_to_store epochs_for_storage : Z) (c : FeeConfig)
    (replicas ema_price : Z) : result PriceError Z :=
  cost_per_chunk_per_epoch ← cc_cost_per_chunk_per_epoch c;
  cost_per_chunk_duration ← cost_per_replica cost_per_chunk_per_epoch epochs_for_storage 0;
  cost_with_replicas ← replica_count cost_per_chunk_duration replicas;
  base_fee ← base_network_fee cost_with_replicas bytes_to_store (cc_chunk_size c) ema_price;
  min_fee_irys ← base_network_fee (cc_minimum_term_fee_usd c) (cc_chunk_size c) (cc_chunk_size c) ema_price;
  Ok (if base_fee <? min_fee_irys then min_fee_irys else base_fee).

Definition calculate_perm_fee_from_config (bytes_to_store : Z) (c : FeeConfig)
    (replicas ingress_proof_reward ema_price : Z) : result PriceError Z :=
  cost_per_chunk_per_epoch ← cc_cost_per_chunk_per_epoch c;
  epochs_for_storage ← expect (checked_mul 64 (cc_safe_minimum_number_of_years c) (cc_epochs_per_year c));
  decay_rate_per_epoch ← safe_div (cc_decay_rate c) (cc_epochs_per_year c);
  cost ← cost_per_replica cost_per_chunk_per_epoch epochs_for_storage decay_rate_per_epoch;
  cost_per_chunk_duration_adjusted ← replica_count cost replicas;
  fee ← base_network_fee cost_per_chunk_duration_adjusted bytes_to_store (cc_chunk_size c) ema_price;
  Ok (saturating_add 256 fee ingress_proof_reward).

(** ** Prices *)

Definition calculate_ema (price total_past_blocks previous_ema : Z) : result PriceError Z :=
  denom ← ok_or (checked_add 256 total_past_blocks 1) OverflowAdd;
  two_scale ← safe_mul 2 TOKEN_SCALE;
  alpha ← safe_div two_scale denom;
  if negb ((0 <? alpha) && (alpha <=? TOKEN_SCALE)) then Err AlphaOutOfRange
  else
    one_minus_alpha ← safe_sub TOKEN_SCALE alpha;
    scaled_current ← mul_div price alpha TOKEN_SCALE;
    scaled_last ← mul_div previous_ema one_minus_alpha TOKEN_SCALE;
    safe_add scaled_current scaled_last.

Definition add_multiplier (amount percentage : Z) : result PriceError Z :=
  one_plus ← safe_add PRECISION_SCALE percentage;
  mul_div amount one_plus PRECISION_SCALE.
Definition sub_multiplier (amount percentage : Z) : result PriceError Z :=
  one_minus ← safe_sub PRECISION_SCALE percentage;
  mul_div amount one_minus PRECISION_SCALE.

(** ** When the arithmetic succeeds *)

Lemma safe_mul_Ok a b c : safe_mul a b = Ok c ↔ c = a * b ∧ a * b < 2 ^ 256.
Proof.
  unfold safe_mul, ok_or. destruct (checked_mul 256 a b) eqn:Hc.
  - apply checked_mul_Some in Hc as [-> ?]. naive_solver.
  - unfold checked_mul in Hc. destruct (Z.ltb_spec (a * b) (2 ^ 256)); [done|]. split; [done|lia].
Qed.

Lemma safe_add_Ok a b c : safe_add a b = Ok c ↔ c = a + b ∧ a + b < 2 ^ 256.
Proof.
  unfold safe_add, ok_or. destruct (checked_add 256 a b) eqn:Hc.
  - apply checked_add_Some in Hc as [-> ?]. naive_solver.
  - unfold checked_add in Hc. destruct (Z.ltb_spec (a + b) (2 ^ 256)); [done|]. split; [done|lia].
Qed.

Lemma safe_sub_Ok a b c : safe_sub a b = Ok c ↔ c = a - b ∧ b ≤ a.
Proof.
  unfold safe_sub, ok_or. destruct (checked_sub a b) eqn:Hc.
  - apply checked_sub_Some in Hc as [-> ?]. naive_solver.
  - unfold checked_sub in Hc. destruct (Z.leb_spec b a); [done|]. split; [done|lia].
Qed.

Lemma mul_div_Ok a b d c : d ≠ 0 → mul_div a b d = Ok c ↔ c = a * b / d ∧ a * b < 2 ^ 256.
Proof.
  intros Hd. unfold mul_div, safe_div. destruct (Z.eqb_spec d 0); [done|].
  destruct (safe_mul a b) as [x| |] eqn:Hm; cbn.
  - apply safe_mul_Ok in Hm as [-> ?]. naive_solver.
  - split; [done|]. intros [_ Hlt]. assert (safe_mul a b = Ok (a * b)) by (by apply safe_mul_Ok). congruence.
  - split; [done|]. intros [_ Hlt]. assert (safe_mul a b = Ok (a * b)) by (by apply safe_mul_Ok). congruence.
Qed.
