(* ===== verification/Ema.v ===== *)
(** The EMA price snapshots ([crates/domain/src/snapshots/ema_snapshot.rs]) and the height
    rules they use ([crates/types/src/block.rs]).

    Heights are [u64] as [Z]; [height + 1] in [prev_ema_ignore_genesis_rules] and the
    products with the interval stay below [2^64] for heights and intervals below [2^62]. *)

From S2P Require Import Prelude Pricing.

(** The price fields of a block header. *)
Record PriceHeader : Type := mkPriceHeader {
  ph_height : Z;
  ema_irys_price : Z;
  oracle_irys_price : Z
}.

(** ** Heights *)

Definition is_ema_recalculation_block (height n : Z) : bool :=
  if height <? n * 2 then true else is_multiple_of (saturating_add 64 height 1) n.

Definition prev_ema_ignore_genesis_rules (height n : Z) : Z :=
  let remainder := (height + 1) mod n in
  if remainder =? 0 then saturating_sub height n else saturating_sub height remainder.

Definition block_height_to_use_for_price (height n : Z) : Z :=
  if height <? n * 2 then 0
  else prev_ema_ignore_genesis_rules (prev_ema_ignore_genesis_rules height n) n.

Definition previous_ema_recalculation_block_height (height n : Z) : Z :=
  if height <? n * 2 then saturating_sub height 1 else prev_ema_ignore_genesis_rules height n.

(** ** Snapshots *)

Record EmaSnapshot : Type := mkEmaSnapshot {
  ema_price_2_intervals_ago : Z;
  oracle_price_for_current_ema_predecessor : Z;
  ema_price_current_interval : Z;
  ema_price_1_interval_ago : Z
}.

Definition EmaSnapshot_genesis (g : PriceHeader) : EmaSnapshot :=
  mkEmaSnapshot (ema_irys_price g) (oracle_irys_price g) (ema_irys_price g) (ema_irys_price g).

(** [EmaSnapshot::next_snapshot]; it never fails. *)
Definition next_snapshot (s : EmaSnapshot) (new_block parent_block : PriceHeader) (n : Z) : EmaSnapshot :=
  let crossing_interval_boundary := is_multiple_of (ph_height new_block) n && (0 <? ph_height new_block) in
  let '(two_ago, one_ago) :=
    if crossing_interval_boundary then (ema_price_1_interval_ago s, ema_price_current_interval s)
    else (ema_price_2_intervals_ago s, ema_price_1_interval_ago s) in
  if is_ema_recalculation_block (ph_height new_block) n
  then mkEmaSnapshot two_ago (oracle_irys_price parent_block) (ema_irys_price new_block) one_ago
  else mkEmaSnapshot two_ago (oracle_price_for_current_ema_predecessor s)
         (ema_price_current_interval s) one_ago.

Inductive EmaError : Type :=
| EE_NoBlocks
| EE_LatestNotHighest
| EE_BlockNotFound (height : Z).

Definition get_block_with_height (blocks : list PriceHeader) (desired_height : Z)
  : result EmaError PriceHeader :=
  ok_or (List.find (fun b => ph_height b =? desired_height) blocks) (EE_BlockNotFound desired_height).

Definition create_ema_snapshot_from_chain_history (blocks : list PriceHeader) (n : Z)
  : result EmaError EmaSnapshot :=
  latest_block ← ok_or (last blocks) EE_NoBlocks;
  let max_height := foldr Z.max 0 (ph_height <$> blocks) in
  if negb (ph_height latest_block =? max_height) then Err EE_LatestNotHighest
  else
    let height := ph_height latest_block in
    let height_pricing_block := block_height_to_use_for_price height n in
    let height_latest_ema_block :=
      if is_ema_recalculation_block height n then height
      else previous_ema_recalculation_block_height height n in
    let height_latest_ema_interval_predecessor := saturating_sub height_latest_ema_block 1 in
    let height_1_interval_ago :=
      if height <? n then 0 else (height / n - 1) * n + (n - 1) in
    pricing ← get_block_with_height blocks height_pricing_block;
    one_ago ← get_block_with_height blocks height_1_interval_ago;
    predecessor ← get_block_with_height blocks height_latest_ema_interval_predecessor;
    latest_ema ← get_block_with_height blocks height_latest_ema_block;
    Ok (mkEmaSnapshot (ema_irys_price pricing) (oracle_irys_price predecessor)
          (ema_irys_price latest_ema) (ema_irys_price one_ago)).

(** [build_current_ema_snapshot_from_index] ([crates/domain/src/models/block_tree.rs]): the
    last [3 * n] blocks up to genesis, oldest first. *)
Definition build_current_ema_snapshot_from_index (chain : list PriceHeader) (n : Z)
  : result EmaError EmaSnapshot :=
  create_ema_snapshot_from_chain_history (drop (length chain - Z.to_nat (n * 3)) chain) n.

(** ** Prices of a new block *)

Definition bound_in_min_max_range (desired_price safe_range base_price : Z) : Z :=
  let max_acceptable := match add_multiplier base_price safe_range with Ok p => p | _ => base_price end in
  let min_acceptable := match sub_multiplier base_price safe_range with Ok p => p | _ => base_price end in
  if max_acceptable <? desired_price then max_acceptable
  else if desired_price <? min_acceptable then min_acceptable
  else desired_price.

Record EmaCalculation : Type := mkEmaCalculation {
  oracle_price_for_calculation : Z;
  oracle_price_for_block_inclusion : Z;
  calculated_ema : Z
}.

Definition calculate_ema_for_new_block (s : EmaSnapshot) (parent_block : PriceHeader)
    (oracle_price safe_range n : Z) : EmaCalculation :=
  let price :=
    if ph_height parent_block <? n * 2 then oracle_price
    else oracle_price_for_current_ema_predecessor s in
  let price := bound_in_min_max_range price safe_range (oracle_irys_price parent_block) in
  let ema :=
    match calculate_ema price n (ema_price_current_interval s) with
    | Ok e => e
    | _ => ema_price_current_interval s
    end in
  mkEmaCalculation price (bound_in_min_max_range oracle_price safe_range (oracle_irys_price parent_block)) ema.

Definition oracle_price_is_valid (oracle_price previous_oracle_price safe_range : Z) : bool :=
  if oracle_price =? 0 then false
  else oracle_price =? bound_in_min_max_range oracle_price safe_range previous_oracle_price.

Definition ema_for_public_pricing (s : EmaSnapshot) : Z := ema_price_2_intervals_ago s.

Definition tip_in_last_quarter_of_ema_interval (tip_height n : Z) : bool :=
  let last_quarter_start := n - div_ceil n 4 in
  last_quarter_start <=? tip_height mod n.

Definition ema_for_public_quote (s : EmaSnapshot) (tip_height n : Z) : Z :=
  if tip_in_last_quarter_of_ema_interval tip_height n
  then Z.min (ema_price_1_interval_ago s) (ema_price_2_intervals_ago s)
  else ema_for_public_pricing s.

(** ** Producer and validator *)

(** [choose_oracle_price] of the block producer ([crates/actors/src/block_producer.rs]);
    times are seconds. *)
Definition choose_oracle_price (parent_ts parent_price oracle_price oracle_updated_at : Z) : Z :=
  let oracle_is_fresh := parent_ts <=? saturating_add 64 oracle_updated_at (3 * 60) in
  let chosen := if oracle_is_fresh then oracle_price else parent_price in
  if chosen =? 0 then parent_price else chosen.

(** [BlockProdStrategy::get_ema_price]: the oracle's current snapshot, a price and the time
    it was updated, or [None] where no oracle is configured. *)
Definition get_ema_price (current_snapshot : option (Z * Z)) (parent_block : PriceHeader)
    (parent_ts : Z) (s : EmaSnapshot) (safe_range n : Z) : EmaCalculation :=
  let oracle_irys_price :=
    match current_snapshot with
    | Some (fresh_price, oracle_updated_at) =>
        choose_oracle_price parent_ts (oracle_irys_price parent_block) fresh_price oracle_updated_at
    | None => oracle_irys_price parent_block
    end in
  calculate_ema_for_new_block s parent_block oracle_irys_price safe_range n.

Inductive PriceCheckError : Type := OraclePriceInvalid | EmaMismatch.

(** The price checks of [prevalidate_block] ([crates/actors/src/block_validation.rs]). *)
Definition prevalidate_prices (s : EmaSnapshot) (previous_block : PriceHeader)
    (block_oracle_irys_price block_ema_irys_price safe_range n : Z) : result PriceCheckError () :=
  if negb (oracle_price_is_valid block_oracle_irys_price (oracle_irys_price previous_block) safe_range)
  then Err OraclePriceInvalid
  else if negb (calculated_ema
                  (calculate_ema_for_new_block s previous_block block_oracle_irys_price safe_range n)
                =? block_ema_irys_price)
  then Err EmaMismatch
  else Ok ().

(** * The snapshots maintained block by block are the snapshots rebuilt from chain history;
    what the public quote guarantees. *)

Section EmaFacts.
  Context (n : Z) (Hn : 0 < n < 2 ^ 62).

(** ** The heights a snapshot at height [h] refers to *)

Definition cur_height (h : Z) : Z := if h <? 2 * n then h else h - (h + 1) mod n.
Definition one_ago_height (h : Z) : Z := if h <? n then 0 else h - h mod n - 1.
Definition two_ago_height (h : Z) : Z := if h <? 2 * n then 0 else h - h mod n - n - 1.

(** The snapshot of height [h] on a chain with EMA prices [E] and oracle prices [O]. *)
Definition snapshot_spec (E O : Z → Z) (h : Z) : EmaSnapshot :=
  mkEmaSnapshot (E (two_ago_height h)) (O (Z.max 0 (cur_height h - 1))) (E (cur_height h))
    (E (one_ago_height h)).

(** Position of a height in its interval, and of the next height. *)
Lemma interval_cases h :
  0 ≤ h →
  0 ≤ h mod n < n ∧
  (h - h mod n = 0 ∨ h - h mod n = n ∨ 2 * n ≤ h - h mod n) ∧
  ((h mod n + 1 < n ∧ (h + 1) mod n = h mod n + 1) ∨ (h mod n + 1 = n ∧ (h + 1) mod n = 0)).
Proof.
  intros Hh. pose proof (Z.div_mod h n ltac:(lia)) as Hdm.
  pose proof (Z.mod_pos_bound h n ltac:(lia)) as Hr.
  assert (0 ≤ h / n) as Hq by (apply Z.div_pos; lia). split_and!; try lia.
  - destruct (decide (h / n = 0)) as [Hz|]; [left; rewrite Hz in Hdm; lia|].
    destruct (decide (h / n = 1)) as [Ho|]; [right; left; rewrite Ho in Hdm; lia|]. right; right. nia.
  - destruct (decide (h mod n + 1 < n)) as [Hlt|Hge]; [left|right]; (split; [lia|]); symmetry.
    + apply (Z.mod_unique _ _ (h / n)); lia.
    + apply (Z.mod_unique _ _ (h / n + 1)); lia.
Qed.

Lemma is_multiple_of_pos a : is_multiple_of a n = (a mod n =? 0).
Proof. unfold is_multiple_of. destruct (Z.eqb_spec n 0); [lia|done]. Qed.

Lemma recalculation_spec h :
  0 ≤ h < 2 ^ 63 → is_ema_recalculation_block h n = (h <? 2 * n) || ((h + 1) mod n =? 0).
Proof.
  intros Hh. unfold is_ema_recalculation_block. rewrite Z.mul_comm.
  destruct (h <? 2 * n); [done|]. unfold saturating_add. rewrite Z.min_r by lia.
  by rewrite is_multiple_of_pos.
Qed.

(** One block keeps the snapshot at its specification. *)
Lemma next_snapshot_spec E O h b p :
  0 ≤ h < 2 ^ 62 → ph_height b = h + 1 → E (h + 1) = ema_irys_price b → O h = oracle_irys_price p →
  next_snapshot (snapshot_spec E O h) b p n = snapshot_spec E O (h + 1).
Proof.
  intros Hh Hb HE HO. unfold next_snapshot. rewrite Hb, recalculation_spec, is_multiple_of_pos by lia.
  destruct (interval_cases h ltac:(lia)) as (Hr & Hbase & Hnext).
  destruct (interval_cases (h + 1) ltac:(lia)) as (Hr' & Hbase' & Hnext').
  unfold snapshot_spec, cur_height, one_ago_height, two_ago_height.
  cbn [ema_price_2_intervals_ago ema_price_1_interval_ago ema_price_current_interval
       oracle_price_for_current_ema_predecessor].
  rewrite <- HE, <- HO. replace (0 <? h + 1) with true by lia. rewrite andb_true_r.
  revert Hr Hbase Hnext Hr' Hbase' Hnext'.
  generalize (h mod n) as r, ((h + 1) mod n) as r1, ((h + 1 + 1) mod n) as r2. intros.
  destruct (Z.eqb_spec r1 0), (Z.ltb_spec (h + 1) (2 * n)), (Z.eqb_spec r2 0),
    (Z.ltb_spec h (2 * n)), (Z.ltb_spec h n), (Z.ltb_spec (h + 1) n); cbn [orb]; try lia;
    f_equal; f_equal; lia.
Qed.

(** ** Rebuilding from history *)

Lemma mod_shift a c : (a - c * n) mod n = a mod n.
Proof. rewrite <- (Z_mod_plus_full a (- c) n). f_equal. lia. Qed.

Lemma prev_ema_spec h :
  2 * n ≤ h →
  prev_ema_ignore_genesis_rules h n =
    (if (h + 1) mod n =? 0 then h - n else h - (h + 1) mod n) ∧
  (prev_ema_ignore_genesis_rules h n + 1) mod n = 0.
Proof.
  intros Hh. unfold prev_ema_ignore_genesis_rules, saturating_sub.
  pose proof (Z.mod_pos_bound (h + 1) n ltac:(lia)).
  destruct (Z.eqb_spec ((h + 1) mod n) 0) as [He|Hne]; (split; [lia|]).
  - rewrite Z.max_r by lia. rewrite <- He. replace (h - n + 1) with (h + 1 - 1 * n) by lia. apply mod_shift.
  - rewrite Z.max_r by lia. pose proof (Z.div_mod (h + 1) n ltac:(lia)).
    replace (h - (h + 1) mod n + 1) with (0 - (- ((h + 1) / n)) * n) by lia. by rewrite mod_shift, Z.mod_0_l by lia.
Qed.

Lemma pricing_height_spec h : 0 ≤ h → block_height_to_use_for_price h n = two_ago_height h.
Proof.
  intros Hh. unfold block_height_to_use_for_price, two_ago_height. rewrite (Z.mul_comm n 2).
  destruct (Z.ltb_spec h (2 * n)) as [|Hge]; [done|].
  destruct (prev_ema_spec h Hge) as [Hp Hp0]. destruct (interval_cases h Hh) as (Hr & _ & Hnext).
  unfold prev_ema_ignore_genesis_rules at 1. rewrite Hp0. cbn. rewrite Hp. unfold saturating_sub.
  destruct (Z.eqb_spec ((h + 1) mod n) 0); lia.
Qed.

Lemma latest_height_spec h :
  0 ≤ h < 2 ^ 63 →
  (if is_ema_recalculation_block h n then h else previous_ema_recalculation_block_height h n) =
  cur_height h.
Proof.
  intros Hh. rewrite recalculation_spec by done.
  unfold previous_ema_recalculation_block_height, cur_height. rewrite (Z.mul_comm n 2).
  destruct (Z.ltb_spec h (2 * n)) as [|Hge]; [done|]. cbn.
  destruct (prev_ema_spec h Hge) as [-> _]. destruct (Z.eqb_spec ((h + 1) mod n) 0); lia.
Qed.

Lemma one_ago_spec h :
  0 ≤ h → (if h <? n then 0 else (h / n - 1) * n + (n - 1)) = one_ago_height h.
Proof.
  intros Hh. unfold one_ago_height. destruct (Z.ltb_spec h n); [done|].
  pose proof (Z.div_mod h n ltac:(lia)). lia.
Qed.

(** Blocks at consecutive heights from [k] on. *)
Definition heights_from (k : Z) (l : list PriceHeader) : Prop :=
  ∀ i x, l !! i = Some x → ph_height x = k + Z.of_nat i.

Lemma heights_from_cons k x l : heights_from k (x :: l) ↔ ph_height x = k ∧ heights_from (k + 1) l.
Proof.
  split.
  - intros Hh. split; [rewrite (Hh 0%nat x eq_refl); lia|]. intros i y Hy.
    rewrite (Hh (S i) y Hy). lia.
  - intros [Hx Hl] [|i] y Hy; cbn in Hy; [simplify_eq; lia|]. rewrite (Hl i y Hy). lia.
Qed.

Lemma find_height l : ∀ k d,
  heights_from k l → k ≤ d < k + Z.of_nat (length l) →
  ∃ x, l !! Z.to_nat (d - k) = Some x ∧ get_block_with_height l d = Ok x.
Proof.
  unfold get_block_with_height. induction l as [|y l IH]; intros k d Hh Hd; cbn [length] in Hd; [lia|].
  apply heights_from_cons in Hh as [Hy Hl]. cbn [List.find]. destruct (Z.eqb_spec (ph_height y) d).
  - exists y. replace (Z.to_nat (d - k)) with 0%nat by lia. done.
  - destruct (IH (k + 1) d Hl) as (x & Hx & Hg); [lia|]. exists x.
    replace (Z.to_nat (d - k)) with (S (Z.to_nat (d - (k + 1)))) by lia. done.
Qed.

Lemma max_height_spec l : ∀ k b,
  0 ≤ k → heights_from k l → last l = Some b →
  foldr Z.max 0 (ph_height <$> l) = ph_height b ∧ ph_height b = k + Z.of_nat (length l) - 1.
Proof.
  induction l as [|y l IH]; intros k b Hk Hh Hb; [done|]. apply heights_from_cons in Hh as [Hy Hl].
  rewrite last_cons in Hb. cbn [length fmap list_fmap foldr]. destruct (last l) as [c|] eqn:Hc.
  - simplify_eq. destruct (IH (ph_height y + 1) b ltac:(lia) Hl eq_refl) as [-> ->]. lia.
  - apply last_None in Hc as ->. simplify_eq. cbn. lia.
Qed.

Lemma history_spec E O k blocks b :
  0 ≤ k → heights_from k blocks → last blocks = Some b → ph_height b < 2 ^ 62 →
  k ≤ two_ago_height (ph_height b) →
  (∀ i x, blocks !! i = Some x → E (ph_height x) = ema_irys_price x ∧ O (ph_height x) = oracle_irys_price x) →
  create_ema_snapshot_from_chain_history blocks n = Ok (snapshot_spec E O (ph_height b)).
Proof.
  intros Hk Hh Hb Hlt Htwo HEO. destruct (max_height_spec blocks k b Hk Hh Hb) as [Hmax Hlen].
  unfold create_ema_snapshot_from_chain_history. rewrite Hb. cbn [ok_or mbind result_bind].
  rewrite Hmax, Z.eqb_refl. cbn [negb]. set (h := ph_height b) in *.
  assert (0 ≤ h) as Hh0.
  { destruct blocks; [done|]. cbn [length] in Hlen. lia. }
  rewrite pricing_height_spec, latest_height_spec, one_ago_spec by lia.
  assert (∀ d, k ≤ d ≤ h → ∃ x, get_block_with_height blocks d = Ok x ∧
    ema_irys_price x = E d ∧ oracle_irys_price x = O d) as Hget.
  { intros d Hd. destruct (find_height blocks k d Hh ltac:(lia)) as (x & Hx & Hg).
    exists x. destruct (HEO _ x Hx) as [HE HO]. rewrite (Hh _ _ Hx) in HE, HO.
    replace (k + Z.of_nat (Z.to_nat (d - k))) with d in HE, HO by lia. done. }
  assert (k ≤ one_ago_height h ≤ h ∧ k ≤ cur_height h ≤ h ∧ k ≤ saturating_sub (cur_height h) 1 ∧
    two_ago_height h ≤ h) as (H1 & H2 & H3 & H4).
  { unfold two_ago_height, one_ago_height, cur_height, saturating_sub in *.
    destruct (interval_cases h Hh0) as (Hr & Hbase & Hnext).
    destruct (Z.ltb_spec h (2 * n)), (Z.ltb_spec h n); lia. }
  destruct (Hget (two_ago_height h)) as (x1 & -> & Hx1 & _); [lia|].
  destruct (Hget (one_ago_height h)) as (x2 & -> & Hx2 & _); [lia|].
  destruct (Hget (saturating_sub (cur_height h) 1)) as (x3 & -> & _ & Hx3); [split; [done|unfold saturating_sub; lia]|].
  destruct (Hget (cur_height h)) as (x4 & -> & Hx4 & _); [lia|]. cbn [mbind result_bind].
  rewrite Hx1, Hx2, Hx3, Hx4. done.
Qed.
End EmaFacts.
