(* ===== verification/EmaTheorems.v ===== *)
(** What the EMA snapshots and the storage pricing guarantee. *)

From S2P Require Import Prelude Pricing Ema.

(** ** Fees *)

(** A higher token price, a lower cost or fewer bytes never raise the fee, nor make its
    computation fail. *)
Lemma base_network_fee_antitone a1 a2 bytes1 bytes2 chunk p1 p2 f1 :
  0 < p1 ≤ p2 → 0 ≤ a2 ≤ a1 → 0 ≤ bytes2 ≤ bytes1 →
  base_network_fee a1 bytes1 chunk p1 = Ok f1 →
  ∃ f2, base_network_fee a2 bytes2 chunk p2 = Ok f2 ∧ 0 ≤ f2 ≤ f1.
Proof.
  intros Hp Ha Hb. unfold base_network_fee.
  destruct (Z.eqb_spec p1 0); [lia|]. destruct (Z.eqb_spec p2 0); [lia|].
  destruct (safe_sub chunk 1) as [cm| |] eqn:Hcm; cbn; try done. apply safe_sub_Ok in Hcm as [-> Hc1].
  destruct (safe_add bytes1 (chunk - 1)) as [pd| |] eqn:Hpd; cbn; try done.
  apply safe_add_Ok in Hpd as [-> Hpd]. rewrite (proj2 (safe_add_Ok bytes2 (chunk - 1) _)) by (split; [reflexivity|lia]).
  cbn. unfold safe_div. destruct (Z.eqb_spec chunk 0); [lia|].
  cbn. set (k1 := (bytes1 + (chunk - 1)) / chunk). set (k2 := (bytes2 + (chunk - 1)) / chunk).
  assert (0 ≤ k2 ≤ k1) by (split; [apply Z.div_pos|apply Z.div_le_mono]; lia).
  destruct (safe_mul a1 k1) as [uf| |] eqn:Huf; cbn; try done. apply safe_mul_Ok in Huf as [-> Huf].
  rewrite (proj2 (safe_mul_Ok a2 k2 _)) by (split; [reflexivity|nia]). cbn.
  intros [-> Hlt]%mul_div_Ok; [|lia]. eexists.
  split; [apply mul_div_Ok; [lia|split; [reflexivity|unfold TOKEN_SCALE in *; nia]]|].
  assert (0 ≤ a2 * k2 ≤ a1 * k1) by nia. split; [apply Z.div_pos; unfold TOKEN_SCALE; lia|].
  transitivity (a1 * k1 * TOKEN_SCALE / p2); [apply Z.div_le_mono|apply Z.div_le_compat_l]; unfold TOKEN_SCALE; lia.
Qed.

Lemma cost_per_replica_nonneg amount epochs rate c :
  0 ≤ amount → 0 ≤ epochs → 0 ≤ rate → cost_per_replica amount epochs rate = Ok c → 0 ≤ c.
Proof.
  intros Ha He Hr. unfold cost_per_replica. destruct (Z.eqb_spec rate 0).
  { intros [-> _]%safe_mul_Ok. lia. }
  destruct (safe_sub PRECISION_SCALE rate) as [o| |]; cbn [mbind result_bind]; try done.
  destruct (precision_pow o epochs) as [p| |]; cbn [mbind result_bind]; try done.
  destruct (safe_sub PRECISION_SCALE p) as [m| |] eqn:Hm; cbn [mbind result_bind]; try done.
  apply safe_sub_Ok in Hm as [-> Hm].
  destruct (mul_div (PRECISION_SCALE - p) PRECISION_SCALE rate) as [f| |] eqn:Hf; cbn [mbind result_bind]; try done.
  apply mul_div_Ok in Hf as [-> _]; [|lia].
  destruct (mul_div _ TOKEN_SCALE PRECISION_SCALE) as [f| |] eqn:Hf; cbn [mbind result_bind]; try done.
  apply mul_div_Ok in Hf as [-> _]; [|done]. intros [-> _]%mul_div_Ok; [|done].
  assert (0 ≤ (PRECISION_SCALE - p) * PRECISION_SCALE / rate).
  { apply Z.div_pos; [|lia]. unfold PRECISION_SCALE in *. nia. }
  assert (0 ≤ (PRECISION_SCALE - p) * PRECISION_SCALE / rate * TOKEN_SCALE / PRECISION_SCALE).
  { apply Z.div_pos; [unfold TOKEN_SCALE; nia|done]. }
  apply Z.div_pos; [nia|done].
Qed.

Section Fees.
  Context (c : FeeConfig).
  Context (Hcost : ∀ x, cc_cost_per_chunk_per_epoch c = Ok x → 0 ≤ x).
  Context (Hmin : 0 ≤ cc_minimum_term_fee_usd c) (Hchunk : 0 ≤ cc_chunk_size c).
  Context (Hrate : 0 ≤ cc_decay_rate c) (Hyears : 0 ≤ cc_safe_minimum_number_of_years c).
  Context (Hepy : 0 ≤ cc_epochs_per_year c).

Lemma term_fee_antitone bytes1 bytes2 epochs1 epochs2 replicas p1 p2 f1 :
  0 < p1 ≤ p2 → 0 ≤ bytes2 ≤ bytes1 → 0 ≤ epochs2 ≤ epochs1 → 0 ≤ replicas →
  calculate_term_fee bytes1 epochs1 c replicas p1 = Ok f1 →
  ∃ f2, calculate_term_fee bytes2 epochs2 c replicas p2 = Ok f2 ∧ 0 ≤ f2 ≤ f1.
Proof.
  intros Hp Hb He Hr. unfold calculate_term_fee.
  destruct (cc_cost_per_chunk_per_epoch c) as [cost| |]; cbn [mbind result_bind]; try done.
  specialize (Hcost _ eq_refl). unfold cost_per_replica, replica_count. cbn [Z.eqb].
  destruct (safe_mul cost epochs1) as [d| |] eqn:Hd; cbn [mbind result_bind]; try done.
  apply safe_mul_Ok in Hd as [-> Hd].
  rewrite (proj2 (safe_mul_Ok cost epochs2 _)) by (split; [reflexivity|nia]). cbn [mbind result_bind].
  destruct (safe_mul (cost * epochs1) replicas) as [w| |] eqn:Hw; cbn [mbind result_bind]; try done.
  apply safe_mul_Ok in Hw as [-> Hw].
  assert (0 ≤ cost * epochs2 * replicas ≤ cost * epochs1 * replicas) by (split; [nia|]; repeat apply Z.mul_le_mono_nonneg; nia).
  rewrite (proj2 (safe_mul_Ok (cost * epochs2) replicas _)) by (split; [reflexivity|lia]). cbn [mbind result_bind].
  destruct (base_network_fee (cost * epochs1 * replicas) bytes1 _ p1) as [b1| |] eqn:Hb1; cbn [mbind result_bind]; try done.
  apply (base_network_fee_antitone _ (cost * epochs2 * replicas) _ bytes2 _ p1 p2) in Hb1 as (b2 & -> & Hle); [|lia..].
  destruct (base_network_fee (cc_minimum_term_fee_usd c) _ _ p1) as [m1| |] eqn:Hm1;
    cbn [mbind result_bind]; try done.
  apply (base_network_fee_antitone _ (cc_minimum_term_fee_usd c) _ (cc_chunk_size c) _ p1 p2) in Hm1 as (m2 & -> & Hle2); [|lia..].
  cbn [mbind result_bind]. intros [= <-]. eexists. split; [done|].
  destruct (Z.ltb_spec b1 m1), (Z.ltb_spec b2 m2); lia.
Qed.

Lemma perm_fee_antitone bytes1 bytes2 replicas r1 r2 p1 p2 f1 :
  0 < p1 ≤ p2 → 0 ≤ bytes2 ≤ bytes1 → 0 ≤ replicas → r2 ≤ r1 →
  calculate_perm_fee_from_config bytes1 c replicas r1 p1 = Ok f1 →
  ∃ f2, calculate_perm_fee_from_config bytes2 c replicas r2 p2 = Ok f2 ∧ f2 ≤ f1.
Proof.
  intros Hp Hb Hr Hrr. unfold calculate_perm_fee_from_config.
  destruct (cc_cost_per_chunk_per_epoch c) as [cost| |]; cbn [mbind result_bind]; try done.
  specialize (Hcost _ eq_refl).
  destruct (checked_mul 64 _ _) as [ep|] eqn:Hep; cbn [expect mbind result_bind]; [|done].
  apply checked_mul_Some in Hep as [-> _].
  destruct (safe_div (cc_decay_rate c) (cc_epochs_per_year c)) as [dr| |] eqn:Hdr;
    cbn [mbind result_bind]; try done.
  assert (0 ≤ dr).
  { unfold safe_div in Hdr. destruct (Z.eqb_spec (cc_epochs_per_year c) 0); [done|]. injection Hdr as <-.
    apply Z.div_pos; lia. }
  destruct (cost_per_replica cost _ dr) as [d| |] eqn:Hd; cbn [mbind result_bind]; try done.
  apply cost_per_replica_nonneg in Hd; [|nia..].
  unfold replica_count. destruct (safe_mul d replicas) as [w| |] eqn:Hw; cbn [mbind result_bind]; try done.
  apply safe_mul_Ok in Hw as [-> _].
  destruct (base_network_fee (d * replicas) bytes1 _ p1) as [b1| |] eqn:Hb1; cbn [mbind result_bind]; try done.
  apply (base_network_fee_antitone _ (d * replicas) _ bytes2 _ p1 p2) in Hb1 as (b2 & -> & Hle); [|nia..].
  cbn [mbind result_bind]. intros [= <-]. eexists. split; [done|]. unfold saturating_add. lia.
Qed.
End Fees.

(** ** Prices of a new block *)

Lemma multiplier_bounds base r :
  0 ≤ base → 0 ≤ r →
  (match sub_multiplier base r with Ok p => p | _ => base end) ≤ base ≤
  (match add_multiplier base r with Ok p => p | _ => base end).
Proof.
  intros Hb Hr. unfold sub_multiplier, add_multiplier. split.
  - destruct (safe_sub PRECISION_SCALE r) as [x| |] eqn:Hx; cbn [mbind result_bind]; try lia.
    apply safe_sub_Ok in Hx as [-> _].
    destruct (mul_div _ _ _) as [y| |] eqn:Hy; try lia. apply mul_div_Ok in Hy as [-> _]; [|done].
    apply Z.div_le_upper_bound; [done|]. nia.
  - destruct (safe_add PRECISION_SCALE r) as [x| |] eqn:Hx; cbn [mbind result_bind]; try lia.
    apply safe_add_Ok in Hx as [-> _].
    destruct (mul_div _ _ _) as [y| |] eqn:Hy; try lia. apply mul_div_Ok in Hy as [-> _]; [|done].
    apply Z.div_le_lower_bound; [done|]. nia.
Qed.

Lemma bound_idempotent x r base :
  0 ≤ base → 0 ≤ r →
  bound_in_min_max_range (bound_in_min_max_range x r base) r base = bound_in_min_max_range x r base.
Proof.
  intros Hb Hr. pose proof (multiplier_bounds base r Hb Hr) as Hm. revert Hm. unfold bound_in_min_max_range.
  generalize (match add_multiplier base r with Ok p => p | _ => base end) as hi,
    (match sub_multiplier base r with Ok p => p | _ => base end) as lo. intros hi lo Hm.
  repeat case_match; lia.
Qed.

Lemma bound_positive x r base :
  0 < base → 0 ≤ r → 0 < x → 0 < bound_in_min_max_range x r base.
Proof.
  intros Hb Hr Hx. pose proof (multiplier_bounds base r ltac:(lia) Hr) as Hm. revert Hm.
  unfold bound_in_min_max_range.
  generalize (match add_multiplier base r with Ok p => p | _ => base end) as hi,
    (match sub_multiplier base r with Ok p => p | _ => base end) as lo. intros hi lo Hm.
  repeat case_match; lia.
Qed.

Lemma choose_oracle_price_positive ts p x u :
  0 < p → 0 ≤ x → 0 < choose_oracle_price ts p x u.
Proof. intros. unfold choose_oracle_price. repeat case_match; lia. Qed.

(** The validator, given the bounded price, computes the producer's EMA. *)
Lemma calculate_ema_bounded s parent x r n :
  0 ≤ oracle_irys_price parent → 0 ≤ r →
  calculated_ema (calculate_ema_for_new_block s parent
    (oracle_price_for_block_inclusion (calculate_ema_for_new_block s parent x r n)) r n) =
  calculated_ema (calculate_ema_for_new_block s parent x r n).
Proof.
  intros Hp Hr. unfold calculate_ema_for_new_block. cbn [calculated_ema oracle_price_for_block_inclusion].
  destruct (ph_height parent <? n * 2); [|done]. by rewrite bound_idempotent.
Qed.

(** Prices a producer puts in a block pass prevalidation: whatever the oracle reports (nothing,
    a stale, an extreme or a zero price), the included oracle price is accepted, and the
    validator, which recomputes the EMA from the included price and not from what the oracle
    said, finds the same EMA. *)
Lemma produced_prices_validate snapshot parent ts s r n :
  0 < oracle_irys_price parent → 0 ≤ r → (∀ x u, snapshot = Some (x, u) → 0 ≤ x) →
  let c := get_ema_price snapshot parent ts s r n in
  0 < oracle_price_for_block_inclusion c ∧
  prevalidate_prices s parent (oracle_price_for_block_inclusion c) (calculated_ema c) r n = Ok ().
Proof.
  intros Hp Hr Hx. unfold get_ema_price. set (x := match snapshot with Some _ => _ | None => _ end).
  assert (0 < x) as Hx0.
  { subst x. destruct snapshot as [[x u]|]; [|done]. apply choose_oracle_price_positive; [done|]. by eapply Hx. }
  pose proof (bound_positive x r (oracle_irys_price parent) Hp Hr Hx0).
  cbv zeta. unfold prevalidate_prices. rewrite calculate_ema_bounded, Z.eqb_refl by lia. cbn [negb].
  unfold oracle_price_is_valid. cbn [calculate_ema_for_new_block oracle_price_for_block_inclusion].
  rewrite bound_idempotent, Z.eqb_refl by lia. split; [done|].
  destruct (Z.eqb_spec (bound_in_min_max_range x r (oracle_irys_price parent)) 0); [lia|done].
Qed.

Lemma scaled_price_fits x a : 0 ≤ x < 2 ^ 190 → 0 ≤ a ≤ TOKEN_SCALE → x * a < 2 ^ 256.
Proof.
  intros Hx Ha. apply Z.le_lt_trans with (2 ^ 190 * TOKEN_SCALE); [|done].
  apply Z.mul_le_mono_nonneg; lia.
Qed.

(** The EMA of a price and a previous EMA is computed without error for every interval
    from 1 to [2*10^18 - 1] blocks and prices below [2^190], and lies between the two, up to
    one unit of rounding below. *)
Theorem calculate_ema_between price n prev :
  1 ≤ n < 2 * 10 ^ 18 → 0 ≤ price < 2 ^ 190 → 0 ≤ prev < 2 ^ 190 →
  ∃ v, calculate_ema price n prev = Ok v ∧ Z.min price prev - 1 ≤ v ≤ Z.max price prev.
Proof.
  intros Hn Hp He. unfold calculate_ema, checked_add. destruct (Z.ltb_spec (n + 1) (2 ^ 256)); [|lia].
  cbn [ok_or mbind result_bind]. rewrite (proj2 (safe_mul_Ok _ _ _) (conj eq_refl (ltac:(done) : 2 * TOKEN_SCALE < 2 ^ 256))).
  cbn [mbind result_bind]. unfold safe_div at 1. destruct (Z.eqb_spec (n + 1) 0); [lia|]. cbn [mbind result_bind].
  assert (1 ≤ 2 * TOKEN_SCALE / (n + 1) ≤ TOKEN_SCALE) as Ha.
  { split; [apply Z.div_le_lower_bound|apply Z.div_le_upper_bound]; unfold TOKEN_SCALE; lia. }
  revert Ha. generalize (2 * TOKEN_SCALE / (n + 1)) as a. intros a Ha.
  destruct (Z.ltb_spec 0 a); [|lia]. destruct (Z.leb_spec a TOKEN_SCALE); [|lia]. cbn [andb negb].
  rewrite (proj2 (safe_sub_Ok TOKEN_SCALE a _) (conj eq_refl (proj2 Ha))). cbn [mbind result_bind].
  rewrite (proj2 (mul_div_Ok price a TOKEN_SCALE _ ltac:(done)) (conj eq_refl (scaled_price_fits price a Hp ltac:(lia)))). cbn [mbind result_bind].
  rewrite (proj2 (mul_div_Ok prev (TOKEN_SCALE - a) TOKEN_SCALE _ ltac:(done)) 
    (conj eq_refl (scaled_price_fits prev (TOKEN_SCALE - a) He ltac:(lia)))).
  cbn [mbind result_bind].
  pose proof (Z.div_mod (price * a) TOKEN_SCALE ltac:(done)). pose proof (Z.mod_pos_bound (price * a) TOKEN_SCALE ltac:(done)).
  pose proof (Z.div_mod (prev * (TOKEN_SCALE - a)) TOKEN_SCALE ltac:(done)).
  pose proof (Z.mod_pos_bound (prev * (TOKEN_SCALE - a)) TOKEN_SCALE ltac:(done)).
  set (v1 := price * a / TOKEN_SCALE) in *. set (v2 := prev * (TOKEN_SCALE - a) / TOKEN_SCALE) in *.
  assert (Z.min price prev - 1 ≤ v1 + v2 ≤ Z.max price prev) as Hb.
  { assert (0 < TOKEN_SCALE) by done. destruct (Z.le_ge_cases price prev); split; nia. }
  exists (v1 + v2). split; [|done]. apply safe_add_Ok. lia.
Qed.

(** ** Snapshots along a chain *)

(** The snapshot of the last block of the chain [g :: rest], each block's built from its
    parent's, as the block tree builds them. *)
Fixpoint run_snapshots (n : Z) (s : EmaSnapshot) (parent : PriceHeader) (rest : list PriceHeader)
  : EmaSnapshot :=
  match rest with
  | [] => s
  | b :: rest' => run_snapshots n (next_snapshot s b parent n) b rest'
  end.

Definition chain_ema (chain : list PriceHeader) (h : Z) : Z :=
  default 0 (ema_irys_price <$> chain !! Z.to_nat h).
Definition chain_oracle (chain : list PriceHeader) (h : Z) : Z :=
  default 0 (oracle_irys_price <$> chain !! Z.to_nat h).

Section Chain.
  Context (n : Z) (Hn : 0 < n < 2 ^ 62).
  Context (chain : list PriceHeader) (Hlen : Z.of_nat (length chain) < 2 ^ 62).
  Context (Hheights : heights_from 0 chain).

  #[local] Notation spec := (snapshot_spec n (chain_ema chain) (chain_oracle chain)).

Lemma chain_prices i x :
  chain !! i = Some x →
  ph_height x = Z.of_nat i ∧ chain_ema chain (ph_height x) = ema_irys_price x ∧
  chain_oracle chain (ph_height x) = oracle_irys_price x.
Proof.
  intros Hx. pose proof (Hheights i x Hx) as Hh. unfold chain_ema, chain_oracle.
  rewrite Hh, Z.add_0_l, Nat2Z.id, Hx. done.
Qed.

Lemma run_snapshots_spec rest : ∀ i parent,
  chain !! i = Some parent → (∀ j x, rest !! j = Some x → chain !! (S i + j)%nat = Some x) →
  run_snapshots n (spec (Z.of_nat i)) parent rest = spec (Z.of_nat (i + length rest)).
Proof.
  induction rest as [|b rest IH]; intros i parent Hp Hrest; cbn [run_snapshots length].
  { by rewrite Nat.add_0_r. }
  assert (chain !! S i = Some b) as Hb by (rewrite <- (Nat.add_0_r (S i)); by apply Hrest).
  destruct (chain_prices i parent Hp) as (Hhp & _ & HO).
  destruct (chain_prices (S i) b Hb) as (Hhb & HE & _).
  pose proof (lookup_lt_Some _ _ _ Hb) as Hlt.
  rewrite (next_snapshot_spec n Hn _ _ (Z.of_nat i)); [|lia|lia| |congruence].
  - replace (Z.of_nat i + 1) with (Z.of_nat (S i)) by lia. rewrite (IH (S i) b Hb).
    + f_equal. lia.
    + intros j x Hx. rewrite <- (Hrest (S j) x Hx). f_equal. lia.
  - rewrite <- HE. f_equal. lia.
Qed.

Lemma genesis_spec g : chain !! 0%nat = Some g → EmaSnapshot_genesis g = spec 0.
Proof.
  intros Hg. destruct (chain_prices 0 g Hg) as (Hh & HE & HO). rewrite Hh in HE, HO. change (Z.of_nat 0) with 0 in HE, HO.
  unfold EmaSnapshot_genesis, snapshot_spec, cur_height, one_ago_height, two_ago_height.
  destruct (Z.ltb_spec 0 (2 * n)), (Z.ltb_spec 0 n); [|lia..]. change (Z.max 0 (0 - 1)) with 0.
  congruence.
Qed.

Lemma run_prefix_spec g rest t :
  chain = g :: rest → (t ≤ length rest)%nat →
  run_snapshots n (EmaSnapshot_genesis g) g (take t rest) = spec (Z.of_nat t).
Proof.
  intros Hc Ht. rewrite (genesis_spec g) by (by rewrite Hc). change 0 with (Z.of_nat 0).
  rewrite run_snapshots_spec; [|by rewrite Hc|].
  - do 2 f_equal. rewrite length_take. lia.
  - intros j x [Hx _]%lookup_take_Some. rewrite Hc. done.
Qed.

(** History from any block at or below the pricing block is enough. *)
Lemma suffix_history_spec b k :
  last chain = Some b → Z.of_nat k ≤ two_ago_height n (ph_height b) →
  create_ema_snapshot_from_chain_history (drop k chain) n = Ok (spec (ph_height b)).
Proof.
  intros Hb Hk. destruct (max_height_spec chain 0 b ltac:(lia) Hheights Hb) as [_ Hhb].
  assert (two_ago_height n (ph_height b) ≤ ph_height b) as Hle.
  { destruct chain; [done|]. cbn [length] in Hhb. unfold two_ago_height.
    pose proof (Z.mod_pos_bound (ph_height b) n ltac:(lia)). case_match; lia. }
  apply (history_spec n Hn _ _ (Z.of_nat k)); [lia| | |lia|done|].
  - intros i x Hx. rewrite lookup_drop in Hx. rewrite (Hheights _ _ Hx). lia.
  - rewrite last_lookup, lookup_drop, length_drop. rewrite last_lookup in Hb. rewrite <- Hb. f_equal. lia.
  - intros i x Hx. rewrite lookup_drop in Hx. by destruct (chain_prices _ _ Hx) as (_ & ? & ?).
Qed.
End Chain.

(** The EMA snapshot is a function of the chain: on every chain of consecutive heights
    from genesis, the snapshot carried block by block from genesis, the snapshot rebuilt from
    the whole history and the snapshot a restarting node rebuilds from the last three
    intervals of the block index are the same (no error, for any interval length). *)
Theorem snapshots_agree n g rest :
  0 < n < 2 ^ 62 → heights_from 0 (g :: rest) → Z.of_nat (length (g :: rest)) < 2 ^ 62 →
  let s := run_snapshots n (EmaSnapshot_genesis g) g rest in
  create_ema_snapshot_from_chain_history (g :: rest) n = Ok s ∧
  build_current_ema_snapshot_from_index (g :: rest) n = Ok s.
Proof.
  intros Hn Hh Hlen. cbv zeta.
  pose proof (run_prefix_spec n Hn (g :: rest) Hlen Hh g rest (length rest) eq_refl (le_n _)) as Hrun.
  rewrite firstn_all in Hrun. rewrite Hrun.
  destruct (last (g :: rest)) as [b|] eqn:Hb; [|by apply last_None in Hb].
  destruct (max_height_spec _ 0 b ltac:(lia) Hh Hb) as [_ Hhb].
  replace (Z.of_nat (length rest)) with (ph_height b) by (cbn [length] in Hhb; lia).
  pose proof (Z.mod_pos_bound (ph_height b) n ltac:(lia)) as Hm.
  split.
  - apply (suffix_history_spec n Hn _ Hlen Hh b 0 Hb). unfold two_ago_height. case_match; [done|].
    pose proof (interval_cases n Hn (ph_height b)). lia.
  - unfold build_current_ema_snapshot_from_index. apply suffix_history_spec; try done.
    pose proof (interval_cases n Hn (ph_height b)). unfold two_ago_height.
    destruct (Z.ltb_spec (ph_height b) (2 * n)); lia.
Qed.

(** ** The public quote *)

(** The unsigned types of the fields a fee reads. *)
Definition fee_config_ok (c : FeeConfig) : Prop :=
  (∀ x, cc_cost_per_chunk_per_epoch c = Ok x → 0 ≤ x) ∧ 0 ≤ cc_minimum_term_fee_usd c ∧
  0 ≤ cc_chunk_size c ∧ 0 ≤ cc_decay_rate c ∧ 0 ≤ cc_safe_minimum_number_of_years c ∧
  0 ≤ cc_epochs_per_year c.

(** Heights whose pricing a quote on the tip [t] has to cover: the rest of the interval of [t],
    and for a tip in the last quarter the whole next interval. *)
Definition quote_covers (n t u : Z) : Prop :=
  t ≤ u ∧ (u / n = t / n ∨ (tip_in_last_quarter_of_ema_interval t n = true ∧ u / n = t / n + 1)).

Lemma ltb_div n h k : 0 < n → (h <? k * n) = (h / n <? k).
Proof.
  intros Hn. pose proof (Z.div_mod h n ltac:(lia)). pose proof (Z.mod_pos_bound h n Hn).
  destruct (Z.ltb_spec h (k * n)), (Z.ltb_spec (h / n) k); [done| | |done]; nia.
Qed.

Lemma quote_spec n E O t u :
  0 < n → 0 ≤ t → quote_covers n t u →
  ema_for_public_quote (snapshot_spec n E O t) t n ≤ ema_for_public_pricing (snapshot_spec n E O u).
Proof.
  intros Hn Ht [Htu Hcov]. unfold ema_for_public_quote, ema_for_public_pricing, snapshot_spec.
  cbn [ema_price_2_intervals_ago ema_price_1_interval_ago].
  pose proof (Z.div_mod t n ltac:(lia)) as Hdt. pose proof (Z.div_mod u n ltac:(lia)) as Hdu.
  pose proof (Z.mod_pos_bound t n Hn). pose proof (Z.mod_pos_bound u n Hn).
  assert (0 ≤ t / n) by (apply Z.div_pos; lia).
  destruct Hcov as [He|[-> He]].
  - assert (two_ago_height n u = two_ago_height n t) as ->.
    { unfold two_ago_height. rewrite !ltb_div by done. rewrite He in *. case_match; lia. }
    case_match; lia.
  - assert (two_ago_height n u = one_ago_height n t) as ->; [|lia].
    unfold two_ago_height, one_ago_height. replace (t <? n) with (t <? 1 * n) by (f_equal; lia).
    rewrite !ltb_div by done. rewrite He in *.
    destruct (Z.ltb_spec (t / n + 1) 2), (Z.ltb_spec (t / n) 1); lia.
Qed.

Lemma quote_positive E O n t :
  (∀ h, 0 ≤ h ≤ t → 0 < E h) → 0 < n → 0 ≤ t → 0 < ema_for_public_quote (snapshot_spec n E O t) t n.
Proof.
  intros HE Hn Ht. unfold ema_for_public_quote, ema_for_public_pricing, snapshot_spec.
  cbn [ema_price_2_intervals_ago ema_price_1_interval_ago].
  pose proof (Z.mod_pos_bound t n Hn). pose proof (Z.mod_le t n Ht Hn).
  pose proof (Z.div_mod t n ltac:(lia)).
  assert (0 < E (two_ago_height n t)) as Htwo.
  { apply HE. unfold two_ago_height. destruct (Z.ltb_spec t (2 * n)); [lia|].
    assert (2 ≤ t / n) by (apply Z.div_le_lower_bound; lia). nia. }
  assert (0 < E (one_ago_height n t)) as Hone.
  { apply HE. unfold one_ago_height. destruct (Z.ltb_spec t n); [lia|].
    assert (1 ≤ t / n) by (apply Z.div_le_lower_bound; lia). nia. }
  case_match; lia.
Qed.

(** The price of a quote on the tip [t] is positive and at most the price that blocks on top
    of a covered block [u] are validated with. *)
Lemma quote_price_covers n g rest t u :
  0 < n < 2 ^ 62 → heights_from 0 (g :: rest) → Z.of_nat (length (g :: rest)) < 2 ^ 62 →
  Forall (λ b, 0 < ema_irys_price b) (g :: rest) →
  (u ≤ length rest)%nat → quote_covers n (Z.of_nat t) (Z.of_nat u) →
  let snap k := run_snapshots n (EmaSnapshot_genesis g) g (take k rest) in
  0 < ema_for_public_quote (snap t) (Z.of_nat t) n ≤ ema_for_public_pricing (snap u).
Proof.
  intros Hn Hh Hlen Hpos Hu Hcov. cbv beta zeta.
  assert (t ≤ u)%nat by (destruct Hcov; lia).
  rewrite !(run_prefix_spec n Hn (g :: rest) Hlen Hh g rest _ eq_refl) by lia. split.
  - apply quote_positive; [|lia..]. intros h Hh'. unfold chain_ema.
    destruct (lookup_lt_is_Some_2 (g :: rest) (Z.to_nat h)) as [b Hb]; [cbn [length]; lia|].
    rewrite Hb. cbn. by apply (Forall_lookup_1 _ _ _ _ Hpos Hb).
  - apply (quote_spec n (chain_ema (g :: rest)) (chain_oracle (g :: rest))); [lia|lia|done].
Qed.

(** ** Instances *)

(** A chain of 31 blocks with a 10-block interval, whose prices fall and rise, and the fee
    parameters of a test network. *)
Module EmaWitness.
Definition hdr (h : nat) : PriceHeader :=
  mkPriceHeader (Z.of_nat h) (10 ^ 18 + (Z.of_nat h * 37) mod 101) (10 ^ 18 + (Z.of_nat h * 53) mod 97).
Definition rest : list PriceHeader := hdr <$> seq 1 30.
Definition config : FeeConfig := mkFeeConfig (Ok (3 * 10 ^ 14)) 262144 (10 ^ 16) 200 (365 * 24) 10000.

Lemma calculate_ema_between_witness :
  ∃ v, calculate_ema 300 10 200 = Ok v ∧ Z.min 300 200 - 1 ≤ v ≤ Z.max 300 200.
Proof. apply (calculate_ema_between 300 10 200); lia. Defined.

Lemma rest_heights : heights_from 0 (hdr 0 :: rest).
Proof.
  change (hdr 0 :: rest) with (hdr <$> seq 0 31). intros i x Hx.
  apply list_lookup_fmap_Some in Hx as (h & -> & [-> _]%lookup_seq). done.
Qed.

Lemma snapshots_agree_witness :
  let s := run_snapshots 10 (EmaSnapshot_genesis (hdr 0)) (hdr 0) rest in
  s = mkEmaSnapshot (ema_irys_price (hdr 19)) (oracle_irys_price (hdr 28)) (ema_irys_price (hdr 29))
        (ema_irys_price (hdr 29)) ∧
  create_ema_snapshot_from_chain_history (hdr 0 :: rest) 10 = Ok s ∧
  build_current_ema_snapshot_from_index (hdr 0 :: rest) 10 = Ok s.
Proof.
  split; [vm_compute; reflexivity|]. apply (snapshots_agree 10 (hdr 0) rest); [lia| |done].
  apply rest_heights.
Defined.

Lemma rest_positive : Forall (λ b, 0 < ema_irys_price b) (hdr 0 :: rest).
Proof.
  apply Forall_forall. intros b Hb. change (hdr 0 :: rest) with (hdr <$> seq 0 31) in Hb.
  apply list_elem_of_fmap in Hb as (h & -> & _). cbn [hdr ema_irys_price].
  pose proof (Z.mod_pos_bound (Z.of_nat h * 37) 101). lia.
Qed.

Lemma config_ok : fee_config_ok config.
Proof. unfold fee_config_ok. split_and!; try done. intros x [= <-]. done. Qed.

Lemma covered : quote_covers 10 (Z.of_nat 28) (Z.of_nat 30).
Proof. split; [done|]. right. done. Qed.

End EmaWitness.
