(* ===== verification/Difficulty.v ===== *)
(** Mining difficulty ([crates/types/src/difficulty_adjustment_config.rs]).

    [U256], [u128] and [u64] values are [Z]; the plain operators of [U256] and of the
    built-in integers panic on overflow, underflow and division by zero.  The two decimal
    factors of the configuration are represented by what the code derives from them, the
    percentages [factor * 100] converted to [u128], or [None] where that conversion fails
    and the code unwraps the error.  [hashes_per_sec], a rounded floating point product, is
    an argument of [calculate_initial_difficulty]. *)

From S2P Require Import Prelude.

Definition U256_MAX : Z := 2 ^ 256 - 1.

Record DifficultyAdjustmentConfig : Type := mkDifficultyAdjustmentConfig {
  block_time : Z;
  difficulty_adjustment_interval : Z;
  max_adjustment_percent : option Z;
  min_adjustment_percent : option Z
}.

Record AdjustmentStats : Type := mkAdjustmentStats {
  actual_block_time : Z;
  target_block_time : Z;
  percent_different : Z;
  min_threshold : Z;
  is_adjusted : bool
}.

Section Difficulty.
  Context {E : Type}.

(** Division of the built-in integers and of [U256]. *)
Definition div_or_panic (a b : Z) : result E Z := if b =? 0 then Panic else Ok (a / b).

(** The logged estimates at the end of the function are not part of the result. *)
Definition calculate_initial_difficulty (zero_input : E) (hashes_per_sec block_time : Z) : result E Z :=
  if (hashes_per_sec =? 0) || (block_time =? 0) then Err zero_input
  else
    block_hashrate ← expect (checked_mul 256 hashes_per_sec block_time);
    q ← div_or_panic U256_MAX block_hashrate;
    expect (checked_sub U256_MAX q).

Definition adjust_difficulty (current_diff actual_time_ms target_time_ms max_adjustment_threshold : Z)
  : result E Z :=
  if target_time_ms =? 0 then Panic
  else
    let scale := 1000 in
    scaled ← expect (checked_mul 256 actual_time_ms scale);
    raw_adjustment_ratio ← div_or_panic scaled target_time_ms;
    scaled_max ← expect (checked_mul 256 max_adjustment_threshold scale);
    max_ratio ← div_or_panic scaled_max 100;
    min_ratio ← div_or_panic (scale * scale) max_ratio;
    let adjustment_ratio := Z.max (Z.min raw_adjustment_ratio max_ratio) min_ratio in
    let target_current := saturating_sub U256_MAX current_diff in
    let new_target := Z.max (saturating_mul 256 (target_current / scale) adjustment_ratio) 1 in
    Ok (saturating_sub U256_MAX new_target).

Definition calculate_difficulty (block_height last_diff_timestamp current_timestamp current_diff : Z)
    (c : DifficultyAdjustmentConfig) : result E (Z * option AdjustmentStats) :=
  let blocks_between_adjustments := difficulty_adjustment_interval c in
  if negb (is_multiple_of block_height blocks_between_adjustments) then Ok (current_diff, None)
  else
    target_block_time_ms ← expect (checked_mul 64 (block_time c) 1000);
    target_time_ms ← expect (checked_mul 128 target_block_time_ms blocks_between_adjustments);
    actual_time_ms ← expect (checked_sub current_timestamp last_diff_timestamp);
    actual_avg ← div_or_panic actual_time_ms blocks_between_adjustments;
    target_avg ← div_or_panic target_time_ms blocks_between_adjustments;
    let actual_block_time := actual_avg mod 2 ^ 64 in
    let target_block_time := target_avg mod 2 ^ 64 in
    percent_diff ←
      (if target_block_time <? actual_block_time
       then div_or_panic ((actual_block_time - target_block_time) * 100) target_block_time
       else div_or_panic ((target_block_time - actual_block_time) * 100) target_block_time);
    min_threshold ← expect (min_adjustment_percent c);
    max_adjustment_threshold ← expect (max_adjustment_percent c);
    let is_adjusted := min_threshold <=? percent_diff in
    min_threshold_u32 ← (if min_threshold <? 2 ^ 32 then Ok min_threshold else Panic);
    let stats := mkAdjustmentStats actual_block_time target_block_time (percent_diff mod 2 ^ 32)
                   min_threshold_u32 is_adjusted in
    difficulty ←
      (if is_adjusted then adjust_difficulty current_diff actual_time_ms target_time_ms max_adjustment_threshold
       else Ok current_diff);
    Ok (difficulty, Some stats).

Definition next_cumulative_diff (previous_cumulative_diff new_diff : Z) : result E Z :=
  rest ← expect (checked_sub U256_MAX new_diff);
  network_hash_rate ← div_or_panic U256_MAX rest;
  Ok (saturating_add 256 previous_cumulative_diff network_hash_rate).
End Difficulty.

(** ** Facts *)

(** A configuration whose parameters are in range: what node start-up and the shipped
    configurations satisfy. *)
Definition difficulty_config_ok (c : DifficultyAdjustmentConfig) : Prop :=
  1 ≤ block_time c < 2 ^ 54 ∧ 1 ≤ difficulty_adjustment_interval c < 2 ^ 64 ∧
  (∃ m, max_adjustment_percent c = Some m ∧ 100 ≤ m < 2 ^ 128) ∧
  (∃ m, min_adjustment_percent c = Some m ∧ 0 ≤ m < 2 ^ 32).

Lemma checked_mul_fits w a b : a * b < 2 ^ w → checked_mul w a b = Some (a * b).
Proof. intros. by apply checked_mul_Some. Qed.
Lemma checked_sub_fits a b : b ≤ a → checked_sub a b = Some (a - b).
Proof. intros. by apply checked_sub_Some. Qed.
Lemma div_or_panic_pos {E} a b : 0 < b → div_or_panic (E := E) a b = Ok (a / b).
Proof. intros. unfold div_or_panic. destruct (Z.eqb_spec b 0); [lia|done]. Qed.

(** The clamped adjustment ratio, in thousandths. *)
Definition adjustment_ratio (actual target threshold : Z) : Z :=
  Z.max (Z.min (actual * 1000 / target) (threshold * 1000 / 100)) (1000 * 1000 / (threshold * 1000 / 100)).

Lemma adjust_difficulty_eq {E} diff actual target threshold :
  0 ≤ diff ≤ U256_MAX → 0 ≤ actual < 2 ^ 128 → 0 < target → 100 ≤ threshold < 2 ^ 128 →
  adjust_difficulty (E := E) diff actual target threshold =
  Ok (U256_MAX - Z.max 1 (Z.min U256_MAX ((U256_MAX - diff) / 1000 * adjustment_ratio actual target threshold))).
Proof.
  intros Hd Ha Ht Hth. unfold adjust_difficulty. destruct (Z.eqb_spec target 0); [lia|].
  rewrite !checked_mul_fits by lia. cbn [expect mbind result_bind].
  rewrite (div_or_panic_pos _ target) by lia. cbn [mbind result_bind].
  rewrite (div_or_panic_pos _ 100) by lia. cbn [mbind result_bind].
  assert (1000 ≤ threshold * 1000 / 100) by (apply Z.div_le_lower_bound; lia).
  rewrite div_or_panic_pos by lia. cbn [mbind result_bind].
  fold (adjustment_ratio actual target threshold). unfold saturating_sub, saturating_mul.
  change (2 ^ 256 - 1) with U256_MAX. f_equal. rewrite (Z.max_r 0 (U256_MAX - diff)) by lia.
  assert (0 < U256_MAX) by done. lia.
Qed.

Lemma adjustment_ratio_bounds actual target threshold :
  0 ≤ actual → 0 < target → 100 ≤ threshold →
  let r := adjustment_ratio actual target threshold in
  1000 * 1000 / (10 * threshold) ≤ r ≤ 10 * threshold ∧
  (actual ≤ target → r ≤ 1000) ∧ (target ≤ actual → 1000 ≤ r) ∧
  (actual < target → 101 ≤ threshold → r < 1000) ∧
  (1001 * target ≤ 1000 * actual → 101 ≤ threshold → 1001 ≤ r).
Proof.
  intros Ha Ht Hth r. subst r. unfold adjustment_ratio.
  replace (threshold * 1000 / 100) with (10 * threshold) by div_lia.
  assert (1000 * 1000 / (10 * threshold) ≤ 1000) by (apply Z.div_le_upper_bound; lia).
  assert (actual ≤ target → actual * 1000 / target ≤ 1000) by (intros; apply Z.div_le_upper_bound; lia).
  assert (target ≤ actual → 1000 ≤ actual * 1000 / target) by (intros; apply Z.div_le_lower_bound; lia).
  assert (actual < target → actual * 1000 / target < 1000) by (intros; apply Z.div_lt_upper_bound; lia).
  assert (1001 * target ≤ 1000 * actual → 1001 ≤ actual * 1000 / target)
    by (intros; apply Z.div_le_lower_bound; lia).
  assert (101 ≤ threshold → 1000 * 1000 / (10 * threshold) < 1000)
    by (intros; apply Z.div_lt_upper_bound; lia).
  split_and!; intros; lia.
Qed.

(** An adjustment never fails and never yields [U256::MAX], for which the expected number
    of hashes is undefined.  With [T] the distance of the old difficulty to the maximum (the
    share of hashes that solve a block): blocks faster than the target never lower the
    difficulty, and raise it when [T >= 2]; blocks at least 0.1% slower lower it when [T] is at
    least [10^6] and the difficulty is not already 0, and blocks slower than the target raise
    it by less than 1000 when [T >= 1000]; and one adjustment moves [T] by no more than the
    configured factor in either direction, up to rounding. *)
Theorem adjust_difficulty_correct diff actual target threshold :
  0 ≤ diff ≤ U256_MAX → 0 ≤ actual < 2 ^ 128 → 0 < target → 101 ≤ threshold < 2 ^ 128 →
  let T := U256_MAX - diff in
  ∃ d, adjust_difficulty (E := unit) diff actual target threshold = Ok d ∧ 0 ≤ d < U256_MAX ∧
    (actual < target → (1 ≤ T → diff ≤ d) ∧ (2 ≤ T → diff < d)) ∧
    (target ≤ actual → 1000 ≤ T → d < diff + 1000) ∧
    (1001 * target ≤ 1000 * actual → 10 ^ 6 ≤ T → diff ≠ 0 → d < diff) ∧
    100 * (U256_MAX - d) ≤ Z.max 100 (threshold * T) ∧
    Z.min U256_MAX (T / 1000 * (10 ^ 6 / (10 * threshold))) ≤ U256_MAX - d.
Proof.
  intros Hd Ha Ht Hth T. pose proof (adjustment_ratio_bounds actual target threshold) as Hr.
  cbv zeta in Hr. destruct Hr as ((Hlo & Hhi) & Hfast & Hslow & Hfaster & Hslower); [lia..|].
  eexists. split; [apply adjust_difficulty_eq; lia|]. fold T.
  revert Hlo Hhi Hfast Hslow Hfaster Hslower. generalize (adjustment_ratio actual target threshold) as r.
  intros r Hlo Hhi Hfast Hslow Hfaster Hslower.
  pose proof (Z.div_mod T 1000 ltac:(lia)). pose proof (Z.mod_pos_bound T 1000 ltac:(lia)).
  assert (0 ≤ T / 1000) by (apply Z.div_pos; lia).
  assert (0 ≤ 1000 * 1000 / (10 * threshold)) by (apply Z.div_pos; lia).
  change (10 ^ 6) with (1000 * 1000).
  set (q := T / 1000) in *. set (lo := 1000 * 1000 / (10 * threshold)) in *.
  assert (0 < U256_MAX) by done.
  assert (q * lo ≤ q * r) by (apply Z.mul_le_mono_nonneg_l; lia). assert (q * r ≤ q * (10 * threshold)) by (apply Z.mul_le_mono_nonneg_l; lia).
  split_and!; [lia|lia|intros ?; split; intros ?| | | |lia].
  - assert (q * r ≤ q * 1000) by (apply Z.mul_le_mono_nonneg_l; lia). lia.
  - assert (q * r ≤ q * 999) by (apply Z.mul_le_mono_nonneg_l; lia). lia.
  - intros. assert (q * 1000 ≤ q * r) by (apply Z.mul_le_mono_nonneg_l; lia). lia.
  - intros. assert (q * 1001 ≤ q * r) by (apply Z.mul_le_mono_nonneg_l; lia). lia.
  - assert (1000 * q * threshold ≤ T * threshold) by (apply Z.mul_le_mono_nonneg_r; lia). lia.
Qed.

(** Every block gets a difficulty below the maximum, and statistics exactly on the adjustment
    heights. *)
Lemma calculate_difficulty_total {E} c height last_ts cur_ts d :
  difficulty_config_ok c → 0 ≤ d < U256_MAX → 0 ≤ last_ts ≤ cur_ts → cur_ts < 2 ^ 128 →
  ∃ d' st, calculate_difficulty (E := E) height last_ts cur_ts d c = Ok (d', st) ∧ 0 ≤ d' < U256_MAX ∧
    bool_decide (is_Some st) = is_multiple_of height (difficulty_adjustment_interval c) ∧
    (st = None → d' = d).
Proof.
  intros (Hbt & Hint & (mx & Hmx & Hmx') & (mn & Hmn & Hmn')) Hd Hts Hcur. unfold calculate_difficulty.
  destruct (is_multiple_of height (difficulty_adjustment_interval c)); cbn [negb];
    [|exists d, None; done].
  rewrite (checked_mul_fits 64) by lia. cbn [expect mbind result_bind].
  rewrite (checked_mul_fits 128) by nia. cbn [expect mbind result_bind].
  rewrite checked_sub_fits by lia. cbn [expect mbind result_bind].
  rewrite !div_or_panic_pos by lia. cbn [mbind result_bind]. rewrite Z.div_mul by lia.
  rewrite (Z.mod_small (block_time c * 1000)) by lia. rewrite !div_or_panic_pos by lia.
  set (p := if _ <? _ then Ok _ else Ok _).
  assert (∃ v, p = Ok v) as [v ->] by (subst p; case_match; eauto). cbn [mbind result_bind].
  rewrite Hmn, Hmx. cbn [expect mbind result_bind].
  destruct (Z.ltb_spec mn (2 ^ 32)); [|lia]. cbn [mbind result_bind].
  destruct (mn <=? v); cbn [mbind result_bind]; [|by eexists d, _].
  rewrite adjust_difficulty_eq; [|lia|lia|nia|lia]. cbn [mbind result_bind]. do 2 eexists.
  split; [done|]. assert (0 < U256_MAX) by done. split; [lia|done].
Qed.

(** The computation raises no error of its own, so its error type is immaterial. *)
Ltac any_case :=
  cbn [expect expect_ok mbind result_bind negb]; try done;
  match goal with
  | |- context [expect ?o] => destruct o
  | |- context [if ?b then _ else _] => destruct b
  end.

Lemma calculate_difficulty_any {E F} height last_ts cur_ts d c :
  calculate_difficulty (E := F) height last_ts cur_ts d c =
  expect_ok (calculate_difficulty (E := E) height last_ts cur_ts d c).
Proof. unfold calculate_difficulty, adjust_difficulty, div_or_panic. repeat any_case. Qed.

Lemma next_cumulative_diff_eq {E} prev d :
  0 ≤ d < U256_MAX →
  next_cumulative_diff (E := E) prev d = Ok (Z.min U256_MAX (prev + U256_MAX / (U256_MAX - d))) ∧
  1 ≤ U256_MAX / (U256_MAX - d).
Proof.
  intros Hd. unfold next_cumulative_diff. rewrite checked_sub_fits by lia. cbn [expect mbind result_bind].
  rewrite div_or_panic_pos by lia. split; [done|]. apply Z.div_le_lower_bound; lia.
Qed.

(** Near the maximum a rounding step can raise the difficulty although blocks are slow. *)
Theorem slow_blocks_can_raise_difficulty :
  adjust_difficulty (E := unit) (U256_MAX - 999) 20000 10000 400 = Ok (U256_MAX - 1).
Proof. vm_compute. reflexivity. Qed.

(** Ten times too fast, twice too slow. *)
Lemma adjust_difficulty_correct_witness :
  ∃ d e, adjust_difficulty (E := unit) (2 ^ 255) 1000 10000 400 = Ok d ∧ 2 ^ 255 < d < U256_MAX ∧
    adjust_difficulty (E := unit) (2 ^ 255) 20000 10000 400 = Ok e ∧ e < 2 ^ 255.
Proof.
  pose proof (adjust_difficulty_correct (2 ^ 255) 1000 10000 400) as Hd.
  pose proof (adjust_difficulty_correct (2 ^ 255) 20000 10000 400) as He.
  assert (0 ≤ 2 ^ 255 ≤ U256_MAX) as H1 by (split; by vm_compute).
  assert (101 ≤ 400 < 2 ^ 128) as H2 by (split; by vm_compute).
  assert (0 ≤ 1000 < 2 ^ 128) as H3 by (split; by vm_compute).
  assert (0 ≤ 20000 < 2 ^ 128) as H4 by (split; by vm_compute).
  assert (0 < 10000) as H5 by by vm_compute.
  specialize (Hd H1 H3 H5 H2). specialize (He H1 H4 H5 H2). cbv zeta in Hd, He.
  destruct Hd as (d & Hd & Hr & Hf & _). destruct He as (e & He & _ & _ & _ & Hs & _).
  assert (1000 < 10000) as H6 by by vm_compute. assert (2 ≤ U256_MAX - 2 ^ 255) as H7 by by vm_compute.
  assert (1001 * 10000 ≤ 1000 * 20000) as H8 by by vm_compute.
  assert (10 ^ 6 ≤ U256_MAX - 2 ^ 255) as H9 by by vm_compute. assert (2 ^ 255 ≠ 0) as H10 by by vm_compute.
  exists d, e. exact (conj Hd (conj (conj (proj2 (Hf H6) H7) (proj2 Hr)) (conj He (Hs H8 H9 H10)))).
Defined.
