(* ===== verification/VdfState.v ===== *)
(** The buffer of VDF steps ([VdfState] and [create_state], [crates/vdf/src/state.rs]).

    The buffer holds the seeds of the last steps, oldest first, and is addressed by global
    step number.  Steps are [u64] as [Z]; seeds are 32-byte strings.  The atomic counter is
    written under the write lock only, so the state is updated by one operation at a time.
    The mining flag is not modelled. *)

From S2P Require Import Prelude.

Definition Seed : Type := list byte.

Record VdfState : Type := mkVdfState {
  global_step : Z;
  capacity : Z;
  seeds : list Seed;
  global_step_from_the_latest_canonical_block : Z;
  minimum_step_to_keep : Z
}.

Inductive VdfError : Type := NoStepsStored | UnavailableRange (start stop first_step last_step : Z).

Record VdfBootstrap : Type := mkVdfBootstrap {
  bs_global_step : Z;
  bs_first_step : Z;
  bs_ordered_seeds : list Seed
}.

(** [create_state]; the assertions panic. *)
Definition create_state (b : VdfBootstrap) (cap : Z) : result VdfError VdfState :=
  let seed_count := Z.of_nat (length (bs_ordered_seeds b)) in
  if bool_decide (bs_ordered_seeds b = []) then Panic
  else if negb (seed_count <=? saturating_add 64 cap 1) then Panic
  else
    expected_first_step ← expect (checked_sub (bs_global_step b) (saturating_sub seed_count 1));
    if negb (1 <=? expected_first_step) then Panic
    else if negb (bs_first_step b =? expected_first_step) then Panic
    else
      Ok (mkVdfState (bs_global_step b) cap (bs_ordered_seeds b) (bs_global_step b)
            (saturating_sub (bs_global_step b) cap)).

Definition set_canonical_step (st : VdfState) (global_canonical_step : Z) : VdfState :=
  mkVdfState (global_step st) (capacity st) (seeds st) global_canonical_step
    (saturating_sub global_canonical_step (capacity st)).

Definition get_last_step_and_seed (st : VdfState) : result VdfError (Z * Seed) :=
  seed ← expect (last (seeds st));
  Ok (global_step st, seed).

(** [store_step]; a step that does not follow the current one is ignored. *)
Definition store_step (st : VdfState) (seed : Seed) (step : Z) : VdfState * Z :=
  let current := global_step st in
  if step <=? current then (st, current)
  else if negb (current + 1 =? step) then (st, current)
  else
    let vdf_depth := Z.min (2 ^ 64 - 1) (saturating_sub step (minimum_step_to_keep st)) in
    let kept := if vdf_depth <=? Z.of_nat (length (seeds st)) then drop 1 (seeds st) else seeds st in
    (mkVdfState (current + 1) (capacity st) (kept ++ [seed])
       (global_step_from_the_latest_canonical_block st) (minimum_step_to_keep st), step).

(** [get_steps] on the interval from [start] to [stop]; the slice panics out of bounds. *)
Definition get_steps (st : VdfState) (start stop : Z) : result VdfError (list Seed) :=
  let vdf_steps_len := Z.of_nat (length (seeds st)) in
  let last_global_step := global_step st in
  let first_global_step := saturating_sub last_global_step vdf_steps_len + 1 in
  if last_global_step <? first_global_step then Err NoStepsStored
  else if negb ((first_global_step <=? start) && (stop <=? last_global_step))
  then Err (UnavailableRange start stop first_global_step last_global_step)
  else
    let a := start - first_global_step in
    let b := stop - first_global_step in
    if b <? vdf_steps_len then Ok (take (Z.to_nat (b + 1 - a)) (drop (Z.to_nat a) (seeds st))) else Panic.

Definition reanchor_seeds (st : VdfState) (corrected : list Seed) : result VdfError VdfState :=
  if bool_decide (corrected = []) then Panic
  else
    Ok (mkVdfState (global_step st) (capacity st)
          (drop (length corrected - Z.to_nat (capacity st)) corrected)
          (global_step_from_the_latest_canonical_block st)
          (saturating_sub (global_step st) (capacity st))).

(** ** The log the buffer is a window of *)

Inductive VdfOp : Type :=
| OpStore (seed : Seed) (step : Z)
| OpCanonical (step : Z)
| OpReanchor (corrected : list Seed).

Definition vdf_exec (st : VdfState) (op : VdfOp) : result VdfError VdfState :=
  match op with
  | OpStore seed step => Ok (store_step st seed step).1
  | OpCanonical step => Ok (set_canonical_step st step)
  | OpReanchor corrected => reanchor_seeds st corrected
  end.

Fixpoint vdf_run (st : VdfState) (ops : list VdfOp) : result VdfError VdfState :=
  match ops with
  | [] => Ok st
  | op :: ops' => st' ← vdf_exec st op; vdf_run st' ops'
  end.

(** The specification: a step counter and the seed of every step, where the next step is
    appended, any other step is ignored, and a re-anchoring rewrites the last steps. *)
Definition log_exec (log : Z * (Z → Seed)) (op : VdfOp) : Z * (Z → Seed) :=
  let '(cur, L) := log in
  match op with
  | OpStore seed step =>
      if step =? cur + 1 then (step, fun k => if k =? step then seed else L k) else log
  | OpCanonical _ => log
  | OpReanchor corrected =>
      let first := cur - Z.of_nat (length corrected) + 1 in
      (cur, fun k => if (first <=? k) && (k <=? cur) then default [] (corrected !! Z.to_nat (k - first)) else L k)
  end.

Definition log_run (log : Z * (Z → Seed)) (ops : list VdfOp) : Z * (Z → Seed) := fold_left log_exec ops log.

(** Re-anchoring gets a non-empty window that ends at the current step and does not go below
    step 1. *)
Fixpoint ops_ok (cur : Z) (ops : list VdfOp) : Prop :=
  match ops with
  | [] => True
  | op :: ops' =>
      match op with
      | OpReanchor corrected => corrected ≠ [] ∧ Z.of_nat (length corrected) ≤ cur
      | _ => True
      end ∧ ops_ok (match op with OpStore _ step => if step =? cur + 1 then step else cur | _ => cur end) ops'
  end.

(** The buffer is the window of the log that ends at the current step. *)
Definition window_of (st : VdfState) (log : Z * (Z → Seed)) : Prop :=
  let n := Z.of_nat (length (seeds st)) in
  global_step st = log.1 ∧ 1 ≤ capacity st ∧ 1 ≤ n ≤ global_step st ∧
  ∀ i x, seeds st !! i = Some x → x = log.2 (global_step st - n + 1 + Z.of_nat i).

Lemma last_step_seed st log :
  window_of st log → get_last_step_and_seed st = Ok (log.1, log.2 log.1).
Proof.
  intros (Hg & _ & Hn & Hw). unfold get_last_step_and_seed.
  destruct (last (seeds st)) as [x|] eqn:Hx; [|apply last_None in Hx; rewrite Hx in Hn; cbn in Hn; lia].
  cbn. rewrite Hg. do 2 f_equal. rewrite last_lookup in Hx. apply Hw in Hx. rewrite Hx, Hg.
  f_equal. lia.
Qed.

Lemma get_steps_window st log a b :
  window_of st log → a ≤ b →
  get_steps st a b =
    let first := global_step st - Z.of_nat (length (seeds st)) + 1 in
    if (first <=? a) && (b <=? global_step st) then Ok (log.2 <$> seqZ a (b - a + 1))
    else Err (UnavailableRange a b first (global_step st)).
Proof.
  intros (Hg & _ & Hn & Hw) Hab. unfold get_steps, saturating_sub.
  rewrite (Z.max_r 0 (global_step st - _)) by lia. cbv zeta.
  set (n := Z.of_nat (length (seeds st))) in *. set (first := global_step st - n + 1) in *.
  destruct (Z.ltb_spec (global_step st) first); [lia|].
  destruct ((first <=? a) && (b <=? global_step st)) eqn:Hin; cbn [negb]; [|done].
  apply andb_true_iff in Hin as [H1 H2]. destruct (Z.ltb_spec (b - first) n); [|lia].
  f_equal. apply list_eq. intros i. destruct (decide (i < Z.to_nat (b - a + 1))%nat) as [Hi|Hi].
  - rewrite lookup_take_lt by lia. rewrite lookup_drop, list_lookup_fmap.
    rewrite lookup_seqZ_lt by lia. cbn.
    destruct (lookup_lt_is_Some_2 (seeds st) (Z.to_nat (a - first) + i)) as [x Hx]; [lia|].
    rewrite Hx. apply Hw in Hx. rewrite Hx. do 2 f_equal. lia.
  - rewrite lookup_take_ge by lia. rewrite list_lookup_fmap, lookup_seqZ_ge by lia. done.
Qed.

(** Dropping old seeds keeps a window. *)
Lemma window_drop (l : list Seed) (L : Z → Seed) cur k :
  (∀ i x, l !! i = Some x → x = L (cur - Z.of_nat (length l) + 1 + Z.of_nat i)) →
  (k ≤ length l)%nat →
  ∀ i x, drop k l !! i = Some x → x = L (cur - Z.of_nat (length (drop k l)) + 1 + Z.of_nat i).
Proof.
  intros Hw Hk i x Hx. rewrite lookup_drop in Hx. apply Hw in Hx. rewrite Hx, length_drop. f_equal. lia.
Qed.

Lemma window_store st log seed step :
  window_of st log → window_of (store_step st seed step).1 (log_exec log (OpStore seed step)).
Proof.
  destruct log as [cur L]. intros (Hg & Hc & Hn & Hw). cbn in Hg. unfold store_step. cbn [log_exec]. subst cur.
  destruct (Z.leb_spec step (global_step st)); [destruct (Z.eqb_spec step (global_step st + 1)); [lia|done]|].
  destruct (Z.eqb_spec (global_step st + 1) step) as [<-|]; cbn [negb];
    [|destruct (Z.eqb_spec step (global_step st + 1)); [lia|done]].
  rewrite Z.eqb_refl. set (k := if _ <=? _ then drop 1 (seeds st) else seeds st).
  assert (Z.of_nat (length k) ≤ global_step st ∧
    ∀ i x, k !! i = Some x → x = L (global_step st - Z.of_nat (length k) + 1 + Z.of_nat i)) as [Hk Hkw].
  { subst k. case_match; [|split; [lia|exact Hw]]. split; [rewrite length_drop; lia|].
    apply window_drop; [exact Hw|lia]. }
  unfold window_of. cbn [global_step capacity seeds fst snd]. rewrite length_app. cbn [length].
  split_and!; [done|done|lia|lia|]. intros i x [Hx|[Hlen Hx]]%lookup_app_Some.
  - pose proof (lookup_lt_Some _ _ _ Hx). case_match; [lia|]. rewrite (Hkw i x Hx). f_equal. lia.
  - apply list_lookup_singleton_Some in Hx as [Hi <-]. case_match; [done|lia].
Qed.

Lemma window_reanchor st log corrected :
  window_of st log → corrected ≠ [] → Z.of_nat (length corrected) ≤ global_step st →
  ∃ st', reanchor_seeds st corrected = Ok st' ∧ window_of st' (log_exec log (OpReanchor corrected)).
Proof.
  destruct log as [cur L]. intros (Hg & Hc & Hn & Hw) Hne Hlen. cbn in Hg. subst cur.
  unfold reanchor_seeds. rewrite bool_decide_eq_false_2 by done. eexists. split; [done|].
  assert (1 ≤ length corrected)%nat by (destruct corrected; [done|cbn; lia]).
  unfold window_of. cbn [global_step capacity seeds].
  split_and!; [done|done|rewrite length_drop; lia|rewrite length_drop; lia|].
  apply window_drop; [|lia]. intros i x Hx. cbn [log_exec snd].
  pose proof (lookup_lt_Some _ _ _ Hx).
  destruct (Z.leb_spec (global_step st - Z.of_nat (length corrected) + 1)
    (global_step st - Z.of_nat (length corrected) + 1 + Z.of_nat i)); [|lia].
  destruct (Z.leb_spec (global_step st - Z.of_nat (length corrected) + 1 + Z.of_nat i) (global_step st)); [|lia].
  cbn [andb]. set (k := Z.to_nat (_ - _)). replace k with i by lia. unfold Seed in *. by rewrite Hx.
Qed.

Lemma window_run ops : ∀ st log,
  window_of st log → ops_ok (global_step st) ops →
  ∃ st', vdf_run st ops = Ok st' ∧ window_of st' (log_run log ops).
Proof.
  induction ops as [|op ops IH]; intros st log Hw Hok; [by exists st|]. destruct Hok as [Hop Hops].
  assert (∃ st', vdf_exec st op = Ok st' ∧ window_of st' (log_exec log op)) as (st' & He & Hw').
  { destruct op; cbn [vdf_exec].
    - eexists. split; [done|]. by apply window_store.
    - eexists. split; [done|]. by destruct log.
    - apply window_reanchor; [done|apply Hop..]. }
  cbn [vdf_run]. rewrite He. cbn [mbind result_bind]. apply (IH st' (log_exec log op) Hw').
  destruct Hw as (Hg & _). destruct Hw' as (Hg' & _). rewrite Hg'. rewrite Hg in Hops. destruct log as [cur L].
  destruct op; cbn in Hops |- *; [|done|done]. case_match; done.
Qed.

Lemma create_state_window b cap :
  1 ≤ cap < 2 ^ 63 → bs_ordered_seeds b ≠ [] → Z.of_nat (length (bs_ordered_seeds b)) ≤ cap + 1 →
  1 ≤ bs_first_step b → bs_first_step b + Z.of_nat (length (bs_ordered_seeds b)) - 1 = bs_global_step b →
  ∃ st, create_state b cap = Ok st ∧ global_step st = bs_global_step b ∧
    window_of st (bs_global_step b, fun k => default [] (bs_ordered_seeds b !! Z.to_nat (k - bs_first_step b))).
Proof.
  intros Hcap Hne Hlen H1 Hg. unfold create_state. rewrite bool_decide_eq_false_2 by done.
  assert (1 ≤ length (bs_ordered_seeds b))%nat by (destruct (bs_ordered_seeds b); [done|cbn; lia]).
  unfold saturating_add, saturating_sub. rewrite (Z.min_r _ (cap + 1)), (Z.max_r 0 (Z.of_nat _ - 1)) by lia.
  destruct (Z.leb_spec (Z.of_nat (length (bs_ordered_seeds b))) (cap + 1)); [cbn [negb]|lia].
  unfold checked_sub. destruct (Z.leb_spec (Z.of_nat (length (bs_ordered_seeds b)) - 1) (bs_global_step b)); [|lia].
  cbn [expect mbind result_bind].
  replace (bs_global_step b - _) with (bs_first_step b) by lia.
  destruct (Z.leb_spec 1 (bs_first_step b)); [cbn [negb]|lia]. rewrite Z.eqb_refl. cbn [negb].
  eexists. split; [done|]. split; [done|]. unfold window_of. cbn [global_step capacity seeds fst snd].
  split_and!; [done|lia|lia|lia|]. intros i x Hx. replace (Z.to_nat _) with i by lia. unfold Seed in *. by rewrite Hx.
Qed.

(** C40: The step buffer refines the log of all steps: started on a contiguous window that
    begins at step 1 or later, after every sequence of stored steps (in order, repeated or
    with gaps), moves of the canonical step and re-anchorings, the buffer has not panicked and
    is not empty, [get_last_step_and_seed] is the log's last step, and [get_steps] returns
    exactly the log's seeds of the asked interval, or the unavailable-range error when the
    interval is not inside the stored window. *)
Theorem vdf_state_refines_log b cap ops :
  1 ≤ cap < 2 ^ 63 → bs_ordered_seeds b ≠ [] → Z.of_nat (length (bs_ordered_seeds b)) ≤ cap + 1 →
  1 ≤ bs_first_step b → bs_first_step b + Z.of_nat (length (bs_ordered_seeds b)) - 1 = bs_global_step b →
  ops_ok (bs_global_step b) ops →
  let log := log_run (bs_global_step b,
    fun k => default [] (bs_ordered_seeds b !! Z.to_nat (k - bs_first_step b))) ops in
  ∃ st, (st0 ← create_state b cap; vdf_run st0 ops) = Ok st ∧ seeds st ≠ [] ∧
    get_last_step_and_seed st = Ok (log.1, log.2 log.1) ∧
    ∀ x y, x ≤ y →
      let first := log.1 - Z.of_nat (length (seeds st)) + 1 in
      get_steps st x y =
        if (first <=? x) && (y <=? log.1) then Ok (log.2 <$> seqZ x (y - x + 1))
        else Err (UnavailableRange x y first log.1).
Proof.
  intros Hcap Hne Hlen H1 Hg Hops. cbv zeta.
  destruct (create_state_window b cap) as (st0 & -> & Hg0 & Hw0); [done..|]. cbn [mbind result_bind].
  rewrite <- Hg0 in Hops. destruct (window_run ops st0 _ Hw0 Hops) as (st & -> & Hw).
  exists st. split; [done|]. split; [destruct Hw as (_ & _ & Hn & _); destruct (seeds st); [cbn in Hn; lia|done]|].
  split; [by apply last_step_seed|]. intros x y Hxy. rewrite (get_steps_window _ _ _ _ Hw Hxy).
  destruct Hw as (<- & _). done.
Qed.

(** Two steps at start, a step, a repeated step, a gap, a re-anchoring and one more step. *)
Lemma vdf_state_refines_log_witness :
  ∃ st, (st0 ← create_state (mkVdfBootstrap 5 4 [[x04]; [x05]]) 3;
         vdf_run st0 [OpStore [x06] 6; OpStore [x06] 6; OpStore [x09] 9; OpCanonical 6;
                      OpReanchor [[x15]; [x16]]; OpStore [x07] 7]) = Ok st ∧
    get_steps st 5 7 = Ok [[x15]; [x16]; [x07]].
Proof.
  destruct (vdf_state_refines_log (mkVdfBootstrap 5 4 [[x04]; [x05]]) 3
    [OpStore [x06] 6; OpStore [x06] 6; OpStore [x09] 9; OpCanonical 6;
     OpReanchor [[x15]; [x16]]; OpStore [x07] 7]) as (st & Hst & _ & _ & Hget);
    [lia|done|done|done|done|cbn; split_and!; done|].
  exists st. split; [exact Hst|]. rewrite (Hget 5 7) by lia.
  assert (length (seeds st) = 3%nat) as -> by (vm_compute in Hst; by injection Hst as <-). reflexivity.
Defined.
