(* ===== verification/Header.v ===== *)
(** Block headers: what [prevalidate_block] checks of a header against its parent
    ([crates/actors/src/block_validation.rs], [crates/vdf/src/verify.rs]) and the header a
    producer builds on that parent ([produce_block_with_parent] and
    [produce_block_without_broadcasting] in [crates/actors/src/block_producer.rs],
    [VDFLimiterInfo] in [crates/types/src/block.rs]).

    [prevalidate_header] is the sequence of header checks, in the order of the code.  The
    checks of [prevalidate_block] that read the transactions, the partition assignments, the
    VDF checkpoints, the reward or the signature are not part of it; each of those can only
    turn an accepted block into a rejected one. *)

From S2P Require Import Prelude TreeHash Pricing Ema EmaTheorems Difficulty VdfState.

Definition H256 : Type := list byte.

(** [u256_from_le_bytes]. *)
Definition hash_to_number (hash : H256) : Z := of_be_bytes (reverse hash).

(** ** Headers *)

Record VDFLimiterInfo : Type := mkVDFLimiterInfo {
  output : H256;
  global_step_number : Z;
  seed : H256;
  next_seed : H256;
  prev_output : H256;
  steps : list H256
}.

Record BlockHeader : Type := mkHeader {
  block_hash : H256;
  hd_height : Z;
  diff : Z;
  cumulative_diff : Z;
  last_diff_timestamp : Z;
  solution_hash : H256;
  previous_solution_hash : H256;
  last_epoch_hash : H256;
  previous_cumulative_diff : Z;
  poa_chunk : list byte;
  partition_chunk_offset : Z;
  timestamp : Z;
  vdf_limiter_info : VDFLimiterInfo;
  hd_oracle_irys_price : Z;
  hd_ema_irys_price : Z
}.

Definition price_header (h : BlockHeader) : PriceHeader :=
  mkPriceHeader (hd_height h) (hd_ema_irys_price h) (hd_oracle_irys_price h).

Record HeaderConfig : Type := mkHeaderConfig {
  difficulty_adjustment : DifficultyAdjustmentConfig;
  max_future_timestamp_drift_millis : Z;
  vdf_reset_frequency : Z;
  num_blocks_in_epoch : Z;
  delta_activation : option Z;
  token_price_safe_range : Z;
  price_adjustment_interval : Z
}.

Inductive PreValidationError : Type :=
| VDFPreviousOutputMismatch
| VDFCheckpointsInvalid
| HeightInvalid (expected got : Z)
| TimestampOlderThanParent (current parent : Z)
| TimestampTooFarInFuture (current now : Z)
| DifficultyMismatch (expected got : Z)
| LastDiffTimestampMismatch (expected got : Z)
| PreviousCumulativeDifficultyMismatch (expected got : Z)
| CumulativeDifficultyMismatch (expected got : Z)
| SolutionHashBelowDifficulty (expected got : Z)
| SolutionHashLinkInvalid (expected got : H256)
| PreviousSolutionHashMismatch (expected got : H256)
| LastEpochHashMismatch (expected got : H256)
| PriceInvalid (e : PriceCheckError).

(** ** VDF fields *)

Definition vdf_first_step_number (v : VDFLimiterInfo) : Z :=
  saturating_sub (saturating_add 64 (global_step_number v) 1) (Z.of_nat (length (steps v))).

(** [step_number % reset_frequency] panics on a zero frequency once there is a step. *)
Definition vdf_reset_step {E} (v : VDFLimiterInfo) (reset_frequency : Z) : result E (option Z) :=
  let first_step := vdf_first_step_number v in
  let range := seqZ first_step (global_step_number v - first_step + 1) in
  if (reset_frequency =? 0) && negb (bool_decide (range = [])) then Panic
  else Ok (List.find (fun step_number => step_number mod reset_frequency =? 0) range).

Definition calculate_seeds {E} (v : VDFLimiterInfo) (reset_frequency : Z) (parent_header : BlockHeader)
  : result E (H256 * H256) :=
  reset ← vdf_reset_step v reset_frequency;
  Ok (match reset with
      | Some _ => (block_hash parent_header, next_seed (vdf_limiter_info parent_header))
      | None => (next_seed (vdf_limiter_info parent_header), seed (vdf_limiter_info parent_header))
      end).

Definition is_seed_data_valid {E} (block previous_block : BlockHeader) (reset_frequency : Z) : result E bool :=
  let vdf_info := vdf_limiter_info block in
  expected ← calculate_seeds vdf_info reset_frequency previous_block;
  Ok (bool_decide (expected.1 = next_seed vdf_info) && bool_decide (expected.2 = seed vdf_info)).

Definition prev_output_is_valid (block previous_block : BlockHeader) : bool :=
  bool_decide (prev_output (vdf_limiter_info block) = output (vdf_limiter_info previous_block)).

Definition vdf_step_count_is_consistent (global_step_number step_count : Z) : result PreValidationError () :=
  guard_err (global_step_number <? step_count) VDFCheckpointsInvalid.

(** ** Checks *)

Definition height_is_valid (block previous_block : BlockHeader) : result PreValidationError () :=
  expected ← expect (checked_add 64 (hd_height previous_block) 1);
  guard_err (negb (hd_height block =? expected)) (HeightInvalid expected (hd_height block)).

(** [now_ms] is the clock's time. *)
Definition timestamp_is_valid (now_ms current parent allowed_drift : Z) : result PreValidationError () :=
  _ ← guard_err (current <=? parent) (TimestampOlderThanParent current parent);
  max_future ← expect (checked_add 128 now_ms allowed_drift);
  guard_err (max_future <? current) (TimestampTooFarInFuture current now_ms).

Definition difficulty_is_valid (block previous_block : BlockHeader) (c : DifficultyAdjustmentConfig)
  : result PreValidationError () :=
  d ← calculate_difficulty (hd_height block) (last_diff_timestamp previous_block) (timestamp block)
        (diff previous_block) c;
  guard_err (negb (d.1 =? diff block)) (DifficultyMismatch d.1 (diff block)).

Definition last_diff_timestamp_is_valid (block previous_block : BlockHeader) (c : DifficultyAdjustmentConfig)
  : result PreValidationError () :=
  let expected :=
    if is_multiple_of (hd_height block) (difficulty_adjustment_interval c) then timestamp block
    else last_diff_timestamp previous_block in
  guard_err (negb (last_diff_timestamp block =? expected))
    (LastDiffTimestampMismatch expected (last_diff_timestamp block)).

Definition previous_cumulative_difficulty_is_valid (block previous_block : BlockHeader)
  : result PreValidationError () :=
  guard_err (negb (previous_cumulative_diff block =? cumulative_diff previous_block))
    (PreviousCumulativeDifficultyMismatch (cumulative_diff previous_block) (previous_cumulative_diff block)).

Definition cumulative_difficulty_is_valid (block previous_block : BlockHeader) : result PreValidationError () :=
  expected ← next_cumulative_diff (cumulative_diff previous_block) (diff block);
  guard_err (negb (expected =? cumulative_diff block))
    (CumulativeDifficultyMismatch expected (cumulative_diff block)).

Definition solution_hash_is_valid (block previous_block : BlockHeader) : result PreValidationError () :=
  let solution_diff := hash_to_number (solution_hash block) in
  guard_err (negb (diff previous_block <=? solution_diff))
    (SolutionHashBelowDifficulty (diff previous_block) solution_diff).

Definition previous_solution_hash_is_valid (block previous_block : BlockHeader) : result PreValidationError () :=
  guard_err (negb (bool_decide (previous_solution_hash block = solution_hash previous_block)))
    (PreviousSolutionHashMismatch (solution_hash previous_block) (previous_solution_hash block)).

Definition last_epoch_hash_is_valid (block previous_block : BlockHeader) (blocks_in_epoch : Z)
  : result PreValidationError () :=
  if (0 <? hd_height block) && (blocks_in_epoch =? 0) then Panic
  else
    let expected :=
      if (0 <? hd_height block) && (hd_height block mod blocks_in_epoch =? 1) then block_hash previous_block
      else last_epoch_hash previous_block in
    guard_err (negb (bool_decide (last_epoch_hash block = expected)))
      (LastEpochHashMismatch expected (last_epoch_hash block)).

(** [to_secs]: [u128] milliseconds to [u64] seconds. *)
Definition to_secs (ms : Z) : Z := (ms / 1000) mod 2 ^ 64.

Definition delta_for_block (c : HeaderConfig) (secs : Z) : bool :=
  match delta_activation c with Some activation => activation <=? secs | None => false end.

Section HeaderChecks.
  Context `{Sha256}.

Definition compute_solution_hash (poa_chunk : list byte) (offset_le : Z) (seed : H256) (delta : bool) : H256 :=
  let offset_bytes := reverse (be_bytes 4 offset_le) in
  if delta then sha256 (seed ++ offset_bytes ++ poa_chunk) else sha256 (poa_chunk ++ offset_bytes ++ seed).

Definition solution_hash_link_is_valid (c : HeaderConfig) (block : BlockHeader) : result PreValidationError () :=
  let expected :=
    compute_solution_hash (poa_chunk block) (partition_chunk_offset block)
      (output (vdf_limiter_info block)) (delta_for_block c (to_secs (timestamp block))) in
  guard_err (negb (bool_decide (solution_hash block = expected)))
    (SolutionHashLinkInvalid expected (solution_hash block)).

(** The header checks of [prevalidate_block]. *)
Definition prevalidate_header (c : HeaderConfig) (now_ms : Z) (parent_ema_snapshot : EmaSnapshot)
    (block previous_block : BlockHeader) : result PreValidationError () :=
  _ ← guard_err (negb (prev_output_is_valid block previous_block)) VDFPreviousOutputMismatch;
  _ ← vdf_step_count_is_consistent (global_step_number (vdf_limiter_info block))
        (Z.of_nat (length (steps (vdf_limiter_info block))));
  let claimed_prev_step := saturating_sub (vdf_first_step_number (vdf_limiter_info block)) 1 in
  _ ← guard_err (negb (claimed_prev_step =? global_step_number (vdf_limiter_info previous_block)))
        VDFCheckpointsInvalid;
  _ ← height_is_valid block previous_block;
  _ ← timestamp_is_valid now_ms (timestamp block) (timestamp previous_block)
        (max_future_timestamp_drift_millis c);
  _ ← difficulty_is_valid block previous_block (difficulty_adjustment c);
  _ ← last_diff_timestamp_is_valid block previous_block (difficulty_adjustment c);
  _ ← previous_cumulative_difficulty_is_valid block previous_block;
  _ ← cumulative_difficulty_is_valid block previous_block;
  _ ← solution_hash_is_valid block previous_block;
  _ ← solution_hash_link_is_valid c block;
  _ ← previous_solution_hash_is_valid block previous_block;
  seeds_valid ← is_seed_data_valid block previous_block (vdf_reset_frequency c);
  _ ← guard_err (negb seeds_valid) VDFCheckpointsInvalid;
  _ ← last_epoch_hash_is_valid block previous_block (num_blocks_in_epoch c);
  map_err PriceInvalid
    (prevalidate_prices parent_ema_snapshot (price_header previous_block) (hd_oracle_irys_price block)
       (hd_ema_irys_price block) (token_price_safe_range c) (price_adjustment_interval c)).

(** ** Production *)

(** Where the transaction path of a proof of access comes from: the bytes in the index, [None]
    for a capacity chunk, or a job that derives them. *)
Inductive TxPathSource : Type :=
| Stored (path : option (list byte))
| Derive.

Record SolutionContext : Type := mkSolutionContext {
  sol_partition_hash : Z;
  sol_chunk_offset : Z;
  sol_mining_address : Z;
  sol_tx_path : TxPathSource;
  sol_data_path : option (list byte);
  sol_chunk : list byte;
  sol_vdf_step : Z;
  sol_seed : H256;
  sol_hash : H256
}.

(** [VDFLimiterInfo::new]. *)
Definition VDFLimiterInfo_new {E} (solution : SolutionContext) (prev_block_header : BlockHeader)
    (steps : list H256) (reset_frequency : Z) : result E VDFLimiterInfo :=
  let v := mkVDFLimiterInfo (sol_seed solution) (sol_vdf_step solution)
             (seed (vdf_limiter_info prev_block_header)) (repeat x00 32)
             (output (vdf_limiter_info prev_block_header)) steps in
  seeds ← calculate_seeds v reset_frequency prev_block_header;
  Ok (mkVDFLimiterInfo (output v) (global_step_number v) seeds.2 seeds.1 (prev_output v) steps).
End HeaderChecks.

(** * What the header checks decide: a check that never panics and accepts exactly a stated
    relation between a header and its parent. *)

(** ** Conditions *)

Record header_config_ok (c : HeaderConfig) : Prop := {
  hco_difficulty : difficulty_config_ok (difficulty_adjustment c);
  hco_drift : 0 ≤ max_future_timestamp_drift_millis c;
  hco_reset : 0 < vdf_reset_frequency c;
  hco_epoch : 2 ≤ num_blocks_in_epoch c;
  hco_range : 0 ≤ token_price_safe_range c
}.

(** Field widths of a header off the wire; the step number's maximum is not reached. *)
Record header_fits (b : BlockHeader) : Prop := {
  hf_height : 0 ≤ hd_height b < 2 ^ 64;
  hf_timestamp : 0 ≤ timestamp b < 2 ^ 128;
  hf_step : 0 ≤ global_step_number (vdf_limiter_info b) < 2 ^ 64 - 1;
  hf_oracle : 0 ≤ hd_oracle_irys_price b
}.

(** What every header of an accepted chain satisfies. *)
Record header_ok (h : BlockHeader) : Prop := {
  ho_fits : header_fits h;
  ho_diff : 0 ≤ diff h < U256_MAX;
  ho_cumulative : 0 ≤ cumulative_diff h ≤ U256_MAX;
  ho_last_diff : 0 ≤ last_diff_timestamp h ≤ timestamp h;
  ho_price : 0 < hd_oracle_irys_price h
}.

(** Whether a block's steps, those after its parent's, contain a reset step. *)
Definition has_reset_step (b : BlockHeader) (c : HeaderConfig) (first : Z) : bool :=
  existsb (fun k => k mod vdf_reset_frequency c =? 0)
    (seqZ first (global_step_number (vdf_limiter_info b) - first + 1)).

Section Follows.
  Context `{Sha256}.

(** The relation [prevalidate_header] decides. *)
Definition header_follows (c : HeaderConfig) (now_ms : Z) (s : EmaSnapshot) (b p : BlockHeader) : Prop :=
  let v := vdf_limiter_info b in
  let w := vdf_limiter_info p in
  prev_output v = output w ∧
  Z.of_nat (length (steps v)) ≤ global_step_number v ∧
  global_step_number v = global_step_number w + Z.of_nat (length (steps v)) ∧
  hd_height b = hd_height p + 1 ∧
  timestamp p < timestamp b ≤ now_ms + max_future_timestamp_drift_millis c ∧
  (∃ st, calculate_difficulty (E := PreValidationError) (hd_height b) (last_diff_timestamp p) (timestamp b)
           (diff p) (difficulty_adjustment c) = Ok (diff b, st)) ∧
  last_diff_timestamp b =
    (if is_multiple_of (hd_height b) (difficulty_adjustment_interval (difficulty_adjustment c))
     then timestamp b else last_diff_timestamp p) ∧
  previous_cumulative_diff b = cumulative_diff p ∧
  cumulative_diff b = Z.min U256_MAX (cumulative_diff p + U256_MAX / (U256_MAX - diff b)) ∧
  diff p ≤ hash_to_number (solution_hash b) ∧
  solution_hash b = compute_solution_hash (poa_chunk b) (partition_chunk_offset b) (output v)
                      (delta_for_block c (to_secs (timestamp b))) ∧
  previous_solution_hash b = solution_hash p ∧
  (next_seed v, seed v) =
    (if has_reset_step b c (global_step_number w + 1) then (block_hash p, next_seed w)
     else (next_seed w, seed w)) ∧
  last_epoch_hash b =
    (if hd_height b mod num_blocks_in_epoch c =? 1 then block_hash p else last_epoch_hash p) ∧
  prevalidate_prices s (price_header p) (hd_oracle_irys_price b) (hd_ema_irys_price b)
    (token_price_safe_range c) (price_adjustment_interval c) = Ok ().

(** ** Each check *)

Lemma find_existsb {A} (f : A → bool) l : bool_decide (is_Some (List.find f l)) = existsb f l.
Proof. induction l as [|x l IH]; [done|]. cbn. by destruct (f x). Qed.

Lemma calculate_seeds_spec {E} c b p :
  0 < vdf_reset_frequency c →
  calculate_seeds (E := E) (vdf_limiter_info b) (vdf_reset_frequency c) p =
  Ok (if has_reset_step b c (vdf_first_step_number (vdf_limiter_info b))
      then (block_hash p, next_seed (vdf_limiter_info p))
      else (next_seed (vdf_limiter_info p), seed (vdf_limiter_info p))).
Proof.
  intros Hr. unfold calculate_seeds, vdf_reset_step. destruct (Z.eqb_spec (vdf_reset_frequency c) 0); [lia|].
  cbn [andb mbind result_bind]. unfold has_reset_step. rewrite <- find_existsb.
  by destruct (List.find _ _).
Qed.

Lemma decides_seeds c b p :
  0 < vdf_reset_frequency c →
  decides (seeds_valid ← is_seed_data_valid b p (vdf_reset_frequency c);
           guard_err (negb seeds_valid) VDFCheckpointsInvalid)
    ((next_seed (vdf_limiter_info b), seed (vdf_limiter_info b)) =
     (if has_reset_step b c (vdf_first_step_number (vdf_limiter_info b))
      then (block_hash p, next_seed (vdf_limiter_info p))
      else (next_seed (vdf_limiter_info p), seed (vdf_limiter_info p)))).
Proof.
  intros Hr. unfold is_seed_data_valid. rewrite calculate_seeds_spec by done. cbn [mbind result_bind].
  set (e := if has_reset_step _ _ _ then _ else _). destruct e as [e1 e2]. cbn [fst snd].
  apply decides_guard. rewrite negb_false_iff, andb_true_iff, !bool_decide_eq_true. naive_solver.
Qed.

Lemma first_step_after v w :
  0 ≤ global_step_number v < 2 ^ 64 - 1 → Z.of_nat (length (steps v)) ≤ global_step_number v →
  vdf_first_step_number v = global_step_number v + 1 - Z.of_nat (length (steps v)) ∧
  (saturating_sub (vdf_first_step_number v) 1 = global_step_number w ↔
   global_step_number v = global_step_number w + Z.of_nat (length (steps v))).
Proof. intros Hg Hl. unfold vdf_first_step_number, saturating_sub, saturating_add. lia. Qed.

Lemma decides_timestamp c now b p :
  now + max_future_timestamp_drift_millis c < 2 ^ 128 →
  decides (timestamp_is_valid now (timestamp b) (timestamp p) (max_future_timestamp_drift_millis c))
    (timestamp p < timestamp b ≤ now + max_future_timestamp_drift_millis c).
Proof.
  intros Hnow. unfold timestamp_is_valid. apply decides_bind; [apply decides_guard; lia|]. intros _.
  unfold checked_add. destruct (Z.ltb_spec (now + max_future_timestamp_drift_millis c) (2 ^ 128)); [|lia].
  cbn [expect mbind result_bind]. apply decides_guard. lia.
Qed.

Lemma decides_difficulty c b p :
  header_config_ok c → header_ok p → timestamp p < timestamp b → timestamp b < 2 ^ 128 →
  decides (difficulty_is_valid b p (difficulty_adjustment c))
    (∃ st, calculate_difficulty (E := PreValidationError) (hd_height b) (last_diff_timestamp p) (timestamp b)
             (diff p) (difficulty_adjustment c) = Ok (diff b, st)).
Proof.
  intros Hc Hp Hts Hb. unfold difficulty_is_valid.
  destruct (calculate_difficulty_total (E := PreValidationError) (difficulty_adjustment c) (hd_height b)
    (last_diff_timestamp p) (timestamp b) (diff p)) as (d & st & Hd & _ & _ & _);
    [apply Hc|apply Hp|destruct Hp as [_ _ _ ? _]; lia|done|].
  rewrite Hd. cbn [mbind result_bind fst]. apply decides_guard. rewrite negb_false_iff, Z.eqb_eq.
  split; [intros ->; eauto|]. intros [st' Heq]. congruence.
Qed.

Lemma difficulty_range c b p :
  header_config_ok c → header_ok p → timestamp p < timestamp b → timestamp b < 2 ^ 128 →
  (∃ st, calculate_difficulty (E := PreValidationError) (hd_height b) (last_diff_timestamp p) (timestamp b)
           (diff p) (difficulty_adjustment c) = Ok (diff b, st)) →
  0 ≤ diff b < U256_MAX.
Proof.
  intros Hc Hp Hts Hb [st Hst].
  destruct (calculate_difficulty_total (E := PreValidationError) (difficulty_adjustment c) (hd_height b)
    (last_diff_timestamp p) (timestamp b) (diff p)) as (d & st' & Hd & Hr & _ & _);
    [apply Hc|apply Hp|destruct Hp as [_ _ _ ? _]; lia|done|]. congruence.
Qed.

Lemma decides_cumulative b p :
  0 ≤ diff b < U256_MAX →
  decides (cumulative_difficulty_is_valid b p)
    (cumulative_diff b = Z.min U256_MAX (cumulative_diff p + U256_MAX / (U256_MAX - diff b))).
Proof.
  intros Hd. unfold cumulative_difficulty_is_valid.
  destruct (next_cumulative_diff_eq (E := PreValidationError) (cumulative_diff p) (diff b) Hd) as [-> _].
  cbn [mbind result_bind]. apply decides_guard. rewrite negb_false_iff, Z.eqb_eq. split; congruence.
Qed.

Lemma decides_epoch c b p :
  header_config_ok c → 0 < hd_height b →
  decides (last_epoch_hash_is_valid b p (num_blocks_in_epoch c))
    (last_epoch_hash b =
      (if hd_height b mod num_blocks_in_epoch c =? 1 then block_hash p else last_epoch_hash p)).
Proof.
  intros Hc Hh. unfold last_epoch_hash_is_valid. destruct Hc as [_ _ _ He _].
  destruct (Z.ltb_spec 0 (hd_height b)); [|lia]. destruct (Z.eqb_spec (num_blocks_in_epoch c) 0); [lia|].
  cbn [andb]. apply decides_guard_dec.
Qed.

Lemma decides_prices s p o e r n :
  decides (map_err PriceInvalid (prevalidate_prices s p o e r n)) (prevalidate_prices s p o e r n = Ok ()).
Proof. unfold prevalidate_prices. by repeat case_match. Qed.
End Follows.
