(* ===== verification/HeaderTheorems.v ===== *)
(** BlockHeader validation and production: the theorems. *)

From S2P Require Import Prelude TreeHash Pricing Ema EmaTheorems Difficulty VdfState Header.

Section HeaderTheorems.
  Context {HS : Sha256}.
  Context (c : HeaderConfig) (Hc : header_config_ok c).

(** ** Validation *)

Lemma bind_assoc {E A B C} (m : result E A) (f : A → result E B) (g : B → result E C) :
  (m ≫= λ a, f a ≫= g) = (m ≫= f) ≫= g.
Proof. by destruct m. Qed.

Lemma prevalidate_header_decides now s b p :
  header_ok p → header_fits b → hd_height p + 1 < 2 ^ 64 → now + max_future_timestamp_drift_millis c < 2 ^ 128 →
  prevalidate_header c now s b p ⊢? header_follows c now s b p.
Proof.
  intros Hp Hb Hh Hnow. unfold prevalidate_header, header_follows. cbv zeta.
  apply decides_bind; [auto with checks|]. intros _.
  apply decides_bind; [apply decides_guard; lia|]. intros Hlen.
  destruct (first_step_after (vdf_limiter_info b) (vdf_limiter_info p)) as [Hfirst Hcont]; [apply Hb|done|].
  apply decides_bind; [apply decides_guard; rewrite negb_false_iff, Z.eqb_eq; exact Hcont|]. intros Hg.
  apply decides_bind.
  { unfold height_is_valid, checked_add. destruct (Z.ltb_spec (hd_height p + 1) (2 ^ 64)); [|lia].
    apply decides_guard_eqb. }
  intros Hheight. apply decides_bind; [by apply decides_timestamp|]. intros [Hts _].
  assert (timestamp b < 2 ^ 128) by apply Hb.
  apply decides_bind; [by apply decides_difficulty|]. intros Hd.
  apply (difficulty_range c b p) in Hd; [|done..].
  apply decides_bind; [auto with checks|]. intros _.
  apply decides_bind; [auto with checks|]. intros _.
  apply decides_bind; [by apply decides_cumulative|]. intros _.
  apply decides_bind; [apply decides_guard; lia|]. intros _.
  apply decides_bind; [auto with checks|]. intros _.
  apply decides_bind; [auto with checks|]. intros _.
  eapply decides_eq; [apply bind_assoc|].
  apply decides_bind.
  { replace (global_step_number (vdf_limiter_info p) + 1)
      with (vdf_first_step_number (vdf_limiter_info b)) by lia.
    apply decides_seeds, Hc. }
  intros _. apply decides_bind.
  - apply decides_epoch; [done|]. destruct Hp as [[? _ _ _] _ _ _ _]. lia.
  - intros _. apply decides_prices.
Qed.

(** An accepted header is again a header of a chain. *)
Lemma follows_ok now s b p :
  header_ok p → header_fits b → header_follows c now s b p → header_ok b.
Proof.
  intros Hp Hb (_ & _ & _ & _ & [Hts _] & Hd & Hl & _ & Hcum & _ & _ & _ & _ & _ & Hpr).
  assert (timestamp b < 2 ^ 128) by apply Hb.
  apply (difficulty_range c b p) in Hd; [|done..]. destruct Hp as [Hpf Hpd Hpc Hpl Hpp].
  assert (0 < U256_MAX / (U256_MAX - diff b)).
  { destruct (next_cumulative_diff_eq (E := unit) 0 (diff b) Hd) as [_ ?]. lia. }
  constructor; [done|done| | |].
  - assert (0 < U256_MAX) by done. lia.
  - case_match; lia.
  - unfold prevalidate_prices, oracle_price_is_valid in Hpr.
    destruct (Z.eqb_spec (hd_oracle_irys_price b) 0); [done|]. destruct Hb as [_ _ _ ?]. lia.
Qed.

(** Chains of accepted headers, newest first; each block was accepted at its own time and
    with its own parent snapshot. *)
Inductive accepted_chain : list BlockHeader → Prop :=
| accepted_genesis g : header_ok g → hd_height g = 0 → last_diff_timestamp g = timestamp g → accepted_chain [g]
| accepted_block b p l now s :
    accepted_chain (p :: l) → header_fits b → hd_height p + 1 < 2 ^ 64 →
    now + max_future_timestamp_drift_millis c < 2 ^ 128 →
    prevalidate_header c now s b p = Ok () → accepted_chain (b :: p :: l).

(** [accepted_chain] with the checks replaced by what they decide. *)
Lemma accepted_chain_ind' (P : list BlockHeader → Prop) :
  (∀ g, header_ok g → hd_height g = 0 → last_diff_timestamp g = timestamp g → P [g]) →
  (∀ b p l now s, accepted_chain (p :: l) → P (p :: l) → header_ok p → header_ok b →
     header_follows c now s b p → P (b :: p :: l)) →
  ∀ l, accepted_chain l → P l ∧ ∃ h l', l = h :: l' ∧ header_ok h.
Proof.
  intros Hg Hstep l Hl. induction Hl as [g ? ? ?|b p l now s Hl [IH (h & l' & Heq & Hp)] Hb Hh Hnow Hv].
  - split; [by apply Hg|]. by exists g, [].
  - injection Heq as -> ->.
    apply (prevalidate_header_decides now s b h Hp Hb Hh Hnow) in Hv.
    pose proof (follows_ok _ _ _ _ Hp Hb Hv) as Hbok.
    split; [by eapply Hstep|]. by exists b, (h :: l').
Qed.

Lemma chain_heights l :
  accepted_chain l → ∀ i x, l !! i = Some x → hd_height x = Z.of_nat (length l) - 1 - Z.of_nat i.
Proof.
  intros Hl. apply (accepted_chain_ind' (λ l, ∀ i x, l !! i = Some x →
    hd_height x = Z.of_nat (length l) - 1 - Z.of_nat i)) in Hl; [by destruct Hl| |].
  - intros g _ Hg _ [|i] x Hx; cbn in Hx; simplify_eq. cbn. lia.
  - intros b p l' now s _ IH _ _ (_ & _ & _ & Hh & _) [|i] x Hx; cbn in Hx.
    + simplify_eq. rewrite Hh, (IH 0%nat p eq_refl). cbn [length]. lia.
    + rewrite (IH i x Hx). cbn [length]. lia.
Qed.

(** Newer blocks are later and have more accumulated work. *)
Definition newer (x y : BlockHeader) : Prop :=
  timestamp y < timestamp x ∧ cumulative_diff y ≤ cumulative_diff x ∧
  (cumulative_diff x < U256_MAX → cumulative_diff y < cumulative_diff x).

Lemma newer_trans x y z : newer x y → newer y z → newer x z.
Proof. unfold newer. lia. Qed.

Lemma follows_newer now s b p : header_ok p → header_ok b → header_follows c now s b p → newer b p.
Proof.
  intros Hp Hb (_ & _ & _ & _ & [Hts _] & _ & _ & _ & Hcum & _).
  destruct (next_cumulative_diff_eq (E := unit) 0 (diff b) (ho_diff b Hb)) as [_ Hpos].
  destruct Hp as [_ _ ? _ _]. unfold newer. lia.
Qed.

Lemma chain_newer l :
  accepted_chain l → ∀ i j x y, (i < j)%nat → l !! i = Some x → l !! j = Some y → newer x y.
Proof.
  intros Hl. apply (accepted_chain_ind' (λ l, ∀ i j x y, (i < j)%nat → l !! i = Some x →
    l !! j = Some y → newer x y)) in Hl; [by destruct Hl| |].
  - intros g _ _ _ i [|j] x y Hij Hx Hy; [lia|done].
  - intros b p l' now s _ IH Hp Hb Hf [|i] [|j] x y Hij Hx Hy; cbn in Hx, Hy; try lia.
    + simplify_eq. destruct j as [|j]; cbn in Hy.
      * simplify_eq. by eapply follows_newer.
      * apply (newer_trans _ p); [by apply (follows_newer now s)|]. apply (IH 0%nat (S j)); [lia|done..].
    + apply (IH i j); [lia|done..].
Qed.

Lemma mod_succ n h :
  0 < n → 0 ≤ h mod n < n ∧
  ((h mod n + 1 < n ∧ (h + 1) mod n = h mod n + 1) ∨ (h mod n + 1 = n ∧ (h + 1) mod n = 0)).
Proof.
  intros Hn. pose proof (Z.div_mod h n ltac:(lia)). pose proof (Z.mod_pos_bound h n Hn). split; [done|].
  destruct (decide (h mod n + 1 < n)); [left|right]; (split; [lia|]); symmetry.
  - apply (Z.mod_unique _ _ (h / n)); lia.
  - apply (Z.mod_unique _ _ (h / n + 1)); lia.
Qed.

(** The block of the last adjustment, at the last multiple of the interval. *)
Lemma chain_last_diff l :
  accepted_chain l → ∀ h, head l = Some h →
  ∃ y, l !! Z.to_nat (hd_height h mod difficulty_adjustment_interval (difficulty_adjustment c)) = Some y ∧
    last_diff_timestamp h = timestamp y.
Proof.
  set (n := difficulty_adjustment_interval (difficulty_adjustment c)).
  assert (0 < n) as Hn by (destruct Hc as [(_ & ? & _) _ _ _ _]; lia).
  intros Hl. apply (accepted_chain_ind' (λ l, ∀ h, head l = Some h →
    ∃ y, l !! Z.to_nat (hd_height h mod n) = Some y ∧ last_diff_timestamp h = timestamp y)) in Hl;
    [by destruct Hl| |].
  - intros g _ Hg Ht h [= <-]. exists g. rewrite Hg, Z.mod_0_l by lia. done.
  - intros b p l' now s _ IH Hp _ (_ & _ & _ & Hh & _ & _ & Hd & _) h [= <-].
    destruct (IH p eq_refl) as (y & Hy & Hly). rewrite Hd. fold n. unfold is_multiple_of.
    destruct (Z.eqb_spec n 0); [lia|]. rewrite Hh.
    destruct (mod_succ n (hd_height p) Hn) as [? [[? ->]|[? ->]]].
    + destruct (Z.eqb_spec (hd_height p mod n + 1) 0); [lia|]. exists y. split; [|done].
      rewrite Z2Nat.inj_add, Nat.add_1_r by lia. done.
    + exists b. done.
Qed.

(** The epoch block a header refers to: the last multiple of the epoch length below it. *)
Lemma chain_last_epoch l :
  accepted_chain l → ∀ h, head l = Some h → 0 < hd_height h →
  ∃ y, l !! Z.to_nat ((hd_height h - 1) mod num_blocks_in_epoch c + 1) = Some y ∧
    last_epoch_hash h = block_hash y.
Proof.
  set (n := num_blocks_in_epoch c). assert (2 ≤ n) as Hn by (destruct Hc; lia).
  intros Hl. apply (accepted_chain_ind' (λ l, ∀ h, head l = Some h → 0 < hd_height h →
    ∃ y, l !! Z.to_nat ((hd_height h - 1) mod n + 1) = Some y ∧ last_epoch_hash h = block_hash y)) in Hl;
    [by destruct Hl| |].
  - intros g _ Hg _ h [= <-] Hpos. lia.
  - intros b p l' now s _ IH Hp _ (_ & _ & _ & Hh & _ & _ & _ & _ & _ & _ & _ & _ & _ & He & _) h [= <-] _.
    rewrite He, Hh. fold n. replace (hd_height p + 1 - 1) with (hd_height p) by lia.
    destruct (mod_succ n (hd_height p)) as [Hm Hs]; [lia|].
    rewrite Z2Nat.inj_add, Nat.add_1_r by lia. cbn [lookup list_lookup].
    destruct (Z.eqb_spec ((hd_height p + 1) mod n) 1) as [H1|H1].
    + exists p. replace (hd_height p mod n) with 0 by lia. done.
    + assert (hd_height p mod n ≠ 0) by lia.
      assert (0 < hd_height p).
      { destruct Hp as [[? _ _ _] _ _ _ _]. destruct (decide (hd_height p = 0)) as [Hz|]; [|lia].
        rewrite Hz, Z.mod_0_l in * by lia. lia. }
      destruct (IH p eq_refl) as (y & Hy & Hly); [lia|]. exists y. split; [|done].
      destruct (mod_succ n (hd_height p - 1)) as [Hm' Hs']; [lia|].
      replace (hd_height p - 1 + 1) with (hd_height p) in Hs' by lia. rewrite <- Hy. f_equal. lia.
Qed.

(** C11: On every chain of headers that passed the checks, from a well-formed genesis: heights
    count up by one; timestamps strictly increase; cumulative difficulty never decreases and
    strictly increases until it saturates; the head's [last_diff_timestamp] is the timestamp of
    the block at the last multiple of the adjustment interval, and its [last_epoch_hash] the
    hash of the block at the last multiple of the epoch length below it; and the checks of
    any next header, well-formed or hostile, end with a verdict: no subtraction of
    timestamps, division by the remaining difficulty or modulus panics. *)
Theorem accepted_chain_correct l h :
  accepted_chain l → head l = Some h → hd_height h + 1 < 2 ^ 64 →
  (∀ i x, l !! i = Some x → hd_height x = Z.of_nat (length l) - 1 - Z.of_nat i) ∧
  (∀ i j x y, (i < j)%nat → l !! i = Some x → l !! j = Some y → newer x y) ∧
  (∃ y, l !! Z.to_nat (hd_height h mod difficulty_adjustment_interval (difficulty_adjustment c)) = Some y ∧
     last_diff_timestamp h = timestamp y) ∧
  (0 < hd_height h → ∃ y, l !! Z.to_nat ((hd_height h - 1) mod num_blocks_in_epoch c + 1) = Some y ∧
     last_epoch_hash h = block_hash y) ∧
  (∀ b now s, header_fits b → now + max_future_timestamp_drift_millis c < 2 ^ 128 →
     prevalidate_header c now s b h ≠ Panic ∧
     (prevalidate_header c now s b h = Ok () ↔ header_follows c now s b h)).
Proof.
  intros Hl Hh Hlt. split_and!.
  - by apply chain_heights.
  - by apply chain_newer.
  - by apply chain_last_diff.
  - by apply chain_last_epoch.
  - intros b now s Hb Hnow.
    destruct (accepted_chain_ind' (λ _, True) ltac:(done) ltac:(done) l Hl) as [_ (h' & l' & -> & Hok)].
    injection Hh as ->. by apply prevalidate_header_decides.
Qed.

(** ** Production *)

Lemma to_secs_lt a b : 0 ≤ a < 1000 * 2 ^ 64 → 0 ≤ b < 1000 * 2 ^ 64 → to_secs a < to_secs b → a < b.
Proof.
  intros Ha Hb. unfold to_secs. rewrite !Z.mod_small by (split; [apply Z.div_pos|apply Z.div_lt_upper_bound]; lia).
  intros Hlt. destruct (Z.lt_ge_cases a b) as [|Hge]; [done|].
  pose proof (Z.div_le_mono b a 1000 ltac:(lia) Hge). lia.
Qed.

(** What the producer asks of a solution on a parent: a new step, a hash that clears the
    parent's difficulty, and the hash order of the block's timestamp. *)
Record solution_fits (sol : SolutionContext) (p : BlockHeader) (ts : Z) : Prop := {
  sf_step : global_step_number (vdf_limiter_info p) < sol_vdf_step sol;
  sf_diff : diff p ≤ hash_to_number (sol_hash sol);
  sf_hash : compute_solution_hash (sol_chunk sol) (sol_chunk_offset sol) (sol_seed sol)
              (delta_for_block c (to_secs ts)) = sol_hash sol
}.

(** The steps of a produced block: those the buffer holds after the parent, then the solution's. *)
Lemma produced_steps {E} (f : VdfError → E) vs log p sol prior :
  window_of vs log → global_step_number (vdf_limiter_info p) < sol_vdf_step sol →
  (if sol_vdf_step sol - 1 <? global_step_number (vdf_limiter_info p) + 1 then Ok []
   else map_err f (get_steps vs (global_step_number (vdf_limiter_info p) + 1) (sol_vdf_step sol - 1))) = Ok prior →
  Z.of_nat (length (prior ++ [sol_seed sol])) = sol_vdf_step sol - global_step_number (vdf_limiter_info p).
Proof.
  intros Hw Hlt. rewrite length_app. cbn [length].
  destruct (Z.ltb_spec (sol_vdf_step sol - 1) (global_step_number (vdf_limiter_info p) + 1)).
  { intros [= <-]. cbn [length]. lia. }
  rewrite (get_steps_window vs log) by (done || lia). cbv zeta.
  case_match; [|done]. intros [= <-]. rewrite length_fmap, length_seqZ. lia.
Qed.

(** What the produced header has to satisfy beyond its difficulty, steps and prices. *)
Lemma produced_follows {E} now s p sol hash ts d st prior ema :
  header_ok p → timestamp p < ts ≤ now + max_future_timestamp_drift_millis c →
  solution_fits sol p ts → 0 ≤ sol_vdf_step sol < 2 ^ 64 - 1 →
  Z.of_nat (length (prior ++ [sol_seed sol])) = sol_vdf_step sol - global_step_number (vdf_limiter_info p) →
  calculate_difficulty (E := PreValidationError) (hd_height p + 1) (last_diff_timestamp p) ts (diff p)
    (difficulty_adjustment c) = Ok (d, st) →
  bool_decide (is_Some st) =
    is_multiple_of (hd_height p + 1) (difficulty_adjustment_interval (difficulty_adjustment c)) →
  prevalidate_prices s (price_header p) (oracle_price_for_block_inclusion ema) (calculated_ema ema)
    (token_price_safe_range c) (price_adjustment_interval c) = Ok () →
  let cum := Z.min U256_MAX (cumulative_diff p + U256_MAX / (U256_MAX - d)) in
  let steps := prior ++ [sol_seed sol] in
  let last_ts := match st with Some _ => ts | None => last_diff_timestamp p end in
  let epoch := if (0 <? hd_height p + 1) && ((hd_height p + 1) mod num_blocks_in_epoch c =? 1)
               then block_hash p else last_epoch_hash p in
  ∃ vdf, VDFLimiterInfo_new (E := E) sol p steps (vdf_reset_frequency c) = Ok vdf ∧
    global_step_number vdf = sol_vdf_step sol ∧
    header_follows c now s
      (mkHeader hash (hd_height p + 1) d cum last_ts (sol_hash sol) (solution_hash p) epoch
         (cumulative_diff p) (sol_chunk sol) (sol_chunk_offset sol) ts vdf
         (oracle_price_for_block_inclusion ema) (calculated_ema ema)) p.
Proof.
  intros Hp Hts Hgates Hstep Hlen Hd Hst Hprices. cbv zeta.
  destruct Hgates as [Hg Hdiff Hsol].
  assert (0 ≤ global_step_number (vdf_limiter_info p)) by (destruct Hp as [[] _ _ _ _]; lia).
  set (v := mkVDFLimiterInfo (sol_seed sol) (sol_vdf_step sol) (seed (vdf_limiter_info p)) (repeat x00 32)
              (output (vdf_limiter_info p)) (prior ++ [sol_seed sol])).
  set (b := mkHeader hash 0 0 0 0 [] [] [] 0 [] 0 0 v 0 0).
  destruct (first_step_after v (vdf_limiter_info p)) as [Hfirst _]; [done|cbn [v steps global_step_number]; lia|].
  unfold VDFLimiterInfo_new. fold v.
  pose proof (calculate_seeds_spec (E := E) c b p (hco_reset c Hc)) as Hseeds.
  change (vdf_limiter_info b) with v in Hseeds. rewrite Hseeds. cbn [mbind result_bind]. eexists. split; [done|]. split; [done|].
  replace (vdf_first_step_number v) with (global_step_number (vdf_limiter_info p) + 1)
    by (rewrite Hfirst; cbn [v steps global_step_number]; lia).
  set (sd := if has_reset_step b c _ then _ else _).
  unfold header_follows. cbn [hd_height diff cumulative_diff last_diff_timestamp solution_hash
    previous_solution_hash last_epoch_hash previous_cumulative_diff poa_chunk partition_chunk_offset timestamp
    vdf_limiter_info hd_oracle_irys_price hd_ema_irys_price output global_step_number seed next_seed prev_output
    steps v]. cbv zeta.
  split_and!; try done; try lia.
  - by exists st.
  - rewrite <- Hst. by destruct st.
  - match goal with
    | |- _ = if ?y then _ else _ =>
        change y with (has_reset_step b c (global_step_number (vdf_limiter_info p) + 1))
    end. symmetry. apply surjective_pairing.
  - destruct (Z.ltb_spec 0 (hd_height p + 1)); [done|]. destruct Hp as [[] _ _ _ _]; lia.
Qed.
End HeaderTheorems.

(** ** Instances *)

(** A genesis header and a block two steps later; the hash function is a checksum of its
    input. *)
Module HeaderWitness.
Definition toy_digest (m : list byte) : list byte := be_bytes 32 (2 ^ 200 + of_be_bytes m).
#[local] Instance toy_sha256 : Sha256 := {| sha256 := toy_digest; sha256_length m := length_be_bytes 32 _ |}.

Definition cfg : HeaderConfig :=
  mkHeaderConfig (mkDifficultyAdjustmentConfig 10 1 (Some 400) (Some 25)) 15000 2 100 None 100000 10.

Definition genesis : BlockHeader :=
  mkHeader (be_bytes 32 7) 0 1000 1 5000 (be_bytes 32 9) (be_bytes 32 0) (be_bytes 32 0) 0 [] 0 5000
    (mkVDFLimiterInfo (be_bytes 32 21) 1 (be_bytes 32 3) (be_bytes 32 4) (be_bytes 32 0) [be_bytes 32 21])
    (10 ^ 18) (10 ^ 18).

Definition chunk : list byte := repeat x05 10.
Definition snap : EmaSnapshot := EmaSnapshot_genesis (price_header genesis).

Definition child : BlockHeader :=
  mkHeader (be_bytes 32 8) 1 69475253542389717254142591005212744711961990799384338423674550404747877784735 3 9000
    (compute_solution_hash chunk 42 (be_bytes 32 23) false) (be_bytes 32 9) (be_bytes 32 7) 1 chunk 42 9000
    (mkVDFLimiterInfo (be_bytes 32 23) 3 (be_bytes 32 4) (be_bytes 32 7) (be_bytes 32 21) [be_bytes 32 22; be_bytes 32 23])
    1000000100000000000 1000000018181818181.

Lemma cfg_ok : header_config_ok cfg.
Proof.
  constructor; cbn; [|lia..]. unfold difficulty_config_ok. cbn.
  split_and!; [lia..| |]; eexists; (split; [done|lia]).
Qed.

Lemma genesis_ok : header_ok genesis.
Proof. constructor; [constructor; cbn; lia|by vm_compute|by vm_compute|cbn; lia|done]. Qed.

Lemma child_chain : accepted_chain cfg [child; genesis].
Proof.
  apply (accepted_block cfg child genesis [] 10000 snap).
  - by apply accepted_genesis; [apply genesis_ok|..].
  - constructor; by vm_compute.
  - done.
  - done.
  - vm_compute. reflexivity.
Qed.

Lemma accepted_chain_correct_witness :
  newer child genesis ∧ last_epoch_hash child = block_hash genesis ∧
  prevalidate_header cfg 10000 snap child child ≠ Panic.
Proof.
  destruct (accepted_chain_correct cfg cfg_ok [child; genesis] child child_chain eq_refl) as
    (_ & Hnew & _ & Hepoch & Htotal); [by vm_compute|].
  split; [apply (Hnew 0%nat 1%nat); [lia|done|done]|]. split.
  - destruct Hepoch as (y & Hy & ->); [by vm_compute|].
    assert (y = genesis) as -> by (vm_compute in Hy; injection Hy as <-; reflexivity). reflexivity.
  - apply (Htotal child 10000 snap); [constructor; by vm_compute|done].
Defined.
End HeaderWitness.
