(* ===== verification/StateErr.v ===== *)
(** Computations on a mutable state that can fail: a function from a state to the state it
    leaves behind and a [result].  They model [&mut self] methods, which keep what they have
    written when they return an error. *)

From S2P Require Import Prelude.

Definition SE (S E A : Type) : Type := S → S * result E A.

#[global] Instance SE_ret {S E} : MRet (SE S E) := λ A a s, (s, Ok a).
#[global] Instance SE_bind {S E} : MBind (SE S E) := λ A B f m s,
  let '(s', r) := m s in
  match r with
  | Ok a => f a s'
  | Err e => (s', Err e)
  | Panic => (s', Panic)
  end.

Section StateErr.
  Context {S E : Type}.

Definition gets {A} (f : S → A) : SE S E A := λ s, (s, Ok (f s)).
Definition modify (f : S → S) : SE S E () := λ s, (f s, Ok ()).
(** A computation of a value that does not write. *)
Definition lift {A} (r : result E A) : SE S E A := λ s, (s, r).
(** A computation of the next state that panics or succeeds as a whole. *)
Definition update (f : S → result E S) : SE S E () := λ s,
  match f s with Ok s' => (s', Ok ()) | Err e => (s, Err e) | Panic => (s, Panic) end.

Fixpoint for_each {A} (f : A → SE S E ()) (l : list A) : SE S E () :=
  match l with
  | [] => mret ()
  | x :: l' => f x ≫= λ _, for_each f l'
  end.

(** ** Total correctness: from every state in [P] the computation succeeds, in [Q]. *)

Definition runs {A} (P : S → Prop) (m : SE S E A) (Q : A → S → Prop) : Prop :=
  ∀ s, P s → ∃ s' a, m s = (s', Ok a) ∧ Q a s'.

(** A sequence succeeds when both parts do. *)
Lemma bind_run {A B} (m : SE S E A) (f : A → SE S E B) s s' b :
  (m ≫= f) s = (s', Ok b) ↔ ∃ s1 a, m s = (s1, Ok a) ∧ f a s1 = (s', Ok b).
Proof.
  unfold mbind, SE_bind. destruct (m s) as [s1 [a| |]]; [|naive_solver..]. split; [eauto|]. naive_solver.
Qed.

Lemma runs_ret {A} (a : A) (P : S → Prop) : runs P (mret a) (λ x s, x = a ∧ P s).
Proof. intros s HP. by exists s, a. Qed.

Lemma runs_bind {A B} P (m : SE S E A) (f : A → SE S E B) (R : A → S → Prop) (Q : B → S → Prop) :
  runs P m R → (∀ a, runs (R a) (f a) Q) → runs P (m ≫= f) Q.
Proof.
  intros Hm Hf s HP. destruct (Hm s HP) as (s1 & a & Hs & HR).
  destruct (Hf a s1 HR) as (s2 & b & Hs2 & HQ). exists s2, b. split; [|done].
  unfold mbind, SE_bind. by rewrite Hs.
Qed.

Lemma runs_conseq {A} (P P' : S → Prop) (m : SE S E A) (Q Q' : A → S → Prop) :
  runs P' m Q' → (∀ s, P s → P' s) → (∀ a s, Q' a s → Q a s) → runs P m Q.
Proof. intros Hm HP HQ s Hs. destruct (Hm s (HP s Hs)) as (s' & a & ? & ?). eauto. Qed.

Lemma runs_modify (f : S → S) (P : S → Prop) (Q : () → S → Prop) :
  (∀ s, P s → Q () (f s)) → runs P (modify f) Q.
Proof. intros H s HP. by exists (f s), (); auto. Qed.

Lemma runs_update (f : S → result E S) (P : S → Prop) (Q : () → S → Prop) :
  (∀ s, P s → ∃ s', f s = Ok s' ∧ Q () s') → runs P (update f) Q.
Proof. intros H s HP. destruct (H s HP) as (s' & Hf & HQ). exists s', (). unfold update. by rewrite Hf. Qed.

(** A loop whose body consumes one element of what an indexed invariant is about. *)
Lemma runs_for_each {A} (f : A → SE S E ()) (I : list A → S → Prop) (l : list A) :
  (∀ x l', runs (I (x :: l')) (f x) (λ _, I l')) → runs (I l) (for_each f l) (λ _, I []).
Proof.
  intros Hf. induction l as [|x l IH]; intros s HI; cbn [for_each]; [by exists s, ()|].
  by apply (runs_bind _ _ _ (λ _, I l) _ (Hf x l) (λ _, IH)).
Qed.
End StateErr.
