(* ===== verification/DataLedger.v ===== *)
(** Data ledgers and their slots ([crates/database/src/data_ledger.rs]).

    Partition hashes are 256-bit numbers (the big endian value of their 32 bytes), heights and
    chunk counts are [u64] as [Z], slot indices are [usize] as [nat].  A ledger id is
    represented by the [DataLedger] variant it was built from.  [cascade] is the activation
    state of the Cascade hardfork for the block at hand. *)

From S2P Require Import Prelude.

Inductive DataLedger : Type := Publish | Submit | OneYear | ThirtyDay.
#[global] Instance DataLedger_eq_dec : EqDecision DataLedger.
Proof. solve_decision. Defined.

(** ** Slots *)

Record LedgerSlot : Type := mkLedgerSlot {
  partitions : list Z;
  is_expired : bool;
  has_been_written : bool;
  last_height : Z
}.

Definition set_partitions (s : LedgerSlot) (l : list Z) : LedgerSlot :=
  mkLedgerSlot l (is_expired s) (has_been_written s) (last_height s).
Definition set_expired (s : LedgerSlot) : LedgerSlot :=
  mkLedgerSlot (partitions s) true (has_been_written s) (last_height s).

Record ExpiringPartitionInfo : Type := mkExpiringPartitionInfo {
  ei_partition_hash : Z;
  ei_ledger_id : DataLedger;
  ei_slot_index : nat
}.

Definition enumerate {A} (l : list A) : list (nat * A) := zip (seq 0 (length l)) l.

Definition fully_written_slot_count (total_chunks chunks_per_slot : Z) : Z :=
  if chunks_per_slot =? 0 then 0 else total_chunks / chunks_per_slot.

Definition cascade_expiry_gate (cascade : bool) (slot : LedgerSlot) (slot_index : nat)
    (fully_written_slots : Z) : bool :=
  negb cascade || (has_been_written slot && (Z.of_nat slot_index <? fully_written_slots)).

(** ** Ledgers *)

Record PermanentLedger : Type := mkPermanentLedger {
  perm_slots : list LedgerSlot;
  perm_num_partitions_per_slot : Z
}.

Record TermLedger : Type := mkTermLedger {
  tl_ledger : DataLedger;
  tl_slots : list LedgerSlot;
  epoch_length : Z;
  tl_num_blocks_in_epoch : Z;
  tl_num_partitions_per_slot : Z
}.

Record Ledgers : Type := mkLedgers {
  perm : PermanentLedger;
  term : list TermLedger;
  publish_ledger_epoch_length : option Z;
  num_blocks_in_epoch : Z
}.

(** The fields of [ConsensusConfig] that ledgers and epochs read. *)
Record CascadeParams : Type := mkCascadeParams {
  cascade_activation_timestamp : Z;
  one_year_epoch_length : Z;
  thirty_day_epoch_length : Z
}.

Record EpochConfig : Type := mkEpochConfig {
  ec_num_blocks_in_epoch : Z;
  ec_num_chunks_in_partition : Z;
  ec_num_partitions_per_slot : Z;
  ec_submit_ledger_epoch_length : Z;
  ec_publish_ledger_epoch_length : option Z;
  ec_num_capacity_partitions : option Z;
  ec_cascade : option CascadeParams;
  ec_delta : option (Z * Z)
}.

Definition with_slots (t : TermLedger) (slots : list LedgerSlot) : TermLedger :=
  mkTermLedger (tl_ledger t) slots (epoch_length t) (tl_num_blocks_in_epoch t) (tl_num_partitions_per_slot t).

Definition PermanentLedger_new (c : EpochConfig) : PermanentLedger :=
  mkPermanentLedger [] (ec_num_partitions_per_slot c).

Definition TermLedger_new (ledger : DataLedger) (c : EpochConfig) (epoch_length : Z) : TermLedger :=
  mkTermLedger ledger [] epoch_length (ec_num_blocks_in_epoch c) (ec_num_partitions_per_slot c).

Definition Ledgers_new (c : EpochConfig) (cascade : bool) : Ledgers :=
  let submit := TermLedger_new Submit c (ec_submit_ledger_epoch_length c) in
  let term :=
    match (if cascade then ec_cascade c else None) with
    | Some p => [submit; TermLedger_new OneYear c (one_year_epoch_length p);
                 TermLedger_new ThirtyDay c (thirty_day_epoch_length p)]
    | None => [submit]
    end in
  mkLedgers (PermanentLedger_new c) term (ec_publish_ledger_epoch_length c) (ec_num_blocks_in_epoch c).

Definition activate_cascade (c : EpochConfig) (L : Ledgers) : Ledgers :=
  if existsb (fun t => bool_decide (tl_ledger t = OneYear)) (term L) then L
  else
    match ec_cascade c with
    | Some p =>
        mkLedgers (perm L)
          (term L ++ [TermLedger_new OneYear c (one_year_epoch_length p);
                      TermLedger_new ThirtyDay c (thirty_day_epoch_length p)])
          (publish_ledger_epoch_length L) (num_blocks_in_epoch L)
    | None => L
    end.

Definition active_ledgers (L : Ledgers) : list DataLedger := Publish :: (tl_ledger <$> term L).

Section DataLedger.
  Context {E : Type}.

(** ** Expiry *)

Definition get_expired_slot_indexes (t : TermLedger) (epoch_height : Z) (cascade : bool)
    (total_chunks chunks_per_slot : Z) : result E (list nat) :=
  min_blocks ← expect (checked_mul 64 (epoch_length t) (tl_num_blocks_in_epoch t));
  if epoch_height <? min_blocks then Ok []
  else
    let expiry_height := epoch_height - min_blocks in
    let fully_written_slots := fully_written_slot_count total_chunks chunks_per_slot in
    Ok (omap (fun '(slot_index, slot) =>
          if (slot_index =? length (tl_slots t) - 1)%nat then None
          else if cascade_expiry_gate cascade slot slot_index fully_written_slots &&
                  (last_height slot <=? expiry_height) && negb (is_expired slot)
          then Some slot_index else None) (enumerate (tl_slots t))).

Definition get_all_expired_slot_indexes (t : TermLedger) (epoch_height : Z) (cascade : bool)
    (total_chunks chunks_per_slot : Z) : result E (list nat) :=
  min_blocks ← expect (checked_mul 64 (epoch_length t) (tl_num_blocks_in_epoch t));
  if epoch_height <? min_blocks then Ok []
  else
    let expiry_height := epoch_height - min_blocks in
    let last_slot_index := (length (tl_slots t) - 1)%nat in
    let fully_written_slots := fully_written_slot_count total_chunks chunks_per_slot in
    Ok (omap (fun '(slot_index, slot) =>
          if is_expired slot then Some slot_index
          else if negb (slot_index =? last_slot_index)%nat &&
                  cascade_expiry_gate cascade slot slot_index fully_written_slots &&
                  (last_height slot <=? expiry_height)
          then Some slot_index else None) (enumerate (tl_slots t))).

(** [slots[i]] as a place; out of range panics. *)
Definition alter_slot (i : nat) (f : LedgerSlot → LedgerSlot) (slots : list LedgerSlot)
  : result E (list LedgerSlot) :=
  match slots !! i with
  | Some s => Ok (<[i := f s]> slots)
  | None => Panic
  end.

Fixpoint mark_expired (idxs : list nat) (slots : list LedgerSlot) : result E (list LedgerSlot) :=
  match idxs with
  | [] => Ok slots
  | i :: idxs' => slots' ← alter_slot i set_expired slots; mark_expired idxs' slots'
  end.

Definition expire_old_slots (t : TermLedger) (epoch_height : Z) (cascade : bool)
    (total_chunks chunks_per_slot : Z) : result E (TermLedger * list nat) :=
  idxs ← get_expired_slot_indexes t epoch_height cascade total_chunks chunks_per_slot;
  slots ← mark_expired idxs (tl_slots t);
  Ok (with_slots t slots, idxs).

Definition get_perm_expiring_slots (L : Ledgers) (epoch_height : Z) (cascade : bool)
    (total_chunks chunks_per_slot : Z) : result E (list (nat * list Z)) :=
  match publish_ledger_epoch_length L with
  | None => Ok []
  | Some epoch_length =>
      min_blocks ← expect (checked_mul 64 epoch_length (num_blocks_in_epoch L));
      if epoch_height <? min_blocks then Ok []
      else
        let expiry_height := epoch_height - min_blocks in
        let num_slots := length (perm_slots (perm L)) in
        let last_slot_index := (num_slots - 1)%nat in
        let fully_written_slots := fully_written_slot_count total_chunks chunks_per_slot in
        Ok (omap (fun '(slot_index, slot) =>
              if (0 <? num_slots)%nat && (slot_index =? last_slot_index)%nat then None
              else if cascade_expiry_gate cascade slot slot_index fully_written_slots &&
                      (last_height slot <=? expiry_height) && negb (is_expired slot)
              then Some (slot_index, partitions slot) else None) (enumerate (perm_slots (perm L))))
  end.

Definition slot_infos (ledger : DataLedger) (slot_index : nat) (hashes : list Z) : list ExpiringPartitionInfo :=
  (fun h => mkExpiringPartitionInfo h ledger slot_index) <$> hashes.

(** The term part of [expire_partitions], ledger by ledger. *)
Fixpoint expire_terms (epoch_height : Z) (cascade : bool) (total_chunks : DataLedger → Z)
    (chunks_per_slot : Z) (ts : list TermLedger) : result E (list TermLedger * list ExpiringPartitionInfo) :=
  match ts with
  | [] => Ok ([], [])
  | t :: ts' =>
      r ← expire_old_slots t epoch_height cascade (total_chunks (tl_ledger t)) chunks_per_slot;
      let infos :=
        r.2 ≫= (fun i => slot_infos (tl_ledger t) i (from_option partitions [] (tl_slots r.1 !! i))) in
      rest ← expire_terms epoch_height cascade total_chunks chunks_per_slot ts';
      Ok (r.1 :: rest.1, infos ++ rest.2)
  end.

Definition expire_partitions (L : Ledgers) (epoch_height : Z) (cascade : bool)
    (total_chunks : DataLedger → Z) (chunks_per_slot : Z) : result E (Ledgers * list ExpiringPartitionInfo) :=
  expiring ← get_perm_expiring_slots L epoch_height cascade (total_chunks Publish) chunks_per_slot;
  slots ← mark_expired (fst <$> expiring) (perm_slots (perm L));
  let infos := expiring ≫= (fun '(i, hashes) => slot_infos Publish i hashes) in
  r ← expire_terms epoch_height cascade total_chunks chunks_per_slot (term L);
  Ok (mkLedgers (mkPermanentLedger slots (perm_num_partitions_per_slot (perm L))) r.1
        (publish_ledger_epoch_length L) (num_blocks_in_epoch L), infos ++ r.2).

Fixpoint expiring_terms (epoch_height : Z) (cascade : bool) (total_chunks : DataLedger → Z)
    (chunks_per_slot : Z) (ts : list TermLedger) : result E (list (DataLedger * nat * list Z)) :=
  match ts with
  | [] => Ok []
  | t :: ts' =>
      idxs ← get_expired_slot_indexes t epoch_height cascade (total_chunks (tl_ledger t)) chunks_per_slot;
      rest ← expiring_terms epoch_height cascade total_chunks chunks_per_slot ts';
      Ok (((fun i => (tl_ledger t, i, from_option partitions [] (tl_slots t !! i))) <$> idxs) ++ rest)
  end.

Definition get_expiring_slots (L : Ledgers) (epoch_height : Z) (cascade : bool)
    (total_chunks : DataLedger → Z) (chunks_per_slot : Z) : result E (list (DataLedger * nat * list Z)) :=
  expiring ← get_perm_expiring_slots L epoch_height cascade (total_chunks Publish) chunks_per_slot;
  rest ← expiring_terms epoch_height cascade total_chunks chunks_per_slot (term L);
  Ok (((fun '(i, hashes) => (Publish, i, hashes)) <$> expiring) ++ rest).

(** ** Access by ledger; a term ledger that does not exist panics *)

Definition get_term_ledger (L : Ledgers) (ledger : DataLedger) : result E TermLedger :=
  expect (List.find (fun t => bool_decide (tl_ledger t = ledger)) (term L)).

Definition get_slots (L : Ledgers) (ledger : DataLedger) : result E (list LedgerSlot) :=
  match ledger with
  | Publish => Ok (perm_slots (perm L))
  | _ => t ← get_term_ledger L ledger; Ok (tl_slots t)
  end.

Fixpoint update_term (ledger : DataLedger) (f : list LedgerSlot → result E (list LedgerSlot))
    (ts : list TermLedger) : result E (list TermLedger) :=
  match ts with
  | [] => Panic
  | t :: ts' =>
      if decide (tl_ledger t = ledger) then slots ← f (tl_slots t); Ok (with_slots t slots :: ts')
      else rest ← update_term ledger f ts'; Ok (t :: rest)
  end.

(** [slots_mut]: a change of the slots of one ledger. *)
Definition slots_mut (L : Ledgers) (ledger : DataLedger) (f : list LedgerSlot → result E (list LedgerSlot))
  : result E Ledgers :=
  match ledger with
  | Publish =>
      slots ← f (perm_slots (perm L));
      Ok (mkLedgers (mkPermanentLedger slots (perm_num_partitions_per_slot (perm L))) (term L)
            (publish_ledger_epoch_length L) (num_blocks_in_epoch L))
  | _ =>
      ts ← update_term ledger f (term L);
      Ok (mkLedgers (perm L) ts (publish_ledger_epoch_length L) (num_blocks_in_epoch L))
  end.

Definition partitions_per_slot (L : Ledgers) (ledger : DataLedger) : result E Z :=
  match ledger with
  | Publish => Ok (perm_num_partitions_per_slot (perm L))
  | _ => t ← get_term_ledger L ledger; Ok (tl_num_partitions_per_slot t)
  end.

(** [slot_count], [allocate_slots] and [get_slot_needs] of [LedgerCore]. *)
Definition slot_count (L : Ledgers) (ledger : DataLedger) : result E Z :=
  slots ← get_slots L ledger; Ok (Z.of_nat (length slots)).

Definition new_slot (height : Z) : LedgerSlot := mkLedgerSlot [] false false height.

Definition allocate_slots (L : Ledgers) (ledger : DataLedger) (slots height : Z) : result E (Ledgers * Z) :=
  n ← partitions_per_slot L ledger;
  num_partitions_added ← expect (checked_mul 64 slots n);
  L' ← slots_mut L ledger (fun old => Ok (old ++ replicate (Z.to_nat slots) (new_slot height)));
  Ok (L', num_partitions_added).

(** One entry per slot that lacks partitions; a slot with too many panics. *)
Fixpoint slot_needs_from (n : Z) (i : nat) (slots : list LedgerSlot) : result E (list (nat * nat)) :=
  match slots with
  | [] => Ok []
  | slot :: slots' =>
      needed ← expect (checked_sub n (Z.of_nat (length (partitions slot))));
      rest ← slot_needs_from n (S i) slots';
      Ok (if (0 <? needed) && negb (is_expired slot) then (i, Z.to_nat needed) :: rest else rest)
  end.

Definition get_slot_needs (L : Ledgers) (ledger : DataLedger) : result E (list (nat * nat)) :=
  n ← partitions_per_slot L ledger;
  slots ← get_slots L ledger;
  slot_needs_from n 0 slots.

Definition push_partition_to_slot (L : Ledgers) (ledger : DataLedger) (slot_index : nat) (h : Z)
  : result E Ledgers :=
  slots_mut L ledger (alter_slot slot_index (fun s => set_partitions s (partitions s ++ [h]))).

Definition remove_partition_from_slot (L : Ledgers) (ledger : DataLedger) (slot_index : nat) (h : Z)
  : result E Ledgers :=
  slots_mut L ledger (alter_slot slot_index (fun s => set_partitions s (filter (fun p => p ≠ h) (partitions s)))).

(** ** Writes *)

Definition touch_slot (height : Z) (refresh_last_height : bool) (s : LedgerSlot) : LedgerSlot :=
  mkLedgerSlot (partitions s) (is_expired s) true
    (if refresh_last_height && negb (is_expired s) then height else last_height s).

Definition touch_filled_slots (L : Ledgers) (ledger : DataLedger)
    (prev_total_chunks new_total_chunks chunks_per_slot height : Z) (refresh_last_height : bool)
  : result E Ledgers :=
  if (new_total_chunks <=? prev_total_chunks) || (chunks_per_slot =? 0) then Ok L
  else
    let first := prev_total_chunks / chunks_per_slot in
    let last := (new_total_chunks - 1) / chunks_per_slot in
    slots_mut L ledger (fun slots =>
      if Z.of_nat (length slots) <=? first then Ok slots
      else
        let last := Z.min last (Z.of_nat (length slots) - 1) in
        Ok (imap (fun i s =>
              if (first <=? Z.of_nat i) && (Z.of_nat i <=? last)
              then touch_slot height refresh_last_height s else s) slots)).

(** ** Queries *)

Record LedgerMeta : Type := mkLedgerMeta {
  lm_ledger : DataLedger;
  lm_epoch_length : option Z;
  lm_num_slots : nat;
  lm_num_partitions_per_slot : Z
}.

Definition ledger_meta_for (L : Ledgers) (ledger : DataLedger) : option LedgerMeta :=
  if decide (ledger = Publish)
  then Some (mkLedgerMeta Publish (publish_ledger_epoch_length L) (length (perm_slots (perm L)))
               (perm_num_partitions_per_slot (perm L)))
  else
    (fun t => mkLedgerMeta (tl_ledger t) (Some (epoch_length t)) (length (tl_slots t))
                (tl_num_partitions_per_slot t)) <$>
    List.find (fun t => bool_decide (tl_ledger t = ledger)) (term L).

Definition ledger_meta (L : Ledgers) : list LedgerMeta := omap (ledger_meta_for L) (active_ledgers L).

Definition expiry_frontier_for (L : Ledgers) (ledger : DataLedger) : result E nat :=
  slots ← get_slots L ledger;
  Ok (default 0%nat (fst <$> list_find (fun s => is_expired s = false) slots)).
End DataLedger.

(** * The slots of a ledger as one list, and what the operations on ledgers do to it.

    [ledger_slots] reads the slots of a ledger wherever they are stored and [shape] is
    everything else; every operation is characterised by its effect on the two.  The scans for
    expiring slots of permanent and of term ledgers are one scan, [expiring_indexes]. *)

Definition find_term (L : Ledgers) (ledger : DataLedger) : option TermLedger :=
  List.find (fun t => bool_decide (tl_ledger t = ledger)) (term L).

Definition ledger_slots (L : Ledgers) (ledger : DataLedger) : list LedgerSlot :=
  match ledger with
  | Publish => perm_slots (perm L)
  | _ => from_option tl_slots [] (find_term L ledger)
  end.

Definition term_shape (t : TermLedger) : DataLedger * Z * Z * Z :=
  (tl_ledger t, epoch_length t, tl_num_blocks_in_epoch t, tl_num_partitions_per_slot t).

Definition shape (L : Ledgers) : Z * option Z * Z * list (DataLedger * Z * Z * Z) :=
  (perm_num_partitions_per_slot (perm L), publish_ledger_epoch_length L, num_blocks_in_epoch L,
   term_shape <$> term L).

Lemma active_ledgers_shape L L' : shape L = shape L' → active_ledgers L = active_ledgers L'.
Proof.
  unfold shape, active_ledgers. intros [= _ _ _ Ht]. f_equal.
  apply (f_equal (fmap (λ x, x.1.1.1))) in Ht. by rewrite <- !list_fmap_compose in Ht.
Qed.

Lemma find_term_active L ledger :
  ledger ≠ Publish → ledger ∈ active_ledgers L → ∃ t, find_term L ledger = Some t ∧ tl_ledger t = ledger.
Proof.
  intros Hne [?|Hin]%elem_of_cons; [done|]. unfold find_term.
  induction (term L) as [|t ts IH]; [by apply elem_of_nil in Hin|]. cbn [List.find].
  destruct (bool_decide_reflect (tl_ledger t = ledger)) as [Heq|Hne']; [eauto|].
  apply IH. cbn in Hin. apply elem_of_cons in Hin as [->|Hin]; done.
Qed.

Section Access.
  Context {E : Type}.
  Implicit Types (L : Ledgers) (ledger : DataLedger).

Lemma get_slots_active L ledger :
  ledger ∈ active_ledgers L → get_slots (E:=E) L ledger = Ok (ledger_slots L ledger).
Proof.
  intros Hin. destruct (decide (ledger = Publish)) as [->|Hne]; [done|].
  destruct (find_term_active _ _ Hne Hin) as (t & Ht & _).
  unfold get_slots, ledger_slots, get_term_ledger. fold (find_term L ledger).
  rewrite Ht. by destruct ledger.
Qed.

Fixpoint put_term (ledger : DataLedger) (slots : list LedgerSlot) (ts : list TermLedger) : list TermLedger :=
  match ts with
  | [] => []
  | t :: ts' => if decide (tl_ledger t = ledger) then with_slots t slots :: ts' else t :: put_term ledger slots ts'
  end.

(** The ledgers with the slots of one ledger replaced. *)
Definition put_slots (L : Ledgers) (ledger : DataLedger) (slots : list LedgerSlot) : Ledgers :=
  match ledger with
  | Publish => mkLedgers (mkPermanentLedger slots (perm_num_partitions_per_slot (perm L))) (term L)
                 (publish_ledger_epoch_length L) (num_blocks_in_epoch L)
  | _ => mkLedgers (perm L) (put_term ledger slots (term L)) (publish_ledger_epoch_length L) (num_blocks_in_epoch L)
  end.

Lemma put_term_shape ledger slots ts : term_shape <$> put_term ledger slots ts = term_shape <$> ts.
Proof. induction ts as [|t ts IH]; [done|]. cbn. destruct (decide _); cbn; [done|by f_equal]. Qed.

Lemma put_slots_shape L ledger slots : shape (put_slots L ledger slots) = shape L.
Proof. unfold shape. by destruct ledger; cbn; rewrite ?put_term_shape. Qed.

Lemma find_put_term l ledger slots ts :
  ledger ∈ tl_ledger <$> ts →
  from_option tl_slots [] (List.find (fun t => bool_decide (tl_ledger t = l)) (put_term ledger slots ts)) =
  if decide (l = ledger) then slots
  else from_option tl_slots [] (List.find (fun t => bool_decide (tl_ledger t = l)) ts).
Proof.
  induction ts as [|t ts IH]; cbn; intros Hin; [by apply elem_of_nil in Hin|].
  destruct (decide (tl_ledger t = ledger)) as [Heq|Hne].
  - cbn [List.find with_slots tl_ledger tl_slots]. rewrite Heq.
    destruct (decide (l = ledger)) as [->|Hl]; [by rewrite bool_decide_true|].
    by rewrite bool_decide_false by congruence.
  - apply elem_of_cons in Hin as [->|Hin]; [done|]. cbn [List.find].
    destruct (bool_decide_reflect (tl_ledger t = l)) as [<-|]; [by rewrite decide_False|]. by apply IH.
Qed.

Lemma ledger_slots_put L ledger slots l :
  ledger ∈ active_ledgers L →
  ledger_slots (put_slots L ledger slots) l = if decide (l = ledger) then slots else ledger_slots L l.
Proof.
  intros Hin. destruct (decide (ledger = Publish)) as [->|Hne]; [by destruct l|].
  apply elem_of_cons in Hin as [?|Hin]; [done|].
  pose proof (find_put_term l ledger slots (term L) Hin) as Hf. unfold ledger_slots, find_term.
  destruct l; [by rewrite decide_False; destruct ledger|..]; rewrite <- Hf; by destruct ledger.
Qed.

Lemma update_term_eq ledger (f : list LedgerSlot → result E (list LedgerSlot)) ts :
  update_term ledger f ts =
  match List.find (fun t => bool_decide (tl_ledger t = ledger)) ts with
  | Some t => (fun slots => put_term ledger slots ts) <$> f (tl_slots t)
  | None => Panic
  end.
Proof.
  induction ts as [|t ts IH]; [done|]. cbn [update_term List.find put_term].
  destruct (decide (tl_ledger t = ledger)) as [Heq|Hne].
  - rewrite bool_decide_true by done. by destruct (f _).
  - rewrite bool_decide_false, IH by done. destruct (List.find _ _) as [t'|]; [|done]. by destruct (f _).
Qed.

Lemma slots_mut_eq L ledger (f : list LedgerSlot → result E (list LedgerSlot)) :
  ledger ∈ active_ledgers L → slots_mut L ledger f = put_slots L ledger <$> f (ledger_slots L ledger).
Proof.
  intros Hin. destruct (decide (ledger = Publish)) as [->|Hne]; [cbn; by destruct (f _)|].
  destruct (find_term_active _ _ Hne Hin) as (t & Ht & _).
  assert (Hs : ledger_slots L ledger = tl_slots t) by (unfold ledger_slots; rewrite Ht; by destruct ledger).
  rewrite Hs. unfold slots_mut. rewrite update_term_eq. fold (find_term L ledger). rewrite Ht.
  destruct ledger; [done|..]; by destruct (f _).
Qed.

Lemma slots_mut_inactive L ledger (f : list LedgerSlot → result E (list LedgerSlot)) :
  ledger ∉ active_ledgers L → slots_mut L ledger f = Panic.
Proof.
  intros [Hne Hout]%not_elem_of_cons. unfold slots_mut. rewrite update_term_eq.
  assert (List.find (fun t => bool_decide (tl_ledger t = ledger)) (term L) = None) as ->; [|by destruct ledger].
  induction (term L) as [|t ts IH]; [done|]. cbn in Hout |- *. apply not_elem_of_cons in Hout as [? Hout].
  rewrite bool_decide_false by done. by apply IH.
Qed.

Lemma slots_mut_Ok L L' ledger (f : list LedgerSlot → result E (list LedgerSlot)) :
  slots_mut L ledger f = Ok L' →
  ledger ∈ active_ledgers L ∧ ∃ slots, f (ledger_slots L ledger) = Ok slots ∧ L' = put_slots L ledger slots.
Proof.
  intros H. destruct (decide (ledger ∈ active_ledgers L)) as [Hin|Hout];
    [|by rewrite slots_mut_inactive in H]. split; [done|].
  rewrite slots_mut_eq in H by done. destruct (f _) as [slots| |]; [|done..]. injection H as <-. eauto.
Qed.
End Access.

(** ** Index scans *)

Lemma omap_enumerate {A} (f : nat → A → bool) (l : list A) :
  omap (fun '(i, x) => if f i x then Some i else None) (enumerate l) =
  List.filter (fun i => from_option (f i) false (l !! i)) (seq 0 (length l)).
Proof.
  unfold enumerate.
  enough (∀ k, omap (fun '(i, x) => if f i x then Some i else None) (zip (seq k (length l)) l) =
               List.filter (fun i => from_option (f i) false (l !! (i - k)%nat)) (seq k (length l))) as H.
  { rewrite H. apply List.filter_ext. intros i. by rewrite Nat.sub_0_r. }
  induction l as [|x l IH]; intros k; [done|]. cbn [length seq zip zip_with omap list_omap List.filter].
  rewrite Nat.sub_diag. cbn [lookup list_lookup from_option].
  replace (List.filter _ (seq (S k) (length l)))
    with (List.filter (fun i => from_option (f i) false (l !! (i - S k)%nat)) (seq (S k) (length l))).
  { rewrite <- IH. by destruct (f k x). }
  apply List.filter_ext_in. intros i [Hi _]%in_seq. by replace (i - k)%nat with (S (i - S k)) by lia.
Qed.

(** ** Expiry *)

Definition slot_expires (cascade : bool) (total_chunks chunks_per_slot expiry_height : Z) (num_slots i : nat)
    (slot : LedgerSlot) : bool :=
  negb (i =? num_slots - 1)%nat &&
  cascade_expiry_gate cascade slot i (fully_written_slot_count total_chunks chunks_per_slot) &&
  (last_height slot <=? expiry_height) && negb (is_expired slot).

Definition expiring_indexes (slots : list LedgerSlot) (lifetime epoch_height : Z) (cascade : bool)
    (total_chunks chunks_per_slot : Z) : list nat :=
  if epoch_height <? lifetime then []
  else List.filter (fun i =>
         from_option (slot_expires cascade total_chunks chunks_per_slot (epoch_height - lifetime) (length slots) i)
           false (slots !! i)) (seq 0 (length slots)).

(** Blocks a slot of the ledger lives after it was last written; [None] never expires. *)
Definition lifetime (L : Ledgers) (ledger : DataLedger) : option Z :=
  match ledger with
  | Publish => (fun e => e * num_blocks_in_epoch L) <$> publish_ledger_epoch_length L
  | _ => (fun t => epoch_length t * tl_num_blocks_in_epoch t) <$> find_term L ledger
  end.

Definition expiring (L : Ledgers) (epoch_height : Z) (cascade : bool) (total_chunks chunks_per_slot : Z)
    (ledger : DataLedger) : list nat :=
  match lifetime L ledger with
  | Some m => expiring_indexes (ledger_slots L ledger) m epoch_height cascade total_chunks chunks_per_slot
  | None => []
  end.

Definition slot_partitions (L : Ledgers) (ledger : DataLedger) (i : nat) : list Z :=
  from_option partitions [] (ledger_slots L ledger !! i).

(** The slots after the ones of a list of indexes have expired. *)
Definition expire_at (idxs : list nat) (slots : list LedgerSlot) : list LedgerSlot :=
  imap (fun i s => if bool_decide (i ∈ idxs) then set_expired s else s) slots.

Lemma lookup_expire_at idxs slots i :
  expire_at idxs slots !! i = (fun s => if bool_decide (i ∈ idxs) then set_expired s else s) <$> slots !! i.
Proof. apply list_lookup_imap. Qed.

Lemma length_expire_at idxs slots : length (expire_at idxs slots) = length slots.
Proof. apply length_imap. Qed.

Lemma expiring_indexes_lt slots m h cascade total cps i :
  i ∈ expiring_indexes slots m h cascade total cps → (i < length slots)%nat.
Proof. unfold expiring_indexes. case_match; [by intros ?%elem_of_nil|]. intros [? _]%filter_seq_In. done. Qed.

Section Expiry.
  Context {E : Type}.

Lemma get_expired_slot_indexes_eq t h cascade total cps :
  epoch_length t * tl_num_blocks_in_epoch t < 2 ^ 64 →
  get_expired_slot_indexes (E:=E) t h cascade total cps =
  Ok (expiring_indexes (tl_slots t) (epoch_length t * tl_num_blocks_in_epoch t) h cascade total cps).
Proof.
  intros Hfit. unfold get_expired_slot_indexes, expiring_indexes, checked_mul.
  rewrite (proj2 (Z.ltb_lt _ _) Hfit). cbn [mbind result_bind expect]. case_match; [done|]. f_equal.
  rewrite <- omap_enumerate. apply omap_ext_all. intros [i s]. unfold slot_expires. by case_match.
Qed.

Lemma get_perm_expiring_slots_eq L h cascade total cps :
  (∀ m, lifetime L Publish = Some m → m < 2 ^ 64) →
  get_perm_expiring_slots (E:=E) L h cascade total cps =
  Ok ((fun i => (i, slot_partitions L Publish i)) <$> expiring L h cascade total cps Publish).
Proof.
  intros Hfit. unfold get_perm_expiring_slots, expiring. cbn [lifetime] in *.
  destruct (publish_ledger_epoch_length L) as [e|]; [|done]. cbn [fmap option_fmap option_map] in *.
  specialize (Hfit _ eq_refl). unfold checked_mul. rewrite (proj2 (Z.ltb_lt _ _) Hfit).
  cbn [mbind result_bind expect]. unfold expiring_indexes. case_match; [done|]. f_equal.
  rewrite <- omap_enumerate, list_fmap_omap. cbn [ledger_slots].
  apply list_omap_ext, Forall_Forall2_diag, Forall_lookup_2. intros k [i s] Hk.
  assert (perm_slots (perm L) !! i = Some s) as Hs.
  { unfold enumerate in Hk. apply lookup_zip_with_Some in Hk as (? & ? & [= <- <-] & Hi & Hs).
    apply lookup_seq in Hi as [-> _]. done. }
  pose proof (lookup_lt_Some _ _ _ Hs) as Hlt. unfold compose, slot_expires, slot_partitions. cbn [ledger_slots].
  rewrite (proj2 (Nat.ltb_lt _ _)) by lia. cbn [andb].
  destruct (i =? _)%nat; [done|]. cbn [negb andb]. destruct (_ && _ && _); [|done]. cbn. by rewrite Hs.
Qed.

Lemma mark_expired_eq idxs slots :
  Forall (λ i, (i < length slots)%nat) idxs → mark_expired (E:=E) idxs slots = Ok (expire_at idxs slots).
Proof.
  intros Hall. revert slots Hall. induction idxs as [|i idxs IH]; intros slots Hall; cbn [mark_expired].
  - f_equal. apply list_eq. intros k. rewrite lookup_expire_at. by destruct (slots !! k).
  - apply Forall_cons in Hall as [Hi Hall]. unfold alter_slot.
    destruct (lookup_lt_is_Some_2 _ _ Hi) as [s Hs]. rewrite Hs. cbn [mbind result_bind].
    rewrite IH by (by rewrite length_insert). f_equal. apply list_eq. intros k. rewrite !lookup_expire_at.
    destruct (decide (k = i)) as [->|Hne].
    + rewrite list_lookup_insert_eq, Hs by done. cbn. rewrite (bool_decide_true (i ∈ i :: idxs)) by left.
      by case_bool_decide.
    + rewrite list_lookup_insert_ne by done. destruct (slots !! k); [cbn|done].
      by rewrite (bool_decide_ext (k ∈ i :: idxs) (k ∈ idxs)) by set_solver.
Qed.
End Expiry.

(** ** Expiry of all ledgers *)

Definition lifetimes_fit (L : Ledgers) : Prop := ∀ ledger m, lifetime L ledger = Some m → m < 2 ^ 64.

Definition term_lifetime (t : TermLedger) : Z := epoch_length t * tl_num_blocks_in_epoch t.

Lemma find_fmap {A B} (g : A → B) (f : B → bool) (l : list A) :
  List.find f (g <$> l) = g <$> List.find (λ x, f (g x)) l.
Proof. induction l as [|x l IH]; [done|]. cbn. by destruct (f (g x)). Qed.

Lemma lifetime_shape L L' ledger : shape L = shape L' → lifetime L ledger = lifetime L' ledger.
Proof.
  unfold shape, lifetime, find_term. intros [= _ H1 H2 H3].
  apply (f_equal (λ l, (λ x : DataLedger * Z * Z * Z, x.1.1.2 * x.1.2) <$>
           List.find (λ x : DataLedger * Z * Z * Z, bool_decide (x.1.1.1 = ledger)) l)) in H3.
  rewrite !find_fmap, <- !option_fmap_compose in H3.
  destruct ledger; [by rewrite H1, H2|exact H3..].
Qed.

Lemma find_term_In L t :
  NoDup (active_ledgers L) → t ∈ term L → find_term L (tl_ledger t) = Some t ∧ tl_ledger t ≠ Publish.
Proof.
  unfold active_ledgers. intros [Hpub Hnd]%NoDup_cons Hin. split.
  2: { intros Heq. apply Hpub. rewrite <- Heq. by apply list_elem_of_fmap_2. }
  unfold find_term. induction (term L) as [|t0 ts IH]; [by apply elem_of_nil in Hin|]. cbn [List.find].
  cbn in Hnd, Hpub. apply NoDup_cons in Hnd as [Hnot Hnd]. apply elem_of_cons in Hin as [->|Hin].
  - by rewrite bool_decide_true.
  - rewrite bool_decide_false; [apply IH; set_solver|]. intros Heq. apply Hnot. rewrite Heq.
    by apply list_elem_of_fmap_2.
Qed.

Lemma term_view L t :
  NoDup (active_ledgers L) → t ∈ term L →
  ledger_slots L (tl_ledger t) = tl_slots t ∧ lifetime L (tl_ledger t) = Some (term_lifetime t).
Proof.
  intros Hnd Hin. destruct (find_term_In L t Hnd Hin) as [Hf Hne]. unfold ledger_slots, lifetime.
  rewrite Hf. by destruct (tl_ledger t).
Qed.

Section ExpireAll.
  Context {E : Type} (h : Z) (cascade : bool) (tot : DataLedger → Z) (cps : Z).

Definition term_expiring (t : TermLedger) : list nat :=
  expiring_indexes (tl_slots t) (term_lifetime t) h cascade (tot (tl_ledger t)) cps.

Lemma expire_terms_eq ts :
  Forall (λ t, term_lifetime t < 2 ^ 64) ts →
  expire_terms (E:=E) h cascade tot cps ts =
  Ok ((λ t, with_slots t (expire_at (term_expiring t) (tl_slots t))) <$> ts,
      ts ≫= λ t, term_expiring t ≫= λ i,
        slot_infos (tl_ledger t) i (from_option partitions [] (tl_slots t !! i))).
Proof.
  induction 1 as [|t ts Ht _ IH]; [done|]. cbn [expire_terms]. unfold expire_old_slots.
  rewrite get_expired_slot_indexes_eq by done. cbn [mbind result_bind]. fold (term_lifetime t) (term_expiring t).
  rewrite mark_expired_eq.
  2: { apply Forall_forall. intros i Hi. by apply expiring_indexes_lt in Hi. }
  cbn [mbind result_bind]. rewrite IH. cbn [mbind result_bind fst snd with_slots tl_slots]. f_equal. f_equal.
  cbn [mbind list_bind]. f_equal. apply list_bind_ext_in. intros i _. f_equal. rewrite lookup_expire_at.
  destruct (tl_slots t !! i); [|done]. cbn. by case_bool_decide.
Qed.

Lemma expiring_terms_eq ts :
  Forall (λ t, term_lifetime t < 2 ^ 64) ts →
  expiring_terms (E:=E) h cascade tot cps ts =
  Ok (ts ≫= λ t, (λ i, (tl_ledger t, i, from_option partitions [] (tl_slots t !! i))) <$> term_expiring t).
Proof.
  induction 1 as [|t ts Ht _ IH]; [done|]. cbn [expiring_terms].
  rewrite get_expired_slot_indexes_eq by done. cbn [mbind result_bind]. by rewrite IH.
Qed.

Context (L : Ledgers) (Hnd : NoDup (active_ledgers L)) (Hfit : lifetimes_fit L).

Lemma terms_fit : Forall (λ t, term_lifetime t < 2 ^ 64) (term L).
Proof. apply Forall_forall. intros t Ht. by apply (Hfit (tl_ledger t)), term_view. Qed.

Lemma term_expiring_eq t : t ∈ term L → term_expiring t = expiring L h cascade (tot (tl_ledger t)) cps (tl_ledger t).
Proof. intros Ht. destruct (term_view L t Hnd Ht) as [Hs Hl]. unfold expiring. by rewrite Hl, Hs. Qed.

(** The slots that expire, by ledger. *)
Lemma get_expiring_slots_eq :
  get_expiring_slots (E:=E) L h cascade tot cps =
  Ok (active_ledgers L ≫= λ l, (λ i, (l, i, slot_partitions L l i)) <$> expiring L h cascade (tot l) cps l).
Proof.
  unfold get_expiring_slots. rewrite get_perm_expiring_slots_eq by (intros m; apply Hfit).
  cbn [mbind result_bind]. rewrite expiring_terms_eq by apply terms_fit. cbn [mbind result_bind]. f_equal.
  unfold active_ledgers. cbn [mbind list_bind]. f_equal; [by rewrite <- list_fmap_compose|].
  rewrite list_fmap_bind. apply list_bind_ext_in. intros t Ht.
  unfold compose, slot_partitions. rewrite <- term_expiring_eq by done. by rewrite (proj1 (term_view L t Hnd Ht)).
Qed.

Lemma expire_partitions_eq :
  ∃ L', expire_partitions (E:=E) L h cascade tot cps =
    Ok (L', active_ledgers L ≫= λ l, expiring L h cascade (tot l) cps l ≫= λ i,
              slot_infos l i (slot_partitions L l i)) ∧
    shape L' = shape L ∧
    ∀ l, ledger_slots L' l = expire_at (expiring L h cascade (tot l) cps l) (ledger_slots L l).
Proof.
  unfold expire_partitions. rewrite get_perm_expiring_slots_eq by (intros m; apply Hfit).
  cbn [mbind result_bind]. rewrite <- list_fmap_compose, (list_fmap_ext _ id), list_fmap_id by done.
  rewrite mark_expired_eq.
  2: { apply Forall_forall. unfold expiring. intros i Hi. case_match; [|by apply elem_of_nil in Hi].
       by apply expiring_indexes_lt in Hi. }
  cbn [mbind result_bind]. rewrite expire_terms_eq by apply terms_fit. cbn [mbind result_bind fst snd].
  eexists. split_and!.
  - f_equal. f_equal. unfold active_ledgers. cbn [mbind list_bind]. f_equal; [by rewrite list_fmap_bind|].
    rewrite list_fmap_bind. apply list_bind_ext_in. intros t Ht.
    unfold compose, slot_partitions. rewrite <- term_expiring_eq by done. by rewrite (proj1 (term_view L t Hnd Ht)).
  - unfold shape. cbn. f_equal. by rewrite <- list_fmap_compose.
  - intros l. destruct (decide (l = Publish)) as [->|Hne]; [done|].
    transitivity (from_option tl_slots []
      ((λ t, with_slots t (expire_at (term_expiring t) (tl_slots t))) <$> find_term L l)).
    { unfold ledger_slots, find_term. cbn [term]. rewrite find_fmap. by destruct l. }
    destruct (find_term L l) as [t|] eqn:Ht; cbn.
    + pose proof Ht as [Hin Hl]%find_some. apply bool_decide_eq_true in Hl as <-.
      apply list_elem_of_In in Hin. rewrite <- term_expiring_eq by done.
      by rewrite (proj1 (term_view L t Hnd Hin)).
    + unfold ledger_slots. rewrite Ht. by destruct l.
Qed.
End ExpireAll.
