(* ===== verification/EpochSnapshot.v ===== *)
(** Epoch snapshots: the commitment state, the partition assignments and the ledger slots a
    node recomputes at every epoch block
    ([crates/domain/src/snapshots/epoch_snapshot/]: [epoch_snapshot.rs], [commitment_state.rs],
    [partition_assignments.rs]).

    Hashes, transaction ids and addresses are numbers: the big endian value of their bytes,
    whose order is the order of the code.  A [BTreeMap] is a [gmap], traversed in key order
    where the order matters.  [capacity_target] is the count that [num-bigfloat] evaluates from
    the base count; [None] is a value outside [u64].  Storage modules and the packing files
    are not part of the model. *)

From stdpp Require Export gmap.
From S2P Require Import Prelude SimpleRng TreeHash StateErr DataLedger.

(** ** Transactions and headers *)

Inductive CommitmentTypeV2 : Type :=
| Stake
| Pledge (pledge_count_before_executing : Z)
| Unpledge (pledge_count_before_executing : Z) (partition_hash : Z)
| Unstake
| UpdateRewardAddress (new_reward_address : Z).
#[global] Instance CommitmentTypeV2_eq_dec : EqDecision CommitmentTypeV2.
Proof. solve_decision. Defined.

Record CommitmentTransaction : Type := mkCommitment {
  tx_id : Z;
  tx_signer : Z;
  tx_type : CommitmentTypeV2;
  tx_value : Z;
  user_fee : Z
}.
#[global] Instance CommitmentTransaction_eq_dec : EqDecision CommitmentTransaction.
Proof. solve_decision. Defined.

(** The fields of [IrysBlockHeader] that epochs read.  [eh_data_ledgers] pairs ledger ids with
    cumulative chunk counts, [eh_system_ledgers] ledger ids with transaction ids. *)
Record EpochHeader : Type := mkEpochHeader {
  eh_height : Z;
  eh_timestamp : Z;
  eh_last_epoch_hash : Z;
  eh_data_ledgers : list (Z * Z);
  eh_system_ledgers : list (Z * list Z)
}.

Definition ledger_id (ledger : DataLedger) : Z :=
  match ledger with Publish => 0 | Submit => 1 | OneYear => 10 | ThirtyDay => 20 end.
Definition COMMITMENT_LEDGER : Z := 0.

Definition timestamp_secs (h : EpochHeader) : Z := (eh_timestamp h / 1000) mod 2 ^ 64.
Definition is_genesis (h : EpochHeader) : bool := eh_height h =? 0.

Definition ledger_total_chunks (h : EpochHeader) (ledger : DataLedger) : Z :=
  default 0 (snd <$> List.find (fun dl => dl.1 =? ledger_id ledger) (eh_data_ledgers h)).

Definition cascade_for_block (c : EpochConfig) (timestamp : Z) : bool :=
  match ec_cascade c with Some p => cascade_activation_timestamp p <=? timestamp | None => false end.

(** [delta_for_block], as the number of slots a new ledger is seeded with. *)
Definition delta_for_block (c : EpochConfig) (timestamp : Z) : option Z :=
  match ec_delta c with
  | Some (activation, slots) => if activation <=? timestamp then Some slots else None
  | None => None
  end.

(** [H256::to_u32]: the first four bytes. *)
Definition to_u32 (h : Z) : Z := (h / 2 ^ 224) mod 2 ^ 32.

(** ** State *)

Inductive CommitmentStatus : Type := Pending | Active | Inactive | Slashed.
#[global] Instance CommitmentStatus_eq_dec : EqDecision CommitmentStatus.
Proof. solve_decision. Defined.

Record StakeEntry : Type := mkStakeEntry {
  se_id : Z;
  se_status : CommitmentStatus;
  se_signer : Z;
  se_amount : Z;
  se_reward_address : Z
}.

Record PledgeEntry : Type := mkPledgeEntry {
  pe_id : Z;
  pe_status : CommitmentStatus;
  pe_signer : Z;
  pe_amount : Z;
  pe_partition_hash : option Z
}.

Record PartitionAssignment : Type := mkAssignment {
  pa_partition_hash : Z;
  pa_miner_address : Z;
  pa_ledger_id : option DataLedger;
  pa_slot_index : option nat
}.

Record EpochSnapshot : Type := mkEpochSnapshot {
  ledgers : Ledgers;
  data_partitions : gmap Z PartitionAssignment;
  capacity_partitions : gmap Z PartitionAssignment;
  all_active_partitions : list Z;
  unassigned_partitions : list Z;
  stake_commitments : gmap Z StakeEntry;
  pledge_commitments : gmap Z (list PledgeEntry);
  epoch_block : EpochHeader;
  previous_epoch_block : option EpochHeader;
  expired_partition_infos : option (list ExpiringPartitionInfo);
  epoch_height : Z
}.

Definition set_ledgers (L : Ledgers) (s : EpochSnapshot) : EpochSnapshot :=
  mkEpochSnapshot L (data_partitions s) (capacity_partitions s) (all_active_partitions s)
    (unassigned_partitions s) (stake_commitments s) (pledge_commitments s) (epoch_block s)
    (previous_epoch_block s) (expired_partition_infos s) (epoch_height s).
Definition set_assignments (d cap : gmap Z PartitionAssignment) (s : EpochSnapshot) : EpochSnapshot :=
  mkEpochSnapshot (ledgers s) d cap (all_active_partitions s)
    (unassigned_partitions s) (stake_commitments s) (pledge_commitments s) (epoch_block s)
    (previous_epoch_block s) (expired_partition_infos s) (epoch_height s).
Definition set_pool (active unassigned : list Z) (s : EpochSnapshot) : EpochSnapshot :=
  mkEpochSnapshot (ledgers s) (data_partitions s) (capacity_partitions s) active unassigned
    (stake_commitments s) (pledge_commitments s) (epoch_block s)
    (previous_epoch_block s) (expired_partition_infos s) (epoch_height s).
Definition set_stakes (m : gmap Z StakeEntry) (s : EpochSnapshot) : EpochSnapshot :=
  mkEpochSnapshot (ledgers s) (data_partitions s) (capacity_partitions s) (all_active_partitions s)
    (unassigned_partitions s) m (pledge_commitments s) (epoch_block s)
    (previous_epoch_block s) (expired_partition_infos s) (epoch_height s).
Definition set_pledges (m : gmap Z (list PledgeEntry)) (s : EpochSnapshot) : EpochSnapshot :=
  mkEpochSnapshot (ledgers s) (data_partitions s) (capacity_partitions s) (all_active_partitions s)
    (unassigned_partitions s) (stake_commitments s) m (epoch_block s)
    (previous_epoch_block s) (expired_partition_infos s) (epoch_height s).
Definition set_blocks (new : EpochHeader) (prev : option EpochHeader) (s : EpochSnapshot) : EpochSnapshot :=
  mkEpochSnapshot (ledgers s) (data_partitions s) (capacity_partitions s) (all_active_partitions s)
    (unassigned_partitions s) (stake_commitments s) (pledge_commitments s) new prev
    (expired_partition_infos s) (epoch_height s).
Definition set_infos (infos : option (list ExpiringPartitionInfo)) (s : EpochSnapshot) : EpochSnapshot :=
  mkEpochSnapshot (ledgers s) (data_partitions s) (capacity_partitions s) (all_active_partitions s)
    (unassigned_partitions s) (stake_commitments s) (pledge_commitments s) (epoch_block s)
    (previous_epoch_block s) infos (epoch_height s).
Definition set_height (h : Z) (s : EpochSnapshot) : EpochSnapshot :=
  mkEpochSnapshot (ledgers s) (data_partitions s) (capacity_partitions s) (all_active_partitions s)
    (unassigned_partitions s) (stake_commitments s) (pledge_commitments s) (epoch_block s)
    (previous_epoch_block s) (expired_partition_infos s) h.

Inductive InvalidCommitmentsReason : Type :=
| CommitmentCountMismatch (ledger provided : nat)
| MissingCommitment (txid : Z)
| ExtraCommitment (txid : Z)
| NoCommitmentLedger (provided : nat).

Inductive EpochSnapshotError : Type :=
| InternalError
| NotAnEpochBlock
| IncorrectPreviousEpochBlock
| InvalidCommitments (reason : InvalidCommitmentsReason)
| UnpledgeTargetNotFound (partition_hash signer : Z)
| UnpledgeSignerMismatch (partition_hash expected actual : Z)
| UnpledgeTargetInBothMaps (partition_hash : Z)
| UnstakeSignerNotStaked (signer : Z)
| UnstakeHasActivePledges (signer remaining : Z)
| UpdateRewardAddressSignerNotStaked (signer : Z).

Notation ES := (SE EpochSnapshot EpochSnapshotError).

(** ** Sorting; every use has unique keys *)

Definition key_le {A} (key : A → Z) (x y : A) : Prop := key x ≤ key y.
#[global] Instance key_le_dec {A} (key : A → Z) : RelDecision (key_le key).
Proof. intros x y. unfold key_le. apply _. Defined.

Definition sort_by_key {A} (key : A → Z) (l : list A) : list A := merge_sort (key_le key) l.

Definition level_le (x y : Z * PledgeEntry) : Prop :=
  x.1 < y.1 ∨ (x.1 = y.1 ∧ pe_id x.2 ≤ pe_id y.2).
#[global] Instance level_le_dec : RelDecision level_le.
Proof. intros x y. unfold level_le. apply _. Defined.

(** [BTreeMap::values]. *)
Definition btree_values {A} (m : gmap Z A) : list A := snd <$> sort_by_key fst (map_to_list m).

(** ** Queries *)

Definition is_staked (s : EpochSnapshot) (address : Z) : bool :=
  match stake_commitments s !! address with
  | Some e => bool_decide (se_status e = Active)
  | None => false
  end.

(** [PartitionAssignments::get_assignment]. *)
Definition get_assignment (s : EpochSnapshot) (h : Z) : option PartitionAssignment :=
  match data_partitions s !! h with
  | Some a => Some a
  | None => capacity_partitions s !! h
  end.

Definition resolve_reward_address (s : EpochSnapshot) (miner_address : Z) : Z :=
  match stake_commitments s !! miner_address with
  | Some e => se_reward_address e
  | None => miner_address
  end.

Definition get_partition_assignments (s : EpochSnapshot) (miner_address : Z) : list PartitionAssignment :=
  filter (fun a => pa_miner_address a = miner_address) (btree_values (data_partitions s)) ++
  filter (fun a => pa_miner_address a = miner_address) (btree_values (capacity_partitions s)).

Definition get_first_unexpired_slot_index {E} (s : EpochSnapshot) (ledger : DataLedger) : result E nat :=
  slots ← get_slots (ledgers s) ledger;
  Ok (match list_find (fun slot => is_expired slot = false) slots with Some (i, _) => i | None => 0%nat end).

(** ** Validation of the block *)

Definition missing_commitment (tx_ids : list Z) (commitments : list CommitmentTransaction) : option Z :=
  List.find (fun txid => negb (existsb (fun t => tx_id t =? txid) commitments)) tx_ids.

Definition extra_commitment (tx_ids : list Z) (commitments : list CommitmentTransaction) : option CommitmentTransaction :=
  List.find (fun t => negb (bool_decide (tx_id t ∈ tx_ids))) commitments.

Definition validate_commitments (block_header : EpochHeader) (commitments : list CommitmentTransaction)
  : result InvalidCommitmentsReason () :=
  match List.find (fun b => b.1 =? COMMITMENT_LEDGER) (eh_system_ledgers block_header) with
  | Some (_, tx_ids) =>
      _ ← guard_err (negb (length tx_ids =? length commitments)%nat)
            (CommitmentCountMismatch (length tx_ids) (length commitments));
      match missing_commitment tx_ids commitments with
      | Some txid => Err (MissingCommitment txid)
      | None =>
          match extra_commitment tx_ids commitments with
          | Some t => Err (ExtraCommitment (tx_id t))
          | None => Ok ()
          end
      end
  | None => guard_err (negb (bool_decide (commitments = []))) (NoCommitmentLedger (length commitments))
  end.

Section EpochSnapshot.
  Context `{Sha256}.
  Context (c : EpochConfig).
  (** The [num-bigfloat] curve of [get_num_capacity_partitions]. *)
  Context (capacity_target : Z → option Z).

Definition is_epoch_block (block_header : EpochHeader) : result EpochSnapshotError () :=
  guard_err (negb (is_multiple_of (eh_height block_header) (ec_num_blocks_in_epoch c))) NotAnEpochBlock.

(** The check of the previous epoch block in [perform_epoch_tasks]. *)
Definition check_previous (previous : option EpochHeader) (new : EpochHeader) : result EpochSnapshotError () :=
  if eh_height new <=? ec_num_blocks_in_epoch c then Ok ()
  else
    prev ← ok_or previous IncorrectPreviousEpochBlock;
    expected ← expect (checked_add 64 (eh_height prev) (ec_num_blocks_in_epoch c));
    guard_err (negb (expected =? eh_height new)) IncorrectPreviousEpochBlock.

(** A change of the ledgers alone. *)
Definition update_ledgers (f : Ledgers → result EpochSnapshotError Ledgers) : ES () :=
  update (fun s => L ← f (ledgers s); Ok (set_ledgers L s)).

(** ** Commitments *)

Definition stake_entry (t : CommitmentTransaction) : StakeEntry :=
  mkStakeEntry (tx_id t) Active (tx_signer t) (tx_value t) (tx_signer t).
Definition pledge_entry (t : CommitmentTransaction) : PledgeEntry :=
  mkPledgeEntry (tx_id t) Active (tx_signer t) (tx_value t) None.

Definition is_stake (t : CommitmentTransaction) : bool :=
  match tx_type t with Stake => true | _ => false end.
Definition is_pledge (t : CommitmentTransaction) : bool :=
  match tx_type t with Pledge _ => true | _ => false end.

Definition add_stake (t : CommitmentTransaction) : ES () :=
  modify (fun s => set_stakes (<[tx_signer t := stake_entry t]> (stake_commitments s)) s).

Definition add_pledge (t : CommitmentTransaction) : ES () :=
  update (fun s =>
    if is_staked s (tx_signer t) then
      let entries := default [] (pledge_commitments s !! tx_signer t) in
      Ok (set_pledges (<[tx_signer t := entries ++ [pledge_entry t]]> (pledge_commitments s)) s)
    else Panic).

Definition compute_commitment_state (commitments : list CommitmentTransaction) : ES () :=
  _ ← for_each add_stake (List.filter is_stake commitments);
  for_each add_pledge (List.filter is_pledge commitments).

Definition add_to_unassigned_if_absent (h : Z) (s : EpochSnapshot) : EpochSnapshot :=
  if decide (h ∈ unassigned_partitions s) then s
  else set_pool (all_active_partitions s) (unassigned_partitions s ++ [h]) s.

(** Removal of the first entry with a given partition. *)
Fixpoint remove_pledge (h : Z) (entries : list PledgeEntry) : list PledgeEntry :=
  match entries with
  | [] => []
  | e :: entries' => if decide (pe_partition_hash e = Some h) then entries' else e :: remove_pledge h entries'
  end.

Definition drop_pledge (signer h : Z) (s : EpochSnapshot) : EpochSnapshot :=
  set_pledges (alter (remove_pledge h) signer (pledge_commitments s)) s.

(** One [Unpledge] of [apply_unpledges]. *)
Definition apply_unpledge (signer ph : Z) : ES () := fun s =>
  let cap_present := capacity_partitions s !! ph in
  let data_present := data_partitions s !! ph in
  let s := set_assignments (delete ph (data_partitions s)) (delete ph (capacity_partitions s)) s in
  (miner ← match data_present, cap_present with
           | None, None => lift (Err (UnpledgeTargetNotFound ph signer))
           | None, Some a => mret (pa_miner_address a)
           | Some a, None =>
               ledger ← lift (expect (pa_ledger_id a));
               slot_index ← lift (expect (pa_slot_index a));
               _ ← update_ledgers (fun L => remove_partition_from_slot L ledger slot_index ph);
               mret (pa_miner_address a)
           | Some _, Some _ => lift (Err (UnpledgeTargetInBothMaps ph))
           end;
   _ ← lift (guard_err (negb (miner =? signer)) (UnpledgeSignerMismatch ph miner signer));
   _ ← modify (add_to_unassigned_if_absent ph);
   modify (drop_pledge signer ph)) s.

Definition apply_unpledges (commitments : list CommitmentTransaction) : ES () :=
  for_each (fun t => match tx_type t with
                     | Unpledge _ ph => apply_unpledge (tx_signer t) ph
                     | _ => mret ()
                     end) commitments.

Definition apply_unstake (signer : Z) : ES () :=
  update (fun s =>
    let remaining := from_option (fun v => Z.of_nat (length v)) 0 (pledge_commitments s !! signer) in
    _ ← guard_err (0 <? remaining) (UnstakeHasActivePledges signer remaining);
    match stake_commitments s !! signer with
    | Some _ => Ok (set_stakes (delete signer (stake_commitments s)) s)
    | None => Err (UnstakeSignerNotStaked signer)
    end).

Definition apply_unstakes (commitments : list CommitmentTransaction) : ES () :=
  for_each (fun t => match tx_type t with Unstake => apply_unstake (tx_signer t) | _ => mret () end) commitments.

Definition set_reward_address (a : Z) (e : StakeEntry) : StakeEntry :=
  mkStakeEntry (se_id e) (se_status e) (se_signer e) (se_amount e) a.

Definition apply_update_reward_address (signer a : Z) : ES () :=
  update (fun s =>
    match stake_commitments s !! signer with
    | Some e => Ok (set_stakes (<[signer := set_reward_address a e]> (stake_commitments s)) s)
    | None => Err (UpdateRewardAddressSignerNotStaked signer)
    end).

(** A second update by one signer fails an assertion. *)
Fixpoint apply_updates_from (seen_signers : gset Z) (commitments : list CommitmentTransaction) : ES () :=
  match commitments with
  | [] => mret ()
  | t :: rest =>
      match tx_type t with
      | UpdateRewardAddress a =>
          if decide (tx_signer t ∈ seen_signers) then lift Panic
          else _ ← apply_update_reward_address (tx_signer t) a;
               apply_updates_from ({[tx_signer t]} ∪ seen_signers) rest
      | _ => apply_updates_from seen_signers rest
      end
  end.

Definition apply_update_reward_addresses (commitments : list CommitmentTransaction) : ES () :=
  apply_updates_from ∅ commitments.

(** ** Capacity *)

Definition get_num_capacity_partitions (num_data_partitions num_active_ledgers : Z) : result EpochSnapshotError Z :=
  min_count ← expect (checked_mul 64 num_active_ledgers (ec_num_partitions_per_slot c));
  expect (capacity_target (Z.max num_data_partitions min_count)).

Definition next_partition_hash (h : Z) : Z := of_be_bytes (sha256 (be_bytes 32 h)).

(** The [count] hashes after [h] in the hash chain. *)
Fixpoint hash_chain (count : nat) (h : Z) : list Z :=
  match count with
  | O => []
  | S count' => next_partition_hash h :: hash_chain count' (next_partition_hash h)
  end.

Definition add_capacity_partitions (parts_to_add : Z) (s : EpochSnapshot) : EpochSnapshot :=
  let prev_partition_hash := default (eh_last_epoch_hash (epoch_block s)) (last (all_active_partitions s)) in
  let added := hash_chain (Z.to_nat parts_to_add) prev_partition_hash in
  set_pool (all_active_partitions s ++ added) (unassigned_partitions s ++ added) s.

Definition allocate_additional_capacity : ES () :=
  update (fun s =>
    let num_data_partitions := Z.of_nat (size (data_partitions s)) in
    num_capacity_partitions ←
      get_num_capacity_partitions num_data_partitions (Z.of_nat (length (active_ledgers (ledgers s))));
    total_parts ← expect (checked_add 64 num_capacity_partitions num_data_partitions);
    let active := Z.of_nat (length (all_active_partitions s)) in
    Ok (if active <? total_parts then add_capacity_partitions (total_parts - active) s else s)).

(** ** Pledges and partitions *)

Definition held_count (held : gmap Z nat) (signer : Z) : Z := Z.of_nat (default 0%nat (held !! signer)).

(** The level stamps of [water_fill_select]; [next_level] counts the pledges seen per signer. *)
Fixpoint stamp_levels (held next_level : gmap Z nat) (pending : list PledgeEntry) : list (Z * PledgeEntry) :=
  match pending with
  | [] => []
  | p :: rest =>
      let offset := default 0%nat (next_level !! pe_signer p) in
      (held_count held (pe_signer p) + Z.of_nat offset, p) ::
      stamp_levels held (<[pe_signer p := S offset]> next_level) rest
  end.

Definition water_fill_select (pending : list PledgeEntry) (held : gmap Z nat) (available : nat) : list PledgeEntry :=
  let keyed := stamp_levels held ∅ (sort_by_key pe_id pending) in
  let keyed := take available (merge_sort level_le keyed) in
  sort_by_key pe_id (snd <$> keyed).

Definition is_pending (e : PledgeEntry) : bool :=
  bool_decide (pe_status e = Active) && bool_decide (pe_partition_hash e = None).

Definition pending_pledges (s : EpochSnapshot) : list PledgeEntry :=
  List.filter is_pending (concat (btree_values (pledge_commitments s))).

Definition count_miner (counts : gmap Z nat) (a : PartitionAssignment) : gmap Z nat :=
  <[pa_miner_address a := S (default 0%nat (counts !! pa_miner_address a))]> counts.

Definition capacity_held (s : EpochSnapshot) : gmap Z nat :=
  fold_left count_miner (btree_values (capacity_partitions s)) ∅.

Definition set_partition_hash (h : Z) (e : PledgeEntry) : PledgeEntry :=
  mkPledgeEntry (pe_id e) (pe_status e) (pe_signer e) (pe_amount e) (Some h).

(** The first entry with this id gets the partition; [None] when there is none. *)
Fixpoint assign_entry (id h : Z) (entries : list PledgeEntry) : option (list PledgeEntry) :=
  match entries with
  | [] => None
  | e :: rest =>
      if pe_id e =? id then Some (set_partition_hash h e :: rest)
      else (fun r => e :: r) <$> assign_entry id h rest
  end.

Definition capacity_assignment (h miner : Z) : PartitionAssignment := mkAssignment h miner None None.

Definition assign_hash_to_pledge (pledge : PledgeEntry) (h : Z) (s : EpochSnapshot) : EpochSnapshot :=
  match pledge_commitments s !! pe_signer pledge with
  | None => s
  | Some entries =>
      match assign_entry (pe_id pledge) h entries with
      | None => s
      | Some entries' =>
          set_pool (all_active_partitions s) (filter (fun x => x ≠ h) (unassigned_partitions s))
            (set_assignments (data_partitions s)
               (<[h := capacity_assignment h (pe_signer pledge)]> (capacity_partitions s))
               (set_pledges (<[pe_signer pledge := entries']> (pledge_commitments s)) s))
      end
  end.

Fixpoint assign_hashes (pledges : list PledgeEntry) (hashes : list Z) (s : EpochSnapshot) : EpochSnapshot :=
  match pledges, hashes with
  | p :: pledges', h :: hashes' => assign_hashes pledges' hashes' (assign_hash_to_pledge p h s)
  | _, _ => s
  end.

Definition assign_partition_hashes_to_pledges (s : EpochSnapshot) : EpochSnapshot :=
  if bool_decide (unassigned_partitions s = []) then s
  else
    let unassigned_parts := sort_by_key id (unassigned_partitions s) in
    let unassigned_pledges := pending_pledges s in
    if bool_decide (unassigned_pledges = []) then s
    else
      let winners := water_fill_select unassigned_pledges (capacity_held s) (length unassigned_parts) in
      assign_hashes winners unassigned_parts s.

(** ** Ledger slots *)

(** One slot per ledger, and the number of partitions they add. *)
Fixpoint init_slots (ls : list DataLedger) (height : Z) (acc : Z) (L : Ledgers) : result EpochSnapshotError (Ledgers * Z) :=
  match ls with
  | [] => Ok (L, acc)
  | ledger :: ls' =>
      r ← allocate_slots L ledger 1 height;
      acc' ← expect (checked_add 64 acc r.2);
      init_slots ls' height acc' r.1
  end.

Definition try_genesis_init (new : EpochHeader) : ES () := fun s =>
  if bool_decide (all_active_partitions s = []) && is_genesis new then
    let active := active_ledgers (ledgers s) in
    (_ ← update (fun s =>
           r ← init_slots active (eh_height new) 0 (ledgers s);
           projected ← get_num_capacity_partitions r.2 (Z.of_nat (length active));
           let count := Z.max (default projected (ec_num_capacity_partitions c)) projected in
           Ok (add_capacity_partitions count (set_ledgers r.1 s)));
     modify assign_partition_hashes_to_pledges) s
  else (s, Ok ()).

Definition calculate_additional_slots (previous : option EpochHeader) (new : EpochHeader) (ledger : DataLedger)
    (L : Ledgers) : result EpochSnapshotError Z :=
  num_slots ← slot_count L ledger;
  let num_chunks_in_partition := ec_num_chunks_in_partition c in
  max_ledger_capacity ← expect (checked_mul 64 num_slots num_chunks_in_partition);
  let ledger_size := ledger_total_chunks new ledger in
  let add_capacity_threshold := saturating_sub max_ledger_capacity (num_chunks_in_partition / 2) in
  let slots_to_add := if add_capacity_threshold <=? ledger_size then 2 else 0 in
  if ec_num_blocks_in_epoch c <=? eh_height new then
    let previous_ledger_size := from_option (fun prev => ledger_total_chunks prev ledger) 0 previous in
    let data_added := saturating_sub ledger_size previous_ledger_size in
    if num_chunks_in_partition <? data_added then
      if num_chunks_in_partition =? 0 then Panic
      else expect (checked_add 64 slots_to_add (div_ceil data_added num_chunks_in_partition))
    else Ok slots_to_add
  else Ok slots_to_add.

Definition has_ledger (h : EpochHeader) (ledger : DataLedger) : bool :=
  existsb (fun dl => dl.1 =? ledger_id ledger) (eh_data_ledgers h).

(** The body of the loop of [allocate_additional_ledger_slots]. *)
Definition allocate_ledger_slots (previous : option EpochHeader) (new : EpochHeader) (delta : option Z)
    (ledger : DataLedger) (L : Ledgers) : result EpochSnapshotError Ledgers :=
  if has_ledger new ledger then
    part_slots ← calculate_additional_slots previous new ledger L;
    fst <$> allocate_slots L ledger part_slots (eh_height new)
  else
    match delta with
    | Some slots =>
        n ← slot_count L ledger;
        if n =? 0 then fst <$> allocate_slots L ledger slots (eh_height new) else Ok L
    | None => Ok L
    end.

Definition allocate_additional_ledger_slots (previous : option EpochHeader) (new : EpochHeader) (delta : option Z)
  : ES () := fun s =>
  for_each (fun ledger => update_ledgers (allocate_ledger_slots previous new delta ledger))
    (active_ledgers (ledgers s)) s.

Definition touch_active_ledger_slots (previous : option EpochHeader) (new : EpochHeader)
    (refresh_last_height : bool) : ES () := fun s =>
  for_each (fun ledger => update_ledgers (fun L =>
      touch_filled_slots L ledger (from_option (fun b => ledger_total_chunks b ledger) 0 previous)
        (ledger_total_chunks new ledger) (ec_num_chunks_in_partition c) (eh_height new) refresh_last_height))
    (active_ledgers (ledgers s)) s.

Definition return_expired_partition_to_capacity (h : Z) : ES () := fun s =>
  match data_partitions s !! h with
  | None => (s, Ok ())
  | Some a =>
      let s := set_assignments (delete h (data_partitions s)) (capacity_partitions s) s in
      (ledger ← lift (expect (pa_ledger_id a));
       slot_index ← lift (expect (pa_slot_index a));
       let h := pa_partition_hash a in
       _ ← update_ledgers (fun L => remove_partition_from_slot L ledger slot_index h);
       modify (fun s => set_assignments (data_partitions s)
                 (<[h := mkAssignment h (pa_miner_address a) None None]> (capacity_partitions s)) s)) s
  end.

Definition expire_ledger_slots (new : EpochHeader) (cascade : bool) : ES () := fun s =>
  match expire_partitions (ledgers s) (eh_height new) cascade (ledger_total_chunks new)
          (ec_num_chunks_in_partition c) with
  | Err e => (s, Err e)
  | Panic => (s, Panic)
  | Ok (L, infos) =>
      let s := set_ledgers L s in
      if bool_decide (length infos = 0%nat) then (set_infos None s, Ok ())
      else
        (_ ← for_each (fun info => return_expired_partition_to_capacity (ei_partition_hash info)) infos;
         modify (set_infos (Some infos))) s
  end.

Definition assign_partition_to_slot (h : Z) (ledger : DataLedger) (slot_index : nat) (s : EpochSnapshot)
  : EpochSnapshot :=
  match capacity_partitions s !! h with
  | None => s
  | Some a =>
      set_assignments
        (<[h := mkAssignment (pa_partition_hash a) (pa_miner_address a) (Some ledger) (Some slot_index)]>
           (data_partitions s)) (delete h (capacity_partitions s)) s
  end.

(** [Vec::swap_remove]. *)
Definition swap_remove {A} (i : nat) (l : list A) : option (A * list A) :=
  match l !! i, last l with
  | Some x, Some y => Some (x, take (length l - 1) (<[i := y]> l))
  | _, _ => None
  end.

Definition Candidates : Type := list (Z * PartitionAssignment).

(** [rng.next_range(len as u32)]; a zero bound panics. *)
Definition draw (seed : Z) (len : nat) : result EpochSnapshotError (Z * Z) :=
  let max := Z.of_nat len mod 2 ^ 32 in
  if max =? 0 then Panic else expect (next_range seed max).

(** The loop that fills one slot: the remaining capacity partitions and the generator. *)
Fixpoint fill_slot (num_needed : nat) (ledger : DataLedger) (slot_index : nat)
    (view capacity : Candidates) (rng : Z) : ES (Candidates * Z) :=
  match num_needed with
  | O => mret (capacity, rng)
  | S num_needed' =>
      if bool_decide (length view = 0%nat) then mret (capacity, rng)
      else
        r ← lift (draw rng (length view));
        p ← lift (expect (swap_remove (Z.to_nat r.2) view));
        let '(partition_hash, pa) := p.1 in
        _ ← modify (assign_partition_to_slot partition_hash ledger slot_index);
        let view := filter (fun x => pa_miner_address x.2 ≠ pa_miner_address pa) p.2 in
        let capacity := filter (fun x => x.1 ≠ partition_hash) capacity in
        _ ← update_ledgers (fun L => push_partition_to_slot L ledger slot_index partition_hash);
        fill_slot num_needed' ledger slot_index view capacity r.1
  end.

(** The miners of the partitions of a slot. *)
Fixpoint slot_miners (s : EpochSnapshot) (hashes : list Z) : result EpochSnapshotError (list Z) :=
  match hashes with
  | [] => Ok []
  | h :: rest =>
      a ← expect (get_assignment s h);
      r ← slot_miners s rest;
      Ok (pa_miner_address a :: r)
  end.

(** The loop over the slots of one ledger. *)
Fixpoint process_slots (ledger : DataLedger) (slot_needs : list (nat * nat)) (capacity : Candidates) (rng : Z)
  : ES (Candidates * Z) :=
  match slot_needs with
  | [] => mret (capacity, rng)
  | (slot_index, num_needed) :: rest =>
      s ← gets id;
      assigned_addresses ← lift (
        slots ← get_slots (ledgers s) ledger;
        slot ← expect (slots !! slot_index);
        slot_miners s (partitions slot));
      let view := filter (fun x => pa_miner_address x.2 ∉ assigned_addresses) capacity in
      r ← fill_slot num_needed ledger slot_index view capacity rng;
      process_slots ledger rest r.1 r.2
  end.

Definition process_slot_needs (ledger : DataLedger) (capacity : Candidates) (rng : Z) : ES (Candidates * Z) :=
  L ← gets ledgers;
  slot_needs ← lift (get_slot_needs L ledger);
  process_slots ledger slot_needs capacity rng.

Fixpoint backfill_ledgers (ls : list DataLedger) (capacity : Candidates) (rng : Z) : ES () :=
  match ls with
  | [] => mret ()
  | ledger :: ls' =>
      r ← process_slot_needs ledger capacity rng;
      backfill_ledgers ls' r.1 r.2
  end.

Definition backfill_missing_partitions : ES () :=
  s ← gets id;
  let capacity := sort_by_key fst (map_to_list (capacity_partitions s)) in
  let seed := to_u32 (eh_last_epoch_hash (epoch_block s)) in
  backfill_ledgers (active_ledgers (ledgers s)) capacity seed.

(** ** The epoch transition *)

Definition perform_epoch_tasks (previous : option EpochHeader) (new : EpochHeader)
    (commitments : list CommitmentTransaction) : ES () :=
  _ ← lift (is_epoch_block new);
  _ ← modify (set_height (eh_height new));
  _ ← lift (check_previous previous new);
  _ ← lift (map_err InvalidCommitments (validate_commitments new commitments));
  _ ← modify (set_blocks new previous);
  let cascade := cascade_for_block c (timestamp_secs new) in
  _ ← modify (fun s => if cascade then set_ledgers (activate_cascade c (ledgers s)) s else s);
  _ ← compute_commitment_state commitments;
  _ ← try_genesis_init new;
  let delta := delta_for_block c (timestamp_secs new) in
  _ ← allocate_additional_ledger_slots previous new delta;
  _ ← touch_active_ledger_slots previous new cascade;
  _ ← expire_ledger_slots new cascade;
  _ ← apply_unpledges commitments;
  _ ← apply_unstakes commitments;
  _ ← apply_update_reward_addresses commitments;
  _ ← backfill_missing_partitions;
  _ ← allocate_additional_capacity;
  modify assign_partition_hashes_to_pledges.

Definition initial_snapshot (genesis_block : EpochHeader) : EpochSnapshot :=
  mkEpochSnapshot (Ledgers_new c (cascade_for_block c (timestamp_secs genesis_block)))
    ∅ ∅ [] [] ∅ ∅ genesis_block None None (eh_height genesis_block).

(** [EpochSnapshot::new]; an error panics. *)
Definition EpochSnapshot_new (genesis_block : EpochHeader) (commitments : list CommitmentTransaction)
  : result EpochSnapshotError EpochSnapshot :=
  match perform_epoch_tasks None genesis_block commitments (initial_snapshot genesis_block) with
  | (s, Ok _) => Ok s
  | _ => Panic
  end.

(** The loop of [replay_epoch_data]. *)
Fixpoint replay_epochs (previous : option EpochHeader) (data : list (EpochHeader * list CommitmentTransaction))
  : ES () :=
  match data with
  | [] => mret ()
  | (block_header, commitments) :: rest =>
      _ ← perform_epoch_tasks previous block_header commitments;
      replay_epochs (Some block_header) rest
  end.

Definition replay_epoch_data (data : list (EpochHeader * list CommitmentTransaction)) : ES () :=
  previous ← gets previous_epoch_block;
  replay_epochs previous data.

(** ** Settlement *)

Definition written_this_epoch (cascade : bool) (prev_total_chunks new_total_chunks chunks_per_slot : Z)
    (slot_index : nat) : bool :=
  if negb cascade || (new_total_chunks <=? prev_total_chunks) || (chunks_per_slot =? 0) then false
  else
    let first := prev_total_chunks / chunks_per_slot in
    let last := (new_total_chunks - 1) / chunks_per_slot in
    (first <=? Z.of_nat slot_index) && (Z.of_nat slot_index <=? last).

Definition get_expiring_slot_partitions (s : EpochSnapshot) (epoch_height : Z) (ledger : DataLedger)
    (new_total_chunks : Z) (cascade : bool) : result EpochSnapshotError (list (nat * list Z)) :=
  let chunks_per_slot := ec_num_chunks_in_partition c in
  let prev_total_chunks := ledger_total_chunks (epoch_block s) ledger in
  slots ← get_expiring_slots (ledgers s) epoch_height cascade
            (fun l => if decide (l = ledger) then new_total_chunks else ledger_total_chunks (epoch_block s) l)
            chunks_per_slot;
  Ok (omap (fun x : DataLedger * nat * list Z =>
        if bool_decide (x.1.1 = ledger) &&
           negb (written_this_epoch cascade prev_total_chunks new_total_chunks chunks_per_slot x.1.2)
        then Some (x.1.2, x.2) else None) (slots : list (DataLedger * nat * list Z))).

Definition get_expiring_partition_info (s : EpochSnapshot) (epoch_height : Z) (ledger : DataLedger)
    (new_total_chunks : Z) (cascade : bool) : result EpochSnapshotError (list ExpiringPartitionInfo) :=
  slots ← get_expiring_slot_partitions s epoch_height ledger new_total_chunks cascade;
  Ok (slots ≫= (fun '(i, hashes) => slot_infos ledger i hashes)).

Definition get_all_expired_term_slot_indexes (s : EpochSnapshot) (ledger : DataLedger) (epoch_height : Z)
    (cascade : bool) (total_chunks : Z) : result EpochSnapshotError (list nat) :=
  t ← get_term_ledger (ledgers s) ledger;
  get_all_expired_slot_indexes t epoch_height cascade total_chunks (ec_num_chunks_in_partition c).
End EpochSnapshot.
