(* ===== verification/CommitmentSnapshot.v ===== *)
(** Commitment snapshots: the commitments accepted since the last epoch block
    ([crates/domain/src/snapshots/commitment_snapshot.rs]), their order
    ([compare_commitment_transactions] in [crates/types/src/commitment_common.rs]) and the
    snapshots of a block ([create_commitment_snapshot_for_block] and
    [create_epoch_snapshot_for_block] in [crates/domain/src/models/block_tree.rs]).

    [HashMap]s and [BTreeMap]s are [gmap]s.  A miner's entry that [or_default] creates before a
    rejection stays in the map, as in the code. *)

From S2P Require Import TreeHash StateErr DataLedger EpochSnapshot Prelude.

Inductive CommitmentSnapshotStatus : Type :=
| Accepted
| Unknown
| Unstaked
| InvalidPledgeCount
| Unowned
| UnpledgePending
| UnstakePending
| HasActivePledges
| AlreadyStaked.
#[global] Instance CommitmentSnapshotStatus_eq_dec : EqDecision CommitmentSnapshotStatus.
Proof. solve_decision. Defined.

Record MinerCommitments : Type := mkMinerCommitments {
  mc_stake : option CommitmentTransaction;
  mc_pledges : list CommitmentTransaction;
  mc_unpledges : list CommitmentTransaction;
  mc_unstake : option CommitmentTransaction;
  mc_update_reward_address : option CommitmentTransaction
}.

Definition no_commitments : MinerCommitments := mkMinerCommitments None [] [] None None.

Definition CommitmentSnapshot : Type := gmap Z MinerCommitments.

(** ** Status *)

Definition has_stake (cs : CommitmentSnapshot) (signer : Z) (es : EpochSnapshot) : bool :=
  is_staked es signer ||
  match cs !! signer with Some mc => bool_decide (is_Some (mc_stake mc)) | None => false end.

Definition existing_stake_status (cs : CommitmentSnapshot) (t : CommitmentTransaction) (es : EpochSnapshot)
  : option CommitmentSnapshotStatus :=
  let signer := tx_signer t in
  let existing_stake_id :=
    if is_staked es signer then se_id <$> stake_commitments es !! signer
    else mc ← cs !! signer; tx_id <$> mc_stake mc in
  (fun id => if id =? tx_id t then Accepted else AlreadyStaked) <$> existing_stake_id.

Definition has_id (id : Z) (l : list CommitmentTransaction) : bool := existsb (fun t => tx_id t =? id) l.

Definition is_tx (id : Z) (o : option CommitmentTransaction) : bool :=
  match o with Some t => tx_id t =? id | None => false end.

Definition get_commitment_status (cs : CommitmentSnapshot) (t : CommitmentTransaction) (es : EpochSnapshot)
  : CommitmentSnapshotStatus :=
  let signer := tx_signer t in
  match tx_type t with
  | Stake => default Unknown (existing_stake_status cs t es)
  | Pledge _ | Unpledge _ _ =>
      if is_staked es signer then
        match cs !! signer with
        | Some mc =>
            if bool_decide (is_Some (mc_unstake mc)) then UnstakePending
            else if has_id (tx_id t) (mc_pledges mc) then Accepted else Unknown
        | None => Unknown
        end
      else
        match cs !! signer with
        | Some mc =>
            if has_id (tx_id t) (mc_pledges mc) then Accepted
            else if bool_decide (is_Some (mc_unstake mc)) then UnstakePending
            else if bool_decide (mc_stake mc = None) then Unstaked
            else Unknown
        | None => Unstaked
        end
  | Unstake =>
      if negb (has_stake cs signer es) then Unstaked
      else
        match cs !! signer with
        | Some mc =>
            if is_tx (tx_id t) (mc_unstake mc) then Accepted
            else if bool_decide (is_Some (mc_unstake mc)) then UnstakePending
            else if bool_decide (is_Some (mc_update_reward_address mc)) then UnstakePending
            else Unknown
        | None => Unknown
        end
  | UpdateRewardAddress _ =>
      if negb (has_stake cs signer es) then Unstaked
      else
        match cs !! signer with
        | Some mc =>
            if bool_decide (is_Some (mc_unstake mc)) then UnstakePending
            else if is_tx (tx_id t) (mc_update_reward_address mc) then Accepted
            else Unknown
        | None => Unknown
        end
  end.

(** ** Acceptance *)

Definition active_pledge_count (mc : MinerCommitments) (pledges_in_epoch : nat) : nat :=
  (pledges_in_epoch + length (mc_pledges mc) - length (mc_unpledges mc))%nat.

Definition unpledges_partition (ph : Z) (t : CommitmentTransaction) : bool :=
  match tx_type t with Unpledge _ ph' => ph' =? ph | _ => false end.

Definition with_stake (t : CommitmentTransaction) (mc : MinerCommitments) : MinerCommitments :=
  mkMinerCommitments (Some t) (mc_pledges mc) (mc_unpledges mc) (mc_unstake mc) (mc_update_reward_address mc).
Definition with_pledge (t : CommitmentTransaction) (mc : MinerCommitments) : MinerCommitments :=
  mkMinerCommitments (mc_stake mc) (mc_pledges mc ++ [t]) (mc_unpledges mc) (mc_unstake mc)
    (mc_update_reward_address mc).
Definition with_unpledge (t : CommitmentTransaction) (mc : MinerCommitments) : MinerCommitments :=
  mkMinerCommitments (mc_stake mc) (mc_pledges mc) (mc_unpledges mc ++ [t]) (mc_unstake mc)
    (mc_update_reward_address mc).
Definition with_unstake (t : CommitmentTransaction) (mc : MinerCommitments) : MinerCommitments :=
  mkMinerCommitments (mc_stake mc) (mc_pledges mc) (mc_unpledges mc) (Some t) (mc_update_reward_address mc).
Definition with_update (t : CommitmentTransaction) (mc : MinerCommitments) : MinerCommitments :=
  mkMinerCommitments (mc_stake mc) (mc_pledges mc) (mc_unpledges mc) (mc_unstake mc) (Some t).

(** The decision of [add_commitment] once the signer's entry exists, and the entry it leaves. *)
Definition add_to_miner (t : CommitmentTransaction) (es : EpochSnapshot) (mc : MinerCommitments)
  : MinerCommitments * CommitmentSnapshotStatus :=
  let signer := tx_signer t in
  let pledges_in_epoch := from_option length 0%nat (pledge_commitments es !! signer) in
  let current_pledge_count := Z.of_nat (active_pledge_count mc pledges_in_epoch) in
  match tx_type t with
  | Stake => (with_stake t mc, Accepted)
  | Pledge count =>
      if bool_decide (is_Some (mc_unstake mc)) then (mc, UnstakePending)
      else if has_id (tx_id t) (mc_pledges mc) then (mc, Accepted)
      else if negb (current_pledge_count <? 2 ^ 64) then (mc, InvalidPledgeCount)
      else if negb (count =? current_pledge_count) then (mc, InvalidPledgeCount)
      else (with_pledge t mc, Accepted)
  | Unpledge count ph =>
      if negb (current_pledge_count <? 2 ^ 64) then (mc, InvalidPledgeCount)
      else if negb (count =? current_pledge_count) then (mc, InvalidPledgeCount)
      else if negb (match get_assignment es ph with
                    | Some a => pa_miner_address a =? signer
                    | None => false
                    end) then (mc, Unowned)
      else if existsb (unpledges_partition ph) (mc_unpledges mc) then (mc, UnpledgePending)
      else (with_unpledge t mc, Accepted)
  | Unstake =>
      if (0 <? active_pledge_count mc pledges_in_epoch)%nat then (mc, HasActivePledges)
      else if bool_decide (is_Some (mc_unstake mc)) then (mc, UnstakePending)
      else if bool_decide (is_Some (mc_update_reward_address mc)) then (mc, UnstakePending)
      else (with_unstake t mc, Accepted)
  | UpdateRewardAddress _ =>
      if bool_decide (is_Some (mc_unstake mc)) then (mc, UnstakePending)
      else if is_tx (tx_id t) (mc_update_reward_address mc) then (mc, Accepted)
      else (with_update t mc, Accepted)
  end.

Definition add_commitment (t : CommitmentTransaction) (es : EpochSnapshot) (cs : CommitmentSnapshot)
  : CommitmentSnapshot * CommitmentSnapshotStatus :=
  let signer := tx_signer t in
  let early :=
    match tx_type t with
    | Stake => existing_stake_status cs t es
    | _ => if has_stake cs signer es then None else Some Unstaked
    end in
  match early with
  | Some status => (cs, status)
  | None =>
      let r := add_to_miner t es (default no_commitments (cs !! signer)) in
      (<[signer := r.1]> cs, r.2)
  end.

(** ** Order *)

Definition commitment_priority (t : CommitmentTypeV2) : Z :=
  match t with
  | Stake => 0
  | Pledge _ => 1
  | UpdateRewardAddress _ => 2
  | Unpledge _ _ => 3
  | Unstake => 4
  end.

Definition then_with (o o' : comparison) : comparison := match o with Eq => o' | _ => o end.

Definition compare_commitment_transactions (a b : CommitmentTransaction) : comparison :=
  let fee_desc := user_fee b ?= user_fee a in
  let by_id := tx_id a ?= tx_id b in
  then_with (commitment_priority (tx_type a) ?= commitment_priority (tx_type b))
    match tx_type a, tx_type b with
    | Pledge count_a, Pledge count_b => then_with (count_a ?= count_b) (then_with fee_desc by_id)
    | Unpledge count_a _, Unpledge count_b _ => then_with (count_b ?= count_a) (then_with fee_desc by_id)
    | UpdateRewardAddress _, UpdateRewardAddress _ => then_with (user_fee a ?= user_fee b) by_id
    | _, _ => then_with fee_desc by_id
    end.

Definition commitment_le (a b : CommitmentTransaction) : Prop := compare_commitment_transactions a b ≠ Gt.
#[global] Instance commitment_le_dec : RelDecision commitment_le.
Proof. intros a b. unfold commitment_le. apply _. Defined.

Definition miner_commitments (mc : MinerCommitments) : list CommitmentTransaction :=
  option_list (mc_stake mc) ++ mc_pledges mc ++ mc_unpledges mc ++ option_list (mc_unstake mc) ++
  option_list (mc_update_reward_address mc).

Definition get_epoch_commitments (cs : CommitmentSnapshot) : list CommitmentTransaction :=
  merge_sort commitment_le (concat (miner_commitments <$> btree_values cs)).

Definition snapshot_is_staked (cs : CommitmentSnapshot) (miner_address : Z) : bool :=
  match cs !! miner_address with Some mc => bool_decide (is_Some (mc_stake mc)) | None => false end.

(** ** The snapshots of a block *)

Definition add_commitments (txs : list CommitmentTransaction) (es : EpochSnapshot) (cs : CommitmentSnapshot)
  : CommitmentSnapshot := fold_left (fun cs t => fst (add_commitment t es cs)) txs cs.

Definition create_commitment_snapshot_for_block (c : EpochConfig) (height : Z) (txs : list CommitmentTransaction)
    (prev : CommitmentSnapshot) (es : EpochSnapshot) : CommitmentSnapshot :=
  if is_multiple_of height (ec_num_blocks_in_epoch c) then ∅
  else if bool_decide (txs = []) then prev
  else add_commitments txs es prev.

Definition create_epoch_snapshot_for_block `{Sha256} (c : EpochConfig) (capacity_target : Z → option Z)
    (block : EpochHeader) (parent_epoch : EpochSnapshot) (parent_commitments : CommitmentSnapshot)
  : result EpochSnapshotError EpochSnapshot :=
  if is_multiple_of (eh_height block) (ec_num_blocks_in_epoch c) then
    match perform_epoch_tasks c capacity_target (Some (epoch_block parent_epoch)) block
            (get_epoch_commitments parent_commitments) parent_epoch with
    | (s, Ok _) => Ok s
    | (_, Err e) => Err e
    | (_, Panic) => Panic
    end
  else Ok parent_epoch.
