(* ===== verification/EpochInv.v ===== *)
(** The invariant of epoch snapshots.

    It has three parts, each about a few fields: the slots against the two assignment maps
    ([slot_inv]), the pool of partition hashes against the set of assigned ones ([pool_inv]),
    and stakes and pledges against the owners of partitions ([commit_inv]).  An operation that
    moves a partition between slots and capacity keeps [owners], so it is only about
    [slot_inv], which the second part follows through the elementary changes of slots. *)

From S2P Require Import TreeHash StateErr DataLedger EpochSnapshot Prelude.

(** ** Ledgers built by the configuration *)

Definition wf_ledgers (c : EpochConfig) (L : Ledgers) : Prop := ∃ b, shape L = shape (Ledgers_new c b).

Record config_ok (c : EpochConfig) : Prop := mkConfigOk {
  ok_blocks : 0 < ec_num_blocks_in_epoch c;
  ok_chunks : 0 < ec_num_chunks_in_partition c;
  ok_partitions : 0 < ec_num_partitions_per_slot c < 2 ^ 31;
  ok_submit : 0 < ec_submit_ledger_epoch_length c * ec_num_blocks_in_epoch c < 2 ^ 64;
  ok_publish : ∀ e, ec_publish_ledger_epoch_length c = Some e → 0 < e * ec_num_blocks_in_epoch c < 2 ^ 64;
  ok_cascade : ∀ p, ec_cascade c = Some p →
    0 < one_year_epoch_length p * ec_num_blocks_in_epoch c < 2 ^ 64 ∧
    0 < thirty_day_epoch_length p * ec_num_blocks_in_epoch c < 2 ^ 64;
  ok_delta : ∀ a k, ec_delta c = Some (a, k) → 0 < k < 2 ^ 31
}.

Lemma wf_ledgers_shape c L L' : shape L' = shape L → wf_ledgers c L → wf_ledgers c L'.
Proof. intros Hs [b Hb]. exists b. congruence. Qed.

Lemma active_ledgers_new c b :
  active_ledgers (Ledgers_new c b) = [Publish; Submit] ∨
  active_ledgers (Ledgers_new c b) = [Publish; Submit; OneYear; ThirtyDay] ∧ b = true.
Proof. unfold Ledgers_new. destruct b; [|by left]. destruct (ec_cascade c); [by right|by left]. Qed.

Lemma wf_nodup c L : wf_ledgers c L → NoDup (active_ledgers L).
Proof.
  intros [b Hb]. rewrite (active_ledgers_shape _ _ Hb).
  destruct (active_ledgers_new c b) as [->|[-> _]]; by apply (bool_decide_unpack _).
Qed.

Lemma wf_lifetime c L ledger m :
  config_ok c → wf_ledgers c L → lifetime L ledger = Some m → 0 < m < 2 ^ 64.
Proof.
  intros Hc [b Hb]. rewrite (lifetime_shape _ _ _ Hb). unfold lifetime, find_term, Ledgers_new.
  pose proof (ok_submit _ Hc). pose proof (ok_publish _ Hc). pose proof (ok_cascade _ Hc).
  destruct ledger; cbn [num_blocks_in_epoch publish_ledger_epoch_length term].
  - destruct (ec_publish_ledger_epoch_length c); [|done]. cbn. intros [= <-]. auto.
  - by destruct b, (ec_cascade c); cbn; intros [= <-].
  - destruct b, (ec_cascade c) as [p|]; cbn; [|done..]. intros [= <-]. by apply H1.
  - destruct b, (ec_cascade c) as [p|]; cbn; [|done..]. intros [= <-]. by apply H1.
Qed.

Lemma wf_lifetimes_fit c L : config_ok c → wf_ledgers c L → lifetimes_fit L.
Proof. intros Hc HL ledger m Hm. by apply (wf_lifetime c L ledger m Hc HL). Qed.

Lemma shape_partitions_per_slot {E} L L' ledger :
  shape L = shape L' → partitions_per_slot (E:=E) L ledger = partitions_per_slot L' ledger.
Proof.
  unfold shape, partitions_per_slot, get_term_ledger. intros [= H0 _ _ H3].
  apply (f_equal (λ l, (λ x : DataLedger * Z * Z * Z, x.2) <$>
           List.find (λ x : DataLedger * Z * Z * Z, bool_decide (x.1.1.1 = ledger)) l)) in H3.
  rewrite !find_fmap, <- !option_fmap_compose in H3.
  destruct ledger; [by rewrite H0|..];
    unfold compose in H3; cbn in H3 |- *; destruct (List.find _ (term L)), (List.find _ (term L'));
    cbn in H3 |- *; congruence.
Qed.

Lemma wf_partitions_per_slot {E} c L ledger :
  wf_ledgers c L → ledger ∈ active_ledgers L →
  partitions_per_slot (E:=E) L ledger = Ok (ec_num_partitions_per_slot c).
Proof.
  intros [b Hb]. rewrite (active_ledgers_shape _ _ Hb), (shape_partitions_per_slot _ _ _ Hb).
  unfold Ledgers_new. destruct b, (ec_cascade c); cbn; intros Hin; destruct ledger; try done; set_solver.
Qed.

(** A lookup that succeeds names an active ledger. *)
Lemma ledger_slots_active L ledger i slot : ledger_slots L ledger !! i = Some slot → ledger ∈ active_ledgers L.
Proof.
  unfold ledger_slots, active_ledgers. destruct (decide (ledger = Publish)) as [->|Hne]; [by left|].
  intros Hs. right. destruct (find_term L ledger) as [t|] eqn:Ht; [|by destruct ledger].
  unfold find_term in Ht. apply find_some in Ht as [Hin Hl%bool_decide_eq_true]. subst ledger.
  apply list_elem_of_fmap_2. by apply list_elem_of_In.
Qed.

(** ** Slots *)

Definition Slots : Type := DataLedger → list LedgerSlot.

Definition in_slot (V : Slots) (ledger : DataLedger) (i : nat) (h : Z) : Prop :=
  ∃ slot, V ledger !! i = Some slot ∧ h ∈ partitions slot.

Definition data_assignment (h miner : Z) (ledger : DataLedger) (i : nat) : PartitionAssignment :=
  mkAssignment h miner (Some ledger) (Some i).

(** [X] holds of the partitions still listed in an expired slot. *)
Record slot_inv (n : Z) (X : Z → Prop) (V : Slots) (d cap : gmap Z PartitionAssignment) : Prop := mkSlotInv {
  si_disjoint : ∀ h, is_Some (d !! h) → cap !! h = None;
  si_data : ∀ h a, d !! h = Some a → ∃ miner ledger i, a = data_assignment h miner ledger i;
  si_cap : ∀ h a, cap !! h = Some a → a = capacity_assignment h (pa_miner_address a);
  si_in : ∀ ledger i h, in_slot V ledger i h ↔ ∃ miner, d !! h = Some (data_assignment h miner ledger i);
  si_slot : ∀ ledger i slot, V ledger !! i = Some slot →
    NoDup (partitions slot) ∧ Z.of_nat (length (partitions slot)) ≤ n ∧
    (is_expired slot = true → ∀ h, h ∈ partitions slot → X h);
  si_miners : ∀ h1 h2 miner ledger i,
    d !! h1 = Some (data_assignment h1 miner ledger i) →
    d !! h2 = Some (data_assignment h2 miner ledger i) → h1 = h2
}.

(** ** The pool and the commitments *)

Definition own (d cap : gmap Z PartitionAssignment) : gmap Z Z := pa_miner_address <$> (d ∪ cap).
Definition owners (s : EpochSnapshot) : gmap Z Z := own (data_partitions s) (capacity_partitions s).

Definition entries (pledges : gmap Z (list PledgeEntry)) (a : Z) : list PledgeEntry := default [] (pledges !! a).

Section Inv.
  Context `{Sha256} (c : EpochConfig).
  (** The last epoch hash of the genesis block, from which partition hashes are derived. *)
  Context (seed : Z).

Record pool_inv (active unassigned : list Z) (own : gmap Z Z) : Prop := mkPoolInv {
  pi_chain : active = hash_chain (length active) seed;
  pi_nodup : NoDup active;
  pi_unassigned : NoDup unassigned;
  pi_active : ∀ h, h ∈ active ↔ h ∈ unassigned ∨ is_Some (own !! h);
  pi_disjoint : ∀ h, h ∈ unassigned → own !! h = None
}.

Record commit_inv (stakes : gmap Z StakeEntry) (pledges : gmap Z (list PledgeEntry)) (own : gmap Z Z) : Prop :=
  mkCommitInv {
  ci_stake : ∀ a e, stakes !! a = Some e → se_status e = Active ∧ se_signer e = a;
  ci_entry : ∀ a e, e ∈ entries pledges a → pe_signer e = a ∧ pe_status e = Active ∧ is_Some (stakes !! a);
  ci_ids : ∀ a, NoDup (pe_id <$> entries pledges a);
  ci_hashes : ∀ a, NoDup (omap pe_partition_hash (entries pledges a));
  ci_owner : ∀ a h, h ∈ omap pe_partition_hash (entries pledges a) ↔ own !! h = Some a
}.

Record epoch_inv (s : EpochSnapshot) : Prop := mkEpochInv {
  ei_ledgers : wf_ledgers c (ledgers s);
  ei_slots : slot_inv (ec_num_partitions_per_slot c) (λ _, False) (ledger_slots (ledgers s))
               (data_partitions s) (capacity_partitions s);
  ei_pool : pool_inv (all_active_partitions s) (unassigned_partitions s) (owners s);
  ei_commit : commit_inv (stake_commitments s) (pledge_commitments s) (owners s)
}.
End Inv.

(** * The slot invariant under the elementary changes of slots and assignments, and the owners
    each of them leaves. *)

Definition upd (V : Slots) (ledger : DataLedger) (i : nat) (f : LedgerSlot → LedgerSlot) : Slots :=
  λ l, if decide (l = ledger) then alter f i (V l) else V l.

Definition push_hash (h : Z) (s : LedgerSlot) : LedgerSlot := set_partitions s (partitions s ++ [h]).
Definition remove_hash (h : Z) (s : LedgerSlot) : LedgerSlot :=
  set_partitions s (filter (λ p, p ≠ h) (partitions s)).

Lemma lookup_upd V ledger i f l j :
  upd V ledger i f l !! j = if decide (l = ledger ∧ j = i) then f <$> V ledger !! i else V l !! j.
Proof.
  unfold upd. destruct (decide (l = ledger)) as [->|Hne]; [|by rewrite decide_False by naive_solver].
  destruct (decide (j = i)) as [->|Hj].
  - by rewrite list_lookup_alter_eq, (decide_True (P := _ ∧ _)) by done.
  - by rewrite list_lookup_alter_ne, (decide_False (P := _ ∧ _)) by naive_solver.
Qed.

Section Slots.
  Context (n : Z).
  Implicit Types (X : Z → Prop) (V : Slots) (d cap : gmap Z PartitionAssignment).

(** Slots with the partitions and flags of the old ones, plus slots without partitions. *)
Lemma slot_inv_frame X V V' d cap :
  0 ≤ n →
  (∀ l i slot, V l !! i = Some slot →
    ∃ slot', V' l !! i = Some slot' ∧ partitions slot' = partitions slot ∧ is_expired slot' = is_expired slot) →
  (∀ l i slot', V' l !! i = Some slot' → is_Some (V l !! i) ∨ partitions slot' = []) →
  slot_inv n X V d cap → slot_inv n X V' d cap.
Proof.
  intros Hn Hold Hnew [Hdis Hd Hc Hin Hs Hm]. split; [done..| | |done].
  - intros l i h. rewrite <- Hin. split.
    + intros (slot' & Hl & Hh). destruct (Hnew _ _ _ Hl) as [[slot Hslot]|He]; [|by rewrite He in Hh; set_solver].
      destruct (Hold _ _ _ Hslot) as (slot2 & Hl2 & Hp & _). exists slot. split; [done|]. congruence.
    + intros (slot & Hl & Hh). destruct (Hold _ _ _ Hl) as (slot2 & Hl2 & Hp & _). exists slot2. by rewrite Hp.
  - intros l i slot' Hl. destruct (Hnew _ _ _ Hl) as [[slot Hslot]|He].
    + destruct (Hold _ _ _ Hslot) as (slot2 & Hl2 & Hp & He). simplify_eq. rewrite Hp, He. eauto.
    + rewrite He. split_and!; [by constructor|cbn; lia|set_solver].
Qed.

Lemma slot_inv_weaken X X' V d cap : (∀ h, X h → X' h) → slot_inv n X V d cap → slot_inv n X' V d cap.
Proof.
  intros HX [Hdis Hd Hc Hin Hs Hm]. split; [done..| |done]. intros l i slot Hl.
  destruct (Hs l i slot Hl) as (? & ? & Hx). split_and!; [done..|]. intros He h Hh. by apply HX, Hx.
Qed.

(** Expired slots still hold partitions until they are returned. *)
Lemma slot_inv_expire V d cap (idxs : DataLedger → list nat) :
  slot_inv n (λ _, False) V d cap →
  slot_inv n (λ h, ∃ l i, i ∈ idxs l ∧ in_slot V l i h) (λ l, expire_at (idxs l) (V l)) d cap.
Proof.
  intros [Hdis Hd Hc Hin Hs Hm].
  assert (Hlook : ∀ l i slot', expire_at (idxs l) (V l) !! i = Some slot' →
    ∃ slot, V l !! i = Some slot ∧ partitions slot' = partitions slot ∧
      (is_expired slot' = true → is_expired slot = true ∨ i ∈ idxs l)).
  { intros l i slot'. rewrite lookup_expire_at. destruct (V l !! i) as [slot|]; [|done]. cbn.
    intros [= <-]. exists slot. case_bool_decide; naive_solver. }
  split; [done..| | |done].
  - intros l i h. rewrite <- Hin. split.
    + intros (slot' & (slot & ? & Hp & _)%Hlook & Hh). exists slot. by rewrite <- Hp.
    + intros (slot & Hl & Hh). unfold in_slot. rewrite lookup_expire_at, Hl. cbn. eexists. split; [done|].
      by case_bool_decide.
  - intros l i slot' (slot & Hl & Hp & He)%Hlook. rewrite Hp. destruct (Hs l i slot Hl) as (? & ? & Hx).
    split_and!; [done..|]. intros [Hex|?]%He h Hh; [by destruct (Hx Hex h Hh)|]. exists l, i. split; [done|]. by exists slot.
Qed.

Lemma slot_inv_release X V d cap h miner l i :
  d !! h = Some (data_assignment h miner l i) → slot_inv n X V d cap →
  slot_inv n (λ x, X x ∧ x ≠ h) (upd V l i (remove_hash h)) (delete h d) cap.
Proof.
  intros Hh [Hdis Hd Hc Hin Hs Hm]. split.
  - intros x Hx. apply Hdis. destruct (decide (x = h)) as [->|?]; [by rewrite lookup_delete_eq in Hx; destruct Hx|].
    by rewrite lookup_delete_ne in Hx.
  - intros x a [_ Ha]%lookup_delete_Some. by apply Hd.
  - done.
  - intros l' j x. transitivity (in_slot V l' j x ∧ x ≠ h).
    + unfold in_slot. setoid_rewrite lookup_upd. destruct (decide (l' = l ∧ j = i)) as [[-> ->]|Hne].
      * destruct (V l !! i) as [slot|]; cbn; [|naive_solver]. split.
        -- intros (s & [= <-] & Hx). cbn in Hx. apply list_elem_of_filter in Hx. naive_solver.
        -- intros [(s & [= <-] & Hx) ?]. eexists. split; [done|]. cbn. by apply list_elem_of_filter.
      * split; [|naive_solver]. intros Hx. split; [done|]. intros ->. apply Hin in Hx as [m Hx].
        rewrite Hh in Hx. naive_solver.
    + rewrite Hin. setoid_rewrite lookup_delete_Some. naive_solver.
  - intros l' j slot. rewrite lookup_upd. destruct (decide (l' = l ∧ j = i)) as [[-> ->]|Hne].
    + destruct (V l !! i) as [slot0|] eqn:Hl; cbn; [|done]. intros [= <-]. cbn.
      destruct (Hs _ _ _ Hl) as (? & Hlen & Hx). split_and!; [by apply NoDup_filter| |].
      * pose proof (length_filter (λ p, p ≠ h) (partitions slot0)). lia.
      * intros He x [? ?]%list_elem_of_filter. auto.
    + intros Hl. destruct (Hs _ _ _ Hl) as (? & ? & Hx). split_and!; [done..|]. intros He x Hx'.
      split; [by apply Hx|]. intros ->. assert (in_slot V l' j h) as [m Hd']%Hin by (by exists slot).
      rewrite Hh in Hd'. naive_solver.
  - intros h1 h2 m l' j [_ ?]%lookup_delete_Some [_ ?]%lookup_delete_Some. eauto.
Qed.

Lemma slot_inv_cap_insert X V d cap h miner :
  d !! h = None → slot_inv n X V d cap → slot_inv n X V d (<[h := capacity_assignment h miner]> cap).
Proof.
  intros Hh [Hdis Hd Hc Hin Hs Hm]. split; [|done| |done..].
  - intros x Hx. rewrite lookup_insert_ne; [by apply Hdis|]. intros ->. rewrite Hh in Hx. by destruct Hx.
  - intros x a. rewrite lookup_insert_Some. intros [[<- <-]|[_ Hx]]; [done|by apply Hc].
Qed.

Lemma slot_inv_cap_delete X V d cap h : slot_inv n X V d cap → slot_inv n X V d (delete h cap).
Proof.
  intros [Hdis Hd Hc Hin Hs Hm]. split; [|done| |done..].
  - intros x Hx. apply lookup_delete_None. right. by apply Hdis.
  - intros x a [_ Hx]%lookup_delete_Some. by apply Hc.
Qed.

Lemma slot_inv_push X V d cap h miner l i slot :
  cap !! h = Some (capacity_assignment h miner) → V l !! i = Some slot → is_expired slot = false →
  Z.of_nat (length (partitions slot)) < n →
  (∀ h', d !! h' ≠ Some (data_assignment h' miner l i)) →
  slot_inv n X V d cap →
  slot_inv n X (upd V l i (push_hash h)) (<[h := data_assignment h miner l i]> d) (delete h cap).
Proof.
  intros Hh Hslot Hexp Hlen Hmin [Hdis Hd Hc Hin Hs Hm].
  assert (Hdh : d !! h = None).
  { destruct (d !! h) eqn:E; [|done]. rewrite Hdis in Hh by (by rewrite E). done. }
  assert (Hnot : ∀ l' j, ¬ in_slot V l' j h).
  { intros l' j [m Hx]%Hin. by rewrite Hdh in Hx. }
  split.
  - intros x Hx. apply lookup_delete_None. destruct (decide (h = x)) as [|Hne]; [by left|right].
    apply Hdis. by rewrite lookup_insert_ne in Hx.
  - intros x a. rewrite lookup_insert_Some. intros [[<- <-]|[_ Hx]]; [by exists miner, l, i|by apply Hd].
  - intros x a [_ Hx]%lookup_delete_Some. by apply Hc.
  - intros l' j x. transitivity (in_slot V l' j x ∨ (x = h ∧ l' = l ∧ j = i)).
    + unfold in_slot. setoid_rewrite lookup_upd. destruct (decide (l' = l ∧ j = i)) as [[-> ->]|Hne]; [|naive_solver].
      rewrite Hslot. cbn. split.
      * intros (s & [= <-] & Hx). cbn in Hx. rewrite elem_of_app, list_elem_of_singleton in Hx. naive_solver.
      * intros [(s & [= <-] & Hx)|(-> & _)]; eexists; (split; [done|]); cbn; set_solver.
    + rewrite Hin. setoid_rewrite lookup_insert_Some. split.
      * intros [[m Hx]|(-> & -> & ->)]; [|by exists miner; left]. exists m. right. split; [|done].
        intros <-. by rewrite Hdh in Hx.
      * intros [m [[<- [= <- <- <-]]|[_ Hx]]]; [by right|by left; exists m].
  - intros l' j slot'. rewrite lookup_upd. destruct (decide (l' = l ∧ j = i)) as [[-> ->]|Hne]; [|by apply Hs].
    rewrite Hslot. cbn. intros [= <-]. cbn. destruct (Hs _ _ _ Hslot) as (? & _ & _). split_and!.
    + apply NoDup_app. split_and!; [done| |apply NoDup_singleton]. intros x Hx ->%list_elem_of_singleton.
      apply (Hnot l i). by exists slot.
    + rewrite length_app. cbn. lia.
    + congruence.
  - intros h1 h2 m l' j. rewrite !lookup_insert_Some.
    intros [[<- E1]|[Hn1 H1]] [[<- E2]|[Hn2 H2]]; [done| | |by eapply Hm].
    + injection E1 as <- <- <-. by destruct (Hmin h2).
    + injection E2 as <- <- <-. by destruct (Hmin h1).
Qed.
End Slots.

(** ** Owners *)

Lemma lookup_own d cap h :
  own d cap !! h = pa_miner_address <$> match d !! h with Some a => Some a | None => cap !! h end.
Proof. unfold own. rewrite lookup_fmap, lookup_union. by destruct (d !! h), (cap !! h). Qed.

Lemma owners_get_assignment s h : owners s !! h = pa_miner_address <$> get_assignment s h.
Proof. apply lookup_own. Qed.

Lemma own_return d cap h miner l i :
  d !! h = Some (data_assignment h miner l i) →
  own (delete h d) (<[h := capacity_assignment h miner]> cap) = own d cap.
Proof.
  intros Hh. apply map_eq. intros x. rewrite !lookup_own. destruct (decide (h = x)) as [<-|Hne].
  - by rewrite lookup_delete_eq, lookup_insert_eq, Hh.
  - by rewrite lookup_delete_ne, lookup_insert_ne.
Qed.

Lemma own_push d cap h miner l i :
  d !! h = None → cap !! h = Some (capacity_assignment h miner) →
  own (<[h := data_assignment h miner l i]> d) (delete h cap) = own d cap.
Proof.
  intros Hd Hh. apply map_eq. intros x. rewrite !lookup_own. destruct (decide (h = x)) as [<-|Hne].
  - by rewrite lookup_insert_eq, Hd, Hh.
  - by rewrite lookup_delete_ne, lookup_insert_ne.
Qed.

Lemma own_delete d cap h : own (delete h d) (delete h cap) = delete h (own d cap).
Proof. unfold own. by rewrite <- delete_union, fmap_delete. Qed.

Lemma own_cap_insert d cap h miner :
  d !! h = None → own d (<[h := capacity_assignment h miner]> cap) = <[h := miner]> (own d cap).
Proof.
  intros Hd. apply map_eq. intros x. rewrite lookup_own. destruct (decide (h = x)) as [<-|Hne].
  - by rewrite Hd, !lookup_insert_eq.
  - by rewrite !lookup_insert_ne, lookup_own.
Qed.

Lemma slot_inv_ext n X V V' d cap : (∀ l, V' l = V l) → slot_inv n X V d cap → slot_inv n X V' d cap.
Proof.
  intros HV [Hdis Hd Hc Hin Hs Hm]. split; [done..| | |done].
  - intros l i h. rewrite <- Hin. unfold in_slot. by rewrite HV.
  - intros l i slot. rewrite HV. apply Hs.
Qed.

(** ** Everything of a slot but its partitions *)

Definition header (s : LedgerSlot) : LedgerSlot := set_partitions s [].
Definition headers (V : Slots) (l : DataLedger) : list LedgerSlot := header <$> V l.

Lemma headers_upd V ledger i f l : (∀ s, header (f s) = header s) → headers (upd V ledger i f) l = headers V l.
Proof.
  intros Hf. unfold headers, upd. destruct (decide (l = ledger)) as [->|]; [|done].
  apply list_eq. intros j. rewrite !list_lookup_fmap. destruct (decide (j = i)) as [->|Hne].
  - rewrite list_lookup_alter_eq. destruct (V ledger !! i); [|done]. cbn. by rewrite Hf.
  - by rewrite list_lookup_alter_ne.
Qed.

(** ** Partitions in and out of slots *)

Section Moves.
  Context {E : Type}.

Lemma alter_slot_eq i f slots slot :
  slots !! i = Some slot → alter_slot (E:=E) i f slots = Ok (alter f i slots).
Proof.
  intros Hs. unfold alter_slot. rewrite Hs. f_equal. apply list_eq. intros j.
  destruct (decide (i = j)) as [<-|Hne].
  - rewrite list_lookup_insert_eq by (by eapply lookup_lt_Some). by rewrite list_lookup_alter_eq, Hs.
  - by rewrite list_lookup_insert_ne, list_lookup_alter_ne.
Qed.

Lemma slots_mut_upd L l i (f : LedgerSlot → LedgerSlot) slot :
  ledger_slots L l !! i = Some slot →
  ∃ L', slots_mut (E:=E) L l (alter_slot i f) = Ok L' ∧ shape L' = shape L ∧
    ∀ l', ledger_slots L' l' = upd (ledger_slots L) l i f l'.
Proof.
  intros Hs. pose proof (ledger_slots_active _ _ _ _ Hs) as Hact.
  rewrite slots_mut_eq, (alter_slot_eq i f _ slot Hs) by done. eexists. split_and!; [done|apply put_slots_shape|].
  intros l'. rewrite ledger_slots_put by done. unfold upd. by destruct (decide (l' = l)) as [->|].
Qed.
End Moves.
