(* ===== verification/EpochSlots.v ===== *)
(** The steps of the epoch transition that change slots and assignments: activation of the
    Cascade ledgers, allocation, the write window, expiry, and the backfilling of slots.  Each
    lemma gives the slots the step leaves, as a function of the slots before. *)

From S2P Require Import SimpleRng TreeHash StateErr DataLedger EpochSnapshot EpochInv Prelude.

(** What the steps on slots do not change. *)
Definition rest (s : EpochSnapshot) :=
  (owners s, stake_commitments s, pledge_commitments s, all_active_partitions s, unassigned_partitions s,
   epoch_block s).

Lemma rest_set_ledgers L s : rest (set_ledgers L s) = rest s.
Proof. done. Qed.

Lemma epoch_inv_rest `{Sha256} c seed s s' :
  epoch_inv c seed s → rest s' = rest s → wf_ledgers c (ledgers s') →
  slot_inv (ec_num_partitions_per_slot c) (λ _, False) (ledger_slots (ledgers s')) (data_partitions s')
    (capacity_partitions s') → epoch_inv c seed s'.
Proof.
  intros [_ _ Hp Hc] Hr HL Hs. unfold rest in Hr. injection Hr as Ho Hst Hpl Ha Hu _.
  split; [done..| |]; [by rewrite Ha, Hu, Ho|by rewrite Hst, Hpl, Ho].
Qed.

(** ** Loops over ledgers *)

Lemma for_each_ledgers (f : DataLedger → Ledgers → result EpochSnapshotError Ledgers)
    (g : DataLedger → list LedgerSlot → list LedgerSlot) (P : DataLedger → list LedgerSlot → Prop) ls s :
  NoDup ls →
  (∀ l L, l ∈ ls → shape L = shape (ledgers s) → P l (ledger_slots L l) →
    ∃ L', f l L = Ok L' ∧ shape L' = shape L ∧
      ∀ l', ledger_slots L' l' = if decide (l' = l) then g l (ledger_slots L l) else ledger_slots L l') →
  (∀ l, l ∈ ls → P l (ledger_slots (ledgers s) l)) →
  ∃ L', for_each (λ l, update_ledgers (f l)) ls s = (set_ledgers L' s, Ok ()) ∧ shape L' = shape (ledgers s) ∧
    ∀ l, ledger_slots L' l =
      if decide (l ∈ ls) then g l (ledger_slots (ledgers s) l) else ledger_slots (ledgers s) l.
Proof.
  intros Hnd Hf HP. revert s Hf HP. induction Hnd as [|l ls Hnot Hnd IH]; intros s Hf HP.
  { exists (ledgers s). by destruct s. }
  destruct (Hf l (ledgers s)) as (L1 & HL1 & Hsh1 & Hv1); [by left|done|by apply HP; left|].
  destruct (IH (set_ledgers L1 s)) as (L2 & HL2 & Hsh2 & Hv2).
  - intros l' L Hl' Hsh Hp. apply Hf; [by right|cbn in Hsh; congruence|done].
  - intros l' Hl'. cbn. rewrite Hv1, decide_False by (by intros ->). apply HP. by right.
  - exists L2. split_and!.
    + cbn [for_each]. unfold mbind, SE_bind, update_ledgers, update. rewrite HL1. exact HL2.
    + cbn in Hsh2. congruence.
    + intros l'. rewrite Hv2. cbn [ledgers set_ledgers]. rewrite Hv1.
      destruct (decide (l' = l)) as [->|Hne].
      * by rewrite decide_False, decide_True by set_solver.
      * by rewrite (decide_ext (l' ∈ l :: ls) (l' ∈ ls)) by set_solver.
Qed.

(** ** Activation of the Cascade ledgers *)

Lemma existsb_OneYear L :
  existsb (λ t, bool_decide (tl_ledger t = OneYear)) (term L) = false → OneYear ∉ active_ledgers L.
Proof.
  intros Hex [?|(t & Ht & Hin)%list_elem_of_fmap]%elem_of_cons; [done|].
  apply not_true_iff_false in Hex. apply Hex, existsb_exists. exists t.
  split; [by apply list_elem_of_In|]. by apply bool_decide_eq_true.
Qed.

Lemma find_app_empty (f : TermLedger → bool) ts ts' :
  Forall (λ t, tl_slots t = []) ts' →
  from_option tl_slots [] (List.find f (ts ++ ts')) = from_option tl_slots [] (List.find f ts).
Proof.
  intros Hall. induction ts as [|t ts IH]; cbn; [|by destruct (f t)].
  induction Hall as [|t ts' Ht _ IH]; [done|]. cbn. by destruct (f t).
Qed.

Lemma activate_cascade_spec c L :
  wf_ledgers c L →
  wf_ledgers c (activate_cascade c L) ∧ ∀ l, ledger_slots (activate_cascade c L) l = ledger_slots L l.
Proof.
  intros [b Hb]. unfold activate_cascade. destruct (existsb _ _) eqn:Hex; [by split; [exists b|]|].
  destruct (ec_cascade c) as [p|] eqn:Hp; [|by split; [exists b|]]. split.
  - exists true. assert (b = false) as ->.
    { destruct b; [|done]. exfalso. apply (existsb_OneYear L Hex).
      rewrite (active_ledgers_shape _ _ Hb). unfold Ledgers_new. rewrite Hp. cbn. by do 2 right; left. }
    unfold shape, Ledgers_new in *. rewrite Hp. cbn in *. injection Hb as -> -> -> Hb.
    by rewrite fmap_app, Hb.
  - intros l. unfold ledger_slots, find_term. cbn [term perm]. destruct l; [done|..]; apply find_app_empty; by repeat constructor.
Qed.

(** ** Allocation *)

Section Alloc.
  Context (c : EpochConfig) (Hc : config_ok c).
  Context (previous : option EpochHeader) (new : EpochHeader) (delta : option Z).

Definition previous_total (l : DataLedger) : Z := from_option (λ b, ledger_total_chunks b l) 0 previous.

(** The slots a ledger with [n] slots gains. *)
Definition slots_to_add (l : DataLedger) (n : Z) : Z :=
  let cps := ec_num_chunks_in_partition c in
  let data_added := saturating_sub (ledger_total_chunks new l) (previous_total l) in
  if has_ledger new l then
    (if saturating_sub (n * cps) (cps / 2) <=? ledger_total_chunks new l then 2 else 0) +
    (if (ec_num_blocks_in_epoch c <=? eh_height new) && (cps <? data_added) then div_ceil data_added cps else 0)
  else if n =? 0 then default 0 delta else 0.

Definition allocated (l : DataLedger) (slots : list LedgerSlot) : list LedgerSlot :=
  slots ++ replicate (Z.to_nat (slots_to_add l (Z.of_nat (length slots)))) (new_slot (eh_height new)).

(** The products and sums of the allocation fit in 64 bits. *)
Definition alloc_fits (l : DataLedger) (slots : list LedgerSlot) : Prop :=
  Z.of_nat (length slots) * ec_num_chunks_in_partition c < 2 ^ 64 ∧
  0 ≤ previous_total l ∧ ledger_total_chunks new l < 2 ^ 31 * ec_num_chunks_in_partition c.

Definition delta_fits : Prop := ∀ k, delta = Some k → 0 < k < 2 ^ 31.

Lemma slots_to_add_bound l slots :
  delta_fits → alloc_fits l slots → 0 ≤ slots_to_add l (Z.of_nat (length slots)) ≤ 2 ^ 31 + 2.
Proof.
  intros Hdelta (Hf & Hp & Ht). unfold slots_to_add. pose proof (ok_chunks _ Hc) as Hcps.
  set (cps := ec_num_chunks_in_partition c) in *. case_match.
  - set (da := saturating_sub (ledger_total_chunks new l) _).
    assert (0 ≤ da < 2 ^ 31 * cps) by (unfold da, saturating_sub; lia).
    assert (0 ≤ div_ceil da cps ≤ 2 ^ 31).
    { split; [unfold div_ceil; apply Z.div_pos; lia|]. apply div_ceil_le_iff; lia. }
    by repeat case_match; lia.
  - case_match; [|lia]. destruct delta as [k|] eqn:Hd; cbn; [|lia]. pose proof (Hdelta k Hd). lia.
Qed.

Lemma calculate_additional_slots_eq L l :
  l ∈ active_ledgers L → has_ledger new l = true → alloc_fits l (ledger_slots L l) →
  calculate_additional_slots c previous new l L = Ok (slots_to_add l (Z.of_nat (length (ledger_slots L l)))).
Proof.
  intros Hin Hhas (Hf & Hp & Ht). pose proof (ok_chunks _ Hc) as Hcps.
  unfold calculate_additional_slots, slot_count, slots_to_add. rewrite get_slots_active by done.
  cbn [mbind result_bind]. unfold checked_mul. rewrite (proj2 (Z.ltb_lt _ _) Hf). cbn [mbind result_bind expect].
  rewrite Hhas. fold (previous_total l).
  set (cps := ec_num_chunks_in_partition c) in *. set (da := saturating_sub (ledger_total_chunks new l) _).
  assert (0 ≤ da < 2 ^ 31 * cps) by (unfold da, saturating_sub; lia).
  assert (0 ≤ div_ceil da cps ≤ 2 ^ 31).
  { split; [unfold div_ceil; apply Z.div_pos; lia|]. apply div_ceil_le_iff; lia. }
  destruct (_ <=? eh_height new); cbn [andb]; [|by rewrite Z.add_0_r].
  destruct (cps <? da); cbn [andb]; [|by rewrite Z.add_0_r].
  rewrite (proj2 (Z.eqb_neq cps 0)) by lia. unfold checked_add.
  by rewrite (proj2 (Z.ltb_lt _ _)) by (case_match; lia).
Qed.

Lemma allocate_slots_full L l k :
  wf_ledgers c L → l ∈ active_ledgers L → 0 ≤ k ≤ 2 ^ 31 + 2 →
  ∃ L', allocate_slots (E:=EpochSnapshotError) L l k (eh_height new) = Ok (L', k * ec_num_partitions_per_slot c) ∧
    shape L' = shape L ∧
    ∀ l', ledger_slots L' l' =
      if decide (l' = l) then ledger_slots L l ++ replicate (Z.to_nat k) (new_slot (eh_height new))
      else ledger_slots L l'.
Proof.
  intros HL Hin Hk. pose proof (ok_partitions _ Hc) as Hn. unfold allocate_slots.
  rewrite (wf_partitions_per_slot c) by done. cbn [mbind result_bind].
  assert (k * ec_num_partitions_per_slot c < 2 ^ 64) as Hlt by nia.
  unfold checked_mul. rewrite (proj2 (Z.ltb_lt _ _) Hlt). cbn [mbind result_bind expect].
  rewrite slots_mut_eq by done. eexists. split_and!; [done|apply put_slots_shape|].
  intros l'. by apply ledger_slots_put.
Qed.

Lemma allocate_slots_eq L l k :
  wf_ledgers c L → l ∈ active_ledgers L → 0 ≤ k ≤ 2 ^ 31 + 2 →
  ∃ L', fst <$> allocate_slots (E:=EpochSnapshotError) L l k (eh_height new) = Ok L' ∧ shape L' = shape L ∧
    ∀ l', ledger_slots L' l' =
      if decide (l' = l) then ledger_slots L l ++ replicate (Z.to_nat k) (new_slot (eh_height new))
      else ledger_slots L l'.
Proof.
  intros HL Hin Hk. destruct (allocate_slots_full L l k HL Hin Hk) as (L' & -> & Hrest). by exists L'.
Qed.

Lemma allocate_ledger_slots_eq L l :
  delta_fits → wf_ledgers c L → l ∈ active_ledgers L → alloc_fits l (ledger_slots L l) →
  ∃ L', allocate_ledger_slots c previous new delta l L = Ok L' ∧ shape L' = shape L ∧
    ∀ l', ledger_slots L' l' = if decide (l' = l) then allocated l (ledger_slots L l) else ledger_slots L l'.
Proof.
  intros Hdelta HL Hin Hfit. pose proof (slots_to_add_bound l _ Hdelta Hfit) as Hb.
  assert (Hsame : slots_to_add l (Z.of_nat (length (ledger_slots L l))) = 0 →
    ∀ l', ledger_slots L l' = if decide (l' = l) then allocated l (ledger_slots L l) else ledger_slots L l').
  { intros H0 l'. unfold allocated. rewrite H0. cbn [Z.to_nat replicate]. rewrite app_nil_r.
    by destruct (decide (l' = l)) as [->|]. }
  unfold allocate_ledger_slots. destruct (has_ledger new l) eqn:Hhas.
  - rewrite calculate_additional_slots_eq by done. by apply allocate_slots_eq.
  - assert (Hadd : slots_to_add l (Z.of_nat (length (ledger_slots L l))) =
      if Z.of_nat (length (ledger_slots L l)) =? 0 then default 0 delta else 0).
    { unfold slots_to_add. by rewrite Hhas. }
    destruct delta as [k|] eqn:Hd; [|exists L; split_and!; [done..|]; apply Hsame; rewrite Hadd; by case_match].
    unfold slot_count. rewrite get_slots_active by done. cbn [mbind result_bind].
    destruct (_ =? 0) eqn:H0; [|exists L; split_and!; [done..|]; by apply Hsame].
    unfold allocated. rewrite Hadd. apply allocate_slots_eq; [done..|]. pose proof (Hdelta k Hd). cbn. lia.
Qed.

Lemma allocate_all s :
  delta_fits → wf_ledgers c (ledgers s) →
  (∀ l, l ∈ active_ledgers (ledgers s) → alloc_fits l (ledger_slots (ledgers s) l)) →
  ∃ L', allocate_additional_ledger_slots c previous new delta s = (set_ledgers L' s, Ok ()) ∧
    shape L' = shape (ledgers s) ∧
    ∀ l, ledger_slots L' l =
      if decide (l ∈ active_ledgers (ledgers s)) then allocated l (ledger_slots (ledgers s) l) else [].
Proof.
  intros Hdelta HL Hfit. unfold allocate_additional_ledger_slots.
  destruct (for_each_ledgers (allocate_ledger_slots c previous new delta) allocated alloc_fits
              (active_ledgers (ledgers s)) s) as (L' & HL' & Hsh & Hv).
  - by apply (wf_nodup c).
  - intros l L Hl Hsh Hp. apply allocate_ledger_slots_eq; [done|by apply (wf_ledgers_shape c (ledgers s))| |done].
    by rewrite (active_ledgers_shape _ _ Hsh).
  - done.
  - exists L'. split_and!; [done..|]. intros l. rewrite Hv. destruct (decide _) as [|Hout]; [done|].
    destruct (ledger_slots (ledgers s) l) eqn:El; [done|]. destruct Hout.
    apply (ledger_slots_active _ _ 0%nat l0). by rewrite El.
Qed.
End Alloc.

(** ** The write window *)

Definition in_window (prev_total new_total cps : Z) (i : nat) : bool :=
  (prev_total <? new_total) && negb (cps =? 0) &&
  (prev_total / cps <=? Z.of_nat i) && (Z.of_nat i <=? (new_total - 1) / cps).

Definition touched (prev_total new_total cps height : Z) (refresh : bool) (slots : list LedgerSlot) : list LedgerSlot :=
  imap (λ i s, if in_window prev_total new_total cps i then touch_slot height refresh s else s) slots.

Lemma lookup_touched p t cps h r slots i :
  touched p t cps h r slots !! i = (λ s, if in_window p t cps i then touch_slot h r s else s) <$> slots !! i.
Proof. apply list_lookup_imap. Qed.

Lemma touch_filled_slots_eq L l p t cps h r :
  l ∈ active_ledgers L →
  ∃ L', touch_filled_slots (E:=EpochSnapshotError) L l p t cps h r = Ok L' ∧ shape L' = shape L ∧
    ∀ l', ledger_slots L' l' = if decide (l' = l) then touched p t cps h r (ledger_slots L l) else ledger_slots L l'.
Proof.
  intros Hin. unfold touch_filled_slots. destruct ((t <=? p) || (cps =? 0)) eqn:Hnone.
  { exists L. split_and!; [done..|]. intros l'. destruct (decide (l' = l)) as [->|]; [|done].
    apply list_eq. intros i. rewrite lookup_touched.
    assert (in_window p t cps i = false) as -> by (unfold in_window; lia). by destruct (ledger_slots L l !! i). }
  rewrite slots_mut_eq by done. set (slots := ledger_slots L l).
  match goal with |- context [put_slots L l <$> ?f] => assert (f = Ok (touched p t cps h r slots)) as -> end.
  { case_match; f_equal; apply list_eq; intros i; rewrite ?list_lookup_imap, ?lookup_touched;
      destruct (slots !! i) as [s|] eqn:Hs; cbn; try done; apply lookup_lt_Some in Hs; f_equal.
    - assert (in_window p t cps i = false) as -> by (unfold in_window; lia). done.
    -
      unfold in_window. replace (p <? t) with true by lia. replace (cps =? 0) with false by lia. cbn [negb andb].
      replace (Z.of_nat i <=? Z.min ((t - 1) / cps) (Z.of_nat (length slots) - 1)) with (Z.of_nat i <=? (t - 1) / cps) by lia.
      done. }
  eexists. split_and!; [done|apply put_slots_shape|]. intros l'. by apply ledger_slots_put.
Qed.

Lemma touch_all c previous new refresh s :
  wf_ledgers c (ledgers s) →
  ∃ L', touch_active_ledger_slots c previous new refresh s = (set_ledgers L' s, Ok ()) ∧
    shape L' = shape (ledgers s) ∧
    ∀ l, ledger_slots L' l = touched (previous_total previous l) (ledger_total_chunks new l)
           (ec_num_chunks_in_partition c) (eh_height new) refresh (ledger_slots (ledgers s) l).
Proof.
  intros HL. unfold touch_active_ledger_slots.
  destruct (for_each_ledgers (λ l L, touch_filled_slots L l (previous_total previous l) (ledger_total_chunks new l)
              (ec_num_chunks_in_partition c) (eh_height new) refresh)
              (λ l, touched (previous_total previous l) (ledger_total_chunks new l)
                 (ec_num_chunks_in_partition c) (eh_height new) refresh) (λ _ _, True)
              (active_ledgers (ledgers s)) s) as (L' & HL' & Hsh & Hv).
  - by apply (wf_nodup c).
  - intros l L Hl Hsh _. apply touch_filled_slots_eq. by rewrite (active_ledgers_shape _ _ Hsh).
  - done.
  - exists L'. split_and!; [exact HL'|done|]. intros l. rewrite Hv. destruct (decide _) as [|Hout]; [done|].
    destruct (ledger_slots (ledgers s) l) eqn:El; [done|]. destruct Hout.
    apply (ledger_slots_active _ _ 0%nat l0). by rewrite El.
Qed.

(** ** Moves of partitions between slots and capacity *)

Record moved (s s' : EpochSnapshot) : Prop := mkMoved {
  mv_rest : rest s' = rest s;
  mv_shape : shape (ledgers s') = shape (ledgers s);
  mv_headers : ∀ l, headers (ledger_slots (ledgers s')) l = headers (ledger_slots (ledgers s)) l;
  mv_infos : expired_partition_infos s' = expired_partition_infos s
}.

#[global] Instance moved_preorder : PreOrder moved.
Proof.
  split; [done|]. intros s1 s2 s3 [R1 S1 H1 I1] [R2 S2 H2 I2]. split; [congruence..| |congruence].
  intros l. by rewrite H2.
Qed.

Notation slots_ok n X s :=
  (slot_inv n X (ledger_slots (ledgers s)) (data_partitions s) (capacity_partitions s)).

Lemma return_step n X h s :
  slots_ok n X s →
  ∃ s', return_expired_partition_to_capacity h s = (s', Ok ()) ∧ moved s s' ∧ slots_ok n (λ x, X x ∧ x ≠ h) s'.
Proof.
  intros Hinv. unfold return_expired_partition_to_capacity.
  destruct (data_partitions s !! h) as [a|] eqn:Ha.
  2: { exists s. split_and!; [done..|]. destruct Hinv as [Hdis Hd Hc Hin Hs Hm]. split; [done..| |done].
       intros l i slot Hl. destruct (Hs l i slot Hl) as (? & ? & Hx). split_and!; [done..|].
       intros He x Hx'. split; [by apply Hx|]. intros ->.
       destruct (proj1 (Hin l i h)) as [m Hm']; [by exists slot|congruence]. }
  destruct (si_data _ _ _ _ _ Hinv h a Ha) as (m & l & i & ->). cbn [pa_ledger_id pa_slot_index data_assignment].
  assert (in_slot (ledger_slots (ledgers s)) l i h) as (slot & Hslot & Hh) by (apply (si_in _ _ _ _ _ Hinv); eauto).
  destruct (slots_mut_upd (E:=EpochSnapshotError) (ledgers s) l i (remove_hash h) slot Hslot) as (L' & HL' & Hsh & Hv).
  eexists. split_and!.
  - unfold mbind, SE_bind, lift, modify, update_ledgers, update. cbn [expect pa_partition_hash data_assignment].
    unfold remove_partition_from_slot. cbn [ledgers set_assignments]. unfold remove_hash in HL'. rewrite HL'. reflexivity.
  - split; [|done| |done].
    + unfold rest. cbn. do 5 f_equal. by apply (own_return _ _ _ _ l i).
    + intros l'. rewrite <- (headers_upd (ledger_slots (ledgers s)) l i (remove_hash h)) by done.
      unfold headers. cbn [ledgers set_ledgers set_assignments]. by rewrite Hv.
  - cbn. apply (slot_inv_ext _ _ (upd (ledger_slots (ledgers s)) l i (remove_hash h))); [done|].
    apply slot_inv_cap_insert; [apply lookup_delete_eq|]. by apply (slot_inv_release _ _ _ _ _ _ m).
Qed.

Lemma return_all n hs X s :
  slots_ok n X s →
  ∃ s', for_each (λ info, return_expired_partition_to_capacity (ei_partition_hash info)) hs s = (s', Ok ()) ∧
    moved s s' ∧ slots_ok n (λ x, X x ∧ x ∉ ei_partition_hash <$> hs) s'.
Proof.
  revert X s. induction hs as [|h hs IH]; intros X s Hinv; cbn [for_each].
  - exists s. split_and!; [done..|]. revert Hinv. apply slot_inv_weaken. intros x Hx. split; [done|]. apply not_elem_of_nil.
  - destruct (return_step n X (ei_partition_hash h) s Hinv) as (s1 & H1 & Hm1 & Hi1).
    destruct (IH _ s1 Hi1) as (s2 & H2 & Hm2 & Hi2). exists s2. split_and!.
    + unfold mbind, SE_bind. by rewrite H1.
    + by transitivity s1.
    + revert Hi2. apply slot_inv_weaken. intros x [[? ?] ?]. split; [done|]. cbn. by apply not_elem_of_cons.
Qed.

(** ** Expiry *)

Section Expire.
  Context `{Sha256} (c : EpochConfig) (Hc : config_ok c) (new : EpochHeader) (cascade : bool).

(** The slots of a ledger that expire at the new epoch block. *)
Definition expiring_now (L : Ledgers) (l : DataLedger) : list nat :=
  expiring L (eh_height new) cascade (ledger_total_chunks new l) (ec_num_chunks_in_partition c) l.

Definition expired_infos (L : Ledgers) : list ExpiringPartitionInfo :=
  active_ledgers L ≫= λ l, expiring_now L l ≫= λ i, slot_infos l i (slot_partitions L l i).

Definition infos_option (infos : list ExpiringPartitionInfo) : option (list ExpiringPartitionInfo) :=
  if bool_decide (length infos = 0%nat) then None else Some infos.

Lemma expired_infos_hash L l i h :
  i ∈ expiring_now L l → in_slot (ledger_slots L) l i h → h ∈ ei_partition_hash <$> expired_infos L.
Proof.
  intros Hi (slot & Hslot & Hh). apply list_elem_of_fmap. exists (mkExpiringPartitionInfo h l i). split; [done|].
  apply list_elem_of_bind. exists l. split; [|by eapply ledger_slots_active].
  apply list_elem_of_bind. exists i. split; [|done]. unfold slot_infos, slot_partitions. rewrite Hslot.
  apply list_elem_of_fmap. by exists h.
Qed.

Lemma expire_ledger_slots_run n s :
  wf_ledgers c (ledgers s) → slots_ok n (λ _, False) s →
  ∃ s', expire_ledger_slots c new cascade s = (s', Ok ()) ∧
    rest s' = rest s ∧ shape (ledgers s') = shape (ledgers s) ∧
    (∀ l, headers (ledger_slots (ledgers s')) l =
          header <$> expire_at (expiring_now (ledgers s) l) (ledger_slots (ledgers s) l)) ∧
    expired_partition_infos s' = infos_option (expired_infos (ledgers s)) ∧
    slots_ok n (λ _, False) s'.
Proof.
  intros HL Hinv. unfold expire_ledger_slots.
  destruct (expire_partitions_eq (E:=EpochSnapshotError) (eh_height new) cascade (ledger_total_chunks new)
              (ec_num_chunks_in_partition c) (ledgers s) (wf_nodup c _ HL) (wf_lifetimes_fit c _ Hc HL))
    as (L' & HL' & Hsh & Hv).
  change (expire_partitions (E:=EpochSnapshotError) (ledgers s) (eh_height new) cascade (ledger_total_chunks new)
            (ec_num_chunks_in_partition c) = Ok (L', expired_infos (ledgers s))) in HL'.
  rewrite HL'. unfold infos_option.
  assert (Hinv' : slots_ok n (λ h, ∃ l i, i ∈ expiring_now (ledgers s) l ∧ in_slot (ledger_slots (ledgers s)) l i h)
                    (set_ledgers L' s)).
  { eapply slot_inv_ext, slot_inv_expire, Hinv. intros l. apply Hv. }
  case_bool_decide as Hlen.
  - exists (set_infos None (set_ledgers L' s)). split_and!; [reflexivity|reflexivity|exact Hsh| |reflexivity|].
    + intros l. unfold headers. cbn [ledgers set_infos set_ledgers]. by rewrite Hv.
    + revert Hinv'. apply slot_inv_weaken. intros h (l & i & Hi & Hh).
      pose proof (expired_infos_hash _ _ _ _ Hi Hh) as Hin. apply nil_length_inv in Hlen. rewrite Hlen in Hin.
      by apply elem_of_nil in Hin.
  - destruct (return_all n (expired_infos (ledgers s)) _ _ Hinv') as (s' & Hs' & [Hr Hsh' Hh Hi] & Hinv2).
    exists (set_infos (Some (expired_infos (ledgers s))) s'). split_and!.
    + unfold mbind, SE_bind. by rewrite Hs'.
    + done.
    + cbn in Hsh' |- *. congruence.
    + intros l. unfold expiring_now. rewrite <- (Hv l). apply (Hh l).
    + done.
    + revert Hinv2. apply slot_inv_weaken. intros h [(l & i & Hi' & Hh') Hnot]. apply Hnot. by eapply expired_infos_hash.
Qed.
End Expire.

(** * Backfilling of slots from the capacity pool: the random choice always ends and stays in
    range, no slot gets two partitions of one miner, and the pool list follows the map. *)

(** ** [swap_remove] *)

Lemma swap_remove_spec {A} (i : nat) (l : list A) :
  (i < length l)%nat → ∃ x l', swap_remove i l = Some (x, l') ∧ l ≡ₚ x :: l'.
Proof.
  intros Hi. destruct (lookup_lt_is_Some_2 _ _ Hi) as [x Hx]. unfold swap_remove. rewrite Hx.
  destruct (list_snoc_cases l) as [->|(l0 & y & ->)]; [done|]. rewrite last_snoc.
  exists x, (take (length (l0 ++ [y]) - 1) (<[i:=y]> (l0 ++ [y]))). split; [done|].
  rewrite length_app. cbn [length]. replace (length l0 + 1 - 1)%nat with (length l0) by lia.
  destruct (decide (i = length l0)) as [->|Hne].
  - rewrite lookup_app_r, Nat.sub_diag in Hx by done. injection Hx as ->.
    rewrite insert_app_r_alt by done. rewrite take_app_length' by done.
    symmetry. apply Permutation_cons_append.
  - assert (i < length l0)%nat as Hlt by (rewrite length_app in Hi; cbn in Hi; lia).
    rewrite lookup_app_l in Hx by done. rewrite insert_app_l by done.
    rewrite take_app_length' by (by rewrite length_insert).
    rewrite <- (take_drop_middle l0 i x Hx) at 1. rewrite (insert_take_drop l0 i y Hlt).
    rewrite <- !app_assoc. cbn [app]. rewrite <- Permutation_middle. constructor.
    apply Permutation_app_head. symmetry. apply Permutation_cons_append.
Qed.

(** ** Slot needs *)

Lemma slot_needs_from_spec {E} n k slots :
  Forall (λ s, Z.of_nat (length (partitions s)) ≤ n) slots →
  ∃ needs, slot_needs_from (E:=E) n k slots = Ok needs ∧ NoDup needs.*1 ∧
    ∀ i m, (i, m) ∈ needs → (k ≤ i)%nat ∧ ∃ slot, slots !! (i - k)%nat = Some slot ∧ is_expired slot = false ∧
      Z.of_nat (length (partitions slot)) + Z.of_nat m ≤ n.
Proof.
  intros Hall. revert k. induction Hall as [|s slots Hs _ IH]; intros k; cbn [slot_needs_from].
  { exists []. split_and!; [done|constructor|]. by intros i m ?%elem_of_nil. }
  unfold checked_sub. rewrite (proj2 (Z.leb_le _ _) Hs). cbn [expect mbind result_bind].
  destruct (IH (S k)) as (needs & -> & Hnd & Hn). cbn [mbind result_bind].
  assert (Hn' : ∀ i m, (i, m) ∈ needs → (k ≤ i)%nat ∧ ∃ slot, (s :: slots) !! (i - k)%nat = Some slot ∧
     is_expired slot = false ∧ Z.of_nat (length (partitions slot)) + Z.of_nat m ≤ n).
  { intros i m Him. destruct (Hn i m Him) as [Hk Hslot]. split; [lia|].
    by replace (i - k)%nat with (S (i - S k)) by lia. }
  eexists. split; [done|]. case_match; [|done]. split.
  - cbn. constructor; [|done]. intros ([i m] & Heq & Him)%list_elem_of_fmap. cbn in Heq. subst i.
    apply Hn in Him. lia.
  - intros i m [[= -> ->]|Him]%elem_of_cons; [|by apply Hn']. split; [done|]. rewrite Nat.sub_diag.
    exists s. split; [done|]. rewrite andb_true_iff, negb_true_iff in H. split; [by apply H|]. lia.
Qed.

Lemma slot_miners_spec s hashes :
  (∀ h, h ∈ hashes → is_Some (get_assignment s h)) →
  ∃ ms, slot_miners s hashes = Ok ms ∧
    ∀ h a, h ∈ hashes → get_assignment s h = Some a → pa_miner_address a ∈ ms.
Proof.
  induction hashes as [|h hashes IH]; intros Hall; cbn [slot_miners].
  { exists []. split; [done|]. by intros h a ?%elem_of_nil. }
  destruct (Hall h) as [a Ha]; [by left|]. rewrite Ha. cbn [expect mbind result_bind].
  destruct IH as (ms & -> & Hms); [intros x Hx; apply Hall; by right|]. cbn [mbind result_bind].
  eexists. split; [done|]. intros x b [->|Hx]%elem_of_cons Hb; [|right; by eapply Hms].
  assert (b = a) as -> by congruence. left.
Qed.

(** ** The candidates *)

Record pool_list (s : EpochSnapshot) (capacity : Candidates) : Prop := mkPoolList {
  pl_nodup : NoDup capacity.*1;
  pl_lookup : ∀ h a, (h, a) ∈ capacity ↔ capacity_partitions s !! h = Some a
}.

(** The candidates of one slot: no two of one partition, none of a miner of the slot. *)
Record view_ok (s : EpochSnapshot) (l : DataLedger) (i : nat) (view : Candidates) : Prop := mkViewOk {
  vw_nodup : NoDup view.*1;
  vw_capacity : ∀ h a, (h, a) ∈ view → capacity_partitions s !! h = Some a;
  vw_miner : ∀ h a, (h, a) ∈ view → ∀ h', data_partitions s !! h' ≠ Some (data_assignment h' (pa_miner_address a) l i)
}.

Lemma pool_list_length s capacity : pool_list s capacity → length capacity = size (capacity_partitions s).
Proof.
  intros [Hnd Hl]. rewrite <- length_map_to_list. apply Permutation_length, NoDup_Permutation.
  - by eapply NoDup_fmap_1.
  - apply NoDup_map_to_list.
  - intros [h a]. by rewrite Hl, elem_of_map_to_list.
Qed.

Lemma NoDup_fst_filter {A} (P : Z * A → Prop) `{!∀ x, Decision (P x)} (l : list (Z * A)) :
  NoDup l.*1 → NoDup (filter P l).*1.
Proof. intros Hnd. apply (sublist_NoDup _ l.*1); [done|]. apply fmap_sublist, sublist_filter. Qed.

Lemma draw_spec seed len :
  u32 seed → (0 < len)%nat → Z.of_nat len < 2 ^ 32 →
  ∃ seed' r, draw seed len = Ok (seed', r) ∧ u32 seed' ∧ (Z.to_nat r < len)%nat.
Proof.
  intros Hs Hl Hlt. unfold draw. rewrite Z.mod_small by lia. rewrite (proj2 (Z.eqb_neq _ _)) by lia.
  destruct (next_range_total seed (Z.of_nat len) Hs) as (seed' & r & -> & ? & ?); [lia|].
  exists seed', r. split_and!; [done..|lia].
Qed.

(** ** One assignment *)

Section Fill.
  Context (n : Z).

(** The partition [h] of the pool moves to slot [i] of ledger [l]. *)
Lemma assign_push_step l i slot h a view capacity s :
  slots_ok n (λ _, False) s → ledger_slots (ledgers s) l !! i = Some slot → is_expired slot = false →
  Z.of_nat (length (partitions slot)) < n →
  pool_list s capacity → view_ok s l i ((h, a) :: view) →
  ∃ L', push_partition_to_slot (E:=EpochSnapshotError) (ledgers s) l i h = Ok L' ∧
    let s' := set_ledgers L' (assign_partition_to_slot h l i s) in
    moved s s' ∧ slots_ok n (λ _, False) s' ∧
    (∀ l', ledger_slots (ledgers s') l' = upd (ledger_slots (ledgers s)) l i (push_hash h) l') ∧
    pool_list s' (filter (λ x, x.1 ≠ h) capacity) ∧
    view_ok s' l i (filter (λ x, pa_miner_address x.2 ≠ pa_miner_address a) view).
Proof.
  intros Hinv Hslot Hexp Hlen [Hnd Hpool] [Hvnd Hvcap Hvmin].
  assert (Hh : capacity_partitions s !! h = Some a) by (apply Hvcap; left).
  pose proof (si_cap _ _ _ _ _ Hinv h a Hh) as Ha. set (m := pa_miner_address a) in *.
  assert (Hd : data_partitions s !! h = None).
  { destruct (data_partitions s !! h) eqn:E; [|done]. by rewrite (si_disjoint _ _ _ _ _ Hinv h) in Hh by (by rewrite E). }
  destruct (slots_mut_upd (E:=EpochSnapshotError) (ledgers s) l i (push_hash h) slot Hslot) as (L' & HL' & Hsh & Hv).
  exists L'. split; [exact HL'|]. unfold assign_partition_to_slot. rewrite Hh, Ha. cbn [pa_partition_hash pa_miner_address].
  fold (data_assignment h m l i). cbv zeta. cbn [ledgers set_ledgers set_assignments data_partitions capacity_partitions].
  split_and!.
  - split; [|exact Hsh| |done].
    + unfold rest. cbn. do 5 f_equal. apply own_push; [done|]. by rewrite Hh, Ha.
    + intros l'. rewrite <- (headers_upd (ledger_slots (ledgers s)) l i (push_hash h)) by done.
      unfold headers. cbn [ledgers set_ledgers set_assignments]. by rewrite Hv.
  - apply (slot_inv_ext _ _ (upd (ledger_slots (ledgers s)) l i (push_hash h))); [done|].
    apply (slot_inv_push n _ _ _ _ h m l i slot); try done; [by rewrite Hh, Ha|].
    intros h'. apply (Hvmin h). left.
  - done.
  - split; [by apply NoDup_fst_filter|]. intros x b. rewrite list_elem_of_filter, Hpool. cbn.
    rewrite lookup_delete_Some. naive_solver.
  - apply NoDup_cons in Hvnd as [Hnot Hvnd]. split; [by apply NoDup_fst_filter| |].
    + intros x b [_ Hx]%list_elem_of_filter. cbn. rewrite lookup_delete_ne; [apply Hvcap; by right|].
      intros <-. apply Hnot. apply list_elem_of_fmap. by exists (h, b).
    + intros x b [Hne Hx]%list_elem_of_filter h'. cbn. cbn in Hne. rewrite lookup_insert_Some.
      intros [[<- [= Heq]]|[_ Hx']]; [done|]. revert Hx'. apply (Hvmin x). by right.
Qed.

(** ** One slot *)

Lemma fill_slot_run k : ∀ l i slot view capacity rng s,
  slots_ok n (λ _, False) s → ledger_slots (ledgers s) l !! i = Some slot → is_expired slot = false →
  Z.of_nat (length (partitions slot)) + Z.of_nat k ≤ n →
  pool_list s capacity → view_ok s l i view → Z.of_nat (length view) < 2 ^ 32 → u32 rng →
  ∃ s' capacity' rng', fill_slot k l i view capacity rng s = (s', Ok (capacity', rng')) ∧
    moved s s' ∧ slots_ok n (λ _, False) s' ∧ pool_list s' capacity' ∧
    (length capacity' ≤ length capacity)%nat ∧ u32 rng' ∧
    ∀ l' j, ¬ (l' = l ∧ j = i) → ledger_slots (ledgers s') l' !! j = ledger_slots (ledgers s) l' !! j.
Proof.
  induction k as [|k IH]; intros l i slot view capacity rng s Hinv Hslot Hexp Hlen Hpool Hview Hvl Hrng;
    cbn [fill_slot]; [by exists s, capacity, rng|].
  case_bool_decide as Hempty; [by exists s, capacity, rng|].
  destruct (draw_spec rng (length view) Hrng) as (rng1 & r & Hdraw & Hrng1 & Hr); [lia..|].
  destruct (swap_remove_spec (Z.to_nat r) view Hr) as ([h a] & view1 & Hswap & Hperm).
  assert (Hview1 : view_ok s l i ((h, a) :: view1)).
  { destruct Hview as [Hnd Hcap Hmin]. split.
    - by rewrite <- Hperm.
    - intros x b. rewrite <- Hperm. apply Hcap.
    - intros x b. rewrite <- Hperm. apply Hmin. }
  destruct (assign_push_step l i slot h a view1 capacity s) as (L' & HL' & Hm & Hinv1 & Hv & Hpool1 & Hview2);
    [done..|lia|done|done|].
  set (s1 := set_ledgers L' (assign_partition_to_slot h l i s)) in *.
  destruct (IH l i (push_hash h slot) (filter (λ x, pa_miner_address x.2 ≠ pa_miner_address a) view1)
              (filter (λ x, x.1 ≠ h) capacity) rng1 s1) as (s' & cap' & rng' & Hs' & Hm' & Hinv' & Hp' & Hl' & Hr' & Hother).
  - done.
  - rewrite Hv, lookup_upd, decide_True, Hslot by done. done.
  - done.
  - cbn. rewrite length_app. cbn. lia.
  - done.
  - done.
  - pose proof (length_filter (λ x : Z * PartitionAssignment, pa_miner_address x.2 ≠ pa_miner_address a) view1).
    apply Permutation_length in Hperm. cbn in Hperm. lia.
  - done.
  - exists s', cap', rng'. split_and!; [|by transitivity s1|done|done| |done|].
    + unfold mbind, SE_bind, lift. rewrite Hdraw. cbn [snd]. rewrite Hswap. cbn [expect fst snd].
      unfold modify, update_ledgers, update.
      assert (ledgers (assign_partition_to_slot h l i s) = ledgers s) as ->.
      { unfold assign_partition_to_slot. by case_match. }
      rewrite HL'. exact Hs'.
    + etrans; [exact Hl'|]. apply length_filter.
    + intros l' j Hne. rewrite Hother by done. by rewrite Hv, lookup_upd, decide_False.
Qed.

(** ** One ledger *)

Definition need_ok (V : Slots) (l : DataLedger) (need : nat * nat) : Prop :=
  ∃ slot, V l !! need.1 = Some slot ∧ is_expired slot = false ∧
    Z.of_nat (length (partitions slot)) + Z.of_nat need.2 ≤ n.

(** The view of a slot: the pool without the miners of the slot. *)
Lemma slot_view l i slot s :
  slots_ok n (λ _, False) s → ledger_slots (ledgers s) l !! i = Some slot →
  ∃ miners, slot_miners s (partitions slot) = Ok miners ∧
    ∀ capacity, pool_list s capacity →
      view_ok s l i (filter (λ x, pa_miner_address x.2 ∉ miners) capacity).
Proof.
  intros Hinv Hslot.
  assert (Hdata : ∀ h, h ∈ partitions slot → ∃ m, data_partitions s !! h = Some (data_assignment h m l i)).
  { intros h Hh. apply (si_in _ _ _ _ _ Hinv). by exists slot. }
  destruct (slot_miners_spec s (partitions slot)) as (miners & Hm & Hmem).
  { intros h Hh. destruct (Hdata h Hh) as [m Hd]. unfold get_assignment. by rewrite Hd. }
  exists miners. split; [done|]. intros capacity [Hnd Hpool]. split.
  - by apply NoDup_fst_filter.
  - intros h a [_ Hin]%list_elem_of_filter. by apply Hpool.
  - intros h a [Hnot _]%list_elem_of_filter h' Hd. apply Hnot. cbn.
    apply (Hmem h' (data_assignment h' (pa_miner_address a) l i)).
    + destruct (proj2 (si_in _ _ _ _ _ Hinv l i h')) as (slot' & Hs' & Hh'); [eauto|]. congruence.
    + unfold get_assignment. by rewrite Hd.
Qed.

Definition pool_fits (s : EpochSnapshot) : Prop := Z.of_nat (size (capacity_partitions s)) < 2 ^ 32.

Lemma process_slots_run l needs : ∀ capacity rng s,
  slots_ok n (λ _, False) s → NoDup needs.*1 → Forall (need_ok (ledger_slots (ledgers s)) l) needs →
  pool_list s capacity → Z.of_nat (length capacity) < 2 ^ 32 → u32 rng →
  ∃ s' capacity' rng', process_slots l needs capacity rng s = (s', Ok (capacity', rng')) ∧
    moved s s' ∧ slots_ok n (λ _, False) s' ∧ pool_list s' capacity' ∧
    (length capacity' ≤ length capacity)%nat ∧ u32 rng'.
Proof.
  induction needs as [|[i k] needs IH]; intros capacity rng s Hinv Hnd Hneeds Hpool Hlen Hrng;
    [by exists s, capacity, rng|].
  cbn in Hnd. apply NoDup_cons in Hnd as [Hnot Hnd].
  apply Forall_cons in Hneeds as [(slot & Hslot & Hexp & Hk) Hneeds]. cbn [fst snd] in *.
  destruct (slot_view l i slot s Hinv Hslot) as (miners & Hminers & Hview).
  destruct (fill_slot_run k l i slot (filter (λ x, pa_miner_address x.2 ∉ miners) capacity) capacity rng s)
    as (s1 & cap1 & rng1 & H1 & Hm1 & Hinv1 & Hp1 & Hl1 & Hr1 & Hother);
    [done..|by apply Hview| |done|].
  { eapply Z.le_lt_trans; [|exact Hlen]. apply inj_le, length_filter. }
  destruct (IH cap1 rng1 s1) as (s' & cap' & rng' & Hs' & Hm' & Hinv' & Hp' & Hl' & Hr'); [done..| |done|lia|done|].
  - apply Forall_forall. intros [j k'] Hj. rewrite Forall_forall in Hneeds.
    destruct (Hneeds _ Hj) as (slot' & Hslot' & ?). exists slot'. split; [|done]. cbn. rewrite Hother; [done|].
    intros [_ ->]. apply Hnot. apply list_elem_of_fmap. by exists (i, k').
  - exists s', cap', rng'. split_and!; [|by transitivity s1|done|done|lia|done].
    cbn [process_slots]. unfold mbind, SE_bind, gets, lift, result_bind. cbn [id].
    rewrite get_slots_active by (by eapply ledger_slots_active). rewrite Hslot. cbn [expect].
    rewrite Hminers. by rewrite H1.
Qed.

Lemma process_slot_needs_run c l capacity rng s :
  n = ec_num_partitions_per_slot c → wf_ledgers c (ledgers s) → l ∈ active_ledgers (ledgers s) →
  slots_ok n (λ _, False) s → pool_list s capacity → Z.of_nat (length capacity) < 2 ^ 32 → u32 rng →
  ∃ s' capacity' rng', process_slot_needs l capacity rng s = (s', Ok (capacity', rng')) ∧
    moved s s' ∧ slots_ok n (λ _, False) s' ∧ pool_list s' capacity' ∧
    (length capacity' ≤ length capacity)%nat ∧ u32 rng'.
Proof.
  intros Hn HL Hin Hinv Hpool Hlen Hrng.
  destruct (slot_needs_from_spec (E:=EpochSnapshotError) n 0 (ledger_slots (ledgers s) l)) as (needs & Hneeds & Hnd & Hok).
  { apply Forall_lookup. intros i slot Hslot. by apply (si_slot _ _ _ _ _ Hinv l i). }
  destruct (process_slots_run l needs capacity rng s) as (s' & Hs'); [done..| |done|done|done|].
  - apply Forall_forall. intros [i m] Him. destruct (Hok i m Him) as (_ & slot & Hslot & Hrest).
    rewrite Nat.sub_0_r in Hslot. by exists slot.
  - exists s'. unfold process_slot_needs, get_slot_needs. unfold mbind, SE_bind, gets, lift, result_bind.
    rewrite (wf_partitions_per_slot c), get_slots_active by done.
    rewrite <- Hn, Hneeds. exact Hs'.
Qed.
End Fill.

(** ** All ledgers *)

Lemma backfill_ledgers_run c ls : ∀ capacity rng s,
  wf_ledgers c (ledgers s) → (∀ l, l ∈ ls → l ∈ active_ledgers (ledgers s)) →
  slots_ok (ec_num_partitions_per_slot c) (λ _, False) s →
  pool_list s capacity → Z.of_nat (length capacity) < 2 ^ 32 → u32 rng →
  ∃ s', backfill_ledgers ls capacity rng s = (s', Ok ()) ∧ moved s s' ∧
    slots_ok (ec_num_partitions_per_slot c) (λ _, False) s'.
Proof.
  induction ls as [|l ls IH]; intros capacity rng s HL Hin Hinv Hpool Hlen Hrng; [by exists s|].
  destruct (process_slot_needs_run (ec_num_partitions_per_slot c) c l capacity rng s)
    as (s1 & cap1 & rng1 & H1 & Hm1 & Hinv1 & Hp1 & Hl1 & Hr1); [done|done|apply Hin; left|done..|].
  destruct (IH cap1 rng1 s1) as (s' & Hs' & Hm' & Hinv').
  - by apply (wf_ledgers_shape c (ledgers s)), HL; apply Hm1.
  - intros l' Hl'. rewrite (active_ledgers_shape _ (ledgers s)) by apply Hm1. apply Hin. by right.
  - done.
  - done.
  - lia.
  - done.
  - exists s'. split_and!; [|by transitivity s1|done]. cbn [backfill_ledgers]. unfold mbind, SE_bind.
    by rewrite H1.
Qed.

Lemma to_u32_u32 h : u32 (to_u32 h).
Proof. unfold u32, to_u32. apply Z.mod_pos_bound. lia. Qed.

Lemma backfill_run c s :
  wf_ledgers c (ledgers s) → slots_ok (ec_num_partitions_per_slot c) (λ _, False) s → pool_fits s →
  ∃ s', backfill_missing_partitions s = (s', Ok ()) ∧ moved s s' ∧
    slots_ok (ec_num_partitions_per_slot c) (λ _, False) s'.
Proof.
  intros HL Hinv Hfit. unfold backfill_missing_partitions, mbind, SE_bind, gets.
  set (capacity := sort_by_key fst (map_to_list (capacity_partitions (id s)))).
  assert (Hperm : capacity ≡ₚ map_to_list (capacity_partitions s)) by apply merge_sort_Permutation.
  assert (Hpool : pool_list s capacity).
  { split; [rewrite Hperm; apply NoDup_fst_map_to_list|]. intros h a. by rewrite Hperm, elem_of_map_to_list. }
  apply (backfill_ledgers_run c); [done..| |apply to_u32_u32].
  rewrite (pool_list_length s) by done. exact Hfit.
Qed.
