(* ===== verification/EpochCommit.v ===== *)
(** The steps of the epoch transition that change stakes, pledges and the pool of partition
    hashes: the commitments of the epoch, new capacity and the assignment of hashes to
    pledges. *)

From S2P Require Import SimpleRng TreeHash StateErr DataLedger EpochSnapshot EpochInv EpochSlots Prelude.

Notation pool_ok seed s := (pool_inv seed (all_active_partitions s) (unassigned_partitions s) (owners s)).
Notation commit_ok s := (commit_inv (stake_commitments s) (pledge_commitments s) (owners s)).
Notation entries_of s a := (entries (pledge_commitments s) a).

(** Reads of a field after an update. *)
Ltac snap :=
  cbn [ledgers data_partitions capacity_partitions all_active_partitions unassigned_partitions stake_commitments
       pledge_commitments epoch_block previous_epoch_block expired_partition_infos epoch_height set_ledgers
       set_assignments set_pool set_stakes set_pledges set_blocks set_infos set_height drop_pledge].

Lemma entries_insert pledges a l b :
  entries (<[a := l]> pledges) b = if decide (a = b) then l else entries pledges b.
Proof.
  unfold entries. destruct (decide (a = b)) as [->|Hne].
  - by rewrite lookup_insert_eq.
  - by rewrite lookup_insert_ne.
Qed.

(** ** Stakes and pledges *)

Definition stake_all (ts : list CommitmentTransaction) (stakes : gmap Z StakeEntry) : gmap Z StakeEntry :=
  fold_left (λ m t, <[tx_signer t := stake_entry t]> m) ts stakes.

Lemma set_stakes_twice m m' s : set_stakes m (set_stakes m' s) = set_stakes m s.
Proof. done. Qed.

Lemma add_stakes_run ts s : for_each add_stake ts s = (set_stakes (stake_all ts (stake_commitments s)) s, Ok ()).
Proof.
  revert s. induction ts as [|t ts IH]; intros s; cbn [for_each]; [by destruct s|].
  unfold mbind, SE_bind, add_stake at 1, modify at 1. by rewrite IH.
Qed.

Lemma stake_all_spec ts stakes a :
  is_Some (stake_all ts stakes !! a) ↔ is_Some (stakes !! a) ∨ ∃ t, t ∈ ts ∧ tx_signer t = a.
Proof.
  unfold stake_all. revert stakes. induction ts as [|t ts IH]; intros stakes; cbn [fold_left].
  - split; [by left|]. intros [?|(t & ?%elem_of_nil & _)]; done.
  - rewrite IH, lookup_insert_is_Some'. setoid_rewrite elem_of_cons. naive_solver.
Qed.

Lemma stake_all_status ts stakes a e :
  stake_all ts stakes !! a = Some e →
  (∃ t, t ∈ ts ∧ tx_signer t = a ∧ e = stake_entry t) ∨ stakes !! a = Some e.
Proof.
  unfold stake_all. revert stakes. induction ts as [|t ts IH]; intros stakes; cbn [fold_left]; [by right|].
  intros [(t' & ? & ?)|Hs]%IH; [left; exists t'; split; [by right|done]|].
  apply lookup_insert_Some in Hs as [[<- <-]|[_ ?]]; [left; exists t; split; [by left|done]|by right].
Qed.

Lemma commit_inv_stakes stakes stakes' pledges ow :
  commit_inv stakes pledges ow →
  (∀ a e, stakes' !! a = Some e → se_status e = Active ∧ se_signer e = a) →
  (∀ a, entries pledges a ≠ [] → is_Some (stakes !! a) → is_Some (stakes' !! a)) →
  commit_inv stakes' pledges ow.
Proof.
  intros [Hs He Hi Hh Ho] Hs' Hmono. split; [done| |done..]. intros a e Hin.
  destruct (He a e Hin) as (? & ? & ?). split_and!; [done..|]. apply Hmono; [|done]. intros Hnil.
  rewrite Hnil in Hin. by apply elem_of_nil in Hin.
Qed.

Lemma commit_inv_stake_all ts stakes pledges ow :
  commit_inv stakes pledges ow → commit_inv (stake_all ts stakes) pledges ow.
Proof.
  intros HI. eapply commit_inv_stakes; [done| |].
  - intros a e [(t & _ & <- & ->)|Hs]%stake_all_status; [done|]. by apply (ci_stake _ _ _ HI).
  - intros a _ Ha. apply stake_all_spec. by left.
Qed.

Lemma is_staked_spec s a : commit_ok s → is_staked s a = true ↔ is_Some (stake_commitments s !! a).
Proof.
  intros HI. unfold is_staked. destruct (stake_commitments s !! a) as [e|] eqn:Ha.
  - destruct (ci_stake _ _ _ HI a e Ha) as [-> _]. by rewrite bool_decide_true.
  - split; [done|]. by intros [? ?].
Qed.

(** One pledge: a pending entry with a new id. *)
Lemma commit_inv_pledge stakes pledges ow a p :
  commit_inv stakes pledges ow → is_Some (stakes !! a) →
  pe_signer p = a → pe_status p = Active → pe_partition_hash p = None → pe_id p ∉ pe_id <$> entries pledges a →
  commit_inv stakes (<[a := entries pledges a ++ [p]]> pledges) ow.
Proof.
  intros [Hs He Hi Hh Ho] Ha Hsig Hst Hnone Hfresh.
  assert (Homap : ∀ b, omap pe_partition_hash (entries (<[a := entries pledges a ++ [p]]> pledges) b) =
                       omap pe_partition_hash (entries pledges b)).
  { intros b. rewrite entries_insert. destruct (decide (a = b)) as [<-|]; [|done].
    rewrite omap_app. cbn. rewrite Hnone. apply app_nil_r. }
  split; [done| | | |].
  - intros b e. rewrite entries_insert. destruct (decide (a = b)) as [<-|]; [|apply He].
    intros [?| ->%list_elem_of_singleton]%elem_of_app; [by apply He|done].
  - intros b. rewrite entries_insert. destruct (decide (a = b)) as [<-|]; [|apply Hi].
    rewrite fmap_app. apply NoDup_app. split_and!; [apply Hi| |apply NoDup_singleton].
    intros x Hx ->%list_elem_of_singleton. done.
  - intros b. rewrite Homap. apply Hh.
  - intros b h. rewrite Homap. apply Ho.
Qed.

Definition pledges_by (a : Z) (ts : list CommitmentTransaction) : list PledgeEntry :=
  pledge_entry <$> filter (λ t, tx_signer t = a) ts.

Lemma add_pledges_run ts : ∀ s,
  commit_ok s → (∀ t, t ∈ ts → is_Some (stake_commitments s !! tx_signer t)) →
  NoDup (tx_id <$> ts) → (∀ t, t ∈ ts → tx_id t ∉ pe_id <$> entries_of s (tx_signer t)) →
  ∃ pledges, for_each add_pledge ts s = (set_pledges pledges s, Ok ()) ∧
    commit_inv (stake_commitments s) pledges (owners s) ∧
    ∀ a, entries pledges a = entries_of s a ++ pledges_by a ts.
Proof.
  induction ts as [|t ts IH]; intros s HI Hst Hnd Hfresh; cbn [for_each].
  { exists (pledge_commitments s). split_and!; [by destruct s|done|]. intros a. by rewrite app_nil_r. }
  cbn in Hnd. apply NoDup_cons in Hnd as [Hnot Hnd].
  set (a := tx_signer t) in *.
  set (pl := <[a := entries_of s a ++ [pledge_entry t]]> (pledge_commitments s)).
  assert (HI1 : commit_inv (stake_commitments s) pl (owners s)).
  { apply commit_inv_pledge; [done|apply Hst; left|done..|apply Hfresh; left]. }
  destruct (IH (set_pledges pl s)) as (pledges & Hrun & HI2 & Hent).
  - done.
  - intros t' Ht'. apply Hst. by right.
  - done.
  - intros t' Ht'. cbn. unfold pl. rewrite entries_insert. destruct (decide (a = tx_signer t')) as [Heq|].
    + rewrite fmap_app, not_elem_of_app. cbn. split; [rewrite Heq; apply Hfresh; by right|].
      intros Hid%list_elem_of_singleton. apply Hnot. rewrite <- Hid. by apply list_elem_of_fmap_2.
    + apply Hfresh. by right.
  - exists pledges. split_and!.
    + unfold mbind, SE_bind, add_pledge at 1, update. fold a. rewrite (proj2 (is_staked_spec s a HI)) by (apply Hst; left).
      exact Hrun.
    + done.
    + intros b. rewrite Hent. cbn [pledge_commitments set_pledges]. unfold pl. rewrite entries_insert.
      unfold pledges_by. rewrite filter_cons. destruct (decide (a = b)) as [<-|Hne].
      * rewrite decide_True by done. by rewrite <- app_assoc.
      * by rewrite decide_False by done.
Qed.

(** ** Unpledges *)

Lemma elem_of_hashes (es : list PledgeEntry) h : h ∈ omap pe_partition_hash es ↔ ∃ e, e ∈ es ∧ pe_partition_hash e = Some h.
Proof. apply list_elem_of_omap. Qed.

Lemma remove_pledge_filter h (es : list PledgeEntry) :
  NoDup (omap pe_partition_hash es) → remove_pledge h es = filter (λ e, pe_partition_hash e ≠ Some h) es.
Proof.
  induction es as [|e es IH]; [done|]. intros Hnd. cbn [remove_pledge]. rewrite filter_cons.
  destruct (decide (pe_partition_hash e = Some h)) as [Heq|Hne].
  - rewrite decide_False by naive_solver. cbn in Hnd. rewrite Heq in Hnd. apply NoDup_cons in Hnd as [Hnot _].
    symmetry. apply list_filter_id. intros e' He' Hh. apply Hnot, elem_of_hashes. eauto.
  - rewrite decide_True by done. f_equal. apply IH. cbn in Hnd. destruct (pe_partition_hash e); [|done].
    by apply NoDup_cons in Hnd as [_ ?].
Qed.

Lemma sublist_omap {A B} (f : A → option B) (l k : list A) : l `sublist_of` k → omap f l `sublist_of` omap f k.
Proof. induction 1 as [|x l k _ IH|x l k _ IH]; cbn; [done| |]; destruct (f x); [by constructor|done|by constructor|done]. Qed.

Lemma commit_inv_unpledge stakes pledges ow a h :
  commit_inv stakes pledges ow → ow !! h = Some a →
  commit_inv stakes (alter (remove_pledge h) a pledges) (delete h ow) ∧
  ∀ b, entries (alter (remove_pledge h) a pledges) b =
       filter (λ e, pe_partition_hash e ≠ Some h) (entries pledges b).
Proof.
  intros [Hs He Hi Hh Ho] Ha.
  assert (Hent : ∀ b, entries (alter (remove_pledge h) a pledges) b =
                      filter (λ e, pe_partition_hash e ≠ Some h) (entries pledges b)).
  { intros b. destruct (decide (a = b)) as [<-|Hne].
    - unfold entries. rewrite lookup_alter_eq. specialize (Hh a). unfold entries in Hh.
      destruct (pledges !! a) as [es|]; [|done]. cbn in *. by apply remove_pledge_filter.
    - unfold entries at 1. rewrite lookup_alter_ne by done. fold (entries pledges b).
      symmetry. apply list_filter_id. intros e Hin Heq. apply Hne.
      assert (h ∈ omap pe_partition_hash (entries pledges b)) as Hb%Ho by (apply elem_of_hashes; eauto). congruence. }
  split; [|done]. split; [done| | | |].
  - intros b e. rewrite Hent. intros [_ ?]%list_elem_of_filter. by apply He.
  - intros b. rewrite Hent. apply (sublist_NoDup _ (pe_id <$> entries pledges b)); [apply Hi|].
    apply fmap_sublist, sublist_filter.
  - intros b. rewrite Hent. eapply sublist_NoDup; [apply Hh|]. apply sublist_omap, sublist_filter.
  - intros b x. rewrite Hent, elem_of_hashes. setoid_rewrite list_elem_of_filter.
    transitivity (x ∈ omap pe_partition_hash (entries pledges b) ∧ x ≠ h).
    { rewrite elem_of_hashes. naive_solver. }
    rewrite Ho, lookup_delete_Some. naive_solver.
Qed.

Section Pool.
  Context `{Sha256} (seed : Z).

Lemma pool_inv_release active un ow h :
  pool_inv seed active un ow → is_Some (ow !! h) → h ∉ un ∧ pool_inv seed active (un ++ [h]) (delete h ow).
Proof.
  intros [Hc Hn Hu Ha Hd] Hh. assert (h ∉ un) as Hnot by (intros Hin; rewrite Hd in Hh by done; by destruct Hh).
  split; [done|]. split; [done..| | |].
  - apply NoDup_app. split_and!; [done| |apply NoDup_singleton]. intros x Hx ->%list_elem_of_singleton. done.
  - intros x. rewrite Ha, elem_of_app, list_elem_of_singleton. destruct (decide (x = h)) as [->|Hne].
    + naive_solver.
    + rewrite lookup_delete_ne by done. naive_solver.
  - intros x [Hx| ->%list_elem_of_singleton]%elem_of_app; [|apply lookup_delete_eq].
    apply lookup_delete_None. right. by apply Hd.
Qed.

(** What an unpledge leaves: the partition is unassigned, its pledge is gone. *)
Record unpledged (h : Z) (s s' : EpochSnapshot) : Prop := mkUnpledged {
  up_shape : shape (ledgers s') = shape (ledgers s);
  up_headers : ∀ l, headers (ledger_slots (ledgers s')) l = headers (ledger_slots (ledgers s)) l;
  up_infos : expired_partition_infos s' = expired_partition_infos s;
  up_block : epoch_block s' = epoch_block s;
  up_stakes : stake_commitments s' = stake_commitments s;
  up_active : all_active_partitions s' = all_active_partitions s;
  up_owners : owners s' = delete h (owners s);
  up_entries : ∀ a, entries_of s' a = filter (λ e, pe_partition_hash e ≠ Some h) (entries_of s a)
}.

(** The removal of the assignment of [h], from its slot if it has one. *)
Lemma detach_run n a h s :
  slots_ok n (λ _, False) s → owners s !! h = Some a →
  ∃ L', shape L' = shape (ledgers s) ∧
    (∀ l, headers (ledger_slots L') l = headers (ledger_slots (ledgers s)) l) ∧
    slot_inv n (λ _, False) (ledger_slots L') (delete h (data_partitions s)) (delete h (capacity_partitions s)) ∧
    apply_unpledge a h s =
    (_ ← modify (add_to_unassigned_if_absent h); modify (drop_pledge a h) : ES ())
      (set_ledgers L' (set_assignments (delete h (data_partitions s)) (delete h (capacity_partitions s)) s)).
Proof.
  intros Hinv Hown. unfold owners in Hown. rewrite lookup_own in Hown. unfold apply_unpledge.
  destruct (data_partitions s !! h) as [x|] eqn:Hd.
  - destruct (si_data _ _ _ _ _ Hinv h x Hd) as (m & l & i & ->). cbn in Hown. injection Hown as ->.
    rewrite (si_disjoint _ _ _ _ _ Hinv h) by (by rewrite Hd).
    assert (in_slot (ledger_slots (ledgers s)) l i h) as (slot & Hslot & _) by (apply (si_in _ _ _ _ _ Hinv); eauto).
    destruct (slots_mut_upd (E:=EpochSnapshotError) (ledgers s) l i (remove_hash h) slot Hslot) as (L' & HL' & Hsh & Hv).
    exists L'. split_and!; [done| | |].
    + intros l'. rewrite <- (headers_upd (ledger_slots (ledgers s)) l i (remove_hash h)) by done.
      unfold headers. by rewrite Hv.
    + apply (slot_inv_ext _ _ (upd (ledger_slots (ledgers s)) l i (remove_hash h))); [done|].
      apply slot_inv_cap_delete. eapply slot_inv_weaken, slot_inv_release; [|done..]. naive_solver.
    + unfold mbind, SE_bind, lift, update_ledgers, update. cbn [expect pa_ledger_id pa_slot_index data_assignment].
      unfold remove_partition_from_slot. cbn [ledgers set_assignments]. unfold remove_hash in HL'. rewrite HL'.
      unfold mret, SE_ret. cbn [pa_miner_address data_assignment]. cbn [mbind result_bind]. by rewrite Z.eqb_refl.
  - destruct (capacity_partitions s !! h) as [x|] eqn:Hcap; [|done]. cbn in Hown. injection Hown as <-.
    exists (ledgers s). split_and!; [done..| |].
    + rewrite (delete_id _ _ Hd). by apply slot_inv_cap_delete.
    + unfold mbind, SE_bind, lift, mret, SE_ret. by rewrite Z.eqb_refl.
Qed.

Context (c : EpochConfig).

Lemma apply_unpledge_run a h s :
  epoch_inv c seed s → owners s !! h = Some a →
  ∃ s', apply_unpledge a h s = (s', Ok ()) ∧ epoch_inv c seed s' ∧ unpledged h s s'.
Proof.
  intros [HL Hinv Hpool Hcom] Hown.
  destruct (detach_run _ a h s Hinv Hown) as (L' & Hsh & Hh & Hinv' & ->).
  destruct (pool_inv_release _ _ _ h Hpool) as [Hnot Hpool']; [by rewrite Hown|].
  destruct (commit_inv_unpledge _ _ _ a h Hcom Hown) as [Hcom' Hent].
  set (s1 := set_ledgers L' _).
  assert (Hadd : add_to_unassigned_if_absent h s1 =
    set_pool (all_active_partitions s) (unassigned_partitions s ++ [h]) s1).
  { unfold add_to_unassigned_if_absent. by rewrite decide_False. }
  eexists. split; [|split].
  - unfold mbind, SE_bind, modify. rewrite Hadd. reflexivity.
  - split; [by apply (wf_ledgers_shape c (ledgers s))|done| |].
    + unfold owners, drop_pledge, s1. snap. rewrite own_delete. exact Hpool'.
    + unfold owners, drop_pledge, s1. snap. rewrite own_delete. exact Hcom'.
  - split; [done..| |done]. unfold owners, drop_pledge, s1. snap. apply own_delete.
Qed.

(** ** All unpledges *)

Definition unpledge_hashes (ts : list CommitmentTransaction) : list Z :=
  omap (λ t, match tx_type t with Unpledge _ h => Some h | _ => None end) ts.

Definition keeps (hs : list Z) (e : PledgeEntry) : Prop := ∀ h, h ∈ hs → pe_partition_hash e ≠ Some h.
#[global] Instance keeps_dec hs e : Decision (keeps hs e).
Proof.
  refine (cast_if (decide (Forall (λ h, pe_partition_hash e ≠ Some h) hs)));
    unfold keeps; by rewrite <- Forall_forall.
Defined.

Record unpledged_all (hs : list Z) (s s' : EpochSnapshot) : Prop := mkUnpledgedAll {
  ua_shape : shape (ledgers s') = shape (ledgers s);
  ua_headers : ∀ l, headers (ledger_slots (ledgers s')) l = headers (ledger_slots (ledgers s)) l;
  ua_infos : expired_partition_infos s' = expired_partition_infos s;
  ua_block : epoch_block s' = epoch_block s;
  ua_stakes : stake_commitments s' = stake_commitments s;
  ua_active : all_active_partitions s' = all_active_partitions s;
  ua_entries : ∀ a, entries_of s' a = filter (keeps hs) (entries_of s a)
}.

Lemma apply_unpledges_run ts : ∀ s,
  epoch_inv c seed s → NoDup (unpledge_hashes ts) →
  (∀ t k h, t ∈ ts → tx_type t = Unpledge k h → owners s !! h = Some (tx_signer t)) →
  ∃ s', apply_unpledges ts s = (s', Ok ()) ∧ epoch_inv c seed s' ∧ unpledged_all (unpledge_hashes ts) s s'.
Proof.
  unfold apply_unpledges. induction ts as [|t ts IH]; intros s HI Hnd Hown; cbn [for_each].
  { exists s. split_and!; [done..|]. split; [done..|]. intros a. symmetry. apply list_filter_id.
    by intros e _ h ?%elem_of_nil. }
  assert (Hskip : unpledge_hashes (t :: ts) = unpledge_hashes ts →
    ∃ s', for_each (λ t, match tx_type t with Unpledge _ h => apply_unpledge (tx_signer t) h | _ => mret () end) ts s =
          (s', Ok ()) ∧ epoch_inv c seed s' ∧ unpledged_all (unpledge_hashes (t :: ts)) s s').
  { intros Heq. rewrite Heq in *. apply IH; [done..|]. intros t' k h Ht'. apply Hown. by right. }
  destruct (tx_type t) as [|k|k h| |r] eqn:Ht;
    [apply Hskip; unfold unpledge_hashes; cbn; by rewrite Ht..| |
     apply Hskip; unfold unpledge_hashes; cbn; by rewrite Ht|apply Hskip; unfold unpledge_hashes; cbn; by rewrite Ht].
  assert (Heq : unpledge_hashes (t :: ts) = h :: unpledge_hashes ts) by (unfold unpledge_hashes; cbn; by rewrite Ht).
  rewrite Heq in *. apply NoDup_cons in Hnd as [Hnot Hnd].
  destruct (apply_unpledge_run (tx_signer t) h s) as (s1 & H1 & HI1 & Hu1); [done|apply (Hown t k); [left|done]|].
  destruct (IH s1) as (s' & Hs' & HI' & Hu'); [done..| |].
  { intros t' k' h' Ht' Hty. rewrite (up_owners _ _ _ Hu1), lookup_delete_ne; [apply (Hown t' k'); [by right|done]|].
    intros <-. apply Hnot, list_elem_of_omap. exists t'. split; [done|]. by rewrite Hty. }
  exists s'. split_and!; [unfold mbind, SE_bind; by rewrite H1|done|].
  destruct Hu1, Hu'. split; try congruence.
  intros a. rewrite ua_entries0, up_entries0, list_filter_filter. apply list_filter_iff. intros e.
  unfold keeps. setoid_rewrite elem_of_cons. naive_solver.
Qed.
End Pool.

(** ** Unstakes and reward addresses *)

Definition unstakers (ts : list CommitmentTransaction) : list Z :=
  omap (λ t, match tx_type t with Unstake => Some (tx_signer t) | _ => None end) ts.
Definition updaters (ts : list CommitmentTransaction) : list Z :=
  omap (λ t, match tx_type t with UpdateRewardAddress _ => Some (tx_signer t) | _ => None end) ts.

Lemma commit_inv_delete_stake stakes pledges ow a :
  commit_inv stakes pledges ow → entries pledges a = [] → commit_inv (delete a stakes) pledges ow.
Proof.
  intros HI Hnil. eapply commit_inv_stakes; [done| |].
  - intros b e [_ Hb]%lookup_delete_Some. by apply (ci_stake _ _ _ HI).
  - intros b Hne Hb. rewrite lookup_delete_ne; [done|]. by intros ->.
Qed.

Lemma apply_unstakes_run ts : ∀ s,
  commit_ok s → NoDup (unstakers ts) →
  (∀ a, a ∈ unstakers ts → is_Some (stake_commitments s !! a) ∧ entries_of s a = []) →
  ∃ stakes, apply_unstakes ts s = (set_stakes stakes s, Ok ()) ∧
    commit_inv stakes (pledge_commitments s) (owners s) ∧
    ∀ b, b ∉ unstakers ts → stakes !! b = stake_commitments s !! b.
Proof.
  unfold apply_unstakes. induction ts as [|t ts IH]; intros s HI Hnd Hall; cbn [for_each].
  { exists (stake_commitments s). split_and!; [by destruct s|done..]. }
  unfold unstakers in *. cbn in Hnd, Hall |- *. destruct (tx_type t) eqn:Ht; try by apply IH.
  fold (unstakers ts) in *. apply NoDup_cons in Hnd as [Hnot Hnd].
  destruct (Hall (tx_signer t)) as [[e He] Hnil]; [by left|].
  destruct (IH (set_stakes (delete (tx_signer t) (stake_commitments s)) s)) as (st & Hst & HI' & Hb).
  - by apply commit_inv_delete_stake.
  - done.
  - intros a Ha. snap. rewrite lookup_delete_ne by (by intros <-). apply Hall. by right.
  - exists st. split_and!; [|done|].
    + unfold mbind, SE_bind, apply_unstake, update.
      assert (from_option (λ v, Z.of_nat (length v)) 0 (pledge_commitments s !! tx_signer t) = 0) as ->.
      { unfold entries in Hnil. destruct (pledge_commitments s !! tx_signer t) as [v|]; [|done]. cbn in *. by subst. }
      cbn [guard_err Z.ltb Z.compare mbind result_bind]. rewrite He. exact Hst.
    + intros b [Hne Hnotb]%not_elem_of_cons. rewrite Hb by done. snap. by rewrite lookup_delete_ne.
Qed.

Lemma apply_updates_run ts : ∀ (seen : gset Z) s,
  commit_ok s → NoDup (updaters ts) → (∀ a, a ∈ updaters ts → a ∉ seen ∧ is_Some (stake_commitments s !! a)) →
  ∃ stakes, apply_updates_from seen ts s = (set_stakes stakes s, Ok ()) ∧
    commit_inv stakes (pledge_commitments s) (owners s).
Proof.
  induction ts as [|t ts IH]; intros seen s HI Hnd Hall; cbn [apply_updates_from].
  { exists (stake_commitments s). by destruct s. }
  unfold updaters in *. cbn in Hnd, Hall |- *. destruct (tx_type t) as [| | | |r] eqn:Ht; try by apply IH.
  fold (updaters ts) in *. apply NoDup_cons in Hnd as [Hnot Hnd].
  destruct (Hall (tx_signer t)) as [Hseen [e He]]; [by left|]. rewrite decide_False by done.
  set (st1 := <[tx_signer t := set_reward_address r e]> (stake_commitments s)).
  assert (HI1 : commit_inv st1 (pledge_commitments s) (owners s)).
  { eapply commit_inv_stakes; [done| |].
    - intros a x [[<- <-]|[_ Ha]]%lookup_insert_Some; [|by apply (ci_stake _ _ _ HI)].
      exact (ci_stake _ _ _ HI _ e He).
    - intros a _ Ha. apply lookup_insert_is_Some'. by right. }
  destruct (IH ({[tx_signer t]} ∪ seen) (set_stakes st1 s)) as (st & Hst & HI'); [done..| |].
  - intros a Ha. split; [|apply lookup_insert_is_Some'; right; apply Hall; by right].
    assert (a ≠ tx_signer t) by (by intros ->). destruct (Hall a); [by right|set_solver].
  - exists st. split; [|done]. unfold mbind, SE_bind, apply_update_reward_address, update. by rewrite He.
Qed.

(** ** New capacity *)

Section Chain.
  Context `{Sha256}.

Lemma length_hash_chain n h : length (hash_chain n h) = n.
Proof. revert h. induction n as [|n IH]; intros h; [done|]. cbn. by rewrite IH. Qed.

Lemma hash_chain_app n k h :
  hash_chain (n + k) h = hash_chain n h ++ hash_chain k (default h (last (hash_chain n h))).
Proof.
  revert h. induction n as [|n IH]; intros h; [done|]. cbn [Nat.add hash_chain app]. f_equal. rewrite IH.
  f_equal. f_equal. rewrite last_cons. by destruct (last (hash_chain n (next_partition_hash h))).
Qed.

Lemma pool_inv_extend seed active un ow k :
  pool_inv seed active un ow → NoDup (hash_chain (length active + k) seed) →
  let added := hash_chain k (default seed (last active)) in
  pool_inv seed (active ++ added) (un ++ added) ow.
Proof.
  intros [Hc Hn Hu Ha Hd] Hchain. cbv zeta.
  assert (Heq : active ++ hash_chain k (default seed (last active)) = hash_chain (length active + k) seed).
  { rewrite hash_chain_app, <- Hc. done. }
  set (added := hash_chain k _) in *. rewrite <- Heq in Hchain. apply NoDup_app in Hchain as (_ & Hdis & Hadd).
  assert (Hun : ∀ x, x ∈ un → x ∉ added) by (intros x Hx; apply Hdis, Ha; by left).
  split.
  - rewrite Heq, length_hash_chain. done.
  - by apply NoDup_app.
  - by apply NoDup_app.
  - intros x. rewrite !elem_of_app, Ha. tauto.
  - intros x [Hx|Hx]%elem_of_app; [by apply Hd|]. destruct (ow !! x) eqn:E; [|done].
    exfalso. apply (Hdis x); [|done]. apply Ha. right. by rewrite E.
Qed.
End Chain.

(** * The assignment of partition hashes to pending pledges: every selected pledge gets a hash
    of the pool, and the invariant holds afterwards. *)

(** ** Selection *)

Lemma stamp_levels_snd held next pending : (stamp_levels held next pending).*2 = pending.
Proof. revert next. induction pending as [|p ps IH]; intros next; [done|]. cbn. by rewrite IH. Qed.

(** The winners are some of the pending pledges, each at most once. *)
Lemma water_fill_select_sub pending held available :
  ∃ rest, water_fill_select pending held available ++ rest ≡ₚ pending.
Proof.
  unfold water_fill_select. set (keyed := merge_sort level_le _).
  exists (drop available keyed).*2.
  assert (Hk : keyed.*2 ≡ₚ pending).
  { unfold keyed. rewrite merge_sort_Permutation, stamp_levels_snd. apply merge_sort_Permutation. }
  rewrite <- Hk. unfold sort_by_key. rewrite merge_sort_Permutation, <- fmap_app, take_drop. done.
Qed.

Lemma length_water_fill_select pending held available :
  length (water_fill_select pending held available) = Nat.min available (length pending).
Proof.
  unfold water_fill_select, sort_by_key. rewrite (Permutation_length (merge_sort_Permutation _ _)).
  rewrite length_fmap, length_take. f_equal.
  rewrite (Permutation_length (merge_sort_Permutation _ _)), <- (length_fmap snd), stamp_levels_snd.
  apply Permutation_length, merge_sort_Permutation.
Qed.

Lemma btree_values_lookup {A} (m : gmap Z A) x : x ∈ btree_values m ↔ ∃ k, m !! k = Some x.
Proof.
  unfold btree_values, sort_by_key. rewrite merge_sort_Permutation, list_elem_of_fmap. split.
  - intros ([k y] & -> & Hin%elem_of_map_to_list). eauto.
  - intros [k Hk]. exists (k, x). split; [done|]. by apply elem_of_map_to_list.
Qed.

(** ** Pending pledges *)

Definition pending_in (s : EpochSnapshot) (p : PledgeEntry) : Prop :=
  p ∈ entries_of s (pe_signer p) ∧ pe_partition_hash p = None.

Lemma pending_pledges_in s p : commit_ok s → p ∈ pending_pledges s → pending_in s p.
Proof.
  intros HI. unfold pending_pledges. rewrite list_elem_of_In, filter_In.
  intros [(es & Hes & Hp)%in_concat Hpend]. apply list_elem_of_In in Hes, Hp. rewrite btree_values_lookup in Hes.
  destruct Hes as [a Ha]. assert (He : p ∈ entries_of s a) by (unfold entries; by rewrite Ha).
  destruct (ci_entry _ _ _ HI a p He) as (<- & _ & _). split; [done|].
  unfold is_pending in Hpend. by apply andb_true_iff in Hpend as [_ ?%bool_decide_eq_true].
Qed.

Lemma NoDup_pending_pledges s : commit_ok s → NoDup (pending_pledges s).
Proof.
  intros HI. apply NoDup_ListNoDup, List.NoDup_filter, NoDup_ListNoDup.
  unfold btree_values, sort_by_key. set (l := merge_sort _ _).
  assert (Hl : l ≡ₚ map_to_list (pledge_commitments s)) by apply merge_sort_Permutation.
  replace (concat l.*2) with (l ≫= snd) by (clear; induction l as [|x l' IH]; [done|]; cbn; by rewrite IH).
  assert (Hent : ∀ a es e, (a, es) ∈ l → e ∈ es → e ∈ entries_of s a ∧ es = entries_of s a).
  { intros a es e Hin He. rewrite Hl, elem_of_map_to_list in Hin. unfold entries. by rewrite Hin. }
  apply NoDup_bind.
  - intros [a es] [b es'] e H1 H2 He He'. cbn in He, He'.
    destruct (Hent a es e H1 He) as [Ha ->], (Hent b es' e H2 He') as [Hb ->].
    destruct (ci_entry _ _ _ HI a e Ha) as [<- _]. by destruct (ci_entry _ _ _ HI b e Hb) as [<- _].
  - intros [a es] Hin. cbn. rewrite Hl, elem_of_map_to_list in Hin.
    pose proof (ci_ids _ _ _ HI a) as Hids. unfold entries in Hids. rewrite Hin in Hids. cbn in Hids.
    by eapply NoDup_fmap_1.
  - rewrite Hl. apply NoDup_map_to_list.
Qed.

(** ** One assignment *)

Lemma assign_entry_split p h es :
  p ∈ es → NoDup (pe_id <$> es) →
  ∃ l1 l2, es = l1 ++ p :: l2 ∧ assign_entry (pe_id p) h es = Some (l1 ++ set_partition_hash h p :: l2).
Proof.
  intros Hin Hnd. induction es as [|e es IH]; [by apply elem_of_nil in Hin|].
  cbn in Hnd. apply NoDup_cons in Hnd as [Hnot Hnd]. cbn [assign_entry].
  destruct (Z.eqb_spec (pe_id e) (pe_id p)) as [Heq|Hne].
  - apply elem_of_cons in Hin as [->|Hin]; [by exists [], es|]. destruct Hnot. rewrite Heq. by apply list_elem_of_fmap_2.
  - apply elem_of_cons in Hin as [->|Hin]; [done|]. destruct (IH Hin Hnd) as (l1 & l2 & -> & ->).
    by exists (e :: l1), l2.
Qed.

Section Assign.
  Context `{Sha256} (c : EpochConfig) (seed : Z).

Lemma pool_inv_assign active un ow h a :
  pool_inv seed active un ow → h ∈ un → pool_inv seed active (filter (λ x, x ≠ h) un) (<[h := a]> ow).
Proof.
  intros [Hc Hn Hu Ha Hd] Hh. split; [done..| | |].
  - by apply NoDup_filter.
  - intros x. rewrite Ha, list_elem_of_filter, lookup_insert_is_Some. destruct (decide (x = h)); naive_solver.
  - intros x [Hne Hx]%list_elem_of_filter. rewrite lookup_insert_ne by done. by apply Hd.
Qed.

Lemma commit_inv_assign stakes pledges ow a p h l1 l2 :
  commit_inv stakes pledges ow → entries pledges a = l1 ++ p :: l2 → pe_partition_hash p = None → ow !! h = None →
  commit_inv stakes (<[a := l1 ++ set_partition_hash h p :: l2]> pledges) (<[h := a]> ow).
Proof.
  intros [Hs He Hi Hh Ho] Hsplit Hnone Hfree.
  assert (Hold : omap pe_partition_hash (entries pledges a) = omap pe_partition_hash l1 ++ omap pe_partition_hash l2).
  { rewrite Hsplit, omap_app. cbn. by rewrite Hnone. }
  assert (Hnew : omap pe_partition_hash (l1 ++ set_partition_hash h p :: l2) =
                 omap pe_partition_hash l1 ++ h :: omap pe_partition_hash l2) by (by rewrite omap_app).
  assert (Hh' : h ∉ omap pe_partition_hash (entries pledges a)).
  { intros Hx%Ho. by rewrite Hfree in Hx. }
  split; [done| | | |].
  - intros b e. rewrite entries_insert. destruct (decide (a = b)) as [<-|]; [|apply He].
    intros Hin. assert (Hp : p ∈ entries pledges a) by (rewrite Hsplit; set_solver). apply He in Hp.
    apply elem_of_app in Hin as [Hin|[->|Hin]%elem_of_cons]; [apply He; rewrite Hsplit; set_solver|exact Hp|].
    apply He. rewrite Hsplit. set_solver.
  - intros b. rewrite entries_insert. destruct (decide (a = b)) as [<-|]; [|apply Hi].
    specialize (Hi a). rewrite Hsplit in Hi. rewrite fmap_app in *. exact Hi.
  - intros b. rewrite entries_insert. destruct (decide (a = b)) as [<-|]; [|apply Hh].
    rewrite Hnew, <- Permutation_middle, <- Hold. constructor; [done|apply Hh].
  - intros b x. rewrite entries_insert, lookup_insert_Some. destruct (decide (a = b)) as [<-|Hne].
    + rewrite Hnew, <- Permutation_middle, elem_of_cons, <- Hold, Ho. split; [|naive_solver].
      intros [->|Hx]; [by left|]. right. split; [|done]. intros <-. congruence.
    + rewrite Ho. split; [|naive_solver]. intros Hx. right. split; [|done]. intros <-. congruence.
Qed.

Record assigned (s s' : EpochSnapshot) : Prop := mkAssigned {
  as_ledgers : ledgers s' = ledgers s;
  as_infos : expired_partition_infos s' = expired_partition_infos s;
  as_block : epoch_block s' = epoch_block s;
  as_stakes : stake_commitments s' = stake_commitments s;
  as_active : all_active_partitions s' = all_active_partitions s;
  as_data : data_partitions s' = data_partitions s;
  as_owners : owners s ⊆ owners s';
  as_entries : ∀ a, entries_of s a = [] → entries_of s' a = []
}.
#[global] Instance assigned_preorder : PreOrder assigned.
Proof.
  split; [by split|]. intros s1 s2 s3 [] []. split; try congruence; [by etrans|]. auto.
Qed.

Lemma assign_step p h s :
  epoch_inv c seed s → pending_in s p → h ∈ unassigned_partitions s →
  let s' := assign_hash_to_pledge p h s in
  epoch_inv c seed s' ∧ assigned s s' ∧
  unassigned_partitions s' = filter (λ x, x ≠ h) (unassigned_partitions s) ∧
  (∀ q, pending_in s' q ↔ pending_in s q ∧ q ≠ p).
Proof.
  intros [HL Hinv Hpool Hcom] [Hp Hnone] Hh. cbv zeta.
  destruct (assign_entry_split p h _ Hp (ci_ids _ _ _ Hcom _)) as (l1 & l2 & Hsplit & Hassign).
  assert (Hfree : owners s !! h = None) by (by apply (pi_disjoint _ _ _ _ Hpool)).
  assert (Hd : data_partitions s !! h = None).
  { unfold owners in Hfree. rewrite lookup_own in Hfree. by destruct (data_partitions s !! h). }
  assert (Hlook : pledge_commitments s !! pe_signer p = Some (entries_of s (pe_signer p))).
  { unfold entries in *. destruct (pledge_commitments s !! pe_signer p); [done|]. by apply elem_of_nil in Hp. }
  unfold assign_hash_to_pledge. rewrite Hlook, Hassign.
  assert (Ho : ∀ al un st pl, owners (mkEpochSnapshot (ledgers s) (data_partitions s)
    (<[h := capacity_assignment h (pe_signer p)]> (capacity_partitions s)) al un st pl (epoch_block s)
    (previous_epoch_block s) (expired_partition_infos s) (epoch_height s)) = <[h := pe_signer p]> (owners s)).
  { intros. unfold owners. snap. by apply own_cap_insert. }
  split_and!.
  - split; [done| | |]; unfold set_pool, set_assignments, set_pledges; snap; rewrite ?Ho.
    + by apply slot_inv_cap_insert.
    + by apply pool_inv_assign.
    + by apply commit_inv_assign.
  - split; try done.
    + unfold set_pool, set_assignments, set_pledges; snap; rewrite Ho. by apply insert_subseteq.
    + intros a Ha. snap. rewrite entries_insert. destruct (decide _) as [<-|]; [|done].
      rewrite Ha in Hsplit. by destruct l1.
  - done.
  - intros q. unfold pending_in. snap. rewrite entries_insert. destruct (decide _) as [Heq|Hne].
    2: { split; [|naive_solver]. intros [? ?]. split; [done|]. by intros ->. }
    pose proof (ci_ids _ _ _ Hcom (pe_signer p)) as Hids. apply NoDup_fmap_1 in Hids. rewrite Hsplit in Hids.
    apply NoDup_app in Hids as (_ & Hdis & [Hnot _]%NoDup_cons). rewrite <- Heq, Hsplit, !elem_of_app, !elem_of_cons.
    split.
    + intros [Hin Hqn]. split_and!; [destruct Hin as [?|[->|?]]; [by left|done|by right; right]|done|].
      intros ->. destruct Hin as [Hin|[Hin|Hin]]; [apply (Hdis p Hin); by left| |done].
      rewrite Hin in Hnone. done.
    + intros [[Hin Hqn] Hqp]. split; [|done]. tauto.
Qed.

Lemma assign_hashes_inv ps : ∀ hs s,
  epoch_inv c seed s → NoDup ps → (∀ p, p ∈ ps → pending_in s p) →
  NoDup hs → (∀ h, h ∈ hs → h ∈ unassigned_partitions s) →
  let s' := assign_hashes ps hs s in
  epoch_inv c seed s' ∧ assigned s s' ∧
  (∀ h, h ∈ unassigned_partitions s' → h ∈ unassigned_partitions s ∧ h ∉ take (length ps) hs) ∧
  (∀ q, pending_in s' q → pending_in s q ∧ q ∉ take (length hs) ps).
Proof.
  induction ps as [|p ps IH]; intros hs s HI Hps Hpend Hhs Hun; cbv zeta.
  { split_and!; [done..| |]; intros x Hx; (split; [done|]); rewrite ?take_nil; apply not_elem_of_nil. }
  destruct hs as [|h hs]; cbn [assign_hashes length take].
  { split_and!; [done..| |]; intros x Hx; (split; [done|]); rewrite ?take_nil; apply not_elem_of_nil. }
  apply NoDup_cons in Hps as [Hp Hps]. apply NoDup_cons in Hhs as [Hh Hhs].
  destruct (assign_step p h s) as (HI1 & Has & Hun1 & Hpend1); [done|apply Hpend; left|apply Hun; left|].
  destruct (IH hs (assign_hash_to_pledge p h s)) as (HI2 & Has2 & Hun2 & Hpend2).
  - done.
  - done.
  - intros q Hq. apply Hpend1. split; [apply Hpend; by right|]. by intros ->.
  - done.
  - intros x Hx. rewrite Hun1, list_elem_of_filter. split; [by intros ->|apply Hun; by right].
  - split_and!; [done|by etrans| |].
    + intros x Hx. destruct (Hun2 x Hx) as [Hx1 Hx2]. rewrite Hun1, list_elem_of_filter in Hx1.
      split; [apply Hx1|]. apply not_elem_of_cons. split; [apply Hx1|done].
    + intros q Hq. destruct (Hpend2 q Hq) as [Hq1 Hq2]. apply Hpend1 in Hq1 as [? ?].
      split; [done|]. by apply not_elem_of_cons.
Qed.

(** No hash stays in the pool while a pledge is pending. *)
Lemma assign_all_inv s :
  epoch_inv c seed s →
  let s' := assign_partition_hashes_to_pledges s in
  epoch_inv c seed s' ∧ assigned s s' ∧ (unassigned_partitions s' = [] ∨ ∀ q, ¬ pending_in s' q).
Proof.
  intros HI. cbv zeta. pose proof (ei_commit _ _ _ HI) as Hcom. unfold assign_partition_hashes_to_pledges.
  case_bool_decide as Hun; [by split_and!; [..|left]|].
  assert (Hpend : ∀ q, pending_in s q → q ∈ pending_pledges s).
  { intros q [Hq Hn]. unfold pending_pledges. apply list_elem_of_In, filter_In. split.
    - apply in_concat. exists (entries_of s (pe_signer q)). split; [|by apply list_elem_of_In].
      apply list_elem_of_In, btree_values_lookup. exists (pe_signer q). unfold entries in *.
      destruct (pledge_commitments s !! pe_signer q); [done|]. by apply elem_of_nil in Hq.
    - destruct (ci_entry _ _ _ Hcom _ _ Hq) as (_ & Hst & _). unfold is_pending.
      rewrite Hst, Hn, !bool_decide_true by done. done. }
  case_bool_decide as Hnil.
  { split_and!; [done..|]. right. intros q Hq%Hpend. rewrite Hnil in Hq. by apply elem_of_nil in Hq. }
  set (hs := sort_by_key id (unassigned_partitions s)).
  assert (Hhs : hs ≡ₚ unassigned_partitions s) by apply merge_sort_Permutation.
  set (ps := water_fill_select _ _ _).
  destruct (water_fill_select_sub (pending_pledges s) (capacity_held s) (length hs)) as [rest Hperm].
  fold ps in Hperm.
  assert (Hps : NoDup ps).
  { pose proof (NoDup_pending_pledges s Hcom) as Hnd. rewrite <- Hperm in Hnd. by apply NoDup_app in Hnd as [? _]. }
  destruct (assign_hashes_inv ps hs s) as (HI' & Has & Hun' & Hpend'); [done..| | | |].
  - intros q Hq. apply pending_pledges_in; [done|]. rewrite <- Hperm, elem_of_app. by left.
  - rewrite Hhs. apply (pi_unassigned _ _ _ _ (ei_pool _ _ _ HI)).
  - intros h. by rewrite Hhs.
  - split_and!; [done..|]. pose proof (length_water_fill_select (pending_pledges s) (capacity_held s) (length hs)) as Hlen.
    fold ps in Hlen. destruct (decide (length hs ≤ length (pending_pledges s))%nat) as [Hle|Hgt].
    + left. apply elem_of_nil_inv. intros h Hh. destruct (Hun' h Hh) as [Hin Hnot]. apply Hnot.
      rewrite take_ge by lia. by rewrite Hhs.
    + right. intros q Hq. destruct (Hpend' q Hq) as [Hin Hnot]. apply Hnot. rewrite take_ge by lia.
      assert (rest = []) as ->. { apply nil_length_inv. apply Permutation_length in Hperm. rewrite length_app in Hperm. lia. }
      rewrite app_nil_r in Hperm. rewrite Hperm. by apply Hpend.
Qed.
End Assign.
