(* ===== verification/EpochTransition.v ===== *)
(** The epoch transition as a whole: [perform_epoch_tasks] succeeds on an admissible set of
    commitments, keeps the invariant, and expires the slots that [expiring] names.

    [admissible] is the contract between the commitments of an epoch and the snapshot they
    are applied to; [slot_room] and [chain_ok] bound the sizes so that no 64-bit or 32-bit
    count overflows, and [chain_ok] says that the chain of partition hashes does not repeat. *)

From S2P Require Import SimpleRng TreeHash StateErr DataLedger EpochSnapshot EpochInv EpochSlots EpochCommit Prelude.

Definition staked_or_staking (s : EpochSnapshot) (ts : list CommitmentTransaction) (a : Z) : Prop :=
  is_Some (stake_commitments s !! a) ∨ ∃ t, t ∈ ts ∧ tx_type t = Stake ∧ tx_signer t = a.

Record admissible (s : EpochSnapshot) (ts : list CommitmentTransaction) : Prop := mkAdmissible {
  ad_pledge : ∀ t, t ∈ ts → is_pledge t = true → staked_or_staking s ts (tx_signer t);
  ad_pledge_nodup : NoDup (tx_id <$> List.filter is_pledge ts);
  ad_pledge_fresh : ∀ t, t ∈ ts → is_pledge t = true → tx_id t ∉ pe_id <$> entries_of s (tx_signer t);
  ad_unpledge : ∀ t k h, t ∈ ts → tx_type t = Unpledge k h → owners s !! h = Some (tx_signer t);
  ad_unpledge_nodup : NoDup (unpledge_hashes ts);
  ad_unstake : ∀ a, a ∈ unstakers ts → staked_or_staking s ts a ∧
    (∀ t, t ∈ ts → is_pledge t = true → tx_signer t ≠ a) ∧
    ∀ e, e ∈ entries_of s a → ∃ h, pe_partition_hash e = Some h ∧ h ∈ unpledge_hashes ts;
  ad_unstake_nodup : NoDup (unstakers ts);
  ad_update : ∀ a, a ∈ updaters ts → staked_or_staking s ts a ∧ a ∉ unstakers ts;
  ad_update_nodup : NoDup (updaters ts)
}.

Section Transition.
  Context `{Sha256} (c : EpochConfig) (capacity_target : Z → option Z) (seed : Z).
  Context (Hc : config_ok c).

(** The chain of partition hashes has no repetition, the curve has small values and the
    configured minimum is small. *)
Record chain_ok : Prop := mkChainOk {
  ch_nodup : ∀ n, Z.of_nat n < 2 ^ 32 → NoDup (hash_chain n seed);
  ch_target : ∀ b, 0 ≤ b → ∃ k, capacity_target b = Some k ∧ 0 ≤ k < 2 ^ 31;
  ch_minimum : ∀ k, ec_num_capacity_partitions c = Some k → 0 ≤ k < 2 ^ 31;
  ch_chunks : ec_num_chunks_in_partition c < 2 ^ 64
}.

Context (Hch : chain_ok).

Definition seeded (s : EpochSnapshot) : Prop :=
  all_active_partitions s = [] → eh_last_epoch_hash (epoch_block s) = seed.

Lemma active_ledgers_length L : wf_ledgers c L → (length (active_ledgers L) ≤ 4)%nat.
Proof.
  intros [b Hb]. rewrite (active_ledgers_shape _ _ Hb).
  destruct (active_ledgers_new c b) as [->|[-> _]]; cbn; lia.
Qed.

Lemma map_size_le {A} (m : gmap Z A) (l : list Z) : (∀ h, is_Some (m !! h) → h ∈ l) → (size m ≤ length l)%nat.
Proof.
  intros Hin. rewrite <- length_map_to_list, <- (length_fmap fst).
  apply submseteq_length, NoDup_submseteq; [apply NoDup_fst_map_to_list|].
  intros h ([h' x] & -> & Hx%elem_of_map_to_list)%list_elem_of_fmap. apply Hin. cbn. by rewrite Hx.
Qed.

Lemma data_in_active s : pool_ok seed s → (size (data_partitions s) ≤ length (all_active_partitions s))%nat.
Proof.
  intros Hp. apply map_size_le. intros h [a Ha]. apply (pi_active _ _ _ _ Hp). right.
  unfold owners. by rewrite lookup_own, Ha.
Qed.

Lemma capacity_in_active s : pool_ok seed s → (size (capacity_partitions s) ≤ length (all_active_partitions s))%nat.
Proof.
  intros Hp. apply map_size_le. intros h [a Ha]. apply (pi_active _ _ _ _ Hp). right.
  unfold owners. rewrite lookup_own, Ha. by destruct (data_partitions s !! h).
Qed.

(** ** Capacity *)

Lemma add_capacity_inv s k :
  epoch_inv c seed s → seeded s → Z.of_nat (length (all_active_partitions s)) + k < 2 ^ 32 → 0 ≤ k →
  epoch_inv c seed (add_capacity_partitions k s) ∧
  length (all_active_partitions (add_capacity_partitions k s)) = (length (all_active_partitions s) + Z.to_nat k)%nat.
Proof.
  intros [HL Hinv Hpool Hcom] Hseed Hlt Hk.
  assert (Hstart : default (eh_last_epoch_hash (epoch_block s)) (last (all_active_partitions s)) =
                   default seed (last (all_active_partitions s))).
  { destruct (last (all_active_partitions s)) eqn:E; [done|]. cbn. apply Hseed. by apply last_None. }
  pose proof (pool_inv_extend seed _ _ _ (Z.to_nat k) Hpool) as Hext. cbv zeta in Hext. rewrite <- Hstart in Hext.
  split.
  - split; [done..| |done]. apply Hext, (ch_nodup Hch). lia.
  - unfold add_capacity_partitions. snap. by rewrite length_app, length_hash_chain.
Qed.

Lemma num_capacity_run L d :
  wf_ledgers c L → 0 ≤ d →
  ∃ k, get_num_capacity_partitions c capacity_target d (Z.of_nat (length (active_ledgers L))) = Ok k ∧ 0 ≤ k < 2 ^ 31.
Proof.
  intros HL Hd. unfold get_num_capacity_partitions, checked_mul.
  pose proof (active_ledgers_length L HL). pose proof (ok_partitions _ Hc).
  rewrite (proj2 (Z.ltb_lt _ _)) by nia. cbn [expect mbind result_bind].
  destruct (ch_target Hch (Z.max d (Z.of_nat (length (active_ledgers L)) * ec_num_partitions_per_slot c)))
    as (k & -> & Hk); [lia|]. by exists k.
Qed.

Lemma allocate_capacity_run s :
  epoch_inv c seed s → seeded s → Z.of_nat (length (all_active_partitions s)) < 2 ^ 31 →
  ∃ s', allocate_additional_capacity c capacity_target s = (s', Ok ()) ∧ epoch_inv c seed s' ∧
    ledgers s' = ledgers s ∧ expired_partition_infos s' = expired_partition_infos s ∧
    epoch_block s' = epoch_block s ∧ data_partitions s' = data_partitions s ∧
    capacity_partitions s' = capacity_partitions s.
Proof.
  intros HI Hseed Hlen. pose proof (data_in_active s (ei_pool _ _ _ HI)) as Hdata.
  unfold allocate_additional_capacity, update.
  destruct (num_capacity_run (ledgers s) (Z.of_nat (size (data_partitions s))) (ei_ledgers _ _ _ HI)) as (k & -> & Hk); [lia|].
  cbn [mbind result_bind]. unfold checked_add. rewrite (proj2 (Z.ltb_lt _ _)) by lia. cbn [expect mbind result_bind].
  case_match eqn:Hgrow; [|by exists s].
  eexists. split; [done|]. split; [|done]. apply add_capacity_inv; [done..|lia|lia].
Qed.

(** ** Genesis *)

Definition is_init (s : EpochSnapshot) (new : EpochHeader) : bool :=
  bool_decide (all_active_partitions s = []) && is_genesis new.

(** The slots of a ledger once genesis has been initialised. *)
Definition init_slot (s : EpochSnapshot) (new : EpochHeader) (l : DataLedger) : list LedgerSlot :=
  if is_init s new && bool_decide (l ∈ active_ledgers (ledgers s))
  then ledger_slots (ledgers s) l ++ [new_slot (eh_height new)]
  else ledger_slots (ledgers s) l.

Lemma init_slots_run new ls : ∀ acc L,
  NoDup ls → wf_ledgers c L → (∀ l, l ∈ ls → l ∈ active_ledgers L) → 0 ≤ acc →
  acc + Z.of_nat (length ls) * ec_num_partitions_per_slot c < 2 ^ 64 →
  ∃ L' k, init_slots ls (eh_height new) acc L = Ok (L', k) ∧ 0 ≤ k ∧ shape L' = shape L ∧
    ∀ l, ledger_slots L' l =
      if bool_decide (l ∈ ls) then ledger_slots L l ++ [new_slot (eh_height new)] else ledger_slots L l.
Proof.
  induction ls as [|l ls IH]; intros acc L Hnd HL Hin Hacc Hlt; cbn [init_slots]; [by exists L, acc|].
  apply NoDup_cons in Hnd as [Hnot Hnd]. pose proof (ok_partitions _ Hc) as Hn. cbn [length] in Hlt.
  destruct (allocate_slots_full c Hc new L l 1) as (L1 & -> & Hsh & Hv); [done|apply Hin; left|lia|].
  cbn [mbind result_bind snd fst]. unfold checked_add. rewrite (proj2 (Z.ltb_lt _ _)) by lia. cbn [expect mbind result_bind].
  destruct (IH (acc + 1 * ec_num_partitions_per_slot c) L1) as (L2 & k & -> & Hk & Hsh2 & Hv2); [done| | |lia|lia|].
  - by apply (wf_ledgers_shape c L).
  - intros l' Hl'. rewrite (active_ledgers_shape _ _ Hsh). apply Hin. by right.
  - exists L2, k. split_and!; [done..|congruence|]. intros l'. rewrite Hv2, Hv.
    destruct (decide (l' = l)) as [->|Hne].
    + rewrite bool_decide_false, bool_decide_true by set_solver. done.
    + by rewrite (bool_decide_ext (l' ∈ l :: ls) (l' ∈ ls)) by set_solver.
Qed.

Lemma genesis_run s new :
  epoch_inv c seed s → seeded s → Z.of_nat (length (all_active_partitions s)) < 2 ^ 31 →
  ∃ s', try_genesis_init c capacity_target new s = (s', Ok ()) ∧ epoch_inv c seed s' ∧ seeded s' ∧
    Z.of_nat (length (all_active_partitions s')) < 2 ^ 31 ∧
    shape (ledgers s') = shape (ledgers s) ∧ (∀ l, ledger_slots (ledgers s') l = init_slot s new l) ∧
    expired_partition_infos s' = expired_partition_infos s ∧ epoch_block s' = epoch_block s ∧
    stake_commitments s' = stake_commitments s ∧ owners s ⊆ owners s' ∧
    (∀ a, entries_of s a = [] → entries_of s' a = []) ∧
    (is_init s new = false → s' = s).
Proof.
  intros HI Hseed Hlen. pose proof (ei_ledgers _ _ _ HI) as HL. unfold try_genesis_init.
  fold (is_init s new). unfold init_slot. destruct (is_init s new) eqn:Hinit; [|by exists s; split_and!].
  cbn [andb].
  destruct (init_slots_run new (active_ledgers (ledgers s)) 0 (ledgers s)) as (L' & k & Hrun & Hk & Hsh & Hv); [|done|done|done| |].
  { by apply (wf_nodup c). }
  { pose proof (active_ledgers_length _ HL). pose proof (ok_partitions _ Hc). nia. }
  set (s1 := set_ledgers L' s).
  assert (HI1 : epoch_inv c seed s1).
  { apply (epoch_inv_rest c seed s); [done|done|by apply (wf_ledgers_shape c (ledgers s))|].
    eapply slot_inv_frame, (ei_slots _ _ _ HI); [pose proof (ok_partitions _ Hc); lia| |].
    - intros l i slot Hl. exists slot. split; [|done]. unfold s1. snap. rewrite Hv. case_bool_decide; [|done].
      rewrite lookup_app_l by (by eapply lookup_lt_Some). done.
    - intros l i slot. unfold s1. snap. rewrite Hv. case_bool_decide; [|by left].
      intros [?|(_ & Hx)]%lookup_app_Some; [by left|]. right. apply list_lookup_singleton_Some in Hx as [_ <-]. done. }
  destruct (num_capacity_run (ledgers s) k HL Hk) as (projected & Hproj & Hp).
  set (count := Z.max (default projected (ec_num_capacity_partitions c)) projected).
  assert (0 ≤ count < 2 ^ 31).
  { unfold count. pose proof (ch_minimum Hch). destruct (ec_num_capacity_partitions c) as [m|]; cbn; [|lia].
    specialize (H0 m eq_refl). lia. }
  assert (Hact : all_active_partitions s = []).
  { unfold is_init in Hinit. by apply andb_true_iff in Hinit as [?%bool_decide_eq_true _]. }
  destruct (add_capacity_inv s1 count) as [HI2 Hlen2]; [done|exact Hseed|unfold s1; snap; lia|lia|].
  set (s2 := add_capacity_partitions count s1) in *.
  destruct (assign_all_inv c seed s2 HI2) as (HI3 & Has & _).
  set (s3 := assign_partition_hashes_to_pledges s2) in *.
  assert (Hlen3 : length (all_active_partitions s3) = Z.to_nat count).
  { rewrite (as_active _ _ Has), Hlen2. unfold s1. snap. by rewrite Hact. }
  exists s3. split_and!.
  - unfold mbind, SE_bind, update, modify. rewrite Hrun. cbn [result_bind mbind fst snd]. rewrite Hproj. done.
  - done.
  - intros _. rewrite (as_block _ _ Has). exact (Hseed Hact).
  - rewrite Hlen3. lia.
  - rewrite (as_ledgers _ _ Has). exact Hsh.
  - intros l. rewrite (as_ledgers _ _ Has). apply Hv.
  - by rewrite (as_infos _ _ Has).
  - by rewrite (as_block _ _ Has).
  - by rewrite (as_stakes _ _ Has).
  - exact (as_owners _ _ Has).
  - exact (as_entries _ _ Has).
  - done.
Qed.

(** ** Commitments first *)

(** What the later steps need of the commitments, once stakes and pledges are registered. *)
Record pending_ops (s : EpochSnapshot) (ts : list CommitmentTransaction) : Prop := mkPendingOps {
  po_unpledge : ∀ t k h, t ∈ ts → tx_type t = Unpledge k h → owners s !! h = Some (tx_signer t);
  po_unstake : ∀ a, a ∈ unstakers ts → is_Some (stake_commitments s !! a) ∧
    ∀ e, e ∈ entries_of s a → ∃ h, pe_partition_hash e = Some h ∧ h ∈ unpledge_hashes ts;
  po_update : ∀ a, a ∈ updaters ts → is_Some (stake_commitments s !! a)
}.

Lemma elem_of_filter_bool {A} (f : A → bool) (l : list A) x : x ∈ List.filter f l ↔ x ∈ l ∧ f x = true.
Proof. by rewrite !list_elem_of_In, filter_In. Qed.

Lemma commitments_run s ts :
  epoch_inv c seed s → admissible s ts →
  ∃ s', compute_commitment_state ts s = (s', Ok ()) ∧ epoch_inv c seed s' ∧ pending_ops s' ts ∧
    ledgers s' = ledgers s ∧ all_active_partitions s' = all_active_partitions s ∧
    epoch_block s' = epoch_block s ∧ expired_partition_infos s' = expired_partition_infos s ∧ owners s' = owners s ∧
    unassigned_partitions s' = unassigned_partitions s.
Proof.
  intros [HL Hinv Hpool Hcom] Had. unfold compute_commitment_state.
  set (st := stake_all (List.filter is_stake ts) (stake_commitments s)).
  assert (Hstaked : ∀ a, staked_or_staking s ts a → is_Some (st !! a)).
  { intros a Ha. apply stake_all_spec. destruct Ha as [?|(t & Ht & Hty & <-)]; [by left|right].
    exists t. split; [|done]. apply elem_of_filter_bool. split; [done|]. unfold is_stake. by rewrite Hty. }
  destruct (add_pledges_run (List.filter is_pledge ts) (set_stakes st s)) as (pl & Hrun & Hcom' & Hent).
  - by apply commit_inv_stake_all.
  - intros t [Ht Hp]%elem_of_filter_bool. snap. by apply Hstaked, (ad_pledge _ _ Had).
  - apply (ad_pledge_nodup _ _ Had).
  - intros t [Ht Hp]%elem_of_filter_bool. by apply (ad_pledge_fresh _ _ Had).
  - exists (set_pledges pl (set_stakes st s)). split_and!; [| |split|done..].
    + unfold mbind, SE_bind. by rewrite add_stakes_run.
    + by split.
    + exact (ad_unpledge _ _ Had).
    + intros a Ha. destruct (ad_unstake _ _ Had a Ha) as (Hs & Hnop & Hall). split; [by apply Hstaked|].
      intros e. snap. rewrite Hent. intros [?|He]%elem_of_app; [by apply Hall|]. exfalso.
      unfold pledges_by in He. apply list_elem_of_fmap in He as (t & _ & [Hsig [Ht Hp]%elem_of_filter_bool]%list_elem_of_filter).
      by apply (Hnop t).
    + intros a Ha. by apply Hstaked, (ad_update _ _ Had).
Qed.

(** ** Then slots *)

Section Slots.
  Context (previous : option EpochHeader) (new : EpochHeader).

Definition cascade : bool := cascade_for_block c (timestamp_secs new).
Definition delta : option Z := delta_for_block c (timestamp_secs new).

(** The slots after allocation and the write window. *)
Definition grown (s : EpochSnapshot) (l : DataLedger) : list LedgerSlot :=
  touched (previous_total previous l) (ledger_total_chunks new l) (ec_num_chunks_in_partition c) (eh_height new) cascade
    (if decide (l ∈ active_ledgers (ledgers s)) then allocated c previous new delta l (init_slot s new l) else []).

Definition slot_room (s : EpochSnapshot) : Prop :=
  Z.of_nat (length (all_active_partitions s)) < 2 ^ 31 ∧
  ∀ l, l ∈ active_ledgers (ledgers s) → alloc_fits c previous new l (init_slot s new l).

(** The snapshot after expiry, from the snapshot [s] after the commitments. *)
Record expired (s s' : EpochSnapshot) : Prop := mkExpired {
  ex_ledgers : ∃ L, wf_ledgers c L ∧ shape L = shape (ledgers s) ∧ (∀ l, ledger_slots L l = grown s l) ∧
    (∀ l, headers (ledger_slots (ledgers s')) l =
          header <$> expire_at (expiring_now c new cascade L l) (ledger_slots L l)) ∧
    expired_partition_infos s' = infos_option (expired_infos c new cascade L);
  ex_shape : shape (ledgers s') = shape (ledgers s);
  ex_block : epoch_block s' = epoch_block s
}.

Lemma delta_fits_ok : delta_fits delta.
Proof.
  intros k. unfold delta, delta_for_block. pose proof (ok_delta _ Hc) as Hd.
  destruct (ec_delta c) as [[a k']|]; [|done]. case_match; [|done]. intros [= <-]. by apply (Hd a).
Qed.

Lemma lookup_touched_same p t cps h r slots i slot :
  slots !! i = Some slot → ∃ slot', touched p t cps h r slots !! i = Some slot' ∧
    partitions slot' = partitions slot ∧ is_expired slot' = is_expired slot.
Proof. intros Hs. rewrite lookup_touched, Hs. eexists. split; [done|]. by case_match. Qed.

(** Allocation and the write window keep partitions and flags; new slots are empty. *)
Lemma slot_inv_grow n (V V' : Slots) (active : list DataLedger) d cap :
  0 ≤ n → (∀ l, l ∉ active → V l = []) →
  (∀ l, V' l = touched (previous_total previous l) (ledger_total_chunks new l) (ec_num_chunks_in_partition c)
                 (eh_height new) cascade
                 (if decide (l ∈ active) then allocated c previous new delta l (V l) else [])) →
  slot_inv n (λ _, False) V d cap → slot_inv n (λ _, False) V' d cap.
Proof.
  intros Hn Hout HV'. apply slot_inv_frame; [done| |].
  - intros l i slot Hl. rewrite HV'. destruct (decide (l ∈ active)) as [Hin|Hnot].
    + apply lookup_touched_same. unfold allocated. rewrite lookup_app_l by (by eapply lookup_lt_Some). done.
    + by rewrite Hout in Hl.
  - intros l i slot'. rewrite HV', lookup_touched. destruct (decide (l ∈ active)) as [Hin|Hnot]; [|done].
    destruct (_ !! i) as [slot|] eqn:Hs; [|done]. intros [= <-].
    unfold allocated in Hs. apply lookup_app_Some in Hs as [Hs|[_ Hs]]; [left; eauto|right].
    apply lookup_replicate in Hs as [-> _]. by case_match.
Qed.

Lemma ledger_slots_inactive L l : l ∉ active_ledgers L → ledger_slots L l = [].
Proof.
  intros Hout. destruct (ledger_slots L l) as [|slot slots] eqn:E; [done|]. destruct Hout.
  apply (ledger_slots_active _ _ 0%nat slot). by rewrite E.
Qed.

(** Registered operations survive a step that keeps stakes, owners and entries. *)
Lemma pending_ops_genesis s s' ts :
  pool_ok seed s → commit_ok s → pending_ops s ts → stake_commitments s' = stake_commitments s →
  owners s ⊆ owners s' → (∀ a, entries_of s a = [] → entries_of s' a = []) → (is_init s new = false → s' = s) →
  pending_ops s' ts.
Proof.
  intros Hpool Hcom [H1 H2 H3] Hst Ho He Hsame. split.
  - intros t k h Ht Hty. eapply lookup_weaken; [by eapply H1|done].
  - intros a Ha. destruct (H2 a Ha) as [Hs Hall]. rewrite Hst. split; [done|].
    destruct (is_init s new) eqn:Hinit; [|by rewrite Hsame]. intros e He'.
    rewrite He in He'; [by apply elem_of_nil in He'|].
    destruct (entries_of s a) as [|e0 es] eqn:Hes; [done|]. exfalso.
    destruct (Hall e0) as (h & Hh & _); [by left|].
    assert (owners s !! h = Some a) as Hown by (apply (ci_owner _ _ _ Hcom), elem_of_hashes; exists e0; rewrite Hes; split; [left|done]).
    assert (h ∈ all_active_partitions s) as Hin by (apply (pi_active _ _ _ _ Hpool); right; by rewrite Hown).
    unfold is_init in Hinit. apply andb_true_iff in Hinit as [Hnil%bool_decide_eq_true _]. rewrite Hnil in Hin.
    by apply elem_of_nil in Hin.
  - intros a Ha. rewrite Hst. by apply H3.
Qed.

Lemma slots_run s ts :
  epoch_inv c seed s → seeded s → slot_room s → pending_ops s ts →
  ∃ s', (_ ← try_genesis_init c capacity_target new;
         _ ← allocate_additional_ledger_slots c previous new delta;
         _ ← touch_active_ledger_slots c previous new cascade;
         expire_ledger_slots c new cascade : ES ()) s = (s', Ok ()) ∧
    epoch_inv c seed s' ∧ seeded s' ∧ Z.of_nat (length (all_active_partitions s')) < 2 ^ 31 ∧
    pending_ops s' ts ∧ expired s s'.
Proof.
  intros HI Hseed [Hlen Hroom] Hops.
  destruct (genesis_run s new HI Hseed Hlen)
    as (s1 & H1 & HI1 & Hseed1 & Hlen1 & Hsh1 & Hv1 & Hi1 & Hb1 & Hst1 & Ho1 & He1 & Hsame1).
  pose proof (ei_ledgers _ _ _ HI1) as HL1.
  assert (Hact1 : active_ledgers (ledgers s1) = active_ledgers (ledgers s)) by (by apply active_ledgers_shape).
  destruct (allocate_all c Hc previous new delta s1 delta_fits_ok HL1) as (L2 & H2 & Hsh2 & Hv2).
  { intros l Hl. rewrite Hv1. apply Hroom. by rewrite <- Hact1. }
  destruct (touch_all c previous new cascade (set_ledgers L2 s1)) as (L3 & H3 & Hsh3 & Hv3).
  { by apply (wf_ledgers_shape c (ledgers s1)). }
  assert (HL3 : wf_ledgers c L3) by (apply (wf_ledgers_shape c (ledgers s1)); [cbn in Hsh3; congruence|done]).
  assert (Hinv3 : slots_ok (ec_num_partitions_per_slot c) (λ _, False) (set_ledgers L3 s1)).
  { eapply slot_inv_grow, (ei_slots _ _ _ HI1); [pose proof (ok_partitions _ Hc); lia|apply ledger_slots_inactive|].
    intros l. snap. rewrite Hv3. snap. by rewrite Hv2. }
  destruct (expire_ledger_slots_run c Hc new cascade _ (set_ledgers L3 s1) HL3 Hinv3)
    as (s' & H4 & Hrest & Hsh4 & Hh4 & Hi4 & Hinv4).
  assert (HI' : epoch_inv c seed s').
  { apply (epoch_inv_rest c seed s1); [done..| |done]. by apply (wf_ledgers_shape c L3). }
  unfold rest in Hrest. injection Hrest as Ho Hst Hpl Ha Hu Hb.
  exists s'. split_and!.
  - unfold mbind, SE_bind. by rewrite H1, H2, H3.
  - done.
  - intros Hnil. rewrite Hb. apply Hseed1. by rewrite <- Ha.
  - by rewrite Ha.
  - assert (Hops1 : pending_ops s1 ts) by (apply (pending_ops_genesis s); try done; apply HI).
    destruct Hops1 as [P1 P2 P3]. split; rewrite ?Ho, ?Hst, ?Hpl; done.
  - split; [|cbn in Hsh3, Hsh4; congruence|by rewrite Hb].
    exists L3. split_and!; [done|cbn in Hsh3; congruence| |done..].
    intros l. rewrite Hv3. snap. unfold grown. by rewrite Hv2, Hv1, Hact1.
Qed.
End Slots.

(** ** The remaining commitments *)

(** What the last steps keep of the slots. *)
Record settled (s s' : EpochSnapshot) : Prop := mkSettled {
  st_shape : shape (ledgers s') = shape (ledgers s);
  st_headers : ∀ l, headers (ledger_slots (ledgers s')) l = headers (ledger_slots (ledgers s)) l;
  st_infos : expired_partition_infos s' = expired_partition_infos s;
  st_block : epoch_block s' = epoch_block s
}.

Lemma retire_run s ts :
  epoch_inv c seed s → pending_ops s ts → NoDup (unpledge_hashes ts) → NoDup (unstakers ts) → NoDup (updaters ts) →
  (∀ a, a ∈ updaters ts → a ∉ unstakers ts) →
  ∃ s', (_ ← apply_unpledges ts; _ ← apply_unstakes ts; apply_update_reward_addresses ts : ES ()) s = (s', Ok ()) ∧
    epoch_inv c seed s' ∧ settled s s' ∧ all_active_partitions s' = all_active_partitions s.
Proof.
  intros HI [P1 P2 P3] Hn1 Hn2 Hn3 Hdis.
  destruct (apply_unpledges_run seed c ts s HI Hn1 P1) as (s1 & H1 & HI1 & Hu).
  destruct (apply_unstakes_run ts s1) as (st & H2 & Hcom2 & Hb2); [apply HI1|done| |].
  { intros a Ha. destruct (P2 a Ha) as [Hs Hall]. rewrite (ua_stakes _ _ _ Hu). split; [done|].
    rewrite (ua_entries _ _ _ Hu). apply elem_of_nil_inv. intros e [Hk He]%list_elem_of_filter.
    destruct (Hall e He) as (h & Hh & Hin). by apply (Hk h). }
  destruct (apply_updates_run ts ∅ (set_stakes st s1)) as (st' & H3 & Hcom3); [done|done| |].
  { intros a Ha. split; [apply not_elem_of_empty|]. snap. rewrite Hb2 by (by apply Hdis).
    rewrite (ua_stakes _ _ _ Hu). by apply P3. }
  exists (set_stakes st' (set_stakes st s1)). split_and!.
  - unfold mbind, SE_bind, apply_update_reward_addresses. by rewrite H1, H2.
  - destruct HI1 as [HL Hinv Hpool _]. by split.
  - destruct Hu. by split.
  - exact (ua_active _ _ _ Hu).
Qed.

Lemma refill_run s :
  epoch_inv c seed s → seeded s → Z.of_nat (length (all_active_partitions s)) < 2 ^ 31 →
  ∃ s', (_ ← backfill_missing_partitions; _ ← allocate_additional_capacity c capacity_target;
         modify assign_partition_hashes_to_pledges : ES ()) s = (s', Ok ()) ∧
    epoch_inv c seed s' ∧ settled s s' ∧ (unassigned_partitions s' = [] ∨ ∀ q, ¬ pending_in s' q).
Proof.
  intros HI Hseed Hlen. destruct (backfill_run c s) as (s1 & H1 & Hm & Hinv1).
  { apply HI. }
  { apply HI. }
  { pose proof (capacity_in_active s (ei_pool _ _ _ HI)). unfold pool_fits. lia. }
  pose proof (mv_rest _ _ Hm) as Hr. unfold rest in Hr. injection Hr as Ho Hst Hpl Ha Hu Hb.
  assert (HI1 : epoch_inv c seed s1).
  { apply (epoch_inv_rest c seed s); [done|apply Hm| |done]. apply (wf_ledgers_shape c (ledgers s)); [apply Hm|apply HI]. }
  destruct (allocate_capacity_run s1 HI1) as (s2 & H2 & HI2 & HL2 & Hi2 & Hb2 & _).
  { intros Hnil. rewrite Hb. apply Hseed. by rewrite <- Ha. }
  { by rewrite Ha. }
  destruct (assign_all_inv c seed s2 HI2) as (HI3 & Has & Hserved).
  exists (assign_partition_hashes_to_pledges s2). split_and!; [|done| |done].
  - unfold mbind, SE_bind, modify. by rewrite H1, H2.
  - destruct Hm, Has. split; [congruence| |congruence|congruence]. intros l. rewrite as_ledgers, HL2. apply mv_headers.
Qed.

(** ** The transition *)

Section Perform.
  Context (previous : option EpochHeader) (new : EpochHeader).

(** The snapshot with its block and ledgers set for the new epoch. *)
Definition opened (s : EpochSnapshot) : EpochSnapshot :=
  let s := set_blocks new previous (set_height (eh_height new) s) in
  if cascade new then set_ledgers (activate_cascade c (ledgers s)) s else s.

Lemma opened_inv s : epoch_inv c seed s → epoch_inv c seed (opened s) ∧
  (∀ l, ledger_slots (ledgers (opened s)) l = ledger_slots (ledgers s) l).
Proof.
  intros [HL Hinv Hpool Hcom]. unfold opened. destruct (cascade new); [|by split].
  destruct (activate_cascade_spec c (ledgers s) HL) as [HL' Hv]. split; [|done].
  split; [done| |done..]. by apply (slot_inv_ext _ _ (ledger_slots (ledgers s))).
Qed.

Record header_ok (s : EpochSnapshot) (ts : list CommitmentTransaction) : Prop := mkHeaderOk {
  ho_epoch : is_epoch_block c new = Ok ();
  ho_previous : check_previous c previous new = Ok ();
  ho_commitments : validate_commitments new ts = Ok ();
  ho_seed : all_active_partitions s = [] → eh_last_epoch_hash new = seed
}.

Lemma perform_run s ts :
  epoch_inv c seed s → header_ok s ts → admissible s ts → slot_room previous new (opened s) →
  ∃ s' s1, perform_epoch_tasks c capacity_target previous new ts s = (s', Ok ()) ∧
    epoch_inv c seed s' ∧ epoch_block s' = new ∧
    (unassigned_partitions s' = [] ∨ ∀ q, ¬ pending_in s' q) ∧
    ledgers s1 = ledgers (opened s) ∧ all_active_partitions s1 = all_active_partitions s ∧ expired previous new s1 s'.
Proof.
  intros HI [Hep Hpr Hcm Hseed] Had Hroom. destruct (opened_inv s HI) as [HI0 Hv0].
  assert (Hfields : owners (opened s) = owners s ∧ pledge_commitments (opened s) = pledge_commitments s ∧
    stake_commitments (opened s) = stake_commitments s ∧ all_active_partitions (opened s) = all_active_partitions s ∧
    epoch_block (opened s) = new) by (unfold opened; by destruct (cascade new)).
  destruct Hfields as (Fo & Fp & Fs & Fa & Fb).
  assert (Had0 : admissible (opened s) ts).
  { destruct Had. split; unfold staked_or_staking in *; rewrite ?Fo, ?Fp, ?Fs; done. }
  destruct (commitments_run (opened s) ts HI0 Had0) as (s1 & H1 & HI1 & Hops & HL1 & Ha1 & Hb1 & Hi1 & Ho1 & Hu1).
  destruct (slots_run previous new s1 ts) as (s2 & H2 & HI2 & Hseed2 & Hlen2 & Hops2 & Hex); [done| | |done|].
  { intros Hnil. rewrite Hb1, Fb. apply Hseed. by rewrite <- Fa, <- Ha1. }
  { destruct Hroom as [R1 R2]. unfold slot_room, init_slot, is_init in *. by rewrite HL1, Ha1. }
  destruct (retire_run s2 ts HI2 Hops2) as (s3 & H3 & HI3 & Hset3 & Ha3).
  { apply Had. }
  { apply Had. }
  { apply Had. }
  { intros a Ha. by apply (ad_update _ _ Had). }
  destruct (refill_run s3 HI3) as (s4 & H4 & HI4 & Hset4 & Hserved).
  { intros Hnil. rewrite (st_block _ _ Hset3). apply Hseed2. by rewrite <- Ha3. }
  { by rewrite Ha3. }
  exists s4, s1. split_and!; [|done| |done|done|congruence|].
  - repeat (apply bind_run in H2 as (? & [] & ? & H2)). repeat (apply bind_run in H3 as (? & [] & ? & H3)).
    repeat (apply bind_run in H4 as (? & [] & ? & H4)). unfold perform_epoch_tasks.
    do 3 (apply bind_run; eexists _, (); split; [unfold lift, modify; by rewrite ?Hep, ?Hpr|]).
    apply bind_run; eexists _, (); split; [unfold lift; by rewrite Hcm|].
    do 2 (apply bind_run; eexists _, (); split; [reflexivity|]).
    apply bind_run; eexists _, (); split; [exact H1|].
    repeat (apply bind_run; eexists _, (); split; [eassumption|]). exact H4.
  - rewrite (st_block _ _ Hset4), (st_block _ _ Hset3), (ex_block _ _ _ _ Hex). congruence.
  - destruct Hex as [(L & HL & Hsh & Hg & Hh & Hi) Hsh' Hb]. destruct Hset3, Hset4. split; [|congruence|congruence].
    exists L. split_and!; [done..| |congruence]. intros l. by rewrite st_headers1, st_headers0.
Qed.
End Perform.
End Transition.
