(* ===== verification/CommitmentFacts.v ===== *)
(** Commitment snapshots accept only what the epoch transition can apply: the invariant of a
    miner's commitments, its preservation by [add_commitment], and the contract [admissible] it
    gives for the commitments of an epoch. *)

From S2P Require Import TreeHash StateErr DataLedger EpochSnapshot EpochInv EpochSlots EpochCommit EpochTransition CommitmentSnapshot Prelude.

Section Commitments.
  Context (es : EpochSnapshot) (Hcom : commit_ok es).
  Implicit Types (t : CommitmentTransaction) (mc : MinerCommitments) (cs : CommitmentSnapshot).

(** [P] holds of the transactions offered so far. *)
Record miner_inv (P : CommitmentTransaction → Prop) (a : Z) (mc : MinerCommitments) : Prop := mkMinerInv {
  mi_from : ∀ t, t ∈ miner_commitments mc → P t ∧ tx_signer t = a;
  mi_stake : ∀ t, mc_stake mc = Some t → tx_type t = Stake;
  mi_pledge : ∀ t, t ∈ mc_pledges mc → is_pledge t = true;
  mi_unpledge : ∀ t, t ∈ mc_unpledges mc → ∃ k h, tx_type t = Unpledge k h ∧ owners es !! h = Some a;
  mi_unstake : ∀ t, mc_unstake mc = Some t → tx_type t = Unstake;
  mi_update : ∀ t, mc_update_reward_address mc = Some t → ∃ r, tx_type t = UpdateRewardAddress r;
  mi_ids : NoDup (tx_id <$> mc_pledges mc);
  mi_hashes : NoDup (unpledge_hashes (mc_unpledges mc));
  mi_staked : miner_commitments mc ≠ [] → is_Some (stake_commitments es !! a) ∨ is_Some (mc_stake mc);
  mi_leaving : is_Some (mc_unstake mc) →
    (length (entries_of es a) + length (mc_pledges mc) ≤ length (mc_unpledges mc))%nat ∧
    mc_update_reward_address mc = None
}.

Definition snapshot_inv (P : CommitmentTransaction → Prop) (cs : CommitmentSnapshot) : Prop :=
  ∀ a mc, cs !! a = Some mc → miner_inv P a mc.

Lemma miner_inv_weaken P Q a mc : (∀ t, P t → Q t) → miner_inv P a mc → miner_inv Q a mc.
Proof. intros HPQ []. split; [|done..]. intros t Ht. destruct (mi_from0 t Ht). auto. Qed.

Lemma miner_inv_none P a : miner_inv P a no_commitments.
Proof.
  split; try done; [by intros t ?%elem_of_nil..|constructor|constructor|by intros [? ?]].
Qed.

Lemma elem_of_miner mc t :
  t ∈ miner_commitments mc ↔
  mc_stake mc = Some t ∨ t ∈ mc_pledges mc ∨ t ∈ mc_unpledges mc ∨ mc_unstake mc = Some t ∨
  mc_update_reward_address mc = Some t.
Proof.
  assert (Ho : ∀ o : option CommitmentTransaction, t ∈ option_list o ↔ o = Some t).
  { intros [x|]; cbn; [rewrite list_elem_of_singleton; naive_solver|]. split; [by intros ?%elem_of_nil|done]. }
  unfold miner_commitments. by rewrite !elem_of_app, !Ho.
Qed.

Lemma has_stake_spec cs a :
  has_stake cs a es = true ↔ is_Some (stake_commitments es !! a) ∨ is_Some (mc_stake (default no_commitments (cs !! a))).
Proof.
  unfold has_stake. rewrite orb_true_iff, (is_staked_spec es a Hcom).
  destruct (cs !! a) as [mc|]; cbn; [by rewrite bool_decide_eq_true|]. split; [naive_solver|].
  intros [?|[? ?]]; [by left|done].
Qed.

Lemma pledges_in_epoch_eq a : from_option length 0%nat (pledge_commitments es !! a) = length (entries_of es a).
Proof. unfold entries. by destruct (pledge_commitments es !! a). Qed.

Lemma owned_spec h a :
  match get_assignment es h with Some x => pa_miner_address x =? a | None => false end = true ↔ owners es !! h = Some a.
Proof.
  rewrite owners_get_assignment. destruct (get_assignment es h) as [x|]; cbn; [|done]. rewrite Z.eqb_eq. naive_solver.
Qed.

Lemma unpledge_pending h mc :
  existsb (unpledges_partition h) (mc_unpledges mc) = false → h ∉ unpledge_hashes (mc_unpledges mc).
Proof.
  intros Hex (t & Ht & Hh)%list_elem_of_omap. apply not_true_iff_false in Hex. apply Hex, existsb_exists.
  exists t. split; [by apply list_elem_of_In|]. unfold unpledges_partition.
  destruct (tx_type t); simplify_eq. apply Z.eqb_refl.
Qed.

(** ** One commitment *)

Definition staked_here (a : Z) (mc : MinerCommitments) : Prop :=
  is_Some (stake_commitments es !! a) ∨ is_Some (mc_stake mc).

Section Step.
  Context (P : CommitmentTransaction → Prop) (t : CommitmentTransaction) (Ht : P t) (mc : MinerCommitments).
  Context (HI : miner_inv P (tx_signer t) mc).

Lemma from_add mc' :
  (∀ t', t' ∈ miner_commitments mc' → t' = t ∨ t' ∈ miner_commitments mc) →
  ∀ t', t' ∈ miner_commitments mc' → P t' ∧ tx_signer t' = tx_signer t.
Proof. intros Hsub t' [->|Hin]%Hsub; [done|]. by apply (mi_from _ _ _ HI). Qed.

Lemma miner_inv_stake : tx_type t = Stake → miner_inv P (tx_signer t) (with_stake t mc).
Proof.
  intros Hty. destruct HI. split; try done.
  - apply from_add. intros t'. rewrite !elem_of_miner. cbn. naive_solver.
  - cbn. by intros t' [= <-].
  - intros _. right. cbn. eauto.
Qed.

Lemma miner_inv_pledge :
  is_pledge t = true → staked_here (tx_signer t) mc → mc_unstake mc = None → has_id (tx_id t) (mc_pledges mc) = false →
  miner_inv P (tx_signer t) (with_pledge t mc).
Proof.
  intros Hty Hst Hun Hnew. destruct HI. split; try done; cbn.
  - apply from_add. intros t'. rewrite !elem_of_miner. cbn. set_solver.
  - intros t' [?| ->%list_elem_of_singleton]%elem_of_app; [by apply mi_pledge0|done].
  - rewrite fmap_app. apply NoDup_app. split_and!; [done| |apply NoDup_singleton].
    intros x (t' & -> & Hin)%list_elem_of_fmap Hx%list_elem_of_singleton.
    apply not_true_iff_false in Hnew. apply Hnew, existsb_exists. exists t'. split; [by apply list_elem_of_In|].
    by apply Z.eqb_eq.
  - rewrite Hun. by intros [? ?].
Qed.

Lemma miner_inv_unpledge k h :
  tx_type t = Unpledge k h → staked_here (tx_signer t) mc → owners es !! h = Some (tx_signer t) →
  h ∉ unpledge_hashes (mc_unpledges mc) → miner_inv P (tx_signer t) (with_unpledge t mc).
Proof.
  intros Hty Hst Hown Hnew. destruct HI. split; try done; cbn.
  - apply from_add. intros t'. rewrite !elem_of_miner. cbn. set_solver.
  - intros t' [?| ->%list_elem_of_singleton]%elem_of_app; [by apply mi_unpledge0|eauto].
  - unfold unpledge_hashes. rewrite omap_app. cbn. rewrite Hty. apply NoDup_app.
    split_and!; [done| |apply NoDup_singleton]. intros x Hx ->%list_elem_of_singleton. done.
  - intros Hs. destruct (mi_leaving0 Hs) as [Hle ?]. split; [|done]. rewrite length_app. lia.
Qed.

Lemma miner_inv_unstake :
  tx_type t = Unstake → staked_here (tx_signer t) mc → mc_update_reward_address mc = None →
  (length (entries_of es (tx_signer t)) + length (mc_pledges mc) ≤ length (mc_unpledges mc))%nat →
  miner_inv P (tx_signer t) (with_unstake t mc).
Proof.
  intros Hty Hst Hup Hle. destruct HI. split; try done; cbn.
  - apply from_add. intros t'. rewrite !elem_of_miner. cbn. naive_solver.
  - by intros t' [= <-].
Qed.

Lemma miner_inv_update r :
  tx_type t = UpdateRewardAddress r → staked_here (tx_signer t) mc → mc_unstake mc = None →
  miner_inv P (tx_signer t) (with_update t mc).
Proof.
  intros Hty Hst Hun. destruct HI. split; try done; cbn.
  - apply from_add. intros t'. rewrite !elem_of_miner. cbn. naive_solver.
  - intros t' [= <-]. eauto.
  - rewrite Hun. by intros [? ?].
Qed.

Lemma add_to_miner_inv :
  (tx_type t = Stake ∨ staked_here (tx_signer t) mc) → miner_inv P (tx_signer t) (add_to_miner t es mc).1.
Proof.
  intros Hst. unfold add_to_miner. rewrite pledges_in_epoch_eq. unfold active_pledge_count.
  destruct (tx_type t) as [|k|k h| |r] eqn:Hty.
  - by apply miner_inv_stake.
  - destruct Hst as [?|Hst]; [done|]. case_bool_decide as Hun; [done|]. apply eq_None_not_Some in Hun.
    destruct (has_id _ _) eqn:Hid; [done|]. do 2 (destruct (negb _); [done|]).
    apply miner_inv_pledge; try done. unfold is_pledge. by rewrite Hty.
  - destruct Hst as [?|Hst]; [done|]. do 2 (destruct (negb _); [done|]).
    destruct (negb _) eqn:Hown; [done|]. destruct (existsb _ _) eqn:Hex; [done|].
    apply (miner_inv_unpledge k h); try done; [|by apply unpledge_pending].
    apply owned_spec. by apply negb_false_iff in Hown.
  - destruct Hst as [?|Hst]; [done|]. destruct (0 <? _)%nat eqn:Hcount; [done|].
    case_bool_decide as Hun; [done|]. case_bool_decide as Hup; [done|]. apply eq_None_not_Some in Hup.
    apply miner_inv_unstake; try done. apply Nat.ltb_ge in Hcount. lia.
  - destruct Hst as [?|Hst]; [done|]. case_bool_decide as Hun; [done|]. apply eq_None_not_Some in Hun.
    case_match; [done|]. by apply (miner_inv_update r).
Qed.
End Step.

Lemma add_commitment_inv P cs t :
  P t → snapshot_inv P cs → snapshot_inv P (add_commitment t es cs).1.
Proof.
  intros Ht HI. unfold add_commitment.
  assert (Hold : miner_inv P (tx_signer t) (default no_commitments (cs !! tx_signer t))).
  { destruct (cs !! tx_signer t) as [mc|] eqn:E; [by apply HI|]. apply miner_inv_none. }
  assert (Hnew : (tx_type t = Stake ∨ staked_here (tx_signer t) (default no_commitments (cs !! tx_signer t))) →
    snapshot_inv P (<[tx_signer t := (add_to_miner t es (default no_commitments (cs !! tx_signer t))).1]> cs)).
  { intros Hst a mc [[<- <-]|[_ Hmc]]%lookup_insert_Some; [by apply add_to_miner_inv|by apply HI]. }
  destruct (tx_type t) eqn:Hty.
  1: { destruct (existing_stake_status cs t es); [done|]. apply Hnew. by left. }
  all: destruct (has_stake cs (tx_signer t) es) eqn:Hst; [|done]; apply Hnew; right; by apply has_stake_spec.
Qed.

Lemma add_commitments_inv P ts cs :
  (∀ t, t ∈ ts → P t) → snapshot_inv P cs → snapshot_inv P (add_commitments ts es cs).
Proof.
  unfold add_commitments. revert cs. induction ts as [|t ts IH]; intros cs Hts HI; [done|]. cbn [fold_left].
  apply IH; [intros t' ?; apply Hts; by right|]. apply add_commitment_inv; [apply Hts; left|done].
Qed.

(** ** The commitments of the epoch *)

Lemma concat_fmap_bind {A B} (f : A → list B) (l : list A) : concat (f <$> l) = l ≫= f.
Proof. induction l as [|x l IH]; [done|]. cbn [fmap list_fmap concat mbind list_bind]. by rewrite <- IH. Qed.

Lemma epoch_commitments_perm cs : get_epoch_commitments cs ≡ₚ map_to_list cs ≫= λ x, miner_commitments x.2.
Proof.
  unfold get_epoch_commitments, btree_values, sort_by_key.
  rewrite merge_sort_Permutation, <- list_fmap_compose, concat_fmap_bind. unfold compose.
  by rewrite (merge_sort_Permutation (key_le fst) (map_to_list cs)).
Qed.

Lemma elem_of_epoch cs t : t ∈ get_epoch_commitments cs ↔ ∃ a mc, cs !! a = Some mc ∧ t ∈ miner_commitments mc.
Proof.
  rewrite epoch_commitments_perm, list_elem_of_bind. split.
  - intros ([a mc] & Ht & Hin%elem_of_map_to_list). eauto.
  - intros (a & mc & Hin & Ht). exists (a, mc). split; [done|]. by apply elem_of_map_to_list.
Qed.

Lemma omap_bind {A B C} (f : B → option C) (g : A → list B) (l : list A) :
  omap f (l ≫= g) = l ≫= λ x, omap f (g x).
Proof. induction l as [|x l IH]; [done|]. cbn. by rewrite omap_app, IH. Qed.

(** A key of the commitments that is unique for each miner and names the miner is unique. *)
Lemma NoDup_epoch_keys {B} (f : CommitmentTransaction → option B) cs :
  (∀ a mc, cs !! a = Some mc → NoDup (omap f (miner_commitments mc))) →
  (∀ a b mc mc' t t' x, cs !! a = Some mc → cs !! b = Some mc' → t ∈ miner_commitments mc →
    t' ∈ miner_commitments mc' → f t = Some x → f t' = Some x → a = b) →
  NoDup (omap f (get_epoch_commitments cs)).
Proof.
  intros Hmine Hcross. rewrite epoch_commitments_perm, omap_bind. apply NoDup_bind.
  - intros [a mc] [b mc'] x Ha%elem_of_map_to_list Hb%elem_of_map_to_list (t & Ht & Hx)%list_elem_of_omap
      (t' & Ht' & Hx')%list_elem_of_omap.
    assert (a = b) as -> by (by eapply (Hcross a b)). by simplify_map_eq.
  - intros [a mc] Ha%elem_of_map_to_list. by eapply Hmine.
  - apply NoDup_map_to_list.
Qed.

Lemma omap_none {A B} (f : A → option B) (l : list A) : (∀ x, x ∈ l → f x = None) → omap f l = [].
Proof.
  intros Hf. induction l as [|x l IH]; [done|]. cbn. rewrite Hf by left. apply IH. intros y Hy. apply Hf. by right.
Qed.

Lemma omap_miner {B} (f : CommitmentTransaction → option B) mc :
  omap f (miner_commitments mc) =
  omap f (option_list (mc_stake mc)) ++ omap f (mc_pledges mc) ++ omap f (mc_unpledges mc) ++
  omap f (option_list (mc_unstake mc)) ++ omap f (option_list (mc_update_reward_address mc)).
Proof. unfold miner_commitments. by rewrite !omap_app. Qed.

(** The part of a miner's commitments a kind selects. *)
Section Kinds.
  Context {P : CommitmentTransaction → Prop} {a : Z} {mc : MinerCommitments} (HI : miner_inv P a mc).

Lemma option_list_Some {A} (o : option A) x : x ∈ option_list o ↔ o = Some x.
Proof.
  destruct o as [y|]; cbn; [rewrite list_elem_of_singleton; naive_solver|]. split; [by intros ?%elem_of_nil|done].
Qed.

Ltac none_of_part :=
  apply omap_none; intros t Ht; try apply option_list_Some in Ht;
  match goal with Hf : ∀ t, _ → ?f t = None |- ?f t = None => apply Hf end;
  first [rewrite (mi_stake _ _ _ HI t Ht)
        |rewrite (mi_unstake _ _ _ HI t Ht)
        |destruct (mi_update _ _ _ HI t Ht) as [? ->]
        |destruct (mi_unpledge _ _ _ HI t Ht) as (? & ? & -> & _)
        |pose proof (mi_pledge _ _ _ HI t Ht) as Hp; unfold is_pledge in *; destruct (tx_type t)]; done.

Lemma miner_pledges {B} (f : CommitmentTransaction → option B) :
  (∀ t, is_pledge t = false → f t = None) → omap f (miner_commitments mc) = omap f (mc_pledges mc).
Proof.
  intros Hf. unfold is_pledge in Hf. rewrite omap_miner.
  assert (omap f (option_list (mc_stake mc)) = []) as -> by none_of_part.
  assert (omap f (mc_unpledges mc) = []) as -> by none_of_part.
  assert (omap f (option_list (mc_unstake mc)) = []) as -> by none_of_part.
  assert (omap f (option_list (mc_update_reward_address mc)) = []) as -> by none_of_part.
  by rewrite !app_nil_r.
Qed.

Lemma miner_unpledges {B} (f : CommitmentTransaction → option B) :
  (∀ t, match tx_type t with Unpledge _ _ => false | _ => true end = true → f t = None) →
  omap f (miner_commitments mc) = omap f (mc_unpledges mc).
Proof.
  intros Hf. rewrite omap_miner.
  assert (omap f (option_list (mc_stake mc)) = []) as -> by none_of_part.
  assert (omap f (mc_pledges mc) = []) as -> by none_of_part.
  assert (omap f (option_list (mc_unstake mc)) = []) as -> by none_of_part.
  assert (omap f (option_list (mc_update_reward_address mc)) = []) as -> by none_of_part.
  by rewrite !app_nil_r.
Qed.

Lemma miner_unstakes {B} (f : CommitmentTransaction → option B) :
  (∀ t, match tx_type t with Unstake => false | _ => true end = true → f t = None) →
  omap f (miner_commitments mc) = omap f (option_list (mc_unstake mc)).
Proof.
  intros Hf. rewrite omap_miner.
  assert (omap f (option_list (mc_stake mc)) = []) as -> by none_of_part.
  assert (omap f (mc_pledges mc) = []) as -> by none_of_part.
  assert (omap f (mc_unpledges mc) = []) as -> by none_of_part.
  assert (omap f (option_list (mc_update_reward_address mc)) = []) as -> by none_of_part.
  by rewrite !app_nil_r.
Qed.

Lemma miner_updates {B} (f : CommitmentTransaction → option B) :
  (∀ t, match tx_type t with UpdateRewardAddress _ => false | _ => true end = true → f t = None) →
  omap f (miner_commitments mc) = omap f (option_list (mc_update_reward_address mc)).
Proof.
  intros Hf. rewrite omap_miner.
  assert (omap f (option_list (mc_stake mc)) = []) as -> by none_of_part.
  assert (omap f (mc_pledges mc) = []) as -> by none_of_part.
  assert (omap f (mc_unpledges mc) = []) as -> by none_of_part.
  assert (omap f (option_list (mc_unstake mc)) = []) as -> by none_of_part.
  done.
Qed.
End Kinds.

(** ** A miner that leaves has unpledged everything *)

Lemma length_omap_le {A B} (f : A → option B) (l : list A) : (length (omap f l) ≤ length l)%nat.
Proof. induction l as [|x l IH]; [done|]. cbn. destruct (f x); cbn; lia. Qed.

Lemma omap_full {A B} (f : A → option B) (l : list A) :
  length (omap f l) = length l → ∀ x, x ∈ l → is_Some (f x).
Proof.
  induction l as [|y l IH]; cbn; intros Hlen x Hx; [by apply elem_of_nil in Hx|].
  pose proof (length_omap_le f l). destruct (f y) eqn:Hy; cbn in Hlen; [|lia].
  apply elem_of_cons in Hx as [->|Hx]; [by rewrite Hy|]. apply IH; [lia|done].
Qed.

Lemma leaving_spec P a mc :
  miner_inv P a mc → is_Some (mc_unstake mc) →
  mc_pledges mc = [] ∧
  ∀ e, e ∈ entries_of es a → ∃ h, pe_partition_hash e = Some h ∧ h ∈ unpledge_hashes (mc_unpledges mc).
Proof.
  intros HI Hs. destruct (mi_leaving _ _ _ HI Hs) as [Hle _].
  set (U := unpledge_hashes (mc_unpledges mc)). set (owned := omap pe_partition_hash (entries_of es a)).
  assert (HU : length U = length (mc_unpledges mc)).
  { pose proof (mi_unpledge _ _ _ HI) as Hty. unfold U, unpledge_hashes. clear -Hty.
    induction (mc_unpledges mc) as [|t l IH]; [done|]. cbn. destruct (Hty t) as (k & h & -> & _); [by left|].
    cbn. f_equal. apply IH. intros t' Ht'. apply Hty. by right. }
  assert (Hsub : U ⊆+ owned).
  { apply NoDup_submseteq; [apply (mi_hashes _ _ _ HI)|]. intros h (t & Ht & Hh)%list_elem_of_omap.
    destruct (mi_unpledge _ _ _ HI t Ht) as (k & h' & Hty & Hown). rewrite Hty in Hh. injection Hh as ->.
    by apply (ci_owner _ _ _ Hcom). }
  pose proof (submseteq_length _ _ Hsub) as Hl1. pose proof (length_omap_le pe_partition_hash (entries_of es a)) as Hl2.
  fold owned in Hl2. split; [apply nil_length_inv; lia|]. intros e He.
  destruct (omap_full pe_partition_hash (entries_of es a)) with e as [h Hh]; [unfold owned in *; lia|done|].
  exists h. split; [done|]. rewrite (submseteq_length_Permutation _ _ Hsub) by lia.
  apply elem_of_hashes. eauto.
Qed.

(** ** The contract *)

Section Contract.
  Context (P : CommitmentTransaction → Prop) (cs : CommitmentSnapshot) (HI : snapshot_inv P cs).
  Context (Hids : ∀ t t', P t → P t' → tx_id t = tx_id t' → t = t').
  Context (Hfresh : ∀ t, P t → is_pledge t = true → tx_id t ∉ pe_id <$> entries_of es (tx_signer t)).

Lemma epoch_miner t :
  t ∈ get_epoch_commitments cs →
  ∃ mc, cs !! tx_signer t = Some mc ∧ t ∈ miner_commitments mc ∧ miner_inv P (tx_signer t) mc ∧ P t ∧
    staked_or_staking es (get_epoch_commitments cs) (tx_signer t).
Proof.
  intros (a & mc & Hmc & Ht)%elem_of_epoch. pose proof (HI a mc Hmc) as Hmi.
  destruct (mi_from _ _ _ Hmi t Ht) as [HP <-]. exists mc. split_and!; [done..|].
  destruct (mi_staked _ _ _ Hmi) as [?|[t0 Ht0]]; [by intros Hnil; rewrite Hnil in Ht; apply elem_of_nil in Ht|by left|].
  right. exists t0. assert (t0 ∈ miner_commitments mc) as Hin by (apply elem_of_miner; by left).
  split_and!; [apply elem_of_epoch; eauto|by apply (mi_stake _ _ _ Hmi)|by apply (mi_from _ _ _ Hmi)].
Qed.

Lemma epoch_kind t a mc : miner_inv P a mc → t ∈ miner_commitments mc →
  match tx_type t with
  | Stake => mc_stake mc = Some t
  | Pledge _ => t ∈ mc_pledges mc
  | Unpledge _ _ => t ∈ mc_unpledges mc
  | Unstake => mc_unstake mc = Some t
  | UpdateRewardAddress _ => mc_update_reward_address mc = Some t
  end.
Proof.
  intros Hmi [Ht|[Ht|[Ht|[Ht|Ht]]]]%elem_of_miner.
  - by rewrite (mi_stake _ _ _ Hmi t Ht).
  - pose proof (mi_pledge _ _ _ Hmi t Ht) as Hp. unfold is_pledge in Hp. by destruct (tx_type t).
  - by destruct (mi_unpledge _ _ _ Hmi t Ht) as (? & ? & -> & _).
  - by rewrite (mi_unstake _ _ _ Hmi t Ht).
  - by destruct (mi_update _ _ _ Hmi t Ht) as [? ->].
Qed.

Lemma unstaker_spec a :
  a ∈ unstakers (get_epoch_commitments cs) →
  staked_or_staking es (get_epoch_commitments cs) a ∧
  ∃ mc, cs !! a = Some mc ∧ miner_inv P a mc ∧ is_Some (mc_unstake mc).
Proof.
  intros (t & Ht & Hty)%list_elem_of_omap. destruct (tx_type t) eqn:E; try done. injection Hty as <-.
  destruct (epoch_miner t Ht) as (mc & Hmc & Hin & Hmi & _ & Hst). split; [done|]. exists mc. split_and!; [done..|].
  pose proof (epoch_kind t _ mc Hmi Hin) as Hk. rewrite E in Hk. eauto.
Qed.

Lemma updater_spec a :
  a ∈ updaters (get_epoch_commitments cs) →
  staked_or_staking es (get_epoch_commitments cs) a ∧
  ∃ mc, cs !! a = Some mc ∧ is_Some (mc_update_reward_address mc).
Proof.
  intros (t & Ht & Hty)%list_elem_of_omap. destruct (tx_type t) eqn:E; try done. injection Hty as <-.
  destruct (epoch_miner t Ht) as (mc & Hmc & Hin & Hmi & _ & Hst). split; [done|]. exists mc. split; [done|].
  pose proof (epoch_kind t _ mc Hmi Hin) as Hk. rewrite E in Hk. eauto.
Qed.

Lemma filter_omap_ids ts :
  tx_id <$> List.filter is_pledge ts = omap (λ t, if is_pledge t then Some (tx_id t) else None) ts.
Proof. induction ts as [|t ts IH]; [done|]. cbn. destruct (is_pledge t); cbn; by rewrite IH. Qed.

Lemma pledge_ids_nodup : NoDup (tx_id <$> List.filter is_pledge (get_epoch_commitments cs)).
Proof.
  rewrite filter_omap_ids. apply NoDup_epoch_keys.
  - intros a mc Hmc. pose proof (HI a mc Hmc) as Hmi. rewrite (miner_pledges Hmi) by (by intros t ->).
    rewrite <- filter_omap_ids. replace (List.filter is_pledge (mc_pledges mc)) with (mc_pledges mc); [apply (mi_ids _ _ _ Hmi)|].
    pose proof (mi_pledge _ _ _ Hmi) as Hp. clear -Hp. induction (mc_pledges mc) as [|t l IH]; [done|]. cbn.
    rewrite (Hp t) by left. f_equal. apply IH. intros t' Ht'. apply Hp. by right.
  - intros a b mc mc' t t' x Ha Hb Ht Ht' Hx Hx'. destruct (is_pledge t), (is_pledge t'); simplify_eq.
    destruct (mi_from _ _ _ (HI a mc Ha) t Ht) as [HP <-], (mi_from _ _ _ (HI b mc' Hb) t' Ht') as [HP' <-].
    by rewrite (Hids t t').
Qed.

Lemma unpledge_hashes_nodup : NoDup (unpledge_hashes (get_epoch_commitments cs)).
Proof.
  apply NoDup_epoch_keys.
  - intros a mc Hmc. pose proof (HI a mc Hmc) as Hmi. rewrite (miner_unpledges Hmi) by (intros t; by destruct (tx_type t)).
    apply (mi_hashes _ _ _ Hmi).
  - intros a b mc mc' t t' x Ha Hb Ht Ht' Hx Hx'.
    pose proof (epoch_kind t a mc (HI a mc Ha) Ht) as Hk. pose proof (epoch_kind t' b mc' (HI b mc' Hb) Ht') as Hk'.
    destruct (tx_type t) eqn:E; try done. destruct (tx_type t') eqn:E'; try done. simplify_eq.
    destruct (mi_unpledge _ _ _ (HI a mc Ha) t Hk) as (? & ? & Hty & Ho).
    destruct (mi_unpledge _ _ _ (HI b mc' Hb) t' Hk') as (? & ? & Hty' & Ho'). congruence.
Qed.

Lemma admissible_epoch : admissible es (get_epoch_commitments cs).
Proof.
  split.
  - intros t Ht _. by destruct (epoch_miner t Ht) as (mc & _ & _ & _ & _ & ?).
  - apply pledge_ids_nodup.
  - intros t Ht Hp. destruct (epoch_miner t Ht) as (mc & _ & _ & _ & HP & _). by apply Hfresh.
  - intros t k h Ht Hty. destruct (epoch_miner t Ht) as (mc & _ & Hin & Hmi & _).
    pose proof (epoch_kind t _ mc Hmi Hin) as Hk. rewrite Hty in Hk.
    destruct (mi_unpledge _ _ _ Hmi t Hk) as (k' & h' & Hty' & Hown). congruence.
  - apply unpledge_hashes_nodup.
  - intros a Ha. destruct (unstaker_spec a Ha) as (Hst & mc & Hmc & Hmi & Hun).
    destruct (leaving_spec P a mc Hmi Hun) as [Hnil Hall]. split_and!; [done| |].
    + intros t Ht Hp <-. destruct (epoch_miner t Ht) as (mc' & Hmc' & Hin & _). simplify_eq.
      pose proof (epoch_kind t _ mc Hmi Hin) as Hk. unfold is_pledge in Hp. destruct (tx_type t); try done.
      rewrite Hnil in Hk. by apply elem_of_nil in Hk.
    + intros e He. destruct (Hall e He) as (h & Hh & (t & Ht & Hty)%list_elem_of_omap). exists h. split; [done|].
      apply list_elem_of_omap. exists t. split; [|done]. apply elem_of_epoch. exists a, mc. split; [done|].
      apply elem_of_miner. tauto.
  - apply NoDup_epoch_keys.
    + intros a mc Hmc. pose proof (HI a mc Hmc) as Hmi. rewrite (miner_unstakes Hmi) by (intros t; by destruct (tx_type t)).
      destruct (mc_unstake mc) as [t|]; cbn; [|constructor]. destruct (tx_type t); try constructor; [apply not_elem_of_nil|constructor].
    + intros a b mc mc' t t' x Ha Hb Ht Ht' Hx Hx'. destruct (tx_type t), (tx_type t'); simplify_eq.
      destruct (mi_from _ _ _ (HI a mc Ha) t Ht) as [_ <-], (mi_from _ _ _ (HI b mc' Hb) t' Ht') as [_ <-]. done.
  - intros a Ha. destruct (updater_spec a Ha) as (Hst & mc & Hmc & Hup). split; [done|]. intros Hun.
    destruct (unstaker_spec a Hun) as (_ & mc' & Hmc' & Hmi & Hs). simplify_eq.
    destruct (mi_leaving _ _ _ Hmi Hs) as [_ Hnone]. rewrite Hnone in Hup. by destruct Hup.
  - apply NoDup_epoch_keys.
    + intros a mc Hmc. pose proof (HI a mc Hmc) as Hmi. rewrite (miner_updates Hmi) by (intros t; by destruct (tx_type t)).
      destruct (mc_update_reward_address mc) as [t|]; cbn; [|constructor].
      destruct (tx_type t); try constructor; [apply not_elem_of_nil|constructor].
    + intros a b mc mc' t t' x Ha Hb Ht Ht' Hx Hx'. destruct (tx_type t), (tx_type t'); simplify_eq.
      destruct (mi_from _ _ _ (HI a mc Ha) t Ht) as [_ <-], (mi_from _ _ _ (HI b mc' Hb) t' Ht') as [_ <-]. done.
Qed.
End Contract.
End Commitments.
