(* ===== verification/LedgerExpiry.v ===== *)
(** The slots of a ledger that settle ([collect_expired_partitions] and [expired_submit_range]
    of [crates/actors/src/block_producer/ledger_expiry.rs]), and the write frontier: which
    slots have been written, how their heights are ordered, that expired slots are a prefix,
    and the agreement of the slots that settle on the parent with the slots that recycle. *)

From S2P Require Import SimpleRng TreeHash StateErr DataLedger EpochSnapshot EpochInv EpochSlots EpochCommit EpochTransition Prelude.

Section Frontier.
  Context (C : Z) (HC : 0 < C).

(** The slots of a ledger with [T] chunks after an epoch block at height [H]; [cas] is whether
    the Cascade hardfork was active there. *)
Record frontier (cas : bool) (T H : Z) (slots : list LedgerSlot) : Prop := mkFrontier {
  fr_total : 0 ≤ T;
  fr_room : T < Z.of_nat (length slots) * C ∨ slots = [] ∧ T = 0;
  fr_height : ∀ i s, slots !! i = Some s → last_height s ≤ H;
  fr_written : ∀ i s, slots !! i = Some s → has_been_written s = true ↔ Z.of_nat i * C < T;
  fr_allocated : cas = false → ∀ i j s s', (i < j)%nat → slots !! i = Some s → slots !! j = Some s' →
    last_height s ≤ last_height s';
  fr_order : ∀ i j s s', (i < j)%nat → slots !! i = Some s → slots !! j = Some s' →
    is_expired s = false → is_expired s' = false → Z.of_nat j * C < T → last_height s ≤ last_height s';
  fr_prefix : ∀ i j s s', (i < j)%nat → slots !! i = Some s → slots !! j = Some s' →
    is_expired s' = true → is_expired s = true
}.

Lemma frontier_empty H cas : frontier cas 0 H [].
Proof. split; try done. by right. Qed.

Lemma frontier_alloc cas T H h slots k :
  H ≤ h → frontier cas T H slots → frontier cas T h (slots ++ replicate k (new_slot h)).
Proof.
  intros Hh [HT Hroom Hht Hwr Hal Hor Hpr].
  assert (Hlook : ∀ i s, (slots ++ replicate k (new_slot h)) !! i = Some s →
    (i < length slots)%nat ∧ slots !! i = Some s ∨ (length slots ≤ i)%nat ∧ s = new_slot h).
  { intros i s [Hs|[Hle Hs]]%lookup_app_Some; [left|right].
    - split; [by eapply lookup_lt_Some|done].
    - by apply lookup_replicate in Hs as [-> _]. }
  assert (Hout : ∀ i, (length slots ≤ i)%nat → T ≤ Z.of_nat i * C) by (intros i Hi; destruct Hroom as [?|[-> ->]]; nia).
  split.
  - done.
  - rewrite length_app, length_replicate. destruct Hroom as [?|[-> ->]]; [left; nia|]. destruct k as [|k]; [by right|left; cbn; lia].
  - intros i s [[_ Hs]|[_ ->]]%Hlook; [apply Hht in Hs; lia|done].
  - intros i s [[_ Hs]|[Hle ->]]%Hlook; [by apply Hwr|]. cbn. specialize (Hout i Hle). split; [done|lia].
  - intros Hcas i j s s' Hij [[Hi Hs]|[Hi ->]]%Hlook [[Hj Hs']|[Hj ->]]%Hlook; [by eapply (Hal Hcas i j)| |lia|done].
    apply Hht in Hs. cbn. lia.
  - intros i j s s' Hij Hs [[Hj Hs']|[Hj ->]]%Hlook He He' Hlt; [|specialize (Hout j Hj); lia].
    apply Hlook in Hs as [[_ Hs]|[? _]]; [by eapply (Hor i j)|lia].
  - intros i j s s' Hij Hs [[Hj Hs']|[Hj ->]]%Hlook He; [|done].
    apply Hlook in Hs as [[_ Hs]|[? _]]; [by eapply (Hpr i j)|lia].
Qed.

Lemma in_window_spec T T' i :
  0 ≤ T → in_window T T' C i = true ↔ T < T' ∧ T / C ≤ Z.of_nat i ∧ Z.of_nat i * C < T'.
Proof.
  intros HT. unfold in_window. rewrite !andb_true_iff, negb_true_iff, Z.eqb_neq, Z.ltb_lt, !Z.leb_le.
  assert (Z.of_nat i ≤ (T' - 1) / C ↔ Z.of_nat i * C < T') as <-; [|naive_solver lia].
  rewrite (Z.mul_comm (Z.of_nat i)). split; intros ?.
  - pose proof (Z.mul_div_le (T' - 1) C HC). nia.
  - apply Z.div_le_lower_bound; lia.
Qed.

(** A slot written in the window or before is one below the new total. *)
Lemma written_window T T' i :
  0 ≤ T → T ≤ T' → Z.of_nat i * C < T' ↔ Z.of_nat i * C < T ∨ in_window T T' C i = true.
Proof.
  intros HT HT'. rewrite in_window_spec by done. split; [|naive_solver lia]. intros Hi.
  destruct (decide (Z.of_nat i * C < T)) as [|Hge]; [by left|right]. split_and!; [lia| |done].
  apply Z.div_le_upper_bound; lia.
Qed.

Lemma frontier_touch cas cas' T T' h slots :
  (cas = true → cas' = true) → T ≤ T' →
  (T' < Z.of_nat (length slots) * C ∨ slots = [] ∧ T' = 0) →
  frontier cas T h slots → frontier cas' T' h (touched T T' C h cas' slots).
Proof.
  intros Hcas HT' Hroom' [HT Hroom Hht Hwr Hal Hor Hpr].
  assert (Hlook : ∀ i s, touched T T' C h cas' slots !! i = Some s →
    ∃ s0, slots !! i = Some s0 ∧ s = if in_window T T' C i then touch_slot h cas' s0 else s0).
  { intros i s. rewrite lookup_touched. destruct (slots !! i) as [s0|]; [|done]. intros [= <-]. eauto. }
  split.
  - lia.
  - unfold touched. rewrite length_imap. destruct Hroom' as [?|[-> ->]]; [by left|by right].
  - intros i s (s0 & Hs & ->)%Hlook. pose proof (Hht i s0 Hs). case_match; [|done]. cbn. case_match; lia.
  - intros i s (s0 & Hs & ->)%Hlook. rewrite (written_window T T' i), <- (Hwr i s0 Hs) by done.
    destruct (in_window T T' C i); cbn; [split; [by right|done]|]. split; [by left|]. by intros [?|?].
  - intros Hf i j s s' Hij (s0 & Hs & ->)%Hlook (s1 & Hs' & ->)%Hlook.
    assert (cas = false) as Hcf by (destruct cas; [|done]; rewrite Hcas in Hf; done).
    pose proof (Hal Hcf i j s0 s1 Hij Hs Hs'). rewrite Hf. by repeat case_match.
  - intros i j s s' Hij (s0 & Hs & ->)%Hlook (s1 & Hs' & ->)%Hlook He He' Hlt.
    assert (Hs0 : is_expired s0 = false) by (by destruct (in_window T T' C i)). assert (Hs1 : is_expired s1 = false) by (by destruct (in_window T T' C j)).
    pose proof (Hht i s0 Hs) as Hi0. clear He He'.
    destruct cas'.
    + destruct (in_window T T' C j) eqn:Hj; [cbn; rewrite Hs1; cbn; case_match; cbn; [rewrite Hs0; cbn|]; lia|].
      assert (Z.of_nat j * C < T) by (apply (written_window T T' j) in Hlt as [?|?]; [done|congruence|done|done]).
      assert (in_window T T' C i = false) as ->; [|by eapply (Hor i j)].
      apply not_true_iff_false. intros (Htt & Hdiv & _)%in_window_spec; [|done].
      apply not_true_iff_false in Hj. apply Hj, in_window_spec; [done|]. split_and!; lia.
    + assert (cas = false) as Hcf by (destruct cas; [|done]; specialize (Hcas eq_refl); done).
      pose proof (Hal Hcf i j s0 s1 Hij Hs Hs'). by repeat case_match.
  - intros i j s s' Hij (s0 & Hs & ->)%Hlook (s1 & Hs' & ->)%Hlook He.
    assert (is_expired s1 = true) as He1 by (by destruct (in_window T T' C j)).
    pose proof (Hpr i j s0 s1 Hij Hs Hs' He1). by destruct (in_window T T' C i).
Qed.

(** The frontier reads everything of a slot but its partitions. *)
Lemma frontier_headers cas T H slots slots' :
  header <$> slots' = header <$> slots → frontier cas T H slots → frontier cas T H slots'.
Proof.
  intros Heq [HT Hroom Hht Hwr Hal Hor Hpr].
  assert (Hlook : ∀ i s, slots' !! i = Some s → ∃ s0, slots !! i = Some s0 ∧ last_height s = last_height s0 ∧
    has_been_written s = has_been_written s0 ∧ is_expired s = is_expired s0).
  { intros i s Hs. apply (f_equal (λ l, l !! i)) in Heq. rewrite !list_lookup_fmap, Hs in Heq.
    destruct (slots !! i) as [s0|]; [|done]. cbn in Heq. injection Heq as ? ? ?. eauto. }
  assert (Hlen : length slots' = length slots) by (apply (f_equal length) in Heq; by rewrite !length_fmap in Heq).
  split.
  - done.
  - rewrite Hlen. destruct Hroom as [?|[-> ->]]; [by left|right]. by apply nil_length_inv in Hlen.
  - intros i s (s0 & Hs & -> & _)%Hlook. by eapply Hht.
  - intros i s (s0 & Hs & _ & -> & _)%Hlook. by apply Hwr.
  - intros Hf i j s s' Hij (s0 & Hs & -> & _)%Hlook (s1 & Hs' & -> & _)%Hlook. by eapply (Hal Hf i j).
  - intros i j s s' Hij (s0 & Hs & -> & _ & ->)%Hlook (s1 & Hs' & -> & _ & ->)%Hlook. by eapply (Hor i j).
  - intros i j s s' Hij (s0 & Hs & _ & _ & ->)%Hlook (s1 & Hs' & _ & _ & ->)%Hlook. by eapply (Hpr i j).
Qed.

(** ** Expiry keeps expired slots a prefix *)

(** Whether a slot before one that expires expires too. *)
Lemma slot_expires_below cas T H e slots i j s s' :
  frontier cas T H slots → (i < j)%nat → slots !! i = Some s → slots !! j = Some s' → is_expired s = false →
  ∀ T2, T ≤ T2 → slot_expires cas T2 C e (length slots) j s' = true → slot_expires cas T2 C e (length slots) i s = true.
Proof.
  intros [HT Hroom Hht Hwr Hal Hor Hpr] Hij Hs Hs' He T2 HT2. unfold slot_expires, cascade_expiry_gate, fully_written_slot_count.
  pose proof (lookup_lt_Some _ _ _ Hs'). rewrite (proj2 (Z.eqb_neq C 0)) by lia.
  rewrite !andb_true_iff, !negb_true_iff, !Z.leb_le. intros [[[_ Hgate] Hlast] He'].
  split_and!; [apply Nat.eqb_neq; lia| | |done].
  - destruct cas; [|done]. cbn in Hgate |- *. rewrite andb_true_iff, Z.ltb_lt in Hgate |- *.
    destruct Hgate as [Hw Hf]. apply (Hwr j s' Hs') in Hw. split; [apply (Hwr i s Hs); nia|lia].
  - etrans; [|exact Hlast]. destruct cas.
    + cbn in Hgate. rewrite andb_true_iff in Hgate. destruct Hgate as [Hw%(Hwr j s' Hs') _]. by eapply (Hor i j).
    + by eapply (Hal eq_refl i j).
Qed.

Lemma elem_of_expiring_indexes slots life h cas T i :
  i ∈ expiring_indexes slots life h cas T C ↔
  life ≤ h ∧ ∃ s, slots !! i = Some s ∧ slot_expires cas T C (h - life) (length slots) i s = true.
Proof.
  unfold expiring_indexes. destruct (Z.ltb_spec h life).
  { split; [by intros ?%elem_of_nil|lia]. }
  rewrite filter_seq_In. split.
  - intros [Hi Hf]. split; [done|]. destruct (slots !! i) as [s|]; [|done]. eauto.
  - intros [_ (s & Hs & He)]. rewrite Hs. split; [by eapply lookup_lt_Some|done].
Qed.

Lemma frontier_expire cas T H slots life h :
  frontier cas T H slots → frontier cas T H (expire_at (expiring_indexes slots life h cas T C) slots).
Proof.
  intros HF. set (idxs := expiring_indexes slots life h cas T C).
  assert (Hlook : ∀ i s, expire_at idxs slots !! i = Some s →
    ∃ s0, slots !! i = Some s0 ∧ last_height s = last_height s0 ∧ has_been_written s = has_been_written s0 ∧
      (is_expired s = true ↔ is_expired s0 = true ∨ i ∈ idxs)).
  { intros i s. rewrite lookup_expire_at. destruct (slots !! i) as [s0|]; [|done]. intros [= <-].
    exists s0. case_bool_decide; split_and!; try done; naive_solver. }
  pose proof HF as [HT Hroom Hht Hwr Hal Hor Hpr]. split.
  - done.
  - rewrite length_expire_at. destruct Hroom as [?|[-> ->]]; [by left|by right].
  - intros i s (s0 & Hs & -> & _)%Hlook. by eapply Hht.
  - intros i s (s0 & Hs & _ & -> & _)%Hlook. by apply Hwr.
  - intros Hf i j s s' Hij (s0 & Hs & -> & _)%Hlook (s1 & Hs' & -> & _)%Hlook. by eapply (Hal Hf i j).
  - intros i j s s' Hij (s0 & Hs & -> & _ & He0)%Hlook (s1 & Hs' & -> & _ & He1)%Hlook He He'.
    apply not_true_iff_false in He, He'. eapply (Hor i j); [done..| |]; apply not_true_iff_false; naive_solver.
  - intros i j s s' Hij (s0 & Hs & _ & _ & He0)%Hlook (s1 & Hs' & _ & _ & He1)%Hlook He.
    apply He0. destruct (is_expired s0) eqn:E; [by left|right]. apply He1 in He as [He|Hj].
    { by rewrite (Hpr i j s0 s1 Hij Hs Hs' He) in E. }
    apply elem_of_expiring_indexes in Hj as (Hle & s2 & Hs2 & Hexp). apply elem_of_expiring_indexes. split; [done|].
    exists s0. split; [done|]. assert (s2 = s1) as -> by congruence.
    by apply (slot_expires_below cas T H _ _ i j s0 s1).
Qed.

(** ** Settlement and recycling agree *)

(** A slot of the parent, whether or not slots were added behind it. *)
Lemma slot_expires_lockstep cas T T' H h slots k e i s :
  frontier cas T H slots → slots !! i = Some s → e < h →
  slot_expires true T' C e (length slots + k) i (if in_window T T' C i then touch_slot h true s else s) =
  slot_expires true T' C e (length slots) i s && negb (in_window T T' C i).
Proof.
  intros HF Hs He. pose proof (lookup_lt_Some _ _ _ Hs) as Hi. destruct HF as [HT Hroom _ _ _ _ _].
  assert (HTl : T < Z.of_nat (length slots) * C) by (destruct Hroom as [?|[-> _]]; done).
  unfold slot_expires, cascade_expiry_gate, fully_written_slot_count. rewrite (proj2 (Z.eqb_neq C 0)) by lia.
  destruct (in_window T T' C i) eqn:Hw; cbn [negb].
  - rewrite andb_false_r. cbn. destruct (is_expired s); cbn; [by rewrite andb_false_r|].
    rewrite (proj2 (Z.leb_gt h e)) by lia. by rewrite andb_false_r.
  - rewrite andb_true_r. destruct (decide (k = 0%nat ∨ i ≠ (length slots - 1)%nat)) as [Hk|Hk].
    { do 3 f_equal. destruct Hk as [->|Hk]; [by rewrite Nat.add_0_r|].
      by rewrite (proj2 (Nat.eqb_neq _ _)), (proj2 (Nat.eqb_neq _ _)) by lia. }
    assert (i = (length slots - 1)%nat ∧ k ≠ 0%nat) as [-> Hk0] by lia. rewrite Nat.eqb_refl. cbn [negb andb orb].
    destruct (Z.ltb_spec (Z.of_nat (length slots - 1)) (T' / C)) as [Hfull|]; [|by rewrite !andb_false_r].
    exfalso. apply not_true_iff_false in Hw. apply Hw, in_window_spec; [done|].
    assert (Z.of_nat (length slots) * C ≤ T').
    { pose proof (Z.mul_div_le T' C HC). assert (Z.of_nat (length slots) ≤ T' / C) by lia. nia. }
    split_and!; [lia| |nia]. apply Z.lt_succ_r. replace (Z.succ _) with (Z.of_nat (length slots)) by lia.
    apply Z.div_lt_upper_bound; lia.
Qed.

(** Once Cascade is active, the slots that expire after allocation and the write window are
    the slots of the parent that expire outside the window. *)
Lemma expiring_lockstep cas T T' H h slots k life :
  frontier cas T H slots → 0 < life →
  expiring_indexes (touched T T' C h true (slots ++ replicate k (new_slot h))) life h true T' C =
  List.filter (λ i, negb (in_window T T' C i)) (expiring_indexes slots life h true T' C).
Proof.
  intros HF Hlife. unfold expiring_indexes. destruct (h <? life); [done|].
  set (slots3 := touched _ _ _ _ _ _).
  assert (Hlen : length slots3 = (length slots + k)%nat) by (unfold slots3, touched; by rewrite length_imap, length_app, length_replicate).
  rewrite Hlen, seq_app, List.filter_app, Nat.add_0_l.
  rewrite (filter_none _ (seq (length slots) k)), app_nil_r.
  - rewrite filter_filter_andb. apply List.filter_ext_in. intros i [_ Hi]%in_seq.
    destruct (lookup_lt_is_Some_2 slots i Hi) as [s Hs]. unfold slots3.
    rewrite lookup_touched, lookup_app_l, Hs by done. cbn [fmap option_fmap option_map from_option].
    apply (slot_expires_lockstep cas T T' H); [done..|lia].
  - intros i [Hi Hi']%in_seq. unfold slots3. rewrite lookup_touched, lookup_app_r, lookup_replicate_2 by lia.
    cbn [fmap option_fmap option_map from_option]. unfold slot_expires.
    replace (last_height _) with h by (by case_match). rewrite (proj2 (Z.leb_gt h _)) by lia.
    by rewrite andb_false_r.
Qed.
End Frontier.

(** * Ledger expiry over epochs: the write frontier of every ledger is kept by the epoch
    transition, the set the fee model settles is the set that recycles, and the expired
    Submit slots are a prefix ([crates/actors/src/block_producer/ledger_expiry.rs]). *)

(** ** Settlement and the Submit filter *)

(** [collect_expired_partitions]: the miners of each slot that settles, by slot index; [None]
    is the error of a partition without assignment. *)
Fixpoint collect_miners (s : EpochSnapshot) (slots : list (nat * list Z)) : option (list (nat * list Z)) :=
  match slots with
  | [] => Some []
  | (slot_index, hashes) :: rest =>
      miners ← mapM (λ h, pa_miner_address <$> get_assignment s h) hashes;
      r ← collect_miners s rest;
      Some ((slot_index, miners) :: r)
  end.

Definition collect_expired_partitions (c : EpochConfig) (parent_epoch_snapshot : EpochSnapshot) (block_height : Z)
    (target_ledger_type : DataLedger) (new_total_chunks : Z) (cascade_for_block : bool)
  : result EpochSnapshotError (option (list (nat * list Z))) :=
  expiring_slots ← get_expiring_slot_partitions c parent_epoch_snapshot block_height target_ledger_type
                     new_total_chunks cascade_for_block;
  Ok (collect_miners parent_epoch_snapshot expiring_slots).

Inductive ExpiredRangeError : Type :=
| NotAPrefix (position slot : nat)
| ZeroPartitionSize.

(** The end of the range of [expired_submit_range]: the slot indexes must be [0], [1], ... *)
Fixpoint not_prefix_from (k : nat) (slot_indexes : list nat) : option (nat * nat) :=
  match slot_indexes with
  | [] => None
  | slot :: rest => if (slot =? k)%nat then not_prefix_from (S k) rest else Some (k, slot)
  end.

Definition expired_submit_range (c : EpochConfig) (block_height : Z) (parent_epoch_snapshot : EpochSnapshot)
    (parent_total : Z) (cascade_for_block : bool) : result (EpochSnapshotError + ExpiredRangeError) (option Z) :=
  slot_indexes ← map_err inl (get_all_expired_term_slot_indexes c parent_epoch_snapshot Submit block_height
                               cascade_for_block parent_total);
  match slot_indexes with
  | [] => Ok None
  | _ =>
      let max_expired_slot := foldr Nat.max 0%nat slot_indexes in
      match not_prefix_from 0 slot_indexes with
      | Some (i, slot) => Err (inr (NotAPrefix i slot))
      | None =>
          let p := ec_num_chunks_in_partition c in
          if p =? 0 then Err (inr ZeroPartitionSize)
          else
            let range_end :=
              Z.min (saturating_mul 64 (saturating_add 64 (Z.of_nat max_expired_slot) 1) p) parent_total in
            Ok (if range_end =? 0 then None else Some range_end)
      end
  end.

(** ** The frontier of every ledger *)

Definition epoch_cascade (c : EpochConfig) (s : EpochSnapshot) : bool :=
  cascade_for_block c (timestamp_secs (epoch_block s)).

Definition frontier_inv (c : EpochConfig) (s : EpochSnapshot) : Prop :=
  ∀ l, frontier (ec_num_chunks_in_partition c) (epoch_cascade c s) (ledger_total_chunks (epoch_block s) l)
         (eh_height (epoch_block s)) (ledger_slots (ledgers s) l).

Lemma total_absent h l : has_ledger h l = false → ledger_total_chunks h l = 0.
Proof.
  unfold has_ledger, ledger_total_chunks. intros Hno.
  destruct (List.find _ _) as [dl|] eqn:Hf; [|done]. apply find_some in Hf as [Hin Hl].
  apply not_true_iff_false in Hno. destruct Hno. apply existsb_exists. eauto.
Qed.

Section Next.
  Context (c : EpochConfig) (Hc : config_ok c) (previous : option EpochHeader) (new : EpochHeader).
  Notation C := (ec_num_chunks_in_partition c).

(** The new header against the totals and the height of the last epoch. *)
Record header_follows (cas : bool) (H : Z) (L : Ledgers) : Prop := mkHeaderFollows {
  hf_height : H ≤ eh_height new;
  hf_cascade : cas = true → cascade c new = true;
  hf_totals : ∀ l, previous_total previous l ≤ ledger_total_chunks new l;
  hf_epoch : ec_num_blocks_in_epoch c ≤ eh_height new ∨ ∀ l, ledger_total_chunks new l = 0;
  hf_inactive : ∀ l, l ∉ active_ledgers L → ledger_total_chunks new l = 0
}.

(** Allocation keeps the total below the capacity. *)
Lemma alloc_room l slots :
  let T := previous_total previous l in
  let T' := ledger_total_chunks new l in
  0 ≤ T → T ≤ T' → T < Z.of_nat (length slots) * C ∨ slots = [] ∧ T = 0 →
  delta_fits (delta c new) → ec_num_blocks_in_epoch c ≤ eh_height new ∨ T' = 0 →
  T' < Z.of_nat (length (allocated c previous new (delta c new) l slots)) * C ∨
  allocated c previous new (delta c new) l slots = [] ∧ T' = 0.
Proof.
  cbv zeta. intros HT HTT Hroom Hdelta Hep. pose proof (ok_chunks _ Hc) as HC. unfold allocated, slots_to_add.
  set (T := previous_total previous l) in *. set (T' := ledger_total_chunks new l) in *. set (n := Z.of_nat (length slots)).
  assert (Hn : 0 ≤ n) by lia. assert (HTn : T ≤ n * C) by (destruct Hroom as [?|[-> ->]]; [lia|cbn; lia]).
  rewrite length_app, length_replicate, Nat2Z.inj_add. fold n. destruct (has_ledger new l) eqn:Hhas.
  - left. set (a := saturating_sub (n * C) (C / 2)). unfold saturating_sub in a.
    set (b := if _ && _ then _ else 0). assert (Hb : 0 ≤ b ∧ (T' ≤ T + C + b * C)).
    { unfold b, saturating_sub. destruct (Z.leb_spec (ec_num_blocks_in_epoch c) (eh_height new)); cbn [andb]; [|lia].
      destruct (Z.ltb_spec C (Z.max 0 (T' - T))); [|lia].
      pose proof (div_ceil_spec (Z.max 0 (T' - T)) C HC). split; [nia|]. nia. }
    destruct (Z.leb_spec a T') as [Hle|Hlt].
    + rewrite Z2Nat.id by lia. nia.
    + rewrite Z2Nat.id by lia. unfold a in Hlt. assert (0 ≤ C / 2) by (apply Z.div_pos; lia). nia.
  - assert (T' = 0) as HT0 by (by apply total_absent). rewrite HT0 in *.
    destruct (Z.eqb_spec n 0) as [Hz|Hz].
    + assert (slots = []) as -> by (apply nil_length_inv; unfold n in Hz; lia). cbn [app].
      destruct (delta c new) as [k|] eqn:Hd; cbn [from_option id]; [|by right].
      pose proof (Hdelta k eq_refl) as Hk. left. rewrite Z2Nat.id by lia. nia.
    + left. rewrite Z2Nat.id by lia. nia.
Qed.

Lemma frontier_next cas H s1 s' :
  expired c previous new s1 s' → header_follows cas H (ledgers s1) →
  (∀ l, frontier C cas (previous_total previous l) H (ledger_slots (ledgers s1) l)) →
  ∀ l, frontier C (cascade c new) (ledger_total_chunks new l) (eh_height new) (ledger_slots (ledgers s') l).
Proof.
  intros [(L & HL & Hsh & Hg & Hh & _) _ _] [Hht Hcas Htot Hep Hin] Hall l. pose proof (ok_chunks _ Hc) as HC.
  eapply frontier_headers; [apply Hh|]. unfold expiring_now, expiring.
  assert (HF : frontier C (cascade c new) (ledger_total_chunks new l) (eh_height new) (ledger_slots L l)).
  { rewrite Hg. unfold grown. specialize (Htot l).
    assert (Hinit : frontier C cas (previous_total previous l) (eh_height new) (init_slot s1 new l)).
    { unfold init_slot. case_match; [by apply (frontier_alloc C HC cas _ H _ _ 1)|].
      rewrite <- (app_nil_r (ledger_slots (ledgers s1) l)). by apply (frontier_alloc C HC cas _ H _ _ 0). }
    assert (Hep' : ec_num_blocks_in_epoch c ≤ eh_height new ∨ ledger_total_chunks new l = 0) by (destruct Hep; [by left|by right]).
    destruct (decide (l ∈ active_ledgers (ledgers s1))) as [Hact|Hout].
    - apply (frontier_touch C HC cas); [done|done| |by apply (frontier_alloc C HC cas _ (eh_height new))].
      apply alloc_room; [apply (fr_total _ _ _ _ _ Hinit)|done|apply (fr_room _ _ _ _ _ Hinit)|by apply delta_fits_ok|done].
    - rewrite (Hin l Hout) in *. assert (previous_total previous l = 0) as -> by (pose proof (fr_total _ _ _ _ _ Hinit); lia).
      unfold touched. cbn. apply frontier_empty. }
  destruct (lifetime L l) as [m|]; [by apply frontier_expire|].
  eapply frontier_headers; [|exact HF]. f_equal. apply list_eq. intros i. rewrite lookup_expire_at.
  by destruct (ledger_slots L l !! i).
Qed.
End Next.

(** ** What settles, by ledger *)

Lemma written_this_epoch_eq cas T T' C i : written_this_epoch cas T T' C i = cas && in_window T T' C i.
Proof.
  destruct cas; [|done]. unfold written_this_epoch, in_window. rewrite (Z.ltb_antisym T' T). cbn [negb orb].
  destruct (T' <=? T), (C =? 0); done.
Qed.

Lemma expiring_inactive L h cas T C l : l ∉ active_ledgers L → expiring L h cas T C l = [].
Proof.
  intros Hout. unfold expiring. destruct (lifetime L l); [|done]. rewrite ledger_slots_inactive by done.
  unfold expiring_indexes. by case_match.
Qed.

Section Settle.
  Context (c : EpochConfig) (Hc : config_ok c).
  Notation C := (ec_num_chunks_in_partition c).

(** The slots of the parent that settle in ledger [l]; with Cascade those that the epoch has
    written to do not. *)
Definition settling (cas : bool) (s : EpochSnapshot) (h T' : Z) (l : DataLedger) : list nat :=
  List.filter (λ i, negb (cas && in_window (ledger_total_chunks (epoch_block s) l) T' C i))
    (expiring (ledgers s) h cas T' C l).

Lemma get_expiring_slot_partitions_eq cas s h T' l :
  wf_ledgers c (ledgers s) →
  get_expiring_slot_partitions c s h l T' cas =
  Ok ((λ i, (i, slot_partitions (ledgers s) l i)) <$> settling cas s h T' l).
Proof.
  intros HL. unfold get_expiring_slot_partitions, settling.
  rewrite (get_expiring_slots_eq (E:=EpochSnapshotError) h cas _ C (ledgers s) (wf_nodup c _ HL) (wf_lifetimes_fit c _ Hc HL)).
  cbn [mbind result_bind]. f_equal. rewrite omap_bind_list.
  set (T := ledger_total_chunks (epoch_block s) l).
  assert (Hg : ∀ l' idxs, omap (λ x : DataLedger * nat * list Z,
      if bool_decide (x.1.1 = l) && negb (written_this_epoch cas T T' C x.1.2) then Some (x.1.2, x.2) else None)
      ((λ i, (l', i, slot_partitions (ledgers s) l' i)) <$> idxs) =
    (λ i, (i, slot_partitions (ledgers s) l' i)) <$> List.filter (λ i, bool_decide (l' = l) && negb (cas && in_window T T' C i)) idxs).
  { intros l' idxs. rewrite <- omap_fmap_filter. induction idxs as [|i idxs IH]; [done|].
    cbn [fmap list_fmap omap list_omap fst snd]. rewrite written_this_epoch_eq, IH. done. }
  destruct (decide (l ∈ active_ledgers (ledgers s))) as [Hin|Hout].
  - rewrite (bind_single _ l); [|by apply (wf_nodup c)|done|].
    + by rewrite Hg, bool_decide_true, decide_True by done.
    + intros y _ Hne. rewrite Hg, bool_decide_false by done. by rewrite filter_none.
  - rewrite expiring_inactive by done. apply bind_nil. intros y Hy. rewrite Hg, bool_decide_false by (by intros ->).
    by rewrite filter_none.
Qed.

(** ** What recycles *)

Lemma activate_lifetime L l : l ∈ active_ledgers L → lifetime (activate_cascade c L) l = lifetime L l.
Proof.
  intros Hin. unfold activate_cascade. destruct (existsb _ _); [done|]. destruct (ec_cascade c) as [p|]; [|done].
  unfold lifetime, find_term. cbn. destruct (decide (l = Publish)) as [->|Hne]; [done|].
  destruct (find_term_active L l Hne Hin) as (t & Ht & _). unfold find_term in Ht.
  assert (Happ : ∀ ts, List.find (λ t, bool_decide (tl_ledger t = l)) (term L ++ ts) = Some t).
  { intros ts. revert Ht. clear. induction (term L) as [|x xs IH]; [done|]. cbn. by destruct (bool_decide _). }
  rewrite Happ, Ht. by destruct l.
Qed.

Section Lockstep.
  Context (s s1 : EpochSnapshot) (new : EpochHeader) (L : Ledgers).
  Context (HL : wf_ledgers c (ledgers s)) (HF : frontier_inv c s).
  Context (Hcas : cascade c new = true) (Hinit : is_init s1 new = false).
  Context (Hs1 : ledgers s1 = ledgers (opened c (Some (epoch_block s)) new s)).
  Context (Hsh : shape L = shape (ledgers s1)) (Hg : ∀ l, ledger_slots L l = grown c (Some (epoch_block s)) new s1 l).
  Notation T l := (ledger_total_chunks (epoch_block s) l).
  Notation T' l := (ledger_total_chunks new l).

Lemma ledgers_opened : ledgers s1 = activate_cascade c (ledgers s).
Proof. rewrite Hs1. unfold opened. by rewrite Hcas. Qed.

Lemma slots_opened l : ledger_slots (ledgers s1) l = ledger_slots (ledgers s) l.
Proof. rewrite ledgers_opened. by apply (activate_cascade_spec c). Qed.

Lemma active_opened l : l ∈ active_ledgers (ledgers s) → l ∈ active_ledgers (ledgers s1).
Proof.
  rewrite ledgers_opened. unfold activate_cascade. destruct (existsb _ _); [done|]. destruct (ec_cascade c); [|done].
  unfold active_ledgers. cbn. rewrite fmap_app, !elem_of_cons, elem_of_app. tauto.
Qed.

Lemma grown_eq l :
  l ∈ active_ledgers (ledgers s1) →
  ∃ k, ledger_slots L l = touched (T l) (T' l) C (eh_height new) true
                            (ledger_slots (ledgers s) l ++ replicate k (new_slot (eh_height new))).
Proof.
  intros Hin. rewrite Hg. unfold grown. rewrite Hcas, decide_True by done. unfold init_slot. rewrite Hinit. cbn [andb].
  rewrite slots_opened. unfold allocated. eexists. done.
Qed.

Lemma recycling_eq l : expiring_now c new true L l = settling true s (eh_height new) (T' l) l.
Proof.
  pose proof (ok_chunks _ Hc) as HC. unfold expiring_now, settling. cbn [andb].
  destruct (decide (l ∈ active_ledgers (ledgers s1))) as [Hin|Hout].
  2: { rewrite !expiring_inactive; [done|by intros ?%active_opened|by rewrite (active_ledgers_shape _ _ Hsh)]. }
  destruct (grown_eq l Hin) as [k Hk]. unfold expiring. rewrite (lifetime_shape _ _ l Hsh), Hk.
  assert (HL1 : wf_ledgers c (ledgers s1)) by (rewrite ledgers_opened; by apply activate_cascade_spec).
  destruct (decide (l ∈ active_ledgers (ledgers s))) as [Hin0|Hout0].
  - rewrite ledgers_opened, activate_lifetime by done. destruct (lifetime (ledgers s) l) as [m|] eqn:Hm; [|done].
    apply (expiring_lockstep C HC (epoch_cascade c s) _ _ (eh_height (epoch_block s))); [apply HF|].
    by apply (wf_lifetime c (ledgers s) l).
  - destruct (lifetime (ledgers s1) l) as [m|] eqn:Hm.
    + rewrite (expiring_lockstep C HC (epoch_cascade c s) _ _ (eh_height (epoch_block s))) by
        (try apply HF; by apply (wf_lifetime c (ledgers s1) l)).
      rewrite (ledger_slots_inactive _ _ Hout0). unfold expiring_indexes. cbn. repeat case_match; done.
    + rewrite (ledger_slots_inactive _ _ Hout0). unfold expiring_indexes. cbn. repeat case_match; done.
Qed.

(** A slot that recycles has the partitions it had in the parent. *)
Lemma recycled_partitions l i :
  i ∈ expiring_now c new true L l → slot_partitions L l i = slot_partitions (ledgers s) l i.
Proof.
  intros Hi. destruct (decide (l ∈ active_ledgers (ledgers s1))) as [Hin|Hout].
  2: { unfold expiring_now in Hi. rewrite expiring_inactive in Hi; [by apply elem_of_nil in Hi|].
       by rewrite (active_ledgers_shape _ _ Hsh). }
  rewrite recycling_eq in Hi. unfold settling in Hi. apply list_elem_of_In, filter_In in Hi as [Hi%list_elem_of_In _].
  unfold expiring in Hi. destruct (lifetime _ _); [|by apply elem_of_nil in Hi]. apply expiring_indexes_lt in Hi.
  destruct (grown_eq l Hin) as [k Hk]. unfold slot_partitions. rewrite Hk, lookup_touched, lookup_app_l by done.
  destruct (_ !! i) as [slot|]; [|done]. cbn. by case_match.
Qed.

Lemma recycled_infos :
  expired_infos c new true L =
  active_ledgers L ≫= λ l, settling true s (eh_height new) (T' l) l ≫= λ i, slot_infos l i (slot_partitions (ledgers s) l i).
Proof.
  unfold expired_infos. apply list_bind_ext_in. intros l _. rewrite <- recycling_eq. apply list_bind_ext_in.
  intros i Hi. by rewrite recycled_partitions.
Qed.
End Lockstep.
End Settle.
