(* ===== verification/Settlement.v ===== *)
(** The history of epoch snapshots: the genesis snapshot, and one snapshot per epoch block
    from the commitments the blocks of the epoch included.  Every snapshot of a history
    satisfies the invariant and the frontier, and the next one can always be computed; and the
    settlement of expiring slots along a history. *)

From S2P Require Import SimpleRng TreeHash StateErr DataLedger EpochSnapshot CommitmentSnapshot EpochInv EpochSlots EpochCommit EpochTransition CommitmentFacts LedgerExpiry Prelude.

(** The header lists the transactions, in any order the code accepts. *)
Definition lists_commitments (h : EpochHeader) (ts : list CommitmentTransaction) : Prop :=
  match List.find (λ b, b.1 =? COMMITMENT_LEDGER) (eh_system_ledgers h) with
  | Some (_, tx_ids) => tx_ids = tx_id <$> ts
  | None => ts = []
  end.

Lemma validate_listed h ts : lists_commitments h ts → validate_commitments h ts = Ok ().
Proof.
  unfold lists_commitments, validate_commitments. destruct (List.find _ _) as [[b tx_ids]|].
  2: { intros ->. done. }
  intros ->. rewrite length_fmap, Nat.eqb_refl. cbn [negb guard_err mbind result_bind].
  assert (missing_commitment (tx_id <$> ts) ts = None) as ->.
  { unfold missing_commitment. destruct (List.find _ _) as [x|] eqn:Hf; [|done]. exfalso.
    apply find_some in Hf as [(t & <- & Ht)%in_map_iff Hno]. apply negb_true_iff in Hno.
    apply not_true_iff_false in Hno. apply Hno, existsb_exists. exists t. split; [done|apply Z.eqb_refl]. }
  assert (extra_commitment (tx_id <$> ts) ts = None) as ->; [|done].
  unfold extra_commitment. destruct (List.find _ _) as [x|] eqn:Hf; [|done]. exfalso.
  apply find_some in Hf as [Ht Hno]. apply negb_true_iff, bool_decide_eq_false in Hno.
  apply Hno, list_elem_of_fmap_2. by apply list_elem_of_In.
Qed.

(** ** The blocks of an epoch *)

(** The commitments included since the last epoch block, and the snapshot they give. *)
Inductive epoch_blocks (c : EpochConfig) (es : EpochSnapshot) : list CommitmentTransaction → CommitmentSnapshot → Prop :=
| eb_start : epoch_blocks c es [] ∅
| eb_block height txs acc cs :
    is_multiple_of height (ec_num_blocks_in_epoch c) = false → epoch_blocks c es acc cs →
    epoch_blocks c es (acc ++ txs) (create_commitment_snapshot_for_block c height txs cs es).

(** Ids are those of one transaction, and no pledge has the id of an older one. *)
Definition ids_unique (txs : list CommitmentTransaction) : Prop :=
  ∀ t t', t ∈ txs → t' ∈ txs → tx_id t = tx_id t' → t = t'.
Definition fresh_pledges (es : EpochSnapshot) (txs : list CommitmentTransaction) : Prop :=
  ∀ t, t ∈ txs → is_pledge t = true → tx_id t ∉ pe_id <$> entries_of es (tx_signer t).

Lemma epoch_blocks_inv c es txs cs :
  commit_ok es → epoch_blocks c es txs cs → snapshot_inv es (λ t, t ∈ txs) cs.
Proof.
  intros Hcom. induction 1 as [|height txs acc cs Hh _ IH]; [by intros a mc ?|].
  assert (IH' : snapshot_inv es (λ t, t ∈ acc ++ txs) cs).
  { intros a mc Hmc. eapply miner_inv_weaken, IH, Hmc. intros t Ht. apply elem_of_app. by left. }
  unfold create_commitment_snapshot_for_block. rewrite Hh. case_bool_decide; [done|].
  apply add_commitments_inv; [done| |done]. intros t Ht. apply elem_of_app. by right.
Qed.

Section History.
  Context `{Sha256} (c : EpochConfig) (capacity_target : Z → option Z) (seed : Z).
  Notation C := (ec_num_chunks_in_partition c).
  Notation create := (create_epoch_snapshot_for_block c capacity_target).

(** An epoch block after [es] with the commitments [ts]. *)
Record next_epoch_block (es : EpochSnapshot) (block : EpochHeader) (ts : list CommitmentTransaction) : Prop :=
  mkNextEpochBlock {
  ne_epoch : is_multiple_of (eh_height block) (ec_num_blocks_in_epoch c) = true;
  ne_height : eh_height block = eh_height (epoch_block es) + ec_num_blocks_in_epoch c;
  ne_positive : 0 ≤ eh_height (epoch_block es);
  ne_u64 : eh_height block < 2 ^ 64;
  ne_commitments : lists_commitments block ts;
  ne_timestamp : timestamp_secs (epoch_block es) ≤ timestamp_secs block;
  ne_ledgers : ∀ l, ledger_total_chunks block l ≠ 0 → l ∈ active_ledgers (ledgers es) ∨ cascade c block = true;
  ne_totals : ∀ l, ledger_total_chunks (epoch_block es) l ≤ ledger_total_chunks block l
}.

(** Sizes that fit the counters of the code. *)
Record epoch_room (es : EpochSnapshot) (block : EpochHeader) : Prop := mkEpochRoom {
  er_pool : 0 < Z.of_nat (length (all_active_partitions es)) < 2 ^ 31;
  er_slots : ∀ l, Z.of_nat (length (ledger_slots (ledgers es) l)) * C < 2 ^ 64;
  er_totals : ∀ l, ledger_total_chunks block l < 2 ^ 31 * C
}.

(** Genesis: stakes, and pledges of the stakers. *)
Record genesis_ok (g : EpochHeader) (ts : list CommitmentTransaction) : Prop := mkGenesisOk {
  ge_height : eh_height g = 0;
  ge_seed : eh_last_epoch_hash g = seed;
  ge_commitments : lists_commitments g ts;
  ge_totals : ∀ l, ledger_total_chunks g l = 0;
  ge_kinds : ∀ t, t ∈ ts → is_stake t = true ∨ is_pledge t = true;
  ge_staked : ∀ t, t ∈ ts → is_pledge t = true → ∃ t', t' ∈ ts ∧ is_stake t' = true ∧ tx_signer t' = tx_signer t;
  ge_ids : NoDup (tx_id <$> ts)
}.

Inductive epochs : EpochSnapshot → Prop :=
| ep_genesis g ts s : genesis_ok g ts → EpochSnapshot_new c capacity_target g ts = Ok s → epochs s
| ep_next s txs cs block s' :
    epochs s → epoch_blocks c s txs cs → ids_unique txs → fresh_pledges s txs →
    next_epoch_block s block (get_epoch_commitments cs) → epoch_room s block →
    create block s cs = Ok s' → epochs s'.

Context (Hc : config_ok c) (Hch : chain_ok c capacity_target seed).

(** ** Genesis *)

Lemma initial_slots g l : ledger_slots (ledgers (initial_snapshot c g)) l = [].
Proof.
  unfold initial_snapshot. cbn [ledgers]. unfold Ledgers_new.
  by destruct (cascade_for_block c (timestamp_secs g)), (ec_cascade c), l.
Qed.

Lemma initial_inv g : epoch_inv c seed (initial_snapshot c g).
Proof.
  assert (Hown : owners (initial_snapshot c g) = ∅).
  { apply map_eq. intros h. unfold owners. by rewrite lookup_own. }
  split; [by eexists|split|split|split]; try done.
  - intros l i h. split; [|by intros [? ?]]. intros (slot & Hs & _). by rewrite initial_slots in Hs.
  - intros l i slot Hs. by rewrite initial_slots in Hs.
  - constructor.
  - constructor.
  - intros h. rewrite Hown. split; [by intros ?%elem_of_nil|]. by intros [?%elem_of_nil|[? ?]].
  - intros a e He. by apply elem_of_nil in He.
  - intros a. constructor.
  - intros a. constructor.
  - intros a h. rewrite Hown. split; [by intros ?%elem_of_nil|done].
Qed.

Lemma filter_fmap_sublist {A B} (f : A → B) (p : A → bool) (l : list A) :
  NoDup (f <$> l) → NoDup (f <$> List.filter p l).
Proof.
  intros Hnd. eapply sublist_NoDup; [exact Hnd|]. apply fmap_sublist. clear.
  induction l as [|x l IH]; [done|]. cbn. destruct (p x); by constructor.
Qed.

Lemma omap_nil_kind {B} (f : CommitmentTransaction → option B) ts :
  (∀ t, t ∈ ts → is_stake t = true ∨ is_pledge t = true) →
  (∀ t, is_stake t = true ∨ is_pledge t = true → f t = None) → omap f ts = [].
Proof. intros Hk Hf. apply omap_none. intros t Ht. by apply Hf, Hk. Qed.

Lemma genesis_admissible g ts : genesis_ok g ts → admissible (initial_snapshot c g) ts.
Proof.
  intros [_ _ _ _ Hk Hst Hids].
  assert (Hup : unpledge_hashes ts = []) by (apply omap_nil_kind; [done|]; unfold is_stake, is_pledge; intros t [?|?]; by destruct (tx_type t)).
  assert (Hus : unstakers ts = []) by (apply omap_nil_kind; [done|]; unfold is_stake, is_pledge; intros t [?|?]; by destruct (tx_type t)).
  assert (Hur : updaters ts = []) by (apply omap_nil_kind; [done|]; unfold is_stake, is_pledge; intros t [?|?]; by destruct (tx_type t)).
  split; rewrite ?Hup, ?Hus, ?Hur.
  - intros t Ht Hp. right. destruct (Hst t Ht Hp) as (t' & Ht' & Hs & <-). exists t'. split_and!; [done| |done].
    unfold is_stake in Hs. by destruct (tx_type t').
  - by apply filter_fmap_sublist.
  - intros t _ _. apply not_elem_of_nil.
  - intros t k h Ht Hty. destruct (Hk t Ht) as [Hx|Hx]; unfold is_stake, is_pledge in Hx; by rewrite Hty in Hx.
  - constructor.
  - by intros a ?%elem_of_nil.
  - constructor.
  - by intros a ?%elem_of_nil.
  - constructor.
Qed.

Lemma genesis_run_ok g ts :
  genesis_ok g ts →
  ∃ s s1, EpochSnapshot_new c capacity_target g ts = Ok s ∧ epoch_inv c seed s ∧ epoch_block s = g ∧
    (∀ l, ledger_slots (ledgers s1) l = []) ∧ wf_ledgers c (ledgers s1) ∧ expired c None g s1 s.
Proof.
  intros Hg. pose proof Hg as [Hh Hseed Hcm Htot _ _ _].
  pose proof (initial_inv g) as HI.
  destruct (opened_inv c seed None g (initial_snapshot c g) HI) as [HI0 Hv0].
  destruct (perform_run c capacity_target seed Hc Hch None g (initial_snapshot c g) ts)
    as (s & s1 & Hrun & HI' & Hb & _ & HL1 & _ & Hex); [done| |by apply genesis_admissible| |].
  - split; [| |by apply validate_listed|done].
    + unfold is_epoch_block, is_multiple_of. rewrite Hh. destruct (_ =? 0); [done|].
      pose proof (ok_blocks _ Hc). by rewrite Z.mod_0_l by lia.
    + unfold check_previous. rewrite Hh, (proj2 (Z.leb_le _ _)); [done|]. pose proof (ok_blocks _ Hc). lia.
  - split; [unfold opened; by destruct (cascade c g)|]. intros l Hl. unfold alloc_fits, init_slot. rewrite Hv0, initial_slots, Htot.
    pose proof (ch_chunks _ _ _ Hch). pose proof (ok_chunks _ Hc). cbn [previous_total from_option].
    split; [case_match; cbn; lia|]. lia.
  - exists s, s1. split_and!; [|done|done| | |done].
    + unfold EpochSnapshot_new. by rewrite Hrun.
    + intros l. rewrite HL1, Hv0. apply initial_slots.
    + rewrite HL1. apply HI0.
Qed.

(** ** The next epoch *)

(** Once Cascade is active, every ledger is. *)
Lemma active_opened_or es block l :
  wf_ledgers c (ledgers es) → l ∈ active_ledgers (ledgers es) ∨ cascade c block = true →
  l ∈ active_ledgers (ledgers (opened c (Some (epoch_block es)) block es)).
Proof.
  intros [b Hb] Hor. unfold opened. destruct (cascade c block) eqn:Hcas; [|by destruct Hor]. snap.
  clear Hor. unfold cascade, cascade_for_block in Hcas. destruct (ec_cascade c) as [p|] eqn:Hp; [|done].
  pose proof (active_ledgers_shape _ _ Hb) as Hact. unfold activate_cascade. rewrite Hp.
  destruct (existsb _ _) eqn:Hone.
  - destruct (active_ledgers_new c b) as [Hn|[Hn _]]; rewrite Hn in Hact; [|rewrite Hact; destruct l; set_solver].
    apply existsb_exists in Hone as (t & Ht & Heq%bool_decide_eq_true).
    assert (OneYear ∈ active_ledgers (ledgers es)) as Hin; [|rewrite Hact in Hin; set_solver].
    unfold active_ledgers. right. rewrite <- Heq. apply list_elem_of_fmap_2. by apply list_elem_of_In.
  - destruct (active_ledgers_new c b) as [Hn|[Hn _]]; rewrite Hn in Hact;
      unfold active_ledgers in *; cbn [term]; rewrite fmap_app; injection Hact as ->; destruct l; set_solver.
Qed.

Lemma next_run es txs cs block :
  epoch_inv c seed es → frontier_inv c es → epoch_blocks c es txs cs → ids_unique txs → fresh_pledges es txs →
  next_epoch_block es block (get_epoch_commitments cs) → epoch_room es block →
  ∃ es' s1, create block es cs = Ok es' ∧ epoch_inv c seed es' ∧ epoch_block es' = block ∧
    (unassigned_partitions es' = [] ∨ ∀ p, ¬ pending_in es' p) ∧
    ledgers s1 = ledgers (opened c (Some (epoch_block es)) block es) ∧ is_init s1 block = false ∧
    expired c (Some (epoch_block es)) block s1 es'.
Proof.
  intros HI HF Hblocks Huniq Hfresh [Hep Hh Hpos Hu64 Hcm Hts Hls Htot] [Hpool Hslots Htots].
  pose proof (ok_blocks _ Hc) as Hnb. pose proof (ei_commit _ _ _ HI) as Hcom.
  assert (Had : admissible es (get_epoch_commitments cs)).
  { apply (admissible_epoch es Hcom (λ t, t ∈ txs)); [by apply (epoch_blocks_inv c)|done..]. }
  destruct (opened_inv c seed (Some (epoch_block es)) block es HI) as [_ Hv0].
  assert (Hinit : ∀ s, is_init s block = false).
  { intros s. unfold is_init, is_genesis. rewrite (proj2 (Z.eqb_neq _ _)) by lia. apply andb_false_r. }
  destruct (perform_run c capacity_target seed Hc Hch (Some (epoch_block es)) block es (get_epoch_commitments cs))
    as (es' & s1 & Hrun & HI' & Hb & Hserved & HL1 & _ & Hex); [done| |done| |].
  - split; [| |by apply validate_listed|].
    + unfold is_epoch_block. by rewrite Hep.
    + unfold check_previous. cbn [ok_or mbind result_bind]. unfold checked_add.
      rewrite (proj2 (Z.ltb_lt _ _)) by lia. cbn [expect mbind result_bind]. rewrite <- Hh, Z.eqb_refl. by case_match.
    + intros Hnil. rewrite Hnil in Hpool. cbn in Hpool. lia.
  - split; [unfold opened; destruct (cascade c block); snap; lia|]. intros l _. unfold alloc_fits, init_slot.
    rewrite Hinit. cbn [andb]. rewrite Hv0. split_and!; [apply Hslots|apply (fr_total _ _ _ _ _ (HF l))|apply Htots].
  - exists es', s1. split_and!; [|done..]. unfold create_epoch_snapshot_for_block. by rewrite Hep, Hrun.
Qed.

Lemma frontier_after es block s1 es' ts :
  wf_ledgers c (ledgers es) → frontier_inv c es → next_epoch_block es block ts →
  ledgers s1 = ledgers (opened c (Some (epoch_block es)) block es) → epoch_block es' = block →
  expired c (Some (epoch_block es)) block s1 es' → frontier_inv c es'.
Proof.
  intros HL HF [Hep Hh Hpos Hu64 Hcm Hts Hls Htot] Hs1 Hb Hex l. pose proof (ok_blocks _ Hc) as Hnb.
  unfold epoch_cascade. rewrite Hb. fold (cascade c block).
  assert (Hv : ∀ l, ledger_slots (ledgers s1) l = ledger_slots (ledgers es) l).
  { intros l'. rewrite Hs1. unfold opened. destruct (cascade c block); [|done]. by apply (activate_cascade_spec c). }
  apply (frontier_next c Hc (Some (epoch_block es)) block (epoch_cascade c es) (eh_height (epoch_block es)) s1 es' Hex).
  - split.
    + lia.
    + unfold epoch_cascade, cascade, cascade_for_block. destruct (ec_cascade c); [|done]. rewrite !Z.leb_le. lia.
    + apply Htot.
    + left. lia.
    + intros l' Hout. destruct (decide (ledger_total_chunks block l' = 0)) as [|Hne]; [done|]. destruct Hout.
      rewrite Hs1. by apply active_opened_or, Hls.
  - intros l'. rewrite Hv. apply HF.
Qed.

Lemma epochs_inv s : epochs s → epoch_inv c seed s ∧ frontier_inv c s.
Proof.
  induction 1 as [g ts s Hg Hnew|s txs cs block s' _ [HI HF] Hblocks Huniq Hfresh Hnext Hroom Hcreate].
  - destruct (genesis_run_ok g ts Hg) as (s0 & s1 & Hrun & HI & Hb & Hv & HL1 & Hex). assert (s0 = s) as -> by congruence.
    split; [done|]. intros l. unfold epoch_cascade. rewrite Hb. fold (cascade c g).
    apply (frontier_next c Hc None g false 0 s1 s Hex); [|intros l'; rewrite Hv; apply frontier_empty].
    destruct Hg as [Hh _ _ Htot _ _ _]. split; [lia|done|intros l'; rewrite Htot; cbn; lia|by right|by intros; apply Htot].
  - destruct (next_run s txs cs block HI HF Hblocks Huniq Hfresh Hnext Hroom)
      as (es' & s1 & Hrun & HI' & Hb & _ & HL1 & _ & Hex). assert (es' = s') as -> by congruence.
    split; [done|]. eapply (frontier_after s); [apply HI|done..].
Qed.
End History.

(** * Settlement of expiring slots: the replicas of a slot and their miners, the slots that an
    epoch transition expires, and the expired range of the Submit ledger. *)

(** ** The replicas of a slot *)

Lemma slot_miners_eq s l i hashes :
  (∀ h, h ∈ hashes → ∃ m, data_partitions s !! h = Some (data_assignment h m l i)) →
  ∃ miners, slot_miners s hashes = Ok miners ∧
    Forall2 (λ h m, data_partitions s !! h = Some (data_assignment h m l i)) hashes miners.
Proof.
  induction hashes as [|h hashes IH]; intros Hall; [by exists []|]. cbn [slot_miners].
  destruct (Hall h) as [m Hm]; [by left|]. unfold get_assignment. rewrite Hm. cbn [expect mbind result_bind].
  destruct IH as (ms & -> & Hms); [intros x Hx; apply Hall; by right|]. eexists. split; [done|]. by constructor.
Qed.

Record replicas (c : EpochConfig) (s : EpochSnapshot) (slot : LedgerSlot) (miners : list Z) : Prop := mkReplicas {
  re_distinct : NoDup miners;
  re_bound : Z.of_nat (length miners) ≤ ec_num_partitions_per_slot c;
  re_expired : is_expired slot = true → miners = [];
  re_staked : Forall (λ m, is_staked s m = true) miners
}.

Lemma slot_replicas `{Sha256} c seed s l i slot :
  epoch_inv c seed s → ledger_slots (ledgers s) l !! i = Some slot →
  ∃ miners, slot_miners s (partitions slot) = Ok miners ∧ replicas c s slot miners.
Proof.
  intros [_ Hslots Hpool Hcom] Hslot.
  destruct (si_slot _ _ _ _ _ Hslots l i slot Hslot) as (Hnd & Hlen & Hexp).
  destruct (slot_miners_eq s l i (partitions slot)) as (miners & Hrun & Hall).
  { intros h Hh. apply (si_in _ _ _ _ _ Hslots). by exists slot. }
  exists miners. split; [done|split].
  - apply NoDup_alt. intros j k m Hj Hk.
    destruct (Forall2_lookup_r _ _ _ _ _ Hall Hj) as (h1 & Hh1 & Hd1).
    destruct (Forall2_lookup_r _ _ _ _ _ Hall Hk) as (h2 & Hh2 & Hd2).
    assert (h1 = h2) as -> by (by eapply (si_miners _ _ _ _ _ Hslots)). by eapply NoDup_lookup.
  - by rewrite <- (Forall2_length _ _ _ Hall).
  - intros He. specialize (Hexp He). apply nil_length_inv. rewrite <- (Forall2_length _ _ _ Hall).
    destruct (partitions slot) as [|h hs]; [done|]. destruct (Hexp h). by left.
  - apply Forall_lookup. intros j m Hj. destruct (Forall2_lookup_r _ _ _ _ _ Hall Hj) as (h & _ & Hd).
    assert (owners s !! h = Some m) as Ho by (unfold owners; by rewrite lookup_own, Hd).
    apply (ci_owner _ _ _ Hcom), elem_of_hashes in Ho as (e & He & _). apply (is_staked_spec s m Hcom).
    by apply (ci_entry _ _ _ Hcom m e).
Qed.

(** ** The miners of the slots that settle *)

Lemma mapM_slot_miners s hashes miners :
  slot_miners s hashes = Ok miners → mapM (λ h, pa_miner_address <$> get_assignment s h) hashes = Some miners.
Proof.
  revert miners. induction hashes as [|h hashes IH]; intros miners; [by intros [= <-]|]. cbn [slot_miners].
  destruct (get_assignment s h) as [a|] eqn:Ha; [|done]. cbn [expect mbind result_bind].
  destruct (slot_miners s hashes) as [ms| |] eqn:E; [|done..]. intros [= <-].
  cbn. rewrite Ha. cbn. by rewrite (IH ms eq_refl).
Qed.

Lemma collect_miners_ok `{Sha256} c seed s l idxs :
  epoch_inv c seed s → Forall (λ i, i < length (ledger_slots (ledgers s) l))%nat idxs →
  ∃ fees, collect_miners s ((λ i, (i, slot_partitions (ledgers s) l i)) <$> idxs) = Some fees ∧ fees.*1 = idxs ∧
    ∀ i miners, (i, miners) ∈ fees → NoDup miners ∧ slot_miners s (slot_partitions (ledgers s) l i) = Ok miners.
Proof.
  intros HI. induction idxs as [|i idxs IH]; intros Hall.
  { exists []. split_and!; [done..|]. by intros i miners ?%elem_of_nil. }
  apply Forall_cons in Hall as [[slot Hslot]%lookup_lt_is_Some_2 (fees & Hrun & Hfst & Hfees)%IH].
  destruct (slot_replicas c seed s l i slot HI Hslot) as (miners & Hm & Hre).
  assert (Hp : slot_partitions (ledgers s) l i = partitions slot) by (unfold slot_partitions; by rewrite Hslot).
  exists ((i, miners) :: fees). rewrite fmap_cons. cbn [collect_miners]. rewrite Hp, (mapM_slot_miners _ _ _ Hm).
  cbn [mbind option_bind]. rewrite Hrun. split_and!; [done|by cbn; f_equal|].
  intros j ms [[= -> ->]|Hin]%elem_of_cons; [|by apply Hfees]. rewrite Hp. split; [apply Hre|done].
Qed.

(** ** The slots an epoch transition expires *)

Definition slot_expired (s : EpochSnapshot) (l : DataLedger) (i : nat) : Prop :=
  is_expired <$> ledger_slots (ledgers s) l !! i = Some true.

Lemma headers_expired (slots slots' : list LedgerSlot) i :
  header <$> slots' = header <$> slots → is_expired <$> slots' !! i = is_expired <$> slots !! i.
Proof.
  intros Heq. apply (f_equal (λ l, l !! i)) in Heq. rewrite !list_lookup_fmap in Heq.
  destruct (slots' !! i), (slots !! i); try done. cbn in *. by injection Heq as -> _ _.
Qed.

Section Recycled.
  Context (c : EpochConfig) (Hc : config_ok c) (s s1 s' : EpochSnapshot) (new : EpochHeader).
  Context (HL : wf_ledgers c (ledgers s)) (HF : frontier_inv c s).
  Context (Hcas : cascade c new = true) (Hinit : is_init s1 new = false).
  Context (Hs1 : ledgers s1 = ledgers (opened c (Some (epoch_block s)) new s)).
  Context (Hex : EpochTransition.expired c (Some (epoch_block s)) new s1 s').
  Notation settled l := (settling c true s (eh_height new) (ledger_total_chunks new l) l).

Lemma settling_lt cas h T' l : Forall (λ i, i < length (ledger_slots (ledgers s) l))%nat (settling c cas s h T' l).
Proof.
  apply Forall_forall. intros i Hi. unfold settling in Hi. apply list_elem_of_In, filter_In in Hi as [Hi%list_elem_of_In _].
  unfold expiring in Hi. destruct (lifetime _ _); [|by apply elem_of_nil in Hi]. by apply expiring_indexes_lt in Hi.
Qed.

Lemma recycled_flags l i : slot_expired s' l i ↔ slot_expired s l i ∨ i ∈ settled l.
Proof.
  destruct Hex as [(L & _ & Hsh & Hg & Hh & _) _ _]. unfold slot_expired. specialize (Hh l).
  rewrite (headers_expired _ _ i Hh), Hcas, (recycling_eq c Hc s s1 new L HL HF Hcas Hinit Hs1 Hsh Hg), lookup_expire_at.
  destruct (decide (l ∈ active_ledgers (ledgers s1))) as [Hin|Hout].
  - destruct (grown_eq c s s1 new L HL Hcas Hinit Hs1 Hg l Hin) as [k ->]. rewrite lookup_touched.
    destruct (ledger_slots (ledgers s) l !! i) as [slot|] eqn:Hslot.
    + rewrite lookup_app_l, Hslot by (by eapply lookup_lt_Some). cbn.
      assert (is_expired (if in_window (ledger_total_chunks (epoch_block s) l) (ledger_total_chunks new l) (ec_num_chunks_in_partition c) i
        then touch_slot (eh_height new) true slot else slot) = is_expired slot) as Hsame by (by destruct (in_window _ _ _ _)).
      case_bool_decide as Hi; cbn; [by split; [right|]|]. rewrite Hsame. split; [by left|]. by intros [?|?].
    + split; [|intros [?|Hi]; [done|]].
      2: { eapply Forall_forall in Hi; [|apply settling_lt]. apply lookup_ge_None in Hslot. cbn in Hi. lia. }
      assert (bool_decide (i ∈ settled l) = false) as ->.
      { apply bool_decide_eq_false. intros Hi. eapply Forall_forall in Hi; [|apply settling_lt]. apply lookup_ge_None in Hslot. cbn in Hi. lia. }
      destruct ((_ ++ _) !! i) as [slot|] eqn:E; [|done]. apply lookup_app_Some in E as [E|[_ E]]; [congruence|].
      apply lookup_replicate in E as [-> _]. by destruct (in_window _ _ _ _).
  - assert (Hout' : l ∉ active_ledgers (ledgers s)) by (intros ?; by eapply Hout, active_opened).
    rewrite (ledger_slots_inactive L l) by (by rewrite (active_ledgers_shape _ _ Hsh)).
    rewrite (ledger_slots_inactive (ledgers s) l) by done. unfold settling. rewrite expiring_inactive by done.
    split; [done|]. intros [?|?%elem_of_nil]; done.
Qed.

(** A slot settles once. *)
Lemma settling_open cas h T' l i : i ∈ settling c cas s h T' l → ¬ slot_expired s l i.
Proof.
  intros Hi Hs. unfold settling in Hi. apply list_elem_of_In, filter_In in Hi as [Hi%list_elem_of_In _].
  unfold expiring in Hi. destruct (lifetime _ _); [|by apply elem_of_nil in Hi].
  apply elem_of_expiring_indexes in Hi as (_ & slot & Hslot & He). unfold slot_expired in Hs. rewrite Hslot in Hs.
  injection Hs as Hs. unfold slot_expires in He. by rewrite Hs, andb_false_r in He.
Qed.

Lemma settled_infos l :
  get_expiring_partition_info c s (eh_height new) l (ledger_total_chunks new l) true =
  Ok (settled l ≫= λ i, slot_infos l i (slot_partitions (ledgers s) l i)).
Proof.
  unfold get_expiring_partition_info. rewrite get_expiring_slot_partitions_eq by done. cbn [mbind result_bind].
  by rewrite list_fmap_bind.
Qed.

(** The partitions reported as expired are, ledger by ledger, those that settle. *)
Lemma recycled_reports :
  expired_partition_infos s' =
  infos_option (active_ledgers (ledgers s') ≫= λ l, settled l ≫= λ i, slot_infos l i (slot_partitions (ledgers s) l i)).
Proof.
  destruct Hex as [(L & _ & Hsh & Hg & _ & Hi) Hsh' _]. rewrite Hi, Hcas.
  rewrite (recycled_infos c Hc s s1 new L HL HF Hcas Hinit Hs1 Hsh Hg).
  by rewrite (active_ledgers_shape _ _ Hsh), (active_ledgers_shape _ _ Hsh').
Qed.
End Recycled.

(** ** The expired range of the Submit ledger *)

Lemma frontier_weaken C cas cas' T H slots :
  (cas = true → cas' = true) → frontier C cas T H slots → frontier C cas' T H slots.
Proof.
  intros Hcas [HT Hroom Hht Hwr Hal Hor Hpr]. split; try done.
  intros Hf. apply Hal. destruct cas; [|done]. by rewrite Hcas in Hf.
Qed.

Lemma not_prefix_seq k m : not_prefix_from k (seq k m) = None.
Proof. revert k. induction m as [|m IH]; intros k; [done|]. cbn. by rewrite Nat.eqb_refl. Qed.

Lemma max_seq k m : foldr Nat.max 0%nat (seq k (S m)) = (k + m)%nat.
Proof. revert k. induction m as [|m IH]; intros k; [cbn; lia|]. change (seq k (S (S m))) with (k :: seq (S k) (S m)).
  cbn [foldr]. rewrite IH. lia.
Qed.

Section Range.
  Context `{Sha256} (c : EpochConfig) (Hc : config_ok c) (es : EpochSnapshot).
  Context (HL : wf_ledgers c (ledgers es)) (HF : frontier_inv c es).
  Notation C := (ec_num_chunks_in_partition c).

Lemma submit_term : ∃ t, find_term (ledgers es) Submit = Some t ∧ tl_slots t = ledger_slots (ledgers es) Submit ∧
  0 < epoch_length t * tl_num_blocks_in_epoch t < 2 ^ 64.
Proof.
  assert (Submit ∈ active_ledgers (ledgers es)) as Hin.
  { destruct HL as [b Hb]. rewrite (active_ledgers_shape _ _ Hb).
    destruct (active_ledgers_new c b) as [->|[-> _]]; by right; left. }
  destruct (find_term_active _ _ (ltac:(done) : Submit ≠ Publish) Hin) as (t & Ht & Hl). exists t.
  unfold ledger_slots. rewrite Ht. split_and!; [done|done|..];
    eapply (wf_lifetime c (ledgers es) Submit); try done; unfold lifetime; by rewrite Ht.
Qed.

(** The slots that have expired, or would at [h], are a prefix. *)
Lemma all_expired_prefix h cas total :
  (epoch_cascade c es = true → cas = true) → ledger_total_chunks (epoch_block es) Submit ≤ total →
  ∃ m, get_all_expired_term_slot_indexes c es Submit h cas total = Ok (seq 0 m).
Proof.
  intros Hcas Htot. destruct submit_term as (t & Ht & Hs & Hlife). unfold get_all_expired_term_slot_indexes, get_term_ledger.
  fold (find_term (ledgers es) Submit). rewrite Ht. cbn [expect mbind result_bind]. unfold get_all_expired_slot_indexes, checked_mul.
  rewrite (proj2 (Z.ltb_lt _ _)) by lia. cbn [expect mbind result_bind]. set (life := epoch_length t * _) in *.
  destruct (h <? life); [by exists 0%nat|]. rewrite Hs. set (slots := ledger_slots (ledgers es) Submit).
  pose proof (frontier_weaken C _ cas _ _ _ Hcas (HF Submit)) as Hfr. fold slots in Hfr.
  pose (f := λ i s, is_expired s || slot_expires cas total C (h - life) (length slots) i s).
  destruct (filter_seq_prefix (λ i, from_option (f i) false (slots !! i)) (length slots)) as (m & _ & Hm).
  - intros i j [Hij Hj]. destruct (lookup_lt_is_Some_2 slots j Hj) as [s' Hs'].
    destruct (lookup_lt_is_Some_2 slots i) as [s Hsi]; [lia|]. rewrite Hsi, Hs'. cbn [from_option]. unfold f.
    rewrite !orb_true_iff. destruct (is_expired s) eqn:E; [by left|]. intros [He|He]; right.
    + by rewrite (fr_prefix _ _ _ _ _ Hfr i j s s' Hij Hsi Hs' He) in E.
    + by apply (slot_expires_below C (ok_chunks _ Hc) cas _ _ _ _ i j s s' Hfr).
  - exists m. f_equal. rewrite <- Hm, <- omap_enumerate. apply omap_ext_all. intros [i s]. unfold f, slot_expires.
    destruct (is_expired s); cbn [negb orb]; [done|]. by rewrite andb_true_r.
Qed.

Lemma expired_submit_range_run h cas total :
  (epoch_cascade c es = true → cas = true) → ledger_total_chunks (epoch_block es) Submit ≤ total < 2 ^ 64 →
  ∃ range m, expired_submit_range c h es total cas = Ok range ∧
    get_all_expired_term_slot_indexes c es Submit h cas total = Ok (seq 0 m) ∧
    default 0 range = Z.min (Z.of_nat m * C) total.
Proof.
  intros Hcas Htot. destruct (all_expired_prefix h cas total Hcas) as [m Hm]; [lia|]. pose proof (ok_chunks _ Hc) as HC.
  pose proof (fr_total _ _ _ _ _ (HF Submit)) as HT.
  unfold expired_submit_range. rewrite Hm. cbn [map_err mbind result_bind]. destruct m as [|m].
  { eexists None, 0%nat. split_and!; [done..|]. cbn. lia. }
  rewrite max_seq, not_prefix_seq. change (seq 0 (S m)) with (0%nat :: seq 1 m). cbn iota zeta.
  rewrite (proj2 (Z.eqb_neq C 0)) by lia. eexists _, (S m). split_and!; [done..|].
  set (r := Z.min (saturating_mul _ _ _) _). assert (r = Z.min (Z.of_nat (S m) * C) total) as <-.
  { unfold r, saturating_mul, saturating_add. nia. }
  destruct (Z.eqb_spec r 0) as [->|]; done.
Qed.
End Range.
