(* ===== verification/EpochTheorems.v ===== *)
(** What the epoch components promise for every snapshot of a history, after the selection of
    pledges by water-filling: stamping levels up front and sorting once picks the same pledges
    as serving, again and again, the pending pledge of the signer that holds least. *)

From S2P Require Import SimpleRng TreeHash StateErr DataLedger EpochSnapshot CommitmentSnapshot EpochInv EpochSlots EpochCommit EpochTransition CommitmentFacts LedgerExpiry Settlement Prelude.

(** ** The greedy selection *)

Definition holder_le (held : gmap Z nat) (p q : PledgeEntry) : Prop :=
  level_le (held_count held (pe_signer p), p) (held_count held (pe_signer q), q).
#[global] Instance holder_le_dec held : RelDecision (holder_le held).
Proof. intros p q. unfold holder_le. apply _. Defined.

(** The pending pledge of a lowest current holder, the lowest id first. *)
Fixpoint lowest_holder (held : gmap Z nat) (pending : list PledgeEntry) : option PledgeEntry :=
  match pending with
  | [] => None
  | p :: rest =>
      match lowest_holder held rest with
      | Some q => if decide (holder_le held p q) then Some p else Some q
      | None => Some p
      end
  end.

Definition serve (held : gmap Z nat) (signer : Z) : gmap Z nat :=
  <[signer := S (default 0%nat (held !! signer))]> held.

Fixpoint repick (available : nat) (pending : list PledgeEntry) (held : gmap Z nat) : list PledgeEntry :=
  match available with
  | O => []
  | S n =>
      match lowest_holder held pending with
      | None => []
      | Some p =>
          p :: repick n (List.filter (λ q, negb (pe_id q =? pe_id p)) pending) (serve held (pe_signer p))
      end
  end.

(** ** Levels *)

(** The pledges of the signer of [q] before [q]. *)
Definition before (q r : PledgeEntry) : bool := (pe_signer r =? pe_signer q) && (pe_id r <? pe_id q).
Definition rank (pending : list PledgeEntry) (q : PledgeEntry) : nat := length (List.filter (before q) pending).
Definition level (held : gmap Z nat) (pending : list PledgeEntry) (q : PledgeEntry) : Z :=
  held_count held (pe_signer q) + Z.of_nat (rank pending q).

Lemma rank_perm l l' q : l ≡ₚ l' → rank l q = rank l' q.
Proof.
  intros Hp. unfold rank. induction Hp as [|x l l' _ IH|x y l|l l' l'' _ IH1 _ IH2]; [done| | |congruence].
  - cbn. destruct (before q x); cbn; by rewrite IH.
  - cbn. by destruct (before q x), (before q y).
Qed.

Lemma rank_cons x l q : rank (x :: l) q = (if before q x then S (rank l q) else rank l q).
Proof. unfold rank. cbn. by destruct (before q x). Qed.

Lemma rank_zero l q : (∀ r, r ∈ l → pe_signer r = pe_signer q → pe_id q ≤ pe_id r) → rank l q = 0%nat.
Proof.
  induction l as [|x l IH]; intros Hall; [done|]. rewrite rank_cons, IH by (intros r Hr; apply Hall; by right).
  unfold before. destruct (Z.eqb_spec (pe_signer x) (pe_signer q)) as [Hs|]; [|done]. cbn.
  destruct (Z.ltb_spec (pe_id x) (pe_id q)); [|done]. pose proof (Hall x ltac:(by left) Hs). lia.
Qed.

(** An earlier pledge of the same signer has a lower rank. *)
Lemma rank_lt l p q :
  q ∈ l → pe_signer q = pe_signer p → pe_id q < pe_id p → (rank l q < rank l p)%nat.
Proof.
  intros Hin Hs Hid. assert (Hle : ∀ l, (rank l q ≤ rank l p)%nat).
  { induction l0 as [|x l0 IH]; [done|]. rewrite !rank_cons. unfold before. rewrite Hs.
    destruct (pe_signer x =? pe_signer p); cbn; [|done].
    destruct (Z.ltb_spec (pe_id x) (pe_id q)), (Z.ltb_spec (pe_id x) (pe_id p)); lia. }
  apply elem_of_Permutation in Hin as [l' Hl]. rewrite !(rank_perm _ _ _ Hl), !rank_cons.
  unfold before. rewrite Hs, Z.eqb_refl, Z.ltb_irrefl, (proj2 (Z.ltb_lt _ _) Hid). cbn. specialize (Hle l'). lia.
Qed.

(** The stamps, of a list in id order of which [seen] has been stamped. *)
Lemma stamp_levels_eq held next seen rest :
  (∀ s, default 0%nat (next !! s) = length (List.filter (λ r, pe_signer r =? s) seen)) →
  StronglySorted (λ p q, pe_id p < pe_id q) (seen ++ rest) →
  stamp_levels held next rest = (λ q, (level held (seen ++ rest) q, q)) <$> rest.
Proof.
  revert next seen. induction rest as [|q rest IH]; intros next seen Hnext Hsort; [done|].
  cbn [stamp_levels]. rewrite fmap_cons. f_equal.
  - f_equal. unfold level. f_equal. f_equal. rewrite Hnext. unfold rank. rewrite List.filter_app, length_app.
    apply StronglySorted_app in Hsort as (Hcross & _ & Hrest).
    replace (length (List.filter (before q) (q :: rest))) with 0%nat.
    + rewrite Nat.add_0_r. f_equal. apply List.filter_ext_in. intros r Hr%list_elem_of_In. unfold before.
      rewrite (proj2 (Z.ltb_lt _ _)), andb_true_r; [done|]. apply Hcross; [done|by left].
    + symmetry. apply (rank_zero (q :: rest) q). intros r [->|Hr]%elem_of_cons _; [done|].
      apply StronglySorted_inv in Hrest as [_ Hq]. rewrite Forall_forall in Hq. specialize (Hq r Hr). lia.
  - rewrite (IH _ (seen ++ [q])); [by rewrite <- (assoc_L (++))| |by rewrite <- (assoc_L (++))].
    intros s. rewrite List.filter_app, length_app. cbn. destruct (Z.eqb_spec (pe_signer q) s) as [<-|Hne].
    + rewrite lookup_insert_eq. cbn. rewrite Hnext. cbn. lia.
    + rewrite lookup_insert_ne by done. rewrite Hnext. cbn. lia.
Qed.

(** ** The greedy choice is the lowest stamp *)

Lemma lowest_holder_spec held pending :
  match lowest_holder held pending with
  | Some p => p ∈ pending ∧ ∀ q, q ∈ pending → holder_le held p q
  | None => pending = []
  end.
Proof.
  induction pending as [|p rest IH]; [done|]. cbn [lowest_holder].
  assert (Hrefl : ∀ x, holder_le held x x) by (intros x; right; cbn; lia).
  destruct (lowest_holder held rest) as [q|].
  - destruct IH as [Hq Hall]. destruct (decide (holder_le held p q)) as [Hle|Hnle].
    + split; [by left|]. intros r [->|Hr]%elem_of_cons; [done|]. specialize (Hall r Hr).
      unfold holder_le, level_le in *. cbn in *. lia.
    + split; [by right|]. intros r [->|Hr]%elem_of_cons; [|by apply Hall].
      unfold holder_le, level_le in *. cbn in *. lia.
  - subst rest. split; [by left|]. by intros r [->|?%elem_of_nil]%elem_of_cons.
Qed.

Lemma ids_inj pending p q :
  NoDup (pe_id <$> pending) → p ∈ pending → q ∈ pending → pe_id p = pe_id q → p = q.
Proof.
  intros Hnd [i Hi]%list_elem_of_lookup [j Hj]%list_elem_of_lookup Heq.
  assert (i = j) as ->; [|congruence].
  eapply NoDup_lookup; [exact Hnd|rewrite list_lookup_fmap, Hi; done|rewrite list_lookup_fmap, Hj; cbn; by rewrite Heq].
Qed.

Lemma lowest_stamp held pending p :
  NoDup (pe_id <$> pending) → p ∈ pending →
  (∀ q, q ∈ pending → level_le (level held pending p, p) (level held pending q, q)) →
  lowest_holder held pending = Some p.
Proof.
  intros Hnd Hp Hmin. pose proof (lowest_holder_spec held pending) as Hspec.
  destruct (lowest_holder held pending) as [m|]; [|subst; by apply elem_of_nil in Hp]. destruct Hspec as [Hm Hall]. f_equal.
  apply (ids_inj pending); [done..|]. specialize (Hmin m Hm). pose proof (Hall p Hp) as Hmp.
  assert (rank pending m = 0%nat) as Hr.
  { apply rank_zero. intros r Hr Hs. specialize (Hall r Hr). unfold holder_le, level_le in Hall. cbn in Hall.
    rewrite Hs in Hall. lia. }
  unfold holder_le, level_le, level in *. cbn in *. rewrite Hr in Hmin. lia.
Qed.

Lemma filter_id_perm pending p :
  NoDup (pe_id <$> pending) → p ∈ pending →
  pending ≡ₚ p :: List.filter (λ q, negb (pe_id q =? pe_id p)) pending.
Proof.
  intros Hnd Hp. apply elem_of_Permutation in Hp as [l Hl]. rewrite Hl in Hnd. cbn in Hnd.
  apply NoDup_cons in Hnd as [Hnot _].
  assert (Hf : ∀ l l' : list PledgeEntry, l ≡ₚ l' →
    List.filter (λ q, negb (pe_id q =? pe_id p)) l ≡ₚ List.filter (λ q, negb (pe_id q =? pe_id p)) l').
  { induction 1 as [|x ? ? _ IH|x y ?|]; cbn; [done| | |by etrans].
    - by destruct (negb _); rewrite ?IH.
    - destruct (negb _), (negb _); try done. apply perm_swap. }
  rewrite (Hf _ _ Hl), Hl at 1. cbn [List.filter]. rewrite Z.eqb_refl. cbn [negb]. f_equiv.
  rewrite filter_all; [done|]. intros x Hx. apply negb_true_iff, Z.eqb_neq. intros Heq. apply Hnot.
  rewrite <- Heq. by apply list_elem_of_fmap_2.
Qed.

(** Serving the lowest stamp leaves the levels of the others. *)
Lemma level_served held pending p q :
  NoDup (pe_id <$> pending) → p ∈ pending → q ∈ pending → q ≠ p →
  level_le (level held pending p, p) (level held pending q, q) →
  level (serve held (pe_signer p)) (List.filter (λ r, negb (pe_id r =? pe_id p)) pending) q = level held pending q.
Proof.
  intros Hnd Hp Hq Hne Hle. unfold level. rewrite (rank_perm pending _ q (filter_id_perm pending p Hnd Hp)), rank_cons.
  unfold held_count, serve, before. destruct (Z.eqb_spec (pe_signer p) (pe_signer q)) as [Hs|Hs]; cbn [andb].
  - rewrite Hs, lookup_insert_eq. cbn [from_option id].
    assert (pe_id p < pe_id q) as Hlt; [|rewrite (proj2 (Z.ltb_lt _ _) Hlt); lia].
    destruct (Z.lt_trichotomy (pe_id p) (pe_id q)) as [|[Heq|Hgt]]; [done| |].
    + by destruct Hne; apply (ids_inj pending).
    + pose proof (rank_lt pending p q Hq (eq_sym Hs) Hgt) as Hr. unfold level_le, level in Hle. cbn in Hle. rewrite Hs in Hle. lia.
  - by rewrite lookup_insert_ne.
Qed.

(** ** The sorted stamps are the greedy sequence *)

Lemma repick_sorted n held pending K :
  NoDup (pe_id <$> pending) → StronglySorted level_le K →
  K ≡ₚ ((λ q, (level held pending q, q)) <$> pending) → repick n pending held = take n K.*2.
Proof.
  revert held pending K. induction n as [|n IH]; intros held pending K Hnd Hsort HK; [done|]. cbn [repick].
  destruct K as [|[lv p] K].
  { apply Permutation_nil_l in HK. symmetry in HK. by apply fmap_nil_inv in HK as ->. }
  assert (Hstamp : ∀ l q, (l, q) ∈ (lv, p) :: K ↔ l = level held pending q ∧ q ∈ pending).
  { intros l q. rewrite HK, list_elem_of_fmap. naive_solver. }
  destruct (proj1 (Hstamp lv p)) as [-> Hp]; [by left|]. apply StronglySorted_inv in Hsort as [Hsort Hmin].
  assert (Hlow : ∀ q, q ∈ pending → level_le (level held pending p, p) (level held pending q, q)).
  { intros q Hq. assert ((level held pending q, q) ∈ (level held pending p, p) :: K) as [Heq|Hin]%elem_of_cons by (by apply Hstamp).
    - injection Heq as -> ->. right. cbn. lia.
    - rewrite Forall_forall in Hmin. by apply Hmin. }
  rewrite (lowest_stamp held pending p Hnd Hp Hlow). cbn. f_equal.
  pose proof (filter_id_perm pending p Hnd Hp) as Hperm. set (rest := List.filter _ pending) in *.
  assert (Hnd' : NoDup (pe_id <$> p :: rest)) by (by rewrite <- Hperm).
  apply NoDup_cons in Hnd' as [Hnot Hnd']. apply IH; [done..|].
  assert (HK' : (level held pending p, p) :: K ≡ₚ (level held pending p, p) :: ((λ q, (level held pending q, q)) <$> rest)).
  { rewrite HK. etrans; [apply (fmap_Permutation _ _ _ Hperm)|done]. }
  apply Permutation_cons_inv in HK'. rewrite HK'. apply reflexive_eq, list_fmap_ext. intros i q Hi%list_elem_of_lookup_2.
  assert (q ∈ pending) by (rewrite Hperm; by right). f_equal. symmetry. apply level_served; [done..| |by apply Hlow].
  intros ->. by apply Hnot, list_elem_of_fmap_2.
Qed.

#[local] Instance level_le_trans : Transitive level_le.
Proof. intros x y z. unfold level_le. lia. Qed.
#[local] Instance level_le_total : Total level_le.
Proof. intros x y. unfold level_le. lia. Qed.
#[local] Instance id_le_trans : Transitive (key_le pe_id).
Proof. intros x y z. unfold key_le. lia. Qed.
#[local] Instance id_le_total : Total (key_le pe_id).
Proof. intros x y. unfold key_le. lia. Qed.

Lemma sorted_strict pending :
  NoDup (pe_id <$> pending) → StronglySorted (λ p q, pe_id p < pe_id q) (sort_by_key pe_id pending).
Proof.
  intros Hnd. assert (Hs : StronglySorted (key_le pe_id) (sort_by_key pe_id pending)) by (apply StronglySorted_merge_sort; apply _).
  assert (Hnd' : NoDup (pe_id <$> sort_by_key pe_id pending)) by (unfold sort_by_key; by rewrite merge_sort_Permutation).
  induction Hs as [|p l _ IH Hall]; [constructor|]. apply NoDup_cons in Hnd' as [Hnot Hnd']. constructor; [by apply IH|].
  apply Forall_forall. intros q Hq. rewrite Forall_forall in Hall. pose proof (Hall q Hq) as Hle. unfold key_le in Hle.
  destruct (Z.eq_dec (pe_id p) (pe_id q)) as [Heq|]; [|lia]. destruct Hnot. rewrite Heq. by apply list_elem_of_fmap_2.
Qed.

(** The winners are those of repeatedly re-picking the lowest current holder, in id order. *)
Theorem water_fill_is_repicking pending held available :
  NoDup (pe_id <$> pending) →
  water_fill_select pending held available = sort_by_key pe_id (repick available pending held).
Proof.
  intros Hnd. unfold water_fill_select. cbv zeta. rewrite (stamp_levels_eq held ∅ []); [|done|by apply sorted_strict].
  cbn [app]. set (K := merge_sort level_le _). rewrite (repick_sorted available held pending K), fmap_take; [done|done| |].
  - apply StronglySorted_merge_sort; apply _.
  - unfold K, sort_by_key. rewrite merge_sort_Permutation. etrans; [apply fmap_Permutation, merge_sort_Permutation|].
    apply reflexive_eq, list_fmap_ext. intros i q _. f_equal. unfold level. f_equal. f_equal.
    apply rank_perm, merge_sort_Permutation.
Qed.

(** Miner 1 holds one partition and has three pledges, miner 2 none and two: of three
    partitions, miner 2 gets two. *)
Lemma water_fill_witness :
  let pledge i a := mkPledgeEntry i Active a 0 None in
  let pending := [pledge 5 1; pledge 3 1; pledge 4 1; pledge 9 2; pledge 8 2] in
  let held : gmap Z nat := {[ 1 := 1%nat ]} in
  pe_id <$> water_fill_select pending held 3 = [3; 8; 9] ∧
  water_fill_select pending held 3 = sort_by_key pe_id (repick 3 pending held).
Proof.
  intros pledge pending held. split; [vm_compute; reflexivity|].
  apply (water_fill_is_repicking pending held 3). by apply (bool_decide_unpack _).
Defined.

(** * What the epoch components promise, for every snapshot of a history: the next epoch can be
    computed, partitions are conserved, the replicas of a slot are of distinct staked miners,
    fees settle exactly for the slots that recycle, and the expired range of the Submit
    ledger is exact. *)

Section Theorems.
  Context `{Sha256} (c : EpochConfig) (capacity_target : Z → option Z) (seed : Z).
  Notation C := (ec_num_chunks_in_partition c).
  Notation create := (create_epoch_snapshot_for_block c capacity_target).

(** ** Progress *)

(** C3: The next epoch snapshot can always be computed: the commitments that the blocks of the
    epoch put into the commitment snapshot apply without an error or a panic, and no hash
    stays in the pool while a pledge waits for one. *)
Theorem epoch_transition_total es txs cs block :
  config_ok c → chain_ok c capacity_target seed → epochs c capacity_target seed es →
  epoch_blocks c es txs cs → ids_unique txs → fresh_pledges es txs →
  next_epoch_block c es block (get_epoch_commitments cs) → epoch_room c es block →
  ∃ es', create block es cs = Ok es' ∧ epochs c capacity_target seed es' ∧ epoch_block es' = block ∧
    (unassigned_partitions es' = [] ∨
     ∀ a e, e ∈ default [] (pledge_commitments es' !! a) → is_Some (pe_partition_hash e)).
Proof.
  intros Hc Hch Hes Hb Hu Hf Hn Hr. destruct (epochs_inv c capacity_target seed Hc Hch es Hes) as [HI HF].
  destruct (next_run c capacity_target seed Hc Hch es txs cs block HI HF Hb Hu Hf Hn Hr)
    as (es' & s1 & Hrun & HI' & Hblock & Hserved & _).
  exists es'. split_and!; [done|by eapply ep_next|done|].
  destruct Hserved as [?|Hserved]; [by left|right]. intros a e He.
  destruct (pe_partition_hash e) eqn:E; [done|]. exfalso. apply (Hserved e). split; [|done].
  destruct (ci_entry _ _ _ (ei_commit _ _ _ HI') a e He) as [-> _]. done.
Qed.

(** ** Consistency *)

Lemma NoDup_keys_disjoint s :
  slots_ok (ec_num_partitions_per_slot c) (λ _, False) s →
  NoDup ((map_to_list (data_partitions s)).*1 ++ (map_to_list (capacity_partitions s)).*1).
Proof.
  intros Hs. apply NoDup_app. split_and!; [apply NoDup_fst_map_to_list| |apply NoDup_fst_map_to_list].
  intros h ([? a] & -> & Ha%elem_of_map_to_list)%list_elem_of_fmap ([k b] & Heq & Hb%elem_of_map_to_list)%list_elem_of_fmap.
  cbn in Heq. subst k. cbn in Hb. rewrite (si_disjoint _ _ _ _ _ Hs) in Hb; [done|]. by rewrite Ha.
Qed.

Lemma elem_of_keys {A} (m : gmap Z A) h : h ∈ (map_to_list m).*1 ↔ is_Some (m !! h).
Proof.
  rewrite list_elem_of_fmap. split.
  - intros ([? a] & -> & Ha%elem_of_map_to_list). cbn. by rewrite Ha.
  - intros [a Ha]. exists (h, a). split; [done|]. by apply elem_of_map_to_list.
Qed.

Lemma owners_some s h : is_Some (owners s !! h) ↔ is_Some (data_partitions s !! h) ∨ is_Some (capacity_partitions s !! h).
Proof.
  unfold owners. rewrite lookup_own, <- !not_eq_None_Some.
  destruct (data_partitions s !! h), (capacity_partitions s !! h); cbn; naive_solver.
Qed.

(** C24: Every partition hash is unassigned, a data partition or a capacity partition, exactly
    once. *)
Theorem partitions_conserved s :
  config_ok c → chain_ok c capacity_target seed → epochs c capacity_target seed s →
  NoDup (all_active_partitions s) ∧
  all_active_partitions s ≡ₚ
    unassigned_partitions s ++ (map_to_list (data_partitions s)).*1 ++ (map_to_list (capacity_partitions s)).*1.
Proof.
  intros Hc Hch Hs. destruct (epochs_inv c capacity_target seed Hc Hch s Hs) as [[_ Hslots Hpool _] _].
  split; [apply Hpool|]. apply NoDup_Permutation; [apply Hpool| |].
  - apply NoDup_app. split_and!; [apply Hpool| |by apply NoDup_keys_disjoint].
    intros h Hh%(pi_disjoint _ _ _ _ Hpool). rewrite elem_of_app, !elem_of_keys, <- owners_some, Hh. by intros [? ?].
  - intros h. rewrite (pi_active _ _ _ _ Hpool), !elem_of_app, !elem_of_keys, owners_some. done.
Qed.

(** C25: The replicas of a slot are stored by distinct miners, each with an active stake, and
    there are at most as many as a slot holds; an expired slot has none. *)
Theorem slot_replicas_of_distinct_stakers s l i slot :
  config_ok c → chain_ok c capacity_target seed → epochs c capacity_target seed s →
  ledger_slots (ledgers s) l !! i = Some slot →
  ∃ miners, slot_miners s (partitions slot) = Ok miners ∧ NoDup miners ∧
    Z.of_nat (length miners) ≤ ec_num_partitions_per_slot c ∧
    (is_expired slot = true → miners = []) ∧ Forall (λ m, is_staked s m = true) miners.
Proof.
  intros Hc Hch Hs Hslot. destruct (epochs_inv c capacity_target seed Hc Hch s Hs) as [HI _].
  destruct (slot_replicas c seed s l i slot HI Hslot) as (miners & Hrun & [? ? ? ?]). by exists miners.
Qed.
(** ** Settlement *)

(** C9: Once Cascade is active at the epoch block, the slots whose fees settle on the parent
    snapshot are the slots the transition expires, each once; their miners are distinct, and
    the partitions the new snapshot reports as expired are those of the same query. *)
Theorem settlement_matches_recycling es txs cs block es' :
  config_ok c → chain_ok c capacity_target seed → epochs c capacity_target seed es →
  epoch_blocks c es txs cs → ids_unique txs → fresh_pledges es txs →
  next_epoch_block c es block (get_epoch_commitments cs) → epoch_room c es block →
  cascade_for_block c (timestamp_secs block) = true → create block es cs = Ok es' →
  (∀ l, ∃ settled fees,
     get_expiring_slot_partitions c es (eh_height block) l (ledger_total_chunks block l) true = Ok settled ∧
     (∀ i, slot_expired es' l i ↔ slot_expired es l i ∨ i ∈ settled.*1) ∧
     (∀ i, i ∈ settled.*1 → ¬ slot_expired es l i) ∧
     collect_expired_partitions c es (eh_height block) l (ledger_total_chunks block l) true = Ok (Some fees) ∧
     fees.*1 = settled.*1 ∧ ∀ i miners, (i, miners) ∈ fees → NoDup miners) ∧
  ∃ infos, (∀ l, get_expiring_partition_info c es (eh_height block) l (ledger_total_chunks block l) true = Ok (infos l)) ∧
    expired_partition_infos es' = infos_option (active_ledgers (ledgers es') ≫= infos).
Proof.
  intros Hc Hch Hes Hb Hu Hf Hn Hr Hcas Hcreate.
  destruct (epochs_inv c capacity_target seed Hc Hch es Hes) as [HI HF].
  destruct (next_run c capacity_target seed Hc Hch es txs cs block HI HF Hb Hu Hf Hn Hr)
    as (es0 & s1 & Hrun & _ & _ & _ & Hs1 & Hinit & Hex). assert (es0 = es') as -> by congruence.
  pose proof (ei_ledgers _ _ _ HI) as HL. split.
  - intros l. set (T' := ledger_total_chunks block l).
    destruct (collect_miners_ok c seed es l (settling c true es (eh_height block) T' l) HI) as (fees & Hfees & Hfst & Hnd);
      [apply settling_lt|].
    eexists _, fees. split_and!; [by apply get_expiring_slot_partitions_eq|..].
    all: rewrite <- ?list_fmap_compose; unfold compose; cbn [fst]; rewrite ?list_fmap_id.
    + intros i. by apply (recycled_flags c Hc es s1 es' block HL HF Hcas Hinit Hs1 Hex).
    + intros i. by apply settling_open.
    + unfold collect_expired_partitions. rewrite get_expiring_slot_partitions_eq by done. cbn [mbind result_bind].
      by rewrite Hfees.
    + done.
    + intros i miners Hin. by apply (Hnd i).
  - eexists. split; [intros l; by apply settled_infos|].
    by apply (recycled_reports c Hc es s1 es' block HL HF Hcas Hinit Hs1 Hex).
Qed.
(** The range of expired Submit chunks that promotion checks against: the computation never
    fails, and a chunk of the ledger is in the range exactly when its slot has expired or is
    due at the height of the block. *)
Theorem expired_submit_range_exact es h cas total :
  config_ok c → chain_ok c capacity_target seed → epochs c capacity_target seed es →
  (epoch_cascade c es = true → cas = true) → ledger_total_chunks (epoch_block es) Submit ≤ total < 2 ^ 64 →
  ∃ range slots, expired_submit_range c h es total cas = Ok range ∧
    get_all_expired_term_slot_indexes c es Submit h cas total = Ok slots ∧
    ∀ offset, 0 ≤ offset < total → offset < default 0 range ↔ Z.to_nat (offset / C) ∈ slots.
Proof.
  intros Hc Hch Hes Hcas Htot. destruct (epochs_inv c capacity_target seed Hc Hch es Hes) as [HI HF].
  destruct (expired_submit_range_run c Hc es (ei_ledgers _ _ _ HI) HF h cas total Hcas Htot) as (range & m & Hr & Hs & Heq).
  exists range, (seq 0 m). split_and!; [done..|]. intros offset Ho. rewrite Heq, elem_of_seq.
  pose proof (ok_chunks _ Hc) as HC. pose proof (Z.div_mod offset C ltac:(lia)). pose proof (Z.mod_pos_bound offset C HC).
  assert (0 ≤ offset / C) by (apply Z.div_pos; lia). split; [|nia].
  intros Hlt. split; [lia|]. apply Nat2Z.inj_lt. rewrite Z2Nat.id by done. apply Z.div_lt_upper_bound; lia.
Qed.
End Theorems.
