(* ===== verification/EpochExample.v ===== *)
(** A history of three epochs in a small configuration, with a stake and pledges between
    epoch blocks and Submit slots that expire: the hypotheses of the epoch theorems hold of
    it. *)

From S2P Require Import SimpleRng TreeHash StateErr DataLedger EpochSnapshot EpochInv EpochSlots EpochCommit EpochTransition CommitmentSnapshot LedgerExpiry Settlement EpochTheorems Prelude.

Module EpochExample.

(** A stand-in hash: the successor, on 32 bytes. *)
Definition toy_digest (m : list byte) : list byte := be_bytes 32 (of_be_bytes m + 1).

#[local] Instance toy_sha256 : Sha256 :=
  {| sha256 := toy_digest; sha256_length m := length_be_bytes 32 _ |}.

Definition config : EpochConfig :=
  mkEpochConfig 2 10 2 2 None (Some 8) (Some (mkCascadeParams 0 4 2)) None.
Definition target (num_data : Z) : option Z := Some 16.

Lemma config_good : config_ok config.
Proof. split; cbn; try lia; try done. intros p [= <-]. cbn. lia. Defined.

Lemma next_hash_succ h : 0 ≤ h < 2 ^ 64 → next_partition_hash h = h + 1.
Proof.
  intros Hh. unfold next_partition_hash, sha256, toy_sha256, toy_digest.
  assert (2 ^ 64 < 256 ^ Z.of_nat 32) by (vm_compute; done).
  rewrite (of_be_bytes_be_bytes 32 h) by lia. apply of_be_bytes_be_bytes. lia.
Qed.

Lemma hash_chain_above n h x : 0 ≤ h → h + Z.of_nat n < 2 ^ 64 → x ∈ hash_chain n h → h < x.
Proof.
  revert h. induction n as [|n IH]; intros h Hh Hn; [by intros ?%elem_of_nil|]. cbn [hash_chain].
  rewrite next_hash_succ by lia. intros [->|Hx]%elem_of_cons; [lia|]. apply IH in Hx; lia.
Qed.

Lemma hash_chain_nodup n h : 0 ≤ h → h + Z.of_nat n < 2 ^ 64 → NoDup (hash_chain n h).
Proof.
  revert h. induction n as [|n IH]; intros h Hh Hn; [constructor|]. cbn [hash_chain].
  rewrite next_hash_succ by lia. constructor; [|apply IH; lia]. intros Hx%hash_chain_above; lia.
Qed.

Lemma chain_good : chain_ok config target 0.
Proof.
  split.
  - intros n Hn. apply hash_chain_nodup; lia.
  - intros b _. exists 16. done.
  - intros k [= <-]. done.
  - done.
Defined.

(** ** Genesis *)

Definition genesis_commitments : list CommitmentTransaction :=
  [mkCommitment 101 1 Stake 0 0; mkCommitment 102 2 Stake 0 0; mkCommitment 103 3 Stake 0 0] ++
  ((λ i, mkCommitment (200 + i) (1 + i / 3) (Pledge (i mod 3)) 0 0) <$> seqZ 0 9).
Definition header_at (height submit : Z) (ids : list Z) : EpochHeader :=
  mkEpochHeader height (height * 1000) 0 [(0, 0); (1, submit); (10, 0); (20, 0)] [(COMMITMENT_LEDGER, ids)].

Definition ok_or_empty (r : result EpochSnapshotError EpochSnapshot) : EpochSnapshot :=
  match r with Ok s => s | _ => initial_snapshot config (header_at 0 0 []) end.

Definition genesis : EpochHeader := header_at 0 0 (tx_id <$> genesis_commitments).
Definition epoch0 : EpochSnapshot :=
  Eval vm_compute in ok_or_empty (EpochSnapshot_new config target genesis genesis_commitments).

Lemma genesis_good : genesis_ok 0 genesis genesis_commitments.
Proof.
  split; try done.
  - by intros [].
  - intros t Ht. assert (forallb (λ t, is_stake t || is_pledge t) genesis_commitments = true) as Hall by done.
    by apply orb_true_iff, (proj1 (forallb_forall _ _) Hall), list_elem_of_In.
  - intros t Ht _. assert (forallb (λ t, existsb (λ t', is_stake t' && (tx_signer t' =? tx_signer t)) genesis_commitments)
      genesis_commitments = true) as Hall by done.
    apply list_elem_of_In, (proj1 (forallb_forall _ _) Hall), existsb_exists in Ht as (t' & Ht' & [Hs He]%andb_true_iff).
    exists t'. split_and!; [by apply list_elem_of_In|done|by apply Z.eqb_eq].
  - by apply (bool_decide_unpack _).
Defined.

(** ** Three epochs *)

(** The transactions of the block at height 1, and the headers of the epoch blocks. *)
Definition txs1 : list CommitmentTransaction :=
  [mkCommitment 301 4 Stake 0 0; mkCommitment 302 4 (Pledge 0) 0 0].
Definition pending1 : CommitmentSnapshot := create_commitment_snapshot_for_block config 1 txs1 ∅ epoch0.
Definition block2 : EpochHeader := header_at 2 25 [301; 302].
Definition block4 : EpochHeader := header_at 4 25 [].
Definition block6 : EpochHeader := header_at 6 25 [].

Definition epoch1 : EpochSnapshot :=
  Eval vm_compute in ok_or_empty (create_epoch_snapshot_for_block config target block2 epoch0 pending1).
Definition epoch2 : EpochSnapshot :=
  Eval vm_compute in ok_or_empty (create_epoch_snapshot_for_block config target block4 epoch1 ∅).
Definition epoch3 : EpochSnapshot :=
  Eval vm_compute in ok_or_empty (create_epoch_snapshot_for_block config target block6 epoch2 ∅).

Lemma epochs0 : epochs config target 0 epoch0.
Proof. eapply (ep_genesis _ _ _ genesis genesis_commitments); [exact genesis_good|vm_compute; reflexivity]. Defined.

Lemma ids1 : ids_unique txs1.
Proof.
  intros t t' [->|[->|[]%elem_of_nil]%elem_of_cons]%elem_of_cons [->|[->|[]%elem_of_nil]%elem_of_cons]%elem_of_cons; done.
Defined.

Lemma fresh1 : fresh_pledges epoch0 txs1.
Proof.
  intros t [->|[->|[]%elem_of_nil]%elem_of_cons]%elem_of_cons _; vm_compute; by intros ?%elem_of_nil.
Defined.

(** The checks of a header against a computed snapshot. *)
Ltac next_block :=
  split; try (vm_compute; done);
  [intros l _; right; vm_compute; done|intros []; vm_compute; done].
Ltac room := split; [vm_compute; done|intros []; vm_compute; done|intros []; vm_compute; done].

Lemma blocks1 : epoch_blocks config epoch0 txs1 pending1.
Proof. apply (eb_block config epoch0 1 txs1 [] ∅); [reflexivity|constructor]. Defined.
Lemma next2 : next_epoch_block config epoch0 block2 (get_epoch_commitments pending1).
Proof. next_block. Defined.
Lemma room2 : epoch_room config epoch0 block2.
Proof. room. Defined.

Lemma epochs1 : epochs config target 0 epoch1.
Proof.
  apply (ep_next _ _ _ epoch0 txs1 pending1 block2); [exact epochs0|exact blocks1|exact ids1|exact fresh1|exact next2|exact room2|].
  vm_compute. reflexivity.
Defined.

Lemma no_ids : ids_unique [].
Proof. by intros t t' ?%elem_of_nil. Defined.
Lemma no_pledges es : fresh_pledges es [].
Proof. by intros t ?%elem_of_nil. Defined.

Lemma next4 : next_epoch_block config epoch1 block4 (get_epoch_commitments ∅).
Proof. next_block. Defined.
Lemma room4 : epoch_room config epoch1 block4.
Proof. room. Defined.

Lemma epochs2 : epochs config target 0 epoch2.
Proof.
  apply (ep_next _ _ _ epoch1 [] ∅ block4); [exact epochs1|constructor|exact no_ids|exact (no_pledges _)|exact next4|exact room4|].
  vm_compute. reflexivity.
Defined.

Lemma next6 : next_epoch_block config epoch2 block6 (get_epoch_commitments ∅).
Proof. next_block. Defined.
Lemma room6 : epoch_room config epoch2 block6.
Proof. room. Defined.

(** ** Witnesses *)

(** The stake and the pledge of miner 4 enter the snapshot of the first epoch. *)
Lemma epoch_transition_total_witness :
  is_staked epoch1 4 = true ∧
  ∃ es', create_epoch_snapshot_for_block config target block2 epoch0 pending1 = Ok es' ∧
    epochs config target 0 es' ∧ epoch_block es' = block2 ∧
    (unassigned_partitions es' = [] ∨
     ∀ a e, e ∈ default [] (pledge_commitments es' !! a) → is_Some (pe_partition_hash e)).
Proof.
  split; [vm_compute; reflexivity|].
  apply (epoch_transition_total config target 0 epoch0 txs1 pending1 block2);
    [exact config_good|exact chain_good|exact epochs0|exact blocks1|exact ids1|exact fresh1|exact next2|exact room2].
Defined.

Lemma partitions_conserved_witness :
  NoDup (all_active_partitions epoch2) ∧
  all_active_partitions epoch2 ≡ₚ unassigned_partitions epoch2 ++
    (map_to_list (data_partitions epoch2)).*1 ++ (map_to_list (capacity_partitions epoch2)).*1.
Proof. apply (partitions_conserved config target 0); [exact config_good|exact chain_good|exact epochs2]. Defined.

Definition submit_slot : LedgerSlot :=
  Eval vm_compute in default (new_slot 0) (ledger_slots (ledgers epoch2) Submit !! 0%nat).

Lemma slot_replicas_witness :
  length (partitions submit_slot) = 2%nat ∧
  ∃ miners, slot_miners epoch2 (partitions submit_slot) = Ok miners ∧ NoDup miners ∧
    Z.of_nat (length miners) ≤ 2 ∧ (is_expired submit_slot = true → miners = []) ∧
    Forall (λ m, is_staked epoch2 m = true) miners.
Proof.
  split; [reflexivity|].
  apply (slot_replicas_of_distinct_stakers config target 0 epoch2 Submit 0 submit_slot);
    [exact config_good|exact chain_good|exact epochs2|vm_compute; reflexivity].
Defined.

(** Two full Submit slots settle and recycle at height 6. *)
Lemma settlement_witness :
  length <$> expired_partition_infos epoch3 = Some 4%nat ∧
  (∀ l, ∃ settled fees,
     get_expiring_slot_partitions config epoch2 6 l (ledger_total_chunks block6 l) true = Ok settled ∧
     (∀ i, slot_expired epoch3 l i ↔ slot_expired epoch2 l i ∨ i ∈ settled.*1) ∧
     (∀ i, i ∈ settled.*1 → ¬ slot_expired epoch2 l i) ∧
     collect_expired_partitions config epoch2 6 l (ledger_total_chunks block6 l) true = Ok (Some fees) ∧
     fees.*1 = settled.*1 ∧ ∀ i miners, (i, miners) ∈ fees → NoDup miners) ∧
  ∃ infos, (∀ l, get_expiring_partition_info config epoch2 6 l (ledger_total_chunks block6 l) true = Ok (infos l)) ∧
    expired_partition_infos epoch3 = infos_option (active_ledgers (ledgers epoch3) ≫= infos).
Proof.
  split; [vm_compute; reflexivity|].
  apply (settlement_matches_recycling config target 0 epoch2 [] ∅ block6 epoch3);
    [exact config_good|exact chain_good|exact epochs2|constructor|exact no_ids|exact (no_pledges _)|exact next6|exact room6
    |reflexivity|vm_compute; reflexivity].
Defined.

Lemma expired_submit_range_witness :
  expired_submit_range config 6 epoch2 25 true = Ok (Some 20) ∧
  ∃ range slots, expired_submit_range config 6 epoch2 25 true = Ok range ∧
    get_all_expired_term_slot_indexes config epoch2 Submit 6 true 25 = Ok slots ∧
    ∀ offset, 0 ≤ offset < 25 → offset < default 0 range ↔ Z.to_nat (offset / 10) ∈ slots.
Proof.
  split; [vm_compute; reflexivity|].
  apply (expired_submit_range_exact config target 0 epoch2 6 true 25);
    [exact config_good|exact chain_good|exact epochs2|done|vm_compute; split; done].
Defined.

(** ** Where the documented agreement stops *)

(** Before Cascade, what recycles can be more than what settles: the slot that is last in the
    parent is never due there, and is recycled once the transition has added slots behind it,
    with the data of the epoch in it. *)
Definition early : EpochConfig := mkEpochConfig 2 10 2 2 None (Some 8) None None.
Definition early_header (height submit : Z) (ids : list Z) : EpochHeader :=
  mkEpochHeader height (height * 1000) 0 [(0, 0); (1, submit)] [(COMMITMENT_LEDGER, ids)].
Definition early_genesis : EpochHeader := early_header 0 0 (tx_id <$> genesis_commitments).
Definition early0 : EpochSnapshot :=
  Eval vm_compute in ok_or_empty (EpochSnapshot_new early target early_genesis genesis_commitments).
Definition early1 : EpochSnapshot :=
  Eval vm_compute in ok_or_empty (create_epoch_snapshot_for_block early target (early_header 2 0 []) early0 ∅).
Definition early2 : EpochSnapshot :=
  Eval vm_compute in ok_or_empty (create_epoch_snapshot_for_block early target (early_header 4 8 []) early1 ∅).

Example precascade_recycles_unsettled_slot :
  create_epoch_snapshot_for_block early target (early_header 4 8 []) early1 ∅ = Ok early2 ∧
  get_expiring_slot_partitions early early1 4 Submit 8 false = Ok [] ∧
  ¬ slot_expired early1 Submit 0 ∧ slot_expired early2 Submit 0.
Proof. split_and!; try (vm_compute; reflexivity). vm_compute. done. Qed.

(** A slot completed in the epoch in which it is due is in the expired set until the epoch
    block, which keeps it. *)
Definition half1 : EpochSnapshot :=
  Eval vm_compute in ok_or_empty (create_epoch_snapshot_for_block config target (header_at 2 15 []) epoch0 ∅).
Definition half2 : EpochSnapshot :=
  Eval vm_compute in ok_or_empty (create_epoch_snapshot_for_block config target (header_at 4 15 []) half1 ∅).
Definition half3 : EpochSnapshot :=
  Eval vm_compute in ok_or_empty (create_epoch_snapshot_for_block config target (header_at 6 20 []) half2 ∅).

Example rescued_slot_is_in_expired_range :
  create_epoch_snapshot_for_block config target (header_at 6 20 []) half2 ∅ = Ok half3 ∧
  expired_submit_range config 6 half2 20 true = Ok (Some 20) ∧ ¬ slot_expired half3 Submit 1 ∧
  expired_submit_range config 7 half3 20 true = Ok (Some 10).
Proof. split_and!; try (vm_compute; reflexivity). vm_compute. done. Qed.
End EpochExample.
