(* ===== verification/Codec.v ===== *)
(** Binary codecs in the style of Borsh: writers produce bytes, readers consume a prefix of a
    slice.  [Codec] is the interface a format promises to the formats built from it: reading
    what was written gives the value back, and a reader accepts nothing else. *)

From S2P Require Import TreeHash StateErr Prelude.

(** ** Readers *)

Inductive InvalidData : Type :=
| MissingShadowPrefix
| TrailingBytes
| UnknownVersion
| UnknownDiscriminant.

(** [borsh::io::Error]. *)
Inductive IoError : Type :=
| UnexpectedEof
| Invalid (what : InvalidData).

Notation Reader := (SE (list byte) IoError).

(** [Read::read_exact] of a byte slice, into a buffer of [n] bytes. *)
Definition read_exact (n : nat) : Reader (list byte) := λ buf,
  if (length buf <? n)%nat then ([], Err UnexpectedEof) else (drop n buf, Ok (take n buf)).

(** [BorshSerialize] and [BorshDeserialize], on the values [borsh_wf] that the type holds. *)
Class Borsh (A : Type) : Type := {
  serialize : A → list byte;
  deserialize_reader : Reader A;
  borsh_wf : A → Prop
}.
#[global] Hint Mode Borsh ! : typeclass_instances.

Record codec {A} (wf : A → Prop) (write : A → list byte) (read : Reader A) : Prop := mkCodec {
  codec_reads : ∀ a rest, wf a → read (write a ++ rest) = (rest, Ok a);
  codec_canonical : ∀ buf rest a, read buf = (rest, Ok a) → wf a ∧ buf = write a ++ rest;
  codec_no_panic : ∀ buf, (read buf).2 ≠ Panic
}.

Class Codec (A : Type) `{Borsh A} : Prop := codec_ok : codec (A:=A) borsh_wf serialize deserialize_reader.

(** ** Fields *)

Definition bytes_wf (n : nat) (b : list byte) : Prop := length b = n.

Lemma codec_bytes n : codec (bytes_wf n) id (read_exact n).
Proof.
  unfold bytes_wf, read_exact, id. split.
  - intros b rest <-. rewrite (proj2 (Nat.ltb_ge _ _)) by (rewrite length_app; lia).
    by rewrite drop_app_length, take_app_length.
  - intros buf rest b. destruct (Nat.ltb_spec (length buf) n); [done|]. intros [= <- <-].
    rewrite length_take. split; [lia|]. by rewrite take_drop.
  - intros buf. by destruct (_ <? _)%nat.
Qed.

(** [U256], big-endian on 32 bytes. *)
Definition u256_wf (x : Z) : Prop := 0 ≤ x < 2 ^ 256.
Definition write_u256 (x : Z) : list byte := be_bytes 32 x.
Definition read_u256 : Reader Z := amount_buf ← read_exact 32; mret (of_be_bytes amount_buf).

Lemma be_bytes_of_be_bytes b : be_bytes (length b) (of_be_bytes b) = b.
Proof.
  induction b as [|x b IH]; [done|]. cbn [length be_bytes]. rewrite of_be_bytes_cons.
  pose proof (of_be_bytes_range b) as Hr. set (p := 256 ^ Z.of_nat (length b)) in *.
  assert (Hmod : ∀ n y k, be_bytes n (k * 256 ^ Z.of_nat n + y) = be_bytes n y).
  { clear. induction n as [|n IH]; intros y k; [done|]. cbn [be_bytes]. rewrite Nat2Z.inj_succ, Z.pow_succ_r by lia.
    assert (0 < 256 ^ Z.of_nat n) by (apply Z.pow_pos_nonneg; lia). f_equal.
    - replace (k * (256 * 256 ^ Z.of_nat n) + y) with (y + (k * 256) * 256 ^ Z.of_nat n) by ring.
      rewrite Z.div_add by lia. unfold byte_of_Z. by rewrite Z.mod_add by lia.
    - rewrite Z.mul_assoc. apply IH. }
  unfold p in *. rewrite Hmod, IH. f_equal. rewrite Z.div_add_l by lia. rewrite Z.div_small by lia.
  rewrite Z.add_0_r. apply byte_of_Z_of_byte.
Qed.

(** ** Sequences *)

Section Bind.
  Context {A B : Type}.

Lemma read_bind (m : Reader A) (f : A → Reader B) buf rest a :
  m buf = (rest, Ok a) → (m ≫= f) buf = f a rest.
Proof. intros Hm. unfold mbind, SE_bind. by rewrite Hm. Qed.

(** A field followed by the rest of the format. *)
Lemma codec_field (W : A → Prop) (w : A → list byte) (r : Reader A) (get : B → A) (wf : B → Prop) (wb : B → list byte)
    (k : A → Reader B) :
  codec W w r → (∀ b, wf b → W (get b)) →
  (∀ a, W a → codec (λ b, wf b ∧ get b = a) wb (k a)) →
  codec wf (λ b, w (get b) ++ wb b) (r ≫= k).
Proof.
  intros [Hr Hc Hp] HW Hk. split.
  - intros b rest Hb. pose proof (HW b Hb) as Ha.
    rewrite <- (assoc_L (++)), (read_bind _ _ _ _ _ (Hr (get b) _ Ha)). by apply (Hk _ Ha).
  - intros buf rest b (buf1 & a & [Ha ->]%Hc & Hrest)%bind_run.
    apply (Hk a Ha) in Hrest as [[Hb <-] ->]. split; [done|]. by rewrite (assoc_L (++)).
  - intros buf. unfold mbind, SE_bind. pose proof (Hp buf) as Hnp. destruct (r buf) as [buf1 [a| |]] eqn:E; [|done..].
    apply Hc in E as [Ha _]. by apply (Hk a Ha).
Qed.

(** The end of a format that determines its value. *)
Lemma codec_ret (wf : B → Prop) (b : B) : (∀ b', wf b' ↔ b' = b) → codec wf (λ _, []) (mret b).
Proof.
  intros Hwf. split.
  - by intros b' rest ->%Hwf.
  - intros buf rest b' [= <- <-]. split; [by apply Hwf|done].
  - done.
Qed.

Lemma codec_ext (wf : A → Prop) w w' r : (∀ a, w a = w' a) → codec wf w r → codec wf w' r.
Proof.
  intros Hw [Hr Hc Hp]. split; [|intros buf rest a Hb|done].
  - intros a rest Ha. rewrite <- Hw. by apply Hr.
  - rewrite <- Hw. by apply Hc.
Qed.
End Bind.

(** A format read under a constructor. *)
Lemma codec_under {A B} (wf : A → Prop) w r (f : A → B) (wf' : B → Prop) (w' : B → list byte) :
  codec wf w r → (∀ b, wf' b → ∃ a, wf a ∧ b = f a) → (∀ a, wf a → wf' (f a) ∧ w' (f a) = w a) →
  codec wf' w' (r ≫= λ a, mret (f a)).
Proof.
  intros [Hr Hc Hp] Hto Hof. split.
  - intros b rest (a & Ha & ->)%Hto. destruct (Hof a Ha) as [_ ->]. by rewrite (read_bind _ _ _ _ _ (Hr a rest Ha)).
  - intros buf rest b (buf1 & a & [Ha ->]%Hc & Hrest)%bind_run. injection Hrest as <- <-.
    destruct (Hof a Ha) as [Hb ->]. done.
  - intros buf. unfold mbind, SE_bind. specialize (Hp buf). by destruct (r buf) as [buf1 [a| |]].
Qed.

Lemma codec_fail {B} (e : IoError) (wf : B → Prop) w : (∀ b, ¬ wf b) → codec wf w (lift (Err e)).
Proof. intros Hno. split; [|done|done]. by intros b rest Hb%Hno. Qed.

(** One byte, a version or a discriminant. *)
Definition read_u8 : Reader byte :=
  buf ← read_exact 1;
  match buf with b :: _ => mret b | [] => lift Panic end.

Lemma codec_u8 : codec (λ _, True) (λ b, [b]) read_u8.
Proof.
  unfold read_u8. split.
  - intros b rest _. done.
  - intros buf rest b (buf1 & bs & [Hbs ->]%codec_bytes & Hrest)%bind_run. unfold bytes_wf, id in *.
    destruct bs as [|x [|]]; [done| |done]. by injection Hrest as <- <-.
  - intros [|x buf]; [done|]. done.
Qed.

Lemma codec_u256 : codec u256_wf write_u256 read_u256.
Proof.
  assert (2 ^ 256 = 256 ^ Z.of_nat 32) as Hp by done. unfold u256_wf. rewrite Hp.
  split.
  - intros x rest Hx. unfold read_u256, write_u256.
    rewrite (read_bind _ _ _ rest (be_bytes 32 x)); [|by apply codec_bytes; apply length_be_bytes].
    unfold mret, SE_ret. by rewrite of_be_bytes_be_bytes.
  - intros buf rest x (buf1 & b & [Hb ->]%codec_bytes & Hrest)%bind_run. injection Hrest as <- <-.
    unfold bytes_wf in Hb. rewrite <- Hb. split; [apply of_be_bytes_range|]. unfold write_u256.
    by rewrite <- Hb, be_bytes_of_be_bytes.
  - intros buf. unfold read_u256, mbind, SE_bind. pose proof (codec_no_panic _ _ _ (codec_bytes 32) buf) as Hnp.
    by destruct (read_exact 32 buf) as [? [| |]].
Qed.

(** A format of fixed-size fields read in order, by their projections. *)
Ltac amount_field get :=
  eapply (codec_field u256_wf write_u256 read_u256 get); [exact codec_u256|naive_solver|intros ? ?].
Ltac bytes_field get :=
  eapply (codec_field (bytes_wf _) id (read_exact _) get); [apply codec_bytes|naive_solver|intros ? ?].
Ltac end_fields := apply codec_ret; intros []; naive_solver.
