(* ===== verification/ShadowTx.v ===== *)
(** Shadow transactions and their encoding ([crates/irys-reth/src/shadow_tx.rs]).

    The actions of the protocol travel in EVM transactions as a prefix followed by a packet.
    Validators compare decoded packets and not raw inputs, so each shadow transaction must
    have exactly one input: the codec is shown to be a bijection between the values and the
    inputs it accepts.  Addresses are 20 bytes, hashes and references 32, amounts [U256]. *)

From S2P Require Import TreeHash StateErr Codec Prelude.

Definition SHADOW_TX_VERSION_V1 : byte := x01.

(** [b"irys-shadow-exec"]. *)
Definition IRYS_SHADOW_EXEC : list byte :=
  [x69; x72; x79; x73; x2d; x73; x68; x61; x64; x6f; x77; x2d; x65; x78; x65; x63].

(** ** Packets *)

Record UnstakeDebit : Type := mkUnstakeDebit { ud_target : list byte; ud_irys_ref : list byte }.
Record UpdateRewardAddressDebit : Type := mkUpdateRewardAddressDebit {
  ura_target : list byte;
  ura_irys_ref : list byte;
  ura_new_reward_address : list byte
}.
Record BalanceDecrement : Type := mkBalanceDecrement {
  bd_amount : Z;
  bd_target : list byte;
  bd_irys_ref : list byte
}.
Record BalanceIncrement : Type := mkBalanceIncrement {
  bi_amount : Z;
  bi_target : list byte;
  bi_irys_ref : list byte
}.
Record UnpledgeDebit : Type := mkUnpledgeDebit { upd_target : list byte; upd_irys_ref : list byte }.
Record BlockRewardIncrement : Type := mkBlockRewardIncrement { br_amount : Z }.

Inductive TransactionPacket : Type :=
| PUnstakeDebit (d : UnstakeDebit)
| PBlockReward (i : BlockRewardIncrement)
| PStake (d : BalanceDecrement)
| PStorageFees (d : BalanceDecrement)
| PPledge (d : BalanceDecrement)
| PUnpledge (d : UnpledgeDebit)
| PUnpledgeRefund (i : BalanceIncrement)
| PTermFeeReward (i : BalanceIncrement)
| PIngressProofReward (i : BalanceIncrement)
| PPermFeeRefund (i : BalanceIncrement)
| PUnstakeRefund (i : BalanceIncrement)
| PUpdateRewardAddress (d : UpdateRewardAddressDebit).

Inductive EitherIncrementOrDecrement : Type :=
| EBalanceIncrement (i : BalanceIncrement)
| EBalanceDecrement (d : BalanceDecrement).

Inductive ShadowTransaction : Type :=
| V1 (packet : TransactionPacket) (solution_hash : list byte).

Definition new_v1 (packet : TransactionPacket) (solution_hash : list byte) : ShadowTransaction :=
  V1 packet solution_hash.
Definition version (t : ShadowTransaction) : byte := match t with V1 _ _ => SHADOW_TX_VERSION_V1 end.
Definition as_v1 (t : ShadowTransaction) : option TransactionPacket := match t with V1 packet _ => Some packet end.

Definition fee_payer_address (p : TransactionPacket) : option (list byte) :=
  match p with
  | PUnstakeRefund inc => Some (bi_target inc)
  | PUnstakeDebit dec => Some (ud_target dec)
  | PBlockReward _ => None
  | PStake dec => Some (bd_target dec)
  | PStorageFees dec => Some (bd_target dec)
  | PPledge dec => Some (bd_target dec)
  | PUnpledge dec => Some (upd_target dec)
  | PUnpledgeRefund inc => Some (bi_target inc)
  | PTermFeeReward inc => Some (bi_target inc)
  | PIngressProofReward inc => Some (bi_target inc)
  | PPermFeeRefund inc => Some (bi_target inc)
  | PUpdateRewardAddress dec => Some (ura_target dec)
  end.

(** ** Structs *)

#[global] Instance BalanceDecrement_borsh : Borsh BalanceDecrement := {
  serialize d := write_u256 (bd_amount d) ++ bd_target d ++ bd_irys_ref d;
  deserialize_reader :=
    amount ← read_u256;
    target ← read_exact 20;
    irys_ref ← read_exact 32;
    mret (mkBalanceDecrement amount target irys_ref);
  borsh_wf d := u256_wf (bd_amount d) ∧ bytes_wf 20 (bd_target d) ∧ bytes_wf 32 (bd_irys_ref d)
}.

#[global] Instance BalanceIncrement_borsh : Borsh BalanceIncrement := {
  serialize i := write_u256 (bi_amount i) ++ bi_target i ++ bi_irys_ref i;
  deserialize_reader :=
    amount ← read_u256;
    target ← read_exact 20;
    irys_ref ← read_exact 32;
    mret (mkBalanceIncrement amount target irys_ref);
  borsh_wf i := u256_wf (bi_amount i) ∧ bytes_wf 20 (bi_target i) ∧ bytes_wf 32 (bi_irys_ref i)
}.

#[global] Instance UnpledgeDebit_borsh : Borsh UnpledgeDebit := {
  serialize d := upd_target d ++ upd_irys_ref d;
  deserialize_reader :=
    target ← read_exact 20;
    irys_ref ← read_exact 32;
    mret (mkUnpledgeDebit target irys_ref);
  borsh_wf d := bytes_wf 20 (upd_target d) ∧ bytes_wf 32 (upd_irys_ref d)
}.

#[global] Instance UnstakeDebit_borsh : Borsh UnstakeDebit := {
  serialize d := ud_target d ++ ud_irys_ref d;
  deserialize_reader :=
    target ← read_exact 20;
    irys_ref ← read_exact 32;
    mret (mkUnstakeDebit target irys_ref);
  borsh_wf d := bytes_wf 20 (ud_target d) ∧ bytes_wf 32 (ud_irys_ref d)
}.

#[global] Instance UpdateRewardAddressDebit_borsh : Borsh UpdateRewardAddressDebit := {
  serialize d := ura_target d ++ ura_irys_ref d ++ ura_new_reward_address d;
  deserialize_reader :=
    target ← read_exact 20;
    irys_ref ← read_exact 32;
    new_reward_address ← read_exact 20;
    mret (mkUpdateRewardAddressDebit target irys_ref new_reward_address);
  borsh_wf d := bytes_wf 20 (ura_target d) ∧ bytes_wf 32 (ura_irys_ref d) ∧ bytes_wf 20 (ura_new_reward_address d)
}.

#[global] Instance BlockRewardIncrement_borsh : Borsh BlockRewardIncrement := {
  serialize i := write_u256 (br_amount i);
  deserialize_reader := amount ← read_u256; mret (mkBlockRewardIncrement amount);
  borsh_wf i := u256_wf (br_amount i)
}.

Ltac written := intros ?; cbn; unfold id; by rewrite ?app_nil_r.

#[global] Instance BalanceDecrement_codec : Codec BalanceDecrement.
Proof. eapply codec_ext; [|amount_field bd_amount; bytes_field bd_target; bytes_field bd_irys_ref; end_fields]; written. Qed.
#[global] Instance BalanceIncrement_codec : Codec BalanceIncrement.
Proof. eapply codec_ext; [|amount_field bi_amount; bytes_field bi_target; bytes_field bi_irys_ref; end_fields]; written. Qed.
#[global] Instance UnpledgeDebit_codec : Codec UnpledgeDebit.
Proof. eapply codec_ext; [|bytes_field upd_target; bytes_field upd_irys_ref; end_fields]; written. Qed.
#[global] Instance UnstakeDebit_codec : Codec UnstakeDebit.
Proof. eapply codec_ext; [|bytes_field ud_target; bytes_field ud_irys_ref; end_fields]; written. Qed.
#[global] Instance UpdateRewardAddressDebit_codec : Codec UpdateRewardAddressDebit.
Proof. eapply codec_ext; [|bytes_field ura_target; bytes_field ura_irys_ref; bytes_field ura_new_reward_address; end_fields]; written. Qed.
#[global] Instance BlockRewardIncrement_codec : Codec BlockRewardIncrement.
Proof. eapply codec_ext; [|amount_field br_amount; end_fields]; written. Qed.

(** ** Packets by discriminant *)

Definition UNSTAKE_ID : byte := x01.
Definition BLOCK_REWARD_ID : byte := x02.
Definition STAKE_ID : byte := x03.
Definition STORAGE_FEES_ID : byte := x04.
Definition PLEDGE_ID : byte := x05.
Definition UNPLEDGE_ID : byte := x06.
Definition TERM_FEE_REWARD_ID : byte := x07.
Definition INGRESS_PROOF_REWARD_ID : byte := x08.
Definition PERM_FEE_REFUND_ID : byte := x09.
Definition UNPLEDGE_REFUND_ID : byte := x0a.
Definition UNSTAKE_DEBIT_ID : byte := x0b.
Definition UPDATE_REWARD_ADDRESS_ID : byte := x0c.
Definition EITHER_INCREMENT_ID : byte := x01.
Definition EITHER_DECREMENT_ID : byte := x02.

Definition write_packet (p : TransactionPacket) : list byte :=
  match p with
  | PUnstakeRefund inner => UNSTAKE_ID :: serialize inner
  | PUnstakeDebit inner => UNSTAKE_DEBIT_ID :: serialize inner
  | PBlockReward inner => BLOCK_REWARD_ID :: serialize inner
  | PStake inner => STAKE_ID :: serialize inner
  | PStorageFees inner => STORAGE_FEES_ID :: serialize inner
  | PPledge inner => PLEDGE_ID :: serialize inner
  | PUnpledge inner => UNPLEDGE_ID :: serialize inner
  | PTermFeeReward inner => TERM_FEE_REWARD_ID :: serialize inner
  | PIngressProofReward inner => INGRESS_PROOF_REWARD_ID :: serialize inner
  | PPermFeeRefund inner => PERM_FEE_REFUND_ID :: serialize inner
  | PUnpledgeRefund inner => UNPLEDGE_REFUND_ID :: serialize inner
  | PUpdateRewardAddress inner => UPDATE_REWARD_ADDRESS_ID :: serialize inner
  end.

(** The packet of a discriminant; an arm per constant, in the order of the source. *)
Definition read_packet_body (disc : byte) : Reader TransactionPacket :=
  if Byte.eqb disc UNSTAKE_ID then i ← deserialize_reader; mret (PUnstakeRefund i)
  else if Byte.eqb disc UNSTAKE_DEBIT_ID then d ← deserialize_reader; mret (PUnstakeDebit d)
  else if Byte.eqb disc BLOCK_REWARD_ID then i ← deserialize_reader; mret (PBlockReward i)
  else if Byte.eqb disc STAKE_ID then d ← deserialize_reader; mret (PStake d)
  else if Byte.eqb disc STORAGE_FEES_ID then d ← deserialize_reader; mret (PStorageFees d)
  else if Byte.eqb disc PLEDGE_ID then d ← deserialize_reader; mret (PPledge d)
  else if Byte.eqb disc UNPLEDGE_ID then d ← deserialize_reader; mret (PUnpledge d)
  else if Byte.eqb disc TERM_FEE_REWARD_ID then i ← deserialize_reader; mret (PTermFeeReward i)
  else if Byte.eqb disc INGRESS_PROOF_REWARD_ID then i ← deserialize_reader; mret (PIngressProofReward i)
  else if Byte.eqb disc PERM_FEE_REFUND_ID then i ← deserialize_reader; mret (PPermFeeRefund i)
  else if Byte.eqb disc UNPLEDGE_REFUND_ID then i ← deserialize_reader; mret (PUnpledgeRefund i)
  else if Byte.eqb disc UPDATE_REWARD_ADDRESS_ID then d ← deserialize_reader; mret (PUpdateRewardAddress d)
  else lift (Err (Invalid UnknownDiscriminant)).

Definition read_packet : Reader TransactionPacket := disc ← read_u8; read_packet_body disc.

Definition packet_wf (p : TransactionPacket) : Prop :=
  match p with
  | PUnstakeDebit d => borsh_wf d
  | PBlockReward i => borsh_wf i
  | PStake d | PStorageFees d | PPledge d => borsh_wf d
  | PUnpledge d => borsh_wf d
  | PUnpledgeRefund i | PTermFeeReward i | PIngressProofReward i | PPermFeeRefund i | PUnstakeRefund i => borsh_wf i
  | PUpdateRewardAddress d => borsh_wf d
  end.

#[global] Instance TransactionPacket_borsh : Borsh TransactionPacket := {
  serialize := write_packet;
  deserialize_reader := read_packet;
  borsh_wf := packet_wf
}.

(** The discriminant and the rest of a written packet. *)
Definition packet_disc (p : TransactionPacket) : byte := default x00 (head (write_packet p)).
Definition packet_body (p : TransactionPacket) : list byte := tail (write_packet p).

Ltac packet_arm :=
  match goal with |- codec _ _ (if Byte.eqb ?a ?id then _ else _) =>
    let H := fresh "Hdisc" in destruct (Byte.eqb a id) eqn:H;
    [apply Byte.byte_dec_bl in H; subst a;
     eapply codec_under; [apply codec_ok|intros []; cbn; intros [? ?]; try done; eauto|by intros a ?]|]
  end.

#[global] Instance TransactionPacket_codec : Codec TransactionPacket.
Proof.
  eapply (codec_ext _ (λ p, [packet_disc p] ++ packet_body p)); [by intros []|].
  apply (codec_field (λ _, True) (λ b, [b]) read_u8 packet_disc packet_wf packet_body read_packet_body); [exact codec_u8|done|]. intros disc _.
  unfold read_packet_body. repeat packet_arm.
  apply codec_fail. intros p [_ Hp]. subst disc. by destruct p.
Qed.

Definition write_either (e : EitherIncrementOrDecrement) : list byte :=
  match e with
  | EBalanceIncrement inner => EITHER_INCREMENT_ID :: serialize inner
  | EBalanceDecrement inner => EITHER_DECREMENT_ID :: serialize inner
  end.
Definition read_either_body (disc : byte) : Reader EitherIncrementOrDecrement :=
  if Byte.eqb disc EITHER_INCREMENT_ID then i ← deserialize_reader; mret (EBalanceIncrement i)
  else if Byte.eqb disc EITHER_DECREMENT_ID then d ← deserialize_reader; mret (EBalanceDecrement d)
  else lift (Err (Invalid UnknownDiscriminant)).
Definition either_wf (e : EitherIncrementOrDecrement) : Prop :=
  match e with EBalanceIncrement i => borsh_wf i | EBalanceDecrement d => borsh_wf d end.

#[global] Instance EitherIncrementOrDecrement_borsh : Borsh EitherIncrementOrDecrement := {
  serialize := write_either;
  deserialize_reader := disc ← read_u8; read_either_body disc;
  borsh_wf := either_wf
}.

#[global] Instance EitherIncrementOrDecrement_codec : Codec EitherIncrementOrDecrement.
Proof.
  pose (disc e := default x00 (head (write_either e))). pose (body e := tail (write_either e)).
  eapply (codec_ext _ (λ e, [disc e] ++ body e)); [by intros []|].
  apply (codec_field (λ _, True) (λ b, [b]) read_u8 disc either_wf body read_either_body); [exact codec_u8|done|].
  intros a _. unfold read_either_body. repeat packet_arm.
  apply codec_fail. intros e [_ He]. subst a. by destruct e.
Qed.

(** ** Shadow transactions *)

Definition shadow_wf (t : ShadowTransaction) : Prop :=
  match t with V1 packet solution_hash => borsh_wf packet ∧ bytes_wf 32 solution_hash end.

Definition read_versioned (v : byte) : Reader ShadowTransaction :=
  if Byte.eqb v SHADOW_TX_VERSION_V1 then
    packet ← deserialize_reader;
    solution_hash ← read_exact 32;
    mret (V1 packet solution_hash)
  else lift (Err (Invalid UnknownVersion)).

#[global] Instance ShadowTransaction_borsh : Borsh ShadowTransaction := {
  serialize t := match t with V1 packet solution_hash => [SHADOW_TX_VERSION_V1] ++ serialize packet ++ solution_hash end;
  deserialize_reader := v ← read_u8; read_versioned v;
  borsh_wf := shadow_wf
}.

Definition packet_of (t : ShadowTransaction) : TransactionPacket := match t with V1 packet _ => packet end.
Definition hash_of (t : ShadowTransaction) : list byte := match t with V1 _ h => h end.

#[global] Instance ShadowTransaction_codec : Codec ShadowTransaction.
Proof.
  pose (body t := serialize (packet_of t) ++ hash_of t ++ []).
  eapply (codec_ext _ (λ t, [version t] ++ body t)); [intros [p h]; unfold body; cbn; by rewrite app_nil_r|].
  apply (codec_field (λ _, True) (λ b, [b]) read_u8 version shadow_wf body read_versioned); [exact codec_u8|done|].
  intros v _. unfold read_versioned. destruct (Byte.eqb v SHADOW_TX_VERSION_V1) eqn:Hv.
  - apply Byte.byte_dec_bl in Hv as ->.
    apply (codec_field borsh_wf serialize deserialize_reader packet_of); [apply codec_ok|intros [p h] [[Hp _] _]; done|].
    intros p Hp. apply (codec_field (bytes_wf 32) id (read_exact 32) hash_of); [apply codec_bytes|intros [p' h] [[[_ Hh] _] _]; done|].
    intros h Hh. apply codec_ret. intros [p' h']. cbn. naive_solver.
  - apply codec_fail. intros [p h] [_ <-]. done.
Qed.

Definition has_shadow_prefix (input : list byte) : bool :=
  bool_decide (take (length IRYS_SHADOW_EXEC) input = IRYS_SHADOW_EXEC).

Definition encode_prefixed_input (tx : ShadowTransaction) : list byte := IRYS_SHADOW_EXEC ++ serialize tx.

(** [ShadowTransaction::decode], on the slice it advances. *)
Definition decode : Reader ShadowTransaction := λ buf,
  if (length buf <? length IRYS_SHADOW_EXEC)%nat || negb (has_shadow_prefix buf)
  then (buf, Err (Invalid MissingShadowPrefix))
  else
    (shadow_tx ← deserialize_reader;
     rest ← gets id;
     if bool_decide (rest = []) then mret shadow_tx else lift (Err (Invalid TrailingBytes)))
      (drop (length IRYS_SHADOW_EXEC) buf).

Inductive ShadowTxError : Type :=
| MissingPrefix
| Decode (e : IoError)
| ShadowTxAfterNonShadow.

Definition try_decode_prefixed (input : list byte) : result ShadowTxError ShadowTransaction :=
  if negb (has_shadow_prefix input) then Err MissingPrefix else map_err Decode (decode input).2.

(** An EIP-1559 transaction of the execution layer, as far as [compose] fills it. *)
Record TxEip1559 : Type := mkTxEip1559 {
  te_chain_id : Z;
  te_gas_limit : Z;
  te_input : list byte;
  te_max_fee_per_gas : Z;
  te_max_priority_fee_per_gas : Z;
  te_nonce : Z;
  te_to : option (list byte);
  te_value : Z
}.

Section Detect.
  (** The address derived from a Keccak hash, and constants of the execution layer. *)
  Context (SHADOW_TX_DESTINATION_ADDR : list byte) (MINIMUM_GAS_LIMIT DEFAULT_TX_FEE_CAP_WEI : Z).

Definition compose (tx : ShadowTransaction) (chain_id max_priority_fee_per_gas : Z) : TxEip1559 :=
  mkTxEip1559 chain_id MINIMUM_GAS_LIMIT (encode_prefixed_input tx) DEFAULT_TX_FEE_CAP_WEI
    max_priority_fee_per_gas 0 (Some SHADOW_TX_DESTINATION_ADDR) 0.

Definition is_shadow_destination (to : option (list byte)) : bool :=
  match to with Some addr => bool_decide (addr = SHADOW_TX_DESTINATION_ADDR) | None => false end.

Definition detect_and_decode_from_parts (to : option (list byte)) (input : list byte)
  : result ShadowTxError (option ShadowTransaction) :=
  if negb (is_shadow_destination to) || negb (has_shadow_prefix input) then Ok None
  else tx ← try_decode_prefixed input; Ok (Some tx).

Definition detect_and_decode (src : TxEip1559) : result ShadowTxError (option ShadowTransaction) :=
  detect_and_decode_from_parts (te_to src) (te_input src).

(** ** One input per shadow transaction *)

Lemma has_prefix_spec input : has_shadow_prefix input = true ↔ ∃ rest, input = IRYS_SHADOW_EXEC ++ rest.
Proof.
  unfold has_shadow_prefix. rewrite bool_decide_eq_true. split.
  - intros Heq. exists (drop (length IRYS_SHADOW_EXEC) input). by rewrite <- Heq at 1; rewrite take_drop.
  - intros [rest ->]. by rewrite take_app_length.
Qed.

Lemma decode_spec rest :
  (decode (IRYS_SHADOW_EXEC ++ rest)).2 ≠ Panic ∧
  ∀ tx, (decode (IRYS_SHADOW_EXEC ++ rest)).2 = Ok tx ↔ shadow_wf tx ∧ rest = serialize tx.
Proof.
  unfold decode. rewrite (proj2 (Nat.ltb_ge _ _)) by (rewrite length_app; lia).
  rewrite (proj2 (has_prefix_spec _)) by eauto. cbn [negb orb]. rewrite drop_app_length.
  pose proof (codec_ok (A:=ShadowTransaction)) as [Hr Hc Hp]. split.
  - unfold mbind, SE_bind. specialize (Hp rest). destruct (deserialize_reader rest) as [buf [tx| |]]; [|done..].
    cbn. by destruct (bool_decide _).
  - intros tx. split.
    + match goal with |- (?m rest).2 = _ → _ => destruct (m rest) as [buf r] eqn:E end. cbn. intros ->. apply bind_run in E as (buf1 & tx' & Hrun & E).
      apply bind_run in E as (buf2 & x & [= <- <-] & E). case_bool_decide as Hnil; [|done]. injection E as <- <-.
      unfold id in Hnil. subst. apply Hc in Hrun as [Hwf ->]. by rewrite app_nil_r.
    + intros [Hwf ->]. rewrite <- (app_nil_r (serialize tx)). by rewrite (read_bind _ _ _ _ _ (Hr tx [] Hwf)).
Qed.

Lemma try_decode_spec input : try_decode_prefixed input ≠ Panic ∧
  ∀ tx, try_decode_prefixed input = Ok tx ↔ shadow_wf tx ∧ input = encode_prefixed_input tx.
Proof.
  unfold try_decode_prefixed, encode_prefixed_input. destruct (has_shadow_prefix input) eqn:Hpre; cbn [negb].
  - apply has_prefix_spec in Hpre as [rest ->]. destruct (decode_spec rest) as [Hnp Hok]. split.
    + by destruct (decode _).2.
    + intros tx. etrans; [|etrans; [apply (Hok tx)|]].
      * destruct (decode _).2; naive_solver.
      * naive_solver.
  - split; [done|]. intros tx. split; [done|]. intros [_ ->]. apply not_true_iff_false in Hpre. destruct Hpre.
    apply has_prefix_spec. eauto.
Qed.

Lemma detect_compose tx chain_id fee : shadow_wf tx → detect_and_decode (compose tx chain_id fee) = Ok (Some tx).
Proof.
  intros Hwf. unfold detect_and_decode, detect_and_decode_from_parts. cbn [te_to te_input compose is_shadow_destination].
  rewrite bool_decide_true by done. rewrite (proj2 (has_prefix_spec _)) by (unfold encode_prefixed_input; eauto).
  cbn [negb orb]. by rewrite (proj2 (proj2 (try_decode_spec _) tx)).
Qed.

(** C31: The accepted inputs are exactly the encodings, one per shadow transaction; any other
    input is an error and never a panic, and a composed transaction is detected as itself. *)
Theorem shadow_tx_one_encoding :
  (∀ input, try_decode_prefixed input ≠ Panic) ∧
  (∀ input tx, try_decode_prefixed input = Ok tx ↔ shadow_wf tx ∧ input = encode_prefixed_input tx) ∧
  (∀ tx chain_id fee, shadow_wf tx → detect_and_decode (compose tx chain_id fee) = Ok (Some tx)).
Proof. split_and!; [intros input; apply try_decode_spec..|apply detect_compose]. Qed.
End Detect.

Lemma shadow_tx_witness :
  let tx := new_v1 (PStake (mkBalanceDecrement 1000 (replicate 20 x11) (replicate 32 x22))) (replicate 32 x33) in
  let dest := replicate 20 x44 in
  length (encode_prefixed_input tx) = 134%nat ∧
  detect_and_decode dest (compose dest 21000 1 tx 1270 5) = Ok (Some tx).
Proof.
  intros tx dest. split; [vm_compute; reflexivity|]. apply (shadow_tx_one_encoding dest 21000 1). unfold tx. cbn.
  unfold u256_wf, bytes_wf. split_and!; first [lia | reflexivity].
Defined.
