(* ===== verification/ShadowExec.v ===== *)
(** Execution of shadow transactions ([crates/irys-reth/src/evm.rs]).

    The accounts of the database are a map from addresses (the big endian value of their
    bytes); its reads do not fail.  The accounts a transaction writes are collected in the state
    of the EVM and handed to the database at its end.  That commit, and the execution of the
    other transactions, are code of [revm]: the commit is a class with its documented effect.
    Logs, traces and the gas of a shadow transaction, which is zero, are not modelled. *)

From stdpp Require Export gmap.
From S2P Require Import TreeHash StateErr Codec ShadowTx Prelude.

(** ** Accounts *)

Record AccountInfo : Type := mkAccountInfo { balance : Z; nonce : Z; has_code : bool }.
Record AccountStatus : Type := mkAccountStatus {
  touched : bool;
  created : bool;
  self_destructed : bool;
  loaded_as_not_existing : bool
}.
Record Account : Type := mkAccount { info : AccountInfo; status : AccountStatus }.
#[global] Instance AccountInfo_eq_dec : EqDecision AccountInfo.
Proof. solve_decision. Defined.
#[global] Instance AccountStatus_eq_dec : EqDecision AccountStatus.
Proof. solve_decision. Defined.
#[global] Instance Account_eq_dec : EqDecision Account.
Proof. solve_decision. Defined.

Notation Accounts := (gmap Z AccountInfo).
Notation EvmState := (gmap Z Account).

Definition info_is_empty (i : AccountInfo) : bool := negb (has_code i) && (balance i =? 0) && (nonce i =? 0).
Definition account_from (i : AccountInfo) : Account := mkAccount i (mkAccountStatus false false false false).
Definition new_not_existing : Account := mkAccount (mkAccountInfo 0 0 false) (mkAccountStatus false false false true).
Definition with_balance (b : Z) (a : Account) : Account :=
  mkAccount (mkAccountInfo b (nonce (info a)) (has_code (info a))) (status a).
Definition with_status (s : AccountStatus) (a : Account) : Account := mkAccount (info a) s.

(** The commit of [revm]: an account that was touched is written, or removed when it is marked
    as destroyed or empty. *)
Class RevmState : Type := {
  db_commit : Accounts → EvmState → Accounts;
  db_commit_lookup : ∀ db st a, db_commit db st !! a =
    match st !! a with
    | Some account =>
        if touched (status account) then
          if self_destructed (status account) || info_is_empty (info account) then None else Some (info account)
        else db !! a
    | None => db !! a
    end
}.

Inductive InvalidTransaction : Type :=
| LackOfFundForMaxFee (fee bal : Z)
| OverflowPaymentInTransaction
| PriorityFeeGreaterThanMaxFee
| Eip4844NotSupported
| Undecodable.
Inductive EVMError : Type :=
| InvalidTx (err : InvalidTransaction)
| StateNotEmpty
| BeneficiaryMissing
| FeeWithoutEffect
| BeneficiaryMismatch.

(** The transaction environment, as far as it is read. *)
Record TxEnv : Type := mkTxEnv {
  tx_kind : option (list byte);
  tx_data : list byte;
  gas_priority_fee : option Z;
  blob_hashes : list Z;
  max_fee_per_blob_gas : Z;
  tx_type_id : Z
}.
Definition EIP4844_TX_TYPE_ID : Z := 3.

Section Evm.
  Context (db : Accounts).

Definition load_account (address : Z) (st : EvmState) : option Account :=
  match st !! address with
  | Some entry => Some entry
  | None => account_from <$> db !! address
  end.

Definition commit_account_change (address : Z) (account : Account) (st : EvmState) : EvmState :=
  let s := status account in
  let s := mkAccountStatus true (created s) (self_destructed s) (loaded_as_not_existing s) in
  let s := if info_is_empty (info account) then mkAccountStatus true (created s) true (loaded_as_not_existing s)
           else if loaded_as_not_existing s then mkAccountStatus true true (self_destructed s) true
           else s in
  <[address := with_status s account]> st.

(** ** Priority fees *)

Definition deduct_fee_from_target (target fee : Z) (st : EvmState) : result EVMError Account :=
  account ← ok_or (load_account target st) (InvalidTx (LackOfFundForMaxFee fee 0));
  _ ← guard_err (balance (info account) <? fee) (InvalidTx (LackOfFundForMaxFee fee (balance (info account))));
  Ok (with_balance (saturating_sub (balance (info account)) fee) account).

Definition add_fee_to_beneficiary (beneficiary fee : Z) (st : EvmState) : result EVMError (Account * bool) :=
  match load_account beneficiary st with
  | Some account =>
      b ← ok_or (checked_add 256 (balance (info account)) fee) (InvalidTx OverflowPaymentInTransaction);
      Ok (with_balance b account, false)
  | None => Ok (with_balance fee new_not_existing, true)
  end.

Definition prepare_fee_transfer (target beneficiary total_fee : Z) (st : EvmState) : result EVMError (Account * Account) :=
  target_state ← deduct_fee_from_target target total_fee st;
  r ← add_fee_to_beneficiary beneficiary total_fee st;
  Ok (with_status (mkAccountStatus true false false false) target_state,
      with_status (mkAccountStatus true r.2 false false) r.1).

Definition distribute_priority_fee (total_fee : Z) (fee_payer_address : option Z) (beneficiary : Z) : SE EvmState EVMError () := λ st,
  if total_fee =? 0 then (st, Ok ())
  else
    match fee_payer_address with
    | None => (st, Ok ())
    | Some target =>
        if target =? beneficiary then
          (st, match load_account target st with
               | None => Err (InvalidTx (LackOfFundForMaxFee total_fee 0))
               | Some _ => Ok ()
               end)
        else
          match prepare_fee_transfer target beneficiary total_fee st with
          | Err e => (st, Err e)
          | Panic => (st, Panic)
          | Ok (target_state, beneficiary_state) =>
              let beneficiary_before := load_account beneficiary st in
              let st := commit_account_change target target_state st in
              let st := commit_account_change beneficiary beneficiary_state st in
              (st, aft ← ok_or (load_account beneficiary st) BeneficiaryMissing;
                   let before := match beneficiary_before with Some a => balance (info a) | None => 0 end in
                   _ ← guard_err (balance (info aft) =? before) FeeWithoutEffect;
                   guard_err (negb (bool_decide (beneficiary_state = aft))) BeneficiaryMismatch)
          end
    end.

(** ** Packets *)

Definition handle_balance_increment (target amount : Z) (st : EvmState) : result EVMError (Account * bool) :=
  match load_account target st with
  | Some account =>
      b ← ok_or (checked_add 256 (balance (info account)) amount) (InvalidTx OverflowPaymentInTransaction);
      Ok (with_balance b account, true)
  | None => Ok (with_balance amount new_not_existing, false)
  end.

Definition handle_balance_decrement (target amount : Z) (st : EvmState) : result EVMError Account :=
  account ← ok_or (load_account target st) (InvalidTx OverflowPaymentInTransaction);
  _ ← guard_err (balance (info account) <? amount) (InvalidTx (LackOfFundForMaxFee amount (balance (info account))));
  Ok (with_balance (saturating_sub (balance (info account)) amount) account).

(** The new account of the target, if the packet changes it, and the target. *)
Definition process_shadow_transaction (shadow_tx : ShadowTransaction) (beneficiary : Z) (st : EvmState)
  : result EVMError (option Account * Z) :=
  let increment target amount := r ← handle_balance_increment target amount st; Ok (Some r.1, target) in
  let decrement target amount := a ← handle_balance_decrement target amount st; Ok (Some a, target) in
  match packet_of shadow_tx with
  | PUnstakeRefund i => increment (of_be_bytes (bi_target i)) (bi_amount i)
  | PUnstakeDebit d => Ok (None, of_be_bytes (ud_target d))
  | PUnpledge d => Ok (None, of_be_bytes (upd_target d))
  | PBlockReward i => increment beneficiary (br_amount i)
  | PStake d | PStorageFees d | PPledge d => decrement (of_be_bytes (bd_target d)) (bd_amount d)
  | PTermFeeReward i | PIngressProofReward i | PPermFeeRefund i | PUnpledgeRefund i =>
      increment (of_be_bytes (bi_target i)) (bi_amount i)
  | PUpdateRewardAddress d => Ok (None, of_be_bytes (ura_target d))
  end.

Definition packet_after_fee (shadow_tx : ShadowTransaction) (beneficiary : Z) : SE EvmState EVMError (option Account * Z) :=
  λ st, (st, process_shadow_transaction shadow_tx beneficiary st).
Definition fee_then_packet (shadow_tx : ShadowTransaction) (total_fee beneficiary : Z) : SE EvmState EVMError (option Account * Z) :=
  _ ← distribute_priority_fee total_fee (of_be_bytes <$> fee_payer_address (packet_of shadow_tx)) beneficiary;
  packet_after_fee shadow_tx beneficiary.

(** The fee and the packet.  An error clears the state of the EVM. *)
Definition run_shadow_tx (shadow_tx : ShadowTransaction) (total_fee beneficiary : Z) : SE EvmState EVMError EvmState := λ st,
  match fee_then_packet shadow_tx total_fee beneficiary st with
  | (_, Err e) => (∅, Err e)
  | (st, Panic) => (st, Panic)
  | (st, Ok (Some account, target)) =>
      let st := commit_account_change target account st in
      match st !! target with Some _ => (∅, Ok st) | None => (st, Panic) end
  | (st, Ok (None, _)) => (∅, Ok st)
  end.

Section Raw.
  Context (SHADOW_TX_DESTINATION_ADDR : list byte) (beneficiary : Z).
  (** The execution of a transaction by [revm]. *)
  Context (transact : Accounts → TxEnv → result EVMError EvmState).

Definition process_shadow_tx (tx : TxEnv) : SE EvmState EVMError (EvmState + TxEnv) := λ st,
  match tx_kind tx with
  | None => (st, Ok (inr tx))
  | Some to =>
      match detect_and_decode_from_parts SHADOW_TX_DESTINATION_ADDR (Some to) (tx_data tx) with
      | Panic => (st, Panic)
      | Err _ => (st, Err (InvalidTx Undecodable))
      | Ok None => (st, Ok (inr tx))
      | Ok (Some shadow_tx) =>
          let total_fee := default 0 (gas_priority_fee tx) in
          let is_block_reward := match packet_of shadow_tx with PBlockReward _ => true | _ => false end in
          if is_block_reward && negb (total_fee =? 0) then (st, Err (InvalidTx PriorityFeeGreaterThanMaxFee))
          else if negb (bool_decide (st = ∅)) then (st, Err StateNotEmpty)
          else
            match run_shadow_tx shadow_tx total_fee beneficiary st with
            | (st, Ok res) => (st, Ok (inl res))
            | (st, Err e) => (st, Err e)
            | (st, Panic) => (st, Panic)
            end
      end
  end.

Definition transact_raw (tx : TxEnv) : SE EvmState EVMError EvmState := λ st,
  if negb (bool_decide (blob_hashes tx = [])) || negb (max_fee_per_blob_gas tx =? 0) || (tx_type_id tx =? EIP4844_TX_TYPE_ID)
  then (st, Err (InvalidTx Eip4844NotSupported))
  else
    match process_shadow_tx tx st with
    | (st, Ok (inl res)) => (st, Ok res)
    | (st, Ok (inr tx)) => (st, transact db tx)
    | (st, Err e) => (st, Err e)
    | (st, Panic) => (st, Panic)
    end.
End Raw.
End Evm.

(** The transactions of a block in turn, each committed before the next. *)
Section Block.
  Context `{RevmState} (SHADOW_TX_DESTINATION_ADDR : list byte) (beneficiary : Z).
  Context (transact : Accounts → TxEnv → result EVMError EvmState).

Fixpoint execute_txs (txs : list TxEnv) (st : EvmState) (db : Accounts) : result EVMError Accounts :=
  match txs with
  | [] => Ok db
  | tx :: rest =>
      match transact_raw db SHADOW_TX_DESTINATION_ADDR beneficiary transact tx st with
      | (st, Ok res) => execute_txs rest st (db_commit db res)
      | (_, Err e) => Err e
      | (_, Panic) => Panic
      end
  end.
End Block.

(** * What a shadow transaction does to the balances. *)

Definition balance_of (db : Accounts) (a : Z) : Z := match db !! a with Some i => balance i | None => 0 end.
Definition accounts_ok (db : Accounts) : Prop := ∀ a, 0 ≤ balance_of db a < 2 ^ 256.

(** What a packet does to its target. *)
Inductive Change : Type :=
| Increment (target amount : Z)
| Decrement (target amount : Z)
| Nothing.
Definition change_of (p : TransactionPacket) (beneficiary : Z) : Change :=
  match p with
  | PBlockReward i => Increment beneficiary (br_amount i)
  | PStake d | PStorageFees d | PPledge d => Decrement (of_be_bytes (bd_target d)) (bd_amount d)
  | PUnstakeRefund i | PTermFeeReward i | PIngressProofReward i | PPermFeeRefund i | PUnpledgeRefund i =>
      Increment (of_be_bytes (bi_target i)) (bi_amount i)
  | PUnstakeDebit _ | PUnpledge _ | PUpdateRewardAddress _ => Nothing
  end.
Definition change_amount (c : Change) : Z := match c with Increment _ n | Decrement _ n => n | Nothing => 0 end.
Definition change_at (c : Change) (a : Z) : Z :=
  match c with
  | Increment t n => if a =? t then n else 0
  | Decrement t n => if a =? t then - n else 0
  | Nothing => 0
  end.
Definition net_change (c : Change) : Z := match c with Increment _ n => n | Decrement _ n => - n | Nothing => 0 end.

Definition payer_of (p : TransactionPacket) : option Z := of_be_bytes <$> fee_payer_address p.
(** The tip, from its payer to the beneficiary. *)
Definition tip_at (tip : Z) (payer : option Z) (beneficiary a : Z) : Z :=
  match payer with
  | Some p => (if a =? beneficiary then tip else 0) - (if a =? p then tip else 0)
  | None => 0
  end.

Definition tip_payable (db : Accounts) (tip : Z) (payer : option Z) (beneficiary : Z) : Prop :=
  match payer with
  | Some p => tip ≠ 0 → is_Some (db !! p) ∧ (p ≠ beneficiary → tip ≤ balance_of db p ∧ balance_of db beneficiary + tip < 2 ^ 256)
  | None => True
  end.
Definition change_payable (db : Accounts) (tip : Z) (payer : option Z) (beneficiary : Z) (c : Change) : Prop :=
  match c with
  | Increment t n => balance_of db t + n < 2 ^ 256
  | Decrement t n => is_Some (db !! t) ∧ n ≤ balance_of db t + tip_at tip payer beneficiary t
  | Nothing => True
  end.

(** Tips go with the packets that take something or only pay a fee. *)
Definition tip_ok (p : TransactionPacket) (beneficiary tip : Z) : Prop :=
  0 ≤ tip < 2 ^ 128 ∧ match change_of p beneficiary with Increment _ _ => tip = 0 | _ => True end.
Definition amount_ok (p : TransactionPacket) (beneficiary : Z) : Prop := 0 ≤ change_amount (change_of p beneficiary) < 2 ^ 256.

(** ** The state of the EVM *)

Section State.
  Context `{RevmState} (db : Accounts) (Hdb : accounts_ok db).

Definition seen (st : EvmState) (a : Z) : Z := match load_account db a st with Some acc => balance (info acc) | None => 0 end.
Definition entry_ok (acc : Account) : Prop := touched (status acc) = true ∧ (self_destructed (status acc) = true → info_is_empty (info acc) = true).
Definition state_ok (st : EvmState) : Prop := ∀ a acc, st !! a = Some acc → entry_ok acc.

Lemma seen_empty a : seen ∅ a = balance_of db a.
Proof. unfold seen, load_account, balance_of. rewrite lookup_empty. by destruct (db !! a). Qed.

Lemma info_empty_balance i : info_is_empty i = true → balance i = 0.
Proof. unfold info_is_empty. rewrite !andb_true_iff, Z.eqb_eq. naive_solver. Qed.

Lemma commit_balance st a : state_ok st → balance_of (db_commit db st) a = seen st a.
Proof.
  intros Hok. unfold balance_of, seen, load_account. rewrite db_commit_lookup. destruct (st !! a) as [acc|] eqn:E; [|by destruct (db !! a)].
  destruct (Hok a acc E) as [-> Hsd]. destruct (self_destructed (status acc)); cbn [orb]; [by rewrite info_empty_balance by auto|].
  destruct (info_is_empty (info acc)) eqn:Hie; [by rewrite info_empty_balance|done].
Qed.

Lemma commit_info a acc st : info <$> commit_account_change a acc st !! a = Some (info acc).
Proof. unfold commit_account_change. by rewrite lookup_insert_eq. Qed.

Lemma seen_commit st a acc x : seen (commit_account_change a acc st) x = if x =? a then balance (info acc) else seen st x.
Proof.
  unfold seen, load_account. destruct (Z.eqb_spec x a) as [->|Hne].
  - pose proof (commit_info a acc st) as Hi. destruct (_ !! a); [|done]. by injection Hi as ->.
  - unfold commit_account_change. by rewrite lookup_insert_ne by done.
Qed.

Lemma state_ok_commit st a acc : state_ok st → (self_destructed (status acc) = true → info_is_empty (info acc) = true) →
  state_ok (commit_account_change a acc st).
Proof.
  intros Hok Hacc x acc'. unfold commit_account_change. destruct (decide (x = a)) as [->|]; [|rewrite lookup_insert_ne by done; apply Hok].
  rewrite lookup_insert_eq. intros [= <-]. unfold entry_ok. cbn. by destruct (info_is_empty (info acc)), (loaded_as_not_existing (status acc)).
Qed.

Lemma load_empty a : load_account db a ∅ = account_from <$> db !! a.
Proof. unfold load_account. by rewrite lookup_empty. Qed.

Lemma load_commit_ne st a acc x : x ≠ a → load_account db x (commit_account_change a acc st) = load_account db x st.
Proof. intros. unfold load_account, commit_account_change. by rewrite lookup_insert_ne. Qed.

Lemma state_ok_empty : state_ok ∅.
Proof. by intros ? ?; rewrite lookup_empty. Qed.

(** ** The tip *)

Record after_tip (tip : Z) (payer : option Z) (beneficiary : Z) (st : EvmState) : Prop := {
  at_ok : state_ok st;
  at_seen : ∀ a, seen st a = balance_of db a + tip_at tip payer beneficiary a;
  at_payer : ∀ p, payer = Some p → is_Some (load_account db p st) ↔ is_Some (db !! p);
  at_zero : tip = 0 → st = ∅
}.

Lemma tip_at_zero payer beneficiary a : tip_at 0 payer beneficiary a = 0.
Proof. unfold tip_at. destruct payer as [p|]; [|done]. by destruct (a =? beneficiary), (a =? p). Qed.

Lemma tip_at_self tip p a : tip_at tip (Some p) p a = 0.
Proof. unfold tip_at. lia. Qed.

Lemma after_no_tip tip payer beneficiary : (∀ a, tip_at tip payer beneficiary a = 0) → after_tip tip payer beneficiary ∅.
Proof.
  intros Ht. split; [apply state_ok_empty|intros a; rewrite seen_empty, Ht; lia| |done].
  intros p _. by rewrite load_empty, fmap_is_Some.
Qed.

Lemma not_empty_balance i : 0 < balance i → info_is_empty i = false.
Proof. intros Hb. unfold info_is_empty. rewrite (proj2 (Z.eqb_neq _ _)) by lia. by rewrite andb_false_r. Qed.

(** The beneficiary after the tip. *)
Lemma add_fee_ok beneficiary tip : 0 < tip < 2 ^ 128 → balance_of db beneficiary + tip < 2 ^ 256 →
  ∃ acc is_new, add_fee_to_beneficiary db beneficiary tip ∅ = Ok (acc, is_new) ∧ balance (info acc) = balance_of db beneficiary + tip.
Proof.
  intros Ht Hlt. unfold add_fee_to_beneficiary, balance_of in *. rewrite load_empty. destruct (db !! beneficiary) as [j|]; cbn; [|by eexists _, _].
  unfold checked_add. rewrite (proj2 (Z.ltb_lt _ _)) by done. cbn. by eexists _, _.
Qed.

Lemma commit_transfer p beneficiary tip target_state acc is_new :
  p ≠ beneficiary → 0 < tip → is_Some (db !! p) →
  balance (info target_state) = balance_of db p - tip → balance (info acc) = balance_of db beneficiary + tip →
  let st := commit_account_change beneficiary (with_status (mkAccountStatus true is_new false false) acc)
              (commit_account_change p (with_status (mkAccountStatus true false false false) target_state) ∅) in
  load_account db beneficiary st = Some (with_status (mkAccountStatus true is_new false false) acc) ∧ after_tip tip (Some p) beneficiary st.
Proof.
  intros Hne Ht Hp Hbt Hba st. pose proof (Hdb beneficiary). split; [|split].
  - unfold st, load_account, commit_account_change. rewrite lookup_insert_eq. cbn. by rewrite not_empty_balance by lia.
  - by repeat apply state_ok_commit; [apply state_ok_empty|..].
  - intros a. unfold st. rewrite !seen_commit, seen_empty. cbn [info with_status]. unfold tip_at.
    destruct (Z.eqb_spec a beneficiary) as [->|]; [|destruct (Z.eqb_spec a p) as [->|]; lia]. rewrite (proj2 (Z.eqb_neq _ _)); lia.
  - intros q [= ->]. unfold st. rewrite load_commit_ne by done. unfold load_account, commit_account_change. rewrite lookup_insert_eq.
    split; [by intros _|]. intros _. by eexists.
  - lia.
Qed.

(** The tip is paid exactly when it can be; it does not fail otherwise than as an invalid
    transaction. *)
Lemma distribute_spec tip payer beneficiary : 0 ≤ tip < 2 ^ 128 →
  (tip_payable db tip payer beneficiary ∧ ∃ st, distribute_priority_fee db tip payer beneficiary ∅ = (st, Ok ()) ∧ after_tip tip payer beneficiary st) ∨
  (¬ tip_payable db tip payer beneficiary ∧ ∃ e, distribute_priority_fee db tip payer beneficiary ∅ = (∅, Err (InvalidTx e))).
Proof.
  intros Ht. unfold distribute_priority_fee. destruct (Z.eqb_spec tip 0) as [->|Hnz].
  { left. split; [by destruct payer|]. exists ∅. split; [done|]. apply after_no_tip. intros a. apply tip_at_zero. }
  destruct payer as [p|]; [|left; split; [done|]; exists ∅; split; [done|]; by apply after_no_tip].
  destruct (Z.eqb_spec p beneficiary) as [->|Hne].
  { rewrite load_empty. destruct (db !! beneficiary) as [j|] eqn:E; [left|right; split; [|by eexists]].
    - split; [cbn; rewrite E; naive_solver|]. exists ∅. split; [done|]. apply after_no_tip. intros a. apply tip_at_self.
    - cbn. rewrite E. intros [[? ?] _]; done. }
  unfold prepare_fee_transfer, deduct_fee_from_target. rewrite load_empty. destruct (db !! p) as [i|] eqn:E;
    [|right; split; [cbn; rewrite E; intros [[? ?] _]; done|by eexists]].
  assert (balance_of db p = balance i) as Hbp by (unfold balance_of; by rewrite E). cbn [fmap option_fmap option_map ok_or mbind result_bind account_from info].
  destruct (Z.ltb_spec (balance i) tip); [right; split; [cbn; intros [_ Hf]; [done|]; specialize (Hf Hne); lia|by eexists]|].
  cbn [guard_err mbind result_bind]. destruct (decide (balance_of db beneficiary + tip < 2 ^ 256)) as [Hlt|Hge].
  - left. split; [cbn; rewrite E; intros _; split; [by eexists|lia]|].
    destruct (add_fee_ok beneficiary tip ltac:(lia) Hlt) as (acc & is_new & -> & Hacc). cbn [mbind result_bind fst snd].
    destruct (commit_transfer p beneficiary tip (with_balance (saturating_sub (balance i) tip) (account_from i)) acc is_new) as [Hload Hat];
      [done|lia|by rewrite E|cbn; unfold saturating_sub; lia|done|]. rewrite Hload. eexists. split; [|apply Hat]. f_equal.
    cbn [ok_or mbind result_bind info with_status]. rewrite Hacc, load_empty.
    replace (match account_from <$> db !! beneficiary with Some a => balance (info a) | None => 0 end) with (balance_of db beneficiary)
      by (unfold balance_of; by destruct (db !! beneficiary)).
    rewrite (proj2 (Z.eqb_neq _ _)) by lia. cbn. by rewrite bool_decide_eq_true_2.
  - right. split; [cbn; intros Hf; destruct (Hf Hnz) as [_ Hf']; specialize (Hf' Hne); lia|].
    unfold add_fee_to_beneficiary. rewrite load_empty. unfold balance_of in Hge. destruct (db !! beneficiary) as [j|]; [|lia].
    cbn. unfold checked_add. rewrite (proj2 (Z.ltb_ge _ _)) by lia. by eexists.
Qed.
End State.

(** ** A whole shadow transaction *)

Section Run.
  Context `{RevmState} (db : Accounts) (Hdb : accounts_ok db) (beneficiary : Z).

Definition payable (p : TransactionPacket) (tip : Z) : Prop :=
  tip_payable db tip (payer_of p) beneficiary ∧ change_payable db tip (payer_of p) beneficiary (change_of p beneficiary).
Definition moved (p : TransactionPacket) (tip a : Z) : Z :=
  tip_at tip (payer_of p) beneficiary a + change_at (change_of p beneficiary) a.

Lemma process_change stx st :
  process_shadow_transaction db stx beneficiary st =
  match change_of (packet_of stx) beneficiary with
  | Increment t n => r ← handle_balance_increment db t n st; Ok (Some r.1, t)
  | Decrement t n => a ← handle_balance_decrement db t n st; Ok (Some a, t)
  | Nothing => Ok (None, of_be_bytes (default [] (fee_payer_address (packet_of stx))))
  end.
Proof. by destruct stx as [[] ?]. Qed.

Lemma decrement_payer p t n : change_of p beneficiary = Decrement t n → payer_of p = Some t.
Proof. by destruct p; cbn; intros [= <- <-]. Qed.

(** An increment comes without a tip, so it starts from no changes. *)
Lemma increment_spec t n : 0 ≤ n < 2 ^ 256 →
  (balance_of db t + n < 2 ^ 256 ∧ ∃ acc b, handle_balance_increment db t n ∅ = Ok (acc, b) ∧ balance (info acc) = balance_of db t + n ∧
     self_destructed (status acc) = false) ∨
  (¬ balance_of db t + n < 2 ^ 256 ∧ ∃ e, handle_balance_increment db t n ∅ = Err (InvalidTx e)).
Proof.
  intros Hn. unfold handle_balance_increment, balance_of. rewrite load_empty. destruct (db !! t) as [i|]; cbn; [|left; split; [lia|by eexists _, _]].
  unfold checked_add. destruct (Z.ltb_spec (balance i + n) (2 ^ 256)); cbn; [left; split; [lia|by eexists _, _]|right; split; [lia|by eexists]].
Qed.

Lemma decrement_spec t n st b : state_ok st → seen db st t = b → 0 ≤ n → 0 ≤ b →
  (is_Some (load_account db t st) ∧ n ≤ b ∧ ∃ acc, handle_balance_decrement db t n st = Ok acc ∧ balance (info acc) = b - n ∧
     (self_destructed (status acc) = true → info_is_empty (info acc) = true)) ∨
  (¬ (is_Some (load_account db t st) ∧ n ≤ b) ∧ ∃ e, handle_balance_decrement db t n st = Err (InvalidTx e)).
Proof.
  intros Hok Hb Hn Hb0. unfold handle_balance_decrement. unfold seen in Hb. destruct (load_account db t st) as [acc|] eqn:E;
    [|right; split; [by intros [[? ?] _]|by eexists]]. subst b. cbn. destruct (Z.ltb_spec (balance (info acc)) n); cbn; [right; split; [lia|by eexists]|].
  left. split; [by eexists|]. split; [done|]. eexists. split; [done|]. cbn. unfold saturating_sub. split; [lia|]. intros Hsd.
  assert (info_is_empty (info acc) = true) as He.
  { unfold load_account in E. destruct (st !! t) as [acc'|] eqn:Es; [injection E as ->; by apply (Hok t acc Es)|].
    destruct (db !! t); [|done]. by injection E as <-. }
  pose proof (info_empty_balance _ He). unfold info_is_empty in *. cbn. replace (Z.max 0 (balance (info acc) - n)) with (balance (info acc)) by lia. done.
Qed.

Lemma seen_moved st p tip acc t : after_tip db tip (payer_of p) beneficiary st →
  balance (info acc) = balance_of db t + moved p tip t → (∀ a, a ≠ t → change_at (change_of p beneficiary) a = 0) →
  ∀ a, seen db (commit_account_change t acc st) a = balance_of db a + moved p tip a.
Proof.
  intros Hat Hacc Hne a. rewrite seen_commit. destruct (Z.eqb_spec a t) as [->|Hn]; [done|]. rewrite (at_seen _ _ _ _ _ Hat). unfold moved. rewrite (Hne a Hn). lia.
Qed.

Lemma commit_result t acc st : match commit_account_change t acc st !! t with Some _ => (∅, Ok (commit_account_change t acc st)) | None => (commit_account_change t acc st, Panic) end
  = (∅ : EvmState, Ok (E:=EVMError) (commit_account_change t acc st)).
Proof. pose proof (commit_info t acc st) as Hi. by destruct (_ !! t). Qed.

(** The transaction goes through exactly when it can be paid; then every balance changes by
    its part of the tip and the packet, and otherwise by nothing. *)
Lemma run_shadow_tx_spec stx tip : tip_ok (packet_of stx) beneficiary tip → amount_ok (packet_of stx) beneficiary →
  (payable (packet_of stx) tip ∧ ∃ st, run_shadow_tx db stx tip beneficiary ∅ = (∅, Ok st) ∧
     ∀ a, balance_of (db_commit db st) a = balance_of db a + moved (packet_of stx) tip a) ∨
  (¬ payable (packet_of stx) tip ∧ ∃ e, run_shadow_tx db stx tip beneficiary ∅ = (∅, Err (InvalidTx e))).
Proof.
  set (p := packet_of stx). intros [Htip Hinc] Hamt. unfold payable, amount_ok in *. unfold run_shadow_tx, fee_then_packet, packet_after_fee, mbind, SE_bind. fold p.
  fold (payer_of p).
  destruct (distribute_spec db Hdb tip (payer_of p) beneficiary Htip) as [(Hp & st & -> & Hat)|(Hp & e & ->)];
    [|right; split; [tauto|by eexists]].
  rewrite process_change. fold p. destruct (change_of p beneficiary) as [t n|t n|] eqn:Ec; cbn [change_amount change_payable] in *.
  - subst tip. pose proof (at_zero _ _ _ _ _ Hat eq_refl) as ->. destruct (increment_spec t n Hamt) as [(Hlt & acc & b & -> & Hacc & Hsd)|(Hlt & e & ->)];
      [left|right; split; [by intros [_ ?]|by eexists]]. cbn [mbind result_bind fst]. rewrite commit_result. split; [done|]. eexists. split; [done|].
    intros a. rewrite commit_balance by (apply state_ok_commit; [apply state_ok_empty|by rewrite Hsd]).
    apply seen_moved; [done| |by intros x Hx; rewrite Ec; cbn; rewrite (proj2 (Z.eqb_neq _ _))].
    rewrite Hacc. unfold moved. rewrite Ec. cbn. rewrite Z.eqb_refl, tip_at_zero. lia.
  - pose proof (decrement_payer p t n Ec) as Hpay. pose proof (at_seen _ _ _ _ _ Hat t) as Hseen.
    assert (0 ≤ balance_of db t + tip_at tip (payer_of p) beneficiary t) as Hpos.
    { pose proof (Hdb t). rewrite Hpay in *. cbn in *. rewrite Z.eqb_refl. destruct (Z.eqb_spec t beneficiary); [lia|]. destruct (decide (tip = 0)); [lia|]. naive_solver lia. }
    destruct (decrement_spec t n st _ (at_ok _ _ _ _ _ Hat) Hseen ltac:(lia) Hpos) as [(Hs & Hle & acc & -> & Hacc & Hsd)|(Hno & e & ->)].
    + left. cbn [mbind result_bind]. rewrite commit_result. split; [split; [done|]; split; [by apply (at_payer _ _ _ _ _ Hat)|done]|]. eexists. split; [done|].
      intros a. rewrite commit_balance by (apply state_ok_commit; [apply Hat|done]).
      apply seen_moved; [done| |by intros x Hx; rewrite Ec; cbn; rewrite (proj2 (Z.eqb_neq _ _))].
      rewrite Hacc. unfold moved. rewrite Ec. cbn. rewrite Z.eqb_refl. lia.
    + right. split; [|by eexists]. intros [_ [Hs Hle]]. apply Hno. split; [by apply (at_payer _ _ _ _ _ Hat)|done].
  - left. split; [done|]. eexists. split; [done|]. intros a. rewrite commit_balance by apply Hat. rewrite (at_seen _ _ _ _ _ Hat). unfold moved. rewrite Ec. cbn. lia.
Qed.
End Run.

(** ** Supply *)

Definition supply (db : Accounts) : Z := sum_Z (balance_of db <$> elements (dom db)).

Lemma supply_over (X : gset Z) db : dom db ⊆ X → supply db = sum_Z (balance_of db <$> elements X).
Proof.
  intros Hsub. unfold supply. rewrite (union_difference_L _ _ Hsub).
  rewrite (sum_Z_perm (balance_of db <$> elements (dom db ∪ X ∖ dom db)) (balance_of db <$> elements (dom db) ++ elements (X ∖ dom db)))
    by (rewrite elements_disj_union by set_solver; done).
  rewrite fmap_app, sum_Z_app. cut (sum_Z (balance_of db <$> elements (X ∖ dom db)) = 0); [lia|].
  assert (∀ a, a ∈ elements (X ∖ dom db) → balance_of db a = 0) as Hz.
  { intros a [_ Ha%not_elem_of_dom]%elem_of_elements%elem_of_difference. unfold balance_of. by rewrite Ha. }
  induction (elements (X ∖ dom db)) as [|a l IH]; [done|]. rewrite fmap_cons, sum_Z_cons, (Hz a), IH by set_solver. done.
Qed.

Lemma sum_indicator (l : list Z) t n : NoDup l → t ∈ l → sum_Z ((λ a, if a =? t then n else 0) <$> l) = n.
Proof.
  induction 1 as [|a l Hni Hnd IH]; [by intros ?%elem_of_nil|]. rewrite fmap_cons, sum_Z_cons. intros [->|Hin]%elem_of_cons.
  - rewrite Z.eqb_refl. cut (sum_Z ((λ x, if x =? a then n else 0) <$> l) = 0); [lia|]. clear -Hni.
    induction l as [|x l IH]; [done|]. apply not_elem_of_cons in Hni as [? ?]. rewrite fmap_cons, sum_Z_cons, IH by done.
    rewrite (proj2 (Z.eqb_neq _ _)); done.
  - rewrite IH by done. rewrite (proj2 (Z.eqb_neq _ _)) by (by intros ->). done.
Qed.

Definition change_target (c : Change) : list Z := match c with Increment t _ | Decrement t _ => [t] | Nothing => [] end.

Lemma sum_change (l : list Z) c : NoDup l → change_target c ⊆ l → sum_Z (change_at c <$> l) = net_change c.
Proof.
  intros Hnd Hsub. destruct c as [t n|t n|]; cbn [change_at change_target net_change] in *.
  - apply sum_indicator; [done|set_solver].
  - rewrite (sum_Z_fmap_ext _ (λ a, - (if a =? t then n else 0))) by (intros a; cbn [change_at]; by destruct (a =? t)). rewrite sum_Z_fmap_opp, sum_indicator; [done..|set_solver].
  - by apply sum_Z_zero.
Qed.

Lemma sum_tip (l : list Z) tip payer beneficiary : NoDup l → beneficiary ∈ l → (∀ p, payer = Some p → p ∈ l) →
  sum_Z (tip_at tip payer beneficiary <$> l) = 0.
Proof.
  intros Hnd Hb Hp. destruct payer as [p|]; [|by apply sum_Z_zero]. unfold tip_at.
  rewrite (sum_Z_fmap_ext _ (λ a, (if a =? beneficiary then tip else 0) + - (if a =? p then tip else 0))) by (intros; lia).
  rewrite sum_Z_fmap_add, sum_Z_fmap_opp, !sum_indicator by auto. lia.
Qed.

(** Changes of balances that add up to the packet's. *)
Lemma supply_moved db db' beneficiary p tip : (∀ a, balance_of db' a = balance_of db a + moved beneficiary p tip a) →
  supply db' = supply db + net_change (change_of p beneficiary).
Proof.
  intros Heq. set (c := change_of p beneficiary).
  set (X := dom db ∪ dom db' ∪ list_to_set (beneficiary :: change_target c ++ option_list (payer_of p)) : gset Z).
  rewrite (supply_over X db), (supply_over X db') by set_solver. rewrite (sum_Z_fmap_ext _ _ _ Heq), sum_Z_fmap_add. f_equal.
  unfold moved. rewrite sum_Z_fmap_add. fold c. rewrite sum_tip, sum_change; [lia|apply NoDup_elements|..].
  - intros a Ha. apply elem_of_elements. set_solver.
  - apply NoDup_elements.
  - apply elem_of_elements. set_solver.
  - intros q Hq. apply elem_of_elements. unfold X. rewrite Hq. set_solver.
Qed.

(** ** A block's shadow transactions *)

Section Exec.
  Context `{RevmState} (SHADOW_TX_DESTINATION_ADDR : list byte) (beneficiary : Z).
  Context (transact : Accounts → TxEnv → result EVMError EvmState).

(** A transaction that carries a shadow transaction, with its tip. *)
Definition carries (tx : TxEnv) (s : ShadowTransaction * Z) : Prop :=
  blob_hashes tx = [] ∧ max_fee_per_blob_gas tx = 0 ∧ tx_type_id tx ≠ EIP4844_TX_TYPE_ID ∧ is_Some (tx_kind tx) ∧
  detect_and_decode_from_parts SHADOW_TX_DESTINATION_ADDR (tx_kind tx) (tx_data tx) = Ok (Some s.1) ∧ default 0 (gas_priority_fee tx) = s.2.
Definition shadow_ok (s : ShadowTransaction * Z) : Prop := tip_ok (packet_of s.1) beneficiary s.2 ∧ amount_ok (packet_of s.1) beneficiary.

Lemma transact_shadow db tx s : carries tx s → shadow_ok s →
  transact_raw db SHADOW_TX_DESTINATION_ADDR beneficiary transact tx ∅ = run_shadow_tx db s.1 s.2 beneficiary ∅.
Proof.
  intros (Hb & Hf & Hty & [to Hto] & Hd & Htip) [[_ Hinc] _]. unfold transact_raw, process_shadow_tx. rewrite Hto in *. rewrite Hb, Hf, Hd, Htip.
  rewrite bool_decide_eq_true_2, (proj2 (Z.eqb_neq (tx_type_id tx) _)) by done. cbn [negb orb Z.eqb].
  assert ((match packet_of s.1 with PBlockReward _ => true | _ => false end) && negb (s.2 =? 0) = false) as ->.
  { destruct (packet_of s.1); try done. cbn in *. by rewrite Hinc. }
  rewrite bool_decide_eq_true_2 by done. cbn [negb]. by destruct (run_shadow_tx db s.1 s.2 beneficiary ∅) as [? [| |]].
Qed.

Lemma payable_range db p tip : accounts_ok db → tip_ok p beneficiary tip → amount_ok p beneficiary → payable db beneficiary p tip →
  ∀ a, 0 ≤ balance_of db a + moved beneficiary p tip a < 2 ^ 256.
Proof.
  intros Hdb [Htip Hinc] Hamt [Ht Hc] a. pose proof (Hdb a) as Ha. unfold moved, amount_ok in *.
  destruct (decide (tip = 0)) as [->|Hnz].
  - rewrite tip_at_zero.
    destruct (change_of p beneficiary) as [t n|t n|]; cbn [change_at change_amount change_payable] in *; [| |lia]; destruct (Z.eqb_spec a t) as [->|]; try lia.
    destruct Hc as [_ Hc]. rewrite tip_at_zero in Hc. lia.
  - destruct (payer_of p) as [q|] eqn:Hq; cbn [tip_payable] in Ht.
    + destruct (Ht Hnz) as [_ Hpay]. destruct (change_of p beneficiary) as [t n|t n|] eqn:Ec; cbn [change_at change_amount change_payable] in *; [done| |].
      * pose proof (decrement_payer beneficiary p t n Ec) as Heq. rewrite Hq in Heq. injection Heq as ->. unfold tip_at in *.
        rewrite Z.eqb_refl in Hc. destruct (Z.eqb_spec t beneficiary) as [->|Hne]; [destruct (Z.eqb_spec a beneficiary) as [->|]; lia|].
        specialize (Hpay Hne). destruct (Z.eqb_spec a t) as [->|]; [rewrite (proj2 (Z.eqb_neq t beneficiary)) by done; lia|].
        destruct (Z.eqb_spec a beneficiary) as [->|]; lia.
      * unfold tip_at. destruct (decide (q = beneficiary)) as [->|Hne]; [lia|]. specialize (Hpay Hne).
        destruct (Z.eqb_spec a q) as [->|]; [rewrite (proj2 (Z.eqb_neq q beneficiary)) by done; lia|].
        destruct (Z.eqb_spec a beneficiary) as [->|]; lia.
    + cbn [tip_at]. destruct (change_of p beneficiary) as [t n|t n|] eqn:Ec; cbn [change_at change_amount change_payable] in *; [done| |lia].
      pose proof (decrement_payer beneficiary p t n Ec). congruence.
Qed.

(** The shadow transactions either all execute, moving exactly what they say, or the block is
    rejected as invalid: there is no internal error and no panic. *)
Lemma execute_shadow_txs db txs ss : accounts_ok db → Forall2 carries txs ss → Forall shadow_ok ss →
  (∃ db', execute_txs SHADOW_TX_DESTINATION_ADDR beneficiary transact txs ∅ db = Ok db' ∧ accounts_ok db' ∧
     (∀ a, balance_of db' a = balance_of db a + sum_Z ((λ s, moved beneficiary (packet_of s.1) s.2 a) <$> ss)) ∧
     supply db' = supply db + sum_Z ((λ s, net_change (change_of (packet_of s.1) beneficiary)) <$> ss)) ∨
  (∃ e, execute_txs SHADOW_TX_DESTINATION_ADDR beneficiary transact txs ∅ db = Err (InvalidTx e)).
Proof.
  intros Hdb Hc. revert db Hdb. induction Hc as [|tx s txs ss Hcs _ IH]; intros db Hdb Hok.
  { left. exists db. split_and!; [done|done|intros a; cbn; lia|cbn; lia]. }
  apply Forall_cons in Hok as [[Htip Hamt] Hok]. cbn [execute_txs]. rewrite (transact_shadow db tx s Hcs) by done.
  destruct (run_shadow_tx_spec db Hdb beneficiary s.1 s.2 Htip Hamt) as [(Hpay & st & -> & Hb)|(_ & e & ->)]; [|right; by eexists].
  assert (accounts_ok (db_commit db st)) as Hdb' by (intros a; rewrite Hb; by apply payable_range).
  destruct (IH (db_commit db st) Hdb' Hok) as [(db' & -> & Hok' & Hb' & Hs')|He]; [left|by right].
  exists db'. split_and!; [done|done| |].
  - intros a. rewrite Hb', Hb, fmap_cons, sum_Z_cons. lia.
  - rewrite Hs', (supply_moved db (db_commit db st) beneficiary (packet_of s.1) s.2 Hb), fmap_cons, sum_Z_cons. lia.
Qed.
End Exec.
