(* ===== verification/Packing.v ===== *)
(** Packing: chunks are stored XORed with an entropy chunk that is expensive to compute
    ([crates/packing/src/lib.rs], [crates/c/src/capacity_single.rs]).

    The entropy of a chunk is derived from the miner, the partition and the offset by
    sequential hashing and a second pass over the segments.  Assertions of debug builds are
    not modelled; slices out of range and a division by zero panic. *)

From S2P Require Import TreeHash Prelude.

Definition SHA_HASH_SIZE : nat := 32.

Definition le_bytes (n : nat) (z : Z) : list byte := rev (be_bytes n z).

(** [&l[a..b]]. *)
Definition index_range {E A} (a b : nat) (l : list A) : result E (list A) :=
  if (a <=? b)%nat && (b <=? length l)%nat then Ok (take (b - a) (drop a l)) else Panic.

Definition byte_xor (a b : byte) : byte := byte_of_Z (Z.lxor (Z_of_byte a) (Z_of_byte b)).

Inductive PackingError : Type :=
| DataExceedsEntropy (data entropy : nat).

(** The chunks of [crates/types/src/chunk.rs]. *)
Record PackedChunk : Type := mkPackedChunk {
  pc_data_root : list byte;
  pc_data_size : Z;
  pc_data_path : list byte;
  pc_bytes : list byte;
  pc_packing_address : list byte;
  pc_partition_offset : Z;
  pc_tx_offset : Z;
  pc_partition_hash : list byte;
  pc_packing_iterations : Z
}.
Record UnpackedChunk : Type := mkUnpackedChunk {
  uc_data_root : list byte;
  uc_data_size : Z;
  uc_data_path : list byte;
  uc_bytes : list byte;
  uc_tx_offset : Z
}.

Section Packing.
  Context `{Sha256}.

(** ** Entropy *)

Definition compute_seed_hash (address : list byte) (partition_offset : Z) (hash : list byte) (irys_chain_id : Z)
  : list byte :=
  sha256 (address ++ hash ++ le_bytes 8 irys_chain_id ++ le_bytes 8 partition_offset).

(** Phase 1: [n] segments, each the hash of the one before. *)
Fixpoint sequential_hashing (n : nat) (previous_segment : list byte) : list byte :=
  match n with
  | O => []
  | S n' => let segment := sha256 previous_segment in segment ++ sequential_hashing n' segment
  end.

(** One round of phase 2: segment [i] is replaced by the hash of the one before it and
    itself. *)
Definition rehash_segment (chunk_size hash_count : nat) (chunk : list byte) : result PackingError (list byte) :=
  if (chunk_size / SHA_HASH_SIZE =? 0)%nat then Panic
  else
    let i := (hash_count mod (chunk_size / SHA_HASH_SIZE) * SHA_HASH_SIZE)%nat in
    previous ← (if (i =? 0)%nat then index_range (chunk_size - SHA_HASH_SIZE) (length chunk) chunk
                else index_range (i - SHA_HASH_SIZE) i chunk);
    current ← index_range i (i + SHA_HASH_SIZE) chunk;
    let hash := sha256 (previous ++ current) in
    Ok (take i chunk ++ hash ++ drop (i + SHA_HASH_SIZE) chunk).

(** Phase 2, for the [rounds] that [hash_count] is below the iterations. *)
Fixpoint rehash (rounds chunk_size hash_count : nat) (chunk : list byte) : result PackingError (list byte) :=
  match rounds with
  | O => Ok chunk
  | S rounds' => chunk' ← rehash_segment chunk_size hash_count chunk; rehash rounds' chunk_size (S hash_count) chunk'
  end.

Definition compute_entropy_chunk (mining_address : list byte) (partition_chunk_offset : Z) (partition_hash : list byte)
    (iterations chunk_size : nat) (irys_chain_id : Z) : result PackingError (list byte) :=
  let segments := (chunk_size / SHA_HASH_SIZE)%nat in
  let seed := compute_seed_hash mining_address partition_chunk_offset partition_hash irys_chain_id in
  rehash (iterations - segments) chunk_size segments (sequential_hashing segments seed).

(** ** XOR *)

(** [a[i] ^= b[i]] for every index of [a]. *)
Fixpoint xor_vec_u8_arrays_in_place (a b : list byte) : result PackingError (list byte) :=
  match a, b with
  | [], _ => Ok []
  | x :: a', y :: b' => r ← xor_vec_u8_arrays_in_place a' b'; Ok (byte_xor x y :: r)
  | _ :: _, [] => Panic
  end.

(** The loop of [packing_xor_vec_u8]: the entropy beyond the data stays. *)
Fixpoint xor_prefix (entropy data : list byte) : list byte :=
  match entropy, data with
  | x :: entropy', y :: data' => byte_xor x y :: xor_prefix entropy' data'
  | _, _ => entropy
  end.

Definition packing_xor_vec_u8 (entropy data : list byte) : result PackingError (list byte) :=
  if (length entropy <? length data)%nat then Err (DataExceedsEntropy (length data) (length entropy))
  else Ok (xor_prefix entropy data).

(** ** Pack and unpack *)

Definition unpack_with_entropy (packed_chunk : PackedChunk) (entropy : list byte) (chunk_size : nat)
  : result PackingError (list byte) :=
  unpacked_data ← packing_xor_vec_u8 entropy (pc_bytes packed_chunk);
  if (chunk_size =? 0)%nat then Panic
  else
    let data_size := pc_data_size packed_chunk in
    let num_chunks_in_tx := div_ceil data_size (Z.of_nat chunk_size) in
    if num_chunks_in_tx =? 0 then Ok unpacked_data
    else if pc_tx_offset packed_chunk =? num_chunks_in_tx - 1 then
      let trailing_bytes := data_size mod Z.of_nat chunk_size in
      Ok (if trailing_bytes =? 0 then unpacked_data else take (Z.to_nat trailing_bytes) unpacked_data)
    else Ok unpacked_data.

Definition unpack (packed_chunk : PackedChunk) (entropy_packing_iterations chunk_size : nat) (irys_chain_id : Z)
  : result PackingError UnpackedChunk :=
  entropy ← compute_entropy_chunk (pc_packing_address packed_chunk) (pc_partition_offset packed_chunk)
              (pc_partition_hash packed_chunk) entropy_packing_iterations chunk_size irys_chain_id;
  unpacked_data ← unpack_with_entropy packed_chunk entropy chunk_size;
  Ok (mkUnpackedChunk (pc_data_root packed_chunk) (pc_data_size packed_chunk) (pc_data_path packed_chunk)
        unpacked_data (pc_tx_offset packed_chunk)).

(** The loop of [capacity_pack_range_with_data], from position [pos]. *)
Fixpoint pack_from (pos : Z) (data : list (list byte)) (mining_address : list byte) (chunk_offset : Z)
    (partition_hash : list byte) (chunk_size iterations : nat) (irys_chain_id : Z)
  : result PackingError (list (list byte)) :=
  match data with
  | [] => Ok []
  | chunk :: rest =>
      offset ← expect (checked_add 64 chunk_offset pos);
      entropy_chunk ← compute_entropy_chunk mining_address offset partition_hash iterations chunk_size irys_chain_id;
      packed ← xor_vec_u8_arrays_in_place chunk entropy_chunk;
      r ← pack_from (pos + 1) rest mining_address chunk_offset partition_hash chunk_size iterations irys_chain_id;
      Ok (packed :: r)
  end.

Definition capacity_pack_range_with_data (data : list (list byte)) (mining_address : list byte) (chunk_offset : Z)
    (partition_hash : list byte) (chunk_size entropy_packing_iterations : nat) (irys_chain_id : Z)
  : result PackingError (list (list byte)) :=
  pack_from 0 data mining_address chunk_offset partition_hash chunk_size entropy_packing_iterations irys_chain_id.
End Packing.

(** * Unpacking undoes packing, on both write paths: the XOR of the storage module into a full
    chunk of entropy, and the in-place XOR of a range of chunks. *)

(** ** XOR of bytes *)

Lemma lxor_byte_range x y : 0 ≤ x < 256 → 0 ≤ y < 256 → 0 ≤ Z.lxor x y < 256.
Proof.
  intros Hx Hy. split; [apply Z.lxor_nonneg; lia|].
  assert (Hl : ∀ z, 0 ≤ z < 256 → Z.shiftr z 8 = 0) by (intros z Hz; rewrite Z.shiftr_div_pow2 by lia; by apply Z.div_small).
  assert (Z.shiftr (Z.lxor x y) 8 = 0) as Hs by (by rewrite Z.shiftr_lxor, !Hl).
  rewrite Z.shiftr_div_pow2 in Hs by lia. apply Z.div_small_iff in Hs; [|lia]. lia.
Qed.

Lemma byte_xor_twice a b : byte_xor a (byte_xor a b) = b.
Proof.
  unfold byte_xor. pose proof (Z_of_byte_range a). pose proof (Z_of_byte_range b).
  rewrite Z_of_byte_of_Z, (Z.mod_small (Z.lxor _ _)) by (by apply lxor_byte_range).
  rewrite <- Z.lxor_assoc, Z.lxor_nilpotent, Z.lxor_0_l. apply byte_of_Z_of_byte.
Qed.

Lemma byte_xor_comm a b : byte_xor a b = byte_xor b a.
Proof. unfold byte_xor. by rewrite Z.lxor_comm. Qed.

Lemma length_xor_prefix e d : length (xor_prefix e d) = length e.
Proof. revert d. induction e as [|x e IH]; intros [|y d]; cbn; auto. Qed.

(** The data comes back as a prefix, from the full chunk or from its first bytes. *)
Lemma xor_prefix_twice e d k :
  (length d ≤ k)%nat → (length d ≤ length e)%nat →
  take (length d) (xor_prefix e (take k (xor_prefix e d))) = d.
Proof.
  revert d k. induction e as [|x e IH]; intros [|y d] k Hk He; cbn [length] in *; [done|lia|done|].
  destruct k as [|k]; [lia|]. cbn. rewrite byte_xor_twice, IH by lia. done.
Qed.

Lemma xor_in_place_eq a b : (length a ≤ length b)%nat → xor_vec_u8_arrays_in_place a b = Ok (take (length a) (xor_prefix b a)).
Proof.
  revert b. induction a as [|x a IH]; intros [|y b] Hlen; cbn in *; [done|done|lia|].
  rewrite IH by lia. cbn. by rewrite byte_xor_comm.
Qed.

(** ** Entropy *)

Section Entropy.
  Context `{Sha256}.

Lemma length_sequential_hashing n seed : length (sequential_hashing n seed) = (n * SHA_HASH_SIZE)%nat.
Proof.
  revert seed. induction n as [|n IH]; intros seed; [done|]. cbn [sequential_hashing]. rewrite length_app, IH, sha256_length.
  unfold SHA_HASH_SIZE. lia.
Qed.

Lemma index_range_ok {E A} a b (l : list A) : (a ≤ b ≤ length l)%nat → index_range (E:=E) a b l = Ok (take (b - a) (drop a l)).
Proof. intros [Ha Hb]. unfold index_range. by rewrite (proj2 (Nat.leb_le _ _) Ha), (proj2 (Nat.leb_le _ _) Hb). Qed.

Context (segments : nat) (Hseg : (0 < segments)%nat).
Notation chunk_size := (segments * SHA_HASH_SIZE)%nat.

Lemma rehash_segment_ok hash_count chunk :
  length chunk = chunk_size → ∃ chunk', rehash_segment chunk_size hash_count chunk = Ok chunk' ∧ length chunk' = chunk_size.
Proof.
  intros Hlen. unfold rehash_segment. rewrite Nat.div_mul by done. destruct (Nat.eqb_spec segments 0); [lia|].
  pose proof (Nat.mod_upper_bound hash_count segments ltac:(lia)) as Hmod. set (j := (hash_count mod segments)%nat) in *.
  assert (Hprev : ∃ p, (if (j * SHA_HASH_SIZE =? 0)%nat then index_range (E:=PackingError) (chunk_size - SHA_HASH_SIZE) (length chunk) chunk
    else index_range (j * SHA_HASH_SIZE - SHA_HASH_SIZE) (j * SHA_HASH_SIZE) chunk) = Ok p).
  { destruct (Nat.eqb_spec (j * SHA_HASH_SIZE) 0); rewrite index_range_ok; eauto; unfold SHA_HASH_SIZE in *; lia. }
  destruct Hprev as [p Hp]. cbv zeta. rewrite Hp. cbn [mbind result_bind].
  rewrite index_range_ok by (unfold SHA_HASH_SIZE in *; lia). cbn [mbind result_bind]. eexists. split; [done|].
  rewrite !length_app, length_take, length_drop, sha256_length. unfold SHA_HASH_SIZE in *. lia.
Qed.

Lemma rehash_ok rounds hash_count chunk :
  length chunk = chunk_size → ∃ chunk', rehash rounds chunk_size hash_count chunk = Ok chunk' ∧ length chunk' = chunk_size.
Proof.
  revert hash_count chunk. induction rounds as [|rounds IH]; intros hash_count chunk Hlen; [eauto|]. cbn [rehash].
  destruct (rehash_segment_ok hash_count chunk Hlen) as (c1 & -> & Hc1). cbn [mbind result_bind]. by apply IH.
Qed.

(** The entropy of a chunk is always computed, and as long as the chunk. *)
Lemma compute_entropy_chunk_ok address offset hash iterations chain :
  ∃ e, compute_entropy_chunk address offset hash iterations chunk_size chain = Ok e ∧ length e = chunk_size.
Proof.
  unfold compute_entropy_chunk. rewrite Nat.div_mul by done. apply rehash_ok, length_sequential_hashing.
Qed.

(** ** Round trips *)

(** The length of chunk [tx_offset] of a transaction with [data_size] bytes. *)
Definition expected_len (data_size tx_offset : Z) : Z :=
  if (tx_offset =? div_ceil data_size (Z.of_nat chunk_size) - 1) && negb (data_size mod Z.of_nat chunk_size =? 0)
  then data_size mod Z.of_nat chunk_size else Z.of_nat chunk_size.

Definition chunk_of_tx (u : UnpackedChunk) : Prop :=
  0 < uc_data_size u ∧ Z.of_nat (length (uc_bytes u)) = expected_len (uc_data_size u) (uc_tx_offset u).

Definition packed_chunk (u : UnpackedChunk) (bytes address : list byte) (offset : Z) (hash : list byte) (iterations : Z) : PackedChunk :=
  mkPackedChunk (uc_data_root u) (uc_data_size u) (uc_data_path u) bytes address offset (uc_tx_offset u) hash iterations.

Lemma expected_len_bound d t : 0 < d → 0 < expected_len d t ≤ Z.of_nat chunk_size.
Proof.
  intros Hd. unfold expected_len. assert (0 < Z.of_nat chunk_size) by (unfold SHA_HASH_SIZE; lia).
  pose proof (Z.mod_pos_bound d (Z.of_nat chunk_size) ltac:(lia)).
  destruct (_ =? div_ceil _ _ - 1); cbn [andb]; [|lia]. destruct (Z.eqb_spec (d mod Z.of_nat chunk_size) 0); cbn; lia.
Qed.

Lemma unpack_run u e k address offset hash iterations n chain :
  chunk_of_tx u → compute_entropy_chunk address offset hash n chunk_size chain = Ok e → length e = chunk_size →
  (length (uc_bytes u) ≤ k)%nat →
  unpack (packed_chunk u (take k (xor_prefix e (uc_bytes u))) address offset hash iterations) n chunk_size chain = Ok u.
Proof.
  intros [Hd Hlen] He Hle Hk. pose proof (expected_len_bound (uc_data_size u) (uc_tx_offset u) Hd) as Hb.
  unfold unpack. cbn [packed_chunk pc_packing_address pc_partition_offset pc_partition_hash]. rewrite He. cbn [mbind result_bind].
  unfold unpack_with_entropy, packing_xor_vec_u8. cbn [packed_chunk pc_bytes pc_data_size pc_tx_offset pc_data_root pc_data_path].
  rewrite (proj2 (Nat.ltb_ge _ _)) by (rewrite length_take, length_xor_prefix; lia). cbn [mbind result_bind].
  set (r := xor_prefix e (take k _)). assert (Hr : take (length (uc_bytes u)) r = uc_bytes u) by (apply xor_prefix_twice; lia).
  assert (Hlr : length r = chunk_size) by (unfold r; by rewrite length_xor_prefix).
  destruct (Nat.eqb_spec chunk_size 0); [unfold SHA_HASH_SIZE in *; lia|].
  assert (Hfull : Z.of_nat (length (uc_bytes u)) = Z.of_nat chunk_size → r = uc_bytes u).
  { intros Heq. by rewrite take_ge in Hr by lia. }
  assert (Hu : ∀ b, b = uc_bytes u → mkUnpackedChunk (uc_data_root u) (uc_data_size u) (uc_data_path u) b (uc_tx_offset u) = u)
    by (intros b ->; by destruct u).
  unfold expected_len in Hlen. cbv zeta. destruct (Z.eqb_spec (div_ceil (uc_data_size u) (Z.of_nat chunk_size)) 0) as [Hz|_].
  { exfalso. unfold div_ceil in Hz. apply Z.div_small_iff in Hz; lia. }
  destruct (_ =? div_ceil _ _ - 1); cbn [andb mbind result_bind] in *; [|f_equal; by apply Hu, Hfull].
  destruct (Z.eqb_spec (uc_data_size u mod Z.of_nat chunk_size) 0); cbn [negb mbind result_bind] in *;
    f_equal; apply Hu; [by apply Hfull|]. by rewrite <- Hlen, Nat2Z.id.
Qed.

Lemma pack_from_run us pos address offset hash n chain :
  Forall chunk_of_tx us → 0 ≤ pos → 0 ≤ offset → offset + pos + Z.of_nat (length us) ≤ 2 ^ 64 →
  ∃ packed, pack_from pos (uc_bytes <$> us) address offset hash chunk_size n chain = Ok packed ∧
    length packed = length us ∧
    ∀ i u bytes, us !! i = Some u → packed !! i = Some bytes → length bytes = length (uc_bytes u) ∧
      ∀ iterations, unpack (packed_chunk u bytes address (offset + pos + Z.of_nat i) hash iterations) n chunk_size chain = Ok u.
Proof.
  revert pos. induction us as [|u us IH]; intros pos Hall Hpos Hoff Hfit; [by exists []|].
  apply Forall_cons in Hall as [Hu Hus]. rewrite fmap_cons. cbn [pack_from length] in *. unfold checked_add.
  rewrite (proj2 (Z.ltb_lt _ _)) by lia. cbn [expect mbind result_bind].
  destruct (compute_entropy_chunk_ok address (offset + pos) hash n chain) as (e & He & Hle). rewrite He. cbn [mbind result_bind].
  pose proof (expected_len_bound _ (uc_tx_offset u) (proj1 Hu)) as Hb. destruct Hu as [Hd Hlen].
  rewrite xor_in_place_eq by lia. cbn [mbind result_bind].
  destruct (IH (pos + 1) Hus) as (packed & Hrun & Hlp & Hback); [lia..|]. rewrite Hrun. cbn [mbind result_bind].
  eexists. split; [done|]. split; [by cbn; f_equal|]. intros [|i] u' bytes.
  - intros [= <-] [= <-]. rewrite length_take, length_xor_prefix. split; [lia|]. intros iterations. rewrite Z.add_0_r.
    by apply unpack_run.
  - intros Hu' Hb'. destruct (Hback i u' bytes Hu' Hb') as [Hlb Hun]. split; [done|]. intros iterations.
    replace (offset + pos + Z.of_nat (S i)) with (offset + (pos + 1) + Z.of_nat i) by lia. apply Hun.
Qed.

(** A chunk of a transaction survives packing: stored as a full chunk of entropy with the data
    XORed in, or packed in place with the other chunks of a range, it unpacks to itself. *)
Theorem unpack_pack us address offset hash n chain :
  Forall chunk_of_tx us → 0 ≤ offset → offset + Z.of_nat (length us) ≤ 2 ^ 64 →
  (∃ packed, capacity_pack_range_with_data (uc_bytes <$> us) address offset hash chunk_size n chain = Ok packed ∧
     length packed = length us ∧
     ∀ i u bytes iterations, us !! i = Some u → packed !! i = Some bytes →
       unpack (packed_chunk u bytes address (offset + Z.of_nat i) hash iterations) n chunk_size chain = Ok u) ∧
  ∀ u, u ∈ us → ∃ entropy packed,
    compute_entropy_chunk address offset hash n chunk_size chain = Ok entropy ∧
    packing_xor_vec_u8 entropy (uc_bytes u) = Ok packed ∧ length packed = chunk_size ∧
    ∀ iterations, unpack (packed_chunk u packed address offset hash iterations) n chunk_size chain = Ok u.
Proof.
  intros Hall Hoff Hfit. split.
  - destruct (pack_from_run us 0 address offset hash n chain) as (packed & Hrun & Hlen & Hback); [done|lia..|].
    exists packed. split_and!; [done..|]. intros i u bytes iterations Hu Hb. destruct (Hback i u bytes Hu Hb) as [_ Hun].
    specialize (Hun iterations). by rewrite Z.add_0_r in Hun.
  - intros u Hu. rewrite Forall_forall in Hall. specialize (Hall u Hu).
    pose proof (expected_len_bound _ (uc_tx_offset u) (proj1 Hall)) as Hb. pose proof (proj2 Hall) as Hlen.
    destruct (compute_entropy_chunk_ok address offset hash n chain) as (e & He & Hle). eexists e, _.
    unfold packing_xor_vec_u8. rewrite (proj2 (Nat.ltb_ge _ _)) by lia. split_and!; [done|done|by rewrite length_xor_prefix|].
    intros iterations. rewrite <- (take_ge (xor_prefix e (uc_bytes u)) chunk_size) by (rewrite length_xor_prefix; lia).
    apply unpack_run; [done..|]. lia.
Qed.
End Entropy.

(** ** Witness *)

Module PackingExample.

(** A stand-in hash with 32-byte digests: a polynomial checksum. *)
Definition toy_digest (m : list byte) : list byte :=
  be_bytes 32 (foldl (fun acc x => (acc * 257 + Z_of_byte x + 1) mod (2 ^ 255 - 19)) 7 m).

#[local] Instance toy_sha256 : Sha256 :=
  {| sha256 := toy_digest; sha256_length m := length_be_bytes 32 _ |}.

(** Seventy bytes in chunks of two segments, packed with five hashes. *)
Definition data : list byte := replicate 64 x2a ++ [x01; x02; x03; x04; x05; x06].
Definition chunks : list UnpackedChunk :=
  [mkUnpackedChunk (replicate 32 x01) 70 [] (take 64 data) 0; mkUnpackedChunk (replicate 32 x01) 70 [] (drop 64 data) 1].

Lemma unpack_pack_witness :
  (∃ packed, capacity_pack_range_with_data (uc_bytes <$> chunks) (replicate 20 x11) 9 (replicate 32 x22) 64 5 1270 = Ok packed ∧
     length packed = 2%nat ∧
     ∀ i u bytes iterations, chunks !! i = Some u → packed !! i = Some bytes →
       unpack (packed_chunk u bytes (replicate 20 x11) (9 + Z.of_nat i) (replicate 32 x22) iterations) 5 64 1270 = Ok u) ∧
  ∀ u, u ∈ chunks → ∃ entropy packed,
    compute_entropy_chunk (replicate 20 x11) 9 (replicate 32 x22) 5 64 1270 = Ok entropy ∧
    packing_xor_vec_u8 entropy (uc_bytes u) = Ok packed ∧ length packed = 64%nat ∧
    ∀ iterations, unpack (packed_chunk u packed (replicate 20 x11) 9 (replicate 32 x22) iterations) 5 64 1270 = Ok u.
Proof.
  apply (unpack_pack 2 ltac:(lia) chunks); [|lia|cbn; lia]. unfold chunks.
  repeat constructor; vm_compute; done.
Defined.
End PackingExample.
