(* ===== verification/Merkle.v ===== *)
(** The Merkle tree over byte ranges ([crates/types/src/merkle.rs]): generation of leaves and
    roots, resolution of proofs, and the validation of a proof at a byte position.  The same
    tree commits to the chunks of an upload (its [data_root]) and to the transactions of a
    ledger in a block (its [tx_root]).  [build_layer] is that of [RefTree]. *)

From S2P Require Import RefTree TreeHash StateErr Codec Packing Prelude.

(** [eyre::Error]: one constructor per message. *)
Inductive MerkleError : Type :=
| ProofTooShort
| MisalignedBranches
| NotASlice (e : IoError)
| InvalidBranchProof
| LeafMismatch
| RootMismatch
| TargetOutOfBounds
| NoDataNode
| BoundariesNotIncreasing (min_byte_range max_byte_range : Z)
| DataSizeZero
| ChunkSizeZero
| ChunkRangeOverflow
| OffsetPastDataSize
| RangeMismatch
| BoundaryExceedsU64
| ChunkLengthMismatch
| ChunkHashMismatch
| LastChunkEmpty
| SourceError.

Definition NOTE_SIZE : nat := 32.
Definition LEAF_PROOF_LEN : nat := HASH_SIZE + NOTE_SIZE.
Definition BRANCH_PROOF_LEN : nat := HASH_SIZE * 2 + NOTE_SIZE.

(** A leaf (a chunk of data) or a branch. *)
Inductive Node : Type := mkNode {
  n_id : list byte;
  n_data_hash : option (list byte);
  n_min_byte_range : Z;
  n_max_byte_range : Z;
  n_left_child : option Node;
  n_right_child : option Node
}.

Record Proof_ : Type := mkProof { last_byte_index : Z; proof : list byte }.

Record LeafProof : Type := mkLeafProof {
  lp_data_hash : list byte; lp_notepad : list byte; lp_offset : list byte }.

Record BranchProof : Type := mkBranchProof {
  bp_left_id : list byte; bp_right_id : list byte; bp_notepad : list byte; bp_offset : list byte }.

Record ValidatePathResult : Type := mkPathResult {
  leaf_hash : list byte;
  min_byte_range : Z;
  max_byte_range : Z;
  is_rightmost_chunk : bool
}.

Record IngressMerkleLeaf : Type := mkIngressLeaf { il_id : list byte; il_max_byte_range : Z }.
Record DataRootLeaf : Type := mkDataRootLeaf { dr_data_root : list byte; dr_tx_size : Z }.

(** [to_note_vec] of a [usize]: 32 bytes, big-endian. *)
Definition to_note_vec (n : Z) : list byte := replicate (NOTE_SIZE - 8) x00 ++ be_bytes 8 n.

#[global] Arguments to_note_vec : simpl never.

(** ** Proof nodes *)

(** [borsh::try_from_slice]: every byte of the slice is read. *)
Definition try_from_slice {A} (read : Reader A) (slice : list byte) : result MerkleError A :=
  match read slice with
  | (rest, Ok a) => if bool_decide (rest = []) then Ok a else Err (NotASlice (Invalid TrailingBytes))
  | (_, Err e) => Err (NotASlice e)
  | (_, Panic) => Panic
  end.

Definition read_leaf_proof : Reader LeafProof :=
  data_hash ← read_exact HASH_SIZE;
  notepad ← read_exact (NOTE_SIZE - 8);
  offset ← read_exact 8;
  mret (mkLeafProof data_hash notepad offset).

Definition read_branch_proof : Reader BranchProof :=
  left_id ← read_exact HASH_SIZE;
  right_id ← read_exact HASH_SIZE;
  notepad ← read_exact (NOTE_SIZE - 8);
  offset ← read_exact 8;
  mret (mkBranchProof left_id right_id notepad offset).

Definition leaf_offset (p : LeafProof) : Z := of_be_bytes (lp_offset p).
Definition branch_offset (p : BranchProof) : Z := of_be_bytes (bp_offset p).

(** [ensure_proof_layout]: the length of the branches that precede the leaf. *)
Definition ensure_proof_layout (path_buff : list byte) : result MerkleError nat :=
  branches_len ← ok_or (if (length path_buff <? LEAF_PROOF_LEN)%nat then None
                        else Some (length path_buff - LEAF_PROOF_LEN)%nat) ProofTooShort;
  _ ← guard_err (negb (branches_len mod BRANCH_PROOF_LEN =? 0)%nat) MisalignedBranches;
  Ok branches_len.

Definition has_non_zero_notepad (path_buff : list byte) : bool :=
  match ensure_proof_layout path_buff with
  | Ok branches_len =>
      let branches := take branches_len path_buff in
      let leaf := drop branches_len path_buff in
      let notepad_of len (p : list byte) := take (NOTE_SIZE - 8) (drop (len - NOTE_SIZE) p) in
      existsb (existsb (λ b, negb (bool_decide (b = x00))))
        ((notepad_of BRANCH_PROOF_LEN <$> chunks BRANCH_PROOF_LEN branches)
           ++ [notepad_of LEAF_PROOF_LEN leaf])
  | _ => false
  end.

Definition get_leaf_proof (path_buff : list byte) : result MerkleError LeafProof :=
  _ ← guard_err (length path_buff <? HASH_SIZE + NOTE_SIZE)%nat ProofTooShort;
  try_from_slice read_leaf_proof (drop (length path_buff - (HASH_SIZE + NOTE_SIZE)) path_buff).

Section Merkle.
  Context `{Sha256}.

Definition hash_sha256 (message : list byte) : list byte := sha256 message.

Definition hash_ingress_sha256 (message address : list byte) : list byte :=
  sha256 (message ++ address).

(** The hash of the concatenated hashes of the messages. *)
Definition hash_all_sha256 (messages : list (list byte)) : list byte :=
  hash_sha256 (messages ≫= hash_sha256).

#[global] Arguments hash_all_sha256 : simpl never.

(** ** Validation *)

(** The locals of the loop of [validate_path]. *)
Record Walk : Type := mkWalk {
  w_min_byte_range : Z; w_expected_path_hash : list byte; w_is_rightmost_chunk : bool }.

Definition validate_branch (target_byte_position : Z) (w : Walk) (branch_proof : BranchProof)
  : result MerkleError Walk :=
  let path_hash := hash_all_sha256 [bp_left_id branch_proof; bp_right_id branch_proof;
                                    to_note_vec (branch_offset branch_proof)] in
  _ ← guard_err (negb (bool_decide (path_hash = w_expected_path_hash w))) InvalidBranchProof;
  let pivot := branch_offset branch_proof in
  let is_right_of_pivot := pivot <=? target_byte_position in
  Ok (mkWalk (if is_right_of_pivot then pivot else w_min_byte_range w)
             (if is_right_of_pivot then bp_right_id branch_proof else bp_left_id branch_proof)
             (if is_right_of_pivot then w_is_rightmost_chunk w else false)).

Fixpoint validate_branches (target_byte_position : Z) (w : Walk) (branch_proofs : list BranchProof)
  : result MerkleError Walk :=
  match branch_proofs with
  | [] => Ok w
  | b :: rest => w' ← validate_branch target_byte_position w b;
                 validate_branches target_byte_position w' rest
  end.

Definition validate_leaf (target_byte_position : Z) (w : Walk) (leaf_proof : LeafProof)
  : result MerkleError ValidatePathResult :=
  let leaf_node_id := hash_all_sha256 [lp_data_hash leaf_proof; to_note_vec (leaf_offset leaf_proof)] in
  _ ← guard_err (negb (bool_decide (leaf_node_id = w_expected_path_hash w))) LeafMismatch;
  let max_byte_range := leaf_offset leaf_proof in
  _ ← guard_err (negb ((w_min_byte_range w <=? target_byte_position)
                       && (target_byte_position <=? max_byte_range))) TargetOutOfBounds;
  Ok (mkPathResult (lp_data_hash leaf_proof) (w_min_byte_range w) max_byte_range
                   (w_is_rightmost_chunk w)).

(** The branches, root first, and the leaf of a proof buffer. *)
Definition parse_path (path_buff : list byte) : result MerkleError (list BranchProof * LeafProof) :=
  branches_len ← ensure_proof_layout path_buff;
  let branches := take branches_len path_buff in
  let leaf := drop branches_len path_buff in
  branch_proofs ← mapM (try_from_slice read_branch_proof) (chunks BRANCH_PROOF_LEN branches);
  leaf_proof ← try_from_slice read_leaf_proof leaf;
  Ok (branch_proofs, leaf_proof).

Definition validate_path (root_hash path_buff : list byte) (target_byte_position : Z)
  : result MerkleError ValidatePathResult :=
  p ← parse_path path_buff;
  w ← validate_branches target_byte_position (mkWalk 0 root_hash true) p.1;
  validate_leaf target_byte_position w p.2.

(** The branches of [validate_chunk], which descends by the end of the chunk. *)
Fixpoint chunk_branches (max_byte_range : Z) (root_id : list byte) (rightmost : bool)
    (branch_proofs : list BranchProof) : result MerkleError (list byte * bool) :=
  match branch_proofs with
  | [] => Ok (root_id, rightmost)
  | b :: rest =>
      let id := hash_all_sha256 [bp_left_id b; bp_right_id b; to_note_vec (branch_offset b)] in
      _ ← guard_err (negb (bool_decide (id = root_id))) InvalidBranchProof;
      if branch_offset b <? max_byte_range
      then chunk_branches max_byte_range (bp_right_id b) rightmost rest
      else chunk_branches max_byte_range (bp_left_id b) false rest
  end.

Definition validate_chunk (root_id : list byte) (chunk_node : Node) (pf : Proof_)
  : result MerkleError (bool * Z) :=
  match n_data_hash chunk_node with
  | None => Panic
  | Some data_hash =>
      let max_byte_range := n_max_byte_range chunk_node in
      _ ← guard_err (length (proof pf) <? HASH_SIZE + NOTE_SIZE)%nat ProofTooShort;
      let split := (length (proof pf) - HASH_SIZE - NOTE_SIZE)%nat in
      branch_proofs ← mapM (try_from_slice read_branch_proof)
                        (chunks (HASH_SIZE * 2 + NOTE_SIZE) (take split (proof pf)));
      leaf_proof ← try_from_slice read_leaf_proof (drop split (proof pf));
      w ← chunk_branches max_byte_range root_id true branch_proofs;
      _ ← guard_err (negb (bool_decide (data_hash = lp_data_hash leaf_proof))) LeafMismatch;
      let id := hash_all_sha256 [data_hash; to_note_vec max_byte_range] in
      _ ← guard_err (negb (bool_decide (id = w.1))) RootMismatch;
      Ok (w.2, max_byte_range)
  end.

(** ** Ranges of chunks *)

Definition expected_chunk_byte_range (tx_offset data_size chunk_size : Z) : result MerkleError (Z * Z) :=
  _ ← guard_err (negb (0 <? data_size)) DataSizeZero;
  _ ← guard_err (negb (0 <? chunk_size)) ChunkSizeZero;
  min ← ok_or (checked_mul 64 tx_offset chunk_size) ChunkRangeOverflow;
  _ ← guard_err (negb (min <? data_size)) OffsetPastDataSize;
  end_ ← ok_or (checked_add 64 min chunk_size) ChunkRangeOverflow;
  Ok (min, Z.min end_ data_size).

Definition validate_path_byte_range (path : ValidatePathResult) (expected : Z * Z) : result MerkleError () :=
  _ ← guard_err (negb (fits 64 (min_byte_range path))) BoundaryExceedsU64;
  _ ← guard_err (negb (fits 64 (max_byte_range path))) BoundaryExceedsU64;
  guard_err (negb (bool_decide ((min_byte_range path, max_byte_range path) = expected))) RangeMismatch.

Definition validate_unpacked_chunk (chunk : UnpackedChunk) (chunk_size : Z) : result MerkleError () :=
  range ← expected_chunk_byte_range (uc_tx_offset chunk) (uc_data_size chunk) chunk_size;
  let '(min_byte, max_byte) := (range : Z * Z) in
  target ← expect (checked_sub max_byte 1);
  path ← validate_path (uc_data_root chunk) (uc_data_path chunk) target;
  let chunk_len := Z.of_nat (length (uc_bytes chunk)) in
  expected_len ← expect (checked_sub max_byte min_byte);
  _ ← guard_err (negb (chunk_len =? expected_len)) ChunkLengthMismatch;
  _ ← validate_path_byte_range path (min_byte, max_byte);
  guard_err (negb (bool_decide (leaf_hash path = hash_sha256 (uc_bytes chunk)))) ChunkHashMismatch.

(** ** Leaves *)

Definition leaf_node (data_hash : list byte) (min max : Z) : Node :=
  mkNode (hash_all_sha256 [data_hash; to_note_vec max]) (Some data_hash) min max None None.

(** The loop of [generate_leaves_from_chunks] from [min_byte_range]. *)
Fixpoint leaves_from_chunks (min : Z) (chunks : list (result MerkleError (list byte)))
  : result MerkleError (list Node) :=
  match chunks with
  | [] => Ok []
  | chunk :: rest =>
      chunk ← chunk;
      let data_hash := hash_sha256 chunk in
      max ← expect (checked_add 64 min (Z.of_nat (length chunk)));
      leaves ← leaves_from_chunks max rest;
      Ok (leaf_node data_hash min max :: leaves)
  end.
Definition generate_leaves_from_chunks (chunks : list (result MerkleError (list byte)))
  : result MerkleError (list Node) := leaves_from_chunks 0 chunks.

Definition generate_ingress_data_hash (chunk address : list byte) : list byte :=
  hash_ingress_sha256 chunk address.

Definition generate_ingress_leaf_from_data_hash (ingress_data_hash : list byte) (max : Z)
  : IngressMerkleLeaf :=
  mkIngressLeaf (hash_all_sha256 [ingress_data_hash; to_note_vec max]) max.

(** The loop of [generate_ingress_leaves]: ingress leaves and, when asked for, regular ones. *)
Fixpoint ingress_leaves_from (min : Z) (chunks : list (result MerkleError (list byte)))
    (address : list byte) (and_regular : bool) : result MerkleError (list Node * list Node) :=
  match chunks with
  | [] => Ok ([], [])
  | chunk :: rest =>
      bytes ← chunk;
      max ← expect (checked_add 64 min (Z.of_nat (length bytes)));
      let ingress_data_hash := generate_ingress_data_hash bytes address in
      let compact_leaf := generate_ingress_leaf_from_data_hash ingress_data_hash max in
      let leaf := mkNode (il_id compact_leaf) (Some ingress_data_hash) min max None None in
      let regular := if and_regular then [leaf_node (hash_sha256 bytes) min max] else [] in
      r ← ingress_leaves_from max rest address and_regular;
      Ok (leaf :: r.1, regular ++ r.2)
  end.
Definition generate_ingress_leaves (chunks : list (result MerkleError (list byte))) (address : list byte)
    (and_regular : bool) : result MerkleError (list Node * option (list Node)) :=
  r ← ingress_leaves_from 0 chunks address and_regular;
  Ok (r.1, if and_regular then Some r.2 else None).

Fixpoint leaves_from_data_roots (min : Z) (data_roots : list DataRootLeaf) : result MerkleError (list Node) :=
  match data_roots with
  | [] => Ok []
  | data_root :: rest =>
      max ← expect (checked_add 64 min (dr_tx_size data_root));
      leaves ← leaves_from_data_roots max rest;
      Ok (leaf_node (dr_data_root data_root) min max :: leaves)
  end.
Definition generate_leaves_from_data_roots (data_roots : list DataRootLeaf) : result MerkleError (list Node) :=
  leaves_from_data_roots 0 data_roots.

(** ** Roots *)

Definition hash_branch (left right : Node) : Node :=
  mkNode (hash_all_sha256 [n_id left; n_id right; to_note_vec (n_max_byte_range left)]) None
         (n_min_byte_range left) (n_max_byte_range right) (Some left) (Some right).

(** [while nodes.len() > 1]; a layer has fewer nodes than the one before. *)
Fixpoint reduce_layers (fuel : nat) (nodes : list Node) : list Node :=
  match fuel with
  | O => nodes
  | S fuel' => if (1 <? length nodes)%nat then reduce_layers fuel' (build_layer hash_branch nodes) else nodes
  end.

Definition generate_data_root (nodes : list Node) : result MerkleError Node :=
  ok_or (last (reduce_layers (length nodes) nodes)) NoDataNode.

(** The nodes of compact leaves, which must end at increasing positions. *)
Fixpoint compact_nodes (min : Z) (leaves : list IngressMerkleLeaf) : result MerkleError (list Node) :=
  match leaves with
  | [] => Ok []
  | l :: rest =>
      let max := il_max_byte_range l in
      _ ← guard_err (max <=? min) (BoundariesNotIncreasing min max);
      nodes ← compact_nodes max rest;
      Ok (mkNode (il_id l) None min max None None :: nodes)
  end.
Definition generate_ingress_root_from_leaves (leaves : list IngressMerkleLeaf) : result MerkleError Node :=
  nodes ← compact_nodes 0 leaves;
  generate_data_root nodes.

(** ** Proofs *)

Fixpoint resolve_proofs_from (node : Node) (prefix : list byte) : result MerkleError (list Proof_) :=
  match n_data_hash node, n_left_child node, n_right_child node with
  | Some data_hash, None, None =>
      last_index ← expect (checked_sub (n_max_byte_range node) 1);
      Ok [mkProof last_index (prefix ++ data_hash ++ to_note_vec (n_max_byte_range node))]
  | None, Some left_child, Some right_child =>
      let prefix' := prefix ++ n_id left_child ++ n_id right_child
                       ++ to_note_vec (n_max_byte_range left_child) in
      left_proof ← resolve_proofs_from left_child prefix';
      right_proof ← resolve_proofs_from right_child prefix';
      Ok (left_proof ++ right_proof)
  | _, _, _ => Panic
  end.
Definition resolve_proofs (node : Node) (pf : option Proof_) : result MerkleError (list Proof_) :=
  resolve_proofs_from node (match pf with Some pf => proof pf | None => [] end).
End Merkle.
