(* ===== verification/MerkleFacts.v ===== *)
(** Facts on the byte-range Merkle tree: the leaves under a node, where a byte position leads,
    and that validation follows the tree it was built from or exhibits a collision. *)

From S2P Require Import RefTree TreeHash StateErr Codec Packing Merkle Prelude.

Lemma length_to_note_vec n : length (to_note_vec n) = NOTE_SIZE.
Proof. unfold to_note_vec. by rewrite length_app, length_replicate, length_be_bytes. Qed.

Lemma to_note_vec_inj n m : 0 ≤ n < 2 ^ 64 → 0 ≤ m < 2 ^ 64 → to_note_vec n = to_note_vec m → n = m.
Proof. intros Hn Hm [_ Heq]%app_inj_length; [|done]. by apply (be_bytes_inj 8). Qed.

(** ** Parsing *)

Definition leaf_bytes (p : LeafProof) : list byte := lp_data_hash p ++ lp_notepad p ++ lp_offset p.
Definition branch_bytes (p : BranchProof) : list byte :=
  bp_left_id p ++ bp_right_id p ++ bp_notepad p ++ bp_offset p.
Definition leaf_wf (p : LeafProof) : Prop :=
  length (lp_data_hash p) = HASH_SIZE ∧ length (lp_notepad p) = (NOTE_SIZE - 8)%nat ∧ length (lp_offset p) = 8%nat.
Definition branch_wf (p : BranchProof) : Prop :=
  length (bp_left_id p) = HASH_SIZE ∧ length (bp_right_id p) = HASH_SIZE ∧
  length (bp_notepad p) = (NOTE_SIZE - 8)%nat ∧ length (bp_offset p) = 8%nat.

Lemma codec_leaf_proof : codec leaf_wf leaf_bytes read_leaf_proof.
Proof.
  unfold leaf_wf, read_leaf_proof. apply (codec_ext _ (λ p, lp_data_hash p ++ lp_notepad p ++ lp_offset p ++ [])).
  { intros p. unfold leaf_bytes. by rewrite app_nil_r. }
  bytes_field lp_data_hash. bytes_field lp_notepad. bytes_field lp_offset. end_fields.
Qed.

Lemma codec_branch_proof : codec branch_wf branch_bytes read_branch_proof.
Proof.
  unfold branch_wf, read_branch_proof.
  apply (codec_ext _ (λ p, bp_left_id p ++ bp_right_id p ++ bp_notepad p ++ bp_offset p ++ [])).
  { intros p. unfold branch_bytes. by rewrite app_nil_r. }
  bytes_field bp_left_id. bytes_field bp_right_id. bytes_field bp_notepad. bytes_field bp_offset. end_fields.
Qed.

Lemma try_from_slice_ok {A} (wf : A → Prop) write read slice a :
  codec wf write read → try_from_slice read slice = Ok a ↔ wf a ∧ slice = write a.
Proof.
  intros [Hr Hc _]. unfold try_from_slice. split.
  - destruct (read slice) as [rest [b| |]] eqn:E; [|done..]. case_bool_decide as Hrest; [|done].
    intros [= ->]. apply Hc in E as [Ha ->]. by rewrite Hrest, app_nil_r.
  - intros [Ha ->]. pose proof (Hr a [] Ha) as Heq. rewrite app_nil_r in Heq. by rewrite Heq.
Qed.

Lemma try_from_slice_no_panic {A} (wf : A → Prop) write read slice :
  codec wf write read → try_from_slice (A:=A) read slice ≠ Panic.
Proof.
  intros Hcodec. pose proof (codec_no_panic _ _ _ Hcodec slice) as Hnp. unfold try_from_slice.
  destruct (read slice) as [rest [b| |]]; [by case_bool_decide|done..].
Qed.

Lemma length_leaf_bytes p : leaf_wf p → length (leaf_bytes p) = LEAF_PROOF_LEN.
Proof. intros (H1 & H2 & H3). unfold leaf_bytes. by rewrite !length_app, H1, H2, H3. Qed.
Lemma length_branch_bytes p : branch_wf p → length (branch_bytes p) = BRANCH_PROOF_LEN.
Proof. intros (H1 & H2 & H3 & H4). unfold branch_bytes. by rewrite !length_app, H1, H2, H3, H4. Qed.

(** A proof buffer is the bytes of its branches followed by those of its leaf. *)
Definition path_bytes (bs : list BranchProof) (lf : LeafProof) : list byte :=
  concat (branch_bytes <$> bs) ++ leaf_bytes lf.

Lemma length_branches bs : Forall branch_wf bs → length (concat (branch_bytes <$> bs)) = (length bs * BRANCH_PROOF_LEN)%nat.
Proof.
  intros Hbs. rewrite (length_concat_const BRANCH_PROOF_LEN), length_fmap; [done|].
  apply Forall_fmap. eapply Forall_impl; [done|]. apply length_branch_bytes.
Qed.

Lemma ensure_proof_layout_ok path n :
  ensure_proof_layout path = Ok n ↔ ∃ k, n = (k * BRANCH_PROOF_LEN)%nat ∧ length path = (n + LEAF_PROOF_LEN)%nat.
Proof.
  unfold ensure_proof_layout. destruct (Nat.ltb_spec (length path) LEAF_PROOF_LEN); res_simpl.
  - split; [done|]. intros (k & -> & Hlen). lia.
  - destruct (Nat.eqb_spec ((length path - LEAF_PROOF_LEN) mod BRANCH_PROOF_LEN) 0) as [Hmod|Hmod]; cbn [negb]; res_simpl.
    + split.
      * intros [= <-]. apply Nat.Div0.mod_divides in Hmod as [k Hk]. exists k. rewrite (Nat.mul_comm k). lia.
      * intros (k & -> & Hlen). f_equal. rewrite Hlen. apply Nat.add_sub.
    + split; [done|]. intros (k & -> & Hlen). destruct Hmod. rewrite Hlen, Nat.add_sub. by apply Nat.Div0.mod_mul.
Qed.

Lemma parse_path_ok path bs lf :
  parse_path path = Ok (bs, lf) ↔ Forall branch_wf bs ∧ leaf_wf lf ∧ path = path_bytes bs lf.
Proof.
  unfold parse_path. rewrite bind_ok. split.
  - intros (n & (k & -> & Hlen)%ensure_proof_layout_ok & (bs' & Hbs & (lf' & Hlf & [= -> ->])%bind_ok)%bind_ok).
    apply (try_from_slice_ok _ _ _ _ _ codec_leaf_proof) in Hlf as [Hlf Hdrop].
    apply mapM_result_ok in Hbs.
    assert (Forall branch_wf bs ∧ branch_bytes <$> bs = chunks BRANCH_PROOF_LEN (take (k * BRANCH_PROOF_LEN) path)) as [Hwf Hb].
    { clear -Hbs. induction Hbs as [|x b xs bs Hb _ IH]; [done|]. destruct IH as [IH1 IH2].
      apply (try_from_slice_ok _ _ _ _ _ codec_branch_proof) in Hb as [Hb ->]. rewrite fmap_cons, IH2. split; [by constructor|done]. }
    split_and!; [done..|]. unfold path_bytes. rewrite Hb, chunks_concat, <- Hdrop by (unfold BRANCH_PROOF_LEN; cbn; lia).
    by rewrite take_drop.
  - intros (Hbs & Hlf & ->). exists (length bs * BRANCH_PROOF_LEN)%nat. split.
    { apply ensure_proof_layout_ok. exists (length bs). unfold path_bytes.
      by rewrite length_app, length_branches, length_leaf_bytes. }
    unfold path_bytes. rewrite take_app_length', drop_app_length' by (by rewrite length_branches).
    rewrite chunks_of_concat; [|unfold BRANCH_PROOF_LEN; cbn; lia|].
    2:{ apply Forall_fmap. eapply Forall_impl; [done|]. apply length_branch_bytes. }
    apply bind_ok. exists bs. split.
    { apply mapM_result_ok, Forall2_fmap_l, Forall_Forall2_diag. eapply Forall_impl; [done|]. intros b Hb.
      by apply (try_from_slice_ok _ _ _ _ _ codec_branch_proof). }
    apply bind_ok. exists lf. split; [|done]. by apply (try_from_slice_ok _ _ _ _ _ codec_leaf_proof).
Qed.

(** ** Notepads *)

Lemma existsb_zeros np : existsb (λ b : byte, negb (bool_decide (b = x00))) np = false ↔ np = replicate (length np) x00.
Proof.
  induction np as [|b np IH]; [done|]. cbn [existsb length replicate]. rewrite orb_false_iff, IH. case_bool_decide as Hb; cbn [negb]; split.
  - intros [_ Hnp]. by rewrite <- Hnp, Hb.
  - intros [_ Hnp]%cons_inv. done.
  - by intros [? _].
  - intros [? _]%cons_inv. done.
Qed.

Lemma has_non_zero_notepad_path bs lf :
  Forall branch_wf bs → leaf_wf lf →
  has_non_zero_notepad (path_bytes bs lf) = false ↔
  Forall (λ b, bp_notepad b = replicate (NOTE_SIZE - 8) x00) bs ∧ lp_notepad lf = replicate (NOTE_SIZE - 8) x00.
Proof.
  intros Hbs Hlf. pose proof (proj2 (parse_path_ok _ bs lf) (conj Hbs (conj Hlf eq_refl))) as Hparse.
  unfold parse_path in Hparse. apply bind_ok in Hparse as (n & Hn & _). unfold has_non_zero_notepad. rewrite Hn.
  apply ensure_proof_layout_ok in Hn as (k & -> & Hlen). unfold path_bytes in Hlen. rewrite length_app, length_branches, length_leaf_bytes in Hlen by done.
  assert (k = length bs) as -> by (unfold BRANCH_PROOF_LEN, HASH_SIZE, NOTE_SIZE in Hlen; lia).
  unfold path_bytes. rewrite take_app_length', drop_app_length' by (by rewrite length_branches).
  rewrite chunks_of_concat; [|unfold BRANCH_PROOF_LEN; cbn; lia|].
  2:{ apply Forall_fmap. eapply Forall_impl; [done|]. apply length_branch_bytes. }
  rewrite existsb_app, orb_false_iff, <- list_fmap_compose. clear Hlen. apply Morphisms_Prop.and_iff_morphism.
  - induction Hbs as [|b bs Hb Hbs IH]; [done|]. rewrite fmap_cons, Forall_cons. cbn [existsb]. rewrite orb_false_iff, IH.
    destruct Hb as (Hl & Hr & Hnp & _). unfold compose at 1, branch_bytes.
    rewrite (assoc_L (++)), drop_app_length' by (by rewrite length_app, Hl, Hr).
    by rewrite take_app_length', existsb_zeros, Hnp.
  - destruct Hlf as (Hdh & Hnp & _). cbn [existsb]. rewrite orb_false_r. unfold leaf_bytes. rewrite drop_app_length' by (by rewrite Hdh).
    by rewrite take_app_length', existsb_zeros, Hnp.
Qed.

Section MerkleFacts.
  Context `{Sha256}.
  Implicit Types (l r n : Node) (L R : list Node).

Lemma length_hash_all ms : length (hash_all_sha256 ms) = HASH_SIZE.
Proof. apply sha256_length. Qed.

(** ** Collisions of nested hashes *)

Definition hash_all_queries (ms : list (list byte)) : list (list byte) := (ms ≫= sha256) :: ms.

Lemma digests_same ms ms' :
  ms ≫= sha256 = ms' ≫= sha256 → ms = ms' ∨ collides ms ms'.
Proof.
  revert ms'. induction ms as [|m ms IH]; intros [|m' ms'] Heq; cbn [mbind list_bind] in Heq.
  - by left.
  - apply (f_equal length) in Heq. rewrite length_app, sha256_length in Heq. done.
  - apply (f_equal length) in Heq. rewrite length_app, sha256_length in Heq. done.
  - apply app_inj_length in Heq as [Hm Hms]; [|by rewrite !sha256_length].
    destruct (sha256_same m m' Hm) as [->|Hc].
    + destruct (IH ms' Hms) as [->|Hc]; [by left|right]. eapply collides_mono; [done|set_solver..].
    + right. eapply collides_mono; [done|set_solver..].
Qed.

Lemma hash_all_same ms ms' :
  hash_all_sha256 ms = hash_all_sha256 ms' → ms = ms' ∨ collides (hash_all_queries ms) (hash_all_queries ms').
Proof.
  unfold hash_all_sha256, hash_sha256. intros [Heq|Hc]%sha256_same.
  - destruct (digests_same _ _ Heq) as [->|Hc]; [by left|right].
    eapply collides_mono; [done|unfold hash_all_queries; set_solver..].
  - right. eapply collides_mono; [done|unfold hash_all_queries; set_solver..].
Qed.

(** What a verifier of a proof hashes, and what is hashed to build a tree. *)
Definition branch_queries (b : BranchProof) : list (list byte) :=
  hash_all_queries [bp_left_id b; bp_right_id b; to_note_vec (branch_offset b)].
Definition leaf_queries (p : LeafProof) : list (list byte) :=
  hash_all_queries [lp_data_hash p; to_note_vec (leaf_offset p)].
Definition proof_queries (bs : list BranchProof) (lf : LeafProof) : list (list byte) :=
  (bs ≫= branch_queries) ++ leaf_queries lf.
Definition path_queries (path : list byte) : list (list byte) :=
  match parse_path path with Ok (bs, lf) => proof_queries bs lf | _ => [] end.

Lemma proof_queries_cons b bs lf : proof_queries (b :: bs) lf = branch_queries b ++ proof_queries bs lf.
Proof. unfold proof_queries. cbn [mbind list_bind]. by rewrite (assoc_L (++)). Qed.

Fixpoint node_queries (node : Node) : list (list byte) :=
  match n_data_hash node, n_left_child node, n_right_child node with
  | Some data_hash, _, _ => hash_all_queries [data_hash; to_note_vec (n_max_byte_range node)]
  | None, Some l, Some r =>
      hash_all_queries [n_id l; n_id r; to_note_vec (n_max_byte_range l)] ++ node_queries l ++ node_queries r
  | _, _, _ => []
  end.

Lemma node_queries_branch l r :
  node_queries (hash_branch l r) =
  hash_all_queries [n_id l; n_id r; to_note_vec (n_max_byte_range l)] ++ node_queries l ++ node_queries r.
Proof. done. Qed.

End MerkleFacts.

(** A collision among some of the queries is one among all of them. *)
Ltac more_queries Hc :=
  right; apply (collides_mono _ _ _ _ Hc);
  rewrite ?proof_queries_cons, ?node_queries_branch; intros ? ?; rewrite ?elem_of_app; tauto.

Section Trees.
  Context `{Sha256}.
  Implicit Types (l r n : Node) (L R : list Node).

(** ** Trees and their leaves *)

Inductive tree_over : Node → list Node → Prop :=
| tree_leaf dh lo hi : length dh = HASH_SIZE → tree_over (leaf_node dh lo hi) [leaf_node dh lo hi]
| tree_branch l r L R : tree_over l L → tree_over r R → tree_over (hash_branch l r) (L ++ R).

(** The leaves of a list cover [lo, hi) in order. *)
Fixpoint tiles (lo : Z) L (hi : Z) : Prop :=
  match L with
  | [] => lo = hi
  | x :: L' => n_min_byte_range x = lo ∧ lo ≤ n_max_byte_range x ∧ tiles (n_max_byte_range x) L' hi
  end.

Lemma tiles_app lo L R hi : tiles lo (L ++ R) hi ↔ ∃ mid, tiles lo L mid ∧ tiles mid R hi.
Proof.
  revert lo. induction L as [|x L IH]; intros lo; cbn.
  - naive_solver.
  - rewrite IH. naive_solver.
Qed.

Lemma tiles_le lo L hi : tiles lo L hi → lo ≤ hi.
Proof. revert lo. induction L as [|x L IH]; intros lo; cbn; [lia|]. intros (_ & Hx & HL%IH). lia. Qed.

Lemma tiles_lookup lo L hi i x :
  tiles lo L hi → L !! i = Some x → lo ≤ n_min_byte_range x ≤ n_max_byte_range x ∧ n_max_byte_range x ≤ hi.
Proof.
  revert lo i. induction L as [|y L IH]; intros lo [|i]; cbn; [done|done| |].
  - intros (<- & Hy & HL%tiles_le) [= ->]. lia.
  - intros (_ & Hy & HL) Hx. specialize (IH _ _ HL Hx). lia.
Qed.

Lemma tree_over_nonempty n L : tree_over n L → L ≠ [].
Proof. induction 1; [done|]. by destruct L. Qed.

Lemma tree_over_range n L lo hi : tree_over n L → tiles lo L hi → n_min_byte_range n = lo ∧ n_max_byte_range n = hi.
Proof.
  intros Ht. revert lo hi. induction Ht as [dh a b _|l r L R Hl IHl Hr IHr]; intros lo hi.
  - cbn. naive_solver.
  - intros (mid & HL & HR)%tiles_app. cbn. by destruct (IHl _ _ HL), (IHr _ _ HR).
Qed.

Lemma length_tree_id n L : tree_over n L → length (n_id n) = HASH_SIZE.
Proof. destruct 1; apply length_hash_all. Qed.

(** The leaf a position leads to, and whether it is the last: the first leaf that ends after
    the position, or the last one. *)
Fixpoint locate (t : Z) L : option (Node * bool) :=
  match L with
  | [] => None
  | x :: L' => match L' with
               | [] => Some (x, true)
               | _ :: _ => if n_max_byte_range x <=? t then locate t L' else Some (x, false)
               end
  end.

Lemma locate_cons t x L : L ≠ [] → locate t (x :: L) = if n_max_byte_range x <=? t then locate t L else Some (x, false).
Proof. by destruct L. Qed.

Lemma locate_right t lo L mid R : tiles lo L mid → mid ≤ t → R ≠ [] → locate t (L ++ R) = locate t R.
Proof.
  revert lo. induction L as [|x L IH]; intros lo; [done|]. cbn [tiles app]. intros (_ & Hx & HL) Hmid HR.
  rewrite locate_cons by (by destruct L). pose proof (tiles_le _ _ _ HL).
  destruct (Z.leb_spec (n_max_byte_range x) t); [|lia]. by eapply IH.
Qed.

Lemma locate_left t lo L mid R :
  tiles lo L mid → t < mid → L ≠ [] → R ≠ [] → locate t (L ++ R) = (λ p, (p.1, false)) <$> locate t L.
Proof.
  revert lo. induction L as [|x L IH]; intros lo; [done|]. cbn [tiles app]. intros (_ & Hx & HL) Hmid _ HR.
  rewrite locate_cons by (by destruct L). destruct L as [|y L].
  - cbn in HL. subst. destruct (Z.leb_spec (n_max_byte_range x) t); [lia|done].
  - rewrite (locate_cons t x (y :: L)) by done. destruct (_ <=? t); [|done]. by eapply IH.
Qed.

Lemma locate_lookup t lo L hi x b :
  tiles lo L hi → lo ≤ t → locate t L = Some (x, b) →
  ∃ i, L !! i = Some x ∧ b = bool_decide (S i = length L) ∧ n_min_byte_range x ≤ t ∧ (b = false → t < n_max_byte_range x).
Proof.
  revert lo. induction L as [|y L IH]; intros lo; [done|]. cbn [tiles]. intros (Hy & Hle & HL) Hlo.
  destruct L as [|z L].
  - intros [= -> <-]. exists 0%nat. split_and!; [done..|lia|done].
  - rewrite locate_cons by done. destruct (Z.leb_spec (n_max_byte_range y) t).
    + intros (i & Hi & -> & Hr)%(IH _ HL); [|lia]. exists (S i). split_and!; [done| |tauto..].
      apply bool_decide_ext. cbn. lia.
    + intros [= -> <-]. exists 0%nat. split_and!; [done..|lia|lia].
Qed.

Lemma locate_inside t lo L hi i x :
  tiles lo L hi → L !! i = Some x → n_min_byte_range x ≤ t < n_max_byte_range x →
  locate t L = Some (x, bool_decide (S i = length L)).
Proof.
  revert lo i. induction L as [|y L IH]; intros lo i; [done|]. cbn [tiles]. intros (Hy & Hle & HL) Hi Ht.
  destruct L as [|z L].
  - destruct i; [|done]. by injection Hi as ->.
  - rewrite locate_cons by done. destruct i as [|i].
    + injection Hi as ->. destruct (Z.leb_spec (n_max_byte_range x) t); [lia|done].
    + pose proof (tiles_lookup _ _ _ _ _ HL Hi). destruct (Z.leb_spec (n_max_byte_range y) t); [|lia].
      rewrite (IH _ i HL Hi Ht). do 2 f_equal. apply bool_decide_ext. cbn. lia.
Qed.

Lemma locate_is_Some t L : L ≠ [] → is_Some (locate t L).
Proof.
  induction L as [|x L IH]; [done|]. intros _. destruct L as [|y L]; [done|].
  rewrite locate_cons by done. destruct (_ <=? t); [by apply IH|done].
Qed.

(** ** The proof of a position *)

Definition zeros : list byte := replicate (NOTE_SIZE - 8) x00.
Definition plain_branch (left_id right_id : list byte) (pivot : Z) : BranchProof :=
  mkBranchProof left_id right_id zeros (be_bytes 8 pivot).
Definition plain_leaf (data_hash : list byte) (max : Z) : LeafProof := mkLeafProof data_hash zeros (be_bytes 8 max).

(** The branches on the way to a position, and the leaf as it is written in a proof. *)
Fixpoint proof_branches (t : Z) (node : Node) : list BranchProof :=
  match n_left_child node, n_right_child node with
  | Some l, Some r =>
      plain_branch (n_id l) (n_id r) (n_max_byte_range l)
        :: (if n_max_byte_range l <=? t then proof_branches t r else proof_branches t l)
  | _, _ => []
  end.
Definition leaf_proof_of (x : Node) : LeafProof := plain_leaf (default [] (n_data_hash x)) (n_max_byte_range x).

(** A proof node without what its notepad says. *)
Definition clear_branch (b : BranchProof) : BranchProof := mkBranchProof (bp_left_id b) (bp_right_id b) zeros (bp_offset b).
Definition clear_leaf (p : LeafProof) : LeafProof := mkLeafProof (lp_data_hash p) zeros (lp_offset p).

Lemma plain_offset k : 0 ≤ k < 2 ^ 64 → of_be_bytes (be_bytes 8 k) = k.
Proof. intros Hk. by apply of_be_bytes_be_bytes. Qed.

Lemma leaf_offset_range p : leaf_wf p → 0 ≤ leaf_offset p < 2 ^ 64.
Proof. intros (_ & _ & Hl). pose proof (of_be_bytes_range (lp_offset p)) as Hr. by rewrite Hl in Hr. Qed.
Lemma branch_offset_range b : branch_wf b → 0 ≤ branch_offset b < 2 ^ 64.
Proof. intros (_ & _ & _ & Hl). pose proof (of_be_bytes_range (bp_offset b)) as Hr. by rewrite Hl in Hr. Qed.

Lemma clear_branch_plain b : branch_wf b → clear_branch b = plain_branch (bp_left_id b) (bp_right_id b) (branch_offset b).
Proof.
  intros (_ & _ & _ & Hl). unfold clear_branch, plain_branch, branch_offset. f_equal. rewrite <- Hl.
  symmetry. apply be_bytes_of_be_bytes.
Qed.
Lemma clear_leaf_plain p : leaf_wf p → clear_leaf p = plain_leaf (lp_data_hash p) (leaf_offset p).
Proof.
  intros (_ & _ & Hl). unfold clear_leaf, plain_leaf, leaf_offset. f_equal. rewrite <- Hl.
  symmetry. apply be_bytes_of_be_bytes.
Qed.

Lemma validate_branch_ok t w b w' :
  validate_branch t w b = Ok w' ↔
  hash_all_sha256 [bp_left_id b; bp_right_id b; to_note_vec (branch_offset b)] = w_expected_path_hash w ∧
  w' = if branch_offset b <=? t
       then mkWalk (branch_offset b) (bp_right_id b) (w_is_rightmost_chunk w)
       else mkWalk (w_min_byte_range w) (bp_left_id b) false.
Proof.
  unfold validate_branch. case_bool_decide as Heq; cbn [negb]; res_simpl; [|naive_solver].
  destruct (_ <=? t); naive_solver.
Qed.

(** ** Validation follows the tree *)

Lemma merkle_leaf_same dh k dh' k' :
  0 ≤ k < 2 ^ 64 → 0 ≤ k' < 2 ^ 64 → hash_all_sha256 [dh; to_note_vec k] = hash_all_sha256 [dh'; to_note_vec k'] →
  (dh = dh' ∧ k = k') ∨ collides (hash_all_queries [dh; to_note_vec k]) (hash_all_queries [dh'; to_note_vec k']).
Proof. 
  intros Hk Hk' [Heq|Hc]%hash_all_same; [left|by right].
  apply cons_inv in Heq as [-> [Hn _]%cons_inv]. split; [done|]. by apply to_note_vec_inj.
Qed.

Lemma branch_same a b k a' b' k' :
  0 ≤ k < 2 ^ 64 → 0 ≤ k' < 2 ^ 64 →
  hash_all_sha256 [a; b; to_note_vec k] = hash_all_sha256 [a'; b'; to_note_vec k'] →
  (a = a' ∧ b = b' ∧ k = k') ∨ collides (hash_all_queries [a; b; to_note_vec k]) (hash_all_queries [a'; b'; to_note_vec k']).
Proof. 
  intros Hk Hk' [Heq|Hc]%hash_all_same; [left|by right].
  apply cons_inv in Heq as [-> [-> [Hn _]%cons_inv]%cons_inv]. split_and!; [done..|]. by apply to_note_vec_inj.
Qed.

(** What the branches and the leaf of an accepted proof say about the tree. *)
Definition follows (t : Z) n L (rm : bool) (bs : list BranchProof) (w : Walk) (lf : LeafProof) : Prop :=
  ∃ x b, locate t L = Some (x, b) ∧ n_data_hash x = Some (lp_data_hash lf) ∧ n_max_byte_range x = leaf_offset lf ∧
    w_min_byte_range w = n_min_byte_range x ∧ w_is_rightmost_chunk w = rm && b ∧
    clear_branch <$> bs = proof_branches t n.

Lemma walk_binds n L lo hi t bs w rm lf :
  tree_over n L → tiles lo L hi → 0 ≤ lo → hi < 2 ^ 64 → Forall branch_wf bs → leaf_wf lf →
  validate_branches t (mkWalk lo (n_id n) rm) bs = Ok w →
  hash_all_sha256 [lp_data_hash lf; to_note_vec (leaf_offset lf)] = w_expected_path_hash w →
  follows t n L rm bs w lf ∨ collides (proof_queries bs lf) (node_queries n).
Proof.
  intros Ht Htiles Hlo Hhi Hbs Hlf. pose proof (leaf_offset_range _ Hlf) as Hoff.
  revert lo hi bs rm Htiles Hlo Hhi Hbs. induction Ht as [dh a k Hdh|l r L R Hl IHl Hr IHr]; intros lo hi bs rm Htiles Hlo Hhi Hbs Hv Hleaf.
  - cbn in Htiles. destruct Htiles as (-> & Hk & <-). destruct bs as [|b bs].
    + injection Hv as <-. cbn in Hleaf. destruct (merkle_leaf_same _ _ dh k Hoff ltac:(lia) Hleaf) as [[Hdh' Heq]|Hc]; [left|by right].
      exists (leaf_node dh lo k), true. cbn. by rewrite Heq, Hdh', andb_true_r.
    + apply bind_ok in Hv as (w1 & [Heq _]%validate_branch_ok & _). cbn in Heq.
      apply hash_all_same in Heq as [|Hc]; [done|more_queries Hc].
  - apply tiles_app in Htiles as (mid & HL & HR). pose proof (tiles_le _ _ _ HL). pose proof (tiles_le _ _ _ HR).
    destruct (tree_over_range _ _ _ _ Hl HL) as [Hlmin Hlmax]. pose proof (tree_over_nonempty _ _ Hl). pose proof (tree_over_nonempty _ _ Hr).
    destruct bs as [|b bs].
    { injection Hv as <-. cbn in Hleaf. apply hash_all_same in Hleaf as [|Hc]; [done|more_queries Hc]. }
    apply Forall_cons in Hbs as [Hb Hbs]. apply bind_ok in Hv as (w1 & [Heq ->]%validate_branch_ok & Hv). cbn [w_expected_path_hash hash_branch n_id] in Heq.
    destruct (branch_same _ _ _ _ _ (n_max_byte_range l) (branch_offset_range _ Hb) ltac:(lia) Heq) as [(Hbl & Hbr & Hbo)|Hc].
    2:{ more_queries Hc. }
    assert (clear_branch b = plain_branch (n_id l) (n_id r) (n_max_byte_range l)) as Hclear by (rewrite clear_branch_plain by done; by rewrite Hbl, Hbr, Hbo).
    cbn [w_min_byte_range w_is_rightmost_chunk] in Hv. rewrite Hbl, Hbr, Hbo, Hlmax in Hv.
    unfold follows. rewrite fmap_cons, Hclear. cbn [proof_branches hash_branch n_left_child n_right_child]. rewrite Hlmax.
    destruct (Z.leb_spec mid t) as [Hmid|Hmid].
    + destruct (IHr mid hi bs rm HR ltac:(lia) Hhi Hbs Hv Hleaf) as [(x & c & Hloc & Hx1 & Hx2 & Hx3 & Hx4 & Hx5)|Hc].
      * left. exists x, c. rewrite (locate_right _ _ _ _ _ HL Hmid), Hx5 by done. done.
      * more_queries Hc.
    + destruct (IHl lo mid bs false HL Hlo ltac:(lia) Hbs Hv Hleaf) as [(x & c & Hloc & Hx1 & Hx2 & Hx3 & Hx4 & Hx5)|Hc].
      * left. exists x, false. rewrite (locate_left _ _ _ _ _ HL Hmid), Hloc, Hx5 by done. cbn in Hx4. by rewrite andb_false_r.
      * more_queries Hc.
Qed.
End Trees.
