(* ===== verification/MerkleBuild.v ===== *)
(** Generation of byte-range Merkle trees: the leaves of a sequence of sizes, the root over
    them, the proofs that the root resolves to, and the iterator that cuts a stream into
    chunks ([crates/types/src/chunked.rs]). *)

From S2P Require Import RefTree TreeHash StateErr Codec Packing Merkle MerkleFacts Prelude.

#[global] Instance node_inhabited : Inhabited Node := populate (mkNode [] None 0 0 None None).

Section MerkleBuild.
  Context `{Sha256}.
  Implicit Types (l r n : Node) (L R : list Node).

(** ** Leaves *)

(** The leaves with the given hashes and sizes, from position [lo]. *)
Fixpoint leaves_at (lo : Z) (xs : list (list byte * Z)) : list Node :=
  match xs with
  | [] => []
  | (dh, size) :: xs' => leaf_node dh lo (lo + size) :: leaves_at (lo + size) xs'
  end.

Definition sizes_ok (xs : list (list byte * Z)) : Prop :=
  Forall (λ x, length x.1 = HASH_SIZE ∧ 0 ≤ x.2) xs ∧ sum_Z xs.*2 < 2 ^ 64.

Lemma sizes_nonneg xs : Forall (λ x : list byte * Z, length x.1 = HASH_SIZE ∧ 0 ≤ x.2) xs → Forall (λ x, 0 ≤ x) xs.*2.
Proof. intros Hxs. apply Forall_fmap. eapply Forall_impl; [done|]. by intros x [_ ?]. Qed.

Lemma length_leaves_at lo xs : length (leaves_at lo xs) = length xs.
Proof. revert lo. induction xs as [|[dh k] xs IH]; intros lo; cbn; [done|]. by rewrite IH. Qed.

Lemma leaves_at_lookup lo xs i :
  leaves_at lo xs !! i =
  (λ x, leaf_node x.1 (lo + sum_Z (take i xs.*2)) (lo + sum_Z (take (S i) xs.*2))) <$> xs !! i.
Proof.
  revert lo i. induction xs as [|[dh k] xs IH]; intros lo [|i]; cbn [leaves_at lookup list_lookup]; [done|done| |].
  - cbn [fmap option_fmap option_map list_fmap take fst snd]. unfold sum_Z. cbn [foldr].
    by rewrite !Z.add_0_r.
  - rewrite IH. destruct (xs !! i) as [[dh' k']|]; [|done]. cbn [fmap option_fmap option_map list_fmap take].
    rewrite !sum_Z_cons. cbn [snd]. by rewrite !Z.add_assoc.
Qed.

Lemma leaves_at_tiles lo xs :
  Forall (λ x : list byte * Z, length x.1 = HASH_SIZE ∧ 0 ≤ x.2) xs → tiles lo (leaves_at lo xs) (lo + sum_Z xs.*2).
Proof.
  intros Hxs. revert lo. induction Hxs as [|[dh k] xs [_ Hk] _ IH]; intros lo; cbn [leaves_at tiles].
  - cbn. lia.
  - cbn [snd] in Hk. rewrite fmap_cons, sum_Z_cons. cbn [snd leaf_node n_min_byte_range n_max_byte_range].
    split_and!; [done|lia|]. rewrite Z.add_assoc. apply IH.
Qed.

Lemma leaves_from_chunks_eq lo cs :
  0 ≤ lo → lo + sum_Z ((λ c, Z.of_nat (length c)) <$> cs) < 2 ^ 64 →
  leaves_from_chunks lo (Ok <$> cs) = Ok (leaves_at lo ((λ c, (sha256 c, Z.of_nat (length c))) <$> cs)).
Proof.
  revert lo. induction cs as [|c cs IH]; intros lo Hlo Hsum; [done|]. rewrite !fmap_cons in *. rewrite sum_Z_cons in Hsum.
  assert (0 ≤ sum_Z ((λ c, Z.of_nat (length c)) <$> cs)) by (apply sum_Z_nonneg, Forall_fmap, Forall_true; intros; cbn; lia).
  cbn [leaves_from_chunks]. res_simpl. rewrite (proj2 (checked_add_Some _ _ _ _)) by (split; [done|lia]).
  res_simpl. rewrite IH by lia. done.
Qed.

Lemma leaves_from_data_roots_eq lo rs :
  0 ≤ lo → Forall (λ d, 0 ≤ dr_tx_size d) rs → lo + sum_Z (dr_tx_size <$> rs) < 2 ^ 64 →
  leaves_from_data_roots lo rs = Ok (leaves_at lo ((λ d, (dr_data_root d, dr_tx_size d)) <$> rs)).
Proof.
  intros Hlo Hrs. revert lo Hlo. induction Hrs as [|d rs Hr Hrs IH]; intros lo Hlo Hsum; [done|]. rewrite !fmap_cons in *. rewrite sum_Z_cons in Hsum.
  assert (0 ≤ sum_Z (dr_tx_size <$> rs)) by (by apply sum_Z_nonneg, Forall_fmap).
  cbn [leaves_from_data_roots]. rewrite (proj2 (checked_add_Some _ _ _ _)) by (split; [done|lia]).
  res_simpl. rewrite IH by lia. done.
Qed.

(** ** Roots *)

Definition is_leaf (x : Node) : Prop := tree_over x [x].

Lemma leaves_at_leaf lo xs : Forall (λ x : list byte * Z, length x.1 = HASH_SIZE ∧ 0 ≤ x.2) xs → Forall is_leaf (leaves_at lo xs).
Proof.
  intros Hxs. revert lo. induction Hxs as [|[dh k] xs [Hdh _] _ IH]; intros lo; cbn [leaves_at]; constructor; [by constructor|done].
Qed.

Lemma build_layer_over L Ls :
  Forall2 tree_over L Ls → ∃ Ls', Forall2 tree_over (build_layer hash_branch L) Ls' ∧ concat Ls' = concat Ls.
Proof.
  revert Ls. induction L as [|x|x y L IH] using list_pair_ind; intros Ls HLs.
  - by exists Ls.
  - by exists Ls.
  - apply Forall2_cons_inv_l in HLs as (Lx & Ls1 & Hx & HLs & ->).
    apply Forall2_cons_inv_l in HLs as (Ly & Ls2 & Hy & HLs & ->).
    destruct (IH Ls2 HLs) as (Ls' & HLs' & Hc). exists ((Lx ++ Ly) :: Ls'). cbn. split.
    + constructor; [by constructor|done].
    + by rewrite Hc, (assoc_L (++)).
Qed.

(** Enough rounds reduce a layer to one node over the same leaves, the root of RFC 6962. *)
Lemma reduce_layers_root fuel L Ls :
  L ≠ [] → (length L ≤ S fuel)%nat → Forall2 tree_over L Ls →
  ∃ root, reduce_layers fuel L = [root] ∧ root = tree_root hash_branch L ∧ tree_over root (concat Ls).
Proof.
  assert (Hone : ∀ x Ls, Forall2 tree_over [x] Ls → tree_over x (concat Ls)).
  { clear. intros x Ls (Lx & Ls' & Hx & ->%Forall2_nil_inv_l & ->)%Forall2_cons_inv_l. cbn. by rewrite app_nil_r. }
  revert L Ls. induction fuel as [|fuel IH]; intros L Ls HL Hlen HLs; cbn [reduce_layers].
  - destruct L as [|x [|]]; [done| |cbn in Hlen; lia]. exists x. auto.
  - destruct (Nat.ltb_spec 1 (length L)).
    + destruct (build_layer_over L Ls HLs) as (Ls' & HLs' & <-).
      destruct (IH (build_layer hash_branch L) Ls') as (root & Heq & Hroot & Hover); [by apply build_layer_ne| |done|].
      { rewrite length_build_layer. assert ((length L + 1) / 2 < length L)%nat; [|lia]. apply Nat.Div0.div_lt_upper_bound. lia. }
      exists root. rewrite tree_root_build_layer in Hroot by done. done.
    + destruct L as [|x [|]]; [done| |cbn in *; lia]. exists x. auto.
Qed.

Lemma generate_data_root_ok L :
  L ≠ [] → Forall is_leaf L →
  ∃ root, generate_data_root L = Ok root ∧ root = tree_root hash_branch L ∧ tree_over root L.
Proof.
  intros HL Hleaf. destruct (reduce_layers_root (length L) L ((λ x, [x]) <$> L)) as (root & Heq & Hroot & Hover); [done|lia| |].
  { apply Forall2_fmap_r, Forall_Forall2_diag, Hleaf. }
  exists root. unfold generate_data_root. rewrite Heq. split_and!; [done..|].
  replace L with (concat ((λ x, [x]) <$> L)); [done|]. clear. induction L as [|x L IH]; [done|]. rewrite fmap_cons. cbn. by rewrite IH.
Qed.

Lemma generate_data_root_nil : generate_data_root [] = Err NoDataNode.
Proof. done. Qed.

(** ** Proofs *)

Lemma branch_bytes_plain a b k : branch_bytes (plain_branch a b k) = a ++ b ++ to_note_vec k.
Proof. done. Qed.
Lemma leaf_bytes_plain dh k : leaf_bytes (plain_leaf dh k) = dh ++ to_note_vec k.
Proof. done. Qed.

Lemma path_bytes_cons b bs lf : path_bytes (b :: bs) lf = branch_bytes b ++ path_bytes bs lf.
Proof. unfold path_bytes. rewrite fmap_cons. cbn [concat]. by rewrite (assoc_L (++)). Qed.

(** Every leaf that ends above 0 has a proof: the branches to its positions and the leaf. *)
Lemma resolve_proofs_over n L lo hi prefix :
  tree_over n L → tiles lo L hi → Forall (λ x, 0 < n_max_byte_range x) L →
  ∃ ps, resolve_proofs_from n prefix = Ok ps ∧ length ps = length L ∧
    ∀ i x t, L !! i = Some x → n_min_byte_range x ≤ t < n_max_byte_range x →
      ps !! i = Some (mkProof (n_max_byte_range x - 1) (prefix ++ path_bytes (proof_branches t n) (leaf_proof_of x))).
Proof.
  intros Hn. revert lo hi prefix. induction Hn as [dh a k Hdh|l r L R Hl IHl Hr IHr]; intros lo hi prefix Htiles Hpos.
  - apply (proj1 (Forall_singleton _ _)) in Hpos. cbn [leaf_node n_max_byte_range] in Hpos. cbn [resolve_proofs_from leaf_node n_data_hash n_left_child n_right_child n_max_byte_range].
    rewrite (proj2 (checked_sub_Some k 1 (k - 1))) by lia. res_simpl. eexists. split_and!; [done..|].
    intros [|i] x t [= <-] _. done.
  - apply tiles_app in Htiles as (mid & HL & HR). apply Forall_app in Hpos as [HpL HpR].
    destruct (tree_over_range _ _ _ _ Hl HL) as [_ Hmax].
    cbn [resolve_proofs_from hash_branch n_data_hash n_left_child n_right_child].
    set (prefix' := prefix ++ n_id l ++ n_id r ++ to_note_vec (n_max_byte_range l)).
    destruct (IHl lo mid prefix' HL HpL) as (pl & -> & Hll & Hpl). destruct (IHr mid hi prefix' HR HpR) as (pr & -> & Hlr & Hpr).
    res_simpl. exists (pl ++ pr). rewrite !length_app, Hll, Hlr. split_and!; [done..|].
    intros i x t Hx Ht. cbn [proof_branches hash_branch n_left_child n_right_child]. rewrite path_bytes_cons, branch_bytes_plain, Hmax.
    assert (Hpre : ∀ q, prefix ++ (n_id l ++ n_id r ++ to_note_vec mid) ++ q = prefix' ++ q)
      by (intros q; unfold prefix'; by rewrite Hmax, <- !(assoc_L (++))).
    rewrite Hpre. rewrite lookup_app; rewrite lookup_app in Hx. destruct (L !! i) as [y|] eqn:Hi.
    + injection Hx as ->. pose proof (tiles_lookup _ _ _ _ _ HL Hi). destruct (Z.leb_spec mid t); [lia|]. by rewrite (Hpl i x t Hi Ht).
    + pose proof (tiles_lookup _ _ _ _ _ HR Hx). destruct (Z.leb_spec mid t); [|lia]. rewrite (lookup_ge_None_2 pl) by (rewrite Hll; by apply lookup_ge_None).
      rewrite Hll. by apply Hpr.
Qed.

(** The branches to a position lead from the root to the leaf there. *)
Lemma proof_branches_walk n L lo hi t rm x b :
  tree_over n L → tiles lo L hi → 0 ≤ lo → hi < 2 ^ 64 → locate t L = Some (x, b) →
  validate_branches t (mkWalk lo (n_id n) rm) (proof_branches t n) = Ok (mkWalk (n_min_byte_range x) (n_id x) (rm && b)).
Proof.
  intros Hn. revert lo hi rm x b. induction Hn as [dh a k Hdh|l r L R Hl IHl Hr IHr]; intros lo hi rm x b Htiles Hlo Hhi Hloc.
  - injection Hloc as <- <-. cbn in Htiles. destruct Htiles as [-> _]. cbn. by rewrite andb_true_r.
  - apply tiles_app in Htiles as (mid & HL & HR). pose proof (tiles_le _ _ _ HL). pose proof (tiles_le _ _ _ HR).
    destruct (tree_over_range _ _ _ _ Hl HL) as [_ Hmax]. pose proof (tree_over_nonempty _ _ Hl). pose proof (tree_over_nonempty _ _ Hr).
    cbn [proof_branches hash_branch n_left_child n_right_child validate_branches]. rewrite Hmax.
    assert (Hoff : branch_offset (plain_branch (n_id l) (n_id r) mid) = mid) by (apply plain_offset; lia).
    assert (Hid : hash_all_sha256 [n_id l; n_id r; to_note_vec (branch_offset (plain_branch (n_id l) (n_id r) mid))]
                  = n_id (hash_branch l r)) by (rewrite Hoff, <- Hmax; done).
    rewrite (proj2 (validate_branch_ok t (mkWalk lo _ rm) (plain_branch (n_id l) (n_id r) mid) _) (conj Hid eq_refl)).
    res_simpl. rewrite Hoff. cbn [plain_branch bp_right_id bp_left_id w_is_rightmost_chunk w_min_byte_range].
    destruct (Z.leb_spec mid t) as [Hmid|Hmid].
    + rewrite (locate_right _ _ _ _ _ HL Hmid) in Hloc by done. apply (IHr mid hi); [done|lia|done..].
    + rewrite (locate_left _ _ _ _ _ HL Hmid) in Hloc by done. apply fmap_Some in Hloc as ([y c] & Hy & [= -> ->]).
      rewrite (IHl lo mid false y c HL Hlo ltac:(lia) Hy). cbn [fst]. by rewrite andb_false_r.
Qed.

Lemma proof_branches_wf t n L : tree_over n L → Forall branch_wf (proof_branches t n).
Proof.
  induction 1 as [|l r L R Hl IHl Hr IHr]; [constructor|]. cbn [proof_branches hash_branch n_left_child n_right_child].
  constructor; [|by destruct (_ <=? t)]. unfold branch_wf, plain_branch. cbn [bp_left_id bp_right_id bp_notepad bp_offset].
  rewrite (length_tree_id _ _ Hl), (length_tree_id _ _ Hr), length_be_bytes. done.
Qed.

Lemma is_leaf_inv x : is_leaf x → ∃ dh, length dh = HASH_SIZE ∧ n_data_hash x = Some dh ∧
  x = leaf_node dh (n_min_byte_range x) (n_max_byte_range x).
Proof.
  intros Hx. inversion Hx as [dh lo hi Hdh Heq|l r L R Hl Hr Heq Hcat]; subst; [by exists dh|].
  pose proof (tree_over_nonempty _ _ Hl). pose proof (tree_over_nonempty _ _ Hr).
  destruct L as [|? [|]], R; done.
Qed.

Lemma tree_over_leaves n L : tree_over n L → Forall is_leaf L.
Proof. induction 1 as [|l r L R _ IHl _ IHr]; [by repeat constructor|]. by apply Forall_app. Qed.

(** What validation answers at a position of the tree. *)
Definition path_result (x : Node) (rightmost : bool) : ValidatePathResult :=
  mkPathResult (default [] (n_data_hash x)) (n_min_byte_range x) (n_max_byte_range x) rightmost.

Lemma validate_path_complete n L hi t x b :
  tree_over n L → tiles 0 L hi → hi < 2 ^ 64 → locate t L = Some (x, b) →
  n_min_byte_range x ≤ t ≤ n_max_byte_range x →
  validate_path (n_id n) (path_bytes (proof_branches t n) (leaf_proof_of x)) t = Ok (path_result x b).
Proof.
  intros Hn Htiles Hhi Hloc Ht.
  assert (∃ i, L !! i = Some x) as [i Hi].
  { destruct (Z.le_gt_cases 0 t); [destruct (locate_lookup t 0 L hi x b Htiles ltac:(lia) Hloc) as (i & Hi & _); by exists i|].
    pose proof (tree_over_nonempty _ _ Hn). destruct L as [|y [|z L]]; [done| |].
    - injection Hloc as -> _. by exists 0%nat.
    - exists 0%nat. cbn in Hloc, Htiles. destruct (Z.leb_spec (n_max_byte_range y) t); [lia|]. by injection Hloc as ->. }
  pose proof (tiles_lookup _ _ _ _ _ Htiles Hi) as Hx.
  destruct (is_leaf_inv x) as (dh & Hdh & Hsome & Hnode); [by apply (Forall_lookup_1 _ _ _ _ (tree_over_leaves _ _ Hn) Hi)|].
  unfold validate_path. rewrite (proj2 (parse_path_ok _ (proof_branches t n) (leaf_proof_of x))).
  2:{ split_and!; [by eapply proof_branches_wf| |done]. unfold leaf_wf, leaf_proof_of, plain_leaf. rewrite Hsome. cbn [lp_data_hash lp_notepad lp_offset default].
      by rewrite length_be_bytes. }
  res_simpl. cbn [fst snd]. rewrite (proof_branches_walk _ _ _ _ _ _ _ _ Hn Htiles ltac:(lia) Hhi Hloc). res_simpl.
  assert (Hoff : leaf_offset (leaf_proof_of x) = n_max_byte_range x) by (apply plain_offset; lia).
  unfold validate_leaf. rewrite Hoff. cbn [w_min_byte_range w_expected_path_hash w_is_rightmost_chunk leaf_proof_of plain_leaf lp_data_hash].
  rewrite Hsome. cbn [default]. rewrite bool_decide_true by (by rewrite Hnode). cbn [negb]. res_simpl.
  rewrite (proj2 (Z.leb_le _ _)), (proj2 (Z.leb_le _ _)) by lia. unfold path_result. rewrite Hsome. done.
Qed.

(** What an accepted proof says: the leaf at the position, or a collision. *)
Lemma validate_path_sound n L hi path t res :
  tree_over n L → tiles 0 L hi → hi < 2 ^ 64 →
  validate_path (n_id n) path t = Ok res →
  (∃ x b bs lf, locate t L = Some (x, b) ∧ res = path_result x b ∧ n_min_byte_range x ≤ t ≤ n_max_byte_range x ∧
     parse_path path = Ok (bs, lf) ∧ clear_branch <$> bs = proof_branches t n ∧ clear_leaf lf = leaf_proof_of x) ∨
  collides (path_queries path) (node_queries n).
Proof.
  intros Hn Htiles Hhi ([bs lf] & Hparse & (w & Hw & Hleaf)%bind_ok)%bind_ok. cbn [fst snd] in *.
  pose proof (proj1 (parse_path_ok _ _ _) Hparse) as (Hbs & Hlf & _).
  unfold validate_leaf in Hleaf. case_bool_decide as Hid; cbn [negb] in Hleaf; res_simpl in Hleaf; [|done].
  destruct (Z.leb_spec (w_min_byte_range w) t); [|done]. destruct (Z.leb_spec t (leaf_offset lf)); [|done]. cbn in Hleaf.
  destruct (walk_binds _ _ _ _ _ _ _ _ _ Hn Htiles ltac:(lia) Hhi Hbs Hlf Hw Hid) as [(x & b & Hloc & Hdh & Hmax & Hmin & Hrm & Hcl)|Hc].
  - left. exists x, b, bs, lf. cbn [andb] in Hrm. injection Hleaf as <-. rewrite Hmin, Hmax.
    split_and!; [done| |lia|lia|done|done|].
    + unfold path_result. by rewrite Hmax, Hrm, Hdh.
    + rewrite clear_leaf_plain by done. unfold leaf_proof_of. by rewrite Hdh, Hmax.
  - right. unfold path_queries. by rewrite Hparse.
Qed.

(** Positions of one leaf, or past the end of the last, have the same branches. *)
Lemma proof_branches_same n L lo hi i x t t' :
  tree_over n L → tiles lo L hi → L !! i = Some x → n_min_byte_range x ≤ t → n_min_byte_range x ≤ t' →
  (t < n_max_byte_range x ∧ t' < n_max_byte_range x ∨ S i = length L) →
  proof_branches t n = proof_branches t' n.
Proof.
  intros Hn. revert lo hi i. induction Hn as [dh a k Hdh|l r L R Hl IHl Hr IHr]; intros lo hi i Htiles Hi Ht Ht' Hor; [done|].
  apply tiles_app in Htiles as (mid & HL & HR). destruct (tree_over_range _ _ _ _ Hl HL) as [_ Hmax].
  pose proof (tree_over_nonempty _ _ Hr) as HRne. cbn [proof_branches hash_branch n_left_child n_right_child]. rewrite Hmax. f_equal.
  rewrite lookup_app in Hi. destruct (L !! i) as [y|] eqn:Hy.
  - injection Hi as ->. pose proof (tiles_lookup _ _ _ _ _ HL Hy). pose proof (lookup_lt_Some _ _ _ Hy).
    destruct Hor as [Hor|Hor]; [|rewrite length_app in Hor; destruct R; [done|cbn in Hor; lia]].
    destruct (Z.leb_spec mid t), (Z.leb_spec mid t'); [lia..|]. by apply (IHl _ _ i HL Hy Ht Ht'); left.
  - pose proof (tiles_lookup _ _ _ _ _ HR Hi). apply lookup_ge_None in Hy.
    destruct (Z.leb_spec mid t), (Z.leb_spec mid t'); [|lia..]. apply (IHr _ _ _ HR Hi Ht Ht').
    destruct Hor as [Hor|Hor]; [by left|right]. rewrite length_app in Hor. lia.
Qed.

(** Two trees with one root have the same leaves, or a collision. *)
Lemma trees_bind n m L M lo hi lo' hi' :
  tree_over n L → tree_over m M → tiles lo L hi → tiles lo' M hi' →
  0 ≤ lo → hi < 2 ^ 64 → 0 ≤ lo' → hi' < 2 ^ 64 → n_id n = n_id m →
  (λ x, (n_data_hash x, n_max_byte_range x)) <$> L = (λ x, (n_data_hash x, n_max_byte_range x)) <$> M ∨
  collides (node_queries n) (node_queries m).
Proof.
  intros Hn. revert m M lo hi lo' hi'. induction Hn as [dh a k Hdh|l r L R Hl IHl Hr IHr];
    intros m M lo hi lo' hi' Hm HL HM Hlo Hhi Hlo' Hhi' Hid; inversion Hm as [dh' a' k' Hdh'|l' r' L' R' Hl' Hr']; subst.
  - cbn in HL, HM. destruct (merkle_leaf_same dh k dh' k') as [[-> ->]|Hc]; [lia|lia|done|by left|by right].
  - cbn [leaf_node hash_branch n_id] in Hid. apply hash_all_same in Hid as [|Hc]; [done|more_queries Hc].
  - cbn [leaf_node hash_branch n_id] in Hid. apply hash_all_same in Hid as [|Hc]; [done|more_queries Hc].
  - apply tiles_app in HL as (mid & HL & HR), HM as (mid' & HL' & HR').
    pose proof (tiles_le _ _ _ HL). pose proof (tiles_le _ _ _ HR). pose proof (tiles_le _ _ _ HL'). pose proof (tiles_le _ _ _ HR').
    destruct (tree_over_range _ _ _ _ Hl HL) as [_ Hmax], (tree_over_range _ _ _ _ Hl' HL') as [_ Hmax'].
    cbn [hash_branch n_id] in Hid.
    destruct (branch_same _ _ (n_max_byte_range l) _ _ (n_max_byte_range l') ltac:(lia) ltac:(lia) Hid) as [(Hidl & Hidr & _)|Hc]; [|more_queries Hc].
    destruct (IHl l' L' lo mid lo' mid') as [Heql|Hc]; [done|done|done|lia|lia|lia|lia|done| |more_queries Hc].
    destruct (IHr r' R' mid hi mid' hi') as [Heqr|Hc]; [done|done|done|lia|lia|lia|lia|done| |more_queries Hc].
    left. by rewrite !fmap_app, Heql, Heqr.
Qed.
End MerkleBuild.

(** * [ChunkedIterator] ([crates/types/src/chunked.rs]): an iterator that cuts a stream of
    byte vectors into chunks of one size, the leaves generated from it ([generate_leaves] of
    [crates/types/src/merkle.rs]), and the transaction built over them ([merklize] of
    [crates/types/src/irys.rs]). *)

Record ChunkedIterator : Type := mkChunked {
  ci_source : list (result MerkleError (list byte));
  ci_buffer : list byte;
  ci_chunk_size : nat;
  ci_finished : bool
}.

Definition ChunkedIterator_new (source : list (result MerkleError (list byte))) (chunk_size : nat) : ChunkedIterator :=
  mkChunked source [] chunk_size false.

(** The loop that fills the buffer: what is left of the source, the buffer, whether the
    source has ended, and an error it returned. *)
Fixpoint fill (chunk_size : nat) (source : list (result MerkleError (list byte))) (buffer : list byte) (finished : bool)
  : list (result MerkleError (list byte)) * list byte * bool * option (result MerkleError (list byte)) :=
  if (length buffer <? chunk_size)%nat then
    match source with
    | Ok bytes :: source' => fill chunk_size source' (buffer ++ bytes) finished
    | failed :: source' => (source', buffer, true, Some failed)
    | [] => ([], buffer, true, None)
    end
  else (source, buffer, finished, None).

Definition next (it : ChunkedIterator) : ChunkedIterator * option (result MerkleError (list byte)) :=
  if ci_finished it && bool_decide (ci_buffer it = []) then (it, None)
  else
    match fill (ci_chunk_size it) (ci_source it) (ci_buffer it) (ci_finished it) with
    | (source, buffer, finished, Some failed) =>
        (mkChunked source buffer (ci_chunk_size it) finished, Some failed)
    | (source, buffer, finished, None) =>
        if bool_decide (buffer = []) then (mkChunked source buffer (ci_chunk_size it) finished, None)
        else
          let size := if finished then length buffer else Nat.min (ci_chunk_size it) (length buffer) in
          (mkChunked source (drop size buffer) (ci_chunk_size it) finished, Some (Ok (take size buffer)))
    end.

(** What a [for] loop takes from the iterator when it stops at the first error. *)
Fixpoint drain (fuel : nat) (it : ChunkedIterator) : list (result MerkleError (list byte)) :=
  match fuel with
  | O => []
  | S fuel' =>
      match next it with
      | (_, None) => []
      | (it', Some (Ok chunk)) => Ok chunk :: drain fuel' it'
      | (_, Some failed) => [failed]
      end
  end.

Definition ok_bytes (source : list (result MerkleError (list byte))) : nat :=
  sum_list_with (λ r, match r with Ok bytes => length bytes | _ => 0%nat end) source.

(** Every chunk takes a byte, so this many rounds reach the end. *)
Definition drain_all (it : ChunkedIterator) : list (result MerkleError (list byte)) :=
  drain (S (length (ci_buffer it) + ok_bytes (ci_source it))) it.

Section Leaves.
  Context `{Sha256}.
Definition generate_leaves (data : list (result MerkleError (list byte))) (chunk_size : nat) : result MerkleError (list Node) :=
  generate_leaves_from_chunks (drain_all (ChunkedIterator_new data chunk_size)).

(** The fields of [DataTransaction] that [merklize] sets. *)
Record DataTransaction : Type := mkDataTransaction {
  dt_data_size : Z;
  dt_data_root : list byte;
  dt_chain_id : Z;
  dt_data : option (list byte);
  dt_chunks : list Node;
  dt_proofs : list Proof_
}.

Definition merklize (chain_id : Z) (data : list (result MerkleError (list byte))) (chunk_size : nat) (store_data : bool)
  : result MerkleError DataTransaction :=
  dc ← (if store_data then
          data ← mapM id data;
          chunks ← generate_leaves (Ok <$> data) chunk_size;
          Ok (Some (concat data), chunks)
        else
          chunks ← generate_leaves data chunk_size;
          Ok (None, chunks));
  let '(data, chunks) := (dc : option (list byte) * list Node) in
  root ← generate_data_root chunks;
  proofs ← resolve_proofs root None;
  last_chunk ← expect (last chunks);
  _ ← guard_err (n_max_byte_range last_chunk =? n_min_byte_range last_chunk) LastChunkEmpty;
  Ok (mkDataTransaction (n_max_byte_range last_chunk) (n_id root) chain_id data chunks proofs).
End Leaves.

(** ** The chunks of a stream *)

Lemma fill_ok cs pieces buffer fin :
  ∃ rest buffer' fin', fill cs (Ok <$> pieces) buffer fin = (Ok <$> rest, buffer', fin', None) ∧
    buffer' ++ concat rest = buffer ++ concat pieces ∧
    ((fin' = fin ∧ (cs ≤ length buffer')%nat) ∨ (fin' = true ∧ rest = [] ∧ (length buffer' < cs)%nat)).
Proof.
  revert buffer. induction pieces as [|p pieces IH]; intros buffer; cbn [fill fmap list_fmap];
    destruct (Nat.ltb_spec (length buffer) cs).
  - exists [], buffer, true. split_and!; [done..|]. by right.
  - exists [], buffer, fin. split_and!; [done..|]. left. split; [done|lia].
  - destruct (IH (buffer ++ p)) as (rest & b' & f' & -> & Hcat & Hor). exists rest, b', f'. split_and!; [done| |done].
    rewrite Hcat. cbn [concat]. by rewrite (assoc_L (++)).
  - exists (p :: pieces), buffer, fin. split_and!; [done..|]. left. split; [done|lia].
Qed.

Lemma ok_bytes_concat pieces : ok_bytes (Ok <$> pieces) = length (concat pieces).
Proof. induction pieces as [|p ps IH]; [done|]. cbn. rewrite length_app. unfold ok_bytes in IH. by rewrite <- IH. Qed.

Lemma drain_ok cs fuel pieces buffer fin :
  (0 < cs)%nat → (length buffer + length (concat pieces) < fuel)%nat → (fin = true → pieces = [] ∧ buffer = []) →
  drain fuel (mkChunked (Ok <$> pieces) buffer cs fin) = Ok <$> chunks cs (buffer ++ concat pieces).
Proof.
  intros Hcs. revert pieces buffer fin. induction fuel as [|fuel IH]; intros pieces buffer fin Hfuel Hfin; [lia|].
  cbn [drain]. unfold next. cbn [ci_finished ci_buffer ci_source ci_chunk_size].
  destruct fin; [destruct (Hfin eq_refl) as [-> ->]; done|]. cbn [andb].
  destruct (fill_ok cs pieces buffer false) as (rest & b' & fin' & -> & Hcat & Hor).
  rewrite <- Hcat. case_bool_decide as Hb'.
  { subst b'. destruct Hor as [[_ Hle]|(_ & -> & _)]; [cbn in Hle; lia|done]. }
  assert (0 < length b')%nat by (destruct b'; [done|cbn; lia]).
  destruct Hor as [[-> Hle]|(-> & -> & Hlt)].
  - rewrite Nat.min_l by lia. rewrite chunks_cons by (done || by destruct b').
    rewrite take_app_le, drop_app_le by lia. rewrite fmap_cons. f_equal. apply IH; [|done].
    rewrite length_drop. apply (f_equal length) in Hcat. rewrite !length_app in Hcat. lia.
  - cbn [concat]. rewrite app_nil_r, chunks_cons by done.
    rewrite firstn_all, skipn_all, !(take_ge b'), !(drop_ge b') by lia. rewrite fmap_cons. f_equal.
    rewrite (IH [] [] true); [done| |done]. cbn. apply (f_equal length) in Hcat. rewrite !length_app in Hcat. lia.
Qed.

(** The chunks do not depend on how the stream is cut. *)
Lemma drain_all_ok cs pieces :
  (0 < cs)%nat → drain_all (ChunkedIterator_new (Ok <$> pieces) cs) = Ok <$> chunks cs (concat pieces).
Proof.
  intros Hcs. unfold drain_all, ChunkedIterator_new. rewrite drain_ok; [done|done| |done].
  cbn [ci_buffer ci_source length]. rewrite ok_bytes_concat. lia.
Qed.
