(* ===== verification/MerkleTheorems.v ===== *)
(** The data root of an upload: its proofs verify, an accepted proof or chunk is one of the
    upload, and the root determines the data. *)

From S2P Require Import RefTree TreeHash StateErr Codec Packing Merkle MerkleFacts MerkleBuild Prelude.

Section Upload.
  Context `{Sha256}.

(** ** The tree of an upload *)

Definition chunk_items (cs : nat) (data : list byte) : list (list byte * Z) :=
  (λ c, (sha256 c, Z.of_nat (length c))) <$> chunks cs data.
Definition upload_leaves (cs : nat) (data : list byte) : list Node := leaves_at 0 (chunk_items cs data).
Definition upload_root (cs : nat) (data : list byte) : Node := tree_root hash_branch (upload_leaves cs data).

Lemma chunk_items_ok cs data : Forall (λ x : list byte * Z, length x.1 = HASH_SIZE ∧ 0 ≤ x.2) (chunk_items cs data).
Proof. apply Forall_fmap, Forall_true. intros c. cbn. split; [apply sha256_length|lia]. Qed.

Lemma concat_lengths (ls : list (list byte)) : sum_Z ((λ c, Z.of_nat (length c)) <$> ls) = Z.of_nat (length (concat ls)).
Proof. induction ls as [|c ls IH]; [done|]. rewrite fmap_cons, sum_Z_cons, IH. cbn [concat]. rewrite length_app. lia. Qed.

Lemma chunk_items_sizes cs data : (chunk_items cs data).*2 = (λ c, Z.of_nat (length c)) <$> chunks cs data.
Proof. unfold chunk_items. by rewrite <- list_fmap_compose. Qed.

Lemma take_chunks cs (data : list byte) i : (0 < cs)%nat → concat (take i (chunks cs data)) = take (i * cs) data.
Proof.
  intros Hcs. revert data. induction i as [|i IH]; intros data; [done|].
  destruct (decide (data = [])) as [->|Hne]; [by rewrite take_nil|].
  rewrite chunks_cons by done. cbn [take concat]. rewrite IH. cbn [Nat.mul].
  by rewrite <- take_take_drop.
Qed.

Lemma chunk_at cs (data : list byte) i c : (0 < cs)%nat → chunks cs data !! i = Some c →
  (i * cs < length data)%nat ∧ c = take cs (drop (i * cs) data) ∧ length c = Nat.min cs (length data - i * cs) ∧ c ≠ [].
Proof.
  intros Hcs. rewrite chunks_lookup by done. destruct (Nat.ltb_spec (i * cs) (length data)); [|done]. intros [= <-].
  rewrite length_take, length_drop. split_and!; [done..|]. intros Hnil%(f_equal length). rewrite length_take, length_drop in Hnil. cbn in Hnil. lia.
Qed.

Lemma upload_leaf_at cs data i c : (0 < cs)%nat → chunks cs data !! i = Some c →
  upload_leaves cs data !! i = Some (leaf_node (sha256 c) (Z.of_nat (i * cs)) (Z.of_nat (i * cs + length c))).
Proof.
  intros Hcs Hc. unfold upload_leaves. rewrite leaves_at_lookup, chunk_items_sizes. unfold chunk_items.
  rewrite list_lookup_fmap, Hc. cbn [fmap option_fmap option_map fst]. destruct (chunk_at _ _ _ _ Hcs Hc) as (Hi & _).
  rewrite (sum_Z_take_S _ _ (Z.of_nat (length c))) by (by rewrite list_lookup_fmap, Hc).
  rewrite <- fmap_take, concat_lengths, take_chunks, length_take by done. do 2 f_equal; lia.
Qed.

Lemma length_merkle_leaves cs data : length (upload_leaves cs data) = length (chunks cs data).
Proof. unfold upload_leaves, chunk_items. by rewrite length_leaves_at, length_fmap. Qed.

Lemma upload_leaves_eq cs data : (0 < cs)%nat →
  upload_leaves cs data = imap (λ i c, leaf_node (sha256 c) (Z.of_nat (i * cs)) (Z.of_nat (i * cs + length c))) (chunks cs data).
Proof.
  intros Hcs. apply list_eq. intros i. rewrite list_lookup_imap. destruct (chunks cs data !! i) as [c|] eqn:Hc; [by apply upload_leaf_at|].
  cbn. rewrite lookup_ge_None, length_merkle_leaves in *. by apply lookup_ge_None.
Qed.

Lemma upload_leaf_inv cs data i x : (0 < cs)%nat → upload_leaves cs data !! i = Some x →
  ∃ c, chunks cs data !! i = Some c ∧ x = leaf_node (sha256 c) (Z.of_nat (i * cs)) (Z.of_nat (i * cs + length c)).
Proof.
  intros Hcs Hx. destruct (lookup_lt_is_Some_2 (chunks cs data) i) as [c Hc].
  { rewrite <- length_merkle_leaves. by eapply lookup_lt_Some. }
  exists c. split; [done|]. rewrite (upload_leaf_at _ _ _ _ Hcs Hc) in Hx. by injection Hx as <-.
Qed.

Section Tree.
  Context (cs : nat) (data : list byte).
  Context (Hcs : (0 < cs)%nat) (Hne : data ≠ []) (Hlen : Z.of_nat (length data) < 2 ^ 64).

Lemma upload_tiles : tiles 0 (upload_leaves cs data) (Z.of_nat (length data)).
Proof.
  replace (Z.of_nat (length data)) with (0 + sum_Z (chunk_items cs data).*2).
  - apply leaves_at_tiles, chunk_items_ok.
  - by rewrite chunk_items_sizes, concat_lengths, chunks_concat.
Qed.

Lemma merkle_leaves_ne : upload_leaves cs data ≠ [].
Proof.
  intros Hnil%(f_equal length). rewrite length_merkle_leaves, chunks_cons in Hnil by done. done.
Qed.

Lemma upload_over : tree_over (upload_root cs data) (upload_leaves cs data).
Proof.
  destruct (generate_data_root_ok (upload_leaves cs data) merkle_leaves_ne) as (root & _ & -> & Hover); [|done].
  apply leaves_at_leaf, chunk_items_ok.
Qed.

Lemma upload_positive : Forall (λ x, 0 < n_max_byte_range x) (upload_leaves cs data).
Proof.
  apply Forall_lookup. intros i x (c & Hc & ->)%upload_leaf_inv; [|done].
  destruct (chunk_at _ _ _ _ Hcs Hc) as (_ & _ & _ & Hc'). destruct c; [done|]. cbn [leaf_node n_max_byte_range length]. lia.
Qed.

Lemma generate_leaves_eq pieces : concat pieces = data → generate_leaves (Ok <$> pieces) cs = Ok (upload_leaves cs data).
Proof.
  intros Hp. unfold generate_leaves, generate_leaves_from_chunks. rewrite drain_all_ok, Hp by done.
  apply leaves_from_chunks_eq; [done|]. by rewrite concat_lengths, chunks_concat.
Qed.

Lemma upload_root_ok : generate_data_root (upload_leaves cs data) = Ok (upload_root cs data).
Proof.
  destruct (generate_data_root_ok (upload_leaves cs data) merkle_leaves_ne) as (root & -> & -> & _); [|done].
  apply leaves_at_leaf, chunk_items_ok.
Qed.

Lemma last_chunk_at : ∃ i c, last (upload_leaves cs data) = upload_leaves cs data !! i ∧ chunks cs data !! i = Some c ∧
  S i = length (chunks cs data) ∧ (i * cs + length c = length data)%nat.
Proof.
  destruct (last_is_Some (chunks cs data)) as [_ Hls]. destruct Hls as [c Hc]; [by rewrite chunks_cons|].
  exists (pred (length (chunks cs data))), c. rewrite !last_lookup, length_merkle_leaves in *. split_and!; [done|done| |].
  { rewrite chunks_cons by done. done. }
  destruct (chunk_at _ _ _ _ Hcs Hc) as (Hi & _ & -> & _).
  pose proof (chunks_lookup cs Hcs data (length (chunks cs data))) as Hout. rewrite lookup_ge_None_2 in Hout by done.
  destruct (Nat.ltb_spec (length (chunks cs data) * cs) (length data)); [done|].
  destruct (length (chunks cs data)) as [|k]; [cbn in *; lia|]. cbn [pred] in *. lia.
Qed.

Lemma resolve_upload : ∃ ps, resolve_proofs (upload_root cs data) None = Ok ps ∧ length ps = length (chunks cs data) ∧
  ∀ i c t, chunks cs data !! i = Some c → Z.of_nat (i * cs) ≤ t < Z.of_nat (i * cs + length c) →
    ps !! i = Some (mkProof (Z.of_nat (i * cs + length c) - 1)
      (path_bytes (proof_branches t (upload_root cs data)) (plain_leaf (sha256 c) (Z.of_nat (i * cs + length c))))).
Proof.
  destruct (resolve_proofs_over _ _ _ _ [] upload_over upload_tiles upload_positive) as (ps & Hps & Hl & Hat).
  exists ps. rewrite <- length_merkle_leaves. split_and!; [done..|]. intros i c t Hc Ht.
  by rewrite (Hat i _ t (upload_leaf_at _ _ _ _ Hcs Hc)).
Qed.

Lemma merklize_eq chain_id pieces store :
  concat pieces = data →
  ∃ ps, resolve_proofs (upload_root cs data) None = Ok ps ∧
    merklize chain_id (Ok <$> pieces) cs store =
    Ok (mkDataTransaction (Z.of_nat (length data)) (n_id (upload_root cs data)) chain_id
          (if store then Some data else None) (upload_leaves cs data) ps).
Proof.
  intros Hp. destruct resolve_upload as (ps & Hps & _). exists ps. split; [done|].
  assert (Hm : mapM id (Ok (E:=MerkleError) <$> pieces) = Ok pieces).
  { apply mapM_result_ok, Forall2_fmap_l, Forall_Forall2_diag, Forall_true. done. }
  destruct last_chunk_at as (i & c & Hlast & Hc & _ & Hend).
  unfold merklize. destruct store; [rewrite Hm; res_simpl|]; rewrite generate_leaves_eq by done; res_simpl;
    rewrite upload_root_ok; res_simpl; rewrite Hps; res_simpl; rewrite Hlast, (upload_leaf_at _ _ _ _ Hcs Hc); res_simpl;
    cbn [leaf_node n_max_byte_range n_min_byte_range]; destruct (chunk_at _ _ _ _ Hcs Hc) as (_ & _ & _ & Hc');
    (destruct (Z.eqb_spec (Z.of_nat (i * cs + length c)) (Z.of_nat (i * cs))); [destruct c; [done|cbn in *; lia]|]);
    res_simpl; by rewrite Hend, ?Hp.
Qed.

(** The proof of chunk [i], and what validation says at a position of the chunk. *)
Definition chunk_proof (i : nat) (c : list byte) : list byte :=
  path_bytes (proof_branches (Z.of_nat (i * cs)) (upload_root cs data)) (plain_leaf (sha256 c) (Z.of_nat (i * cs + length c))).
Definition chunk_result (i : nat) (c : list byte) : ValidatePathResult :=
  mkPathResult (sha256 c) (Z.of_nat (i * cs)) (Z.of_nat (i * cs + length c)) (bool_decide (S i = length (chunks cs data))).

Lemma resolved_proof i c : chunks cs data !! i = Some c →
  ∃ ps pf, resolve_proofs (upload_root cs data) None = Ok ps ∧ ps !! i = Some pf ∧
    last_byte_index pf = Z.of_nat (i * cs + length c) - 1 ∧ proof pf = chunk_proof i c.
Proof.
  intros Hc. destruct resolve_upload as (ps & Hps & _ & Hat). destruct (chunk_at _ _ _ _ Hcs Hc) as (_ & _ & _ & Hne').
  eexists ps, _. split_and!; [done|apply (Hat i c (Z.of_nat (i * cs)) Hc)|done..]. destruct c; [done|cbn; lia].
Qed.

Lemma chunk_proof_at i c t : chunks cs data !! i = Some c → Z.of_nat (i * cs) ≤ t →
  (t < Z.of_nat (i * cs + length c) ∨ S i = length (chunks cs data)) →
  chunk_proof i c = path_bytes (proof_branches t (upload_root cs data)) (plain_leaf (sha256 c) (Z.of_nat (i * cs + length c))).
Proof.
  intros Hc Ht Hor. unfold chunk_proof. f_equal. destruct (chunk_at _ _ _ _ Hcs Hc) as (_ & _ & _ & Hne').
  apply (proof_branches_same _ _ _ _ i _ _ _ upload_over upload_tiles (upload_leaf_at _ _ _ _ Hcs Hc)); cbn [leaf_node n_min_byte_range n_max_byte_range]; [lia|lia|].
  rewrite length_merkle_leaves. destruct Hor; [left|by right]. destruct c; [done|cbn in *; lia].
Qed.

Lemma chunk_proof_valid i c t : chunks cs data !! i = Some c → Z.of_nat (i * cs) ≤ t < Z.of_nat (i * cs + length c) →
  validate_path (n_id (upload_root cs data)) (chunk_proof i c) t = Ok (chunk_result i c).
Proof.
  intros Hc Ht. pose proof (upload_leaf_at _ _ _ _ Hcs Hc) as Hx. rewrite (chunk_proof_at i c t) by (tauto || lia).
  pose proof (locate_inside t _ _ _ _ _ upload_tiles Hx ltac:(done)) as Hloc. rewrite length_merkle_leaves in Hloc.
  apply (validate_path_complete _ _ _ t _ _ upload_over upload_tiles ltac:(lia) Hloc).
  cbn [leaf_node n_min_byte_range n_max_byte_range]. lia.
Qed.

Lemma plain_leaf_wf dh k : length dh = HASH_SIZE → leaf_wf (plain_leaf dh k).
Proof. intros Hdh. unfold leaf_wf, plain_leaf. cbn [lp_data_hash lp_notepad lp_offset]. by rewrite length_be_bytes. Qed.

Lemma proof_branches_plain t n L : tree_over n L → Forall (λ b, bp_notepad b = replicate (NOTE_SIZE - 8) x00) (proof_branches t n).
Proof.
  induction 1 as [|l r L R Hl IHl Hr IHr]; [constructor|]. cbn [proof_branches hash_branch n_left_child n_right_child].
  constructor; [done|]. by destruct (_ <=? t).
Qed.

Lemma chunk_proof_plain i c : has_non_zero_notepad (chunk_proof i c) = false.
Proof.
  apply has_non_zero_notepad_path.
  - by eapply proof_branches_wf, upload_over.
  - apply plain_leaf_wf, sha256_length.
  - split; [|done]. eapply proof_branches_plain, upload_over.
Qed.

(** [validate_chunk] descends as [validate_path] does at the last byte of the chunk. *)
Lemma chunk_branches_walk max m id rm bs w :
  validate_branches (max - 1) (mkWalk m id rm) bs = Ok w →
  chunk_branches max id rm bs = Ok (w_expected_path_hash w, w_is_rightmost_chunk w).
Proof.
  revert m id rm. induction bs as [|b bs IH]; intros m id rm Hv; [by injection Hv as <-|].
  apply bind_ok in Hv as (w1 & [Hid ->]%validate_branch_ok & Hv). cbn [w_expected_path_hash w_is_rightmost_chunk w_min_byte_range] in *.
  cbn [chunk_branches]. rewrite bool_decide_true by done. cbn [negb]. res_simpl.
  destruct (Z.leb_spec (branch_offset b) (max - 1)), (Z.ltb_spec (branch_offset b) max); [|lia|lia|]; by eapply IH.
Qed.

Lemma chunk_proof_validates i c k : chunks cs data !! i = Some c →
  validate_chunk (n_id (upload_root cs data)) (leaf_node (sha256 c) (Z.of_nat (i * cs)) (Z.of_nat (i * cs + length c)))
    (mkProof k (chunk_proof i c)) = Ok (bool_decide (S i = length (chunks cs data)), Z.of_nat (i * cs + length c)).
Proof.
  intros Hc. pose proof (upload_leaf_at _ _ _ _ Hcs Hc) as Hx. destruct (chunk_at _ _ _ _ Hcs Hc) as (_ & _ & _ & Hne').
  set (max := Z.of_nat (i * cs + length c)). assert (Z.of_nat (i * cs) ≤ max - 1 < max) as Hmax by (destruct c; [done|cbn in *; lia]).
  pose proof (locate_inside (max - 1) _ _ _ _ _ upload_tiles Hx Hmax) as Hloc. rewrite length_merkle_leaves in Hloc.
  pose proof (proof_branches_walk _ _ _ _ _ true _ _ upload_over upload_tiles ltac:(lia) ltac:(lia) Hloc) as Hwalk.
  rewrite (chunk_proof_at i c (max - 1)) by (tauto || lia). fold max.
  set (bs := proof_branches (max - 1) (upload_root cs data)) in *. set (lf := plain_leaf (sha256 c) max).
  assert (Hwf : Forall branch_wf bs) by (by eapply proof_branches_wf, upload_over).
  assert (Hlf : leaf_wf lf) by (by apply plain_leaf_wf, sha256_length).
  pose proof (proj2 (parse_path_ok _ bs lf) (conj Hwf (conj Hlf eq_refl))) as Hparse.
  unfold parse_path in Hparse. apply bind_ok in Hparse as (n & (j & -> & Hl)%ensure_proof_layout_ok & (bs' & Hbs' & (lf' & Hlf' & [= -> ->])%bind_ok)%bind_ok).
  unfold validate_chunk. cbn [leaf_node n_data_hash n_max_byte_range proof]. fold max. rewrite Hl.
  destruct (Nat.ltb_spec (j * BRANCH_PROOF_LEN + LEAF_PROOF_LEN) (HASH_SIZE + NOTE_SIZE)); [unfold LEAF_PROOF_LEN in *; lia|]. res_simpl.
  replace (j * BRANCH_PROOF_LEN + LEAF_PROOF_LEN - HASH_SIZE - NOTE_SIZE)%nat with (j * BRANCH_PROOF_LEN)%nat by (unfold LEAF_PROOF_LEN, HASH_SIZE, NOTE_SIZE; lia).
  change (HASH_SIZE * 2 + NOTE_SIZE)%nat with BRANCH_PROOF_LEN. rewrite Hbs'. res_simpl. rewrite Hlf'. res_simpl.
  rewrite (chunk_branches_walk _ _ _ _ _ _ Hwalk). res_simpl. rewrite (bool_decide_true (sha256 c = _)) by done. cbn [negb]. res_simpl.
  rewrite (bool_decide_true (hash_all_sha256 _ = _)) by done. cbn [negb]. res_simpl. done.
Qed.

(** An accepted proof is that of a chunk, up to its notepads, or gives a collision. *)
Lemma data_path_sound path t res :
  0 ≤ t → validate_path (n_id (upload_root cs data)) path t = Ok res →
  (∃ i c, chunks cs data !! i = Some c ∧ res = chunk_result i c ∧
     Z.of_nat (i * cs) ≤ t ≤ Z.of_nat (i * cs + length c) ∧
     (t < Z.of_nat (i * cs + length c) ∨ S i = length (chunks cs data)) ∧
     (has_non_zero_notepad path = false → path = chunk_proof i c)) ∨
  collides (path_queries path) (node_queries (upload_root cs data)).
Proof.
  intros Ht0 Hv. destruct (validate_path_sound _ _ _ _ _ _ upload_over upload_tiles ltac:(lia) Hv)
    as [(x & b & bs & lf & Hloc & -> & Ht & Hparse & Hbs & Hlf)|Hc]; [left|by right].
  destruct (locate_lookup t _ _ _ _ _ upload_tiles Ht0 Hloc) as (i & Hi & -> & _ & Hlast).
  destruct (upload_leaf_inv _ _ _ _ Hcs Hi) as (c & Hc & ->). cbn [leaf_node n_min_byte_range n_max_byte_range] in *.
  rewrite length_merkle_leaves in *. exists i, c. split_and!; [done|done|lia|lia| |].
  - destruct (decide (S i = length (chunks cs data))); [by right|left]. apply Hlast. by apply bool_decide_false.
  - intros Hz. apply parse_path_ok in Hparse as (Hwbs & Hwlf & ->).
    apply (has_non_zero_notepad_path _ _ Hwbs Hwlf) in Hz as [Hzb Hzl].
    rewrite (chunk_proof_at i c t); [|done|lia|].
    2:{ destruct (decide (S i = length (chunks cs data))); [by right|left]. apply Hlast. by apply bool_decide_false. }
    f_equal.
    + rewrite <- Hbs. clear -Hzb. induction Hzb as [|bp bs Hb _ IH]; [done|]. rewrite fmap_cons, <- IH. destruct bp. cbn in Hb. by subst.
    + change (leaf_proof_of (leaf_node (sha256 c) (Z.of_nat (i * cs)) (Z.of_nat (i * cs + length c))))
        with (plain_leaf (sha256 c) (Z.of_nat (i * cs + length c))) in Hlf. rewrite <- Hlf. destruct lf. cbn in Hzl. by subst.
Qed.
End Tree.
End Upload.

Section Theorems.
  Context `{Sha256}.

Lemma expected_chunk_byte_range_ok off ds cs lo hi :
  expected_chunk_byte_range off ds cs = Ok (lo, hi) ↔
  0 < ds ∧ 0 < cs ∧ off * cs < ds ∧ off * cs < 2 ^ 64 ∧ off * cs + cs < 2 ^ 64 ∧ lo = off * cs ∧ hi = Z.min (off * cs + cs) ds.
Proof.
  unfold expected_chunk_byte_range, checked_mul, checked_add.
  destruct (Z.ltb_spec 0 ds); cbn [negb]; res_simpl; [|naive_solver lia].
  destruct (Z.ltb_spec 0 cs); cbn [negb]; res_simpl; [|naive_solver lia].
  destruct (Z.ltb_spec (off * cs) (2 ^ 64)); res_simpl; [|naive_solver lia].
  destruct (Z.ltb_spec (off * cs) ds); cbn [negb]; res_simpl; [|naive_solver lia].
  destruct (Z.ltb_spec (off * cs + cs) (2 ^ 64)); res_simpl; naive_solver lia.
Qed.

Lemma validate_path_byte_range_ok path expected :
  validate_path_byte_range path expected = Ok () ↔
  fits 64 (min_byte_range path) = true ∧ fits 64 (max_byte_range path) = true ∧
  (min_byte_range path, max_byte_range path) = expected.
Proof.
  unfold validate_path_byte_range. destruct (fits 64 (min_byte_range path)), (fits 64 (max_byte_range path)); cbn [negb]; res_simpl;
    [|naive_solver..]. rewrite guard_err_ok, negb_false_iff, bool_decide_eq_true. naive_solver.
Qed.

(** What a peer chunk that passes the check has shown. *)
Lemma validate_unpacked_chunk_ok chunk cs :
  validate_unpacked_chunk chunk cs = Ok () ↔
  ∃ lo hi path, expected_chunk_byte_range (uc_tx_offset chunk) (uc_data_size chunk) cs = Ok (lo, hi) ∧
    1 ≤ hi ∧ lo ≤ hi ∧ validate_path (uc_data_root chunk) (uc_data_path chunk) (hi - 1) = Ok path ∧
    Z.of_nat (length (uc_bytes chunk)) = hi - lo ∧ validate_path_byte_range path (lo, hi) = Ok () ∧
    leaf_hash path = sha256 (uc_bytes chunk).
Proof.
  unfold validate_unpacked_chunk. rewrite bind_ok. split.
  - intros ([lo hi] & Hr & Hrest). unfold checked_sub in Hrest.
    destruct (Z.leb_spec 1 hi); res_simpl in Hrest; [|done]. apply bind_ok in Hrest as (path & Hp & Hrest).
    destruct (Z.leb_spec lo hi); res_simpl in Hrest; [|done].
    destruct (Z.eqb_spec (Z.of_nat (length (uc_bytes chunk))) (hi - lo)); cbn [negb] in Hrest; res_simpl in Hrest; [|done].
    apply bind_ok in Hrest as ([] & Hrange & Hh). rewrite guard_err_ok, negb_false_iff, bool_decide_eq_true in Hh.
    by exists lo, hi, path.
  - intros (lo & hi & path & Hr & H1 & Hle & Hp & Hl & Hrange & Hh). exists (lo, hi). split; [done|].
    rewrite (proj2 (checked_sub_Some hi 1 (hi - 1))) by lia. res_simpl. rewrite Hp. res_simpl.
    rewrite (proj2 (checked_sub_Some hi lo (hi - lo))) by lia. res_simpl. rewrite Hl, Z.eqb_refl. cbn [negb]. res_simpl.
    rewrite Hrange. res_simpl. by rewrite bool_decide_true.
Qed.

(** C28: Building a data transaction from any stream of byte vectors succeeds, and every proof
    it holds is accepted by the three verifiers of chunks: at each byte of chunk [i] the path
    check answers the hash and the exact range of that chunk and whether it is the last one,
    the chunk check for peers accepts the chunk, and the check of the uploader accepts its
    leaf.  Proofs have zero notepads.  The tree has the shape of RFC 6962 over one leaf for
    each chunk of the whole data, and every other cut of the same bytes into vectors gives the
    same transaction, with its root, size, leaves and proofs. *)
Theorem merklize_proofs_verify chain_id cs pieces store :
  (0 < cs)%nat → concat pieces ≠ [] → Z.of_nat (length (concat pieces) + cs) < 2 ^ 64 →
  ∃ tx root, merklize chain_id (Ok <$> pieces) cs store = Ok tx ∧
    (∀ pieces', concat pieces' = concat pieces → merklize chain_id (Ok <$> pieces') cs store = Ok tx) ∧
    dt_chunks tx = imap (λ i c, leaf_node (sha256 c) (Z.of_nat (i * cs)) (Z.of_nat (i * cs + length c))) (chunks cs (concat pieces)) ∧
    root = tree_root hash_branch (dt_chunks tx) ∧ dt_data_root tx = n_id root ∧
    dt_data_size tx = Z.of_nat (length (concat pieces)) ∧
    length (dt_proofs tx) = length (chunks cs (concat pieces)) ∧
    ∀ i c, chunks cs (concat pieces) !! i = Some c →
      ∃ pf leaf, dt_proofs tx !! i = Some pf ∧ dt_chunks tx !! i = Some leaf ∧
        has_non_zero_notepad (proof pf) = false ∧
        (∀ t, Z.of_nat (i * cs) ≤ t < Z.of_nat (i * cs + length c) →
           validate_path (dt_data_root tx) (proof pf) t =
           Ok (mkPathResult (sha256 c) (Z.of_nat (i * cs)) (Z.of_nat (i * cs + length c))
                 (bool_decide (S i = length (dt_chunks tx))))) ∧
        validate_unpacked_chunk (mkUnpackedChunk (dt_data_root tx) (dt_data_size tx) (proof pf) c (Z.of_nat i)) (Z.of_nat cs) = Ok () ∧
        validate_chunk (dt_data_root tx) leaf pf = Ok (bool_decide (S i = length (dt_chunks tx)), Z.of_nat (i * cs + length c)).
Proof.
  intros Hcs Hne Hlen. set (data := concat pieces) in *. assert (Hlen' : Z.of_nat (length data) < 2 ^ 64) by lia.
  destruct (merklize_eq cs data Hcs Hne Hlen' chain_id pieces store eq_refl) as (ps & Hps & ->).
  destruct (resolve_upload cs data Hcs Hne) as (ps' & Hps' & Hl & _). rewrite Hps in Hps'. injection Hps' as <-.
  eexists _, (upload_root cs data). split; [done|]. split.
  { intros pieces' Heq. destruct (merklize_eq cs data Hcs Hne Hlen' chain_id pieces' store Heq) as (ps' & Hps' & ->). congruence. }
  cbn [dt_chunks dt_data_root dt_data_size dt_proofs]. split_and!; [by apply upload_leaves_eq|done..|].
  intros i c Hc. destruct (resolved_proof cs data Hcs Hne i c Hc) as (ps' & pf & Hps' & Hpf & _ & Hproof).
  rewrite Hps in Hps'. injection Hps' as <-. exists pf, (leaf_node (sha256 c) (Z.of_nat (i * cs)) (Z.of_nat (i * cs + length c))).
  rewrite length_merkle_leaves, Hproof. destruct (chunk_at _ _ _ _ Hcs Hc) as (Hi & _ & Hcl & Hc').
  assert (0 < length c)%nat by (destruct c; [done|cbn; lia]).
  split_and!; [done|by apply upload_leaf_at|by apply chunk_proof_plain| | |].
  - intros t Ht. by apply chunk_proof_valid.
  - apply validate_unpacked_chunk_ok. cbn [uc_tx_offset uc_data_size uc_data_root uc_data_path uc_bytes].
    exists (Z.of_nat (i * cs)), (Z.of_nat (i * cs + length c)), (chunk_result cs data i c). split_and!; [|lia|lia| |lia| |done].
    + apply expected_chunk_byte_range_ok. rewrite Hcl. lia.
    + apply chunk_proof_valid; [done..|]. lia.
    + apply validate_path_byte_range_ok. cbn [chunk_result min_byte_range max_byte_range]. unfold fits. split_and!; [..|done]; lia.
  - destruct pf as [k p]. cbn [proof] in Hproof. subst p. by apply chunk_proof_validates.
Qed.

(** A path that the validator accepts against the data root of an upload is, at its
    position, the path of the chunk there: the answer is the hash and range of that chunk, the
    position lies in it (or at the end of the data), and with zero notepads the bytes are
    exactly those of the proof of the transaction; otherwise the path and the tree contain two
    distinct inputs of the hash with one digest. *)
Theorem data_path_binds chain_id cs pieces store tx path t res :
  (0 < cs)%nat → concat pieces ≠ [] → Z.of_nat (length (concat pieces)) < 2 ^ 64 → 0 ≤ t →
  merklize chain_id (Ok <$> pieces) cs store = Ok tx →
  validate_path (dt_data_root tx) path t = Ok res →
  (∃ i c pf, chunks cs (concat pieces) !! i = Some c ∧ dt_proofs tx !! i = Some pf ∧
     res = mkPathResult (sha256 c) (Z.of_nat (i * cs)) (Z.of_nat (i * cs + length c)) (bool_decide (S i = length (dt_chunks tx))) ∧
     Z.of_nat (i * cs) ≤ t ∧ (t < Z.of_nat (i * cs + length c) ∨ t = dt_data_size tx) ∧
     (has_non_zero_notepad path = false → path = proof pf)) ∨
  collides (path_queries path) (node_queries (tree_root hash_branch (dt_chunks tx))).
Proof.
  intros Hcs Hne Hlen Ht Htx Hv. set (data := concat pieces) in *.
  destruct (merklize_eq cs data Hcs Hne Hlen chain_id pieces store eq_refl) as (ps & Hps & Heq). rewrite Heq in Htx. injection Htx as <-.
  cbn [dt_data_root dt_chunks dt_proofs dt_data_size] in *. fold (upload_root cs data) in *.
  destruct (data_path_sound cs data Hcs Hne Hlen path t res Ht Hv) as [(i & c & Hc & -> & Hr & Hor & Hz)|Hc]; [left|by right].
  destruct (resolved_proof cs data Hcs Hne i c Hc) as (ps' & pf & Hps' & Hpf & _ & Hproof). rewrite Hps in Hps'. injection Hps' as <-.
  exists i, c, pf. rewrite length_merkle_leaves, Hproof. split_and!; [done..|lia| |done].
  destruct Hor as [Hor|Hlast]; [by left|]. destruct (decide (t < Z.of_nat (i * cs + length c))); [by left|right].
  destruct (last_chunk_at cs data Hcs Hne) as (j & c' & Hl & Hc2 & Hj & Hend).
  assert (j = i) as -> by lia.
  rewrite Hc in Hc2. injection Hc2 as <-. lia.
Qed.

(** C27: A chunk from a peer that passes the unpacked-chunk check against the data root of an
    upload has exactly the bytes of the upload at its offset, whatever data size the peer
    claims; otherwise a collision of the hash is exhibited. *)
Theorem accepted_unpacked_chunk_is_upload chain_id cs pieces store tx chunk :
  (0 < cs)%nat → concat pieces ≠ [] → Z.of_nat (length (concat pieces)) < 2 ^ 64 → 0 ≤ uc_tx_offset chunk →
  merklize chain_id (Ok <$> pieces) cs store = Ok tx → uc_data_root chunk = dt_data_root tx →
  validate_unpacked_chunk chunk (Z.of_nat cs) = Ok () →
  uc_bytes chunk = take cs (drop (Z.to_nat (uc_tx_offset chunk) * cs) (concat pieces)) ∧ uc_bytes chunk ≠ [] ∨
  collides (uc_bytes chunk :: path_queries (uc_data_path chunk))
           (chunks cs (concat pieces) ++ node_queries (tree_root hash_branch (dt_chunks tx))).
Proof.
  intros Hcs Hne Hlen Hoff Htx Hroot Hv. set (data := concat pieces) in *.
  destruct (merklize_eq cs data Hcs Hne Hlen chain_id pieces store eq_refl) as (ps & Hps & Heq). rewrite Heq in Htx. injection Htx as <-.
  cbn [dt_data_root dt_chunks] in *. fold (upload_root cs data) in *.
  apply validate_unpacked_chunk_ok in Hv as (lo & hi & res & Hexp & H1 & Hle & Hp & Hl & Hrange & Hh).
  apply expected_chunk_byte_range_ok in Hexp as (? & ? & ? & _ & _ & -> & Hhi).
  rewrite Hroot in Hp. destruct (data_path_sound cs data Hcs Hne Hlen _ (hi - 1) _ ltac:(lia) Hp) as [(i & c & Hc & -> & Hr & _ & _)|Hcol].
  2:{ right. eapply collides_mono; [done|set_solver..]. }
  apply validate_path_byte_range_ok in Hrange as (_ & _ & [= Hlo Hhi']). cbn [chunk_result leaf_hash] in Hh.
  assert (Z.to_nat (uc_tx_offset chunk) = i) as -> by nia.
  destruct (chunk_at _ _ _ _ Hcs Hc) as (_ & Htake & _ & Hc').
  destruct (sha256_same _ _ Hh) as [<-|Hcol]; [left; by rewrite <- Htake|right].
  destruct Hcol as (a & b & ->%list_elem_of_singleton & ->%list_elem_of_singleton & Hab & Hsame).
  exists (uc_bytes chunk), c. split_and!; [by left| |done..]. apply elem_of_app. left. by eapply list_elem_of_lookup_2.
Qed.

(** The data root determines the data: two uploads, also in chunks of different sizes,
    with one data root have the same bytes, or a collision of the hash is exhibited. *)
Theorem data_root_binds cs cs' data data' :
  (0 < cs)%nat → (0 < cs')%nat → data ≠ [] → data' ≠ [] →
  Z.of_nat (length data) < 2 ^ 64 → Z.of_nat (length data') < 2 ^ 64 →
  n_id <$> (leaves ← generate_leaves [Ok data] cs; generate_data_root leaves) =
  n_id <$> (leaves ← generate_leaves [Ok data'] cs'; generate_data_root leaves) →
  data = data' ∨
  collides (chunks cs data ++ node_queries (upload_root cs data)) (chunks cs' data' ++ node_queries (upload_root cs' data')).
Proof.
  intros Hcs Hcs' Hne Hne' Hlen Hlen'.
  assert (∀ d : list byte, concat [d] = d) as Hcat by (intros d; apply app_nil_r).
  rewrite (generate_leaves_eq cs data Hcs Hlen [data] (Hcat _)), (generate_leaves_eq cs' data' Hcs' Hlen' [data'] (Hcat _)).
  res_simpl. rewrite (upload_root_ok cs data Hcs Hne), (upload_root_ok cs' data' Hcs' Hne'). cbn. intros [= Hid].
  destruct (trees_bind _ _ _ _ _ _ _ _ (upload_over cs data Hcs Hne) (upload_over cs' data' Hcs' Hne')
    (upload_tiles cs data Hcs) (upload_tiles cs' data' Hcs') ltac:(lia) Hlen ltac:(lia) Hlen' Hid) as [Heq|Hc].
  2:{ right. eapply collides_mono; [done|set_solver..]. }
  assert (sha256 <$> chunks cs data = sha256 <$> chunks cs' data') as Hsha.
  { assert (Hd : ∀ k d lo, (λ x, (n_data_hash x, n_max_byte_range x).1) <$> leaves_at lo (chunk_items k d) = Some <$> (sha256 <$> chunks k d)).
    { clear. intros k d. unfold chunk_items. induction (chunks k d) as [|c l IH]; intros lo; [done|]. rewrite !fmap_cons. cbn [leaves_at]. rewrite fmap_cons, IH. done. }
    apply (f_equal (fmap fst)) in Heq. rewrite <- !list_fmap_compose in Heq.
    assert (Some <$> (sha256 <$> chunks cs data) = Some <$> (sha256 <$> chunks cs' data')) as Hs by (rewrite <- (Hd cs data 0), <- (Hd cs' data' 0); exact Heq).
    by apply (inj (fmap Some)) in Hs. }
  rewrite <- (chunks_concat cs Hcs data), <- (chunks_concat cs' Hcs' data') at 1.
  destruct (digests_same (chunks cs data) (chunks cs' data')) as [->|Hc].
  { assert (Hb : ∀ ms : list (list byte), ms ≫= sha256 = concat (sha256 <$> ms)) by (induction ms as [|m ms IH]; [done|]; cbn; by rewrite IH).
    by rewrite !Hb, Hsha. }
  - by left.
  - right. eapply collides_mono; [done|set_solver..].
Qed.
End Theorems.

(** * A small upload that instantiates the theorems on data roots. *)

Module MerkleExample.

Definition toy_digest (m : list byte) : list byte := be_bytes 32 (of_be_bytes m + 1).

#[local] Instance toy_sha : Sha256 := { sha256 := toy_digest; sha256_length := λ m, length_be_bytes 32 _ }.

(** Five bytes in two pieces, in chunks of two bytes. *)
Definition pieces : list (list byte) := [[x01; x02; x03]; [x04; x05]].
Definition tx : DataTransaction :=
  match merklize 7 (Ok <$> pieces) 2 true with Ok tx => tx | _ => mkDataTransaction 0 [] 0 None [] [] end.
Definition path (i : nat) : list byte := default [] (proof <$> dt_proofs tx !! i).
Definition third : UnpackedChunk := mkUnpackedChunk (dt_data_root tx) 5 (path 2) [x05] 2.

Lemma merklize_proofs_verify_witness :
  ∃ tx root, merklize 7 (Ok <$> pieces) 2 true = Ok tx ∧ merklize 7 (Ok <$> [[x01; x02; x03; x04; x05]; []]) 2 true = Ok tx ∧
    root = tree_root hash_branch (dt_chunks tx) ∧ dt_data_root tx = n_id root ∧ dt_data_size tx = 5 ∧
    length (dt_proofs tx) = 3%nat.
Proof.
  destruct (merklize_proofs_verify 7 2 pieces true ltac:(lia) ltac:(done) ltac:(done)) as (t & root & Hm & Hcut & _ & Hr & Hid & Hs & Hl & _).
  exists t, root. split_and!; [done|by apply Hcut|done..].
Defined.

Lemma data_path_binds_witness :
  validate_path (dt_data_root tx) (path 1) 3 = Ok (mkPathResult (sha256 [x03; x04]) 2 4 false) ∧
  ((∃ i c pf, chunks 2 (concat pieces) !! i = Some c ∧ dt_proofs tx !! i = Some pf ∧
     mkPathResult (sha256 [x03; x04]) 2 4 false =
       mkPathResult (sha256 c) (Z.of_nat (i * 2)) (Z.of_nat (i * 2 + length c)) (bool_decide (S i = length (dt_chunks tx))) ∧
     Z.of_nat (i * 2) ≤ 3 ∧ (3 < Z.of_nat (i * 2 + length c) ∨ 3 = dt_data_size tx) ∧
     (has_non_zero_notepad (path 1) = false → path 1 = proof pf)) ∨
   collides (path_queries (path 1)) (node_queries (tree_root hash_branch (dt_chunks tx)))).
Proof.
  assert (Hv : validate_path (dt_data_root tx) (path 1) 3 = Ok (mkPathResult (sha256 [x03; x04]) 2 4 false)) by (vm_compute; reflexivity).
  split; [exact Hv|].
  apply (data_path_binds 7 2 pieces true tx (path 1) 3); [lia|done|done|lia|vm_compute; reflexivity|exact Hv].
Defined.

Lemma accepted_unpacked_chunk_is_upload_witness :
  validate_unpacked_chunk third 2 = Ok () ∧
  (uc_bytes third = take 2 (drop (Z.to_nat (uc_tx_offset third) * 2) (concat pieces)) ∧ uc_bytes third ≠ [] ∨
   collides (uc_bytes third :: path_queries (uc_data_path third))
            (chunks 2 (concat pieces) ++ node_queries (tree_root hash_branch (dt_chunks tx)))).
Proof.
  assert (Hv : validate_unpacked_chunk third (Z.of_nat 2) = Ok ()) by (vm_compute; reflexivity).
  split; [exact Hv|].
  apply (accepted_unpacked_chunk_is_upload 7 2 pieces true tx third); [lia|done|done|done|vm_compute; reflexivity|done|exact Hv].
Defined.

Lemma data_root_binds_witness :
  concat pieces = [x01; x02; x03; x04; x05] ∨
  collides (chunks 2 (concat pieces) ++ node_queries (upload_root 2 (concat pieces)))
           (chunks 2 [x01; x02; x03; x04; x05] ++ node_queries (upload_root 2 [x01; x02; x03; x04; x05])).
Proof. apply (data_root_binds 2 2 (concat pieces) [x01; x02; x03; x04; x05]); [lia|lia|done|done|done|done|vm_compute; reflexivity]. Defined.

(** The verifiers reject the path of another chunk and changed bytes. *)
Example wrong_position : validate_path (dt_data_root tx) (path 1) 0 = Err LeafMismatch.
Proof. vm_compute. reflexivity. Qed.
Example wrong_bytes :
  validate_unpacked_chunk (mkUnpackedChunk (dt_data_root tx) 5 (path 2) [x06] 2) 2 = Err ChunkHashMismatch.
Proof. vm_compute. reflexivity. Qed.
End MerkleExample.
