(* ===== verification/BlockIndex.v ===== *)
(** The block index ([crates/domain/src/models/block_index.rs] over the tables of
    [crates/database/src/database.rs]): for every migrated height the block hash and the
    cumulative chunk count and transaction root of each ledger, and the search for the block
    that added a chunk.

    The index is two tables.  One keeps several values per key and returns them in the order
    of their encoding, which a macro of another crate derives: the order is the class
    [DupSort].  Block hashes are numbers, as in [EpochSnapshot].  Reads and writes of the
    database that fail are not modelled. *)

From S2P Require Import DataLedger EpochSnapshot Prelude.

Record LedgerIndexItem : Type := mkLedgerIndexItem {
  li_total_chunks : Z;
  li_tx_root : list byte;
  li_ledger : DataLedger
}.
#[global] Instance LedgerIndexItem_eq_dec : EqDecision LedgerIndexItem.
Proof. solve_decision. Defined.

Record BlockIndexItem : Type := mkBlockIndexItem {
  bi_block_hash : Z;
  bi_num_ledgers : Z;
  bi_ledgers : list LedgerIndexItem
}.

(** The values of one key come back as a permutation of those that were put. *)
Class DupSort : Type := {
  walk_dup : list LedgerIndexItem → list LedgerIndexItem;
  walk_dup_perm : ∀ l, NoDup l → walk_dup l ≡ₚ l
}.

(** The tables [IrysBlockIndexItems] and [MigratedBlockHashes]. *)
Record IndexDb : Type := mkIndexDb {
  index_items : gmap Z (list LedgerIndexItem);
  migrated_hashes : gmap Z Z
}.

(** [eyre::Report]s of the index. *)
Inductive IndexReport : Type :=
| NoBlockHash (height : Z)
| TooManyLedgers
| PrevBlockMismatch
| UnknownLedger (id : Z)
| TotalChunksOverflow
| LedgerNotFound (height : Z)
| EmptyIndex
| BeyondLastBlock.

Inductive BlockBoundsError : Type :=
| IndexEmpty
| LedgerInactive (ledger : DataLedger) (anchor_height : Z)
| OffsetBeyondFrontier (ledger : DataLedger) (chunk_offset frontier anchor_height : Z)
| Internal (report : IndexReport).

Record BlockBounds : Type := mkBlockBounds {
  bb_height : Z;
  bb_block_hash : Z;
  bb_ledger : DataLedger;
  start_chunk_offset : Z;
  end_chunk_offset : Z;
  bb_tx_root : list byte
}.

(** [DataLedger::try_from]. *)
Definition ledger_of_id (id : Z) : option DataLedger :=
  if id =? 0 then Some Publish else if id =? 1 then Some Submit
  else if id =? 10 then Some OneYear else if id =? 20 then Some ThirtyDay else None.

(** A ledger of a header, and the fields of a data transaction header that positions, proofs
    and fees depend on. *)
Record DataTransactionLedger : Type := mkTxLedger {
  tl_ledger_id : Z;
  tl_tx_root : list byte;
  tl_tx_ids : list Z;
  tl_total_chunks : Z
}.
Record DataTransactionHeader : Type := mkTxHeader {
  th_id : Z;
  th_signer : Z;
  th_data_root : list byte;
  th_prefix_hash : list byte;
  th_data_size : Z;
  th_term_fee : Z;
  th_perm_fee : option Z
}.
Record LedgerHeader : Type := mkLedgerHeader {
  lh_block_hash : Z;
  lh_previous_block_hash : Z;
  lh_height : Z;
  lh_data_ledgers : list DataTransactionLedger;
  lh_treasury : Z;
  lh_evm_block_hash : Z
}.
Record LedgerBlock : Type := mkLedgerBlock {
  lb_header : LedgerHeader;
  lb_ledger_txs : DataLedger → list DataTransactionHeader
}.

Definition find_ledger (ledger : DataLedger) (items : list LedgerIndexItem) : option LedgerIndexItem :=
  List.find (λ l, bool_decide (li_ledger l = ledger)) items.

(** [iter().find(|l| l.ledger == ledger).map(|l| l.total_chunks)]. *)
Definition ledger_total (ledger : DataLedger) (item : BlockIndexItem) : option Z :=
  li_total_chunks <$> find_ledger ledger (bi_ledgers item).

Section BlockIndex.
  Context `{DupSort}.

Definition block_index_item_by_height (db : IndexDb) (height : Z) : result IndexReport BlockIndexItem :=
  let ledgers := walk_dup (default [] (index_items db !! height)) in
  block_hash ← ok_or (migrated_hashes db !! height) (NoBlockHash height);
  num_ledgers ← ok_or (if fits 8 (Z.of_nat (length ledgers)) then Some (Z.of_nat (length ledgers)) else None) TooManyLedgers;
  Ok (mkBlockIndexItem block_hash num_ledgers ledgers).

(** [get_item]. *)
Definition get_item (db : IndexDb) (height : Z) : option BlockIndexItem :=
  match block_index_item_by_height db height with Ok item => Some item | _ => None end.

(** A [put] of a value the key already has changes nothing. *)
Definition put_dup (items : list LedgerIndexItem) (item : LedgerIndexItem) : list LedgerIndexItem :=
  if bool_decide (item ∈ items) then items else items ++ [item].

Definition insert_block_index_item (db : IndexDb) (height : Z) (item : BlockIndexItem) : IndexDb :=
  let items := foldl put_dup [] (bi_ledgers item) in
  mkIndexDb (if bool_decide (items = []) then delete height (index_items db) else <[height := items]> (index_items db))
            (<[height := bi_block_hash item]> (migrated_hashes db)).

Definition block_index_num_blocks (db : IndexDb) : Z := Z.of_nat (size (migrated_hashes db)).

(** The last key of [MigratedBlockHashes]. *)
Definition block_index_latest_height (db : IndexDb) : option Z :=
  match map_to_list (migrated_hashes db) with
  | [] => None
  | kv :: l => Some (foldr (λ kv m, Z.max kv.1 m) kv.1 l)
  end.

(** [truncate_to_height]: no height above the target remains. *)
Definition truncate_to_height {E} (db : IndexDb) (target_height : Z) : result E IndexDb :=
  first ← expect (checked_add 64 target_height 1);
  Ok (mkIndexDb (filter (λ kv, kv.1 < first) (index_items db)) (filter (λ kv, kv.1 < first) (migrated_hashes db))).

(** ** Adding a block *)

(** [calculate_chunks_added]: the bytes of whole chunks, divided by the chunk size. *)
Fixpoint chunk_bytes_added (acc : Z) (txs : list DataTransactionHeader) (chunk_size : Z) : result IndexReport Z :=
  match txs with
  | [] => Ok acc
  | tx :: rest =>
      _ ← expect (if chunk_size =? 0 then None else Some tt);
      bytes ← expect (checked_mul 64 (div_ceil (th_data_size tx) chunk_size) chunk_size);
      acc' ← expect (checked_add 64 acc bytes);
      chunk_bytes_added acc' rest chunk_size
  end.
Definition calculate_chunks_added (txs : list DataTransactionHeader) (chunk_size : Z) : result IndexReport Z :=
  bytes_added ← chunk_bytes_added 0 txs chunk_size;
  if chunk_size =? 0 then Panic else Ok (bytes_added / chunk_size).

(** The previous item of a block that is not the first. *)
Definition prev_item (db : IndexDb) (block : LedgerHeader) : result IndexReport (option BlockIndexItem) :=
  if (block_index_num_blocks db =? 0) && (lh_height block =? 0) then Ok None
  else
    prev ← block_index_item_by_height db (saturating_sub (lh_height block) 1);
    _ ← guard_err (negb (bi_block_hash prev =? lh_previous_block_hash block)) PrevBlockMismatch;
    Ok (Some prev).

Definition ledger_index_item (prev : option BlockIndexItem) (b : LedgerBlock) (chunk_size : Z) (dl : DataTransactionLedger)
  : result IndexReport LedgerIndexItem :=
  ledger ← ok_or (ledger_of_id (tl_ledger_id dl)) (UnknownLedger (tl_ledger_id dl));
  chunks_added ← calculate_chunks_added (lb_ledger_txs b ledger) chunk_size;
  total_chunks ← (match prev with
                  | None => Ok (if bool_decide (ledger = Publish) then 0 else chunks_added)
                  | Some prev => ok_or (checked_add 64 (default 0 (ledger_total ledger prev)) chunks_added) TotalChunksOverflow
                  end);
  Ok (mkLedgerIndexItem total_chunks (tl_tx_root dl) ledger).

Definition push_block (db : IndexDb) (b : LedgerBlock) (chunk_size : Z) : result IndexReport IndexDb :=
  let block := lb_header b in
  prev ← prev_item db block;
  ledgers ← mapM (ledger_index_item prev b chunk_size) (lh_data_ledgers block);
  let item := mkBlockIndexItem (lh_block_hash block) (Z.of_nat (length ledgers) mod 256) ledgers in
  Ok (insert_block_index_item db (lh_height block) item).

(** ** Searching a chunk *)

(** The loop [while lo < hi] of the search, for the first height whose total is above the
    offset; [total] reads the total of a height. *)
Fixpoint search {E} (fuel : nat) (total : Z → result E Z) (chunk_offset lo hi : Z) : result E Z :=
  match fuel with
  | O => Ok lo
  | S fuel' =>
      if lo <? hi then
        let mid := lo + (hi - lo) / 2 in
        t ← total mid;
        if chunk_offset <? t then search fuel' total chunk_offset lo mid
        else search fuel' total chunk_offset (mid + 1) hi
      else Ok lo
  end.

(** Rounds that are enough for an interval of [u64] heights. *)
Definition search_rounds : nat := 64.

Definition internal {A} (r : result IndexReport A) : result BlockBoundsError A := map_err Internal r.

Definition block_bounds_at_height_in_tx (db : IndexDb) (ledger : DataLedger) (chunk_offset anchor_height : Z)
  : result BlockBoundsError BlockBounds :=
  anchor_item ← internal (block_index_item_by_height db anchor_height);
  anchor_max ← ok_or (ledger_total ledger anchor_item) (LedgerInactive ledger anchor_height);
  _ ← guard_err (anchor_max <=? chunk_offset) (OffsetBeyondFrontier ledger chunk_offset anchor_max anchor_height);
  let total h := item ← internal (block_index_item_by_height db h); Ok (default 0 (ledger_total ledger item)) in
  block_height ← search search_rounds total chunk_offset 0 anchor_height;
  found_item ← internal (block_index_item_by_height db block_height);
  prev_total ← (if block_height =? 0 then Ok 0
                else previous_item ← internal (block_index_item_by_height db (block_height - 1));
                     Ok (default 0 (ledger_total ledger previous_item)));
  found_ledger ← ok_or (find_ledger ledger (bi_ledgers found_item)) (Internal (LedgerNotFound block_height));
  Ok (mkBlockBounds block_height (bi_block_hash found_item) ledger prev_total (li_total_chunks found_ledger)
        (li_tx_root found_ledger)).

Definition block_bounds_in_tx (db : IndexDb) (ledger : DataLedger) (chunk_offset : Z) : result BlockBoundsError BlockBounds :=
  anchor_height ← ok_or (block_index_latest_height db) IndexEmpty;
  block_bounds_at_height_in_tx db ledger chunk_offset anchor_height.

(** [get_block_index_item]: here a block without the ledger is an error. *)
Definition get_block_index_item (db : IndexDb) (ledger : DataLedger) (chunk_offset : Z)
  : result IndexReport (Z * BlockIndexItem) :=
  latest_height ← ok_or (block_index_latest_height db) EmptyIndex;
  last_item ← block_index_item_by_height db latest_height;
  last_max ← ok_or (ledger_total ledger last_item) (LedgerNotFound latest_height);
  _ ← guard_err (negb (chunk_offset <? last_max)) BeyondLastBlock;
  let total h := item ← block_index_item_by_height db h; ok_or (ledger_total ledger item) (LedgerNotFound h) in
  lo ← search search_rounds total chunk_offset 0 latest_height;
  item ← block_index_item_by_height db lo;
  Ok (lo, item).
End BlockIndex.
