(* ===== verification/BlockIndexFacts.v ===== *)
(** The block index is a list of items, one per height: adding a block appends its item, the
    binary search finds the block that a scan of the list finds, and histories of the index
    give the exact answer of a lookup. *)

From S2P Require Import DataLedger EpochSnapshot BlockIndex Prelude.

(** ** Binary search *)

Section Search.
  Context {E : Type} (total : Z → result E Z) (f : Z → Z) (off : Z).

Lemma search_spec fuel lo hi :
  (∀ h, lo ≤ h < hi → total h = Ok (f h)) → (∀ h k, lo ≤ h ≤ k → k < hi → f h ≤ f k) →
  lo ≤ hi → hi - lo < 2 ^ Z.of_nat fuel →
  ∃ r, search fuel total off lo hi = Ok r ∧ lo ≤ r ≤ hi ∧ (∀ h, lo ≤ h < r → f h ≤ off) ∧ (r < hi → off < f r).
Proof.
  revert lo hi. induction fuel as [|fuel IH]; intros lo hi Htot Hmono Hle Hlen; cbn [search].
  - change (2 ^ Z.of_nat 0) with 1 in Hlen. exists lo. split_and!; [done|lia|lia|lia|lia].
  - rewrite Nat2Z.inj_succ, Z.pow_succ_r in Hlen by lia. destruct (Z.ltb_spec lo hi); [|exists lo; split_and!; [done|lia..]].
    set (mid := lo + (hi - lo) / 2). assert (lo ≤ mid < hi) as Hmid by (unfold mid; div_lia).
    rewrite Htot by done. res_simpl. destruct (Z.ltb_spec off (f mid)) as [Hm|Hm].
    + destruct (IH lo mid) as (r & Hr & Hb & Hlow & Hup).
      { intros h Hh. apply Htot. lia. } { intros h k Hh Hk. apply Hmono; lia. } { lia. } { unfold mid. div_lia. }
      exists r. split_and!; [done|lia|lia|done|]. intros _. destruct (Z.lt_ge_cases r mid); [by apply Hup|].
      assert (r = mid) as -> by lia. done.
    + destruct (IH (mid + 1) hi) as (r & Hr & Hb & Hlow & Hup).
      { intros h Hh. apply Htot. lia. } { intros h k Hh Hk. apply Hmono; lia. } { lia. } { unfold mid. div_lia. }
      exists r. split_and!; [done|lia|lia| |done]. intros h Hh. destruct (Z.lt_ge_cases mid h); [apply Hlow; lia|].
      transitivity (f mid); [apply Hmono; lia|done].
Qed.
End Search.

(** ** Ledgers of an item *)

Definition same_ledgers (l l' : list LedgerIndexItem) : Prop := l ≡ₚ l' ∧ NoDup (li_ledger <$> l').

Lemma find_ledger_Some ledger l x :
  NoDup (li_ledger <$> l) → find_ledger ledger l = Some x ↔ x ∈ l ∧ li_ledger x = ledger.
Proof.
  intros Hnd. induction l as [|y l IH]; [split; [done|]; by intros [?%elem_of_nil _]|].
  rewrite fmap_cons in Hnd. apply NoDup_cons in Hnd as [Hy Hnd]. specialize (IH Hnd).
  unfold find_ledger. cbn [List.find]. fold (find_ledger ledger l). case_bool_decide as Hl.
  - split; [intros [= ->]; split; [left|done]|]. intros [[->|Hx]%elem_of_cons <-]; [done|]. destruct Hy. rewrite Hl. by apply list_elem_of_fmap_2.
  - rewrite IH. split; [intros []; split; [by right|done]|]. intros [[->|Hx]%elem_of_cons Hled]; done.
Qed.

Lemma find_ledger_perm ledger l l' : same_ledgers l l' → find_ledger ledger l = find_ledger ledger l'.
Proof.
  intros [Hp Hnd]. assert (NoDup (li_ledger <$> l)) as Hnd' by (by rewrite Hp).
  apply option_eq. intros x. rewrite !find_ledger_Some by done. by rewrite Hp.
Qed.

Definition total_of (ledger : DataLedger) (item : BlockIndexItem) : Z := default 0 (ledger_total ledger item).

(** ** The list of items *)

Definition item_ok (item : BlockIndexItem) : Prop :=
  NoDup (li_ledger <$> bi_ledgers item) ∧ bi_num_ledgers item = Z.of_nat (length (bi_ledgers item)).

Lemma length_ledgers (l : list LedgerIndexItem) : NoDup (li_ledger <$> l) → (length l ≤ 4)%nat.
Proof.
  intros Hnd. rewrite <- (length_fmap li_ledger). change 4%nat with (length [Publish; Submit; OneYear; ThirtyDay]).
  apply submseteq_length, NoDup_submseteq; [done|]. intros [] _; set_solver.
Qed.

Section BlockIndexFacts.
  Context `{DupSort}.

Record index_ok (db : IndexDb) (items : list BlockIndexItem) : Prop := {
  io_hashes : migrated_hashes db = map_seqZ 0 (bi_block_hash <$> items);
  io_ledgers i item : items !! i = Some item → default [] (index_items db !! Z.of_nat i) = bi_ledgers item ∧ item_ok item
}.

Lemma io_hash db items h : index_ok db items →
  migrated_hashes db !! h = if 0 <=? h then bi_block_hash <$> items !! Z.to_nat h else None.
Proof.
  intros Hok. rewrite (io_hashes _ _ Hok), lookup_map_seqZ, Z.sub_0_r, list_lookup_fmap.
  destruct (Z.leb_spec 0 h); [by rewrite option_guard_True|by rewrite option_guard_False by lia].
Qed.

Lemma item_by_height db items i item :
  index_ok db items → items !! i = Some item →
  ∃ item', block_index_item_by_height db (Z.of_nat i) = Ok item' ∧ bi_block_hash item' = bi_block_hash item ∧
    bi_num_ledgers item' = bi_num_ledgers item ∧ ∀ ledger, find_ledger ledger (bi_ledgers item') = find_ledger ledger (bi_ledgers item).
Proof.
  intros Hok Hi. destruct (io_ledgers _ _ Hok i item Hi) as [Hled [Hnd Hnum]].
  assert (Hp : walk_dup (bi_ledgers item) ≡ₚ bi_ledgers item) by (apply walk_dup_perm; by eapply NoDup_fmap_1).
  unfold block_index_item_by_height. rewrite (io_hash _ _ _ Hok), Hled, (proj2 (Z.leb_le 0 _)), Nat2Z.id, Hi by lia. cbn [fmap option_fmap option_map]. res_simpl.
  pose proof (length_ledgers _ Hnd). rewrite (Permutation_length Hp). unfold fits. rewrite (proj2 (Z.leb_le 0 _)), (proj2 (Z.ltb_lt _ _)) by lia. cbn [andb]. res_simpl.
  eexists. split_and!; [done|done|done|]. intros ledger. cbn [bi_ledgers]. by apply find_ledger_perm.
Qed.

Lemma item_by_height_none db items h :
  index_ok db items → items !! Z.to_nat h = None ∨ h < 0 → block_index_item_by_height db h = Err (NoBlockHash h).
Proof.
  intros Hok Hnone. unfold block_index_item_by_height. rewrite (io_hash _ _ _ Hok).
  destruct (Z.leb_spec 0 h); [|done]. destruct Hnone as [->|]; [done|lia].
Qed.

Lemma size_map_seqZ {A} start (xs : list A) : size (map_seqZ (M:=gmap Z A) start xs) = length xs.
Proof.
  revert start. induction xs as [|x xs IH]; intros start; [done|]. cbn [map_seqZ length].
  rewrite map_size_insert_None, IH; [done|]. rewrite lookup_map_seqZ. by rewrite option_guard_False by lia.
Qed.

Lemma num_blocks_eq db items : index_ok db items → block_index_num_blocks db = Z.of_nat (length items).
Proof. intros Hok. unfold block_index_num_blocks. by rewrite (io_hashes _ _ Hok), size_map_seqZ, length_fmap. Qed.

Lemma foldr_max (kv : Z * Z) l : foldr (λ kv m, Z.max kv.1 m) kv.1 l ∈ (kv :: l).*1 ∧
  ∀ k, k ∈ (kv :: l).*1 → k ≤ foldr (λ kv m, Z.max kv.1 m) kv.1 l.
Proof.
  induction l as [|x l IH]; cbn [foldr].
  - split; [left|]. intros k [->|[]%elem_of_nil]%elem_of_cons. done.
  - destruct IH as [Hin Hmax]. rewrite !fmap_cons in *. split.
    + destruct (Z.max_spec x.1 (foldr (λ kv m, Z.max kv.1 m) kv.1 l)) as [[_ ->]|[_ ->]]; [|right; left].
      apply elem_of_cons in Hin as [->|Hin]; [left|right; by right].
    + intros k [->|[->|Hk]%elem_of_cons]%elem_of_cons; [|lia|].
      * specialize (Hmax kv.1 ltac:(left)). lia.
      * specialize (Hmax k ltac:(by right)). lia.
Qed.

Lemma latest_height_eq db items :
  index_ok db items → block_index_latest_height db = if decide (items = []) then None else Some (Z.of_nat (length items) - 1).
Proof.
  intros Hok. unfold block_index_latest_height.
  assert (Hkeys : ∀ k, k ∈ (map_to_list (migrated_hashes db)).*1 ↔ 0 ≤ k < Z.of_nat (length items)).
  { intros k. rewrite list_elem_of_fmap. split.
    - intros ([k' v] & -> & Hkv%elem_of_map_to_list). cbn [fst]. rewrite (io_hash _ _ _ Hok) in Hkv. destruct (Z.leb_spec 0 k'); [|done].
      apply fmap_Some in Hkv as (item & Hi%lookup_lt_Some & _). lia.
    - intros Hk. destruct (lookup_lt_is_Some_2 items (Z.to_nat k)) as [item Hi]; [lia|]. exists (k, bi_block_hash item). split; [done|].
      apply elem_of_map_to_list. rewrite (io_hash _ _ _ Hok), (proj2 (Z.leb_le 0 k)), Hi by lia. done. }
  destruct (map_to_list (migrated_hashes db)) as [|kv l].
  - destruct (decide (items = [])); [done|]. destruct items as [|x items]; [done|]. specialize (Hkeys 0). cbn [length] in Hkeys.
    apply proj2 in Hkeys. by destruct (elem_of_nil (A:=Z) 0) as [Hno _]; destruct Hno; apply Hkeys; lia.
  - destruct (foldr_max kv l) as [Hin Hmax]. apply Hkeys in Hin. destruct (decide (items = [])) as [->|_]; [cbn in Hin; lia|].
    f_equal. specialize (Hmax (Z.of_nat (length items) - 1)). rewrite Hkeys in Hmax. lia.
Qed.

Lemma foldl_put_dup (l : list LedgerIndexItem) : NoDup l → foldl put_dup [] l = l.
Proof.
  assert (Hgen : ∀ l acc, NoDup (acc ++ l) → foldl put_dup acc l = acc ++ l).
  { clear. intros l. induction l as [|x l IH]; intros acc Hnd; cbn [foldl]; [by rewrite app_nil_r|].
    unfold put_dup at 2. rewrite bool_decide_false.
    - rewrite IH; rewrite <- (assoc_L (++)); done.
    - intros Hin. apply NoDup_app in Hnd as (_ & Hdis & _). apply (Hdis x Hin). left. }
  intros Hnd. by apply (Hgen l []).
Qed.

(** Inserting an item at the next height. *)
Lemma insert_ok db items item : index_ok db items → item_ok item →
  index_ok (insert_block_index_item db (Z.of_nat (length items)) item) (items ++ [item]).
Proof.
  intros Hok Hitem. assert (Hnd : NoDup (bi_ledgers item)) by (eapply NoDup_fmap_1, Hitem). split.
  - unfold insert_block_index_item. cbn [migrated_hashes]. rewrite (io_hashes _ _ Hok), fmap_app.
    change (bi_block_hash <$> [item]) with [bi_block_hash item]. by rewrite map_seqZ_snoc, length_fmap.
  - intros i x Hx. unfold insert_block_index_item. cbn [index_items]. rewrite (foldl_put_dup _ Hnd).
    apply lookup_app_Some in Hx as [Hx|[Hge Hx]].
    + destruct (io_ledgers _ _ Hok i x Hx) as [<- Hx']. split; [|done]. apply lookup_lt_Some in Hx.
      case_bool_decide; [rewrite lookup_delete_ne|rewrite lookup_insert_ne]; done || lia.
    + apply list_lookup_singleton_Some in Hx as [Hi <-]. assert (i = length items) as -> by lia. split; [|done].
      case_bool_decide as Hnil; [by rewrite lookup_delete_eq, Hnil|by rewrite lookup_insert_eq].
Qed.

(** ** The block of a chunk *)

(** The scan of the items from height [h], [prev] being the total before them. *)
Fixpoint scan_owner (ledger : DataLedger) (off prev h : Z) (items : list BlockIndexItem) : option BlockBounds :=
  match items with
  | [] => None
  | item :: rest =>
      let total := total_of ledger item in
      if off <? total then
        (λ l, mkBlockBounds h (bi_block_hash item) ledger prev total (li_tx_root l)) <$> find_ledger ledger (bi_ledgers item)
      else scan_owner ledger off total (h + 1) rest
  end.

(** Totals do not decrease, absent ledgers counting as empty. *)
Definition growing (ledger : DataLedger) (items : list BlockIndexItem) : Prop :=
  ∀ i a b, items !! i = Some a → items !! S i = Some b → total_of ledger a ≤ total_of ledger b.

Lemma growing_le ledger items i j a b :
  growing ledger items → (i ≤ j)%nat → items !! i = Some a → items !! j = Some b → total_of ledger a ≤ total_of ledger b.
Proof.
  intros Hg Hij. revert b. induction Hij as [|j Hij IH]; intros b Ha Hb; [rewrite Ha in Hb; by injection Hb as ->|].
  destruct (lookup_lt_is_Some_2 items j) as [c Hc]; [apply lookup_lt_Some in Hb; lia|].
  transitivity (total_of ledger c); [by apply IH|by eapply Hg].
Qed.

Lemma scan_owner_at ledger off items r prev h item l :
  items !! r = Some item → (∀ i a, (i < r)%nat → items !! i = Some a → total_of ledger a ≤ off) → off < total_of ledger item →
  find_ledger ledger (bi_ledgers item) = Some l →
  scan_owner ledger off prev h items =
  Some (mkBlockBounds (h + Z.of_nat r) (bi_block_hash item) ledger
          (match r with O => prev | S r' => default 0 (total_of ledger <$> items !! r') end) (total_of ledger item) (li_tx_root l)).
Proof.
  revert r prev h. induction items as [|x items IH]; intros r prev h Hr Hlow Hup Hl; [done|]. cbn [scan_owner]. destruct r as [|r].
  - injection Hr as ->. rewrite (proj2 (Z.ltb_lt _ _)), Hl by done. cbn. by rewrite Z.add_0_r.
  - specialize (Hlow 0%nat x) as Hx. destruct (Z.ltb_spec off (total_of ledger x)); [specialize (Hx ltac:(lia) eq_refl); lia|].
    rewrite (IH r); [|done| |done|done].
    + rewrite Nat2Z.inj_succ, <- Z.add_1_l, Z.add_assoc. by destruct r.
    + intros i a Hi Ha. apply (Hlow (S i)); [lia|done].
Qed.

Lemma find_ledger_positive ledger item : 0 < total_of ledger item →
  ∃ l, find_ledger ledger (bi_ledgers item) = Some l ∧ li_total_chunks l = total_of ledger item.
Proof. unfold total_of, ledger_total. destruct (find_ledger _ _) as [l|]; [by exists l|]. cbn. lia. Qed.

(** The search finds the first item whose total is above the offset. *)
Lemma search_owner {E} (total : Z → result E Z) items ledger off a anchor :
  (∀ i item, items !! i = Some item → total (Z.of_nat i) = Ok (total_of ledger item)) →
  growing ledger items → items !! a = Some anchor → Z.of_nat a < 2 ^ 64 → off < total_of ledger anchor →
  ∃ r item, search search_rounds total off 0 (Z.of_nat a) = Ok (Z.of_nat r) ∧ (r ≤ a)%nat ∧ items !! r = Some item ∧
    off < total_of ledger item ∧ ∀ i x, (i < r)%nat → items !! i = Some x → total_of ledger x ≤ off.
Proof.
  intros Htot Hg Ha Ha64 Hoff. pose proof (lookup_lt_Some _ _ _ Ha) as Hlen.
  set (f := λ h, default 0 (total_of ledger <$> items !! Z.to_nat h)).
  assert (Hf : ∀ i x, items !! i = Some x → f (Z.of_nat i) = total_of ledger x) by (intros i x Hx; unfold f; by rewrite Nat2Z.id, Hx).
  destruct (search_spec total f off search_rounds 0 (Z.of_nat a)) as (r & Hr & Hb & Hlow & Hup); [| |lia| |].
  - intros h Hh. destruct (lookup_lt_is_Some_2 items (Z.to_nat h)) as [x Hx]; [lia|].
    specialize (Htot _ _ Hx). specialize (Hf _ _ Hx). rewrite Z2Nat.id in Htot, Hf by lia. by rewrite Hf.
  - intros h k Hh Hk. destruct (lookup_lt_is_Some_2 items (Z.to_nat h)) as [x Hx]; [lia|].
    destruct (lookup_lt_is_Some_2 items (Z.to_nat k)) as [y Hy]; [lia|]. unfold f. rewrite Hx, Hy. apply (growing_le ledger items (Z.to_nat h) (Z.to_nat k)); [done|lia|done..].
  - assert (2 ^ Z.of_nat search_rounds = 2 ^ 64) as -> by (vm_compute; reflexivity). lia.
  - destruct (lookup_lt_is_Some_2 items (Z.to_nat r)) as [x Hx]; [lia|]. exists (Z.to_nat r), x. rewrite Z2Nat.id by lia. split_and!; [done|lia|done| |].
    + destruct (Z.eq_dec r (Z.of_nat a)) as [->|]; [rewrite Nat2Z.id, Ha in Hx; by injection Hx as <-|].
      specialize (Hup ltac:(lia)). specialize (Hf _ _ Hx). rewrite Z2Nat.id in Hf by lia. lia.
    + intros i y Hi Hy. rewrite <- (Hf _ _ Hy). apply Hlow. lia.
Qed.

(** The lookup anchored at a height of the index, as a scan of the items up to it. *)
Lemma block_bounds_eq db items ledger off a anchor :
  index_ok db items → growing ledger items → items !! a = Some anchor → Z.of_nat a < 2 ^ 64 → 0 ≤ off →
  block_bounds_at_height_in_tx db ledger off (Z.of_nat a) =
  match ledger_total ledger anchor with
  | None => Err (LedgerInactive ledger (Z.of_nat a))
  | Some max => if max <=? off then Err (OffsetBeyondFrontier ledger off max (Z.of_nat a))
                else expect (scan_owner ledger off 0 0 (take (S a) items))
  end.
Proof.
  intros Hok Hg Ha Ha64 Hoff. unfold block_bounds_at_height_in_tx. cbv zeta.
  assert (Hget : ∀ i item, items !! i = Some item → ∃ item', internal (block_index_item_by_height db (Z.of_nat i)) = Ok item' ∧
    bi_block_hash item' = bi_block_hash item ∧ (∀ l, find_ledger l (bi_ledgers item') = find_ledger l (bi_ledgers item)) ∧ ∀ l, ledger_total l item' = ledger_total l item).
  { intros i item Hi. destruct (item_by_height _ _ _ _ Hok Hi) as (item' & -> & Hh & _ & Hf). exists item'. split_and!; [done..|].
    intros l. unfold ledger_total. by rewrite Hf. }
  match goal with |- context [search search_rounds ?T _ _ _] =>
    pose proof (search_owner T items ledger off a anchor) as Hsearch; set (found := search search_rounds T off 0 (Z.of_nat a)) in * end.
  clearbody found. destruct (Hget a anchor Ha) as (anchor' & -> & _ & _ & Hanchor). res_simpl. rewrite Hanchor.
  destruct (ledger_total ledger anchor) as [max|] eqn:Hmax; res_simpl; [|done].
  destruct (Z.leb_spec max off) as [|Hlt]; res_simpl; [done|].
  destruct Hsearch as (r & item & -> & Hra & Hi & Hitem & Hlow); [|done|done|done|unfold total_of; by rewrite Hmax|].
  { intros i item Hi. destruct (Hget _ _ Hi) as (item' & -> & _ & _ & Ht). res_simpl. by rewrite Ht. }
  res_simpl. destruct (Hget _ _ Hi) as (item' & -> & Hh' & Hf' & _). res_simpl.
  destruct (find_ledger_positive ledger item ltac:(lia)) as (l & Hl & Hlt').
  rewrite (scan_owner_at ledger off (take (S a) items) r 0 0 item l); [|by rewrite lookup_take_lt by lia| |done|done].
  2:{ intros i x Hi2 Hx. rewrite lookup_take_lt in Hx by lia. by apply (Hlow i). }
  rewrite Z.add_0_l. destruct r as [|r']; [res_simpl; rewrite Hf', Hl; res_simpl; by rewrite Hlt', Hh'|].
  destruct (Z.eqb_spec (Z.of_nat (S r')) 0) as [|_]; [lia|].
  destruct (lookup_lt_is_Some_2 items r') as [p Hp]; [apply lookup_lt_Some in Hi; lia|].
  destruct (Hget _ _ Hp) as (p' & Hp' & _ & _ & Htp). replace (Z.of_nat (S r') - 1) with (Z.of_nat r') by lia. rewrite Hp'. res_simpl.
  rewrite Hf', Hl. res_simpl. by rewrite lookup_take_lt, Hp, Htp, Hlt', Hh' by lia.
Qed.
End BlockIndexFacts.

(** * Adding blocks to the index: the item of a block has the totals of its parent plus the
    chunks of its transactions, and histories of added blocks keep the index consistent. *)

(** The chunks that transactions occupy, each on whole chunks. *)
Definition chunks_of_txs (txs : list DataTransactionHeader) (chunk_size : Z) : Z :=
  sum_Z ((λ tx, div_ceil (th_data_size tx) chunk_size) <$> txs).

Lemma div_ceil_nonneg a b : 0 ≤ a → 0 < b → 0 ≤ div_ceil a b.
Proof. intros Ha Hb. unfold div_ceil. apply Z.div_pos; lia. Qed.

Lemma chunks_of_txs_nonneg txs cs : Forall (λ tx, 0 ≤ th_data_size tx) txs → 0 < cs → 0 ≤ chunks_of_txs txs cs.
Proof. intros Htxs Hcs. apply sum_Z_nonneg, Forall_fmap. eapply Forall_impl; [done|]. intros tx Htx. by apply div_ceil_nonneg. Qed.

Lemma chunk_bytes_added_eq txs cs acc :
  0 < cs → Forall (λ tx, 0 ≤ th_data_size tx) txs → 0 ≤ acc → acc + chunks_of_txs txs cs * cs < 2 ^ 64 →
  chunk_bytes_added acc txs cs = Ok (acc + chunks_of_txs txs cs * cs).
Proof.
  intros Hcs Htxs. revert acc. induction Htxs as [|tx txs Htx Htxs IH]; intros acc Hacc Hsum; cbn [chunk_bytes_added].
  - unfold chunks_of_txs. cbn. by rewrite Z.add_0_r.
  - destruct (Z.eqb_spec cs 0); [lia|]. res_simpl. pose proof (chunks_of_txs_nonneg txs cs Htxs Hcs).
    assert (Heq : chunks_of_txs (tx :: txs) cs = div_ceil (th_data_size tx) cs + chunks_of_txs txs cs) by done. rewrite Heq in *.
    pose proof (div_ceil_nonneg _ _ Htx Hcs). assert (0 ≤ chunks_of_txs txs cs * cs) by nia. assert (0 ≤ div_ceil (th_data_size tx) cs * cs) by nia.
    rewrite (proj2 (checked_mul_Some _ _ _ (div_ceil (th_data_size tx) cs * cs))) by lia. res_simpl.
    rewrite (proj2 (checked_add_Some _ _ _ (acc + div_ceil (th_data_size tx) cs * cs))) by lia. res_simpl.
    rewrite IH by lia. f_equal. lia.
Qed.

Lemma calculate_chunks_added_eq txs cs :
  0 < cs → Forall (λ tx, 0 ≤ th_data_size tx) txs → chunks_of_txs txs cs * cs < 2 ^ 64 →
  calculate_chunks_added txs cs = Ok (chunks_of_txs txs cs).
Proof.
  intros Hcs Htxs Hsum. unfold calculate_chunks_added. rewrite chunk_bytes_added_eq by (done || lia). res_simpl.
  destruct (Z.eqb_spec cs 0); [lia|]. by rewrite Z.add_0_l, Z.div_mul by lia.
Qed.

(** The total of a ledger after a block, on top of the item before it. *)
Definition total_after (last : option BlockIndexItem) (b : LedgerBlock) (cs : Z) (ledger : DataLedger) : Z :=
  let added := chunks_of_txs (lb_ledger_txs b ledger) cs in
  match last with
  | None => if bool_decide (ledger = Publish) then 0 else added
  | Some prev => total_of ledger prev + added
  end.

(** A block that extends the index: it links to the last item, names known ledgers once each,
    keeps the ledgers of its parent, and its totals stay within [u64]. *)
Record extends (items : list BlockIndexItem) (cs : Z) (b : LedgerBlock) : Prop := {
  ex_height : lh_height (lb_header b) = Z.of_nat (length items);
  ex_link : match last items with None => True | Some prev => bi_block_hash prev = lh_previous_block_hash (lb_header b) end;
  ex_known dl : dl ∈ lh_data_ledgers (lb_header b) → is_Some (ledger_of_id (tl_ledger_id dl));
  ex_distinct : NoDup (tl_ledger_id <$> lh_data_ledgers (lb_header b));
  ex_keeps prev ledger : last items = Some prev → is_Some (ledger_total ledger prev) →
    ∃ dl, dl ∈ lh_data_ledgers (lb_header b) ∧ ledger_of_id (tl_ledger_id dl) = Some ledger;
  ex_sizes ledger : Forall (λ tx, 0 ≤ th_data_size tx) (lb_ledger_txs b ledger);
  ex_room ledger : chunks_of_txs (lb_ledger_txs b ledger) cs * cs < 2 ^ 64 ∧ total_after (last items) b cs ledger < 2 ^ 64
}.

Lemma ledger_of_id_inj a b l : ledger_of_id a = Some l → ledger_of_id b = Some l → a = b.
Proof.
  unfold ledger_of_id. intros Ha Hb.
  repeat match goal with H : context [?x =? ?y] |- _ => destruct (Z.eqb_spec x y) end; congruence.
Qed.

Lemma ledger_of_id_id l : ledger_of_id (ledger_id l) = Some l.
Proof. by destruct l. Qed.

Section Push.
  Context `{DupSort}.
  Context (cs : Z) (Hcs : 0 < cs).

(** The items of the index, and that totals grow for every ledger. *)
Definition index_grows (db : IndexDb) (items : list BlockIndexItem) : Prop :=
  index_ok db items ∧ ∀ ledger, growing ledger items.

Definition pushed_item (last : option BlockIndexItem) (b : LedgerBlock) : BlockIndexItem :=
  let ledgers := omap (λ dl, (λ l, mkLedgerIndexItem (total_after last b cs l) (tl_tx_root dl) l) <$> ledger_of_id (tl_ledger_id dl))
                      (lh_data_ledgers (lb_header b)) in
  mkBlockIndexItem (lh_block_hash (lb_header b)) (Z.of_nat (length ledgers)) ledgers.

Lemma prev_item_ok db items b :
  index_ok db items → extends items cs b →
  ∃ prev, prev_item db (lb_header b) = Ok prev ∧ (prev = None ↔ last items = None) ∧
    ∀ p q, prev = Some p → last items = Some q → ∀ l, ledger_total l p = ledger_total l q.
Proof.
  intros Hok Hex. unfold prev_item. rewrite (num_blocks_eq _ _ Hok), (ex_height _ _ _ Hex).
  destruct (list_snoc_cases items) as [->|(l & x & ->)]; [by exists None|].
  rewrite length_app. cbn [length]. destruct (Z.eqb_spec (Z.of_nat (length l + 1)) 0); [lia|]. cbn [andb].
  pose proof (ex_link _ _ _ Hex) as Hlink. rewrite last_snoc in *.
  destruct (item_by_height _ _ (length l) x Hok) as (x' & Hx' & Hh & _ & Hf); [by rewrite lookup_app_r, Nat.sub_diag|].
  replace (saturating_sub (Z.of_nat (length l + 1)) 1) with (Z.of_nat (length l)) by (unfold saturating_sub; lia).
  rewrite Hx'. res_simpl. rewrite Hh, Hlink, Z.eqb_refl. cbn [negb]. res_simpl. exists (Some x'). split_and!; [done|done|].
  intros p q [= <-] [= <-] led. unfold ledger_total. by rewrite Hf.
Qed.

Lemma pushed_items_distinct last b :
  NoDup (tl_ledger_id <$> lh_data_ledgers (lb_header b)) → NoDup (li_ledger <$> bi_ledgers (pushed_item last b)).
Proof.
  cbn [pushed_item bi_ledgers]. induction (lh_data_ledgers (lb_header b)) as [|dl dls IH]; [constructor|].
  rewrite fmap_cons. intros [Hnot Hnd]%NoDup_cons. cbn [omap list_omap].
  destruct (ledger_of_id (tl_ledger_id dl)) as [l|] eqn:Hl; cbn [fmap option_fmap option_map]; [|by apply IH].
  rewrite fmap_cons. constructor; [|by apply IH]. cbn [li_ledger]. intros Hin. apply Hnot.
  apply list_elem_of_fmap in Hin as (x & -> & Hx). apply list_elem_of_omap in Hx as (dl' & Hdl' & Hx).
  apply fmap_Some in Hx as (l' & Hl' & ->). cbn [li_ledger] in Hl. rewrite (ledger_of_id_inj _ _ _ Hl Hl'). by apply list_elem_of_fmap_2.
Qed.

Lemma find_pushed last b dl l :
  NoDup (tl_ledger_id <$> lh_data_ledgers (lb_header b)) → dl ∈ lh_data_ledgers (lb_header b) → ledger_of_id (tl_ledger_id dl) = Some l →
  find_ledger l (bi_ledgers (pushed_item last b)) = Some (mkLedgerIndexItem (total_after last b cs l) (tl_tx_root dl) l).
Proof.
  intros Hnd Hdl Hl. apply find_ledger_Some; [by apply pushed_items_distinct|]. split; [|done].
  cbn [pushed_item bi_ledgers]. apply list_elem_of_omap. exists dl. by rewrite Hl.
Qed.

Lemma mapM_pushed items prev b :
  extends items cs b → (prev = None ↔ last items = None) →
  (∀ p q, prev = Some p → last items = Some q → ∀ l, ledger_total l p = ledger_total l q) →
  mapM (ledger_index_item prev b cs) (lh_data_ledgers (lb_header b)) = Ok (bi_ledgers (pushed_item (last items) b)).
Proof.
  intros Hex Hnone Hsame. pose proof (ex_known _ _ _ Hex) as Hknown. apply mapM_result_ok. cbn [pushed_item bi_ledgers].
  induction (lh_data_ledgers (lb_header b)) as [|dl dls IH]; [constructor|].
  destruct (Hknown dl ltac:(left)) as [l Hl]. cbn [omap list_omap]. rewrite Hl. cbn [fmap option_fmap option_map].
  constructor; [|apply IH; intros d Hd; apply Hknown; by right].
  destruct (ex_room _ _ _ Hex l) as [Hr1 Hr2]. unfold ledger_index_item. rewrite Hl. res_simpl.
  rewrite (calculate_chunks_added_eq _ _ Hcs (ex_sizes _ _ _ Hex l) Hr1). res_simpl. unfold total_after in *.
  destruct prev as [p|], (last items) as [q|] eqn:Hq; [|by destruct Hnone as [_ Hn]; specialize (Hn eq_refl)|by destruct Hnone as [Hn _]; specialize (Hn eq_refl)|done].
  rewrite (Hsame p q eq_refl eq_refl). fold (total_of l q). rewrite (proj2 (checked_add_Some _ _ _ _) (conj eq_refl Hr2)). done.
Qed.

(** A block that extends the index is added as its item. *)
Lemma push_block_ok db items b :
  index_grows db items → extends items cs b →
  ∃ db', push_block db b cs = Ok db' ∧ index_grows db' (items ++ [pushed_item (last items) b]).
Proof.
  intros [Hok Hg] Hex. destruct (prev_item_ok _ _ _ Hok Hex) as (prev & Hprev & Hnone & Hsame).
  pose proof (pushed_items_distinct (last items) b (ex_distinct _ _ _ Hex)) as Hnd.
  unfold push_block. rewrite Hprev. res_simpl. rewrite (mapM_pushed _ _ _ Hex Hnone Hsame). res_simpl. eexists. split; [done|].
  set (item := pushed_item (last items) b) in *.
  replace (lh_height (lb_header b)) with (Z.of_nat (length items)) by (symmetry; apply Hex). split.
  - apply (insert_ok db items item Hok). by split.
  - intros ledger i x y Hx Hy. destruct (lookup_app_Some items [item] (S i) y) as [[Hy'|[Hge Hy']] _]; [done|..].
    + apply (Hg ledger i); [|done]. rewrite lookup_app_l in Hx by (apply lookup_lt_Some in Hy'; lia). done.
    + apply list_lookup_singleton_Some in Hy' as [Hi <-]. rewrite lookup_app_l in Hx by lia.
      assert (Hlast : last items = Some x) by (rewrite last_lookup; by replace (pred (length items)) with i by lia).
      destruct (ledger_total ledger x) as [t|] eqn:Ht.
      * destruct (ex_keeps _ _ _ Hex x ledger Hlast) as (dl & Hdl & Hl); [by rewrite Ht|].
        pose proof (find_pushed (last items) b dl ledger (ex_distinct _ _ _ Hex) Hdl Hl) as Hf. fold item in Hf.
        assert (total_of ledger item = total_after (last items) b cs ledger) as -> by (unfold total_of, ledger_total; by rewrite Hf).
        unfold total_after. rewrite Hlast. pose proof (chunks_of_txs_nonneg _ _ (ex_sizes _ _ _ Hex ledger) Hcs). cbn. lia.
      * unfold total_of at 1. rewrite Ht. cbn [default].
        unfold total_of, ledger_total. destruct (find_ledger ledger (bi_ledgers item)) as [l|] eqn:Hf; [|done]. cbn.
        apply find_ledger_Some in Hf as [Hin <-]; [|done]. cbn [item pushed_item bi_ledgers] in Hin.
        apply list_elem_of_omap in Hin as (dl & Hdl & Hl). apply fmap_Some in Hl as (led & Hled & ->). cbn [li_total_chunks li_ledger].
        unfold total_after. rewrite Hlast. pose proof (chunks_of_txs_nonneg _ _ (ex_sizes _ _ _ Hex led) Hcs). cbn [li_ledger] in Ht. unfold total_of. rewrite Ht. cbn. lia.
Qed.
End Push.

(** * Histories of the block index, from the empty index by adding blocks, and the exact answer
    of a lookup in terms of the transactions of the blocks. *)

Definition names_ledger (ledger : DataLedger) (b : LedgerBlock) : bool :=
  existsb (λ dl, bool_decide (ledger_of_id (tl_ledger_id dl) = Some ledger)) (lh_data_ledgers (lb_header b)).

(** The chunks that block number [i] adds to a ledger; genesis adds none to Publish. *)
Definition block_adds (cs : Z) (ledger : DataLedger) (i : nat) (b : LedgerBlock) : Z :=
  if names_ledger ledger b && negb ((i =? 0)%nat && bool_decide (ledger = Publish))
  then chunks_of_txs (lb_ledger_txs b ledger) cs else 0.

(** The size of a ledger after some blocks. *)
Definition ledger_size (cs : Z) (ledger : DataLedger) (blocks : list LedgerBlock) : Z := sum_Z (imap (block_adds cs ledger) blocks).

Lemma names_ledger_spec ledger b :
  names_ledger ledger b = true ↔ ∃ dl, dl ∈ lh_data_ledgers (lb_header b) ∧ ledger_of_id (tl_ledger_id dl) = Some ledger.
Proof.
  unfold names_ledger. rewrite existsb_exists. split; intros (dl & Hin & Hdl); exists dl.
  - apply list_elem_of_In in Hin. by apply bool_decide_eq_true in Hdl.
  - apply list_elem_of_In in Hin. by rewrite bool_decide_true.
Qed.

Lemma ledger_size_snoc cs ledger blocks b :
  ledger_size cs ledger (blocks ++ [b]) = ledger_size cs ledger blocks + block_adds cs ledger (length blocks) b.
Proof. unfold ledger_size. rewrite imap_app, sum_Z_app. cbn [imap]. rewrite sum_Z_cons, Nat.add_0_r. change (sum_Z []) with 0. by rewrite Z.add_0_r. Qed.

(** The first item whose total is above an offset. *)
Lemma first_above ledger off (items : list BlockIndexItem) a x :
  items !! a = Some x → off < total_of ledger x →
  ∃ r y, (r ≤ a)%nat ∧ items !! r = Some y ∧ off < total_of ledger y ∧ ∀ i z, (i < r)%nat → items !! i = Some z → total_of ledger z ≤ off.
Proof.
  revert a. induction items as [|w items IH]; intros a Ha Hoff; [done|]. destruct (Z.lt_ge_cases off (total_of ledger w)).
  { exists 0%nat, w. split_and!; [lia|done|done|lia]. }
  destruct a as [|a]; [injection Ha as ->; lia|]. destruct (IH a Ha Hoff) as (r & y & Hr & Hy & Hup & Hlow).
  exists (S r), y. split_and!; [lia|done|done|]. intros [|i] z Hi Hz; [injection Hz as <-; lia|]. apply (Hlow i z); [lia|done].
Qed.

Section Histories.
  Context `{DupSort} (cs : Z).

Inductive indexed : IndexDb → list BlockIndexItem → list LedgerBlock → Prop :=
| indexed_empty : indexed (mkIndexDb ∅ ∅) [] []
| indexed_push db items blocks b db' :
    indexed db items blocks → extends items cs b → push_block db b cs = Ok db' →
    indexed db' (items ++ [pushed_item cs (last items) b]) (blocks ++ [b]).

Context (Hcs : 0 < cs).

(** Item [i] is that of block [i]: its hash, its roots, and the sizes of the ledgers after it. *)
Record item_of_block (blocks : list LedgerBlock) (i : nat) (item : BlockIndexItem) (b : LedgerBlock) : Prop := {
  ib_hash : bi_block_hash item = lh_block_hash (lb_header b);
  ib_total ledger : total_of ledger item = ledger_size cs ledger (take (S i) blocks);
  ib_named ledger : is_Some (ledger_total ledger item) ↔ names_ledger ledger b = true;
  ib_root ledger l : find_ledger ledger (bi_ledgers item) = Some l →
    ∃ dl, dl ∈ lh_data_ledgers (lb_header b) ∧ ledger_of_id (tl_ledger_id dl) = Some ledger ∧ li_tx_root l = tl_tx_root dl
}.

Lemma pushed_item_of_block items blocks b :
  length items = length blocks → (∀ i item, items !! i = Some item → ∃ b', blocks !! i = Some b' ∧ item_of_block blocks i item b') →
  extends items cs b → item_of_block (blocks ++ [b]) (length items) (pushed_item cs (last items) b) b.
Proof.
  intros Hlen Hitems Hex. set (item := pushed_item cs (last items) b).
  assert (Hfind : ∀ ledger l, find_ledger ledger (bi_ledgers item) = Some l → ∃ dl, dl ∈ lh_data_ledgers (lb_header b) ∧
    ledger_of_id (tl_ledger_id dl) = Some ledger ∧ l = mkLedgerIndexItem (total_after (last items) b cs ledger) (tl_tx_root dl) ledger).
  { intros ledger l Hl. apply find_ledger_Some in Hl as [Hin Hled]; [|apply pushed_items_distinct, Hex].
    cbn [item pushed_item bi_ledgers] in Hin. apply list_elem_of_omap in Hin as (dl & Hdl & Hl). apply fmap_Some in Hl as (l' & Hl' & ->).
    cbn [li_ledger] in Hled. subst l'. by exists dl. }
  assert (Hnamed : ∀ ledger, is_Some (ledger_total ledger item) ↔ names_ledger ledger b = true).
  { intros ledger. unfold ledger_total. rewrite fmap_is_Some, names_ledger_spec. split.
    - intros [l Hl]. destruct (Hfind _ _ Hl) as (dl & ? & ? & _). by exists dl.
    - intros (dl & Hdl & Hl). unfold item. rewrite (find_pushed cs _ _ dl ledger (ex_distinct _ _ _ Hex) Hdl Hl). done. }
  split; [done| |done|].
  - intros ledger. rewrite take_ge by (rewrite length_app, Hlen; cbn; lia). rewrite ledger_size_snoc.
    assert (Hprev : match last items with None => blocks = [] | Some prev => total_of ledger prev = ledger_size cs ledger blocks end).
    { rewrite last_lookup. destruct (items !! pred (length items)) as [prev|] eqn:Hp.
      - destruct (Hitems _ _ Hp) as (b' & Hb' & Hi). rewrite (ib_total _ _ _ _ Hi). f_equal. apply take_ge. rewrite <- Hlen. lia.
      - apply lookup_ge_None in Hp. destruct blocks; [done|]. cbn in Hlen. lia. }
    unfold block_adds, total_of. destruct (names_ledger ledger b) eqn:Hn; cbn [andb].
    + apply names_ledger_spec in Hn as (dl & Hdl & Hl). unfold ledger_total, item. rewrite (find_pushed cs _ _ dl ledger (ex_distinct _ _ _ Hex) Hdl Hl).
      cbn [fmap option_fmap option_map default li_total_chunks]. unfold total_after. destruct (last items) as [prev|] eqn:Hl'.
      * rewrite Hprev. destruct blocks as [|x blocks]; [|done]. destruct items; [done|cbn in Hlen; lia].
      * subst blocks. cbn. by destruct (bool_decide (ledger = Publish)).
    + destruct (ledger_total ledger item) eqn:Ht; [destruct (Hnamed ledger) as [Hx _]; rewrite Hx in Hn; [done|by rewrite Ht]|]. cbn [default].
      destruct (last items) as [prev|] eqn:Hl'; [|by subst blocks]. rewrite Z.add_0_r, <- Hprev. unfold total_of.
      destruct (ledger_total ledger prev) eqn:Htp; [|done]. destruct (ex_keeps _ _ _ Hex prev ledger Hl' ltac:(by rewrite Htp)) as (dl & Hdl & Hl).
      assert (names_ledger ledger b = true) as Htrue by (apply names_ledger_spec; by exists dl). by rewrite Htrue in Hn.
  - intros ledger l Hl. destruct (Hfind _ _ Hl) as (dl & ? & ? & ->). by exists dl.
Qed.

Lemma item_of_block_snoc blocks b i item b' : (i < length blocks)%nat → item_of_block blocks i item b' → item_of_block (blocks ++ [b]) i item b'.
Proof. intros Hi [Hh Ht Hn Hr]. split; [done| |done|done]. intros ledger. by rewrite Ht, take_app_le by lia. Qed.

Lemma indexed_ok db items blocks :
  indexed db items blocks → index_grows db items ∧ length items = length blocks ∧
  ∀ i item, items !! i = Some item → ∃ b, blocks !! i = Some b ∧ item_of_block blocks i item b.
Proof.
  induction 1 as [|db items blocks b db' _ [Hg [Hlen Hitems]] Hex Hpush].
  - split_and!; [|done|done]. split; [|done]. split; [done|]. done.
  - destruct (push_block_ok cs Hcs db items b Hg Hex) as (db2 & Heq & Hg'). rewrite Hpush in Heq. injection Heq as <-.
    split_and!; [done|by rewrite !length_app, Hlen|]. intros i item Hi. apply lookup_app_Some in Hi as [Hi|[Hge Hi]].
    + destruct (Hitems i item Hi) as (b' & Hb' & Hib). exists b'. apply lookup_lt_Some in Hb' as Hlt. rewrite lookup_app_l by lia. split; [done|by apply item_of_block_snoc].
    + apply list_lookup_singleton_Some in Hi as [Hi <-]. assert (i = length items) as -> by lia. exists b. split; [by rewrite Hlen, lookup_app_r, Nat.sub_diag|].
      by apply pushed_item_of_block.
Qed.

(** Truncating to a height keeps the items up to it. *)
Lemma truncate_ok {E} db items h :
  index_ok db items → 0 ≤ h < 2 ^ 64 - 1 →
  ∃ db', truncate_to_height (E:=E) db h = Ok db' ∧ index_ok db' (take (S (Z.to_nat h)) items).
Proof.
  intros Hok Hh. unfold truncate_to_height. rewrite (proj2 (checked_add_Some _ _ _ (h + 1))) by lia. res_simpl. eexists. split; [done|]. split.
  - cbn [migrated_hashes]. apply map_eq. intros k. rewrite map_lookup_filter, (io_hash _ _ _ Hok), lookup_map_seqZ, Z.sub_0_r, list_lookup_fmap.
    destruct (Z.leb_spec 0 k); [|by rewrite option_guard_False by lia]. rewrite option_guard_True by lia.
    destruct (decide (k < h + 1)) as [Hk|Hk].
    + rewrite lookup_take_lt by lia. destruct (items !! Z.to_nat k); [|done]. cbn. by rewrite option_guard_True.
    + rewrite lookup_take_ge by lia. destruct (items !! Z.to_nat k); [|done]. cbn. by rewrite option_guard_False.
  - intros i item Hi. apply lookup_take_Some in Hi as [Hi Hlt]. destruct (io_ledgers _ _ Hok i item Hi) as [<- Hit]. split; [|done].
    cbn [index_items]. rewrite map_lookup_filter. destruct (index_items db !! Z.of_nat i); [|done]. cbn. by rewrite option_guard_True by (cbn; lia).
Qed.

(** Lookups anchored at or below the height of a truncation do not change. *)
Lemma truncate_keeps_lookups db items h db' ledger off a :
  index_grows db items → 0 ≤ h < 2 ^ 64 - 1 → h < Z.of_nat (length items) → truncate_to_height (E:=IndexReport) db h = Ok db' →
  Z.of_nat a ≤ h → 0 ≤ off → block_bounds_at_height_in_tx db' ledger off (Z.of_nat a) = block_bounds_at_height_in_tx db ledger off (Z.of_nat a).
Proof.
  intros [Hok Hg] Hh Hlen Htr Ha Hoff. destruct (truncate_ok (E:=IndexReport) db items h Hok Hh) as (db2 & Heq & Hok'). rewrite Htr in Heq. injection Heq as <-.
  destruct (lookup_lt_is_Some_2 items a) as [x Hx]; [lia|].
  rewrite (block_bounds_eq db items ledger off a x), (block_bounds_eq db' (take (S (Z.to_nat h)) items) ledger off a x); try done || lia.
  - by rewrite take_take, Nat.min_l by lia.
  - intros i y z Hy Hz. apply lookup_take_Some in Hy as [Hy _], Hz as [Hz _]. by apply (Hg ledger i).
  - by rewrite lookup_take_lt by lia.
Qed.

(** The unanchored lookup is anchored at the last block. *)
Lemma block_bounds_in_tx_eq db items ledger off :
  index_ok db items → block_bounds_in_tx db ledger off =
  if decide (items = []) then Err IndexEmpty else block_bounds_at_height_in_tx db ledger off (Z.of_nat (length items) - 1).
Proof. intros Hok. unfold block_bounds_in_tx. rewrite (latest_height_eq _ _ Hok). by destruct (decide (items = [])). Qed.

(** C29: The block index, from empty by adding blocks that extend it, never refuses such a
    block, and a lookup anchored at any indexed height is exact: it answers the block of the
    history whose transactions put the ledger across the offset, with the sizes of the ledger
    before and after that block and its transaction root; it reports an inactive ledger
    exactly when the anchor block has none, and an offset beyond the frontier exactly when the
    ledger up to the anchor is not that long.  No other outcome occurs. *)
Theorem index_lookup_exact db items blocks :
  indexed db items blocks → Z.of_nat (length blocks) ≤ 2 ^ 64 →
  (∀ b, extends items cs b → ∃ db', push_block db b cs = Ok db') ∧
  ∀ ledger off a anchor, blocks !! a = Some anchor → 0 ≤ off →
    match block_bounds_at_height_in_tx db ledger off (Z.of_nat a) with
    | Ok bb => ∃ h b dl, (h ≤ a)%nat ∧ blocks !! h = Some b ∧ dl ∈ lh_data_ledgers (lb_header b) ∧
        ledger_of_id (tl_ledger_id dl) = Some ledger ∧
        bb = mkBlockBounds (Z.of_nat h) (lh_block_hash (lb_header b)) ledger (ledger_size cs ledger (take h blocks))
               (ledger_size cs ledger (take (S h) blocks)) (tl_tx_root dl) ∧
        ledger_size cs ledger (take h blocks) ≤ off < ledger_size cs ledger (take (S h) blocks)
    | Err (LedgerInactive l h) => l = ledger ∧ h = Z.of_nat a ∧ names_ledger ledger anchor = false
    | Err (OffsetBeyondFrontier l o f h) => l = ledger ∧ o = off ∧ h = Z.of_nat a ∧ names_ledger ledger anchor = true ∧
        f = ledger_size cs ledger (take (S a) blocks) ∧ f ≤ off
    | _ => False
    end.
Proof.
  intros Hidx Hlen64. destruct (indexed_ok _ _ _ Hidx) as (Hg & Hlen & Hitems). split.
  { intros b Hex. destruct (push_block_ok cs Hcs db items b Hg Hex) as (db' & ? & _). by exists db'. }
  intros ledger off a anchor Ha Hoff. destruct Hg as [Hok Hg]. pose proof (lookup_lt_Some _ _ _ Ha) as Halt.
  destruct (lookup_lt_is_Some_2 items a) as [item Hi]; [lia|]. destruct (Hitems a item Hi) as (b' & Hb' & Hib). rewrite Ha in Hb'. injection Hb' as <-.
  rewrite (block_bounds_eq db items ledger off a item Hok (Hg ledger) Hi ltac:(lia) Hoff).
  pose proof (ib_total _ _ _ _ Hib ledger) as Htot. pose proof (ib_named _ _ _ _ Hib ledger) as Hnam. unfold total_of in Htot.
  destruct (ledger_total ledger item) as [max|] eqn:Hmax; cbn [default] in Htot.
  2:{ split_and!; [done|done|]. destruct (names_ledger ledger anchor); [|done]. by destruct (proj2 Hnam eq_refl). }
  assert (names_ledger ledger anchor = true) as Hnamed by (by apply Hnam). destruct (Z.leb_spec max off); [done|].
  assert (Hgt : off < total_of ledger item) by (unfold total_of; by rewrite Hmax).
  destruct (first_above ledger off items a item Hi Hgt) as (r & x & Hr & Hx & Hup & Hlow).
  destruct (find_ledger_positive ledger x ltac:(lia)) as (l & Hl & _). destruct (Hitems r x Hx) as (b & Hb & Hxb).
  rewrite (scan_owner_at ledger off _ r 0 0 x l); [|by rewrite lookup_take_lt by lia| |done|done].
  2:{ intros i z Hir Hz. rewrite lookup_take_lt in Hz by lia. by apply (Hlow i). }
  cbn [expect]. destruct (ib_root _ _ _ _ Hxb ledger l Hl) as (dl & Hdl & Hid & Hroot). rewrite Hroot, Z.add_0_l, (ib_hash _ _ _ _ Hxb).
  rewrite (ib_total _ _ _ _ Hxb) in *. exists r, b, dl. split_and!; [done|done|done|done| | |done].
  - f_equal. destruct r as [|r']; [done|]. destruct (lookup_lt_is_Some_2 items r') as [p Hp]; [apply lookup_lt_Some in Hx; lia|].
    destruct (Hitems r' p Hp) as (bp & _ & Hpb). rewrite lookup_take_lt, Hp by lia. cbn. apply (ib_total _ _ _ _ Hpb).
  - destruct r as [|r']; [done|]. destruct (lookup_lt_is_Some_2 items r') as [p Hp]; [apply lookup_lt_Some in Hx; lia|].
    destruct (Hitems r' p Hp) as (bp & _ & Hpb). rewrite <- (ib_total _ _ _ _ Hpb). apply (Hlow r'); [lia|done].
Qed.
End Histories.
