(* ===== verification/IndexFile.v ===== *)
(** The file format that the block index had before it was a database table, its migration
    ([BlockIndex::new] and [load_index_from_file] in [crates/domain/src/models/block_index.rs],
    [to_bytes] and [from_bytes] in [crates/types/src/block.rs]), and the operations of the
    index on ranges of heights. *)

From S2P Require Import TreeHash StateErr Codec DataLedger EpochSnapshot BlockIndex BlockIndexFacts Prelude.

(** ** Items as bytes *)

Definition HEADER_SIZE : nat := 33.
Definition LEDGER_ITEM_SIZE : nat := 40.
Definition EXPECTED_NUM_LEDGERS : Z := 2.

(** A slice [bytes[a..a + n]], which panics out of range. *)
Definition slice {E} (a n : nat) (bytes : list byte) : result E (list byte) :=
  if (length bytes <? a + n)%nat then Panic else Ok (take n (drop a bytes)).

Definition LedgerIndexItem_to_bytes (l : LedgerIndexItem) : list byte := reverse (be_bytes 8 (li_total_chunks l)) ++ li_tx_root l.

(** The ledger of the item stays the default one. *)
Definition LedgerIndexItem_from_bytes {E} (bytes : list byte) : result E LedgerIndexItem :=
  size_bytes ← slice 0 8 bytes;
  tx_root ← slice 8 32 bytes;
  Ok (mkLedgerIndexItem (of_be_bytes (reverse size_bytes)) tx_root Publish).

Definition BlockIndexItem_to_bytes (item : BlockIndexItem) : list byte :=
  be_bytes 32 (bi_block_hash item) ++ [byte_of_Z (bi_num_ledgers item)] ++ concat (LedgerIndexItem_to_bytes <$> bi_ledgers item).

Definition BlockIndexItem_from_bytes {E} (bytes : list byte) : result E BlockIndexItem :=
  block_hash ← slice 0 32 bytes;
  num_ledgers ← expect (bytes !! 32%nat);
  ledgers ← mapM (λ i, b ← slice (33 + i * 40) 40 bytes; LedgerIndexItem_from_bytes b) (seq 0 (Z.to_nat (Z_of_byte num_ledgers)));
  Ok (mkBlockIndexItem (of_be_bytes block_hash) (Z_of_byte num_ledgers) ledgers).

(** ** Loading the file *)

Inductive IndexFileError : Type :=
| CorruptedBlockIndex (found : Z)
| InvalidLedger (id : Z).

(** What reading the ledgers of a block may stop at: the end of the file, or an error. *)
Inductive LoadStop : Type :=
| TruncatedMidLedger
| LoadError (e : IndexFileError).

Fixpoint read_ledgers (n i : nat) (buf : list byte) : list byte * result LoadStop (list LedgerIndexItem) :=
  match n with
  | O => (buf, Ok [])
  | S n' =>
      match read_exact LEDGER_ITEM_SIZE buf with
      | (buf', Ok ledger_buf) =>
          let total_chunks := of_be_bytes (reverse (take 8 ledger_buf)) in
          let tx_root := drop 8 ledger_buf in
          match ledger_of_id (Z.of_nat i) with
          | None => (buf', Err (LoadError (InvalidLedger (Z.of_nat i))))
          | Some ledger =>
              let '(rest, r) := read_ledgers n' (S i) buf' in
              (rest, ledgers ← r; Ok (mkLedgerIndexItem total_chunks tx_root ledger :: ledgers))
          end
      | (buf', _) => (buf', Err TruncatedMidLedger)
      end
  end.

(** The loop over blocks; every round that goes on takes a header off the file. *)
Fixpoint load_items (fuel : nat) (buf : list byte) (acc : list BlockIndexItem) : result IndexFileError (list BlockIndexItem) :=
  match fuel with
  | O => Panic
  | S fuel' =>
      match read_exact HEADER_SIZE buf with
      | (buf', Ok header_buf) =>
          let block_hash := of_be_bytes (take 32 header_buf) in
          num_ledgers ← expect (Z_of_byte <$> header_buf !! 32%nat);
          _ ← guard_err (negb (num_ledgers =? EXPECTED_NUM_LEDGERS)) (CorruptedBlockIndex num_ledgers);
          match read_ledgers (Z.to_nat num_ledgers) 0 buf' with
          | (_, Err TruncatedMidLedger) => Ok acc
          | (_, Err (LoadError e)) => Err e
          | (_, Panic) => Panic
          | (rest, Ok ledgers) => load_items fuel' rest (acc ++ [mkBlockIndexItem block_hash num_ledgers ledgers])
          end
      | _ => Ok acc
      end
  end.

(** A file that is missing loads as an empty one. *)
Definition load_index_from_file (file : option (list byte)) : result IndexFileError (list BlockIndexItem) :=
  match file with
  | None => Ok []
  | Some bytes => if bool_decide (bytes = []) then Ok [] else load_items (S (length bytes)) bytes []
  end.

Section Index.
  Context `{DupSort}.

Definition insert_items (db : IndexDb) (items : list BlockIndexItem) : IndexDb :=
  foldl (λ db hi, insert_block_index_item db (Z.of_nat hi.1) hi.2) db (imap pair items).

(** [BlockIndex::new]: a file is migrated into an empty index. *)
Definition BlockIndex_new (file : option (list byte)) (db : IndexDb) : result IndexFileError IndexDb :=
  if block_index_num_blocks db =? 0 then
    match file with
    | Some _ => items ← load_index_from_file file; Ok (insert_items db items)
    | None => Ok db
    end
  else Ok db.

(** [get_range]: any failed read makes the range empty. *)
Definition get_range (db : IndexDb) (start_height limit : Z) : list BlockIndexItem :=
  let total := block_index_num_blocks db in
  let start := Z.min start_height total in
  let stop := Z.min (saturating_add 64 start limit) total in
  match mapM (block_index_item_by_height db) (seqZ start (stop - start)) with Ok items => items | _ => [] end.

Definition get_latest_item (db : IndexDb) : option BlockIndexItem :=
  latest_height ← block_index_latest_height db; get_item db latest_height.
End Index.

(** ** Facts *)

(** An item as the file has it: the Publish and the Submit ledger. *)
Record file_item (item : BlockIndexItem) : Prop := {
  fi_hash : 0 ≤ bi_block_hash item < 2 ^ 256;
  fi_num : bi_num_ledgers item = 2;
  fi_ledgers : li_ledger <$> bi_ledgers item = [Publish; Submit];
  fi_entries : Forall (λ l, 0 ≤ li_total_chunks l < 2 ^ 64 ∧ length (li_tx_root l) = 32%nat) (bi_ledgers item)
}.

Lemma length_ledger_bytes l : length (li_tx_root l) = 32%nat → length (LedgerIndexItem_to_bytes l) = LEDGER_ITEM_SIZE.
Proof. intros Hl. unfold LedgerIndexItem_to_bytes. by rewrite length_app, length_reverse, length_be_bytes, Hl. Qed.

Lemma ledger_bytes_read l : 0 ≤ li_total_chunks l < 2 ^ 64 → 
  of_be_bytes (reverse (take 8 (LedgerIndexItem_to_bytes l))) = li_total_chunks l ∧ drop 8 (LedgerIndexItem_to_bytes l) = li_tx_root l.
Proof.
  intros Hl. assert (Hlen : length (reverse (be_bytes 8 (li_total_chunks l))) = 8%nat) by (by rewrite length_reverse, length_be_bytes).
  unfold LedgerIndexItem_to_bytes. rewrite take_app_length', drop_app_length', reverse_involutive by done. split; [|done]. apply of_be_bytes_be_bytes. lia.
Qed.

Lemma read_ledger n i l ledger rest :
  0 ≤ li_total_chunks l < 2 ^ 64 → length (li_tx_root l) = 32%nat → ledger_of_id (Z.of_nat i) = Some ledger → li_ledger l = ledger →
  read_ledgers (S n) i (LedgerIndexItem_to_bytes l ++ rest) =
  let '(rest', r) := read_ledgers n (S i) rest in (rest', ledgers ← r; Ok (l :: ledgers)).
Proof.
  intros Ht Hr Hi Hl. cbn [read_ledgers]. pose proof (length_ledger_bytes l Hr) as Hlen. unfold read_exact.
  rewrite (proj2 (Nat.ltb_ge _ _)) by (rewrite length_app; lia). rewrite <- Hlen, drop_app_length, take_app_length, Hi.
  destruct (ledger_bytes_read l Ht) as [-> ->]. destruct l as [t r l']. cbn in *. by subst l'.
Qed.

(** A file that ends within the ledgers of a block. *)
Lemma read_ledgers_short n i buf :
  (length buf < n * LEDGER_ITEM_SIZE)%nat → (i + n ≤ 2)%nat → ∃ rest, read_ledgers n i buf = (rest, Err TruncatedMidLedger).
Proof.
  revert i buf. induction n as [|n IH]; intros i buf Hlen Hi; [cbn in Hlen; lia|]. cbn [read_ledgers]. unfold read_exact.
  destruct (Nat.ltb_spec (length buf) LEDGER_ITEM_SIZE) as [Hlt|Hge]; [by eexists|].
  assert (∃ ledger, ledger_of_id (Z.of_nat i) = Some ledger) as [ledger ->] by (destruct i as [|[|i]]; [by eexists..|lia]).
  destruct (IH (S i) (drop LEDGER_ITEM_SIZE buf)) as [rest ->]; [rewrite length_drop; unfold LEDGER_ITEM_SIZE in *; lia|lia|]. by exists rest.
Qed.

Lemma file_item_cases item : file_item item →
  ∃ p s, item = mkBlockIndexItem (bi_block_hash item) 2 [p; s] ∧ li_ledger p = Publish ∧ li_ledger s = Submit ∧
    (0 ≤ li_total_chunks p < 2 ^ 64 ∧ length (li_tx_root p) = 32%nat) ∧ (0 ≤ li_total_chunks s < 2 ^ 64 ∧ length (li_tx_root s) = 32%nat).
Proof.
  intros [_ Hn Hl He]. destruct item as [h n ls]. cbn in *. subst n. destruct ls as [|p [|s [|]]]; try discriminate Hl. injection Hl as Hp Hs.
  apply Forall_cons in He as [? He]. apply Forall_cons in He as [? _]. by exists p, s.
Qed.

(** The bytes of an item: a header of hash and ledger count, and the ledgers. *)
Lemma item_bytes item : file_item item → ∃ header ledgers,
  BlockIndexItem_to_bytes item = header ++ ledgers ∧ length header = HEADER_SIZE ∧ length ledgers = (2 * LEDGER_ITEM_SIZE)%nat ∧
  of_be_bytes (take 32 header) = bi_block_hash item ∧ header !! 32%nat = Some x02 ∧ ∀ rest, read_ledgers 2 0 (ledgers ++ rest) = (rest, Ok (bi_ledgers item)).
Proof.
  intros Hitem. pose proof (fi_hash _ Hitem) as Hh. destruct (file_item_cases _ Hitem) as (p & s & Heq & Hp & Hs & [Hpt Hpr] & [Hst Hsr]).
  assert (H32 : length (be_bytes 32 (bi_block_hash item)) = 32%nat) by apply length_be_bytes.
  exists (be_bytes 32 (bi_block_hash item) ++ [x02]), (LedgerIndexItem_to_bytes p ++ LedgerIndexItem_to_bytes s). split_and!.
  - rewrite Heq at 1. unfold BlockIndexItem_to_bytes. cbn [bi_block_hash bi_num_ledgers bi_ledgers fmap list_fmap concat]. by rewrite app_nil_r, <- (assoc_L (++)).
  - by rewrite length_app, H32.
  - by rewrite length_app, !length_ledger_bytes.
  - rewrite take_app_le, take_ge by lia. apply of_be_bytes_be_bytes. by change (256 ^ Z.of_nat 32) with (2 ^ 256).
  - by rewrite lookup_app_r, H32 by lia.
  - intros rest. rewrite <- (assoc_L (++)), (read_ledger 1 0 p Publish) by done. rewrite (read_ledger 0 1 s Submit) by done. cbn [read_ledgers]. res_simpl. by rewrite Heq.
Qed.

Lemma load_item fuel item rest acc : file_item item →
  load_items (S fuel) (BlockIndexItem_to_bytes item ++ rest) acc = load_items fuel rest (acc ++ [item]).
Proof.
  intros Hitem. destruct (item_bytes _ Hitem) as (header & ledgers & -> & Hh & Hl & Hhash & Hn & Hread). cbn [load_items]. unfold read_exact.
  rewrite (proj2 (Nat.ltb_ge _ _)) by (rewrite !length_app; lia). rewrite <- Hh, <- (assoc_L (++)), drop_app_length, take_app_length, Hhash, Hn.
  cbn [fmap option_fmap option_map expect]. res_simpl. change (Z_of_byte x02) with 2. change (negb (2 =? EXPECTED_NUM_LEDGERS)) with false. res_simpl.
  change (Z.to_nat 2) with 2%nat. rewrite Hread. do 3 f_equal. destruct (file_item_cases _ Hitem) as (p & s & -> & _). done.
Qed.

(** A last block that was written in part is dropped. *)
Lemma load_tail fuel item k acc : file_item item → (k < HEADER_SIZE + 2 * LEDGER_ITEM_SIZE)%nat →
  load_items (S fuel) (take k (BlockIndexItem_to_bytes item)) acc = Ok acc.
Proof.
  intros Hitem Hk. destruct (item_bytes _ Hitem) as (header & ledgers & -> & Hh & Hl & _ & Hn & _). cbn [load_items]. unfold read_exact.
  rewrite length_take, length_app, Nat.min_l by lia. destruct (Nat.ltb_spec k HEADER_SIZE) as [|Hge]; [done|].
  rewrite take_app_ge by lia. rewrite <- Hh, drop_app_length, take_app_length, Hn.
  cbn [fmap option_fmap option_map expect]. res_simpl. change (Z_of_byte x02) with 2. change (negb (2 =? EXPECTED_NUM_LEDGERS)) with false. res_simpl.
  change (Z.to_nat 2) with 2%nat. destruct (read_ledgers_short 2 0 (take (k - length header) ledgers)) as [rest ->]; [rewrite length_take; lia|lia|done].
Qed.

Lemma load_all items last k fuel acc : Forall file_item items → file_item last → (k < HEADER_SIZE + 2 * LEDGER_ITEM_SIZE)%nat → (length items < fuel)%nat →
  load_items fuel (concat (BlockIndexItem_to_bytes <$> items) ++ take k (BlockIndexItem_to_bytes last)) acc = Ok (acc ++ items).
Proof.
  intros Hitems Hlast Hk. revert fuel acc. induction Hitems as [|item items Hitem _ IH]; intros fuel acc Hfuel; (destruct fuel as [|fuel]; [cbn in Hfuel; lia|]).
  - cbn [fmap list_fmap concat app]. by rewrite load_tail, app_nil_r.
  - rewrite fmap_cons. cbn [concat]. rewrite <- (assoc_L (++)), load_item by done. rewrite IH by (cbn in Hfuel; lia). by rewrite <- (assoc_L (++)).
Qed.

Lemma items_bytes_length items : Forall file_item items → (length items ≤ length (concat (BlockIndexItem_to_bytes <$> items)))%nat.
Proof.
  induction 1 as [|item items Hitem _ IH]; [done|]. rewrite fmap_cons. cbn [concat]. rewrite length_app.
  destruct (item_bytes _ Hitem) as (header & ledgers & -> & Hh & _). rewrite length_app, Hh. cbn. unfold HEADER_SIZE. lia.
Qed.

Lemma load_file items last k : Forall file_item items → file_item last → (k < HEADER_SIZE + 2 * LEDGER_ITEM_SIZE)%nat →
  load_index_from_file (Some (concat (BlockIndexItem_to_bytes <$> items) ++ take k (BlockIndexItem_to_bytes last))) = Ok items.
Proof.
  intros Hitems Hlast Hk. pose proof (items_bytes_length _ Hitems) as Hlen. unfold load_index_from_file. case_bool_decide as Hnil.
  - apply app_nil in Hnil as [Hnil _]. rewrite Hnil in Hlen. by destruct items; [|cbn in Hlen; lia].
  - rewrite load_all; [done..|]. rewrite length_app. lia.
Qed.

(** An item that reads like another: the order of its ledgers may differ. *)
Definition reads_like (x y : BlockIndexItem) : Prop :=
  bi_block_hash x = bi_block_hash y ∧ bi_num_ledgers x = bi_num_ledgers y ∧ ∀ ledger, find_ledger ledger (bi_ledgers x) = find_ledger ledger (bi_ledgers y).

Section IndexFacts.
  Context `{DupSort}.

Lemma file_item_ok item : file_item item → item_ok item.
Proof.
  intros Hitem. split; [rewrite (fi_ledgers _ Hitem); by apply (bool_decide_unpack _)|].
  by rewrite (fi_num _ Hitem), <- (length_fmap li_ledger), (fi_ledgers _ Hitem).
Qed.

Lemma insert_items_ok items : Forall item_ok items → index_ok (insert_items (mkIndexDb ∅ ∅) items) items.
Proof.
  induction items as [|item items IH] using rev_ind; intros Hall; [by split|]. apply Forall_app in Hall as [Hall Hitem]. apply Forall_cons in Hitem as [Hitem _].
  unfold insert_items. rewrite imap_app, foldl_app. cbn [imap foldl]. rewrite Nat.add_0_r. apply insert_ok; [|done]. by apply IH.
Qed.

Lemma range_items db items s n : index_ok db items → (s + n ≤ length items)%nat →
  ∃ ys, mapM (block_index_item_by_height db) (seqZ (Z.of_nat s) (Z.of_nat n)) = Ok ys ∧ Forall2 reads_like ys (take n (drop s items)).
Proof.
  intros Hok. revert s. induction n as [|n IH]; intros s Hlen; [by exists []|].
  destruct (lookup_lt_is_Some_2 items s) as [x Hx]; [lia|]. destruct (item_by_height _ _ _ _ Hok Hx) as (y & Hy & Hh & Hn & Hf).
  destruct (IH (S s)) as (ys & Hys & Hall); [lia|]. exists (y :: ys). rewrite seqZ_cons by lia. replace (Z.succ (Z.of_nat s)) with (Z.of_nat (S s)) by lia.
  replace (Z.pred (Z.of_nat (S n))) with (Z.of_nat n) by lia. rewrite (drop_S _ _ _ Hx). cbn [mapM take]. rewrite Hy. res_simpl. rewrite Hys. split; [done|].
  by constructor.
Qed.

Lemma get_range_ok db items s n : index_ok db items → Z.of_nat (length items) < 2 ^ 64 →
  Forall2 reads_like (get_range db (Z.of_nat s) (Z.of_nat n)) (take n (drop s items)).
Proof.
  intros Hok Hlen. unfold get_range. rewrite (num_blocks_eq _ _ Hok). unfold saturating_add.
  set (s' := Nat.min s (length items)). set (n' := Nat.min n (length items - s')).
  replace (Z.min (Z.of_nat s) (Z.of_nat (length items))) with (Z.of_nat s') by lia.
  replace (Z.min (Z.min (2 ^ 64 - 1) (Z.of_nat s' + Z.of_nat n)) (Z.of_nat (length items)) - Z.of_nat s') with (Z.of_nat n') by lia.
  destruct (range_items db items s' n' Hok ltac:(lia)) as (ys & -> & Hall).
  enough (take n (drop s items) = take n' (drop s' items)) as -> by done. subst n' s'. destruct (Nat.le_gt_cases s (length items)).
  - rewrite (Nat.min_l s) by lia. destruct (Nat.le_gt_cases n (length items - s)); [by rewrite Nat.min_l by lia|].
    rewrite !take_ge by (rewrite length_drop; lia). done.
  - rewrite (Nat.min_r s) by lia. rewrite !drop_ge by lia. by rewrite !take_nil.
Qed.

(** C30: The migration of the file format is exact.  From the bytes that the items of an index
    were written as, followed by any part of one more item (as a crash during a write
    leaves), a new index is made of exactly these items: every range of heights reads them
    back in order, and the latest one is the last.  The file is neither read nor applied when
    the index already has blocks. *)
Theorem index_file_migration items last_item k :
  Forall file_item items → file_item last_item → (k < HEADER_SIZE + 2 * LEDGER_ITEM_SIZE)%nat → Z.of_nat (length items) < 2 ^ 64 →
  let file := Some (concat (BlockIndexItem_to_bytes <$> items) ++ take k (BlockIndexItem_to_bytes last_item)) in
  ∃ db, BlockIndex_new file (mkIndexDb ∅ ∅) = Ok db ∧ block_index_num_blocks db = Z.of_nat (length items) ∧
    (∀ s n, Forall2 reads_like (get_range db (Z.of_nat s) (Z.of_nat n)) (take n (drop s items))) ∧
    match last items with
    | None => get_latest_item db = None
    | Some item => ∃ x, get_latest_item db = Some x ∧ reads_like x item
    end ∧
    (items ≠ [] → ∀ file', BlockIndex_new file' db = Ok db).
Proof.
  intros Hitems Hlast Hk Hlen file. exists (insert_items (mkIndexDb ∅ ∅) items).
  assert (Hok : index_ok (insert_items (mkIndexDb ∅ ∅) items) items) by (apply insert_items_ok; eapply Forall_impl; [done|]; apply file_item_ok).
  split_and!.
  - unfold BlockIndex_new. change (block_index_num_blocks (mkIndexDb ∅ ∅) =? 0) with true. unfold file. by rewrite load_file.
  - by apply num_blocks_eq.
  - intros s n. by apply get_range_ok.
  - unfold get_latest_item. rewrite (latest_height_eq _ _ Hok). destruct (list_snoc_cases items) as [->|(l & x & ->)]; [done|].
    rewrite last_snoc, decide_False by (by destruct l). rewrite length_app. cbn [length mbind option_bind].
    replace (Z.of_nat (length l + 1) - 1) with (Z.of_nat (length l)) by lia. unfold get_item.
    destruct (item_by_height _ _ (length l) x Hok) as (y & -> & Hy); [by rewrite lookup_app_r, Nat.sub_diag|]. by exists y.
  - intros Hne file'. unfold BlockIndex_new. rewrite (num_blocks_eq _ _ Hok). destruct (Z.eqb_spec (Z.of_nat (length items)) 0); [|done]. by destruct items.
Qed.
End IndexFacts.

(** ** An example *)

Module IndexFileExample.
#[local] Instance put_order : DupSort := { walk_dup := id; walk_dup_perm := λ l _, Permutation_refl l }.

Definition item (h t : Z) : BlockIndexItem :=
  mkBlockIndexItem h 2 [mkLedgerIndexItem 0 (replicate 32 x07) Publish; mkLedgerIndexItem t (replicate 32 x08) Submit].
Lemma item_good h t : 0 ≤ h < 2 ^ 256 → 0 ≤ t < 2 ^ 64 → file_item (item h t).
Proof. intros Hh Ht. split; [done..|]. repeat constructor; cbn; lia. Qed.

Lemma index_file_migration_witness :
  ∃ db, BlockIndex_new (Some (concat (BlockIndexItem_to_bytes <$> [item 5 1; item 6 300]) ++ take 50 (BlockIndexItem_to_bytes (item 7 301)))) (mkIndexDb ∅ ∅) = Ok db ∧
    block_index_num_blocks db = 2 ∧ Forall2 reads_like (get_range db 1 5) [item 6 300].
Proof.
  destruct (index_file_migration [item 5 1; item 6 300] (item 7 301) 50) as (db & Hnew & Hn & Hrange & _).
  - constructor; [apply item_good; lia|]. constructor; [apply item_good; lia|constructor].
  - apply item_good; lia.
  - unfold HEADER_SIZE, LEDGER_ITEM_SIZE. lia.
  - cbn. lia.
  - exists db. split; [exact Hnew|]. split; [exact Hn|]. exact (Hrange 1%nat 5%nat).
Defined.

(** [from_bytes] of [to_bytes] does not give the ledgers back: all become the default one. *)
Example from_bytes_forgets_ledgers :
  BlockIndexItem_from_bytes (E:=IndexFileError) (BlockIndexItem_to_bytes (item 6 300)) =
  Ok (mkBlockIndexItem 6 2 [mkLedgerIndexItem 0 (replicate 32 x07) Publish; mkLedgerIndexItem 300 (replicate 32 x08) Publish]).
Proof. vm_compute. reflexivity. Qed.
End IndexFileExample.
