(* ===== verification/Poa.v ===== *)
(** Proofs of access: the check that a block's chunk is stored by its miner
    ([poa_is_valid] and what it calls in [crates/actors/src/block_validation.rs]; the
    [tx_root] of a ledger in [crates/types/src/block.rs]).

    A data proof names a chunk of a partition.  The partition assignment gives the chunk's
    offset in its ledger, the block index or the block tree give the block that added the
    chunk, the transactions of that block give the transaction and its chunk, and two Merkle
    paths lead from the transaction root of the block to the bytes.  Database reads that fail
    are not modelled. *)

From S2P Require Import RefTree TreeHash StateErr Codec Packing Merkle DataLedger EpochSnapshot BlockIndex Prelude.

Record PoaData : Type := mkPoaData {
  poa_partition_chunk_offset : Z;
  poa_partition_hash : Z;
  poa_chunk : option (list byte);
  poa_ledger_id : option Z;
  poa_tx_path : option (list byte);
  poa_data_path : option (list byte)
}.

(** The variants of [PreValidationError] that the check returns. *)
Inductive PoaError : Type :=
| PoAChunkMissing
| PoAChunkTooLong (chunk_size : Z) (limit got : nat)
| PoAChunkTooShort (expected got : nat)
| PoAPartitionNotOwned (partition_hash miner : Z) (owner : option Z)
| PoALedgerMismatch (partition_hash poa_ledger : Z) (assigned_ledger : option Z)
| PartitionAssignmentMissing (partition_hash : Z)
| PartitionAssignmentSlotIndexMissing (partition_hash : Z)
| LedgerIdInvalid (ledger : Z)
| BlockBoundsLookupError
| PoALedgerInactive (ledger : Z)
| PoAChunkOffsetOutOfBlockBounds
| PoAChunkOffsetOutOfTxBounds
| PoAChunkOffsetOutOfDataChunksBounds
| PoAOffCanonicalAncestor (ancestor_hash height : Z)
| ParentNotInCache (parent_hash expected_height : Z)
| MerkleProofInvalid (e : MerkleError)
| PoaTxRootLeafMismatch (expected got : list byte)
| PoAChunkPaddingNotZero (span : nat)
| PoAChunkHashMismatch (expected got : list byte)
| PoACapacityChunkMismatch.

Record PoaConfig : Type := mkPoaConfig {
  pc_chunk_size : Z;
  pc_num_chunks_in_partition : Z;
  pc_entropy_packing_iterations : nat;
  pc_chain_id : Z;
  pc_echo_activation_height : option Z
}.

(** What the check reads: the block tree by hash, the index, and the tables of block and
    transaction headers. *)
Record PoaView : Type := mkPoaView {
  v_tree : gmap Z LedgerBlock;
  v_index : IndexDb;
  v_headers : gmap Z LedgerHeader;
  v_txs : gmap Z DataTransactionHeader
}.

Definition is_data_poa (poa : PoaData) : bool :=
  bool_decide (is_Some (poa_data_path poa)) && bool_decide (is_Some (poa_tx_path poa)) && bool_decide (is_Some (poa_ledger_id poa)).

Definition is_echo_active_at_height (c : PoaConfig) (height : Z) : bool :=
  match pc_echo_activation_height c with Some h => h <=? height | None => false end.

(** ** Ownership *)

Definition poa_partition_is_owned_by_miner (partition_hash miner_address : Z) (es : EpochSnapshot) : result PoaError () :=
  let owner := pa_miner_address <$> get_assignment es partition_hash in
  guard_err (negb (bool_decide (owner = Some miner_address))) (PoAPartitionNotOwned partition_hash miner_address owner).

Definition poa_ledger_matches_assignment (poa : PoaData) (es : EpochSnapshot) : result PoaError () :=
  match poa_ledger_id poa with
  | Some id =>
      if is_data_poa poa then
        let assigned := get_assignment es (poa_partition_hash poa) ≫= λ a, ledger_id <$> pa_ledger_id a in
        guard_err (negb (bool_decide (assigned = Some id))) (PoALedgerMismatch (poa_partition_hash poa) id assigned)
      else Ok ()
  | None => Ok ()
  end.

(** ** Ledgers of a header *)

Definition ledger_of_header (h : LedgerHeader) (ledger : DataLedger) : option DataTransactionLedger :=
  List.find (λ l, tl_ledger_id l =? ledger_id ledger) (lh_data_ledgers h).
Definition ledger_entry_in (h : LedgerHeader) (ledger : DataLedger) : option (Z * list byte) :=
  (λ l, (tl_total_chunks l, tl_tx_root l)) <$> ledger_of_header h ledger.
Definition ledger_tx_ids_in (h : LedgerHeader) (ledger : DataLedger) : option (list Z) :=
  tl_tx_ids <$> ledger_of_header h ledger.

(** ** The transaction of a chunk *)

Record ChunkLayoutPoaTx : Type := mkChunkLayout {
  cl_tx : DataTransactionHeader;
  cl_raw_start : Z;
  cl_tx_chunk_offset : Z
}.

(** The visitor of [select_poa_tx_by_chunk_layout]: stop, or go on with the next cursors.  A
    chunk size of 0 panics in [div_ceil]. *)
Definition visit_tx (block_chunk_offset chunk_size : Z) (cursor : Z * Z) (tx : DataTransactionHeader)
  : result PoaError (ChunkLayoutPoaTx + (Z * Z)) :=
  let '(chunk_start, raw_start) := cursor in
  if chunk_size =? 0 then Panic
  else
    let chunk_end := chunk_start + div_ceil (th_data_size tx) chunk_size in
    Ok (if (chunk_start <=? block_chunk_offset) && (block_chunk_offset <? chunk_end)
        then inl (mkChunkLayout tx raw_start ((block_chunk_offset - chunk_start) * chunk_size))
        else inr (chunk_end, raw_start + th_data_size tx)).

(** The walk over transactions; [read] gets the header of one. *)
Fixpoint visit_txs {A} (read : A → result PoaError DataTransactionHeader) (block_chunk_offset chunk_size : Z) (cursor : Z * Z)
    (txs : list A) : result PoaError (option ChunkLayoutPoaTx) :=
  match txs with
  | [] => Ok None
  | x :: rest =>
      tx ← read x;
      flow ← visit_tx block_chunk_offset chunk_size cursor tx;
      match flow with
      | inl found => Ok (Some found)
      | inr cursor' => visit_txs read block_chunk_offset chunk_size cursor' rest
      end
  end.

Definition visit_owning_ledger_txs (v : PoaView) (owning_block_hash : Z) (ledger : DataLedger) (block_chunk_offset chunk_size : Z)
  : result PoaError (option ChunkLayoutPoaTx) :=
  match v_tree v !! owning_block_hash with
  | Some sealed => visit_txs Ok block_chunk_offset chunk_size (0, 0) (lb_ledger_txs sealed ledger)
  | None =>
      header ← ok_or (v_headers v !! owning_block_hash) BlockBoundsLookupError;
      tx_ids ← ok_or (ledger_tx_ids_in header ledger) BlockBoundsLookupError;
      visit_txs (λ id, ok_or (v_txs v !! id) BlockBoundsLookupError) block_chunk_offset chunk_size (0, 0) tx_ids
  end.

Definition select_poa_tx_by_chunk_layout (v : PoaView) (owning_block_hash : Z) (ledger : DataLedger) (block_chunk_offset chunk_size : Z)
  : result PoaError ChunkLayoutPoaTx :=
  found ← visit_owning_ledger_txs v owning_block_hash ledger block_chunk_offset chunk_size;
  ok_or found PoAChunkOffsetOutOfTxBounds.

(** ** The block of a chunk *)

Definition assert_canonical_via_migrated_hashes (v : PoaView) (prev_hash prev_height : Z) : result PoaError () :=
  guard_err (negb (bool_decide (migrated_hashes (v_index v) !! prev_height = Some prev_hash)))
            (PoAOffCanonicalAncestor prev_hash prev_height).

Section Bounds.
  Context `{DupSort}.
  Context (v : PoaView).

(** The total of a ledger before block [curr]. *)
Definition prev_total_of (ledger : DataLedger) (curr : LedgerHeader) : result PoaError Z :=
  if lh_height curr =? 0 then Ok 0
  else match v_tree v !! lh_previous_block_hash curr with
       | Some prev => Ok (default 0 (fst <$> ledger_entry_in (lb_header prev) ledger))
       | None =>
           let prev_height := lh_height curr - 1 in
           _ ← assert_canonical_via_migrated_hashes v (lh_previous_block_hash curr) prev_height;
           item ← ok_or (get_item (v_index v) prev_height) BlockBoundsLookupError;
           Ok (default 0 (ledger_total ledger item))
       end.

(** The loop over the parents in the tree; [curr_total] and [curr_tx_root] are those of
    [curr].  A round goes from a height to the one below. *)
Fixpoint walk_bounds (fuel : nat) (ledger : DataLedger) (ledger_chunk_offset : Z) (curr : LedgerHeader) (curr_total : Z)
    (curr_tx_root : list byte) : result PoaError (BlockBounds * Z) :=
  prev_total ← prev_total_of ledger curr;
  if prev_total <=? ledger_chunk_offset then
    Ok (mkBlockBounds (lh_height curr) (lh_block_hash curr) ledger prev_total curr_total curr_tx_root, lh_block_hash curr)
  else if lh_height curr =? 0 then Err BlockBoundsLookupError
  else match v_tree v !! lh_previous_block_hash curr with
       | Some prev =>
           entry ← expect (ledger_entry_in (lb_header prev) ledger);
           match fuel with
           | O => Panic
           | S fuel' => walk_bounds fuel' ledger ledger_chunk_offset (lb_header prev) entry.1 entry.2
           end
       | None =>
           let prev_height := lh_height curr - 1 in
           _ ← assert_canonical_via_migrated_hashes v (lh_previous_block_hash curr) prev_height;
           bounds ← map_err (λ _, BlockBoundsLookupError)
                      (block_bounds_at_height_in_tx (v_index v) ledger ledger_chunk_offset prev_height);
           Ok (bounds, bb_block_hash bounds)
       end.

Definition poa_bounds_error (ledger : DataLedger) (e : BlockBoundsError) : PoaError :=
  match e with
  | OffsetBeyondFrontier _ _ _ _ => PoAChunkOffsetOutOfBlockBounds
  | LedgerInactive _ _ => PoALedgerInactive (ledger_id ledger)
  | IndexEmpty | Internal _ => BlockBoundsLookupError
  end.

Definition get_data_poa_bounds_with_block_tree_fallback (parent_block_hash parent_height : Z) (ledger : DataLedger)
    (ledger_chunk_offset : Z) : result PoaError (BlockBounds * Z) :=
  if match get_item (v_index v) parent_height with
     | Some parent_item => bi_block_hash parent_item =? parent_block_hash
     | None => false
     end
  then
    bounds ← map_err (poa_bounds_error ledger)
               (block_bounds_at_height_in_tx (v_index v) ledger ledger_chunk_offset parent_height);
    Ok (bounds, bb_block_hash bounds)
  else
    parent ← ok_or (v_tree v !! parent_block_hash) (ParentNotInCache parent_block_hash parent_height);
    let parent_header := lb_header parent in
    entry ← ok_or (ledger_entry_in parent_header ledger) (PoALedgerInactive (ledger_id ledger));
    _ ← guard_err (entry.1 <=? ledger_chunk_offset) PoAChunkOffsetOutOfBlockBounds;
    walk_bounds (Z.to_nat (lh_height parent_header)) ledger ledger_chunk_offset parent_header entry.1 entry.2.
End Bounds.

(** ** Transaction roots *)

Section TxRoot.
  Context `{Sha256}.

(** [fold_tx_root_leaf]: the two digests in one buffer. *)
Definition fold_tx_root_leaf (data_root prefix_hash : list byte) : list byte :=
  hash_sha256 (hash_sha256 data_root ++ hash_sha256 prefix_hash).
Definition tx_root_leaf_value (tx : DataTransactionHeader) : list byte :=
  fold_tx_root_leaf (th_data_root tx) (th_prefix_hash tx).
Definition folded_leaves (data_txs : list DataTransactionHeader) : list DataRootLeaf :=
  (λ h, mkDataRootLeaf (tx_root_leaf_value h) (th_data_size h)) <$> data_txs.

Definition ZERO_ROOT : list byte := replicate HASH_SIZE x00.

Definition merklize_tx_root {E} (data_txs : list DataTransactionHeader) : result E (list byte * list Proof_) :=
  if bool_decide (data_txs = []) then Ok (ZERO_ROOT, [])
  else
    leaves ← expect_ok (generate_leaves_from_data_roots (folded_leaves data_txs));
    root ← expect_ok (generate_data_root leaves);
    proofs ← expect_ok (resolve_proofs root None);
    Ok (n_id root, proofs).

Definition compute_tx_root {E} (data_txs : list DataTransactionHeader) : result E (list byte) :=
  if bool_decide (data_txs = []) then Ok ZERO_ROOT
  else
    leaves ← expect_ok (generate_leaves_from_data_roots (folded_leaves data_txs));
    root ← expect_ok (generate_data_root leaves);
    Ok (n_id root).
End TxRoot.

(** ** The check *)

Definition reject_poa_chunk_longer_than (chunk : list byte) (chunk_size : Z) (limit : nat) : result PoaError () :=
  guard_err (limit <? length chunk)%nat (PoAChunkTooLong chunk_size limit (length chunk)).

Definition poa_chunk_within_configured_len (chunk : list byte) (chunk_size : Z) : result PoaError () :=
  reject_poa_chunk_longer_than chunk chunk_size (Z.to_nat chunk_size).

Section PoaIsValid.
  Context `{DupSort} `{Sha256}.
  Context (v : PoaView) (config : PoaConfig).

Definition merkle_err {A} (r : result MerkleError A) : result PoaError A := map_err MerkleProofInvalid r.
Definition out_of_chunk {A} (r : result MerkleError A) : result PoaError A := map_err (λ _, PoAChunkOffsetOutOfDataChunksBounds) r.

(** The entropy of the chunk; hashing cannot fail, a slice out of range panics. *)
Definition poa_entropy (poa : PoaData) (miner_address : Z) : result PoaError (list byte) :=
  expect_ok (compute_entropy_chunk (be_bytes 20 miner_address) (poa_partition_chunk_offset poa) (be_bytes 32 (poa_partition_hash poa))
               (pc_entropy_packing_iterations config) (Z.to_nat (pc_chunk_size config)) (pc_chain_id config)).

(** The offset in the ledger of a chunk of a data partition. *)
Definition poa_ledger_chunk_offset (poa : PoaData) (es : EpochSnapshot) : result PoaError Z :=
  assignment ← ok_or (get_assignment es (poa_partition_hash poa)) (PartitionAssignmentMissing (poa_partition_hash poa));
  slot_index ← ok_or (pa_slot_index assignment) (PartitionAssignmentSlotIndexMissing (poa_partition_hash poa));
  start ← expect (checked_mul 64 (Z.of_nat slot_index) (pc_num_chunks_in_partition config));
  expect (checked_add 64 start (poa_partition_chunk_offset poa)).

(** The transaction path: the owning transaction and the offset of the chunk in it. *)
Definition poa_tx_path_valid (tx_path : list byte) (bb : BlockBounds) (hit : ChunkLayoutPoaTx) : result PoaError () :=
  let raw_end := cl_raw_start hit + th_data_size (cl_tx hit) in
  let target := cl_raw_start hit + cl_tx_chunk_offset hit in
  tx_path_result ← merkle_err (validate_path (bb_tx_root bb) tx_path target);
  _ ← guard_err (negb (min_byte_range tx_path_result =? cl_raw_start hit) || negb (max_byte_range tx_path_result =? raw_end))
        PoAChunkOffsetOutOfTxBounds;
  let expected_leaf := tx_root_leaf_value (cl_tx hit) in
  guard_err (negb (bool_decide (leaf_hash tx_path_result = expected_leaf)))
    (PoaTxRootLeafMismatch expected_leaf (leaf_hash tx_path_result)).

(** The data path and the bytes of the chunk. *)
Definition poa_data_path_valid (data_path poa_chunk : list byte) (poa : PoaData) (miner_address : Z) (hit : ChunkLayoutPoaTx)
  : result PoaError () :=
  let owning_tx := cl_tx hit in
  data_path_result ← merkle_err (validate_path (th_data_root owning_tx) data_path (cl_tx_chunk_offset hit));
  _ ← expect (if pc_chunk_size config =? 0 then None else Some tt);
  let chunk_index := cl_tx_chunk_offset hit / pc_chunk_size config in
  _ ← guard_err (negb (fits 32 chunk_index)) PoAChunkOffsetOutOfDataChunksBounds;
  range ← out_of_chunk (expected_chunk_byte_range chunk_index (th_data_size owning_tx) (pc_chunk_size config));
  let '(chunk_start, chunk_end) := (range : Z * Z) in
  _ ← out_of_chunk (validate_path_byte_range data_path_result (chunk_start, chunk_end));
  entropy_chunk ← poa_entropy poa miner_address;
  _ ← reject_poa_chunk_longer_than poa_chunk (pc_chunk_size config) (length entropy_chunk);
  let chunk_len := Z.to_nat (pc_chunk_size config) in
  _ ← guard_err (length poa_chunk <? chunk_len)%nat (PoAChunkTooShort chunk_len (length poa_chunk));
  unpacked ← expect_ok (xor_vec_u8_arrays_in_place poa_chunk entropy_chunk);
  span ← expect (checked_sub chunk_end chunk_start);
  _ ← expect (if (length unpacked <? Z.to_nat span)%nat then None else Some tt);
  let chunk_data := take (Z.to_nat span) unpacked in
  let padding := drop (Z.to_nat span) unpacked in
  _ ← guard_err (existsb (λ b, negb (bool_decide (b = x00))) padding) (PoAChunkPaddingNotZero (Z.to_nat span));
  let poa_chunk_hash := sha256 chunk_data in
  guard_err (negb (bool_decide (poa_chunk_hash = leaf_hash data_path_result)))
    (PoAChunkHashMismatch (leaf_hash data_path_result) poa_chunk_hash).

Definition poa_is_valid (poa : PoaData) (parent_block_hash parent_height : Z) (es : EpochSnapshot) (miner_address block_height : Z)
  : result PoaError () :=
  poa_chunk ← ok_or (poa_chunk poa) PoAChunkMissing;
  _ ← poa_chunk_within_configured_len poa_chunk (pc_chunk_size config);
  _ ← (if is_echo_active_at_height config block_height then
         _ ← poa_partition_is_owned_by_miner (poa_partition_hash poa) miner_address es;
         poa_ledger_matches_assignment poa es
       else Ok ());
  match poa_data_path poa, poa_tx_path poa, poa_ledger_id poa with
  | Some data_path, Some tx_path, Some id =>
      ledger_chunk_offset ← poa_ledger_chunk_offset poa es;
      ledger ← ok_or (ledger_of_id id) (LedgerIdInvalid id);
      bounds ← get_data_poa_bounds_with_block_tree_fallback v parent_block_hash parent_height ledger ledger_chunk_offset;
      let '(bb, owning_block_hash) := (bounds : BlockBounds * Z) in
      _ ← guard_err (negb ((start_chunk_offset bb <=? ledger_chunk_offset) && (ledger_chunk_offset <? end_chunk_offset bb)))
            PoAChunkOffsetOutOfBlockBounds;
      let block_chunk_offset := ledger_chunk_offset - start_chunk_offset bb in
      _ ← merkle_err (ensure_proof_layout tx_path);
      _ ← merkle_err (ensure_proof_layout data_path);
      hit ← select_poa_tx_by_chunk_layout v owning_block_hash ledger block_chunk_offset (pc_chunk_size config);
      _ ← poa_tx_path_valid tx_path bb hit;
      poa_data_path_valid data_path poa_chunk poa miner_address hit
  | _, _, _ =>
      entropy_chunk ← poa_entropy poa miner_address;
      guard_err (negb (bool_decide (entropy_chunk = poa_chunk))) PoACapacityChunkMismatch
  end.
End PoaIsValid.
