(* ===== verification/PoaFacts.v ===== *)
(** The block of a chunk in a proof of access: the lookup in the index and the walk through
    the block tree answer what a scan of the parent's own chain answers; and the transaction
    that the chunk layout selects, with its root. *)

From S2P Require Import RefTree TreeHash StateErr DataLedger EpochSnapshot Codec Packing Merkle MerkleFacts MerkleBuild MerkleTheorems BlockIndex BlockIndexFacts Poa Prelude.

(** ** Chains of headers *)

(** The index item with the ledgers of a header. *)
Definition header_item (h : LedgerHeader) : BlockIndexItem :=
  let ledgers := omap (λ dl, (λ l, mkLedgerIndexItem (tl_total_chunks dl) (tl_tx_root dl) l) <$> ledger_of_id (tl_ledger_id dl))
                      (lh_data_ledgers h) in
  mkBlockIndexItem (lh_block_hash h) (Z.of_nat (length ledgers)) ledgers.

(** Headers from genesis: linked, of consecutive heights, each ledger named once, with totals
    that do not decrease. *)
Record chain_ok (chain : list LedgerHeader) : Prop := {
  co_height i h : chain !! i = Some h → lh_height h = Z.of_nat i;
  co_link i a b : chain !! i = Some a → chain !! S i = Some b → lh_previous_block_hash b = lh_block_hash a;
  co_distinct i h : chain !! i = Some h → NoDup (tl_ledger_id <$> lh_data_ledgers h);
  co_grows ledger : growing ledger (header_item <$> chain);
  co_short : Z.of_nat (length chain) < 2 ^ 64
}.

(** The block of the chain that added a chunk of a ledger. *)
Definition chain_owner (ledger : DataLedger) (off : Z) (chain : list LedgerHeader) : option BlockBounds :=
  scan_owner ledger off 0 0 (header_item <$> chain).

Lemma find_header_item h ledger :
  find_ledger ledger (bi_ledgers (header_item h)) =
  (λ dl, mkLedgerIndexItem (tl_total_chunks dl) (tl_tx_root dl) ledger) <$> ledger_of_header h ledger.
Proof.
  unfold find_ledger, ledger_of_header. cbn [header_item bi_ledgers].
  induction (lh_data_ledgers h) as [|dl dls IH]; [done|]. cbn [omap list_omap List.find].
  destruct (ledger_of_id (tl_ledger_id dl)) as [l|] eqn:Hl; cbn [fmap option_fmap option_map List.find li_ledger].
  - case_bool_decide as Heq.
    + subst l. rewrite (ledger_of_id_inj _ _ _ Hl (ledger_of_id_id ledger)), Z.eqb_refl. done.
    + destruct (Z.eqb_spec (tl_ledger_id dl) (ledger_id ledger)) as [He|]; [|done]. rewrite He, ledger_of_id_id in Hl. by injection Hl as ->.
  - destruct (Z.eqb_spec (tl_ledger_id dl) (ledger_id ledger)) as [He|]; [|done]. by rewrite He, ledger_of_id_id in Hl.
Qed.

Lemma header_total h ledger : ledger_total ledger (header_item h) = fst <$> ledger_entry_in h ledger.
Proof. unfold ledger_total, ledger_entry_in. rewrite find_header_item. by destruct (ledger_of_header h ledger). Qed.

Lemma scan_owner_app ledger off prev k items items' bb :
  scan_owner ledger off prev k items = Some bb → scan_owner ledger off prev k (items ++ items') = Some bb.
Proof.
  revert prev k. induction items as [|x items IH]; intros prev k; [done|]. cbn [scan_owner app].
  destruct (off <? total_of ledger x); [done|]. apply IH.
Qed.

Lemma scan_owner_exists ledger off prev k items i x :
  0 ≤ off → items !! i = Some x → off < total_of ledger x → is_Some (scan_owner ledger off prev k items).
Proof.
  intros Hoff. revert prev k i. induction items as [|y items IH]; intros prev k i Hx Hlt; [done|]. cbn [scan_owner].
  destruct (Z.ltb_spec off (total_of ledger y)) as [Hy|Hy].
  - destruct (find_ledger_positive ledger y ltac:(lia)) as (l & -> & _). done.
  - destruct i as [|i]; [injection Hx as ->; lia|]. by apply (IH _ _ i).
Qed.

Lemma chain_owner_here ledger off chain i h total root :
  chain_ok chain → chain !! i = Some h → ledger_entry_in h ledger = Some (total, root) → off < total →
  (∀ j p, i = S j → chain !! j = Some p → total_of ledger (header_item p) ≤ off) →
  chain_owner ledger off (take (S i) chain) =
  Some (mkBlockBounds (lh_height h) (lh_block_hash h) ledger
          (match i with O => 0 | S j => default 0 (total_of ledger <$> (header_item <$> chain !! j)) end) total root).
Proof.
  intros Hok Hh Hentry Hlt Hprev. unfold chain_owner.
  assert (Htotal : total_of ledger (header_item h) = total) by (unfold total_of; by rewrite header_total, Hentry).
  assert (Hfind : find_ledger ledger (bi_ledgers (header_item h)) = Some (mkLedgerIndexItem total root ledger)).
  { unfold ledger_entry_in in Hentry. apply fmap_Some in Hentry as (dl & Hdl & [= -> ->]). by rewrite find_header_item, Hdl. }
  rewrite (scan_owner_at ledger off (header_item <$> take (S i) chain) i 0 0 (header_item h) (mkLedgerIndexItem total root ledger)); [| | |by rewrite Htotal|exact Hfind].
  - rewrite (co_height _ Hok _ _ Hh), Htotal. cbn [header_item bi_block_hash li_tx_root]. rewrite Z.add_0_l. destruct i as [|j]; [done|].
    by rewrite list_lookup_fmap, lookup_take_lt by lia.
  - by rewrite list_lookup_fmap, lookup_take_lt, Hh by lia.
  - intros j x Hj Hx. rewrite fmap_take, lookup_take_lt in Hx by lia. destruct i as [|i]; [lia|].
    destruct (lookup_lt_is_Some_2 chain i) as [p Hp]; [apply lookup_lt_Some in Hh; lia|].
    transitivity (total_of ledger (header_item p)); [|by eapply Hprev].
    apply (growing_le ledger (header_item <$> chain) j i); [apply (co_grows _ Hok)|lia|done|]. by rewrite list_lookup_fmap, Hp.
Qed.

(** ** Views *)

(** What a node stores: its index holds the headers [canon], and a hash identifies a header
    among those, the tree and the chain in question. *)
Record view_ok `{DupSort} (v : PoaView) (canon chain : list LedgerHeader) : Prop := {
  vo_index : index_ok (v_index v) (header_item <$> canon);
  vo_canon : chain_ok canon;
  vo_chain : chain_ok chain;
  vo_tree h b : h ∈ chain → v_tree v !! lh_block_hash h = Some b → lb_header b = h;
  vo_same h c : h ∈ chain → c ∈ canon → lh_block_hash h = lh_block_hash c → h = c
}.

(** A block is in the tree, or it is the indexed one of its height. *)
Definition covered (v : PoaView) (h : LedgerHeader) : Prop :=
  is_Some (v_tree v !! lh_block_hash h) ∨ migrated_hashes (v_index v) !! lh_height h = Some (lh_block_hash h).
#[global] Instance covered_dec v h : Decision (covered v h).
Proof. unfold covered. apply _. Defined.

Section PoaBounds.
  Context `{DupSort} (v : PoaView) (canon chain : list LedgerHeader) (Hv : view_ok v canon chain).
  Context (ledger : DataLedger) (off : Z) (Hoff : 0 ≤ off).

Lemma canonical_at i h : chain !! i = Some h → migrated_hashes (v_index v) !! Z.of_nat i = Some (lh_block_hash h) → canon !! i = Some h.
Proof.
  intros Hi Hm. rewrite (io_hash _ _ _ (vo_index _ _ _ Hv)), (proj2 (Z.leb_le 0 _)), Nat2Z.id, list_lookup_fmap in Hm by lia.
  destruct (canon !! i) as [c|] eqn:Hc; [|done]. cbn in Hm. injection Hm as Hm.
  by rewrite (vo_same _ _ _ Hv h c (list_elem_of_lookup_2 _ _ _ Hi) (list_elem_of_lookup_2 _ _ _ Hc) (eq_sym Hm)).
Qed.

(** The chain of a canonical block is the indexed one. *)
Lemma canonical_prefix i h : chain !! i = Some h → canon !! i = Some h → take (S i) canon = take (S i) chain.
Proof.
  revert h. induction i as [|i IH]; intros h Hi Hc.
  - rewrite (take_S_r _ _ _ Hi), (take_S_r _ _ _ Hc). done.
  - rewrite (take_S_r _ _ _ Hi), (take_S_r _ _ _ Hc). f_equal.
    destruct (lookup_lt_is_Some_2 chain i) as [p Hp]; [apply lookup_lt_Some in Hi; lia|].
    destruct (lookup_lt_is_Some_2 canon i) as [q Hq]; [apply lookup_lt_Some in Hc; lia|].
    apply (IH p Hp). rewrite Hq. f_equal. symmetry.
    apply (vo_same _ _ _ Hv); [by eapply list_elem_of_lookup_2..|].
    rewrite <- (co_link _ (vo_chain _ _ _ Hv) i p h Hp Hi). symmetry. by rewrite <- (co_link _ (vo_canon _ _ _ Hv) i q h Hq Hc).
Qed.

(** The index answers the scan of the chain, for a canonical anchor. *)
Lemma indexed_bounds i h : chain !! i = Some h → canon !! i = Some h →
  block_bounds_at_height_in_tx (v_index v) ledger off (Z.of_nat i) =
  match ledger_entry_in h ledger with
  | None => Err (LedgerInactive ledger (Z.of_nat i))
  | Some entry => if entry.1 <=? off then Err (OffsetBeyondFrontier ledger off entry.1 (Z.of_nat i))
                  else expect (chain_owner ledger off (take (S i) chain))
  end.
Proof.
  intros Hi Hc. rewrite (block_bounds_eq _ _ ledger off i (header_item h) (vo_index _ _ _ Hv)).
  - rewrite header_total. destruct (ledger_entry_in h ledger) as [[t r]|]; [|done]. cbn [fmap option_fmap option_map fst].
    unfold chain_owner. by rewrite <- (canonical_prefix i h Hi Hc), fmap_take.
  - apply (co_grows _ (vo_canon _ _ _ Hv)).
  - by rewrite list_lookup_fmap, Hc.
  - pose proof (co_short _ (vo_chain _ _ _ Hv)). apply lookup_lt_Some in Hi. lia.
  - done.
Qed.

Lemma get_item_canonical i h : chain !! i = Some h → canon !! i = Some h →
  ∃ item, get_item (v_index v) (Z.of_nat i) = Some item ∧ bi_block_hash item = lh_block_hash h ∧
    ledger_total ledger item = fst <$> ledger_entry_in h ledger.
Proof.
  intros Hi Hc. destruct (item_by_height _ _ i (header_item h) (vo_index _ _ _ Hv)) as (item & Hitem & Hh & _ & Hf); [by rewrite list_lookup_fmap, Hc|].
  exists item. unfold get_item. rewrite Hitem. split_and!; [done..|]. unfold ledger_total at 1. rewrite Hf. apply header_total.
Qed.

(** What the walk reads of the total before a block. *)
Lemma prev_total_covered i p h : chain !! i = Some p → chain !! S i = Some h → covered v p →
  prev_total_of v ledger h = Ok (total_of ledger (header_item p)).
Proof.
  intros Hp Hh Hcov. unfold prev_total_of. rewrite (co_height _ (vo_chain _ _ _ Hv) _ _ Hh), (co_link _ (vo_chain _ _ _ Hv) _ _ _ Hp Hh).
  destruct (Z.eqb_spec (Z.of_nat (S i)) 0); [lia|]. destruct (v_tree v !! lh_block_hash p) as [b|] eqn:Hb.
  - rewrite (vo_tree _ _ _ Hv p b (list_elem_of_lookup_2 _ _ _ Hp) Hb). unfold total_of. by rewrite header_total.
  - destruct Hcov as [[b' Hb']|Hm]; [by rewrite Hb in Hb'|]. rewrite (co_height _ (vo_chain _ _ _ Hv) _ _ Hp) in Hm.
    replace (Z.of_nat (S i) - 1) with (Z.of_nat i) by lia. unfold assert_canonical_via_migrated_hashes.
    rewrite bool_decide_true by done. cbn [negb]. res_simpl.
    destruct (get_item_canonical i p Hp (canonical_at _ _ Hp Hm)) as (item & -> & _ & Ht). res_simpl. unfold total_of. by rewrite Ht, header_total.
Qed.

Lemma prev_total_uncovered i p h : chain !! i = Some p → chain !! S i = Some h → ¬ covered v p →
  prev_total_of v ledger h = Err (PoAOffCanonicalAncestor (lh_block_hash p) (lh_height p)).
Proof.
  intros Hp Hh Hcov. unfold prev_total_of. rewrite (co_height _ (vo_chain _ _ _ Hv) _ _ Hh), (co_link _ (vo_chain _ _ _ Hv) _ _ _ Hp Hh).
  destruct (Z.eqb_spec (Z.of_nat (S i)) 0); [lia|]. destruct (v_tree v !! lh_block_hash p) as [b|] eqn:Hb; [destruct Hcov; left; by exists b|].
  pose proof (co_height _ (vo_chain _ _ _ Hv) _ _ Hp) as Hhp. replace (Z.of_nat (S i) - 1) with (lh_height p) by lia.
  unfold assert_canonical_via_migrated_hashes. rewrite bool_decide_false; [done|]. intros Hm. apply Hcov. by right.
Qed.

(** The answer of a lookup: the owner on the chain, or an ancestor the node does not have. *)
Definition answers (res : result PoaError (BlockBounds * Z)) (i : nat) : Prop :=
  (∃ bb, chain_owner ledger off (take (S i) chain) = Some bb ∧ res = Ok (bb, bb_block_hash bb)) ∨
  (∃ j p, (j < i)%nat ∧ chain !! j = Some p ∧ ¬ covered v p ∧ res = Err (PoAOffCanonicalAncestor (lh_block_hash p) (lh_height p))).

Lemma answers_later res i : (S i < length chain)%nat → answers res i → answers res (S i).
Proof.
  intros Hlt [(bb & Hbb & ->)|(j & p & Hj & Hp & Hcov & ->)]; [left|right; exists j, p; split_and!; [lia|done..]].
  exists bb. split; [|done]. destruct (lookup_lt_is_Some_2 chain (S i) Hlt) as [h Hh]. unfold chain_owner in *.
  rewrite (take_S_r chain (S i) h Hh), fmap_app. by apply scan_owner_app.
Qed.

Lemma walk_answers i h total root fuel :
  (i ≤ fuel)%nat → chain !! i = Some h → ledger_entry_in h ledger = Some (total, root) → off < total →
  answers (walk_bounds v fuel ledger off h total root) i.
Proof.
  revert h total root fuel. induction i as [|i IH]; intros h total root fuel Hfuel Hh Hentry Hlt.
  - left. pose proof (chain_owner_here ledger off chain 0 h total root (vo_chain _ _ _ Hv) Hh Hentry Hlt ltac:(done)) as Howner.
    eexists. split; [exact Howner|]. assert (prev_total_of v ledger h = Ok 0) as Hprev by (unfold prev_total_of; by rewrite (co_height _ (vo_chain _ _ _ Hv) _ _ Hh)).
    destruct fuel; cbn [walk_bounds]; rewrite Hprev; res_simpl; by rewrite (proj2 (Z.leb_le 0 off) Hoff).
  - destruct (lookup_lt_is_Some_2 chain i) as [p Hp]; [apply lookup_lt_Some in Hh; lia|].
    destruct fuel as [|fuel]; [lia|]. cbn [walk_bounds].
    destruct (decide (covered v p)) as [Hcov|Hcov].
    2:{ right. exists i, p. rewrite (prev_total_uncovered i p h Hp Hh Hcov). split_and!; [lia|done..]. }
    rewrite (prev_total_covered i p h Hp Hh Hcov). res_simpl. destruct (Z.leb_spec (total_of ledger (header_item p)) off) as [Hle|Hgt].
    { left. eexists. split; [apply (chain_owner_here ledger off chain (S i) h total root (vo_chain _ _ _ Hv) Hh Hentry Hlt)|].
      - intros j q [= <-] Hq. rewrite Hp in Hq. by injection Hq as <-.
      - by rewrite Hp. }
    apply answers_later; [by apply lookup_lt_Some in Hh|].
    rewrite (co_height _ (vo_chain _ _ _ Hv) _ _ Hh), (co_link _ (vo_chain _ _ _ Hv) _ _ _ Hp Hh). destruct (Z.eqb_spec (Z.of_nat (S i)) 0); [lia|].
    assert (∃ t r, ledger_entry_in p ledger = Some (t, r) ∧ off < t) as (t & r & Hpe & Hpt).
    { unfold total_of in Hgt. rewrite header_total in Hgt. destruct (ledger_entry_in p ledger) as [[t r]|]; [by exists t, r|cbn in Hgt; lia]. }
    destruct (v_tree v !! lh_block_hash p) as [b|] eqn:Hb.
    + rewrite (vo_tree _ _ _ Hv p b (list_elem_of_lookup_2 _ _ _ Hp) Hb), Hpe. res_simpl. by apply IH; [lia|..].
    + destruct Hcov as [[b' Hb']|Hm]; [by rewrite Hb in Hb'|]. rewrite (co_height _ (vo_chain _ _ _ Hv) _ _ Hp) in Hm.
      replace (Z.of_nat (S i) - 1) with (Z.of_nat i) by lia. unfold assert_canonical_via_migrated_hashes. rewrite bool_decide_true by done. cbn [negb]. res_simpl.
      rewrite (indexed_bounds i p Hp (canonical_at _ _ Hp Hm)), Hpe. cbn [fst]. destruct (Z.leb_spec t off); [lia|]. left.
      destruct (scan_owner_exists ledger off 0 0 (header_item <$> take (S i) chain) i (header_item p)) as [bb Hbb]; [done| |by unfold total_of; rewrite header_total, Hpe|].
      { by rewrite list_lookup_fmap, lookup_take_lt, Hp by lia. }
      exists bb. unfold chain_owner. rewrite Hbb. done.
Qed.

(** The lookup, anchored at the parent [h] of height [i]. *)
Lemma poa_bounds_answer i h :
  chain !! i = Some h → covered v h →
  let res := get_data_poa_bounds_with_block_tree_fallback v (lh_block_hash h) (lh_height h) ledger off in
  match ledger_entry_in h ledger with
  | None => res = Err (PoALedgerInactive (ledger_id ledger))
  | Some entry => if entry.1 <=? off then res = Err PoAChunkOffsetOutOfBlockBounds else answers res i
  end.
Proof.
  intros Hh Hcov res. subst res. unfold get_data_poa_bounds_with_block_tree_fallback.
  assert (Hlen : Z.of_nat i < 2 ^ 64) by (pose proof (co_short _ (vo_chain _ _ _ Hv)); apply lookup_lt_Some in Hh; lia).
  rewrite (co_height _ (vo_chain _ _ _ Hv) _ _ Hh).
  destruct (decide (migrated_hashes (v_index v) !! Z.of_nat i = Some (lh_block_hash h))) as [Hm|Hm].
  - pose proof (canonical_at i h Hh Hm) as Hc. destruct (get_item_canonical i h Hh Hc) as (item & -> & -> & _). rewrite Z.eqb_refl.
    rewrite (indexed_bounds i h Hh Hc). destruct (ledger_entry_in h ledger) as [[t r]|] eqn:He; [|done]. cbn [fst].
    destruct (Z.leb_spec t off); [done|]. left.
    destruct (scan_owner_exists ledger off 0 0 (header_item <$> take (S i) chain) i (header_item h)) as [bb Hbb]; [done| |by unfold total_of; rewrite header_total, He|].
    { by rewrite list_lookup_fmap, lookup_take_lt, Hh by lia. }
    exists bb. unfold chain_owner. by rewrite Hbb.
  - assert (match get_item (v_index v) (Z.of_nat i) with Some item => bi_block_hash item =? lh_block_hash h | None => false end = false) as ->.
    { unfold get_item, block_index_item_by_height. destruct (migrated_hashes (v_index v) !! Z.of_nat i) as [c|]; res_simpl; [|done].
      destruct (ok_or _ _); res_simpl; [|done..]. cbn [bi_block_hash]. apply Z.eqb_neq. congruence. }
    destruct Hcov as [[b Hb]|Hm']; [|by rewrite (co_height _ (vo_chain _ _ _ Hv) _ _ Hh) in Hm'].
    rewrite Hb. res_simpl. rewrite (vo_tree _ _ _ Hv h b (list_elem_of_lookup_2 _ _ _ Hh) Hb).
    destruct (ledger_entry_in h ledger) as [[t r]|] eqn:He; res_simpl; [|done]. cbn [fst snd].
    destruct (Z.leb_spec t off); res_simpl; [done|]. rewrite (co_height _ (vo_chain _ _ _ Hv) _ _ Hh), Nat2Z.id. by apply walk_answers.
Qed.
End PoaBounds.

(** * Facts on proofs of access: the transaction that the chunk layout selects, the transaction
    root of a block, and the bytes that a packed chunk must have. *)

(** ** The layout of transactions on chunks *)

Definition tx_chunks (cs : Z) (tx : DataTransactionHeader) : Z := div_ceil (th_data_size tx) cs.

(** Where transaction [j] of a list starts, in chunks and in bytes. *)
Definition chunk_start_of (cs : Z) (txs : list DataTransactionHeader) (j : nat) : Z := sum_Z (take j (tx_chunks cs <$> txs)).
Definition raw_start_of (txs : list DataTransactionHeader) (j : nat) : Z := sum_Z (take j (th_data_size <$> txs)).

(** Transaction [j] holds chunk [k] of the list. *)
Definition owns_chunk (cs : Z) (txs : list DataTransactionHeader) (k : Z) (j : nat) (tx : DataTransactionHeader) : Prop :=
  txs !! j = Some tx ∧ chunk_start_of cs txs j ≤ k < chunk_start_of cs txs (S j).

Section Layout.
  Context (cs : Z) (Hcs : 0 < cs).

Lemma visit_txs_owner {A} (read : A → result PoaError DataTransactionHeader) (xs : list A) txs k c0 r0 :
  Forall2 (λ x tx, read x = Ok tx) xs txs → Forall (λ tx, 0 ≤ th_data_size tx) txs → c0 ≤ k →
  (∃ j tx, txs !! j = Some tx ∧ c0 + chunk_start_of cs txs j ≤ k < c0 + chunk_start_of cs txs (S j) ∧
     visit_txs read k cs (c0, r0) xs = Ok (Some (mkChunkLayout tx (r0 + raw_start_of txs j) ((k - (c0 + chunk_start_of cs txs j)) * cs)))) ∨
  (c0 + chunks_of_txs txs cs ≤ k ∧ visit_txs read k cs (c0, r0) xs = Ok None).
Proof.
  intros Hread. revert c0 r0. induction Hread as [|x tx xs txs Hx _ IH]; intros c0 r0 Hsizes Hc0; cbn [visit_txs].
  - right. split; [unfold chunks_of_txs; change (sum_Z _) with 0; lia|done].
  - apply Forall_cons in Hsizes as [Htx Hsizes]. rewrite Hx. res_simpl. unfold visit_tx. destruct (Z.eqb_spec cs 0); [lia|]. res_simpl.
    pose proof (div_ceil_nonneg _ _ Htx Hcs) as Hpos. rewrite (proj2 (Z.leb_le c0 k) Hc0). cbn [andb].
    destruct (Z.ltb_spec k (c0 + div_ceil (th_data_size tx) cs)) as [Hlt|Hge].
    + left. exists 0%nat, tx. unfold chunk_start_of, raw_start_of. rewrite !fmap_cons. cbn [take]. rewrite !sum_Z_cons. unfold sum_Z, tx_chunks. cbn [foldr].
      rewrite !Z.add_0_r. split_and!; [done|lia|lia|done].
    + destruct (IH (c0 + div_ceil (th_data_size tx) cs) (r0 + th_data_size tx) Hsizes Hge) as [(j & tx' & Hj & Hr & Heq)|[Hr Heq]].
      * left. exists (S j), tx'. unfold chunk_start_of, raw_start_of in *. rewrite !fmap_cons. cbn [take]. rewrite !sum_Z_cons.
        change (tx_chunks cs tx) with (div_ceil (th_data_size tx) cs). split_and!; [done|lia|lia|]. rewrite Heq. do 2 f_equal. by rewrite !Z.add_assoc.
      * right. unfold chunks_of_txs in *. rewrite fmap_cons, sum_Z_cons. split; [lia|done].
Qed.

Lemma owner_size txs k j tx : Forall (λ tx, 0 ≤ th_data_size tx) txs → owns_chunk cs txs k j tx →
  0 ≤ k - chunk_start_of cs txs j ∧ (k - chunk_start_of cs txs j) * cs < th_data_size tx.
Proof.
  intros Hsizes [Hj Hk]. unfold chunk_start_of in *. rewrite (sum_Z_take_S _ _ (tx_chunks cs tx)) in Hk by (by rewrite list_lookup_fmap, Hj).
  split; [lia|]. apply div_ceil_lt_iff; [done|]. change (tx_chunks cs tx) with (div_ceil (th_data_size tx) cs) in Hk. lia.
Qed.

Lemma chunk_start_all txs : chunk_start_of cs txs (length txs) = chunks_of_txs txs cs.
Proof. unfold chunk_start_of, chunks_of_txs. rewrite take_ge by (by rewrite length_fmap). done. Qed.

Lemma owns_chunk_unique txs k j tx j' tx' :
  Forall (λ tx, 0 ≤ th_data_size tx) txs → owns_chunk cs txs k j tx → owns_chunk cs txs k j' tx' → j = j' ∧ tx = tx'.
Proof.
  intros Hsizes [Hj Hk] [Hj' Hk'].
  assert (Hmono : ∀ a b, (a ≤ b)%nat → chunk_start_of cs txs a ≤ chunk_start_of cs txs b).
  { intros a b Hab. unfold chunk_start_of. replace (take a (tx_chunks cs <$> txs)) with (take a (take b (tx_chunks cs <$> txs))).
    - apply sum_Z_take_le, Forall_take, Forall_fmap. eapply Forall_impl; [done|]. intros t Ht. by apply div_ceil_nonneg.
    - rewrite take_take. f_equal. lia. }
  assert (j = j') as ->; [|split; [done|congruence]].
  destruct (Nat.lt_trichotomy j j') as [Hlt|[?|Hlt]]; [|done|].
  - specialize (Hmono (S j) j' ltac:(lia)). lia.
  - specialize (Hmono (S j') j ltac:(lia)). lia.
Qed.
End Layout.

(** ** Transaction roots *)

Section TxRootFacts.
  Context `{Sha256}.

Definition tx_items (txs : list DataTransactionHeader) : list (list byte * Z) := (λ tx, (tx_root_leaf_value tx, th_data_size tx)) <$> txs.
Definition tx_leaves (txs : list DataTransactionHeader) : list Node := leaves_at 0 (tx_items txs).
Definition tx_tree (txs : list DataTransactionHeader) : Node := tree_root hash_branch (tx_leaves txs).

Definition sizes_fit (txs : list DataTransactionHeader) : Prop :=
  Forall (λ tx, 0 ≤ th_data_size tx) txs ∧ sum_Z (th_data_size <$> txs) < 2 ^ 64.

Lemma tx_items_ok txs : Forall (λ tx, 0 ≤ th_data_size tx) txs → Forall (λ x : list byte * Z, length x.1 = HASH_SIZE ∧ 0 ≤ x.2) (tx_items txs).
Proof. intros Htxs. apply Forall_fmap. eapply Forall_impl; [done|]. intros tx Htx. cbn. split; [apply sha256_length|done]. Qed.

Lemma tx_tiles txs : Forall (λ tx, 0 ≤ th_data_size tx) txs → tiles 0 (tx_leaves txs) (sum_Z (th_data_size <$> txs)).
Proof.
  intros Htxs. replace (sum_Z (th_data_size <$> txs)) with (0 + sum_Z (tx_items txs).*2).
  - by apply leaves_at_tiles, tx_items_ok.
  - unfold tx_items. by rewrite <- list_fmap_compose.
Qed.

Lemma tx_leaf_at txs j tx : txs !! j = Some tx →
  tx_leaves txs !! j = Some (leaf_node (tx_root_leaf_value tx) (raw_start_of txs j) (raw_start_of txs j + th_data_size tx)).
Proof.
  intros Hj. unfold tx_leaves. rewrite leaves_at_lookup. unfold tx_items at 3. rewrite list_lookup_fmap, Hj. cbn [fmap option_fmap option_map fst].
  assert ((tx_items txs).*2 = th_data_size <$> txs) as -> by (unfold tx_items; by rewrite <- list_fmap_compose).
  rewrite (sum_Z_take_S _ _ (th_data_size tx)) by (by rewrite list_lookup_fmap, Hj). unfold raw_start_of. by rewrite !Z.add_0_l.
Qed.

Lemma length_tx_leaves txs : length (tx_leaves txs) = length txs.
Proof. unfold tx_leaves, tx_items. by rewrite length_leaves_at, length_fmap. Qed.

Lemma tx_over txs : txs ≠ [] → Forall (λ tx, 0 ≤ th_data_size tx) txs →
  generate_data_root (tx_leaves txs) = Ok (tx_tree txs) ∧ tree_over (tx_tree txs) (tx_leaves txs).
Proof.
  intros Hne Htxs. destruct (generate_data_root_ok (tx_leaves txs)) as (root & Hr & -> & Hover); [| |done].
  - intros Hnil%(f_equal length). rewrite length_tx_leaves in Hnil. by destruct txs.
  - by apply leaves_at_leaf, tx_items_ok.
Qed.

Lemma folded_leaves_eq txs : sizes_fit txs → generate_leaves_from_data_roots (folded_leaves txs) = Ok (tx_leaves txs).
Proof.
  intros [Htxs Hsum]. unfold generate_leaves_from_data_roots, folded_leaves, tx_leaves. rewrite leaves_from_data_roots_eq.
  - unfold tx_items. by rewrite <- list_fmap_compose.
  - done.
  - by apply Forall_fmap.
  - by rewrite <- list_fmap_compose.
Qed.

Lemma compute_tx_root_eq {E} txs : txs ≠ [] → sizes_fit txs → compute_tx_root (E:=E) txs = Ok (n_id (tx_tree txs)).
Proof.
  intros Hne Hfit. unfold compute_tx_root. rewrite bool_decide_false, (folded_leaves_eq _ Hfit) by done. res_simpl.
  destruct (tx_over txs Hne (proj1 Hfit)) as [-> _]. done.
Qed.

(** The path to a transaction, and what validation says on it. *)
Lemma tx_path_valid txs j tx t :
  sizes_fit txs → txs !! j = Some tx → raw_start_of txs j ≤ t < raw_start_of txs j + th_data_size tx →
  validate_path (n_id (tx_tree txs)) (path_bytes (proof_branches t (tx_tree txs)) (plain_leaf (tx_root_leaf_value tx) (raw_start_of txs j + th_data_size tx))) t =
  Ok (mkPathResult (tx_root_leaf_value tx) (raw_start_of txs j) (raw_start_of txs j + th_data_size tx) (bool_decide (S j = length txs))).
Proof.
  intros [Htxs Hsum] Hj Ht. assert (Hne : txs ≠ []) by (by intros ->). destruct (tx_over txs Hne Htxs) as [_ Hover].
  pose proof (locate_inside t _ _ _ _ _ (tx_tiles txs Htxs) (tx_leaf_at txs j tx Hj) Ht) as Hloc. rewrite length_tx_leaves in Hloc.
  apply (validate_path_complete _ _ _ t _ _ Hover (tx_tiles txs Htxs) Hsum Hloc). cbn [leaf_node n_min_byte_range n_max_byte_range]. lia.
Qed.

Lemma raw_start_nonneg txs j : Forall (λ tx, 0 ≤ th_data_size tx) txs → 0 ≤ raw_start_of txs j.
Proof. intros Htxs. apply sum_Z_nonneg, Forall_take, Forall_fmap, Htxs. Qed.

(** The proofs of a transaction root, for transactions that are not empty. *)
Lemma merklize_tx_root_eq {E} txs :
  txs ≠ [] → Forall (λ tx, 0 < th_data_size tx) txs → sum_Z (th_data_size <$> txs) < 2 ^ 64 →
  ∃ ps, merklize_tx_root (E:=E) txs = Ok (n_id (tx_tree txs), ps) ∧ length ps = length txs ∧
    ∀ j tx t, txs !! j = Some tx → raw_start_of txs j ≤ t < raw_start_of txs j + th_data_size tx →
      ps !! j = Some (mkProof (raw_start_of txs j + th_data_size tx - 1)
        (path_bytes (proof_branches t (tx_tree txs)) (plain_leaf (tx_root_leaf_value tx) (raw_start_of txs j + th_data_size tx)))).
Proof.
  intros Hne Hpos Hsum. assert (Htxs : Forall (λ tx, 0 ≤ th_data_size tx) txs) by (eapply Forall_impl; [done|]; cbn; lia).
  destruct (tx_over txs Hne Htxs) as [Hroot Hover].
  destruct (resolve_proofs_over _ _ _ _ [] Hover (tx_tiles txs Htxs)) as (ps & Hps & Hl & Hat).
  { apply Forall_lookup. intros j x Hx. destruct (lookup_lt_is_Some_2 txs j) as [tx Hj]; [rewrite <- length_tx_leaves; by eapply lookup_lt_Some|].
    rewrite (tx_leaf_at _ _ _ Hj) in Hx. injection Hx as <-. cbn [leaf_node n_max_byte_range]. pose proof (raw_start_nonneg txs j Htxs).
    pose proof (Forall_lookup_1 _ _ _ _ Hpos Hj). cbn in *. lia. }
  exists ps. rewrite length_tx_leaves in Hl. split_and!; [|done|].
  - unfold merklize_tx_root. rewrite bool_decide_false, (folded_leaves_eq txs (conj Htxs Hsum)) by done. res_simpl. rewrite Hroot. res_simpl.
    unfold resolve_proofs. by rewrite Hps.
  - intros j tx t Hj Ht. by rewrite (Hat j _ t (tx_leaf_at txs j tx Hj) Ht).
Qed.
End TxRootFacts.

(** ** Packed bytes *)

Lemma byte_xor_zero x y : byte_xor x y = x00 → x = y.
Proof.
  intros Hz. rewrite <- (byte_xor_twice x y), Hz. unfold byte_xor. change (Z_of_byte x00) with 0. rewrite Z.lxor_0_r. symmetry. apply byte_of_Z_of_byte.
Qed.

(** Bytes that unpack to data followed by zeros are the packed data. *)
Lemma unpacked_bytes p e u n :
  length p = length e → xor_vec_u8_arrays_in_place p e = Ok u → existsb (λ b : byte, negb (bool_decide (b = x00))) (drop n u) = false →
  (length u = length p) ∧ xor_prefix e (take n u) = p.
Proof.
  revert e u n. induction p as [|x p IH]; intros [|y e] u n Hlen Hx Hz; cbn [length] in Hlen; [|lia|lia|].
  - injection Hx as <-. by rewrite take_nil.
  - cbn [xor_vec_u8_arrays_in_place] in Hx. apply bind_ok in Hx as (r & Hr & [= <-]). destruct n as [|n].
    + cbn [drop existsb] in Hz. apply orb_false_iff in Hz as [Hxy Hz]. destruct (IH e r 0%nat ltac:(lia) Hr) as [Hl Heq]; [by rewrite drop_0|].
      cbn [length take xor_prefix] in *. split; [lia|]. apply negb_false_iff, bool_decide_eq_true in Hxy. rewrite (byte_xor_zero x y Hxy).
      f_equal. by destruct e.
    + cbn [drop] in Hz. destruct (IH e r n ltac:(lia) Hr Hz) as [Hl Heq]. cbn [length take xor_prefix]. split; [lia|]. rewrite Heq. f_equal.
      by rewrite (byte_xor_comm x y), byte_xor_twice.
Qed.

(** Packed data unpack to the data followed by zeros. *)
Lemma packed_bytes e d : (length d ≤ length e)%nat →
  xor_vec_u8_arrays_in_place (xor_prefix e d) e = Ok (d ++ replicate (length e - length d) x00).
Proof.
  revert d. induction e as [|y e IH]; intros [|x d] Hlen; cbn [length] in *; [done|lia| |].
  - assert (Hz : ∀ l, xor_vec_u8_arrays_in_place l l = Ok (replicate (length l) x00)).
    { clear. induction l as [|z l IH]; [done|]. cbn [xor_vec_u8_arrays_in_place length replicate]. rewrite IH. res_simpl. unfold byte_xor. by rewrite Z.lxor_nilpotent. }
    apply (Hz (y :: e)).
  - cbn [xor_prefix xor_vec_u8_arrays_in_place]. rewrite IH by lia. res_simpl. by rewrite (byte_xor_comm (byte_xor y x)), byte_xor_twice.
Qed.
