(* ===== verification/PoaTheorems.v ===== *)
(** Proofs of access, end to end: what an accepted proof shows about the stored bytes, that an
    honest proof is accepted, and that the verdict depends on the parent's chain only. *)

From S2P Require Import RefTree TreeHash StateErr Codec Packing Merkle MerkleFacts MerkleBuild MerkleTheorems DataLedger EpochSnapshot BlockIndex BlockIndexFacts Poa PoaFacts Prelude.

Lemma ledger_of_id_eq id ledger : ledger_of_id id = Some ledger → id = ledger_id ledger.
Proof. intros Hid. apply (ledger_of_id_inj _ _ _ Hid (ledger_of_id_id ledger)). Qed.

Lemma chain_owner_block ledger off chain bb :
  chain_owner ledger off chain = Some bb →
  ∃ r h dl, chain !! r = Some h ∧ ledger_of_header h ledger = Some dl ∧ bb_height bb = Z.of_nat r ∧ bb_block_hash bb = lh_block_hash h ∧
    bb_ledger bb = ledger ∧ end_chunk_offset bb = tl_total_chunks dl ∧ bb_tx_root bb = tl_tx_root dl ∧
    start_chunk_offset bb = (match r with O => 0 | S r' => default 0 (total_of ledger <$> (header_item <$> chain !! r')) end) ∧
    off < end_chunk_offset bb ∧ (0 ≤ off → start_chunk_offset bb ≤ off).
Proof.
  unfold chain_owner.
  enough (∀ items prev k, scan_owner ledger off prev k items = Some bb → ∃ r item l, items !! r = Some item ∧
    find_ledger ledger (bi_ledgers item) = Some l ∧ bb_height bb = k + Z.of_nat r ∧ bb_block_hash bb = bi_block_hash item ∧ bb_ledger bb = ledger ∧
    end_chunk_offset bb = total_of ledger item ∧ bb_tx_root bb = li_tx_root l ∧
    start_chunk_offset bb = (match r with O => prev | S r' => default 0 (total_of ledger <$> items !! r') end) ∧
    off < end_chunk_offset bb ∧ (prev ≤ off → start_chunk_offset bb ≤ off)) as Hgen.
  { intros Hs. destruct (Hgen _ _ _ Hs) as (r & item & l & Hr & Hl & H1 & H2 & H3 & H4 & H5 & H6 & H7 & H8).
    rewrite list_lookup_fmap in Hr. apply fmap_Some in Hr as (h & Hh & ->). rewrite find_header_item in Hl. apply fmap_Some in Hl as (dl & Hdl & ->).
    exists r, h, dl. split_and!; [done..| |done| |done|done].
    - rewrite H4. unfold total_of, ledger_total. by rewrite find_header_item, Hdl.
    - rewrite H6. destruct r; [done|]. by rewrite list_lookup_fmap. }
  induction items as [|x items IH]; intros prev k Hs; [done|]. cbn [scan_owner] in Hs. destruct (Z.ltb_spec off (total_of ledger x)).
  - apply fmap_Some in Hs as (l & Hl & ->). exists 0%nat, x, l. cbn. split_and!; [done|done|lia|done..].
  - destruct (IH _ _ Hs) as (r & item & l & Hr & Hl & H1 & H2 & H3 & H4 & H5 & H6 & H7 & H8). exists (S r), item, l. split_and!; [done|done|lia|done|done|done|done| |done|].
    + rewrite H6. destruct r; [done|]. done.
    + intros _. apply H8. done.
Qed.

(** An index made by adding blocks holds their headers, when these have the ledger sizes. *)
Lemma pushed_header_item cs last b :
  (∀ dl ledger, dl ∈ lh_data_ledgers (lb_header b) → ledger_of_id (tl_ledger_id dl) = Some ledger → tl_total_chunks dl = total_after last b cs ledger) →
  pushed_item cs last b = header_item (lb_header b).
Proof.
  intros Htot. unfold pushed_item, header_item.
  enough (omap (λ dl, (λ l, mkLedgerIndexItem (total_after last b cs l) (tl_tx_root dl) l) <$> ledger_of_id (tl_ledger_id dl)) (lh_data_ledgers (lb_header b)) =
    omap (λ dl, (λ l, mkLedgerIndexItem (tl_total_chunks dl) (tl_tx_root dl) l) <$> ledger_of_id (tl_ledger_id dl)) (lh_data_ledgers (lb_header b))) as -> by done.
  induction (lh_data_ledgers (lb_header b)) as [|dl dls IH]; [done|]. cbn [omap list_omap]. rewrite IH by (intros d l Hd; apply Htot; by right).
  destruct (ledger_of_id (tl_ledger_id dl)) as [l|] eqn:Hl; [|done]. cbn. by rewrite (Htot dl l ltac:(left) Hl).
Qed.

Lemma indexed_headers `{DupSort} cs db items blocks :
  0 < cs → indexed cs db items blocks →
  (∀ i b dl ledger, blocks !! i = Some b → dl ∈ lh_data_ledgers (lb_header b) → ledger_of_id (tl_ledger_id dl) = Some ledger →
     tl_total_chunks dl = ledger_size cs ledger (take (S i) blocks)) →
  index_ok db (header_item <$> (lb_header <$> blocks)).
Proof.
  intros Hcs Hidx Htot. destruct (indexed_ok cs Hcs _ _ _ Hidx) as ((Hok & _) & _).
  enough (items = header_item <$> (lb_header <$> blocks)) as <- by done. clear Hok.
  induction Hidx as [|db items blocks b db' Hidx IH Hex _]; [done|]. destruct (indexed_ok cs Hcs _ _ _ Hidx) as (_ & Hlen & Hitems).
  rewrite !fmap_app, <- IH.
  - f_equal. cbn. f_equal. apply pushed_header_item. intros dl ledger Hdl Hl.
    rewrite (Htot (length blocks) b dl ledger); [|by rewrite lookup_app_r, Nat.sub_diag|done|done].
    rewrite <- Hlen, <- (ib_total _ _ _ _ _ (pushed_item_of_block cs items blocks b Hlen Hitems Hex) ledger).
    unfold total_of, ledger_total. by rewrite (find_pushed cs _ _ dl ledger (ex_distinct _ _ _ Hex) Hdl Hl).
  - intros i b' dl ledger Hb Hdl Hl. pose proof (lookup_lt_Some _ _ _ Hb). rewrite (Htot i b' dl ledger); [|by rewrite lookup_app_l|done|done].
    by rewrite take_app_le by lia.
Qed.

(** The transactions of a block, from the tree or from the tables. *)
Definition reads_txs (v : PoaView) (h : LedgerHeader) (ledger : DataLedger) (txs : list DataTransactionHeader) : Prop :=
  match v_tree v !! lh_block_hash h with
  | Some b => lb_ledger_txs b ledger = txs
  | None => ∃ ids, v_headers v !! lh_block_hash h = Some h ∧ ledger_tx_ids_in h ledger = Some ids ∧
              Forall2 (λ id tx, v_txs v !! id = Some tx) ids txs
  end.

Lemma visit_owner_ok v h ledger txs k cs :
  0 < cs → reads_txs v h ledger txs → Forall (λ tx, 0 ≤ th_data_size tx) txs → 0 ≤ k →
  (∃ j tx, owns_chunk cs txs k j tx ∧
     select_poa_tx_by_chunk_layout v (lh_block_hash h) ledger k cs =
     Ok (mkChunkLayout tx (raw_start_of txs j) ((k - chunk_start_of cs txs j) * cs))) ∨
  (chunks_of_txs txs cs ≤ k ∧ select_poa_tx_by_chunk_layout v (lh_block_hash h) ledger k cs = Err PoAChunkOffsetOutOfTxBounds).
Proof.
  intros Hcs Hreads Hsizes Hk. unfold select_poa_tx_by_chunk_layout, visit_owning_ledger_txs. unfold reads_txs in Hreads.
  assert (Hgen : ∀ A (read : A → result PoaError DataTransactionHeader) (xs : list A), Forall2 (λ x tx, read x = Ok tx) xs txs →
    (∃ j tx, owns_chunk cs txs k j tx ∧ (found ← visit_txs read k cs (0, 0) xs; ok_or found PoAChunkOffsetOutOfTxBounds) =
       Ok (mkChunkLayout tx (raw_start_of txs j) ((k - chunk_start_of cs txs j) * cs))) ∨
    (chunks_of_txs txs cs ≤ k ∧ (found ← visit_txs read k cs (0, 0) xs; ok_or found PoAChunkOffsetOutOfTxBounds) = Err PoAChunkOffsetOutOfTxBounds)).
  { intros A read xs Hread. destruct (visit_txs_owner cs Hcs read xs txs k 0 0 Hread Hsizes Hk) as [(j & tx & Hj & Hr & ->)|[Hr ->]].
    - left. exists j, tx. rewrite !Z.add_0_l in *. split; [by split|done].
    - right. rewrite Z.add_0_l in Hr. done. }
  destruct (v_tree v !! lh_block_hash h) as [b|].
  - rewrite Hreads. apply Hgen, Forall_Forall2_diag, Forall_true. done.
  - destruct Hreads as (ids & Hhd & Htl & Hids). rewrite Hhd. res_simpl. rewrite Htl. res_simpl. apply Hgen. eapply Forall2_impl; [done|]. intros id tx ->. done.
Qed.

(** The offset of a chunk is not negative. *)
Lemma ledger_offset_nonneg config poa es off :
  0 ≤ poa_partition_chunk_offset poa → 0 ≤ pc_num_chunks_in_partition config → poa_ledger_chunk_offset config poa es = Ok off → 0 ≤ off.
Proof.
  intros Hp Hn Hoff. unfold poa_ledger_chunk_offset in Hoff.
  apply bind_ok in Hoff as (a & _ & Hoff). apply bind_ok in Hoff as (slot & _ & Hoff). unfold checked_mul, checked_add in Hoff.
  destruct (_ <? _); res_simpl in Hoff; [|done]. destruct (_ <? _); res_simpl in Hoff; [|done]. injection Hoff as <-. nia.
Qed.

(** A node's view of a chain: headers, and the transactions of each ledger of each block. *)
Record poa_setting `{DupSort} (v : PoaView) (canon chain : list LedgerHeader)
    (txs_of : LedgerHeader → DataLedger → list DataTransactionHeader) : Prop := {
  ps_view : view_ok v canon chain;
  ps_txs h ledger : h ∈ chain → is_Some (ledger_of_header h ledger) → reads_txs v h ledger (txs_of h ledger);
  ps_sizes h ledger : h ∈ chain → Forall (λ tx, 0 ≤ th_data_size tx) (txs_of h ledger)
}.

(** The bounds of an accepted lookup. *)
Lemma accepted_bounds `{DupSort} v canon chain txs_of i parent ledger off bb hash :
  poa_setting v canon chain txs_of → chain !! i = Some parent → covered v parent → 0 ≤ off →
  get_data_poa_bounds_with_block_tree_fallback v (lh_block_hash parent) (lh_height parent) ledger off = Ok (bb, hash) →
  chain_owner ledger off (take (S i) chain) = Some bb ∧ hash = bb_block_hash bb.
Proof.
  intros Hset Hi Hcov Hoff Hb. pose proof (poa_bounds_answer v canon chain (ps_view _ _ _ _ Hset) ledger off Hoff i parent Hi Hcov) as Hans.
  cbn zeta in Hans. rewrite Hb in Hans. destruct (ledger_entry_in parent ledger) as [entry|]; [|done].
  destruct (entry.1 <=? off); [done|]. destruct Hans as [(bb' & Ho & [= <- ->])|(j & p & _ & _ & _ & ?)]; [done|done].
Qed.

Section PoaTheorems.
  Context `{DupSort} `{Sha256}.
  Context (config : PoaConfig).
  Context (segments : nat) (Hseg : (0 < segments)%nat) (Hcs : pc_chunk_size config = Z.of_nat (segments * SHA_HASH_SIZE)).
  Notation cs := (segments * SHA_HASH_SIZE)%nat.

Lemma cs_pos : 0 < pc_chunk_size config.
Proof. rewrite Hcs. unfold SHA_HASH_SIZE. lia. Qed.

Lemma poa_entropy_ok poa miner : ∃ e, poa_entropy config poa miner = Ok e ∧ length e = cs.
Proof.
  unfold poa_entropy. rewrite Hcs, Nat2Z.id.
  destruct (compute_entropy_chunk_ok segments Hseg (be_bytes 20 miner) (poa_partition_chunk_offset poa) (be_bytes 32 (poa_partition_hash poa))
    (pc_entropy_packing_iterations config) (pc_chain_id config)) as (e & -> & He). by exists e.
Qed.

(** The bytes that validation hashes as the chunk, of a chunk of [n] bytes. *)
Definition unpacked_chunk (entropy bytes : list byte) (n : nat) : list byte := take n (xor_prefix entropy bytes).

(** An accepted data path and chunk: the bytes are the packed chunk of the data with that root. *)
Lemma data_path_valid_sound data_path bytes poa miner hit data k :
  poa_data_path_valid config data_path bytes poa miner hit = Ok () →
  th_data_root (cl_tx hit) = n_id (upload_root cs data) → data ≠ [] → Z.of_nat (length data) < 2 ^ 64 →
  cl_tx_chunk_offset hit = Z.of_nat (k * cs) → (length bytes ≤ cs)%nat →
  let chunk := take cs (drop (k * cs) data) in
  ∃ entropy, poa_entropy config poa miner = Ok entropy ∧
    (chunk ≠ [] ∧ packing_xor_vec_u8 entropy chunk = Ok bytes ∨
     collides (unpacked_chunk entropy bytes (length chunk) :: path_queries data_path)
              (chunks cs data ++ node_queries (upload_root cs data))).
Proof.
  intros Hvalid Hroot Hne Hlen Hoff Hbytes chunk. assert (Hpos : (0 < cs)%nat) by (unfold SHA_HASH_SIZE; lia).
  destruct (poa_entropy_ok poa miner) as (e & He & Hel). exists e. split; [done|].
  unfold poa_data_path_valid in Hvalid. apply bind_ok in Hvalid as (res & Hpath & Hvalid). rewrite Hroot, Hoff in Hpath.
  assert (Hpath' : validate_path (n_id (upload_root cs data)) data_path (Z.of_nat (k * cs)) = Ok res) by (by destruct (validate_path _ _ _); [injection Hpath as ->|..]).
  destruct (data_path_sound cs data Hpos Hne Hlen _ (Z.of_nat (k * cs)) _ ltac:(lia) Hpath') as [(i & c & Hc & -> & Hr & Hor & _)|Hcol].
  2:{ right. eapply collides_mono; [done|set_solver..]. }
  rewrite Hoff, Hcs in Hvalid. destruct (Z.eqb_spec (Z.of_nat cs) 0); [lia|]. res_simpl in Hvalid.
  rewrite (Nat2Z.inj_mul k cs), Z.div_mul in Hvalid by lia. apply bind_ok in Hvalid as ([] & _ & Hvalid).
  apply bind_ok in Hvalid as ([lo hi] & Hrange & Hvalid).
  assert (Hexp : expected_chunk_byte_range (Z.of_nat k) (th_data_size (cl_tx hit)) (Z.of_nat cs) = Ok (lo, hi))
    by (unfold out_of_chunk in Hrange; destruct (expected_chunk_byte_range _ _ _); [by injection Hrange as ->|done..]).
  apply expected_chunk_byte_range_ok in Hexp as (_ & _ & _ & _ & _ & Hlo & _).
  apply bind_ok in Hvalid as ([] & Hbr & Hvalid). unfold out_of_chunk in Hbr.
  destruct (validate_path_byte_range (chunk_result cs data i c) (lo, hi)) as [[]| |] eqn:Hbr'; [|done..].
  apply validate_path_byte_range_ok in Hbr' as (_ & _ & [= Hlo' Hhi']). assert (i = k) as -> by (rewrite Hlo, <- (Nat2Z.inj_mul k cs) in Hlo'; apply Nat2Z.inj, Nat.mul_cancel_r in Hlo'; [done|lia]).
  destruct (chunk_at _ _ _ _ Hpos Hc) as (_ & Htake & _ & Hcne). rewrite He in Hvalid. res_simpl in Hvalid.
  apply bind_ok in Hvalid as ([] & Hlong & Hvalid). rewrite Nat2Z.id in Hvalid.
  apply bind_ok in Hvalid as ([] & Hshort & Hvalid). apply guard_err_ok, Nat.ltb_ge in Hshort.
  apply bind_ok in Hvalid as (u & Hu & Hvalid). apply (proj1 (expect_ok_Ok _ _)) in Hu.
  rewrite (proj2 (checked_sub_Some hi lo (hi - lo))) in Hvalid by lia. res_simpl in Hvalid.
  assert (Hspan : Z.to_nat (hi - lo) = length c) by lia. rewrite Hspan in Hvalid.
  destruct (Nat.ltb_spec (length u) (length c)); res_simpl in Hvalid; [done|].
  apply bind_ok in Hvalid as ([] & Hpad & Hhash). apply guard_err_ok in Hpad. rewrite guard_err_ok, negb_false_iff, bool_decide_eq_true in Hhash.
  destruct (unpacked_bytes bytes e u (length c) ltac:(lia) Hu Hpad) as [Hul Hpacked].
  assert (Huc : take (length c) u = unpacked_chunk e bytes (length c)).
  { rewrite xor_in_place_eq in Hu by lia. injection Hu as <-. unfold unpacked_chunk. rewrite take_take, Nat.min_l by (rewrite Hul in *; lia). done. }
  subst chunk. rewrite <- Htake. cbn [chunk_result leaf_hash] in Hhash.
  destruct (sha256_same _ _ Hhash) as [Heq|(a & b & ->%list_elem_of_singleton & ->%list_elem_of_singleton & Hab & Hsame)].
  - left. split; [done|]. unfold packing_xor_vec_u8. rewrite Heq in Hpacked. rewrite (proj2 (Nat.ltb_ge _ _)), Hpacked by lia. done.
  - right. exists (take (length c) u), c. split_and!; [rewrite Huc; left| |done..]. apply elem_of_app. left. by eapply list_elem_of_lookup_2.
Qed.
End PoaTheorems.

(** Headers commit to the transactions of their ledgers: roots, and totals on whole chunks. *)
Record chain_commits `{Sha256} (cs : Z) (chain : list LedgerHeader) (txs_of : LedgerHeader → DataLedger → list DataTransactionHeader) : Prop := {
  cc_root h ledger dl : h ∈ chain → ledger_of_header h ledger = Some dl → compute_tx_root (E:=PoaError) (txs_of h ledger) = Ok (tl_tx_root dl);
  cc_total r h ledger dl : chain !! r = Some h → ledger_of_header h ledger = Some dl →
    tl_total_chunks dl = (match r with O => 0 | S r' => default 0 (total_of ledger <$> (header_item <$> chain !! r')) end)
                         + chunks_of_txs (txs_of h ledger) cs;
  cc_sizes h ledger : h ∈ chain → Forall (λ tx, 0 < th_data_size tx) (txs_of h ledger) ∧ sum_Z (th_data_size <$> txs_of h ledger) < 2 ^ 64
}.

(** The path of a block's transaction passes its check. *)
Lemma honest_tx_path `{Sha256} txs j tx bb k tpf root proofs :
  txs ≠ [] → Forall (λ tx, 0 < th_data_size tx) txs → sum_Z (th_data_size <$> txs) < 2 ^ 64 →
  txs !! j = Some tx → 0 ≤ k < th_data_size tx → bb_tx_root bb = root →
  merklize_tx_root (E:=PoaError) txs = Ok (root, proofs) → proofs !! j = Some tpf →
  poa_tx_path_valid (proof tpf) bb (mkChunkLayout tx (raw_start_of txs j) k) = Ok ().
Proof.
  intros Hne Hpos Hsum Hj Hk Hroot Hm Hpf. destruct (merklize_tx_root_eq (E:=PoaError) txs Hne Hpos Hsum) as (ps & Heq & _ & Hat).
  rewrite Heq in Hm. injection Hm as <- <-. rewrite (Hat j tx (raw_start_of txs j + k) Hj ltac:(lia)) in Hpf. injection Hpf as <-.
  assert (Htxs : Forall (λ tx, 0 ≤ th_data_size tx) txs) by (eapply Forall_impl; [done|]; cbn; lia).
  unfold poa_tx_path_valid. cbn [proof cl_raw_start cl_tx cl_tx_chunk_offset]. rewrite Hroot, (tx_path_valid txs j tx) by (done || lia).
  unfold merkle_err. res_simpl. cbn [min_byte_range max_byte_range leaf_hash]. rewrite !Z.eqb_refl. cbn [negb orb]. res_simpl. by rewrite bool_decide_true.
Qed.
(** A path that validates has the layout of a proof. *)
Lemma validate_path_layout `{Sha256} root path t res : validate_path root path t = Ok res → is_ok (ensure_proof_layout path) = true.
Proof. unfold validate_path, parse_path. intros (p & (n & -> & _)%bind_ok & _)%bind_ok. done. Qed.

(** The steps of the check of a data proof, in order. *)
Lemma poa_is_valid_data `{DupSort} `{Sha256} v config poa parent_hash parent_height es miner height bytes data_path tx_path ledger a slot bb hit :
  poa_chunk poa = Some bytes → (length bytes ≤ Z.to_nat (pc_chunk_size config))%nat →
  poa_data_path poa = Some data_path → poa_tx_path poa = Some tx_path → poa_ledger_id poa = Some (ledger_id ledger) →
  get_assignment es (poa_partition_hash poa) = Some a → pa_miner_address a = miner → pa_ledger_id a = Some ledger → pa_slot_index a = Some slot →
  let off := Z.of_nat slot * pc_num_chunks_in_partition config + poa_partition_chunk_offset poa in
  0 ≤ poa_partition_chunk_offset poa → off < 2 ^ 64 →
  get_data_poa_bounds_with_block_tree_fallback v parent_hash parent_height ledger off = Ok (bb, bb_block_hash bb) →
  start_chunk_offset bb ≤ off < end_chunk_offset bb →
  select_poa_tx_by_chunk_layout v (bb_block_hash bb) ledger (off - start_chunk_offset bb) (pc_chunk_size config) = Ok hit →
  poa_tx_path_valid tx_path bb hit = Ok () → poa_data_path_valid config data_path bytes poa miner hit = Ok () →
  poa_is_valid v config poa parent_hash parent_height es miner height = Ok ().
Proof.
  intros Hbytes Hlen Hdp Htp Hid Ha Hminer Hled Hslot off Hp Hoff Hb Hr Hsel Htx Hdata. unfold poa_is_valid. rewrite Hbytes. res_simpl.
  unfold poa_chunk_within_configured_len, reject_poa_chunk_longer_than. rewrite (proj2 (Nat.ltb_ge _ _)) by done. res_simpl.
  assert (Hecho : (if is_echo_active_at_height config height then poa_partition_is_owned_by_miner (poa_partition_hash poa) miner es ≫= λ _, poa_ledger_matches_assignment poa es else Ok ()) = Ok ()).
  { destruct (is_echo_active_at_height config height); [|done]. unfold poa_partition_is_owned_by_miner, poa_ledger_matches_assignment, is_data_poa.
    rewrite Ha, Hid, Hdp, Htp. cbn [fmap option_fmap option_map mbind option_bind]. rewrite Hminer, Hled. cbn [fmap option_fmap option_map].
    by rewrite !bool_decide_true by done. }
  rewrite Hecho. res_simpl. rewrite Hdp, Htp, Hid. unfold poa_ledger_chunk_offset. rewrite Ha. res_simpl. rewrite Hslot. res_simpl.
  rewrite (proj2 (checked_mul_Some _ _ _ (Z.of_nat slot * pc_num_chunks_in_partition config))) by lia. res_simpl.
  rewrite (proj2 (checked_add_Some _ _ _ off)) by (unfold off; lia). res_simpl. rewrite ledger_of_id_id. res_simpl. rewrite Hb. res_simpl.
  rewrite (proj2 (Z.leb_le _ _)), (proj2 (Z.ltb_lt _ _)) by lia. cbn [andb negb]. res_simpl.
  pose proof Htx as Htx'. apply bind_ok in Htx' as (tres & Htres & _). unfold merkle_err in Htres.
  destruct (validate_path (bb_tx_root bb) tx_path _) as [tr| |] eqn:Htv; [|done..]. apply validate_path_layout in Htv.
  pose proof Hdata as Hdata'. apply bind_ok in Hdata' as (dres & Hdres & _). unfold merkle_err in Hdres.
  destruct (validate_path (th_data_root (cl_tx hit)) data_path _) as [dr| |] eqn:Hdv; [|done..]. apply validate_path_layout in Hdv.
  unfold merkle_err. destruct (ensure_proof_layout tx_path); [|done..]. destruct (ensure_proof_layout data_path); [|done..]. res_simpl.
  rewrite Hsel. res_simpl. rewrite Htx. res_simpl. exact Hdata.
Qed.

Section Honest.
  Context `{DupSort} `{Sha256}.
  Context (config : PoaConfig) (segments : nat) (Hseg : (0 < segments)%nat) (Hcs : pc_chunk_size config = Z.of_nat (segments * SHA_HASH_SIZE)).
  Notation cs := (segments * SHA_HASH_SIZE)%nat.

(** The proofs of the uploader and the packed chunk pass the data checks. *)
Lemma honest_data_path data k c poa miner entropy bytes tx raw :
  data ≠ [] → Z.of_nat (length data + cs) < 2 ^ 64 → Z.of_nat k < 2 ^ 32 → chunks cs data !! k = Some c →
  th_data_root tx = n_id (upload_root cs data) → th_data_size tx = Z.of_nat (length data) →
  poa_entropy config poa miner = Ok entropy → packing_xor_vec_u8 entropy c = Ok bytes →
  poa_data_path_valid config (chunk_proof cs data k c) bytes poa miner (mkChunkLayout tx raw (Z.of_nat (k * cs))) = Ok () ∧ length bytes = cs.
Proof.
  intros Hne Hlen Hk Hc Hroot Hsize He Hpack. assert (Hpos : (0 < cs)%nat) by (unfold SHA_HASH_SIZE; lia).
  destruct (chunk_at _ _ _ _ Hpos Hc) as (Hi & _ & Hcl & Hcne). assert (0 < length c)%nat by (destruct c; [done|cbn; lia]).
  destruct (poa_entropy_ok config segments Hseg Hcs poa miner) as (e & He' & Hel). rewrite He in He'. injection He' as <-.
  unfold packing_xor_vec_u8 in Hpack. destruct (Nat.ltb_spec (length entropy) (length c)) as [|Hle]; [done|]. injection Hpack as <-.
  rewrite length_xor_prefix. split; [|done].
  unfold poa_data_path_valid. cbn [cl_tx cl_tx_chunk_offset]. rewrite Hroot, (chunk_proof_valid cs data Hpos Hne ltac:(lia) k c) by (done || lia). res_simpl.
  unfold merkle_err. res_simpl. rewrite Hcs. destruct (Z.eqb_spec (Z.of_nat cs) 0); [lia|]. res_simpl. rewrite (Nat2Z.inj_mul k cs), Z.div_mul by lia.
  unfold fits. rewrite (proj2 (Z.leb_le 0 _)), (proj2 (Z.ltb_lt _ _)) by lia. cbn [andb negb]. res_simpl.
  assert (Hexp : expected_chunk_byte_range (Z.of_nat k) (th_data_size tx) (Z.of_nat cs) = Ok (Z.of_nat (k * cs), Z.of_nat (k * cs + length c))).
  { apply expected_chunk_byte_range_ok. rewrite Hsize, Hcl. lia. }
  rewrite Hexp. unfold out_of_chunk. res_simpl.
  assert (Hbr : validate_path_byte_range (chunk_result cs data k c) (Z.of_nat (k * cs), Z.of_nat (k * cs + length c)) = Ok ()).
  { apply validate_path_byte_range_ok. cbn [chunk_result min_byte_range max_byte_range]. unfold fits. split_and!; [..|done]; lia. }
  rewrite Hbr. res_simpl. rewrite He. res_simpl. unfold reject_poa_chunk_longer_than. rewrite length_xor_prefix, Nat2Z.id, Hel, (proj2 (Nat.ltb_ge _ _)) by lia. res_simpl.
  rewrite packed_bytes by lia. res_simpl. rewrite (proj2 (checked_sub_Some _ _ (Z.of_nat (length c)))) by lia. res_simpl. rewrite Nat2Z.id.
  rewrite length_app, (proj2 (Nat.ltb_ge _ _)) by lia. res_simpl. rewrite take_app_length, drop_app_length.
  rewrite (proj2 (existsb_zeros _)) by (by rewrite length_replicate). res_simpl. by rewrite bool_decide_true.
Qed.
End Honest.

Section Theorems.
  Context `{DupSort} `{Sha256}.

(** C7: A data proof of access that validation accepts shows that the miner holds the chunk:
    the offset that the partition assignment gives belongs to one block of the parent's own
    chain and to one transaction of that block, and for the data committed to by that
    transaction's data root the bytes of the proof are exactly the chunk at that offset,
    packed with the entropy of the miner and partition; otherwise two distinct inputs of the
    hash with one digest are exhibited.  From Echo on the partition is assigned to the miner
    of the block, in that ledger. *)
Theorem poa_shows_storage v config canon chain txs_of segments poa i parent es miner height :
  poa_setting v canon chain txs_of → (0 < segments)%nat → pc_chunk_size config = Z.of_nat (segments * SHA_HASH_SIZE) →
  0 ≤ poa_partition_chunk_offset poa → 0 ≤ pc_num_chunks_in_partition config →
  chain !! i = Some parent → covered v parent → is_data_poa poa = true →
  poa_is_valid v config poa (lh_block_hash parent) (lh_height parent) es miner height = Ok () →
  ∃ ledger off bb r h j tx bytes,
    poa_ledger_id poa = Some (ledger_id ledger) ∧ poa_chunk poa = Some bytes ∧
    (is_echo_active_at_height config height = true →
     ∃ a, get_assignment es (poa_partition_hash poa) = Some a ∧ pa_miner_address a = miner ∧ pa_ledger_id a = Some ledger) ∧
    poa_ledger_chunk_offset config poa es = Ok off ∧
    chain_owner ledger off (take (S i) chain) = Some bb ∧ (r ≤ i)%nat ∧ chain !! r = Some h ∧ bb_block_hash bb = lh_block_hash h ∧
    owns_chunk (pc_chunk_size config) (txs_of h ledger) (off - start_chunk_offset bb) j tx ∧
    ∀ data, th_data_root tx = n_id (upload_root (segments * SHA_HASH_SIZE) data) → data ≠ [] → Z.of_nat (length data) < 2 ^ 64 →
      let k := Z.to_nat (off - start_chunk_offset bb - chunk_start_of (pc_chunk_size config) (txs_of h ledger) j) in
      let chunk := take (segments * SHA_HASH_SIZE) (drop (k * (segments * SHA_HASH_SIZE)) data) in
      ∃ entropy, poa_entropy config poa miner = Ok entropy ∧
        (chunk ≠ [] ∧ packing_xor_vec_u8 entropy chunk = Ok bytes ∨
         collides (unpacked_chunk entropy bytes (length chunk) :: path_queries (default [] (poa_data_path poa)))
                  (chunks (segments * SHA_HASH_SIZE) data ++ node_queries (upload_root (segments * SHA_HASH_SIZE) data))).
Proof.
  intros Hset Hseg Hcs Hp Hn Hi Hcov Hdata Hvalid. pose proof (cs_pos config segments Hseg Hcs) as Hpos.
  unfold poa_is_valid in Hvalid. apply bind_ok in Hvalid as (bytes & Hbytes & Hvalid).
  assert (Hbytes' : poa_chunk poa = Some bytes) by (by destruct (poa_chunk poa); [injection Hbytes as ->|]).
  apply bind_ok in Hvalid as ([] & Hlen & Hvalid). apply guard_err_ok, Nat.ltb_ge in Hlen. rewrite Hcs, Nat2Z.id in Hlen.
  apply bind_ok in Hvalid as ([] & Hecho & Hvalid). unfold is_data_poa in Hdata.
  destruct (poa_data_path poa) as [data_path|] eqn:Hdp; [|done]. destruct (poa_tx_path poa) as [tx_path|] eqn:Htp; [|done].
  destruct (poa_ledger_id poa) as [id|] eqn:Hid; [|done].
  apply bind_ok in Hvalid as (off & Hoff & Hvalid). pose proof (ledger_offset_nonneg config poa es off Hp Hn Hoff) as Hoff0.
  apply bind_ok in Hvalid as (ledger & Hled & Hvalid).
  assert (Hid' : ledger_of_id id = Some ledger) by (by destruct (ledger_of_id id); [injection Hled as ->|]).
  pose proof (ledger_of_id_eq _ _ Hid') as ->.
  apply bind_ok in Hvalid as ([bb hash] & Hb & Hvalid). apply bind_ok in Hvalid as ([] & Hrange & Hvalid).
  destruct (accepted_bounds v canon chain txs_of i parent ledger off bb hash Hset Hi Hcov Hoff0 Hb) as [Howner ->].
  destruct (chain_owner_block _ _ _ _ Howner) as (r & h & dl & Hr & Hdl & _ & Hhash & _ & _ & _ & _ & _ & Hstart). specialize (Hstart Hoff0).
  apply lookup_take_Some in Hr as [Hr Hri]. rewrite Hhash in Hvalid.
  apply bind_ok in Hvalid as (? & _ & Hvalid). apply bind_ok in Hvalid as (? & _ & Hvalid).
  apply bind_ok in Hvalid as (hit & Hhit & Hvalid). apply bind_ok in Hvalid as ([] & _ & Hvalid).
  assert (Hin : h ∈ chain) by (by eapply list_elem_of_lookup_2).
  destruct (visit_owner_ok v h ledger (txs_of h ledger) (off - start_chunk_offset bb) (pc_chunk_size config) Hpos
    (ps_txs _ _ _ _ Hset h ledger Hin ltac:(by exists dl)) (ps_sizes _ _ _ _ Hset h ledger Hin) ltac:(lia)) as [(j & tx & Hown & Hsel)|[_ Hsel]];
    rewrite Hsel in Hhit; [injection Hhit as <-|done].
  exists ledger, off, bb, r, h, j, tx, bytes. split_and!; [done..| |done|done|lia|done|done|done|].
  - intros Hact. rewrite Hact in Hecho. apply bind_ok in Hecho as ([] & Hmine & Hledger).
    unfold poa_partition_is_owned_by_miner in Hmine. rewrite guard_err_ok, negb_false_iff, bool_decide_eq_true in Hmine.
    unfold poa_ledger_matches_assignment, is_data_poa in Hledger. rewrite Hid, Hdp, Htp in Hledger. cbn in Hledger.
    rewrite guard_err_ok, negb_false_iff, bool_decide_eq_true in Hledger.
    apply fmap_Some in Hmine as (a & Ha & ->). exists a. rewrite Ha in Hledger. cbn in Hledger. split_and!; [done..|].
    apply fmap_Some in Hledger as (l & -> & Hl). f_equal. pose proof (ledger_of_id_id l) as Hl1. rewrite <- Hl, ledger_of_id_id in Hl1. by injection Hl1.
  - intros data Hroot Hne Hdl'. destruct (owner_size _ Hpos _ _ _ _ (ps_sizes _ _ _ _ Hset h ledger Hin) Hown) as [Hk _].
    apply (data_path_valid_sound config segments Hseg Hcs data_path bytes poa miner _ data _ Hvalid Hroot Hne Hdl'); [|done].
    cbn [cl_tx_chunk_offset]. rewrite (Nat2Z.inj_mul (Z.to_nat _)), Z2Nat.id by lia. by rewrite <- Hcs.
Qed.

(** C18: An honest miner's data proof is accepted.  Let a partition be assigned to the miner in
    a slot of a ledger, and let a chunk of it lie below the end of the ledger on the parent's
    chain, all of whose blocks the node knows.  Then the chunk belongs to a transaction of a
    block of that chain, and every proof made of the transaction path that [merklize_tx_root]
    gives, the data path that [merklize] gives for the data of the transaction, and the chunk
    packed with the miner's entropy is valid. *)
Theorem honest_poa_accepted v config canon chain txs_of segments poa i parent es miner height ledger a slot off entry :
  poa_setting v canon chain txs_of → chain_commits (pc_chunk_size config) chain txs_of →
  (0 < segments)%nat → pc_chunk_size config = Z.of_nat (segments * SHA_HASH_SIZE) →
  chain !! i = Some parent → (∀ h, h ∈ take (S i) chain → covered v h) →
  get_assignment es (poa_partition_hash poa) = Some a → pa_miner_address a = miner → pa_ledger_id a = Some ledger →
  pa_slot_index a = Some slot → 0 ≤ poa_partition_chunk_offset poa → 0 ≤ pc_num_chunks_in_partition config →
  off = Z.of_nat slot * pc_num_chunks_in_partition config + poa_partition_chunk_offset poa → off < 2 ^ 64 →
  ledger_entry_in parent ledger = Some entry → off < entry.1 →
  ∃ bb r h j tx, chain_owner ledger off (take (S i) chain) = Some bb ∧ chain !! r = Some h ∧ bb_block_hash bb = lh_block_hash h ∧
    owns_chunk (pc_chunk_size config) (txs_of h ledger) (off - start_chunk_offset bb) j tx ∧
    let k := Z.to_nat (off - start_chunk_offset bb - chunk_start_of (pc_chunk_size config) (txs_of h ledger) j) in
    ∀ tx_root tx_proofs tpf chain_id pieces store dtx dpf c entropy bytes,
      merklize_tx_root (E:=PoaError) (txs_of h ledger) = Ok (tx_root, tx_proofs) → tx_proofs !! j = Some tpf →
      concat pieces ≠ [] → Z.of_nat (length (concat pieces) + segments * SHA_HASH_SIZE) < 2 ^ 64 → Z.of_nat k < 2 ^ 32 →
      merklize chain_id (Ok <$> pieces) (segments * SHA_HASH_SIZE) store = Ok dtx →
      th_data_root tx = dt_data_root dtx → th_data_size tx = dt_data_size dtx → dt_proofs dtx !! k = Some dpf →
      chunks (segments * SHA_HASH_SIZE) (concat pieces) !! k = Some c →
      poa_entropy config poa miner = Ok entropy → packing_xor_vec_u8 entropy c = Ok bytes →
      poa_chunk poa = Some bytes → poa_ledger_id poa = Some (ledger_id ledger) →
      poa_tx_path poa = Some (proof tpf) → poa_data_path poa = Some (proof dpf) →
      poa_is_valid v config poa (lh_block_hash parent) (lh_height parent) es miner height = Ok ().
Proof.
  intros Hset Hcc Hseg Hcs Hi Hcov Ha Hminer Hled Hslot Hp Hn Hoff Hoff64 Hentry Hlt. pose proof (cs_pos config segments Hseg Hcs) as Hpos.
  assert (Hoff0 : 0 ≤ off) by nia. assert (Hcovp : covered v parent) by (apply Hcov; rewrite (take_S_r _ _ _ Hi); set_solver).
  pose proof (poa_bounds_answer v canon chain (ps_view _ _ _ _ Hset) ledger off Hoff0 i parent Hi Hcovp) as Hans. cbn zeta in Hans.
  rewrite Hentry in Hans. destruct (Z.leb_spec entry.1 off); [lia|].
  destruct Hans as [(bb & Howner & Hbounds)|(j & p & Hj & Hpj & Hnc & _)].
  2:{ destruct Hnc. apply Hcov. apply list_elem_of_lookup. exists j. rewrite lookup_take_lt by lia. done. }
  destruct (chain_owner_block _ _ _ _ Howner) as (r & h & dl & Hr & Hdl & _ & Hhash & _ & Hend & Hroot & Hstart & Hltend & Hst). specialize (Hst Hoff0).
  pose proof Hr as [Hr' Hri]%lookup_take_Some. assert (Hin : h ∈ chain) by (by eapply list_elem_of_lookup_2).
  destruct (cc_sizes _ _ _ Hcc h ledger Hin) as [Hsz Hsum]. pose proof (ps_sizes _ _ _ _ Hset h ledger Hin) as Hsz0.
  destruct (visit_owner_ok v h ledger (txs_of h ledger) (off - start_chunk_offset bb) (pc_chunk_size config) Hpos
    (ps_txs _ _ _ _ Hset h ledger Hin ltac:(by exists dl)) Hsz0 ltac:(lia)) as [(j & tx & Hown & Hsel)|[Hge _]].
  2:{ pose proof (cc_total _ _ _ Hcc r h ledger dl Hr' Hdl) as Htot. rewrite Hend, Htot in Hltend.
      destruct r as [|r']; [rewrite Hstart in Hge; lia|]. rewrite lookup_take_lt in Hstart by lia. rewrite Hstart in Hge. lia. }
  exists bb, r, h, j, tx. split_and!; [done..|]. intros k tx_root tx_proofs tpf chain_id pieces store dtx dpf c entropy bytes
    Htr Htpf Hne Hlen Hk32 Hdtx Hdroot Hdsize Hdpf Hc He Hpack Hbytes Hid Htp Hdp.
  destruct (owner_size _ Hpos _ _ _ _ Hsz0 Hown) as [Hk0 Hksize]. pose proof Hown as [Hj _].
  assert (Htxne : txs_of h ledger ≠ []) by (intros Hnil; by rewrite Hnil in Hj).
  assert (Hkcs : (off - start_chunk_offset bb - chunk_start_of (pc_chunk_size config) (txs_of h ledger) j) * pc_chunk_size config = Z.of_nat (k * (segments * SHA_HASH_SIZE)))
    by (rewrite (Nat2Z.inj_mul k), <- Hcs; unfold k; by rewrite Z2Nat.id by lia).
  rewrite Hkcs in Hksize, Hsel. assert (Hcs' : (0 < segments * SHA_HASH_SIZE)%nat) by (unfold SHA_HASH_SIZE; lia).
  destruct (merklize_eq _ (concat pieces) Hcs' Hne ltac:(lia) chain_id pieces store eq_refl) as (ps & Hps & Heq). rewrite Heq in Hdtx. injection Hdtx as <-.
  cbn [dt_data_root dt_data_size dt_proofs] in *. destruct (resolved_proof _ (concat pieces) Hcs' Hne k c Hc) as (ps' & pf & Hps' & Hpf & _ & Hproof).
  rewrite Hps in Hps'. injection Hps' as <-. rewrite Hpf in Hdpf. injection Hdpf as <-.
  assert (bb_tx_root bb = tx_root) as Htxroot.
  { pose proof (cc_root _ _ _ Hcc h ledger dl Hin Hdl) as Hcr. rewrite (compute_tx_root_eq _ Htxne (conj Hsz0 Hsum)) in Hcr. injection Hcr as Hcr.
    destruct (merklize_tx_root_eq (E:=PoaError) _ Htxne Hsz Hsum) as (ps2 & Heq2 & _). rewrite Heq2 in Htr. injection Htr as <- _. by rewrite Hroot. }
  destruct (honest_data_path config segments Hseg Hcs (concat pieces) k c poa miner entropy bytes tx (raw_start_of (txs_of h ledger) j) Hne Hlen Hk32 Hc Hdroot Hdsize He Hpack) as [Hdata Hbl].
  pose proof (honest_tx_path (txs_of h ledger) j tx bb (Z.of_nat (k * (segments * SHA_HASH_SIZE))) tpf tx_root tx_proofs Htxne Hsz Hsum Hj ltac:(lia) Htxroot Htr Htpf) as Htx.
  subst off. eapply (poa_is_valid_data v config poa _ _ es miner height bytes (proof pf) (proof tpf) ledger a slot bb); try done.
  - rewrite Hcs, Nat2Z.id, Hbl. done.
  - by rewrite Hhash.
  - by rewrite Hproof.
Qed.

(** The transactions are visited alike, wherever they are read from. *)
Lemma visit_txs_read {A} (read : A → result PoaError DataTransactionHeader) xs txs k cs cursor :
  Forall2 (λ x tx, read x = Ok tx) xs txs → visit_txs read k cs cursor xs = visit_txs Ok k cs cursor txs.
Proof.
  intros Hread. revert cursor. induction Hread as [|x tx xs txs Hx _ IH]; intros cursor; [done|]. cbn [visit_txs]. rewrite Hx. res_simpl.
  destruct (visit_tx k cs cursor tx) as [[found|cursor']| |]; res_simpl; [done|apply IH|done..].
Qed.

Lemma select_read v h ledger txs k cs : reads_txs v h ledger txs →
  select_poa_tx_by_chunk_layout v (lh_block_hash h) ledger k cs =
  (found ← visit_txs Ok k cs (0, 0) txs; ok_or found PoAChunkOffsetOutOfTxBounds).
Proof.
  unfold reads_txs, select_poa_tx_by_chunk_layout, visit_owning_ledger_txs. destruct (v_tree v !! lh_block_hash h) as [b|]; [by intros ->|].
  intros (ids & Hh & Hl & Hids). rewrite Hh. res_simpl. rewrite Hl. res_simpl. rewrite (visit_txs_read _ ids txs); [done|].
  eapply Forall2_impl; [done|]. intros id tx ->. done.
Qed.

Lemma bounds_read v canon chain txs_of i parent ledger off :
  poa_setting v canon chain txs_of → chain !! i = Some parent → (∀ h, h ∈ take (S i) chain → covered v h) → 0 ≤ off →
  get_data_poa_bounds_with_block_tree_fallback v (lh_block_hash parent) (lh_height parent) ledger off =
  match ledger_entry_in parent ledger with
  | None => Err (PoALedgerInactive (ledger_id ledger))
  | Some entry => if entry.1 <=? off then Err PoAChunkOffsetOutOfBlockBounds
                  else bb ← expect (chain_owner ledger off (take (S i) chain)); Ok (bb, bb_block_hash bb)
  end.
Proof.
  intros Hset Hi Hcov Hoff. assert (Hp : covered v parent) by (apply Hcov; rewrite (take_S_r _ _ _ Hi); set_solver).
  pose proof (poa_bounds_answer v canon chain (ps_view _ _ _ _ Hset) ledger off Hoff i parent Hi Hp) as Hans. cbn zeta in Hans.
  destruct (ledger_entry_in parent ledger) as [entry|]; [|done]. destruct (entry.1 <=? off); [done|].
  destruct Hans as [(bb & -> & ->)|(j & p & Hj & Hpj & Hnc & _)]; [done|].
  destruct Hnc. apply Hcov, list_elem_of_lookup. exists j. by rewrite lookup_take_lt by lia.
Qed.

(** C19: Nodes agree on proofs of access.  Two nodes that know every block of the parent's
    chain, whatever of it each has in its block tree or in its index, and whatever other
    branch the index of either follows, give the same verdict, down to the error. *)
Theorem poa_verdict_agrees v1 v2 config canon1 canon2 chain txs_of poa i parent es miner height :
  poa_setting v1 canon1 chain txs_of → poa_setting v2 canon2 chain txs_of →
  0 ≤ poa_partition_chunk_offset poa → 0 ≤ pc_num_chunks_in_partition config → chain !! i = Some parent →
  (∀ h, h ∈ take (S i) chain → covered v1 h ∧ covered v2 h) →
  poa_is_valid v1 config poa (lh_block_hash parent) (lh_height parent) es miner height =
  poa_is_valid v2 config poa (lh_block_hash parent) (lh_height parent) es miner height.
Proof.
  intros H1 H2 Hp Hn Hi Hcov. unfold poa_is_valid. destruct (poa_chunk poa) as [bytes|]; res_simpl; [|done].
  destruct (poa_chunk_within_configured_len bytes (pc_chunk_size config)) as [[]| |]; res_simpl; [|done..].
  match goal with |- (?e ≫= _) = _ => destruct e as [[]| |]; res_simpl; [|done..] end.
  destruct (poa_data_path poa) as [data_path|], (poa_tx_path poa) as [tx_path|], (poa_ledger_id poa) as [id|]; [|done..].
  destruct (poa_ledger_chunk_offset config poa es) as [off| |] eqn:Hoff; res_simpl; [|done..].
  pose proof (ledger_offset_nonneg config poa es off Hp Hn Hoff) as Hoff0. destruct (ledger_of_id id) as [ledger|]; res_simpl; [|done].
  rewrite (bounds_read v1 canon1 chain txs_of i parent ledger off H1 Hi), (bounds_read v2 canon2 chain txs_of i parent ledger off H2 Hi)
    by (done || intros h Hh; by apply Hcov).
  destruct (ledger_entry_in parent ledger) as [entry|]; res_simpl; [|done]. destruct (entry.1 <=? off); res_simpl; [done|].
  destruct (chain_owner ledger off (take (S i) chain)) as [bb|] eqn:Howner; res_simpl; [|done].
  destruct (guard_err _ PoAChunkOffsetOutOfBlockBounds) as [[]| |]; res_simpl; [|done..].
  destruct (merkle_err (ensure_proof_layout tx_path)) as [?| |]; res_simpl; [|done..].
  destruct (merkle_err (ensure_proof_layout data_path)) as [?| |]; res_simpl; [|done..].
  destruct (chain_owner_block _ _ _ _ Howner) as (r & h & dl & [Hr _]%lookup_take_Some & Hdl & _ & Hhash & _). rewrite Hhash.
  assert (Hin : h ∈ chain) by (by eapply list_elem_of_lookup_2).
  rewrite (select_read v1 h ledger _ _ _ (ps_txs _ _ _ _ H1 h ledger Hin ltac:(by exists dl))).
  by rewrite (select_read v2 h ledger _ _ _ (ps_txs _ _ _ _ H2 h ledger Hin ltac:(by exists dl))).
Qed.
End Theorems.
