(* ===== verification/PoaExample.v ===== *)
(** Two nodes with one chain and different tables: the hypotheses of the theorems on the block
    index and on proofs of access hold of them. *)

From S2P Require Import RefTree TreeHash StateErr Codec Packing Merkle MerkleFacts MerkleBuild MerkleTheorems DataLedger EpochSnapshot BlockIndex BlockIndexFacts Poa PoaFacts PoaTheorems Prelude.

Module PoaExample.

(** A stand-in hash, the successor on 32 bytes, and values in the order they were put. *)
Definition toy_digest (m : list byte) : list byte := be_bytes 32 (of_be_bytes m + 1).
#[local] Instance toy_sha : Sha256 := { sha256 := toy_digest; sha256_length := λ m, length_be_bytes 32 _ }.
#[local] Instance put_order : DupSort := { walk_dup := id; walk_dup_perm := λ l _, Permutation_refl l }.

Definition config : PoaConfig := mkPoaConfig 32 10 3 7 (Some 0).

(** Two uploads, of two chunks and of one. *)
Definition pieces : list (list byte) := [replicate 33 x05; replicate 7 x06].
Definition merklized (pieces : list (list byte)) : DataTransaction :=
  match merklize 7 (Ok <$> pieces) 32 true with Ok tx => tx | _ => mkDataTransaction 0 [] 0 None [] [] end.
Definition upload1 : DataTransaction := Eval vm_compute in merklized pieces.
Definition upload2 : DataTransaction := Eval vm_compute in merklized [replicate 10 x07].
Definition tx1 : DataTransactionHeader := Eval vm_compute in mkTxHeader 11 3 (dt_data_root upload1) (replicate 32 x00) 40 100 (Some 1000).
Definition tx2 : DataTransactionHeader := Eval vm_compute in mkTxHeader 12 4 (dt_data_root upload2) (replicate 32 x00) 10 50 None.
Definition txs : list DataTransactionHeader := [tx1; tx2].
Definition tx_tree_of : list byte * list Proof_ :=
  Eval vm_compute in match merklize_tx_root (E:=PoaError) txs with Ok r => r | _ => ([], []) end.
Definition zero_root : list byte := Eval vm_compute in ZERO_ROOT.

(** Genesis, the block with the uploads, a block on it, and a block of another branch. *)
Definition genesis : LedgerHeader := mkLedgerHeader 100 0 0 [mkTxLedger 0 zero_root [] 0; mkTxLedger 1 zero_root [] 0] 0 0.
Definition block1 : LedgerHeader := mkLedgerHeader 101 100 1 [mkTxLedger 0 zero_root [] 0; mkTxLedger 1 tx_tree_of.1 [11; 12] 3] 0 0.
Definition block2 : LedgerHeader := mkLedgerHeader 102 101 2 [mkTxLedger 0 zero_root [] 0; mkTxLedger 1 zero_root [] 3] 0 0.
Definition fork1 : LedgerHeader := mkLedgerHeader 201 100 1 [mkTxLedger 0 zero_root [] 0; mkTxLedger 1 zero_root [] 0] 0 0.
Definition chain : list LedgerHeader := [genesis; block1; block2].

Definition txs_of (h : LedgerHeader) (ledger : DataLedger) : list DataTransactionHeader :=
  if (lh_block_hash h =? 101) && bool_decide (ledger = Submit) then txs else [].
Definition block_of (h : LedgerHeader) : LedgerBlock := mkLedgerBlock h (txs_of h).

(** The index of some blocks. *)
Fixpoint push_all (db : IndexDb) (blocks : list LedgerBlock) : IndexDb :=
  match blocks with
  | [] => db
  | b :: rest => push_all (match push_block db b 32 with Ok db' => db' | _ => db end) rest
  end.
Definition index_of (hs : list LedgerHeader) : IndexDb := push_all (mkIndexDb ∅ ∅) (block_of <$> hs).

(** The first node has indexed the block with the uploads, the second has it in its tree and
    has indexed the other branch. *)
Definition node1 : PoaView :=
  mkPoaView {[102 := block_of block2]} (index_of [genesis; block1]) {[100 := genesis; 101 := block1]} {[11 := tx1; 12 := tx2]}.
Definition node2 : PoaView :=
  mkPoaView {[101 := block_of block1; 102 := block_of block2]} (index_of [genesis; fork1]) {[100 := genesis]} ∅.

Definition assignment : PartitionAssignment := mkAssignment 55 9 (Some Submit) (Some 0%nat).
Definition epoch : EpochSnapshot :=
  set_assignments {[55 := assignment]} ∅ (initial_snapshot (mkEpochConfig 2 10 2 2 None (Some 8) None None) (mkEpochHeader 0 0 0 [] [])).

(** The proof of the second chunk of the first upload, which is not full. *)
Definition second_chunk : list byte := Eval vm_compute in take 32 (drop 32 (concat pieces)).
Definition bare : PoaData := mkPoaData 1 55 None None None None.
Definition entropy : list byte := Eval vm_compute in match poa_entropy config bare 9 with Ok e => e | _ => [] end.
Definition packed : list byte := Eval vm_compute in match packing_xor_vec_u8 entropy second_chunk with Ok b => b | _ => [] end.
Definition tx_proof : Proof_ := Eval vm_compute in default (mkProof 0 []) (tx_tree_of.2 !! 0%nat).
Definition data_proof : Proof_ := Eval vm_compute in default (mkProof 0 []) (dt_proofs upload1 !! 1%nat).
Definition poa : PoaData := mkPoaData 1 55 (Some packed) (Some 1) (Some (proof tx_proof)) (Some (proof data_proof)).

Example poa_accepted : poa_is_valid node1 config poa 102 2 epoch 9 3 = Ok ().
Proof. vm_compute. reflexivity. Qed.

(** ** The index *)

Ltac each_ledger l := destruct l; vm_compute; try done; try lia.
Ltac each_block i Hi := destruct i as [|[|[|i]]]; cbn in Hi; simplify_eq/=.

(** The steps of the conditions that compute. *)
Ltac extends_tac :=
  split;
  [ done | done
  | intros dl Hdl; repeat (apply elem_of_cons in Hdl as [->|Hdl]; [vm_compute; by eexists|]); by apply elem_of_nil in Hdl
  | apply (bool_decide_unpack _); vm_compute; done
  | intros prev [] [= <-] Hsome; try (by vm_compute in Hsome; destruct Hsome);
    first [by eexists (mkTxLedger 0 _ _ _); split; [left|] | by eexists (mkTxLedger 1 _ _ _); split; [right; left|]]
  | intros []; apply (bool_decide_unpack _); vm_compute; done
  | intros []; vm_compute; done ].

Lemma genesis_extends : extends [] 32 (block_of genesis).
Proof. extends_tac. Qed.
Definition genesis_items : list BlockIndexItem := [pushed_item 32 None (block_of genesis)].
Lemma block1_extends : extends genesis_items 32 (block_of block1).
Proof. extends_tac. Qed.
Lemma fork1_extends : extends genesis_items 32 (block_of fork1).
Proof. extends_tac. Qed.

Lemma genesis_indexed : indexed 32 (index_of [genesis]) genesis_items [block_of genesis].
Proof. apply (indexed_push 32 (mkIndexDb ∅ ∅) [] []); [constructor|apply genesis_extends|vm_compute; reflexivity]. Qed.
Lemma chain_indexed : indexed 32 (index_of [genesis; block1]) (genesis_items ++ [pushed_item 32 (last genesis_items) (block_of block1)])
  [block_of genesis; block_of block1].
Proof. eapply (indexed_push 32 _ genesis_items [block_of genesis]); [apply genesis_indexed|apply block1_extends|vm_compute; reflexivity]. Qed.
Lemma fork_indexed : indexed 32 (index_of [genesis; fork1]) (genesis_items ++ [pushed_item 32 (last genesis_items) (block_of fork1)])
  [block_of genesis; block_of fork1].
Proof. eapply (indexed_push 32 _ genesis_items [block_of genesis]); [apply genesis_indexed|apply fork1_extends|vm_compute; reflexivity]. Qed.

Definition chain_items : list BlockIndexItem :=
  Eval vm_compute in genesis_items ++ [pushed_item 32 (last genesis_items) (block_of block1)].
Lemma block2_extends : extends chain_items 32 (block_of block2).
Proof. extends_tac. Qed.

Lemma index_lookup_exact_witness :
  (∃ db', push_block (index_of [genesis; block1]) (block_of block2) 32 = Ok db') ∧
  ∃ h b, (h ≤ 1)%nat ∧ [block_of genesis; block_of block1] !! h = Some b ∧
    block_bounds_at_height_in_tx (index_of [genesis; block1]) Submit 2 1 =
      Ok (mkBlockBounds (Z.of_nat h) (lh_block_hash (lb_header b)) Submit (ledger_size 32 Submit (take h [block_of genesis; block_of block1]))
            (ledger_size 32 Submit (take (S h) [block_of genesis; block_of block1])) tx_tree_of.1) ∧
    ledger_size 32 Submit (take h [block_of genesis; block_of block1]) ≤ 2.
Proof.
  destruct (index_lookup_exact 32 ltac:(lia) _ _ _ chain_indexed ltac:(cbn; lia)) as [Hpush Hlook]. split.
  - apply Hpush. exact block2_extends.
  - specialize (Hlook Submit 2 1%nat (block_of block1) eq_refl ltac:(lia)).
    assert (Hok : block_bounds_at_height_in_tx (index_of [genesis; block1]) Submit 2 1 = Ok (mkBlockBounds 1 101 Submit 0 3 tx_tree_of.1)) by (vm_compute; reflexivity).
    change (Z.of_nat 1) with 1 in Hlook. rewrite Hok in Hlook. destruct Hlook as (h & b & dl & Hh & Hb & _ & _ & Heq & Hle & _).
    exists h, b. split_and!; [done|done| |done]. rewrite Hok. f_equal. rewrite Heq. f_equal. by injection Heq.
Defined.

(** ** The nodes *)

Ltac chain_tac :=
  split;
  [ intros i h Hi; each_block i Hi; done
  | intros i a b Ha Hb; each_block i Ha; done
  | intros i h Hi; each_block i Hi; apply (bool_decide_unpack _); vm_compute; done
  | intros [] i a b Ha Hb; each_block i Ha; vm_compute; done
  | vm_compute; done ].

Lemma poa_chain_good : chain_ok chain.
Proof. chain_tac. Qed.
Lemma poa_canon_good : chain_ok [genesis; block1].
Proof. chain_tac. Qed.
Lemma fork_good : chain_ok [genesis; fork1].
Proof. chain_tac. Qed.

Ltac sizes_tac :=
  let i := fresh "i" in let Hi := fresh "Hi" in let Hdl := fresh "Hdl" in let Hl := fresh "Hl" in
  intros i b dl ledger Hi Hdl Hl; each_block i Hi;
  repeat (apply elem_of_cons in Hdl as [->|Hdl]; [vm_compute in Hl; injection Hl as <-; vm_compute; done|]); by apply elem_of_nil in Hdl.

Lemma node1_index : index_ok (v_index node1) (header_item <$> [genesis; block1]).
Proof. apply (indexed_headers 32 _ _ _ ltac:(lia) chain_indexed). sizes_tac. Qed.
Lemma node2_index : index_ok (v_index node2) (header_item <$> [genesis; fork1]).
Proof. apply (indexed_headers 32 _ _ _ ltac:(lia) fork_indexed). sizes_tac. Qed.

Lemma chain_elems (P : LedgerHeader → Prop) : P genesis → P block1 → P block2 → ∀ h, h ∈ chain → P h.
Proof. intros ??? h [->|[->|[->|[]%elem_of_nil]%elem_of_cons]%elem_of_cons]%elem_of_cons; done. Qed.

Ltac setting_tac index canon :=
  split;
  [ split;
    [ apply index | apply canon | apply poa_chain_good
    | intros h b Hh; revert h Hh b; apply (chain_elems (λ h, ∀ b, _ → _)); intros b [= <-]; done
    | intros h c Hh; revert h Hh c; apply (chain_elems (λ h, ∀ c, _ → _ → _)); intros c Hc; set_unfold in Hc; naive_solver ]
  | intros h ledger Hh; revert h Hh ledger; apply (chain_elems (λ h, ∀ l, _ → _));
    intros [] [dl Hdl]; try discriminate Hdl; unfold reads_txs; cbn; try done;
    (eexists; split_and!; [done|done|repeat constructor])
  | intros h ledger Hh; revert h Hh ledger; apply (chain_elems (λ h, ∀ l, _)); intros []; repeat constructor; done ].

Lemma node1_setting : poa_setting node1 [genesis; block1] chain txs_of.
Proof. setting_tac node1_index poa_canon_good. Qed.
Lemma node2_setting : poa_setting node2 [genesis; fork1] chain txs_of.
Proof. setting_tac node2_index fork_good. Qed.

Lemma both_cover h : h ∈ chain → covered node1 h ∧ covered node2 h.
Proof. revert h. apply chain_elems; apply (bool_decide_unpack _); vm_compute; done. Qed.

Lemma block2_in : block2 ∈ chain.
Proof. do 2 right. left. Qed.

Lemma commits : chain_commits 32 chain txs_of.
Proof.
  split.
  - intros h ledger dl Hh. revert h Hh ledger dl. apply (chain_elems (λ h, ∀ l dl, _ → _)); intros [] dl [= <-]; vm_compute; done.
  - intros r h ledger dl Hr Hdl. each_block r Hr; destruct ledger; try discriminate Hdl; injection Hdl as <-; vm_compute; done.
  - intros h ledger Hh. revert h Hh ledger. apply (chain_elems (λ h, ∀ l, _)); intros []; (split; [repeat constructor|vm_compute]; done).
Qed.

(** ** The theorems *)

Lemma poa_shows_storage_witness :
  poa_is_valid node2 config poa 102 2 epoch 9 3 = Ok () ∧
  ∃ ledger off bb, poa_ledger_id poa = Some (ledger_id ledger) ∧ poa_ledger_chunk_offset config poa epoch = Ok off ∧
    chain_owner ledger off chain = Some bb.
Proof.
  assert (Hv : poa_is_valid node2 config poa 102 2 epoch 9 3 = Ok ()) by (vm_compute; reflexivity). split; [exact Hv|].
  destruct (poa_shows_storage node2 config [genesis; fork1] chain txs_of 1 poa 2 block2 epoch 9 3 node2_setting ltac:(lia) eq_refl
    ltac:(done) ltac:(done) eq_refl (proj2 (both_cover block2 block2_in)) eq_refl Hv) as (ledger & off & bb & r & h & j & tx & bytes & Hid & _ & _ & Hoff & Ho & _).
  exists ledger, off, bb. split; [exact Hid|]. split; [exact Hoff|exact Ho].
Defined.

Lemma poa_verdict_agrees_witness :
  poa_is_valid node1 config poa 102 2 epoch 9 3 = poa_is_valid node2 config poa 102 2 epoch 9 3.
Proof.
  apply (poa_verdict_agrees node1 node2 config [genesis; block1] [genesis; fork1] chain txs_of poa 2 block2 epoch 9 3);
    [exact node1_setting|exact node2_setting|vm_compute; discriminate|vm_compute; discriminate|reflexivity|exact both_cover].
Defined.

Lemma honest_poa_accepted_witness : poa_is_valid node1 config poa 102 2 epoch 9 3 = Ok ().
Proof.
  destruct (honest_poa_accepted node1 config [genesis; block1] chain txs_of 1 poa 2 block2 epoch 9 3 Submit assignment 0 1 (3, zero_root)
    node1_setting commits ltac:(lia) eq_refl eq_refl ltac:(intros h Hh; apply both_cover, Hh) eq_refl eq_refl eq_refl eq_refl ltac:(done) ltac:(done) eq_refl
    ltac:(done) eq_refl ltac:(done)) as (bb & r & h & j & tx & Ho & Hr & Hh & [Hj Hk] & Hvalid).
  assert (Hbb : chain_owner Submit 1 (take 3 chain) = Some (mkBlockBounds 1 101 Submit 0 3 tx_tree_of.1)) by (vm_compute; reflexivity).
  rewrite Hbb in Ho. injection Ho as <-. each_block r Hr. cbn in Hj. destruct j as [|[|j]]; [|destruct Hk as [Hk _]; vm_compute in Hk; destruct (Hk eq_refl)|discriminate Hj]. injection Hj as <-.
  refine (Hvalid tx_tree_of.1 tx_tree_of.2 tx_proof 7 pieces true upload1 data_proof second_chunk entropy packed _ _ _ _ _ _ _ _ _ _ _ _ _ _ _ _);
    vm_compute; first [reflexivity|discriminate].
Defined.

(** A proof in the name of another miner, and a chunk with other bytes, are rejected. *)
Example poa_of_another_miner : poa_is_valid node1 config poa 102 2 epoch 8 3 = Err (PoAPartitionNotOwned 55 8 (Some 9)).
Proof. vm_compute. reflexivity. Qed.
Example poa_padding : is_ok (poa_is_valid node1 config (mkPoaData 1 55 (Some (take 31 packed ++ [x00])) (Some 1) (Some (proof tx_proof)) (Some (proof data_proof))) 102 2 epoch 9 3) = false.
Proof. vm_compute. reflexivity. Qed.
End PoaExample.
