(* ===== verification/FeeSplit.v ===== *)
(** How fees and rewards are split ([crates/types/src/transaction/fee_distribution.rs],
    [ConsensusConfig::ingress_proof_reward_pool_at], [crates/actors/src/block_reward.rs] and
    [crates/reward-curve/src/lib.rs]).

    Amounts are [U256]s, as in [Pricing].  The signer of an ingress proof is recovered by a
    cryptographic library: the recovery is an argument. *)

From S2P Require Import Pricing Prelude.

(** The parameters of a block that the splits read. *)
Record Delta : Type := mkDelta {
  delta_activation_timestamp : Z;
  capacity_chunk_reward_percent : Z;
  ingress_proof_reward_pool_percent : Z
}.
Record FeeParams : Type := mkFeeParams {
  immediate_tx_inclusion_reward_percent : Z;
  number_of_ingress_proofs_total : Z;
  hf_delta : option Delta
}.

(** [eyre::Report]s of the splits. *)
Inductive FeeError : Type :=
| FeeArithmetic (e : PriceError)
| RewardLargerThanFee
| FeeSumMismatch
| NoMiners
| DuplicateMiners
| NoProofs
| DistributionMismatch
| PermFeeInsufficient
| PermFeeWithoutStorage
| SignerNotRecovered.

Definition price {A} (r : result PriceError A) : result FeeError A := map_err FeeArithmetic r.

(** [delta_for_block]: by the block's own timestamp. *)
Definition delta_for_block (p : FeeParams) (timestamp : Z) : option Delta :=
  match hf_delta p with
  | Some d => if delta_activation_timestamp d <=? timestamp then Some d else None
  | None => None
  end.

(** ** Term fees *)

Record TermFeeCharges : Type := mkTermFeeCharges { block_producer_reward : Z; term_fee_treasury : Z }.

Definition TermFeeCharges_new (term_fee : Z) (p : FeeParams) : result FeeError TermFeeCharges :=
  reward ← price (mul_div term_fee (immediate_tx_inclusion_reward_percent p) PRECISION_SCALE);
  treasury ← ok_or (checked_sub term_fee reward) RewardLargerThanFee;
  _ ← guard_err (negb (saturating_add 256 reward treasury =? term_fee)) FeeSumMismatch;
  Ok (mkTermFeeCharges reward treasury).

(** [amount] in equal shares; the first gets the remainder. *)
Definition base_share (amount : Z) (n : nat) : Z := amount / Z.of_nat n.
Definition remainder (amount : Z) (n : nat) : Z :=
  saturating_sub amount (saturating_mul 256 (base_share amount n) (Z.of_nat n)).

Definition distribution_on_expiry (c : TermFeeCharges) (miners : list Z) : result FeeError (list Z) :=
  let n := length miners in
  _ ← guard_err (bool_decide (miners = [])) NoMiners;
  _ ← guard_err (negb (length (remove_dups miners) =? n)%nat) DuplicateMiners;
  let base := base_share (term_fee_treasury c) n in
  let rem := remainder (term_fee_treasury c) n in
  let rewards := replicate n base in
  rewards ← (if 0 <? rem then
               first ← expect (head rewards);
               Ok (saturating_add 256 first rem :: tail rewards)
             else Ok rewards);
  let total := foldl (saturating_add 256) 0 rewards in
  _ ← guard_err (negb (total =? term_fee_treasury c)) DistributionMismatch;
  Ok rewards.

(** ** Permanent fees *)

Record PublishFeeCharges : Type := mkPublishFeeCharges { ingress_proof_reward : Z; perm_fee_treasury : Z }.
Record FeeCharge : Type := mkFeeCharge { fc_address : Z; fc_amount : Z }.

Definition ingress_proof_reward_pool_at (p : FeeParams) (timestamp term_fee : Z) : result FeeError Z :=
  match delta_for_block p timestamp with
  | Some delta => price (mul_div term_fee (ingress_proof_reward_pool_percent delta) PRECISION_SCALE)
  | None =>
      share ← price (mul_div term_fee (immediate_tx_inclusion_reward_percent p) PRECISION_SCALE);
      Ok (saturating_mul 256 share (number_of_ingress_proofs_total p))
  end.

Definition PublishFeeCharges_new (perm_fee reward : Z) : result FeeError PublishFeeCharges :=
  _ ← guard_err (perm_fee <? reward) PermFeeInsufficient;
  let treasury := saturating_sub perm_fee reward in
  _ ← guard_err (negb (0 <? treasury)) PermFeeWithoutStorage;
  _ ← guard_err (negb (saturating_add 256 reward treasury =? perm_fee)) FeeSumMismatch;
  Ok (mkPublishFeeCharges reward treasury).

Section Proofs.
  Context {P : Type} (recover_signer : P → option Z).

(** The loop over the proofs, from position [i]. *)
Fixpoint proof_charges (base rem : Z) (i : nat) (proofs : list P) : result FeeError (list FeeCharge) :=
  match proofs with
  | [] => Ok []
  | proof :: rest =>
      address ← ok_or (recover_signer proof) SignerNotRecovered;
      let amount := if (i =? 0)%nat && (0 <? rem) then saturating_add 256 base rem else base in
      charges ← proof_charges base rem (S i) rest;
      Ok (mkFeeCharge address amount :: charges)
  end.

Definition ingress_proof_rewards (c : PublishFeeCharges) (proofs : list P) : result FeeError (list FeeCharge) :=
  let n := length proofs in
  _ ← guard_err (bool_decide (proofs = [])) NoProofs;
  let base := base_share (ingress_proof_reward c) n in
  let rem := remainder (ingress_proof_reward c) n in
  charges ← proof_charges base rem 0 proofs;
  let total := foldl (saturating_add 256) 0 (fc_amount <$> charges) in
  _ ← guard_err (negb (total =? ingress_proof_reward c)) DistributionMismatch;
  Ok charges.
End Proofs.

(** ** Block rewards *)

Record BlockRewardSplit : Type := mkBlockRewardSplit { split_miner : Z; split_treasury : Z }.
Record HalvingCurve : Type := mkHalvingCurve { inflation_cap : Z; half_life_secs : Z }.

Inductive CurveError : Type :=
| CurveArithmetic (e : PriceError)
| TimeGoesBack
| ZeroHalfLife.
Definition curve {A} (r : result PriceError A) : result CurveError A := map_err CurveArithmetic r.

Definition decay_factor (t_secs half_life : Z) : result CurveError Z :=
  _ ← guard_err (half_life =? 0) ZeroHalfLife;
  let q := t_secs / half_life in
  let f_secs := t_secs mod half_life in
  decay_q_fp18 ← (if q =? 0 then Ok TOKEN_SCALE
                  else if 60 <=? q then Ok 0
                  else curve (safe_div TOKEN_SCALE (Z.shiftl 1 q)));
  if (f_secs =? 0) || (decay_q_fp18 =? 0) then Ok decay_q_fp18
  else
    x_fp18 ← curve (mul_div LN2_FP18 f_secs half_life);
    decay_f_fp18 ← curve (exp_neg_fp18 x_fp18);
    curve (mul_div decay_q_fp18 decay_f_fp18 TOKEN_SCALE).

Definition emitted_until (c : HalvingCurve) (t : Z) : result CurveError Z :=
  decay_fp18 ← decay_factor t (half_life_secs c);
  one_minus ← curve (safe_sub TOKEN_SCALE decay_fp18);
  curve (mul_div (inflation_cap c) one_minus TOKEN_SCALE).

Definition reward_between (c : HalvingCurve) (prev_ts new_ts : Z) : result CurveError Z :=
  if new_ts <? prev_ts then Err TimeGoesBack
  else if (prev_ts =? new_ts) || (inflation_cap c =? 0) then Ok 0
  else
    emitted_prev ← emitted_until c prev_ts;
    emitted_new ← emitted_until c new_ts;
    curve (safe_sub emitted_new emitted_prev).

(** The times are [u128]s: a height and a block time of 64 bits do not overflow them. *)
Definition full_block_reward (c : HalvingCurve) (block_time_secs parent_height : Z) : result CurveError Z :=
  let parent_block_secs := parent_height * block_time_secs in
  reward_between c parent_block_secs (parent_block_secs + block_time_secs).

Definition block_emission (c : HalvingCurve) (block_time_secs height : Z) : result CurveError Z :=
  match checked_sub height 1 with
  | None => Ok 0
  | Some parent_height => full_block_reward c block_time_secs parent_height
  end.

Definition split_block_reward (full_reward : Z) (p : FeeParams) (block_timestamp : Z) (is_capacity_poa : bool)
  : result FeeError BlockRewardSplit :=
  match is_capacity_poa, delta_for_block p block_timestamp with
  | true, Some delta =>
      miner ← price (mul_div full_reward (capacity_chunk_reward_percent delta) PRECISION_SCALE);
      treasury ← price (safe_sub full_reward miner);
      Ok (mkBlockRewardSplit miner treasury)
  | _, _ => Ok (mkBlockRewardSplit full_reward 0)
  end.

(** * Facts on the splits of fees and rewards: nothing is lost and nothing is made. *)

Definition u256 (x : Z) : Prop := 0 ≤ x < 2 ^ 256.

Lemma PRECISION_SCALE_pos : 0 < PRECISION_SCALE.
Proof. done. Qed.
Lemma PRECISION_SCALE_ne : PRECISION_SCALE ≠ 0.
Proof. done. Qed.
Lemma TOKEN_SCALE_pos : 0 < TOKEN_SCALE.
Proof. done. Qed.

(** A share of an amount is at most the amount. *)
Lemma share_le x p s : 0 ≤ x → 0 ≤ p ≤ s → 0 < s → 0 ≤ x * p / s ≤ x.
Proof.
  intros Hx Hp Hs. split; [apply Z.div_pos; nia|]. apply Z.div_le_upper_bound; [done|]. nia.
Qed.

Lemma price_ok {A} (r : result PriceError A) a : price r = Ok a ↔ r = Ok a.
Proof. destruct r; cbn; naive_solver. Qed.

(** ** Term fees *)

Lemma TermFeeCharges_ok term_fee p c :
  u256 term_fee → 0 ≤ immediate_tx_inclusion_reward_percent p → TermFeeCharges_new term_fee p = Ok c →
  0 ≤ block_producer_reward c ∧ 0 ≤ term_fee_treasury c ∧ block_producer_reward c + term_fee_treasury c = term_fee.
Proof.
  intros [Hf _] Hp. unfold TermFeeCharges_new. intros (reward & Hr & Hc)%bind_ok. apply price_ok, mul_div_Ok in Hr as [-> _]; [|done].
  apply bind_ok in Hc as (treasury & Ht & Hc).
  assert (checked_sub term_fee (term_fee * immediate_tx_inclusion_reward_percent p / PRECISION_SCALE) = Some treasury) as [-> Hle]%checked_sub_Some
    by (by destruct (checked_sub _ _); [injection Ht as ->|]).
  apply bind_ok in Hc as ([] & _ & [= <-]). cbn. pose proof PRECISION_SCALE_pos. split_and!; [apply Z.div_pos; nia|lia|lia].
Qed.

Lemma TermFeeCharges_total term_fee p :
  u256 term_fee → 0 ≤ immediate_tx_inclusion_reward_percent p ≤ PRECISION_SCALE → term_fee * immediate_tx_inclusion_reward_percent p < 2 ^ 256 →
  ∃ c, TermFeeCharges_new term_fee p = Ok c.
Proof.
  intros [Hf Hf2] Hp Hmul. pose proof (share_le term_fee _ _ Hf Hp PRECISION_SCALE_pos) as Hs. unfold TermFeeCharges_new.
  rewrite (proj2 (price_ok _ _) (proj2 (mul_div_Ok _ _ PRECISION_SCALE _ PRECISION_SCALE_ne) (conj eq_refl Hmul))). res_simpl.
  rewrite (proj2 (checked_sub_Some _ _ _) (conj eq_refl (proj2 Hs))). res_simpl. unfold saturating_add.
  rewrite (proj2 (Z.eqb_eq _ _)) by lia. cbn [negb]. res_simpl. by eexists.
Qed.

(** ** Shares *)

(** The shares of an amount: the first has the remainder. *)
Definition shares (amount : Z) (n : nat) : list Z :=
  match n with O => [] | S m => (base_share amount n + amount mod Z.of_nat n) :: replicate m (base_share amount n) end.

Lemma sum_replicate n x : sum_Z (replicate n x) = Z.of_nat n * x.
Proof. induction n as [|n IH]; [done|]. cbn [replicate]. rewrite sum_Z_cons, IH. lia. Qed.

Lemma shares_sum amount n : (0 < n)%nat → sum_Z (shares amount n) = amount.
Proof.
  destruct n as [|m]; [lia|]. intros _. cbn [shares]. rewrite sum_Z_cons, sum_replicate. unfold base_share.
  pose proof (Z.div_mod amount (Z.of_nat (S m)) ltac:(lia)). lia.
Qed.

Lemma length_shares amount n : length (shares amount n) = n.
Proof. destruct n; [done|]. cbn. by rewrite length_replicate. Qed.

Lemma shares_nonneg amount n : 0 ≤ amount → Forall (λ x, 0 ≤ x) (shares amount n).
Proof.
  intros Ha. destruct n as [|m]; [constructor|]. cbn [shares]. assert (0 ≤ base_share amount (S m)) by (apply Z.div_pos; lia).
  pose proof (Z.mod_pos_bound amount (Z.of_nat (S m)) ltac:(lia)). constructor; [lia|]. by apply Forall_replicate.
Qed.

Lemma remainder_eq amount n : u256 amount → (0 < n)%nat → remainder amount n = amount mod Z.of_nat n.
Proof.
  intros [Ha Ha2] Hn. unfold remainder, base_share, saturating_sub, saturating_mul. pose proof (Z.div_mod amount (Z.of_nat n) ltac:(lia)).
  pose proof (Z.mod_pos_bound amount (Z.of_nat n) ltac:(lia)). nia.
Qed.

(** Sums that fit are not cut. *)
Lemma saturating_sum l acc : Forall (λ x, 0 ≤ x) l → 0 ≤ acc → acc + sum_Z l < 2 ^ 256 → foldl (saturating_add 256) acc l = acc + sum_Z l.
Proof.
  intros Hl. revert acc. induction Hl as [|x l Hx Hl IH]; intros acc Hacc Hsum; cbn [foldl]; [by rewrite Z.add_0_r|].
  rewrite sum_Z_cons in *. pose proof (sum_Z_nonneg l Hl). unfold saturating_add at 2. rewrite Z.min_r by lia. rewrite IH by lia. lia.
Qed.

Lemma shares_saturating amount n : u256 amount → (0 < n)%nat → foldl (saturating_add 256) 0 (shares amount n) = amount.
Proof.
  intros [Ha Ha2] Hn. rewrite saturating_sum; [|by apply shares_nonneg|lia|]; rewrite shares_sum by done; lia.
Qed.

(** The first share, as the code adds the remainder to it. *)
Lemma first_share amount m : u256 amount →
  (if 0 <? remainder amount (S m) then saturating_add 256 (base_share amount (S m)) (remainder amount (S m)) else base_share amount (S m)) =
  base_share amount (S m) + amount mod Z.of_nat (S m).
Proof.
  intros Ha. rewrite remainder_eq by (done || lia). pose proof (Z.mod_pos_bound amount (Z.of_nat (S m)) ltac:(lia)) as Hm.
  destruct (Z.ltb_spec 0 (amount mod Z.of_nat (S m))); [|lia]. unfold saturating_add. apply Z.min_r. destruct Ha as [Ha Ha2].
  unfold base_share. pose proof (Z.div_mod amount (Z.of_nat (S m)) ltac:(lia)). assert (0 ≤ amount / Z.of_nat (S m)) by (apply Z.div_pos; lia). nia.
Qed.

Lemma distribution_eq c miners : u256 (term_fee_treasury c) → miners ≠ [] → NoDup miners →
  distribution_on_expiry c miners = Ok (shares (term_fee_treasury c) (length miners)).
Proof.
  intros Hc Hne Hnd. unfold distribution_on_expiry. rewrite bool_decide_false by done. res_simpl.
  assert (length (remove_dups miners) = length miners) as ->.
  { apply Permutation_length, NoDup_Permutation; [apply NoDup_remove_dups|done|]. intros x. apply elem_of_remove_dups. }
  rewrite Nat.eqb_refl. cbn [negb]. res_simpl. destruct (length miners) as [|m] eqn:Hm; [by destruct miners|].
  pose proof (first_share _ m Hc) as Hfirst. cbn [replicate].
  set (rem := remainder _ _) in *. set (base := base_share _ _) in *.
  assert ((if 0 <? rem then first ← expect (head (base :: replicate m base)); Ok (saturating_add 256 first rem :: tail (base :: replicate m base)) else Ok (base :: replicate m base))
    = (Ok (shares (term_fee_treasury c) (S m)) : result FeeError (list Z))) as ->.
  { cbn [shares]. fold base. rewrite <- Hfirst. destruct (0 <? rem); done. }
  res_simpl. rewrite shares_saturating by (done || lia). by rewrite Z.eqb_refl.
Qed.

(** ** Permanent fees *)

Lemma PublishFeeCharges_ok perm_fee reward c : 0 ≤ reward → perm_fee < 2 ^ 256 →
  PublishFeeCharges_new perm_fee reward = Ok c ↔ reward < perm_fee ∧ c = mkPublishFeeCharges reward (perm_fee - reward).
Proof.
  intros Hr Hp. unfold PublishFeeCharges_new, saturating_sub, saturating_add. destruct (Z.ltb_spec perm_fee reward); res_simpl; [split; [done|lia]|].
  rewrite Z.max_r by lia. destruct (Z.ltb_spec 0 (perm_fee - reward)); cbn [negb]; res_simpl; [|split; [done|lia]].
  rewrite (proj2 (Z.eqb_eq _ _)) by lia. cbn [negb]. res_simpl. split; [intros [= <-]; split; [lia|done]|by intros [_ ->]].
Qed.

Section Proofs.
  Context {P : Type} (recover_signer : P → option Z).

Lemma proof_charges_later base rem i proofs charges : i ≠ 0%nat → proof_charges recover_signer base rem i proofs = Ok charges →
  mapM recover_signer proofs = Some (fc_address <$> charges) ∧ fc_amount <$> charges = replicate (length proofs) base.
Proof.
  revert i charges. induction proofs as [|pf proofs IH]; intros i charges Hi; cbn [proof_charges]; [by intros [= <-]|].
  intros (a & Ha & Hc)%bind_ok. apply bind_ok in Hc as (rest & Hrest & [= <-]).
  assert (recover_signer pf = Some a) as Ha' by (by destruct (recover_signer pf); [injection Ha as ->|]).
  destruct (IH (S i) rest ltac:(lia) Hrest) as [Hs Hm]. cbn [mapM]. rewrite Ha'. cbn. rewrite Hs. destruct i; [done|]. cbn. by rewrite Hm.
Qed.

(** The charges of proofs: the shares of the pool, to the recovered signers. *)
Lemma ingress_proof_rewards_ok c proofs charges : u256 (ingress_proof_reward c) → ingress_proof_rewards recover_signer c proofs = Ok charges →
  proofs ≠ [] ∧ mapM recover_signer proofs = Some (fc_address <$> charges) ∧ fc_amount <$> charges = shares (ingress_proof_reward c) (length proofs).
Proof.
  intros Hc. unfold ingress_proof_rewards. intros ([] & Hne & H)%bind_ok. apply guard_err_ok, bool_decide_eq_false in Hne.
  apply bind_ok in H as (charges' & Hch & H). apply bind_ok in H as ([] & _ & [= <-]). split; [done|]. destruct proofs as [|pf proofs]; [done|].
  cbn [proof_charges] in Hch. apply bind_ok in Hch as (a & Ha & Hch). apply bind_ok in Hch as (rest & Hrest & [= <-]).
  assert (recover_signer pf = Some a) as Ha' by (by destruct (recover_signer pf); [injection Ha as ->|]).
  destruct (proof_charges_later _ _ 1 proofs rest ltac:(done) Hrest) as [Hs Hm]. cbn [mapM]. rewrite Ha'. cbn [mbind option_bind]. rewrite Hs. split; [done|].
  rewrite fmap_cons, Hm. cbn [fc_amount length Nat.eqb andb]. rewrite (first_share _ _ Hc). done.
Qed.
End Proofs.
