(* ===== verification/BTree.v ===== *)
(** Maps ordered by an integer key, as [BTreeMap] iterates them: lists sorted by key. *)

From S2P Require Import Prelude.

Notation BTreeMap A := (list (Z * A)).

Section BTree.
  Context {A : Type}.

Fixpoint btree_get (k : Z) (m : BTreeMap A) : option A :=
  match m with
  | [] => None
  | (k', a) :: rest => if k =? k' then Some a else btree_get k rest
  end.

(** [entry(k)], with what it makes of the present value. *)
Fixpoint btree_update (k : Z) (f : option A → A) (m : BTreeMap A) : BTreeMap A :=
  match m with
  | [] => [(k, f None)]
  | (k', a) :: rest =>
      if k <? k' then (k, f None) :: m
      else if k =? k' then (k, f (Some a)) :: rest
      else (k', a) :: btree_update k f rest
  end.
Definition btree_insert (k : Z) (a : A) : BTreeMap A → BTreeMap A := btree_update k (λ _, a).
Definition btree_or_insert (k : Z) (a : A) : BTreeMap A → BTreeMap A := btree_update k (default a).

Fixpoint btree_remove (k : Z) (m : BTreeMap A) : BTreeMap A :=
  match m with
  | [] => []
  | (k', a) :: rest => if k =? k' then rest else (k', a) :: btree_remove k rest
  end.

Definition btree_extend (m m' : BTreeMap A) : BTreeMap A := foldl (λ m kv, btree_insert kv.1 kv.2 m) m m'.

(** ** Facts *)

Definition btree_ok (m : BTreeMap A) : Prop := StronglySorted Z.lt m.*1.

Lemma btree_ok_cons k a m : btree_ok ((k, a) :: m) ↔ Forall (λ k', k < k') m.*1 ∧ btree_ok m.
Proof.
  unfold btree_ok. rewrite fmap_cons. cbn. split; [intros Hs; by apply StronglySorted_inv in Hs as [? ?]|].
  intros [? ?]. by constructor.
Qed.

Lemma btree_get_None_lt k m : Forall (λ k', k < k') m.*1 → btree_get k m = None.
Proof.
  induction m as [|[k' a] m IH]; [done|]. rewrite fmap_cons. intros [Hk Hm]%Forall_cons. cbn in *.
  destruct (Z.eqb_spec k k'); [lia|by apply IH].
Qed.

Lemma btree_get_elem m k a : btree_ok m → btree_get k m = Some a ↔ (k, a) ∈ m.
Proof.
  induction m as [|[k' a'] m IH]; intros Hok; cbn [btree_get]; [split; [done|by intros ?%elem_of_nil]|].
  apply btree_ok_cons in Hok as [Hlt Hok]. rewrite elem_of_cons. destruct (Z.eqb_spec k k') as [->|Hne].
  - split; [intros [= ->]; by left|]. intros [[= ->]|Hin]; [done|]. exfalso.
    assert (k' ∈ m.*1) as Hk by (apply list_elem_of_fmap; by exists (k', a)). rewrite Forall_forall in Hlt. specialize (Hlt _ Hk). lia.
  - rewrite IH by done. split; [by right|]. by intros [[= -> ->]|].
Qed.

Lemma btree_get_key m k : k ∈ m.*1 → is_Some (btree_get k m).
Proof.
  induction m as [|[k' a] m IH]; [by intros ?%elem_of_nil|]. rewrite fmap_cons, elem_of_cons. cbn [fst btree_get].
  intros [->|Hk]; [rewrite Z.eqb_refl; by eexists|]. destruct (k =? k'); [by eexists|by apply IH].
Qed.

Lemma btree_update_keys k f m x : x ∈ (btree_update k f m).*1 ↔ x = k ∨ x ∈ m.*1.
Proof.
  induction m as [|[k' a] m IH]; cbn [btree_update]; [cbn; set_solver|].
  destruct (Z.ltb_spec k k'); [rewrite !fmap_cons; set_solver|]. destruct (Z.eqb_spec k k') as [->|]; rewrite !fmap_cons; cbn; [set_solver|].
  rewrite !elem_of_cons, IH. tauto.
Qed.

Lemma btree_update_ok k f m : btree_ok m → btree_ok (btree_update k f m).
Proof.
  induction m as [|[k' a] m IH]; intros Hok; cbn [btree_update].
  - apply btree_ok_cons. split; constructor.
  - pose proof Hok as [Hlt Hm]%btree_ok_cons. destruct (Z.ltb_spec k k') as [Hk|Hk].
    + apply btree_ok_cons. split; [|done]. rewrite fmap_cons. constructor; [done|]. eapply Forall_impl; [done|]. cbn. lia.
    + destruct (Z.eqb_spec k k') as [->|Hne]; [by apply btree_ok_cons|]. apply btree_ok_cons. split; [|by apply IH].
      apply Forall_forall. intros x [->|Hx]%btree_update_keys; [lia|]. rewrite Forall_forall in Hlt. by apply Hlt.
Qed.

Lemma btree_get_update m k f x : btree_ok m → btree_get x (btree_update k f m) = if x =? k then Some (f (btree_get k m)) else btree_get x m.
Proof.
  induction m as [|[k' a] m IH]; intros Hok; cbn [btree_update btree_get]; [done|].
  pose proof Hok as [Hlt Hm]%btree_ok_cons. destruct (Z.ltb_spec k k') as [Hk|Hk].
  - destruct (Z.eqb_spec k k'); [lia|]. cbn [btree_get]. destruct (Z.eqb_spec x k); [|done].
    rewrite (btree_get_None_lt k m); [done|]. eapply Forall_impl; [done|]. cbn. lia.
  - destruct (Z.eqb_spec k k') as [->|Hne]; cbn [btree_get]; [by destruct (x =? k')|].
    rewrite IH by done. destruct (Z.eqb_spec x k'), (Z.eqb_spec x k); try lia; done.
Qed.

Lemma btree_get_remove m k x : btree_ok m → btree_get x (btree_remove k m) = if x =? k then None else btree_get x m.
Proof.
  induction m as [|[k' a] m IH]; intros Hok; cbn [btree_remove btree_get]; [by destruct (x =? k)|].
  pose proof Hok as [Hlt Hm]%btree_ok_cons. destruct (Z.eqb_spec k k') as [->|Hne]; cbn [btree_get].
  - destruct (Z.eqb_spec x k') as [Hx|]; [rewrite Hx; by apply btree_get_None_lt|done].
  - rewrite IH by done. destruct (Z.eqb_spec x k'), (Z.eqb_spec x k); try lia; done.
Qed.

Lemma btree_remove_ok k m : btree_ok m → btree_ok (btree_remove k m).
Proof.
  induction m as [|[k' a] m IH]; intros Hok; cbn [btree_remove]; [done|]. pose proof Hok as [Hlt Hm]%btree_ok_cons.
  destruct (Z.eqb_spec k k'); [done|]. apply btree_ok_cons. split; [|by apply IH]. clear -Hlt.
  induction m as [|[x b] m IH]; [constructor|]. rewrite fmap_cons in Hlt. apply Forall_cons in Hlt as [Hx Hm]. cbn [btree_remove].
  destruct (Z.eqb_spec k x); [done|]. rewrite fmap_cons. constructor; [done|by apply IH].
Qed.

Lemma btree_extend_ok m m' : btree_ok m → btree_ok (btree_extend m m').
Proof. unfold btree_extend. revert m. induction m' as [|kv m' IH]; intros m Hm; [done|]. cbn. by apply IH, btree_update_ok. Qed.

Lemma btree_get_extend m m' k : btree_ok m → btree_ok m' → btree_get k (btree_extend m m') = match btree_get k m' with Some a => Some a | None => btree_get k m end.
Proof.
  unfold btree_extend. intros Hm. revert m Hm. induction m' as [|[k' a] m' IH]; intros m Hm Hm'; [done|]. cbn [foldl btree_get].
  apply btree_ok_cons in Hm' as [Hlt Hm']. rewrite IH by (done || by apply btree_update_ok). unfold btree_insert. rewrite btree_get_update by done.
  cbn [fst snd]. destruct (Z.eqb_spec k k') as [->|]; [by rewrite btree_get_None_lt|done].
Qed.

(** Two ordered maps with the same lookups are equal. *)
Lemma btree_ext m m' : btree_ok m → btree_ok m' → (∀ k, btree_get k m = btree_get k m') → m = m'.
Proof.
  revert m'. induction m as [|[k a] m IH]; intros [|[k' a'] m'] Hm Hm' Heq; [done| | |].
  - specialize (Heq k'). cbn in Heq. by rewrite Z.eqb_refl in Heq.
  - specialize (Heq k). cbn in Heq. by rewrite Z.eqb_refl in Heq.
  - apply btree_ok_cons in Hm as [Hlt Hm], Hm' as [Hlt' Hm'].
    assert (k = k') as ->.
    { destruct (Z.lt_trichotomy k k') as [Hk|[|Hk]]; [|done|].
      - specialize (Heq k). cbn in Heq. rewrite Z.eqb_refl in Heq. destruct (Z.eqb_spec k k'); [lia|].
        rewrite btree_get_None_lt in Heq; [done|]. eapply Forall_impl; [done|]. cbn. lia.
      - specialize (Heq k'). cbn in Heq. rewrite Z.eqb_refl in Heq. destruct (Z.eqb_spec k' k); [lia|].
        rewrite btree_get_None_lt in Heq; [done|]. eapply Forall_impl; [done|]. cbn. lia. }
    pose proof (Heq k') as Hk. cbn in Hk. rewrite Z.eqb_refl in Hk. injection Hk as ->. f_equal. apply IH; [done..|].
    intros x. specialize (Heq x). cbn in Heq. destruct (Z.eqb_spec x k') as [Hx|]; [|done]. by rewrite Hx, !btree_get_None_lt.
Qed.
End BTree.

(** The total of a measure of the values. *)
Definition btree_sum {A} (g : A → Z) (m : BTreeMap A) : Z := sum_Z (g ∘ snd <$> m).

Lemma btree_sum_update {A} (g : A → Z) k f m :
  btree_ok m → btree_sum g (btree_update k f m) = btree_sum g m - default 0 (g <$> btree_get k m) + g (f (btree_get k m)).
Proof.
  unfold btree_sum. induction m as [|[k' a] m IH]; intros Hok; cbn [btree_update btree_get]; [cbn; lia|].
  pose proof Hok as [Hlt Hm]%btree_ok_cons. destruct (Z.ltb_spec k k') as [Hk|Hk].
  - destruct (Z.eqb_spec k k'); [lia|]. rewrite (btree_get_None_lt k m) by (eapply Forall_impl; [done|]; cbn; lia).
    rewrite !fmap_cons, !sum_Z_cons. cbn. lia.
  - destruct (Z.eqb_spec k k') as [->|Hne]; rewrite !fmap_cons, !sum_Z_cons; cbn; [lia|]. unfold compose in *. rewrite IH by done. lia.
Qed.

(** Ordered maps with the same keys. *)
Lemma btree_keys_eq {A B} (m : BTreeMap A) (m' : BTreeMap B) :
  btree_ok m → btree_ok m' → (∀ k, is_Some (btree_get k m) ↔ is_Some (btree_get k m')) → m.*1 = m'.*1.
Proof.
  intros Hm Hm' Hk. pose (unit_map := λ C (x : BTreeMap C), (λ kv : Z * C, (kv.1, ())) <$> x).
  assert (Hkeys : ∀ C (x : BTreeMap C), (unit_map C x).*1 = x.*1) by (intros; unfold unit_map; by rewrite <- list_fmap_compose).
  assert (Hget : ∀ C (x : BTreeMap C) k, btree_get k (unit_map C x) = (λ _, ()) <$> btree_get k x).
  { intros C x k. induction x as [|[k' c] x IH]; [done|]. cbn. by destruct (k =? k'). }
  rewrite <- (Hkeys A m), <- (Hkeys B m'). f_equal. apply btree_ext; [unfold btree_ok; by rewrite Hkeys..|].
  intros k. rewrite !Hget. specialize (Hk k). destruct (btree_get k m), (btree_get k m'); [done|..|done].
  - destruct (proj1 Hk) as [? ?]; [by eexists|done].
  - destruct (proj2 Hk) as [? ?]; [by eexists|done].
Qed.

(** Maps built from the elements of a list. *)
Section Of.
  Context {X A : Type} (key : X → Z) (val : X → A).

Definition btree_of (l : list X) (m : BTreeMap A) : BTreeMap A := foldl (λ m x, btree_insert (key x) (val x) m) m l.
Definition functional (l : list X) : Prop := ∀ x y, x ∈ l → y ∈ l → key x = key y → val x = val y.

Lemma btree_of_ok l m : btree_ok m → btree_ok (btree_of l m).
Proof. revert m. induction l as [|x l IH]; intros m Hm; [done|]. cbn. by apply IH, btree_update_ok. Qed.

Lemma btree_get_of l m k a : btree_ok m → functional l →
  btree_get k (btree_of l m) = Some a ↔ (∃ x, x ∈ l ∧ key x = k ∧ val x = a) ∨ (k ∉ key <$> l ∧ btree_get k m = Some a).
Proof.
  revert m. induction l as [|x l IH]; intros m Hm Hf.
  - cbn. split; [intros Ha; right; split; [apply not_elem_of_nil|done]|]. by intros [(? & ?%elem_of_nil & _)|[_ ?]].
  - cbn [btree_of foldl]. fold (btree_of l (btree_insert (key x) (val x) m)).
    assert (functional l) as Hfl by (intros y z Hy Hz; apply Hf; by right). rewrite IH by (done || by apply btree_update_ok). unfold btree_insert. rewrite btree_get_update by done.
    rewrite fmap_cons, not_elem_of_cons. destruct (Z.eqb_spec k (key x)) as [->|Hne].
    + split; [intros [(y & Hy & Hk & <-)|[_ [= <-]]]; left; [exists y; split_and!; [by right|done..]|exists x; split_and!; [by left|done..]]|].
      intros [(y & [->|Hy]%elem_of_cons & Hk & <-)|[[[] _] _]]; [|left; by exists y|done].
      destruct (decide (key x ∈ key <$> l)) as [(z & Hz & Hin)%list_elem_of_fmap|Hn]; [|right; done].
      left. exists z. split_and!; [done|by rewrite Hz|]. apply Hf; [by right|by left|by rewrite Hz].
    + split; [intros [(y & Hy & Hk & <-)|[Hn Hg]]; [left; exists y; split_and!; [by right|done..]|by right]|].
      intros [(y & [->|Hy]%elem_of_cons & Hk & <-)|[[_ Hn] Hg]]; [done|left; by exists y|by right].
Qed.

Lemma btree_get_of_nil l k a : functional l → btree_get k (btree_of l []) = Some a ↔ ∃ x, x ∈ l ∧ key x = k ∧ val x = a.
Proof.
  intros Hf. rewrite btree_get_of by (done || constructor). split; [|by left]. by intros [?|[_ ?]].
Qed.

Lemma btree_of_keys l k : functional l → is_Some (btree_get k (btree_of l [])) ↔ k ∈ key <$> l.
Proof.
  intros Hf. rewrite list_elem_of_fmap. split.
  - intros [a (x & Hx & <- & _)%btree_get_of_nil]; [by exists x|done].
  - intros (x & -> & Hx). exists (val x). apply btree_get_of_nil; [done|]. by exists x.
Qed.

(** Only the elements matter. *)
Lemma btree_of_elements l l' : functional l → (∀ x, x ∈ l ↔ x ∈ l') → btree_of l [] = btree_of l' [].
Proof.
  intros Hf Heq. assert (functional l') as Hf' by (intros x y Hx%Heq Hy%Heq; by apply Hf).
  apply btree_ext; [apply btree_of_ok; constructor..|]. intros k. apply option_eq. intros a. rewrite !btree_get_of_nil by done.
  split; intros (x & Hx%Heq & Hk); by exists x.
Qed.

Lemma btree_extend_of l l' : functional (l ++ l') → btree_extend (btree_of l []) (btree_of l' []) = btree_of (l ++ l') [].
Proof.
  intros Hf. assert (functional l ∧ functional l') as [Hl Hl'] by (split; intros x y Hx Hy; apply Hf; set_solver).
  assert (∀ l : list X, btree_ok (btree_of l [])) as Hok by (intros; apply btree_of_ok; constructor).
  apply btree_ext; [by apply btree_extend_ok, Hok|by apply Hok|]. intros k. rewrite btree_get_extend by (by apply Hok). apply option_eq. intros a.
  rewrite (btree_get_of_nil (l ++ l')) by done. destruct (btree_get k (btree_of l' [])) as [b|] eqn:Hb.
  - pose proof Hb as (y & Hy & Hk & <-)%btree_get_of_nil; [|done]. split; [intros [= <-]; exists y; split_and!; [apply elem_of_app; by right|done..]|].
    intros (x & Hx & Hkx & <-). f_equal. apply Hf; [apply elem_of_app; by right|done|congruence].
  - rewrite btree_get_of_nil by done. split; intros (x & Hx & Hkx & <-).
    + exists x. split_and!; [apply elem_of_app; by left|done..].
    + apply elem_of_app in Hx as [Hx|Hx]; [by exists x|]. assert (is_Some (btree_get k (btree_of l' []))) as [? ?]; [|congruence].
      apply btree_of_keys; [done|]. rewrite <- Hkx. by apply list_elem_of_fmap_2.
Qed.
End Of.
