(* ===== verification/ExpiryWalk.v ===== *)
(** The walk over expired ledger slots ([crates/actors/src/block_producer/ledger_expiry.rs]):
    which blocks and transactions the expired slots hold, and the miners of each.

    A node reads what [Poa] reads, and the metadata tables.  Transactions outside the block
    tree are read by id, from the mempool or the database.  Loops over chunks and ancestors
    have the distance to go as fuel. *)

From S2P Require Import TreeHash StateErr Packing Merkle DataLedger EpochSnapshot EpochInv LedgerExpiry BlockIndex BlockIndexFacts IndexFile Poa Pricing FeeSplit BTree Prelude.

Record ExpiryView : Type := mkExpiryView {
  ev_view :> PoaView;
  ev_included : gmap Z Z;
  ev_promoted : gmap Z Z
}.

Inductive ExpiryError : Type :=
| IndexLookup (e : BlockBoundsError)
| NonCanonicalAncestor (height hash : Z)
| PredecessorNotIndexed
| NonAdvancingProbe
| BlockNotFound (hash : Z)
| LedgerRequired (hash : Z)
| BodyMismatch (hash : Z)
| TxMissing (id : Z)
| ZeroChunkSize
| ZeroPartitionChunks
| NonExpiredSlot (id slot : Z)
| AttributedTxHeadersMismatch
| AncestorMissing (hash : Z)
| MetadataInconsistent (height : Z)
| HeightNotIndexed (height : Z)
| ExpiredPartitions (e : EpochSnapshotError)
| ExpiredRange (e : EpochSnapshotError + ExpiredRangeError)
| PartitionNotAssigned
| MissingMinerList (id : Z)
| MissingPermFee (id : Z)
| ExpiryFee (e : FeeError).

Record WalkConfig : Type := mkWalkConfig {
  wc_epoch : EpochConfig;
  wc_chunk_size : Z;
  wc_tx_anchor_expiry_depth : Z;
  wc_block_tree_depth : Z;
  wc_fees : FeeParams
}.
Definition wc_num_chunks_in_partition (c : WalkConfig) : Z := ec_num_chunks_in_partition (wc_epoch c).

(** [IrysBlockHeader::ledger_total_chunks]. *)
Definition lh_total_chunks (h : LedgerHeader) (ledger : DataLedger) : Z :=
  default 0 (tl_total_chunks <$> ledger_of_header h ledger).

Section ExpiryWalk.
  Context `{DupSort} (v : ExpiryView) (config : WalkConfig).

(** ** The block of a chunk *)

Definition get_block (hash : Z) : option LedgerHeader := lb_header <$> v_tree v !! hash.

Definition is_canonical_at (hash height : Z) : bool := bool_decide (migrated_hashes (v_index v) !! height = Some hash).

Definition ledger_total_of_index_item (item : BlockIndexItem) (ledger : DataLedger) : Z := default 0 (ledger_total ledger item).

Definition assert_canonical_via_mbh (hash height : Z) : result ExpiryError () :=
  guard_err (negb (is_canonical_at hash height)) (NonCanonicalAncestor height hash).

Definition resolve_offset_via_index (ledger : DataLedger) (offset : Z) : result ExpiryError (Z * Z * Z * Z) :=
  bounds ← map_err IndexLookup (block_bounds_in_tx (v_index v) ledger offset);
  Ok (bb_height bounds, bb_block_hash bounds, start_chunk_offset bounds, end_chunk_offset bounds).

(** The total of a ledger before a block of the tree. *)
Definition tail_prev_total (ledger : DataLedger) (header : LedgerHeader) : result ExpiryError Z :=
  if lh_height header =? 0 then Ok 0
  else match get_block (lh_previous_block_hash header) with
       | Some prev => Ok (lh_total_chunks prev ledger)
       | None =>
           let prev_height := lh_height header - 1 in
           _ ← assert_canonical_via_mbh (lh_previous_block_hash header) prev_height;
           ok_or ((λ i, ledger_total_of_index_item i ledger) <$> get_item (v_index v) prev_height) PredecessorNotIndexed
       end.

(** The walk through the tree; [None] when it leaves the tree. *)
Fixpoint walk_tail (fuel : nat) (ledger : DataLedger) (offset cursor : Z) : result ExpiryError (option (Z * Z * Z * Z)) :=
  match get_block cursor with
  | None => Ok None
  | Some header =>
      let total := lh_total_chunks header ledger in
      prev_total ← tail_prev_total ledger header;
      if (prev_total <=? offset) && (offset <? total) then Ok (Some (lh_height header, cursor, prev_total, total))
      else match fuel with
           | O => Panic
           | S fuel' => walk_tail fuel' ledger offset (lh_previous_block_hash header)
           end
  end.

(** Enough fuel for a walk down from a block of the tree. *)
Definition ancestry_fuel (hash : Z) : nat := match get_block hash with Some h => S (Z.to_nat (lh_height h)) | None => 0 end.

Definition resolve_ledger_offset_to_block (offset parent_hash : Z) (ledger : DataLedger) : result ExpiryError (Z * Z * Z * Z) :=
  let index_tip_total := default 0 ((λ i, ledger_total_of_index_item i ledger) <$> get_latest_item (v_index v)) in
  if offset <? index_tip_total then resolve_offset_via_index ledger offset
  else
    found ← walk_tail (ancestry_fuel parent_hash) ledger offset parent_hash;
    match found with
    | Some r => Ok r
    | None => resolve_offset_via_index ledger offset
    end.

(** ** The blocks of the expired slots *)

Definition compute_chunk_range (slot chunks_per_partition max_offset : Z) : Z * Z :=
  let start := Z.min (saturating_mul 64 slot chunks_per_partition) max_offset in
  let stop := Z.min (saturating_add 64 start chunks_per_partition) max_offset in
  (start, stop).

(** What the probes have found: the base of each block, and the first and last block as
    height, hash and base. *)
Record RangeState : Type := mkRangeState {
  block_bases : BTreeMap Z;
  min_height : option (Z * Z * Z);
  max_height : option (Z * Z * Z)
}.

Definition record_block (st : RangeState) (height hash base : Z) : RangeState :=
  mkRangeState
    (btree_or_insert hash base (block_bases st))
    (if match min_height st with Some (h, _, _) => height <? h | None => true end then Some (height, hash, base) else min_height st)
    (if match max_height st with Some (h, _, _) => h <? height | None => true end then Some (height, hash, base) else max_height st).

(** The loop [while chunk_offset < end]; the distance to the end is enough fuel. *)
Fixpoint probe_range (fuel : nat) (ledger : DataLedger) (parent_hash chunk_offset stop : Z) (st : RangeState) : result ExpiryError RangeState :=
  if chunk_offset <? stop then
    r ← resolve_ledger_offset_to_block chunk_offset parent_hash ledger;
    let '(height, hash, base, total) := (r : Z * Z * Z * Z) in
    let st := record_block st height hash base in
    _ ← guard_err (negb (chunk_offset <? total)) NonAdvancingProbe;
    match fuel with
    | O => Panic
    | S fuel' => probe_range fuel' ledger parent_hash (Z.min total stop) stop st
    end
  else Ok st.

(** The loop over the slots, with the union of their ranges. *)
Fixpoint probe_slots (ledger : DataLedger) (parent_hash max_offset : Z) (slots : list Z) (st : RangeState) (span : option (Z * Z))
  : result ExpiryError (RangeState * option (Z * Z)) :=
  match slots with
  | [] => Ok (st, span)
  | slot :: rest =>
      let '(start, stop) := compute_chunk_range slot (wc_num_chunks_in_partition config) max_offset in
      let span := match span with None => Some (start, stop) | Some (s, e) => Some (Z.min s start, Z.max e stop) end in
      st ← probe_range (Z.to_nat (stop - start)) ledger parent_hash start stop st;
      probe_slots ledger parent_hash max_offset rest st span
  end.

Record BoundaryBlock : Type := mkBoundaryBlock { bd_height : Z; bd_block_hash : Z; bd_base : Z; bd_range : Z * Z }.
Record BlockRange : Type := mkBlockRange {
  min_block : BoundaryBlock;
  max_block : BoundaryBlock;
  middle_blocks : BTreeMap Z;
  slot_miners : BTreeMap (list Z)
}.

Definition find_block_range (expired_slots : BTreeMap (list Z)) (ledger : DataLedger) (parent_total_chunks parent_hash : Z)
  : result ExpiryError (option BlockRange) :=
  r ← probe_slots ledger parent_hash parent_total_chunks expired_slots.*1 (mkRangeState [] None None) None;
  let '(st, span) := (r : RangeState * option (Z * Z)) in
  match min_height st, max_height st with
  | None, None => Ok None
  | _, _ =>
      mn ← expect (min_height st);
      mx ← expect (max_height st);
      range ← expect span;
      let '(min_h, min_hash, min_base) := (mn : Z * Z * Z) in
      let '(max_h, max_hash, max_base) := (mx : Z * Z * Z) in
      Ok (Some (mkBlockRange (mkBoundaryBlock min_h min_hash min_base range) (mkBoundaryBlock max_h max_hash max_base range)
                  (btree_remove max_hash (btree_remove min_hash (block_bases st))) expired_slots))
  end.

(** ** The transactions of the expired slots *)

Definition ledger_tx_headers_of_sealed_block (b : LedgerBlock) (ledger : DataLedger) : result ExpiryError (list DataTransactionHeader) :=
  tx_ids ← ok_or (ledger_tx_ids_in (lb_header b) ledger) (LedgerRequired (lh_block_hash (lb_header b)));
  let txs := lb_ledger_txs b ledger in
  _ ← guard_err (negb (bool_decide (th_id <$> txs = tx_ids))) (BodyMismatch (lh_block_hash (lb_header b)));
  Ok txs.

Definition ledger_tx_headers_of_block (hash : Z) (ledger : DataLedger) : result ExpiryError (list DataTransactionHeader) :=
  match v_tree v !! hash with
  | Some sealed => ledger_tx_headers_of_sealed_block sealed ledger
  | None =>
      block ← ok_or (v_headers v !! hash) (BlockNotFound hash);
      tx_ids ← ok_or (ledger_tx_ids_in block ledger) (LedgerRequired hash);
      mapM (λ id, ok_or (v_txs v !! id) (TxMissing id)) tx_ids
  end.

(** The loop of [filter_transactions_by_chunk_range]. *)
Fixpoint filter_txs (range : Z * Z) (is_earliest is_latest : bool) (slots : BTreeMap (list Z)) (current_offset : Z)
    (txs : list DataTransactionHeader) (acc : BTreeMap (list Z)) : result ExpiryError (BTreeMap (list Z)) :=
  match txs with
  | [] => Ok acc
  | tx :: rest =>
      let chunks := div_ceil (th_data_size tx) (wc_chunk_size config) in
      let tx_start := current_offset in
      let tx_end := saturating_add 64 current_offset chunks in
      if is_earliest && (tx_start <? range.1) then filter_txs range is_earliest is_latest slots tx_end rest acc
      else if is_latest && (range.2 <=? tx_start) then Ok acc
      else
        let slot := tx_start / wc_num_chunks_in_partition config in
        miners ← ok_or (btree_get slot slots) (NonExpiredSlot (th_id tx) slot);
        filter_txs range is_earliest is_latest slots tx_end rest (btree_insert (th_id tx) miners acc)
  end.
Definition filter_transactions_by_chunk_range (txs : list DataTransactionHeader) (prev_max_offset : Z) (range : Z * Z)
    (is_earliest is_latest : bool) (slots : BTreeMap (list Z)) : result ExpiryError (BTreeMap (list Z)) :=
  _ ← guard_err (wc_chunk_size config =? 0) ZeroChunkSize;
  _ ← guard_err (wc_num_chunks_in_partition config =? 0) ZeroPartitionChunks;
  filter_txs range is_earliest is_latest slots prev_max_offset txs [].

(** The attributed transactions of a block. *)
Definition process_block (hash base : Z) (range : Z * Z) (is_earliest is_latest : bool) (ledger : DataLedger) (slots : BTreeMap (list Z))
  : result ExpiryError (BTreeMap (list Z) * list DataTransactionHeader) :=
  txs ← ledger_tx_headers_of_block hash ledger;
  filtered ← filter_transactions_by_chunk_range txs base range is_earliest is_latest slots;
  Ok (filtered, filter (λ tx, is_Some (btree_get (th_id tx) filtered)) txs).

Definition process_boundary_block (b : BoundaryBlock) : bool → bool → DataLedger → BTreeMap (list Z) →
  result ExpiryError (BTreeMap (list Z) * list DataTransactionHeader) := process_block (bd_block_hash b) (bd_base b) (bd_range b).

(** The loop of [process_middle_blocks]. *)
Fixpoint process_middle_blocks (middle : BTreeMap Z) (range : Z * Z) (ledger : DataLedger) (slots : BTreeMap (list Z))
    (acc : BTreeMap (list Z) * list DataTransactionHeader) : result ExpiryError (BTreeMap (list Z) * list DataTransactionHeader) :=
  match middle with
  | [] => Ok acc
  | (hash, base) :: rest =>
      r ← process_block hash base range false false ledger slots;
      process_middle_blocks rest range ledger slots (btree_extend acc.1 r.1, acc.2 ++ r.2)
  end.

Definition by_id (txs : list DataTransactionHeader) : BTreeMap DataTransactionHeader :=
  foldl (λ m tx, btree_insert (th_id tx) tx m) [] txs.

Definition collect_tx_to_miners_from_range (r : BlockRange) (ledger : DataLedger)
  : result ExpiryError (BTreeMap (list Z) * BTreeMap DataTransactionHeader) :=
  let same_block := bd_block_hash (min_block r) =? bd_block_hash (max_block r) in
  earliest ← process_boundary_block (min_block r) true same_block ledger (slot_miners r);
  middle ← process_middle_blocks (middle_blocks r) (bd_range (min_block r)) ledger (slot_miners r) ([], []);
  latest ← (if same_block then Ok ([], []) else process_boundary_block (max_block r) false true ledger (slot_miners r));
  let tx_to_miners := btree_extend (btree_extend (btree_extend [] earliest.1) latest.1) middle.1 in
  let tx_headers := by_id (earliest.2 ++ latest.2 ++ middle.2) in
  _ ← guard_err (negb (bool_decide (tx_to_miners.*1 = tx_headers.*1))) AttributedTxHeadersMismatch;
  Ok (tx_to_miners, tx_headers).
End ExpiryWalk.
