(* ===== verification/ExpirySettle.v ===== *)
(** What expired slots pay, and which transactions can no longer be promoted
    ([crates/actors/src/block_producer/ledger_expiry.rs], with the ancestry walk of
    [crates/actors/src/block_ancestry.rs] and the canonical lookups of
    [crates/database/src/database.rs]).

    The transactions of the expired slots come from [ExpiryWalk]. *)

From S2P Require Import TreeHash Pricing StateErr DataLedger EpochSnapshot EpochInv LedgerExpiry Codec Packing Merkle BlockIndex BlockIndexFacts IndexFile Poa FeeSplit BTree ExpiryWalk Prelude.

(** The elements of a [BTreeSet]. *)
Definition btree_set (l : list Z) : list Z := (foldl (λ m k, btree_insert k () m) [] l).*1.

Definition block_includes_ledger_tx (header : LedgerHeader) (ledger : DataLedger) (txid : Z) : bool :=
  match ledger_tx_ids_in header ledger with Some ids => bool_decide (txid ∈ ids) | None => false end.

(** ** Canonical lookups *)

Section Canonical.
  Context (v : ExpiryView).

Definition canonical_header_at_height (height : Z) : result ExpiryError (option LedgerHeader) :=
  match migrated_hashes (v_index v) !! height with
  | None => Ok None
  | Some canonical_hash =>
      header ← ok_or (v_headers v !! canonical_hash) (MetadataInconsistent height);
      _ ← guard_err (negb (lh_height header =? height)) (MetadataInconsistent height);
      Ok (Some header)
  end.

(** [hint] is the height in the metadata of the transaction. *)
Definition canonical_metadata_height (hint : option Z) (txid max_height : Z) (ledger : DataLedger) : result ExpiryError (option Z) :=
  match hint with
  | None => Ok None
  | Some height =>
      if max_height <? height then Ok None
      else
        canonical_header ← canonical_header_at_height height;
        Ok (match canonical_header with
            | Some header => if block_includes_ledger_tx header ledger txid then Some height else None
            | None => None
            end)
  end.
Definition canonical_submit_height (txid max_height : Z) : result ExpiryError (option Z) :=
  canonical_metadata_height (ev_included v !! txid) txid max_height Submit.
Definition canonical_promoted_height (txid max_height : Z) : result ExpiryError (option Z) :=
  canonical_metadata_height (ev_promoted v !! txid) txid max_height Publish.

(** ** Ancestors *)

(** [walk_ancestors_tree_then_db]: once an ancestor is not in the tree the rest are read from
    the table of headers.  [visit] says whether to stop; a round goes to the parent. *)
Fixpoint walk_ancestors_tree_then_db {St} (visit : LedgerHeader → St → St * bool) (fuel : nat) (in_tree : bool) (cursor min_height : Z) (st : St)
  : result ExpiryError St :=
  let in_tree := in_tree && bool_decide (is_Some (v_tree v !! cursor)) in
  header ← ok_or (if in_tree then get_block v cursor else v_headers v !! cursor) (AncestorMissing cursor);
  if lh_height header <? min_height then Ok st
  else
    let '(st, stop) := visit header st in
    if stop || (lh_height header =? 0) || (lh_height header =? min_height) then Ok st
    else match fuel with
         | O => Panic
         | S fuel' => walk_ancestors_tree_then_db visit fuel' in_tree (lh_previous_block_hash header) min_height st
         end.

Definition walk_fuel (hash : Z) : nat :=
  match get_block v hash, v_headers v !! hash with
  | Some h, _ => Z.to_nat (lh_height h)
  | None, Some h => Z.to_nat (lh_height h)
  | None, None => 0
  end.
End Canonical.

(** ** Promotion on the branch *)

Section Settle.
  Context `{DupSort} (v : ExpiryView) (config : WalkConfig).

Definition prior_inclusion_walk_depth : Z := Z.max (wc_tx_anchor_expiry_depth config) (wc_block_tree_depth config).

(** The visitor: the candidates that remain, and the promoted ones with their heights. *)
Definition visit_promotions (header : LedgerHeader) (st : list Z * BTreeMap Z) : (list Z * BTreeMap Z) * bool :=
  let '(remaining, promoted) := st in
  let here := filter (λ txid, block_includes_ledger_tx header Publish txid = true) remaining in
  let remaining := filter (λ txid, block_includes_ledger_tx header Publish txid = false) remaining in
  let promoted := foldl (λ m txid, btree_insert txid (lh_height header) m) promoted here in
  ((remaining, promoted), bool_decide (remaining = [])).

Fixpoint promoted_below (max_height : Z) (remaining : list Z) (promoted : BTreeMap Z) : result ExpiryError (BTreeMap Z) :=
  match remaining with
  | [] => Ok promoted
  | txid :: rest =>
      found ← canonical_promoted_height v txid max_height;
      promoted_below max_height rest (match found with Some height => btree_insert txid height promoted | None => promoted end)
  end.

Definition resolve_promotion_heights_on_branch (candidates : list Z) (parent_block_hash block_height : Z) : result ExpiryError (BTreeMap Z) :=
  if bool_decide (candidates = []) then Ok []
  else
    let walk_min_height := saturating_sub block_height prior_inclusion_walk_depth in
    st ← walk_ancestors_tree_then_db v visit_promotions (walk_fuel v parent_block_hash) true parent_block_hash walk_min_height (btree_set candidates, []);
    let '(remaining, promoted) := (st : list Z * BTreeMap Z) in
    if bool_decide (remaining = []) then Ok promoted
    else promoted_below (saturating_sub walk_min_height 1) remaining promoted.

Definition resolve_promoted_on_branch (candidates : list Z) (parent_block_hash block_height : Z) : result ExpiryError (list Z) :=
  promoted ← resolve_promotion_heights_on_branch candidates parent_block_hash block_height;
  Ok promoted.*1.

(** ** Fees of expired slots *)

Record LedgerExpiryBalanceDelta : Type := mkExpiryDelta {
  reward_balance_increment : BTreeMap (Z * Z);
  user_perm_fee_refunds : list (Z * Z * Z)
}.
Definition empty_delta : LedgerExpiryBalanceDelta := mkExpiryDelta [] [].

(** An amount and a rolling hash into the entry of an address. *)
Definition add_reward (fee hash : Z) (entry : option (Z * Z)) : Z * Z :=
  match entry with
  | Some (current_fee, current_hash) => (saturating_add 256 current_fee fee, Z.lxor current_hash hash)
  | None => (fee, hash)
  end.

Definition merge (self other : LedgerExpiryBalanceDelta) : LedgerExpiryBalanceDelta :=
  mkExpiryDelta
    (foldl (λ m kv, btree_update kv.1 (add_reward kv.2.1 kv.2.2) m) (reward_balance_increment self) (reward_balance_increment other))
    (user_perm_fee_refunds self ++ user_perm_fee_refunds other).

(** A stable sort by id, as [sort_by] with [compare_tx]. *)
Fixpoint insert_tx (tx : DataTransactionHeader) (txs : list DataTransactionHeader) : list DataTransactionHeader :=
  match txs with
  | [] => [tx]
  | x :: rest => if th_id tx <=? th_id x then tx :: txs else x :: insert_tx tx rest
  end.
Definition sort_txs (txs : list DataTransactionHeader) : list DataTransactionHeader := foldr insert_tx [] txs.

(** [U256::from_le_bytes(id)], for the bytes of an id. *)
Definition id_from_le_bytes (id : Z) : Z := of_be_bytes (rev (be_bytes 32 id)).

(** The miners' part of a transaction. *)
Definition pay_miners (es : EpochSnapshot) (tx : DataTransactionHeader) (miners : list Z) (rewards : BTreeMap (Z * Z))
  : result ExpiryError (BTreeMap (Z * Z)) :=
  if bool_decide (miners = []) then Ok rewards
  else
    let unique_miners := btree_set miners in
    charges ← map_err ExpiryFee (TermFeeCharges_new (th_term_fee tx) (wc_fees config));
    fees ← map_err ExpiryFee (distribution_on_expiry charges unique_miners);
    Ok (foldl (λ m mf, btree_update (resolve_reward_address es mf.1) (add_reward mf.2 (id_from_le_bytes (th_id tx))) m)
              rewards (zip unique_miners fees)).

(** The refund of a transaction, if it is due one. *)
Definition refund_of (promoted_on_branch : list Z) (tx : DataTransactionHeader) : result ExpiryError (list (Z * Z * Z)) :=
  if bool_decide (th_id tx ∈ promoted_on_branch) then Ok []
  else
    perm_fee ← ok_or (th_perm_fee tx) (MissingPermFee (th_id tx));
    Ok [(th_id tx, perm_fee, th_signer tx)].

Fixpoint aggregate_txs (es : EpochSnapshot) (txs : list DataTransactionHeader) (tx_to_miners : BTreeMap (list Z))
    (expect_txs_to_be_promoted : bool) (promoted_on_branch : list Z) (delta : LedgerExpiryBalanceDelta) : result ExpiryError LedgerExpiryBalanceDelta :=
  match txs with
  | [] => Ok delta
  | tx :: rest =>
      miners ← ok_or (btree_get (th_id tx) tx_to_miners) (MissingMinerList (th_id tx));
      rewards ← pay_miners es tx miners (reward_balance_increment delta);
      refund ← (if expect_txs_to_be_promoted then refund_of promoted_on_branch tx else Ok []);
      aggregate_txs es rest tx_to_miners expect_txs_to_be_promoted promoted_on_branch
        (mkExpiryDelta rewards (user_perm_fee_refunds delta ++ refund))
  end.
Definition aggregate_balance_deltas (transactions : list DataTransactionHeader) (tx_to_miners : BTreeMap (list Z)) (es : EpochSnapshot)
    (expect_txs_to_be_promoted : bool) (promoted_on_branch : list Z) : result ExpiryError LedgerExpiryBalanceDelta :=
  aggregate_txs es (sort_txs transactions) tx_to_miners expect_txs_to_be_promoted promoted_on_branch empty_delta.

(** The slots with their miners as a [BTreeMap]. *)
Definition slot_map (slots : list (nat * list Z)) : BTreeMap (list Z) := foldl (λ m sm, btree_insert (Z.of_nat sm.1) sm.2 m) [] slots.

Definition calculate_expired_ledger_fees (es : EpochSnapshot) (parent : LedgerHeader) (block_height : Z) (ledger : DataLedger)
    (expect_txs_to_be_promoted : bool) (new_total_chunks : Z) (cascade_for_block : bool) : result ExpiryError LedgerExpiryBalanceDelta :=
  _ ← expect (if bool_decide (ledger = Publish) then None else Some tt);
  partitions ← map_err ExpiredPartitions (collect_expired_partitions (wc_epoch config) es block_height ledger new_total_chunks cascade_for_block);
  slots ← ok_or partitions PartitionNotAssigned;
  let expired_slots := slot_map slots in
  if bool_decide (expired_slots = []) then Ok empty_delta
  else
    block_range ← find_block_range v config expired_slots ledger (lh_total_chunks parent ledger) (lh_block_hash parent);
    match block_range with
    | None => Ok empty_delta
    | Some range =>
        r ← collect_tx_to_miners_from_range v config range ledger;
        let '(tx_to_miners, tx_headers) := (r : BTreeMap (list Z) * BTreeMap DataTransactionHeader) in
        promoted ← (if expect_txs_to_be_promoted then resolve_promoted_on_branch tx_to_miners.*1 (lh_block_hash parent) block_height else Ok []);
        aggregate_balance_deltas tx_headers.*2 tx_to_miners es expect_txs_to_be_promoted promoted
    end.

(** [new_total_chunks] gives each ledger's total at the block. *)
Definition calculate_all_expired_ledger_fees (es : EpochSnapshot) (parent : LedgerHeader) (block_height : Z)
    (cascade_for_block cascade_for_epoch : bool) (new_total_chunks : DataLedger → Z) : result ExpiryError LedgerExpiryBalanceDelta :=
  submit ← calculate_expired_ledger_fees es parent block_height Submit true (new_total_chunks Submit) cascade_for_block;
  if cascade_for_epoch then
    one_year ← calculate_expired_ledger_fees es parent block_height OneYear false (new_total_chunks OneYear) cascade_for_block;
    thirty_day ← calculate_expired_ledger_fees es parent block_height ThirtyDay false (new_total_chunks ThirtyDay) cascade_for_block;
    Ok (merge (merge submit one_year) thirty_day)
  else Ok submit.
End Settle.

(** * The transactions of the Submit ledger that have expired as of a block, so that the block
    may not promote them: the verdict for one candidate and the walk over all expired slots
    that the code keeps as its oracle ([submit_tx_expired] and [expired_submit_tx_ids] in
    [crates/actors/src/block_producer/ledger_expiry.rs]). *)

Record ExpiredSubmitRange : Type := mkExpiredSubmitRange { er_block_height : Z; er_range_end : Z; er_parent_block_hash : Z }.

(** [si_sealed_block] is set when the block was found in the tree. *)
Record SubmitInclusion : Type := mkSubmitInclusion {
  si_block_hash : Z;
  si_base : Z;
  si_total : Z;
  si_sealed_block : option LedgerBlock
}.

Definition submit_span_verdict (base total range_end : Z) : option bool :=
  if total <=? range_end then Some true
  else if range_end <=? base then Some false
  else None.

Fixpoint tx_start_offset_loop (target chunk_size offset : Z) (txs : list (Z * Z)) : option Z :=
  match txs with
  | [] => None
  | (id, data_size) :: rest =>
      if id =? target then Some offset
      else tx_start_offset_loop target chunk_size (saturating_add 64 offset (div_ceil data_size chunk_size)) rest
  end.
Definition submit_tx_start_offset (target : Z) (block_submit_txs : list (Z * Z)) (base_chunks chunk_size : Z) : option Z :=
  if chunk_size =? 0 then None else tx_start_offset_loop target chunk_size base_chunks block_submit_txs.

Section SubmitExpiry.
  Context `{DupSort} (v : ExpiryView) (config : WalkConfig).

(** [walk_submit_inclusion] over the tree, for as many blocks as [steps]: hash, base and total
    of the block that includes the transaction. *)
Fixpoint walk_submit_inclusion (steps : nat) (txid cursor : Z) : result ExpiryError (option (Z * Z * Z)) :=
  match steps with
  | O => Ok None
  | S steps' =>
      match get_block v cursor with
      | None => Ok None
      | Some block =>
          if block_includes_ledger_tx block Submit txid then
            base ← tail_prev_total v Submit block;
            Ok (Some (cursor, base, lh_total_chunks block Submit))
          else walk_submit_inclusion steps' txid (lh_previous_block_hash block)
      end
  end.

Definition indexed_submit_inclusion (h : Z) : result ExpiryError SubmitInclusion :=
  item ← ok_or (get_item (v_index v) h) (HeightNotIndexed h);
  base ← (if h =? 0 then Ok 0
          else ok_or ((λ i, ledger_total_of_index_item i Submit) <$> get_item (v_index v) (h - 1)) PredecessorNotIndexed);
  Ok (mkSubmitInclusion (bi_block_hash item) base (ledger_total_of_index_item item Submit) None).

Definition resolve_submit_inclusion (txid : Z) (range : ExpiredSubmitRange) : result ExpiryError (option SubmitInclusion) :=
  let max_height := saturating_sub (er_block_height range) 1 in
  canonical ← canonical_submit_height v txid max_height;
  match canonical with
  | Some h =>
      inclusion ← indexed_submit_inclusion h;
      Ok (Some inclusion)
  | None =>
      let max_walk := wc_tx_anchor_expiry_depth config in
      resolved ← walk_submit_inclusion (S (Z.to_nat max_walk)) txid (er_parent_block_hash range);
      Ok (match resolved with
          | Some (block_hash, base, total) => Some (mkSubmitInclusion block_hash base total (v_tree v !! block_hash))
          | None => None
          end)
  end.

Definition submit_tx_expired (txid : Z) (range : ExpiredSubmitRange) : result ExpiryError bool :=
  inclusion ← resolve_submit_inclusion txid range;
  match inclusion with
  | None => Ok false
  | Some inc =>
      match submit_span_verdict (si_base inc) (si_total inc) (er_range_end range) with
      | Some verdict => Ok verdict
      | None =>
          headers ← match si_sealed_block inc with
                    | Some sealed => ledger_tx_headers_of_sealed_block sealed Submit
                    | None => ledger_tx_headers_of_block v (si_block_hash inc) Submit
                    end;
          let ordered := (λ h, (th_id h, th_data_size h)) <$> headers in
          Ok (match submit_tx_start_offset txid ordered (si_base inc) (wc_chunk_size config) with
              | Some offset => offset <? er_range_end range
              | None => false
              end)
      end
  end.

(** The range of a block from [expired_submit_range], with what else it carries. *)
Definition submit_range (block_height : Z) (es : EpochSnapshot) (parent : LedgerHeader) (cascade_for_block : bool)
  : result ExpiryError (option ExpiredSubmitRange) :=
  range_end ← map_err ExpiredRange (expired_submit_range (wc_epoch config) block_height es (lh_total_chunks parent Submit) cascade_for_block);
  Ok (match range_end with
      | Some e => Some (mkExpiredSubmitRange block_height e (lh_block_hash parent))
      | None => None
      end).

Definition is_submit_storage_expired (txid block_height : Z) (es : EpochSnapshot) (parent : LedgerHeader) (cascade_for_block : bool)
  : result ExpiryError bool :=
  range ← submit_range block_height es parent cascade_for_block;
  match range with
  | None => Ok false
  | Some range => submit_tx_expired txid range
  end.

(** The oracle; each slot gets one miner that is never read. *)
Definition expired_submit_tx_ids (es : EpochSnapshot) (parent : LedgerHeader) (block_height : Z) (cascade_for_block : bool)
  : result ExpiryError (list Z) :=
  slot_indexes ← map_err ExpiredPartitions (get_all_expired_term_slot_indexes (wc_epoch config) es Submit block_height cascade_for_block
                   (lh_total_chunks parent Submit));
  if bool_decide (slot_indexes = []) then Ok []
  else
    let expired_slots := slot_map ((λ i, (i, [0])) <$> slot_indexes) in
    block_range ← find_block_range v config expired_slots Submit (lh_total_chunks parent Submit) (lh_block_hash parent);
    match block_range with
    | None => Ok []
    | Some range =>
        r ← collect_tx_to_miners_from_range v config range Submit;
        Ok r.1.*1
    end.
End SubmitExpiry.
