(* ===== verification/ExpiryCollect.v ===== *)
(** Facts on the walk over expired slots: the block of a chunk is the one of the parent's own
    chain, the probes visit exactly the blocks that overlap the slots, and the transactions
    that settle are exactly those of the ledger that start in them. *)

From S2P Require Import TreeHash Pricing StateErr DataLedger EpochSnapshot EpochInv LedgerExpiry Codec Packing Merkle BlockIndex BlockIndexFacts IndexFile Poa PoaFacts PoaTheorems FeeSplit BTree ExpiryWalk Prelude.

(** ** Totals along a chain *)

Section Totals.
  Context (ledger : DataLedger) (chain : list LedgerHeader).

Definition total_at (i : nat) : Z := default 0 (total_of ledger <$> (header_item <$> chain !! i)).
Definition base_at (i : nat) : Z := match i with O => 0 | S j => total_at j end.

(** Block [i] added chunk [off]. *)
Definition block_at (off : Z) (i : nat) (h : LedgerHeader) : Prop := chain !! i = Some h ∧ base_at i ≤ off < total_at i.

Context (Hchain : chain_ok chain).

Lemma total_at_Some i h : chain !! i = Some h → total_at i = total_of ledger (header_item h).
Proof. intros Hi. unfold total_at. by rewrite Hi. Qed.

Lemma lh_total_of h : lh_total_chunks h ledger = total_of ledger (header_item h).
Proof. unfold lh_total_chunks, total_of. rewrite header_total. unfold ledger_entry_in. by destruct (ledger_of_header h ledger). Qed.

Lemma total_at_le i j : (i ≤ j < length chain)%nat → total_at i ≤ total_at j.
Proof.
  intros [Hij Hj]. destruct (lookup_lt_is_Some_2 chain j Hj) as [b Hb], (lookup_lt_is_Some_2 chain i) as [a Ha]; [lia|].
  rewrite (total_at_Some _ _ Ha), (total_at_Some _ _ Hb).
  apply (growing_le ledger (header_item <$> chain) i j); [apply (co_grows _ Hchain)|done|by rewrite list_lookup_fmap, ?Ha, ?Hb..].
Qed.

Lemma total_base_le i j : (i < j ≤ length chain)%nat → total_at i ≤ base_at j.
Proof. intros Hij. destruct j as [|j]; [lia|]. cbn [base_at]. apply total_at_le. lia. Qed.

Lemma block_at_lt off i h : block_at off i h → (i < length chain)%nat.
Proof. intros [Hi _]. by apply lookup_lt_Some in Hi. Qed.

Lemma block_at_le off off' i i' h h' : block_at off i h → block_at off' i' h' → off ≤ off' → (i ≤ i')%nat.
Proof.
  intros H H' Hle. pose proof (block_at_lt _ _ _ H). destruct (Nat.lt_ge_cases i' i) as [Hlt|]; [|done].
  pose proof (total_base_le i' i ltac:(lia)). destruct H as [_ ?], H' as [_ ?]. lia.
Qed.

Lemma block_at_unique off i i' h h' : block_at off i h → block_at off i' h' → i = i' ∧ h = h'.
Proof.
  intros H H'. assert (i = i') as -> by (pose proof (block_at_le _ _ _ _ _ _ H H'); pose proof (block_at_le _ _ _ _ _ _ H' H); lia).
  split; [done|]. destruct H as [H _], H' as [H' _]. congruence.
Qed.

Lemma block_at_exists off k : 0 ≤ off → (k ≤ length chain)%nat → off < base_at k → ∃ i h, block_at off i h ∧ (i < k)%nat.
Proof.
  intros Hoff. induction k as [|k IH]; intros Hk Hlt; [cbn in Hlt; lia|]. cbn [base_at] in Hlt.
  destruct (Z.lt_ge_cases off (base_at k)) as [Hb|Hb].
  - destruct IH as (i & h & Hi & ?); [lia|done|]. exists i, h. split; [done|lia].
  - destruct (lookup_lt_is_Some_2 chain k) as [h Hh]; [lia|]. exists k, h. split; [done|lia].
Qed.

(** Blocks that have chunks of [lo, hi). *)
Definition touches (lo hi : Z) (i : nat) : Prop := Z.max lo (base_at i) < Z.min hi (total_at i).

#[local] Instance touches_dec lo hi i : Decision (touches lo hi i).
Proof. unfold touches. apply _. Defined.

Lemma touches_step lo x x' i h j :
  lo ≤ x → x < x' → block_at x i h → x' ≤ total_at i → (j < length chain)%nat → touches lo x' j ↔ touches lo x j ∨ j = i.
Proof.
  intros Hlo Hx Hi Hx' Hj. pose proof (block_at_lt _ _ _ Hi) as Hil. destruct Hi as [_ Hi]. split.
  - intros Ht. destruct (decide (touches lo x j)) as [|Hn]; [by left|]. right. unfold touches in *. destruct (Nat.lt_trichotomy j i) as [Hlt|[?|Hlt]]; [|done|].
    + pose proof (total_base_le j i ltac:(lia)). lia.
    + pose proof (total_base_le i j ltac:(lia)). lia.
  - unfold touches. intros [Ht| ->]; lia.
Qed.
End Totals.

(** ** Settled chunks *)

(** The chunks below [bound] are in blocks that the index and the chain share, or all of the
    index is a part of the chain. *)
Definition shared (canon chain : list LedgerHeader) (ledger : DataLedger) (bound : Z) : Prop :=
  ∃ n, take n canon = take n chain ∧ (n ≤ length canon)%nat ∧ (n ≤ length chain)%nat ∧ (length canon = n ∨ bound ≤ base_at ledger chain n).

Lemma shared_lookup (canon chain : list LedgerHeader) n i : take n canon = take n chain → (i < n)%nat → canon !! i = chain !! i.
Proof. intros Heq Hi. rewrite <- (lookup_take_lt canon n i), Heq, lookup_take_lt by done. done. Qed.

Section Resolve.
  Context `{DupSort} (v : ExpiryView) (canon chain : list LedgerHeader) (Hv : view_ok v canon chain).
  Context (Hcov : Forall (covered v) chain).
  Context (ledger : DataLedger).

Lemma get_item_total i c : canon !! i = Some c →
  ∃ item, get_item (v_index v) (Z.of_nat i) = Some item ∧ bi_block_hash item = lh_block_hash c ∧
    ledger_total_of_index_item item ledger = total_of ledger (header_item c).
Proof.
  intros Hc. destruct (item_by_height _ _ i (header_item c) (vo_index _ _ _ Hv)) as (item & Hitem & Hh & _ & Hf); [by rewrite list_lookup_fmap, Hc|].
  exists item. unfold get_item. rewrite Hitem. split_and!; [done..|]. unfold ledger_total_of_index_item, total_of, ledger_total. by rewrite Hf.
Qed.

Lemma tip_total : default 0 ((λ i, ledger_total_of_index_item i ledger) <$> get_latest_item (v_index v)) = base_at ledger canon (length canon).
Proof.
  unfold get_latest_item. rewrite (latest_height_eq _ _ (vo_index _ _ _ Hv)), length_fmap.
  destruct (length canon) as [|n] eqn:Hlen; [by apply length_zero_iff_nil in Hlen as ->|].
  destruct (decide (header_item <$> canon = [])) as [Hn%fmap_nil_inv|_]; [by rewrite Hn in Hlen|]. cbn [mbind option_bind].
  destruct (lookup_lt_is_Some_2 canon n) as [c Hc]; [lia|]. destruct (get_item_total _ _ Hc) as (item & Hi & _ & Ht).
  replace (Z.of_nat (S n) - 1) with (Z.of_nat n) by lia. rewrite Hi. cbn. by rewrite Ht, (total_at_Some ledger _ _ _ Hc).
Qed.

Lemma tail_prev_total_ok i h : chain !! i = Some h → tail_prev_total v ledger h = Ok (base_at ledger chain i).
Proof.
  intros Hi. unfold tail_prev_total. rewrite (co_height _ (vo_chain _ _ _ Hv) _ _ Hi). destruct i as [|i]; [done|].
  destruct (Z.eqb_spec (Z.of_nat (S i)) 0); [lia|]. destruct (lookup_lt_is_Some_2 chain i) as [p Hp]; [apply lookup_lt_Some in Hi; lia|].
  pose proof (proj1 (Forall_lookup _ _) Hcov i p Hp) as Hc. rewrite (co_link _ (vo_chain _ _ _ Hv) _ _ _ Hp Hi). unfold get_block.
  cbn [base_at]. rewrite (total_at_Some _ _ _ _ Hp).
  destruct (v_tree v !! lh_block_hash p) as [b|] eqn:Hb; cbn [fmap option_fmap option_map].
  - by rewrite (vo_tree _ _ _ Hv p b (list_elem_of_lookup_2 _ _ _ Hp) Hb), lh_total_of.
  - destruct Hc as [[b' Hb']|Hm]; [by rewrite Hb in Hb'|]. rewrite (co_height _ (vo_chain _ _ _ Hv) _ _ Hp) in Hm.
    replace (Z.of_nat (S i) - 1) with (Z.of_nat i) by lia. unfold assert_canonical_via_mbh, is_canonical_at. rewrite bool_decide_true by done. cbn [negb]. res_simpl.
    destruct (get_item_total i p (canonical_at v canon chain Hv _ _ Hp Hm)) as (item & -> & _ & Ht). cbn. by rewrite Ht.
Qed.

(** A block of the chain with chunks above the index is in the tree. *)
Lemma above_index_in_tree i h off : chain !! i = Some h → base_at ledger canon (length canon) ≤ off → off < total_at ledger chain i →
  ∃ b, v_tree v !! lh_block_hash h = Some b ∧ lb_header b = h.
Proof.
  intros Hi Htip Hoff. pose proof (proj1 (Forall_lookup _ _) Hcov i h Hi) as [[b Hb]|Hm].
  - exists b. split; [done|]. by apply (vo_tree _ _ _ Hv h b (list_elem_of_lookup_2 _ _ _ Hi)).
  - exfalso. rewrite (co_height _ (vo_chain _ _ _ Hv) _ _ Hi) in Hm. pose proof (canonical_at v canon chain Hv _ _ Hi Hm) as Hc.
    rewrite (total_at_Some _ _ _ _ Hi), <- (total_at_Some ledger canon i h Hc) in Hoff. apply lookup_lt_Some in Hc.
    pose proof (total_base_le ledger canon (vo_canon _ _ _ Hv) i (length canon) ltac:(lia)). lia.
Qed.

Lemma walk_tail_ok k p off i h fuel :
  chain !! k = Some p → block_at ledger chain off i h → (i ≤ k)%nat → (k ≤ fuel)%nat → base_at ledger canon (length canon) ≤ off →
  walk_tail v fuel ledger off (lh_block_hash p) = Ok (Some (Z.of_nat i, lh_block_hash h, base_at ledger chain i, total_at ledger chain i)).
Proof.
  intros Hp Hi Hik Hfuel Htip. revert p fuel Hp Hik Hfuel. induction k as [k IH] using lt_wf_ind; intros p fuel Hp Hik Hfuel.
  pose proof (lookup_lt_Some _ _ _ Hp) as Hk. pose proof (total_at_le ledger chain (vo_chain _ _ _ Hv) i k ltac:(lia)) as Hle.
  assert (off < total_at ledger chain i) as Hoff by (by destruct Hi as [_ [_ ?]]).
  destruct (above_index_in_tree k p off Hp Htip ltac:(lia)) as (b & Hb & Hbp).
  assert (Hgb : get_block v (lh_block_hash p) = Some p) by (unfold get_block; rewrite Hb; cbn; by rewrite Hbp).
  destruct fuel as [|fuel]; cbn [walk_tail]; rewrite Hgb, (tail_prev_total_ok _ _ Hp); res_simpl; rewrite lh_total_of, <- (total_at_Some _ _ _ _ Hp);
    destruct (Z.leb_spec (base_at ledger chain k) off) as [Hb'|Hb']; cbn [andb].
  1,3: destruct (block_at_unique ledger chain (vo_chain _ _ _ Hv) off i k h p Hi) as [-> ->]; [split; [done|lia]|];
    rewrite (proj2 (Z.ltb_lt _ _)) by lia; by rewrite (co_height _ (vo_chain _ _ _ Hv) _ _ Hp).
  all: assert (i ≠ k) by (intros ->; destruct Hi as [_ ?]; lia). 1: lia. destruct k as [|k]; [lia|].
  destruct (lookup_lt_is_Some_2 chain k) as [q Hq]; [lia|]. rewrite (co_link _ (vo_chain _ _ _ Hv) _ _ _ Hq Hp). apply (IH k); [lia|done|lia..].
Qed.

(** The index answers for a block it shares with the chain. *)
Lemma resolve_index_ok off i h n :
  take n canon = take n chain → (i < n)%nat → 0 ≤ off < base_at ledger canon (length canon) → block_at ledger chain off i h →
  resolve_offset_via_index v ledger off = Ok (Z.of_nat i, lh_block_hash h, base_at ledger chain i, total_at ledger chain i).
Proof.
  intros Htake Hin Hlt [Hi Hr]. assert (Hc : canon !! i = Some h) by (by rewrite (shared_lookup _ _ _ i Htake)).
  assert (Hpre : ∀ j, (j < n)%nat → total_at ledger canon j = total_at ledger chain j) by (intros j Hj; unfold total_at; by rewrite (shared_lookup _ _ _ j Htake)).
  pose proof (lookup_lt_Some _ _ _ Hi) as Hil. unfold resolve_offset_via_index. rewrite (block_bounds_in_tx_eq _ _ ledger off (vo_index _ _ _ Hv)), length_fmap.
  assert (∃ m, length canon = S m) as [m Hm] by (apply lookup_lt_Some in Hc; destruct (length canon) as [|m]; [lia|by exists m]).
  destruct (decide (header_item <$> canon = [])) as [Hnil%fmap_nil_inv|_]; [by rewrite Hnil in Hm|].
  rewrite Hm in *. replace (Z.of_nat (S m) - 1) with (Z.of_nat m) by lia. destruct (lookup_lt_is_Some_2 canon m) as [t Ht]; [lia|].
  rewrite (block_bounds_eq _ (header_item <$> canon) ledger off m (header_item t) (vo_index _ _ _ Hv)); [|apply (co_grows _ (vo_canon _ _ _ Hv))|by rewrite list_lookup_fmap, Ht| |lia].
  2:{ pose proof (co_short _ (vo_canon _ _ _ Hv)). lia. }
  cbn [base_at] in Hlt. rewrite (total_at_Some _ _ _ _ Ht) in Hlt. unfold total_of in Hlt.
  destruct (ledger_total ledger (header_item t)) as [max|]; cbn in Hlt; [|lia]. destruct (Z.leb_spec max off); [lia|].
  rewrite take_ge by (rewrite length_fmap; lia).
  rewrite (total_at_Some _ _ _ _ Hi) in *. destruct (find_ledger_positive ledger (header_item h) ltac:(lia)) as (l & Hl & _).
  rewrite (scan_owner_at ledger off (header_item <$> canon) i 0 0 (header_item h) l); [|by rewrite list_lookup_fmap, Hc| |lia|done].
  - res_simpl. cbn [bb_height bb_block_hash start_chunk_offset end_chunk_offset header_item bi_block_hash]. rewrite Z.add_0_l. do 3 f_equal.
    destruct i as [|j]; [done|]. cbn [base_at]. rewrite <- Hpre by lia. unfold total_at. by rewrite list_lookup_fmap.
  - intros j x Hj Hx. rewrite list_lookup_fmap in Hx. apply fmap_Some in Hx as (c & Hcj & ->). rewrite <- (total_at_Some ledger _ _ _ Hcj), Hpre by lia.
    pose proof (total_base_le ledger chain (vo_chain _ _ _ Hv) j i ltac:(lia)). lia.
Qed.

(** A settled chunk resolves to the block of the chain that added it. *)
Lemma resolve_ok bound parent off i h :
  shared canon chain ledger bound → last chain = Some parent → 0 ≤ off < bound → block_at ledger chain off i h →
  resolve_ledger_offset_to_block v off (lh_block_hash parent) ledger = Ok (Z.of_nat i, lh_block_hash h, base_at ledger chain i, total_at ledger chain i).
Proof.
  intros (n & Htake & Hnc & Hn & Hb) Hparent Hoff Hi. unfold resolve_ledger_offset_to_block. rewrite tip_total.
  pose proof (block_at_lt _ _ _ _ _ Hi) as Hil. destruct (Z.ltb_spec off (base_at ledger canon (length canon))) as [Hlt|Hge].
  - apply (resolve_index_ok off i h n); [done| |lia|done]. assert (off < base_at ledger chain n) as Hoffn.
    { destruct Hb as [Hb|Hb]; [|lia]. rewrite Hb in Hlt. destruct n as [|n]; [done|]. cbn [base_at] in *. unfold total_at in *.
      by rewrite (shared_lookup _ _ _ n Htake) in Hlt by lia. }
    destruct (block_at_exists ledger chain off n ltac:(lia) Hn Hoffn) as (i' & h' & Hi' & Hlt').
    by destruct (block_at_unique ledger chain (vo_chain _ _ _ Hv) off i i' h h' Hi Hi') as [-> _].
  - rewrite last_lookup in Hparent. pose proof (lookup_lt_Some _ _ _ Hparent) as Hpl.
    pose proof (total_at_le ledger chain (vo_chain _ _ _ Hv) i (pred (length chain)) ltac:(lia)) as Hle.
    destruct (above_index_in_tree _ _ off Hparent Hge) as (b & Hbt & Hbp); [destruct Hi as [_ ?]; lia|].
    unfold ancestry_fuel, get_block. rewrite Hbt. cbn [fmap option_fmap option_map]. rewrite Hbp, (co_height _ (vo_chain _ _ _ Hv) _ _ Hparent), Nat2Z.id.
    rewrite (walk_tail_ok (pred (length chain)) parent off i h) by (done || lia). done.
Qed.
End Resolve.

(** ** The probes *)

Section Probe.
  Context (ledger : DataLedger) (chain : list LedgerHeader) (Hchain : chain_ok chain) (Hhashes : NoDup (lh_block_hash <$> chain)).

(** A first or last block, as recorded. *)
Definition recorded (off : Z) (r : option (Z * Z * Z)) : Prop :=
  ∃ i h, block_at ledger chain off i h ∧ r = Some (Z.of_nat i, lh_block_hash h, base_at ledger chain i).

(** The state once the chunks of [lo, x) were probed. *)
Record probed (lo x : Z) (st : RangeState) : Prop := {
  pb_ok : btree_ok (block_bases st);
  pb_bases k b : btree_get k (block_bases st) = Some b ↔
    ∃ i h, chain !! i = Some h ∧ lh_block_hash h = k ∧ base_at ledger chain i = b ∧ touches ledger chain lo x i;
  pb_ends : (x = lo ∧ min_height st = None ∧ max_height st = None) ∨
            (lo < x ∧ recorded lo (min_height st) ∧ recorded (x - 1) (max_height st))
}.

Lemma probed_start lo : 0 ≤ lo → probed lo lo (mkRangeState [] None None).
Proof.
  intros Hlo. split; [constructor| |by left]. intros k b. split; [done|]. unfold touches. intros (i & h & _ & _ & _ & Ht). lia.
Qed.

Lemma same_hash i j h g : chain !! i = Some h → chain !! j = Some g → lh_block_hash h = lh_block_hash g → i = j.
Proof. intros Hi Hj Heq. eapply (NoDup_lookup _ i j (lh_block_hash h) Hhashes); rewrite list_lookup_fmap, ?Hi, ?Hj; [done|]. cbn. congruence. Qed.

Lemma probed_step lo x x' st i h :
  probed lo x st → lo ≤ x → x < x' → block_at ledger chain x i h → x' ≤ total_at ledger chain i →
  probed lo x' (record_block st (Z.of_nat i) (lh_block_hash h) (base_at ledger chain i)).
Proof.
  intros [Hok Hbases Hends] Hlo Hx Hi Hx'. pose proof Hi as [Hih Hir]. split; cbn [record_block block_bases min_height max_height].
  - by apply btree_update_ok.
  - intros k b. unfold btree_or_insert. rewrite btree_get_update by done.
    assert (Htouch : ∀ j g, chain !! j = Some g → touches ledger chain lo x' j ↔ touches ledger chain lo x j ∨ j = i).
    { intros j g Hj%lookup_lt_Some. by apply (touches_step ledger chain Hchain lo x x' i h). }
    destruct (Z.eqb_spec k (lh_block_hash h)) as [->|Hne].
    + split.
      * intros [= <-]. exists i, h. split_and!; [done..| |by apply (Htouch i h Hih); right].
        destruct (btree_get (lh_block_hash h) (block_bases st)) as [b|] eqn:Hb; [|done].
        apply Hbases in Hb as (j & g & Hj & Hhash & <- & _). by rewrite (same_hash j i g h).
      * intros (j & g & Hj & Hhash & <- & _). assert (j = i) as -> by (by apply (same_hash j i g h)). f_equal.
        destruct (btree_get (lh_block_hash h) (block_bases st)) as [b|] eqn:Hb; [|done].
        apply Hbases in Hb as (j & g' & Hj' & Hhash' & <- & _). cbn. by rewrite (same_hash j i g' h).
    + rewrite Hbases. split; intros (j & g & Hj & Hhash & Hb & Ht); exists j, g; split_and!; try done; [by apply (Htouch j g Hj); left|].
      apply (Htouch j g Hj) in Ht as [Ht|Hji]; [done|]. rewrite Hji, Hih in Hj. injection Hj as <-. by destruct Hne.
  - right. assert (block_at ledger chain (x' - 1) i h) as Hlast by (split; [done|lia]).
    destruct Hends as [(-> & -> & ->)|(Hlt & (i0 & h0 & H0 & ->) & (i1 & h1 & H1 & ->))].
    + split_and!; [lia|by exists i, h..].
    + pose proof (block_at_le ledger chain Hchain lo x i0 i h0 h H0 Hi ltac:(lia)). pose proof (block_at_le ledger chain Hchain (x - 1) x i1 i h1 h H1 Hi ltac:(lia)).
      split_and!; [lia|rewrite (proj2 (Z.ltb_ge _ _)) by lia; by exists i0, h0|].
      destruct (Z.ltb_spec (Z.of_nat i1) (Z.of_nat i)); [by exists i, h|]. assert (i1 = i) as -> by lia.
      destruct H1 as [H1 _]. rewrite Hih in H1. injection H1 as <-. by exists i, h.
Qed.

Context `{DupSort} (v : ExpiryView) (canon : list LedgerHeader) (Hv : view_ok v canon chain) (Hcov : Forall (covered v) chain).
Context (config : WalkConfig) (parent : LedgerHeader) (Hparent : last chain = Some parent).
Context (bound : Z) (Hshared : shared canon chain ledger bound).
Notation max_offset := (lh_total_chunks parent ledger).
Notation C := (wc_num_chunks_in_partition config).

Lemma parent_total : max_offset = base_at ledger chain (length chain).
Proof.
  rewrite lh_total_of. rewrite last_lookup in Hparent. pose proof (lookup_lt_Some _ _ _ Hparent).
  destruct (length chain) as [|n]; [lia|]. cbn [base_at pred] in *. by rewrite (total_at_Some _ _ _ _ Hparent).
Qed.

Lemma probe_range_ok fuel lo x stop st :
  0 ≤ lo ≤ x → x ≤ stop → stop ≤ bound → stop ≤ max_offset → (Z.to_nat (stop - x) ≤ fuel)%nat → probed lo x st →
  ∃ st', probe_range v fuel ledger (lh_block_hash parent) x stop st = Ok st' ∧ probed lo stop st'.
Proof.
  intros Hlo Hx Hbound Hmax. revert x st Hlo Hx. induction fuel as [|fuel IH]; intros x st Hlo Hx Hfuel Hst; cbn [probe_range].
  - assert (x = stop) as -> by lia. rewrite Z.ltb_irrefl. by exists st.
  - destruct (Z.ltb_spec x stop) as [Hlt|]; [|assert (x = stop) as -> by lia; by exists st].
    destruct (block_at_exists ledger chain x (length chain)) as (i & h & Hi & _); [lia|done|rewrite <- parent_total; lia|].
    rewrite (resolve_ok v canon chain Hv Hcov ledger bound parent x i h) by (done || lia). res_simpl.
    pose proof Hi as [_ Hir]. rewrite (proj2 (Z.ltb_lt x (total_at ledger chain i))) by lia. cbn [negb]. res_simpl.
    apply IH; [lia..|]. apply (probed_step lo x); [done|lia..|done|lia].
Qed.

(** The start of a slot, clamped to the chunks that exist. *)
Definition slot_start (slot : Z) : Z := Z.min (slot * C) max_offset.

Lemma compute_chunk_range_eq slot : 0 ≤ slot → 0 ≤ C → max_offset < 2 ^ 64 →
  compute_chunk_range slot C max_offset = (slot_start slot, slot_start (slot + 1)).
Proof. intros Hs HC Hm. unfold compute_chunk_range, slot_start, saturating_mul, saturating_add. f_equal; nia. Qed.

(** All slots from [a] on; [n] of them. *)
Lemma probe_slots_ok a n lo st span :
  0 < C → 0 ≤ a → 0 ≤ max_offset < 2 ^ 64 → 0 ≤ lo ≤ slot_start a → slot_start (a + Z.of_nat n) ≤ bound →
  probed lo (slot_start a) st → (span = None ∧ lo = slot_start a ∧ (0 < n)%nat ∨ span = Some (lo, slot_start a)) →
  ∃ st', probe_slots v config ledger (lh_block_hash parent) max_offset (seqZ a (Z.of_nat n)) st span =
    Ok (st', Some (lo, slot_start (a + Z.of_nat n))) ∧ probed lo (slot_start (a + Z.of_nat n)) st'.
Proof.
  intros HC Ha Hmax. revert a st span Ha. induction n as [|n IH]; intros a st span Ha Hlo Hbound Hst Hspan.
  - rewrite Z.add_0_r in *. exists st. destruct Hspan as [(_ & _ & ?)| ->]; [lia|done].
  - rewrite (seqZ_cons a) by lia. cbn [probe_slots]. rewrite compute_chunk_range_eq by lia.
    assert (slot_start a ≤ slot_start (a + 1) ∧ slot_start (a + 1) ≤ slot_start (a + Z.of_nat (S n)) ∧ slot_start (a + 1) ≤ max_offset) as (Hs1 & Hs2 & Hs3)
      by (unfold slot_start; nia).
    destruct (probe_range_ok (Z.to_nat (slot_start (a + 1) - slot_start a)) lo (slot_start a) (slot_start (a + 1)) st) as (st1 & -> & Hst1); [lia..|done|].
    res_simpl. replace (Z.succ a) with (a + 1) by lia. replace (Z.pred (Z.of_nat (S n))) with (Z.of_nat n) by lia.
    replace (a + Z.of_nat (S n)) with (a + 1 + Z.of_nat n) in * by lia. apply IH; [lia..|done|done|].
    right. destruct Hspan as [(-> & -> & _)| ->]; [done|]. do 2 f_equal; lia.
Qed.
End Probe.

(** * The transactions that the walk over expired slots settles: exactly those of the ledger
    that start in the slots, each with the miners of its slot. *)

(** ** Where transactions start *)

Fixpoint tx_starts (cs base : Z) (txs : list DataTransactionHeader) : list (Z * DataTransactionHeader) :=
  match txs with
  | [] => []
  | tx :: rest => (base, tx) :: tx_starts cs (base + tx_chunks cs tx) rest
  end.

Lemma chunks_of_txs_cons tx txs cs : chunks_of_txs (tx :: txs) cs = tx_chunks cs tx + chunks_of_txs txs cs.
Proof. unfold chunks_of_txs. by rewrite fmap_cons, sum_Z_cons. Qed.
Lemma chunks_of_txs_app txs txs' cs : chunks_of_txs (txs ++ txs') cs = chunks_of_txs txs cs + chunks_of_txs txs' cs.
Proof. induction txs as [|tx txs IH]; [by unfold chunks_of_txs at 2|]. cbn [app]. rewrite !chunks_of_txs_cons, IH. lia. Qed.

Lemma tx_starts_app cs base txs txs' : tx_starts cs base (txs ++ txs') = tx_starts cs base txs ++ tx_starts cs (base + chunks_of_txs txs cs) txs'.
Proof.
  revert base. induction txs as [|tx txs IH]; intros base; cbn [tx_starts app]; [f_equal; unfold chunks_of_txs; cbn; lia|].
  rewrite IH, chunks_of_txs_cons. by rewrite Z.add_assoc.
Qed.

Lemma tx_starts_snd cs base txs : (tx_starts cs base txs).*2 = txs.
Proof. revert base. induction txs as [|tx txs IH]; intros base; [done|]. cbn [tx_starts]. by rewrite fmap_cons, IH. Qed.

Section Starts.
  Context (cs : Z) (Hcs : 0 < cs).

Lemma tx_chunks_pos tx : 0 < th_data_size tx → 0 < tx_chunks cs tx.
Proof. intros Htx. apply div_ceil_lt_iff; lia. Qed.

Lemma chunks_pos txs : Forall (λ tx, 0 < th_data_size tx) txs → 0 ≤ chunks_of_txs txs cs.
Proof. intros Htxs. apply chunks_of_txs_nonneg; [|done]. eapply Forall_impl; [done|]. cbn. lia. Qed.

Lemma tx_starts_bounds base txs s tx : Forall (λ tx, 0 < th_data_size tx) txs → (s, tx) ∈ tx_starts cs base txs → base ≤ s < base + chunks_of_txs txs cs.
Proof.
  revert base. induction txs as [|x txs IH]; intros base Hpos Hin; [by apply elem_of_nil in Hin|]. apply Forall_cons in Hpos as [Hx Hpos].
  pose proof (tx_chunks_pos x Hx). pose proof (chunks_pos txs Hpos). rewrite chunks_of_txs_cons. cbn [tx_starts] in Hin.
  apply elem_of_cons in Hin as [[= -> ->]|Hin]; [lia|]. apply IH in Hin; [lia|done].
Qed.

(** ** The filter of a block *)

Definition keeps (range : Z * Z) (is_earliest is_latest : bool) (s : Z) : bool :=
  (negb is_earliest || (range.1 <=? s)) && (negb is_latest || (s <? range.2)).

Definition kept (range : Z * Z) (is_earliest is_latest : bool) (l : list (Z * DataTransactionHeader)) : list (Z * DataTransactionHeader) :=
  filter (λ p, keeps range is_earliest is_latest p.1 = true) l.

Context (config : WalkConfig) (Hconfig : wc_chunk_size config = cs).
Notation C := (wc_num_chunks_in_partition config).
Context (slots : BTreeMap (list Z)).

(** The miners of the slot of a start. *)
Definition miners_at (p : Z * DataTransactionHeader) : list Z := default [] (btree_get (p.1 / C) slots).
Definition id_at (p : Z * DataTransactionHeader) : Z := th_id p.2.
Notation attributed := (btree_of id_at miners_at).

Lemma kept_cons range e l p ps : kept range e l (p :: ps) = if keeps range e l p.1 then p :: kept range e l ps else kept range e l ps.
Proof. unfold kept. rewrite filter_cons. by destruct (keeps range e l p.1). Qed.

Lemma kept_all range ps : kept range false false ps = ps.
Proof. induction ps as [|p ps IH]; [done|]. by rewrite kept_cons, IH. Qed.

Lemma kept_after range e base txs : Forall (λ tx, 0 < th_data_size tx) txs → range.2 ≤ base → kept range e true (tx_starts cs base txs) = [].
Proof.
  intros Hpos Hb. unfold kept. apply elem_of_nil_inv. intros [s tx] [Hk Hin]%list_elem_of_filter. apply tx_starts_bounds in Hin; [|done].
  unfold keeps in Hk. cbn [fst negb orb] in Hk. apply andb_true_iff in Hk as [_ Hk]. apply Z.ltb_lt in Hk. lia.
Qed.

Lemma filter_txs_ok range e l base txs acc :
  Forall (λ tx, 0 < th_data_size tx) txs → base + chunks_of_txs txs cs < 2 ^ 64 →
  (∀ p, p ∈ kept range e l (tx_starts cs base txs) → is_Some (btree_get (p.1 / C) slots)) →
  filter_txs config range e l slots base txs acc = Ok (attributed (kept range e l (tx_starts cs base txs)) acc).
Proof.
  revert base acc. induction txs as [|tx txs IH]; intros base acc Hpos Hfit Hslots; [done|]. pose proof Hpos as Hall.
  apply Forall_cons in Hpos as [Htx Hpos]. pose proof (tx_chunks_pos tx Htx) as Hc. pose proof (chunks_pos txs Hpos) as Hcs'. rewrite chunks_of_txs_cons in Hfit.
  cbn [filter_txs]. rewrite Hconfig. change (div_ceil (th_data_size tx) cs) with (tx_chunks cs tx).
  assert (saturating_add 64 base (tx_chunks cs tx) = base + tx_chunks cs tx) as -> by (unfold saturating_add; lia).
  destruct (e && (base <? range.1)) eqn:He.
  { apply andb_true_iff in He as [-> Hb%Z.ltb_lt]. cbn [tx_starts] in *. rewrite kept_cons in *.
    assert (keeps range true l base = false) as Hk by (unfold keeps; by rewrite (proj2 (Z.leb_gt _ _))). cbn [fst] in *. rewrite Hk in *.
    apply IH; [done|lia|done]. }
  destruct (l && (range.2 <=? base)) eqn:Hl.
  { apply andb_true_iff in Hl as [-> Hb%Z.leb_le]. by rewrite kept_after. }
  assert (keeps range e l base = true) as Hk.
  { unfold keeps. apply andb_true_iff. apply andb_false_iff in He, Hl. rewrite Z.ltb_ge in He. rewrite Z.leb_gt in Hl. rewrite !orb_true_iff, !negb_true_iff, Z.leb_le, Z.ltb_lt. tauto. }
  cbn [tx_starts] in *. rewrite kept_cons in *. cbn [fst] in *. rewrite Hk in *.
  destruct (Hslots (base, tx)) as [miners Hm]; [by left|]. cbn [fst] in Hm. rewrite Hm. res_simpl. rewrite IH; [|done|lia|intros p Hp; apply Hslots; by right].
  unfold btree_of. cbn [foldl]. do 3 f_equal. unfold miners_at. cbn [fst snd]. by rewrite Hm.
Qed.
End Starts.

(** ** The setting *)

(** What a node stores of the chain of the parent, for one ledger: every block is in the tree
    or indexed, totals count whole chunks, and no transaction is in the ledger twice. *)
Record expiry_setting `{DupSort} (v : ExpiryView) (canon chain : list LedgerHeader)
    (txs_of : LedgerHeader → DataLedger → list DataTransactionHeader) (cs : Z) (ledger : DataLedger) : Prop := {
  xs_poa : poa_setting v canon chain txs_of;
  xs_covered : Forall (covered v) chain;
  xs_hashes : NoDup (lh_block_hash <$> chain);
  xs_tx_ids h ids : h ∈ chain → ledger_tx_ids_in h ledger = Some ids → th_id <$> txs_of h ledger = ids;
  xs_sizes h : h ∈ chain → Forall (λ tx, 0 < th_data_size tx) (txs_of h ledger);
  xs_totals i h : chain !! i = Some h → total_at ledger chain i = base_at ledger chain i + chunks_of_txs (txs_of h ledger) cs;
  xs_unique : NoDup (th_id <$> (chain ≫= λ h, txs_of h ledger));
  xs_fit : base_at ledger chain (length chain) < 2 ^ 64
}.

(** The transactions of the ledger, and those that start in a range. *)
Definition ledger_txs (chain : list LedgerHeader) (txs_of : LedgerHeader → DataLedger → list DataTransactionHeader) (ledger : DataLedger)
  : list DataTransactionHeader := chain ≫= λ h, txs_of h ledger.
Definition settled (cs lo hi : Z) (txs : list DataTransactionHeader) : list (Z * DataTransactionHeader) :=
  filter (λ p, lo ≤ p.1 < hi) (tx_starts cs 0 txs).

Section Collect.
  Context `{DupSort} (v : ExpiryView) (canon chain : list LedgerHeader) (txs_of : LedgerHeader → DataLedger → list DataTransactionHeader).
  Context (config : WalkConfig) (ledger : DataLedger) (Hset : expiry_setting v canon chain txs_of (wc_chunk_size config) ledger).
  Context (Hcs : 0 < wc_chunk_size config) (HC : 0 < wc_num_chunks_in_partition config).
  Notation cs := (wc_chunk_size config).
  Notation C := (wc_num_chunks_in_partition config).
  Notation starts i h := (tx_starts cs (base_at ledger chain i) (txs_of h ledger)).

Lemma base_at_sum k : (k ≤ length chain)%nat → base_at ledger chain k = chunks_of_txs (ledger_txs (take k chain) txs_of ledger) cs.
Proof.
  induction k as [|k IH]; intros Hk; [done|]. destruct (lookup_lt_is_Some_2 chain k) as [h Hh]; [lia|]. cbn [base_at].
  rewrite (xs_totals _ _ _ _ _ _ Hset k h Hh), IH, (take_S_r _ _ _ Hh) by lia. unfold ledger_txs. rewrite bind_app, chunks_of_txs_app. cbn.
  by rewrite app_nil_r.
Qed.

Lemma ledger_starts s tx : (s, tx) ∈ tx_starts cs 0 (ledger_txs chain txs_of ledger) ↔ ∃ i h, chain !! i = Some h ∧ (s, tx) ∈ starts i h.
Proof.
  enough (∀ k, (k ≤ length chain)%nat → (s, tx) ∈ tx_starts cs 0 (ledger_txs (take k chain) txs_of ledger) ↔
    ∃ i h, (i < k)%nat ∧ chain !! i = Some h ∧ (s, tx) ∈ starts i h) as Hgen.
  { specialize (Hgen (length chain) ltac:(done)). rewrite take_ge in Hgen by done. rewrite Hgen.
    split; intros (i & h & Hi); exists i, h; [tauto|]. destruct Hi as [Hi Hs]. pose proof (lookup_lt_Some _ _ _ Hi). tauto. }
  induction k as [|k IH]; intros Hk.
  - cbn. split; [by intros ?%elem_of_nil|]. intros (i & h & Hi & _). lia.
  - destruct (lookup_lt_is_Some_2 chain k) as [h Hh]; [lia|]. rewrite (take_S_r _ _ _ Hh). unfold ledger_txs. rewrite bind_app, tx_starts_app, elem_of_app.
    fold (ledger_txs (take k chain) txs_of ledger). rewrite IH, <- base_at_sum by lia. cbn. rewrite app_nil_r, Z.add_0_l. split.
    + intros [(i & g & Hi & Hg)|Hs]; [exists i, g; split; [lia|done]|by exists k, h; split; [lia|]].
    + intros (i & g & Hi & Hg & Hs). destruct (decide (i = k)) as [->|]; [right; congruence|]. left. exists i, g. split; [lia|done].
Qed.

Lemma starts_bounds i h s tx : chain !! i = Some h → (s, tx) ∈ starts i h → base_at ledger chain i ≤ s < total_at ledger chain i.
Proof.
  intros Hi Hs. rewrite (xs_totals _ _ _ _ _ _ Hset i h Hi). apply (tx_starts_bounds _ Hcs _ _ _ tx); [|done].
  apply (xs_sizes _ _ _ _ _ _ Hset). by eapply list_elem_of_lookup_2.
Qed.

Lemma settled_in lo hi s tx : (s, tx) ∈ settled cs lo hi (ledger_txs chain txs_of ledger) ↔
  ∃ i h, chain !! i = Some h ∧ (s, tx) ∈ starts i h ∧ lo ≤ s < hi.
Proof.
  unfold settled. rewrite list_elem_of_filter, ledger_starts. cbn [fst]. split; [intros [? (i & h & ? & ?)]; by exists i, h|].
  intros (i & h & ? & ? & ?). split; [done|by exists i, h].
Qed.

(** A start and a transaction are determined by the id. *)
Lemma starts_unique p q : p ∈ tx_starts cs 0 (ledger_txs chain txs_of ledger) → q ∈ tx_starts cs 0 (ledger_txs chain txs_of ledger) →
  th_id p.2 = th_id q.2 → p = q.
Proof.
  intros [i Hi]%list_elem_of_lookup [j Hj]%list_elem_of_lookup Hid. pose proof (xs_unique _ _ _ _ _ _ Hset) as Hnd. fold (ledger_txs chain txs_of ledger) in Hnd.
  rewrite <- (tx_starts_snd cs 0 (ledger_txs chain txs_of ledger)), <- list_fmap_compose in Hnd. assert (i = j) as ->; [|congruence].
  eapply (NoDup_lookup _ i j _ Hnd); rewrite list_lookup_fmap, ?Hi, ?Hj; [done|]. cbn. by f_equal.
Qed.

(** ** The blocks of the range *)

Lemma block_headers_ok i h : chain !! i = Some h → is_Some (ledger_of_header h ledger) → ledger_tx_headers_of_block v (lh_block_hash h) ledger = Ok (txs_of h ledger).
Proof.
  intros Hi Hled. pose proof (list_elem_of_lookup_2 _ _ _ Hi) as Hin. pose proof (xs_poa _ _ _ _ _ _ Hset) as Hp.
  pose proof (ps_txs _ _ _ _ Hp h ledger Hin Hled) as Hreads. destruct Hled as [dl Hdl]. assert (Hids : ledger_tx_ids_in h ledger = Some (tl_tx_ids dl)) by (unfold ledger_tx_ids_in; by rewrite Hdl).
  unfold ledger_tx_headers_of_block. unfold reads_txs in Hreads. destruct (v_tree v !! lh_block_hash h) as [b|] eqn:Hb.
  - unfold ledger_tx_headers_of_sealed_block. rewrite (vo_tree _ _ _ (ps_view _ _ _ _ Hp) h b Hin Hb), Hids. res_simpl.
    rewrite Hreads, (xs_tx_ids _ _ _ _ _ _ Hset h _ Hin Hids), bool_decide_true by done. done.
  - destruct Hreads as (ids & -> & Hids' & Hall). res_simpl. rewrite Hids'. res_simpl. clear -Hall.
    induction Hall as [|id tx ids txs Htx _ IH]; [done|]. cbn [mapM]. rewrite Htx. res_simpl. by rewrite IH.
Qed.

Notation all_starts := (tx_starts cs 0 (ledger_txs chain txs_of ledger)).

Lemma ledger_present i h : chain !! i = Some h → 0 < total_at ledger chain i → is_Some (ledger_of_header h ledger).
Proof.
  intros Hi Hpos. rewrite (total_at_Some _ _ _ _ Hi) in Hpos. apply find_ledger_positive in Hpos as (l & Hl & _).
  rewrite find_header_item in Hl. apply fmap_Some in Hl as (dl & -> & _). by eexists.
Qed.

Lemma base_at_nonneg i : (i ≤ length chain)%nat → 0 ≤ base_at ledger chain i.
Proof.
  intros Hi. rewrite base_at_sum by done. apply (chunks_pos _ Hcs). apply Forall_forall. intros tx (h & Htx & Hh)%list_elem_of_bind.
  pose proof (xs_sizes _ _ _ _ _ _ Hset h (subseteq_take i chain h Hh)) as Hs. by apply (proj1 (Forall_forall _ _) Hs).
Qed.

Section Slots.
  Context (slots : BTreeMap (list Z)).
  Notation attributed := (btree_of id_at (miners_at config slots)).

(** What a pass over blocks has collected. *)
Record collected (L : list (Z * DataTransactionHeader)) (r : BTreeMap (list Z) * list DataTransactionHeader) : Prop := {
  cl_map : r.1 = attributed L [];
  cl_headers tx : tx ∈ r.2 ↔ tx ∈ L.*2;
  cl_sub p : p ∈ L → p ∈ all_starts
}.

Lemma functional_sub {A} (val : Z * DataTransactionHeader → A) L : (∀ p, p ∈ L → p ∈ all_starts) → functional id_at val L.
Proof. intros Hsub p q Hp Hq Hid. by rewrite (starts_unique p q (Hsub p Hp) (Hsub q Hq) Hid). Qed.

Lemma collected_app L L' r r' : collected L r → collected L' r' → collected (L ++ L') (btree_extend r.1 r'.1, r.2 ++ r'.2).
Proof.
  intros [Hm Hh Hs] [Hm' Hh' Hs']. assert (Hsub : ∀ p, p ∈ L ++ L' → p ∈ all_starts) by (intros p [?|?]%elem_of_app; auto).
  split; cbn [fst snd]; [|intros tx; by rewrite fmap_app, !elem_of_app, Hh, Hh'|done].
  rewrite Hm, Hm'. apply btree_extend_of. by apply functional_sub.
Qed.

Lemma collected_nil : collected [] ([], []).
Proof. split; [done|intros tx; cbn; done|]. by intros p ?%elem_of_nil. Qed.

Lemma process_block_ok i h range e l :
  chain !! i = Some h → 0 < total_at ledger chain i →
  (∀ p, p ∈ kept range e l (starts i h) → is_Some (btree_get (p.1 / C) slots)) →
  ∃ r, process_block v config (lh_block_hash h) (base_at ledger chain i) range e l ledger slots = Ok r ∧ collected (kept range e l (starts i h)) r.
Proof.
  intros Hi Hpos Hslots. unfold process_block. rewrite (block_headers_ok i h Hi (ledger_present i h Hi Hpos)). res_simpl.
  unfold filter_transactions_by_chunk_range. destruct (Z.eqb_spec cs 0); [lia|]. destruct (Z.eqb_spec C 0); [lia|]. res_simpl.
  pose proof (lookup_lt_Some _ _ _ Hi) as Hlt. pose proof (xs_sizes _ _ _ _ _ _ Hset h (list_elem_of_lookup_2 _ _ _ Hi)) as Hsz.
  rewrite (filter_txs_ok cs Hcs config eq_refl slots range e l); [|done| |done].
  2:{ rewrite <- (xs_totals _ _ _ _ _ _ Hset i h Hi). pose proof (xs_fit _ _ _ _ _ _ Hset).
      pose proof (total_base_le ledger chain (vo_chain _ _ _ (ps_view _ _ _ _ (xs_poa _ _ _ _ _ _ Hset))) i (length chain) ltac:(lia)). lia. }
  res_simpl. assert (Hsub : ∀ p, p ∈ kept range e l (starts i h) → p ∈ all_starts).
  { intros [s tx] [_ Hp]%list_elem_of_filter. apply ledger_starts. by exists i, h. }
  eexists. split; [done|]. split; cbn [fst snd]; [done| |done]. intros tx. rewrite list_elem_of_filter, btree_of_keys by (by apply functional_sub).
  rewrite !list_elem_of_fmap. split.
  - intros [(p & Hid & Hp) Htx]. exists p. split; [|done]. rewrite <- (tx_starts_snd cs (base_at ledger chain i) (txs_of h ledger)) in Htx.
    apply list_elem_of_fmap in Htx as ([s tx'] & -> & Hq). rewrite (starts_unique (s, tx') p); [done| |by apply Hsub|done].
    apply ledger_starts. by exists i, h.
  - intros ([s tx'] & -> & Hp). split; [by exists (s, tx')|]. apply list_elem_of_filter in Hp as [_ Hp].
    rewrite <- (tx_starts_snd cs (base_at ledger chain i) (txs_of h ledger)). by apply (list_elem_of_fmap_2 snd) in Hp.
Qed.

(** The middle blocks need no trim. *)
Lemma process_middle_blocks_ok ms range acc La :
  Forall (λ kb, ∃ i h, chain !! i = Some h ∧ kb = (lh_block_hash h, base_at ledger chain i) ∧ 0 < total_at ledger chain i ∧
            ∀ p, p ∈ starts i h → is_Some (btree_get (p.1 / C) slots)) ms →
  collected La acc →
  ∃ r L, process_middle_blocks v config ms range ledger slots acc = Ok r ∧ collected L r ∧
    ∀ p, p ∈ L ↔ p ∈ La ∨ ∃ i h, chain !! i = Some h ∧ (lh_block_hash h, base_at ledger chain i) ∈ ms ∧ p ∈ starts i h.
Proof.
  intros Hms. revert acc La. induction Hms as [|kb ms (i & h & Hi & -> & Hpos & Hslots) _ IH]; intros acc La Hacc; cbn [process_middle_blocks].
  - exists acc, La. split_and!; [done..|]. intros p. split; [by left|]. intros [?|(i & h & _ & ?%elem_of_nil & _)]; done.
  - assert (Hall : kept range false false (starts i h) = starts i h) by by apply kept_all.
    destruct (process_block_ok i h range false false Hi Hpos) as (r & -> & Hr); [by rewrite Hall|]. res_simpl. rewrite Hall in Hr.
    destruct (IH _ _ (collected_app _ _ _ _ Hacc Hr)) as (r' & L & -> & HL & Hel). exists r', L. split_and!; [done..|].
    intros p. rewrite Hel, elem_of_app. setoid_rewrite elem_of_cons. split.
    + intros [[?|?]|(j & g & ? & ? & ?)]; [by left|right; exists i, h; auto|right; exists j, g; auto].
    + intros [?|(j & g & Hj & [[= Hhash Hb]|?] & Hp)]; [auto| |right; exists j, g; auto]. left. right.
      assert (j = i) as -> by (by apply (same_hash chain (xs_hashes _ _ _ _ _ _ Hset) j i g h)). congruence.
Qed.

(** ** The walk *)

Context (parent : LedgerHeader) (Hparent : last chain = Some parent).
Context (a : Z) (n : nat) (Ha : 0 ≤ a) (Hn : (0 < n)%nat) (Hkeys : slots.*1 = seqZ a (Z.of_nat n)).
Notation max_offset := (lh_total_chunks parent ledger).
Notation lo := (slot_start ledger config parent a).
Notation hi := (slot_start ledger config parent (a + Z.of_nat n)).
Context (Hshared : shared canon chain ledger hi).

Lemma max_offset_fits : 0 ≤ max_offset < 2 ^ 64.
Proof.
  rewrite (parent_total ledger chain parent Hparent). split; [by apply base_at_nonneg|]. apply (xs_fit _ _ _ _ _ _ Hset).
Qed.

Lemma slot_present s : lo ≤ s < hi → is_Some (btree_get (s / C) slots).
Proof.
  intros Hs. pose proof max_offset_fits as Hmax. apply btree_get_key. rewrite Hkeys. apply elem_of_seqZ. unfold slot_start in Hs.
  assert (a * C ≤ s) by nia. split; [apply Z.div_le_lower_bound; lia|apply Z.div_lt_upper_bound; nia].
Qed.

Lemma lo_nonneg : 0 ≤ lo.
Proof. pose proof max_offset_fits. unfold slot_start. nia. Qed.

(** The blocks of the range: the first, the last, and those between. *)
Lemma find_block_range_ok :
  (hi ≤ lo ∧ find_block_range v config slots ledger max_offset (lh_block_hash parent) = Ok None) ∨
  (lo < hi ∧ ∃ i0 h0 i1 h1 mid, block_at ledger chain lo i0 h0 ∧ block_at ledger chain (hi - 1) i1 h1 ∧
     find_block_range v config slots ledger max_offset (lh_block_hash parent) =
       Ok (Some (mkBlockRange (mkBoundaryBlock (Z.of_nat i0) (lh_block_hash h0) (base_at ledger chain i0) (lo, hi))
                              (mkBoundaryBlock (Z.of_nat i1) (lh_block_hash h1) (base_at ledger chain i1) (lo, hi)) mid slots)) ∧
     ∀ k b, (k, b) ∈ mid ↔ ∃ i h, chain !! i = Some h ∧ lh_block_hash h = k ∧ base_at ledger chain i = b ∧ touches ledger chain lo hi i ∧ i ≠ i0 ∧ i ≠ i1).
Proof.
  pose proof (xs_poa _ _ _ _ _ _ Hset) as Hp. pose proof (ps_view _ _ _ _ Hp) as Hv. pose proof (xs_hashes _ _ _ _ _ _ Hset) as Hnd.
  pose proof lo_nonneg as Hlo. unfold find_block_range. rewrite Hkeys.
  destruct (probe_slots_ok ledger chain (vo_chain _ _ _ Hv) Hnd v canon Hv (xs_covered _ _ _ _ _ _ Hset) config parent Hparent hi Hshared a n lo (mkRangeState [] None None) None)
    as (st & -> & [Hok Hbases Hends]); [done|done|apply max_offset_fits|lia|done|by apply probed_start|by left|]. res_simpl.
  destruct Hends as [(Heq & -> & ->)|(Hlt & (i0 & h0 & H0 & ->) & (i1 & h1 & H1 & ->))]; [left; split; [lia|done]|].
  right. split; [done|]. exists i0, h0, i1, h1. eexists. split_and!; [done|done|res_simpl; done|].
  intros k b. rewrite <- btree_get_elem by (by repeat apply btree_remove_ok). rewrite !btree_get_remove by (by try apply btree_remove_ok).
  assert (Hsame : ∀ i h j g, chain !! i = Some h → chain !! j = Some g → lh_block_hash h = lh_block_hash g → i = j) by (intros i h j g; by apply (same_hash chain Hnd)).
  destruct H0 as [H0 _], H1 as [H1 _]. destruct (Z.eqb_spec k (lh_block_hash h1)) as [->|Hk1].
  { split; [done|]. intros (i & h & Hi & Hhash & _ & _ & _ & Hne). destruct Hne. by eapply Hsame. }
  destruct (Z.eqb_spec k (lh_block_hash h0)) as [->|Hk0].
  { split; [done|]. intros (i & h & Hi & Hhash & _ & _ & Hne & _). destruct Hne. by eapply Hsame. }
  rewrite Hbases. split; intros (i & h & Hi & Hhash & Hb & Ht); exists i, h; split_and!; try tauto; intros ->; congruence.
Qed.

(** Which transactions of a block the trims keep. *)
Lemma kept_in_range i h e l s tx :
  chain !! i = Some h → (e = false → lo ≤ base_at ledger chain i) → (l = false → total_at ledger chain i ≤ hi) →
  (s, tx) ∈ kept (lo, hi) e l (starts i h) ↔ (s, tx) ∈ starts i h ∧ lo ≤ s < hi.
Proof.
  intros Hi He Hl. unfold kept. rewrite list_elem_of_filter. unfold keeps. cbn [fst snd]. rewrite andb_true_iff, !orb_true_iff, !negb_true_iff, Z.leb_le, Z.ltb_lt.
  split; [intros [Hk Hs]|intros [Hs Hr]; tauto]. split; [done|]. pose proof (starts_bounds i h s tx Hi Hs). destruct e, l; naive_solver lia.
Qed.

(** A block that overlaps the range without being its first or last lies inside. *)
Lemma touched_inside i0 h0 i1 h1 i h :
  block_at ledger chain lo i0 h0 → block_at ledger chain (hi - 1) i1 h1 → chain !! i = Some h → touches ledger chain lo hi i → i ≠ i0 → i ≠ i1 →
  lo ≤ base_at ledger chain i ∧ total_at ledger chain i ≤ hi ∧ (i0 < i < i1)%nat ∧ 0 < total_at ledger chain i.
Proof.
  intros H0 H1 Hi Ht Hn0 Hn1. pose proof (vo_chain _ _ _ (ps_view _ _ _ _ (xs_poa _ _ _ _ _ _ Hset))) as Hch.
  pose proof (lookup_lt_Some _ _ _ Hi). pose proof (block_at_lt _ _ _ _ _ H0). pose proof (block_at_lt _ _ _ _ _ H1). destruct H0 as [_ H0], H1 as [_ H1].
  unfold touches in Ht. pose proof lo_nonneg. assert (i0 < i)%nat.
  { destruct (Nat.lt_ge_cases i0 i); [done|]. pose proof (total_base_le ledger chain Hch i i0 ltac:(lia)). lia. }
  assert (i < i1)%nat.
  { destruct (Nat.lt_ge_cases i i1); [done|]. pose proof (total_base_le ledger chain Hch i1 i ltac:(lia)). lia. }
  pose proof (total_base_le ledger chain Hch i0 i ltac:(lia)). pose proof (total_base_le ledger chain Hch i i1 ltac:(lia)). lia.
Qed.

Notation settled_here := (settled cs lo hi (ledger_txs chain txs_of ledger)).

(** What was collected over the settled transactions passes the last check. *)
Lemma collected_settled L r :
  collected L r → (∀ p, p ∈ L ↔ p ∈ settled_here) →
  r.1 = attributed settled_here [] ∧ by_id r.2 = by_id settled_here.*2 ∧ r.1.*1 = (by_id r.2).*1.
Proof.
  intros [Hm Hh Hsub] Hel.
  assert (Hf : functional th_id (λ tx, tx) r.2).
  { intros tx tx' (p & -> & Hp)%Hh%list_elem_of_fmap (q & -> & Hq)%Hh%list_elem_of_fmap Hid. by rewrite (starts_unique p q (Hsub p Hp) (Hsub q Hq) Hid). }
  assert (r.1 = attributed settled_here []) as Hmap by (rewrite Hm; apply btree_of_elements; [by apply functional_sub|done]).
  split_and!; [done| |].
  - change (by_id r.2) with (btree_of th_id (λ tx, tx) r.2 []). apply btree_of_elements; [done|]. intros tx. rewrite Hh, !list_elem_of_fmap. by setoid_rewrite Hel.
  - rewrite Hm. change (by_id r.2) with (btree_of th_id (λ tx, tx) r.2 []). apply btree_keys_eq; [by apply btree_of_ok; constructor..|].
    intros k. rewrite btree_of_keys by (by apply functional_sub). rewrite btree_of_keys by done. rewrite !list_elem_of_fmap. split.
    + intros (p & -> & Hp). exists p.2. split; [done|]. apply Hh. by apply list_elem_of_fmap_2.
    + intros (tx & -> & (p & -> & Hp)%Hh%list_elem_of_fmap). by exists p.
Qed.

(** The three passes, for a range from block [i0] to block [i1]. *)
Section Passes.
  Context (i0 i1 : nat) (h0 h1 : LedgerHeader) (mid : BTreeMap Z) (Hlt : lo < hi).
  Context (H0 : block_at ledger chain lo i0 h0) (H1 : block_at ledger chain (hi - 1) i1 h1).
  Context (Hmid : ∀ k b, (k, b) ∈ mid ↔ ∃ i h, chain !! i = Some h ∧ lh_block_hash h = k ∧ base_at ledger chain i = b ∧
                    touches ledger chain lo hi i ∧ i ≠ i0 ∧ i ≠ i1).
  Notation same := (lh_block_hash h0 =? lh_block_hash h1).

Lemma chain_here : chain_ok chain.
Proof. apply (vo_chain _ _ _ (ps_view _ _ _ _ (xs_poa _ _ _ _ _ _ Hset))). Qed.

Lemma first_last : (i0 ≤ i1)%nat.
Proof. apply (block_at_le ledger chain chain_here lo (hi - 1) i0 i1 h0 h1 H0 H1). lia. Qed.

Lemma same_iff : same = true ↔ i0 = i1.
Proof.
  destruct H0 as [Hi0 _], H1 as [Hi1 _]. rewrite Z.eqb_eq. split; [by apply (same_hash chain (xs_hashes _ _ _ _ _ _ Hset))|]. intros ->. congruence.
Qed.

Lemma first_before_last : i0 ≠ i1 → total_at ledger chain i0 < hi ∧ lo ≤ base_at ledger chain i1.
Proof.
  intros Hne. pose proof first_last. pose proof (block_at_lt _ _ _ _ _ H1). pose proof (total_base_le ledger chain chain_here i0 i1 ltac:(lia)).
  destruct H0 as [_ Hr0], H1 as [_ Hr1]. lia.
Qed.

Lemma earliest_ok : ∃ r L, process_block v config (lh_block_hash h0) (base_at ledger chain i0) (lo, hi) true same ledger slots = Ok r ∧ collected L r ∧
  ∀ s tx, (s, tx) ∈ L ↔ (s, tx) ∈ starts i0 h0 ∧ lo ≤ s < hi.
Proof.
  pose proof H0 as [Hi0 Hr0]. pose proof lo_nonneg.
  assert (Hk : ∀ s tx, (s, tx) ∈ kept (lo, hi) true same (starts i0 h0) ↔ (s, tx) ∈ starts i0 h0 ∧ lo ≤ s < hi).
  { intros s tx. apply kept_in_range; [done|done|]. intros Hf. assert (i0 ≠ i1) as Hne by (intros ?%same_iff; congruence). apply first_before_last in Hne. lia. }
  destruct (process_block_ok i0 h0 (lo, hi) true same Hi0) as (r & Hr & Hc); [lia|intros [s tx] Hp; apply slot_present; by apply Hk in Hp as [_ ?]|].
  by exists r, (kept (lo, hi) true same (starts i0 h0)).
Qed.

Lemma latest_ok : ∃ r L, (if same then Ok ([], []) else process_block v config (lh_block_hash h1) (base_at ledger chain i1) (lo, hi) false true ledger slots) = Ok r ∧
  collected L r ∧ ∀ s tx, (s, tx) ∈ L ↔ i0 ≠ i1 ∧ (s, tx) ∈ starts i1 h1 ∧ lo ≤ s < hi.
Proof.
  pose proof H1 as [Hi1 Hr1]. pose proof lo_nonneg. destruct (decide (i0 = i1)) as [Heq|Hne].
  - rewrite (proj2 same_iff Heq). exists ([], []), []. split_and!; [done|apply collected_nil|]. intros s tx. rewrite elem_of_nil. tauto.
  - destruct same eqn:Hs; [by apply same_iff in Hs|]. pose proof (proj2 (first_before_last Hne)).
    assert (Hk : ∀ s tx, (s, tx) ∈ kept (lo, hi) false true (starts i1 h1) ↔ (s, tx) ∈ starts i1 h1 ∧ lo ≤ s < hi) by (intros s tx; apply kept_in_range; done).
    destruct (process_block_ok i1 h1 (lo, hi) false true Hi1) as (r & Hr & Hc); [lia|intros [s tx] Hp; apply slot_present; by apply Hk in Hp as [_ ?]|].
    exists r. eexists. split_and!; [done|exact Hc|]. intros s tx. rewrite Hk. tauto.
Qed.

Lemma middle_ok : ∃ r L, process_middle_blocks v config mid (lo, hi) ledger slots ([], []) = Ok r ∧ collected L r ∧
  ∀ s tx, (s, tx) ∈ L ↔ ∃ i h, chain !! i = Some h ∧ i ≠ i0 ∧ i ≠ i1 ∧ (s, tx) ∈ starts i h ∧ lo ≤ s < hi.
Proof.
  destruct (process_middle_blocks_ok mid (lo, hi) ([], []) []) as (r & L & Hr & Hc & HL); [|apply collected_nil|].
  { apply Forall_forall. intros [k b] (i & h & Hi & <- & <- & Ht & Hn0 & Hn1)%Hmid. exists i, h.
    destruct (touched_inside i0 h0 i1 h1 i h H0 H1 Hi Ht Hn0 Hn1) as (? & ? & _ & ?). split_and!; [done..|]. intros [s tx] Hp. apply slot_present.
    pose proof (starts_bounds i h s tx Hi Hp). cbn [fst]. lia. }
  exists r, L. split_and!; [done..|]. intros s tx. rewrite HL. split.
  - intros [?%elem_of_nil|(i & h & Hi & (j & g & Hj & Hhash & _ & Ht & Hn0 & Hn1)%Hmid & Hs)]; [done|].
    assert (j = i) as -> by (by apply (same_hash chain (xs_hashes _ _ _ _ _ _ Hset) j i g h)). exists i, h. split_and!; [done..| |].
    all: destruct (touched_inside i0 h0 i1 h1 i h H0 H1 Hi Ht Hn0 Hn1) as (? & ? & _ & _); pose proof (starts_bounds i h s tx Hi Hs); lia.
  - intros (i & h & Hi & Hn0 & Hn1 & Hs & Hr'). right. exists i, h. split_and!; [done| |done]. apply Hmid. exists i, h. split_and!; [done..| |done|done].
    pose proof (starts_bounds i h s tx Hi Hs). unfold touches. lia.
Qed.

Lemma collect_ok : collect_tx_to_miners_from_range v config
    (mkBlockRange (mkBoundaryBlock (Z.of_nat i0) (lh_block_hash h0) (base_at ledger chain i0) (lo, hi))
                  (mkBoundaryBlock (Z.of_nat i1) (lh_block_hash h1) (base_at ledger chain i1) (lo, hi)) mid slots) ledger =
  Ok (attributed settled_here [], by_id settled_here.*2).
Proof.
  unfold collect_tx_to_miners_from_range, process_boundary_block. cbn [min_block max_block middle_blocks slot_miners bd_block_hash bd_base bd_range].
  destruct earliest_ok as (r0 & L0 & -> & Hc0 & HL0), middle_ok as (rm & Lm & -> & Hcm & HLm), latest_ok as (r1 & L1 & -> & Hc1 & HL1). res_simpl.
  pose proof (collected_app _ _ _ _ (collected_app _ _ _ _ (collected_app _ _ _ _ collected_nil Hc0) Hc1) Hcm) as Hall.
  cbn [fst snd app] in Hall. apply collected_settled in Hall as (Hmap & Hby & Hkeq).
  - cbn [fst snd] in *. rewrite <- app_assoc in Hby, Hkeq. rewrite Hkeq, bool_decide_true, Hby by done. cbn [negb]. res_simpl. by rewrite Hmap.
  - intros [s tx]. rewrite !elem_of_app, HL0, HL1, HLm, settled_in. destruct H0 as [Hi0 _], H1 as [Hi1 _]. split.
    + intros [[[??]|(? & ? & ?)]|(i & h & Hi & _ & _ & ? & ?)]; [by exists i0, h0|by exists i1, h1|by exists i, h].
    + intros (i & h & Hi & Hs & Hr). destruct (decide (i = i0)) as [->|Hn0]; [left; left; by rewrite Hi0 in Hi; injection Hi as ->|].
      destruct (decide (i = i1)) as [->|Hn1]; [left; right; rewrite Hi1 in Hi; injection Hi as ->; done|]. right. by exists i, h.
Qed.
End Passes.

(** The walk settles the transactions that start in the slots. *)
Lemma expired_walk_ok :
  (hi ≤ lo ∧ settled_here = [] ∧ find_block_range v config slots ledger max_offset (lh_block_hash parent) = Ok None) ∨
  (∃ range, find_block_range v config slots ledger max_offset (lh_block_hash parent) = Ok (Some range) ∧
     collect_tx_to_miners_from_range v config range ledger = Ok (attributed settled_here [], by_id settled_here.*2)).
Proof.
  destruct find_block_range_ok as [[Hle Hfind]|(Hlt & i0 & h0 & i1 & h1 & mid & H0 & H1 & Hfind & Hmid)].
  - left. split_and!; [done| |done]. apply elem_of_nil_inv. intros [s tx] (i & h & _ & _ & ?)%settled_in. lia.
  - right. eexists. split; [exact Hfind|]. by apply collect_ok.
Qed.
End Slots.
End Collect.
