(* ===== verification/Promotion.v ===== *)
(** Which transactions were promoted on a branch, and where a transaction entered the Submit
    ledger: the lookups through the tree, the table of headers and the metadata answer what
    the blocks of the branch say; so does the verdict on one candidate for promotion. *)

From S2P Require Import TreeHash Pricing StateErr DataLedger EpochSnapshot EpochInv LedgerExpiry Codec Packing Merkle BlockIndex BlockIndexFacts IndexFile Poa PoaFacts PoaTheorems FeeSplit BTree ExpiryWalk ExpirySettle ExpiryCollect Prelude.

(** What migration writes for the blocks of the index. *)
Record metadata_ok (v : ExpiryView) (canon : list LedgerHeader) : Prop := {
  mo_header c : c ∈ canon → v_headers v !! lh_block_hash c = Some c;
  mo_included i c id : canon !! i = Some c → block_includes_ledger_tx c Submit id = true → ev_included v !! id = Some (Z.of_nat i);
  mo_promoted i c id : canon !! i = Some c → block_includes_ledger_tx c Publish id = true → ev_promoted v !! id = Some (Z.of_nat i)
}.

Lemma btree_set_elem l x : x ∈ btree_set l ↔ x ∈ l.
Proof.
  unfold btree_set. change (foldl _ [] l) with (btree_of (λ x, x) (λ _, ()) l []).
  assert (Hf : functional (λ x : Z, x) (λ _, ()) l) by done. assert (Hok : btree_ok (btree_of (λ x, x) (λ _, ()) l [])) by (apply btree_of_ok; constructor).
  transitivity (x ∈ (λ x, x) <$> l); [|by rewrite list_fmap_id]. rewrite <- (btree_of_keys (λ x, x) (λ _, ()) l x Hf). split; [by apply btree_get_key|].
  intros [u Hu]. apply btree_get_elem in Hu; [|done]. by apply (list_elem_of_fmap_2 fst) in Hu.
Qed.

Section Promotion.
  Context `{DupSort} (v : ExpiryView) (canon chain : list LedgerHeader) (Hv : view_ok v canon chain) (Hcov : Forall (covered v) chain).
  Context (Hmeta : metadata_ok v canon).

(** ** Canonical lookups *)

Lemma canonical_header_ok h : canonical_header_at_height v h = Ok (if 0 <=? h then canon !! Z.to_nat h else None).
Proof.
  unfold canonical_header_at_height. rewrite (io_hash _ _ _ (vo_index _ _ _ Hv)). destruct (Z.leb_spec 0 h); [|done].
  rewrite list_lookup_fmap. destruct (canon !! Z.to_nat h) as [c|] eqn:Hc; [|done]. cbn [fmap option_fmap option_map header_item bi_block_hash].
  rewrite (mo_header _ _ Hmeta c (list_elem_of_lookup_2 _ _ _ Hc)). res_simpl.
  rewrite (co_height _ (vo_canon _ _ _ Hv) _ _ Hc), Z2Nat.id, Z.eqb_refl by done. done.
Qed.

(** [hint] is right for the blocks of the index. *)
Lemma canonical_metadata_ok hint id max ledger :
  (∀ i c, canon !! i = Some c → block_includes_ledger_tx c ledger id = true → hint = Some (Z.of_nat i)) →
  ∃ r, canonical_metadata_height v hint id max ledger = Ok r ∧
    ∀ h, r = Some h ↔ h ≤ max ∧ ∃ i c, h = Z.of_nat i ∧ canon !! i = Some c ∧ block_includes_ledger_tx c ledger id = true.
Proof.
  intros Hhint. unfold canonical_metadata_height. destruct hint as [t|].
  2:{ exists None. split; [done|]. intros h. split; [done|]. intros (_ & i & c & _ & Hc & Hin). by specialize (Hhint i c Hc Hin). }
  destruct (Z.ltb_spec max t) as [Hlt|Hge].
  { exists None. split; [done|]. intros h. split; [done|]. intros (Hle & i & c & -> & Hc & Hin). specialize (Hhint i c Hc Hin). injection Hhint as ->. lia. }
  rewrite canonical_header_ok. res_simpl. eexists. split; [done|]. intros h. split.
  - destruct (Z.leb_spec 0 t); [|done]. destruct (canon !! Z.to_nat t) as [c|] eqn:Hc; [|done]. destruct (block_includes_ledger_tx c ledger id) eqn:Hin; [|done].
    intros [= <-]. split; [done|]. exists (Z.to_nat t), c. split_and!; [lia|done..].
  - intros (_ & i & c & -> & Hc & Hin). pose proof (Hhint i c Hc Hin) as [= ->]. rewrite (proj2 (Z.leb_le 0 _)), Nat2Z.id, Hc, Hin by lia. done.
Qed.

(** ** The walk over ancestors *)

Lemma ancestor_canonical k p : chain !! k = Some p → v_tree v !! lh_block_hash p = None → canon !! k = Some p.
Proof.
  intros Hk Hn. destruct (proj1 (Forall_lookup _ _) Hcov k p Hk) as [[b Hb]|Hm]; [by rewrite Hn in Hb|].
  rewrite (co_height _ (vo_chain _ _ _ Hv) _ _ Hk) in Hm. by apply (canonical_at v canon chain Hv).
Qed.

Lemma canonical_below k j p q : chain !! k = Some p → canon !! k = Some p → (j ≤ k)%nat → chain !! j = Some q → canon !! j = Some q.
Proof.
  intros Hk Hc Hjk Hq. pose proof (canonical_prefix v canon chain Hv k p Hk Hc) as Heq.
  rewrite <- (lookup_take_lt canon (S k) j), Heq, lookup_take_lt by lia. done.
Qed.

(** What a round reads: the block itself. *)
Lemma ancestor_read k p in_tree :
  chain !! k = Some p → (in_tree = true ∨ canon !! k = Some p) →
  let here := in_tree && bool_decide (is_Some (v_tree v !! lh_block_hash p)) in
  (if here then get_block v (lh_block_hash p) else v_headers v !! lh_block_hash p) = Some p ∧ (here = true ∨ canon !! k = Some p).
Proof.
  intros Hk Hor here. subst here. destruct (v_tree v !! lh_block_hash p) as [b|] eqn:Hb.
  - rewrite bool_decide_true by (by eexists). rewrite andb_true_r. destruct in_tree.
    + split; [|by left]. unfold get_block. rewrite Hb. cbn. by rewrite (vo_tree _ _ _ Hv p b (list_elem_of_lookup_2 _ _ _ Hk) Hb).
    + destruct Hor as [|Hc]; [done|]. split; [|by right]. apply (mo_header _ _ Hmeta). by eapply list_elem_of_lookup_2.
  - rewrite bool_decide_false by (by intros [? ?]). rewrite andb_false_r. pose proof (ancestor_canonical k p Hk Hb) as Hc. split; [|by right].
    apply (mo_header _ _ Hmeta). by eapply list_elem_of_lookup_2.
Qed.

Lemma walk_fuel_enough k p : chain !! k = Some p → (k ≤ walk_fuel v (lh_block_hash p))%nat.
Proof.
  intros Hk. destruct (ancestor_read _ _ true Hk (or_introl eq_refl)) as [Hread _]. cbn [andb] in Hread. unfold walk_fuel.
  pose proof (co_height _ (vo_chain _ _ _ Hv) _ _ Hk) as Hh. case_bool_decide as Hin.
  - rewrite Hread. lia.
  - unfold get_block. destruct (v_tree v !! lh_block_hash p); [destruct Hin; by eexists|]. cbn. rewrite Hread. lia.
Qed.

(** The candidates found in visited blocks, and those that remain. *)
Record visited (cands : list Z) (V : LedgerHeader → Prop) (st : list Z * BTreeMap Z) : Prop := {
  vs_ok : btree_ok st.2;
  vs_remaining id : id ∈ st.1 ↔ id ∈ cands ∧ ∀ h, V h → block_includes_ledger_tx h Publish id = false;
  vs_promoted id : is_Some (btree_get id st.2) ↔ id ∈ cands ∧ ∃ h, V h ∧ block_includes_ledger_tx h Publish id = true;
  vs_all id : id ∈ cands → id ∈ st.1 ∨ is_Some (btree_get id st.2)
}.

Lemma insert_all_ok ids t (m : BTreeMap Z) : btree_ok m →
  btree_ok (foldl (λ m id, btree_insert id t m) m ids) ∧
  ∀ id, is_Some (btree_get id (foldl (λ m id, btree_insert id t m) m ids)) ↔ id ∈ ids ∨ is_Some (btree_get id m).
Proof.
  intros Hm. change (foldl (λ m id, btree_insert id t m) m ids) with (btree_of (λ x, x) (λ _, t) ids m). split; [by apply btree_of_ok|].
  intros id. assert (Hf : functional (λ x : Z, x) (λ _, t) ids) by done. split.
  - intros [a Ha]. apply btree_get_of in Ha as [(x & Hx & <- & _)|[_ Ha]]; [by left|right; by exists a|done|done].
  - destruct (decide (id ∈ ids)) as [Hin|Hn].
    + intros _. exists t. apply btree_get_of; [done..|]. left. by exists id.
    + intros [?|[a Ha]]; [done|]. exists a. apply btree_get_of; [done..|]. right. by rewrite list_fmap_id.
Qed.

Lemma visited_step cands V st p : visited cands V st →
  visited cands (λ h, V h ∨ h = p) (visit_promotions p st).1 ∧ (visit_promotions p st).2 = bool_decide ((visit_promotions p st).1.1 = []).
Proof.
  intros [Hok Hrem Hprom Hall]. destruct st as [rem prom]. cbn [fst snd] in *. cbv beta iota zeta delta [visit_promotions fst snd]. split; [|done].
  set (here := filter (λ txid, block_includes_ledger_tx p Publish txid = true) rem). destruct (insert_all_ok here (lh_height p) prom Hok) as [Hok' Hget]. split; cbn [fst snd]; [done|..].
  - intros id. rewrite list_elem_of_filter, Hrem. split; [intros (Hp & Hin & HV); split; [done|]; intros h [?| ->]; auto|].
    intros [Hin HV]. split_and!; [by apply HV; right|done|]. intros h Hh. apply HV. by left.
  - intros id. rewrite Hget. unfold here. rewrite list_elem_of_filter. split.
    + intros [(Hp & Hin)|(Hin & h & Hh & Hi)%Hprom]; [split; [by apply Hrem in Hin as [? _]|exists p; split; [by right|done]]|].
      split; [done|]. exists h. split; [by left|done].
    + intros (Hin & h & Hh & Hi). destruct (Hall id Hin) as [Hr|]; [|by right]. left. split; [|done].
      destruct Hh as [Hh| ->]; [|done]. apply Hrem in Hr as [_ Hr]. by rewrite (Hr h Hh) in Hi.
  - intros id Hin. rewrite Hget. unfold here. rewrite !list_elem_of_filter. destruct (Hall id Hin) as [Hr|?]; [|by right; right].
    destruct (block_includes_ledger_tx p Publish id); auto.
Qed.

(** With no candidate left, further blocks say nothing new. *)
Lemma visited_done cands V V' st : visited cands V st → st.1 = [] → (∀ h, V h → V' h) → visited cands V' st.
Proof.
  intros [Hok Hrem Hprom Hall] Hnil Hsub. assert (Hsome : ∀ id, id ∈ cands → is_Some (btree_get id st.2)).
  { intros id Hin. destruct (Hall id Hin) as [Hr|]; [|done]. rewrite Hnil in Hr. by apply elem_of_nil in Hr. }
  split; [done|..|done].
  - intros id. rewrite Hnil, elem_of_nil. split; [done|]. intros [Hin HV]. apply Hsome, Hprom in Hin as (_ & h & Hh & Hi). by rewrite (HV h (Hsub h Hh)) in Hi.
  - intros id. split; [|by intros [Hin _]; apply Hsome]. intros (Hin & h & Hh & Hi)%Hprom. split; [done|]. exists h. auto.
Qed.

Lemma visited_ext cands V V' st : visited cands V st → (∀ h, V h ↔ V' h) → visited cands V' st.
Proof. intros [Hok Hrem Hprom Hall] Heq. split; [done|..|done]; intros id; rewrite ?Hrem, ?Hprom; by setoid_rewrite Heq. Qed.

(** The blocks of the chain from height [lo] to height [k]. *)
Definition between (lo : Z) (k : nat) (h : LedgerHeader) : Prop := ∃ j, (j ≤ k)%nat ∧ lo ≤ Z.of_nat j ∧ chain !! j = Some h.

Lemma walk_promotions_ok k p fuel in_tree lo cands V st :
  chain !! k = Some p → (k ≤ fuel)%nat → (in_tree = true ∨ canon !! k = Some p) → visited cands V st →
  ∃ st', walk_ancestors_tree_then_db v visit_promotions fuel in_tree (lh_block_hash p) lo st = Ok st' ∧ visited cands (λ h, V h ∨ between lo k h) st'.
Proof.
  revert p fuel in_tree V st. induction k as [k IH] using lt_wf_ind. intros p fuel in_tree V st Hk Hfuel Hor Hst.
  destruct (ancestor_read k p in_tree Hk Hor) as [Hread Hor']. assert (Hheight : lh_height p = Z.of_nat k) by (by apply (co_height _ (vo_chain _ _ _ Hv))).
  destruct (visited_step cands V st p Hst) as [Hst' Hstop].
  destruct fuel as [|fuel]; cbn [walk_ancestors_tree_then_db]; rewrite Hread; res_simpl; rewrite Hheight; destruct (Z.ltb_spec (Z.of_nat k) lo) as [Hlo|Hlo].
  1,3: exists st; split; [done|]; eapply visited_ext; [done|]; intros h; split; [by left|]; intros [?|(j & ? & ? & _)]; [done|lia].
  all: destruct (visit_promotions p st) as [st' stop]; cbn [fst snd] in Hst', Hstop.
  all: destruct (stop || (Z.of_nat k =? 0) || (Z.of_nat k =? lo)) eqn:Hend.
  1,3: exists st'; split; [done|].
  1,2: assert (Hsub : ∀ h, V h ∨ h = p → V h ∨ between lo k h) by (intros h [?| ->]; [by left|right; exists k; split_and!; [lia|done..]]).
  1,2: rewrite !orb_true_iff, !Z.eqb_eq in Hend; destruct Hend as [[Hend|Hend]|Hend].
  1,4: eapply visited_done; [done|rewrite Hstop in Hend; by apply bool_decide_eq_true in Hend|done].
  1-4: eapply visited_ext; [done|]; intros h; split; [apply Hsub|]; intros [?|(j & ? & ? & Hj)]; [by left|right]; assert (j = k) as -> by lia; congruence.
  - rewrite !orb_false_iff, !Z.eqb_neq in Hend. lia.
  - rewrite !orb_false_iff, !Z.eqb_neq in Hend. destruct k as [|k]; [lia|]. destruct (lookup_lt_is_Some_2 chain k) as [q Hq]; [apply lookup_lt_Some in Hk; lia|].
    rewrite (co_link _ (vo_chain _ _ _ Hv) _ _ _ Hq Hk).
    destruct (IH k ltac:(lia) q fuel (in_tree && bool_decide (is_Some (v_tree v !! lh_block_hash p))) (λ h, V h ∨ h = p) st' Hq ltac:(lia)) as (st2 & -> & Hst2); [|done|].
    { destruct Hor' as [?|Hc]; [by left|right]. apply (canonical_below (S k) k p q); [done|done|lia|done]. }
    exists st2. split; [done|]. eapply visited_ext; [done|]. intros h. split.
    + intros [[?| ->]|(j & ? & ? & ?)]; [by left|right; exists (S k); split_and!; [lia|lia|done]|right; exists j; split_and!; [lia|done..]].
    + intros [?|(j & Hj & Hjl & Hjh)]; [by left; left|]. destruct (decide (j = S k)) as [->|]; [left; right; congruence|]. right. exists j. split_and!; [lia|done..].
Qed.

(** ** The fallback *)

Definition indexed_promotion (max : Z) (id : Z) : Prop := ∃ i c, Z.of_nat i ≤ max ∧ canon !! i = Some c ∧ block_includes_ledger_tx c Publish id = true.

Lemma promoted_below_ok max ids m : btree_ok m →
  ∃ m', promoted_below v max ids m = Ok m' ∧ btree_ok m' ∧
    ∀ id, is_Some (btree_get id m') ↔ is_Some (btree_get id m) ∨ id ∈ ids ∧ indexed_promotion max id.
Proof.
  revert m. induction ids as [|x ids IH]; intros m Hm; cbn [promoted_below].
  - exists m. split_and!; [done..|]. intros id. split; [by left|]. intros [?|[?%elem_of_nil _]]; done.
  - destruct (canonical_metadata_ok (ev_promoted v !! x) x max Publish) as (r & Hr & Hspec); [intros i c Hc Hin; by apply (mo_promoted _ _ Hmeta i c)|].
    unfold canonical_promoted_height. rewrite Hr. res_simpl.
    set (m1 := match r with Some height => _ | None => _ end). assert (Hm1 : btree_ok m1) by (unfold m1; destruct r; [by apply btree_update_ok|done]).
    destruct (IH m1 Hm1) as (m' & Hm' & Hok' & Hget). exists m'. split_and!; [done..|]. intros id. rewrite Hget, elem_of_cons.
    assert (Hm1s : is_Some (btree_get id m1) ↔ is_Some (btree_get id m) ∨ id = x ∧ indexed_promotion max x).
    { unfold m1. destruct r as [t|].
      - pose proof (proj1 (Hspec t) eq_refl) as (Ht & i & c & -> & Hc & Hin). unfold btree_insert. rewrite btree_get_update by done.
        destruct (Z.eqb_spec id x) as [->|]; [|tauto]. split; [intros _; right; split; [done|]; by exists i, c|]. intros _. by eexists.
      - split; [by left|]. intros [?|[_ (i & c & Hi & Hc & Hin)]]; [done|]. assert (None = Some (Z.of_nat i)); [|done]. apply Hspec. split; [done|]. by exists i, c. }
    rewrite Hm1s. clear. split; [intros [[?|[-> ?]]|[??]]; tauto|intros [?|[[->|?] ?]]; tauto].
Qed.

(** ** The promoted transactions of a branch *)

Context (config : WalkConfig) (parent : LedgerHeader) (Hparent : last chain = Some parent).

(** Below the window of the walk the index and the branch agree, from genesis on. *)
Definition finalized (block_height : Z) : Prop :=
  ∃ n, take n canon = take n chain ∧ (0 < n)%nat ∧ saturating_sub block_height (prior_inclusion_walk_depth config) ≤ Z.of_nat n.

Definition promoted_on (id : Z) : Prop := ∃ h, h ∈ chain ∧ block_includes_ledger_tx h Publish id = true.

Lemma resolve_promoted_ok cands block_height : finalized block_height →
  ∃ promoted, resolve_promoted_on_branch v config cands (lh_block_hash parent) block_height = Ok promoted ∧
    ∀ id, id ∈ promoted ↔ id ∈ cands ∧ promoted_on id.
Proof.
  intros (n & Htake & Hn0 & Hn). unfold resolve_promoted_on_branch, resolve_promotion_heights_on_branch. case_bool_decide as Hc.
  { exists []. split; [done|]. intros id. rewrite Hc, elem_of_nil. tauto. }
  rewrite last_lookup in Hparent. set (lo := saturating_sub block_height _) in *. assert (0 ≤ lo) by (unfold lo, saturating_sub; lia).
  destruct (walk_promotions_ok _ parent _ true lo (btree_set cands) (λ _, False) (btree_set cands, []) Hparent (walk_fuel_enough _ _ Hparent) (or_introl eq_refl)) as ([rem prom] & -> & [Hok Hrem Hprom Hall]).
  { split; cbn [fst snd]; [constructor|intros id; split; [by intros|tauto]| |by left]. intros id. split; [by intros [? ?]|by intros (_ & h & ? & _)]. }
  res_simpl. cbn [fst snd] in *.
  assert (∃ m, (if bool_decide (rem = []) then Ok prom else promoted_below v (saturating_sub lo 1) rem prom) = Ok m ∧ btree_ok m ∧
    ∀ id, is_Some (btree_get id m) ↔ is_Some (btree_get id prom) ∨ id ∈ rem ∧ indexed_promotion (saturating_sub lo 1) id) as (m & -> & Hmok & Hm).
  { case_bool_decide as Hr; [|by apply promoted_below_ok]. exists prom. split_and!; [done..|]. intros id. rewrite Hr, elem_of_nil. tauto. }
  res_simpl. exists m.*1. split; [done|]. intros id.
  assert (id ∈ m.*1 ↔ is_Some (btree_get id m)) as ->.
  { split; [by apply btree_get_key|]. intros [a Ha]. apply btree_get_elem in Ha; [|done]. by apply (list_elem_of_fmap_2 fst) in Ha. }
  rewrite Hm, Hprom, btree_set_elem. unfold promoted_on. split.
  - intros [(Hin & h & [[]|(j & _ & _ & Hj)] & Hi)|(Hin & i & c & Hi & Hci & Hinc)].
    + split; [done|]. exists h. split; [by eapply list_elem_of_lookup_2|done].
    + apply Hrem in Hin as [Hin _]. rewrite btree_set_elem in Hin. split; [done|]. exists c. split; [|done].
      assert (i < n)%nat by (unfold saturating_sub in Hi; lia). rewrite (shared_lookup canon chain n i Htake) in Hci by done. by eapply list_elem_of_lookup_2.
  - intros (Hin & h & [j Hj]%list_elem_of_lookup & Hi). destruct (Z.le_gt_cases lo (Z.of_nat j)) as [Hle|Hgt].
    + left. split; [done|]. exists h. split; [|done]. right. exists j. split_and!; [apply lookup_lt_Some in Hj; lia|done..].
    + destruct (Hall id) as [Hr|Hs]; [by apply btree_set_elem| |left; apply Hprom in Hs as [_ Hs]; done].
      right. split; [done|]. exists j, h. split_and!; [unfold saturating_sub; lia| |done]. by rewrite (shared_lookup canon chain n j Htake) by lia.
Qed.
End Promotion.

(** * The verdict on one candidate for promotion: a transaction has expired exactly when it
    starts in the expired range of the Submit ledger of the branch. *)

(** ** The start of a transaction in its block *)

Lemma start_offset_ok cs base txs s tx :
  0 < cs → Forall (λ tx, 0 < th_data_size tx) txs → base + chunks_of_txs txs cs < 2 ^ 64 → NoDup (th_id <$> txs) → (s, tx) ∈ tx_starts cs base txs →
  submit_tx_start_offset (th_id tx) ((λ h, (th_id h, th_data_size h)) <$> txs) base cs = Some s.
Proof.
  intros Hcs. unfold submit_tx_start_offset. destruct (Z.eqb_spec cs 0); [lia|]. revert base. induction txs as [|x txs IH]; intros base Hpos Hfit Hnd Hin.
  - by apply elem_of_nil in Hin.
  - apply Forall_cons in Hpos as [Hx Hpos]. rewrite fmap_cons in Hnd. apply NoDup_cons in Hnd as [Hxn Hnd]. rewrite chunks_of_txs_cons in Hfit.
    pose proof (tx_chunks_pos cs Hcs x Hx). pose proof (chunks_pos cs Hcs txs Hpos). cbn [tx_starts] in Hin. rewrite fmap_cons. cbn [tx_start_offset_loop].
    apply elem_of_cons in Hin as [[= -> ->]|Hin]; [by rewrite Z.eqb_refl|]. destruct (Z.eqb_spec (th_id x) (th_id tx)) as [Heq|].
    + destruct Hxn. rewrite Heq. apply list_elem_of_fmap_2. rewrite <- (tx_starts_snd cs (base + tx_chunks cs x) txs). by apply (list_elem_of_fmap_2 snd) in Hin.
    + change (div_ceil (th_data_size x) cs) with (tx_chunks cs x). assert (saturating_add 64 base (tx_chunks cs x) = base + tx_chunks cs x) as -> by (unfold saturating_add; lia).
      apply IH; [done|lia|done|done].
Qed.

Section Blocks.
  Context `{DupSort} (v : ExpiryView) (canon chain : list LedgerHeader) (txs_of : LedgerHeader → DataLedger → list DataTransactionHeader).
  Context (config : WalkConfig) (Hset : expiry_setting v canon chain txs_of (wc_chunk_size config) Submit) (Hcs : 0 < wc_chunk_size config).
  Notation cs := (wc_chunk_size config).
  Notation starts i h := (tx_starts cs (base_at Submit chain i) (txs_of h Submit)).

Lemma includes_starts i h id : chain !! i = Some h → block_includes_ledger_tx h Submit id = true ↔ ∃ s tx, (s, tx) ∈ starts i h ∧ th_id tx = id.
Proof.
  intros Hi. pose proof (list_elem_of_lookup_2 _ _ _ Hi) as Hin. unfold block_includes_ledger_tx. destruct (ledger_tx_ids_in h Submit) as [ids|] eqn:Hids.
  - rewrite bool_decide_eq_true, <- (xs_tx_ids _ _ _ _ _ _ Hset h ids Hin Hids), list_elem_of_fmap. split.
    + intros (tx & -> & Htx). rewrite <- (tx_starts_snd cs (base_at Submit chain i) (txs_of h Submit)) in Htx. apply list_elem_of_fmap in Htx as ([s tx'] & -> & Hs).
      by exists s, tx'.
    + intros (s & tx & Hs & <-). exists tx. split; [done|]. rewrite <- (tx_starts_snd cs (base_at Submit chain i) (txs_of h Submit)).
      by apply (list_elem_of_fmap_2 snd) in Hs.
  - split; [done|]. intros (s & tx & Hs & _). exfalso. pose proof (starts_bounds v canon chain txs_of config Submit Hset Hcs i h s tx Hi Hs) as Hb.
    assert (total_at Submit chain i = 0) as Ht.
    { rewrite (total_at_Some _ _ _ _ Hi). unfold total_of. rewrite header_total. unfold ledger_entry_in. unfold ledger_tx_ids_in in Hids. by destruct (ledger_of_header h Submit). }
    pose proof (base_at_nonneg v canon chain txs_of config Submit Hset Hcs i ltac:(apply lookup_lt_Some in Hi; lia)). lia.
Qed.

Lemma block_ids_nodup i h : chain !! i = Some h → NoDup (th_id <$> txs_of h Submit).
Proof.
  intros Hi. pose proof (xs_unique _ _ _ _ _ _ Hset) as Hnd. rewrite <- (take_drop_middle _ _ _ Hi), bind_app, fmap_app in Hnd.
  apply NoDup_app in Hnd as (_ & _ & Hnd). cbn in Hnd. rewrite fmap_app in Hnd. by apply NoDup_app in Hnd as [? _].
Qed.

(** The verdict from the span of the block, or from the start in it. *)
Lemma block_verdict i h s tx e sealed :
  chain !! i = Some h → (s, tx) ∈ starts i h → (sealed = None ∨ sealed = v_tree v !! lh_block_hash h) →
  (match submit_span_verdict (base_at Submit chain i) (total_at Submit chain i) e with
   | Some verdict => Ok verdict
   | None =>
       headers ← match sealed with
                 | Some b => ledger_tx_headers_of_sealed_block b Submit
                 | None => ledger_tx_headers_of_block v (lh_block_hash h) Submit
                 end;
       Ok (match submit_tx_start_offset (th_id tx) ((λ h, (th_id h, th_data_size h)) <$> headers) (base_at Submit chain i) cs with
           | Some offset => offset <? e
           | None => false
           end)
   end : result ExpiryError bool) = Ok (s <? e).
Proof.
  intros Hi Hs Hsealed. pose proof (starts_bounds v canon chain txs_of config Submit Hset Hcs i h s tx Hi Hs) as Hb. unfold submit_span_verdict.
  destruct (Z.leb_spec (total_at Submit chain i) e); [by rewrite (proj2 (Z.ltb_lt _ _)) by lia|].
  destruct (Z.leb_spec e (base_at Submit chain i)); [by rewrite (proj2 (Z.ltb_ge _ _)) by lia|].
  pose proof (base_at_nonneg v canon chain txs_of config Submit Hset Hcs i ltac:(apply lookup_lt_Some in Hi; lia)).
  pose proof (block_headers_ok v canon chain txs_of config Submit Hset i h Hi (ledger_present chain Submit i h Hi ltac:(lia))) as Hheaders.
  assert (match sealed with Some b => ledger_tx_headers_of_sealed_block b Submit | None => ledger_tx_headers_of_block v (lh_block_hash h) Submit end = Ok (txs_of h Submit)) as ->.
  { destruct Hsealed as [->| ->]; [done|]. unfold ledger_tx_headers_of_block in *. by destruct (v_tree v !! lh_block_hash h). }
  res_simpl. pose proof (lookup_lt_Some _ _ _ Hi). rewrite (start_offset_ok cs _ _ s tx Hcs); [done|..|done].
  - apply (xs_sizes _ _ _ _ _ _ Hset). by eapply list_elem_of_lookup_2.
  - rewrite <- (xs_totals _ _ _ _ _ _ Hset i h Hi). pose proof (xs_fit _ _ _ _ _ _ Hset).
    pose proof (total_base_le Submit chain (vo_chain _ _ _ (ps_view _ _ _ _ (xs_poa _ _ _ _ _ _ Hset))) i (length chain) ltac:(lia)). lia.
  - by apply (block_ids_nodup i).
Qed.
End Blocks.

(** ** The inclusion of a candidate *)

Section Verdict.
  Context `{DupSort} (v : ExpiryView) (canon chain : list LedgerHeader) (txs_of : LedgerHeader → DataLedger → list DataTransactionHeader).
  Context (config : WalkConfig) (Hcs : 0 < wc_chunk_size config).
  Context (Hset : expiry_setting v canon chain txs_of (wc_chunk_size config) Submit).
  Context (Hcanon : expiry_setting v canon canon txs_of (wc_chunk_size config) Submit) (Hmeta : metadata_ok v canon).
  Context (Hgenesis : ∀ g, chain !! 0%nat = Some g → v_tree v !! lh_previous_block_hash g = None).
  Notation cs := (wc_chunk_size config).
  Notation starts chain i h := (tx_starts cs (base_at Submit chain i) (txs_of h Submit)).
  Notation view := (ps_view _ _ _ _ (xs_poa _ _ _ _ _ _ Hset)).

Lemma indexed_inclusion_ok i c : canon !! i = Some c →
  indexed_submit_inclusion v (Z.of_nat i) = Ok (mkSubmitInclusion (lh_block_hash c) (base_at Submit canon i) (total_at Submit canon i) None).
Proof.
  intros Hc. unfold indexed_submit_inclusion. destruct (get_item_total v canon chain view Submit i c Hc) as (item & -> & Hh & Ht). res_simpl.
  rewrite Hh, Ht, <- (total_at_Some Submit _ _ _ Hc). destruct i as [|i]; [done|]. destruct (Z.eqb_spec (Z.of_nat (S i)) 0); [lia|].
  destruct (lookup_lt_is_Some_2 canon i) as [p Hp]; [apply lookup_lt_Some in Hc; lia|]. replace (Z.of_nat (S i) - 1) with (Z.of_nat i) by lia.
  destruct (get_item_total v canon chain view Submit i p Hp) as (item' & -> & _ & Ht'). cbn [fmap option_fmap option_map]. rewrite Ht', <- (total_at_Some Submit _ _ _ Hp). done.
Qed.

(** The walk from block [k]: what it finds includes the transaction; what is in its reach and
    includes the transaction is found. *)
Lemma walk_inclusion_ok steps k p id : chain !! k = Some p →
  ∃ r, walk_submit_inclusion v steps id (lh_block_hash p) = Ok r ∧
    match r with
    | Some (hash, base, total) => ∃ i h, chain !! i = Some h ∧ block_includes_ledger_tx h Submit id = true ∧ hash = lh_block_hash h ∧
                                    base = base_at Submit chain i ∧ total = total_at Submit chain i
    | None => ∀ i h, chain !! i = Some h → (i ≤ k < i + steps)%nat → (∀ j g, (i ≤ j ≤ k)%nat → chain !! j = Some g → is_Some (v_tree v !! lh_block_hash g)) →
                block_includes_ledger_tx h Submit id = false
    end.
Proof.
  revert k p. induction steps as [|steps IH]; intros k p Hk; cbn [walk_submit_inclusion]; [exists None; split; [done|]; intros; lia|].
  unfold get_block. destruct (v_tree v !! lh_block_hash p) as [b|] eqn:Hb; cbn [fmap option_fmap option_map].
  2:{ exists None. split; [done|]. intros i h _ Hi Htree. destruct (Htree k p ltac:(lia) Hk) as [? ?]. congruence. }
  rewrite (vo_tree _ _ _ view p b (list_elem_of_lookup_2 _ _ _ Hk) Hb). destruct (block_includes_ledger_tx p Submit id) eqn:Hinc.
  { rewrite (tail_prev_total_ok v canon chain view (xs_covered _ _ _ _ _ _ Hset) Submit k p Hk). res_simpl. eexists. split; [done|].
    exists k, p. split_and!; [done..|]. by rewrite lh_total_of, (total_at_Some _ _ _ _ Hk). }
  destruct k as [|k].
  - exists None. split; [destruct steps; cbn [walk_submit_inclusion]; [done|]; unfold get_block; by rewrite (Hgenesis p Hk)|].
    intros i h Hi Hr _. assert (i = 0)%nat as -> by lia. congruence.
  - destruct (lookup_lt_is_Some_2 chain k) as [q Hq]; [apply lookup_lt_Some in Hk; lia|]. rewrite (co_link _ (vo_chain _ _ _ view) _ _ _ Hq Hk).
    destruct (IH k q Hq) as (r & -> & Hr). exists r. split; [done|]. destruct r as [[[hash base] total]|]; [done|]. intros i h Hi Hik Htree.
    destruct (decide (i = S k)) as [->|]; [congruence|]. apply (Hr i h Hi ltac:(lia)). intros j g Hj. apply Htree. lia.
Qed.

Context (parent : LedgerHeader) (Hparent : last chain = Some parent).
Context (Hdepth : Z.of_nat (length chain) ≤ Z.of_nat (length canon) + wc_tx_anchor_expiry_depth config + 1).
Notation expired_in e id := (∃ s tx, (s, tx) ∈ settled cs 0 e (ledger_txs chain txs_of Submit) ∧ th_id tx = id).

Lemma shared_base n i : take n canon = take n chain → (i ≤ n)%nat → base_at Submit canon i = base_at Submit chain i.
Proof. intros Htake Hi. destruct i as [|i]; [done|]. cbn [base_at]. unfold total_at. by rewrite (shared_lookup canon chain n i Htake). Qed.

(** The start of the candidate decides. *)
Lemma settled_start i h s tx e : chain !! i = Some h → (s, tx) ∈ starts chain i h → (s <? e) = true ↔ expired_in e (th_id tx).
Proof.
  intros Hi Hs. rewrite Z.ltb_lt.
  pose proof (starts_bounds v canon chain txs_of config Submit Hset Hcs i h s tx Hi Hs).
  pose proof (base_at_nonneg v canon chain txs_of config Submit Hset Hcs i ltac:(apply lookup_lt_Some in Hi; lia)). split.
  - intros Hlt. exists s, tx. split; [|done]. apply (settled_in v canon chain txs_of config Submit Hset). exists i, h. split_and!; [done..|lia|done].
  - intros (s' & tx' & Hin & Hid). unfold settled in Hin. apply list_elem_of_filter in Hin as [Hr Hin].
    rewrite (starts_unique v canon chain txs_of config Submit Hset (s', tx') (s, tx)) in Hr; [cbn in Hr; lia|done| |done].
    apply (ledger_starts v canon chain txs_of config Submit Hset). by exists i, h.
Qed.

(** A transaction indexed on another branch is not in the expired range. *)
Lemma indexed_verdict j c s tx e : shared canon chain Submit e → canon !! j = Some c → (s, tx) ∈ starts canon j c → (s <? e) = true ↔ expired_in e (th_id tx).
Proof.
  intros (n & Htake & Hnc & Hn & Hor) Hc Hs. pose proof (lookup_lt_Some _ _ _ Hc) as Hjl. destruct (decide (j < n)%nat) as [Hj|Hj].
  { rewrite (shared_lookup canon chain n j Htake Hj) in Hc. rewrite (shared_base n j Htake) in Hs by lia. by apply (settled_start j c). }
  destruct Hor as [|He]; [lia|]. pose proof (starts_bounds v canon canon txs_of config Submit Hcanon Hcs j c s tx Hc Hs) as Hb.
  assert (e ≤ base_at Submit canon j) as Hej.
  { rewrite <- (shared_base n n Htake) in He by done. transitivity (base_at Submit canon n); [done|]. destruct (decide (n = j)) as [->|]; [done|].
    destruct n as [|n]; [by apply (base_at_nonneg v canon canon txs_of config Submit Hcanon Hcs); lia|]. cbn [base_at] in *.
    apply (total_base_le Submit canon (vo_canon _ _ _ view)). lia. }
  rewrite Z.ltb_lt. split; [lia|]. intros (s' & tx' & Hin & Hid). exfalso. apply (settled_in v canon chain txs_of config Submit Hset) in Hin as (i & h & Hi & Hs' & Hr).
  pose proof (starts_bounds v canon chain txs_of config Submit Hset Hcs i h s' tx' Hi Hs') as Hb'. pose proof (lookup_lt_Some _ _ _ Hi).
  assert (i < n)%nat as Hin.
  { destruct (Nat.lt_ge_cases i n) as [|Hge]; [done|]. destruct n as [|n]; [cbn [base_at] in He; lia|]. cbn [base_at] in He.
    pose proof (total_base_le Submit chain (vo_chain _ _ _ view) n i ltac:(lia)). lia. }
  rewrite <- (shared_base n i Htake) in Hs' by lia. rewrite <- (shared_lookup canon chain n i Htake Hin) in Hi.
  assert ((s', tx') = (s, tx)) as [= -> ->]; [|lia].
  apply (starts_unique v canon canon txs_of config Submit Hcanon); [..|done]; apply (ledger_starts v canon canon txs_of config Submit Hcanon); [by exists i, h|by exists j, c].
Qed.

(** A candidate that is neither indexed nor in reach of the walk has not expired. *)
Lemma unreached_verdict id e :
  shared canon chain Submit e → (∀ i c, (i < length chain)%nat → canon !! i = Some c → block_includes_ledger_tx c Submit id = false) →
  (∀ i h, chain !! i = Some h → (i ≤ pred (length chain) < i + S (Z.to_nat (wc_tx_anchor_expiry_depth config)))%nat →
     (∀ j g, (i ≤ j ≤ pred (length chain))%nat → chain !! j = Some g → is_Some (v_tree v !! lh_block_hash g)) → block_includes_ledger_tx h Submit id = false) →
  ¬ expired_in e id.
Proof.
  intros (n & Htake & Hnc & Hn & Hor) Hno Hwalk (s & tx & Hin & Hid). apply (settled_in v canon chain txs_of config Submit Hset) in Hin as (i & h & Hi & Hs & Hr).
  pose proof (lookup_lt_Some _ _ _ Hi) as Hil. assert (Hinc : block_includes_ledger_tx h Submit id = true).
  { apply (includes_starts v canon chain txs_of config Hset Hcs i h id Hi). by exists s, tx. }
  assert (n ≤ i)%nat as Hni.
  { destruct (Nat.lt_ge_cases i n) as [Hlt|]; [|done]. rewrite <- (shared_lookup canon chain n i Htake Hlt) in Hi. by rewrite (Hno i h Hil Hi) in Hinc. }
  destruct Hor as [Hlen|He].
  - rewrite (Hwalk i h Hi) in Hinc; [done|lia|]. intros j g Hj Hg. destruct (v_tree v !! lh_block_hash g) as [b|] eqn:Hb; [by eexists|].
    pose proof (ancestor_canonical v canon chain view (xs_covered _ _ _ _ _ _ Hset) j g Hg Hb) as Hc%lookup_lt_Some. lia.
  - pose proof (starts_bounds v canon chain txs_of config Submit Hset Hcs i h s tx Hi Hs). destruct n as [|n]; [cbn [base_at] in He; lia|]. cbn [base_at] in He.
    pose proof (total_base_le Submit chain (vo_chain _ _ _ view) n i ltac:(lia)). lia.
Qed.

Lemma submit_tx_expired_ok id e : shared canon chain Submit e →
  ∃ b, submit_tx_expired v config id (mkExpiredSubmitRange (Z.of_nat (length chain)) e (lh_block_hash parent)) = Ok b ∧ (b = true ↔ expired_in e id).
Proof.
  intros Hsh. unfold submit_tx_expired, resolve_submit_inclusion. cbn [er_block_height er_parent_block_hash er_range_end].
  destruct (canonical_metadata_ok v canon chain view Hmeta (ev_included v !! id) id (saturating_sub (Z.of_nat (length chain)) 1) Submit) as (r & Hr & Hspec).
  { intros i c Hc Hin. by apply (mo_included _ _ Hmeta i c). }
  unfold canonical_submit_height. rewrite Hr. res_simpl. destruct r as [t|].
  - pose proof (proj1 (Hspec t) eq_refl) as (_ & j & c & -> & Hc & Hinc). rewrite (indexed_inclusion_ok j c Hc). res_simpl.
    apply (includes_starts v canon canon txs_of config Hcanon Hcs j c id Hc) in Hinc as (s & tx & Hs & <-). cbn [si_base si_total si_sealed_block si_block_hash].
    exists (s <? e). split; [|by apply (indexed_verdict j c)].
    apply (block_verdict v canon canon txs_of config Hcanon Hcs j c s tx e None Hc Hs). by left.
  - rewrite last_lookup in Hparent.
    destruct (walk_inclusion_ok (S (Z.to_nat (wc_tx_anchor_expiry_depth config))) _ parent id Hparent) as (w & Hw & Hwspec). rewrite Hw. res_simpl.
    destruct w as [[[hash base] total]|].
    + destruct Hwspec as (i & h & Hi & Hinc & -> & -> & ->). apply (includes_starts v canon chain txs_of config Hset Hcs i h id Hi) in Hinc as (s & tx & Hs & <-).
      cbn [si_base si_total si_sealed_block si_block_hash]. exists (s <? e). split; [|by apply (settled_start i h)].
      apply (block_verdict v canon chain txs_of config Hset Hcs i h s tx e _ Hi Hs). by right.
    + exists false. split; [done|]. split; [done|]. intros Hex. exfalso. revert Hex. apply unreached_verdict; [done| |done]. intros i c Hi Hc.
      apply not_true_iff_false. intros Hinc. assert (None = Some (Z.of_nat i)); [|done]. apply Hspec. split; [unfold saturating_sub; lia|]. by exists i, c.
Qed.
End Verdict.
