(* ===== verification/ExpiryFees.v ===== *)
(** The slots that settle at an epoch are consecutive, and so are the keys of the map that the
    walk gets; and the amounts that settle: the pool of each expired transaction goes to the
    miners of its slot, and its permanent fee back to its signer unless it was promoted. *)

From S2P Require Import SimpleRng TreeHash Pricing StateErr DataLedger EpochSnapshot EpochInv EpochSlots EpochCommit EpochTransition LedgerExpiry Settlement Codec Packing Merkle BlockIndex BlockIndexFacts IndexFile Poa PoaFacts PoaTheorems FeeSplit BTree ExpiryWalk ExpirySettle ExpiryCollect Promotion Prelude.

(** ** Consecutive indexes *)

Lemma filter_seq_convex (f : nat → bool) n :
  (∀ i j k, (i < j < k)%nat → (k < n)%nat → f i = true → f k = true → f j = true) → ∃ a m, List.filter f (seq 0 n) = seq a m.
Proof.
  induction n as [|n IH]; intros Hf; [by exists 0%nat, 0%nat|].
  destruct IH as (a & m & Heq); [intros i j k ??; apply (Hf i j k); lia|]. rewrite seq_S, List.filter_app, Heq. cbn [List.filter Nat.add].
  destruct (f n) eqn:Hn; [|exists a, m; apply app_nil_r]. destruct m as [|m]; [by exists n, 1%nat|].
  assert (Hin : ∀ i, (a ≤ i < a + S m)%nat ↔ (i < n)%nat ∧ f i = true).
  { intros i. rewrite <- in_seq, <- Heq, filter_In, in_seq. lia. }
  pose proof (proj1 (Hin a) ltac:(lia)) as [Ha Hfa]. exists a, (S (S m)). rewrite (seq_S (S m)). do 2 f_equal.
  destruct (decide (n = a + S m)%nat) as [|Hne]; [lia|]. pose proof (proj1 (Hin (a + m)%nat) ltac:(lia)) as [Hlt _].
  assert (¬ (a ≤ a + S m < a + S m)%nat) as Hno by lia. destruct Hno. apply Hin. split; [lia|]. apply (Hf a _ n); [lia..|done|done].
Qed.

Section Slots.
  Context (c : EpochConfig) (Hc : config_ok c) (s : EpochSnapshot) (HF : frontier_inv c s).
  Notation C := (ec_num_chunks_in_partition c).

Lemma settling_consecutive cas h T' l : (epoch_cascade c s = true → cas = true) → ledger_total_chunks (epoch_block s) l ≤ T' → ∃ a n, settling c cas s h T' l = seq a n.
Proof.
  intros Hcas HT. pose proof (ok_chunks _ Hc) as HC. unfold settling, expiring. destruct (lifetime (ledgers s) l) as [life|]; [|by exists 0%nat, 0%nat].
  unfold expiring_indexes. destruct (h <? life); [by exists 0%nat, 0%nat|]. set (slots := ledger_slots (ledgers s) l).
  set (T := ledger_total_chunks (epoch_block s) l) in *. rewrite filter_filter_andb.
  pose proof (frontier_weaken C _ cas _ _ _ Hcas (HF l)) as Hfr. fold slots T in Hfr. apply filter_seq_convex.
  intros i j k Hij Hk. destruct (lookup_lt_is_Some_2 slots k Hk) as [sk Hsk], (lookup_lt_is_Some_2 slots j) as [sj Hsj], (lookup_lt_is_Some_2 slots i) as [si Hsi]; [lia..|].
  rewrite Hsi, Hsj, Hsk. cbn [from_option]. rewrite !andb_true_iff, !negb_true_iff. intros [Hi _] [Hk' Hwk].
  assert (is_expired sj = false) as Hej.
  { destruct (is_expired sj) eqn:E; [|done]. unfold slot_expires in Hi. rewrite (fr_prefix _ _ _ _ _ Hfr i j si sj ltac:(lia) Hsi Hsj E), andb_false_r in Hi. done. }
  split; [by apply (slot_expires_below C HC cas T (eh_height (epoch_block s)) (h - life) slots j k sj sk Hfr ltac:(lia) Hsj Hsk Hej T' HT)|].
  destruct cas; [cbn [andb] in *|done].
  unfold slot_expires, cascade_expiry_gate, fully_written_slot_count in Hk'. rewrite (proj2 (Z.eqb_neq C 0)) in Hk' by lia. cbn [negb orb] in Hk'.
  rewrite !andb_true_iff, Z.ltb_lt in Hk'. destruct Hk' as [[[_ [_ Hfull]] _] _]. unfold in_window in *. apply not_true_iff_false in Hwk. apply not_true_iff_false.
  intros Hw. apply Hwk. rewrite !andb_true_iff, !Z.leb_le in *. destruct Hw as [[Hw1 Hw2] Hw3]. split_and!; [tauto..|lia|].
  transitivity (T' / C - 1); [lia|]. apply Z.div_le_lower_bound; [done|]. pose proof (Z.mul_div_le T' C HC). nia.
Qed.

(** A slot of the Submit ledger that settles at a block counts as expired for the promotions
    of the same block, whatever the block adds to the ledger. *)
Lemma settling_expired cas h T' total slots i :
  wf_ledgers c (ledgers s) → ledger_total_chunks (epoch_block s) Submit ≤ T' → ledger_total_chunks (epoch_block s) Submit ≤ total →
  get_all_expired_term_slot_indexes c s Submit h cas total = Ok slots → i ∈ settling c cas s h T' Submit → i ∈ slots.
Proof.
  intros HL HT HT2 Hall Hi. pose proof (ok_chunks _ Hc) as HC. destruct (submit_term c Hc s HL) as (t & Ht & Hs & Hlife).
  unfold settling, expiring, lifetime in Hi. rewrite Ht in Hi. cbn [fmap option_fmap option_map] in Hi.
  apply elem_of_filter_bool in Hi as [Hi Hwin]. apply negb_true_iff in Hwin. apply elem_of_expiring_indexes in Hi as (Hle & slot & Hslot & He).
  unfold get_all_expired_term_slot_indexes, get_term_ledger in Hall. fold (find_term (ledgers s) Submit) in Hall. rewrite Ht in Hall. res_simpl in Hall.
  unfold get_all_expired_slot_indexes, checked_mul in Hall. rewrite (proj2 (Z.ltb_lt _ _)) in Hall by lia. res_simpl in Hall.
  rewrite (proj2 (Z.ltb_ge _ _)) in Hall by lia. injection Hall as <-. rewrite Hs. apply list_elem_of_omap. exists (i, slot). split.
  { unfold enumerate. apply list_elem_of_lookup. exists i. apply lookup_zip_with_Some. exists i, slot. split_and!; [done| |done]. apply lookup_seq. split; [done|].
    by apply lookup_lt_Some in Hslot. }
  unfold slot_expires in He. rewrite !andb_true_iff in He. destruct He as [[[Hlast Hgate] Hheight] Hopen]. destruct (is_expired slot); [done|].
  assert (cascade_expiry_gate cas slot i (fully_written_slot_count total C) = true) as ->; [|by rewrite Hlast, Hheight]. destruct cas; [cbn [andb] in Hwin|done].
  unfold cascade_expiry_gate, fully_written_slot_count in *. rewrite (proj2 (Z.eqb_neq C 0)) in * by lia. cbn [negb orb] in *.
  rewrite andb_true_iff, Z.ltb_lt in *. destruct Hgate as [Hw Hfull]. split; [done|]. set (T := ledger_total_chunks (epoch_block s) Submit) in *.
  enough (Z.of_nat i < T / C) by (eapply Z.lt_le_trans; [done|]; apply Z.div_le_mono; lia).
  destruct (Z.lt_ge_cases (Z.of_nat i) (T / C)) as [|Hge]; [done|]. exfalso. apply not_true_iff_false in Hwin. apply Hwin. unfold in_window.
  assert (T < T').
  { destruct (Z.lt_ge_cases T T'); [done|]. assert (T' / C ≤ T / C) by (apply Z.div_le_mono; lia). lia. }
  rewrite !andb_true_iff, negb_true_iff, Z.ltb_lt, Z.eqb_neq, !Z.leb_le. split_and!; [done|lia|done|].
  apply Z.div_le_lower_bound; [done|]. pose proof (Z.mul_div_le T' C HC). nia.
Qed.
End Slots.

(** ** The map of slots *)

Lemma btree_insert_last {A} k (x : A) m : Forall (λ k', k' < k) m.*1 → btree_insert k x m = m ++ [(k, x)].
Proof.
  unfold btree_insert. induction m as [|[k' y] m IH]; [done|]. rewrite fmap_cons. intros [Hk Hm]%Forall_cons. cbn [btree_update fst] in *.
  destruct (Z.ltb_spec k k'); [lia|]. destruct (Z.eqb_spec k k'); [lia|]. by rewrite IH.
Qed.

Lemma slot_map_eq slots a n : slots.*1 = seq a n → slot_map slots = (λ sm, (Z.of_nat sm.1, sm.2)) <$> slots.
Proof.
  unfold slot_map. enough (∀ acc, Forall (λ k, k < Z.of_nat a) acc.*1 → slots.*1 = seq a n →
    foldl (λ m sm, btree_insert (Z.of_nat sm.1) sm.2 m) acc slots = acc ++ ((λ sm, (Z.of_nat sm.1, sm.2)) <$> slots)) as Hgen by (intros; by apply Hgen).
  revert a n. induction slots as [|[i ms] slots IH]; intros a n acc Hacc Hseq; [by rewrite app_nil_r|]. destruct n as [|n]; [done|].
  rewrite fmap_cons in Hseq. cbn [seq fst] in Hseq. injection Hseq as -> Hseq. cbn [foldl fst snd]. rewrite btree_insert_last by done.
  rewrite (IH (S a) n); [by rewrite <- app_assoc|..|done]. rewrite fmap_app, Forall_app. split; [eapply Forall_impl; [done|]; cbn; lia|].
  repeat constructor. cbn. lia.
Qed.

Lemma slot_map_keys slots a n : slots.*1 = seq a n → (slot_map slots).*1 = seqZ (Z.of_nat a) (Z.of_nat n).
Proof.
  intros Hseq. rewrite (slot_map_eq _ _ _ Hseq), <- list_fmap_compose. replace ((fst ∘ λ sm : nat * list Z, (Z.of_nat sm.1, sm.2)) <$> slots) with (Z.of_nat <$> slots.*1).
  - rewrite Hseq. clear. revert a. induction n as [|n IH]; intros a; [done|]. rewrite seqZ_cons by lia. cbn [seq]. rewrite fmap_cons, IH. f_equal. f_equal; lia.
  - by rewrite <- list_fmap_compose.
Qed.

(** * The amounts that settle: the pool of each expired transaction goes to the miners of its
    slot without loss, and every transaction that was not promoted is refunded once. *)

(** ** Amounts by address *)

Definition amount_of (a : Z) (m : BTreeMap (Z * Z)) : Z := default 0 (fst <$> btree_get a m).
Definition amounts_ok (m : BTreeMap (Z * Z)) : Prop := btree_ok m ∧ ∀ a x, btree_get a m = Some x → 0 ≤ x.1.

(** The payments to one address. *)
Definition paid_to (a : Z) (payments : list (Z * Z)) : Z := sum_Z (snd <$> filter (λ p, p.1 = a) payments).

Lemma paid_to_cons a p ps : paid_to a (p :: ps) = (if decide (p.1 = a) then p.2 else 0) + paid_to a ps.
Proof. unfold paid_to. rewrite filter_cons. destruct (decide (p.1 = a)); [by rewrite fmap_cons, sum_Z_cons|done]. Qed.
Lemma paid_to_app a ps ps' : paid_to a (ps ++ ps') = paid_to a ps + paid_to a ps'.
Proof. unfold paid_to. by rewrite filter_app, fmap_app, sum_Z_app. Qed.

Lemma amount_le_sum a m : amounts_ok m → 0 ≤ amount_of a m ≤ btree_sum fst m.
Proof.
  intros [Hok Hpos]. assert (Hall : Forall (λ kv : Z * (Z * Z), 0 ≤ kv.2.1) m).
  { apply Forall_forall. intros [k x] Hin. apply (Hpos k). by apply btree_get_elem. }
  clear Hok Hpos. unfold amount_of, btree_sum. induction Hall as [|[k [x y]] m Hx Hm IH]; [done|]. cbn [btree_get]. rewrite fmap_cons, sum_Z_cons. cbn in *.
  assert (0 ≤ sum_Z (fst ∘ snd <$> m)) by (apply sum_Z_nonneg, Forall_fmap; eapply Forall_impl; [done|]; by intros [? [? ?]]).
  destruct (a =? k); cbn; lia.
Qed.

Lemma add_reward_ok m a fee hash :
  amounts_ok m → 0 ≤ fee → btree_sum fst m + fee < 2 ^ 256 →
  let m' := btree_update a (add_reward fee hash) m in
  amounts_ok m' ∧ btree_sum fst m' = btree_sum fst m + fee ∧ ∀ x, amount_of x m' = amount_of x m + (if decide (a = x) then fee else 0).
Proof.
  intros Hm Hfee Hsum m'. pose proof (amount_le_sum a m Hm) as Ha. destruct Hm as [Hok Hpos].
  assert (Hentry : (add_reward fee hash (btree_get a m)).1 = amount_of a m + fee).
  { unfold amount_of in *. destruct (btree_get a m) as [[x y]|] eqn:Hg; cbn in *; [unfold saturating_add; lia|done]. }
  unfold m'. split_and!.
  - split; [by apply btree_update_ok|]. intros x y. rewrite btree_get_update by done. destruct (Z.eqb_spec x a) as [->|]; [intros [= <-]; lia|apply Hpos].
  - rewrite btree_sum_update by done. rewrite Hentry. unfold amount_of. lia.
  - intros x. unfold amount_of at 1. rewrite btree_get_update by done. destruct (Z.eqb_spec x a) as [->|]; [rewrite decide_True by done; exact Hentry|].
    rewrite decide_False by done. unfold amount_of. lia.
Qed.

Lemma add_rewards_ok (payments : list (Z * Z)) hash m :
  amounts_ok m → Forall (λ p, 0 ≤ p.2) payments → btree_sum fst m + sum_Z payments.*2 < 2 ^ 256 →
  let m' := foldl (λ m p, btree_update p.1 (add_reward p.2 hash) m) m payments in
  amounts_ok m' ∧ btree_sum fst m' = btree_sum fst m + sum_Z payments.*2 ∧ ∀ a, amount_of a m' = amount_of a m + paid_to a payments.
Proof.
  intros Hm Hpos. revert m Hm. induction Hpos as [|[a fee] payments Hfee Hpos IH]; intros m Hm Hsum; cbn [foldl].
  - cbv zeta. split_and!; [done|cbn; lia|]. intros a. unfold paid_to. cbn. lia.
  - rewrite fmap_cons, sum_Z_cons in *. cbn [fst snd] in *. assert (0 ≤ sum_Z payments.*2) by (by apply sum_Z_nonneg, Forall_fmap).
    destruct (add_reward_ok m a fee hash Hm Hfee ltac:(lia)) as (Hm1 & Hs1 & Ha1). destruct (IH _ Hm1 ltac:(lia)) as (Hm2 & Hs2 & Ha2).
    split_and!; [done|lia|]. intros x. rewrite Ha2, Ha1, paid_to_cons. cbn [fst snd]. lia.
Qed.

(** ** The order of the transactions *)

Lemma sort_txs_sorted txs : StronglySorted (λ a b, th_id a < th_id b) txs → sort_txs txs = txs.
Proof.
  induction 1 as [|tx txs Hs IH Hall]; [done|]. cbn [sort_txs foldr]. fold (sort_txs txs). rewrite IH. destruct txs as [|x txs]; [done|].
  cbn [insert_tx]. apply Forall_cons in Hall as [Hx _]. by rewrite (proj2 (Z.leb_le _ _)) by lia.
Qed.

Lemma by_id_values txs : NoDup (th_id <$> txs) → (by_id txs).*2 ≡ₚ txs ∧ StronglySorted (λ a b, th_id a < th_id b) (by_id txs).*2.
Proof.
  intros Hnd. change (by_id txs) with (btree_of th_id (λ tx, tx) txs []). set (m := btree_of th_id (λ tx, tx) txs []).
  assert (Hok : btree_ok m) by (apply btree_of_ok; constructor).
  assert (Hf : functional th_id (λ tx, tx) txs).
  { intros x y [i Hi]%list_elem_of_lookup [j Hj]%list_elem_of_lookup Heq. assert (i = j) as ->; [|congruence].
    eapply (NoDup_lookup _ i j (th_id x) Hnd); rewrite list_lookup_fmap, ?Hi, ?Hj; [done|]. cbn. by f_equal. }
  assert (Hel : ∀ k x, (k, x) ∈ m ↔ x ∈ txs ∧ th_id x = k).
  { intros k x. rewrite <- btree_get_elem by done. unfold m. rewrite btree_get_of_nil by done. split; [intros (y & Hy & Hk & ->); done|]. intros [Hx Hk]. by exists x. }
  assert (Hkeys : th_id <$> m.*2 = m.*1).
  { rewrite <- list_fmap_compose. apply list_fmap_ext. intros i [k x] Hi. apply list_elem_of_lookup_2 in Hi. apply Hel in Hi as [_ <-]. done. }
  unfold btree_ok in Hok. rewrite <- Hkeys in Hok. split.
  - apply NoDup_Permutation.
    + apply (NoDup_fmap_1 th_id). clear -Hok. remember (th_id <$> m.*2) as l eqn:E. clear E. induction Hok as [|k l Hs IH Hall]; constructor; [|done].
      intros Hin. rewrite Forall_forall in Hall. specialize (Hall _ Hin). lia.
    + by apply NoDup_fmap_1 in Hnd.
    + intros x. rewrite list_elem_of_fmap. split; [intros ([k y] & -> & Hin); by apply Hel in Hin as [? _]|]. intros Hx. exists (th_id x, x). split; [done|]. by apply Hel.
  - clear -Hok. induction m.*2 as [|x l IH]; [constructor|]. rewrite fmap_cons in Hok. apply StronglySorted_inv in Hok as [Hs Hall]. constructor; [by apply IH|].
    by rewrite Forall_fmap in Hall.
Qed.

(** ** The payments of a transaction *)

Lemma btree_set_nodup l : NoDup (btree_set l).
Proof.
  unfold btree_set. change (foldl _ [] l) with (btree_of (λ x, x) (λ _, ()) l []).
  assert (Hok : btree_ok (btree_of (λ x, x) (λ _, ()) l [])) by (apply btree_of_ok; constructor). unfold btree_ok in Hok.
  induction Hok as [|k ks _ IH Hall]; constructor; [|done]. intros Hin. rewrite Forall_forall in Hall. specialize (Hall _ Hin). lia.
Qed.

Section Payments.
  Context (config : WalkConfig) (es : EpochSnapshot).
  Notation pct := (immediate_tx_inclusion_reward_percent (wc_fees config)).

(** What is left of a term fee after the reward of the block producer. *)
Definition miner_pool (tx : DataTransactionHeader) : Z := th_term_fee tx - th_term_fee tx * pct / PRECISION_SCALE.

(** The fees of a transaction fit their width. *)
Record fee_ok (tx : DataTransactionHeader) : Prop := {
  fo_term : u256 (th_term_fee tx);
  fo_percent : 0 ≤ pct ≤ PRECISION_SCALE;
  fo_product : th_term_fee tx * pct < 2 ^ 256
}.

(** Reward addresses and amounts: one share for each distinct miner. *)
Definition payments (tx : DataTransactionHeader) (miners : list Z) : list (Z * Z) :=
  (λ mf, (resolve_reward_address es mf.1, mf.2)) <$> zip (btree_set miners) (shares (miner_pool tx) (length (btree_set miners))).

Lemma charges_pool tx : fee_ok tx → ∃ reward, TermFeeCharges_new (th_term_fee tx) (wc_fees config) = Ok (mkTermFeeCharges reward (miner_pool tx)) ∧ u256 (miner_pool tx).
Proof.
  intros [Hf Hp Hm]. destruct (TermFeeCharges_total (th_term_fee tx) (wc_fees config) Hf Hp Hm) as [[r t] Hc]. exists r.
  pose proof (share_le (th_term_fee tx) _ _ (proj1 Hf) Hp PRECISION_SCALE_pos) as Hs.
  assert (t = miner_pool tx) as ->; [|split; [done|]; unfold u256, miner_pool in *; lia].
  unfold TermFeeCharges_new in Hc. apply bind_ok in Hc as (reward & Hr & Hc). apply price_ok, mul_div_Ok in Hr as [-> _]; [|done].
  apply bind_ok in Hc as (treasury & Ht & Hc). apply bind_ok in Hc as ([] & _ & [= <- <-]).
  rewrite (proj2 (checked_sub_Some _ _ _) (conj eq_refl (proj2 Hs))) in Ht. res_simpl in Ht. by injection Ht as <-.
Qed.

Lemma payments_sum tx miners : miners ≠ [] → sum_Z (payments tx miners).*2 = miner_pool tx.
Proof.
  intros Hne. unfold payments. rewrite <- list_fmap_compose. change (snd ∘ _) with (λ mf : Z * Z, mf.2).
  change ((λ mf : Z * Z, mf.2) <$> ?l) with (l.*2). rewrite snd_zip by (by rewrite length_shares). apply shares_sum.
  destruct miners as [|m miners]; [done|]. destruct (btree_set (m :: miners)) eqn:E; [|cbn; lia].
  assert (m ∈ btree_set (m :: miners)) as Hm by (apply btree_set_elem; by left). rewrite E in Hm. by apply elem_of_nil in Hm.
Qed.

Lemma payments_nonneg tx miners : 0 ≤ miner_pool tx → Forall (λ p, 0 ≤ p.2) (payments tx miners).
Proof.
  intros Hp. unfold payments. apply Forall_fmap, Forall_forall. intros [m f] Hin. cbn. apply elem_of_zip_r in Hin.
  by apply (proj1 (Forall_forall _ _) (shares_nonneg (miner_pool tx) (length (btree_set miners)) Hp)).
Qed.

Lemma pay_miners_ok tx miners rewards : fee_ok tx →
  pay_miners config es tx miners rewards = Ok (if bool_decide (miners = []) then rewards
    else foldl (λ m p, btree_update p.1 (add_reward p.2 (id_from_le_bytes (th_id tx))) m) rewards (payments tx miners)).
Proof.
  intros Hok. unfold pay_miners. case_bool_decide as Hne; [done|]. destruct (charges_pool tx Hok) as (reward & -> & Hu). res_simpl.
  rewrite distribution_eq; [|done| |apply btree_set_nodup].
  - cbn [term_fee_treasury]. res_simpl. unfold payments. by rewrite foldl_fmap.
  - intros Hnil. destruct miners as [|m miners]; [done|]. assert (m ∈ btree_set (m :: miners)) as Hm by (apply btree_set_elem; by left). rewrite Hnil in Hm. by apply elem_of_nil in Hm.
Qed.

(** ** All transactions *)

Section Aggregate.
  Context (tx_to_miners : BTreeMap (list Z)) (expect_promoted : bool) (promoted : list Z).
  Notation miners_of tx := (default [] (btree_get (th_id tx) tx_to_miners)).

Definition refund_due (tx : DataTransactionHeader) : bool := expect_promoted && negb (bool_decide (th_id tx ∈ promoted)).
Definition refunds (tx : DataTransactionHeader) : list (Z * Z * Z) :=
  if refund_due tx then [(th_id tx, default 0 (th_perm_fee tx), th_signer tx)] else [].
Definition all_payments (txs : list DataTransactionHeader) : list (Z * Z) :=
  txs ≫= λ tx, if bool_decide (miners_of tx = []) then [] else payments tx (miners_of tx).

(** What aggregation needs of a transaction. *)
Record settles (tx : DataTransactionHeader) : Prop := {
  st_fee : fee_ok tx;
  st_miners : is_Some (btree_get (th_id tx) tx_to_miners);
  st_perm : refund_due tx = true → is_Some (th_perm_fee tx)
}.

Lemma all_payments_cons tx txs : all_payments (tx :: txs) = (if bool_decide (miners_of tx = []) then [] else payments tx (miners_of tx)) ++ all_payments txs.
Proof. done. Qed.

Lemma all_payments_nonneg txs : Forall settles txs → Forall (λ p, 0 ≤ p.2) (all_payments txs).
Proof.
  induction 1 as [|tx txs [Hf _ _] _ IH]; [constructor|]. rewrite all_payments_cons. apply Forall_app. split; [|done].
  case_bool_decide; [constructor|]. apply payments_nonneg. by destruct (charges_pool tx Hf) as (_ & _ & [? _]).
Qed.

Lemma refund_of_ok tx : settles tx → (if expect_promoted then refund_of promoted tx else Ok []) = Ok (refunds tx).
Proof.
  intros [_ _ Hp]. unfold refunds, refund_due, refund_of in *. destruct expect_promoted; [|done]. cbn [andb] in *. case_bool_decide; [done|]. cbn [negb] in *.
  destruct (Hp eq_refl) as [fee ->]. done.
Qed.

Lemma aggregate_txs_ok txs delta :
  Forall settles txs → amounts_ok (reward_balance_increment delta) →
  btree_sum fst (reward_balance_increment delta) + sum_Z (all_payments txs).*2 < 2 ^ 256 →
  ∃ delta', aggregate_txs config es txs tx_to_miners expect_promoted promoted delta = Ok delta' ∧ amounts_ok (reward_balance_increment delta') ∧
    btree_sum fst (reward_balance_increment delta') = btree_sum fst (reward_balance_increment delta) + sum_Z (all_payments txs).*2 ∧
    (∀ a, amount_of a (reward_balance_increment delta') = amount_of a (reward_balance_increment delta) + paid_to a (all_payments txs)) ∧
    user_perm_fee_refunds delta' = user_perm_fee_refunds delta ++ (txs ≫= refunds).
Proof.
  intros Htxs. revert delta. induction Htxs as [|tx txs Htx Htxs IH]; intros delta Hok Hsum; cbn [aggregate_txs].
  { exists delta. split_and!; [done|done|cbn; lia|intros a; unfold paid_to; cbn; lia|by rewrite app_nil_r]. }
  rewrite all_payments_cons in *. rewrite fmap_app, sum_Z_app in *. pose proof (refund_of_ok tx Htx) as Href. destruct Htx as [Hf [ms Hms] Hp].
  rewrite Hms in *. change (default [] (Some ms)) with ms in *. res_simpl. rewrite pay_miners_ok by done. res_simpl. rewrite Href. res_simpl.
  assert (0 ≤ sum_Z (all_payments txs).*2) as Hrest by (apply sum_Z_nonneg, Forall_fmap, (all_payments_nonneg txs Htxs)).
  set (pays := if bool_decide (ms = []) then [] else payments tx ms) in *.
  assert (Hm : ∃ m, (if bool_decide (ms = []) then reward_balance_increment delta
      else foldl (λ m p, btree_update p.1 (add_reward p.2 (id_from_le_bytes (th_id tx))) m) (reward_balance_increment delta) (payments tx ms)) = m ∧
    amounts_ok m ∧ btree_sum fst m = btree_sum fst (reward_balance_increment delta) + sum_Z pays.*2 ∧ ∀ a, amount_of a m = amount_of a (reward_balance_increment delta) + paid_to a pays).
  { assert (Hhere : btree_sum fst (reward_balance_increment delta) + sum_Z pays.*2 < 2 ^ 256) by lia.
    eexists. split; [done|]. unfold pays in *. clear Hsum. destruct (decide (ms = [])) as [E|E].
    { rewrite !bool_decide_true by done. split_and!; [done|cbn; lia|intros a; unfold paid_to; cbn; lia]. }
    rewrite bool_decide_false in Hhere by done. rewrite !bool_decide_false by done. apply add_rewards_ok; [done| |done]. apply payments_nonneg. by destruct (charges_pool tx Hf) as (_ & _ & [? _]). }
  destruct Hm as (m & -> & Hmok & Hms' & Hma). destruct (IH (mkExpiryDelta m (user_perm_fee_refunds delta ++ refunds tx)) Hmok) as (d & -> & Hd & Hs & Ha & Hr).
  { cbn [reward_balance_increment]. lia. }
  cbn [reward_balance_increment user_perm_fee_refunds] in *. exists d. split_and!; [done|done|lia| |].
  - intros a. rewrite Ha, Hma, paid_to_app. lia.
  - rewrite Hr, <- app_assoc. done.
Qed.
End Aggregate.
End Payments.
