(* ===== verification/ExpiryTheorems.v ===== *)
(** Settlement of expired slots, end to end: who is paid and refunded at an epoch block, and
    that no refunded transaction can be promoted. *)

From S2P Require Import SimpleRng TreeHash StateErr Codec Packing Merkle DataLedger EpochSnapshot EpochInv EpochSlots EpochCommit EpochTransition LedgerExpiry Settlement BlockIndex BlockIndexFacts IndexFile Poa PoaFacts PoaTheorems Pricing FeeSplit BTree ExpiryWalk ExpiryCollect ExpirySettle ExpiryFees Promotion Prelude.

#[export] Instance paid_to_perm a : Proper ((≡ₚ) ==> (=)) (paid_to a).
Proof. intros l l' Heq. unfold paid_to. apply sum_Z_perm. by rewrite Heq. Qed.

Lemma filter_iff_in {A} (P Q : A → Prop) `{∀ x, Decision (P x)} `{∀ x, Decision (Q x)} (l : list A) : (∀ x, x ∈ l → P x ↔ Q x) → filter P l = filter Q l.
Proof.
  induction l as [|x l IH]; intros Heq; [done|]. rewrite !filter_cons, IH by (intros y Hy; apply Heq; by right).
  specialize (Heq x ltac:(by left)). destruct (decide (P x)), (decide (Q x)); tauto.
Qed.

Lemma fmap_sublist {A B} (f : A → B) l l' : l `sublist_of` l' → f <$> l `sublist_of` f <$> l'.
Proof. induction 1; cbn; by constructor. Qed.

(** ** Transactions due *)

Section Due.
  Context (config : WalkConfig) (txs : list DataTransactionHeader) (slots : list (nat * list Z)).
  Notation C := (wc_num_chunks_in_partition config).

(** The transactions of a ledger that start in one of the slots, with their starts. *)
Definition due : list (Z * DataTransactionHeader) :=
  filter (λ p, Z.to_nat (p.1 / C) ∈ slots.*1) (tx_starts (wc_chunk_size config) 0 txs).

End Due.

(** The end of the slots, in chunks that exist. *)
Definition expired_end (config : WalkConfig) (slots : list nat) (total : Z) : Z :=
  Z.min (Z.of_nat (foldr (λ i m, Nat.max (S i) m) 0%nat slots) * wc_num_chunks_in_partition config) total.

Lemma slots_end a n : foldr (λ i m, Nat.max (S i) m) 0%nat (seq a (S n)) = (a + S n)%nat.
Proof. revert a. induction n as [|n IH]; intros a; [cbn; lia|]. change (seq a (S (S n))) with (a :: seq (S a) (S n)). cbn [foldr]. rewrite IH. lia. Qed.

Lemma expired_end_seq config m total : 0 ≤ total → expired_end config (seq 0 m) total = Z.min (Z.of_nat m * wc_num_chunks_in_partition config) total.
Proof. intros Ht. unfold expired_end. destruct m as [|m]; [done|]. by rewrite slots_end. Qed.

Lemma shared_le canon chain ledger b b' : b' ≤ b → shared canon chain ledger b → shared canon chain ledger b'.
Proof. intros Hle (n & ? & ? & ? & [?|?]); exists n; split_and!; try done; [by left|right; lia]. Qed.

(** A node's view of the chain of a parent block, with the snapshot of its epoch. *)
Record node_ok `{DupSort} (v : ExpiryView) (config : WalkConfig) (canon chain : list LedgerHeader)
    (txs_of : LedgerHeader → DataLedger → list DataTransactionHeader) (parent : LedgerHeader) (es : EpochSnapshot) (ledger : DataLedger) : Prop := {
  no_setting : expiry_setting v canon chain txs_of (wc_chunk_size config) ledger;
  no_meta : metadata_ok v canon;
  no_parent : last chain = Some parent;
  no_chunk : 0 < wc_chunk_size config;
  no_total : ledger_total_chunks (epoch_block es) ledger ≤ lh_total_chunks parent ledger
}.

Section Theorems.
  Context `{Sha256} `{DupSort} (v : ExpiryView) (config : WalkConfig) (canon chain : list LedgerHeader).
  Context (txs_of : LedgerHeader → DataLedger → list DataTransactionHeader) (parent : LedgerHeader) (es : EpochSnapshot).
  Context (capacity_target : Z → option Z) (seed : Z).
  Notation c := (wc_epoch config).
  Notation C := (wc_num_chunks_in_partition config).
  Notation cs := (wc_chunk_size config).
  Notation txs ledger := (ledger_txs chain txs_of ledger).

Section Ledger.
  Context (Hc : config_ok c) (Hch : EpochTransition.chain_ok c capacity_target seed) (Hes : epochs c capacity_target seed es).
  Context (ledger : DataLedger) (Hnode : node_ok v config canon chain txs_of parent es ledger).
  Notation Hset := (no_setting _ _ _ _ _ _ _ _ Hnode).
  Notation total := (lh_total_chunks parent ledger).

Lemma chunks_positive : 0 < C.
Proof. apply (ok_chunks _ Hc). Qed.

Lemma starts_below p : p ∈ tx_starts cs 0 (txs ledger) → 0 ≤ p.1 < total.
Proof.
  destruct p as [s tx]. intros (i & h & Hi & Hs)%(ledger_starts v canon chain txs_of config ledger Hset). pose proof (lookup_lt_Some _ _ _ Hi).
  pose proof (starts_bounds v canon chain txs_of config ledger Hset (no_chunk _ _ _ _ _ _ _ _ Hnode) i h s tx Hi Hs).
  pose proof (base_at_nonneg v canon chain txs_of config ledger Hset (no_chunk _ _ _ _ _ _ _ _ Hnode) i ltac:(lia)).
  rewrite (parent_total ledger chain parent (no_parent _ _ _ _ _ _ _ _ Hnode)).
  pose proof (total_base_le ledger chain (vo_chain _ _ _ (ps_view _ _ _ _ (xs_poa _ _ _ _ _ _ Hset))) i (length chain) ltac:(lia)). cbn [fst]. lia.
Qed.

Lemma due_settled slots a n : slots.*1 = seq a n →
  due config (txs ledger) slots = settled cs (slot_start ledger config parent (Z.of_nat a)) (slot_start ledger config parent (Z.of_nat a + Z.of_nat n)) (txs ledger).
Proof.
  intros Hseq. unfold due, settled. pose proof chunks_positive as HC. rewrite Hseq.
  apply filter_iff_in. intros p Hp. pose proof (starts_below p Hp) as Hb. rewrite elem_of_seq. unfold slot_start.
  pose proof (Z.div_mod p.1 C ltac:(lia)) as Hdm. pose proof (Z.mod_pos_bound p.1 C HC). assert (0 ≤ p.1 / C) by (apply Z.div_pos; lia).
  split; intros [Hr1 Hr2].
  - assert (Z.of_nat a ≤ p.1 / C) by lia. assert (p.1 / C < Z.of_nat a + Z.of_nat n) by lia. nia.
  - assert (Z.of_nat a ≤ p.1 / C) by (apply Z.div_le_lower_bound; nia). assert (p.1 / C < Z.of_nat a + Z.of_nat n) by (apply Z.div_lt_upper_bound; nia). lia.
Qed.

(** The walk over the slots finds the transactions due. *)
Lemma walk_due slots a n : slots.*1 = seq a (S n) → shared canon chain ledger (expired_end config slots.*1 total) →
  (due config (txs ledger) slots = [] ∧ find_block_range v config (slot_map slots) ledger total (lh_block_hash parent) = Ok None) ∨
  (∃ range, find_block_range v config (slot_map slots) ledger total (lh_block_hash parent) = Ok (Some range) ∧
     collect_tx_to_miners_from_range v config range ledger =
       Ok (btree_of id_at (miners_at config (slot_map slots)) (due config (txs ledger) slots) [], by_id (due config (txs ledger) slots).*2)).
Proof.
  intros Hseq Hsh. rewrite (due_settled slots a (S n) Hseq).
  assert (expired_end config slots.*1 total = slot_start ledger config parent (Z.of_nat a + Z.of_nat (S n))) as Hend.
  { unfold expired_end, slot_start. rewrite Hseq, slots_end. f_equal. lia. }
  rewrite Hend in Hsh.
  destruct (expired_walk_ok v canon chain txs_of config ledger Hset (no_chunk _ _ _ _ _ _ _ _ Hnode) chunks_positive (slot_map slots) parent (no_parent _ _ _ _ _ _ _ _ Hnode)
    (Z.of_nat a) (S n) ltac:(lia) ltac:(lia) (slot_map_keys slots a (S n) Hseq) Hsh) as [(_ & Hnil & Hfind)|Hsome]; [by left|by right].
Qed.

(** The slots that settle, with their miners. *)
Lemma settled_slots cas h new_total : (epoch_cascade c es = true → cas = true) → ledger_total_chunks (epoch_block es) ledger ≤ new_total →
  ∃ slots a n, collect_expired_partitions c es h ledger new_total cas = Ok (Some slots) ∧ slots.*1 = seq a n ∧
    slots.*1 = settling c cas es h new_total ledger ∧ ∀ i miners, (i, miners) ∈ slots → NoDup miners.
Proof.
  intros Hcas HT. destruct (epochs_inv c capacity_target seed Hc Hch es Hes) as [HI HF]. destruct (settling_consecutive c Hc es HF cas h new_total ledger Hcas HT) as (a & n & Hseq).
  destruct (collect_miners_ok c seed es ledger (settling c cas es h new_total ledger) HI) as (fees & Hfees & Hfst & Hnd); [apply settling_lt|].
  exists fees, a, n. split_and!; [|by rewrite Hfst|done|intros i miners Hin; by apply (Hnd i)].
  unfold collect_expired_partitions. rewrite (get_expiring_slot_partitions_eq c Hc) by (by apply (ei_ledgers _ _ _ HI)). res_simpl. by rewrite Hfees.
Qed.

(** ** Amounts *)

Definition fees_fit (expect : bool) : Prop :=
  Forall (λ tx, fee_ok config tx ∧ (expect = true → is_Some (th_perm_fee tx))) (txs ledger) ∧ sum_Z (miner_pool config <$> txs ledger) < 2 ^ 256.

(** The refunds for transactions that were not promoted. *)
Definition refund_list (l : list (Z * DataTransactionHeader)) (r : list (Z * Z * Z)) : Prop :=
  NoDup (r.*1.*1) ∧ ∀ id fee signer, (id, fee, signer) ∈ r ↔
    ∃ p, p ∈ l ∧ th_id p.2 = id ∧ th_perm_fee p.2 = Some fee ∧ th_signer p.2 = signer ∧ ¬ promoted_on chain id.

Section Slots.
  Context (slots : list (nat * list Z)) (expect : bool) (Hfit : fees_fit expect).
  Notation due_here := (due config (txs ledger) slots).
  Notation miners p := (miners_at config (slot_map slots) p).
  Notation tx_to_miners := (btree_of id_at (miners_at config (slot_map slots)) due_here []).

(** What the transactions due pay to reward addresses. *)
Definition due_payments : list (Z * Z) := due_here ≫= λ p, payments config es p.2 (miners p).

Lemma due_in p : p ∈ due_here → p ∈ tx_starts cs 0 (txs ledger).
Proof. unfold due. by intros [_ ?]%list_elem_of_filter. Qed.

Lemma due_functional {A} (val : Z * DataTransactionHeader → A) : functional id_at val due_here.
Proof. apply (functional_sub v canon chain txs_of config ledger Hset). intros p. apply due_in. Qed.

Lemma due_tx p : p ∈ due_here → p.2 ∈ txs ledger.
Proof. intros Hp%due_in. rewrite <- (tx_starts_snd cs 0 (txs ledger)). by apply list_elem_of_fmap_2. Qed.

Lemma due_miners p : p ∈ due_here → btree_get (th_id p.2) tx_to_miners = Some (miners p).
Proof. intros Hp. apply btree_get_of_nil; [apply due_functional|]. by exists p. Qed.

Lemma due_ids : NoDup (th_id <$> due_here.*2).
Proof.
  pose proof (xs_unique _ _ _ _ _ _ Hset) as Hnd. fold (ledger_txs chain txs_of ledger) in Hnd. rewrite <- (tx_starts_snd cs 0 (txs ledger)) in Hnd.
  rewrite <- list_fmap_compose in Hnd |- *. eapply sublist_NoDup; [exact Hnd|]. apply fmap_sublist, sublist_filter.
Qed.

Lemma all_payments_due l : (∀ p, p ∈ l → p ∈ due_here) → all_payments config es tx_to_miners l.*2 = l ≫= λ p, payments config es p.2 (miners p).
Proof.
  induction l as [|p l IH]; intros Hin; [done|]. rewrite fmap_cons, all_payments_cons, IH by (intros q Hq; apply Hin; by right).
  rewrite (due_miners p) by (apply Hin; by left). cbn [mbind list_bind]. f_equal. cbn [from_option id]. case_bool_decide as E; [by rewrite E|done].
Qed.

Lemma miner_pool_nonneg tx : tx ∈ txs ledger → 0 ≤ miner_pool config tx.
Proof.
  intros Htx. destruct Hfit as [Hall _]. apply (proj1 (Forall_forall _ _) Hall) in Htx as [Hok _]. by destruct (charges_pool config tx Hok) as (_ & _ & [? _]).
Qed.

Lemma payments_total l : sum_Z (l ≫= λ p, payments config es p.2 (miners p)).*2 = sum_Z ((λ p, miner_pool config p.2) <$> filter (λ p, miners p ≠ []) l).
Proof.
  induction l as [|p l IH]; [done|]. cbn [mbind list_bind]. rewrite fmap_app, sum_Z_app, IH, filter_cons. destruct (decide (miners p ≠ [])) as [Hne|Hne].
  - by rewrite fmap_cons, sum_Z_cons, payments_sum.
  - apply dec_stable in Hne. by rewrite Hne.
Qed.

Lemma sum_sublist l l' : l `sublist_of` l' → Forall (λ x, 0 ≤ x) l' → sum_Z l ≤ sum_Z l'.
Proof.
  induction 1 as [|x l l' _ IH|x l l' _ IH]; [done|..]; intros [Hx Hl]%Forall_cons; specialize (IH Hl); rewrite ?sum_Z_cons; lia.
Qed.

Lemma due_payments_fit : sum_Z due_payments.*2 < 2 ^ 256.
Proof.
  destruct Hfit as [_ Hsum]. unfold due_payments. rewrite payments_total. eapply Z.le_lt_trans; [|exact Hsum].
  assert (miner_pool config <$> txs ledger = (λ p, miner_pool config p.2) <$> tx_starts cs 0 (txs ledger)) as ->.
  { rewrite <- (tx_starts_snd cs 0 (txs ledger)) at 1. by rewrite <- list_fmap_compose. }
  apply sum_sublist.
  - apply fmap_sublist. unfold due. etrans; apply sublist_filter.
  - apply Forall_fmap, Forall_forall. intros p Hp. apply miner_pool_nonneg. rewrite <- (tx_starts_snd cs 0 (txs ledger)). by apply list_elem_of_fmap_2.
Qed.

(** Aggregation over the transactions due. *)
Lemma aggregate_due promoted :
  ∃ delta, aggregate_balance_deltas config (by_id due_here.*2).*2 tx_to_miners es expect promoted = Ok delta ∧
    (∀ a, amount_of a (reward_balance_increment delta) = paid_to a due_payments) ∧
    btree_sum fst (reward_balance_increment delta) = sum_Z ((λ p, miner_pool config p.2) <$> filter (λ p, miners p ≠ []) due_here) ∧
    user_perm_fee_refunds delta = (by_id due_here.*2).*2 ≫= refunds expect promoted.
Proof.
  destruct (by_id_values due_here.*2 due_ids) as [Hperm Hsorted]. unfold aggregate_balance_deltas. rewrite sort_txs_sorted by done.
  assert (Hpay : all_payments config es tx_to_miners (by_id due_here.*2).*2 ≡ₚ due_payments).
  { unfold due_payments. rewrite <- all_payments_due by done. unfold all_payments. by rewrite Hperm. }
  destruct (aggregate_txs_ok config es tx_to_miners expect promoted (by_id due_here.*2).*2 empty_delta) as (delta & Hrun & _ & Hs & Ha & Hr).
  - rewrite Hperm. apply Forall_fmap, Forall_forall. intros p Hp. destruct Hfit as [Hall _]. pose proof (proj1 (Forall_forall _ _) Hall _ (due_tx p Hp)) as [Hok Hperm'].
    split; [done|rewrite (due_miners p Hp); by eexists|]. unfold refund_due. intros [? _]%andb_true_iff. by apply Hperm'.
  - split; [constructor|done].
  - cbn. rewrite (sum_Z_perm _ due_payments.*2) by (by rewrite Hpay). apply due_payments_fit.
  - exists delta. split_and!; [done| | |done].
    + intros a. rewrite Ha, Hpay. done.
    + rewrite Hs, (sum_Z_perm _ due_payments.*2) by (by rewrite Hpay). cbn. apply payments_total.
Qed.

Lemma refunds_list promoted :
  expect = true → (∀ id, id ∈ promoted ↔ id ∈ tx_to_miners.*1 ∧ promoted_on chain id) →
  refund_list due_here ((by_id due_here.*2).*2 ≫= refunds expect promoted).
Proof.
  intros Hex Hprom. destruct (by_id_values due_here.*2 due_ids) as [Hperm _]. pose proof due_ids as Hnd. rewrite <- Hperm in Hnd. split.
  - eapply sublist_NoDup; [exact Hnd|]. clear. induction (by_id due_here.*2).*2 as [|tx l IH]; [done|]. cbn [mbind list_bind]. rewrite !fmap_app, fmap_cons.
    unfold refunds at 1. destruct (refund_due expect promoted tx); cbn; by constructor.
  - intros id fee signer. rewrite list_elem_of_bind. unfold refunds, refund_due. rewrite Hex. cbn [andb]. split.
    + intros (tx & Hr & Htx). rewrite Hperm in Htx. apply list_elem_of_fmap in Htx as (p & -> & Hp). destruct Hfit as [Hall _].
      destruct (proj1 (Forall_forall _ _) Hall _ (due_tx p Hp)) as [_ [perm Hpf]]; [done|]. case_bool_decide as Hno; cbn [negb] in Hr; [by apply elem_of_nil in Hr|].
      apply list_elem_of_singleton in Hr. rewrite Hpf in Hr. cbn in Hr. injection Hr as -> -> ->. exists p. split_and!; [done..|]. intros Hon. apply Hno, Hprom. split; [|done].
      pose proof (due_miners p Hp) as Hg. apply btree_get_elem in Hg; [|apply btree_of_ok; constructor]. by apply (list_elem_of_fmap_2 fst) in Hg.
    + intros (p & Hp & <- & Hpf & <- & Hno). exists p.2. rewrite bool_decide_false by (by intros [_ ?]%Hprom). cbn [negb]. rewrite Hpf. cbn. split; [by left|].
      rewrite Hperm. by apply list_elem_of_fmap_2.
Qed.
End Slots.

(** The fees of the slots that settle. *)
Lemma fees_run cas h new_total expect :
  (epoch_cascade c es = true → cas = true) → ledger ≠ Publish → ledger_total_chunks (epoch_block es) ledger ≤ new_total → fees_fit expect → (expect = true → finalized canon chain config h) →
  ∃ slots, collect_expired_partitions c es h ledger new_total cas = Ok (Some slots) ∧
    (shared canon chain ledger (expired_end config slots.*1 total) →
     ∃ delta, calculate_expired_ledger_fees v config es parent h ledger expect new_total cas = Ok delta ∧
       (∀ a, amount_of a (reward_balance_increment delta) = paid_to a (due_payments slots)) ∧
       btree_sum fst (reward_balance_increment delta) =
         sum_Z ((λ p, miner_pool config p.2) <$> filter (λ p, miners_at config (slot_map slots) p ≠ []) (due config (txs ledger) slots)) ∧
       (expect = false → user_perm_fee_refunds delta = []) ∧
       (expect = true → refund_list (due config (txs ledger) slots) (user_perm_fee_refunds delta))).
Proof.
  intros Hcas Hne HT Hfit Hfin. destruct (settled_slots cas h new_total Hcas HT) as (slots & a & n & Hcol & Hseq & _ & _). exists slots. split; [done|]. intros Hsh.
  assert (Hempty : due config (txs ledger) slots = [] → ∀ delta, delta = empty_delta → (∀ a, amount_of a (reward_balance_increment delta) = paid_to a (due_payments slots)) ∧
    btree_sum fst (reward_balance_increment delta) = sum_Z ((λ p, miner_pool config p.2) <$> filter (λ p, miners_at config (slot_map slots) p ≠ []) (due config (txs ledger) slots)) ∧
    (expect = false → user_perm_fee_refunds delta = []) ∧ (expect = true → refund_list (due config (txs ledger) slots) (user_perm_fee_refunds delta))).
  { intros Hd delta ->. unfold due_payments. rewrite Hd. split_and!; [done..|]. intros _. split; [constructor|]. intros id fee signer. cbn. rewrite elem_of_nil.
    split; [done|]. by intros (p & ?%elem_of_nil & _). }
  unfold calculate_expired_ledger_fees. rewrite (bool_decide_false (ledger = Publish)) by done. res_simpl. rewrite Hcol. res_simpl.
  destruct n as [|n].
  { apply fmap_nil_inv in Hseq as ->. exists empty_delta. split; [done|]. apply Hempty; [|done]. unfold due. apply elem_of_nil_inv. intros p [?%elem_of_nil _]%list_elem_of_filter. done. }
  rewrite bool_decide_false.
  2:{ intros Hnil. pose proof (slot_map_keys slots a (S n) Hseq) as Hk. rewrite Hnil, seqZ_cons in Hk by lia. done. }
  destruct (walk_due slots a n Hseq Hsh) as [[Hd ->]|(range & -> & Hrun)]; res_simpl; [exists empty_delta; split; [done|by apply Hempty]|]. rewrite Hrun. res_simpl.
  destruct expect.
  - destruct (resolve_promoted_ok v canon chain (ps_view _ _ _ _ (xs_poa _ _ _ _ _ _ Hset)) (xs_covered _ _ _ _ _ _ Hset) (no_meta _ _ _ _ _ _ _ _ Hnode) config parent
      (no_parent _ _ _ _ _ _ _ _ Hnode) (btree_of id_at (miners_at config (slot_map slots)) (due config (txs ledger) slots) []).*1 h (Hfin eq_refl)) as (promoted & -> & Hp). res_simpl.
    destruct (aggregate_due slots true Hfit promoted) as (delta & Hagg & Ha & Hs & Hr). exists delta. split_and!; [done..|].
    intros _. rewrite Hr. by apply refunds_list.
  - res_simpl. destruct (aggregate_due slots false Hfit []) as (delta & Hagg & Ha & Hs & Hr). exists delta. split_and!; [done..| |done].
    intros _. rewrite Hr. clear. by induction (by_id (due config (txs ledger) slots).*2).*2.
Qed.
End Ledger.

(** ** The promotion filter *)

(** What the filter reads besides: the index is a chain of the same kind, at most the depth of
    the walk behind the parent, and nothing precedes genesis. *)
Record filter_ok : Prop := {
  ft_node : node_ok v config canon chain txs_of parent es Submit;
  ft_canon : expiry_setting v canon canon txs_of (wc_chunk_size config) Submit;
  ft_depth : Z.of_nat (length chain) ≤ Z.of_nat (length canon) + wc_tx_anchor_expiry_depth config + 1;
  ft_genesis g : chain !! 0%nat = Some g → v_tree v !! lh_previous_block_hash g = None
}.

Section Filter.
  Context (Hc : config_ok c) (Hch : EpochTransition.chain_ok c capacity_target seed) (Hes : epochs c capacity_target seed es).
  Context (Hft : filter_ok).
  Notation Hnode := (ft_node Hft).
  Notation Hset := (no_setting _ _ _ _ _ _ _ _ Hnode).
  Notation total := (lh_total_chunks parent Submit).
  Notation height := (Z.of_nat (length chain)).

Lemma total_fits : 0 ≤ total < 2 ^ 64.
Proof. apply (max_offset_fits v canon chain txs_of config Submit Hset (no_chunk _ _ _ _ _ _ _ _ Hnode) parent (no_parent _ _ _ _ _ _ _ _ Hnode)). Qed.

Lemma filter_run cas : (epoch_cascade c es = true → cas = true) →
  ∃ m, get_all_expired_term_slot_indexes c es Submit height cas total = Ok (seq 0 m) ∧
    (shared canon chain Submit (Z.min (Z.of_nat m * C) total) →
     ∃ ids, expired_submit_tx_ids v config es parent height cas = Ok ids ∧
       (∀ id, id ∈ ids ↔ ∃ p, p ∈ settled cs 0 (Z.min (Z.of_nat m * C) total) (txs Submit) ∧ th_id p.2 = id) ∧
       ∀ id, is_submit_storage_expired v config id height es parent cas = Ok (bool_decide (id ∈ ids))).
Proof.
  intros Hcas. destruct (epochs_inv c capacity_target seed Hc Hch es Hes) as [HI HF]. pose proof total_fits as Htot.
  destruct (expired_submit_range_run c Hc es (ei_ledgers _ _ _ HI) HF height cas total Hcas) as (range & m & Hrange & Hall & Hend).
  { split; [apply (no_total _ _ _ _ _ _ _ _ Hnode)|lia]. }
  exists m. split; [done|]. intros Hsh. set (e := Z.min (Z.of_nat m * C) total) in *.
  assert (∃ ids, expired_submit_tx_ids v config es parent height cas = Ok ids ∧ ∀ id, id ∈ ids ↔ ∃ p, p ∈ settled cs 0 e (txs Submit) ∧ th_id p.2 = id) as (ids & Hids & Hspec).
  { unfold expired_submit_tx_ids. rewrite Hall. res_simpl. destruct m as [|m].
    { exists []. split; [done|]. intros id. rewrite elem_of_nil. split; [done|]. intros (p & Hp & _). unfold settled in Hp. apply list_elem_of_filter in Hp as [Hp _]. lia. }
    rewrite bool_decide_false by done. set (slots := (λ i : nat, (i, [0])) <$> seq 0 (S m)).
    assert (Hseq : slots.*1 = seq 0 (S m)) by (unfold slots; by rewrite <- list_fmap_compose, list_fmap_id).
    assert (Hdue : due config (txs Submit) slots = settled cs 0 e (txs Submit)).
    { rewrite (due_settled Hc Submit Hnode slots 0 (S m) Hseq). f_equal; unfold slot_start; lia. }
    assert (Hshd : shared canon chain Submit (expired_end config slots.*1 total)).
    { assert (expired_end config slots.*1 total = e) as ->; [|done]. unfold expired_end. by rewrite Hseq, slots_end. }
    destruct (walk_due Hc Submit Hnode slots 0 m Hseq Hshd) as [[Hd ->]|(rng & -> & Hrun)]; res_simpl.
    - exists []. split; [done|]. intros id. rewrite <- Hdue, Hd, elem_of_nil. split; [done|]. by intros (p & ?%elem_of_nil & _).
    - rewrite Hrun. res_simpl. rewrite Hdue. eexists. split; [done|]. intros id. cbn [fst].
      assert (Hf : functional id_at (miners_at config (slot_map slots)) (settled cs 0 e (txs Submit))).
      { apply (functional_sub v canon chain txs_of config Submit Hset). unfold settled. by intros p [_ ?]%list_elem_of_filter. }
      transitivity (id ∈ id_at <$> settled cs 0 e (txs Submit)); [|rewrite list_elem_of_fmap; split; intros (p & ? & ?); by exists p].
      rewrite <- (btree_of_keys _ _ _ id Hf). split; [by apply btree_get_key|]. intros [x Hx]. apply btree_get_elem in Hx; [|apply btree_of_ok; constructor].
      by apply (list_elem_of_fmap_2 fst) in Hx. }
  exists ids. split_and!; [done..|]. intros id. unfold is_submit_storage_expired, submit_range. rewrite Hrange. res_simpl.
  assert (Hbool : ∀ b, (b = true ↔ ∃ s tx, (s, tx) ∈ settled cs 0 e (txs Submit) ∧ th_id tx = id) → b = bool_decide (id ∈ ids)).
  { intros b Hb. apply eq_true_iff_eq. rewrite Hb, bool_decide_eq_true, Hspec. split; [intros (s & tx & ? & ?); by exists (s, tx)|]. intros ([s tx] & ? & ?). by exists s, tx. }
  destruct range as [r|].
  - change (r = e) in Hend. rewrite Hend. destruct (submit_tx_expired_ok v canon chain txs_of config (no_chunk _ _ _ _ _ _ _ _ Hnode) Hset (ft_canon Hft) (no_meta _ _ _ _ _ _ _ _ Hnode) (ft_genesis Hft)
      parent (no_parent _ _ _ _ _ _ _ _ Hnode) (ft_depth Hft) id e Hsh) as (b & Hrun & Hb).
    etrans; [exact Hrun|]. f_equal. by apply Hbool.
  - change (0 = e) in Hend. f_equal. apply Hbool. split; [done|]. intros (s & tx & Hp & _). unfold settled in Hp. apply list_elem_of_filter in Hp as [Hp _]. cbn [fst] in Hp. lia.
Qed.
End Filter.

(** ** Properties *)

(** C8: At an epoch block the fees of a term ledger settle completely, for either value of
    the block's Cascade flag (which stays on once the parent's epoch has it).  The slots that
    the settlement collects are known, and once their chunks are in blocks that the node's index
    shares with the parent's chain, the walk over index, tree and tables succeeds: the
    transactions paid are exactly those of the chain that start in one of the slots, each to
    the distinct miners of its own slot; every reward address gets the sum of its shares,
    all shares together are the whole pools of the transactions that have miners; and where
    promotion was possible, which is the Submit ledger, exactly the transactions that no block
    of the chain promoted are refunded their permanent fee, once. *)
Theorem expired_slots_settle cas h ledger new_total expect :
  config_ok c → EpochTransition.chain_ok c capacity_target seed → epochs c capacity_target seed es →
  (epoch_cascade c es = true → cas = true) → node_ok v config canon chain txs_of parent es ledger → ledger ≠ Publish →
  ledger_total_chunks (epoch_block es) ledger ≤ new_total → fees_fit ledger expect → (expect = true → finalized canon chain config h) →
  ∃ slots, collect_expired_partitions c es h ledger new_total cas = Ok (Some slots) ∧
    (shared canon chain ledger (expired_end config slots.*1 (lh_total_chunks parent ledger)) →
     ∃ delta, calculate_expired_ledger_fees v config es parent h ledger expect new_total cas = Ok delta ∧
       (∀ a, amount_of a (reward_balance_increment delta) = paid_to a (due_payments ledger slots)) ∧
       btree_sum fst (reward_balance_increment delta) =
         sum_Z ((λ p, miner_pool config p.2) <$> filter (λ p, miners_at config (slot_map slots) p ≠ []) (due config (txs ledger) slots)) ∧
       (expect = false → user_perm_fee_refunds delta = []) ∧
       (expect = true → refund_list (due config (txs ledger) slots) (user_perm_fee_refunds delta))).
Proof. intros Hc Hch Hes Hcas Hnode. by apply fees_run. Qed.

(** C20: The verdict on a single candidate for promotion agrees with the walk over all expired
    slots: both succeed, and a transaction id is in the result of the walk exactly when the
    verdict is that its Submit storage has expired. *)
Theorem promotion_filter_is_refund_walk cas :
  config_ok c → EpochTransition.chain_ok c capacity_target seed → epochs c capacity_target seed es → filter_ok →
  (epoch_cascade c es = true → cas = true) →
  ∃ slots, get_all_expired_term_slot_indexes c es Submit (Z.of_nat (length chain)) cas (lh_total_chunks parent Submit) = Ok slots ∧
    (shared canon chain Submit (expired_end config slots (lh_total_chunks parent Submit)) →
     ∃ ids, expired_submit_tx_ids v config es parent (Z.of_nat (length chain)) cas = Ok ids ∧
       ∀ id, is_submit_storage_expired v config id (Z.of_nat (length chain)) es parent cas = Ok (bool_decide (id ∈ ids))).
Proof.
  intros Hc Hch Hes Hft Hcas. destruct (filter_run Hc Hch Hes Hft cas Hcas) as (m & Hall & Hrun). exists (seq 0 m). split; [done|].
  rewrite expired_end_seq by apply (total_fits Hft). intros Hsh. destruct (Hrun Hsh) as (ids & ? & _ & ?). by exists ids.
Qed.

(** C21: No transaction is both refunded and promoted, before and after Cascade: what an epoch
    block refunds was promoted by no block of its chain, and the check of the same block's
    promotions finds it expired. *)
Theorem refund_excludes_promotion cas new_total delta id fee signer :
  config_ok c → EpochTransition.chain_ok c capacity_target seed → epochs c capacity_target seed es → filter_ok →
  (epoch_cascade c es = true → cas = true) → ledger_total_chunks (epoch_block es) Submit ≤ new_total → fees_fit Submit true → finalized canon chain config (Z.of_nat (length chain)) →
  (∀ slots, get_all_expired_term_slot_indexes c es Submit (Z.of_nat (length chain)) cas (lh_total_chunks parent Submit) = Ok slots →
     shared canon chain Submit (expired_end config slots (lh_total_chunks parent Submit))) →
  calculate_expired_ledger_fees v config es parent (Z.of_nat (length chain)) Submit true new_total cas = Ok delta →
  (id, fee, signer) ∈ user_perm_fee_refunds delta →
  ¬ promoted_on chain id ∧ is_submit_storage_expired v config id (Z.of_nat (length chain)) es parent cas = Ok true.
Proof.
  intros Hc Hch Hes Hft Hcas HT Hfit Hfin Hsh Hcalc Hin. set (total := lh_total_chunks parent Submit) in *. pose proof (total_fits Hft) as Htot. fold total in Htot.
  destruct (filter_run Hc Hch Hes Hft cas Hcas) as (m & Hall & Hrun). fold total in Hall, Hrun.
  pose proof (Hsh _ Hall) as Hshm. rewrite expired_end_seq in Hshm by lia. destruct (Hrun Hshm) as (ids & _ & Hids & Hverdict).
  destruct (epochs_inv c capacity_target seed Hc Hch es Hes) as [HI HF]. pose proof (ft_node Hft) as Hnode. pose proof (ok_chunks _ Hc) as HC.
  destruct (settled_slots Hc Hch Hes Submit cas (Z.of_nat (length chain)) new_total Hcas HT) as (slots & a & n & Hcol & Hseq & Hset & _).
  assert (Hsub : ∀ i, i ∈ slots.*1 → (i < m)%nat).
  { intros i Hi. rewrite Hset in Hi. apply (settling_expired c Hc es cas _ new_total total (seq 0 m) i (ei_ledgers _ _ _ HI) HT) in Hi; [|apply (no_total _ _ _ _ _ _ _ _ Hnode)|done].
    apply elem_of_seq in Hi. lia. }
  destruct (fees_run Hc Hch Hes Submit Hnode cas (Z.of_nat (length chain)) new_total true Hcas) as (slots' & Hcol' & Hfees); [done|done|done|done|].
  rewrite Hcol in Hcol'. injection Hcol' as <-. destruct Hfees as (delta' & Hcalc' & _ & _ & _ & Href).
  { eapply shared_le; [|exact Hshm]. unfold expired_end. fold total. rewrite Hseq. change (wc_num_chunks_in_partition config) with (ec_num_chunks_in_partition c).
    destruct n as [|n]; [cbn [seq foldr]; nia|]. rewrite slots_end.
    specialize (Hsub (a + n)%nat). rewrite Hseq, elem_of_seq in Hsub. specialize (Hsub ltac:(lia)). nia. }
  rewrite Hcalc in Hcalc'. injection Hcalc' as <-. apply (Href eq_refl) in Hin as (p & Hp & <- & _ & _ & Hno). split; [done|]. rewrite Hverdict, bool_decide_true; [done|].
  apply Hids. exists p. split; [|done]. unfold settled. unfold due in Hp. apply list_elem_of_filter in Hp as [Hp Hstart]. apply list_elem_of_filter. split; [|done].
  pose proof (starts_below Submit Hnode p Hstart) as Hb. fold total in Hb. apply Hsub in Hp. change (wc_num_chunks_in_partition config) with (ec_num_chunks_in_partition c) in *.
  pose proof (Z.div_mod p.1 (ec_num_chunks_in_partition c) ltac:(lia)). pose proof (Z.mod_pos_bound p.1 (ec_num_chunks_in_partition c) HC).
  assert (p.1 / ec_num_chunks_in_partition c < Z.of_nat m) by (assert (0 ≤ p.1 / ec_num_chunks_in_partition c) by (apply Z.div_pos; lia); lia). nia.
Qed.
End Theorems.
