(* ===== verification/ExpiryExample.v ===== *)
(** A node with an index, a tree and an epoch in which two Submit slots expire: the hypotheses
    of the settlement theorems hold of it. *)

From S2P Require Import SimpleRng TreeHash StateErr Codec Packing Merkle DataLedger EpochSnapshot EpochInv EpochSlots EpochCommit EpochTransition LedgerExpiry Settlement EpochExample BlockIndex BlockIndexFacts IndexFile Poa PoaFacts PoaTheorems Pricing FeeSplit BTree ExpiryWalk ExpiryCollect ExpirySettle ExpiryFees Promotion ExpiryTheorems Prelude.

Module ExpiryExample.

#[local] Existing Instance EpochExample.toy_sha256.
#[local] Instance put_order : DupSort := { walk_dup := id; walk_dup_perm := λ l _, Permutation_refl l }.

(** ** The chain *)

(** Four uploads of 8, 5, 8 and 4 chunks of 32 bytes, so that the third starts in the second
    slot of 10 chunks and ends in the third. *)
Definition upload (id signer size term_fee perm_fee : Z) : DataTransactionHeader :=
  mkTxHeader id signer (replicate 32 x01) (replicate 32 x00) size term_fee (Some perm_fee).
Definition tx1 : DataTransactionHeader := upload 11 71 256 1000 50000.
Definition tx2 : DataTransactionHeader := upload 12 72 159 2001 60000.
Definition tx3 : DataTransactionHeader := upload 13 73 256 3000 70000.
Definition tx4 : DataTransactionHeader := upload 14 74 128 4000 80000.

Definition header (hash prev height submit publish : Z) (submit_ids publish_ids : list Z) : LedgerHeader :=
  mkLedgerHeader hash prev height [mkTxLedger 0 [] publish_ids publish; mkTxLedger 1 [] submit_ids submit] 1000000 (1000 + hash).
Definition b0 : LedgerHeader := header 100 99 0 0 0 [] [].
Definition b1 : LedgerHeader := header 101 100 1 13 0 [11; 12] [].
Definition b2 : LedgerHeader := header 102 101 2 25 0 [13; 14] [].
Definition b3 : LedgerHeader := header 103 102 3 25 8 [] [11].
Definition b4 : LedgerHeader := header 104 103 4 25 8 [] [].
Definition b5 : LedgerHeader := header 105 104 5 25 8 [] [].
Definition chain : list LedgerHeader := [b0; b1; b2; b3; b4; b5].
Definition canon : list LedgerHeader := [b0; b1; b2].

Definition txs_of (h : LedgerHeader) (ledger : DataLedger) : list DataTransactionHeader :=
  match ledger with
  | Submit => if lh_height h =? 1 then [tx1; tx2] else if lh_height h =? 2 then [tx3; tx4] else []
  | Publish => if lh_height h =? 3 then [tx1] else []
  | _ => []
  end.
Definition block_of (h : LedgerHeader) : LedgerBlock := mkLedgerBlock h (txs_of h).

(** ** The node *)

Definition index : IndexDb :=
  mkIndexDb (map_seqZ 0 (bi_ledgers <$> (header_item <$> canon))) (map_seqZ 0 (bi_block_hash <$> (header_item <$> canon))).
Definition node : ExpiryView :=
  mkExpiryView
    (mkPoaView {[103 := block_of b3; 104 := block_of b4; 105 := block_of b5]} index {[100 := b0; 101 := b1; 102 := b2]}
       {[11 := tx1; 12 := tx2; 13 := tx3; 14 := tx4]})
    {[11 := 1; 12 := 1; 13 := 2; 14 := 2]} ∅.

Definition config : WalkConfig := mkWalkConfig EpochExample.config 32 3 4 (mkFeeParams (PRECISION_SCALE / 20) 10 None).
Definition epoch : EpochSnapshot := EpochExample.epoch2.

Example refunds_computed :
  match calculate_expired_ledger_fees node config epoch b5 6 Submit true 25 true with
  | Ok delta => user_perm_fee_refunds delta = [(12, 60000, 72); (13, 70000, 73)]
  | _ => False
  end.
Proof. vm_compute. reflexivity. Qed.

(** ** The hypotheses *)

Ltac each i Hi := repeat (destruct i as [|i]; [cbn in Hi; injection Hi as <-|]); try (by cbn in Hi).
Ltac chain_tac :=
  split;
  [ intros i h Hi; each i Hi; reflexivity
  | intros i a b Ha Hb; each i Ha; cbn in Hb; try injection Hb as <-; first [reflexivity|discriminate]
  | intros i h Hi; each i Hi; apply (bool_decide_unpack _); vm_compute; exact I
  | intros ledger i a b Ha Hb; each i Ha; cbn in Hb; try injection Hb as <-; first [discriminate|destruct ledger; vm_compute; discriminate]
  | vm_compute; reflexivity ].

Lemma node_chain_good : PoaFacts.chain_ok chain.
Proof. chain_tac. Qed.
Lemma node_canon_good : PoaFacts.chain_ok canon.
Proof. chain_tac. Qed.

Lemma index_good : index_ok index (header_item <$> canon).
Proof.
  split; [reflexivity|]. intros i item Hi. rewrite list_lookup_fmap in Hi. apply fmap_Some in Hi as (h & Hi & ->).
  each i Hi; (split; [vm_compute; reflexivity|split; [apply (bool_decide_unpack _); vm_compute; exact I|reflexivity]]).
Qed.

(** Chains whose blocks the node has: the parent's and the indexed one. *)
Section Chains.
  Context (hs : list LedgerHeader) (Hhs : hs = chain ∨ hs = canon).

Lemma each_header (P : LedgerHeader → Prop) : P b0 → P b1 → P b2 → P b3 → P b4 → P b5 → ∀ h, h ∈ hs → P h.
Proof.
  intros P0 P1 P2 P3 P4 P5 h Hh. assert (h ∈ chain) as Hin by (destruct Hhs as [->| ->]; [done|]; unfold canon, chain in *; set_solver).
  unfold chain in Hin. repeat (apply elem_of_cons in Hin as [->|Hin]; [assumption|]). by apply elem_of_nil in Hin.
Qed.

Lemma hs_good : PoaFacts.chain_ok hs.
Proof. destruct Hhs as [->| ->]; [exact node_chain_good|exact node_canon_good]. Qed.

Lemma view_good : view_ok node canon hs.
Proof.
  split; [exact index_good|exact node_canon_good|exact hs_good|..].
  - intros h b Hh. revert b. pattern h. revert h Hh. apply each_header; intros b Hb; vm_compute in Hb; first [discriminate|injection Hb as <-; reflexivity].
  - intros h c Hh Hc. revert c Hc. pattern h. revert h Hh.
    assert (Hcanon : ∀ h c, c ∈ canon → lh_block_hash h = lh_block_hash c → h ∈ chain → h = c).
    { intros h c Hc Heq Hh. apply list_elem_of_lookup in Hc as [j Hj], Hh as [i Hi]. each j Hj; each i Hi; first [reflexivity|vm_compute in Heq; discriminate]. }
    intros h Hh c Hc Heq. apply Hcanon; [done|done|]. destruct Hhs as [E|E]; rewrite E in Hh; [done|]. unfold canon, chain in *. set_solver.
Qed.

Lemma poa_good : poa_setting node canon hs txs_of.
Proof.
  split; [exact view_good|..].
  - intros h ledger Hh. pattern h. revert h Hh. apply each_header; intros [dl Hdl]; destruct ledger; vm_compute in Hdl; try discriminate; clear dl Hdl; unfold reads_txs;
      match goal with |- match ?x with _ => _ end => let y := eval vm_compute in x in change x with y end; try reflexivity;
      eexists; (split; [vm_compute; reflexivity|split; [vm_compute; reflexivity|]]); repeat (constructor; [vm_compute; reflexivity|]); constructor.
  - intros h ledger Hh. pattern h. revert h Hh. apply each_header; destruct ledger; apply (bool_decide_unpack _); vm_compute; exact I.
Qed.

Lemma setting_good : expiry_setting node canon hs txs_of 32 Submit.
Proof.
  split; [exact poa_good|..].
  - apply Forall_forall. intros h Hh. pattern h. revert h Hh. apply each_header; apply (bool_decide_unpack _); vm_compute; exact I.
  - destruct Hhs as [->| ->]; apply (bool_decide_unpack _); vm_compute; exact I.
  - intros h ids Hh. revert ids. pattern h. revert h Hh. apply each_header; intros ids Hids; vm_compute in Hids; injection Hids as <-; reflexivity.
  - intros h Hh. pattern h. revert h Hh. apply each_header; apply (bool_decide_unpack _); vm_compute; exact I.
  - intros i h Hi. destruct Hhs as [->| ->]; each i Hi; vm_compute; reflexivity.
  - destruct Hhs as [->| ->]; apply (bool_decide_unpack _); vm_compute; exact I.
  - destruct Hhs as [->| ->]; vm_compute; reflexivity.
Qed.
End Chains.

Lemma metadata_good : metadata_ok node canon.
Proof.
  split.
  - intros c Hc. apply list_elem_of_lookup in Hc as [i Hi]. each i Hi; vm_compute; reflexivity.
  - intros i c id Hi Hin. assert (id ∈ [11; 12; 13; 14]) as Hid.
    { each i Hi; unfold block_includes_ledger_tx in Hin; cbn in Hin; apply bool_decide_eq_true in Hin; set_solver. }
    repeat (apply elem_of_cons in Hid as [->|Hid]; [each i Hi; vm_compute in Hin; first [discriminate|vm_compute; reflexivity]|]). by apply elem_of_nil in Hid.
  - intros i c id Hi Hin. each i Hi; unfold block_includes_ledger_tx in Hin; cbn in Hin; apply bool_decide_eq_true in Hin; by apply elem_of_nil in Hin.
Qed.

Lemma node_good : node_ok node config canon chain txs_of b5 epoch Submit.
Proof. split; [apply (setting_good chain); by left|exact metadata_good|reflexivity|reflexivity|vm_compute; discriminate]. Qed.

Lemma filter_good : filter_ok node config canon chain txs_of b5 epoch.
Proof.
  split; [exact node_good|apply (setting_good canon); by right|vm_compute; discriminate|]. intros g [= <-]. vm_compute. reflexivity.
Qed.

Lemma shared_good bound : shared canon chain Submit bound.
Proof. exists 3%nat. split_and!; [reflexivity|cbn; lia|cbn; lia|left; reflexivity]. Qed.

Lemma finalized_good : finalized canon chain config 6.
Proof. exists 3%nat. split_and!; [reflexivity|lia|vm_compute; discriminate]. Qed.

Lemma fees_good : fees_fit config chain txs_of Submit true.
Proof.
  split; [|vm_compute; reflexivity]. apply Forall_forall. intros tx Htx. change (ledger_txs chain txs_of Submit) with [tx1; tx2; tx3; tx4] in Htx.
  repeat (apply elem_of_cons in Htx as [->|Htx]; [split; [split; [split|split|]; vm_compute; first [reflexivity|discriminate]|intros _; by eexists]|]). by apply elem_of_nil in Htx.
Qed.

(** ** Witnesses *)

Definition slots : list (nat * list Z) :=
  Eval vm_compute in match collect_expired_partitions EpochExample.config epoch 6 Submit 25 true with Ok (Some s) => s | _ => [] end.

(** The first two slots settle; three of the four uploads start in them, and the miners of
    the slots share their pools. *)
Lemma expired_slots_settle_witness :
  slots.*1 = [0%nat; 1%nat] ∧ (due config (ledger_txs chain txs_of Submit) slots).*2 = [tx1; tx2; tx3] ∧
  ∃ delta, calculate_expired_ledger_fees node config epoch b5 6 Submit true 25 true = Ok delta ∧
    btree_sum fst (reward_balance_increment delta) = 950 + 1901 + 2850 ∧
    refund_list chain (due config (ledger_txs chain txs_of Submit) slots) (user_perm_fee_refunds delta).
Proof.
  split; [vm_compute; reflexivity|]. split; [vm_compute; reflexivity|].
  destruct (expired_slots_settle node config canon chain txs_of b5 epoch EpochExample.target 0 true 6 Submit 25 true) as (slots' & Hcol & H);
    [exact EpochExample.config_good|exact EpochExample.chain_good|exact EpochExample.epochs2|reflexivity|exact node_good|discriminate|vm_compute; discriminate
    |exact fees_good|intros _; exact finalized_good|].
  assert (Hcol' : collect_expired_partitions EpochExample.config epoch 6 Submit 25 true = Ok (Some slots)) by (vm_compute; reflexivity).
  pose proof (eq_trans (eq_sym Hcol') Hcol) as [= <-]. clear Hcol Hcol'. destruct (H (shared_good _)) as (delta & Hcalc & _ & Hsum & _ & Href). exists delta.
  split; [exact Hcalc|]. split; [rewrite Hsum; vm_compute; reflexivity|]. exact (Href eq_refl).
Defined.

Lemma promotion_filter_witness :
  ∃ ids, expired_submit_tx_ids node config epoch b5 6 true = Ok ids ∧
    is_submit_storage_expired node config 13 6 epoch b5 true = Ok (bool_decide (13 ∈ ids)) ∧
    is_submit_storage_expired node config 14 6 epoch b5 true = Ok (bool_decide (14 ∈ ids)) ∧ ids = [11; 12; 13].
Proof.
  destruct (promotion_filter_is_refund_walk node config canon chain txs_of b5 epoch EpochExample.target 0 true) as (slots' & _ & H);
    [exact EpochExample.config_good|exact EpochExample.chain_good|exact EpochExample.epochs2|exact filter_good|reflexivity|].
  destruct (H (shared_good _)) as (ids & Hids & Hall). change (Z.of_nat (length chain)) with 6 in *. exists ids. split; [exact Hids|]. split; [apply Hall|]. split; [apply Hall|].
  assert (Hids' : expired_submit_tx_ids node config epoch b5 6 true = Ok [11; 12; 13]) by (vm_compute; reflexivity). congruence.
Defined.

Lemma refund_excludes_promotion_witness :
  ¬ promoted_on chain 13 ∧ is_submit_storage_expired node config 13 6 epoch b5 true = Ok true.
Proof.
  apply (refund_excludes_promotion node config canon chain txs_of b5 epoch EpochExample.target 0 true 25
    (match calculate_expired_ledger_fees node config epoch b5 6 Submit true 25 true with Ok delta => delta | _ => empty_delta end) 13 70000 73);
    [exact EpochExample.config_good|exact EpochExample.chain_good|exact EpochExample.epochs2|exact filter_good|reflexivity|vm_compute; discriminate|exact fees_good
    |exact finalized_good|intros; apply shared_good|vm_compute; reflexivity|].
  assert (Heq : user_perm_fee_refunds (match calculate_expired_ledger_fees node config epoch b5 6 Submit true 25 true with Ok delta => delta | _ => empty_delta end)
    = [(12, 60000, 72); (13, 70000, 73)]) by (vm_compute; reflexivity). rewrite Heq. right. left.
Defined.

(** The rolling hash of a reward that comes from one transaction has the bytes of the id in
    reverse order. *)
Example single_id_reversed : id_from_le_bytes 1 = 2 ^ 248.
Proof. vm_compute. reflexivity. Qed.
End ExpiryExample.
