(* ===== verification/ShadowGen.v ===== *)
(** The shadow transactions of a block ([crates/actors/src/shadow_tx_generator.rs]).

    An iterator goes through the phases of a block, keeps the balance of the treasury and
    yields one shadow transaction, or one error, at a time.  The messages of errors are left
    out.  The signer of an ingress proof is recovered by a cryptographic library: the recovery
    is an argument. *)

From S2P Require Import TreeHash Pricing StateErr DataLedger EpochSnapshot Codec ShadowTx BlockIndex FeeSplit BTree ExpiryWalk ExpirySettle Prelude.

Inductive ShadowTxGenError : Type :=
| SnapshotInvariant
| TreasuryArithmetic
| SnapshotTreasuryUnderflow
| Structural.

Record PublishLedgerWithTxs (P : Type) : Type := mkPublishLedger { pl_txs : list DataTransactionHeader; pl_proofs : option (list P) }.
Arguments mkPublishLedger {P}.
Arguments pl_txs {P}.
Arguments pl_proofs {P}.
Record ShadowMetadata : Type := mkMetadata { md_shadow_tx : ShadowTransaction; md_transaction_fee : Z }.
(** [UnpledgeRefundEvent] and [UnstakeRefundEvent]. *)
Record RefundEvent : Type := mkRefundEvent { re_account : Z; re_amount : Z; re_irys_ref_txid : Z }.

Inductive Phase : Type :=
| Header | Commitments | SubmitLedger | TermLedger | ExpiredLedgerFees | PublishLedger | CommitmentRefunds | Done.

Notation Items := (list (result ShadowTxGenError ShadowMetadata)).

(** The fields that stay, and the iterator's state. *)
Record GenInput : Type := mkGenInput {
  gi_reward_amount : Z;
  gi_treasury_reward_share : Z;
  gi_solution_hash : list byte;
  gi_config : FeeParams;
  gi_block_timestamp_secs : Z;
  gi_commitment_txs : list CommitmentTransaction;
  gi_submit_txs : list DataTransactionHeader;
  gi_one_year_txs : list DataTransactionHeader;
  gi_thirty_day_txs : list DataTransactionHeader
}.
Record GenState : Type := mkGenState {
  treasury_balance : Z;
  phase : Phase;
  index : nat;
  current_publish_iter : Items;
  current_expired_ledger_iter : Items;
  current_commitment_refunds_iter : Items
}.
Record ShadowTxGenerator : Type := mkGenerator {
  sg_input : GenInput;
  credit_full_perm_fee : bool;
  sg_state : GenState
}.

Definition with_treasury (b : Z) (st : GenState) : GenState :=
  mkGenState b (phase st) (index st) (current_publish_iter st) (current_expired_ledger_iter st) (current_commitment_refunds_iter st).
Definition with_phase (p : Phase) (st : GenState) : GenState :=
  mkGenState (treasury_balance st) p (index st) (current_publish_iter st) (current_expired_ledger_iter st) (current_commitment_refunds_iter st).
Definition with_index (i : nat) (st : GenState) : GenState :=
  mkGenState (treasury_balance st) (phase st) i (current_publish_iter st) (current_expired_ledger_iter st) (current_commitment_refunds_iter st).
Definition with_iters (publish expired refunds : Items) (st : GenState) : GenState :=
  mkGenState (treasury_balance st) (phase st) (index st) publish expired refunds.

(** Addresses, ids and rolling hashes as the bytes of a packet. *)
Definition address_bytes (a : Z) : list byte := be_bytes 20 a.
Definition hash_bytes (h : Z) : list byte := be_bytes 32 h.

(** What a commitment adds to the treasury. *)
Definition treasury_delta (tx : CommitmentTransaction) : Z :=
  match tx_type tx with Stake | Pledge _ => tx_value tx | _ => 0 end.

Definition structural {A} (r : result FeeError A) : result ShadowTxGenError A := map_err (λ _, Structural) r.

(** ** Ingress proof rewards *)

Section Ingress.
  Context {P : Type} (recover_signer : P → option Z).

(** A charge into the entry of its reward address; the sum panics when it overflows. *)
Definition add_charge (es : EpochSnapshot) (tx_id : Z) (charge : FeeCharge) (rewards : BTreeMap (Z * Z)) : result ShadowTxGenError (BTreeMap (Z * Z)) :=
  let reward_addr := resolve_reward_address es (fc_address charge) in
  let entry := default (0, 0) (btree_get reward_addr rewards) in
  amount ← expect (checked_add 256 entry.1 (fc_amount charge));
  Ok (btree_insert reward_addr (amount, Z.lxor entry.2 tx_id) rewards).
Fixpoint add_charges (es : EpochSnapshot) (tx_id : Z) (charges : list FeeCharge) (rewards : BTreeMap (Z * Z)) : result ShadowTxGenError (BTreeMap (Z * Z)) :=
  match charges with
  | [] => Ok rewards
  | charge :: rest => rewards ← add_charge es tx_id charge rewards; add_charges es tx_id rest rewards
  end.

(** The proofs of the transaction at [index]: [n] of them. *)
Definition proofs_of_tx (proofs : list P) (index n : Z) : result ShadowTxGenError (list P) :=
  start_index ← ok_or (checked_mul 64 index n) Structural;
  end_index ← ok_or (checked_add 64 start_index n) Structural;
  if end_index <=? Z.of_nat (length proofs) then Ok (take (Z.to_nat n) (drop (Z.to_nat start_index) proofs)) else Err Structural.

Fixpoint accumulate_txs (config : FeeParams) (timestamp : Z) (es : EpochSnapshot) (proofs : list P) (index : Z) (txs : list DataTransactionHeader)
    (rewards : BTreeMap (Z * Z)) : result ShadowTxGenError (BTreeMap (Z * Z)) :=
  match txs with
  | [] => Ok rewards
  | tx :: rest =>
      perm_fee ← ok_or (th_perm_fee tx) Structural;
      publish_charges ← structural (pool ← ingress_proof_reward_pool_at config timestamp (th_term_fee tx); PublishFeeCharges_new perm_fee pool);
      ingress_proofs ← proofs_of_tx proofs index (number_of_ingress_proofs_total config);
      fee_charges ← structural (ingress_proof_rewards recover_signer publish_charges ingress_proofs);
      rewards ← add_charges es (th_id tx) fee_charges rewards;
      accumulate_txs config timestamp es proofs (index + 1) rest rewards
  end.

Definition accumulate_ingress_rewards_for_init (publish_ledger : PublishLedgerWithTxs P) (config : FeeParams) (timestamp : Z) (es : EpochSnapshot)
  : result ShadowTxGenError (BTreeMap (Z * Z)) :=
  let proofs := default [] (pl_proofs publish_ledger) in
  if bool_decide (length proofs = 0%nat) then Ok []
  else accumulate_txs config timestamp es proofs 0 (pl_txs publish_ledger) [].
End Ingress.

(** ** The shadow transactions *)

Section Generator.
  Context (gi : GenInput).
  Notation solution_hash := (gi_solution_hash gi).

Definition create_expired_ledger_shadow_txs (balance_delta : LedgerExpiryBalanceDelta) : list ShadowMetadata :=
  ((λ '(address, (amount, rolling_hash)),
     mkMetadata (new_v1 (PTermFeeReward (mkBalanceIncrement amount (address_bytes address) (hash_bytes rolling_hash))) solution_hash) 0)
   <$> reward_balance_increment balance_delta) ++
  ((λ '(tx_id, refund_amount, user_address),
     mkMetadata (new_v1 (PPermFeeRefund (mkBalanceIncrement refund_amount (address_bytes user_address) (hash_bytes tx_id))) solution_hash) 0)
   <$> user_perm_fee_refunds balance_delta).

Definition create_publish_shadow_txs (rewards_map : BTreeMap (Z * Z)) : list ShadowMetadata :=
  (λ '(address, (reward_amount, rolling_hash)),
     mkMetadata (new_v1 (PIngressProofReward (mkBalanceIncrement reward_amount (address_bytes address) (hash_bytes rolling_hash))) solution_hash) 0)
  <$> rewards_map.

Definition refund_increment (event : RefundEvent) : BalanceIncrement :=
  mkBalanceIncrement (re_amount event) (address_bytes (re_account event)) (hash_bytes (re_irys_ref_txid event)).
Definition create_commitment_refund_shadow_txs (unpledge_events unstake_events : list RefundEvent) : list ShadowMetadata :=
  ((λ event, mkMetadata (new_v1 (PUnpledgeRefund (refund_increment event)) solution_hash) 0) <$> unpledge_events) ++
  ((λ event, mkMetadata (new_v1 (PUnstakeRefund (refund_increment event)) solution_hash) 0) <$> unstake_events).

Definition process_commitment_transaction (tx : CommitmentTransaction) : ShadowMetadata :=
  let target := address_bytes (tx_signer tx) in
  let irys_ref := hash_bytes (tx_id tx) in
  let packet :=
    match tx_type tx with
    | Stake => PStake (mkBalanceDecrement (tx_value tx) target irys_ref)
    | Pledge _ => PPledge (mkBalanceDecrement (tx_value tx) target irys_ref)
    | Unpledge _ _ => PUnpledge (mkUnpledgeDebit target irys_ref)
    | Unstake => PUnstakeDebit (mkUnstakeDebit target irys_ref)
    | UpdateRewardAddress new_reward_address => PUpdateRewardAddress (mkUpdateRewardAddressDebit target irys_ref (address_bytes new_reward_address))
    end in
  mkMetadata (new_v1 packet solution_hash) (user_fee tx).

Definition create_submit_shadow_tx (tx : DataTransactionHeader) (term_charges : TermFeeCharges) : result ShadowTxGenError ShadowMetadata :=
  let treasury_amount := saturating_add 256 (term_fee_treasury term_charges) (default 0 (th_perm_fee tx)) in
  _ ← guard_err (2 ^ 128 <=? block_producer_reward term_charges) TreasuryArithmetic;
  Ok (mkMetadata (new_v1 (PStorageFees (mkBalanceDecrement treasury_amount (address_bytes (th_signer tx)) (hash_bytes (th_id tx)))) solution_hash)
        (block_producer_reward term_charges)).

(** ** Steps of the iterator *)

Definition on_treasury (f : Z → result ShadowTxGenError Z) : SE GenState ShadowTxGenError () :=
  update (λ st, b ← f (treasury_balance st); Ok (with_treasury b st)).
Definition add_to_treasury (amount : Z) : SE GenState ShadowTxGenError () :=
  on_treasury (λ b, ok_or (checked_add 256 b amount) TreasuryArithmetic).
Definition add_treasury_reward_share : SE GenState ShadowTxGenError () := add_to_treasury (gi_treasury_reward_share gi).
Definition deduct_from_treasury_for_payout (amount : Z) : SE GenState ShadowTxGenError () :=
  on_treasury (λ b, ok_or (checked_sub b amount) SnapshotTreasuryUnderflow).

Definition try_process_commitment_at_index (i : nat) : SE GenState ShadowTxGenError ShadowMetadata :=
  tx ← lift (expect (gi_commitment_txs gi !! i));
  let delta := treasury_delta tx in
  _ ← (if delta =? 0 then mret () else add_to_treasury delta);
  mret (process_commitment_transaction tx).

Section Full.
  Context (full : bool).

(** The part of the permanent fee that is credited at inclusion. *)
Definition perm_fee_credit (charges : PublishFeeCharges) : result ShadowTxGenError Z :=
  if full then expect (checked_add 256 (perm_fee_treasury charges) (ingress_proof_reward charges)) else Ok (perm_fee_treasury charges).

Definition try_process_submit_at_index (i : nat) : SE GenState ShadowTxGenError ShadowMetadata :=
  tx ← lift (expect (gi_submit_txs gi !! i));
  term_charges ← lift (structural (TermFeeCharges_new (th_term_fee tx) (gi_config gi)));
  perm_charges ← lift (match th_perm_fee tx with
                       | None => Ok None
                       | Some perm_fee =>
                           charges ← structural (pool ← ingress_proof_reward_pool_at (gi_config gi) (gi_block_timestamp_secs gi) (th_term_fee tx);
                                                 PublishFeeCharges_new perm_fee pool);
                           Ok (Some charges)
                       end);
  shadow_metadata ← lift (create_submit_shadow_tx tx term_charges);
  _ ← add_to_treasury (term_fee_treasury term_charges);
  _ ← match perm_charges with
      | None => mret ()
      | Some charges => credit ← lift (perm_fee_credit charges); add_to_treasury credit
      end;
  mret shadow_metadata.
End Full.

Definition try_process_term_only (tx : DataTransactionHeader) : SE GenState ShadowTxGenError ShadowMetadata :=
  term_charges ← lift (structural (TermFeeCharges_new (th_term_fee tx) (gi_config gi)));
  shadow_metadata ← lift (create_submit_shadow_tx tx term_charges);
  _ ← add_to_treasury (term_fee_treasury term_charges);
  mret shadow_metadata.

(** The one-year transactions, then the thirty-day ones. *)
Definition term_tx_at (i : nat) : option DataTransactionHeader :=
  if (i <? length (gi_one_year_txs gi))%nat then gi_one_year_txs gi !! i
  else gi_thirty_day_txs gi !! (i - length (gi_one_year_txs gi))%nat.

(** What the treasury pays for a packet of each of the last phases. *)
Definition pay_expired (m : ShadowMetadata) : SE GenState ShadowTxGenError ShadowMetadata :=
  _ ← match packet_of (md_shadow_tx m) with
      | PTermFeeReward i | PPermFeeRefund i => deduct_from_treasury_for_payout (bi_amount i)
      | _ => lift (Err SnapshotInvariant)
      end;
  mret m.
Definition pay_publish (m : ShadowMetadata) : SE GenState ShadowTxGenError ShadowMetadata :=
  _ ← match packet_of (md_shadow_tx m) with
      | PIngressProofReward i => on_treasury (λ b, ok_or (checked_sub b (bi_amount i)) TreasuryArithmetic)
      | _ => lift (Err SnapshotInvariant)
      end;
  mret m.
Definition pay_refund (m : ShadowMetadata) : SE GenState ShadowTxGenError ShadowMetadata :=
  _ ← match packet_of (md_shadow_tx m) with
      | PUnpledgeRefund i | PUnstakeRefund i => deduct_from_treasury_for_payout (bi_amount i)
      | _ => lift Panic
      end;
  mret m.

(** [next] of an iterator, then [pay] on its item. *)
Definition take_item (items : GenState → Items) (set : Items → GenState → GenState) (pay : ShadowMetadata → SE GenState ShadowTxGenError ShadowMetadata)
  : SE GenState ShadowTxGenError (option ShadowMetadata) := λ st,
  match items st with
  | [] => (st, Ok None)
  | r :: rest => (m ← lift r; m ← pay m; mret (Some m)) (set rest st)
  end.
Definition try_process_expired_ledger : SE GenState ShadowTxGenError (option ShadowMetadata) :=
  take_item current_expired_ledger_iter (λ l st, with_iters (current_publish_iter st) l (current_commitment_refunds_iter st) st) pay_expired.
Definition try_process_publish_ledger : SE GenState ShadowTxGenError (option ShadowMetadata) :=
  take_item current_publish_iter (λ l st, with_iters l (current_expired_ledger_iter st) (current_commitment_refunds_iter st) st) pay_publish.
Definition try_process_commitment_refunds : SE GenState ShadowTxGenError (option ShadowMetadata) :=
  take_item current_commitment_refunds_iter (λ l st, with_iters (current_publish_iter st) (current_expired_ledger_iter st) l st) pay_refund.

Definition block_reward_metadata : ShadowMetadata :=
  mkMetadata (new_v1 (PBlockReward (mkBlockRewardIncrement (gi_reward_amount gi))) solution_hash) 0.

(** ** The iterator *)

Notation Item := (result ShadowTxGenError ShadowMetadata).

(** An element of a slice by [index], or the next phase. *)
Definition at_index (count : nat) (step : nat → SE GenState ShadowTxGenError ShadowMetadata) (next_phase : Phase) (st : GenState)
  : GenState * option (option Item) :=
  if (index st <? count)%nat then
    let '(st', r) := step (index st) st in (with_index (S (index st')) st', Some (Some r))
  else (with_index 0 (with_phase next_phase st), None).
(** An item of an iterator, or the next phase. *)
Definition at_item (step : SE GenState ShadowTxGenError (option ShadowMetadata)) (next_phase : Phase) (st : GenState) : GenState * option (option Item) :=
  match step st with
  | (st', Ok (Some m)) => (st', Some (Some (Ok m)))
  | (st', Ok None) => (with_phase next_phase st', None)
  | (st', Err e) => (st', Some (Some (Err e)))
  | (st', Panic) => (st', Some (Some Panic))
  end.

(** A round of the loop of [next]: what it returns, unless it goes on. *)
Definition next_round (full : bool) (st : GenState) : GenState * option (option Item) :=
  match phase st with
  | Header =>
      match add_treasury_reward_share (with_index 0 (with_phase Commitments st)) with
      | (st', Ok _) => (st', Some (Some (Ok block_reward_metadata)))
      | (st', Err e) => (st', Some (Some (Err e)))
      | (st', Panic) => (st', Some (Some Panic))
      end
  | Commitments => at_index (length (gi_commitment_txs gi)) try_process_commitment_at_index SubmitLedger st
  | SubmitLedger => at_index (length (gi_submit_txs gi)) (try_process_submit_at_index full) TermLedger st
  | TermLedger =>
      at_index (length (gi_one_year_txs gi) + length (gi_thirty_day_txs gi))
        (λ i, tx ← lift (expect (term_tx_at i)); try_process_term_only tx) ExpiredLedgerFees st
  | ExpiredLedgerFees => at_item try_process_expired_ledger PublishLedger st
  | PublishLedger => at_item try_process_publish_ledger CommitmentRefunds st
  | CommitmentRefunds => at_item try_process_commitment_refunds Done st
  | Done => (st, Some None)
  end.

(** A round goes on only to a later phase, of which there are eight. *)
Fixpoint next_loop (fuel : nat) (full : bool) (st : GenState) : GenState * option Item :=
  match next_round full st with
  | (st', Some r) => (st', r)
  | (st', None) => match fuel with O => (st', Some Panic) | S fuel => next_loop fuel full st' end
  end.
Definition next (full : bool) : GenState → GenState * option Item := next_loop 8 full.

(** The loop of the callers over the iterator, up to its first error. *)
Fixpoint collect_loop (fuel : nat) (full : bool) (st : GenState) (acc : list ShadowMetadata) : GenState * result ShadowTxGenError (list ShadowMetadata) :=
  match next full st with
  | (st', None) => (st', Ok acc)
  | (st', Some (Err e)) => (st', Err e)
  | (st', Some Panic) => (st', Panic)
  | (st', Some (Ok m)) => match fuel with O => (st', Panic) | S fuel => collect_loop fuel full st' (acc ++ [m]) end
  end.
End Generator.

(** Every item is yielded once, with the block reward before them. *)
Definition collect_fuel (g : ShadowTxGenerator) : nat :=
  let gi := sg_input g in let st := sg_state g in
  S (length (gi_commitment_txs gi) + length (gi_submit_txs gi) + length (gi_one_year_txs gi) + length (gi_thirty_day_txs gi) +
     length (current_expired_ledger_iter st) + length (current_publish_iter st) + length (current_commitment_refunds_iter st)).

(** The shadow transactions and the final balance of the treasury. *)
Definition collect (g : ShadowTxGenerator) : result ShadowTxGenError (list ShadowMetadata * Z) :=
  match collect_loop (sg_input g) (collect_fuel g) (credit_full_perm_fee g) (sg_state g) [] with
  | (st, Ok txs) => Ok (txs, treasury_balance st)
  | (_, Err e) => Err e
  | (_, Panic) => Panic
  end.

Section New.
  Context {P : Type} (recover_signer : P → option Z).

Definition promoted_and_refunded (publish_ledger : PublishLedgerWithTxs P) (delta : LedgerExpiryBalanceDelta) : bool :=
  existsb (λ tx, existsb (λ refund, th_id tx =? refund.1.1) (user_perm_fee_refunds delta)) (pl_txs publish_ledger).

Definition new (gi : GenInput) (publish_ledger : PublishLedgerWithTxs P) (initial_treasury_balance : Z) (delta : LedgerExpiryBalanceDelta)
    (refund_events unstake_refund_events : list RefundEvent) (es : EpochSnapshot) : result ShadowTxGenError ShadowTxGenerator :=
  _ ← guard_err (promoted_and_refunded publish_ledger delta) SnapshotInvariant;
  let full := bool_decide (is_Some (FeeSplit.delta_for_block (gi_config gi) (gi_block_timestamp_secs gi))) in
  let expired :=
    if negb (bool_decide (reward_balance_increment delta = [])) || negb (bool_decide (user_perm_fee_refunds delta = []))
    then create_expired_ledger_shadow_txs gi delta else [] in
  rewards ← accumulate_ingress_rewards_for_init recover_signer publish_ledger (gi_config gi) (gi_block_timestamp_secs gi) es;
  let publish := if bool_decide (rewards = []) then [] else create_publish_shadow_txs gi rewards in
  let refunds := create_commitment_refund_shadow_txs gi refund_events unstake_refund_events in
  Ok (mkGenerator gi full (mkGenState initial_treasury_balance Header 0 (Ok <$> publish) (Ok <$> expired) (Ok <$> refunds))).
End New.

(** * The iterator over shadow transactions is a sequence of steps on the treasury. *)

(** ** Steps on a balance *)

Notation Step A := (Z → result ShadowTxGenError (Z * A)).

Definition step_ret {A} (a : A) : Step A := λ b, Ok (b, a).
Definition step_bind {A B} (s : Step A) (f : A → Step B) : Step B := λ b, r ← s b; f r.2 r.1.
Definition step_lift {A} (r : result ShadowTxGenError A) : Step A := λ b, a ← r; Ok (b, a).
Definition credit (amount : Z) : Step () := λ b, b' ← ok_or (checked_add 256 b amount) TreasuryArithmetic; Ok (b', ()).
Definition debit (e : ShadowTxGenError) (amount : Z) : Step () := λ b, b' ← ok_or (checked_sub b amount) e; Ok (b', ()).

Fixpoint run_steps (steps : list (Step ShadowMetadata)) (b : Z) (acc : list ShadowMetadata) : result ShadowTxGenError (list ShadowMetadata * Z) :=
  match steps with
  | [] => Ok (acc, b)
  | s :: rest => r ← s b; run_steps rest r.1 (acc ++ [r.2])
  end.

Lemma run_steps_app l l' b acc : run_steps (l ++ l') b acc = (r ← run_steps l b acc; run_steps l' r.2 r.1).
Proof. revert b acc. induction l as [|s l IH]; intros b acc; [done|]. cbn [run_steps app]. destruct (s b) as [[b' m]| |]; cbn; [apply IH|done..]. Qed.

Lemma run_steps_acc l b acc : run_steps l b acc = (r ← run_steps l b []; Ok (acc ++ r.1, r.2)).
Proof.
  revert b acc. induction l as [|s l IH]; intros b acc; cbn [run_steps]; [cbn; by rewrite app_nil_r|].
  destruct (s b) as [[b' m]| |]; cbn; [|done..]. rewrite (IH b' (acc ++ [m])), (IH b' [m]).
  destruct (run_steps l b' []) as [[l' b'']| |]; cbn; [|done..]. by rewrite <- app_assoc.
Qed.

(** A computation on the state of the iterator that changes the balance only. *)
Definition acts {A} (m : SE GenState ShadowTxGenError A) (s : Step A) : Prop := ∀ st,
  match s (treasury_balance st) with
  | Ok (b, a) => m st = (with_treasury b st, Ok a)
  | Err e => ∃ st', m st = (st', Err e)
  | Panic => ∃ st', m st = (st', Panic)
  end.

Lemma with_treasury_same st : with_treasury (treasury_balance st) st = st.
Proof. by destruct st. Qed.

Lemma acts_ret {A} (a : A) : acts (mret a) (step_ret a).
Proof. intros st. cbn. by rewrite with_treasury_same. Qed.

Lemma acts_lift {A} (r : result ShadowTxGenError A) : acts (lift r) (step_lift r).
Proof. intros st. destruct r; cbn; [by rewrite with_treasury_same|by eexists..]. Qed.

Lemma acts_bind {A B} (m : SE GenState ShadowTxGenError A) (f : A → SE GenState ShadowTxGenError B) s g :
  acts m s → (∀ a, acts (f a) (g a)) → acts (m ≫= f) (step_bind s g).
Proof.
  intros Hm Hf st. specialize (Hm st). unfold step_bind. change ((m ≫= f) st) with (SE_bind _ _ f m st). unfold SE_bind.
  destruct (s (treasury_balance st)) as [[b a]| |]; cbn.
  - rewrite Hm. specialize (Hf a (with_treasury b st)). cbn in Hf. by destruct (g a b) as [[b' a']| |].
  - destruct Hm as [st' ->]. by eexists.
  - destruct Hm as [st' ->]. by eexists.
Qed.

Lemma acts_on f : acts (on_treasury f) (λ b, b' ← f b; Ok (b', ())).
Proof. intros st. unfold on_treasury, update. destruct (f (treasury_balance st)); cbn; [done|by eexists..]. Qed.
Lemma acts_credit amount : acts (add_to_treasury amount) (credit amount).
Proof. apply acts_on. Qed.
Lemma acts_debit amount : acts (deduct_from_treasury_for_payout amount) (debit SnapshotTreasuryUnderflow amount).
Proof. apply acts_on. Qed.

Create HintDb acts.
#[export] Hint Resolve acts_ret acts_lift acts_bind acts_credit acts_debit acts_on : acts.

(** ** The steps of a generator *)

Section Steps.
  Context (gi : GenInput) (full : bool).

Definition header_step : Step ShadowMetadata := step_bind (credit (gi_treasury_reward_share gi)) (λ _, step_ret (block_reward_metadata gi)).
Definition commitment_step (tx : CommitmentTransaction) : Step ShadowMetadata :=
  step_bind (if treasury_delta tx =? 0 then step_ret () else credit (treasury_delta tx)) (λ _, step_ret (process_commitment_transaction gi tx)).
Definition perm_charges_of (tx : DataTransactionHeader) : result ShadowTxGenError (option PublishFeeCharges) :=
  match th_perm_fee tx with
  | None => Ok None
  | Some perm_fee =>
      charges ← structural (pool ← ingress_proof_reward_pool_at (gi_config gi) (gi_block_timestamp_secs gi) (th_term_fee tx);
                            PublishFeeCharges_new perm_fee pool);
      Ok (Some charges)
  end.
Definition submit_step (tx : DataTransactionHeader) : Step ShadowMetadata :=
  step_bind (step_lift (structural (TermFeeCharges_new (th_term_fee tx) (gi_config gi)))) (λ term_charges,
  step_bind (step_lift (perm_charges_of tx)) (λ perm_charges,
  step_bind (step_lift (create_submit_shadow_tx gi tx term_charges)) (λ m,
  step_bind (credit (term_fee_treasury term_charges)) (λ _,
  step_bind (match perm_charges with
             | None => step_ret ()
             | Some charges => step_bind (step_lift (perm_fee_credit full charges)) credit
             end) (λ _, step_ret m))))).
Definition term_step (tx : DataTransactionHeader) : Step ShadowMetadata :=
  step_bind (step_lift (structural (TermFeeCharges_new (th_term_fee tx) (gi_config gi)))) (λ term_charges,
  step_bind (step_lift (create_submit_shadow_tx gi tx term_charges)) (λ m,
  step_bind (credit (term_fee_treasury term_charges)) (λ _, step_ret m))).
Definition payout_step (pays : TransactionPacket → Step ()) (m : ShadowMetadata) : Step ShadowMetadata :=
  step_bind (pays (packet_of (md_shadow_tx m))) (λ _, step_ret m).
Definition pays_expired (p : TransactionPacket) : Step () :=
  match p with PTermFeeReward i | PPermFeeRefund i => debit SnapshotTreasuryUnderflow (bi_amount i) | _ => step_lift (Err SnapshotInvariant) end.
Definition pays_publish (p : TransactionPacket) : Step () :=
  match p with PIngressProofReward i => debit TreasuryArithmetic (bi_amount i) | _ => step_lift (Err SnapshotInvariant) end.
Definition pays_refund (p : TransactionPacket) : Step () :=
  match p with PUnpledgeRefund i | PUnstakeRefund i => debit SnapshotTreasuryUnderflow (bi_amount i) | _ => step_lift Panic end.

Lemma lift_expect {A B} (o : option A) a (f : A → SE GenState ShadowTxGenError B) s : o = Some a → acts (f a) s → acts (lift (expect o) ≫= f) s.
Proof. intros -> Hf st. apply (Hf st). Qed.

Lemma commitment_acts i tx : gi_commitment_txs gi !! i = Some tx → acts (try_process_commitment_at_index gi i) (commitment_step tx).
Proof.
  intros Hi. eapply lift_expect; [done|]. unfold commitment_step. destruct (treasury_delta tx =? 0); eauto with acts.
Qed.

Lemma submit_acts i tx : gi_submit_txs gi !! i = Some tx → acts (try_process_submit_at_index gi full i) (submit_step tx).
Proof.
  intros Hi. eapply lift_expect; [done|]. apply acts_bind; [apply acts_lift|intros tc]. apply acts_bind; [apply acts_lift|intros pc].
  apply acts_bind; [apply acts_lift|intros m]. apply acts_bind; [apply acts_credit|intros _]. apply acts_bind; [|intros _; apply acts_ret].
  destruct pc; eauto with acts.
Qed.

Lemma term_acts i tx : (gi_one_year_txs gi ++ gi_thirty_day_txs gi) !! i = Some tx →
  acts (tx ← lift (expect (term_tx_at gi i)); try_process_term_only gi tx) (term_step tx).
Proof.
  intros Hi. eapply lift_expect; [|unfold try_process_term_only, term_step; eauto 8 with acts].
  unfold term_tx_at. destruct (Nat.ltb_spec i (length (gi_one_year_txs gi))).
  - by rewrite lookup_app_l in Hi.
  - by rewrite lookup_app_r in Hi.
Qed.

Lemma pay_acts m : acts (pay_expired m) (payout_step pays_expired m) ∧ acts (pay_publish m) (payout_step pays_publish m) ∧ acts (pay_refund m) (payout_step pays_refund m).
Proof. unfold pay_expired, pay_publish, pay_refund, payout_step. split_and!; destruct (packet_of (md_shadow_tx m)); eauto with acts. Qed.
End Steps.

(** ** The loop *)

Section Loop.
  Context (gi : GenInput) (full : bool).
  Notation round := (next_round gi full).

Definition rank (p : Phase) : nat :=
  match p with
  | Header => 0 | Commitments => 1 | SubmitLedger => 2 | TermLedger => 3 | ExpiredLedgerFees => 4 | PublishLedger => 5 | CommitmentRefunds => 6 | Done => 7
  end.

Lemma at_item_next step p st st' : at_item step p st = (st', None) → phase st' = p.
Proof. unfold at_item. destruct (step st) as [? [[?|]| |]]; intros [= <-]; done. Qed.

Lemma round_later st st' : round st = (st', None) → phase st' ≠ Header ∧ rank (phase st') = S (rank (phase st)).
Proof.
  unfold next_round, at_index. destruct (phase st) eqn:Hp; try (destruct (_ <? _)%nat; [by case_match|by intros [= <-]]);
    try (intros Hi; apply at_item_next in Hi; by rewrite Hi); [|done]. by destruct (add_treasury_reward_share gi _) as [? [| |]].
Qed.

(** Seven rounds reach the last phase. *)
Lemma next_loop_enough n st : (7 ≤ n + rank (phase st))%nat → next_loop gi n full st = next gi full st.
Proof.
  unfold next. cut (∀ m n st, (7 ≤ n + rank (phase st))%nat → (n ≤ m)%nat → next_loop gi n full st = next_loop gi m full st).
  { intros Hcut Hn. destruct (decide (n ≤ 8)%nat); [by apply Hcut|]. symmetry. apply Hcut; lia. }
  clear. induction m as [|m IH]; intros n st Hn Hle; destruct n as [|n]; [done|lia| |].
  - cbn [next_loop]. destruct (round st) as [st' [r|]] eqn:E; [done|]. apply round_later in E as [_ E]. exfalso.
    assert (rank (phase st') ≤ 7)%nat by (by destruct (phase st'); cbn; lia). lia.
  - cbn [next_loop]. destruct (round st) as [st' [r|]] eqn:E; [done|]. apply round_later in E as [_ E]. apply IH; lia.
Qed.

Lemma next_goes_on st st' : round st = (st', None) → next gi full st = next gi full st'.
Proof.
  intros E. unfold next at 1. change (next_loop gi 8 full st) with (match round st with (st', Some r) => (st', r) | (st', None) => next_loop gi 7 full st' end).
  rewrite E. apply next_loop_enough. lia.
Qed.

Lemma next_returns st st' r : round st = (st', Some r) → next gi full st = (st', r).
Proof.
  intros E. unfold next. change (next_loop gi 8 full st) with (match round st with (st', Some r) => (st', r) | (st', None) => next_loop gi 7 full st' end).
  by rewrite E.
Qed.

(** What the loop of the callers ends with. *)
Definition outcome (fuel : nat) (st : GenState) (acc : list ShadowMetadata) : result ShadowTxGenError (list ShadowMetadata * Z) :=
  match collect_loop gi fuel full st acc with
  | (st, Ok txs) => Ok (txs, treasury_balance st)
  | (_, Err e) => Err e
  | (_, Panic) => Panic
  end.

Lemma outcome_goes_on fuel st st' acc : round st = (st', None) → outcome fuel st acc = outcome fuel st' acc.
Proof. intros E. unfold outcome. destruct fuel; cbn [collect_loop]; by rewrite (next_goes_on _ _ E). Qed.

Lemma outcome_item fuel st st' r acc : round st = (st', Some (Some r)) → outcome (S fuel) st acc = (m ← r; outcome fuel st' (acc ++ [m])).
Proof. intros E. unfold outcome. cbn [collect_loop]. rewrite (next_returns _ _ _ E). by destruct r. Qed.

(** A phase that goes through a slice. *)
Lemma outcome_slice {A} p step next_phase (l : list A) (s : A → Step ShadowMetadata) :
  (∀ st, phase st = p → round st = at_index (length l) step next_phase st) → (∀ i x, l !! i = Some x → acts (step i) (s x)) →
  ∀ k i fuel st acc, phase st = p → index st = i → (i + k = length l)%nat → (k ≤ fuel)%nat →
  outcome fuel st acc = (r ← run_steps (s <$> drop i l) (treasury_balance st) acc;
                         outcome (fuel - k) (with_treasury r.2 (with_index 0 (with_phase next_phase st))) r.1).
Proof.
  intros Hround Hacts. induction k as [|k IH]; intros i fuel st acc Hp Hi Hlen Hfuel.
  - rewrite drop_ge by lia. cbn. rewrite (outcome_goes_on fuel st (with_index 0 (with_phase next_phase st)));
      [by rewrite Nat.sub_0_r; destruct st|]. rewrite Hround by done. unfold at_index. by rewrite (proj2 (Nat.ltb_ge _ _)) by lia.
  - destruct (lookup_lt_is_Some_2 l i) as [x Hx]; [lia|]. rewrite (drop_S _ _ _ Hx), fmap_cons. cbn [run_steps].
    destruct fuel as [|fuel]; [lia|]. specialize (Hacts i x Hx st).
    assert (round st = (let '(st', r) := step i st in (with_index (S (index st')) st', Some (Some r)))) as Hr
      by (rewrite Hround by done; unfold at_index; by rewrite Hi, (proj2 (Nat.ltb_lt _ _)) by lia).
    destruct (s x (treasury_balance st)) as [[b m]|e|]; [rewrite Hacts in Hr|destruct Hacts as [st' Hs]; rewrite Hs in Hr..]; cbn [fst snd mbind result_bind].
    + rewrite (outcome_item _ _ _ _ _ Hr). cbn [mbind result_bind].
      rewrite (IH (S i) fuel _ (acc ++ [m])); [done|done|by cbn; rewrite Hi|lia|lia].
    + by rewrite (outcome_item _ _ _ _ _ Hr).
    + by rewrite (outcome_item _ _ _ _ _ Hr).
Qed.

(** A phase that goes through an iterator. *)
Lemma outcome_items p items set pay next_phase (s : ShadowMetadata → Step ShadowMetadata) :
  (∀ st, phase st = p → round st = at_item (take_item items set pay) next_phase st) → (∀ m, acts (pay m) (s m)) →
  (∀ l st, items (set l st) = l ∧ phase (set l st) = phase st ∧ treasury_balance (set l st) = treasury_balance st ∧
           ∀ b l', set l' (with_treasury b (set l st)) = with_treasury b (set l' st)) →
  (∀ b st, items (with_treasury b st) = items st) → (∀ st, items st = [] → set [] st = st) →
  ∀ l fuel st acc, phase st = p → items st = Ok <$> l → (length l ≤ fuel)%nat →
  outcome fuel st acc = (r ← run_steps (s <$> l) (treasury_balance st) acc;
                         outcome (fuel - length l) (with_treasury r.2 (with_phase next_phase (set [] st))) r.1).
Proof.
  intros Hround Hacts Hset Hw Hnil. induction l as [|m l IH]; intros fuel st acc Hp Hi Hfuel.
  - cbn. rewrite Nat.sub_0_r. apply outcome_goes_on. rewrite Hround by done. unfold at_item, take_item. rewrite Hi, Hnil by done. by destruct st.
  - destruct fuel as [|fuel]; [cbn in Hfuel; lia|]. cbn [fmap list_fmap] in Hi. rewrite fmap_cons. cbn [run_steps].
    destruct (Hset (Ok <$> l) st) as (Hi' & Hp' & Ht' & Hss).
    specialize (Hacts m (set (Ok <$> l) st)). rewrite Ht' in Hacts.
    assert (take_item items set pay st = (m ← pay m; mret (Some m)) (set (Ok <$> l) st)) as Htake by (unfold take_item; by rewrite Hi).
    destruct (s m (treasury_balance st)) as [[b m']|e|]; cbn [fst snd mbind result_bind].
    + rewrite (outcome_item fuel st (with_treasury b (set (Ok <$> l) st)) (Ok m'));
        [|rewrite Hround by done; unfold at_item; rewrite Htake; unfold mbind, SE_bind; by rewrite Hacts].
      cbn [mbind result_bind]. rewrite (IH fuel _ (acc ++ [m'])); [|by cbn; rewrite Hp'|by rewrite Hw|cbn in Hfuel; lia].
      cbn [treasury_balance with_treasury]. destruct (run_steps _ b _) as [[txs b']| |]; cbn [mbind result_bind fst snd length Nat.sub]; [|done..].
      by rewrite Hss.
    + destruct Hacts as [st' Hs]. rewrite (outcome_item fuel st st' (Err e)); [done|]. rewrite Hround by done. unfold at_item. rewrite Htake. unfold mbind, SE_bind. by rewrite Hs.
    + destruct Hacts as [st' Hs]. rewrite (outcome_item fuel st st' Panic); [done|]. rewrite Hround by done. unfold at_item. rewrite Htake. unfold mbind, SE_bind. by rewrite Hs.
Qed.
End Loop.

Definition gen_steps (gi : GenInput) (full : bool) (publish expired refunds : list ShadowMetadata) : list (Step ShadowMetadata) :=
  header_step gi :: (commitment_step gi <$> gi_commitment_txs gi) ++ (submit_step gi full <$> gi_submit_txs gi) ++
  (term_step gi <$> gi_one_year_txs gi ++ gi_thirty_day_txs gi) ++
  (payout_step pays_expired <$> expired) ++ (payout_step pays_publish <$> publish) ++ (payout_step pays_refund <$> refunds).

(** The callers' loop ends, and is the sequence of the steps. *)
Lemma collect_steps gi full b publish expired refunds :
  collect (mkGenerator gi full (mkGenState b Header 0 (Ok <$> publish) (Ok <$> expired) (Ok <$> refunds))) =
  run_steps (gen_steps gi full publish expired refunds) b [].
Proof.
  unfold collect, collect_fuel. cbn [sg_input sg_state credit_full_perm_fee current_expired_ledger_iter current_publish_iter current_commitment_refunds_iter].
  rewrite !length_fmap. set (nc := length (gi_commitment_txs gi)). set (ns := length (gi_submit_txs gi)).
  set (n1 := length (gi_one_year_txs gi)). set (n3 := length (gi_thirty_day_txs gi)).
  set (ne := length expired). set (np := length publish). set (nr := length refunds).
  set (fuel := (nc + ns + n1 + n3 + ne + np + nr)%nat).
  fold (outcome gi full (S fuel) (mkGenState b Header 0 (Ok <$> publish) (Ok <$> expired) (Ok <$> refunds)) []).
  unfold gen_steps. cbn [run_steps]. unfold header_step at 1, step_bind at 1.
  pose proof (acts_credit (gi_treasury_reward_share gi) (mkGenState b Commitments 0 (Ok <$> publish) (Ok <$> expired) (Ok <$> refunds))) as Hh.
  cbn [treasury_balance] in Hh. destruct (credit (gi_treasury_reward_share gi) b) as [[b1 []]|e|] eqn:Ec; cbn [mbind result_bind fst snd].
  2,3: destruct Hh as [st' Hh]; erewrite outcome_item by (unfold next_round; cbn [phase]; unfold add_treasury_reward_share;
         change (with_index 0 (with_phase Commitments _)) with (mkGenState b Commitments 0 (Ok <$> publish) (Ok <$> expired) (Ok <$> refunds)); by rewrite Hh); done.
  erewrite outcome_item by (unfold next_round; cbn [phase]; unfold add_treasury_reward_share;
         change (with_index 0 (with_phase Commitments _)) with (mkGenState b Commitments 0 (Ok <$> publish) (Ok <$> expired) (Ok <$> refunds)); by rewrite Hh).
  cbn [mbind result_bind step_ret fst snd app]. rewrite run_steps_app.
  rewrite (outcome_slice gi full Commitments (try_process_commitment_at_index gi) SubmitLedger (gi_commitment_txs gi) (commitment_step gi)
    ltac:(intros st Hp; unfold next_round; by rewrite Hp) (commitment_acts gi) nc 0); [|done|done|done|lia].
  cbn [treasury_balance with_treasury drop]. destruct (run_steps (commitment_step gi <$> _) b1 _) as [[t2 b2]| |]; cbn [mbind result_bind fst snd]; [|done..].
  rewrite (outcome_slice gi full SubmitLedger (try_process_submit_at_index gi full) TermLedger (gi_submit_txs gi) (submit_step gi full)
    ltac:(intros st Hp; unfold next_round; by rewrite Hp) (submit_acts gi full) ns 0); [|done|done|done|lia].
  cbn [treasury_balance with_treasury drop]. rewrite run_steps_app. destruct (run_steps (submit_step gi full <$> _) b2 _) as [[t3 b3]| |]; cbn [mbind result_bind fst snd]; [|done..].
  rewrite (outcome_slice gi full TermLedger (λ i, tx ← lift (expect (term_tx_at gi i)); try_process_term_only gi tx) ExpiredLedgerFees
    (gi_one_year_txs gi ++ gi_thirty_day_txs gi) (term_step gi)
    ltac:(intros st Hp; unfold next_round; by rewrite Hp, length_app) (term_acts gi) (n1 + n3)%nat 0); [|done|done|by rewrite length_app|lia].
  cbn [treasury_balance with_treasury drop]. rewrite run_steps_app. destruct (run_steps (term_step gi <$> _) b3 _) as [[t4 b4]| |]; cbn [mbind result_bind fst snd]; [|done..].
  rewrite (outcome_items gi full ExpiredLedgerFees current_expired_ledger_iter
    (λ l st, with_iters (current_publish_iter st) l (current_commitment_refunds_iter st) st) pay_expired PublishLedger (payout_step pays_expired)
    ltac:(intros st Hp; unfold next_round; by rewrite Hp) ltac:(apply pay_acts) ltac:(done) ltac:(done) ltac:(intros [] Hn; cbn in Hn; by subst) expired); [|done|done|lia].
  cbn [treasury_balance with_treasury]. rewrite run_steps_app. destruct (run_steps (payout_step pays_expired <$> _) b4 _) as [[t5 b5]| |]; cbn [mbind result_bind fst snd]; [|done..].
  rewrite (outcome_items gi full PublishLedger current_publish_iter
    (λ l st, with_iters l (current_expired_ledger_iter st) (current_commitment_refunds_iter st) st) pay_publish CommitmentRefunds (payout_step pays_publish)
    ltac:(intros st Hp; unfold next_round; by rewrite Hp) ltac:(apply pay_acts) ltac:(done) ltac:(done) ltac:(intros [] Hn; cbn in Hn; by subst) publish); [|done|done|lia].
  cbn [treasury_balance with_treasury]. rewrite run_steps_app. destruct (run_steps (payout_step pays_publish <$> _) b5 _) as [[t6 b6]| |]; cbn [mbind result_bind fst snd]; [|done..].
  rewrite (outcome_items gi full CommitmentRefunds current_commitment_refunds_iter
    (λ l st, with_iters (current_publish_iter st) (current_expired_ledger_iter st) l st) pay_refund Done (payout_step pays_refund)
    ltac:(intros st Hp; unfold next_round; by rewrite Hp) ltac:(apply pay_acts) ltac:(done) ltac:(done) ltac:(intros [] Hn; cbn in Hn; by subst) refunds); [|done|done|lia].
  cbn [treasury_balance with_treasury]. destruct (run_steps (payout_step pays_refund <$> _) b6 _) as [[t7 b7]| |]; cbn [mbind result_bind fst snd]; [|done..].
  unfold outcome. match goal with |- context [collect_loop _ ?n] => by destruct n end.
Qed.
