(* ===== verification/ShadowValidate.v ===== *)
(** The shadow transactions that a node expects of a block, and the check of those that its
    EVM payload has ([crates/actors/src/block_validation.rs],
    [crates/actors/src/commitment_refunds.rs]; the producer's side is [create_evm_block] of
    [crates/actors/src/block_producer.rs]).

    The node's database and block tree are an [ExpiryView].  Of the EVM payload the model has
    its transactions, with the signer that the cryptographic library recovers. *)

From S2P Require Import SimpleRng TreeHash StateErr Codec Packing Merkle Pricing FeeSplit DataLedger EpochSnapshot CommitmentSnapshot EpochInv LedgerExpiry BlockIndex BlockIndexFacts IndexFile Poa BTree ExpiryWalk ExpirySettle ShadowTx ShadowExec ShadowGen Prelude.

(** ** Commitment refunds *)

Record CommitmentPrices : Type := mkCommitmentPrices { stake_value : Z; pledge_base_value : Z; pledge_decay : Z }.

Inductive CommitmentRefundError : Type := RefundSnapshotInvariant (tx : Z).

Definition calculate_pledge_value_at_count (c : CommitmentPrices) (pledge_count : Z) : result CommitmentRefundError Z :=
  match apply_pledge_decay (pledge_base_value c) pledge_count (pledge_decay c) with
  | Ok amount => Ok amount
  | Err _ => Ok (pledge_base_value c)
  | Panic => Panic
  end.

Definition unpledge_refund (c : CommitmentPrices) (tx : CommitmentTransaction) : result CommitmentRefundError RefundEvent :=
  match tx_type tx with
  | Unpledge pledge_count_before_executing _ =>
      _ ← guard_err (pledge_count_before_executing =? 0) (RefundSnapshotInvariant (tx_id tx));
      amount ← calculate_pledge_value_at_count c (pledge_count_before_executing - 1);
      Ok (mkRefundEvent (tx_signer tx) amount (tx_id tx))
  | _ => Panic
  end.
Fixpoint unpledge_refunds (c : CommitmentPrices) (txs : list CommitmentTransaction) : result CommitmentRefundError (list RefundEvent) :=
  match txs with
  | [] => Ok []
  | tx :: rest => event ← unpledge_refund c tx; events ← unpledge_refunds c rest; Ok (event :: events)
  end.

Definition derive_unpledge_refunds_from_snapshot (commit_snapshot : CommitmentSnapshot) (c : CommitmentPrices)
  : result CommitmentRefundError (list RefundEvent) :=
  unpledge_refunds c (merge_sort commitment_le (concat (mc_unpledges <$> btree_values commit_snapshot))).

Definition derive_unstake_refunds_from_snapshot (commit_snapshot : CommitmentSnapshot) (c : CommitmentPrices) : list RefundEvent :=
  (λ tx, mkRefundEvent (tx_signer tx) (stake_value c) (tx_id tx))
  <$> merge_sort commitment_le (omap mc_unstake (btree_values commit_snapshot)).

(** ** Errors *)

Inductive ValidationError : Type :=
| ParentBlockMissing (hash : Z)
| ShadowTxNodeFault
| ShadowTransactionInvalid
| RewardCurveError
| RewardMismatch (got expected : Z)
| RewardAddressMismatch (got expected : Z).

Definition classify_shadow_tx_gen_err (e : ShadowTxGenError) : ValidationError :=
  match e with
  | SnapshotInvariant | SnapshotTreasuryUnderflow => ShadowTxNodeFault
  | TreasuryArithmetic | Structural => ShadowTransactionInvalid
  end.
Definition node_fault {E A} (r : result E A) : result ValidationError A := map_err (λ _, ShadowTxNodeFault) r.

(** ** The expected shadow transactions *)

(** The fields of [IrysBlockHeader] that are read, with the proofs and the required number of
    proofs of each of its ledgers, in their order. *)
Record ShadowBlock (P : Type) : Type := mkShadowBlock {
  sb_header : LedgerHeader;
  sb_ledger_proofs : list (option (list P) * option Z);
  sb_timestamp_secs : Z;
  sb_miner_address : Z;
  sb_reward_address : Z;
  sb_reward_amount : Z;
  sb_solution_hash : list byte;
  sb_is_data_poa : bool
}.
Arguments mkShadowBlock {P}.
Arguments sb_header {P}.
Arguments sb_ledger_proofs {P}.
Arguments sb_timestamp_secs {P}.
Arguments sb_miner_address {P}.
Arguments sb_reward_address {P}.
Arguments sb_reward_amount {P}.
Arguments sb_solution_hash {P}.
Arguments sb_is_data_poa {P}.

Record BlockTransactions : Type := mkBlockTransactions {
  commitment_ledger_txs : list CommitmentTransaction;
  data_ledger_txs : DataLedger → list DataTransactionHeader
}.

Section Expected.
  Context `{DupSort} {P : Type} (recover_proof_signer : P → option Z).
  Context (v : ExpiryView) (config : WalkConfig) (prices : CommitmentPrices) (reward_curve : HalvingCurve) (block_time_secs : Z).

(** The proofs of the publish ledger of a block whose ledgers are in order. *)
Definition extract_data_ledgers (block : ShadowBlock P) (cascade_for_epoch : bool) : option (option (list P)) :=
  let is_ledger l ledger := tl_ledger_id l =? ledger_id ledger in
  match lh_data_ledgers (sb_header block), sb_ledger_proofs block with
  | [publish; submit], [(proofs, _); _] =>
      if negb cascade_for_epoch && is_ledger publish Publish && is_ledger submit Submit then Some proofs else None
  | [publish; submit; one_year; thirty_day], [(proofs, _); _; (one_year_proofs, one_year_count); (thirty_day_proofs, thirty_day_count)] =>
      if cascade_for_epoch && is_ledger publish Publish && is_ledger submit Submit && is_ledger one_year OneYear && is_ledger thirty_day ThirtyDay &&
         negb (bool_decide (is_Some one_year_proofs)) && bool_decide (one_year_count = None) &&
         negb (bool_decide (is_Some thirty_day_proofs)) && bool_decide (thirty_day_count = None)
      then Some proofs else None
  | _, _ => None
  end.

(** [get_block_header]: the tree, then the database. *)
Definition get_block_header (hash : Z) : option LedgerHeader :=
  match get_block v hash with Some header => Some header | None => v_headers v !! hash end.

(** No promoted transaction may have storage that is over. *)
Fixpoint reject_expired (range : ExpiredSubmitRange) (txs : list DataTransactionHeader) : result ValidationError () :=
  match txs with
  | [] => Ok ()
  | tx :: rest =>
      expired ← node_fault (submit_tx_expired v config (th_id tx) range);
      _ ← guard_err (expired : bool) ShadowTransactionInvalid;
      reject_expired range rest
  end.

Definition block_reward_split (parent_height timestamp : Z) (is_capacity_poa : bool) : result ValidationError BlockRewardSplit :=
  full_reward ← map_err (λ _, RewardCurveError) (full_block_reward reward_curve block_time_secs parent_height);
  map_err (λ _, RewardCurveError) (split_block_reward full_reward (wc_fees config) timestamp is_capacity_poa).

(** The inputs of the generator of a block, and the generator as the validator builds it. *)
Definition generator_input (block : ShadowBlock P) (transactions : BlockTransactions) (reward : BlockRewardSplit) : GenInput :=
  let is_epoch_block := is_multiple_of (lh_height (sb_header block)) (ec_num_blocks_in_epoch (wc_epoch config)) in
  let commitment_txs := if is_epoch_block then [] else commitment_ledger_txs transactions in
  mkGenInput (sb_reward_amount block) (split_treasury reward) (sb_solution_hash block) (wc_fees config) (sb_timestamp_secs block)
    commitment_txs (data_ledger_txs transactions Submit) (data_ledger_txs transactions OneYear) (data_ledger_txs transactions ThirtyDay).

Definition validator_generator (block : ShadowBlock P) (parent_epoch_snapshot : EpochSnapshot) (parent_commitment_snapshot : CommitmentSnapshot)
    (transactions : BlockTransactions) : result ValidationError ShadowTxGenerator :=
  let header := sb_header block in
  let height := lh_height header in
  prev_block ← ok_or (get_block_header (lh_previous_block_hash header)) (ParentBlockMissing (lh_previous_block_hash header));
  let is_epoch_block := is_multiple_of height (ec_num_blocks_in_epoch (wc_epoch config)) in
  let cascade_for_epoch := epoch_cascade (wc_epoch config) parent_epoch_snapshot in
  proofs ← ok_or (extract_data_ledgers block cascade_for_epoch) ShadowTransactionInvalid;
  let publish := mkPublishLedger (data_ledger_txs transactions Publish) proofs in
  let cascade_for_block := cascade_for_block (wc_epoch config) (sb_timestamp_secs block) in
  expired_ledger_fees ←
    (if is_epoch_block then
       node_fault (calculate_all_expired_ledger_fees v config parent_epoch_snapshot prev_block height cascade_for_block cascade_for_epoch (lh_total_chunks header))
     else Ok empty_delta);
  refunds ← (if is_epoch_block then node_fault (derive_unpledge_refunds_from_snapshot parent_commitment_snapshot prices) else Ok []);
  let unstake_refunds := if is_epoch_block then derive_unstake_refunds_from_snapshot parent_commitment_snapshot prices else [] in
  expired_range ← node_fault (submit_range config height parent_epoch_snapshot prev_block cascade_for_block);
  _ ← match expired_range with Some range => reject_expired range (pl_txs publish) | None => Ok () end;
  reward ← block_reward_split (lh_height prev_block) (sb_timestamp_secs block) (negb (sb_is_data_poa block));
  map_err classify_shadow_tx_gen_err
    (new recover_proof_signer (generator_input block transactions reward) publish (lh_treasury prev_block) expired_ledger_fees refunds unstake_refunds parent_epoch_snapshot).

Definition generate_expected_shadow_transactions (block : ShadowBlock P) (parent_epoch_snapshot : EpochSnapshot)
    (parent_commitment_snapshot : CommitmentSnapshot) (transactions : BlockTransactions) : result ValidationError (list ShadowMetadata) :=
  g ← validator_generator block parent_epoch_snapshot parent_commitment_snapshot transactions;
  r ← map_err classify_shadow_tx_gen_err (collect g);
  _ ← guard_err (negb (lh_treasury (sb_header block) =? r.2)) ShadowTransactionInvalid;
  Ok r.1.

(** ** Reward checks of prevalidation *)

Definition prevalidate_reward (block : ShadowBlock P) (previous_height : Z) (parent_epoch_snapshot : EpochSnapshot) : result ValidationError () :=
  reward ← block_reward_split previous_height (sb_timestamp_secs block) (negb (sb_is_data_poa block));
  _ ← guard_err (negb (split_miner reward =? sb_reward_amount block)) (RewardMismatch (sb_reward_amount block) (split_miner reward));
  let registered_reward := resolve_reward_address parent_epoch_snapshot (sb_miner_address block) in
  guard_err (negb (sb_reward_address block =? registered_reward)) (RewardAddressMismatch (sb_reward_address block) registered_reward).
End Expected.

(** ** The payload *)

(** A transaction of the payload with the signer recovered from its signature. *)
Record SignedTx : Type := mkSignedTx { stx_env : TxEnv; stx_signer : option Z }.

(** The EVM block of a payload, and what the payload and its sidecar say besides.  [ep_block]
    is the block the payload converts to, if it does. *)
Record EvmBlock : Type := mkEvmBlock { eb_beneficiary : Z; eb_requests_hash : option Z; eb_transactions : list SignedTx }.
Record ExecutionData : Type := mkExecutionData {
  ep_is_v3 : bool;
  ep_withdrawals : list Z;
  ep_blob_gas_used : Z;
  ep_excess_blob_gas : Z;
  ep_versioned_hashes : option (list Z);
  ep_requests : option (list Z);
  ep_timestamp : Z;
  ep_parent_hash : Z;
  ep_block_number : Z;
  ep_block_hash : Z;
  ep_parent_beacon_block_root : option Z;
  ep_block : option EvmBlock
}.

Inductive Mismatch : Type :=
| ShadowTxAfterNonShadow
| UndecodableShadowTx
| SignerNotRecoverable
| SignerNotMiner
| LengthsDiffer
| WrongSolutionHash
| PacketMismatch
| PriorityFeeMismatch.

#[global] Instance UnstakeDebit_eq_dec : EqDecision UnstakeDebit.
Proof. solve_decision. Defined.
#[global] Instance UpdateRewardAddressDebit_eq_dec : EqDecision UpdateRewardAddressDebit.
Proof. solve_decision. Defined.
#[global] Instance BalanceDecrement_eq_dec : EqDecision BalanceDecrement.
Proof. solve_decision. Defined.
#[global] Instance BalanceIncrement_eq_dec : EqDecision BalanceIncrement.
Proof. solve_decision. Defined.
#[global] Instance UnpledgeDebit_eq_dec : EqDecision UnpledgeDebit.
Proof. solve_decision. Defined.
#[global] Instance BlockRewardIncrement_eq_dec : EqDecision BlockRewardIncrement.
Proof. solve_decision. Defined.
#[global] Instance TransactionPacket_eq_dec : EqDecision TransactionPacket.
Proof. solve_decision. Defined.
#[global] Instance ShadowTransaction_eq_dec : EqDecision ShadowTransaction.
Proof. solve_decision. Defined.

Section Payload.
  Context (SHADOW_TX_DESTINATION_ADDR : list byte).

(** The items of the iterator, up to the first error. *)
Fixpoint extract_leading_shadow_txs (txs : list SignedTx) (seen_non_shadow : bool) : list (result Mismatch (ShadowTransaction * SignedTx)) :=
  match txs with
  | [] => []
  | tx :: rest =>
      match detect_and_decode_from_parts SHADOW_TX_DESTINATION_ADDR (tx_kind (stx_env tx)) (tx_data (stx_env tx)) with
      | Ok (Some stx) =>
          if seen_non_shadow then [Err ShadowTxAfterNonShadow] else Ok (stx, tx) :: extract_leading_shadow_txs rest seen_non_shadow
      | Ok None => extract_leading_shadow_txs rest true
      | Err _ => [Err UndecodableShadowTx]
      | Panic => [Panic]
      end
  end.

Definition actual_shadow_tx (miner_address : Z) (res : result Mismatch (ShadowTransaction * SignedTx)) : result Mismatch (ShadowTransaction * Z) :=
  r ← res;
  let '(stx, tx) := r : ShadowTransaction * SignedTx in
  tx_signer ← ok_or (stx_signer tx) SignerNotRecoverable;
  _ ← guard_err (negb (miner_address =? tx_signer)) SignerNotMiner;
  Ok (stx, default 0 (gas_priority_fee (stx_env tx))).

Fixpoint validate_shadow_transactions_match (actual : list (result Mismatch (ShadowTransaction * Z))) (expected : list ShadowMetadata)
    (expected_hash : list byte) : result Mismatch () :=
  match actual, expected with
  | [], [] => Ok ()
  | a :: actual, e :: expected =>
      r ← a;
      _ ← guard_err (negb (bool_decide (hash_of r.1 = expected_hash))) WrongSolutionHash;
      _ ← guard_err (negb (bool_decide (r.1 = md_shadow_tx e))) PacketMismatch;
      _ ← guard_err (negb (r.2 =? md_transaction_fee e)) PriorityFeeMismatch;
      validate_shadow_transactions_match actual expected expected_hash
  | _, _ => Err LengthsDiffer
  end.

Section Check.
  Context `{DupSort} {P : Type} (recover_proof_signer : P → option Z).
  Context (v : ExpiryView) (config : WalkConfig) (prices : CommitmentPrices) (reward_curve : HalvingCurve) (block_time_secs : Z).

Definition reject (bad : bool) : result ValidationError () := guard_err bad ShadowTransactionInvalid.

(** What the payload must say on its own and of the block and its parent. *)
Definition payload_is_valid (block : ShadowBlock P) (data : ExecutionData) : result ValidationError () :=
  let header := sb_header block in
  _ ← reject (negb (ep_is_v3 data));
  _ ← reject (negb (bool_decide (ep_withdrawals data = [])));
  _ ← reject (negb (ep_blob_gas_used data =? 0));
  _ ← reject (negb (ep_excess_blob_gas data =? 0));
  _ ← reject (negb (bool_decide (default [] (ep_versioned_hashes data) = [])));
  _ ← reject (negb (bool_decide (default [] (ep_requests data) = [])));
  _ ← reject (negb (ep_timestamp data =? sb_timestamp_secs block));
  parent ← ok_or (get_block_header v (lh_previous_block_hash header)) (ParentBlockMissing (lh_previous_block_hash header));
  _ ← reject (negb (ep_parent_hash data =? lh_evm_block_hash parent));
  _ ← reject (negb (ep_block_number data =? lh_height header));
  _ ← reject (negb (ep_block_hash data =? lh_evm_block_hash header));
  reject (negb (bool_decide (ep_parent_beacon_block_root data = Some (lh_previous_block_hash header)))).

Definition shadow_transactions_are_valid (block : ShadowBlock P) (data : ExecutionData) (parent_epoch_snapshot : EpochSnapshot)
    (parent_commitment_snapshot : CommitmentSnapshot) (transactions : BlockTransactions) : result ValidationError () :=
  _ ← payload_is_valid block data;
  evm_block ← ok_or (ep_block data) ShadowTransactionInvalid;
  _ ← reject (negb (eb_beneficiary evm_block =? sb_reward_address block));
  _ ← reject (bool_decide (is_Some (eb_requests_hash evm_block)));
  _ ← reject (existsb (λ tx, tx_type_id (stx_env tx) =? EIP4844_TX_TYPE_ID) (eb_transactions evm_block));
  let actual := actual_shadow_tx (sb_miner_address block) <$> extract_leading_shadow_txs (eb_transactions evm_block) false in
  expected ← generate_expected_shadow_transactions recover_proof_signer v config prices reward_curve block_time_secs block parent_epoch_snapshot
               parent_commitment_snapshot transactions;
  map_err (λ _, ShadowTransactionInvalid) (validate_shadow_transactions_match actual expected (sb_solution_hash block)).
End Check.
End Payload.

(** ** The producer *)

(** An EIP-1559 transaction in a payload, with its recovered signer. *)
Definition signed (signer : Z) (tx : TxEip1559) : SignedTx :=
  mkSignedTx (mkTxEnv (te_to tx) (te_input tx) (Some (te_max_priority_fee_per_gas tx)) [] 0 2) (Some signer).

Section Produce.
  Context (SHADOW_TX_DESTINATION_ADDR : list byte) (MINIMUM_GAS_LIMIT DEFAULT_TX_FEE_CAP_WEI chain_id : Z).

(** The transactions that the producer signs, and the treasury of its header. *)
Definition compose_all (metadata : list ShadowMetadata) : list TxEip1559 :=
  (λ m, ShadowTx.compose SHADOW_TX_DESTINATION_ADDR MINIMUM_GAS_LIMIT DEFAULT_TX_FEE_CAP_WEI (md_shadow_tx m) chain_id (md_transaction_fee m)) <$> metadata.
Definition create_evm_block_txs {P} (recover_proof_signer : P → option Z) (gi : GenInput) (publish_ledger : PublishLedgerWithTxs P)
    (initial_treasury_balance : Z) (delta : LedgerExpiryBalanceDelta) (refund_events unstake_refund_events : list RefundEvent) (es : EpochSnapshot)
  : result ShadowTxGenError (list TxEip1559 * Z) :=
  g ← new recover_proof_signer gi publish_ledger initial_treasury_balance delta refund_events unstake_refund_events es;
  r ← collect g;
  Ok (compose_all r.1, r.2).
End Produce.
