(* ===== verification/TreasuryFacts.v ===== *)
(** What the shadow transactions of a block do to the treasury: the steps of the generator are
    credits, each with its bill, and then payouts, so that its result has a closed form; and
    the rewards of ingress proofs. *)

From S2P Require Import TreeHash Pricing StateErr DataLedger EpochSnapshot Codec ShadowTx ShadowExec BlockIndex FeeSplit BTree ExpiryWalk ExpirySettle ShadowGen Prelude.

(** What a shadow transaction adds to the accounts. *)
Definition evm_net (m : ShadowMetadata) : Z := net_change (change_of (packet_of (md_shadow_tx m)) 0).

Lemma net_change_beneficiary p a a' : net_change (change_of p a) = net_change (change_of p a').
Proof. by destruct p. Qed.

(** Fields of the length of their types. *)
Definition shaped (p : TransactionPacket) : Prop :=
  match p with
  | PUnstakeDebit d => bytes_wf 20 (ud_target d) ∧ bytes_wf 32 (ud_irys_ref d)
  | PBlockReward _ => True
  | PStake d | PStorageFees d | PPledge d => bytes_wf 20 (bd_target d) ∧ bytes_wf 32 (bd_irys_ref d)
  | PUnpledge d => bytes_wf 20 (upd_target d) ∧ bytes_wf 32 (upd_irys_ref d)
  | PUnpledgeRefund i | PTermFeeReward i | PIngressProofReward i | PPermFeeRefund i | PUnstakeRefund i => bytes_wf 20 (bi_target i) ∧ bytes_wf 32 (bi_irys_ref i)
  | PUpdateRewardAddress d => bytes_wf 20 (ura_target d) ∧ bytes_wf 32 (ura_irys_ref d) ∧ bytes_wf 20 (ura_new_reward_address d)
  end.

(** A shadow transaction of a block: amounts and tips within their types, with tips on
    decrements and fees only, and the solution hash of the block. *)
Record generated (solution_hash : list byte) (m : ShadowMetadata) : Prop := {
  gn_tip : tip_ok (packet_of (md_shadow_tx m)) 0 (md_transaction_fee m);
  gn_amount : amount_ok (packet_of (md_shadow_tx m)) 0;
  gn_shape : shaped (packet_of (md_shadow_tx m));
  gn_hash : hash_of (md_shadow_tx m) = solution_hash
}.

Lemma generated_shadow_ok sh beneficiary m : generated sh m → shadow_ok beneficiary (md_shadow_tx m, md_transaction_fee m).
Proof. intros [Ht Ha _ _]. unfold shadow_ok, tip_ok, amount_ok in *. cbn. by destruct (packet_of (md_shadow_tx m)). Qed.

Lemma generated_wf sh m : length sh = 32%nat → generated sh m → shadow_wf (md_shadow_tx m).
Proof.
  intros Hl [_ Ha Hs Hh]. destruct (md_shadow_tx m) as [p h]. cbn in *. subst h. split; [|done]. unfold amount_ok in Ha. clear -Ha Hs.
  destruct p; cbn in *; unfold u256_wf in *; naive_solver.
Qed.

Lemma address_bytes_wf a : bytes_wf 20 (address_bytes a).
Proof. apply length_be_bytes. Qed.
Lemma hash_bytes_wf h : bytes_wf 32 (hash_bytes h).
Proof. apply length_be_bytes. Qed.
#[export] Hint Resolve address_bytes_wf hash_bytes_wf : core.

(** ** Fees *)

Record fee_params_ok (p : FeeParams) : Prop := {
  fp_inclusion : 0 ≤ immediate_tx_inclusion_reward_percent p;
  fp_proofs : 0 ≤ number_of_ingress_proofs_total p;
  fp_pool : ∀ d, hf_delta p = Some d → 0 ≤ ingress_proof_reward_pool_percent d;
  fp_capacity : ∀ d, hf_delta p = Some d → 0 ≤ capacity_chunk_reward_percent d
}.
Definition tx_fits (tx : DataTransactionHeader) : Prop :=
  0 ≤ th_term_fee tx ∧ (∀ f, th_perm_fee tx = Some f → 0 ≤ f) ∧ th_term_fee tx + default 0 (th_perm_fee tx) < 2 ^ 256.

Lemma structural_ok {A} (r : result FeeError A) a : structural r = Ok a ↔ r = Ok a.
Proof. destruct r; cbn; naive_solver. Qed.

Lemma pool_nonneg p timestamp term_fee pool : fee_params_ok p → 0 ≤ term_fee → ingress_proof_reward_pool_at p timestamp term_fee = Ok pool → 0 ≤ pool.
Proof.
  intros Hp Ht. unfold ingress_proof_reward_pool_at, FeeSplit.delta_for_block. pose proof (fp_inclusion p Hp). pose proof (fp_proofs p Hp).
  assert (∀ x, 0 ≤ x → 0 ≤ term_fee * x / PRECISION_SCALE) as Hs by (intros x Hx; apply Z.div_pos; [nia|done]).
  assert (∀ share, price (mul_div term_fee (immediate_tx_inclusion_reward_percent p) PRECISION_SCALE) = Ok share →
    0 ≤ saturating_mul 256 share (number_of_ingress_proofs_total p)) as Hold.
  { intros share [-> _]%price_ok%mul_div_Ok; [|done]. unfold saturating_mul. pose proof (Hs _ (fp_inclusion p Hp)). lia. }
  destruct (hf_delta p) as [d|] eqn:Hd; [destruct (_ <=? _)|].
  - intros [-> _]%price_ok%mul_div_Ok; [|done]. apply Hs. by apply (fp_pool p Hp).
  - intros (share & Hshare & [= <-])%bind_ok. by apply Hold.
  - intros (share & Hshare & [= <-])%bind_ok. by apply Hold.
Qed.

Section Bills.
  Context (gi : GenInput) (full : bool) (Hp : fee_params_ok (gi_config gi)).

(** The shadow transaction of a data transaction, and what it adds to the treasury. *)
Definition submit_bill (tx : DataTransactionHeader) : result ShadowTxGenError (ShadowMetadata * Z) :=
  term_charges ← structural (TermFeeCharges_new (th_term_fee tx) (gi_config gi));
  perm_charges ← perm_charges_of gi tx;
  m ← create_submit_shadow_tx gi tx term_charges;
  c ← match perm_charges with Some charges => perm_fee_credit full charges | None => Ok 0 end;
  Ok (m, term_fee_treasury term_charges + c).
Definition term_bill (tx : DataTransactionHeader) : result ShadowTxGenError (ShadowMetadata * Z) :=
  term_charges ← structural (TermFeeCharges_new (th_term_fee tx) (gi_config gi));
  m ← create_submit_shadow_tx gi tx term_charges;
  Ok (m, term_fee_treasury term_charges).

(** What is charged and not credited. *)
Definition submit_burn (tx : DataTransactionHeader) : Z :=
  match th_perm_fee tx, ingress_proof_reward_pool_at (gi_config gi) (gi_block_timestamp_secs gi) (th_term_fee tx) with
  | Some _, Ok pool => if full then 0 else pool
  | _, _ => 0
  end.
Definition term_burn (tx : DataTransactionHeader) : Z := default 0 (th_perm_fee tx).

Lemma perm_charges_ok tx pc : tx_fits tx → perm_charges_of gi tx = Ok pc →
  match th_perm_fee tx, pc with
  | Some f, Some charges => perm_fee_treasury charges + ingress_proof_reward charges = f ∧ 0 ≤ perm_fee_treasury charges ∧ 0 ≤ ingress_proof_reward charges ∧
      ingress_proof_reward_pool_at (gi_config gi) (gi_block_timestamp_secs gi) (th_term_fee tx) = Ok (ingress_proof_reward charges)
  | None, None => True
  | _, _ => False
  end.
Proof.
  intros (Ht & Hf & Hsum). unfold perm_charges_of. destruct (th_perm_fee tx) as [f|]; [|by intros [= <-]].
  intros (charges & (pool & Hpool & Hc)%structural_ok%bind_ok & [= <-])%bind_ok. pose proof (pool_nonneg _ _ _ _ Hp Ht Hpool) as Hpn. cbn in Hsum.
  apply PublishFeeCharges_ok in Hc as [Hlt ->]; [|done|lia]. cbn. split_and!; [lia|lia|lia|done].
Qed.

Lemma term_charges_ok tx tc : tx_fits tx → structural (TermFeeCharges_new (th_term_fee tx) (gi_config gi)) = Ok tc →
  0 ≤ block_producer_reward tc ∧ 0 ≤ term_fee_treasury tc ≤ th_term_fee tx.
Proof.
  intros (Ht & Hf & Hsum) Htc%structural_ok. assert (u256 (th_term_fee tx)) as Hu.
  { split; [done|]. destruct (th_perm_fee tx) as [f|]; cbn in Hsum; [specialize (Hf f eq_refl)|]; lia. }
  destruct (TermFeeCharges_ok _ _ _ Hu (fp_inclusion _ Hp) Htc) as (? & ? & ?). lia.
Qed.

Lemma create_submit_ok tx tc m : tx_fits tx → 0 ≤ block_producer_reward tc → 0 ≤ term_fee_treasury tc ≤ th_term_fee tx → create_submit_shadow_tx gi tx tc = Ok m →
  generated (gi_solution_hash gi) m ∧ evm_net m = - (term_fee_treasury tc + default 0 (th_perm_fee tx)).
Proof.
  intros (Ht & Hf & Hsum) Hr Htt. unfold create_submit_shadow_tx. intros ([] & Hg%guard_err_ok%Z.leb_gt & [= <-])%bind_ok.
  assert (0 ≤ default 0 (th_perm_fee tx)) by (destruct (th_perm_fee tx); [by apply Hf|done]).
  assert (saturating_add 256 (term_fee_treasury tc) (default 0 (th_perm_fee tx)) = term_fee_treasury tc + default 0 (th_perm_fee tx)) as Hsat
    by (unfold saturating_add; lia).
  unfold evm_net. split; [split|]; unfold tip_ok, amount_ok; cbn [md_shadow_tx md_transaction_fee new_v1 packet_of change_of change_amount net_change bd_amount]; rewrite ?Hsat;
    [lia|lia|done|done|lia].
Qed.

Lemma perm_credit_ok tx pc c : tx_fits tx → perm_charges_of gi tx = Ok pc →
  match pc with Some charges => perm_fee_credit full charges | None => Ok 0 end = Ok c →
  0 ≤ c ∧ c = default 0 (th_perm_fee tx) - submit_burn tx.
Proof.
  intros Hfit Hpc. pose proof (perm_charges_ok tx pc Hfit Hpc) as Hok. unfold submit_burn, perm_fee_credit. destruct Hfit as (_ & _ & Hsum).
  destruct (th_perm_fee tx) as [f|], pc as [charges|]; try done; [|intros [= <-]; done].
  destruct Hok as (Hf & H1 & H2 & ->). change (default 0 (Some f)) with f. destruct full; [|intros [= <-]; lia]. unfold checked_add.
  destruct (_ <? _); intros [= <-]; lia.
Qed.

Lemma perm_credit_total tx pc : tx_fits tx → perm_charges_of gi tx = Ok pc →
  ∃ c, match pc with Some charges => perm_fee_credit full charges | None => Ok 0 end = Ok c.
Proof.
  intros Hfit Hpc. pose proof (perm_charges_ok tx pc Hfit Hpc) as Hok. destruct Hfit as (Ht & Hf & Hsum). unfold perm_fee_credit.
  destruct (th_perm_fee tx) as [f|], pc as [charges|]; try done; [|by eexists]. destruct full; [|by eexists].
  unfold checked_add. rewrite (proj2 (Z.ltb_lt _ _)); [by eexists|]. cbn in Hsum. lia.
Qed.

Lemma credit_credit c1 c2 b (m : ShadowMetadata) : 0 ≤ c2 →
  step_bind (credit c1) (λ _, step_bind (credit c2) (λ _, step_ret m)) b = step_bind (credit (c1 + c2)) (λ _, step_ret m) b.
Proof.
  intros Hc. unfold step_bind, credit, checked_add. destruct (Z.ltb_spec (b + c1) (2 ^ 256)); cbn.
  - rewrite <- Z.add_assoc. by destruct (b + (c1 + c2) <? 2 ^ 256).
  - by rewrite (proj2 (Z.ltb_ge _ _)) by lia.
Qed.

(** A step is its bill, credited at once. *)
Definition billed (s : Step ShadowMetadata) (r : result ShadowTxGenError (ShadowMetadata * Z)) : Prop :=
  ∀ b, b < 2 ^ 256 → s b = (mc ← r; step_bind (credit mc.2) (λ _, step_ret mc.1) b).

Lemma submit_billed tx : tx_fits tx → billed (submit_step gi full tx) (submit_bill tx).
Proof.
  intros Hfit b _. unfold submit_step, submit_bill, step_bind, step_lift.
  destruct (structural (TermFeeCharges_new (th_term_fee tx) (gi_config gi))) as [tc| |] eqn:Htc; cbn [mbind result_bind fst snd]; [|done..].
  destruct (perm_charges_of gi tx) as [pc| |] eqn:Hpc; cbn [mbind result_bind fst snd]; [|done..].
  destruct (create_submit_shadow_tx gi tx tc) as [m| |]; cbn [mbind result_bind fst snd]; [|done..].
  destruct (perm_credit_total tx pc Hfit Hpc) as [c Hc]. rewrite Hc. cbn [mbind result_bind fst snd].
  destruct (perm_credit_ok tx pc c Hfit Hpc Hc) as [Hc0 _]. pose proof (credit_credit (term_fee_treasury tc) c b m Hc0) as Hcc. unfold step_bind in Hcc. rewrite <- Hcc.
  destruct (credit (term_fee_treasury tc) b) as [[b' []]| |] eqn:Hb; cbn [mbind result_bind fst snd]; [|done..].
  destruct pc as [charges|]; [|injection Hc as <-].
  - by rewrite Hc.
  - unfold credit, checked_add in *. destruct (Z.ltb_spec (b + term_fee_treasury tc) (2 ^ 256)); [|done]. injection Hb as <-.
    cbn. by rewrite Z.add_0_r, (proj2 (Z.ltb_lt _ _)).
Qed.

Lemma term_billed tx : billed (term_step gi tx) (term_bill tx).
Proof.
  intros b _. unfold term_step, term_bill, step_bind, step_lift.
  destruct (structural (TermFeeCharges_new (th_term_fee tx) (gi_config gi))) as [tc| |]; cbn [mbind result_bind fst snd]; [|done..]. by destruct (create_submit_shadow_tx gi tx tc) as [m| |].
Qed.

(** Bills charge what they credit, and the burn. *)
Definition bill_ok (burn : Z) (mc : ShadowMetadata * Z) : Prop := generated (gi_solution_hash gi) mc.1 ∧ 0 ≤ mc.2 ∧ mc.2 + evm_net mc.1 = - burn.

Lemma submit_bill_ok tx mc : tx_fits tx → submit_bill tx = Ok mc → bill_ok (submit_burn tx) mc.
Proof.
  intros Hfit. unfold submit_bill. intros (tc & Htc & H)%bind_ok. apply bind_ok in H as (pc & Hpc & H). apply bind_ok in H as (m & Hm & H).
  apply bind_ok in H as (c & Hc & [= <-]). destruct (term_charges_ok tx tc Hfit Htc) as [Hr Htt].
  destruct (create_submit_ok tx tc m Hfit Hr Htt Hm) as [Hmd Hnet]. destruct (perm_credit_ok tx pc c Hfit Hpc Hc) as [Hc0 ->].
  split_and!; cbn [fst snd]; [done|lia|]. rewrite Hnet. lia.
Qed.

Lemma term_bill_ok tx mc : tx_fits tx → term_bill tx = Ok mc → bill_ok (term_burn tx) mc.
Proof.
  intros Hfit. unfold term_bill. intros (tc & Htc & H)%bind_ok. apply bind_ok in H as (m & Hm & [= <-]).
  destruct (term_charges_ok tx tc Hfit Htc) as [Hr Htt]. destruct (create_submit_ok tx tc m Hfit Hr Htt Hm) as [Hmd Hnet].
  split_and!; cbn [fst snd]; [done|lia|]. rewrite Hnet. unfold term_burn. lia.
Qed.
End Bills.

Lemma Forall2_with {A B} (R : A → B → Prop) (P : B → Prop) l k : Forall2 R l k → Forall P k → Forall2 (λ a b, R a b ∧ P b) l k.
Proof. induction 1 as [|a b l k Hab _ IH]; [constructor|]. intros [Hb Hk]%Forall_cons. constructor; [done|by apply IH]. Qed.

(** ** Runs *)

(** Credits either all fit or the sum overflows. *)
Lemma run_billed steps bills b acc : b < 2 ^ 256 → Forall2 (λ s mc, billed s (Ok mc) ∧ 0 ≤ mc.2) steps bills →
  run_steps steps b acc = if b + sum_Z bills.*2 <? 2 ^ 256 then Ok (acc ++ bills.*1, b + sum_Z bills.*2) else Err TreasuryArithmetic.
Proof.
  intros Hb Hs. revert b acc Hb. induction Hs as [|s [m c] steps bills [Hs Hc] Hrest IH]; intros b acc Hb.
  { cbn [run_steps fmap list_fmap]. change (sum_Z []) with 0. by rewrite Z.add_0_r, (proj2 (Z.ltb_lt _ _)), app_nil_r. }
  assert (0 ≤ sum_Z bills.*2) as Hn. { apply sum_Z_nonneg, Forall_fmap. clear -Hrest. induction Hrest; constructor; naive_solver. }
  cbn [run_steps]. rewrite (Hs b Hb), !fmap_cons, sum_Z_cons. cbn [mbind result_bind fst snd] in *. unfold step_bind, credit, checked_add.
  destruct (Z.ltb_spec (b + c) (2 ^ 256)); cbn [mbind result_bind ok_or fst snd step_ret].
  - rewrite IH by done. rewrite <- app_assoc, Z.add_assoc. done.
  - by rewrite (proj2 (Z.ltb_ge _ _)) by lia.
Qed.

Lemma run_billed_inv steps rs b acc out : b < 2 ^ 256 → Forall2 billed steps rs → run_steps steps b acc = Ok out → ∃ bills, rs = Ok <$> bills.
Proof.
  intros Hb Hs. revert b acc Hb. induction Hs as [|s r steps rs Hs _ IH]; intros b acc Hb; [by exists []|].
  cbn [run_steps]. intros ([b' m] & Hsb & Hrun)%bind_ok. rewrite (Hs b Hb) in Hsb. apply bind_ok in Hsb as ([m' c] & -> & Hcr).
  unfold step_bind, credit, checked_add in Hcr. cbn [fst snd] in Hcr. destruct (Z.ltb_spec (b + c) (2 ^ 256)) as [Hlt|]; [|done].
  injection Hcr as <- <-. destruct (IH (b + c) _ Hlt Hrun) as [bills ->]. by exists ((m', c) :: bills).
Qed.

(** Payouts either are all covered or the balance underflows. *)
Definition pays_out (pays : TransactionPacket → Step ()) (e : ShadowTxGenError) (m : ShadowMetadata) : Prop :=
  pays (packet_of (md_shadow_tx m)) = debit e (evm_net m) ∧ 0 ≤ evm_net m.

Lemma run_payouts pays e ms b acc : 0 ≤ b → Forall (pays_out pays e) ms →
  run_steps (payout_step pays <$> ms) b acc = if sum_Z (evm_net <$> ms) <=? b then Ok (acc ++ ms, b - sum_Z (evm_net <$> ms)) else Err e.
Proof.
  intros Hb Hms. revert b acc Hb. induction Hms as [|m ms [Hm Hn] Hms IH]; intros b acc Hb.
  { cbn [run_steps fmap list_fmap]. change (sum_Z []) with 0. by rewrite (proj2 (Z.leb_le _ _)), app_nil_r, Z.sub_0_r. }
  assert (0 ≤ sum_Z (evm_net <$> ms)) as Hs. { apply sum_Z_nonneg, Forall_fmap. eapply Forall_impl; [done|]. by intros ? [_ ?]. }
  rewrite !fmap_cons, sum_Z_cons. cbn [run_steps].
  assert (payout_step pays m b = step_bind (debit e (evm_net m)) (λ _, step_ret m) b) as -> by (unfold payout_step; by rewrite Hm).
  unfold step_bind, debit, checked_sub.
  destruct (Z.leb_spec (evm_net m) b); cbn [mbind result_bind ok_or fst snd step_ret].
  - rewrite IH by lia. rewrite <- app_assoc. destruct (Z.leb_spec (sum_Z (evm_net <$> ms)) (b - evm_net m)).
    + rewrite (proj2 (Z.leb_le _ _)) by lia. cbn. do 2 f_equal. lia.
    + by rewrite (proj2 (Z.leb_gt _ _)) by lia.
  - by rewrite (proj2 (Z.leb_gt _ _)) by lia.
Qed.

(** ** A whole block *)

Definition commitment_fits (tx : CommitmentTransaction) : Prop := 0 ≤ tx_value tx < 2 ^ 256 ∧ 0 ≤ user_fee tx < 2 ^ 64.

Record inputs_fit (gi : GenInput) : Prop := {
  if_params : fee_params_ok (gi_config gi);
  if_reward : 0 ≤ gi_reward_amount gi < 2 ^ 256;
  if_share : 0 ≤ gi_treasury_reward_share gi;
  if_commitments : Forall commitment_fits (gi_commitment_txs gi);
  if_submit : Forall tx_fits (gi_submit_txs gi);
  if_term : Forall tx_fits (gi_one_year_txs gi ++ gi_thirty_day_txs gi)
}.

Section Block.
  Context (gi : GenInput) (full : bool) (Hfit : inputs_fit gi).

Definition commitment_bill (tx : CommitmentTransaction) : ShadowMetadata * Z := (process_commitment_transaction gi tx, treasury_delta tx).
Definition header_bill : ShadowMetadata * Z := (block_reward_metadata gi, gi_treasury_reward_share gi).

Lemma commitment_billed tx : billed (commitment_step gi tx) (Ok (commitment_bill tx)).
Proof.
  intros b Hb. unfold commitment_step, commitment_bill, step_bind. cbn [mbind result_bind fst snd].
  destruct (Z.eqb_spec (treasury_delta tx) 0) as [->|]; [|done]. unfold credit, checked_add. by rewrite Z.add_0_r, (proj2 (Z.ltb_lt _ _)).
Qed.

Lemma commitment_bill_ok tx : commitment_fits tx → bill_ok gi 0 (commitment_bill tx).
Proof.
  intros [Hv Hfee]. unfold bill_ok, commitment_bill, evm_net, process_commitment_transaction, treasury_delta.
  destruct (tx_type tx); (split; [split|split]); unfold tip_ok, amount_ok;
    cbn [fst snd md_shadow_tx md_transaction_fee new_v1 packet_of change_of change_amount net_change bd_amount]; first [lia|done].
Qed.

Lemma header_bill_ok : bill_ok gi (- (gi_treasury_reward_share gi + gi_reward_amount gi)) header_bill.
Proof.
  pose proof (if_reward gi Hfit). pose proof (if_share gi Hfit). unfold bill_ok, header_bill, evm_net.
  (split; [split|split]); unfold tip_ok, amount_ok;
    cbn [fst snd block_reward_metadata md_shadow_tx md_transaction_fee new_v1 packet_of change_of change_amount net_change br_amount]; first [lia|done].
Qed.

(** The bills of the transactions of a block. *)
Definition block_bills : list (result ShadowTxGenError (ShadowMetadata * Z)) :=
  Ok header_bill :: (Ok ∘ commitment_bill <$> gi_commitment_txs gi) ++ (submit_bill gi full <$> gi_submit_txs gi) ++
  (term_bill gi <$> gi_one_year_txs gi ++ gi_thirty_day_txs gi).
(** What the block charges and does not credit. *)
Definition block_burn : Z :=
  sum_Z (submit_burn gi full <$> gi_submit_txs gi) + sum_Z (term_burn <$> gi_one_year_txs gi ++ gi_thirty_day_txs gi).

Definition credit_steps : list (Step ShadowMetadata) :=
  header_step gi :: (commitment_step gi <$> gi_commitment_txs gi) ++ (submit_step gi full <$> gi_submit_txs gi) ++
  (term_step gi <$> gi_one_year_txs gi ++ gi_thirty_day_txs gi).

Lemma credit_steps_billed : Forall2 billed credit_steps block_bills.
Proof.
  unfold credit_steps, block_bills. constructor; [by intros b _|]. repeat apply Forall2_app; apply Forall2_fmap, Forall_Forall2_diag.
  - apply Forall_forall. intros tx _. apply commitment_billed.
  - eapply Forall_impl; [apply (if_submit gi Hfit)|]. intros tx. apply submit_billed, Hfit.
  - apply Forall_forall. intros tx _. apply term_billed.
Qed.

Definition block_burns : list Z :=
  - (gi_treasury_reward_share gi + gi_reward_amount gi) :: ((λ _, 0) <$> gi_commitment_txs gi) ++ (submit_burn gi full <$> gi_submit_txs gi) ++
  (term_burn <$> gi_one_year_txs gi ++ gi_thirty_day_txs gi).

Lemma block_burns_sum : sum_Z block_burns = block_burn - (gi_treasury_reward_share gi + gi_reward_amount gi).
Proof.
  unfold block_burns, block_burn. rewrite sum_Z_cons, !sum_Z_app. rewrite (sum_Z_zero (λ _, 0)) by done. lia.
Qed.

Lemma block_bills_burns bills : block_bills = Ok <$> bills → Forall2 (bill_ok gi) block_burns bills.
Proof.
  intros Hb. assert (Forall2 (λ burn r, ∀ mc, r = Ok mc → bill_ok gi burn mc) block_burns block_bills) as Hall.
  { unfold block_burns, block_bills. constructor; [intros mc [= <-]; apply header_bill_ok|]. repeat apply Forall2_app; apply Forall2_fmap, Forall_Forall2_diag.
    - eapply Forall_impl; [apply (if_commitments gi Hfit)|]. intros tx Htx mc [= <-]. by apply commitment_bill_ok.
    - eapply Forall_impl; [apply (if_submit gi Hfit)|]. intros tx Htx mc. by apply submit_bill_ok; [apply Hfit|].
    - eapply Forall_impl; [apply (if_term gi Hfit)|]. intros tx Htx mc. by apply term_bill_ok; [apply Hfit|]. }
  rewrite Hb in Hall. apply Forall2_fmap_r in Hall. eapply Forall2_impl; [done|]. intros burn mc H. by apply H.
Qed.

Lemma bills_balance burns bills : Forall2 (bill_ok gi) burns bills →
  Forall (generated (gi_solution_hash gi)) bills.*1 ∧ Forall (λ c, 0 ≤ c) bills.*2 ∧ sum_Z bills.*2 + sum_Z (evm_net <$> bills.*1) = - sum_Z burns.
Proof.
  induction 1 as [|burn mc burns bills (Hm & Hc & Heq) _ (IHm & IHc & IH)]; [done|]. rewrite !fmap_cons, !sum_Z_cons. split_and!; [by constructor..|lia].
Qed.

(** ** The verdict *)

Definition verdict (b credits expired ingress refunds : Z) (txs : list ShadowMetadata) : result ShadowTxGenError (list ShadowMetadata * Z) :=
  if 2 ^ 256 <=? b + credits then Err TreasuryArithmetic
  else if b + credits <? expired then Err SnapshotTreasuryUnderflow
  else if b + credits - expired <? ingress then Err TreasuryArithmetic
  else if b + credits - expired - ingress <? refunds then Err SnapshotTreasuryUnderflow
  else Ok (txs, b + credits - expired - ingress - refunds).

Section Payouts.
  Context (b : Z) (Hb : 0 ≤ b < 2 ^ 256) (publish expired refunds : list ShadowMetadata).
  Context (Hexp : Forall (pays_out pays_expired SnapshotTreasuryUnderflow) expired) (Hpub : Forall (pays_out pays_publish TreasuryArithmetic) publish)
          (Href : Forall (pays_out pays_refund SnapshotTreasuryUnderflow) refunds).
  Notation gen := (mkGenerator gi full (mkGenState b Header 0 (Ok <$> publish) (Ok <$> expired) (Ok <$> refunds))).

Lemma gen_steps_credits : gen_steps gi full publish expired refunds =
  credit_steps ++ (payout_step pays_expired <$> expired) ++ (payout_step pays_publish <$> publish) ++ (payout_step pays_refund <$> refunds).
Proof. unfold gen_steps, credit_steps. cbn [app]. by rewrite <- !app_assoc. Qed.

Lemma collect_verdict bills : block_bills = Ok <$> bills →
  collect gen = verdict b (sum_Z bills.*2) (sum_Z (evm_net <$> expired)) (sum_Z (evm_net <$> publish)) (sum_Z (evm_net <$> refunds))
                  (bills.*1 ++ expired ++ publish ++ refunds).
Proof.
  intros Hbills. rewrite collect_steps, gen_steps_credits, run_steps_app.
  destruct (bills_balance _ _ (block_bills_burns bills Hbills)) as (_ & Hc & _).
  assert (Forall2 (λ s mc, billed s (Ok mc) ∧ 0 ≤ mc.2) credit_steps bills) as Hsteps.
  { pose proof credit_steps_billed as Hs. rewrite Hbills, Forall2_fmap_r in Hs. rewrite Forall_fmap in Hc.
    apply (Forall2_with (λ s mc, billed s (Ok mc)) (λ mc, 0 ≤ mc.2)); [exact Hs|exact Hc]. }
  rewrite (run_billed _ _ b [] (proj2 Hb) Hsteps). unfold verdict. pose proof (sum_Z_nonneg _ Hc) as Hcn. cbn [app].
  destruct (Z.ltb_spec (b + sum_Z bills.*2) (2 ^ 256)); [rewrite (proj2 (Z.leb_gt _ _)) by done|by rewrite (proj2 (Z.leb_le _ _))].
  cbn [mbind result_bind fst snd]. rewrite run_steps_app, (run_payouts _ SnapshotTreasuryUnderflow) by (done || lia).
  rewrite Z.ltb_antisym. destruct (Z.leb_spec (sum_Z (evm_net <$> expired)) (b + sum_Z bills.*2)); cbn [negb mbind result_bind fst snd]; [|done].
  rewrite run_steps_app, (run_payouts _ TreasuryArithmetic) by (done || lia).
  rewrite Z.ltb_antisym. destruct (Z.leb_spec (sum_Z (evm_net <$> publish)) (b + sum_Z bills.*2 - sum_Z (evm_net <$> expired))); cbn [negb mbind result_bind fst snd]; [|done].
  rewrite (run_payouts _ SnapshotTreasuryUnderflow) by (done || lia).
  rewrite Z.ltb_antisym. destruct (_ <=? _); cbn [negb]; [|done]. by rewrite <- !app_assoc.
Qed.

Lemma collect_bills out : collect gen = Ok out → ∃ bills, block_bills = Ok <$> bills.
Proof.
  rewrite collect_steps, gen_steps_credits, run_steps_app. intros (r & Hr & _)%bind_ok.
  by apply (run_billed_inv _ _ b [] r (proj2 Hb) credit_steps_billed).
Qed.

(** When all goes through, money is conserved. *)
Lemma collect_conserves txs b' : collect gen = Ok (txs, b') →
  0 ≤ b' < 2 ^ 256 ∧ b' + sum_Z (evm_net <$> txs) = b + gi_treasury_reward_share gi + gi_reward_amount gi - block_burn.
Proof.
  intros Hc. destruct (collect_bills _ Hc) as [bills Hbills]. destruct (bills_balance _ _ (block_bills_burns bills Hbills)) as (_ & Hc0 & Hsum).
  rewrite block_burns_sum in Hsum. rewrite (collect_verdict bills Hbills) in Hc. unfold verdict in Hc.
  assert (∀ pays e ms, Forall (pays_out pays e) ms → 0 ≤ sum_Z (evm_net <$> ms)) as Hpos.
  { intros pays e ms Hms. apply sum_Z_nonneg, Forall_fmap. eapply Forall_impl; [done|]. by intros ? [_ ?]. }
  pose proof (Hpos _ _ _ Hexp). pose proof (Hpos _ _ _ Hpub). pose proof (Hpos _ _ _ Href).
  destruct (Z.leb_spec (2 ^ 256) (b + sum_Z bills.*2)); [done|]. destruct (Z.ltb_spec (b + sum_Z bills.*2) (sum_Z (evm_net <$> expired))); [done|].
  destruct (Z.ltb_spec (b + sum_Z bills.*2 - sum_Z (evm_net <$> expired)) (sum_Z (evm_net <$> publish))); [done|].
  destruct (Z.ltb_spec (b + sum_Z bills.*2 - sum_Z (evm_net <$> expired) - sum_Z (evm_net <$> publish)) (sum_Z (evm_net <$> refunds))); [done|].
  injection Hc as <- <-. rewrite !fmap_app, !sum_Z_app. lia.
Qed.
End Payouts.
End Block.

(** * The rewards of ingress proofs add up to the pools of the promoted transactions, and their
    sums do not overflow. *)

Definition rewards_ok (m : BTreeMap (Z * Z)) : Prop := btree_ok m ∧ Forall (λ kv, 0 ≤ kv.2.1 < 2 ^ 256) m.
Definition rewards_total (m : BTreeMap (Z * Z)) : Z := btree_sum fst m.

Lemma rewards_entry m k : rewards_ok m → 0 ≤ (default (0, 0) (btree_get k m)).1 ≤ rewards_total m.
Proof.
  intros [Hok Hn]. unfold rewards_total, btree_sum. clear Hok. induction Hn as [|[k' [a h]] m Ha Hn IH]; [done|].
  rewrite fmap_cons, sum_Z_cons. cbn [btree_get compose fst snd] in *. assert (0 ≤ sum_Z (fst ∘ snd <$> m)) by (apply sum_Z_nonneg, Forall_fmap; eapply Forall_impl; [done|]; by intros ? [? _]).
  destruct (k =? k'); cbn [default from_option id fst]; lia.
Qed.

Lemma btree_insert_ok m k a h : rewards_ok m → 0 ≤ a < 2 ^ 256 → rewards_ok (btree_insert k (a, h) m).
Proof.
  intros [Hok Hn] Ha. split; [by apply btree_update_ok|]. unfold btree_insert. clear Hok. induction Hn as [|[k' v] m Hv Hn IH]; cbn [btree_update];
    [by apply Forall_singleton|]. destruct (k <? k'); [by rewrite !Forall_cons|]. destruct (k =? k'); by apply Forall_cons.
Qed.

Section Charges.
  Context (es : EpochSnapshot) (tx_id : Z).

Lemma add_charge_spec charge m : rewards_ok m → 0 ≤ fc_amount charge →
  (∃ m', add_charge es tx_id charge m = Ok m' ∧ rewards_ok m' ∧ rewards_total m' = rewards_total m + fc_amount charge) ∨
  (add_charge es tx_id charge m = Panic ∧ 2 ^ 256 ≤ rewards_total m + fc_amount charge).
Proof.
  intros Hm Hc. unfold add_charge. set (k := resolve_reward_address es (fc_address charge)). pose proof (rewards_entry m k Hm) as He.
  unfold checked_add. destruct (Z.ltb_spec ((default (0, 0) (btree_get k m)).1 + fc_amount charge) (2 ^ 256)); cbn [expect mbind result_bind]; [left|right; split; [done|lia]].
  eexists. split; [done|]. split; [apply btree_insert_ok; [done|lia]|]. unfold rewards_total, btree_insert. rewrite btree_sum_update by apply Hm.
  cbn [fst]. destruct (btree_get k m) as [[a h]|]; cbn [default from_option fmap option_fmap option_map id fst]; lia.
Qed.

Lemma add_charges_spec charges m : rewards_ok m → Forall (λ c, 0 ≤ fc_amount c) charges →
  (∃ m', add_charges es tx_id charges m = Ok m' ∧ rewards_ok m' ∧ rewards_total m' = rewards_total m + sum_Z (fc_amount <$> charges)) ∨
  (add_charges es tx_id charges m = Panic ∧ 2 ^ 256 ≤ rewards_total m + sum_Z (fc_amount <$> charges)).
Proof.
  intros Hm Hc. revert m Hm. induction Hc as [|c charges Hc Hcs IH]; intros m Hm; cbn [add_charges].
  { left. exists m. split_and!; [done|apply Hm..|cbn; lia]. }
  rewrite fmap_cons, sum_Z_cons. assert (0 ≤ sum_Z (fc_amount <$> charges)) by (by apply sum_Z_nonneg, Forall_fmap).
  destruct (add_charge_spec c m Hm Hc) as [(m' & -> & Hm' & Ht)|[-> Hge]]; cbn [mbind result_bind]; [|right; split; [done|lia]].
  destruct (IH m' Hm') as [(m'' & -> & Hm'' & Ht')|[-> Hge]]; [left; exists m''; split_and!; [done|apply Hm''..|lia]|right; split; [done|lia]].
Qed.
End Charges.

Section Ingress.
  Context {P : Type} (recover_signer : P → option Z) (config : FeeParams) (Hp : fee_params_ok config) (timestamp : Z) (es : EpochSnapshot).

(** The pool of a promoted transaction. *)
Definition pool_of (tx : DataTransactionHeader) : Z :=
  match ingress_proof_reward_pool_at config timestamp (th_term_fee tx) with Ok pool => pool | _ => 0 end.

Lemma pool_of_nonneg tx : tx_fits tx → 0 ≤ pool_of tx.
Proof. intros (Ht & _). unfold pool_of. destruct (ingress_proof_reward_pool_at _ _ _) eqn:E; [by eapply pool_nonneg|done..]. Qed.

(** A product that fits in 256 bits, over the scale. *)
Lemma pool_of_bound tx : tx_fits tx → pool_of tx * PRECISION_SCALE ≤ Z.max 1 (number_of_ingress_proofs_total config) * 2 ^ 256.
Proof.
  intros (Ht & _). pose proof (fp_proofs config Hp) as Hn. unfold pool_of, ingress_proof_reward_pool_at.
  assert (∀ x y share, price (mul_div x y PRECISION_SCALE) = Ok share → share * PRECISION_SCALE < 2 ^ 256) as Hs.
  { intros x y share [-> Hlt]%price_ok%mul_div_Ok; [|done]. pose proof (Z.mul_div_le (x * y) PRECISION_SCALE PRECISION_SCALE_pos). lia. }
  destruct (FeeSplit.delta_for_block config timestamp) as [d|].
  - destruct (price (mul_div (th_term_fee tx) (ingress_proof_reward_pool_percent d) PRECISION_SCALE)) as [pool| |] eqn:E; [|lia..].
    specialize (Hs _ _ _ E). lia.
  - destruct (price (mul_div (th_term_fee tx) (immediate_tx_inclusion_reward_percent config) PRECISION_SCALE)) as [share| |] eqn:E; cbn [mbind result_bind]; [|lia..].
    pose proof (Hs _ _ _ E) as Hlt. apply price_ok, mul_div_Ok in E as [Heq _]; [|done].
    assert (0 ≤ share) by (rewrite Heq; apply Z.div_pos; [pose proof (fp_inclusion config Hp); nia|done]).
    unfold saturating_mul. pose proof PRECISION_SCALE_pos. nia.
Qed.

Lemma pool_no_panic term_fee : ingress_proof_reward_pool_at config timestamp term_fee ≠ Panic.
Proof.
  assert (∀ x y, price (mul_div x y PRECISION_SCALE) ≠ Panic) as Hm.
  { intros x y. apply map_err_no_panic, bind_no_panic; [apply ok_or_no_panic|]. intros a. unfold safe_div. by destruct (_ =? _). }
  unfold ingress_proof_reward_pool_at. destruct (FeeSplit.delta_for_block config timestamp); auto with no_panic.
Qed.
Lemma publish_charges_no_panic f pool : PublishFeeCharges_new f pool ≠ Panic.
Proof. unfold PublishFeeCharges_new. auto 8 with no_panic. Qed.
Lemma proof_charges_no_panic base rem i proofs : proof_charges recover_signer base rem i proofs ≠ Panic.
Proof. revert i. induction proofs as [|pf proofs IH]; intros i; cbn [proof_charges]; auto 8 with no_panic. Qed.
Lemma ingress_no_panic c proofs : ingress_proof_rewards recover_signer c proofs ≠ Panic.
Proof. unfold ingress_proof_rewards. pose proof proof_charges_no_panic. auto 8 with no_panic. Qed.
Lemma proofs_of_tx_err proofs index n : (∃ pfs : list P, proofs_of_tx proofs index n = Ok pfs) ∨ proofs_of_tx proofs index n = Err Structural.
Proof.
  unfold proofs_of_tx. destruct (checked_mul 64 index n); cbn [ok_or mbind result_bind]; [|by right]. destruct (checked_add 64 _ n); cbn [ok_or mbind result_bind]; [|by right].
  destruct (_ <=? _); eauto.
Qed.
Lemma structural_cases {A} (r : result FeeError A) : r ≠ Panic → (∃ a, r = Ok a ∧ structural r = Ok a) ∨ structural r = Err Structural.
Proof. destruct r; [eauto|by right|done]. Qed.

Lemma accumulate_spec proofs index txs m : rewards_ok m → Forall tx_fits txs →
  let r := accumulate_txs recover_signer config timestamp es proofs index txs m in
  (∃ m', r = Ok m' ∧ rewards_ok m' ∧ rewards_total m' = rewards_total m + sum_Z (pool_of <$> txs)) ∨ r = Err Structural ∨
  (r = Panic ∧ 2 ^ 256 ≤ rewards_total m + sum_Z (pool_of <$> txs)).
Proof.
  intros Hm Htxs. revert index m Hm. induction Htxs as [|tx txs Htx Htxs IH]; intros index m Hm r; subst r; cbn [accumulate_txs].
  { left. exists m. split_and!; [done|apply Hm..|cbn; lia]. }
  rewrite fmap_cons, sum_Z_cons. assert (0 ≤ sum_Z (pool_of <$> txs)) as Hrest.
  { apply sum_Z_nonneg, Forall_fmap. eapply Forall_impl; [done|]. apply pool_of_nonneg. }
  destruct (th_perm_fee tx) as [f|] eqn:Hf; cbn [ok_or mbind result_bind]; [|by right; left].
  pose proof Htx as (Ht & Hf0 & Hsum). rewrite Hf in Hsum. cbn [default from_option id] in Hsum. specialize (Hf0 f Hf).
  destruct (structural_cases (pool ← ingress_proof_reward_pool_at config timestamp (th_term_fee tx); PublishFeeCharges_new f pool)) as [(charges & Hch & ->)| ->];
    [pose proof pool_no_panic; pose proof publish_charges_no_panic; auto with no_panic| |by right; left]. cbn [mbind result_bind].
  apply bind_ok in Hch as (pool & Hpool & Hch). pose proof (pool_of_nonneg tx Htx) as Hpn.
  assert (pool = pool_of tx) as -> by (unfold pool_of; by rewrite Hpool). apply PublishFeeCharges_ok in Hch as [Hlt ->]; [|done|lia].
  destruct (proofs_of_tx_err proofs index (number_of_ingress_proofs_total config)) as [[pfs ->]| ->]; cbn [mbind result_bind]; [|by right; left].
  destruct (structural_cases _ (ingress_no_panic (mkPublishFeeCharges (pool_of tx) (f - pool_of tx)) pfs)) as [(cs & Hcs & ->)| ->]; cbn [mbind result_bind]; [|by right; left].
  apply ingress_proof_rewards_ok in Hcs as (Hne & _ & Hamt); [|cbn; unfold u256; lia]. cbn [ingress_proof_reward] in Hamt.
  destruct (add_charges_spec es (th_id tx) cs m Hm) as [(m' & -> & Hm' & Ht')|[-> Hge]]; cbn [mbind result_bind].
  - rewrite <- (Forall_fmap fc_amount (λ x, 0 ≤ x)), Hamt. by apply shares_nonneg.
  - rewrite Hamt, shares_sum in Ht' by (destruct pfs; [done|cbn; lia]).
    destruct (IH (index + 1) m' Hm') as [(m'' & -> & Hm'' & Ht'')|[->|[-> Hge]]]; [left; exists m''; split_and!; [done|apply Hm''..|lia]|by right; left|right; right; split; [done|lia]].
  - rewrite Hamt, shares_sum in Hge by (destruct pfs; [done|cbn; lia]). right; right. split; [done|lia].
Qed.
End Ingress.
