(* ===== verification/ShadowTyped.v ===== *)
(** The amounts that a node derives for a block are of their types, from tables and
    transactions that are: what expired slots pay, what commitments get back, and the block
    reward, which is the step of the emission.  Then the match and the execution of a payload. *)

From S2P Require Import SimpleRng TreeHash Pricing StateErr DataLedger EpochSnapshot CommitmentSnapshot EpochInv EpochSlots EpochCommit LedgerExpiry Codec ShadowTx ShadowExec Packing Merkle BlockIndex BlockIndexFacts IndexFile Poa FeeSplit BTree ExpiryWalk ExpirySettle ShadowGen ShadowValidate TreasuryFacts Prelude.

(** ** Prices *)

Notation nonneg := (λ x : Z, 0 ≤ x).

Lemma safe_add_nonneg a b : 0 ≤ a → 0 ≤ b → yields nonneg (safe_add a b).
Proof. intros. apply yields_ok_or. unfold checked_add. intros x. destruct (_ <? _); [intros [= <-]; lia|done]. Qed.
Lemma safe_sub_nonneg a b : yields nonneg (safe_sub a b).
Proof. apply yields_ok_or. unfold checked_sub. intros x. destruct (Z.leb_spec b a); [intros [= <-]; lia|done]. Qed.
Lemma safe_mul_nonneg a b : 0 ≤ a → 0 ≤ b → yields nonneg (safe_mul a b).
Proof. intros. apply yields_ok_or. unfold checked_mul. intros x. destruct (_ <? _); [intros [= <-]; nia|done]. Qed.
Lemma safe_div_nonneg a b : 0 ≤ a → 0 ≤ b → yields nonneg (safe_div a b).
Proof. intros Ha Hb. unfold safe_div. destruct (Z.eqb_spec b 0); [apply yields_err|]. apply yields_ok, Z.div_pos; lia. Qed.
Lemma mul_div_nonneg a b c : 0 ≤ a → 0 ≤ b → 0 ≤ c → yields nonneg (mul_div a b c).
Proof. intros. eapply yields_bind; [by apply safe_mul_nonneg|]. intros x Hx. by apply safe_div_nonneg. Qed.
#[local] Hint Resolve safe_add_nonneg safe_sub_nonneg safe_mul_nonneg safe_div_nonneg mul_div_nonneg : yields.

Lemma TOKEN_SCALE_nonneg : 0 ≤ TOKEN_SCALE.
Proof. done. Qed.
Lemma LN2_nonneg : 0 ≤ LN2_FP18.
Proof. done. Qed.
#[local] Hint Resolve TOKEN_SCALE_nonneg LN2_nonneg : yields.

Lemma exp_taylor_nonneg n i x term sum : 0 ≤ i → 0 ≤ x → 0 ≤ term → 0 ≤ sum → yields nonneg (exp_taylor n i x term sum).
Proof.
  revert i term sum. induction n as [|n IH]; intros i term sum Hi Hx Ht Hs; cbn [exp_taylor]; [by apply yields_ok|].
  eapply yields_bind; [eauto with yields|]. intros t Ht'. eapply yields_bind; [eauto with yields|]. intros t2 Ht2.
  eapply yields_bind; [eauto with yields|]. intros s2 Hs2. cbv beta in *. apply IH; lia.
Qed.

Lemma ln_taylor_nonneg n i y p sum : 0 ≤ i → 0 ≤ y → 0 ≤ p → 0 ≤ sum → yields nonneg (ln_taylor n i y p sum).
Proof.
  revert i p sum. induction n as [|n IH]; intros i p sum Hi Hy Hp Hs; cbn [ln_taylor]; [by apply yields_ok|].
  eapply yields_bind; [eauto with yields|]. intros t Ht. eapply yields_bind; [destruct (_ =? _); eauto with yields|]. intros s2 Hs2.
  eapply yields_bind; [eauto with yields|]. intros p2 Hp2. cbv beta in *. apply IH; lia.
Qed.

Lemma ln_scale_down_nonneg fuel m k : 0 ≤ m → 0 ≤ k → yields (λ r, 0 ≤ r.1 ∧ 0 ≤ r.2) (ln_scale_down fuel m k).
Proof.
  revert m k. induction fuel as [|fuel IH]; intros m k Hm Hk; cbn [ln_scale_down]; [apply yields_panic|]. destruct (_ <=? _); [|by apply yields_ok].
  eapply yields_bind; [apply safe_div_nonneg; lia|]. intros m2 Hm2. cbv beta in *. apply IH; lia.
Qed.
Lemma ln_scale_up_nonneg fuel m k : 0 ≤ m → 0 ≤ k → yields (λ r, 0 ≤ r.1 ∧ 0 ≤ r.2) (ln_scale_up fuel m k).
Proof.
  revert m k. induction fuel as [|fuel IH]; intros m k Hm Hk; cbn [ln_scale_up]; [apply yields_panic|]. destruct (_ <? _); [|by apply yields_ok].
  eapply yields_bind; [apply safe_mul_nonneg; lia|]. intros m2 Hm2. cbv beta in *. apply IH; [done|]. unfold saturating_sub. lia.
Qed.

Lemma ln_fp18_nonneg x : 0 ≤ x → yields nonneg (ln_fp18 x).
Proof.
  intros Hx. unfold ln_fp18. destruct (x =? 0); [apply yields_err|]. destruct (x <? TOKEN_SCALE); [apply yields_err|].
  eapply yields_bind; [by apply ln_scale_down_nonneg|]. intros [m k] [Hm Hk]. eapply yields_bind; [by apply ln_scale_up_nonneg|]. intros [m2 k2] [Hm2 Hk2]. cbn [fst snd] in *.
  eapply yields_bind; [apply safe_sub_nonneg|]. intros y Hy. eapply yields_bind; [by apply ln_taylor_nonneg|]. intros s Hs.
  eapply yields_bind; [eauto with yields|]. intros kl Hkl. eauto with yields.
Qed.

(** ** Block rewards *)

Lemma exp_neg_taylor_nonneg n i x term sum : 0 ≤ i → 0 ≤ x → 0 ≤ term → 0 ≤ sum → yields nonneg (exp_neg_taylor n i x term sum).
Proof.
  revert i term sum. induction n as [|n IH]; intros i term sum Hi Hx Ht Hs; cbn [exp_neg_taylor]; [by apply yields_ok|].
  eapply yields_bind; [eauto with yields|]. intros t Ht'. eapply yields_bind; [eauto with yields|]. intros t2 Ht2.
  eapply yields_bind; [destruct (_ =? _); eauto with yields|]. intros s2 Hs2. cbv beta in *. apply IH; lia.
Qed.

Lemma decay_factor_nonneg t half_life : 0 ≤ t → 0 ≤ half_life → yields nonneg (decay_factor t half_life).
Proof.
  intros Ht Hh. unfold decay_factor. destruct (Z.eqb_spec half_life 0); [apply yields_err|]. res_simpl.
  eapply (yields_bind nonneg); [destruct (_ =? 0); [by apply yields_ok|]; destruct (60 <=? _); [by apply yields_ok|]|].
  - apply yields_map_err, safe_div_nonneg; [done|]. by apply Z.shiftl_nonneg.
  - intros d Hd. destruct (_ || _); [by apply yields_ok|]. pose proof (Z.mod_pos_bound t half_life ltac:(lia)).
    eapply (yields_bind nonneg); [apply yields_map_err, mul_div_nonneg; [done|lia|done]|]. intros x Hx.
    eapply (yields_bind nonneg); [by apply yields_map_err, exp_neg_taylor_nonneg|]. intros f Hf. by apply yields_map_err, mul_div_nonneg.
Qed.

Record curve_fits (c : HalvingCurve) : Prop := { cf_cap : 0 ≤ inflation_cap c; cf_half_life : 0 ≤ half_life_secs c }.

Lemma curve_ok {A} (r : result PriceError A) a : curve r = Ok a ↔ r = Ok a.
Proof. destruct r; cbn; naive_solver. Qed.

Section Emission.
  Context (c : HalvingCurve) (Hc : curve_fits c) (block_time_secs : Z) (Ht : 0 ≤ block_time_secs).

Lemma emitted_until_range t : 0 ≤ t → yields (λ x, 0 ≤ x ≤ inflation_cap c ∧ x < 2 ^ 256) (emitted_until c t).
Proof.
  intros H0. destruct Hc as [Hcap Hh]. unfold emitted_until. eapply yields_bind; [by apply decay_factor_nonneg|]. intros d Hd.
  intros x (om & Hom%curve_ok & Hx%curve_ok)%bind_ok. unfold safe_sub, checked_sub in Hom. destruct (Z.leb_spec d TOKEN_SCALE); [|done]. injection Hom as <-.
  apply mul_div_Ok in Hx as [-> Hlt]; [|done]. cbv beta in Hd. split; [by apply share_le; [done|lia|]|]. apply Z.div_lt_upper_bound; [done|].
  assert (1 ≤ TOKEN_SCALE) by done. nia.
Qed.

(** What has been emitted at a height. *)
Definition emitted_at (height : Z) : Z := match emitted_until c (height * block_time_secs) with Ok e => e | _ => 0 end.

Lemma emitted_at_range height : 0 ≤ height → 0 ≤ emitted_at height ≤ inflation_cap c.
Proof.
  intros Hh. unfold emitted_at. pose proof (emitted_until_range (height * block_time_secs) ltac:(nia)) as Hr. pose proof (cf_cap c Hc).
  destruct (emitted_until c (height * block_time_secs)) as [e| |]; [destruct (Hr e eq_refl); lia|lia..].
Qed.

Lemma emitted_at_zero : emitted_at 0 = 0.
Proof.
  unfold emitted_at, emitted_until, decay_factor. cbn [Z.mul]. destruct (half_life_secs c =? 0); [done|]. res_simpl. rewrite Zmod_0_l, Zdiv_0_l. cbn [Z.eqb orb mbind result_bind].
  unfold safe_sub, checked_sub. rewrite Z.leb_refl, Z.sub_diag. cbn [ok_or curve map_err mbind result_bind]. unfold mul_div, safe_mul, checked_mul. by rewrite Z.mul_0_r.
Qed.

(** A block's reward is the step of the emission. *)
Lemma full_reward_step height r : 0 ≤ height → full_block_reward c block_time_secs height = Ok r → 0 ≤ r < 2 ^ 256 ∧ emitted_at height + r = emitted_at (height + 1).
Proof.
  intros Hh. unfold full_block_reward, reward_between. rewrite (proj2 (Z.ltb_ge _ _)) by lia. unfold emitted_at. rewrite Z.mul_add_distr_r, Z.mul_1_l.
  destruct (Z.eqb_spec (height * block_time_secs) (height * block_time_secs + block_time_secs)) as [Heq|Hne]; cbn [orb].
  { intros [= <-]. rewrite <- Heq. lia. }
  destruct (Z.eqb_spec (inflation_cap c) 0) as [Hz|Hz].
  { intros [= <-]. pose proof (emitted_at_range height Hh) as H1. pose proof (emitted_at_range (height + 1) ltac:(lia)) as H2. unfold emitted_at in H1, H2.
    rewrite Z.mul_add_distr_r, Z.mul_1_l in H2. lia. }
  intros (e0 & H0 & H)%bind_ok. apply bind_ok in H as (e1 & H1 & Hr%curve_ok). rewrite H0, H1. unfold safe_sub, checked_sub in Hr.
  destruct (Z.leb_spec e0 e1); [|done]. injection Hr as <-. assert (0 ≤ height * block_time_secs) as Hp by nia.
  destruct (emitted_until_range _ Hp _ H0). assert (0 ≤ height * block_time_secs + block_time_secs) as Hp' by lia. destruct (emitted_until_range _ Hp' _ H1). lia.
Qed.
End Emission.

Lemma split_reward_sum full_reward p timestamp is_capacity split : fee_params_ok p → 0 ≤ full_reward → split_block_reward full_reward p timestamp is_capacity = Ok split →
  0 ≤ split_miner split ∧ 0 ≤ split_treasury split ∧ split_miner split + split_treasury split = full_reward.
Proof.
  intros Hp Hf. unfold split_block_reward. destruct is_capacity; [|intros [= <-]; cbn; lia]. destruct (FeeSplit.delta_for_block p timestamp) as [d|] eqn:Hd; [|intros [= <-]; cbn; lia].
  assert (0 ≤ capacity_chunk_reward_percent d) as Hcap.
  { apply (fp_capacity p Hp). unfold FeeSplit.delta_for_block in Hd. destruct (hf_delta p); [|done]. destruct (_ <=? _); [by injection Hd as ->|done]. }
  intros (m & Hm%price_ok & H)%bind_ok. apply bind_ok in H as (t & Ht%price_ok & [= <-]). apply mul_div_nonneg in Hm; [|done..].
  unfold safe_sub, checked_sub in Ht. destruct (Z.leb_spec m full_reward); [|done]. injection Ht as <-. cbn. cbv beta in Hm. lia.
Qed.

Record prices_fit (c : CommitmentPrices) : Prop := {
  pf_stake : 0 ≤ stake_value c < 2 ^ 256;
  pf_pledge : 0 ≤ pledge_base_value c < 2 ^ 256;
  pf_decay : 0 ≤ pledge_decay c
}.
Definition event_fits (e : RefundEvent) : Prop := 0 ≤ re_amount e < 2 ^ 256.

Lemma pledge_value_fits c n : prices_fit c → 0 ≤ n → yields (λ x, 0 ≤ x < 2 ^ 256) (calculate_pledge_value_at_count c n).
Proof.
  intros [_ Hb Hd] Hn. unfold calculate_pledge_value_at_count.
  assert (yields (λ x, 0 ≤ x < 2 ^ 256) (apply_pledge_decay (pledge_base_value c) n (pledge_decay c))) as Hy.
  { unfold apply_pledge_decay, checked_add. destruct (_ <? _); [|done]. res_simpl.
    eapply yields_bind; [apply safe_mul_nonneg; [lia|done]|]. intros f Hf. eapply yields_bind; [by apply ln_fp18_nonneg|]. intros ln Hln.
    eapply yields_bind; [by apply mul_div_nonneg|]. intros r Hr. eapply yields_bind; [by apply mul_div_nonneg|]. intros e He.
    eapply yields_bind; [by apply exp_taylor_nonneg|]. intros dv Hdv x Hx. split; [by apply (mul_div_nonneg _ _ _ (proj1 Hb) TOKEN_SCALE_nonneg Hdv)|].
    unfold mul_div, safe_mul, safe_div, checked_mul in Hx. destruct (Z.ltb_spec (pledge_base_value c * TOKEN_SCALE) (2 ^ 256)) as [Hlt|]; [|done]. res_simpl in Hx.
    destruct (Z.eqb_spec dv 0); [done|]. injection Hx as <-. cbv beta in Hdv. apply Z.div_lt_upper_bound; [lia|]. nia. }
  destruct (apply_pledge_decay _ _ _); [by apply yields_ok, Hy|by apply yields_ok|apply yields_panic].
Qed.

(** ** Refunds *)

(** The unpledges of a snapshot are unpledges, with counts of type [u64]. *)
Definition unpledges_fit (cs : CommitmentSnapshot) : Prop :=
  ∀ a mc tx, cs !! a = Some mc → tx ∈ mc_unpledges mc → ∀ n ph, tx_type tx = Unpledge n ph → 0 ≤ n.

Lemma unpledge_refunds_fit c txs : prices_fit c → Forall (λ tx, ∀ n ph, tx_type tx = Unpledge n ph → 0 ≤ n) txs →
  yields (Forall event_fits) (unpledge_refunds c txs).
Proof.
  intros Hc Htxs. induction Htxs as [|tx txs Htx _ IH]; cbn [unpledge_refunds]; [by apply yields_ok|].
  apply (yields_bind event_fits).
  - unfold unpledge_refund. destruct (tx_type tx) as [| |n ph| |]; try apply yields_panic. specialize (Htx n ph eq_refl).
    destruct (Z.eqb_spec n 0); [apply yields_err|]. res_simpl. eapply yields_bind; [apply pledge_value_fits; [done|lia]|]. intros x Hx. by apply yields_ok.
  - intros e He. eapply yields_bind; [done|]. intros es Hes. apply yields_ok. by constructor.
Qed.

Lemma derive_unpledge_fit cs c : prices_fit c → unpledges_fit cs → yields (Forall event_fits) (derive_unpledge_refunds_from_snapshot cs c).
Proof.
  intros Hc Hcs. apply unpledge_refunds_fit; [done|]. rewrite merge_sort_Permutation. apply Forall_forall. intros tx Htx.
  apply list_elem_of_In, in_concat in Htx as (l & Hl & Htx). apply list_elem_of_In in Hl, Htx. apply list_elem_of_fmap in Hl as (mc & -> & Hmc).
  apply btree_values_lookup in Hmc as [a Ha]. by apply (Hcs a mc).
Qed.

Lemma derive_unstake_fit cs c : prices_fit c → Forall event_fits (derive_unstake_refunds_from_snapshot cs c).
Proof. intros Hc. apply Forall_fmap, Forall_forall. intros tx _. apply Hc. Qed.

(** ** Expired slots *)

Definition delta_fits (d : LedgerExpiryBalanceDelta) : Prop :=
  Forall (λ kv, 0 ≤ kv.2.1 < 2 ^ 256) (reward_balance_increment d) ∧ Forall (λ r, 0 ≤ r.1.2 < 2 ^ 256) (user_perm_fee_refunds d).

Lemma btree_update_Forall {A} (P : A → Prop) k f (m : BTreeMap A) : Forall (λ kv, P kv.2) m → (∀ o, (∀ a, o = Some a → P a) → P (f o)) →
  Forall (λ kv, P kv.2) (btree_update k f m).
Proof.
  intros Hm Hf. induction Hm as [|[k' a] m Ha Hm IH]; cbn [btree_update]; [constructor; [by apply Hf|constructor]|].
  destruct (k <? k'); [constructor; [by apply Hf|by constructor]|]. destruct (k =? k'); constructor; try done. cbn. apply Hf. by intros ? [= <-].
Qed.

Lemma add_reward_fits fee hash o : 0 ≤ fee < 2 ^ 256 → (∀ e : Z * Z, o = Some e → 0 ≤ e.1 < 2 ^ 256) → 0 ≤ (add_reward fee hash o).1 < 2 ^ 256.
Proof. intros Hf Ho. destruct o as [[a h]|]; cbn; [|done]. specialize (Ho _ eq_refl). cbn in Ho. unfold saturating_add. lia. Qed.

Lemma fold_rewards_fit {X} (key : X → Z) (fee hash : X → Z) l m : Forall (λ x, 0 ≤ fee x < 2 ^ 256) l → Forall (λ kv : Z * (Z * Z), 0 ≤ kv.2.1 < 2 ^ 256) m →
  Forall (λ kv : Z * (Z * Z), 0 ≤ kv.2.1 < 2 ^ 256) (foldl (λ m x, btree_update (key x) (add_reward (fee x) (hash x)) m) m l).
Proof.
  intros Hl. revert m. induction Hl as [|x l Hx _ IH]; intros m Hm; [done|]. cbn [foldl]. apply IH.
  apply (btree_update_Forall (λ e : Z * Z, 0 ≤ e.1 < 2 ^ 256)); [done|]. intros o Ho. by apply add_reward_fits.
Qed.

Lemma merge_fits d d' : delta_fits d → delta_fits d' → delta_fits (ExpirySettle.merge d d').
Proof.
  intros [Hr Hf] [Hr' Hf']. split; [|by apply Forall_app]. by apply (fold_rewards_fit fst (λ kv, kv.2.1) (λ kv, kv.2.2)).
Qed.

Section Settle.
  Context `{DupSort} (v : ExpiryView) (config : WalkConfig) (Hp : fee_params_ok (wc_fees config)).

(** The transactions of the node's tables. *)
Record view_fits : Prop := {
  vf_tree : ∀ hash b ledger, v_tree v !! hash = Some b → Forall tx_fits (lb_ledger_txs b ledger);
  vf_txs : ∀ id tx, v_txs v !! id = Some tx → tx_fits tx
}.
Context (Hv : view_fits).

Lemma headers_fit hash ledger : yields (Forall tx_fits) (ledger_tx_headers_of_block v hash ledger).
Proof.
  unfold ledger_tx_headers_of_block. destruct (v_tree v !! hash) as [b|] eqn:Hb.
  - unfold ledger_tx_headers_of_sealed_block. destruct (ledger_tx_ids_in _ _); [|apply yields_err]. res_simpl. destruct (negb _); [apply yields_err|]. apply yields_ok. by apply (vf_tree Hv hash).
  - destruct (v_headers v !! hash); [|apply yields_err]. res_simpl. destruct (ledger_tx_ids_in _ _) as [ids|]; [|apply yields_err]. res_simpl.
    induction ids as [|id ids IH]; [by apply yields_ok|]. cbn [mapM]. apply (yields_bind tx_fits); [apply yields_ok_or; apply Hv|].
    intros tx Htx. eapply yields_bind; [exact IH|]. intros txs Htxs. apply yields_ok. by constructor.
Qed.

Lemma process_block_fit hash base range e l ledger slots : yields (λ r, Forall tx_fits r.2) (process_block v config hash base range e l ledger slots).
Proof.
  unfold process_block. eapply yields_bind; [apply headers_fit|]. intros txs Htxs. eapply yields_bind; [apply yields_any|]. intros m _. apply yields_ok. apply Forall_forall. intros tx [_ Htx]%list_elem_of_filter. by apply (proj1 (Forall_forall _ _) Htxs).
Qed.

Lemma middle_fit middle range ledger slots acc : Forall tx_fits acc.2 → yields (λ r, Forall tx_fits r.2) (process_middle_blocks v config middle range ledger slots acc).
Proof.
  revert acc. induction middle as [|[hash base] middle IH]; intros acc Hacc; cbn [process_middle_blocks]; [by apply yields_ok|].
  eapply yields_bind; [apply process_block_fit|]. intros r Hr. apply IH. by apply Forall_app.
Qed.

Lemma by_id_fit txs : Forall tx_fits txs → Forall tx_fits (by_id txs).*2.
Proof.
  intros Htxs. unfold by_id. assert (Forall (λ kv : Z * DataTransactionHeader, tx_fits kv.2) []) as Hm by constructor. revert Hm.
  generalize ([] : BTreeMap DataTransactionHeader). induction Htxs as [|tx txs Htx _ IH]; intros m Hm; cbn [foldl]; [by apply Forall_fmap|].
  apply IH. by apply btree_update_Forall.
Qed.

Lemma collect_fit range ledger : yields (λ r, Forall tx_fits r.2.*2) (collect_tx_to_miners_from_range v config range ledger).
Proof.
  unfold collect_tx_to_miners_from_range. eapply yields_bind; [apply process_block_fit|]. intros e He. eapply yields_bind; [by apply middle_fit|]. intros m Hm.
  apply (yields_bind (λ r, Forall tx_fits r.2)); [case_match; [by apply yields_ok|apply process_block_fit]|]. intros l Hl.
  destruct (negb _); [apply yields_err|]. res_simpl. apply yields_ok. cbn [snd]. apply by_id_fit. rewrite !Forall_app. done.
Qed.

Lemma sort_txs_fit txs : Forall tx_fits txs → Forall tx_fits (sort_txs txs).
Proof.
  assert (∀ tx l, tx_fits tx → Forall tx_fits l → Forall tx_fits (insert_tx tx l)) as Hi.
  { intros tx l Htx Hl. induction Hl as [|x l Hx Hl IH]; cbn [insert_tx]; [by constructor|]. destruct (_ <=? _); rewrite !Forall_cons; auto. }
  intros Htxs. unfold sort_txs. induction Htxs; cbn [foldr]; [constructor|by apply Hi].
Qed.

Lemma term_fee_u256 tx : tx_fits tx → u256 (th_term_fee tx).
Proof. intros (Ht & Hf & Hs). split; [done|]. destruct (th_perm_fee tx) as [f|]; cbn in Hs; [specialize (Hf f eq_refl)|]; lia. Qed.

Lemma distribution_fits c miners : u256 (term_fee_treasury c) → yields (Forall u256) (distribution_on_expiry c miners).
Proof.
  intros Hc. unfold distribution_on_expiry. destruct (bool_decide _); [apply yields_err|]. res_simpl. destruct (negb _); [apply yields_err|]. res_simpl.
  set (base := base_share _ _). assert (u256 base) as Hb.
  { unfold u256, base, base_share in *. destruct (length miners) as [|n]; [change (Z.of_nat 0) with 0; rewrite Zdiv_0_r; lia|].
    split; [apply Z.div_pos; lia|]. apply Z.div_lt_upper_bound; [lia|]. nia. }
  apply (yields_bind (Forall u256)).
  - destruct (Z.ltb_spec 0 (remainder (term_fee_treasury c) (length miners))); [|apply yields_ok; by apply Forall_replicate].
    destruct (length miners); [apply yields_panic|]. cbn. apply yields_ok. constructor; [|by apply Forall_replicate]. unfold u256, saturating_add in *. lia.
  - intros l Hl. destruct (negb _); [apply yields_err|by apply yields_ok].
Qed.

Lemma pay_miners_fit es tx miners rewards : tx_fits tx → Forall (λ kv : Z * (Z * Z), 0 ≤ kv.2.1 < 2 ^ 256) rewards →
  yields (Forall (λ kv : Z * (Z * Z), 0 ≤ kv.2.1 < 2 ^ 256)) (pay_miners config es tx miners rewards).
Proof.
  intros Htx Hr. unfold pay_miners. case_bool_decide; [by apply yields_ok|]. pose proof (term_fee_u256 tx Htx) as Hu.
  apply (yields_bind (λ c, u256 (term_fee_treasury c))).
  { apply yields_map_err. intros c Hc. destruct (TermFeeCharges_ok _ _ _ Hu (fp_inclusion _ Hp) Hc) as (? & ? & ?). unfold u256 in *. lia. }
  intros c Hc. apply (yields_bind (Forall u256)); [by apply yields_map_err, distribution_fits|].
  intros fees Hfees. apply yields_ok.
  apply (fold_rewards_fit (λ mf, resolve_reward_address es mf.1) snd (λ _, id_from_le_bytes (th_id tx))); [|done].
  apply Forall_forall. intros [a x] Hx%elem_of_zip_r. by apply (proj1 (Forall_forall _ _) Hfees).
Qed.

Lemma aggregate_fit es txs tx_to_miners expect promoted delta : Forall tx_fits txs → delta_fits delta →
  yields delta_fits (aggregate_txs config es txs tx_to_miners expect promoted delta).
Proof.
  intros Htxs. revert delta. induction Htxs as [|tx txs Htx _ IH]; intros delta [Hr Hf]; cbn [aggregate_txs]; [by apply yields_ok|].
  eapply yields_bind; [apply yields_any|]. intros miners _. eapply yields_bind; [by apply pay_miners_fit|]. intros rewards Hrewards.
  apply (yields_bind (Forall (λ r, 0 ≤ r.1.2 < 2 ^ 256))).
  - destruct expect; [|by apply yields_ok]. unfold refund_of. destruct (bool_decide _); [by apply yields_ok|].
    destruct Htx as (Ht & Hpf & Hs). destruct (th_perm_fee tx) as [f|]; [|apply yields_err]. res_simpl. apply yields_ok. cbn in Hs. specialize (Hpf f eq_refl).
    constructor; [cbn; lia|constructor].
  - intros refund Hrefund. apply IH. split; [done|]. by apply Forall_app.
Qed.

Lemma calculate_fit es parent h ledger expect total cas : yields delta_fits (calculate_expired_ledger_fees v config es parent h ledger expect total cas).
Proof.
  unfold calculate_expired_ledger_fees. eapply yields_bind; [apply yields_any|]. intros _ _. eapply yields_bind; [apply yields_any|]. intros parts _.
  eapply yields_bind; [apply yields_any|]. intros slots _. destruct (bool_decide _); [by apply yields_ok|]. eapply yields_bind; [apply yields_any|]. intros [range|] _; [|by apply yields_ok].
  eapply yields_bind; [apply collect_fit|]. intros [m headers] Hh. eapply yields_bind; [apply yields_any|]. intros promoted _.
  apply aggregate_fit; [by apply sort_txs_fit|done].
Qed.

Lemma calculate_all_fit es parent h cas cas' totals : yields delta_fits (calculate_all_expired_ledger_fees v config es parent h cas cas' totals).
Proof.
  unfold calculate_all_expired_ledger_fees. eapply yields_bind; [apply calculate_fit|]. intros submit Hs. destruct cas'; [|by apply yields_ok].
  eapply yields_bind; [apply calculate_fit|]. intros one Ho. eapply yields_bind; [apply calculate_fit|]. intros thirty Ht. apply yields_ok. by repeat apply merge_fits.
Qed.
End Settle.

(** * A payload against the expected shadow transactions: what the match accepts, and how the
    accepted payload executes. *)

Definition expected_pair (m : ShadowMetadata) : ShadowTransaction * Z := (md_shadow_tx m, md_transaction_fee m).

Lemma match_ok actual expected sh : validate_shadow_transactions_match actual expected sh = Ok () ↔
  actual = Ok <$> (expected_pair <$> expected) ∧ Forall (λ e, hash_of (md_shadow_tx e) = sh) expected.
Proof.
  revert expected. induction actual as [|a actual IH]; intros [|e expected]; cbn [validate_shadow_transactions_match]; rewrite ?fmap_cons; [done|naive_solver..|].
  destruct a as [[stx tip]| |]; cbn [mbind result_bind fst snd]; [|naive_solver..]. rewrite Forall_cons. unfold expected_pair at 1. split.
  - intros ([] & Hh%guard_err_ok%negb_false_iff%bool_decide_eq_true & H)%bind_ok. apply bind_ok in H as ([] & Hp%guard_err_ok%negb_false_iff%bool_decide_eq_true & H).
    apply bind_ok in H as ([] & Ht%guard_err_ok%negb_false_iff%Z.eqb_eq & H). apply IH in H as [-> Hf]. subst. done.
  - intros [[= -> -> Hact] [Hh Hf]]. rewrite !bool_decide_eq_true_2, Z.eqb_refl by done. cbn [negb guard_err mbind result_bind]. by apply IH.
Qed.

Section Payload.
  Context (SHADOW_TX_DESTINATION_ADDR : list byte) (miner_address : Z).

Definition detects (tx : TxEnv) : result ShadowTxError (option ShadowTransaction) :=
  detect_and_decode_from_parts SHADOW_TX_DESTINATION_ADDR (tx_kind tx) (tx_data tx).
Definition plain (tx : TxEnv) : Prop := detects tx = Ok None.
(** A transaction of the miner that holds a shadow transaction with its tip. *)
Definition holds (tx : TxEnv) (s : ShadowTransaction * Z) : Prop := detects tx = Ok (Some s.1) ∧ default 0 (gas_priority_fee tx) = s.2.
Definition signed_holds (tx : SignedTx) (s : ShadowTransaction * Z) : Prop := holds (stx_env tx) s ∧ stx_signer tx = Some miner_address.

Notation actual txs seen := (actual_shadow_tx miner_address <$> extract_leading_shadow_txs SHADOW_TX_DESTINATION_ADDR txs seen).

Lemma extract_after txs ss : actual txs true = Ok <$> ss ↔ ss = [] ∧ Forall (λ tx, plain (stx_env tx)) txs.
Proof.
  induction txs as [|tx txs IH]; cbn [extract_leading_shadow_txs]; [destruct ss; naive_solver|]. rewrite Forall_cons. unfold plain, detects.
  destruct (detect_and_decode_from_parts _ _ _) as [[stx|]| |]; cbn; [destruct ss; naive_solver|rewrite IH; naive_solver|destruct ss; naive_solver..].
Qed.

(** The leading shadow transactions, all of the miner, and no shadow transaction after them. *)
Lemma extract_spec txs ss : actual txs false = Ok <$> ss ↔
  ∃ shadow rest, txs = shadow ++ rest ∧ Forall2 signed_holds shadow ss ∧ Forall (λ tx, plain (stx_env tx)) rest.
Proof.
  revert ss. induction txs as [|tx txs IH]; intros ss; cbn [extract_leading_shadow_txs].
  { split; [destruct ss; [|done]; exists [], []; by repeat constructor|]. intros (shadow & rest & Heq & Hs & _). destruct shadow; [|done]. by inversion Hs. }
  destruct (detect_and_decode_from_parts _ _ _) as [[stx|]| |] eqn:E.
  - rewrite fmap_cons. split.
    + destruct ss as [|s ss]; [done|]. rewrite fmap_cons. intros [= Hs Hrest]. apply IH in Hrest as (shadow & rest & -> & Hss & Hr).
      exists (tx :: shadow), rest. split_and!; [done| |done]. constructor; [|done]. cbn [actual_shadow_tx mbind result_bind] in Hs.
      apply bind_ok in Hs as (signer & Hsig & Hs). apply bind_ok in Hs as ([] & Hm%guard_err_ok%negb_false_iff%Z.eqb_eq & [= <-]).
      destruct (stx_signer tx) as [a|] eqn:Ea; [|done]. injection Hsig as ->. subst. by repeat split.
    + intros (shadow & rest & Heq & Hs & Hr). destruct shadow as [|tx' shadow].
      { cbn in Heq. subst rest. apply Forall_cons in Hr as [Hp _]. unfold plain, detects in Hp. congruence. }
      injection Heq as <- ->. inversion Hs as [|? s ? ss' [[Hd Ht] Hsig] Hss]; subst. rewrite fmap_cons. f_equal; [|apply IH; by exists shadow, rest].
      unfold detects in Hd. rewrite E in Hd. injection Hd as ->. cbn. rewrite Hsig. cbn. rewrite Z.eqb_refl, Ht. by destruct s.
  - rewrite extract_after. split.
    + intros [-> Hf]. exists [], (tx :: txs). split_and!; [done|constructor|by constructor].
    + intros (shadow & rest & Heq & Hs & Hr). destruct Hs as [|tx' s shadow ss [[Hd _] _] _]; [cbn in Heq; subst; by apply Forall_cons in Hr as [_ ?]|].
      injection Heq as <- _. unfold detects in Hd. congruence.
  - split; [by destruct ss|]. intros (shadow & rest & Heq & Hs & Hr). destruct Hs as [|tx' s shadow ss [[Hd _] _] _]; cbn in Heq; simplify_eq;
      [apply Forall_cons in Hr as [Hd _]|]; unfold plain, detects in Hd; congruence.
  - split; [by destruct ss|]. intros (shadow & rest & Heq & Hs & Hr). destruct Hs as [|tx' s shadow ss [[Hd _] _] _]; cbn in Heq; simplify_eq;
      [apply Forall_cons in Hr as [Hd _]|]; unfold plain, detects in Hd; congruence.
Qed.
End Payload.

(** ** Execution *)

(** What the EVM does with a transaction that is not a shadow transaction: balances stay in
    range and no value is made. *)
Class RevmConserves `{RevmState} (SHADOW_TX_DESTINATION_ADDR : list byte) (transact : Accounts → TxEnv → result EVMError EvmState) : Prop :=
  transact_conserves : ∀ db tx st, accounts_ok db → plain SHADOW_TX_DESTINATION_ADDR tx → transact db tx = Ok st →
    accounts_ok (db_commit db st) ∧ supply (db_commit db st) ≤ supply db.

Section Exec.
  Context `{RevmState} (SHADOW_TX_DESTINATION_ADDR : list byte) (beneficiary : Z).
  Context (transact : Accounts → TxEnv → result EVMError EvmState) `{!RevmConserves SHADOW_TX_DESTINATION_ADDR transact}.
  Notation execute := (execute_txs SHADOW_TX_DESTINATION_ADDR beneficiary transact).

Lemma transact_raw_checks db tx st st' res : transact_raw db SHADOW_TX_DESTINATION_ADDR beneficiary transact tx st = (st', Ok res) →
  blob_hashes tx = [] ∧ max_fee_per_blob_gas tx = 0 ∧ tx_type_id tx ≠ EIP4844_TX_TYPE_ID.
Proof.
  unfold transact_raw. destruct (negb _ || negb _ || _) eqn:E; [done|]. intros _. apply orb_false_iff in E as [[H1 H2]%orb_false_iff H3%Z.eqb_neq].
  apply negb_false_iff, bool_decide_eq_true in H1. apply negb_false_iff, Z.eqb_eq in H2. done.
Qed.

Lemma holds_carries tx s : holds SHADOW_TX_DESTINATION_ADDR tx s → blob_hashes tx = [] ∧ max_fee_per_blob_gas tx = 0 ∧ tx_type_id tx ≠ EIP4844_TX_TYPE_ID →
  carries SHADOW_TX_DESTINATION_ADDR tx s.
Proof.
  intros [Hd Ht] (H1 & H2 & H3). unfold carries. split_and!; try done. unfold detects in Hd. destruct (tx_kind tx); [by eexists|]. unfold detect_and_decode_from_parts in Hd. done.
Qed.

(** Shadow transactions run first, each from an empty state. *)
Lemma execute_prefix db txs ss rest db' : accounts_ok db → Forall2 (holds SHADOW_TX_DESTINATION_ADDR) txs ss → Forall (shadow_ok beneficiary) ss →
  execute (txs ++ rest) ∅ db = Ok db' →
  Forall2 (carries SHADOW_TX_DESTINATION_ADDR) txs ss ∧ ∃ db1, execute txs ∅ db = Ok db1 ∧ execute rest ∅ db1 = Ok db'.
Proof.
  intros Hdb Hh. revert db Hdb. induction Hh as [|tx s txs ss Hs _ IH]; intros db Hdb Hok; [split; [constructor|by eexists]|].
  apply Forall_cons in Hok as [Hok Hoks]. cbn [app execute_txs]. destruct (transact_raw db _ beneficiary transact tx ∅) as [st' [res| |]] eqn:E; [|done..].
  pose proof (holds_carries tx s Hs (transact_raw_checks _ _ _ _ _ E)) as Hc. rewrite (transact_shadow _ beneficiary transact db tx s Hc Hok) in E.
  destruct Hok as [Htip Hamt]. destruct (run_shadow_tx_spec db Hdb beneficiary s.1 s.2 Htip Hamt) as [(Hpay & st & Hrun & Hb)|(_ & e & Hrun)]; rewrite Hrun in E; [|done].
  injection E as <- <-. intros Hrest. apply IH in Hrest as [Hcs Hrest]; [by split; [constructor|]| |done]. intros a. rewrite Hb. by apply payable_range.
Qed.

Lemma transact_raw_plain db tx st' res : plain SHADOW_TX_DESTINATION_ADDR tx → transact_raw db SHADOW_TX_DESTINATION_ADDR beneficiary transact tx ∅ = (st', Ok res) →
  st' = ∅ ∧ transact db tx = Ok res.
Proof.
  unfold plain, detects, transact_raw, process_shadow_tx. intros Hp. destruct (negb _ || negb _ || _); [done|].
  destruct (tx_kind tx); [rewrite Hp|]; by intros [= <- ->].
Qed.

Lemma execute_plain db txs db' : accounts_ok db → Forall (plain SHADOW_TX_DESTINATION_ADDR) txs → execute txs ∅ db = Ok db' →
  accounts_ok db' ∧ supply db' ≤ supply db.
Proof.
  intros Hdb Hp. revert db Hdb. induction Hp as [|tx txs Htx _ IH]; intros db Hdb; cbn [execute_txs]; [intros [= <-]; split; [done|lia]|].
  destruct (transact_raw db _ beneficiary transact tx ∅) as [st' [res| |]] eqn:E; [|done..]. apply transact_raw_plain in E as [-> E]; [|done].
  destruct (transact_conserves db tx res Hdb Htx E) as [Hok Hle]. intros Hrun. destruct (IH _ Hok Hrun). split; [done|lia].
Qed.
End Exec.
