(* ===== verification/TreasuryTheorems.v ===== *)
(** The treasury of accepted blocks: the generator's verdict, the match of a payload with the
    expected shadow transactions, and the conservation of money along a chain. *)

From S2P Require Import SimpleRng TreeHash StateErr Codec Packing Merkle Pricing FeeSplit DataLedger EpochSnapshot CommitmentSnapshot EpochInv EpochSlots EpochCommit LedgerExpiry BlockIndex BlockIndexFacts IndexFile Poa BTree ExpiryWalk ExpirySettle ShadowTx ShadowExec ShadowGen ShadowValidate TreasuryFacts ShadowTyped Prelude.

(** ** Payouts *)

Definition delta_total (d : LedgerExpiryBalanceDelta) : Z :=
  sum_Z ((λ kv, kv.2.1) <$> reward_balance_increment d) + sum_Z ((λ r, r.1.2) <$> user_perm_fee_refunds d).
Definition events_total (events : list RefundEvent) : Z := sum_Z (re_amount <$> events).

Section Payouts.
  Context (gi : GenInput).
  Notation sh := (gi_solution_hash gi).

(** An increment without a tip. *)
Lemma increment_generated p i : (∀ b, change_of p b = Increment (of_be_bytes (bi_target i)) (bi_amount i)) → shaped p → 0 ≤ bi_amount i < 2 ^ 256 →
  generated sh (mkMetadata (new_v1 p sh) 0) ∧ evm_net (mkMetadata (new_v1 p sh) 0) = bi_amount i.
Proof.
  intros Hc Hs Ha. unfold evm_net. cbn [md_shadow_tx new_v1 packet_of]. rewrite Hc. split; [|done]. split; unfold tip_ok, amount_ok; cbn [md_shadow_tx md_transaction_fee new_v1 packet_of hash_of];
    rewrite ?Hc; cbn [change_amount]; [lia|done|done|done].
Qed.

Lemma expired_payouts d : delta_fits d →
  Forall (generated sh) (create_expired_ledger_shadow_txs gi d) ∧
  Forall (pays_out pays_expired SnapshotTreasuryUnderflow) (create_expired_ledger_shadow_txs gi d) ∧
  sum_Z (evm_net <$> create_expired_ledger_shadow_txs gi d) = delta_total d.
Proof.
  intros [Hr Hf]. unfold create_expired_ledger_shadow_txs, delta_total. rewrite !Forall_app, fmap_app, sum_Z_app, !Forall_fmap, <- !list_fmap_compose.
  split_and!; first [eapply Forall_impl; [done|]; intros [a [x h]] Hx; cbn in Hx|eapply Forall_impl; [done|]; intros [[id x] a] Hx; cbn in Hx|idtac].
  - by apply (increment_generated (PTermFeeReward (mkBalanceIncrement x (address_bytes a) (hash_bytes h))) (mkBalanceIncrement x (address_bytes a) (hash_bytes h))).
  - by apply (increment_generated (PPermFeeRefund (mkBalanceIncrement x (address_bytes a) (hash_bytes id))) (mkBalanceIncrement x (address_bytes a) (hash_bytes id))).
  - split; [done|apply Hx].
  - split; [done|apply Hx].
  - f_equal; f_equal; apply list_fmap_ext; [by intros ? [? [? ?]]|by intros ? [[? ?] ?]].
Qed.

Lemma publish_payouts rewards : rewards_ok rewards →
  Forall (generated sh) (create_publish_shadow_txs gi rewards) ∧
  Forall (pays_out pays_publish TreasuryArithmetic) (create_publish_shadow_txs gi rewards) ∧
  sum_Z (evm_net <$> create_publish_shadow_txs gi rewards) = rewards_total rewards.
Proof.
  intros [_ Hr]. unfold create_publish_shadow_txs, rewards_total, btree_sum. rewrite !Forall_fmap, <- !list_fmap_compose.
  split_and!; [eapply Forall_impl; [done|]; intros [a [x h]] Hx; cbn in Hx..|].
  - by apply (increment_generated (PIngressProofReward (mkBalanceIncrement x (address_bytes a) (hash_bytes h))) (mkBalanceIncrement x (address_bytes a) (hash_bytes h))).
  - split; [done|apply Hx].
  - f_equal. apply list_fmap_ext. by intros ? [? [? ?]].
Qed.

Lemma refund_payouts unpledges unstakes : Forall event_fits unpledges → Forall event_fits unstakes →
  Forall (generated sh) (create_commitment_refund_shadow_txs gi unpledges unstakes) ∧
  Forall (pays_out pays_refund SnapshotTreasuryUnderflow) (create_commitment_refund_shadow_txs gi unpledges unstakes) ∧
  sum_Z (evm_net <$> create_commitment_refund_shadow_txs gi unpledges unstakes) = events_total unpledges + events_total unstakes.
Proof.
  intros Hu Hs. unfold create_commitment_refund_shadow_txs, events_total. rewrite !Forall_app, fmap_app, sum_Z_app, !Forall_fmap, <- !list_fmap_compose.
  split_and!; first [eapply Forall_impl; [done|]; intros e He|done].
  - by apply (increment_generated (PUnpledgeRefund (refund_increment e)) (refund_increment e)).
  - by apply (increment_generated (PUnstakeRefund (refund_increment e)) (refund_increment e)).
  - split; [done|apply He].
  - split; [done|apply He].
Qed.
End Payouts.

(** ** The generator *)

Section Generator.
  Context {P : Type} (recover_signer : P → option Z).
  Context (gi : GenInput) (publish_ledger : PublishLedgerWithTxs P) (b : Z) (delta : LedgerExpiryBalanceDelta).
  Context (unpledges unstakes : list RefundEvent) (es : EpochSnapshot).

(** Amounts of their types, and few enough promotions for their pools to add up. *)
Record generator_fits : Prop := {
  gf_inputs : inputs_fit gi;
  gf_treasury : 0 ≤ b < 2 ^ 256;
  gf_publish : Forall tx_fits (pl_txs publish_ledger);
  gf_delta : delta_fits delta;
  gf_unpledges : Forall event_fits unpledges;
  gf_unstakes : Forall event_fits unstakes;
  gf_promotions : Z.of_nat (length (pl_txs publish_ledger)) * Z.max 1 (number_of_ingress_proofs_total (gi_config gi)) < PRECISION_SCALE
}.
Context (Hfit : generator_fits).

Definition full_credit : bool := bool_decide (is_Some (FeeSplit.delta_for_block (gi_config gi) (gi_block_timestamp_secs gi))).
Notation ingress_rewards := (accumulate_ingress_rewards_for_init recover_signer publish_ledger (gi_config gi) (gi_block_timestamp_secs gi) es).
Notation pool := (pool_of (gi_config gi) (gi_block_timestamp_secs gi)).
Notation promotions := (pl_txs publish_ledger).

(** What promotions pay: nothing without proofs, and the pools otherwise. *)
Definition promotion_pools : Z := match pl_proofs publish_ledger with Some (_ :: _) => sum_Z (pool <$> promotions) | _ => 0 end.

Lemma pools_fit : 0 ≤ sum_Z (pool <$> promotions) < 2 ^ 256.
Proof.
  destruct Hfit as [[Hp _ _ _ _ _] _ Hpub _ _ _ Hn]. set (m := Z.max 1 (number_of_ingress_proofs_total (gi_config gi))) in *.
  assert (0 ≤ sum_Z (pool <$> promotions) ∧ sum_Z (pool <$> promotions) * PRECISION_SCALE ≤ Z.of_nat (length promotions) * (m * 2 ^ 256)) as [Hs Hle].
  { clear Hn. induction Hpub as [|tx txs Htx _ [IHs IH]]; [done|]. rewrite fmap_cons, sum_Z_cons. cbn [length].
    pose proof (pool_of_nonneg _ Hp (gi_block_timestamp_secs gi) tx Htx). pose proof (pool_of_bound _ Hp (gi_block_timestamp_secs gi) tx Htx) as Hb. fold m in Hb. lia. }
  split; [done|]. apply (Z.mul_lt_mono_pos_r PRECISION_SCALE); [done|]. nia.
Qed.

Lemma ingress_cases : (∃ rewards, ingress_rewards = Ok rewards ∧ rewards_ok rewards ∧ rewards_total rewards = promotion_pools) ∨ ingress_rewards = Err Structural.
Proof.
  unfold accumulate_ingress_rewards_for_init, promotion_pools. pose proof pools_fit as Hpools. assert (rewards_ok []) as Hnil by (split; constructor).
  destruct (pl_proofs publish_ledger) as [[|pf proofs]|]; cbn [default from_option id].
  - left. by exists [].
  - rewrite bool_decide_eq_false_2 by done.
    destruct (accumulate_spec recover_signer _ (if_params _ (gf_inputs Hfit)) (gi_block_timestamp_secs gi) es (pf :: proofs) 0 promotions [] Hnil (gf_publish Hfit)) as [(m & -> & Hm & Ht)|[->|[_ Hge]]];
      [left; by exists m|by right|]. change (rewards_total []) with 0 in Hge. lia.
  - left. by exists [].
Qed.

Definition generator_of (rewards : BTreeMap (Z * Z)) : ShadowTxGenerator :=
  mkGenerator gi full_credit
    (mkGenState b Header 0 (Ok <$> create_publish_shadow_txs gi rewards) (Ok <$> create_expired_ledger_shadow_txs gi delta)
       (Ok <$> create_commitment_refund_shadow_txs gi unpledges unstakes)).

Lemma new_eq : new recover_signer gi publish_ledger b delta unpledges unstakes es =
  (_ ← guard_err (promoted_and_refunded publish_ledger delta) SnapshotInvariant; rewards ← ingress_rewards; Ok (generator_of rewards)).
Proof.
  unfold new. destruct (guard_err _ _); [|done..]. cbn [mbind result_bind]. destruct ingress_rewards as [rewards| |]; [|done..]. cbn [mbind result_bind].
  unfold generator_of. f_equal. f_equal. f_equal; f_equal.
  - case_bool_decide as Hr; [by rewrite Hr|done].
  - unfold create_expired_ledger_shadow_txs. destruct (reward_balance_increment delta), (user_perm_fee_refunds delta); done.
Qed.

(** The transactions, in the order of the phases, for the bills of the block's own. *)
Definition block_txs (bills : list (ShadowMetadata * Z)) (rewards : BTreeMap (Z * Z)) : list ShadowMetadata :=
  bills.*1 ++ create_expired_ledger_shadow_txs gi delta ++ create_publish_shadow_txs gi rewards ++ create_commitment_refund_shadow_txs gi unpledges unstakes.

Lemma collect_of bills rewards : rewards_ok rewards → rewards_total rewards = promotion_pools → block_bills gi full_credit = Ok <$> bills →
  collect (generator_of rewards) =
  verdict b (sum_Z bills.*2) (delta_total delta) promotion_pools (events_total unpledges + events_total unstakes) (block_txs bills rewards).
Proof.
  intros Hr Ht Hb. destruct Hfit as [Hi Htr _ Hd Hu Hs _]. destruct (expired_payouts gi delta Hd) as (_ & He & <-). destruct (publish_payouts gi rewards Hr) as (_ & Hp & Hsum).
  destruct (refund_payouts gi unpledges unstakes Hu Hs) as (_ & Href & <-). rewrite <- Ht, <- Hsum. by apply collect_verdict.
Qed.

Lemma collect_of_inv rewards out : collect (generator_of rewards) = Ok out → ∃ bills, block_bills gi full_credit = Ok <$> bills.
Proof. destruct Hfit as [Hi Htr _ _ _ _ _]. by apply (collect_bills gi full_credit Hi b Htr). Qed.

Lemma block_txs_generated bills rewards : rewards_ok rewards → block_bills gi full_credit = Ok <$> bills → Forall (generated (gi_solution_hash gi)) (block_txs bills rewards).
Proof.
  intros Hr Hb. destruct Hfit as [Hi Htr _ Hd Hu Hs _]. unfold block_txs. rewrite !Forall_app. split_and!.
  - by apply (bills_balance gi _ _ (block_bills_burns gi full_credit Hi bills Hb)).
  - by apply expired_payouts.
  - by apply publish_payouts.
  - by apply refund_payouts.
Qed.

(** ** No panic *)

Lemma term_charges_no_panic term_fee : TermFeeCharges_new term_fee (gi_config gi) ≠ Panic.
Proof.
  unfold TermFeeCharges_new. assert (∀ x y, price (mul_div x y PRECISION_SCALE) ≠ Panic) as Hm.
  { intros x y. apply map_err_no_panic, bind_no_panic; [apply ok_or_no_panic|]. intros a. unfold safe_div. by destruct (_ =? _). }
  apply bind_no_panic; [apply Hm|]. intros x. auto with no_panic.
Qed.

Lemma submit_bill_no_panic tx : tx_fits tx → submit_bill gi full_credit tx ≠ Panic.
Proof.
  intros Htx. unfold submit_bill. apply bind_no_panic; [apply map_err_no_panic, term_charges_no_panic|]. intros tc.
  assert (perm_charges_of gi tx ≠ Panic) as Hpc.
  { unfold perm_charges_of. destruct (th_perm_fee tx); [|done]. apply bind_no_panic; [|done]. apply map_err_no_panic, bind_no_panic; [apply pool_no_panic|]. intros. apply publish_charges_no_panic. }
  destruct (perm_charges_of gi tx) as [pc| |] eqn:E; [|done..]. cbn [mbind result_bind]. apply bind_no_panic; [unfold create_submit_shadow_tx; auto with no_panic|]. intros m.
  by destruct (perm_credit_total gi full_credit (if_params _ (gf_inputs Hfit)) tx pc Htx E) as [c ->].
Qed.

Lemma term_bill_no_panic tx : term_bill gi tx ≠ Panic.
Proof.
  unfold term_bill. apply bind_no_panic; [apply map_err_no_panic, term_charges_no_panic|]. intros tc. unfold create_submit_shadow_tx. auto with no_panic.
Qed.

Lemma run_billed_no_panic steps rs x acc : x < 2 ^ 256 → Forall2 billed steps rs → Forall (λ r, r ≠ Panic) rs → run_steps steps x acc ≠ Panic.
Proof.
  intros Hx Hs. revert x acc Hx. induction Hs as [|s r steps rs Hs _ IH]; intros x acc Hx; [done|]. intros [Hr Hrs]%Forall_cons. cbn [run_steps]. rewrite (Hs x Hx).
  destruct r as [[m c]| |]; [|done..]. cbn [mbind result_bind]. unfold step_bind, credit, checked_add. cbn [fst snd]. destruct (Z.ltb_spec (x + c) (2 ^ 256)); [|done]. by apply IH.
Qed.

Lemma collect_no_panic rewards : rewards_ok rewards → rewards_total rewards = promotion_pools → collect (generator_of rewards) ≠ Panic.
Proof.
  intros Hr Ht Hc. assert (run_steps (credit_steps gi full_credit) b [] ≠ Panic) as Hnp.
  { destruct Hfit as [Hi Htr _ _ _ _ _]. apply (run_billed_no_panic _ (block_bills gi full_credit)); [lia|by apply credit_steps_billed|]. unfold block_bills.
    constructor; [done|]. rewrite !Forall_app, !Forall_fmap. split_and!; [by apply Forall_forall|eapply Forall_impl; [apply (if_submit _ Hi)|]; intros; by apply submit_bill_no_panic|].
    apply Forall_forall. intros tx _. apply term_bill_no_panic. }
  pose proof Hc as Hc'. unfold generator_of in Hc'. rewrite collect_steps, gen_steps_credits, run_steps_app in Hc'.
  destruct (run_steps (credit_steps gi full_credit) b []) as [out| |] eqn:E; [|done..].
  destruct (run_billed_inv _ _ b [] out (proj2 (gf_treasury Hfit)) (credit_steps_billed gi full_credit (gf_inputs Hfit)) E) as [bills Hb].
  rewrite (collect_of bills rewards Hr Ht Hb) in Hc. unfold verdict in Hc. repeat case_match; done.
Qed.

(** What a run that ends leaves. *)
Lemma new_collect_ok txs b' : (g ← new recover_signer gi publish_ledger b delta unpledges unstakes es; collect g) = Ok (txs, b') →
  0 ≤ b' < 2 ^ 256 ∧ Forall (generated (gi_solution_hash gi)) txs ∧
  b' + sum_Z (evm_net <$> txs) = b + gi_treasury_reward_share gi + gi_reward_amount gi - block_burn gi full_credit.
Proof.
  rewrite new_eq. destruct (promoted_and_refunded publish_ledger delta); [done|]. cbn [guard_err mbind result_bind].
  destruct ingress_cases as [(rewards & -> & Hr & Ht)| ->]; [|done]. cbn [mbind result_bind].
  intros Hc. destruct (collect_of_inv rewards _ Hc) as [bills Hb]. pose proof (block_txs_generated bills rewards Hr Hb) as Hg.
  rewrite (collect_of bills rewards Hr Ht Hb) in Hc. pose proof Hfit as [Hi Htr _ Hd Hu Hs _].
  destruct (expired_payouts gi delta Hd) as (_ & He & _). destruct (publish_payouts gi rewards Hr) as (_ & Hp & _). destruct (refund_payouts gi unpledges unstakes Hu Hs) as (_ & Href & _).
  assert (txs = block_txs bills rewards) as -> by (unfold verdict in Hc; by repeat case_match; simplify_eq).
  rewrite <- (collect_of bills rewards Hr Ht Hb) in Hc. destruct (collect_conserves gi full_credit Hi b Htr _ _ _ He Hp Href _ _ Hc) as [? ?]. done.
Qed.

Lemma new_collect_no_panic : (g ← new recover_signer gi publish_ledger b delta unpledges unstakes es; collect g) ≠ Panic.
Proof.
  rewrite new_eq. destruct (promoted_and_refunded publish_ledger delta); [done|]. cbn [guard_err mbind result_bind].
  destruct ingress_cases as [(rewards & -> & Hr & Ht)| ->]; [|done]. by apply collect_no_panic.
Qed.

(** C16: The iterator over a block's shadow transactions, run to its end, never panics.  It
    succeeds exactly when no promoted transaction is also refunded, the ingress rewards and the
    charges of the block's transactions can be computed, the treasury with all the credits fits
    in 256 bits, and it covers the expired slots, then the ingress rewards, then the refunds of
    commitments; the transactions are then those of the phases in their order.  The new balance
    with what the transactions leave in the accounts is the old one with the whole block
    reward, less what is charged to no one's credit. *)
Theorem generator_verdict :
  let r := (g ← new recover_signer gi publish_ledger b delta unpledges unstakes es; collect g) in
  r ≠ Panic ∧
  ∀ txs b',
    (r = Ok (txs, b') ↔ promoted_and_refunded publish_ledger delta = false ∧
       ∃ rewards bills, ingress_rewards = Ok rewards ∧ block_bills gi full_credit = Ok <$> bills ∧
         verdict b (sum_Z bills.*2) (delta_total delta) promotion_pools (events_total unpledges + events_total unstakes) (block_txs bills rewards) = Ok (txs, b')) ∧
    (r = Ok (txs, b') → 0 ≤ b' < 2 ^ 256 ∧ Forall (generated (gi_solution_hash gi)) txs ∧
       b' + sum_Z (evm_net <$> txs) = b + gi_treasury_reward_share gi + gi_reward_amount gi - block_burn gi full_credit).
Proof.
  intros r. subst r. pose proof new_collect_ok as Hok. revert Hok. rewrite new_eq. destruct (promoted_and_refunded publish_ledger delta); cbn [guard_err mbind result_bind].
  { intros _. split; [done|]. intros txs b'. split; [split; [done|]; by intros [? _]|done]. }
  destruct ingress_cases as [(rewards & -> & Hr & Ht)| ->]; cbn [mbind result_bind]; intros Hok.
  2: { split; [done|]. intros txs b'. split; [split; [done|]; by intros (_ & ? & ? & ? & _)|done]. }
  split; [by apply collect_no_panic|]. intros txs b'. split; [|apply Hok]. split.
  - intros Hc. destruct (collect_of_inv rewards _ Hc) as [bills Hb]. split; [done|]. exists rewards, bills. by rewrite <- (collect_of bills rewards Hr Ht Hb).
  - intros (_ & rewards' & bills & [= <-] & Hb & Hv). by rewrite (collect_of bills rewards Hr Ht Hb).
Qed.
End Generator.

(** ** Accepted blocks *)

Section Accepted.
  Context `{DupSort} `{RevmState} {P : Type} (recover_proof_signer : P → option Z) (SHADOW_TX_DESTINATION_ADDR : list byte).
  Context (transact : Accounts → TxEnv → result EVMError EvmState).
  Context (config : WalkConfig) (prices : CommitmentPrices) (reward_curve : HalvingCurve) (block_time_secs : Z).

Record config_fits : Prop := {
  cfg_fees : fee_params_ok (wc_fees config);
  cfg_prices : prices_fit prices;
  cfg_curve : curve_fits reward_curve;
  cfg_time : 0 ≤ block_time_secs
}.

(** A node's view and the block's transactions: amounts of their types. *)
Record block_inputs_fit (v : ExpiryView) (cs : CommitmentSnapshot) (transactions : BlockTransactions) : Prop := {
  bf_view : view_fits v;
  bf_unpledges : unpledges_fit cs;
  bf_commitments : Forall commitment_fits (commitment_ledger_txs transactions);
  bf_data : ∀ ledger, Forall tx_fits (data_ledger_txs transactions ledger);
  bf_promotions : Z.of_nat (length (data_ledger_txs transactions Publish)) * Z.max 1 (number_of_ingress_proofs_total (wc_fees config)) < PRECISION_SCALE
}.

(** A block that a node accepts on its parent, and whose payload takes the accounts from [db]
    to [db']. *)
Record accepted (v : ExpiryView) (es : EpochSnapshot) (cs : CommitmentSnapshot) (transactions : BlockTransactions) (data : ExecutionData) (evm_block : EvmBlock)
    (parent : LedgerHeader) (db : Accounts) (block : ShadowBlock P) (db' : Accounts) : Prop := {
  ac_fits : block_inputs_fit v cs transactions;
  ac_parent : get_block_header v (lh_previous_block_hash (sb_header block)) = Some parent;
  ac_height : lh_height (sb_header block) = lh_height parent + 1;
  ac_reward : prevalidate_reward config reward_curve block_time_secs block (lh_height parent) es = Ok ();
  ac_shadow : shadow_transactions_are_valid SHADOW_TX_DESTINATION_ADDR recover_proof_signer v config prices reward_curve block_time_secs block data es cs transactions = Ok ();
  ac_payload : ep_block data = Some evm_block;
  ac_run : execute_txs SHADOW_TX_DESTINATION_ADDR (eb_beneficiary evm_block) transact (stx_env <$> eb_transactions evm_block) ∅ db = Ok db'
}.

Context (Hcfg : config_fits).

Lemma reward_split_ok parent_height timestamp is_capacity reward : 0 ≤ parent_height →
  block_reward_split config reward_curve block_time_secs parent_height timestamp is_capacity = Ok reward →
  0 ≤ split_miner reward < 2 ^ 256 ∧ 0 ≤ split_treasury reward ∧
  emitted_at reward_curve block_time_secs parent_height + split_miner reward + split_treasury reward = emitted_at reward_curve block_time_secs (parent_height + 1).
Proof.
  intros Hh. unfold block_reward_split. intros (full & Hfull & Hs)%bind_ok. destruct Hcfg as [Hp _ Hc Ht].
  assert (full_block_reward reward_curve block_time_secs parent_height = Ok full) as Hfull' by (by destruct (full_block_reward _ _ _); [injection Hfull as ->|..]).
  destruct (full_reward_step reward_curve Hc block_time_secs Ht parent_height full Hh Hfull') as [Hr Hstep].
  assert (split_block_reward full (wc_fees config) timestamp is_capacity = Ok reward) as Hs' by (by destruct (split_block_reward _ _ _ _); [injection Hs as ->|..]).
  destruct (split_reward_sum _ _ _ _ _ Hp (proj1 Hr) Hs') as (? & ? & ?). lia.
Qed.

(** The generator of the validator is one of the verdict. *)
Lemma validator_generator_ok v es cs transactions block parent g :
  block_inputs_fit v cs transactions → get_block_header v (lh_previous_block_hash (sb_header block)) = Some parent → 0 ≤ lh_height parent → 0 ≤ lh_treasury parent < 2 ^ 256 →
  0 ≤ sb_reward_amount block < 2 ^ 256 →
  validator_generator recover_proof_signer v config prices reward_curve block_time_secs block es cs transactions = Ok g →
  ∃ reward publish delta unpledges unstakes,
    block_reward_split config reward_curve block_time_secs (lh_height parent) (sb_timestamp_secs block) (negb (sb_is_data_poa block)) = Ok reward ∧
    let gi := generator_input config block transactions reward in
    generator_fits gi publish (lh_treasury parent) delta unpledges unstakes ∧
    new recover_proof_signer gi publish (lh_treasury parent) delta unpledges unstakes es = Ok g.
Proof.
  intros [Hv Hun Hcm Hdata Hprom] Hpar Hh Htr Hrew. unfold validator_generator. rewrite Hpar. cbn [ok_or mbind result_bind].
  set (epoch := is_multiple_of _ _). intros (proofs & _ & Hg)%bind_ok. apply bind_ok in Hg as (delta & Hdelta & Hg). apply bind_ok in Hg as (unpledges & Hunp & Hg).
  apply bind_ok in Hg as (range & _ & Hg). apply bind_ok in Hg as ([] & _ & Hg). apply bind_ok in Hg as (reward & Hreward & Hg).
  destruct (reward_split_ok _ _ _ _ Hh Hreward) as (_ & Hshare & _).
  eexists reward, _, delta, unpledges, _. split; [done|]. split; [|destruct (new _ _ _ _ _ _ _ _) eqn:E; cbn in Hg; [injection Hg as <-; exact E|done..]].
  split; [split|..]; cbn [generator_input gi_config gi_reward_amount gi_treasury_reward_share gi_commitment_txs gi_submit_txs gi_one_year_txs gi_thirty_day_txs pl_txs]; try done.
  - apply Hcfg.
  - fold epoch. by destruct epoch.
  - by apply Forall_app.
  - destruct epoch; [|injection Hdelta as <-; split; constructor]. revert Hdelta. apply (yields_map_err delta_fits). by apply calculate_all_fit; [apply Hcfg|].
  - destruct epoch; [|injection Hunp as <-; constructor]. revert Hunp. apply (yields_map_err (Forall event_fits)). by apply derive_unpledge_fit; [apply Hcfg|].
  - destruct epoch; [|constructor]. apply derive_unstake_fit, Hcfg.
Qed.

(** What the expected shadow transactions of a block do. *)
Lemma expected_ok v es cs transactions block parent txs :
  block_inputs_fit v cs transactions → get_block_header v (lh_previous_block_hash (sb_header block)) = Some parent → 0 ≤ lh_height parent → 0 ≤ lh_treasury parent < 2 ^ 256 →
  0 ≤ sb_reward_amount block < 2 ^ 256 →
  generate_expected_shadow_transactions recover_proof_signer v config prices reward_curve block_time_secs block es cs transactions = Ok txs →
  ∃ reward, block_reward_split config reward_curve block_time_secs (lh_height parent) (sb_timestamp_secs block) (negb (sb_is_data_poa block)) = Ok reward ∧
    let gi := generator_input config block transactions reward in
    0 ≤ lh_treasury (sb_header block) < 2 ^ 256 ∧ Forall (generated (sb_solution_hash block)) txs ∧
    lh_treasury (sb_header block) + sum_Z (evm_net <$> txs) =
      lh_treasury parent + split_treasury reward + sb_reward_amount block - block_burn gi (full_credit gi).
Proof.
  intros Hfit Hpar Hh Htr Hrew. unfold generate_expected_shadow_transactions. intros (g & Hg & H1)%bind_ok. apply bind_ok in H1 as ([txs' b'] & Hcol & H1).
  apply bind_ok in H1 as ([] & Heq%guard_err_ok%negb_false_iff%Z.eqb_eq & [= <-]). cbn [fst snd] in *.
  destruct (validator_generator_ok v es cs transactions block parent g Hfit Hpar Hh Htr Hrew Hg) as (reward & publish & delta & unpledges & unstakes & Hreward & Hgf & Hnew).
  exists reward. split; [done|]. cbv zeta. set (gi := generator_input config block transactions reward) in *. assert (collect g = Ok (txs', b')) as Hcol' by (by destruct (collect g) as [r| |]; [injection Hcol as ->|..]).
  rewrite Heq. apply (new_collect_ok recover_proof_signer gi publish _ delta unpledges unstakes es Hgf). by rewrite Hnew.
Qed.

Lemma block_burn_nonneg v cs transactions (block : ShadowBlock P) reward : block_inputs_fit v cs transactions →
  0 ≤ block_burn (generator_input config block transactions reward) (full_credit (generator_input config block transactions reward)).
Proof.
  intros Hfit. pose proof (bf_data _ _ _ Hfit) as Hdata. unfold block_burn. set (gi := generator_input _ _ _ _). apply Z.add_nonneg_nonneg; apply sum_Z_nonneg, Forall_fmap.
  - eapply Forall_impl; [apply (Hdata Submit)|]. intros tx Htx. cbn. unfold submit_burn. destruct (th_perm_fee tx); [|done].
    destruct (ingress_proof_reward_pool_at _ _ _) eqn:E; [|done..]. destruct (full_credit gi); [done|]. by apply (pool_nonneg _ _ _ _ (cfg_fees Hcfg) (proj1 Htx) E).
  - apply Forall_app. split; (eapply Forall_impl; [apply Hdata|]); intros tx (_ & Hf & _); cbn; unfold term_burn; destruct (th_perm_fee tx); [by apply Hf|done|by apply Hf|done].
Qed.

(** The payload of a valid block: the expected shadow transactions, and then others. *)
Lemma valid_payload v es cs transactions data evm_block block :
  shadow_transactions_are_valid SHADOW_TX_DESTINATION_ADDR recover_proof_signer v config prices reward_curve block_time_secs block data es cs transactions = Ok () →
  ep_block data = Some evm_block →
  ∃ expected shadow rest,
    generate_expected_shadow_transactions recover_proof_signer v config prices reward_curve block_time_secs block es cs transactions = Ok expected ∧
    eb_beneficiary evm_block = sb_reward_address block ∧
    eb_transactions evm_block = shadow ++ rest ∧
    Forall2 (signed_holds SHADOW_TX_DESTINATION_ADDR (sb_miner_address block)) shadow (expected_pair <$> expected) ∧
    Forall (λ tx, plain SHADOW_TX_DESTINATION_ADDR (stx_env tx)) rest.
Proof.
  unfold shadow_transactions_are_valid. intros ([] & _ & Hv)%bind_ok Hblock. rewrite Hblock in Hv. cbn [ok_or mbind result_bind] in Hv.
  apply bind_ok in Hv as ([] & Hben%guard_err_ok%negb_false_iff%Z.eqb_eq & Hv). apply bind_ok in Hv as ([] & _ & Hv). apply bind_ok in Hv as ([] & _ & Hv).
  apply bind_ok in Hv as (expected & Hexp & Hv). exists expected.
  assert (∀ r : result Mismatch (), map_err (λ _, ShadowTransactionInvalid) r = Ok () → r = Ok ()) as Hme by (by intros [[]| |]).
  apply Hme, match_ok in Hv as [Hact _]. apply extract_spec in Hact as (shadow & rest & Heq & Hs & Hr). by exists shadow, rest.
Qed.

Lemma accepted_reward v es cs transactions data evm_block parent db block db' : accepted v es cs transactions data evm_block parent db block db' → 0 ≤ lh_height parent →
  ∃ reward, block_reward_split config reward_curve block_time_secs (lh_height parent) (sb_timestamp_secs block) (negb (sb_is_data_poa block)) = Ok reward ∧
    split_miner reward = sb_reward_amount block ∧ sb_reward_address block = resolve_reward_address es (sb_miner_address block) ∧ 0 ≤ sb_reward_amount block < 2 ^ 256.
Proof.
  intros Hacc Hh. pose proof (ac_reward _ _ _ _ _ _ _ _ _ _ Hacc) as Hr. unfold prevalidate_reward in Hr. apply bind_ok in Hr as (reward & Hreward & Hr).
  apply bind_ok in Hr as ([] & Hm%guard_err_ok%negb_false_iff%Z.eqb_eq & Ha%guard_err_ok%negb_false_iff%Z.eqb_eq).
  exists reward. destruct (reward_split_ok _ _ _ _ Hh Hreward) as (Hr & _). by rewrite <- Hm.
Qed.

Context `{!RevmConserves SHADOW_TX_DESTINATION_ADDR transact}.

(** The shadow transactions of an accepted block run first and move what they say; the rest
    makes no value. *)
Lemma accepted_run v es cs transactions data evm_block parent db block db' :
  accepted v es cs transactions data evm_block parent db block db' → accounts_ok db → 0 ≤ lh_height parent → 0 ≤ lh_treasury parent < 2 ^ 256 →
  ∃ expected shadow rest db1,
    generate_expected_shadow_transactions recover_proof_signer v config prices reward_curve block_time_secs block es cs transactions = Ok expected ∧
    eb_transactions evm_block = shadow ++ rest ∧ Forall (λ tx, plain SHADOW_TX_DESTINATION_ADDR (stx_env tx)) rest ∧
    execute_txs SHADOW_TX_DESTINATION_ADDR (sb_reward_address block) transact (stx_env <$> shadow) ∅ db = Ok db1 ∧
    (∀ a, balance_of db1 a = balance_of db a + sum_Z ((λ m, moved (sb_reward_address block) (packet_of (md_shadow_tx m)) (md_transaction_fee m) a) <$> expected)) ∧
    supply db1 = supply db + sum_Z (evm_net <$> expected) ∧ accounts_ok db' ∧ supply db' ≤ supply db1.
Proof.
  intros Hacc Hdb Hh Htr. destruct (accepted_reward _ _ _ _ _ _ _ _ _ _ Hacc Hh) as (_ & _ & _ & _ & Hrew).
  destruct Hacc as [Hfit Hpar _ _ Hsh Hpay Hrun]. destruct (valid_payload _ _ _ _ _ _ _ Hsh Hpay) as (expected & shadow & rest & Hexp & Hben & Heq & Hs & Hr).
  destruct (expected_ok _ _ _ _ _ _ _ Hfit Hpar Hh Htr Hrew Hexp) as (reward & _ & _ & Hgen & _).
  rewrite Heq, Hben, fmap_app in Hrun.
  assert (Forall2 (holds SHADOW_TX_DESTINATION_ADDR) (stx_env <$> shadow) (expected_pair <$> expected)) as Hholds.
  { apply Forall2_fmap_l. eapply Forall2_impl; [done|]. by intros tx s [? _]. }
  assert (Forall (shadow_ok (sb_reward_address block)) (expected_pair <$> expected)) as Hok.
  { apply Forall_fmap. eapply Forall_impl; [done|]. intros m Hm. by eapply generated_shadow_ok. }
  destruct (execute_prefix _ _ transact db _ _ _ db' Hdb Hholds Hok Hrun) as (Hcar & db1 & H1 & H2).
  exists expected, shadow, rest, db1. destruct (execute_shadow_txs _ _ transact db _ _ Hdb Hcar Hok) as [(db1' & H1' & Hdb1 & Hb & Hsup)|[e He]]; [|congruence].
  assert (db1' = db1) as -> by congruence. rewrite <- list_fmap_compose in Hsup. setoid_rewrite <- list_fmap_compose in Hb.
  destruct (execute_plain _ (sb_reward_address block) transact db1 (stx_env <$> rest) db' Hdb1) as [Hdb' Hle]; [by apply Forall_fmap|done|].
  split_and!; try done. rewrite Hsup. f_equal. apply sum_Z_fmap_ext. intros m. cbn. apply net_change_beneficiary.
Qed.

(** C4: An accepted block conserves money.  Its payload is the expected shadow transactions and
    then transactions that are not shadow transactions.  The shadow transactions move exactly
    what they say, and after them the treasury of the header with all the balances is that of
    the parent with the whole emission of the height, less what the block charges to no one's
    credit.  The rest makes no value, and every balance and the treasury stay within 256 bits. *)
Theorem accepted_block_conserves v es cs transactions data evm_block parent db block db' :
  accepted v es cs transactions data evm_block parent db block db' → accounts_ok db → 0 ≤ lh_height parent → 0 ≤ lh_treasury parent < 2 ^ 256 →
  ∃ reward expected shadow rest db1,
    let gi := generator_input config block transactions reward in
    block_reward_split config reward_curve block_time_secs (lh_height parent) (sb_timestamp_secs block) (negb (sb_is_data_poa block)) = Ok reward ∧
    generate_expected_shadow_transactions recover_proof_signer v config prices reward_curve block_time_secs block es cs transactions = Ok expected ∧
    eb_transactions evm_block = shadow ++ rest ∧ Forall (λ tx, plain SHADOW_TX_DESTINATION_ADDR (stx_env tx)) rest ∧
    execute_txs SHADOW_TX_DESTINATION_ADDR (sb_reward_address block) transact (stx_env <$> shadow) ∅ db = Ok db1 ∧
    (∀ a, balance_of db1 a = balance_of db a + sum_Z ((λ m, moved (sb_reward_address block) (packet_of (md_shadow_tx m)) (md_transaction_fee m) a) <$> expected)) ∧
    lh_treasury (sb_header block) + supply db1 =
      lh_treasury parent + supply db + (split_miner reward + split_treasury reward) - block_burn gi (full_credit gi) ∧
    emitted_at reward_curve block_time_secs (lh_height parent) + (split_miner reward + split_treasury reward) =
      emitted_at reward_curve block_time_secs (lh_height (sb_header block)) ∧
    0 ≤ block_burn gi (full_credit gi) ∧ 0 ≤ lh_treasury (sb_header block) < 2 ^ 256 ∧ accounts_ok db' ∧ supply db' ≤ supply db1.
Proof.
  intros Hacc Hdb Hh Htr. destruct (accepted_run _ _ _ _ _ _ _ _ _ _ Hacc Hdb Hh Htr) as (expected & shadow & rest & db1 & Hexp & Heq & Hr & Hrun & Hb & Hs & Hdb' & Hle).
  destruct (accepted_reward _ _ _ _ _ _ _ _ _ _ Hacc Hh) as (reward' & Hrw' & Hm & _ & Hrew). pose proof (ac_fits _ _ _ _ _ _ _ _ _ _ Hacc) as Hfit.
  destruct (expected_ok _ _ _ _ _ _ _ Hfit (ac_parent _ _ _ _ _ _ _ _ _ _ Hacc) Hh Htr Hrew Hexp) as (reward & Hrw & Htr' & _ & Hsum).
  assert (reward' = reward) as -> by congruence. destruct (reward_split_ok _ _ _ _ Hh Hrw) as (_ & _ & Hem).
  exists reward, expected, shadow, rest, db1. rewrite (ac_height _ _ _ _ _ _ _ _ _ _ Hacc). split_and!; try done; [lia|lia| |lia|lia]. by eapply block_burn_nonneg.
Qed.

(** ** Chains *)

(** Headers and accounts that accepted blocks lead to. *)
Inductive accepted_from (genesis : LedgerHeader) (db0 : Accounts) : LedgerHeader → Accounts → Prop :=
| accepted_genesis : accepted_from genesis db0 genesis db0
| accepted_block parent db v es cs transactions data evm_block block db' :
    accepted_from genesis db0 parent db → accepted v es cs transactions data evm_block parent db block db' →
    accepted_from genesis db0 (sb_header block) db'.

(** C5: Along every chain of accepted blocks from a genesis block, the treasury and the
    balances together never exceed those of genesis and what the reward curve has emitted up to
    the height, so never genesis and the inflation cap; and every balance and the treasury stay
    within 256 bits. *)
Theorem money_is_bounded genesis db0 header db :
  accepted_from genesis db0 header db → lh_height genesis = 0 → 0 ≤ lh_treasury genesis < 2 ^ 256 → accounts_ok db0 →
  0 ≤ lh_treasury header < 2 ^ 256 ∧ accounts_ok db ∧
  lh_treasury header + supply db ≤ lh_treasury genesis + supply db0 + emitted_at reward_curve block_time_secs (lh_height header) ∧
  emitted_at reward_curve block_time_secs (lh_height header) ≤ inflation_cap reward_curve.
Proof.
  intros Hc Hg Htr Hdb. cut (0 ≤ lh_height header ∧ 0 ≤ lh_treasury header < 2 ^ 256 ∧ accounts_ok db ∧
    lh_treasury header + supply db ≤ lh_treasury genesis + supply db0 + emitted_at reward_curve block_time_secs (lh_height header)).
  { intros (Hh & ? & ? & ?). split_and!; try done; [lia|lia|]. by apply emitted_at_range; [apply Hcfg..|]. }
  induction Hc as [|parent db v es cs transactions data evm_block block db' _ IH Hacc]; [rewrite Hg, emitted_at_zero by apply Hcfg; split_and!; done || lia|].
  destruct IH as (Hh & Ht & Hd & Hle).
  destruct (accepted_run _ _ _ _ _ _ _ _ _ _ Hacc Hd Hh Ht) as (expected & shadow & rest & db1 & Hexp & _ & _ & _ & _ & Hs & Hdb' & Hle').
  destruct (accepted_reward _ _ _ _ _ _ _ _ _ _ Hacc Hh) as (reward' & Hrw' & Hm & _ & Hrew). pose proof (ac_fits _ _ _ _ _ _ _ _ _ _ Hacc) as Hfit.
  destruct (expected_ok _ _ _ _ _ _ _ Hfit (ac_parent _ _ _ _ _ _ _ _ _ _ Hacc) Hh Ht Hrew Hexp) as (reward & Hrw & Ht' & _ & Hsum).
  assert (reward' = reward) as -> by congruence. destruct (reward_split_ok _ _ _ _ Hh Hrw) as (_ & _ & Hem). rewrite (ac_height _ _ _ _ _ _ _ _ _ _ Hacc).
  pose proof (block_burn_nonneg v cs transactions block reward Hfit). split_and!; try done; lia.
Qed.
End Accepted.

(** ** Producer and validator *)

Section Honest.
  Context `{DupSort} {P : Type} (recover_proof_signer : P → option Z).
  Context (SHADOW_TX_DESTINATION_ADDR : list byte) (MINIMUM_GAS_LIMIT DEFAULT_TX_FEE_CAP_WEI chain_id : Z).
  Context (config : WalkConfig) (prices : CommitmentPrices) (reward_curve : HalvingCurve) (block_time_secs : Z).

Notation compose_all := (compose_all SHADOW_TX_DESTINATION_ADDR MINIMUM_GAS_LIMIT DEFAULT_TX_FEE_CAP_WEI chain_id).

Lemma composed_holds sh miner txs : length sh = 32%nat → Forall (generated sh) txs →
  Forall2 (signed_holds SHADOW_TX_DESTINATION_ADDR miner) (signed miner <$> compose_all txs) (expected_pair <$> txs).
Proof.
  intros Hl Hg. unfold ShadowValidate.compose_all. rewrite <- list_fmap_compose. apply Forall2_fmap, Forall_Forall2_diag. eapply Forall_impl; [done|]. intros m Hm.
  split; [|done]. split; [|done]. apply (detect_compose SHADOW_TX_DESTINATION_ADDR MINIMUM_GAS_LIMIT DEFAULT_TX_FEE_CAP_WEI (md_shadow_tx m) chain_id (md_transaction_fee m)).
  by eapply generated_wf.
Qed.

(** A block whose payload is the producer's shadow transactions, signed by the miner, before
    other transactions, and whose header has the producer's treasury, passes the check of a
    validator that builds the generator from the same inputs. *)
Lemma generated_block_accepted v es cs transactions data evm_block (block : ShadowBlock P) gi publish b delta unpledges unstakes txs treasury rest :
  create_evm_block_txs SHADOW_TX_DESTINATION_ADDR MINIMUM_GAS_LIMIT DEFAULT_TX_FEE_CAP_WEI chain_id recover_proof_signer gi publish b delta unpledges unstakes es = Ok (txs, treasury) →
  generator_fits gi publish b delta unpledges unstakes → gi_solution_hash gi = sb_solution_hash block → length (sb_solution_hash block) = 32%nat →
  validator_generator recover_proof_signer v config prices reward_curve block_time_secs block es cs transactions =
    map_err classify_shadow_tx_gen_err (new recover_proof_signer gi publish b delta unpledges unstakes es) →
  lh_treasury (sb_header block) = treasury →
  payload_is_valid v block data = Ok () → ep_block data = Some evm_block →
  eb_beneficiary evm_block = sb_reward_address block → eb_requests_hash evm_block = None →
  eb_transactions evm_block = (signed (sb_miner_address block) <$> txs) ++ rest →
  Forall (λ tx, plain SHADOW_TX_DESTINATION_ADDR (stx_env tx) ∧ tx_type_id (stx_env tx) ≠ EIP4844_TX_TYPE_ID) rest →
  shadow_transactions_are_valid SHADOW_TX_DESTINATION_ADDR recover_proof_signer v config prices reward_curve block_time_secs block data es cs transactions = Ok ().
Proof.
  unfold create_evm_block_txs. intros (g & Hnew & Hc)%bind_ok Hfit Hsh Hlen Hval Htr Hpay Hblock Hben Hreq Heq Hrest.
  apply bind_ok in Hc as ([ms b'] & Hcol & [= <- <-]).
  destruct (new_collect_ok recover_proof_signer gi publish b delta unpledges unstakes es Hfit ms b') as (_ & Hgen & _); [by rewrite Hnew|].
  rewrite Hsh in Hgen. unfold shadow_transactions_are_valid. rewrite Hpay, Hblock. cbn [mbind result_bind ok_or].
  rewrite Hben, Hreq, Z.eqb_refl, bool_decide_eq_false_2 by (by intros [? ?]). cbn [mbind result_bind ok_or reject guard_err negb fst snd].
  assert (existsb (λ tx, tx_type_id (stx_env tx) =? EIP4844_TX_TYPE_ID) (eb_transactions evm_block) = false) as ->.
  { rewrite Heq, existsb_app. apply orb_false_iff. split; apply not_true_iff_false; rewrite existsb_exists; intros (tx & Htx%list_elem_of_In & Hty%Z.eqb_eq).
    - by apply list_elem_of_fmap in Htx as (? & -> & _).
    - by apply (proj1 (Forall_forall _ _) Hrest) in Htx as [_ ?]. }
  cbn [mbind result_bind guard_err]. unfold generate_expected_shadow_transactions. rewrite Hval, Hnew. cbn [map_err mbind result_bind]. rewrite Hcol. cbn [map_err mbind result_bind fst snd].
  cbn [snd] in Htr. rewrite Htr, Z.eqb_refl. cbn [negb guard_err mbind result_bind].
  rewrite (proj2 (match_ok _ ms _)); [done|]. split; [|eapply Forall_impl; [done|]; by intros m []].
  apply extract_spec. exists (signed (sb_miner_address block) <$> compose_all ms), rest. split_and!; [done|by eapply composed_holds|].
  eapply Forall_impl; [done|]. by intros tx [? _].
Qed.
End Honest.
