(* ===== verification/TreasuryExample.v ===== *)
(** An epoch block that settles expired slots, promotes an upload, charges others and refunds
    commitments: the hypotheses of the theorems on the treasury hold of it. *)

From S2P Require Import SimpleRng TreeHash StateErr Codec Packing Merkle Pricing FeeSplit DataLedger EpochSnapshot CommitmentSnapshot EpochInv EpochSlots EpochCommit EpochExample LedgerExpiry BlockIndex BlockIndexFacts IndexFile Poa BTree ExpiryWalk ExpirySettle ExpiryExample ShadowTx ShadowExec ShadowGen ShadowValidate TreasuryFacts ShadowTyped TreasuryTheorems Prelude.

Module TreasuryExample.

#[local] Existing Instance EpochExample.toy_sha256.
#[local] Existing Instance ExpiryExample.put_order.

(** The commit of [revm], as its documentation has it. *)
#[local] Program Instance map_commit : RevmState := {
  db_commit db st := merge (λ before after,
    match after with
    | Some account =>
        if touched (status account) then
          if self_destructed (status account) || info_is_empty (info account) then None else Some (info account)
        else before
    | None => before
    end) db st
}.
Next Obligation. intros db st a. cbn. rewrite lookup_merge. by destruct (db !! a), (st !! a). Qed.

(** ** The block *)

(** Ingress proofs are their signers. *)
Definition recover (proof : Z) : option Z := Some proof.
Definition destination : list byte := replicate 20 x44.
Definition fees : FeeParams := mkFeeParams (PRECISION_SCALE / 20) 2 (Some (mkDelta 0 (PRECISION_SCALE / 10) (PRECISION_SCALE / 5))).
Definition config : WalkConfig := mkWalkConfig EpochExample.config 32 3 4 fees.
Definition prices : CommitmentPrices := mkCommitmentPrices 20000 950 (9 * PRECISION_SCALE / 10).
Definition reward_curve : HalvingCurve := mkHalvingCurve (10 ^ 26) 126144000.
Definition block_time : Z := 12.

Definition unpledge : CommitmentTransaction := mkCommitment 31 81 (Unpledge 2 1) 0 100.
Definition unstake : CommitmentTransaction := mkCommitment 32 82 Unstake 0 100.
Definition stake : CommitmentTransaction := mkCommitment 33 83 Stake 20000 100.
Definition commitments : CommitmentSnapshot :=
  {[ 81 := mkMinerCommitments None [] [unpledge] None None; 82 := mkMinerCommitments None [] [] (Some unstake) None ]}.
Definition tx5 : DataTransactionHeader := ExpiryExample.upload 15 75 96 5000 90000.
Definition tx6 : DataTransactionHeader := mkTxHeader 16 76 (replicate 32 x01) (replicate 32 x00) 64 6000 None.
(** An epoch block has no commitments of its own; the other block no promotions. *)
Definition transactions (epoch_block : bool) : BlockTransactions :=
  mkBlockTransactions (if epoch_block then [] else [stake])
    (λ ledger, match ledger with Publish => if epoch_block then [ExpiryExample.tx4] else [] | Submit => [tx5] | OneYear => [tx6] | ThirtyDay => [] end).

Definition block_at (parent : LedgerHeader) (epoch_block : bool) (reward treasury : Z) : ShadowBlock Z :=
  let height := lh_height parent + 1 in
  mkShadowBlock
    (mkLedgerHeader (100 + height) (lh_block_hash parent) height
       [mkTxLedger 0 [] (if epoch_block then [14] else []) (if epoch_block then 12 else 0); mkTxLedger 1 [] [15] 28; mkTxLedger 10 [] [16] 2; mkTxLedger 20 [] [] 0]
       treasury (1100 + height))
    [(if epoch_block then Some [91; 92] else None, None); (None, None); (None, None); (None, None)]
    1000 61 61 reward (replicate 32 x77) false.

Section Block.
  Context (parent : LedgerHeader) (epoch_block : bool).

Definition reward : BlockRewardSplit :=
  match block_reward_split config reward_curve block_time (lh_height parent) 1000 true with Ok r => r | _ => mkBlockRewardSplit 0 0 end.
(** The shadow transactions and the treasury, which do not depend on the header's treasury. *)
Definition generated_txs : list ShadowMetadata * Z :=
  match validator_generator recover ExpiryExample.node config prices reward_curve block_time (block_at parent epoch_block (split_miner reward) 0) ExpiryExample.epoch commitments
          (transactions epoch_block) with
  | Ok g => match collect g with Ok r => r | _ => ([], 0) end
  | _ => ([], 0)
  end.
Definition block : ShadowBlock Z := block_at parent epoch_block (split_miner reward) generated_txs.2.
Definition other_tx : SignedTx := mkSignedTx (mkTxEnv (Some (replicate 20 x55)) [] (Some 1) [] 0 2) (Some 75).
Definition evm_block : EvmBlock := mkEvmBlock 61 None ((signed 61 <$> compose_all destination 21000 1000 1270 generated_txs.1) ++ [other_tx]).
Definition payload : ExecutionData :=
  mkExecutionData true [] 0 0 None None 1000 (lh_evm_block_hash parent) (lh_height parent + 1) (lh_evm_block_hash (sb_header block)) (Some (lh_block_hash parent)) (Some evm_block).
End Block.

(** ** The hypotheses *)

Definition transact (db : Accounts) (tx : TxEnv) : result EVMError EvmState := Ok ∅.
#[local] Instance transact_idle : RevmConserves destination transact.
Proof.
  intros db tx st Hdb _ [= <-]. assert (db_commit db ∅ = db) as -> by (apply map_eq; intros a; rewrite db_commit_lookup; by rewrite lookup_empty).
  split; [done|lia].
Qed.

Definition accounts : Accounts := {[ 75 := mkAccountInfo 1000000 0 false; 76 := mkAccountInfo 1000000 0 false; 83 := mkAccountInfo 1000000 0 false ]}.
Lemma accounts_good : accounts_ok accounts.
Proof.
  intros a. unfold balance_of. destruct (accounts !! a) as [i|] eqn:E; [|lia]. unfold accounts in E.
  repeat (apply lookup_insert_Some in E as [[_ <-]|[_ E]]; [cbn; lia|]). apply lookup_singleton_Some in E as [_ <-]. cbn. lia.
Qed.

Lemma fee_params_good : fee_params_ok fees.
Proof. split; [vm_compute; discriminate..| |]; intros d [= <-]; vm_compute; discriminate. Qed.
Lemma parameters_good : config_fits config prices reward_curve block_time.
Proof. split; [exact fee_params_good|split; vm_compute; first [discriminate|split; first [discriminate|reflexivity]]|split; vm_compute; discriminate|vm_compute; discriminate]. Qed.

Lemma fits_txs txs : bool_decide (Forall (λ tx, 0 ≤ th_term_fee tx ∧ 0 ≤ default 0 (th_perm_fee tx) ∧ th_term_fee tx + default 0 (th_perm_fee tx) < 2 ^ 256) txs) = true →
  Forall tx_fits txs.
Proof.
  intros H%bool_decide_eq_true. eapply Forall_impl; [exact H|]. intros tx (H1 & H2 & H3). split; [done|]. split; [|done]. intros f Hf. by rewrite Hf in H2.
Qed.

Lemma node_fits : view_fits ExpiryExample.node.
Proof.
  split.
  - intros hash b ledger Hb. apply fits_txs. change (v_tree ExpiryExample.node) with
      ({[103 := ExpiryExample.block_of ExpiryExample.b3; 104 := ExpiryExample.block_of ExpiryExample.b4; 105 := ExpiryExample.block_of ExpiryExample.b5]} : gmap Z LedgerBlock) in Hb.
    repeat (apply lookup_insert_Some in Hb as [[_ <-]|[_ Hb]]; [destruct ledger; vm_compute; reflexivity|]).
    apply lookup_singleton_Some in Hb as [_ <-]. destruct ledger; vm_compute; reflexivity.
  - intros id tx Htx. apply Forall_singleton, fits_txs.
    change (v_txs ExpiryExample.node) with ({[11 := ExpiryExample.tx1; 12 := ExpiryExample.tx2; 13 := ExpiryExample.tx3; 14 := ExpiryExample.tx4]} : gmap Z DataTransactionHeader) in Htx.
    repeat (apply lookup_insert_Some in Htx as [[_ <-]|[_ Htx]]; [vm_compute; reflexivity|]). apply lookup_singleton_Some in Htx as [_ <-]. vm_compute; reflexivity.
Qed.

Lemma inputs_good epoch_block : block_inputs_fit config ExpiryExample.node commitments (transactions epoch_block).
Proof.
  split; [exact node_fits| |apply (bool_decide_unpack _); by destruct epoch_block; vm_compute| |by destruct epoch_block; vm_compute].
  - intros a mc tx Ha. unfold commitments in Ha. apply lookup_insert_Some in Ha as [[_ <-]|[_ [_ <-]%lookup_singleton_Some]]; cbn; [|by intros ?%elem_of_nil].
    intros ->%list_elem_of_singleton n ph [= <- _]. lia.
  - intros ledger. apply fits_txs. by destruct ledger, epoch_block; vm_compute.
Qed.

Definition block6 : ShadowBlock Z := block ExpiryExample.b5 true.
Definition block1 : ShadowBlock Z := block ExpiryExample.b0 false.

Definition run_block (parent : LedgerHeader) (epoch_block : bool) : Accounts :=
  match execute_txs destination 61 transact (stx_env <$> eb_transactions (evm_block parent epoch_block)) ∅ accounts with Ok db => db | _ => ∅ end.

Lemma accepted6 : accepted recover destination transact config prices reward_curve block_time ExpiryExample.node ExpiryExample.epoch commitments (transactions true)
  (payload ExpiryExample.b5 true) (evm_block ExpiryExample.b5 true) ExpiryExample.b5 accounts block6 (run_block ExpiryExample.b5 true).
Proof. split; [apply inputs_good|vm_compute; reflexivity..]. Qed.
Lemma accepted1 : accepted recover destination transact config prices reward_curve block_time ExpiryExample.node ExpiryExample.epoch commitments (transactions false)
  (payload ExpiryExample.b0 false) (evm_block ExpiryExample.b0 false) ExpiryExample.b0 accounts block1 (run_block ExpiryExample.b0 false).
Proof. split; [apply inputs_good|vm_compute; reflexivity..]. Qed.

(** ** Witnesses *)

(** The block at height 6 leaves a treasury of 5934477133350943440 from 1000000. *)
Lemma accepted_block_conserves_witness :
  lh_treasury (sb_header block6) = 5934477133350943440 ∧
  ∃ db1, lh_treasury (sb_header block6) + supply db1 = 1000000 + supply accounts + (659386348150000000 + 5934477133350000000) ∧
    supply (run_block ExpiryExample.b5 true) ≤ supply db1 ∧ accounts_ok (run_block ExpiryExample.b5 true).
Proof.
  split; [vm_compute; reflexivity|].
  destruct (accepted_block_conserves recover destination transact config prices reward_curve block_time parameters_good ExpiryExample.node ExpiryExample.epoch commitments (transactions true)
    (payload ExpiryExample.b5 true) (evm_block ExpiryExample.b5 true) ExpiryExample.b5 accounts block6 (run_block ExpiryExample.b5 true) accepted6 accounts_good)
    as (r & expected & shadow & rest & db1 & Hr & _ & _ & _ & _ & _ & Heq & _ & _ & _ & Hok & Hle); [vm_compute; discriminate|vm_compute; split; [discriminate|reflexivity]|].
  exists db1. split; [|split; [exact Hle|exact Hok]].
  assert (Hr' : block_reward_split config reward_curve block_time (lh_height ExpiryExample.b5) (sb_timestamp_secs block6) (negb (sb_is_data_poa block6)) =
    Ok (mkBlockRewardSplit 659386348150000000 5934477133350000000)) by (vm_compute; reflexivity).
  rewrite Hr' in Hr. injection Hr as <-. rewrite Heq. set (burn := block_burn _ _). assert (burn = 0) as -> by (vm_compute; reflexivity).
  change (lh_treasury ExpiryExample.b5) with 1000000. cbn [split_miner split_treasury]. lia.
Defined.

Lemma money_is_bounded_witness :
  lh_treasury (sb_header block1) + supply (run_block ExpiryExample.b0 false) ≤ 1000000 + supply accounts + emitted_at reward_curve block_time 1 ∧
  emitted_at reward_curve block_time 1 ≤ inflation_cap reward_curve.
Proof.
  destruct (money_is_bounded recover destination transact config prices reward_curve block_time parameters_good ExpiryExample.b0 accounts (sb_header block1) (run_block ExpiryExample.b0 false))
    as (_ & _ & Hle & Hcap); [|vm_compute; reflexivity|vm_compute; split; [discriminate|reflexivity]|exact accounts_good|split; [exact Hle|exact Hcap]].
  eapply accepted_block; [apply accepted_genesis|exact accepted1].
Defined.

(** The inputs of the generator of the block at height 6. *)
Definition gi6 : GenInput := generator_input config block6 (transactions true) (reward ExpiryExample.b5).
Definition publish6 : PublishLedgerWithTxs Z := mkPublishLedger [ExpiryExample.tx4] (Some [91; 92]).
Definition delta6 : LedgerExpiryBalanceDelta :=
  match calculate_all_expired_ledger_fees ExpiryExample.node config ExpiryExample.epoch ExpiryExample.b5 6 true true (lh_total_chunks (sb_header block6)) with
  | Ok d => d
  | _ => empty_delta
  end.
Definition unpledges6 : list RefundEvent := [mkRefundEvent 81 509 31].
Definition unstakes6 : list RefundEvent := [mkRefundEvent 82 20000 32].

Lemma generator_good : generator_fits gi6 publish6 1000000 delta6 unpledges6 unstakes6.
Proof.
  split; [split|..].
  - exact fee_params_good.
  - vm_compute. split; [discriminate|reflexivity].
  - vm_compute. discriminate.
  - apply (bool_decide_unpack _). vm_compute. exact I.
  - apply fits_txs. vm_compute. reflexivity.
  - apply fits_txs. vm_compute. reflexivity.
  - split; [discriminate|reflexivity].
  - apply fits_txs. vm_compute. reflexivity.
  - apply (bool_decide_unpack _). vm_compute. exact I.
  - apply (bool_decide_unpack _). vm_compute. exact I.
  - apply (bool_decide_unpack _). vm_compute. exact I.
  - vm_compute. reflexivity.
Qed.

Lemma generator_verdict_witness :
  ∃ txs, (g ← new recover gi6 publish6 1000000 delta6 unpledges6 unstakes6 ExpiryExample.epoch; collect g) = Ok (txs, 5934477133350943440) ∧
    Forall (generated (replicate 32 x77)) txs ∧ length txs = 13%nat ∧
    5934477133350943440 + sum_Z (evm_net <$> txs) = 1000000 + 5934477133350000000 + 659386348150000000.
Proof.
  destruct (generator_verdict recover gi6 publish6 1000000 delta6 unpledges6 unstakes6 ExpiryExample.epoch generator_good) as [_ Hv].
  specialize (Hv (generated_txs ExpiryExample.b5 true).1 5934477133350943440) as [_ Hv]. exists (generated_txs ExpiryExample.b5 true).1.
  assert (Hr : (g ← new recover gi6 publish6 1000000 delta6 unpledges6 unstakes6 ExpiryExample.epoch; collect g) = Ok ((generated_txs ExpiryExample.b5 true).1, 5934477133350943440))
    by (vm_compute; reflexivity).
  split; [exact Hr|]. destruct (Hv Hr) as (_ & Hg & Heq). split; [exact Hg|]. split; [vm_compute; reflexivity|]. rewrite Heq. vm_compute. reflexivity.
Defined.

(** A tip on an increment that drains its payer destroys the amount: the entry of the payer
    keeps the mark of an empty account that the tip leaves. *)
Example tipped_refund_is_destroyed :
  let db : Accounts := {[ 75 := mkAccountInfo 10 0 false ]} in
  let refund := new_v1 (PUnstakeRefund (mkBalanceIncrement 20000 (address_bytes 75) (hash_bytes 1))) (replicate 32 x77) in
  match run_shadow_tx db refund 10 61 ∅ with
  | (_, Ok st) => balance_of (db_commit db st) 75 = 0 ∧ balance_of (db_commit db st) 61 = 10
  | _ => False
  end.
Proof. vm_compute. done. Qed.
End TreasuryExample.
