(* ===== verification/DataTxs.v ===== *)
(** Data transactions of a block: how the body of a block is paired with its header
    ([order_transactions] in [crates/types/src/block.rs]), which anchors its transactions may
    have ([block_discovered] in [crates/actors/src/block_discovery.rs]), where in the ledgers
    they may be placed and what they have to pay ([data_txs_are_valid] in
    [crates/actors/src/block_validation.rs], up to its checks of ingress proofs), and what
    [prevalidate_block] checks of ingress proofs.  [get_price] is the fee that the API quotes
    ([crates/api-server/src/routes/price.rs]).

    The order in which a [HashMap] is iterated is an operation of the class [MapOrder].
    A block is the [ShadowBlock] of [ShadowValidate].  The signer of an ingress proof and its
    data root are arguments.  Database reads that fail are not modelled. *)

From S2P Require Import TreeHash Pricing Ema StateErr DataLedger EpochSnapshot EpochInv LedgerExpiry Codec Packing Merkle BlockIndex BlockIndexFacts IndexFile Poa FeeSplit BTree ExpiryWalk ExpirySettle ShadowTx ShadowExec ShadowGen ShadowValidate Prelude.

(** Iteration over the values of a [HashMap]. *)
Class MapOrder : Type := {
  map_values : ∀ {A}, gmap Z A → list A;
  map_values_perm : ∀ {A} (m : gmap Z A), map_values m ≡ₚ (map_to_list m).*2
}.

(** A data transaction with the fields that only these checks read. *)
Record DataTx : Type := mkDataTx {
  dt_header :> DataTransactionHeader;
  dt_ledger_id : Z;
  dt_anchor : Z;
  dt_promoted_height : option Z
}.

(** ** Bodies of blocks *)

Inductive SealError : Type :=
| InvalidLedgerId (ledger_id : Z)
| DuplicateLedger (ledger : DataLedger)
| RepeatedTx (ledger : DataLedger) (id : Z)
| TxNotInBody (ledger : DataLedger) (id : Z)
| ExtraTxs (ids : list Z).

(** The transactions of the ledgers seen so far. *)
Notation LedgerTxs := (list (DataLedger * list DataTx)).

Definition ledger_txs (txs : LedgerTxs) (ledger : DataLedger) : list DataTx :=
  default [] (snd <$> List.find (λ e, bool_decide (e.1 = ledger)) txs).

(** The ids of one ledger: a transaction is taken out of the body, or copied from a ledger
    that has taken it. *)
Fixpoint order_ledger (ledger : DataLedger) (ids seen : list Z) (data_tx_map : gmap Z DataTx) (taken : LedgerTxs) : result SealError (gmap Z DataTx * list DataTx) :=
  match ids with
  | [] => Ok (data_tx_map, [])
  | id :: rest =>
      _ ← guard_err (bool_decide (id ∈ seen)) (RepeatedTx ledger id);
      tx ← ok_or (match data_tx_map !! id with
                  | Some tx => Some tx
                  | None => List.find (λ tx : DataTx, th_id tx =? id) (concat taken.*2)
                  end) (TxNotInBody ledger id);
      r ← order_ledger ledger rest (id :: seen) (delete id data_tx_map) taken;
      Ok (r.1, tx :: r.2)
  end.

Fixpoint order_ledgers (ledgers : list DataTransactionLedger) (data_tx_map : gmap Z DataTx) (taken : LedgerTxs) : result SealError (gmap Z DataTx * LedgerTxs) :=
  match ledgers with
  | [] => Ok (data_tx_map, taken)
  | dl :: rest =>
      ledger ← ok_or (ledger_of_id (tl_ledger_id dl)) (InvalidLedgerId (tl_ledger_id dl));
      _ ← guard_err (bool_decide (ledger ∈ taken.*1)) (DuplicateLedger ledger);
      r ← order_ledger ledger (tl_tx_ids dl) [] data_tx_map taken;
      order_ledgers rest r.1 (taken ++ [(ledger, r.2)])
  end.

Definition order_transactions (ledgers : list DataTransactionLedger) (data_txs : list DataTx) : result SealError LedgerTxs :=
  let data_tx_map := foldl (λ m tx, <[th_id (dt_header tx) := tx]> m) (∅ : gmap Z DataTx) data_txs in
  r ← order_ledgers ledgers data_tx_map [];
  _ ← guard_err (negb (bool_decide (r.1 = ∅))) (ExtraTxs (map_to_list r.1).*1);
  Ok r.2.

Record DataTxConfig : Type := mkDataTxConfig {
  dc_walk : WalkConfig;
  (** The fee parameters at a timestamp. *)
  dc_fee_config : Z → FeeConfig
}.

(** ** Anchors *)

Inductive DiscoveryError : Type :=
| PreviousBlockNotFound (hash : Z)
| InvalidBlockHeight (expected got : Z)
| LedgersMalformed (ledger_id : Z)
| AncestorMalformed (hash ledger_id : Z)
| DuplicateTransaction (id : Z)
| BlockIndexInconsistency (height : Z)
| InvalidAnchor (id anchor : Z).

(** The ids of each ledger; the error is the id of a ledger that is unknown or repeated. *)
Fixpoint data_ledger_tx_ids (ledgers : list DataTransactionLedger) (data_txids : list (DataLedger * list Z)) : result Z (list (DataLedger * list Z)) :=
  match ledgers with
  | [] => Ok data_txids
  | dl :: rest =>
      ledger ← ok_or (ledger_of_id (tl_ledger_id dl)) (tl_ledger_id dl);
      _ ← guard_err (bool_decide (ledger ∈ data_txids.*1)) (tl_ledger_id dl);
      data_ledger_tx_ids rest (data_txids ++ [(ledger, tl_tx_ids dl)])
  end.
Definition get_data_ledger_tx_ids (h : LedgerHeader) : result Z (list (DataLedger * list Z)) := data_ledger_tx_ids (lh_data_ledgers h) [].
Definition ids_of (ledger : DataLedger) (data_txids : list (DataLedger * list Z)) : option (list Z) :=
  snd <$> List.find (λ e, bool_decide (e.1 = ledger)) data_txids.

Section Anchors.
  Context `{DupSort} {P : Type} (v : ExpiryView) (config : DataTxConfig).

(** Whether an ancestor has one of the block's Submit transactions. *)
Definition no_submit_duplicate (incoming : option (list Z)) (parent : LedgerHeader) : result DiscoveryError () :=
  match incoming with
  | None => Ok ()
  | Some ids =>
      parent_ids ← map_err (AncestorMalformed (lh_block_hash parent)) (get_data_ledger_tx_ids parent);
      match ids_of Submit parent_ids with
      | None => Ok ()
      | Some parent_txids =>
          match List.find (λ id, bool_decide (id ∈ parent_txids)) ids with
          | Some id => Err (DuplicateTransaction id)
          | None => Ok ()
          end
      end
  end.

(** The loop over ancestors: the anchors it collects, and the header it ends at. *)
Fixpoint walk_anchors (fuel : nat) (incoming : option (list Z)) (min_height : Z) (parent : LedgerHeader) (anchors : gmap Z Z)
  : result DiscoveryError (gmap Z Z * LedgerHeader) :=
  if lh_height parent <? min_height then Ok (anchors, parent)
  else
    _ ← no_submit_duplicate incoming parent;
    let anchors := <[lh_block_hash parent := lh_height parent]> anchors in
    if lh_height parent =? 0 then Ok (anchors, parent)
    else
      next ← ok_or (get_block_header v (lh_previous_block_hash parent)) (PreviousBlockNotFound (lh_previous_block_hash parent));
      match fuel with
      | O => Panic
      | S fuel' => walk_anchors fuel' incoming min_height next anchors
      end.

(** The loop over [count] heights of the index. *)
Fixpoint index_anchors (count : nat) (height : Z) (parent : LedgerHeader) (anchors : gmap Z Z) : result DiscoveryError (gmap Z Z) :=
  match count with
  | O => Ok anchors
  | S count' =>
      item ← ok_or (get_item (v_index v) height) (BlockIndexInconsistency height);
      _ ← guard_err ((height =? lh_height parent - 1) && negb (bi_block_hash item =? lh_previous_block_hash parent)) (BlockIndexInconsistency height);
      index_anchors count' (height + 1) parent (<[bi_block_hash item := height]> anchors)
  end.

Definition canonical_block_height_by_hash (hash : Z) : option Z :=
  match v_headers v !! hash with
  | None => None
  | Some hdr => if bool_decide (migrated_hashes (v_index v) !! lh_height hdr = Some hash) then Some (lh_height hdr) else None
  end.

Definition anchor_valid_for (anchors : gmap Z Z) (map_floor anchor min_height : Z) : bool :=
  match anchors !! anchor with
  | Some h => min_height <=? h
  | None =>
      match canonical_block_height_by_hash anchor with
      | Some h => (min_height <=? h) && (h <? map_floor)
      | None => false
      end
  end.

Fixpoint tx_anchors_are_valid (valid : Z → bool) (txs : list DataTx) : result DiscoveryError () :=
  match txs with
  | [] => Ok ()
  | tx :: rest =>
      _ ← guard_err (negb (valid (dt_anchor tx))) (InvalidAnchor (th_id tx) (dt_anchor tx));
      tx_anchors_are_valid valid rest
  end.

Definition min_tx_anchor_height (block_height : Z) : Z := saturating_sub block_height (wc_tx_anchor_expiry_depth (dc_walk config)).
Definition reorg_floor (block_height : Z) : Z := saturating_sub block_height (wc_block_tree_depth (dc_walk config)).
Definition map_floor (block_height : Z) : Z := Z.min (reorg_floor block_height) (min_tx_anchor_height block_height).

(** The map of valid anchors: the blocks of the window, the header below it, and the index
    down to the reorg floor. *)
Definition valid_anchor_block_heights (incoming : option (list Z)) (block_height : Z) (previous : LedgerHeader) : result DiscoveryError (gmap Z Z) :=
  r ← walk_anchors (Z.to_nat (lh_height previous)) incoming (min_tx_anchor_height block_height) previous ∅;
  let '(anchors, parent) := (r : gmap Z Z * LedgerHeader) in
  let floor := reorg_floor block_height in
  let anchors := if floor <=? lh_height parent then <[lh_block_hash parent := lh_height parent]> anchors else anchors in
  index_anchors (Z.to_nat (lh_height parent - floor)) floor parent anchors.

(** The part of [block_discovered] on data transactions. *)
Definition data_anchors_are_valid (block : ShadowBlock P) (transactions : DataLedger → list DataTx) : result DiscoveryError () :=
  previous ← ok_or (get_block_header v (lh_previous_block_hash (sb_header block))) (PreviousBlockNotFound (lh_previous_block_hash (sb_header block)));
  binding ← map_err LedgersMalformed (get_data_ledger_tx_ids (sb_header block));
  let block_height := lh_height (sb_header block) in
  _ ← guard_err (negb (block_height =? lh_height previous + 1)) (InvalidBlockHeight (lh_height previous + 1) block_height);
  anchors ← valid_anchor_block_heights (ids_of Submit binding) block_height previous;
  let valid anchor := anchor_valid_for anchors (map_floor block_height) anchor (min_tx_anchor_height block_height) in
  _ ← tx_anchors_are_valid valid (transactions Submit);
  _ ← tx_anchors_are_valid valid (transactions OneYear);
  tx_anchors_are_valid valid (transactions ThirtyDay).
End Anchors.

(** ** Fees *)

Inductive RequiredFeeError : Type :=
| FeeOf (e : FeeError)
| CascadeMissing (ledger : DataLedger).

Inductive DataTxError : Type :=
| InvalidLedgerIdForTx (tx_id expected actual : Z)
| SubmitTxHasPromotedHeight (tx_id : Z)
| TermLedgerTxHasPermFee (tx_id : Z)
| DataLedgerExtractionFailed
| TxInMultipleLedgers (tx_id : Z)
| PreviousTxInclusionsFailed (e : ExpiryError + Z)
| PublishTxMissingPriorSubmit (tx_id : Z)
| PublishTxAlreadyIncluded (tx_id block_hash : Z)
| InvalidPromotionPath (tx_id : Z) (from to : DataLedger)
| SubmitTxAlreadyIncluded (tx_id : Z) (ledger : DataLedger) (block_hash : Z)
| TxFoundInMultipleBlocks (tx_id : Z) (ledger : DataLedger) (block_hash : Z)
| CanonicalLookupFailed (e : ExpiryError)
| FeeCalculationFailed (e : RequiredFeeError)
| CascadeNotConfigured (tx_id : Z)
| InsufficientPermFee (tx_id expected actual : Z)
| InsufficientTermFee (tx_id expected actual : Z)
| InvalidTermFeeStructure (tx_id : Z)
| InvalidPermFeeStructure (tx_id : Z) (e : FeeError).

Section Fees.
  Context (config : DataTxConfig).
  Notation epoch_config := (wc_epoch (dc_walk config)).
  Notation fee_params := (wc_fees (dc_walk config)).

Definition publish_replica_count_at (timestamp : Z) : Z :=
  match FeeSplit.delta_for_block fee_params timestamp with
  | Some _ => ec_num_partitions_per_slot epoch_config
  | None => number_of_ingress_proofs_total fee_params
  end.

(** [SubmitLedgerMetadata::new]: the epochs left in the cycle of a height. *)
Definition calculate_submit_ledger_expiry {E} (block_height num_blocks_in_epoch epoch_length : Z) : result E Z :=
  blocks_per_cycle ← expect (match checked_mul 64 epoch_length num_blocks_in_epoch with
                             | Some b => if 0 <? b then Some b else None
                             | None => None
                             end);
  Ok (epoch_length - (block_height mod blocks_per_cycle) / num_blocks_in_epoch).

Definition term_storage_epochs_at {E} (timestamp block_height epoch_length : Z) : result E Z :=
  match FeeSplit.delta_for_block fee_params timestamp with
  | Some _ => Ok epoch_length
  | None => calculate_submit_ledger_expiry block_height (ec_num_blocks_in_epoch epoch_config) epoch_length
  end.

Definition proof_reward_term_fee_at (timestamp tx_term_fee expected_term_fee : Z) : Z :=
  match FeeSplit.delta_for_block fee_params timestamp with Some _ => tx_term_fee | None => expected_term_fee end.

(** The epoch length and the replicas that the term fee of a ledger pays for. *)
Definition term_fee_inputs (ledger : DataLedger) (timestamp : Z) : result RequiredFeeError (Z * Z) :=
  match ledger with
  | Publish | Submit => Ok (ec_submit_ledger_epoch_length epoch_config, publish_replica_count_at timestamp)
  | OneYear | ThirtyDay =>
      cascade ← ok_or (ec_cascade epoch_config) (CascadeMissing ledger);
      Ok (if bool_decide (ledger = OneYear) then one_year_epoch_length cascade else thirty_day_epoch_length cascade,
          ec_num_partitions_per_slot epoch_config)
  end.

Definition required_term_fee_at (ledger : DataLedger) (timestamp block_height bytes_to_store ema_price : Z) : result RequiredFeeError Z :=
  inputs ← term_fee_inputs ledger timestamp;
  epochs ← term_storage_epochs_at timestamp block_height inputs.1;
  map_err (λ e, FeeOf (FeeArithmetic e)) (calculate_term_fee bytes_to_store epochs (dc_fee_config config timestamp) inputs.2 ema_price).

Definition required_publish_perm_fee_at (timestamp bytes_to_store ema_price tx_term_fee expected_term_fee : Z) : result RequiredFeeError Z :=
  reward ← map_err FeeOf (ingress_proof_reward_pool_at fee_params timestamp (proof_reward_term_fee_at timestamp tx_term_fee expected_term_fee));
  map_err (λ e, FeeOf (FeeArithmetic e))
    (calculate_perm_fee_from_config bytes_to_store (dc_fee_config config timestamp) (publish_replica_count_at timestamp) reward ema_price).

Definition check_perm_fee_sufficient (tx_id : Z) (actual_perm_fee : option Z) (expected : Z) : result DataTxError () :=
  let actual := default 0 actual_perm_fee in
  guard_err (actual <? expected) (InsufficientPermFee tx_id expected actual).

Definition validate_publish_price (tx : DataTx) (block_height timestamp ema_price : Z) : result DataTxError () :=
  expected_term_fee ← map_err FeeCalculationFailed (required_term_fee_at Publish timestamp block_height (th_data_size tx) ema_price);
  _ ← guard_err (bool_decide (is_Some (FeeSplit.delta_for_block fee_params timestamp)) && ((2 ^ 256 - 1) / PRECISION_SCALE <? th_term_fee tx))
        (InvalidTermFeeStructure (th_id tx));
  expected_perm_fee ← map_err FeeCalculationFailed
    (required_publish_perm_fee_at timestamp (th_data_size tx) ema_price (th_term_fee tx) expected_term_fee);
  _ ← check_perm_fee_sufficient (th_id tx) (th_perm_fee tx) expected_perm_fee;
  let actual_perm_fee := default 0 (th_perm_fee tx) in
  _ ← guard_err (th_term_fee tx <? expected_term_fee) (InsufficientTermFee (th_id tx) expected_term_fee (th_term_fee tx));
  _ ← map_err (λ _, InvalidTermFeeStructure (th_id tx)) (TermFeeCharges_new (th_term_fee tx) fee_params);
  _ ← map_err (InvalidPermFeeStructure (th_id tx))
        (pool ← ingress_proof_reward_pool_at fee_params timestamp (th_term_fee tx); PublishFeeCharges_new actual_perm_fee pool);
  Ok ().

Definition validate_term_only_price (tx : DataTx) (ledger : DataLedger) (block_height timestamp ema_price : Z) : result DataTxError () :=
  _ ← guard_err (bool_decide (is_Some (th_perm_fee tx))) (TermLedgerTxHasPermFee (th_id tx));
  _ ← guard_err (bool_decide (ec_cascade epoch_config = None)) (CascadeNotConfigured (th_id tx));
  expected_term_fee ← map_err FeeCalculationFailed (required_term_fee_at ledger timestamp block_height (th_data_size tx) ema_price);
  _ ← guard_err (th_term_fee tx <? expected_term_fee) (InsufficientTermFee (th_id tx) expected_term_fee (th_term_fee tx));
  _ ← map_err (λ _, InvalidTermFeeStructure (th_id tx)) (TermFeeCharges_new (th_term_fee tx) fee_params);
  Ok ().
End Fees.

(** ** Quotes *)

(** [PriceInfo] and the errors of [get_price]. *)
Record PriceInfo : Type := mkPriceInfo { pi_perm_fee : Z; pi_term_fee : Z; pi_ledger : Z; pi_bytes : Z }.

Inductive QuoteError : Type :=
| LedgerNotSupported (ledger : Z)
| SizeExceedsMaximum (max_bytes : Z)
| EmptyCanonicalChain
| EmaSnapshotNotAvailable
| TermFeeFailed (e : RequiredFeeError)
| PermFeeFailed (e : RequiredFeeError)
| SubmitNotTargetable
| CascadeNotActive (ledger : DataLedger)
| CascadeHardforkMissing.

(** The last block of the canonical chain with its EMA snapshot in the tree. *)
Record Tip : Type := mkTip { tip_height : Z; tip_timestamp_secs : Z; tip_ema : option EmaSnapshot }.

Section Quotes.
  Context (config : DataTxConfig) (max_data_tx_chunks price_adjustment_interval : Z).

(** The term fee that is quoted, with the price it was computed with. *)
Definition quoted_term_fee (tip : option Tip) (ledger : DataLedger) (bytes : Z) : result QuoteError (Tip * Z * Z) :=
  last ← ok_or tip EmptyCanonicalChain;
  ema ← ok_or (tip_ema last) EmaSnapshotNotAvailable;
  next_block_height ← expect (checked_add 64 (tip_height last) 1);
  let pricing_ema := ema_for_public_quote ema (tip_height last) price_adjustment_interval in
  term_fee ← map_err TermFeeFailed (required_term_fee_at config ledger (tip_timestamp_secs last) next_block_height bytes pricing_ema);
  Ok (last, pricing_ema, term_fee).

Definition get_price (cascade_for_epoch : bool) (tip : option Tip) (ledger bytes_to_store : Z) : result QuoteError PriceInfo :=
  let chunk_size := wc_chunk_size (dc_walk config) in
  data_ledger ← ok_or (ledger_of_id ledger) (LedgerNotSupported ledger);
  if chunk_size =? 0 then Panic
  else
    let chunks := div_ceil (Z.max chunk_size bytes_to_store) chunk_size in
    if max_data_tx_chunks <? chunks then
      max_bytes ← expect (checked_mul 64 max_data_tx_chunks chunk_size);
      Err (SizeExceedsMaximum max_bytes)
    else
      bytes_to_store ← expect (checked_mul 64 chunks chunk_size);
      match data_ledger with
      | Publish =>
          q ← quoted_term_fee tip Publish bytes_to_store;
          let '(last, pricing_ema, term_fee) := (q : Tip * Z * Z) in
          total_perm_cost ← map_err PermFeeFailed
            (required_publish_perm_fee_at config (tip_timestamp_secs last) bytes_to_store pricing_ema term_fee term_fee);
          Ok (mkPriceInfo total_perm_cost term_fee ledger bytes_to_store)
      | Submit => Err SubmitNotTargetable
      | OneYear | ThirtyDay =>
          _ ← guard_err (negb cascade_for_epoch) (CascadeNotActive data_ledger);
          _ ← guard_err (bool_decide (ec_cascade (wc_epoch (dc_walk config)) = None)) CascadeHardforkMissing;
          q ← quoted_term_fee tip data_ledger bytes_to_store;
          Ok (mkPriceInfo 0 (q : Tip * Z * Z).2 ledger bytes_to_store)
      end.
End Quotes.

(** ** Prior inclusions *)

(** A ledger together with the hash of a block. *)
Notation Place := (DataLedger * Z)%type.

Inductive TxInclusionState : Type :=
| Searching (ledger_current : DataLedger)
| Found (ledger_current ledger_historical : Place)
| Duplicate (ledger_historical : Place).

Definition merge_same_block_historical_ledgers (existing incoming : DataLedger) : option DataLedger :=
  match existing, incoming with
  | Submit, Publish | Publish, Submit => Some Publish
  | _, _ => None
  end.

(** The state of a transaction that is found in a ledger of an ancestor. *)
Definition found_in (current_block_hash : Z) (ledger_type : DataLedger) (historical_block_hash : Z) (state : TxInclusionState) : TxInclusionState :=
  match state with
  | Searching ledger_current => Found (ledger_current, current_block_hash) (ledger_type, historical_block_hash)
  | Found ledger_current ledger_historical =>
      match (if ledger_historical.2 =? historical_block_hash then merge_same_block_historical_ledgers ledger_historical.1 ledger_type else None) with
      | Some merged => Found ledger_current (merged, historical_block_hash)
      | None => Duplicate (ledger_type, historical_block_hash)
      end
  | Duplicate _ => state
  end.

Notation TxStates := (gmap Z (DataTx * TxInclusionState)).

Fixpoint process_block_ledgers_with_states (ledgers : list DataTransactionLedger) (historical_block_hash current_block_hash : Z) (tx_states : TxStates)
  : result (ExpiryError + Z) TxStates :=
  match ledgers with
  | [] => Ok tx_states
  | ledger :: rest =>
      ledger_type ← ok_or (ledger_of_id (tl_ledger_id ledger)) (inr (tl_ledger_id ledger));
      let tx_states := foldl (λ m tx_id, alter (prod_map (λ tx, tx) (found_in current_block_hash ledger_type historical_block_hash)) tx_id m) tx_states (tl_tx_ids ledger) in
      process_block_ledgers_with_states rest historical_block_hash current_block_hash tx_states
  end.

Section DataTxs.
  Context `{DupSort} `{MapOrder} {P : Type} (v : ExpiryView) (config : DataTxConfig).

(** The visitor of the walk.  An error ends the walk: it is kept as the state. *)
Definition visit_inclusions (current_block_hash : Z) (header : LedgerHeader) (st : result (ExpiryError + Z) TxStates)
  : result (ExpiryError + Z) TxStates * bool :=
  if lh_block_hash header =? current_block_hash then (st, false)
  else
    let st := m ← st; process_block_ledgers_with_states (lh_data_ledgers header) (lh_block_hash header) current_block_hash m in
    (st, negb (is_ok st)).

Definition get_previous_tx_inclusions (tx_ids : TxStates) (block : ShadowBlock P) (walk_depth : Z) : result (ExpiryError + Z) TxStates :=
  if bool_decide (tx_ids = ∅) then Ok tx_ids
  else
    let walk_min_height := saturating_sub (lh_height (sb_header block)) walk_depth in
    st ← map_err inl (walk_ancestors_tree_then_db v (visit_inclusions (lh_block_hash (sb_header block))) (walk_fuel v (lh_block_hash (sb_header block))) true (lh_block_hash (sb_header block))
                        walk_min_height (Ok tx_ids));
    st.

(** ** Placement *)

(** The checks of one ledger before anything is looked up. *)
Fixpoint txs_well_placed (ledger : DataLedger) (txs : list DataTx) : result DataTxError () :=
  match txs with
  | [] => Ok ()
  | tx :: rest =>
      let expected := match ledger with Submit => ledger_id Publish | _ => ledger_id ledger end in
      _ ← guard_err (negb (dt_ledger_id tx =? expected)) (InvalidLedgerIdForTx (th_id tx) expected (dt_ledger_id tx));
      _ ← match ledger with
          | Submit => guard_err (bool_decide (is_Some (dt_promoted_height tx))) (SubmitTxHasPromotedHeight (th_id tx))
          | Publish => Ok ()
          | OneYear | ThirtyDay => guard_err (bool_decide (is_Some (th_perm_fee tx))) (TermLedgerTxHasPermFee (th_id tx))
          end;
      txs_well_placed ledger rest
  end.

(** The first state of a transaction of the Publish or Submit ledger. *)
Definition initial_state (block_hash : Z) (same_block_promotions : list Z) (ledger : DataLedger) (id : Z) : TxInclusionState :=
  if bool_decide (id ∈ same_block_promotions) then Found (Publish, block_hash) (Submit, block_hash) else Searching ledger.

Fixpoint insert_term_txs (ledger : DataLedger) (txs : list DataTx) (m : TxStates) : result DataTxError TxStates :=
  match txs with
  | [] => Ok m
  | tx :: rest =>
      _ ← guard_err (bool_decide (is_Some (m !! th_id tx))) (TxInMultipleLedgers (th_id tx));
      insert_term_txs ledger rest (<[th_id tx := (tx, Searching ledger)]> m)
  end.

Definition txs_to_check (block_hash : Z) (transactions : DataLedger → list DataTx) : result DataTxError TxStates :=
  let ids ledger := (λ tx : DataTx, th_id tx) <$> transactions ledger in
  let same_block_promotions := filter (λ id, id ∈ ids Publish) (ids Submit) in
  let insert_all ledger m := foldl (λ m (tx : DataTx), <[th_id tx := (tx, initial_state block_hash same_block_promotions ledger (th_id tx))]> m) m (transactions ledger) in
  m ← insert_term_txs OneYear (transactions OneYear) (insert_all Submit (insert_all Publish ∅));
  insert_term_txs ThirtyDay (transactions ThirtyDay) m.

(** A promotion whose Submit block is outside the window of the walk. *)
Definition old_promotion_is_valid (block_height id : Z) : result DataTxError () :=
  let fallback_cap := saturating_sub (saturating_sub block_height (prior_inclusion_walk_depth (dc_walk config))) 1 in
  submit_lookup ← map_err CanonicalLookupFailed (canonical_submit_height v id fallback_cap);
  _ ← guard_err (bool_decide (submit_lookup = None)) (PublishTxMissingPriorSubmit id);
  promoted_lookup ← map_err CanonicalLookupFailed (canonical_promoted_height v id fallback_cap);
  match promoted_lookup with
  | Some promoted_height =>
      promoted_block_hash ← ok_or (migrated_hashes (v_index v) !! promoted_height) (CanonicalLookupFailed (MetadataInconsistent promoted_height));
      Err (PublishTxAlreadyIncluded id promoted_block_hash)
  | None => Ok ()
  end.

Definition inclusion_is_valid (block : ShadowBlock P) (ema_price : Z) (entry : DataTx * TxInclusionState) : result DataTxError () :=
  let '(tx, past_inclusion) := entry in
  let id := th_id tx in
  let height := lh_height (sb_header block) in
  let timestamp := sb_timestamp_secs block in
  match past_inclusion with
  | Searching Publish => old_promotion_is_valid height id
  | Searching Submit => validate_publish_price config tx height timestamp ema_price
  | Searching ledger => validate_term_only_price config tx ledger height timestamp ema_price
  | Found (Publish, current) (Submit, historical) =>
      if (current =? historical) && (current =? lh_block_hash (sb_header block)) then validate_publish_price config tx height timestamp ema_price else Ok ()
  | Found (Publish, _) (Publish, historical) => Err (PublishTxAlreadyIncluded id historical)
  | Found (Publish, _) (ledger, _) => Err (InvalidPromotionPath id ledger Publish)
  | Found _ (ledger, historical) => Err (SubmitTxAlreadyIncluded id ledger historical)
  | Duplicate (ledger, historical) => Err (TxFoundInMultipleBlocks id ledger historical)
  end.

Fixpoint all_valid (check : DataTx * TxInclusionState → result DataTxError ()) (entries : list (DataTx * TxInclusionState)) : result DataTxError () :=
  match entries with
  | [] => Ok ()
  | entry :: rest => _ ← check entry; all_valid check rest
  end.

(** [data_txs_are_valid] before its checks of ingress proofs. *)
Definition data_txs_placed (block : ShadowBlock P) (transactions : DataLedger → list DataTx) (es : EpochSnapshot) (ema_price : Z) : result DataTxError () :=
  _ ← txs_well_placed Submit (transactions Submit);
  _ ← txs_well_placed Publish (transactions Publish);
  _ ← txs_well_placed OneYear (transactions OneYear);
  _ ← txs_well_placed ThirtyDay (transactions ThirtyDay);
  _ ← ok_or (extract_data_ledgers block (epoch_cascade (wc_epoch (dc_walk config)) es)) DataLedgerExtractionFailed;
  states ← txs_to_check (lh_block_hash (sb_header block)) transactions;
  states ← map_err PreviousTxInclusionsFailed (get_previous_tx_inclusions states block (prior_inclusion_walk_depth (dc_walk config)));
  all_valid (inclusion_is_valid block ema_price) (map_values states).
End DataTxs.

(** ** Ingress proofs *)

Inductive IngressError : Type :=
| PublishLedgerMissing
| PublishLedgerProofCountMismatch (proof_count tx_count : nat)
| IngressProofCountMismatch (expected actual : Z)
| InvalidIngressProof (tx_id : Z)
| UnstakedIngressProofSigner (tx_id signer : Z)
| DuplicateIngressProofSigner (tx_id signer : Z)
| IngressProofsMissing
| IngressProofSignatureInvalid.

(** A ledger of a block with its proofs and their required number. *)
Record BlockLedger (P : Type) : Type := mkBlockLedger {
  bl_ledger : DataTransactionLedger;
  bl_proofs : option (list P);
  bl_required_proof_count : option Z
}.
Arguments mkBlockLedger {P}.
Arguments bl_ledger {P}.
Arguments bl_proofs {P}.
Arguments bl_required_proof_count {P}.
Definition block_ledgers {P} (block : ShadowBlock P) : list (BlockLedger P) :=
  zip_with (λ l p, mkBlockLedger l p.1 p.2) (lh_data_ledgers (sb_header block)) (sb_ledger_proofs block).

Section Ingress.
  (** The signer that a signature recovers to, and the data root that a proof is for. *)
  Context {P : Type} (recover_signer : P → option Z) (proof_data_root : P → list byte).

(** The proofs of a transaction; [None] for any of the errors. *)
Definition get_ingress_proofs (data_ledger : BlockLedger P) (txid : Z) : option (list P) :=
  index ← fst <$> list_find (λ id, id = txid) (tl_tx_ids (bl_ledger data_ledger));
  proof_count ← Z.to_nat <$> bl_required_proof_count data_ledger;
  proofs_list ← bl_proofs data_ledger;
  let start_index := (index * proof_count)%nat in
  let end_index := (start_index + proof_count)%nat in
  if (length proofs_list <? end_index)%nat then None else Some (take proof_count (drop start_index proofs_list)).

Definition pre_validate (proof : P) (data_root : list byte) : option Z :=
  if bool_decide (proof_data_root proof = data_root) then recover_signer proof else None.

Definition publish_ingress_proof_count_is_valid (publish_ledger : BlockLedger P) (publish_tx_count : nat) (n : Z) : result IngressError () :=
  match bl_proofs publish_ledger with
  | None => Ok ()
  | Some proofs =>
      _ ← guard_err (negb (length proofs =? publish_tx_count * Z.to_nat n)%nat) (PublishLedgerProofCountMismatch (length proofs) publish_tx_count);
      let required_proof_count := default 0 (bl_required_proof_count publish_ledger) in
      guard_err (negb (required_proof_count =? n)) (IngressProofCountMismatch n required_proof_count)
  end.

(** The signers of the proofs of a transaction, with how often each has signed. *)
Fixpoint signer_counts (es : EpochSnapshot) (tx_id : Z) (proofs : list P) (counts : gmap Z nat) : result IngressError (gmap Z nat) :=
  match proofs with
  | [] => Ok counts
  | proof :: rest =>
      signer ← ok_or (recover_signer proof) (InvalidIngressProof tx_id);
      _ ← guard_err (negb (is_staked es signer)) (UnstakedIngressProofSigner tx_id signer);
      signer_counts es tx_id rest (<[signer := S (default 0%nat (counts !! signer))]> counts)
  end.

Fixpoint signers_of_txs (es : EpochSnapshot) (publish_ledger : BlockLedger P) (ids : list Z) : result IngressError () :=
  match ids with
  | [] => Ok ()
  | tx_id :: rest =>
      tx_proofs ← ok_or (get_ingress_proofs publish_ledger tx_id) (InvalidIngressProof tx_id);
      counts ← signer_counts es tx_id tx_proofs ∅;
      _ ← match List.find (λ sc, negb (sc.2 =? 1)%nat) (map_to_list counts) with
          | Some (signer, _) => Err (DuplicateIngressProofSigner tx_id signer)
          | None => Ok ()
          end;
      signers_of_txs es publish_ledger rest
  end.

Definition find_publish (block : ShadowBlock P) : result IngressError (BlockLedger P) :=
  ok_or (List.find (λ l, tl_ledger_id (bl_ledger l) =? ledger_id Publish) (block_ledgers block)) PublishLedgerMissing.

Definition validate_ingress_proof_signers (block : ShadowBlock P) (es : EpochSnapshot) : result IngressError () :=
  publish_ledger ← find_publish block;
  match bl_proofs publish_ledger with
  | None => Ok ()
  | Some proofs_list =>
      let ids := tl_tx_ids (bl_ledger publish_ledger) in
      _ ← guard_err (bool_decide (ids = []) && negb (bool_decide (proofs_list = []))) (PublishLedgerProofCountMismatch (length proofs_list) 0);
      signers_of_txs es publish_ledger ids
  end.

(** The pairs of proofs and data roots that are checked in parallel. *)
Fixpoint ingress_pairs (publish_ledger : BlockLedger P) (txs : list DataTx) : result IngressError (list (P * list byte)) :=
  match txs with
  | [] => Ok []
  | tx_header :: rest =>
      tx_proofs ← ok_or (get_ingress_proofs publish_ledger (th_id tx_header)) IngressProofsMissing;
      pairs ← ingress_pairs publish_ledger rest;
      Ok (((λ proof, (proof, th_data_root tx_header)) <$> tx_proofs) ++ pairs)
  end.

(** The checks of ingress proofs in [prevalidate_block], in its order. *)
Definition prevalidate_ingress_proofs (block : ShadowBlock P) (transactions : DataLedger → list DataTx) (es : EpochSnapshot) (n : Z) : result IngressError () :=
  let publish_txs := transactions Publish in
  publish_ledger ← find_publish block;
  _ ← publish_ingress_proof_count_is_valid publish_ledger (length publish_txs) n;
  _ ← validate_ingress_proof_signers block es;
  pairs ← ingress_pairs publish_ledger publish_txs;
  guard_err (negb (forallb (λ pr, bool_decide (is_Some (pre_validate pr.1 pr.2))) pairs)) IngressProofSignatureInvalid.
End Ingress.
