(* ===== verification/DataTxsTheorems.v ===== *)
(** What the checks of data transactions guarantee: a body is paired with its header, an
    accepted anchor is a recent block of the chain, the walk over ancestors finds every place
    of a transaction, and so a chain of accepted blocks stores each transaction once; the
    ingress proofs of a promotion are of distinct stakers.  The last part is an example. *)

From S2P Require Import TreeHash Pricing Ema EmaTheorems StateErr DataLedger EpochSnapshot EpochInv LedgerExpiry Codec Packing Merkle BlockIndex BlockIndexFacts IndexFile Poa PoaFacts PoaTheorems FeeSplit BTree ExpiryWalk ExpirySettle ExpiryCollect Promotion EpochExample ExpiryFees ExpiryTheorems ExpiryExample ShadowTx ShadowExec ShadowGen ShadowValidate DataTxs Prelude.

Notation tx_ids := (fmap (λ tx : DataTx, th_id tx)).

(** ** Bodies of blocks *)

Lemma ledger_of_id_Some id l : ledger_of_id id = Some l ↔ id = ledger_id l.
Proof. split; [apply ledger_of_id_eq|intros ->; apply ledger_of_id_id]. Qed.

(** A header as [order_transactions] accepts it. *)
Record sealed_ledgers (ledgers : list DataTransactionLedger) : Prop := {
  sl_known dl : dl ∈ ledgers → is_Some (ledger_of_id (tl_ledger_id dl));
  sl_distinct : NoDup (tl_ledger_id <$> ledgers);
  sl_nodup dl : dl ∈ ledgers → NoDup (tl_tx_ids dl)
}.

Definition keyed (m : gmap Z DataTx) : Prop := ∀ id (tx : DataTx), m !! id = Some tx → th_id tx = id.

Lemma order_ledger_spec l ids seen m taken m' txs :
  keyed m → order_ledger l ids seen m taken = Ok (m', txs) → keyed m' ∧ tx_ids txs = ids ∧ NoDup ids ∧ ∀ id, id ∈ ids → id ∉ seen.
Proof.
  revert seen m m' txs. induction ids as [|x ids IH]; intros seen m m' txs Hm; cbn [order_ledger].
  { intros [= <- <-]. split_and!; [done|done|constructor|]. by intros id ?%elem_of_nil. }
  case_bool_decide as Hx; res_simpl; [done|].
  destruct (match m !! x with Some tx => Some tx | None => _ end) as [tx|] eqn:Htx; res_simpl; [|done].
  assert (Hid : th_id tx = x).
  { destruct (m !! x) eqn:Hmx; [injection Htx as <-; by apply Hm|]. apply find_some in Htx as [_ Htx]. by apply Z.eqb_eq in Htx. }
  destruct (order_ledger l ids (x :: seen) (delete x m) taken) as [[m1 txs1]| |] eqn:Hr; res_simpl; [|done..]. intros [= <- <-]. cbn [fst snd].
  apply IH in Hr as (Hm1 & Hids & Hnd & Hseen).
  - split_and!; [done|by rewrite fmap_cons, Hids, Hid| |].
    + apply NoDup_cons. split; [|done]. intros Hin. apply (Hseen x Hin). by left.
    + intros id [->|Hin]%elem_of_cons; [done|]. intros Hs. apply (Hseen id Hin). by right.
  - intros id tx' [_ ?]%lookup_delete_Some. by apply Hm.
Qed.

Lemma order_ledgers_spec ledgers m taken m' taken' :
  keyed m → NoDup taken.*1 → order_ledgers ledgers m taken = Ok (m', taken') →
  ∃ new, taken' = taken ++ new ∧ NoDup taken'.*1 ∧
    Forall2 (λ dl e, tl_ledger_id dl = ledger_id e.1 ∧ tx_ids e.2 = tl_tx_ids dl ∧ NoDup (tl_tx_ids dl)) ledgers new.
Proof.
  revert m taken. induction ledgers as [|dl ledgers IH]; intros m taken Hm Hnd; cbn [order_ledgers].
  { intros [= <- <-]. exists []. rewrite app_nil_r. by split_and!. }
  destruct (ledger_of_id (tl_ledger_id dl)) as [l|] eqn:Hl; res_simpl; [|done]. apply ledger_of_id_Some in Hl. case_bool_decide as Hin; res_simpl; [done|].
  destruct (order_ledger l (tl_tx_ids dl) [] m taken) as [[m1 txs]| |] eqn:Hr; res_simpl; [|done..]. cbn [fst snd].
  apply order_ledger_spec in Hr as (Hm1 & Hids & Hndi & _); [|done]. intros Hgo. apply IH in Hgo as (new & -> & Hnd' & Hall); [|done|].
  - exists ((l, txs) :: new). rewrite <- app_assoc in *. split_and!; [done|done|]. constructor; [|done]. by split_and!.
  - rewrite fmap_app. apply NoDup_app. split_and!; [done| |apply NoDup_singleton]. intros x Hx ->%list_elem_of_singleton. done.
Qed.

Lemma order_transactions_ok ledgers body txs : order_transactions ledgers body = Ok txs →
  sealed_ledgers ledgers ∧ (∀ l, tx_ids (ledger_txs txs l) = default [] (tl_tx_ids <$> List.find (λ dl, tl_ledger_id dl =? ledger_id l) ledgers)).
Proof.
  unfold order_transactions. set (m := foldl _ _ _). assert (Hm : keyed m).
  { unfold m. assert (keyed ∅) as H0 by done. revert H0. generalize (∅ : gmap Z DataTx). induction body as [|tx body IH]; intros m0 H0; [done|].
    cbn [foldl]. apply IH. intros id tx'. rewrite lookup_insert_Some. intros [[<- <-]|[_ ?]]; [done|by apply H0]. }
  destruct (order_ledgers ledgers m []) as [[m' txs']| |] eqn:Hr; res_simpl; [|done..]. cbn [fst snd]. case_bool_decide; res_simpl; [|done]. intros [= <-].
  apply order_ledgers_spec in Hr as (new & -> & Hnd & Hall); [|done|constructor]. cbn [app] in *.
  assert (Hids : tl_ledger_id <$> ledgers = ledger_id <$> new.*1).
  { clear -Hall. induction Hall as [|dl e ledgers new (Hid & _) Hall IH]; [done|]. by rewrite !fmap_cons, IH, Hid. }
  split; [split|].
  - intros dl Hdl. pose proof (Forall2_Forall_l _ (λ dl, is_Some (ledger_of_id (tl_ledger_id dl))) _ _ Hall) as Hf. apply (Forall_forall _ _) with (x := dl) in Hf; [done| |done].
    apply Forall_forall. intros e _ dl' (-> & _). exists e.1. by apply ledger_of_id_Some.
  - rewrite Hids. apply NoDup_fmap_2; [|done]. intros l l' Heq. by destruct l, l'.
  - intros dl Hdl. pose proof (Forall2_Forall_l _ (λ dl, NoDup (tl_tx_ids dl)) _ _ Hall) as Hf. apply (Forall_forall _ _) with (x := dl) in Hf; [done| |done].
    apply Forall_forall. by intros e _ dl' (_ & _ & ?).
  - intros l. unfold ledger_txs. clear -Hall. induction Hall as [|dl e ledgers new (Hid & Htx & _) Hall IH]; [done|]. cbn [List.find].
    rewrite Hid. destruct (bool_decide_reflect (e.1 = l)) as [<-|Hne]; [by rewrite Z.eqb_refl|].
    destruct (Z.eqb_spec (ledger_id e.1) (ledger_id l)) as [Heq|]; [destruct Hne; by destruct e.1, l|done].
Qed.

(** The transactions of the ledgers are those of the body. *)
Lemma order_ledger_all (Q : DataTx → Prop) l ids seen m taken m' txs : map_Forall (λ _, Q) m → Forall (λ e, Forall Q e.2) taken →
  order_ledger l ids seen m taken = Ok (m', txs) → map_Forall (λ _, Q) m' ∧ Forall Q txs.
Proof.
  intros Hm Ht. revert seen m m' txs Hm. induction ids as [|x ids IH]; intros seen m m' txs Hm; cbn [order_ledger]; [by intros [= <- <-]|].
  case_bool_decide; res_simpl; [done|]. destruct (match m !! x with Some tx => Some tx | None => _ end) as [tx|] eqn:Htx; res_simpl; [|done].
  assert (HQ : Q tx).
  { destruct (m !! x) eqn:Hx; [injection Htx as <-; by apply (Hm x)|]. apply find_some in Htx as [(e & He & Hin)%in_concat _]. apply list_elem_of_In in Hin, He.
    apply list_elem_of_fmap in He as (e' & -> & He'). eapply (proj1 (Forall_forall _ _)) in He'; [|exact Ht]. by apply (proj1 (Forall_forall _ _) He'). }
  destruct (order_ledger l ids (x :: seen) (delete x m) taken) as [[m1 txs1]| |] eqn:Hr; res_simpl; [|done..]. intros [= <- <-]. cbn [fst snd].
  apply IH in Hr as [Hm1 Htxs]; [by split; [|constructor]|]. by apply map_Forall_delete.
Qed.

Lemma order_transactions_all (Q : DataTx → Prop) ledgers body txs l tx : Forall Q body → order_transactions ledgers body = Ok txs → tx ∈ ledger_txs txs l → Q tx.
Proof.
  intros Hb. unfold order_transactions. set (m := foldl _ _ _). assert (Hm : map_Forall (λ _, Q) m).
  { unfold m. assert (map_Forall (λ _, Q) (∅ : gmap Z DataTx)) as H0 by apply map_Forall_empty. revert H0. generalize (∅ : gmap Z DataTx). clear m.
    induction Hb as [|t body Ht Hb IH]; intros m0 H0; [done|]. cbn [foldl]. apply IH. by apply map_Forall_insert_2. }
  destruct (order_ledgers ledgers m []) as [[m' txs']| |] eqn:Hr; res_simpl; [|done..]. cbn [fst snd]. case_bool_decide; res_simpl; [|done]. intros [= <-].
  assert (Hall : Forall (λ e, Forall Q e.2) txs').
  { clear Hb. assert (Ht : Forall (λ e : DataLedger * list DataTx, Forall Q e.2) []) by constructor. revert Hr Hm Ht. generalize m, ([] : list (DataLedger * list DataTx)). clear m.
    induction ledgers as [|dl ledgers IH]; intros m taken Hr Hm Ht; cbn [order_ledgers] in Hr; [by injection Hr as <- <-|].
    destruct (ledger_of_id _) as [l0|]; res_simpl in Hr; [|done]. case_bool_decide; res_simpl in Hr; [done|].
    destruct (order_ledger l0 _ [] m taken) as [[m1 txs1]| |] eqn:H1; res_simpl in Hr; [|done..]. cbn [fst snd] in Hr. apply (order_ledger_all Q) in H1 as [Hm1 Htx1]; [|done|done].
    apply (IH _ _ Hr Hm1). apply Forall_app. split; [done|]. by constructor. }
  unfold ledger_txs. destruct (List.find _ _) as [e|] eqn:Hf; cbn; [|by intros ?%elem_of_nil]. apply find_some in Hf as [Hin%list_elem_of_In _].
  intros Htx. eapply (proj1 (Forall_forall _ _)) in Hin; [|exact Hall]. by apply (proj1 (Forall_forall _ _) Hin).
Qed.

(** ** Places of a transaction *)

(** Where a block has a transaction, in the order of its ledgers. *)
Definition ledger_places (id hash : Z) (dl : DataTransactionLedger) : list (DataLedger * Z) :=
  match ledger_of_id (tl_ledger_id dl) with
  | Some l => (λ _, (l, hash)) <$> filter (λ x, x = id) (tl_tx_ids dl)
  | None => []
  end.
Definition places (id : Z) (h : LedgerHeader) : list (DataLedger * Z) := lh_data_ledgers h ≫= ledger_places id (lh_block_hash h).

Lemma ledger_places_in id hash dl p :
  p ∈ ledger_places id hash dl ↔ ∃ l, tl_ledger_id dl = ledger_id l ∧ p = (l, hash) ∧ id ∈ tl_tx_ids dl.
Proof.
  unfold ledger_places. destruct (ledger_of_id (tl_ledger_id dl)) as [l|] eqn:Hl.
  - apply ledger_of_id_Some in Hl. rewrite list_elem_of_fmap. setoid_rewrite list_elem_of_filter. split.
    + intros (x & -> & -> & Hin). by exists l.
    + intros (l' & Hl' & -> & Hin). exists id. assert (l = l') as -> by (rewrite Hl in Hl'; by destruct l, l'). done.
  - rewrite elem_of_nil. split; [done|]. intros (l & Hid & _). rewrite Hid, ledger_of_id_id in Hl. done.
Qed.

Lemma same_ledger ledgers d1 d2 : sealed_ledgers ledgers → d1 ∈ ledgers → d2 ∈ ledgers → tl_ledger_id d1 = tl_ledger_id d2 → d1 = d2.
Proof.
  intros Hs [i Hi]%list_elem_of_lookup [j Hj]%list_elem_of_lookup Heq. assert (i = j) as ->; [|congruence].
  apply (NoDup_lookup (tl_ledger_id <$> ledgers) i j (tl_ledger_id d1)); [apply (sl_distinct _ Hs)|..]; rewrite list_lookup_fmap.
  - by rewrite Hi.
  - rewrite Hj, Heq. done.
Qed.

Lemma includes_spec h l id : sealed_ledgers (lh_data_ledgers h) →
  block_includes_ledger_tx h l id = true ↔ ∃ dl, dl ∈ lh_data_ledgers h ∧ tl_ledger_id dl = ledger_id l ∧ id ∈ tl_tx_ids dl.
Proof.
  intros Hs. unfold block_includes_ledger_tx, ledger_tx_ids_in, ledger_of_header. destruct (List.find _ _) as [dl|] eqn:Hf; cbn [fmap option_fmap option_map].
  - apply find_some in Hf as [Hin Hid]. apply list_elem_of_In in Hin. apply Z.eqb_eq in Hid. rewrite bool_decide_eq_true. split; [by exists dl|].
    intros (dl' & Hin' & Hid' & Hx). assert (dl' = dl) as ->; [|done].
    apply (same_ledger _ dl' dl Hs); [done|done|congruence].
  - split; [done|]. intros (dl & Hin & Hid & _). apply list_elem_of_In in Hin. apply (find_none _ _ Hf) in Hin. rewrite Hid, Z.eqb_refl in Hin. done.
Qed.

Lemma places_in id h l hash : sealed_ledgers (lh_data_ledgers h) →
  (l, hash) ∈ places id h ↔ hash = lh_block_hash h ∧ block_includes_ledger_tx h l id = true.
Proof.
  intros Hs. unfold places. rewrite list_elem_of_bind. setoid_rewrite ledger_places_in. rewrite includes_spec by done. split.
  - intros (dl & (l' & Hid & [= -> ->] & Hx) & Hdl). split; [done|]. by exists dl.
  - intros (-> & dl & Hdl & Hid & Hx). exists dl. split; [by exists l|done].
Qed.

Lemma NoDup_places id h : sealed_ledgers (lh_data_ledgers h) → NoDup (places id h).
Proof.
  intros Hs. unfold places. apply NoDup_bind.
  - intros d1 d2 p H1 H2 (l1 & Hi1 & -> & _)%ledger_places_in (l2 & Hi2 & [= <-] & _)%ledger_places_in.
    apply (same_ledger _ d1 d2 Hs); [done|done|congruence].
  - intros dl Hdl. unfold ledger_places. destruct (ledger_of_id _) as [l|]; [|constructor].
    pose proof (NoDup_filter (λ x, x = id) _ (sl_nodup _ Hs dl Hdl)) as Hnd. revert Hnd. assert (Hall : Forall (λ x, x = id) (filter (λ x, x = id) (tl_tx_ids dl))) by (apply Forall_forall; by intros x [? _]%list_elem_of_filter).
    destruct (filter _ _) as [|x [|y r]]; [intros; constructor|intros; apply NoDup_singleton|].
    intros [Hx _]%NoDup_cons. destruct Hx. apply Forall_cons in Hall as [-> Hall]. apply Forall_cons in Hall as [-> _]. by left.
  - apply (NoDup_fmap_1 tl_ledger_id), (sl_distinct _ Hs).
Qed.

(** ** The state of a transaction over its places *)

Definition found_all (current : Z) (state : TxInclusionState) (ps : list (DataLedger * Z)) : TxInclusionState :=
  foldl (λ s p, found_in current p.1 p.2 s) state ps.

Lemma found_all_app cur s ps qs : found_all cur s (ps ++ qs) = found_all cur (found_all cur s ps) qs.
Proof. apply foldl_app. Qed.

Lemma found_duplicate cur p ps : found_all cur (Duplicate p) ps = Duplicate p.
Proof. by induction ps. Qed.

Lemma found_found cur c p ps : (∃ q, found_all cur (Found c p) ps = Found c q) ∨ (∃ q, found_all cur (Found c p) ps = Duplicate q).
Proof.
  revert p. induction ps as [|q ps IH]; intros p; [left; by exists p|]. cbn [found_all foldl found_in].
  destruct (if p.2 =? q.2 then _ else None) as [l|]; [apply IH|]. right. exists q. rewrite <- surjective_pairing. apply found_duplicate.
Qed.

Lemma found_searching cur l ps :
  (ps = [] ∧ found_all cur (Searching l) ps = Searching l) ∨
  ps ≠ [] ∧ ((∃ q, found_all cur (Searching l) ps = Found (l, cur) q) ∨ (∃ q, found_all cur (Searching l) ps = Duplicate q)).
Proof. destruct ps as [|p ps]; [by left|]. right. split; [done|]. apply (found_found cur (l, cur) (p.1, p.2) ps). Qed.

(** Another place of a transaction that its own block promotes. *)
Lemma found_same_block cur c l ps : ps ≠ [] → (∀ p, p ∈ ps → p.2 ≠ cur) → ∃ q, found_all cur (Found c (l, cur)) ps = Duplicate q.
Proof.
  destruct ps as [|p ps]; [done|]. intros _ Hne. exists p. cbn [found_all foldl found_in snd]. destruct (Z.eqb_spec cur p.2) as [Heq|].
  - destruct (Hne p); [by left|done].
  - rewrite <- surjective_pairing. apply found_duplicate.
Qed.

(** What is found is one of the places. *)
Lemma found_place cur s ps c q :
  found_all cur s ps = Found c q → q ∈ ps ∨ s = Found c q.
Proof.
  revert s c q. induction ps as [|p ps IH] using rev_ind; intros s c q Hs; [by right|]. rewrite found_all_app in Hs. cbn [found_all foldl] in Hs.
  destruct (found_all cur s ps) as [l|c' q'|q'] eqn:Hf; cbn [found_in] in Hs; [| |done].
  - injection Hs as <- <-. left. apply elem_of_app. right. rewrite <- surjective_pairing. by left.
  - destruct (if q'.2 =? p.2 then _ else None) as [l|] eqn:Hm; [|done]. injection Hs as <- <-. destruct (Z.eqb_spec q'.2 p.2) as [Heq|]; [|done].
    destruct q' as [lq hq], p as [lp hp]. cbn [fst snd] in *. subst hq. destruct lq, lp; cbn in Hm; try done; injection Hm as <-.
    + destruct (IH _ _ _ Hf) as [Hin| ->]; [left; apply elem_of_app; by left|by right].
    + left. apply elem_of_app. right. by left.
Qed.

(** A promotion among the places is found, or the transaction is a duplicate. *)
Lemma found_publish cur s ps hash : (Publish, hash) ∈ ps →
  (∃ c h, found_all cur s ps = Found c (Publish, h)) ∨ (∃ q, found_all cur s ps = Duplicate q).
Proof.
  revert s. induction ps as [|p ps IH] using rev_ind; intros s Hin; [by apply elem_of_nil in Hin|]. rewrite found_all_app. cbn [found_all foldl].
  apply elem_of_app in Hin as [Hin|Hin].
  - destruct (IH s Hin) as [(c & h & ->)|(q & ->)]; cbn [found_in fst snd]; [|right; by eexists].
    destruct (h =? p.2); [|right; by eexists]. destruct p.1; cbn; try (right; by eexists). left. by eexists _, _.
  - apply list_elem_of_singleton in Hin as <-. cbn [fst snd]. destruct (found_all cur s ps) as [l|c [l h]|q]; cbn [found_in fst snd]; [left; by eexists _, _| |right; by eexists].
    destruct (h =? hash); [|right; by eexists]. destruct l; cbn; try (right; by eexists). left. by eexists _, _.
Qed.

(** ** One ancestor *)

Lemma foldl_alter {A} (f : A → A) (ids : list Z) (m : gmap Z A) (id : Z) :
  foldl (λ m x, alter f x m) m ids !! id = (λ a, foldl (λ a _, f a) a (filter (λ x, x = id) ids)) <$> m !! id.
Proof.
  revert m. induction ids as [|x ids IH]; intros m; [rewrite filter_nil; cbn [foldl]; by destruct (m !! id)|]. cbn [foldl]. rewrite IH. rewrite filter_cons. destruct (decide (x = id)) as [->|Hne].
  - rewrite lookup_alter_eq. cbn [foldl]. by destruct (m !! id).
  - by rewrite lookup_alter_ne.
Qed.

Lemma process_ok ledgers hash cur m : (∀ dl, dl ∈ ledgers → is_Some (ledger_of_id (tl_ledger_id dl))) →
  ∃ m', process_block_ledgers_with_states ledgers hash cur m = Ok m' ∧
    ∀ id, m' !! id = (λ e, (e.1, found_all cur e.2 (ledgers ≫= ledger_places id hash))) <$> m !! id.
Proof.
  revert m. induction ledgers as [|dl ledgers IH]; intros m Hk; cbn [process_block_ledgers_with_states].
  { exists m. split; [done|]. intros id. by destruct (m !! id) as [[]|]. }
  destruct (Hk dl) as [l Hl]; [by left|]. rewrite Hl. res_simpl. destruct (IH (foldl (λ m tx_id, alter (prod_map (λ tx, tx) (found_in cur l hash)) tx_id m) m (tl_tx_ids dl))) as (m' & -> & Hm').
  { intros d Hd. apply Hk. by right. }
  exists m'. split; [done|]. intros id. rewrite Hm', foldl_alter, bind_cons. destruct (m !! id) as [[tx s]|]; [|done]. cbn [fmap option_fmap option_map]. f_equal.
  rewrite found_all_app. unfold ledger_places at 2. rewrite Hl. assert (∀ xs, foldl (λ (a : DataTx * TxInclusionState) (_ : Z), prod_map (λ tx, tx) (found_in cur l hash) a) (tx, s) xs =
    (tx, found_all cur s ((λ _ : Z, (l, hash)) <$> xs))) as ->; [|done].
  intros xs. clear. revert s. induction xs as [|x xs IH]; intros s; [done|]. cbn [foldl prod_map fst snd]. rewrite IH. done.
Qed.

(** ** The window of the walk *)

(** The blocks of a chain from height [k] down to height [lo]. *)
Definition window (chain : list LedgerHeader) (lo : Z) (k : nat) : list LedgerHeader := reverse (drop (Z.to_nat lo) (take (S k) chain)).

Lemma window_S chain lo k p : chain !! k = Some p → 0 ≤ lo ≤ Z.of_nat k → window chain lo k = p :: reverse (drop (Z.to_nat lo) (take k chain)).
Proof.
  intros Hk Hlo. unfold window. rewrite (take_S_r _ _ _ Hk), drop_app_le; [by rewrite reverse_snoc|].
  rewrite length_take. apply lookup_lt_Some in Hk. lia.
Qed.

Lemma window_end chain k p : window chain (Z.of_nat (S k)) k = [] ∧ (chain !! k = Some p → window chain (Z.of_nat k) k = [p]).
Proof.
  assert (Hn : ∀ n, drop (Z.to_nat (Z.of_nat n)) (take n chain) = []) by (intros n; apply drop_ge; rewrite length_take; lia).
  split; [unfold window; by rewrite Hn|]. intros Hk. rewrite (window_S _ _ _ _ Hk) by lia. by rewrite Hn.
Qed.

Lemma window_below chain lo k : Z.of_nat k < lo → window chain lo k = [].
Proof. intros Hlt. unfold window. rewrite drop_ge; [done|]. rewrite length_take. lia. Qed.

Lemma window_in chain lo k h : 0 ≤ lo → h ∈ window chain lo k ↔ Promotion.between chain lo k h.
Proof.
  intros Hlo. unfold window, Promotion.between. rewrite elem_of_reverse, list_elem_of_lookup. setoid_rewrite lookup_drop. split.
  - intros (i & Hi). apply lookup_take_Some in Hi as [Hi Hlt]. exists (Z.to_nat lo + i)%nat. split_and!; [lia|lia|done].
  - intros (j & Hjk & Hj & Hh). exists (j - Z.to_nat lo)%nat. apply lookup_take_Some. replace (Z.to_nat lo + (j - Z.to_nat lo))%nat with j by lia. split; [done|lia].
Qed.

Lemma NoDup_window chain lo k : NoDup chain → NoDup (window chain lo k).
Proof. intros Hnd. unfold window. rewrite reverse_Permutation. eapply sublist_NoDup; [exact Hnd|]. etrans; [apply sublist_drop|apply sublist_take]. Qed.

Definition found_over (cur : Z) (hs : list LedgerHeader) (id : Z) (e : DataTx * TxInclusionState) : DataTx * TxInclusionState :=
  (e.1, found_all cur e.2 (filter (λ h, lh_block_hash h ≠ cur) hs ≫= places id)).

Lemma found_over_cons cur h hs id e : found_over cur (h :: hs) id e = found_over cur hs id (found_over cur [h] id e).
Proof.
  unfold found_over. cbn [fst snd]. f_equal. rewrite <- found_all_app. f_equal. change (h :: hs) with ([h] ++ hs). rewrite filter_app. apply bind_app.
Qed.
Lemma found_over_nil cur id e : found_over cur [] id e = e.
Proof. by destruct e. Qed.

Lemma visit_step cur p m : sealed_ledgers (lh_data_ledgers p) →
  ∃ m', visit_inclusions cur p (Ok m) = (Ok m', false) ∧ ∀ id, m' !! id = found_over cur [p] id <$> m !! id.
Proof.
  intros Hs. unfold visit_inclusions. destruct (Z.eqb_spec (lh_block_hash p) cur) as [Heq|Hne].
  - exists m. split; [done|]. intros id. unfold found_over. rewrite filter_cons_False by (by intros ?). rewrite filter_nil. by destruct (m !! id) as [[]|].
  - destruct (process_ok (lh_data_ledgers p) (lh_block_hash p) cur m) as (m' & Hm' & Hid); [apply (sl_known _ Hs)|]. res_simpl. rewrite Hm'. exists m'. split; [done|].
    intros id. rewrite Hid. unfold found_over. rewrite filter_cons_True, filter_nil by done. cbn [mbind list_bind]. by rewrite app_nil_r.
Qed.

Section Walk.
  Context `{DupSort} (v : ExpiryView) (canon chain : list LedgerHeader) (Hv : view_ok v canon chain) (Hcov : Forall (covered v) chain).
  Context (Hmeta : metadata_ok v canon) (Hsealed : ∀ h, h ∈ chain → sealed_ledgers (lh_data_ledgers h)).

Lemma walk_inclusions_ok k p fuel in_tree lo cur m :
  chain !! k = Some p → (k ≤ fuel)%nat → (in_tree = true ∨ canon !! k = Some p) → 0 ≤ lo →
  ∃ m', walk_ancestors_tree_then_db v (visit_inclusions cur) fuel in_tree (lh_block_hash p) lo (Ok m) = Ok (Ok m') ∧
    ∀ id, m' !! id = found_over cur (window chain lo k) id <$> m !! id.
Proof.
  intros Hk Hfuel Hor Hlo. revert p fuel in_tree m Hk Hfuel Hor. induction k as [k IH] using lt_wf_ind. intros p fuel in_tree m Hk Hfuel Hor.
  destruct (ancestor_read v canon chain Hv Hcov Hmeta k p in_tree Hk Hor) as [Hread Hor']. assert (Hheight : lh_height p = Z.of_nat k) by (by apply (co_height _ (vo_chain _ _ _ Hv))).
  destruct (visit_step cur p m) as (m1 & Hvisit & Hm1); [apply Hsealed; by eapply list_elem_of_lookup_2|].
  destruct fuel as [|fuel]; cbn [walk_ancestors_tree_then_db]; rewrite Hread; res_simpl; rewrite Hheight; destruct (Z.ltb_spec (Z.of_nat k) lo) as [Hlt|Hge].
  1,3: exists m; split; [done|]; intros id; rewrite window_below by done; destruct (m !! id) as [e|]; [|done]; cbn; by rewrite found_over_nil.
  all: rewrite Hvisit; cbn [orb]; destruct ((Z.of_nat k =? 0) || (Z.of_nat k =? lo)) eqn:Hend.
  1,3: exists m1; split; [done|]; intros id; rewrite Hm1; assert (lo = Z.of_nat k) as -> by lia; by rewrite (proj2 (window_end chain k p) Hk).
  - lia.
  - destruct k as [|k]; [lia|]. destruct (lookup_lt_is_Some_2 chain k) as [q Hq]; [apply lookup_lt_Some in Hk; lia|].
    rewrite (co_link _ (vo_chain _ _ _ Hv) _ _ _ Hq Hk).
    destruct (IH k ltac:(lia) q fuel (in_tree && bool_decide (is_Some (v_tree v !! lh_block_hash p))) m1 Hq ltac:(lia)) as (m2 & Hgo & Hm2).
    { destruct Hor' as [?|Hc]; [by left|right]. apply (canonical_below v canon chain Hv (S k) k p q); [done|done|lia|done]. }
    exists m2. split; [done|]. intros id. rewrite Hm2, Hm1, (window_S _ _ _ _ Hk) by lia. destruct (m !! id) as [e|]; [|done]. cbn [fmap option_fmap option_map]. f_equal.
    symmetry. apply found_over_cons.
Qed.
End Walk.

(** ** Histories *)

Notation includes h l id := (block_includes_ledger_tx h l id = true).

Definition recorded (chain : list LedgerHeader) (l : DataLedger) (id : Z) : Prop := ∃ i h, chain !! i = Some h ∧ includes h l id.

(** What a chain of accepted blocks says about its transactions.  An anchor is a field of the
    signed transaction, of which the id is the hash. *)
Record history (config : DataTxConfig) (anchor_of : Z → Z) (chain : list LedgerHeader) : Prop := {
  hi_sealed h : h ∈ chain → sealed_ledgers (lh_data_ledgers h);
  hi_stored i j g h l l' id : chain !! i = Some g → chain !! j = Some h → l ≠ Publish → l' ≠ Publish → includes g l id → includes h l' id → i = j ∧ l = l';
  hi_promoted i j g h id : chain !! i = Some g → chain !! j = Some h → includes g Publish id → includes h Publish id → i = j;
  hi_submitted i h id : chain !! i = Some h → includes h Publish id → ∃ j g, (j ≤ i)%nat ∧ chain !! j = Some g ∧ includes g Submit id;
  hi_anchor i h l id : chain !! i = Some h → l ≠ Publish → includes h l id →
    ∃ j g, (j < i)%nat ∧ Z.of_nat i - wc_tx_anchor_expiry_depth (dc_walk config) ≤ Z.of_nat j ∧ chain !! j = Some g ∧ lh_block_hash g = anchor_of id
}.

(** What migration writes for the blocks of the index: the headers, and for each transaction
    some height it is at. *)
Record metadata_written (v : ExpiryView) (canon : list LedgerHeader) : Prop := {
  mw_header c : c ∈ canon → v_headers v !! lh_block_hash c = Some c;
  mw_included i c l id : canon !! i = Some c → l ≠ Publish → includes c l id →
    ∃ j d l', ev_included v !! id = Some (Z.of_nat j) ∧ canon !! j = Some d ∧ l' ≠ Publish ∧ includes d l' id;
  mw_promoted i c id : canon !! i = Some c → includes c Publish id →
    ∃ j d, ev_promoted v !! id = Some (Z.of_nat j) ∧ canon !! j = Some d ∧ includes d Publish id
}.

(** What a node has when it checks a block of height [height] on [chain]: its index is
    [canon], which is the chain below the reorg window, and hashes identify blocks. *)
Record node_view `{DupSort} (config : DataTxConfig) (v : ExpiryView) (canon chain : list LedgerHeader) (height : Z) : Prop := {
  nv_view : view_ok v canon chain;
  nv_covered : Forall (covered v) chain;
  nv_metadata : metadata_written v canon;
  nv_finalized : finalized canon chain (dc_walk config) height;
  nv_hashes : NoDup (lh_block_hash <$> chain);
  nv_depth : 0 ≤ wc_tx_anchor_expiry_depth (dc_walk config)
}.

Lemma metadata_of_history config anchor_of v canon : history config anchor_of canon → metadata_written v canon → metadata_ok v canon.
Proof.
  intros Hh [Hhdr Hinc Hprom]. split; [done|..].
  - intros i c id Hc Hin. destruct (Hinc i c Submit id Hc) as (j & d & l & -> & Hd & Hl & Hin'); [done..|].
    by destruct (hi_stored _ _ _ Hh i j c d Submit l id) as [-> _].
  - intros i c id Hc Hin. destruct (Hprom i c id Hc Hin) as (j & d & -> & Hd & Hin'). by rewrite (hi_promoted _ _ _ Hh i j c d id).
Qed.

(** ** The specification of the verdict *)

Definition is_term (l : DataLedger) : Prop := l = OneYear ∨ l = ThirtyDay.

(** The ledgers of a block, before and after Cascade, each with its proofs. *)
Definition ledgers_shaped {P} (block : ShadowBlock P) (cascade : bool) : Prop :=
  tl_ledger_id <$> lh_data_ledgers (sb_header block) = ledger_id <$> (if cascade then [Publish; Submit; OneYear; ThirtyDay] else [Publish; Submit]) ∧
  length (sb_ledger_proofs block) = length (lh_data_ledgers (sb_header block)) ∧ ∀ i p, (2 ≤ i)%nat → sb_ledger_proofs block !! i = Some p → p = (None, None).

(** A block whose data transactions may follow [chain]. *)
Record admissible {P} (config : DataTxConfig) (chain : list LedgerHeader) (block : ShadowBlock P) (txs : DataLedger → list DataTx) (cascade : bool) (ema_price : Z) : Prop := {
  ad_ledger_id l tx : tx ∈ txs l → dt_ledger_id tx = ledger_id (match l with Submit => Publish | _ => l end);
  ad_unpromoted tx : tx ∈ txs Submit → dt_promoted_height tx = None;
  ad_term_fee_only l (tx : DataTx) : is_term l → tx ∈ txs l → th_perm_fee tx = None;
  ad_shape : ledgers_shaped block cascade;
  ad_single l l' id : is_term l → id ∈ tx_ids (txs l) → id ∈ tx_ids (txs l') → l = l';
  ad_new l l' id : l ≠ Publish → id ∈ tx_ids (txs l) → ¬ recorded chain l' id;
  ad_promotion id : id ∈ tx_ids (txs Publish) → ¬ recorded chain Publish id ∧ (id ∈ tx_ids (txs Submit) ∨ recorded chain Submit id);
  ad_publish_price tx : tx ∈ txs Submit → validate_publish_price config tx (lh_height (sb_header block)) (sb_timestamp_secs block) ema_price = Ok ();
  ad_term_price l tx : is_term l → tx ∈ txs l → validate_term_only_price config tx l (lh_height (sb_header block)) (sb_timestamp_secs block) ema_price = Ok ()
}.

(** ** Entries of the map *)

Inductive entry (hash : Z) (txs : DataLedger → list DataTx) : DataTx * TxInclusionState → Prop :=
| entry_submit (tx : DataTx) : tx ∈ txs Submit → th_id tx ∉ tx_ids (txs Publish) → entry hash txs (tx, Searching Submit)
| entry_same (tx : DataTx) : tx ∈ txs Submit → th_id tx ∈ tx_ids (txs Publish) → entry hash txs (tx, Found (Publish, hash) (Submit, hash))
| entry_publish (tx : DataTx) : tx ∈ txs Publish → th_id tx ∉ tx_ids (txs Submit) → entry hash txs (tx, Searching Publish)
| entry_term l (tx : DataTx) : is_term l → tx ∈ txs l → entry hash txs (tx, Searching l).

Lemma tx_ids_in (txs : list DataTx) (tx : DataTx) : tx ∈ txs → th_id tx ∈ tx_ids txs.
Proof. apply (list_elem_of_fmap_2 (λ tx : DataTx, th_id tx)). Qed.

Lemma insert_txs_lookup {A} (f : DataTx → A) (txs : list DataTx) (m : gmap Z A) id a : NoDup (tx_ids txs) →
  foldl (λ m (tx : DataTx), <[th_id tx := f tx]> m) m txs !! id = Some a ↔
  (∃ tx : DataTx, tx ∈ txs ∧ th_id tx = id ∧ f tx = a) ∨ id ∉ tx_ids txs ∧ m !! id = Some a.
Proof.
  revert m. induction txs as [|t txs IH]; intros m Hnd; cbn [foldl].
  { rewrite fmap_nil. split; [right; split; [by intros ?%elem_of_nil|done]|]. intros [(tx & ?%elem_of_nil & _)|[_ ?]]; done. }
  rewrite fmap_cons in *. apply NoDup_cons in Hnd as [Hn Hnd]. rewrite IH by done. rewrite lookup_insert_Some. split.
  - intros [(tx & Hin & Hid & Ha)|(Hni & [[<- <-]|[Hne Hm]])].
    + left. exists tx. split; [by right|done].
    + left. exists t. split; [by left|done].
    + right. split; [|done]. by intros [->|?]%elem_of_cons.
  - intros [(tx & [->|Hin]%elem_of_cons & <- & <-)|[Hni Hm]].
    + right. split; [done|]. by left.
    + left. by exists tx.
    + rewrite not_elem_of_cons in Hni. destruct Hni as [Hne Hni]. right. split; [done|]. right. by split.
Qed.

Lemma insert_term_spec l (txs : list DataTx) m : NoDup (tx_ids txs) →
  ((∀ id, id ∈ tx_ids txs → m !! id = None) ∧
     ∃ m', insert_term_txs l txs m = Ok m' ∧ ∀ id e, m' !! id = Some e ↔ (∃ tx : DataTx, tx ∈ txs ∧ th_id tx = id ∧ e = (tx, Searching l)) ∨ m !! id = Some e) ∨
  (∃ id, id ∈ tx_ids txs ∧ is_Some (m !! id)) ∧ ∃ err, insert_term_txs l txs m = Err err.
Proof.
  revert m. induction txs as [|t txs IH]; intros m Hnd; cbn [insert_term_txs].
  { left. split; [by intros id ?%elem_of_nil|]. exists m. split; [done|]. intros id e. split; [by right|]. intros [(tx & ?%elem_of_nil & _)|?]; done. }
  rewrite fmap_cons in *. apply NoDup_cons in Hnd as [Hn Hnd]. case_bool_decide as Ht; res_simpl.
  { right. split; [|by eexists]. exists (th_id t). split; [by left|done]. }
  rewrite <- eq_None_not_Some in Ht. destruct (IH (<[th_id t := (t, Searching l)]> m) Hnd) as [(Hnone & m' & -> & Hm')|((id & Hid & Hs) & err & ->)].
  - left. split.
    + intros id [->|Hin]%elem_of_cons; [done|]. specialize (Hnone id Hin). by apply lookup_insert_None in Hnone as [? _].
    + exists m'. split; [done|]. intros id e. rewrite Hm', lookup_insert_Some. split.
      * intros [(tx & Hin & ? & ?)|[[<- <-]|[_ ?]]]; [left; exists tx; split; [by right|done]|left; exists t; split; [by left|done]|by right].
      * intros [(tx & [->|Hin]%elem_of_cons & <- & ->)|Hm]; [right; by left|left; by exists tx|].
        right. right. split; [|done]. intros <-. congruence.
  - right. split; [|by exists err]. exists id. split; [by right|]. rewrite lookup_insert_ne in Hs; [done|]. by intros <-.
Qed.

Definition single (txs : DataLedger → list DataTx) : Prop := ∀ l l' id, is_term l → id ∈ tx_ids (txs l) → id ∈ tx_ids (txs l') → l = l'.

Lemma txs_to_check_spec hash (txs : DataLedger → list DataTx) : (∀ l, NoDup (tx_ids (txs l))) →
  (single txs ∧ ∃ m, txs_to_check hash txs = Ok m ∧ ∀ id (e : DataTx * TxInclusionState), m !! id = Some e ↔ th_id e.1 = id ∧ entry hash txs e) ∨
  (¬ single txs ∧ ∃ err, txs_to_check hash txs = Err err).
Proof.
  intros Hnd. unfold txs_to_check. set (same := filter _ _). assert (Hsame : ∀ id, id ∈ same ↔ id ∈ tx_ids (txs Publish) ∧ id ∈ tx_ids (txs Submit)) by (intros id; unfold same; by rewrite list_elem_of_filter).
  set (m0 := foldl _ (foldl _ ∅ (txs Publish)) (txs Submit)).
  assert (Hm0 : ∀ id e, m0 !! id = Some e ↔ (∃ tx : DataTx, tx ∈ txs Submit ∧ th_id tx = id ∧ (tx, initial_state hash same Submit (th_id tx)) = e) ∨
     id ∉ tx_ids (txs Submit) ∧ ∃ tx : DataTx, tx ∈ txs Publish ∧ th_id tx = id ∧ (tx, initial_state hash same Publish (th_id tx)) = e).
  { intros id e. unfold m0. rewrite !insert_txs_lookup by done. rewrite lookup_empty. naive_solver. }
  assert (Hdom : ∀ id, is_Some (m0 !! id) ↔ id ∈ tx_ids (txs Submit) ∨ id ∈ tx_ids (txs Publish)).
  { intros id. split.
    - intros [e [(tx & Hin & <- & _)|(_ & tx & Hin & <- & _)]%Hm0]; [left|right]; by apply tx_ids_in.
    - intros Hor. destruct (decide (id ∈ tx_ids (txs Submit))) as [(tx & -> & Hin)%list_elem_of_fmap|Hn].
      + eexists. apply Hm0. left. by exists tx.
      + destruct Hor as [?|(tx & -> & Hin)%list_elem_of_fmap]; [done|]. eexists. apply Hm0. right. split; [done|]. by exists tx. }
  clearbody m0. destruct (insert_term_spec OneYear (txs OneYear) m0 (Hnd _)) as [(Hone & m1 & -> & Hm1)|((id & Hid & Hs) & err & ->)]; res_simpl.
  2:{ right. split; [|by exists err]. intros Hsg. apply Hdom in Hs as [Hs|Hs]; by specialize (Hsg OneYear _ id (or_introl eq_refl) Hid Hs). }
  assert (Hdom1 : ∀ id, is_Some (m1 !! id) ↔ id ∈ tx_ids (txs OneYear) ∨ is_Some (m0 !! id)).
  { intros id. split.
    - intros [e [(tx & Hin & <- & _)|He]%Hm1]; [left; by apply tx_ids_in|right; by exists e].
    - intros [(tx & -> & Hin)%list_elem_of_fmap|[e He]]; eexists; apply Hm1; [left; by exists tx|by right]. }
  destruct (insert_term_spec ThirtyDay (txs ThirtyDay) m1 (Hnd _)) as [(Hthirty & m2 & -> & Hm2)|((id & Hid & Hs) & err & ->)].
  2:{ right. split; [|by exists err]. intros Hsg. apply Hdom1 in Hs as [Hs|[Hs|Hs]%Hdom]; by specialize (Hsg ThirtyDay _ id (or_intror eq_refl) Hid Hs). }
  left. split.
  { intros l l' id Hl Hid Hid'. assert (∀ id, id ∈ tx_ids (txs ThirtyDay) → ¬ is_Some (m1 !! id)) as H30 by (intros x Hx; rewrite (Hthirty x Hx); by intros [? ?]).
    assert (∀ id, id ∈ tx_ids (txs OneYear) → ¬ is_Some (m0 !! id)) as H1y by (intros x Hx; rewrite (Hone x Hx); by intros [? ?]).
    setoid_rewrite Hdom1 in H30. setoid_rewrite Hdom in H30. setoid_rewrite Hdom in H1y. specialize (H30 id). specialize (H1y id). destruct Hl as [-> | ->], l'; tauto. }
  exists m2. split; [done|]. intros id e. rewrite Hm2, Hm1, Hm0. unfold initial_state. split.
  - intros [(tx & Hin & <- & ->)|[(tx & Hin & <- & ->)|[(tx & Hin & <- & <-)|(Hn & tx & Hin & <- & <-)]]]; cbn [fst]; split; try done.
    1,2: apply entry_term; [unfold is_term; tauto|done].
    + case_bool_decide as Hs; rewrite Hsame in Hs; [destruct Hs; by apply entry_same|]. apply entry_submit; [done|]. pose proof (tx_ids_in _ _ Hin). tauto.
    + rewrite bool_decide_false by (rewrite Hsame; tauto). by apply entry_publish.
  - intros [<- He]. destruct He as [tx Hin Hn|tx Hin Hs|tx Hin Hn|l tx [-> | ->] Hin]; cbn [fst].
    + right. right. left. exists tx. rewrite bool_decide_false by (rewrite Hsame; tauto). done.
    + right. right. left. exists tx. rewrite bool_decide_true; [done|]. apply Hsame. split; [done|by apply tx_ids_in].
    + right. right. right. split; [done|]. exists tx. rewrite bool_decide_false by (rewrite Hsame; tauto). done.
    + right. left. by exists tx.
    + left. by exists tx.
Qed.

Lemma all_valid_ok check entries : all_valid check entries = Ok () ↔ ∀ e, e ∈ entries → check e = Ok ().
Proof.
  induction entries as [|x entries IH]; cbn [all_valid]; [split; [by intros _ e ?%elem_of_nil|done]|]. split.
  - intros ([] & Hx & Hgo)%bind_ok e [->|He]%elem_of_cons; [done|]. by apply IH.
  - intros Hall. rewrite (Hall x) by (by left). res_simpl. apply IH. intros e He. apply Hall. by right.
Qed.

Lemma map_values_in `{MapOrder} {A} (m : gmap Z A) a : a ∈ map_values m ↔ ∃ id, m !! id = Some a.
Proof.
  rewrite map_values_perm, list_elem_of_fmap. setoid_rewrite <- elem_of_map_to_list. split; [intros ([id x] & -> & Hin); by exists id|]. intros (id & Hin). by exists (id, a).
Qed.

Lemma well_placed_ok l txs : txs_well_placed l txs = Ok () ↔ ∀ tx : DataTx, tx ∈ txs →
  dt_ledger_id tx = ledger_id (match l with Submit => Publish | _ => l end) ∧ (l = Submit → dt_promoted_height tx = None) ∧ (is_term l → th_perm_fee tx = None).
Proof.
  assert (Hopt : ∀ o : option Z, bool_decide (is_Some o) = false ↔ o = None) by (intros o; rewrite bool_decide_eq_false; apply symmetry, eq_None_not_Some).
  assert (Hid : match l with Submit => ledger_id Publish | _ => ledger_id l end = ledger_id (match l with Submit => Publish | _ => l end)) by (by destruct l).
  induction txs as [|t txs IH]; cbn [txs_well_placed]; [split; [by intros _ tx ?%elem_of_nil|done]|]. rewrite Hid. split.
  - intros ([] & Ht & Hgo)%bind_ok tx Htx. apply guard_err_ok, negb_false_iff, Z.eqb_eq in Ht. apply bind_ok in Hgo as ([] & Hm & Hgo).
    apply elem_of_cons in Htx as [->|Htx]; [|by apply IH]. split; [done|]. unfold is_term. clear IH Hgo Hid. destruct l; (split; [try done|try (intros [?|?]; done)]); intros _; by apply guard_err_ok, Hopt in Hm.
  - intros Hall. destruct (Hall t) as (Ht & Hs & Hf); [by left|]. rewrite Ht, Z.eqb_refl. res_simpl. rewrite (proj2 IH) by (intros tx Htx; apply Hall; by right).
    unfold is_term in Hf. destruct l; cbn [guard_err]; [done| |..]; rewrite (proj2 (Hopt _)) by auto; done.
Qed.

Lemma extract_ok {P} (block : ShadowBlock P) cascade : is_Some (extract_data_ledgers block cascade) ↔ ledgers_shaped block cascade.
Proof.
  assert (Hif : ∀ (b : bool) (o : option (list P)), is_Some (if b then Some o else None) ↔ b = true) by (intros [] o; split; [done|by eexists|by intros [? ?]|done]).
  unfold extract_data_ledgers, ledgers_shaped.
  destruct (lh_data_ledgers (sb_header block)) as [|p [|s [|o [|t [|x rest]]]]]; cbn [fmap list_fmap].
  1,2,4,6: split; [by intros [? ?]|]; by destruct cascade; intros [? _].
  - destruct (sb_ledger_proofs block) as [|[pp pc] [|[sp sc] [|? ?]]]; [split; [by intros [? ?]|by intros (_ & ? & _)]..| |split; [by intros [? ?]|by intros (_ & ? & _)]].
    rewrite Hif, !andb_true_iff, !Z.eqb_eq. destruct cascade; cbn [negb fmap list_fmap]; [split; [by intros [[? _] _]|by intros [? _]]|]. split.
    + intros [[_ ->] ->]. split_and!; [done|done|]. intros [|[|i]] b ?; [lia..|done].
    + by intros [[= -> ->] _].
  - destruct (sb_ledger_proofs block) as [|[pp pc] [|[sp sc] [|[op oc] [|[tp tc] [|? ?]]]]]; [split; [by intros [? ?]|by intros (_ & ? & _)]..| |split; [by intros [? ?]|by intros (_ & ? & _)]].
    rewrite Hif, !andb_true_iff, !Z.eqb_eq, !negb_true_iff, !bool_decide_eq_true, !bool_decide_eq_false, <- !eq_None_not_Some.
    destruct cascade; cbn [fmap list_fmap]; [|split; [by intros ((((((((? & _) & _) & _) & _) & _) & _) & _) & _)|by intros [? _]]]. split.
    + intros ((((((((_ & ->) & ->) & ->) & ->) & ->) & ->) & ->) & ->). split_and!; [done|done|]. by intros [|[|[|[|i]]]] b ?; [lia..|intros [= <-]|intros [= <-]|].
    + intros ([= -> -> -> ->] & _ & Hp). pose proof (Hp 2%nat _ ltac:(lia) eq_refl) as [= -> ->]. pose proof (Hp 3%nat _ ltac:(lia) eq_refl) as [= -> ->]. by split_and!.
Qed.

(** ** The verdict on the inclusions *)

Section Verdict.
  Context `{DupSort} `{MapOrder} {P : Type} (config : DataTxConfig) (anchor_of : Z → Z).
  Context (v : ExpiryView) (canon chain : list LedgerHeader) (block : ShadowBlock P) (txs : DataLedger → list DataTx).
  Notation full := (chain ++ [sb_header block]).
  Notation n := (length chain).
  Notation cur := (lh_block_hash (sb_header block)).
  Notation depth := (prior_inclusion_walk_depth (dc_walk config)).
  Notation lo := (saturating_sub (Z.of_nat n) depth).
  Context (Hhist : history config anchor_of chain) (Hcanon : history config anchor_of canon).
  Context (Hnode : node_view config v canon full (Z.of_nat n)) (Hsealed : sealed_ledgers (lh_data_ledgers (sb_header block))).
  Context (Hids : ∀ l, tx_ids (txs l) = default [] (ledger_tx_ids_in (sb_header block) l)).
  Context (Hnonempty : chain ≠ []).
  Notation Hv := (nv_view _ _ _ _ _ Hnode).

Lemma own_block : full !! n = Some (sb_header block).
Proof. by rewrite lookup_app_r, Nat.sub_diag by lia. Qed.

Lemma own_height : lh_height (sb_header block) = Z.of_nat n.
Proof. apply (co_height _ (vo_chain _ _ _ Hv) _ _ own_block). Qed.

Lemma ancestor_in_full j h : chain !! j = Some h → full !! j = Some h.
Proof. intros Hj. by apply lookup_app_l_Some. Qed.

Lemma full_same_hash j k g h : full !! j = Some g → full !! k = Some h → lh_block_hash g = lh_block_hash h → j = k.
Proof. apply (same_hash full (nv_hashes _ _ _ _ _ Hnode)). Qed.

Lemma full_sealed h : h ∈ full → sealed_ledgers (lh_data_ledgers h).
Proof. intros [Hh| ->%list_elem_of_singleton]%elem_of_app; [by apply (hi_sealed _ _ _ Hhist)|done]. Qed.

Lemma ledger_ids l id : id ∈ tx_ids (txs l) ↔ includes (sb_header block) l id.
Proof.
  rewrite Hids. unfold block_includes_ledger_tx. destruct (ledger_tx_ids_in (sb_header block) l) as [ids|]; cbn [default]; [by rewrite bool_decide_eq_true|].
  rewrite elem_of_nil. done.
Qed.

Lemma NoDup_ledger_ids l : NoDup (tx_ids (txs l)).
Proof.
  rewrite Hids. unfold ledger_tx_ids_in, ledger_of_header. destruct (List.find _ _) as [dl|] eqn:Hf; [|constructor]. apply find_some in Hf as [Hin _].
  apply (sl_nodup _ Hsealed). by apply list_elem_of_In.
Qed.

Definition past (id : Z) : list (DataLedger * Z) := filter (λ h, lh_block_hash h ≠ cur) (window full lo n) ≫= places id.

Lemma walk_floor_nonneg : 0 ≤ lo.
Proof. unfold saturating_sub. lia. Qed.

Lemma past_blocks h : h ∈ filter (λ h, lh_block_hash h ≠ cur) (window full lo n) ↔ ∃ j, lo ≤ Z.of_nat j ∧ chain !! j = Some h.
Proof.
  rewrite list_elem_of_filter, window_in by apply walk_floor_nonneg. split.
  - intros (Hne & j & Hj & Hlo & Hh). exists j. split; [done|]. apply lookup_snoc_Some in Hh as [[_ ?]|[_ <-]]; [done|]. by destruct Hne.
  - intros (j & Hlo & Hj). pose proof (lookup_lt_Some _ _ _ Hj). split.
    + intros Heq. assert (j = n) as ->; [|lia]. by apply (full_same_hash j n h (sb_header block)); [apply ancestor_in_full|apply own_block|].
    + exists j. split_and!; [lia|done|by apply ancestor_in_full].
Qed.

Lemma past_in id l hash : (l, hash) ∈ past id ↔ ∃ j h, lo ≤ Z.of_nat j ∧ chain !! j = Some h ∧ hash = lh_block_hash h ∧ includes h l id.
Proof.
  unfold past. rewrite list_elem_of_bind. split.
  - intros (h & Hp & (j & Hlo & Hj)%past_blocks). apply places_in in Hp as [-> Hin]; [by exists j, h|]. apply (hi_sealed _ _ _ Hhist). by eapply list_elem_of_lookup_2.
  - intros (j & h & Hlo & Hj & -> & Hin). exists h. split; [|apply past_blocks; by exists j]. apply places_in; [|done]. apply (hi_sealed _ _ _ Hhist). by eapply list_elem_of_lookup_2.
Qed.

Lemma NoDup_past id : NoDup (past id).
Proof.
  assert (Hs : ∀ h, h ∈ filter (λ h, lh_block_hash h ≠ cur) (window full lo n) → sealed_ledgers (lh_data_ledgers h)).
  { intros h (j & _ & Hj)%past_blocks. apply (hi_sealed _ _ _ Hhist). by eapply list_elem_of_lookup_2. }
  unfold past. apply NoDup_bind.
  - intros g h [l hash] Hg Hh Hpg Hph. apply places_in in Hpg as [-> _]; [|by apply Hs]. apply places_in in Hph as [Heq _]; [|by apply Hs].
    apply past_blocks in Hg as (i & _ & Hi), Hh as (j & _ & Hj). assert (i = j) as ->; [|congruence]. by apply (full_same_hash i j g h); [apply ancestor_in_full..|].
  - intros h Hh. by apply NoDup_places, Hs.
  - apply NoDup_filter, NoDup_window. apply (NoDup_fmap_1 lh_block_hash), (nv_hashes _ _ _ _ _ Hnode).
Qed.

(** A stored transaction that is anchored in the window has its past, if any, in the window. *)
Lemma past_complete id a g : chain !! a = Some g → lh_block_hash g = anchor_of id → Z.of_nat n - wc_tx_anchor_expiry_depth (dc_walk config) ≤ Z.of_nat a →
  past id = [] ↔ ∀ l, ¬ recorded chain l id.
Proof.
  intros Ha Hg Hwin. split.
  - intros Hnil. assert (Hst : ∀ l, l ≠ Publish → ¬ recorded chain l id).
    { intros l Hl (i & h & Hi & Hin). destruct (hi_anchor _ _ _ Hhist i h l id Hi Hl Hin) as (j & g' & Hji & _ & Hj & Hg').
      assert (a = j) as -> by (apply (full_same_hash a j g g'); [by apply ancestor_in_full..|congruence]).
      apply (not_elem_of_nil (l, lh_block_hash h)). rewrite <- Hnil. apply past_in. exists i, h. split_and!; [|done..]. unfold saturating_sub, prior_inclusion_walk_depth. lia. }
    intros l. destruct (decide (l = Publish)) as [->|]; [|by apply Hst]. intros (i & h & Hi & Hin).
    destruct (hi_submitted _ _ _ Hhist i h id Hi Hin) as (j & g' & _ & Hj & Hs). apply (Hst Submit); [done|]. by exists j, g'.
  - intros Hno. apply elem_of_nil_inv. intros [l hash] (j & h & _ & Hj & _ & Hin)%past_in. apply (Hno l). by exists j, h.
Qed.

(** ** Promotions *)

Lemma fallback_ok l id hint : (∀ i c, canon !! i = Some c → includes c l id → hint = Some (Z.of_nat i)) →
  ∃ r, canonical_metadata_height v hint id (saturating_sub lo 1) l = Ok r ∧ (is_Some r ↔ ∃ i h, Z.of_nat i ≤ saturating_sub lo 1 ∧ chain !! i = Some h ∧ includes h l id).
Proof.
  intros Hhint. destruct (canonical_metadata_ok v canon full Hv (metadata_of_history _ _ _ _ Hcanon (nv_metadata _ _ _ _ _ Hnode)) hint id (saturating_sub lo 1) l Hhint) as (r & -> & Hr).
  exists r. split; [done|]. destruct (nv_finalized _ _ _ _ _ Hnode) as (m & Htake & Hm0 & Hm).
  assert (Hsame : ∀ i, Z.of_nat i ≤ saturating_sub lo 1 → canon !! i = chain !! i).
  { intros i Hi. rewrite (shared_lookup canon full m i Htake) by (unfold saturating_sub in *; lia). apply lookup_app_l.
    pose proof (nv_depth _ _ _ _ _ Hnode). assert (n ≠ 0%nat) by (by destruct chain). unfold saturating_sub, prior_inclusion_walk_depth in Hi. lia. }
  split.
  - intros [h (Hle & i & c & -> & Hc & Hin)%Hr]. exists i, c. rewrite <- Hsame by done. done.
  - intros (i & h & Hle & Hi & Hin). exists (Z.of_nat i). apply Hr. split; [done|]. exists i, h. rewrite Hsame by done. done.
Qed.

Lemma old_promotion_ok id : past id = [] → old_promotion_is_valid v config (lh_height (sb_header block)) id = Ok () ↔ ¬ recorded chain Publish id ∧ recorded chain Submit id.
Proof.
  intros Hnil. pose proof (metadata_of_history _ _ _ _ Hcanon (nv_metadata _ _ _ _ _ Hnode)) as Hmeta. unfold old_promotion_is_valid. rewrite own_height. fold lo.
  destruct (fallback_ok Submit id (ev_included v !! id)) as (s & Hs & Hsub); [intros i c Hc Hin; by apply (mo_included _ _ Hmeta i c)|].
  destruct (fallback_ok Publish id (ev_promoted v !! id)) as (p & Hp & Hpub); [intros i c Hc Hin; by apply (mo_promoted _ _ Hmeta i c)|].
  unfold canonical_submit_height, canonical_promoted_height. rewrite Hs, Hp. res_simpl.
  assert (Hold : ∀ l, recorded chain l id ↔ ∃ i h, Z.of_nat i ≤ saturating_sub lo 1 ∧ chain !! i = Some h ∧ includes h l id).
  { intros l. split; [|intros (i & h & _ & Hi & Hin); by exists i, h]. intros (i & h & Hi & Hin). exists i, h. split_and!; [|done..].
    destruct (Z.le_gt_cases lo (Z.of_nat i)) as [Hle|]; [|unfold saturating_sub in *; lia]. destruct (not_elem_of_nil (l, lh_block_hash h)). rewrite <- Hnil. apply past_in.
    by exists i, h. }
  rewrite !Hold, <- Hsub, <- Hpub. destruct s as [s|]; rewrite ?bool_decide_true, ?bool_decide_false by done; res_simpl.
  - destruct p as [p|]; [|split; [|done]; intros _; split; [by intros [? ?]|by eexists]].
    split; [|intros [Hn _]; destruct Hn; by eexists]. destruct (migrated_hashes _ !! p); done.
  - split; [done|]. by intros [_ [? ?]].
Qed.

(** A promotion is valid exactly when the chain has its Submit block and no promotion. *)
Lemma promotion_ok ema (tx : DataTx) :
  inclusion_is_valid v config block ema (tx, found_all cur (Searching Publish) (past (th_id tx))) = Ok () ↔
  ¬ recorded chain Publish (th_id tx) ∧ recorded chain Submit (th_id tx).
Proof.
  set (id := th_id tx). destruct (decide (past id = [])) as [Hnil|Hnn].
  { rewrite Hnil. by apply old_promotion_ok. }
  assert (Hpast : ∀ l hash, (l, hash) ∈ past id → recorded chain l id) by (intros l hash (j & h & _ & Hj & _ & Hin)%past_in; by exists j, h). split.
  - intros Hok. destruct (found_searching cur Publish (past id)) as [[? _]|[_ [([l hash] & Hf)|([l hash] & Hf)]]]; [done| |rewrite Hf in Hok; done].
    pose proof (found_place _ _ _ _ _ Hf) as [Hin|]; [|done]. rewrite Hf in Hok. cbn [inclusion_is_valid] in Hok. destruct l; try done. split; [|by apply (Hpast _ hash)].
    apply past_in in Hin as (j & g & Hlo & Hj & _ & Hsub). intros (i & h & Hi & Hpub).
    destruct (hi_submitted _ _ _ Hhist i h id Hi Hpub) as (k & g' & Hki & Hk & Hsub'). destruct (hi_stored _ _ _ Hhist j k g g' Submit Submit id) as [<- _]; [done..|].
    destruct (found_publish cur (Searching Publish) (past id) (lh_block_hash h)) as [(c & h' & Hf')|(q & Hf')]; [|rewrite Hf in Hf'; done..].
    apply past_in. exists i, h. split_and!; [lia|done..].
  - intros [Hnp (j & g & Hj & Hsub)]. assert (Hall : ∀ p, p ∈ past id → p = (Submit, lh_block_hash g)).
    { intros [l hash] (i & h & _ & Hi & -> & Hin)%past_in. destruct (decide (l = Publish)) as [->|Hl]; [destruct Hnp; by exists i, h|].
      destruct (hi_stored _ _ _ Hhist i j h g l Submit id) as [-> ->]; [done..|]. congruence. }
    assert (past id = [(Submit, lh_block_hash g)]) as ->.
    { pose proof (NoDup_past id) as Hnd. destruct (past id) as [|p [|q r]]; [done|f_equal; apply Hall; by left|]. apply NoDup_cons in Hnd as [Hp _]. destruct Hp.
      rewrite (Hall p), (Hall q); [by left|by right; left|by left]. }
    cbn [found_all foldl found_in fst snd inclusion_is_valid]. rewrite (proj2 (Z.eqb_neq cur (lh_block_hash g))); [done|].
    intros Heq. pose proof (lookup_lt_Some _ _ _ Hj). assert (n = j); [|lia]. by apply (full_same_hash n j (sb_header block) g); [apply own_block|apply ancestor_in_full|].
Qed.

(** ** New transactions *)

Lemma new_ok ema l (tx : DataTx) : l ≠ Publish →
  inclusion_is_valid v config block ema (tx, found_all cur (Searching l) (past (th_id tx))) = Ok () ↔
  past (th_id tx) = [] ∧ inclusion_is_valid v config block ema (tx, Searching l) = Ok ().
Proof.
  intros Hl. destruct (found_searching cur l (past (th_id tx))) as [[Hnil ->]|[Hnn [([l' h] & ->)|([l' h] & ->)]]]; [tauto|split; [|tauto]..]; [|done].
  by destruct l.
Qed.

Lemma same_block_ok ema (tx : DataTx) :
  inclusion_is_valid v config block ema (tx, found_all cur (Found (Publish, cur) (Submit, cur)) (past (th_id tx))) = Ok () ↔
  past (th_id tx) = [] ∧ validate_publish_price config tx (lh_height (sb_header block)) (sb_timestamp_secs block) ema = Ok ().
Proof.
  destruct (decide (past (th_id tx) = [])) as [Hnil|Hnn].
  { rewrite Hnil. cbn [found_all foldl inclusion_is_valid]. rewrite Z.eqb_refl. cbn [andb]. tauto. }
  destruct (found_same_block cur (Publish, cur) Submit (past (th_id tx)) Hnn) as ([l h] & ->); [|split; [done|tauto]].
  intros [l hash] (j & h & _ & Hj & -> & _)%past_in. cbn [snd]. intros Heq. pose proof (lookup_lt_Some _ _ _ Hj). assert (j = n); [|lia].
  by apply (full_same_hash j n h (sb_header block)); [apply ancestor_in_full|apply own_block|].
Qed.

Definition anchored : Prop := ∀ l (tx : DataTx), l ≠ Publish → tx ∈ txs l → dt_anchor tx = anchor_of (th_id tx) ∧
  ∃ a g, chain !! a = Some g ∧ lh_block_hash g = dt_anchor tx ∧ Z.of_nat n - wc_tx_anchor_expiry_depth (dc_walk config) ≤ Z.of_nat a.

Lemma previous_inclusions_ok (m : gmap Z (DataTx * TxInclusionState)) :
  ∃ m', get_previous_tx_inclusions v m block depth = Ok m' ∧ ∀ id, m' !! id = found_over cur (window full lo n) id <$> m !! id.
Proof.
  unfold get_previous_tx_inclusions. case_bool_decide as Hm; [exists m; split; [done|]; intros id; by rewrite Hm, lookup_empty|]. rewrite own_height.
  pose proof (metadata_of_history _ _ _ _ Hcanon (nv_metadata _ _ _ _ _ Hnode)) as Hmeta.
  destruct (walk_inclusions_ok v canon full Hv (nv_covered _ _ _ _ _ Hnode) Hmeta full_sealed n (sb_header block) (walk_fuel v cur) true lo cur m own_block) as (m' & Hgo & Hm');
    [by apply (walk_fuel_enough v canon full Hv (nv_covered _ _ _ _ _ Hnode) Hmeta n (sb_header block)), own_block|by left|apply walk_floor_nonneg|].
  exists m'. split; [|done]. rewrite Hgo. done.
Qed.

Notation settles ema e := (inclusion_is_valid v config block ema (e.1, found_all cur e.2 (past (th_id e.1))) = Ok ()).

Lemma states_ok ema (m m' : gmap Z (DataTx * TxInclusionState)) : (∀ id (e : DataTx * TxInclusionState), m !! id = Some e ↔ th_id e.1 = id ∧ entry cur txs e) →
  (∀ id, m' !! id = found_over cur (window full lo n) id <$> m !! id) →
  all_valid (inclusion_is_valid v config block ema) (map_values m') = Ok () ↔ ∀ e : DataTx * TxInclusionState, entry cur txs e → settles ema e.
Proof.
  intros Hm Hm'. rewrite all_valid_ok. setoid_rewrite map_values_in. setoid_rewrite Hm'. split.
  - intros Hall e He. apply (Hall _). exists (th_id e.1). rewrite (proj2 (Hm _ e)) by done. done.
  - intros Hall e' (id & (e & [<- He]%Hm & ->)%fmap_Some). by apply Hall.
Qed.

Lemma entries_ok ema : anchored →
  (∀ e : DataTx * TxInclusionState, entry cur txs e → settles ema e) ↔
  (∀ l l' id, l ≠ Publish → id ∈ tx_ids (txs l) → ¬ recorded chain l' id) ∧
  (∀ id, id ∈ tx_ids (txs Publish) → ¬ recorded chain Publish id ∧ (id ∈ tx_ids (txs Submit) ∨ recorded chain Submit id)) ∧
  (∀ tx, tx ∈ txs Submit → validate_publish_price config tx (lh_height (sb_header block)) (sb_timestamp_secs block) ema = Ok ()) ∧
  (∀ l tx, is_term l → tx ∈ txs l → validate_term_only_price config tx l (lh_height (sb_header block)) (sb_timestamp_secs block) ema = Ok ()).
Proof.
  intros Hanch. assert (Hpast : ∀ l (tx : DataTx), l ≠ Publish → tx ∈ txs l → past (th_id tx) = [] ↔ ∀ l', ¬ recorded chain l' (th_id tx)).
  { intros l tx Hl Hin. destruct (Hanch l tx Hl Hin) as (Ha & a & g & Hg & Hh & Hw). apply (past_complete _ a g); [done|congruence|done]. }
  assert (Hterm : ∀ l, is_term l → l ≠ Publish) by (by intros l [-> | ->]).
  assert (Hsearch : ∀ l (tx : DataTx), is_term l → inclusion_is_valid v config block ema (tx, Searching l) = validate_term_only_price config tx l (lh_height (sb_header block)) (sb_timestamp_secs block) ema)
    by (by intros l tx [-> | ->]). split.
  - intros Hall. assert (Hsub : ∀ tx : DataTx, tx ∈ txs Submit → past (th_id tx) = [] ∧ validate_publish_price config tx (lh_height (sb_header block)) (sb_timestamp_secs block) ema = Ok ()).
    { intros tx Hin. destruct (decide (th_id tx ∈ tx_ids (txs Publish))) as [Hp|Hp].
      - apply same_block_ok, (Hall (tx, _)). by apply entry_same.
      - apply (new_ok ema Submit tx); [done|]. apply (Hall (tx, _)). by apply entry_submit. }
    assert (Htm : ∀ l (tx : DataTx), is_term l → tx ∈ txs l → past (th_id tx) = [] ∧ validate_term_only_price config tx l (lh_height (sb_header block)) (sb_timestamp_secs block) ema = Ok ()).
    { intros l tx Hl Hin. rewrite <- Hsearch by done. apply new_ok; [by apply Hterm|]. apply (Hall (tx, _)). by apply entry_term. }
    split_and!.
    + intros l l' id Hl (tx & -> & Hin)%list_elem_of_fmap. apply (Hpast l tx Hl Hin). destruct l; [done|by apply Hsub|..]; eapply Htm; [by left|done|by right|done].
    + intros id (tx & -> & Hin)%list_elem_of_fmap. destruct (decide (th_id tx ∈ tx_ids (txs Submit))) as [Hs|Hs].
      * split; [|by left]. apply list_elem_of_fmap in Hs as (tx' & Heq & Hin'). rewrite Heq. apply (Hpast Submit tx'); [done|done|]. by apply Hsub.
      * destruct (proj1 (promotion_ok ema tx)) as [??]; [|by split; [|right]]. apply (Hall (tx, _)). by apply entry_publish.
    + intros tx Hin. by apply Hsub.
    + intros l tx Hl Hin. by apply Htm.
  - intros (Hnew & Hprom & Hpp & Htp) e He. destruct He as [tx Hin Hn|tx Hin Hs|tx Hin Hn|l tx Hl Hin]; cbn [fst snd].
    + apply new_ok; [done|]. split; [|by apply Hpp]. apply (Hpast Submit tx); [done|done|]. intros l'. apply (Hnew Submit); [done|by apply tx_ids_in].
    + apply same_block_ok. split; [|by apply Hpp]. apply (Hpast Submit tx); [done|done|]. intros l'. apply (Hnew Submit); [done|by apply tx_ids_in].
    + apply promotion_ok. destruct (Hprom (th_id tx)) as [? [?|?]]; [by apply tx_ids_in|done|done].
    + apply new_ok; [by apply Hterm|]. rewrite Hsearch by done. split; [|by apply Htp]. apply (Hpast l tx); [by apply Hterm|done|].
      intros l'. apply (Hnew l); [by apply Hterm|by apply tx_ids_in].
Qed.

Lemma verdict_ok es ema : anchored →
  data_txs_placed v config block txs es ema = Ok () ↔ admissible config chain block txs (epoch_cascade (wc_epoch (dc_walk config)) es) ema.
Proof.
  intros Hanch. pose proof (txs_to_check_spec cur txs NoDup_ledger_ids) as Hcheck. pose proof (entries_ok ema Hanch) as Hent.
  unfold data_txs_placed. set (cas := epoch_cascade _ es). split.
  - intros ([] & Hs & ([] & Hp & ([] & H1 & ([] & H30 & (r & Hext & (m & Hm & (m' & Hm' & Hall)%bind_ok)%bind_ok)%bind_ok)%bind_ok)%bind_ok)%bind_ok)%bind_ok.
    destruct Hcheck as [(Hsg & m0 & Hm0 & Hspec)|(_ & err & Herr)]; [|congruence]. assert (m = m0) as -> by congruence.
    destruct (previous_inclusions_ok m0) as (m1 & Hm1 & Hover). rewrite Hm1 in Hm'. injection Hm' as <-. pose proof (proj1 (states_ok ema m0 m1 Hspec Hover) Hall) as Hset.
    apply Hent in Hset as (Hnew & Hprom & Hpp & Htp). assert (Hw : ∀ l, txs_well_placed l (txs l) = Ok ()) by (by intros []).
    split; [..|done|done|done|done|done].
    + intros l tx Hin. by apply (proj1 (well_placed_ok l (txs l)) (Hw l)).
    + intros tx Hin. by apply (proj1 (well_placed_ok Submit (txs Submit)) Hs).
    + intros l tx Hl Hin. by apply (proj1 (well_placed_ok l (txs l)) (Hw l) tx Hin).
    + apply extract_ok. destruct (extract_data_ledgers block cas) as [x|]; [by exists x|done].
  - intros Had. assert (Hw : ∀ l, txs_well_placed l (txs l) = Ok ()).
    { intros l. apply well_placed_ok. intros tx Hin. split_and!; [by apply (ad_ledger_id _ _ _ _ _ _ Had)|intros ->; by apply (ad_unpromoted _ _ _ _ _ _ Had)|].
      intros Hl. by apply (ad_term_fee_only _ _ _ _ _ _ Had l). }
    rewrite !Hw. res_simpl. destruct (proj2 (extract_ok block cas) (ad_shape _ _ _ _ _ _ Had)) as [r ->]. res_simpl.
    destruct Hcheck as [(Hsg & m & -> & Hspec)|(Hns & _)]; [|destruct Hns; exact (ad_single _ _ _ _ _ _ Had)]. res_simpl.
    destruct (previous_inclusions_ok m) as (m' & -> & Hover). res_simpl. apply (states_ok ema m m' Hspec Hover), Hent. split_and!; apply Had.
Qed.
End Verdict.

(** ** Anchors *)

Lemma data_ledger_tx_ids_ok ledgers acc : sealed_ledgers ledgers → (∀ dl l, dl ∈ ledgers → tl_ledger_id dl = ledger_id l → l ∉ acc.*1) →
  ∃ new, data_ledger_tx_ids ledgers acc = Ok (acc ++ new) ∧ ∀ l, ids_of l new = tl_tx_ids <$> List.find (λ dl, tl_ledger_id dl =? ledger_id l) ledgers.
Proof.
  intros [Hk Hd _]. revert acc Hk Hd. induction ledgers as [|dl ledgers IH]; intros acc Hk Hd Hacc; cbn [data_ledger_tx_ids].
  { exists []. by rewrite app_nil_r. }
  destruct (Hk dl) as [l Hl]; [by left|]. rewrite Hl. apply ledger_of_id_Some in Hl. res_simpl. rewrite fmap_cons in Hd. apply NoDup_cons in Hd as [Hdn Hd].
  rewrite bool_decide_false by (apply (Hacc dl); [by left|done]). res_simpl. destruct (IH (acc ++ [(l, tl_tx_ids dl)])) as (new & -> & Hnew).
  - intros d Hin. apply Hk. by right.
  - done.
  - intros d l' Hin Hl'. rewrite fmap_app, elem_of_app. intros [Hin'|Heq%list_elem_of_singleton]; [revert Hin'; apply (Hacc d); [by right|done]|].
    cbn [fst] in Heq. subst l'. apply Hdn. rewrite Hl, <- Hl'. by apply list_elem_of_fmap_2.
  - exists ((l, tl_tx_ids dl) :: new). split; [by rewrite <- app_assoc|]. intros l'. unfold ids_of in *. cbn [List.find fst]. rewrite Hl.
    case_bool_decide as Hll; [subst l'; by rewrite Z.eqb_refl|]. rewrite (proj2 (Z.eqb_neq _ _)) by (by destruct l, l'). apply Hnew.
Qed.

Lemma header_ids_ok h : sealed_ledgers (lh_data_ledgers h) → ∃ r, get_data_ledger_tx_ids h = Ok r ∧ ∀ l, ids_of l r = ledger_tx_ids_in h l.
Proof.
  intros Hs. destruct (data_ledger_tx_ids_ok (lh_data_ledgers h) [] Hs) as (r & Hr & Hids); [intros; apply not_elem_of_nil|]. by exists r.
Qed.

Section Anchored.
  Context `{DupSort} {P : Type} (config : DataTxConfig) (v : ExpiryView) (canon chain : list LedgerHeader) (block : ShadowBlock P) (txs : DataLedger → list DataTx).
  Notation n := (length chain).
  Notation depth := (wc_tx_anchor_expiry_depth (dc_walk config)).
  Context (Hnode : node_view config v canon chain (Z.of_nat n)).
  Context (previous : LedgerHeader) (Hlast : last chain = Some previous) (Hlink : lh_previous_block_hash (sb_header block) = lh_block_hash previous).
  Context (Hheight : lh_height (sb_header block) = Z.of_nat n).
  Notation Hv := (nv_view _ _ _ _ _ Hnode).

Lemma header_read k p : chain !! k = Some p → get_block_header v (lh_block_hash p) = Some p.
Proof.
  intros Hk. unfold get_block_header, get_block. destruct (v_tree v !! lh_block_hash p) as [b|] eqn:Hb; cbn [fmap option_fmap option_map].
  - by rewrite (vo_tree _ _ _ Hv p b (list_elem_of_lookup_2 _ _ _ Hk) Hb).
  - apply (mw_header _ _ (nv_metadata _ _ _ _ _ Hnode)). pose proof (ancestor_canonical v canon chain Hv (nv_covered _ _ _ _ _ Hnode) k p Hk Hb) as Hc. by eapply list_elem_of_lookup_2.
Qed.

Lemma chain_height k p : chain !! k = Some p → lh_height p = Z.of_nat k.
Proof. apply (co_height _ (vo_chain _ _ _ Hv)). Qed.

(** The parent of a block that is not the first. *)
Lemma chain_parent k p : chain !! S k = Some p → ∃ q, chain !! k = Some q ∧ get_block_header v (lh_previous_block_hash p) = Some q ∧ lh_previous_block_hash p = lh_block_hash q.
Proof.
  intros Hk. destruct (lookup_lt_is_Some_2 chain k) as [q Hq]; [apply lookup_lt_Some in Hk; lia|]. exists q. rewrite (co_link _ (vo_chain _ _ _ Hv) _ _ _ Hq Hk).
  split_and!; [done|by eapply header_read|done].
Qed.

Lemma previous_at : chain !! pred n = Some previous ∧ (0 < n)%nat.
Proof. rewrite last_lookup in Hlast. split; [done|]. apply lookup_lt_Some in Hlast. lia. Qed.

(** Blocks of the chain with their heights. *)
Definition anchors_on (m : gmap Z Z) : Prop := ∀ a h, m !! a = Some h → ∃ j g, chain !! j = Some g ∧ lh_block_hash g = a ∧ h = Z.of_nat j.

Lemma anchors_insert m k p : anchors_on m → chain !! k = Some p → anchors_on (<[lh_block_hash p := lh_height p]> m).
Proof. intros Hm Hk a h. rewrite lookup_insert_Some. intros [[<- <-]|[_ ?]]; [|by apply Hm]. exists k, p. split_and!; [done|done|by apply chain_height]. Qed.

Lemma walk_anchors_sound k p fuel incoming min m m' q :
  chain !! k = Some p → anchors_on m → walk_anchors v fuel incoming min p m = Ok (m', q) → anchors_on m' ∧ ∃ j, chain !! j = Some q.
Proof.
  revert p fuel m. induction k as [|k IH]; intros p fuel m Hk Hm Hgo.
  - destruct fuel; cbn [walk_anchors] in Hgo; rewrite (chain_height _ _ Hk) in Hgo; destruct (Z.of_nat 0 <? min); [by injection Hgo as <- <-; eauto| |by injection Hgo as <- <-; eauto|];
      destruct (no_submit_duplicate incoming p); res_simpl in Hgo; try done; cbn [Z.eqb Z.of_nat] in Hgo; injection Hgo as <- <-; (split; [|by exists 0%nat]);
      rewrite <- (chain_height _ _ Hk); by apply (anchors_insert m 0).
  - destruct (chain_parent k p Hk) as (q0 & Hq0 & Hread & _).
    destruct fuel as [|fuel]; cbn [walk_anchors] in Hgo; destruct (lh_height p <? min); [by injection Hgo as <- <-; eauto| |by injection Hgo as <- <-; eauto|];
      destruct (no_submit_duplicate incoming p); res_simpl in Hgo; try done; rewrite (proj2 (Z.eqb_neq (lh_height p) 0)), Hread in Hgo by (rewrite (chain_height _ _ Hk); lia); res_simpl in Hgo; [done|].
    by apply (IH q0 fuel _ Hq0) in Hgo; [|by apply (anchors_insert m (S k))].
Qed.

Lemma get_item_canon i item : get_item (v_index v) i = Some item → ∃ j c, i = Z.of_nat j ∧ canon !! j = Some c ∧ bi_block_hash item = lh_block_hash c.
Proof.
  unfold get_item, block_index_item_by_height. rewrite (io_hash _ _ _ (vo_index _ _ _ Hv)). destruct (Z.leb_spec 0 i) as [Hi|]; [|done].
  rewrite list_lookup_fmap. destruct (canon !! Z.to_nat i) as [c|] eqn:Hc; [|done]. cbn [fmap option_fmap option_map]. res_simpl. destruct (fits _ _); [|done]. res_simpl. intros [= <-].
  exists (Z.to_nat i), c. split_and!; [lia|done|done].
Qed.

(** The items that the loop over the index inserts, with the one below the header. *)
Lemma index_anchors_items count h q m m' : h + Z.of_nat count = lh_height q → index_anchors v count h q m = Ok m' →
  (∀ a x, m' !! a = Some x → m !! a = Some x ∨ ∃ item, get_item (v_index v) x = Some item ∧ bi_block_hash item = a ∧ x < lh_height q) ∧
  ((0 < count)%nat → ∃ item, get_item (v_index v) (lh_height q - 1) = Some item ∧ bi_block_hash item = lh_previous_block_hash q).
Proof.
  revert h m. induction count as [|count IH]; intros h m Hsum; cbn [index_anchors].
  { intros [= <-]. split; [by left|lia]. }
  destruct (get_item (v_index v) h) as [item|] eqn:Hitem; res_simpl; [|done]. intros ([] & Hg & Hgo)%bind_ok. apply guard_err_ok, andb_false_iff in Hg.
  apply IH in Hgo as [Hm' Hlow]; [|lia]. split.
  - intros a x Hx. apply Hm' in Hx as [Hx|?]; [|by right]. apply lookup_insert_Some in Hx as [[<- <-]|[_ ?]]; [|by left]. right. exists item. split_and!; [done|done|lia].
  - intros _. destruct count as [|count]; [|apply Hlow; lia]. exists item. replace (lh_height q - 1) with h by lia. split; [done|].
    destruct Hg as [Hg|Hg]; [rewrite Z.eqb_neq in Hg; lia|]. apply negb_false_iff, Z.eqb_eq in Hg. done.
Qed.

Lemma index_anchors_sound count h j q m m' : chain !! j = Some q → h + Z.of_nat count = lh_height q → anchors_on m → index_anchors v count h q m = Ok m' → anchors_on m'.
Proof.
  intros Hj Hsum Hm Hgo. destruct count as [|count]; [by injection Hgo as <-|]. apply index_anchors_items in Hgo as [Hitems Hlow]; [|done].
  destruct Hlow as (item & Hget & Hhash); [lia|]. destruct (get_item_canon _ _ Hget) as (i & c & Hi & Hc & Hch).
  rewrite (chain_height _ _ Hj) in *. destruct j as [|j]; [lia|]. assert (i = j) as -> by lia. destruct (chain_parent j q Hj) as (p & Hp & _ & Hprev).
  assert (p = c) as <- by (apply (vo_same _ _ _ Hv p c); [by eapply list_elem_of_lookup_2..|congruence]).
  intros a x [Hx|(it & Hit & <- & Hlt)]%Hitems; [by apply Hm|]. destruct (get_item_canon _ _ Hit) as (k & d & -> & Hd & ->).
  destruct (lookup_lt_is_Some_2 chain k) as [e He]; [apply lookup_lt_Some in Hj; lia|].
  pose proof (canonical_below v canon chain Hv j k p e Hp Hc ltac:(lia) He) as Hce. exists k, e. split_and!; [done|congruence|done].
Qed.

(** The anchors that are accepted. *)
Lemma anchor_sound anchors a : anchors_on anchors →
  anchor_valid_for v anchors (map_floor config (Z.of_nat n)) a (min_tx_anchor_height config (Z.of_nat n)) = true →
  ∃ j g, chain !! j = Some g ∧ lh_block_hash g = a ∧ Z.of_nat n - depth ≤ Z.of_nat j.
Proof.
  intros Hon. unfold anchor_valid_for. destruct (anchors !! a) as [h|] eqn:Ha.
  - intros Hle%Z.leb_le. destruct (Hon a h Ha) as (j & g & Hj & Hg & ->). exists j, g. split_and!; [done|done|]. unfold min_tx_anchor_height, saturating_sub in Hle. lia.
  - unfold canonical_block_height_by_hash. destruct (v_headers v !! a) as [hdr|]; [|done]. case_bool_decide as Hm; [|done].
    rewrite andb_true_iff, Z.leb_le, Z.ltb_lt. intros [Hle Hlt]. rewrite (io_hash _ _ _ (vo_index _ _ _ Hv)) in Hm. destruct (Z.leb_spec 0 (lh_height hdr)); [|done].
    rewrite list_lookup_fmap in Hm. destruct (canon !! Z.to_nat (lh_height hdr)) as [c|] eqn:Hc; [|done]. cbn in Hm. injection Hm as Hm.
    destruct (nv_finalized _ _ _ _ _ Hnode) as (m & Htake & _ & Hfin). exists (Z.to_nat (lh_height hdr)), c. rewrite <- (shared_lookup canon chain m) by
      (first [done|unfold map_floor, reorg_floor, min_tx_anchor_height, prior_inclusion_walk_depth, saturating_sub in *; lia]).
    split_and!; [done|done|]. unfold min_tx_anchor_height, saturating_sub in Hle. lia.
Qed.

Lemma tx_anchors_ok valid (l : list DataTx) : tx_anchors_are_valid valid l = Ok () → ∀ tx, tx ∈ l → valid (dt_anchor tx) = true.
Proof.
  induction l as [|t l IH]; cbn [tx_anchors_are_valid]; [by intros _ tx ?%elem_of_nil|]. intros ([] & Ht & Hgo)%bind_ok tx [->|Hin]%elem_of_cons; [|by apply IH].
  by apply guard_err_ok, negb_false_iff in Ht.
Qed.

Lemma anchors_sound : data_anchors_are_valid v config block txs = Ok () → ∀ l (tx : DataTx), l ≠ Publish → tx ∈ txs l →
  ∃ j g, chain !! j = Some g ∧ lh_block_hash g = dt_anchor tx ∧ Z.of_nat n - depth ≤ Z.of_nat j.
Proof.
  destruct previous_at as [Hprev Hn]. unfold data_anchors_are_valid. rewrite Hlink, (header_read _ _ Hprev). res_simpl. rewrite Hheight.
  intros (binding & _ & ([] & _ & (anchors & Hanch & Hgo)%bind_ok)%bind_ok)%bind_ok.
  assert (Hon : anchors_on anchors).
  { unfold valid_anchor_block_heights in Hanch. apply bind_ok in Hanch as ([m q] & Hwalk & Hidx).
    assert (H0 : anchors_on ∅) by (intros a h Ha; by rewrite lookup_empty in Ha). destruct (walk_anchors_sound _ _ _ _ _ _ _ _ Hprev H0 Hwalk) as [Hm (j & Hj)].
    set (m1 := if _ <=? _ then _ else _) in Hidx. assert (Hm1 : anchors_on m1) by (unfold m1; destruct (_ <=? _); [by apply (anchors_insert m j)|done]).
    destruct (Z.le_gt_cases (reorg_floor config (Z.of_nat n)) (lh_height q)) as [Hle|Hgt].
    - apply (index_anchors_sound _ _ j q m1 anchors Hj) in Hidx; [done|lia|done].
    - replace (Z.to_nat _) with 0%nat in Hidx by lia. by injection Hidx as <-. }
  apply bind_ok in Hgo as ([] & Hs & ([] & H1 & H30)%bind_ok). intros l tx Hl Hin. apply (anchor_sound anchors); [done|].
  destruct l; [done|by eapply tx_anchors_ok in Hs|by eapply tx_anchors_ok in H1|by eapply tx_anchors_ok in H30].
Qed.

(** ** Branches that leave the index below the window *)

Section Fork.
  Context (Hsealed : ∀ h, h ∈ chain → sealed_ledgers (lh_data_ledgers h)) (incoming : option (list Z)).
  Context (Hnew : ∀ ids id, incoming = Some ids → id ∈ ids → ¬ recorded chain Submit id).

Lemma no_duplicate_ok k p : chain !! k = Some p → no_submit_duplicate incoming p = Ok ().
Proof.
  intros Hk. unfold no_submit_duplicate. destruct incoming as [ids|] eqn:Hinc; [|done].
  destruct (header_ids_ok p) as (r & -> & Hr); [apply Hsealed; by eapply list_elem_of_lookup_2|]. res_simpl. rewrite Hr.
  destruct (ledger_tx_ids_in p Submit) as [parent_ids|] eqn:Hp; [|done]. destruct (List.find _ _) as [id|] eqn:Hf; [|done]. apply find_some in Hf as [Hin Hb].
  apply bool_decide_eq_true in Hb. apply list_elem_of_In in Hin. destruct (Hnew ids id); [done|done|]. exists k, p. split; [done|]. unfold block_includes_ledger_tx. rewrite Hp.
  by apply bool_decide_eq_true.
Qed.

(** The walk ends one block below the window. *)
Lemma walk_anchors_run k p fuel e q m : chain !! k = Some p → (k ≤ fuel)%nat → (e < k)%nat → chain !! e = Some q →
  ∃ m', walk_anchors v fuel incoming (Z.of_nat (S e)) p m = Ok (m', q).
Proof.
  revert p fuel m. induction k as [|k IH]; intros p fuel m Hk Hfuel He Hq; [lia|]. destruct fuel as [|fuel]; [lia|]. cbn [walk_anchors].
  rewrite (chain_height _ _ Hk), (proj2 (Z.ltb_ge _ _)) by lia. rewrite (no_duplicate_ok _ _ Hk). res_simpl. rewrite (proj2 (Z.eqb_neq _ 0)) by lia.
  destruct (chain_parent k p Hk) as (q0 & Hq0 & -> & _). res_simpl. destruct (decide (e = k)) as [->|Hek].
  - assert (q0 = q) as -> by congruence. destruct fuel; cbn [walk_anchors]; rewrite (chain_height _ _ Hq), (proj2 (Z.ltb_lt _ _)) by lia; by eexists.
  - apply (IH q0 fuel); [done|lia|lia|done].
Qed.
End Fork.

Lemma get_item_some i c : canon !! i = Some c → ∃ item, get_item (v_index v) (Z.of_nat i) = Some item ∧ bi_block_hash item = lh_block_hash c.
Proof.
  intros Hc. destruct (item_by_height _ _ i (header_item c) (vo_index _ _ _ Hv)) as (item & Hitem & Hh & _ & _); [by rewrite list_lookup_fmap, Hc|].
  exists item. unfold get_item. by rewrite Hitem.
Qed.

Lemma index_anchors_mismatch count h k q c m : chain !! S k = Some q → canon !! k = Some c → lh_block_hash c ≠ lh_previous_block_hash q →
  0 ≤ h → (0 < count)%nat → h + Z.of_nat count = Z.of_nat (S k) → index_anchors v count h q m = Err (BlockIndexInconsistency (Z.of_nat k)).
Proof.
  intros Hq Hc Hne. revert h m. induction count as [|count IH]; intros h m Hh Hpos Hsum; [lia|]. cbn [index_anchors]. rewrite (chain_height _ _ Hq).
  destruct (lookup_lt_is_Some_2 canon (Z.to_nat h)) as [d Hd]; [apply lookup_lt_Some in Hc; lia|]. destruct (get_item_some _ _ Hd) as (item & Hitem & Hhash).
  rewrite Z2Nat.id in Hitem by done. rewrite Hitem. res_simpl. destruct (Z.eqb_spec h (Z.of_nat (S k) - 1)) as [->|Hlt].
  - replace (Z.to_nat _) with k in Hd by lia. assert (d = c) as -> by congruence. rewrite Hhash, (proj2 (Z.eqb_neq _ _)) by done. cbn. do 2 f_equal. lia.
  - cbn [andb]. res_simpl. apply IH; lia.
Qed.

Lemma fork_refused k c g : (∀ h, h ∈ chain → sealed_ledgers (lh_data_ledgers h)) → sealed_ledgers (lh_data_ledgers (sb_header block)) →
  (∀ id, includes (sb_header block) Submit id → ¬ recorded chain Submit id) →
  Z.of_nat k + depth + 2 = Z.of_nat n → Z.of_nat n ≤ Z.of_nat k + wc_block_tree_depth (dc_walk config) →
  canon !! k = Some c → chain !! k = Some g → lh_block_hash c ≠ lh_block_hash g →
  data_anchors_are_valid v config block txs = Err (BlockIndexInconsistency (Z.of_nat k)).
Proof.
  intros Hs Hb Hnew Hk Hfloor Hc Hg Hne. destruct previous_at as [Hprev Hn]. unfold data_anchors_are_valid. rewrite Hlink, (header_read _ _ Hprev). res_simpl. rewrite Hheight.
  destruct (header_ids_ok _ Hb) as (r & -> & Hr). res_simpl. rewrite (chain_height _ _ Hprev). replace (Z.of_nat (pred n) + 1) with (Z.of_nat n) by lia. rewrite Z.eqb_refl. res_simpl.
  pose proof (nv_depth _ _ _ _ _ Hnode). destruct (lookup_lt_is_Some_2 chain (S k)) as [q Hq]; [lia|]. destruct (chain_parent k q Hq) as (g' & Hg' & _ & Hgq).
  assert (g' = g) as -> by congruence. unfold valid_anchor_block_heights. rewrite (chain_height _ _ Hprev), Hr.
  assert (min_tx_anchor_height config (Z.of_nat n) = Z.of_nat (S (S k))) as -> by (unfold min_tx_anchor_height, saturating_sub; lia).
  destruct (decide (pred n = S k)) as [Hpn|Hpn].
  - assert (previous = q) as <- by congruence. destruct (Z.to_nat (Z.of_nat (pred n))); cbn [walk_anchors]; rewrite (chain_height _ _ Hprev), (proj2 (Z.ltb_lt _ _)) by lia; res_simpl;
      rewrite (chain_height _ _ Hprev), (index_anchors_mismatch _ _ k previous c); try done; unfold reorg_floor, saturating_sub; try congruence; lia.
  - destruct (walk_anchors_run Hs (ledger_tx_ids_in (sb_header block) Submit)) with (k := pred n) (p := previous) (fuel := Z.to_nat (Z.of_nat (pred n))) (e := S k) (q := q) (m := (∅ : gmap Z Z)) as (m & ->);
      [|done|lia|lia|done|].
    { intros ids id Hids Hin. apply Hnew. unfold block_includes_ledger_tx. rewrite Hids. by apply bool_decide_eq_true. }
    res_simpl. rewrite (chain_height _ _ Hq), (index_anchors_mismatch _ _ k q c); try done; unfold reorg_floor, saturating_sub; try congruence; lia.
Qed.
End Anchored.

(** * Ingress proofs of promotions *)

Section Backed.
  Context {P : Type} (recover_signer : P → option Z) (proof_data_root : P → list byte) (es : EpochSnapshot) (n : Z) (Hn : 0 ≤ n).

(** The proofs of a transaction, as far as they back it: signatures of distinct stakers over
    its data root. *)
Record proofs_back (tx : DataTx) (proofs : list P) : Prop := {
  pb_signers : ∃ signers, recover_signer <$> proofs = Some <$> signers ∧ NoDup signers ∧ Forall (λ s, is_staked es s = true) signers;
  pb_roots : Forall (λ p, proof_data_root p = th_data_root tx) proofs
}.

(** The Publish ledger of a block: the proofs of each transaction are those that the rewards
    of the block are paid for. *)
Definition promotions_backed (pl : BlockLedger P) (txs : list DataTx) : Prop :=
  (bl_proofs pl = None ∧ txs = []) ∨
  ∃ proofs, bl_proofs pl = Some proofs ∧ length proofs = (length txs * Z.to_nat n)%nat ∧ default 0 (bl_required_proof_count pl) = n ∧ (txs = [] ∨ is_Some (bl_required_proof_count pl)) ∧
    ∀ i tx, txs !! i = Some tx → ∃ ps, proofs_of_tx proofs (Z.of_nat i) n = Ok ps ∧ length ps = Z.to_nat n ∧ proofs_back tx ps.

Definition bump (counts : gmap Z nat) (s : Z) : gmap Z nat := <[s := S (default 0%nat (counts !! s))]> counts.

Lemma bump_lookup signers counts s : foldl bump counts signers !! s =
  if decide (s ∈ signers) then Some (default 0%nat (counts !! s) + count_occ Z.eq_dec signers s)%nat else counts !! s.
Proof.
  revert counts. induction signers as [|x signers IH]; intros counts; cbn [foldl].
  { rewrite decide_False by apply not_elem_of_nil. done. }
  rewrite IH. unfold bump. destruct (decide (x = s)) as [->|Hne].
  - rewrite lookup_insert_eq, count_occ_cons_eq by done. rewrite (decide_True (P := s ∈ s :: signers)) by by left. destruct (decide (s ∈ signers)) as [Hin|Hni]; cbn; f_equal.
    + lia.
    + rewrite list_elem_of_In in Hni. rewrite (proj1 (count_occ_not_In Z.eq_dec signers s) Hni). lia.
  - rewrite lookup_insert_ne, count_occ_cons_neq by done. destruct (decide (s ∈ signers)) as [Hin|Hni].
    + by rewrite decide_True by by right.
    + rewrite decide_False; [done|]. by rewrite not_elem_of_cons.
Qed.

Lemma signer_counts_ok tx_id proofs counts c : signer_counts recover_signer es tx_id proofs counts = Ok c ↔
  ∃ signers, recover_signer <$> proofs = Some <$> signers ∧ Forall (λ s, is_staked es s = true) signers ∧ c = foldl bump counts signers.
Proof.
  revert counts. induction proofs as [|p proofs IH]; intros counts; cbn [signer_counts]; [split|].
  - intros [= <-]. by exists [].
  - intros (signers & Hs & _ & ->). symmetry in Hs. by apply fmap_nil_inv in Hs as ->.
  - split.
    + intros (s & Hs & ([] & Hst & (signers & Hr & Hall & ->)%IH)%bind_ok)%bind_ok. destruct (recover_signer p) as [s'|] eqn:Hp; [|done]. injection Hs as ->.
      apply guard_err_ok, negb_false_iff in Hst. exists (s :: signers). rewrite !fmap_cons, Hr, Hp. split_and!; [done|by constructor|done].
    + intros (signers & Hr & Hall & ->). destruct signers as [|s signers]; [done|]. rewrite !fmap_cons in Hr. injection Hr as Hp Hr. apply Forall_cons in Hall as [Hst Hall].
      rewrite Hp. res_simpl. rewrite Hst. cbn [negb]. res_simpl. apply IH. by exists signers.
Qed.

Lemma counts_one signers : List.find (λ sc : Z * nat, negb (sc.2 =? 1)%nat) (map_to_list (foldl bump ∅ signers)) = None ↔ NoDup signers.
Proof.
  rewrite NoDup_ListNoDup, (NoDup_count_occ Z.eq_dec). split.
  - intros Hf s. destruct (decide (s ∈ signers)) as [Hin|Hni].
    + assert (Hl : (s, count_occ Z.eq_dec signers s) ∈ map_to_list (foldl bump ∅ signers)) by (apply elem_of_map_to_list; by rewrite bump_lookup, decide_True).
      apply list_elem_of_In in Hl. apply (find_none _ _ Hf) in Hl. apply negb_false_iff, Nat.eqb_eq in Hl. cbn in Hl. lia.
    + rewrite list_elem_of_In in Hni. rewrite (proj1 (count_occ_not_In Z.eq_dec signers s) Hni). lia.
  - intros Hle. destruct (List.find _ _) as [[s k]|] eqn:Hf; [|done]. apply find_some in Hf as [Hin Hk]. apply list_elem_of_In, elem_of_map_to_list in Hin.
    rewrite bump_lookup in Hin. destruct (decide (s ∈ signers)) as [Hs|]; [|done]. injection Hin as <-. apply list_elem_of_In in Hs. apply (count_occ_In Z.eq_dec) in Hs.
    specialize (Hle s). cbn [snd] in Hk. rewrite lookup_empty in Hk. cbn in Hk. apply negb_true_iff, Nat.eqb_neq in Hk. lia.
Qed.

Definition signed_by_stakers (proofs : list P) : Prop :=
  ∃ signers, recover_signer <$> proofs = Some <$> signers ∧ NoDup signers ∧ Forall (λ s, is_staked es s = true) signers.

Lemma signers_of_txs_ok pl ids : signers_of_txs recover_signer es pl ids = Ok () ↔ ∀ id, id ∈ ids → ∃ ps, get_ingress_proofs pl id = Some ps ∧ signed_by_stakers ps.
Proof.
  induction ids as [|x ids IH]; cbn [signers_of_txs]; [split; [by intros _ id ?%elem_of_nil|done]|]. split.
  - intros (ps & Hps & (c & (signers & Hr & Hst & ->)%signer_counts_ok & ([] & Hf & Hgo)%bind_ok)%bind_ok)%bind_ok id [->|Hin]%elem_of_cons; [|by apply IH].
    destruct (get_ingress_proofs pl x) as [ps'|]; [|done]. injection Hps as ->. exists ps. split; [done|]. exists signers. split_and!; [done| |done].
    apply counts_one. by destruct (List.find _ _) as [[]|].
  - intros Hall. destruct (Hall x) as (ps & -> & signers & Hr & Hnd & Hst); [by left|]. res_simpl.
    rewrite (proj2 (signer_counts_ok x ps ∅ (foldl bump ∅ signers))) by (by exists signers). res_simpl. rewrite (proj2 (counts_one signers) Hnd). apply IH. intros id Hin. apply Hall. by right.
Qed.

Lemma ingress_pairs_ok pl (txs : list DataTx) :
  (∃ pairs, ingress_pairs pl txs = Ok pairs ∧ forallb (λ pr, bool_decide (is_Some (pre_validate recover_signer proof_data_root pr.1 pr.2))) pairs = true) ↔
  ∀ tx, tx ∈ txs → ∃ ps, get_ingress_proofs pl (th_id (dt_header tx)) = Some ps ∧ Forall (λ p, proof_data_root p = th_data_root tx ∧ is_Some (recover_signer p)) ps.
Proof.
  assert (Hpre : ∀ p root, bool_decide (is_Some (pre_validate recover_signer proof_data_root p root)) = true ↔ proof_data_root p = root ∧ is_Some (recover_signer p)).
  { intros p root. rewrite bool_decide_eq_true. unfold pre_validate. case_bool_decide; [tauto|]. split; [by intros [? ?]|tauto]. }
  induction txs as [|t txs IH]; cbn [ingress_pairs]; [split; [by intros _ tx ?%elem_of_nil|by exists []]|]. split.
  - intros (pairs & (ps & Hps & (rest & Hrest & [= <-])%bind_ok)%bind_ok & Hall) tx Htx. rewrite forallb_app, andb_true_iff in Hall. destruct Hall as [Hhere Hgo].
    apply elem_of_cons in Htx as [->|Htx]; [|by apply (proj1 IH); [exists rest|]]. destruct (get_ingress_proofs pl (th_id t)) as [ps'|]; [|done]. injection Hps as ->.
    exists ps. split; [done|]. apply Forall_forall. intros p Hp. apply Hpre. apply (proj1 (forallb_forall _ _) Hhere (p, th_data_root t)). apply list_elem_of_In. by apply (list_elem_of_fmap_2 (λ p, (p, th_data_root t))).
  - intros Hall. destruct (Hall t) as (ps & -> & Hps); [by left|]. res_simpl. destruct (proj2 IH) as (rest & -> & Hrest); [intros tx Htx; apply Hall; by right|]. res_simpl.
    eexists. split; [done|]. rewrite forallb_app, Hrest, andb_true_r. apply forallb_forall. intros pr Hpr. apply list_elem_of_In, list_elem_of_fmap in Hpr as (p & -> & Hp).
    apply Hpre. by apply (proj1 (Forall_forall _ _) Hps).
Qed.

Section Slices.
  Context (pl : BlockLedger P) (txs : list DataTx) (Hids : tl_tx_ids (bl_ledger pl) = (λ tx : DataTx, th_id tx) <$> txs) (Hnd : NoDup (tl_tx_ids (bl_ledger pl))).
  Context (proofs : list P) (Hproofs : bl_proofs pl = Some proofs) (Hlen : length proofs = (length txs * Z.to_nat n)%nat) (Hfit : Z.of_nat (length proofs) < 2 ^ 64).

Definition slice (i : nat) : list P := take (Z.to_nat n) (drop (i * Z.to_nat n) proofs).

Lemma slice_length i : (i < length txs)%nat → (i * Z.to_nat n + Z.to_nat n ≤ length proofs)%nat ∧ length (slice i) = Z.to_nat n.
Proof. intros Hi. assert (i * Z.to_nat n + Z.to_nat n ≤ length proofs)%nat by (rewrite Hlen; nia). split; [done|]. unfold slice. rewrite length_take, length_drop. lia. Qed.

Lemma get_slice i (tx : DataTx) : txs !! i = Some tx → bl_required_proof_count pl = Some n → get_ingress_proofs pl (th_id tx) = Some (slice i).
Proof.
  intros Hi Hreq. unfold get_ingress_proofs. assert (list_find (λ id, id = th_id tx) (tl_tx_ids (bl_ledger pl)) = Some (i, th_id tx)) as ->.
  { apply list_find_Some. assert (Hl : tl_tx_ids (bl_ledger pl) !! i = Some (th_id tx)) by (by rewrite Hids, list_lookup_fmap, Hi). split_and!; [done|done|].
    intros j y Hj Hji ->. pose proof (NoDup_lookup _ _ _ _ Hnd Hj Hl). lia. }
  cbn [fmap option_fmap option_map mbind option_bind fst]. rewrite Hreq, Hproofs. cbn [fmap option_fmap option_map mbind option_bind].
  rewrite (proj2 (Nat.ltb_ge _ _)); [done|]. apply slice_length. by apply lookup_lt_Some in Hi.
Qed.

Lemma paid_slice i : (i < length txs)%nat → proofs_of_tx proofs (Z.of_nat i) n = Ok (slice i).
Proof.
  intros Hi. destruct (slice_length i Hi) as [Hle _]. unfold proofs_of_tx, checked_mul, checked_add. assert (Z.of_nat i * n = Z.of_nat (i * Z.to_nat n)) as -> by nia.
  rewrite (proj2 (Z.ltb_lt _ _)) by lia. res_simpl. rewrite (proj2 (Z.ltb_lt _ _)) by lia. res_simpl. rewrite (proj2 (Z.leb_le _ _)) by lia. by rewrite Nat2Z.id.
Qed.
End Slices.

Lemma prevalidate_ok (block : ShadowBlock P) (transactions : DataLedger → list DataTx) pl :
  find_publish block = Ok pl → tl_tx_ids (bl_ledger pl) = (λ tx : DataTx, th_id tx) <$> transactions Publish → NoDup (tl_tx_ids (bl_ledger pl)) →
  (∀ proofs, bl_proofs pl = Some proofs → Z.of_nat (length proofs) < 2 ^ 64) →
  prevalidate_ingress_proofs recover_signer proof_data_root block transactions es n = Ok () ↔ promotions_backed pl (transactions Publish).
Proof.
  intros Hpl Hids Hnd Hfit. unfold prevalidate_ingress_proofs, validate_ingress_proof_signers, publish_ingress_proof_count_is_valid. rewrite Hpl. res_simpl. set (txs := transactions Publish) in *.
  unfold promotions_backed. destruct (bl_proofs pl) as [proofs|] eqn:Hproofs; res_simpl.
  2:{ split.
      - intros (pairs & Hp & Hg)%bind_ok. left. split; [done|]. destruct txs as [|t txs']; [done|]. cbn [ingress_pairs] in Hp. unfold get_ingress_proofs in Hp.
        rewrite Hproofs in Hp. destruct (list_find _ _) as [[? ?]|]; [|done]. destruct (bl_required_proof_count pl); done.
      - intros [[_ ->]|(proofs & ? & _)]; done. }
  specialize (Hfit proofs eq_refl). assert (Hsome : ∀ i (tx : DataTx), txs !! i = Some tx → th_id tx ∈ tl_tx_ids (bl_ledger pl)).
  { intros i tx Hi. rewrite Hids. apply (list_elem_of_fmap_2 (λ tx : DataTx, th_id tx)). by eapply list_elem_of_lookup_2. }
  assert (Hreq : ∀ i (tx : DataTx), txs !! i = Some tx → default 0 (bl_required_proof_count pl) = n → txs = [] ∨ is_Some (bl_required_proof_count pl) → bl_required_proof_count pl = Some n).
  { intros i tx Hi Hd [Hnil|[k Hk]]; [by rewrite Hnil in Hi|]. rewrite Hk in Hd |- *. cbn in Hd. congruence. } split.
  - intros ([] & ([] & Hlen & Hn')%bind_ok & ([] & ([] & _ & Hs)%bind_ok & (pairs & Hp & Hg)%bind_ok)%bind_ok)%bind_ok. right. exists proofs.
    apply guard_err_ok, negb_false_iff, Nat.eqb_eq in Hlen. apply guard_err_ok, negb_false_iff, Z.eqb_eq in Hn'. apply guard_err_ok, negb_false_iff in Hg.
    pose proof (proj1 (signers_of_txs_ok pl _) Hs) as Hsig. pose proof (proj1 (ingress_pairs_ok pl txs) (ex_intro _ pairs (conj Hp Hg))) as Hroot.
    assert (Hor : txs = [] ∨ is_Some (bl_required_proof_count pl)).
    { destruct txs as [|t txs']; [by left|]. right. destruct (Hsig (th_id t)) as (ps & Hps & _); [by apply (Hsome 0%nat)|]. unfold get_ingress_proofs in Hps.
      destruct (list_find _ _) as [[? ?]|]; [|done]. destruct (bl_required_proof_count pl) as [k|]; [by exists k|done]. }
    split_and!; [done|done|done|done|]. intros i tx Hi. pose proof (lookup_lt_Some _ _ _ Hi) as Hlt. pose proof (get_slice pl txs Hids Hnd proofs Hproofs Hlen i tx Hi (Hreq i tx Hi Hn' Hor)) as Hget.
    exists (slice proofs i). split_and!; [by apply (paid_slice txs)|by apply (slice_length txs proofs Hlen)|]. split.
    + destruct (Hsig (th_id tx)) as (ps & Hps & Hsg); [by eapply Hsome|]. rewrite Hget in Hps. by injection Hps as <-.
    + destruct (Hroot tx) as (ps & Hps & Hrt); [by eapply list_elem_of_lookup_2|]. rewrite Hget in Hps. injection Hps as <-. eapply Forall_impl; [exact Hrt|]. by intros p [? _].
  - intros [[? _]|(proofs' & [= <-] & Hlen & Hn' & Hor & Hall)]; [done|]. rewrite Hlen, Nat.eqb_refl. cbn [negb]. res_simpl. rewrite Hn', Z.eqb_refl. cbn [negb]. res_simpl.
    assert (Hback : ∀ i (tx : DataTx), txs !! i = Some tx → get_ingress_proofs pl (th_id tx) = Some (slice proofs i) ∧ proofs_back tx (slice proofs i)).
    { intros i tx Hi. split; [exact (get_slice pl txs Hids Hnd proofs Hproofs Hlen i tx Hi (Hreq i tx Hi Hn' Hor))|]. destruct (Hall i tx Hi) as (ps & Hps & _ & Hb).
      rewrite (paid_slice txs proofs Hlen Hfit i) in Hps by (by apply lookup_lt_Some in Hi). by injection Hps as <-. }
    assert (bool_decide (tl_tx_ids (bl_ledger pl) = []) && negb (bool_decide (proofs = [])) = false) as ->.
    { apply andb_false_iff. case_bool_decide as Hnil; [|by left]. right. rewrite Hids in Hnil. apply fmap_nil_inv in Hnil. rewrite Hnil in Hlen. apply nil_length_inv in Hlen as ->. done. }
    res_simpl. rewrite (proj2 (signers_of_txs_ok pl _)).
    2:{ intros id Hin. rewrite Hids in Hin. apply list_elem_of_fmap in Hin as (tx & -> & [i Hi]%list_elem_of_lookup). destruct (Hback i tx Hi) as [-> Hb]. exists (slice proofs i). split; [done|apply Hb]. }
    res_simpl. destruct (proj2 (ingress_pairs_ok pl txs)) as (pairs & -> & Hg); [|res_simpl; by rewrite Hg].
    intros tx [i Hi]%list_elem_of_lookup. destruct (Hback i tx Hi) as [-> [(signers & Hsig & _) Hrt]]. exists (slice proofs i). split; [done|]. apply Forall_forall. intros p Hp.
    split; [by apply (proj1 (Forall_forall _ _) Hrt)|]. apply (list_elem_of_fmap_2 recover_signer) in Hp. rewrite Hsig in Hp. apply list_elem_of_fmap in Hp as (s & -> & _). by eexists.
Qed.

Lemma find_zip {A B C} (f : A → B → C) (q : A → bool) (g : C → A) (l : list A) (k : list B) c : (∀ a b, g (f a b) = a) →
  List.find (λ c, q (g c)) (zip_with f l k) = Some c → List.find q l = Some (g c).
Proof.
  intros Hg. revert k. induction l as [|a l IH]; intros [|b k]; [done..|]. cbn. rewrite Hg. destruct (q a); [|apply IH]. intros [= <-]. by rewrite Hg.
Qed.

(** C22: The ingress proofs of a sealed block are accepted exactly when its promotions are
    backed: a Publish ledger with transactions has [n] proofs for each of them, which are
    signatures of distinct staked miners over the data root of the transaction.  The proofs
    of a transaction are the ones that the rewards of the block are computed from. *)
Theorem promotions_are_backed (block : ShadowBlock P) body ordered pl :
  order_transactions (lh_data_ledgers (sb_header block)) body = Ok ordered → find_publish block = Ok pl →
  (∀ proofs, bl_proofs pl = Some proofs → Z.of_nat (length proofs) < 2 ^ 64) →
  prevalidate_ingress_proofs recover_signer proof_data_root block (ledger_txs ordered) es n = Ok () ↔ promotions_backed pl (ledger_txs ordered Publish).
Proof.
  intros [Hs Hids]%order_transactions_ok Hpl. pose proof Hpl as Hf. unfold find_publish, block_ledgers in Hf. destruct (List.find _ _) as [b|] eqn:Hb; [|done]. injection Hf as ->.
  apply (find_zip _ (λ l, tl_ledger_id l =? ledger_id Publish) bl_ledger) in Hb; [|done]. apply prevalidate_ok; [done| |].
  - by rewrite Hids, Hb.
  - apply find_some in Hb as [Hin _]. apply (sl_nodup _ Hs). by apply list_elem_of_In.
Qed.
End Backed.

(** ** Chains of accepted blocks *)

Section Accepted.
  Context `{DupSort} `{MapOrder} {P : Type} (config : DataTxConfig) (anchor_of : Z → Z).
  Notation at_height chain := (Z.of_nat (length chain)).

(** A block on a chain, sealed with its body, whose anchors a node has accepted when it
    discovered the block, and which a node with index [canon] has in its tree. *)
Record candidate (chain : list LedgerHeader) (block : ShadowBlock P) (txs : DataLedger → list DataTx) (v : ExpiryView) (canon : list LedgerHeader) : Prop := {
  ca_sealed : ∃ body ordered, order_transactions (lh_data_ledgers (sb_header block)) body = Ok ordered ∧ txs = ledger_txs ordered ∧
    Forall (λ tx, dt_anchor tx = anchor_of (th_id tx)) body;
  ca_anchors : ∃ v0 canon0, node_view config v0 canon0 chain (at_height chain) ∧ data_anchors_are_valid v0 config block txs = Ok ();
  ca_node : node_view config v canon (chain ++ [sb_header block]) (at_height chain)
}.

(** Chains from a genesis block without transactions.  The index of a node is such a chain. *)
Inductive accepted_chain : list LedgerHeader → Prop :=
| accepted_genesis g : sealed_ledgers (lh_data_ledgers g) → (∀ l id, block_includes_ledger_tx g l id = false) → accepted_chain [g]
| accepted_block chain canon block txs v es ema :
    accepted_chain chain → accepted_chain canon → candidate chain block txs v canon → data_txs_placed v config block txs es ema = Ok () →
    accepted_chain (chain ++ [sb_header block]).

Section Step.
  Context (chain canon : list LedgerHeader) (block : ShadowBlock P) (txs : DataLedger → list DataTx) (v : ExpiryView).
  Context (Hne : chain ≠ []) (Hhist : history config anchor_of chain) (Hcanon : history config anchor_of canon).
  Context (Hcand : candidate chain block txs v canon).
  Notation full := (chain ++ [sb_header block]).

Lemma candidate_sealed : sealed_ledgers (lh_data_ledgers (sb_header block)) ∧ (∀ l, tx_ids (txs l) = default [] (ledger_tx_ids_in (sb_header block) l)) ∧
  ∀ l tx, tx ∈ txs l → dt_anchor tx = anchor_of (th_id tx).
Proof.
  destruct (ca_sealed _ _ _ _ _ Hcand) as (body & ordered & Hord & -> & Hbody). destruct (order_transactions_ok _ _ _ Hord) as [Hs Hids].
  split_and!; [done|exact Hids|]. intros l tx. exact (order_transactions_all (λ tx, dt_anchor tx = anchor_of (th_id tx)) _ body _ l tx Hbody Hord).
Qed.

Lemma candidate_anchored : anchored config anchor_of chain txs.
Proof.
  intros l tx Hl Hin. split; [by eapply (proj2 (proj2 candidate_sealed))|]. destruct (ca_anchors _ _ _ _ _ Hcand) as (v0 & canon0 & Hv0 & Hok).
  destruct (last chain) as [previous|] eqn:Hlast; [|by apply last_None in Hlast]. pose proof (ca_node _ _ _ _ _ Hcand) as Hnode.
  pose proof Hlast as Hprev. rewrite last_lookup in Hprev. assert (Hn : (0 < length chain)%nat) by (apply lookup_lt_Some in Hprev; lia).
  apply (anchors_sound config v0 canon0 chain block txs Hv0 previous Hlast) with (l := l); try done.
  - apply (co_link _ (vo_chain _ _ _ (nv_view _ _ _ _ _ Hnode)) (pred (length chain)) previous (sb_header block)); [by apply lookup_app_l_Some|].
    replace (S (pred (length chain))) with (length chain) by lia. apply own_block.
  - exact (own_height config v canon chain block Hnode).
Qed.

Lemma candidate_verdict es ema :
  data_txs_placed v config block txs es ema = Ok () ↔ admissible config chain block txs (epoch_cascade (wc_epoch (dc_walk config)) es) ema.
Proof.
  destruct candidate_sealed as (Hs & Hids & _). apply (verdict_ok config anchor_of v canon chain block txs Hhist Hcanon (ca_node _ _ _ _ _ Hcand) Hs Hids Hne).
  exact candidate_anchored.
Qed.

Lemma history_step es ema : data_txs_placed v config block txs es ema = Ok () → history config anchor_of full.
Proof.
  intros Had%candidate_verdict. destruct candidate_sealed as (Hs & Hids & _). set (hB := sb_header block).
  assert (Hin : ∀ l id, includes hB l id ↔ id ∈ tx_ids (txs l)) by (intros l id; symmetry; by apply ledger_ids).
  assert (Hcase : ∀ i h, full !! i = Some h → chain !! i = Some h ∨ i = length chain ∧ h = hB) by (intros i h [[_ ?]|[<- <-]]%lookup_snoc_Some; auto).
  assert (Hrec : ∀ i h l id, chain !! i = Some h → includes h l id → recorded chain l id) by (intros i h l id ? ?; by exists i, h).
  split.
  - intros h [Hh| ->%list_elem_of_singleton]%elem_of_app; [by apply (hi_sealed _ _ _ Hhist)|done].
  - intros i j g h l l' id [Hg|[-> ->]]%Hcase [Hh|[-> ->]]%Hcase Hl Hl' Hig Hih; [by apply (hi_stored _ _ _ Hhist i j g h l l' id)|..].
    + destruct (ad_new _ _ _ _ _ _ Had l' l id Hl'); [by apply Hin|by eapply Hrec].
    + destruct (ad_new _ _ _ _ _ _ Had l l' id Hl); [by apply Hin|by eapply Hrec].
    + split; [done|]. apply Hin in Hig, Hih. pose proof (ad_single _ _ _ _ _ _ Had) as Hsg. unfold is_term in Hsg.
      destruct l, l'; try done; first [by apply (Hsg OneYear _ id); auto|by apply (Hsg ThirtyDay _ id); auto|symmetry; by apply (Hsg OneYear _ id); auto|symmetry; by apply (Hsg ThirtyDay _ id); auto].
  - intros i j g h id [Hg|[-> ->]]%Hcase [Hh|[-> ->]]%Hcase Hig Hih; [by apply (hi_promoted _ _ _ Hhist i j g h id)|..|done];
      (destruct (ad_promotion _ _ _ _ _ _ Had id) as [Hno _]; [by apply Hin|]); destruct Hno; by eapply Hrec.
  - intros i h id [Hh|[-> ->]]%Hcase Hi.
    + destruct (hi_submitted _ _ _ Hhist i h id Hh Hi) as (j & g & Hj & Hg & Hsub). exists j, g. split_and!; [done|by apply lookup_app_l_Some|done].
    + destruct (ad_promotion _ _ _ _ _ _ Had id) as [_ [Hsub|(j & g & Hg & Hsub)]]; [by apply Hin|..].
      * exists (length chain), hB. split_and!; [done|apply own_block|by apply Hin].
      * exists j, g. split_and!; [apply lookup_lt_Some in Hg; lia|by apply lookup_app_l_Some|done].
  - intros i h l id [Hh|[-> ->]]%Hcase Hl Hi.
    + destruct (hi_anchor _ _ _ Hhist i h l id Hh Hl Hi) as (j & g & ? & ? & Hg & ?). exists j, g. split_and!; [done|done|by apply lookup_app_l_Some|done].
    + apply Hin, list_elem_of_fmap in Hi as (tx & -> & Htx). destruct (candidate_anchored l tx Hl Htx) as (Ha & a & g & Hg & Hhash & Hwin).
      exists a, g. split_and!; [by apply lookup_lt_Some in Hg|done|by apply lookup_app_l_Some|congruence].
Qed.
End Step.

Lemma accepted_history chain : accepted_chain chain → chain ≠ [] ∧ history config anchor_of chain.
Proof.
  induction 1 as [g Hs Hno|chain canon block txs v es ema _ [Hne Hh] _ [_ Hc] Hcand Hok].
  - split; [done|]. assert (Hg : ∀ i h l id, [g] !! i = Some h → includes h l id → False) by (intros [|i] h l id [= <-] Hi; by rewrite Hno in Hi).
    split; [by intros h ->%list_elem_of_singleton|intros; exfalso; by eapply Hg..].
  - split; [by destruct chain|]. by eapply history_step.
Qed.

(** ** Properties *)

(** C12: The data transactions of a block are accepted exactly when they may follow the chain
    of the block: every ledger has its kind of transaction, a transaction that is new in
    Submit or in a term ledger is nowhere on the chain and in no second term ledger of the block, a
    promoted one is in the Submit ledger of the chain or of the block and has not been
    promoted, and the new ones pay the price of the block.  The verdict depends on the chain
    alone: the tree, the index and the metadata of the node, which can follow another branch
    within the reorg window, do not matter. *)
Theorem data_tx_verdict chain canon (block : ShadowBlock P) txs v es ema :
  accepted_chain chain → accepted_chain canon → candidate chain block txs v canon →
  data_txs_placed v config block txs es ema = Ok () ↔ admissible config chain block txs (epoch_cascade (wc_epoch (dc_walk config)) es) ema.
Proof. intros [Hne Hh]%accepted_history [_ Hc]%accepted_history Hcand. by eapply candidate_verdict. Qed.

(** C6: On a chain of accepted blocks every data transaction is stored once and promoted at
    most once: it has at most one place in the Submit and term ledgers of all blocks, at most
    one in the Publish ledgers, no ledger of a block repeats it, and a promotion has its Submit
    block at the same height or below. *)
Theorem data_stored_once chain : accepted_chain chain →
  (∀ i j g h l l' id, chain !! i = Some g → chain !! j = Some h → l ≠ Publish → l' ≠ Publish → includes g l id → includes h l' id → i = j ∧ l = l') ∧
  (∀ i j g h id, chain !! i = Some g → chain !! j = Some h → includes g Publish id → includes h Publish id → i = j) ∧
  (∀ i h dl, chain !! i = Some h → dl ∈ lh_data_ledgers h → NoDup (tl_tx_ids dl)) ∧
  (∀ i h id, chain !! i = Some h → includes h Publish id → ∃ j g, (j ≤ i)%nat ∧ chain !! j = Some g ∧ includes g Submit id).
Proof.
  intros [_ [Hs Hst Hpr Hsub _]]%accepted_history. split_and!; [done|done| |done]. intros i h dl Hi Hdl. apply (sl_nodup _ (Hs h (list_elem_of_lookup_2 _ _ _ Hi)) dl Hdl).
Qed.

(** C23: A branch that leaves the node's index just below the window of transaction anchors
    is refused, also when the fork is within the reorg window: the block one below the end of
    the walk is compared with the index, which has the other branch there. *)
Theorem deep_fork_refused chain canon (block : ShadowBlock P) txs v previous k c g :
  node_view config v canon chain (at_height chain) → last chain = Some previous → lh_previous_block_hash (sb_header block) = lh_block_hash previous → lh_height (sb_header block) = at_height chain →
  (∀ h, h ∈ chain ++ [sb_header block] → sealed_ledgers (lh_data_ledgers h)) → (∀ id, includes (sb_header block) Submit id → ¬ recorded chain Submit id) →
  Z.of_nat k + wc_tx_anchor_expiry_depth (dc_walk config) + 2 = at_height chain → at_height chain ≤ Z.of_nat k + wc_block_tree_depth (dc_walk config) →
  canon !! k = Some c → chain !! k = Some g → lh_block_hash c ≠ lh_block_hash g →
  data_anchors_are_valid v config block txs = Err (BlockIndexInconsistency (Z.of_nat k)).
Proof.
  intros Hnode Hlast Hlink Hheight Hs. apply fork_refused with (previous := previous); [done|done|done|done|..].
  - intros h Hh. apply Hs. apply elem_of_app. by left.
  - apply Hs. apply elem_of_app. right. by left.
Qed.
End Accepted.

(** ** Quotes *)

Section Quoted.
  Context (config : DataTxConfig) (max_data_tx_chunks : Z).
  Notation ec := (wc_epoch (dc_walk config)).
  Notation fees := (wc_fees (dc_walk config)).

(** The epochs that a ledger keeps data for. *)
Definition ledger_epochs (l : DataLedger) : Z :=
  match l with
  | Publish | Submit => ec_submit_ledger_epoch_length ec
  | OneYear => from_option one_year_epoch_length 0 (ec_cascade ec)
  | ThirtyDay => from_option thirty_day_epoch_length 0 (ec_cascade ec)
  end.

(** Unsigned parameters; the share of a term fee that is paid at once is at most all of it. *)
Record fee_rules_ok : Prop := {
  fr_config ts : fee_config_ok (dc_fee_config config ts);
  fr_share : 0 ≤ immediate_tx_inclusion_reward_percent fees ≤ PRECISION_SCALE;
  fr_proofs : 0 ≤ number_of_ingress_proofs_total fees;
  fr_pool d : hf_delta fees = Some d → 0 ≤ ingress_proof_reward_pool_percent d;
  fr_partitions : 0 ≤ ec_num_partitions_per_slot ec;
  fr_epoch_length l : 0 ≤ ledger_epochs l;
  fr_epoch : 0 < ec_num_blocks_in_epoch ec;
  fr_chunk : 0 < wc_chunk_size (dc_walk config)
}.

(** No parameter of the fees changes between the two times, and before Delta, when a term fee
    pays for the epochs left in the cycle of its height, the heights are in one cycle. *)
Record same_rules (l : DataLedger) (ts ts' height height' : Z) : Prop := {
  sr_config : dc_fee_config config ts = dc_fee_config config ts';
  sr_delta : FeeSplit.delta_for_block fees ts = FeeSplit.delta_for_block fees ts';
  sr_cycle : FeeSplit.delta_for_block fees ts = None →
             height' / (ledger_epochs l * ec_num_blocks_in_epoch ec) = height / (ledger_epochs l * ec_num_blocks_in_epoch ec)
}.

Context (Hok : fee_rules_ok).

Lemma replicas_nonneg ts : 0 ≤ publish_replica_count_at config ts.
Proof. unfold publish_replica_count_at. destruct (FeeSplit.delta_for_block _ _); apply Hok. Qed.

Lemma epochs_covered l ts ts' h h' e :
  same_rules l ts ts' h h' → 0 ≤ h ≤ h' → term_storage_epochs_at config (E:=RequiredFeeError) ts h (ledger_epochs l) = Ok e →
  ∃ e', term_storage_epochs_at config (E:=RequiredFeeError) ts' h' (ledger_epochs l) = Ok e' ∧ 0 ≤ e' ≤ e.
Proof.
  intros [_ Hd Hcyc] Hh. pose proof (fr_epoch_length Hok l) as HL. pose proof (fr_epoch Hok) as HB.
  unfold term_storage_epochs_at. rewrite <- Hd.
  destruct (FeeSplit.delta_for_block fees ts); [intros [= <-]; by eexists|]. specialize (Hcyc eq_refl).
  unfold calculate_submit_ledger_expiry. destruct (checked_mul 64 _ _) as [b|] eqn:Hm; [|done]. apply checked_mul_Some in Hm as [-> _].
  set (B := ec_num_blocks_in_epoch ec) in *. set (L := ledger_epochs l) in *. destruct (Z.ltb_spec 0 (L * B)); [|done]. res_simpl. intros [= <-].
  eexists. split; [done|]. pose proof (Z.div_mod h (L * B) ltac:(lia)). pose proof (Z.div_mod h' (L * B) ltac:(lia)).
  pose proof (Z.mod_pos_bound h' (L * B) ltac:(lia)) as Hb. assert (h mod (L * B) ≤ h' mod (L * B)) as Hle by nia. split.
  - enough (h' mod (L * B) / B < L) by lia. apply Z.div_lt_upper_bound; lia.
  - enough (h mod (L * B) / B ≤ h' mod (L * B) / B) by lia. by apply Z.div_le_mono.
Qed.

Lemma term_inputs_same l ts ts' h h' : same_rules l ts ts' h h' → term_fee_inputs config l ts' = term_fee_inputs config l ts.
Proof. intros [_ Hd _]. unfold term_fee_inputs, publish_replica_count_at. by rewrite Hd. Qed.

Lemma term_inputs_ok l ts inputs : term_fee_inputs config l ts = Ok inputs → inputs.1 = ledger_epochs l ∧ 0 ≤ inputs.2.
Proof.
  pose proof (replicas_nonneg ts). pose proof (fr_partitions Hok). unfold term_fee_inputs, ledger_epochs.
  destruct l; [by intros [= <-]..| |]; destruct (ec_cascade ec); res_simpl; [|done| |done]; by intros [= <-].
Qed.

Lemma term_fee_covered l ts ts' h h' p p' bytes size f :
  same_rules l ts ts' h h' → 0 ≤ h ≤ h' → 0 < p ≤ p' → 0 ≤ size ≤ bytes →
  required_term_fee_at config l ts h bytes p = Ok f → ∃ f', required_term_fee_at config l ts' h' size p' = Ok f' ∧ 0 ≤ f' ≤ f.
Proof.
  intros Hs Hh Hp Hb. unfold required_term_fee_at. rewrite (term_inputs_same l ts ts' h h' Hs), <- (sr_config _ _ _ _ _ Hs).
  intros ([len r] & Hin & Hf)%bind_ok. destruct (term_inputs_ok l ts _ Hin) as [Hlen Hr]. cbn [fst snd] in *. subst len. rewrite Hin. res_simpl. cbn [fst snd].
  apply bind_ok in Hf as (e & He & Hf). destruct (epochs_covered l ts ts' h h' e Hs Hh He) as (e' & -> & Hle). res_simpl.
  destruct (calculate_term_fee bytes e _ r p) as [f0| |] eqn:Hc; [|done..]. injection Hf as <-.
  destruct (fr_config Hok ts) as (Hcost & Hmin & Hchunk & _).
  destruct (term_fee_antitone (dc_fee_config config ts) Hcost Hmin Hchunk bytes size e e' r p p' f0) as (f' & Hf' & Hff); [lia..|done|].
  rewrite Hf'. by exists f'.
Qed.

Lemma pool_covered ts f f' pool :
  0 ≤ f' ≤ f → ingress_proof_reward_pool_at fees ts f = Ok pool → ∃ pool', ingress_proof_reward_pool_at fees ts f' = Ok pool' ∧ 0 ≤ pool' ≤ pool.
Proof.
  intros Hf. pose proof (fr_share Hok) as Hs. pose proof (fr_proofs Hok).
  assert (Hm : ∀ pct x, 0 ≤ pct → mul_div f pct PRECISION_SCALE = Ok x → ∃ x', mul_div f' pct PRECISION_SCALE = Ok x' ∧ 0 ≤ x' ≤ x).
  { intros pct x Hpct [-> Hlt]%mul_div_Ok; [|done]. eexists. split; [apply mul_div_Ok; [done|]; split; [reflexivity|nia]|].
    split; [apply Z.div_pos; [nia|done]|]. apply Z.div_le_mono; [done|nia]. }
  unfold ingress_proof_reward_pool_at, FeeSplit.delta_for_block, price. pose proof (fr_pool Hok) as Hpool.
  destruct (hf_delta fees) as [d|]; [destruct (_ <=? ts)|].
  - destruct (mul_div f _ _) as [x| |] eqn:Hx; [|done..]. intros [= <-]. destruct (Hm _ _ (Hpool d eq_refl) Hx) as (x' & -> & ?). cbn. eexists. split; [done|lia].
  - destruct (mul_div f _ _) as [x| |] eqn:Hx; [|done..]. intros [= <-]. destruct (Hm _ _ (proj1 Hs) Hx) as (x' & -> & ?). cbn. eexists. split; [done|].
    unfold saturating_mul. nia.
  - destruct (mul_div f _ _) as [x| |] eqn:Hx; [|done..]. intros [= <-]. destruct (Hm _ _ (proj1 Hs) Hx) as (x' & -> & ?). cbn. eexists. split; [done|].
    unfold saturating_mul. nia.
Qed.

(** The permanent fee of a quote, which prices the proofs on the quoted term fee, covers the
    one that a transaction with these fees must pay. *)
Lemma perm_fee_covered ts ts' h h' p p' bytes size term expected f :
  same_rules Publish ts ts' h h' → 0 < p ≤ p' → 0 ≤ size ≤ bytes → 0 ≤ expected ≤ term →
  required_publish_perm_fee_at config ts bytes p term term = Ok f →
  ∃ f', required_publish_perm_fee_at config ts' size p' term expected = Ok f' ∧ f' ≤ f.
Proof.
  intros [Hcfg Hd _] Hp Hb Hterm. unfold required_publish_perm_fee_at, publish_replica_count_at, proof_reward_term_fee_at.
  assert (Hpools : ∀ x, ingress_proof_reward_pool_at fees ts' x = ingress_proof_reward_pool_at fees ts x).
  { intros x. unfold ingress_proof_reward_pool_at. by rewrite Hd. }
  rewrite <- Hd, <- Hcfg, Hpools. fold (publish_replica_count_at config ts).
  assert (match FeeSplit.delta_for_block fees ts with Some _ => term | None => term end = term) as -> by (by destruct (FeeSplit.delta_for_block fees ts)).
  set (x := match FeeSplit.delta_for_block fees ts with Some _ => term | None => expected end).
  destruct (ingress_proof_reward_pool_at fees ts term) as [pool| |] eqn:Hpool; res_simpl; [|done..].
  destruct (pool_covered ts term x pool) as (pool' & -> & Hle); [subst x; by destruct (FeeSplit.delta_for_block fees ts); lia|done|]. res_simpl.
  destruct (calculate_perm_fee_from_config bytes _ _ pool p) as [f0| |] eqn:Hc; [|done..]. intros [= <-].
  destruct (fr_config Hok ts) as (Hcost & _ & _ & Hrate & Hyears & Hepy).
  destruct (perm_fee_antitone (dc_fee_config config ts) Hcost Hrate Hyears Hepy bytes size (publish_replica_count_at config ts) pool pool' p p' f0)
    as (f' & Hf' & ?); [done|done|apply replicas_nonneg|lia|done|]. rewrite Hf'. by exists f'.
Qed.

Lemma perm_fee_fits ts bytes p term f : required_publish_perm_fee_at config ts bytes p term term = Ok f →
  f < 2 ^ 256 ∧ ∃ pool, ingress_proof_reward_pool_at fees ts term = Ok pool.
Proof.
  unfold required_publish_perm_fee_at, proof_reward_term_fee_at, calculate_perm_fee_from_config.
  assert (match FeeSplit.delta_for_block fees ts with Some _ => term | None => term end = term) as -> by (by destruct (FeeSplit.delta_for_block fees ts)).
  destruct (ingress_proof_reward_pool_at fees ts term) as [pool| |]; res_simpl; [|done..]. intros Hf. split; [|by eexists].
  destruct (_ ≫= _) as [x| |] eqn:Hx in Hf; [|done..]. injection Hf as <-. repeat (apply bind_ok in Hx as (? & _ & Hx)). injection Hx as <-. unfold saturating_add. lia.
Qed.

(** The splits of fees that validation checks go through. *)
Lemma quoted_term_charges_ok fee : 0 ≤ fee → fee * PRECISION_SCALE < 2 ^ 256 → ∃ charges, TermFeeCharges_new fee fees = Ok charges.
Proof.
  intros Hf Hfit. pose proof (fr_share Hok) as Hs. unfold TermFeeCharges_new, price.
  set (pct := immediate_tx_inclusion_reward_percent fees) in *.
  rewrite (proj2 (mul_div_Ok fee pct PRECISION_SCALE (fee * pct / PRECISION_SCALE) ltac:(done))) by (split; [done|nia]). cbn [map_err]. res_simpl.
  assert (0 ≤ fee * pct / PRECISION_SCALE ≤ fee).
  { split; [apply Z.div_pos; [nia|done]|]. apply Z.div_le_upper_bound; [done|nia]. }
  rewrite (proj2 (checked_sub_Some fee _ (fee - fee * pct / PRECISION_SCALE))) by lia. res_simpl.
  assert (fee < 2 ^ 256) by (unfold PRECISION_SCALE in *; nia).
  unfold saturating_add. rewrite Z.min_r by lia. replace (_ + _) with fee by lia. rewrite Z.eqb_refl. res_simpl. by eexists.
Qed.

Section Quote.
  Context (n : Z) (g : PriceHeader) (rest : list PriceHeader) (t u : nat).
  Context (Hn : 0 < n < 2 ^ 62) (Hheights : heights_from 0 (g :: rest)) (Hlen : Z.of_nat (length (g :: rest)) < 2 ^ 62).
  Context (Hpos : Forall (λ b, 0 < ema_irys_price b) (g :: rest)) (Hu : (u ≤ length rest)%nat).
  Context (Hcov : quote_covers n (Z.of_nat t) (Z.of_nat u)).
  Notation snap k := (run_snapshots n (EmaSnapshot_genesis g) g (take k rest)).

Lemma quoted_term_fee_ok ts l bytes r :
  let tip := mkTip (Z.of_nat t) ts (Some (snap t)) in
  let p := ema_for_public_quote (snap t) (Z.of_nat t) n in
  quoted_term_fee config n (Some tip) l bytes = Ok r →
  ∃ fee, r = (tip, p, fee) ∧ required_term_fee_at config l ts (Z.of_nat t + 1) bytes p = Ok fee.
Proof.
  intros tip p. unfold quoted_term_fee, tip. res_simpl. cbn [tip_ema tip_height tip_timestamp_secs ok_or]. res_simpl.
  rewrite (proj2 (checked_add_Some 64 (Z.of_nat t) 1 (Z.of_nat t + 1))) by (destruct Hcov as [? _]; cbn [length] in Hlen; lia). res_simpl.
  intros (fee & Hfee & [= <-])%bind_ok. destruct (required_term_fee_at _ _ _ _ _ _); [|done..]. injection Hfee as ->. by exists fee.
Qed.

Lemma quoted_inputs cascade ts l bytes info :
  get_price config max_data_tx_chunks n cascade (Some (mkTip (Z.of_nat t) ts (Some (snap t)))) (ledger_id l) bytes = Ok info →
  let p := ema_for_public_quote (snap t) (Z.of_nat t) n in
  l ≠ Submit ∧ bytes ≤ pi_bytes info ∧ required_term_fee_at config l ts (Z.of_nat t + 1) (pi_bytes info) p = Ok (pi_term_fee info) ∧
  (l = Publish → required_publish_perm_fee_at config ts (pi_bytes info) p (pi_term_fee info) (pi_term_fee info) = Ok (pi_perm_fee info)) ∧
  (l ≠ Publish → ec_cascade ec ≠ None).
Proof.
  pose proof (fr_chunk Hok) as HC. unfold get_price. rewrite ledger_of_id_id. res_simpl. destruct (Z.eqb_spec (wc_chunk_size (dc_walk config)) 0); [lia|].
  set (C := wc_chunk_size (dc_walk config)) in *. pose proof (div_ceil_spec (Z.max C bytes) C HC) as Hdc. set (k := div_ceil (Z.max C bytes) C) in *.
  destruct (max_data_tx_chunks <? k); [by intros (? & _ & ?)%bind_ok|]. destruct (checked_mul 64 k C) as [b|] eqn:Hm; res_simpl; [|done].
  apply checked_mul_Some in Hm as [-> _].
  set (p := ema_for_public_quote (snap t) (Z.of_nat t) n). intros Hq. destruct l; [|done| |].
  - apply bind_ok in Hq as (r & (fee & -> & Hfee)%quoted_term_fee_ok & Hq). apply bind_ok in Hq as (perm & Hperm & [= <-]). cbn [tip_timestamp_secs] in Hperm.
    destruct (required_publish_perm_fee_at _ _ _ _ _ _) eqn:Hp; [|done..]. injection Hperm as ->. cbn [pi_bytes pi_term_fee pi_perm_fee]. split_and!; [done|lia|done|done|done].
  - apply bind_ok in Hq as (_ & _ & Hq). apply bind_ok in Hq as ([] & Hcas & Hq). rewrite guard_err_ok, bool_decide_eq_false in Hcas.
    apply bind_ok in Hq as (r & (fee & -> & Hfee)%quoted_term_fee_ok & [= <-]). cbn [pi_bytes pi_term_fee snd]. split_and!; [done|lia|done|done|done].
  - apply bind_ok in Hq as (_ & _ & Hq). apply bind_ok in Hq as ([] & Hcas & Hq). rewrite guard_err_ok, bool_decide_eq_false in Hcas.
    apply bind_ok in Hq as (r & (fee & -> & Hfee)%quoted_term_fee_ok & [= <-]). cbn [pi_bytes pi_term_fee snd]. split_and!; [done|lia|done|done|done].
Qed.

(** C39: A transaction that pays what the API quoted is not refused for its fees.  The quote is
    made on the tip [t]; the transaction, of at most the size asked for, comes in a block on
    top of [u], a later block of the same pricing interval or, when the tip is in the last
    quarter of its interval, of the next one.  Between the two no fee parameter changes, and
    before Delta, when a term fee pays for the epochs left in a cycle of heights, no cycle
    ends.  Then the price check of the block accepts it: for Publish both fees are enough and
    can be split, given that the permanent fee leaves something for storage, for a term ledger
    the term fee is. *)
Theorem quoted_fees_accepted cascade ts ts' l bytes info (tx : DataTx) :
  same_rules l ts ts' (Z.of_nat t + 1) (Z.of_nat u + 1) →
  get_price config max_data_tx_chunks n cascade (Some (mkTip (Z.of_nat t) ts (Some (snap t)))) (ledger_id l) bytes = Ok info →
  0 ≤ th_data_size tx ≤ bytes → th_term_fee tx = pi_term_fee info → pi_term_fee info * PRECISION_SCALE < 2 ^ 256 →
  let price := ema_for_public_pricing (snap u) in
  (l = Publish → th_perm_fee tx = Some (pi_perm_fee info) →
     (∀ pool, ingress_proof_reward_pool_at fees ts (pi_term_fee info) = Ok pool → pool < pi_perm_fee info) →
     validate_publish_price config tx (Z.of_nat u + 1) ts' price = Ok ()) ∧
  (l ≠ Publish → th_perm_fee tx = None → validate_term_only_price config tx l (Z.of_nat u + 1) ts' price = Ok ()).
Proof.
  intros Hs Hq Hsize Hterm Hfit price. destruct (quoted_inputs cascade ts l bytes info Hq) as (Hsub & Hbytes & Hfee & Hperm & Hcas).
  pose proof (quote_price_covers n g rest t u Hn Hheights Hlen Hpos Hu Hcov) as Hp. cbv zeta in Hp. fold price in Hp. destruct Hcov as [Htu _].
  destruct (term_fee_covered l ts ts' _ _ _ price (pi_bytes info) (th_data_size tx) _ Hs ltac:(lia) Hp ltac:(lia) Hfee) as (e & He & Hle).
  destruct (quoted_term_charges_ok (pi_term_fee info)) as (charges & Hch); [lia|done|]. split.
  - intros -> Hpf Hpool. unfold validate_publish_price. rewrite He. cbn [map_err]. res_simpl. rewrite Hterm.
    assert (Hbig : ((2 ^ 256 - 1) / PRECISION_SCALE <? pi_term_fee info) = false).
    { apply Z.ltb_ge, Z.div_le_lower_bound; [done|]. lia. }
    rewrite Hbig, andb_false_r. res_simpl.
    destruct (perm_fee_covered ts ts' _ _ _ price (pi_bytes info) (th_data_size tx) _ e _ Hs Hp ltac:(lia) Hle (Hperm eq_refl)) as (f' & -> & Hf'). cbn [map_err]. res_simpl.
    unfold check_perm_fee_sufficient. rewrite Hpf. cbn [from_option id]. rewrite (proj2 (Z.ltb_ge (pi_perm_fee info) f')) by lia. res_simpl.
    rewrite (proj2 (Z.ltb_ge (pi_term_fee info) e)) by lia. res_simpl. rewrite Hch. cbn [map_err]. res_simpl.
    assert (Hpools : ingress_proof_reward_pool_at fees ts' (pi_term_fee info) = ingress_proof_reward_pool_at fees ts (pi_term_fee info)).
    { unfold ingress_proof_reward_pool_at. by rewrite (sr_delta _ _ _ _ _ Hs). }
    destruct (perm_fee_fits _ _ _ _ _ (Hperm eq_refl)) as (Hmax & pool & Hok_pool). rewrite Hpools, Hok_pool.
    destruct (pool_covered ts (pi_term_fee info) (pi_term_fee info) pool) as (pool' & Hp' & Hnn); [lia|done|]. rewrite Hok_pool in Hp'. injection Hp' as <-.
    specialize (Hpool pool Hok_pool). res_simpl. unfold PublishFeeCharges_new, saturating_sub, saturating_add.
    rewrite (proj2 (Z.ltb_ge (pi_perm_fee info) pool)) by lia. res_simpl. rewrite (proj2 (Z.ltb_lt 0 _)) by lia. cbn [negb]. res_simpl.
    replace (pool + Z.max 0 (pi_perm_fee info - pool)) with (pi_perm_fee info) by lia. rewrite Z.min_r, Z.eqb_refl by lia. done.
  - intros Hl Hpf. unfold validate_term_only_price. rewrite Hpf, (bool_decide_false (is_Some (None : option Z))) by (by apply is_Some_None). res_simpl.
    rewrite bool_decide_false by (by apply Hcas). res_simpl. rewrite He. cbn [map_err]. res_simpl. rewrite Hterm, (proj2 (Z.ltb_ge _ _)) by lia. res_simpl.
    rewrite Hch. done.
Qed.
End Quote.
End Quoted.

(** ** Example: two blocks of uploads and a promotion from below the window, and a fork *)

Module DataTxExample.
Import ExpiryExample.
#[local] Existing Instance ExpiryExample.put_order.
#[local] Instance tree_order : MapOrder := { map_values := λ A m, (map_to_list m).*2; map_values_perm := λ A m, Permutation_refl _ }.

Definition epoch_config : EpochConfig := mkEpochConfig 3 10 2 4 None None None None.
Definition fees (timestamp : Z) : FeeConfig := mkFeeConfig (Ok 1) 32 10 2 5 0.
Definition cfg (block_tree_depth : Z) : DataTxConfig :=
  mkDataTxConfig (mkWalkConfig epoch_config 32 1 block_tree_depth (mkFeeParams (PRECISION_SCALE / 20) 10 None)) fees.

(** The anchors of the uploads: genesis for the first two, block 1 for the others. *)
Definition anchor_of (id : Z) : Z := if id <? 13 then 100 else 101.
Definition data_tx (h : DataTransactionHeader) : DataTx := mkDataTx h 0 (anchor_of (th_id h)) None.

Definition block (h : LedgerHeader) : ShadowBlock unit := mkShadowBlock h [(None, None); (None, None)] 1000 0 0 0 [] false.
Definition txs (h : LedgerHeader) (l : DataLedger) : list DataTx :=
  match order_transactions (lh_data_ledgers h) (data_tx <$> txs_of h Submit ++ txs_of h Publish) with Ok t => ledger_txs t l | _ => [] end.

Definition view (canon tree : list LedgerHeader) (included : gmap Z Z) : ExpiryView :=
  mkExpiryView
    (mkPoaView (list_to_map ((λ h, (lh_block_hash h, mkLedgerBlock h (λ _, []))) <$> tree))
       (mkIndexDb (map_seqZ 0 (bi_ledgers <$> (header_item <$> canon))) (map_seqZ 0 (bi_block_hash <$> (header_item <$> canon))))
       (list_to_map ((λ h, (lh_block_hash h, h)) <$> canon)) ∅)
    included ∅.

(** A chain of empty blocks beside [b1], [b2] and [b3]. *)
Definition f1 : LedgerHeader := header 201 100 1 0 0 [] [].
Definition f2 : LedgerHeader := header 202 201 2 0 0 [] [].
Definition f3 : LedgerHeader := header 203 202 3 0 0 [] [].
Definition f4 : LedgerHeader := header 204 203 4 0 0 [] [].

Ltac place_tac j := exists j; eexists _, Submit; split_and!; [vm_compute; reflexivity|reflexivity|done|vm_compute; reflexivity].
Ltac node_tac m :=
  split;
  [ split;
    [ split; [reflexivity|]; let i := fresh "i" in let item := fresh "item" in let Hi := fresh "Hi" in let h := fresh "h" in
      intros i item Hi; rewrite list_lookup_fmap in Hi; apply fmap_Some in Hi as (h & Hi & ->); each i Hi;
      (split; [vm_compute; reflexivity|split; [apply (bool_decide_unpack _); vm_compute; exact I|reflexivity]])
    | chain_tac | chain_tac
    | let h := fresh "h" in let b := fresh "b" in let Hh := fresh "Hh" in let Hb := fresh "Hb" in let i := fresh "i" in
      intros h b [i Hh]%list_elem_of_lookup Hb; each i Hh; vm_compute in Hb; first [discriminate|injection Hb as <-; reflexivity]
    | let h := fresh "h" in let c := fresh "c" in let Hh := fresh "Hh" in let Hc := fresh "Hc" in let Heq := fresh "Heq" in let i := fresh "i" in let j := fresh "j" in
      intros h c [i Hh]%list_elem_of_lookup [j Hc]%list_elem_of_lookup Heq; each i Hh; each j Hc; first [reflexivity|vm_compute in Heq; discriminate] ]
  | apply (bool_decide_unpack _); vm_compute; exact I
  | split;
    [ let c := fresh "c" in let i := fresh "i" in let Hc := fresh "Hc" in intros c [i Hc]%list_elem_of_lookup; each i Hc; vm_compute; reflexivity
    | let i := fresh "i" in let c := fresh "c" in let l := fresh "l" in let id := fresh "id" in let Hi := fresh "Hi" in let Hl := fresh "Hl" in let Hin := fresh "Hin" in
      intros i c l id Hi Hl Hin; each i Hi; unfold block_includes_ledger_tx in Hin; destruct l; try done; cbn in Hin; apply bool_decide_eq_true in Hin;
      repeat (apply elem_of_cons in Hin as [->|Hin]; [first [place_tac 1%nat|place_tac 2%nat]|]); by apply elem_of_nil in Hin
    | let i := fresh "i" in let c := fresh "c" in let id := fresh "id" in let Hi := fresh "Hi" in let Hin := fresh "Hin" in
      intros i c id Hi Hin; each i Hi; unfold block_includes_ledger_tx in Hin; cbn in Hin; apply bool_decide_eq_true in Hin; by apply elem_of_nil in Hin ]
  | exists m; split_and!; [reflexivity|lia|vm_compute; discriminate]
  | apply (bool_decide_unpack _); vm_compute; exact I
  | vm_compute; discriminate ].

Definition heights : gmap Z Z := {[11 := 1; 12 := 1; 13 := 2; 14 := 2]}.
Notation indexed3 := (view [b0; b1; b2]).

Lemma node_b0 : node_view (cfg 1) (view [b0] [] ∅) [b0] [b0] 1.
Proof. node_tac 1%nat. Qed.
Lemma node_b1 : node_view (cfg 1) (view [b0] [b1] ∅) [b0] [b0; b1] 1.
Proof. node_tac 1%nat. Qed.
Lemma node_b1' : node_view (cfg 1) (view [b0] [b1] ∅) [b0] [b0; b1] 2.
Proof. node_tac 1%nat. Qed.
Lemma node_b2 : node_view (cfg 1) (view [b0] [b1; b2] ∅) [b0] [b0; b1; b2] 2.
Proof. node_tac 1%nat. Qed.
Lemma node_b2' : node_view (cfg 1) (indexed3 [] heights) [b0; b1; b2] [b0; b1; b2] 3.
Proof. node_tac 3%nat. Qed.
Lemma node_b3 : node_view (cfg 1) (indexed3 [b3] heights) [b0; b1; b2] [b0; b1; b2; b3] 3.
Proof. node_tac 3%nat. Qed.
Lemma node_fork : node_view (cfg 4) (indexed3 [f1; f2; f3] heights) [b0; b1; b2] [b0; f1; f2; f3] 4.
Proof. node_tac 1%nat. Qed.

(** Each block is sealed with its body and follows the blocks before it. *)
Ltac sealed_tac :=
  let dl := fresh "dl" in let Hdl := fresh "Hdl" in
  split;
  [ intros dl Hdl; repeat (apply elem_of_cons in Hdl as [->|Hdl]; [vm_compute; by eexists|]); by apply elem_of_nil in Hdl
  | apply (bool_decide_unpack _); vm_compute; exact I
  | intros dl Hdl; repeat (apply elem_of_cons in Hdl as [->|Hdl]; [apply (bool_decide_unpack _); vm_compute; exact I|]); by apply elem_of_nil in Hdl ].
Ltac candidate_tac h v0 canon0 node0 node :=
  split;
  [ exists (data_tx <$> txs_of h Submit ++ txs_of h Publish); eexists; split_and!; [vm_compute; reflexivity|reflexivity|repeat constructor]
  | exists v0, canon0; split; [exact node0|vm_compute; reflexivity]
  | exact node ].

Lemma candidate_b1 : candidate (cfg 1) anchor_of [b0] (block b1) (txs b1) (view [b0] [b1] ∅) [b0].
Proof. candidate_tac b1 (view [b0] [] ∅) [b0] node_b0 node_b1. Qed.
Lemma candidate_b2 : candidate (cfg 1) anchor_of [b0; b1] (block b2) (txs b2) (view [b0] [b1; b2] ∅) [b0].
Proof. candidate_tac b2 (view [b0] [b1] ∅) [b0] node_b1' node_b2. Qed.
Lemma candidate_b3 : candidate (cfg 1) anchor_of [b0; b1; b2] (block b3) (txs b3) (indexed3 [b3] heights) [b0; b1; b2].
Proof. candidate_tac b3 (indexed3 [] heights) [b0; b1; b2] node_b2' node_b3. Qed.

Notation accepted := (accepted_chain (P:=unit) (cfg 1) anchor_of).

Lemma accepted_b0 : accepted [b0].
Proof. apply accepted_genesis; [sealed_tac|]. intros l id. destruct l; reflexivity. Qed.
Lemma accepted_b1 : accepted [b0; b1].
Proof. apply (accepted_block _ _ [b0] [b0] (block b1) (txs b1) (view [b0] [b1] ∅) epoch (10 ^ 18)); [exact accepted_b0..|exact candidate_b1|vm_compute; reflexivity]. Qed.
Lemma accepted_b2 : accepted [b0; b1; b2].
Proof. apply (accepted_block _ _ [b0; b1] [b0] (block b2) (txs b2) (view [b0] [b1; b2] ∅) epoch (10 ^ 18)); [exact accepted_b1|exact accepted_b0|exact candidate_b2|vm_compute; reflexivity]. Qed.

(** The promotion of upload 11 is looked up in the metadata: its block is below the window. *)
Lemma data_tx_verdict_witness :
  data_txs_placed (indexed3 [b3] heights) (cfg 1) (block b3) (txs b3) epoch (10 ^ 18) = Ok () ∧
  admissible (cfg 1) [b0; b1; b2] (block b3) (txs b3) (epoch_cascade epoch_config epoch) (10 ^ 18).
Proof.
  split; [vm_compute; reflexivity|].
  apply (data_tx_verdict (cfg 1) anchor_of [b0; b1; b2] [b0; b1; b2] (block b3) (txs b3) (indexed3 [b3] heights) epoch (10 ^ 18) accepted_b2 accepted_b2 candidate_b3).
  vm_compute. reflexivity.
Defined.

Lemma data_stored_once_witness :
  accepted [b0; b1; b2; b3] ∧
  ∀ i h id, [b0; b1; b2; b3] !! i = Some h → includes h Publish id → ∃ j g, (j ≤ i)%nat ∧ [b0; b1; b2; b3] !! j = Some g ∧ includes g Submit id.
Proof.
  assert (Hacc : accepted [b0; b1; b2; b3]).
  { apply (accepted_block _ _ [b0; b1; b2] [b0; b1; b2] (block b3) (txs b3) (indexed3 [b3] heights) epoch (10 ^ 18)); [exact accepted_b2..|exact candidate_b3|vm_compute; reflexivity]. }
  split; [exact Hacc|]. apply (data_stored_once (cfg 1) anchor_of [b0; b1; b2; b3] Hacc).
Defined.

Lemma deep_fork_refused_witness : data_anchors_are_valid (indexed3 [f1; f2; f3] heights) (cfg 4) (block f4) (txs f4) = Err (BlockIndexInconsistency 1).
Proof.
  apply (deep_fork_refused (cfg 4) [b0; f1; f2; f3] [b0; b1; b2] (block f4) (txs f4) (indexed3 [f1; f2; f3] heights) f3 1%nat b1 f1);
    [exact node_fork|reflexivity|reflexivity|reflexivity| |intros id Hin; apply bool_decide_eq_true in Hin; by apply elem_of_nil in Hin|reflexivity|vm_compute; discriminate|reflexivity|reflexivity|vm_compute; discriminate].
  intros h Hh. change ([b0; f1; f2; f3] ++ [sb_header (block f4)]) with [b0; f1; f2; f3; f4] in Hh. repeat (apply elem_of_cons in Hh as [->|Hh]; [sealed_tac|]). by apply elem_of_nil in Hh.
Defined.

(** The promotion again, with a proof as the address of its signer: two proofs for it. *)
Definition backed_block : ShadowBlock Z :=
  mkShadowBlock b3 [(Some [4; 2], Some 2); (None, None)] 1000 0 0 0 [] false.
Definition any_root (proof : Z) : list byte := replicate 32 x01.

Lemma promotions_are_backed_witness :
  promotions_backed Some any_root epoch 2 (mkBlockLedger (mkTxLedger 0 [] [11] 8) (Some [4; 2]) (Some 2)) [data_tx tx1].
Proof.
  apply (promotions_are_backed Some any_root epoch 2 ltac:(lia) backed_block [data_tx tx1] [(Publish, [data_tx tx1]); (Submit, [])]);
    [vm_compute; reflexivity|reflexivity|intros proofs [= <-]; vm_compute; reflexivity|vm_compute; reflexivity].
Defined.
End DataTxExample.

(** ** Example: a quote before Delta on block 28, used in block 31 *)

Module QuoteExample.
Import EmaWitness.

Definition quote_config : DataTxConfig :=
  mkDataTxConfig (mkWalkConfig (mkEpochConfig 10 10 2 5 None None None None) 262144 1 1 (mkFeeParams (PRECISION_SCALE / 20) 10 None)) (λ _, EmaWitness.config).
Notation snap k := (run_snapshots 10 (EmaSnapshot_genesis (hdr 0)) (hdr 0) (take k rest)).

Definition quote : PriceInfo :=
  match get_price quote_config 100 10 false (Some (mkTip 28 1000 (Some (snap 28)))) 0 1000000 with Ok info => info | _ => mkPriceInfo 0 0 0 0 end.
Definition paid : DataTx := mkDataTx (mkTxHeader 1 2 [] [] 999999 (pi_term_fee quote) (Some (pi_perm_fee quote))) 0 0 None.

Lemma rules_good : fee_rules_ok quote_config.
Proof. split; cbn; try done; [intros _; exact EmaWitness.config_ok|intros []; cbn; lia]. Qed.

Lemma quoted_fees_accepted_witness : validate_publish_price quote_config paid 31 1500 (ema_for_public_pricing (snap 30)) = Ok ().
Proof.
  apply (quoted_fees_accepted quote_config 100 rules_good 10 (hdr 0) rest 28 30 ltac:(lia) rest_heights ltac:(done) rest_positive (le_n _) covered
           false 1000 1500 Publish 1000000 quote paid);
    [split; reflexivity|vm_compute; reflexivity|vm_compute; split; discriminate|reflexivity|vm_compute; reflexivity|reflexivity|reflexivity|].
  intros pool Hpool. vm_compute in Hpool. injection Hpool as <-. vm_compute. reflexivity.
Defined.

(** Where the cycle of heights ends between the quote and the block, the fees quoted before
    Delta are not enough. *)
Definition short_cycle : DataTxConfig :=
  mkDataTxConfig (mkWalkConfig (mkEpochConfig 10 10 2 3 None None None None) 262144 1 1 (mkFeeParams (PRECISION_SCALE / 20) 10 None)) (λ _, EmaWitness.config).
Example quote_before_cycle_end :
  ∃ info, get_price short_cycle 100 10 false (Some (mkTip 28 1000 (Some (snap 28)))) 0 1000000 = Ok info ∧
    ∃ expected, validate_publish_price short_cycle (mkDataTx (mkTxHeader 1 2 [] [] 1000000 (pi_term_fee info) (Some (pi_perm_fee info))) 0 0 None)
      31 1500 (ema_for_public_pricing (snap 30)) = Err (InsufficientPermFee 1 expected (pi_perm_fee info)).
Proof. eexists. split; [vm_compute; reflexivity|]. eexists. vm_compute. reflexivity. Qed.
End QuoteExample.
