(* ===== verification/BlockProducer.v ===== *)
(** Block production ([crates/actors/src/block_producer.rs]): from a mining solution and a
    parent to a signed block with its EVM payload, or to the reason why there is none.

    The parent is a [ParentHeader]: one [IrysBlockHeader], in the two views that [Header] and
    [BlockIndex] have of it.  What production reads from the node while it runs are the fields
    of [Reads], in the order of the reads; a snapshot that is read again is another field,
    since the block tree can prune the parent in between.  Of the selection of transactions
    the promotions are modelled ([get_publish_txs_and_proofs] of
    [crates/actors/src/tx_selector/mod.rs]); the other transactions, and the candidates for a
    promotion in the order of their fees, are read.  The payload builder and the engine of the
    execution layer are arguments. *)

From S2P Require Import Difficulty VdfState Header TreeHash Pricing Ema StateErr DataLedger EpochSnapshot CommitmentSnapshot EpochInv LedgerExpiry Codec Packing Merkle BlockIndex BlockIndexFacts IndexFile Poa FeeSplit BTree ExpiryWalk ExpirySettle ShadowTx ShadowExec ShadowGen ShadowValidate DataTxs Prelude.

(** A [Result] that is read. *)
Definition read_result {E A} (r : E + A) : result E A := match r with inl e => Err e | inr a => Ok a end.

(** ** Errors *)

(** The labels of [Recoverable]. *)
Inductive DropReason : Type :=
| parent_state_unavailable
| parent_evm_block_unavailable
| tx_selection
| ledger_expiry
| poa_data
| shadow_tx_generation
| payload_builder
| payload_missing_shadow_tx
| engine_new_payload
| payload_not_valid
| vdf_steps_unavailable.

Inductive BlockProductionError : Type :=
| Retryable
| Recoverable (reason : DropReason)
| Irrecoverable.

Definition classify_shadow_tx_error (e : ShadowTxGenError) : BlockProductionError :=
  match e with
  | SnapshotInvariant | SnapshotTreasuryUnderflow => Irrecoverable
  | TreasuryArithmetic | Structural => Recoverable shadow_tx_generation
  end.

Inductive TxSelectorError : Type :=
| StaleParent
| CommitmentRefund (e : CommitmentRefundError)
| LedgerExpiry (e : ExpiryError)
| SelectionOther.

(** [From<TxSelectorError>]. *)
Definition of_selector_error (e : TxSelectorError) : BlockProductionError :=
  match e with
  | StaleParent => Retryable
  | CommitmentRefund _ => Irrecoverable
  | LedgerExpiry AttributedTxHeadersMismatch => Irrecoverable
  | LedgerExpiry _ => Recoverable ledger_expiry
  | SelectionOther => Recoverable tx_selection
  end.

(** ** Configuration and parent *)

Record ProducerConfig : Type := mkProducerConfig {
  po_header : HeaderConfig;
  po_walk : WalkConfig;
  po_prices : CommitmentPrices;
  po_reward_curve : HalvingCurve;
  po_block_time : Z;
  po_chain_id : Z;
  (** The address of [irys_signer]. *)
  po_signer : Z;
  (** Activation and minimum version of Aurora, activation of Borealis. *)
  po_aurora : option (Z * Z);
  po_borealis : option Z;
  po_max_publish_txs_per_block : nat;
  po_number_of_ingress_proofs_from_assignees : Z
}.

Record ParentHeader : Type := mkParentHeader { ph_header : BlockHeader; ph_ledgers : LedgerHeader }.

Definition minimum_commitment_version_at (c : ProducerConfig) (timestamp : Z) : option Z :=
  match po_aurora c with
  | Some (activation, version) => if activation <=? timestamp then Some version else None
  | None => None
  end.
Definition is_update_reward_address_allowed_for_epoch (c : ProducerConfig) (es : EpochSnapshot) : bool :=
  match po_borealis c with Some activation => activation <=? timestamp_secs (epoch_block es) | None => false end.

(** ** Proofs of access *)

Inductive TxPathError : Type := TxPathFailed | TxPathTimedOut.
Notation TxPathResult := (TxPathError + option (list byte))%type.

(** What the derive job of a solution says to one call of [create_poa_data]: the read that
    decides where to wait, the wait, the read after a timeout, and whether the task that waits
    could be joined. *)
Record JobReads : Type := mkJobReads {
  jr_before : option TxPathResult;
  jr_wait : TxPathResult;
  jr_after : option TxPathResult;
  jr_joined : bool
}.

Definition resolve (source : TxPathSource) (job : JobReads) : TxPathResult :=
  match source with Stored path => inr path | Derive => jr_wait job end.
Definition try_get (source : TxPathSource) (read : option TxPathResult) : option TxPathResult :=
  match source with Stored path => Some (inr path) | Derive => read end.

(** A path that is stored in the same instant as the wait times out is kept. *)
Definition resolved_path (solution : SolutionContext) (job : JobReads) : TxPathResult :=
  match resolve (sol_tx_path solution) job with
  | inl TxPathTimedOut => default (inl TxPathTimedOut) (try_get (sol_tx_path solution) (jr_after job))
  | other => other
  end.
Definition assemble_poa (solution : SolutionContext) (job : JobReads) (ledger_id : option Z) : option PoaData :=
  match resolved_path solution job with
  | inr tx_path =>
      Some (mkPoaData (sol_chunk_offset solution) (sol_partition_hash solution) (Some (sol_chunk solution)) ledger_id tx_path (sol_data_path solution))
  | inl _ => None
  end.

Definition poa_has_paths_without_ledger (poa : PoaData) : bool :=
  (bool_decide (is_Some (poa_tx_path poa)) || bool_decide (is_Some (poa_data_path poa))) && bool_decide (poa_ledger_id poa = None).

(** [Ok None] drops the solution. *)
Definition create_poa_data (solution : SolutionContext) (job : JobReads) (ledger_id : option Z) : result BlockProductionError (option PoaData) :=
  built ← (if bool_decide (is_Some (try_get (sol_tx_path solution) (jr_before job))) || jr_joined job
           then Ok (assemble_poa solution job ledger_id)
           else Err (Recoverable poa_data));
  Ok (match built with
      | Some poa => if poa_has_paths_without_ledger poa then None else Some poa
      | None => None
      end).

Definition assigned_ledger (es : EpochSnapshot) (partition_hash : Z) : option Z :=
  get_assignment es partition_hash ≫= λ a, ledger_id <$> pa_ledger_id a.

(** ** Promotions *)

(** A stored ingress proof with the signer that was recovered when it was stored. *)
Record CachedIngressProof (P : Type) : Type := mkCachedProof { cp_proof : P; cp_address : Z }.
Arguments mkCachedProof {P}.
Arguments cp_proof {P}.
Arguments cp_address {P}.

(** What the database and the block tree say of ingress proofs: those of a data root, whether
    one is expired or its anchor valid for the block, and which proofs of a transaction are of
    miners assigned to its slots, with their number. *)
Record ProofReads (P : Type) : Type := mkProofReads {
  pr_stored : list byte → () + list (CachedIngressProof P);
  pr_expired : CachedIngressProof P → bool;
  pr_anchor_valid : CachedIngressProof P → () + bool;
  pr_assigned : list P → DataTx → option (list P * nat);
  pr_signature : P → Z
}.
Arguments mkProofReads {P}.
Arguments pr_stored {P}.
Arguments pr_expired {P}.
Arguments pr_anchor_valid {P}.
Arguments pr_assigned {P}.
Arguments pr_signature {P}.

Fixpoint keep_first_per_address {P} (items : list (CachedIngressProof P)) (seen : list Z) : list (CachedIngressProof P) :=
  match items with
  | [] => []
  | item :: rest =>
      if bool_decide (cp_address item ∈ seen) then keep_first_per_address rest seen
      else item :: keep_first_per_address rest (cp_address item :: seen)
  end.

Fixpoint anchor_valid_ingress_proofs {P} (reads : ProofReads P) (proofs : list (CachedIngressProof P)) : result () (list (CachedIngressProof P)) :=
  match proofs with
  | [] => Ok []
  | cached :: rest =>
      valid ← read_result (pr_anchor_valid reads cached);
      kept ← anchor_valid_ingress_proofs reads rest;
      Ok (if valid : bool then cached :: kept else kept)
  end.

(** What [select_best_txs] has chosen when it comes to the promotions: the commitments and the
    transactions of the ledgers, the snapshot of the parent, the Submit transactions of the
    canonical chain up to the parent, the height of the tip, and the candidates. *)
Record Selection : Type := mkSelection {
  sel_commitments : list CommitmentTransaction;
  sel_submit : list DataTx;
  sel_one_year : list DataTx;
  sel_thirty_day : list DataTx;
  sel_epoch_snapshot : EpochSnapshot;
  sel_canonical_submit : list Z;
  sel_tip_height : Z;
  sel_candidates : list DataTx
}.

Section Promotions.
  Context `{DupSort} {P : Type} (v : ExpiryView) (c : ProducerConfig) (reads : ProofReads P).
  Notation proofs_per_tx := (Z.to_nat (number_of_ingress_proofs_total (wc_fees (po_walk c)))).

(** The proofs that a candidate is promoted with. *)
Definition choose_proofs (tx : DataTx) (es : EpochSnapshot) : result () (option (list P)) :=
  stored_proofs ← read_result (pr_stored reads (th_data_root tx));
  let non_expired := filter (λ p, pr_expired reads p = false) stored_proofs in
  let all_proofs := keep_first_per_address non_expired [] in
  if (length all_proofs <? proofs_per_tx)%nat then Ok None
  else
    all_tx_proofs ← anchor_valid_ingress_proofs reads all_proofs;
    match pr_assigned reads (cp_proof <$> all_tx_proofs) tx with
    | None => Ok None
    | Some (assigned_proofs, assigned_miners) =>
        let expected_assigned_proofs := Nat.min (Z.to_nat (po_number_of_ingress_proofs_from_assignees c)) assigned_miners in
        if (length assigned_proofs <? expected_assigned_proofs)%nat then Ok None
        else
          let assigned_proof_set := pr_signature reads <$> assigned_proofs in
          let unassigned_proofs :=
            cp_proof <$> filter (λ p, pr_signature reads (cp_proof p) ∉ assigned_proof_set ∧ is_staked es (cp_address p) = true) all_tx_proofs in
          let final_proofs := take proofs_per_tx assigned_proofs in
          let final_proofs := final_proofs ++ take (proofs_per_tx - length final_proofs) unassigned_proofs in
          Ok (if (length final_proofs <? proofs_per_tx)%nat then None else Some final_proofs)
    end.

(** Whether the transaction is in the Submit ledger of an ancestor; a failed lookup counts as
    an absence. *)
Definition previously_submitted (tx : DataTx) (canonical_submit : list Z) (tip_block_height : Z) : result TxSelectorError bool :=
  if bool_decide (th_id tx ∈ canonical_submit) then Ok true
  else
    match canonical_submit_height v (th_id tx) (saturating_sub tip_block_height (wc_block_tree_depth (po_walk c))) with
    | Ok found => Ok (bool_decide (is_Some found))
    | Err _ => Ok false
    | Panic => Panic
    end.

(** The loop over the candidates; [selected] is what is promoted so far. *)
Fixpoint promote (promoted_on_branch canonical_submit : list Z) (tip_block_height : Z) (expired_submit_range : option ExpiredSubmitRange)
    (es : EpochSnapshot) (tx_headers : list DataTx) (selected : list DataTx * list P) : result TxSelectorError (list DataTx * list P) :=
  match tx_headers with
  | [] => Ok selected
  | tx :: rest =>
      let skip := promote promoted_on_branch canonical_submit tip_block_height expired_submit_range es rest selected in
      if (po_max_publish_txs_per_block c <=? length selected.1)%nat then Ok selected
      else if bool_decide (th_id tx ∈ promoted_on_branch) then skip
      else
        submitted ← previously_submitted tx canonical_submit tip_block_height;
        if negb submitted then skip
        else
          expired ← match expired_submit_range with
                    | Some range => map_err (λ _, SelectionOther) (submit_tx_expired v (po_walk c) (th_id tx) range)
                    | None => Ok false
                    end;
          if (expired : bool) then skip
          else
            final_proofs ← map_err (λ _, SelectionOther) (choose_proofs tx es);
            match final_proofs with
            | None => skip
            | Some proofs =>
                promote promoted_on_branch canonical_submit tip_block_height expired_submit_range es rest
                  (selected.1 ++ [tx], selected.2 ++ proofs)
            end
  end.

(** The promotions of a block with their proofs. *)
Definition get_publish_txs_and_proofs (sel : Selection) (parent : LedgerHeader) (timestamp : Z) : result TxSelectorError (list DataTx * option (list P)) :=
  let es := sel_epoch_snapshot sel in
  next_block_height ← expect (checked_add 64 (lh_height parent) 1);
  expired_submit_range ← map_err (λ _, SelectionOther)
    (submit_range (po_walk c) next_block_height es parent (cascade_for_block (wc_epoch (po_walk c)) timestamp));
  promoted_on_branch ← map_err (λ _, SelectionOther)
    (resolve_promoted_on_branch v (po_walk c) ((λ tx : DataTx, th_id tx) <$> sel_candidates sel) (lh_block_hash parent) next_block_height);
  selected ← promote promoted_on_branch (sel_canonical_submit sel) (sel_tip_height sel) expired_submit_range es (sel_candidates sel) ([], []);
  Ok (selected.1, if bool_decide (length selected.2 = 0%nat) then None else Some selected.2).
End Promotions.

(** ** Transactions *)

(** [calculate_chunks_added] of the producer; the caller has divided by the chunk size. *)
Definition producer_chunks_added (txs : list DataTx) (chunk_size : Z) : Z :=
  foldl (λ acc (tx : DataTx), saturating_add 64 acc (saturating_mul 64 (div_ceil (th_data_size tx) chunk_size) chunk_size)) 0 txs / chunk_size.
Definition chunk_size_divides {E} (chunk_size : Z) : result E () := if chunk_size =? 0 then Panic else Ok ().

Record MempoolTxsBundle (P : Type) : Type := mkBundle {
  mb_commitment_txs : list CommitmentTransaction;
  mb_commitment_txs_to_bill : list CommitmentTransaction;
  mb_submit_txs : list DataTx;
  mb_one_year_txs : list DataTx;
  mb_thirty_day_txs : list DataTx;
  mb_publish_txs : list DataTx;
  mb_publish_proofs : option (list P);
  mb_aggregated_miner_fees : LedgerExpiryBalanceDelta;
  mb_commitment_refund_events : list RefundEvent;
  mb_unstake_refund_events : list RefundEvent;
  mb_epoch_snapshot : EpochSnapshot
}.
Arguments mkBundle {P}.
Arguments mb_commitment_txs {P}.
Arguments mb_commitment_txs_to_bill {P}.
Arguments mb_submit_txs {P}.
Arguments mb_one_year_txs {P}.
Arguments mb_thirty_day_txs {P}.
Arguments mb_publish_txs {P}.
Arguments mb_publish_proofs {P}.
Arguments mb_aggregated_miner_fees {P}.
Arguments mb_commitment_refund_events {P}.
Arguments mb_unstake_refund_events {P}.
Arguments mb_epoch_snapshot {P}.

(** [compare_tx]: transactions are ordered by id. *)
Definition tx_le (a b : DataTx) : Prop := th_id a ≤ th_id b.
#[global] Instance tx_le_dec : RelDecision tx_le.
Proof. intros a b. unfold tx_le. apply _. Defined.

Section Mempool.
  Context `{DupSort} {P : Type} (v : ExpiryView) (c : ProducerConfig) (reads : ProofReads P) (commitment_version : CommitmentTransaction → Z).
  Notation epoch_config := (wc_epoch (po_walk c)).

(** The total of a ledger at the new block. *)
Definition new_total_chunks (sel : Selection) (parent : LedgerHeader) (ledger : DataLedger) : Z :=
  let txs := match ledger with
             | Submit => merge_sort tx_le (sel_submit sel)
             | OneYear => merge_sort tx_le (sel_one_year sel)
             | ThirtyDay => merge_sort tx_le (sel_thirty_day sel)
             | Publish => []
             end in
  saturating_add 64 (lh_total_chunks parent ledger) (producer_chunks_added txs (wc_chunk_size (po_walk c))).

Definition producer_expired_ledger_fees (es : EpochSnapshot) (block_height timestamp : Z) (parent : LedgerHeader) (sel : Selection)
  : result TxSelectorError LedgerExpiryBalanceDelta :=
  _ ← chunk_size_divides (wc_chunk_size (po_walk c));
  map_err LedgerExpiry
    (calculate_all_expired_ledger_fees v (po_walk c) es parent block_height (cascade_for_block epoch_config timestamp) (epoch_cascade epoch_config es)
       (new_total_chunks sel parent)).

(** The commitments that a block which is not an epoch block includes. *)
Definition retain_commitments (txs : list CommitmentTransaction) (timestamp : Z) (es : EpochSnapshot) : list CommitmentTransaction :=
  let txs := match minimum_commitment_version_at c timestamp with
             | Some version => filter (λ tx, version ≤ commitment_version tx) txs
             | None => txs
             end in
  if is_update_reward_address_allowed_for_epoch c es then txs
  else List.filter (λ tx, match tx_type tx with UpdateRewardAddress _ => false | _ => true end) txs.

Definition get_mempool_txs (selection : TxSelectorError + Selection) (snapshots : option (EpochSnapshot * CommitmentSnapshot)) (parent : LedgerHeader)
    (timestamp : Z) : result TxSelectorError (MempoolTxsBundle P) :=
  sel ← read_result selection;
  publish ← get_publish_txs_and_proofs v c reads sel parent timestamp;
  let submit_tx := merge_sort tx_le (sel_submit sel) in
  let one_year_tx := merge_sort tx_le (sel_one_year sel) in
  let thirty_day_tx := merge_sort tx_le (sel_thirty_day sel) in
  let commitment_tx := merge_sort commitment_le (sel_commitments sel) in
  block_height ← expect (checked_add 64 (lh_height parent) 1);
  parents ← ok_or snapshots SelectionOther;
  let '(es, cs) := (parents : EpochSnapshot * CommitmentSnapshot) in
  if negb (is_multiple_of block_height (ec_num_blocks_in_epoch epoch_config)) then
    let commitment_tx := retain_commitments commitment_tx timestamp es in
    Ok (mkBundle commitment_tx commitment_tx submit_tx one_year_tx thirty_day_tx publish.1 publish.2 empty_delta [] [] es)
  else
    aggregated_miner_fees ← producer_expired_ledger_fees es block_height timestamp parent sel;
    commitment_refund_events ← map_err CommitmentRefund (derive_unpledge_refunds_from_snapshot cs (po_prices c));
    let unstake_refund_events := derive_unstake_refunds_from_snapshot cs (po_prices c) in
    Ok (mkBundle (get_epoch_commitments cs) [] submit_tx one_year_tx thirty_day_tx publish.1 publish.2 aggregated_miner_fees
          commitment_refund_events unstake_refund_events es).
End Mempool.

(** ** The EVM block *)

(** The parent's EVM block as the execution layer stores it. *)
Record EvmParent : Type := mkEvmParent { ev_hash : Z; ev_mix_hash : Z }.

(** The reads of the loop, at most 51 of them. *)
Fixpoint read_evm_block (reads : nat → () + option EvmParent) (left attempts : nat) : result BlockProductionError EvmParent :=
  match left with
  | O => Err (Recoverable parent_evm_block_unavailable)
  | S left' =>
      found ← map_err (λ _, Recoverable parent_evm_block_unavailable) (read_result (reads attempts));
      match found with
      | Some block => Ok block
      | None => read_evm_block reads left' (S attempts)
      end
  end.

Definition get_evm_block (reads : nat → () + option EvmParent) (prev : LedgerHeader) : result BlockProductionError EvmParent :=
  parent ← read_evm_block reads 51 0;
  _ ← guard_err ((0 <? lh_height prev) && negb (ev_hash parent =? lh_evm_block_hash prev)) Irrecoverable;
  Ok parent.

Record IrysPayloadAttributes : Type := mkPayloadAttributes {
  at_parent : Z;
  at_timestamp : Z;
  at_prev_randao : Z;
  at_suggested_fee_recipient : Z;
  at_withdrawals : option (list Z);
  at_parent_beacon_block_root : option Z;
  at_shadow_txs : list SignedTx
}.

Inductive PayloadBuilderError : Type := MissingParentHeader | MissingParentBlock | OtherBuilderError.
Definition classify_payload_error (e : PayloadBuilderError) : BlockProductionError :=
  match e with
  | MissingParentHeader | MissingParentBlock => Retryable
  | OtherBuilderError => Recoverable payload_builder
  end.

(** [bp_v5] is the payload of the block with its sidecar, if the conversion succeeds. *)
Record EthBuiltPayload : Type := mkBuiltPayload { bp_hash : Z; bp_transactions : list SignedTx; bp_v5 : option ExecutionData }.

Inductive PayloadStatus : Type := PayloadValid | PayloadInvalid | PayloadSyncing | PayloadAccepted.
#[global] Instance PayloadStatus_eq_dec : EqDecision PayloadStatus.
Proof. solve_decision. Defined.

(** The execution layer: the builder takes the attributes of a payload and hands out its id,
    the payload of an id can be waited for, and the engine gives a verdict on a payload.
    [None] is a failed message. *)
Record ExecutionLayer : Type := mkExecutionLayer {
  send_new_payload : IrysPayloadAttributes → option (PayloadBuilderError + Z);
  resolve_kind : Z → option (PayloadBuilderError + EthBuiltPayload);
  new_payload : ExecutionData → option PayloadStatus
}.

Definition check_new_payload_status (status : PayloadStatus) : result BlockProductionError () :=
  guard_err (negb (bool_decide (status = PayloadValid))) (Recoverable payload_not_valid).

Section Evm.
  Context {P TxHash : Type} `{!EqDecision TxHash} (tx_hash : SignedTx → TxHash).
  Context (SHADOW_TX_DESTINATION_ADDR : list byte) (MINIMUM_GAS_LIMIT DEFAULT_TX_FEE_CAP_WEI : Z).
  Context (recover_proof_signer : P → option Z) (layer : ExecutionLayer) (c : ProducerConfig).

Definition ensure_payload_starts_with_shadow_txs (built_tx_hashes expected_shadow_tx_hashes : list TxHash) : result BlockProductionError () :=
  guard_err (negb (bool_decide (take (length expected_shadow_tx_hashes) built_tx_hashes = expected_shadow_tx_hashes)))
    (Recoverable payload_missing_shadow_tx).

Definition build_and_submit_reth_payload (prev : LedgerHeader) (timestamp : Z) (shadow_txs : list SignedTx) (parent_mix_hash reward_address : Z)
  : result BlockProductionError EthBuiltPayload :=
  let attributes :=
    mkPayloadAttributes (lh_evm_block_hash prev) timestamp parent_mix_hash reward_address None (Some (lh_block_hash prev)) shadow_txs in
  sent ← ok_or (send_new_payload layer attributes) (Recoverable payload_builder);
  payload_id ← map_err classify_payload_error (read_result sent);
  resolved ← ok_or (resolve_kind layer payload_id) (Recoverable payload_builder);
  built_payload ← map_err classify_payload_error (read_result resolved);
  _ ← ensure_payload_starts_with_shadow_txs (tx_hash <$> bp_transactions built_payload) (tx_hash <$> shadow_txs);
  data ← expect (bp_v5 built_payload);
  status ← ok_or (new_payload layer data) (Recoverable engine_new_payload);
  _ ← check_new_payload_status status;
  Ok built_payload.

(** The inputs of the generator. *)
Definition producer_input (bundle : MempoolTxsBundle P) (block_reward : BlockRewardSplit) (timestamp : Z) (solution_hash : H256) : GenInput :=
  mkGenInput (split_miner block_reward) (split_treasury block_reward) solution_hash (wc_fees (po_walk c)) timestamp (mb_commitment_txs_to_bill bundle)
    (dt_header <$> mb_submit_txs bundle) (dt_header <$> mb_one_year_txs bundle) (dt_header <$> mb_thirty_day_txs bundle).
Definition publish_ledger (bundle : MempoolTxsBundle P) : PublishLedgerWithTxs P :=
  mkPublishLedger (dt_header <$> mb_publish_txs bundle) (mb_publish_proofs bundle).

Definition create_evm_block (prev : LedgerHeader) (prev_evm_block : EvmParent) (bundle : MempoolTxsBundle P) (block_reward : BlockRewardSplit) (timestamp : Z)
    (solution_hash : H256) (reward_address : Z) : result BlockProductionError (EthBuiltPayload * Z) :=
  generated ← map_err classify_shadow_tx_error
    (create_evm_block_txs SHADOW_TX_DESTINATION_ADDR MINIMUM_GAS_LIMIT DEFAULT_TX_FEE_CAP_WEI (po_chain_id c) recover_proof_signer
       (producer_input bundle block_reward timestamp solution_hash) (publish_ledger bundle) (lh_treasury prev) (mb_aggregated_miner_fees bundle)
       (mb_commitment_refund_events bundle) (mb_unstake_refund_events bundle) (mb_epoch_snapshot bundle));
  let '(txs, final_treasury_balance) := (generated : list TxEip1559 * Z) in
  payload ← build_and_submit_reth_payload prev timestamp (signed (po_signer c) <$> txs) (ev_mix_hash prev_evm_block) reward_address;
  Ok (payload, final_treasury_balance).
End Evm.

(** ** Sealing *)

(** The commitments of the system ledger of a header out of those of a body. *)
Fixpoint order_commitment_ledger (ids : list Z) (commitment_tx_map : gmap Z CommitmentTransaction)
  : result Z (gmap Z CommitmentTransaction * list CommitmentTransaction) :=
  match ids with
  | [] => Ok (commitment_tx_map, [])
  | id :: rest =>
      tx ← ok_or (commitment_tx_map !! id) id;
      r ← order_commitment_ledger rest (delete id commitment_tx_map);
      Ok (r.1, tx :: r.2)
  end.
(** The part of [order_transactions] on system ledgers; [None] is a header without one.  The
    error is an id that is missing or left over. *)
Definition order_commitments (ledger : option (list Z)) (commitment_txs : list CommitmentTransaction) : result Z (list CommitmentTransaction) :=
  let commitment_tx_map := foldl (λ m tx, <[tx_id tx := tx]> m) (∅ : gmap Z CommitmentTransaction) commitment_txs in
  r ← match ledger with
      | Some ids => order_commitment_ledger ids commitment_tx_map
      | None => Ok (commitment_tx_map, [])
      end;
  match map_to_list r.1 with
  | [] => Ok r.2
  | (id, _) :: _ => Err id
  end.

(** ** The block *)

(** What production reads while it runs. *)
Record Reads : Type := mkReads {
  rd_epoch_snapshot : option EpochSnapshot;
  rd_evm_block : nat → () + option EvmParent;
  (** The first reading of the clock in a later second than the parent's. *)
  rd_timestamp : Z;
  rd_selection : TxSelectorError + Selection;
  rd_snapshots : option (EpochSnapshot * CommitmentSnapshot);
  rd_job : JobReads;
  rd_epoch_snapshot_again : option EpochSnapshot;
  rd_job_again : JobReads;
  rd_vdf_state : VdfState;
  rd_oracle : option (Z * Z);
  (** The hash of the signed header, and whether its signature and those of the transactions
      are valid. *)
  rd_signed_hash : option H256;
  rd_signatures_valid : bool
}.

Record ProducedBlock (P : Type) : Type := mkProducedBlock {
  pb_header : BlockHeader;
  pb_block : ShadowBlock P;
  pb_poa : PoaData;
  pb_commitment_ledger : option (list Z);
  pb_transactions : BlockTransactions
}.
Arguments mkProducedBlock {P}.
Arguments pb_header {P}.
Arguments pb_block {P}.
Arguments pb_poa {P}.
Arguments pb_commitment_ledger {P}.
Arguments pb_transactions {P}.

Definition data_ledger_of {E} `{Sha256} (ledger : DataLedger) (txs : list DataTx) (total_chunks : Z) : result E DataTransactionLedger :=
  root ← merklize_tx_root (dt_header <$> txs);
  Ok (mkTxLedger (ledger_id ledger) root.1 ((λ tx : DataTx, th_id tx) <$> txs) total_chunks).

Definition clear_metadata (tx : DataTx) : DataTx := mkDataTx (dt_header tx) (dt_ledger_id tx) (dt_anchor tx) None.

Section Production.
  Context `{DupSort} `{Sha256} {P TxHash : Type} `{!EqDecision TxHash} (tx_hash : SignedTx → TxHash).
  Context (SHADOW_TX_DESTINATION_ADDR : list byte) (MINIMUM_GAS_LIMIT DEFAULT_TX_FEE_CAP_WEI : Z).
  Context (recover_proof_signer : P → option Z) (commitment_version : CommitmentTransaction → Z).
  Context (layer : ExecutionLayer) (v : ExpiryView) (c : ProducerConfig) (proofs : ProofReads P).

(** The VDF steps between the parent's and the solution's. *)
Definition prior_steps (vdf_state : VdfState) (prev : BlockHeader) (solution : SolutionContext) : result BlockProductionError (list H256) :=
  first ← expect (checked_add 64 (global_step_number (vdf_limiter_info prev)) 1);
  last ← expect (checked_sub (sol_vdf_step solution) 1);
  if last <? first then Ok [] else map_err (λ _, Recoverable vdf_steps_unavailable) (get_steps vdf_state first last).

(** The ledgers of the header, with proofs and required proofs. *)
Definition header_ledgers (bundle : MempoolTxsBundle P) (prev : LedgerHeader) (cascade : bool) (publish_total_chunks submit_total_chunks : Z)
  : result BlockProductionError (list (DataTransactionLedger * (option (list P) * option Z))) :=
  let chunk_size := wc_chunk_size (po_walk c) in
  publish ← data_ledger_of Publish (mb_publish_txs bundle) publish_total_chunks;
  submit ← data_ledger_of Submit (mb_submit_txs bundle) submit_total_chunks;
  let two := [(publish, (mb_publish_proofs bundle, Some (number_of_ingress_proofs_total (wc_fees (po_walk c))))); (submit, (None, None))] in
  if cascade then
    one_year ← data_ledger_of OneYear (mb_one_year_txs bundle)
      (saturating_add 64 (lh_total_chunks prev OneYear) (producer_chunks_added (mb_one_year_txs bundle) chunk_size));
    thirty_day ← data_ledger_of ThirtyDay (mb_thirty_day_txs bundle)
      (saturating_add 64 (lh_total_chunks prev ThirtyDay) (producer_chunks_added (mb_thirty_day_txs bundle) chunk_size));
    Ok (two ++ [(one_year, (None, None)); (thirty_day, (None, None))])
  else Ok two.

(** [IrysSealedBlock::new] on the header and the body of the bundle. *)
Definition seal_block (ledgers : list DataTransactionLedger) (commitment_ledger : option (list Z)) (bundle : MempoolTxsBundle P) (signatures_valid : bool)
  : result BlockProductionError BlockTransactions :=
  let data_transactions := clear_metadata <$> mb_submit_txs bundle ++ mb_one_year_txs bundle ++ mb_thirty_day_txs bundle ++ mb_publish_txs bundle in
  _ ← guard_err (negb signatures_valid) Irrecoverable;
  data_txs ← map_err (λ _, Irrecoverable) (order_transactions ledgers data_transactions);
  system_txs ← map_err (λ _, Irrecoverable) (order_commitments commitment_ledger (mb_commitment_txs bundle));
  Ok (mkBlockTransactions system_txs (λ ledger, dt_header <$> ledger_txs data_txs ledger)).

Definition produce_block_without_broadcasting (reads : Reads) (solution : SolutionContext) (parent : ParentHeader) (bundle : MempoolTxsBundle P)
    (current_timestamp block_reward evm_block_hash : Z) (ema_snapshot : EmaSnapshot) (final_treasury reward_address : Z)
  : result BlockProductionError (option (ProducedBlock P)) :=
  let prev := ph_header parent in
  let h := po_header c in
  let chunk_size := wc_chunk_size (po_walk c) in
  block_height ← expect (checked_add 64 (hd_height prev) 1);
  _ ← chunk_size_divides chunk_size;
  prev_publish ← expect (ledger_of_header (ph_ledgers parent) Publish);
  let publish_total_chunks := saturating_add 64 (tl_total_chunks prev_publish) (producer_chunks_added (mb_publish_txs bundle) chunk_size) in
  d ← calculate_difficulty block_height (last_diff_timestamp prev) current_timestamp (diff prev) (difficulty_adjustment h);
  let last_diff_ts := match d.2 with Some _ => current_timestamp | None => last_diff_timestamp prev end in
  cumulative_difficulty ← next_cumulative_diff (cumulative_diff prev) d.1;
  es ← ok_or (rd_epoch_snapshot_again reads) (Recoverable parent_state_unavailable);
  created ← create_poa_data solution (rd_job_again reads) (assigned_ledger es (sol_partition_hash solution));
  match created with
  | None => Ok None
  | Some poa =>
      prior ← prior_steps (rd_vdf_state reads) prev solution;
      let steps := prior ++ [sol_seed solution] in
      let ema := get_ema_price (rd_oracle reads) (price_header prev) (to_secs (timestamp prev)) ema_snapshot (token_price_safe_range h)
                   (price_adjustment_interval h) in
      _ ← (if (0 <? block_height) && (Header.num_blocks_in_epoch h =? 0) then Panic else Ok ());
      let last_epoch :=
        if (0 <? block_height) && (block_height mod Header.num_blocks_in_epoch h =? 1) then block_hash prev else last_epoch_hash prev in
      prev_submit ← expect (ledger_of_header (ph_ledgers parent) Submit);
      let submit_total_chunks := saturating_add 64 (tl_total_chunks prev_submit) (producer_chunks_added (mb_submit_txs bundle) chunk_size) in
      let commitment_ledger := match mb_commitment_txs bundle with [] => None | txs => Some (tx_id <$> txs) end in
      ledgers ← header_ledgers bundle (ph_ledgers parent) (epoch_cascade (wc_epoch (po_walk c)) es) publish_total_chunks submit_total_chunks;
      vdf ← VDFLimiterInfo_new solution prev steps (vdf_reset_frequency h);
      signed_hash ← ok_or (rd_signed_hash reads) Irrecoverable;
      let header :=
        mkHeader signed_hash block_height d.1 cumulative_difficulty last_diff_ts (sol_hash solution) (solution_hash prev) last_epoch
          (cumulative_diff prev) (sol_chunk solution) (sol_chunk_offset solution) current_timestamp vdf (oracle_price_for_block_inclusion ema)
          (calculated_ema ema) in
      let block :=
        mkShadowBlock (mkLedgerHeader (of_be_bytes signed_hash) (lh_block_hash (ph_ledgers parent)) block_height ledgers.*1 final_treasury evm_block_hash)
          ledgers.*2 (to_secs current_timestamp) (sol_mining_address solution) reward_address block_reward (sol_hash solution) (is_data_poa poa) in
      transactions ← seal_block ledgers.*1 commitment_ledger bundle (rd_signatures_valid reads);
      Ok (Some (mkProducedBlock header block poa commitment_ledger transactions))
  end.

(** [Ok None] skips the solution. *)
Definition produce_block_with_parent (reads : Reads) (solution : SolutionContext) (parent : ParentHeader) (ema_snapshot : EmaSnapshot)
  : result BlockProductionError (option (ProducedBlock P * EthBuiltPayload)) :=
  let prev := ph_header parent in
  if sol_vdf_step solution <=? global_step_number (vdf_limiter_info prev) then Ok None
  else if hash_to_number (sol_hash solution) <? diff prev then Ok None
  else
    es ← ok_or (rd_epoch_snapshot reads) (Recoverable parent_state_unavailable);
    match poa_partition_is_owned_by_miner (sol_partition_hash solution) (sol_mining_address solution) es with
    | Err _ => Ok None
    | Panic => Panic
    | Ok _ =>
        prev_evm_block ← get_evm_block (rd_evm_block reads) (ph_ledgers parent);
        let current_timestamp := rd_timestamp reads in
        let timestamp_secs := to_secs current_timestamp in
        let block_solution_hash :=
          compute_solution_hash (sol_chunk solution) (sol_chunk_offset solution) (sol_seed solution)
            (Header.delta_for_block (po_header c) timestamp_secs) in
        if negb (bool_decide (block_solution_hash = sol_hash solution)) then Ok None
        else
          bundle ← map_err of_selector_error
            (get_mempool_txs v c proofs commitment_version (rd_selection reads) (rd_snapshots reads) (ph_ledgers parent) timestamp_secs);
          let reward_address := resolve_reward_address es (sol_mining_address solution) in
          created ← create_poa_data solution (rd_job reads) (assigned_ledger es (sol_partition_hash solution));
          match created with
          | None => Ok None
          | Some poa =>
              block_reward ← map_err (λ _, Irrecoverable)
                (block_reward_split (po_walk c) (po_reward_curve c) (po_block_time c) (hd_height prev) timestamp_secs (negb (is_data_poa poa)));
              built ← create_evm_block tx_hash SHADOW_TX_DESTINATION_ADDR MINIMUM_GAS_LIMIT DEFAULT_TX_FEE_CAP_WEI recover_proof_signer layer c
                (ph_ledgers parent) prev_evm_block bundle block_reward timestamp_secs (sol_hash solution) reward_address;
              let '(eth_built_payload, final_treasury) := (built : EthBuiltPayload * Z) in
              block ← produce_block_without_broadcasting reads solution parent bundle current_timestamp (split_miner block_reward)
                (bp_hash eth_built_payload) ema_snapshot final_treasury reward_address;
              Ok ((λ b, (b, eth_built_payload)) <$> block)
          end
    end.
End Production.
