(* ===== verification/ProducerTheorems.v ===== *)
(** What block production guarantees: how it ends, and that the block it builds passes the
    header checks, the reward checks and the check of shadow transactions on the node that
    built it.  The last part is an example. *)

From S2P Require Import Difficulty VdfState Header HeaderTheorems TreeHash Pricing Ema EmaTheorems StateErr DataLedger EpochSnapshot CommitmentSnapshot EpochInv LedgerExpiry EpochExample Codec Packing Merkle BlockIndex BlockIndexFacts IndexFile Poa PoaFacts FeeSplit BTree ExpiryWalk ExpirySettle ExpiryExample ShadowTx ShadowExec ShadowGen ShadowValidate TreasuryFacts ShadowTyped TreasuryTheorems TreasuryExample DataTxs DataTxsTheorems BlockProducer Prelude.

(** How a computation ends: with a value in [Q], an error in [F], or, if [B], a panic. *)
Definition ends {E A} (Q : A → Prop) (F : E → Prop) (B : Prop) (r : result E A) : Prop :=
  match r with Ok a => Q a | Err e => F e | Panic => B end.

Lemma ends_bind {E A A'} (Q : A' → Prop) (F : E → Prop) B (m : result E A) f :
  (∀ a, m = Ok a → ends Q F B (f a)) → (∀ e, m = Err e → F e) → (m = Panic → B) → ends Q F B (m ≫= f).
Proof. destruct m; cbn; auto. Qed.
Lemma ends_ok_or {E A A'} (Q : A' → Prop) (F : E → Prop) B (o : option A) e f :
  (∀ a, o = Some a → ends Q F B (f a)) → (o = None → F e) → ends Q F B (ok_or o e ≫= f).
Proof. destruct o; cbn; auto. Qed.
Lemma ends_total {E A A'} (Q : A' → Prop) (F : E → Prop) B (m : result E A) a f :
  m = Ok a → ends Q F B (f a) → ends Q F B (m ≫= f).
Proof. by intros ->. Qed.

Lemma checked_add_fits {E} w a b : a + b < 2 ^ w → @expect E _ (checked_add w a b) = Ok (a + b).
Proof. intros H. unfold checked_add. by rewrite (proj2 (Z.ltb_lt (a + b) (2 ^ w))). Qed.

(** ** Rewards and ledgers *)

Lemma mul_div_no_panic a b d : mul_div a b d ≠ Panic.
Proof. unfold mul_div, safe_mul, safe_div. apply bind_no_panic; [apply ok_or_no_panic|]. intros x. by case_match. Qed.
Lemma exp_neg_no_panic rest i x term sum : exp_neg_taylor rest i x term sum ≠ Panic.
Proof.
  revert i term sum. induction rest as [|rest IH]; intros i term sum; [done|]. cbn [exp_neg_taylor]. apply bind_no_panic; [apply mul_div_no_panic|].
  intros t. apply bind_no_panic; [unfold safe_div; by case_match|]. intros t'. apply bind_no_panic; [case_match; apply ok_or_no_panic|]. intros. apply IH.
Qed.
Lemma emitted_no_panic curve t : emitted_until curve t ≠ Panic.
Proof.
  unfold emitted_until, decay_factor, FeeSplit.curve. apply bind_no_panic.
  - apply bind_no_panic; [apply guard_no_panic|]. intros _. cbv zeta.
    apply bind_no_panic; [repeat case_match; [done..|apply map_err_no_panic; unfold safe_div; by case_match]|]. intros q.
    case_match; [done|]. apply bind_no_panic; [apply map_err_no_panic, mul_div_no_panic|]. intros x.
    apply bind_no_panic; [apply map_err_no_panic, exp_neg_no_panic|]. intros. apply map_err_no_panic, mul_div_no_panic.
  - intros d. apply bind_no_panic; [apply map_err_no_panic, ok_or_no_panic|]. intros. apply map_err_no_panic, mul_div_no_panic.
Qed.
Lemma reward_split_no_panic config curve block_time h ts is_capacity : block_reward_split config curve block_time h ts is_capacity ≠ Panic.
Proof.
  unfold block_reward_split. apply bind_no_panic.
  - apply map_err_no_panic. unfold full_block_reward, reward_between. repeat case_match; [done..|].
    apply bind_no_panic; [apply emitted_no_panic|]. intros. apply bind_no_panic; [apply emitted_no_panic|]. intros. apply map_err_no_panic, ok_or_no_panic.
  - intros full. apply map_err_no_panic. unfold split_block_reward. repeat case_match; try done.
    apply bind_no_panic; [apply map_err_no_panic, mul_div_no_panic|]. intros. apply bind_no_panic; [apply map_err_no_panic, ok_or_no_panic|]. done.
Qed.

Section Ledgers.
  Context `{Sha256}.

(** Transactions that have bytes, not more than their root can count. *)
Definition root_fits (txs : list DataTx) : Prop :=
  Forall (λ tx : DataTx, 0 < th_data_size tx) txs ∧ sum_Z ((λ tx : DataTx, th_data_size tx) <$> txs) < 2 ^ 64.

Lemma data_ledger_of_total {E} ledger txs total : root_fits txs → ∃ dl, data_ledger_of (E := E) ledger txs total = Ok dl.
Proof.
  intros [Hpos Hsum]. unfold data_ledger_of. destruct (decide (txs = [])) as [->|Hne]; [by eexists|].
  destruct (merklize_tx_root_eq (E := E) (dt_header <$> txs)) as (ps & -> & _); [by destruct txs|by apply Forall_fmap|by rewrite <- list_fmap_compose|].
  res_simpl. by eexists.
Qed.

Lemma data_ledger_of_ok {E} ledger txs total dl : data_ledger_of (E := E) ledger txs total = Ok dl →
  tl_ledger_id dl = ledger_id ledger ∧ tl_tx_ids dl = (λ tx : DataTx, th_id tx) <$> txs ∧ tl_total_chunks dl = total.
Proof. unfold data_ledger_of. intros (root & _ & [= <-])%bind_ok. done. Qed.

Lemma header_ledgers_total {P} c (bundle : MempoolTxsBundle P) prev cascade n m :
  root_fits (mb_publish_txs bundle) → root_fits (mb_submit_txs bundle) → root_fits (mb_one_year_txs bundle) → root_fits (mb_thirty_day_txs bundle) →
  ∃ ledgers, header_ledgers c bundle prev cascade n m = Ok ledgers.
Proof.
  intros Hp Hs Ho Ht. unfold header_ledgers. destruct (data_ledger_of_total (E := BlockProductionError) Publish _ n Hp) as [p ->]. res_simpl.
  destruct (data_ledger_of_total (E := BlockProductionError) Submit _ m Hs) as [s ->]. res_simpl. destruct cascade; [|by eexists].
  match goal with |- context [data_ledger_of OneYear _ ?o] => destruct (data_ledger_of_total (E := BlockProductionError) OneYear _ o Ho) as [y ->] end. res_simpl.
  match goal with |- context [data_ledger_of ThirtyDay _ ?t] => destruct (data_ledger_of_total (E := BlockProductionError) ThirtyDay _ t Ht) as [y' ->] end. res_simpl.
  by eexists.
Qed.
End Ledgers.

(** ** Sealing *)

Lemma order_ledger_no_panic l ids seen m taken : order_ledger l ids seen m taken ≠ Panic.
Proof.
  revert seen m. induction ids as [|id ids IH]; intros seen m; [done|]. cbn [order_ledger]. apply bind_no_panic; [apply guard_no_panic|]. intros _.
  apply bind_no_panic; [apply ok_or_no_panic|]. intros tx. apply bind_no_panic; [apply IH|done].
Qed.
Lemma order_ledgers_no_panic ledgers m taken : order_ledgers ledgers m taken ≠ Panic.
Proof.
  revert m taken. induction ledgers as [|dl ledgers IH]; intros m taken; [done|]. cbn [order_ledgers]. apply bind_no_panic; [apply ok_or_no_panic|]. intros l.
  apply bind_no_panic; [apply guard_no_panic|]. intros _. apply bind_no_panic; [apply order_ledger_no_panic|]. intros r. apply IH.
Qed.
Lemma order_commitment_ledger_no_panic ids m : order_commitment_ledger ids m ≠ Panic.
Proof.
  revert m. induction ids as [|id ids IH]; intros m; [done|]. cbn [order_commitment_ledger]. apply bind_no_panic; [apply ok_or_no_panic|]. intros tx.
  apply bind_no_panic; [apply IH|done].
Qed.

Lemma seal_block_fails {P} ledgers commitments (bundle : MempoolTxsBundle P) valid e :
  seal_block ledgers commitments bundle valid = Err e → e = Irrecoverable.
Proof.
  unfold seal_block. destruct valid; res_simpl; [|by intros [= <-]]. destruct (order_transactions _ _); res_simpl; [|by intros [= <-]|done].
  destruct (order_commitments _ _); res_simpl; [done|by intros [= <-]|done].
Qed.
Lemma seal_block_no_panic {P} ledgers commitments (bundle : MempoolTxsBundle P) valid : seal_block ledgers commitments bundle valid ≠ Panic.
Proof.
  unfold seal_block. apply bind_no_panic; [apply guard_no_panic|]. intros _. apply bind_no_panic; [apply map_err_no_panic|intros txs; apply bind_no_panic; [apply map_err_no_panic|done]].
  - unfold order_transactions. apply bind_no_panic; [apply order_ledgers_no_panic|]. intros r. apply bind_no_panic; [apply guard_no_panic|done].
  - unfold order_commitments. apply bind_no_panic; [case_match; [apply order_commitment_ledger_no_panic|done]|]. intros r. by destruct (map_to_list _) as [|[]].
Qed.

Lemma order_commitment_ledger_ok ids m m' txs : order_commitment_ledger ids m = Ok (m', txs) →
  NoDup ids ∧ Forall2 (λ id tx, m !! id = Some tx) ids txs.
Proof.
  revert m m' txs. induction ids as [|id ids IH]; intros m m' txs; cbn [order_commitment_ledger].
  { intros [= _ <-]. split; constructor. }
  destruct (m !! id) as [tx|] eqn:Hid; [|done]. res_simpl. intros ([m1 txs1] & Hr & [= <- <-])%bind_ok. apply IH in Hr as [Hnd Hall]. cbn [fst snd].
  assert (Forall2 (λ i t, m !! i = Some t ∧ i ≠ id) ids txs1) as Hall'.
  { eapply Forall2_impl; [exact Hall|]. intros i t [? ?]%lookup_delete_Some. done. }
  split; [|constructor; [done|eapply Forall2_impl; [exact Hall'|]; by intros ? ? []]].
  apply NoDup_cons. split; [|done]. intros Hin. apply list_elem_of_lookup in Hin as [k Hk]. destruct (Forall2_lookup_l _ _ _ _ _ Hall' Hk) as (t & _ & _ & ?). done.
Qed.

Lemma keyed_commitments txs m tx : NoDup (tx_id <$> txs) → tx ∈ txs → foldl (λ m tx, <[tx_id tx := tx]> m) (m : gmap Z CommitmentTransaction) txs !! tx_id tx = Some tx.
Proof.
  revert m. induction txs as [|t txs IH]; intros m Hnd Hin; [by apply elem_of_nil in Hin|]. rewrite fmap_cons in Hnd. apply NoDup_cons in Hnd as [Ht Hnd].
  apply elem_of_cons in Hin as [->|Hin]; [|by apply IH]. cbn [foldl]. clear IH. assert (<[tx_id t:=t]> m !! tx_id t = Some t) as Hm by apply lookup_insert_eq.
  revert Hm. generalize (<[tx_id t:=t]> m). clear m. induction txs as [|u txs IH]; intros m Hm; [done|]. cbn [foldl]. rewrite fmap_cons in Ht, Hnd.
  apply not_elem_of_cons in Ht as [Hne Ht]. apply NoDup_cons in Hnd as [_ Hnd]. apply IH; [done..|]. by rewrite lookup_insert_ne.
Qed.

(** A body of commitments is paired with the ledger of their ids. *)
Lemma order_commitments_ok txs r : order_commitments (match txs with [] => None | t :: l => Some (tx_id <$> t :: l) end) txs = Ok r → r = txs.
Proof.
  unfold order_commitments. destruct txs as [|t txs]; [by intros [= <-]|]. intros ([m' r'] & Hr & Hm)%bind_ok. cbn [fst snd] in Hm.
  assert (r' = r) as -> by (destruct (map_to_list m') as [|[]]; [by injection Hm|done]). apply order_commitment_ledger_ok in Hr as [Hnd Hall].
  apply list_eq_Forall2. rewrite Forall2_fmap_l in Hall. apply Forall2_flip. apply Forall2_same_length_lookup in Hall as [Hl Hall]. apply Forall2_same_length_lookup. split; [done|].
  intros i x y Hx Hy. specialize (Hall i x y Hx Hy). pose proof (keyed_commitments (t :: txs) ∅ x Hnd ltac:(by eapply list_elem_of_lookup_2)) as Hk. cbn beta in Hall. congruence.
Qed.

(** Lists of transactions with the same ids are the same when ids determine transactions. *)
Lemma headers_by_id (known : DataTx → Prop) (l k : list DataTx) : (∀ a b : DataTx, known a → known b → th_id a = th_id b → dt_header a = dt_header b) →
  Forall known l → Forall known k → tx_ids l = tx_ids k → dt_header <$> l = dt_header <$> k.
Proof.
  intros Hdet Hl. revert k. induction Hl as [|a l Ha Hl IH]; intros [|b k] Hk Hids; try done. rewrite !fmap_cons in Hids. injection Hids as Hab Hids.
  apply Forall_cons in Hk as [Hb Hk]. rewrite !fmap_cons, (Hdet a b Ha Hb Hab). f_equal. by apply IH.
Qed.

Section Outcome.
  Context `{DupSort} `{Sha256} {P TxHash : Type} `{!EqDecision TxHash} (tx_hash : SignedTx → TxHash).
  Context (SHADOW_TX_DESTINATION_ADDR : list byte) (MINIMUM_GAS_LIMIT DEFAULT_TX_FEE_CAP_WEI : Z).
  Context (recover_proof_signer : P → option Z) (commitment_version : CommitmentTransaction → Z).
  Context (layer : ExecutionLayer) (v : ExpiryView) (c : ProducerConfig) (proofs : ProofReads P).
  Context (reads : Reads) (sol : SolutionContext) (parent : ParentHeader) (s : EmaSnapshot).

  Notation prev := (ph_header parent).
  Notation ts := (rd_timestamp reads).
  Notation mempool_txs := (get_mempool_txs v c proofs commitment_version (rd_selection reads) (rd_snapshots reads) (ph_ledgers parent) (to_secs ts)).
  Notation poa_of es job := (create_poa_data sol job (assigned_ledger es (sol_partition_hash sol))).
  Notation reward_of := (block_reward_split (po_walk c) (po_reward_curve c) (po_block_time c) (hd_height prev) (to_secs ts)).
  Notation evm_block_of := (create_evm_block tx_hash SHADOW_TX_DESTINATION_ADDR MINIMUM_GAS_LIMIT DEFAULT_TX_FEE_CAP_WEI recover_proof_signer layer c (ph_ledgers parent)).
  Notation produce :=
    (produce_block_with_parent tx_hash SHADOW_TX_DESTINATION_ADDR MINIMUM_GAS_LIMIT DEFAULT_TX_FEE_CAP_WEI recover_proof_signer commitment_version layer v c
       proofs reads sol parent s).

(** ** Why there is no block *)

(** The solution is not for this parent: it does not fit it, its partition is not the miner's,
    or its proof of access can not be published. *)
Inductive skipped : Prop :=
| skipped_gate : ¬ solution_fits (po_header c) sol prev ts → skipped
| skipped_partition es : rd_epoch_snapshot reads = Some es →
    poa_partition_is_owned_by_miner (sol_partition_hash sol) (sol_mining_address sol) es ≠ Ok () → skipped
| skipped_poa es : rd_epoch_snapshot reads = Some es → poa_of es (rd_job reads) = Ok None → skipped
| skipped_poa_again es : rd_epoch_snapshot_again reads = Some es → poa_of es (rd_job_again reads) = Ok None → skipped.

(** The step that failed, with the error it gives. *)
Inductive failed : BlockProductionError → Prop :=
| failed_snapshot : rd_epoch_snapshot reads = None ∨ rd_epoch_snapshot_again reads = None → failed (Recoverable parent_state_unavailable)
| failed_evm_parent e : get_evm_block (rd_evm_block reads) (ph_ledgers parent) = Err e → failed e
| failed_selection e : mempool_txs = Err e → failed (of_selector_error e)
| failed_poa : jr_joined (rd_job reads) = false ∨ jr_joined (rd_job_again reads) = false → failed (Recoverable poa_data)
| failed_reward is_capacity e : reward_of is_capacity = Err e → failed Irrecoverable
| failed_evm bundle evm reward address e : mempool_txs = Ok bundle → evm_block_of evm bundle reward (to_secs ts) (sol_hash sol) address = Err e → failed e
| failed_steps e :
    get_steps (rd_vdf_state reads) (global_step_number (vdf_limiter_info prev) + 1) (sol_vdf_step sol - 1) = Err e → failed (Recoverable vdf_steps_unavailable)
| failed_signature : rd_signed_hash reads = None → failed Irrecoverable
| failed_seal bundle ledgers commitments : mempool_txs = Ok bundle → seal_block ledgers commitments bundle (rd_signatures_valid reads) = Err Irrecoverable → failed Irrecoverable.

Lemma poa_fails es job e : poa_of es job = Err e → e = Recoverable poa_data ∧ jr_joined job = false.
Proof.
  unfold create_poa_data. case_bool_decide; cbn [orb]; res_simpl; [done|]. destruct (jr_joined job); res_simpl; [done|]. by intros [= <-].
Qed.
Lemma poa_no_panic es job : poa_of es job ≠ Panic.
Proof. unfold create_poa_data. by destruct (_ || _). Qed.

(** The proof of access of a solution names its partition and chunk, and its ledger is the
    assigned one. *)
Lemma poa_of_ok es job poa : poa_of es job = Ok (Some poa) →
  poa_partition_hash poa = sol_partition_hash sol ∧ poa_partition_chunk_offset poa = sol_chunk_offset sol ∧ Poa.poa_chunk poa = Some (sol_chunk sol) ∧
  poa_ledger_id poa = assigned_ledger es (sol_partition_hash sol).
Proof.
  unfold create_poa_data. intros (built & Hb & Hp)%bind_ok. destruct built as [p|]; [|done]. destruct (poa_has_paths_without_ledger p); [done|]. injection Hp as ->.
  destruct (_ || _); [|done]. injection Hb as Hb. unfold assemble_poa in Hb. by destruct (resolved_path sol job); [|injection Hb as <-].
Qed.

Lemma poa_of_matches es job poa : poa_of es job = Ok (Some poa) → poa_ledger_matches_assignment poa es = Ok ().
Proof.
  intros (Hh & _ & _ & Hl)%poa_of_ok. unfold poa_ledger_matches_assignment. rewrite Hh. destruct (poa_ledger_id poa) as [id|]; [|done]. destruct (is_data_poa poa); [|done].
  unfold assigned_ledger in Hl. by rewrite <- Hl, bool_decide_eq_true_2.
Qed.

(** ** The header *)

Context (Hc : header_config_ok (po_header c)).
Context (log : Z * (Z → Seed)) (now : Z).

(** What holds of the parent, the solution and the clock: the parent is a header of an accepted
    chain, the step buffer is a window of the VDF log, and the timestamp is of a later second
    than the parent's and not further ahead of [now] than the allowed drift. *)
Record production_fits : Prop := {
  pf_parent : header_ok prev;
  pf_height : hd_height prev + 1 < 2 ^ 64;
  pf_same_height : lh_height (ph_ledgers parent) = hd_height prev;
  pf_publish : is_Some (ledger_of_header (ph_ledgers parent) Publish);
  pf_submit : is_Some (ledger_of_header (ph_ledgers parent) Submit);
  pf_window : window_of (rd_vdf_state reads) log;
  pf_step : 0 ≤ sol_vdf_step sol < 2 ^ 64 - 1;
  pf_parent_time : timestamp prev < 1000 * 2 ^ 64;
  pf_time : 0 ≤ ts < 1000 * 2 ^ 64;
  pf_second : to_secs (timestamp prev) < to_secs ts;
  pf_drift : ts ≤ now + max_future_timestamp_drift_millis (po_header c);
  pf_now : now + max_future_timestamp_drift_millis (po_header c) < 2 ^ 128;
  pf_oracle : ∀ x u, rd_oracle reads = Some (x, u) → 0 ≤ x;
  pf_chunk_size : wc_chunk_size (po_walk c) ≠ 0
}.

(** The transactions of a bundle can be put into ledgers. *)
Definition bundle_roots_fit (bundle : MempoolTxsBundle P) : Prop :=
  root_fits (mb_publish_txs bundle) ∧ root_fits (mb_submit_txs bundle) ∧ root_fits (mb_one_year_txs bundle) ∧ root_fits (mb_thirty_day_txs bundle).

Context (Hfits : production_fits).

Lemma prior_steps_ends (Q : list H256 → Prop) : global_step_number (vdf_limiter_info prev) < sol_vdf_step sol →
  (∀ prior, Z.of_nat (length (prior ++ [sol_seed sol])) = sol_vdf_step sol - global_step_number (vdf_limiter_info prev) → Q prior) →
  ends Q failed False (prior_steps (rd_vdf_state reads) prev sol).
Proof.
  intros Hlt HQ. destruct Hfits as [[[] _ _ _ _] _ _ _ _ Hw Hstep _ _ _ _ _ _ _]. unfold prior_steps.
  rewrite checked_add_fits by lia. res_simpl. rewrite checked_sub_fits by lia. res_simpl.
  set (m := if _ <? _ then _ else _). destruct m as [prior|e|] eqn:Hm; cbn [ends].
  - apply HQ. by apply (produced_steps (λ _, Recoverable vdf_steps_unavailable) (rd_vdf_state reads) log prev sol prior Hw Hlt Hm).
  - subst m. case_match; [done|]. destruct (get_steps _ _ _) eqn:Hg; [done| |done]. injection Hm as <-. by eapply failed_steps.
  - subst m. case_match; [done|]. rewrite (get_steps_window _ log) in Hm by (done || lia). cbv zeta in Hm. by case_match.
Qed.

(** What a block has from production, besides its transactions. *)
Record built_on (es : EpochSnapshot) (address : Z) (b : ProducedBlock P) : Prop := {
  bo_header : Header.header_follows (po_header c) now s (pb_header b) prev;
  bo_fits : header_fits (pb_header b);
  bo_poa : poa_of es (rd_job_again reads) = Ok (Some (pb_poa b));
  bo_miner : sb_miner_address (pb_block b) = sol_mining_address sol;
  bo_address : sb_reward_address (pb_block b) = address;
  bo_height : lh_height (sb_header (pb_block b)) = hd_height (pb_header b);
  bo_time : sb_timestamp_secs (pb_block b) = to_secs (timestamp (pb_header b))
}.

Notation produce_block bundle := (produce_block_without_broadcasting c reads sol parent bundle ts).

(** Difficulty and cumulative difficulty of the new header. *)
Lemma difficulty_total : timestamp prev < ts →
  ∃ d st, (∀ E, calculate_difficulty (E := E) (hd_height prev + 1) (last_diff_timestamp prev) ts (diff prev) (difficulty_adjustment (po_header c)) = Ok (d, st)) ∧
    0 ≤ d < U256_MAX ∧
    bool_decide (is_Some st) = is_multiple_of (hd_height prev + 1) (difficulty_adjustment_interval (difficulty_adjustment (po_header c))).
Proof.
  intros Hlt. pose proof (pf_parent Hfits) as Hp. pose proof (pf_time Hfits).
  destruct (calculate_difficulty_total (E := PreValidationError) (difficulty_adjustment (po_header c)) (hd_height prev + 1) (last_diff_timestamp prev) ts (diff prev))
    as (d & st & Hd & Hdr & Hst & _); [apply Hc|apply Hp|destruct Hp; lia|lia|].
  exists d, st. split_and!; [|apply Hdr..|done]. intros E. by rewrite (calculate_difficulty_any (E := PreValidationError) (F := E)), Hd.
Qed.

Lemma produce_block_ends bundle reward evm_hash treasury address :
  solution_fits (po_header c) sol prev ts → mempool_txs = Ok bundle → bundle_roots_fit bundle →
  ends (λ o, match o with Some b => ∃ es, rd_epoch_snapshot_again reads = Some es ∧ built_on es address b | None => skipped end) failed False
    (produce_block bundle reward evm_hash s treasury address).
Proof.
  intros Hsol Hbundle (Hrp & Hrs & Hro & Hrt). pose proof Hfits as [Hp Hh _ [pl Hpub] [sl Hsub] _ Hstep Htp Ht Hsec Hdrift _ Hx Hcs].
  assert (timestamp prev < ts) as Hlt by (apply to_secs_lt; destruct Hp as [[] _ _ _ _]; lia || done).
  destruct (difficulty_total Hlt) as (d & st & Hd & Hdr & Hst). unfold produce_block_without_broadcasting. cbv zeta.
  eapply ends_total; [by apply checked_add_fits|]. eapply ends_total; [unfold chunk_size_divides; by rewrite (proj2 (Z.eqb_neq _ _) Hcs)|].
  rewrite Hpub. eapply ends_total; [done|]. eapply ends_total; [apply Hd|].
  eapply ends_total; [apply (next_cumulative_diff_eq (E := BlockProductionError) _ _ Hdr)|].
  apply ends_ok_or; [intros es Hes|by intros ?; apply failed_snapshot; right].
  apply ends_bind; [|by intros e [-> ?]%poa_fails; apply failed_poa; right|by intros ?%poa_no_panic]. intros [poa|] Hpoa; [|by apply (skipped_poa_again es)].
  pose proof (prior_steps_ends (λ prior, Z.of_nat (length (prior ++ [sol_seed sol])) = sol_vdf_step sol - global_step_number (vdf_limiter_info prev)) (sf_step _ _ _ _ Hsol) ltac:(done)) as Hprior.
  apply ends_bind; [|by intros e He; rewrite He in Hprior|by intros He; rewrite He in Hprior]. intros prior Hpr. rewrite Hpr in Hprior. cbn [ends] in Hprior.
  destruct (Z.eqb_spec (Header.num_blocks_in_epoch (po_header c)) 0); [destruct Hc; lia|]. rewrite andb_false_r. eapply ends_total; [done|].
  rewrite Hsub. eapply ends_total; [done|]. match goal with |- context [header_ledgers c bundle ?p ?k ?n ?m] => destruct (header_ledgers_total c bundle p k n m Hrp Hrs Hro Hrt) as [ledgers ->] end.
  eapply ends_total; [done|].
  destruct (produced_prices_validate (rd_oracle reads) (price_header prev) (to_secs (timestamp prev)) s (token_price_safe_range (po_header c)) (price_adjustment_interval (po_header c)))
    as [Hpos Hprices]; [apply Hp|apply Hc|done|].
  destruct (produced_follows (po_header c) Hc (E := BlockProductionError) now s prev sol (default [] (rd_signed_hash reads)) ts d st prior _ Hp (conj Hlt Hdrift) Hsol Hstep Hprior (Hd _) Hst Hprices)
    as (vdf & -> & Hvdf & Hfollows).
  eapply ends_total; [done|]. apply ends_ok_or; [intros hash Hhash|by intros ?; apply failed_signature]. rewrite Hhash in Hfollows.
  apply ends_bind; [|intros e He|].
  - intros txs _. cbn [ends]. exists es. split; [done|]. constructor; try done. destruct Hp as [[] _ _ _ _].
    constructor; cbn [pb_header hd_height timestamp vdf_limiter_info hd_oracle_irys_price]; [lia|lia|rewrite Hvdf; lia|lia].
  - pose proof (seal_block_fails _ _ _ _ _ He) as ->. by eapply failed_seal.
  - intros He. by apply seal_block_no_panic in He.
Qed.

(** ** The whole run *)

(** The amounts that the generator of a bundle computes with are of their types. *)
Definition bundle_amounts_fit (bundle : MempoolTxsBundle P) (reward : BlockRewardSplit) : Prop :=
  generator_fits (producer_input c bundle reward (to_secs ts) (sol_hash sol)) (publish_ledger bundle) (lh_treasury (ph_ledgers parent))
    (mb_aggregated_miner_fees bundle) (mb_commitment_refund_events bundle) (mb_unstake_refund_events bundle).

Lemma read_result_no_panic {E A} (r : E + A) : read_result r ≠ Panic.
Proof. by destruct r. Qed.
#[local] Hint Resolve read_result_no_panic : no_panic.

Lemma read_evm_block_no_panic left attempts : read_evm_block (rd_evm_block reads) left attempts ≠ Panic.
Proof.
  revert attempts. induction left as [|left IH]; intros attempts; [done|]. cbn [read_evm_block]. apply bind_no_panic; [auto with no_panic|].
  by intros [|]; [|apply IH].
Qed.
Lemma get_evm_block_no_panic : get_evm_block (rd_evm_block reads) (ph_ledgers parent) ≠ Panic.
Proof. unfold get_evm_block. apply bind_no_panic; [apply read_evm_block_no_panic|auto with no_panic]. Qed.

Lemma evm_block_no_panic evm bundle reward address : bundle_amounts_fit bundle reward →
  (∀ id bp, resolve_kind layer id = Some (inr bp) → is_Some (bp_v5 bp)) → evm_block_of evm bundle reward (to_secs ts) (sol_hash sol) address ≠ Panic.
Proof.
  intros Hfit Hv5. unfold create_evm_block. apply bind_no_panic.
  - apply map_err_no_panic. intros Hp. apply (new_collect_no_panic recover_proof_signer _ _ _ _ _ _ (mb_epoch_snapshot bundle) Hfit). unfold create_evm_block_txs in Hp.
    destruct (new _ _ _ _ _ _ _ _); [|done..]. revert Hp. res_simpl. by destruct (collect _).
  - intros [txs treasury]. apply bind_no_panic; [|done]. unfold build_and_submit_reth_payload. apply bind_no_panic; [apply ok_or_no_panic|]. intros sent.
    apply bind_no_panic; [auto with no_panic|]. intros id. destruct (resolve_kind layer id) as [[e|bp]|] eqn:Hbp; [done| |done]. res_simpl. cbn [read_result]. res_simpl.
    destruct (Hv5 id bp Hbp) as [data ->]. apply bind_no_panic; [apply guard_no_panic|]. intros _. res_simpl. unfold check_new_payload_status. auto with no_panic.
Qed.

End Outcome.

(** ** The ledgers of the header *)

Definition bundle_ledger {P} (bundle : MempoolTxsBundle P) (ledger : DataLedger) : list DataTx :=
  match ledger with
  | Publish => mb_publish_txs bundle
  | Submit => mb_submit_txs bundle
  | OneYear => mb_one_year_txs bundle
  | ThirtyDay => mb_thirty_day_txs bundle
  end.

Section HeaderLedgers.
  Context `{Sha256} {P : Type} (c : ProducerConfig) (bundle : MempoolTxsBundle P) (prev : LedgerHeader).
  Notation added txs := (producer_chunks_added txs (wc_chunk_size (po_walk c))).

(** The entry of a ledger in the header of a new block, without its root. *)
Definition expected_ledger (cascade : bool) (n m : Z) (ledger : DataLedger) : option (list Z * Z) :=
  match ledger with
  | Publish => Some (tx_ids (mb_publish_txs bundle), n)
  | Submit => Some (tx_ids (mb_submit_txs bundle), m)
  | OneYear => if cascade then Some (tx_ids (mb_one_year_txs bundle), saturating_add 64 (lh_total_chunks prev OneYear) (added (mb_one_year_txs bundle))) else None
  | ThirtyDay => if cascade then Some (tx_ids (mb_thirty_day_txs bundle), saturating_add 64 (lh_total_chunks prev ThirtyDay) (added (mb_thirty_day_txs bundle))) else None
  end.

Lemma header_ledgers_ok cascade n m ledgers : header_ledgers c bundle prev cascade n m = Ok ledgers →
  (∀ l, (λ dl, (tl_tx_ids dl, tl_total_chunks dl)) <$> List.find (λ dl, tl_ledger_id dl =? ledger_id l) ledgers.*1 = expected_ledger cascade n m l) ∧
  ∀ hash prev_hash height treasury evm ts miner address amount sh data,
    extract_data_ledgers (mkShadowBlock (mkLedgerHeader hash prev_hash height ledgers.*1 treasury evm) ledgers.*2 ts miner address amount sh data) cascade =
    Some (mb_publish_proofs bundle).
Proof.
  unfold header_ledgers. intros (p & (Hp & Hpi & Hpt)%data_ledger_of_ok & Hr)%bind_ok. apply bind_ok in Hr as (u & (Hu & Hui & Hut)%data_ledger_of_ok & Hr). destruct cascade.
  - apply bind_ok in Hr as (y & (Hy & Hyi & Hyt)%data_ledger_of_ok & Hr). apply bind_ok in Hr as (t & (Ht & Hti & Htt)%data_ledger_of_ok & [= <-]). split.
    + by intros []; cbn; rewrite ?Hp, ?Hu, ?Hy, ?Ht; cbn; rewrite ?Hpi, ?Hpt, ?Hui, ?Hut, ?Hyi, ?Hyt, ?Hti, ?Htt.
    + intros. unfold extract_data_ledgers. cbn. rewrite Hp, Hu, Hy, Ht. done.
  - injection Hr as <-. split.
    + by intros []; cbn; rewrite ?Hp, ?Hu; cbn; rewrite ?Hpi, ?Hpt, ?Hui, ?Hut.
    + intros. unfold extract_data_ledgers. cbn. by rewrite Hp, Hu.
Qed.

(** A sealed block has the transactions of the bundle. *)
Lemma seal_block_ok cascade n m ledgers valid txs (known : DataTx → Prop) : header_ledgers c bundle prev cascade n m = Ok ledgers →
  (∀ a b : DataTx, known a → known b → th_id a = th_id b → dt_header a = dt_header b) → (∀ l, Forall known (bundle_ledger bundle l)) →
  (∀ tx, known tx → known (clear_metadata tx)) →
  (cascade = false → mb_one_year_txs bundle = [] ∧ mb_thirty_day_txs bundle = []) →
  seal_block ledgers.*1 (match mb_commitment_txs bundle with [] => None | l => Some (tx_id <$> l) end) bundle valid = Ok txs →
  commitment_ledger_txs txs = mb_commitment_txs bundle ∧ ∀ l, data_ledger_txs txs l = dt_header <$> bundle_ledger bundle l.
Proof.
  intros [Hfind _]%header_ledgers_ok Hdet Hknown Hclear Hterm. unfold seal_block. cbv zeta. intros ([] & _ & Hs)%bind_ok. apply bind_ok in Hs as (data & Hdata & Hs).
  apply bind_ok in Hs as (coms & Hcoms & [= <-]). cbn [commitment_ledger_txs data_ledger_txs]. split.
  { destruct (order_commitments _ _) as [r| |] eqn:Ho; [|done..]. injection Hcoms as ->. exact (order_commitments_ok _ _ Ho). }
  destruct (order_transactions _ _) as [ordered| |] eqn:Ho; [|done..]. injection Hdata as ->. intros l.
  apply (headers_by_id known); [done| |done|].
  - apply Forall_forall. intros tx. eapply order_transactions_all; [|exact Ho]. rewrite Forall_fmap. eapply Forall_impl; [|exact Hclear].
    pose proof (Hknown Submit). pose proof (Hknown OneYear). pose proof (Hknown ThirtyDay). pose proof (Hknown Publish). rewrite !Forall_app. done.
  - apply order_transactions_ok in Ho as [_ ->]. specialize (Hfind l). destruct (List.find _ _) as [dl|]; cbn in Hfind |- *.
    + destruct l, cascade; cbn in Hfind |- *; try done; by injection Hfind.
    + destruct l, cascade; cbn in Hfind |- *; try done; destruct (Hterm eq_refl) as [Ho' Ht']; by rewrite ?Ho', ?Ht'.
Qed.
End HeaderLedgers.

(** ** Promotions *)

Section PromotionsOk.
  Context `{DupSort} {P : Type} (v : ExpiryView) (c : ProducerConfig) (reads : ProofReads P).

Lemma promote_unexpired promoted canonical tip range es txs selected out :
  promote v c reads promoted canonical tip (Some range) es txs selected = Ok out →
  Forall (λ tx : DataTx, submit_tx_expired v (po_walk c) (th_id tx) range = Ok false) selected.1 →
  Forall (λ tx : DataTx, submit_tx_expired v (po_walk c) (th_id tx) range = Ok false) out.1.
Proof.
  revert selected. induction txs as [|tx txs IH]; intros selected; cbn [promote]; [by intros [= <-]|].
  case_match; [by intros [= <-]|]. case_bool_decide; [by apply IH|]. intros (submitted & _ & Hr)%bind_ok. destruct submitted; cbn [negb] in Hr; [|by apply (IH selected)].
  apply bind_ok in Hr as (expired & Hexp & Hr). destruct expired; [by apply (IH selected)|]. apply bind_ok in Hr as (chosen & _ & Hr).
  destruct chosen as [ps|]; [|by apply (IH selected)]. intros Hsel. apply (IH _ Hr). cbn [fst]. apply Forall_app. split; [done|]. apply Forall_singleton.
  by destruct (submit_tx_expired _ _ _ _); [injection Hexp as ->|..].
Qed.

Lemma unexpired_accepted range (txs : list DataTx) : Forall (λ tx : DataTx, submit_tx_expired v (po_walk c) (th_id tx) range = Ok false) txs →
  reject_expired v (po_walk c) range (dt_header <$> txs) = Ok ().
Proof. induction 1 as [|tx txs Htx _ IH]; [done|]. rewrite fmap_cons. cbn [reject_expired]. rewrite Htx. done. Qed.
End PromotionsOk.

(** ** The node's own check of the block *)

Section Accepted.
  Context `{DupSort} `{Sha256} {P TxHash : Type} `{!EqDecision TxHash} (tx_hash : SignedTx → TxHash).
  Context (SHADOW_TX_DESTINATION_ADDR : list byte) (MINIMUM_GAS_LIMIT DEFAULT_TX_FEE_CAP_WEI : Z).
  Context (recover_proof_signer : P → option Z) (commitment_version : CommitmentTransaction → Z).
  Context (layer : ExecutionLayer) (v : ExpiryView) (c : ProducerConfig) (proofs : ProofReads P).
  Context (reads : Reads) (sol : SolutionContext) (parent : ParentHeader) (s : EmaSnapshot) (es : EpochSnapshot) (cs : CommitmentSnapshot).

  Notation prev := (ph_ledgers parent).
  Notation ts := (to_secs (rd_timestamp reads)).
  Notation config := (po_walk c).
  Notation mempool_txs := (get_mempool_txs v c proofs commitment_version (rd_selection reads) (rd_snapshots reads) prev ts).
  Notation poa_of es job := (create_poa_data sol job (assigned_ledger es (sol_partition_hash sol))).
  Notation reward_of := (block_reward_split config (po_reward_curve c) (po_block_time c) (hd_height (ph_header parent)) ts).
  Notation evm_block_of := (create_evm_block tx_hash SHADOW_TX_DESTINATION_ADDR MINIMUM_GAS_LIMIT DEFAULT_TX_FEE_CAP_WEI recover_proof_signer layer c prev).
  Notation produce :=
    (produce_block_with_parent tx_hash SHADOW_TX_DESTINATION_ADDR MINIMUM_GAS_LIMIT DEFAULT_TX_FEE_CAP_WEI recover_proof_signer commitment_version layer v c
       proofs reads sol parent s).
  Notation added txs := (producer_chunks_added txs (wc_chunk_size config)).

(** The snapshots that are read are those of the parent, and the derive job of the solution
    has one result. *)
Record reads_agree : Prop := {
  ra_first x : rd_epoch_snapshot reads = Some x → x = es;
  ra_again x : rd_epoch_snapshot_again reads = Some x → x = es;
  ra_selection sel : rd_selection reads = inr sel → sel_epoch_snapshot sel = es;
  ra_parents x : rd_snapshots reads = Some x → x = (es, cs);
  ra_job p p' : resolved_path sol (rd_job reads) = inr p → resolved_path sol (rd_job_again reads) = inr p' → p' = p
}.
Context (Hreads : reads_agree).

(** What the steps of a run have computed. *)
Record produced (b : ProducedBlock P) (payload : EthBuiltPayload) (evm : EvmParent) (bundle : MempoolTxsBundle P) (reward : BlockRewardSplit) (treasury : Z)
    (ledgers : list (DataTransactionLedger * (option (list P) * option Z))) : Prop := {
  pd_bundle : mempool_txs = Ok bundle;
  pd_reward : reward_of (negb (is_data_poa (pb_poa b))) = Ok reward;
  pd_evm : evm_block_of evm bundle reward ts (sol_hash sol) (resolve_reward_address es (sol_mining_address sol)) = Ok (payload, treasury);
  pd_ledgers : ∃ n, header_ledgers c bundle prev (epoch_cascade (wc_epoch config) es) n
    (saturating_add 64 (lh_total_chunks prev Submit) (added (mb_submit_txs bundle))) = Ok ledgers;
  pd_seal : seal_block ledgers.*1 (match mb_commitment_txs bundle with [] => None | t :: l => Some (tx_id <$> t :: l) end) bundle (rd_signatures_valid reads) =
    Ok (pb_transactions b);
  pd_block : ∃ hash, pb_block b =
    mkShadowBlock (mkLedgerHeader hash (lh_block_hash prev) (hd_height (ph_header parent) + 1) ledgers.*1 treasury (bp_hash payload)) ledgers.*2 ts
      (sol_mining_address sol) (resolve_reward_address es (sol_mining_address sol)) (split_miner reward) (sol_hash sol) (is_data_poa (pb_poa b))
}.

Lemma poa_twice poa poa' : poa_of es (rd_job reads) = Ok (Some poa) → poa_of es (rd_job_again reads) = Ok (Some poa') → poa' = poa.
Proof.
  assert (∀ job q, poa_of es job = Ok (Some q) → assemble_poa sol job (assigned_ledger es (sol_partition_hash sol)) = Some q) as Hof.
  { intros job q. unfold create_poa_data. intros (built & Hb & Hq)%bind_ok. destruct (_ || _); [|done]. injection Hb as <-.
    destruct (assemble_poa _ _ _) as [r|]; [|done]. by destruct (poa_has_paths_without_ledger r); [|injection Hq as ->]. }
  intros H1%Hof H2%Hof. unfold assemble_poa in H1, H2. destruct (resolved_path sol (rd_job reads)) as [|p] eqn:Hp; [done|].
  destruct (resolved_path sol (rd_job_again reads)) as [|p'] eqn:Hp'; [done|]. rewrite (ra_job Hreads p p' Hp Hp') in H2. congruence.
Qed.

Lemma produce_block_inv (bundle : MempoolTxsBundle P) reward evm_hash treasury address b : produce_block_without_broadcasting c reads sol parent bundle (rd_timestamp reads) reward evm_hash s treasury address = Ok (Some b) →
  rd_epoch_snapshot_again reads = Some es ∧ poa_of es (rd_job_again reads) = Ok (Some (pb_poa b)) ∧
  ∃ n hash ledgers, header_ledgers c bundle prev (epoch_cascade (wc_epoch config) es) n (saturating_add 64 (lh_total_chunks prev Submit) (added (mb_submit_txs bundle))) = Ok ledgers ∧
    seal_block ledgers.*1 (match mb_commitment_txs bundle with [] => None | t :: l => Some (tx_id <$> t :: l) end) bundle (rd_signatures_valid reads) = Ok (pb_transactions b) ∧
    pb_block b = mkShadowBlock (mkLedgerHeader hash (lh_block_hash prev) (hd_height (ph_header parent) + 1) ledgers.*1 treasury evm_hash) ledgers.*2 ts
      (sol_mining_address sol) address reward (sol_hash sol) (is_data_poa (pb_poa b)).
Proof.
  unfold produce_block_without_broadcasting. cbv zeta. intros (height & Hh & Hr)%bind_ok. apply bind_ok in Hr as ([] & _ & Hr). apply bind_ok in Hr as (pl & _ & Hr).
  apply bind_ok in Hr as (d & _ & Hr). apply bind_ok in Hr as (cum & _ & Hr). apply bind_ok in Hr as (es' & Hes & Hr).
  destruct (rd_epoch_snapshot_again reads) as [x|] eqn:Hx; [|done]. injection Hes as ->. rewrite (ra_again Hreads _ Hx) in *.
  apply bind_ok in Hr as ([poa|] & Hpoa & Hr); [|done]. apply bind_ok in Hr as (prior & _ & Hr). apply bind_ok in Hr as ([] & _ & Hr). apply bind_ok in Hr as (sl & Hsl & Hr).
  apply bind_ok in Hr as (ledgers & Hled & Hr). apply bind_ok in Hr as (vdf & _ & Hr). apply bind_ok in Hr as (hash & _ & Hr). apply bind_ok in Hr as (txs & Hseal & [= <-]).
  assert (height = hd_height (ph_header parent) + 1) as -> by (unfold checked_add in Hh; by destruct (_ <? _); [injection Hh|]).
  assert (tl_total_chunks sl = lh_total_chunks prev Submit) as Htot by (unfold lh_total_chunks; by destruct (ledger_of_header prev Submit); [injection Hsl as ->|]).
  rewrite Htot in Hled. split_and!; [done|done|]. by eexists _, _, ledgers.
Qed.

Lemma produce_inv b payload : produce = Ok (Some (b, payload)) → ∃ evm bundle reward treasury ledgers, produced b payload evm bundle reward treasury ledgers.
Proof.
  unfold produce_block_with_parent. cbv zeta. case_match; [done|]. case_match; [done|]. intros (es1 & Hes1 & Hr)%bind_ok.
  destruct (rd_epoch_snapshot reads) as [x|] eqn:Hx; [|done]. injection Hes1 as ->. rewrite (ra_first Hreads _ Hx) in *.
  destruct (poa_partition_is_owned_by_miner _ _ _); [|done..]. apply bind_ok in Hr as (evm & _ & Hr). case_bool_decide; [|done]. cbn [negb] in Hr.
  apply bind_ok in Hr as (bundle & Hbundle & Hr). apply bind_ok in Hr as ([poa|] & Hpoa & Hr); [|done]. apply bind_ok in Hr as (reward & Hreward & Hr).
  apply bind_ok in Hr as ([payload' treasury] & Hevm & Hr). apply bind_ok in Hr as ([b'|] & Hb & Hr); [|done]. injection Hr as -> ->.
  apply produce_block_inv in Hb as (_ & Hpoa' & n & hash & ledgers & Hled & Hseal & Hblock). pose proof (poa_twice _ _ Hpoa Hpoa') as Heq.
  exists evm, bundle, reward, treasury, ledgers. constructor; [| |done|by exists n|done|by exists hash].
  - by destruct mempool_txs; [injection Hbundle as ->|..].
  - rewrite Heq. by destruct (reward_of _); [injection Hreward as ->|..].
Qed.

(** ** The generator of the validator *)

Lemma mempool_inv bundle : mempool_txs = Ok bundle → ∃ sel,
  rd_selection reads = inr sel ∧ sel_epoch_snapshot sel = es ∧ mb_epoch_snapshot bundle = es ∧
  get_publish_txs_and_proofs v c proofs sel prev ts = Ok (mb_publish_txs bundle, mb_publish_proofs bundle) ∧
  mb_submit_txs bundle = merge_sort tx_le (sel_submit sel) ∧ mb_one_year_txs bundle = merge_sort tx_le (sel_one_year sel) ∧
  mb_thirty_day_txs bundle = merge_sort tx_le (sel_thirty_day sel) ∧
  if is_multiple_of (lh_height prev + 1) (ec_num_blocks_in_epoch (wc_epoch config)) then
    mb_commitment_txs_to_bill bundle = [] ∧
    calculate_all_expired_ledger_fees v config es prev (lh_height prev + 1) (cascade_for_block (wc_epoch config) ts) (epoch_cascade (wc_epoch config) es)
      (new_total_chunks c sel prev) = Ok (mb_aggregated_miner_fees bundle) ∧
    derive_unpledge_refunds_from_snapshot cs (po_prices c) = Ok (mb_commitment_refund_events bundle) ∧
    mb_unstake_refund_events bundle = derive_unstake_refunds_from_snapshot cs (po_prices c)
  else
    mb_commitment_txs_to_bill bundle = mb_commitment_txs bundle ∧ mb_aggregated_miner_fees bundle = empty_delta ∧ mb_commitment_refund_events bundle = [] ∧
    mb_unstake_refund_events bundle = [].
Proof.
  unfold get_mempool_txs. cbv zeta. intros (sel & Hsel & Hr)%bind_ok. destruct (rd_selection reads) as [|sel'] eqn:Hs; [done|]. injection Hsel as ->.
  apply bind_ok in Hr as ([txs ps] & Hpub & Hr). apply bind_ok in Hr as (height & Hh & Hr). apply bind_ok in Hr as ([es' cs'] & Hp & Hr).
  assert (height = lh_height prev + 1) as -> by (unfold checked_add in Hh; by destruct (_ <? _); [injection Hh|]).
  assert (es' = es ∧ cs' = cs) as [-> ->] by (destruct (rd_snapshots reads) as [x|] eqn:Hx; [|done]; injection Hp as ->; by injection (ra_parents Hreads _ Hx)).
  exists sel. pose proof (ra_selection Hreads sel Hs) as Hes. destruct (is_multiple_of _ _); cbn [negb] in Hr.
  - apply bind_ok in Hr as (fees & Hf & Hr). apply bind_ok in Hr as (refunds & Hu & [= <-]). unfold producer_expired_ledger_fees in Hf. apply bind_ok in Hf as ([] & _ & Hf).
    cbn. split_and!; try done; [by destruct (calculate_all_expired_ledger_fees _ _ _ _ _ _ _ _); [injection Hf as ->|..]|by destruct (derive_unpledge_refunds_from_snapshot _ _); [injection Hu as ->|..]].
  - injection Hr as <-. cbn. by split_and!.
Qed.

(** The settlement reads the totals of three ledgers. *)
Lemma settle_totals_ext height cascade cascade' f g : f Submit = g Submit → (cascade' = true → f OneYear = g OneYear ∧ f ThirtyDay = g ThirtyDay) →
  calculate_all_expired_ledger_fees v config es prev height cascade cascade' f = calculate_all_expired_ledger_fees v config es prev height cascade cascade' g.
Proof. intros Hs Ht. unfold calculate_all_expired_ledger_fees. rewrite Hs. destruct cascade'; [|done]. destruct (Ht eq_refl) as [-> ->]. done. Qed.

(** What ties the parent and the transactions of the bundle together: the node has the parent,
    whose two views are of one height; ids determine transactions; there are no transactions
    of term ledgers before Cascade. *)
Record node_consistent (bundle : MempoolTxsBundle P) : Prop := {
  nc_parent : get_block_header v (lh_block_hash prev) = Some prev;
  nc_height : lh_height prev = hd_height (ph_header parent);
  nc_ids : ∀ l l' (a b : DataTx), a ∈ bundle_ledger bundle l → b ∈ bundle_ledger bundle l' → th_id a = th_id b → dt_header a = dt_header b;
  nc_term : epoch_cascade (wc_epoch config) es = false → mb_one_year_txs bundle = [] ∧ mb_thirty_day_txs bundle = []
}.

Lemma sealed_txs b payload evm bundle reward treasury ledgers : produced b payload evm bundle reward treasury ledgers → node_consistent bundle →
  commitment_ledger_txs (pb_transactions b) = mb_commitment_txs bundle ∧ ∀ l, data_ledger_txs (pb_transactions b) l = dt_header <$> bundle_ledger bundle l.
Proof.
  intros [_ _ _ [n Hled] Hseal _] Hnc.
  eapply (seal_block_ok c bundle prev _ _ _ ledgers (rd_signatures_valid reads) (pb_transactions b) (λ tx, ∃ l tx', tx' ∈ bundle_ledger bundle l ∧ dt_header tx = dt_header tx') Hled); [..|done].
  - intros a b' (l & a' & Ha & ->) (l' & b'' & Hb & ->). by apply (nc_ids _ Hnc l l').
  - intros l. apply Forall_forall. eauto.
  - eauto.
  - apply Hnc.
Qed.

Lemma no_expired_promotions b payload evm bundle reward treasury ledgers range : produced b payload evm bundle reward treasury ledgers →
  submit_range config (lh_height prev + 1) es prev (cascade_for_block (wc_epoch config) ts) = Ok (Some range) →
  reject_expired v config range (dt_header <$> mb_publish_txs bundle) = Ok ().
Proof.
  intros [Hbundle _ _ _ _ _] Hrange. destruct (mempool_inv _ Hbundle) as (sel & _ & Hes & _ & Hpub & _). apply unexpired_accepted.
  unfold get_publish_txs_and_proofs in Hpub. cbv zeta in Hpub. apply bind_ok in Hpub as (height & Hh & Hpub).
  assert (height = lh_height prev + 1) as -> by (unfold checked_add in Hh; by destruct (_ <? _); [injection Hh|]).
  rewrite Hes, Hrange in Hpub. res_simpl in Hpub. apply bind_ok in Hpub as (promoted & _ & Hpub). apply bind_ok in Hpub as (out & Hout & [= <- _]).
  by eapply promote_unexpired.
Qed.

Lemma range_computed bundle : mempool_txs = Ok bundle →
  ∃ r, submit_range config (lh_height prev + 1) es prev (cascade_for_block (wc_epoch config) ts) = Ok r.
Proof.
  intros Hbundle. destruct (mempool_inv _ Hbundle) as (sel & _ & Hes & _ & Hpub & _). unfold get_publish_txs_and_proofs in Hpub. cbv zeta in Hpub.
  apply bind_ok in Hpub as (height & Hh & Hpub). assert (height = lh_height prev + 1) as -> by (unfold checked_add in Hh; by destruct (_ <? _); [injection Hh|]).
  rewrite Hes in Hpub. apply bind_ok in Hpub as (r & Hr & _). exists r. by destruct (submit_range _ _ _ _ _); [injection Hr as ->|..].
Qed.

(** The totals that the validator reads from the header are those that the producer settles with. *)
Lemma totals_agree b payload evm bundle reward treasury ledgers sel hash ph h t e : produced b payload evm bundle reward treasury ledgers →
  mb_submit_txs bundle = merge_sort tx_le (sel_submit sel) → mb_one_year_txs bundle = merge_sort tx_le (sel_one_year sel) →
  mb_thirty_day_txs bundle = merge_sort tx_le (sel_thirty_day sel) →
  ∀ height cascade, calculate_all_expired_ledger_fees v config es prev height cascade (epoch_cascade (wc_epoch config) es)
      (lh_total_chunks (mkLedgerHeader hash ph h ledgers.*1 t e)) =
    calculate_all_expired_ledger_fees v config es prev height cascade (epoch_cascade (wc_epoch config) es) (new_total_chunks c sel prev).
Proof.
  intros [_ _ _ [n [Hfind _]%header_ledgers_ok] _ _] Hs Ho Ht height cascade.
  assert (∀ l, lh_total_chunks (mkLedgerHeader hash ph h ledgers.*1 t e) l =
    default 0 (snd <$> expected_ledger c bundle prev (epoch_cascade (wc_epoch config) es) n (saturating_add 64 (lh_total_chunks prev Submit) (added (mb_submit_txs bundle))) l)) as Htot.
  { intros l. rewrite <- Hfind. unfold lh_total_chunks, ledger_of_header. cbn [lh_data_ledgers]. by destruct (List.find _ _). }
  apply settle_totals_ext; [by rewrite Htot; cbn; rewrite Hs|]. intros Hcas. rewrite !Htot, Hcas. cbn. by rewrite Ho, Ht.
Qed.

(** The validator builds the generator that the producer built. *)
Lemma validator_agrees b payload evm bundle reward treasury ledgers : produced b payload evm bundle reward treasury ledgers → node_consistent bundle →
  validator_generator recover_proof_signer v config (po_prices c) (po_reward_curve c) (po_block_time c) (pb_block b) es cs (pb_transactions b) =
  map_err classify_shadow_tx_gen_err
    (new recover_proof_signer (producer_input c bundle reward ts (sol_hash sol)) (publish_ledger bundle) (lh_treasury prev) (mb_aggregated_miner_fees bundle)
       (mb_commitment_refund_events bundle) (mb_unstake_refund_events bundle) es).
Proof.
  intros Hpd Hnc. destruct (sealed_txs _ _ _ _ _ _ _ Hpd Hnc) as [Hcom Hdata]. destruct (pd_block _ _ _ _ _ _ _ Hpd) as [hash Hb].
  destruct (pd_ledgers _ _ _ _ _ _ _ Hpd) as [n [_ Hext]%header_ledgers_ok]. pose proof (pd_bundle _ _ _ _ _ _ _ Hpd) as Hbundle.
  destruct (mempool_inv _ Hbundle) as (sel & _ & _ & _ & _ & Hs & Ho & Ht & Hepoch). destruct (range_computed _ Hbundle) as [r Hr].
  unfold validator_generator, generator_input. rewrite Hb. cbv zeta. cbn [sb_header lh_previous_block_hash lh_height sb_timestamp_secs sb_is_data_poa sb_reward_amount sb_solution_hash].
  rewrite (nc_parent _ Hnc). res_simpl. rewrite Hext. res_simpl. rewrite <- (nc_height _ Hnc). rewrite (Hdata Publish). cbn [pl_txs bundle_ledger].
  rewrite (totals_agree _ _ _ _ _ _ _ sel _ _ _ _ _ Hpd Hs Ho Ht). rewrite Hr.
  assert (match r with Some range => reject_expired v config range (dt_header <$> mb_publish_txs bundle) | None => Ok () end = Ok ()) as Hrej
    by (destruct r as [range|]; [by eapply no_expired_promotions|done]).
  assert (block_reward_split config (po_reward_curve c) (po_block_time c) (lh_height prev) ts (negb (is_data_poa (pb_poa b))) = Ok reward) as Hrew
    by (rewrite (nc_height _ Hnc); apply Hpd).
  destruct (is_multiple_of _ _).
  - destruct Hepoch as (Hbill & -> & -> & Hun). unfold node_fault. res_simpl. rewrite Hrej. res_simpl. rewrite Hrew. res_simpl. by rewrite !Hdata, Hun, <- Hbill.
  - destruct Hepoch as (Hbill & -> & -> & ->). unfold node_fault. res_simpl. rewrite Hrej. res_simpl. rewrite Hrew. res_simpl. by rewrite !Hdata, Hcom, <- Hbill.
Qed.

(** ** The payload *)

Context (evm_number : Z → Z).

(** What the execution layer documents of a payload that it builds, without blobs and requests:
    it has the attributes, its number is the one after its parent's ([evm_number] gives the
    numbers of EVM blocks), and behind the shadow transactions come those of a pool that admits
    neither shadow transactions nor blobs. *)
Record builds (attributes : IrysPayloadAttributes) (bp : EthBuiltPayload) (data : ExecutionData) : Prop := {
  bu_v3 : ep_is_v3 data = true;
  bu_withdrawals : ep_withdrawals data = default [] (at_withdrawals attributes);
  bu_blob_gas : ep_blob_gas_used data = 0;
  bu_excess_blob_gas : ep_excess_blob_gas data = 0;
  bu_versioned_hashes : default [] (ep_versioned_hashes data) = [];
  bu_requests : default [] (ep_requests data) = [];
  bu_timestamp : ep_timestamp data = at_timestamp attributes;
  bu_parent : ep_parent_hash data = at_parent attributes;
  bu_number : ep_block_number data = evm_number (at_parent attributes) + 1;
  bu_hash : ep_block_hash data = bp_hash bp;
  bu_root : ep_parent_beacon_block_root data = at_parent_beacon_block_root attributes;
  bu_block : ep_block data = Some (mkEvmBlock (at_suggested_fee_recipient attributes) None (bp_transactions bp));
  bu_pool rest : bp_transactions bp = at_shadow_txs attributes ++ rest →
    Forall (λ tx, plain SHADOW_TX_DESTINATION_ADDR (stx_env tx) ∧ tx_type_id (stx_env tx) ≠ EIP4844_TX_TYPE_ID) rest
}.
Definition layer_builds : Prop := ∀ attributes id bp data,
  send_new_payload layer attributes = Some (inr id) → resolve_kind layer id = Some (inr bp) → bp_v5 bp = Some data → builds attributes bp data.

(** A submitted payload starts with the shadow transactions. *)
Lemma submitted_payload timestamp shadow_txs mix address bp : Inj (=) (=) tx_hash → layer_builds →
  build_and_submit_reth_payload tx_hash layer prev timestamp shadow_txs mix address = Ok bp →
  ∃ data rest, bp_v5 bp = Some data ∧ bp_transactions bp = shadow_txs ++ rest ∧
    builds (mkPayloadAttributes (lh_evm_block_hash prev) timestamp mix address None (Some (lh_block_hash prev)) shadow_txs) bp data.
Proof.
  intros Hinj Hlayer. unfold build_and_submit_reth_payload. cbv zeta. destruct (send_new_payload layer _) as [[e|id]|] eqn:Hsend; [done| |done]. res_simpl. cbn [read_result]. res_simpl.
  destruct (resolve_kind layer id) as [[e|bp']|] eqn:Hres; [done| |done]. res_simpl. cbn [read_result]. res_simpl. intros ([] & Hpre & Hr)%bind_ok.
  destruct (bp_v5 bp') as [data|] eqn:Hv5; [|done]. res_simpl in Hr. apply bind_ok in Hr as (status & _ & Hr). apply bind_ok in Hr as ([] & _ & [= ->]).
  exists data, (drop (length shadow_txs) (bp_transactions bp)). split_and!; [done| |by eapply Hlayer].
  unfold ensure_payload_starts_with_shadow_txs in Hpre. apply guard_err_ok, negb_false_iff, bool_decide_eq_true in Hpre. rewrite length_fmap, <- fmap_take in Hpre.
  apply (inj (fmap tx_hash)) in Hpre. by rewrite <- Hpre at 1; rewrite take_drop.
Qed.

Lemma produced_payload_valid b payload evm bundle reward treasury ledgers data shadow_txs : produced b payload evm bundle reward treasury ledgers → node_consistent bundle →
  evm_number (lh_evm_block_hash prev) = lh_height prev →
  builds (mkPayloadAttributes (lh_evm_block_hash prev) ts (ev_mix_hash evm) (resolve_reward_address es (sol_mining_address sol)) None (Some (lh_block_hash prev)) shadow_txs) payload data →
  payload_is_valid v (pb_block b) data = Ok ().
Proof.
  intros Hpd Hnc Hnum [Hv3 Hw Hbg Heb Hvh Hrq Hts Hpar Hno Hhash Hroot _ _]. destruct (pd_block _ _ _ _ _ _ _ Hpd) as [hash ->].
  unfold payload_is_valid, reject. cbv zeta. cbn [sb_header sb_timestamp_secs lh_previous_block_hash lh_height lh_evm_block_hash].
  rewrite Hv3, Hw, Hbg, Heb, Hvh, Hrq, Hts, Hpar, Hno, Hhash, Hroot, (nc_parent _ Hnc). res_simpl. cbn [at_withdrawals at_timestamp at_parent at_parent_beacon_block_root default from_option id].
  rewrite Hnum, (nc_height _ Hnc), !Z.eqb_refl, !bool_decide_eq_true_2 by done. done.
Qed.

(** C17: A block that production returns passes, on the node that built it, the reward checks of
    prevalidation and the whole check of shadow transactions: the payload that the producer
    submits is valid for the header, and the shadow transactions and the treasury that the
    validator derives from the header, the sealed transactions and the parent's snapshots are
    those that the producer put into the payload and the header.  Of the node it is assumed
    that the snapshots it reads are the parent's and the derive job has one result
    ([reads_agree]), that it has the parent, that ids determine the selected transactions, that
    it selects none of term ledgers before Cascade ([node_consistent]), that the solution is of
    its own signer, and that amounts are of their types.  The execution layer is assumed to
    build the payload that it is asked for, without further shadow or blob transactions
    ([layer_builds]), on a parent whose EVM block has the parent's height, and its transaction
    hashes not to collide. *)
Theorem produced_block_accepted b payload :
  produce = Ok (Some (b, payload)) → Inj (=) (=) tx_hash → layer_builds → evm_number (lh_evm_block_hash prev) = lh_height prev →
  (∀ bundle, mempool_txs = Ok bundle → node_consistent bundle) → sol_mining_address sol = po_signer c → length (sol_hash sol) = 32%nat →
  config_fits config (po_prices c) (po_reward_curve c) (po_block_time c) → block_inputs_fit config v cs (pb_transactions b) →
  0 ≤ lh_height prev → 0 ≤ lh_treasury prev < 2 ^ 256 →
  prevalidate_reward config (po_reward_curve c) (po_block_time c) (pb_block b) (lh_height prev) es = Ok () ∧
  ∃ data, bp_v5 payload = Some data ∧
    shadow_transactions_are_valid SHADOW_TX_DESTINATION_ADDR recover_proof_signer v config (po_prices c) (po_reward_curve c) (po_block_time c) (pb_block b) data es cs
      (pb_transactions b) = Ok ().
Proof.
  intros (evm & bundle & reward & treasury & ledgers & Hpd)%produce_inv Hinj Hlayer Hnum Hnc Hsigner Hlen Hcfg Hfit Hh Htr.
  specialize (Hnc _ (pd_bundle _ _ _ _ _ _ _ Hpd)). pose proof (validator_agrees _ _ _ _ _ _ _ Hpd Hnc) as Hval. pose proof Hpd as [Hbundle Hrew Hevm _ _ [hash Hb]].
  rewrite <- (nc_height _ Hnc) in Hrew. split.
  { unfold prevalidate_reward. rewrite Hb. cbn. rewrite Hrew. res_simpl. rewrite !Z.eqb_refl. done. }
  unfold create_evm_block in Hevm. apply bind_ok in Hevm as ([txs treasury'] & Hgen & Hevm). apply bind_ok in Hevm as (bp & Hbp & [= -> ->]).
  destruct (submitted_payload _ _ _ _ _ Hinj Hlayer Hbp) as (data & rest & Hv5 & Htxs & Hbuilds). exists data. split; [done|].
  destruct (mempool_inv _ Hbundle) as (_ & _ & _ & Hmes & _). rewrite Hmes in Hgen.
  destruct (create_evm_block_txs _ _ _ _ _ _ _ _ _ _ _ _) as [out| |] eqn:Hout; [|done..]. injection Hgen as ->.
  pose proof Hout as (g & Hnew & Hcol)%bind_ok. rewrite Hnew in Hval. cbn [map_err] in Hval.
  destruct (validator_generator_ok recover_proof_signer config (po_prices c) (po_reward_curve c) (po_block_time c) Hcfg v es cs (pb_transactions b) (pb_block b) prev g)
    as (reward' & publish & delta & unpledges & unstakes & _ & Hgfit & Hnew'); [done|rewrite Hb; apply Hnc|done|done| |exact Hval|].
  { destruct (reward_split_ok config (po_prices c) (po_reward_curve c) (po_block_time c) Hcfg _ _ _ _ Hh Hrew) as (Hr & _). by rewrite Hb. }
  eapply (generated_block_accepted recover_proof_signer SHADOW_TX_DESTINATION_ADDR MINIMUM_GAS_LIMIT DEFAULT_TX_FEE_CAP_WEI (po_chain_id c)); try exact Hgfit.
  - unfold create_evm_block_txs. rewrite Hnew'. exact Hcol.
  - done.
  - by rewrite Hb.
  - by rewrite Hnew'.
  - by rewrite Hb.
  - by eapply produced_payload_valid.
  - apply Hbuilds.
  - by rewrite Hb.
  - done.
  - cbn [eb_transactions]. rewrite Htxs, Hb. cbn [sb_miner_address]. by rewrite Hsigner.
  - by apply Hbuilds.
Qed.
End Accepted.

(** ** An example *)

(** The epoch block on the chain of [ExpiryExample]: miner 1 has found a chunk of its Submit
    partition 2, the transaction path is stored just after the wait for it has timed out, and
    the node promotes an upload, settles expired slots and refunds commitments. *)
Module ProducerExample.

#[local] Existing Instance EpochExample.toy_sha256.
#[local] Existing Instance ExpiryExample.put_order.

Definition header_config : HeaderConfig :=
  mkHeaderConfig (mkDifficultyAdjustmentConfig 10 1 (Some 400) (Some 25)) 15000 2 2 (Some 0) 100000 10.
Definition config : ProducerConfig :=
  mkProducerConfig header_config TreasuryExample.config TreasuryExample.prices TreasuryExample.reward_curve TreasuryExample.block_time 1270 1 None None 5 1.

Definition parent : ParentHeader :=
  mkParentHeader
    (mkHeader (be_bytes 32 105) 5 1000 1 5000 (be_bytes 32 9) (be_bytes 32 0) (be_bytes 32 0) 0 [] 0 990000
       (mkVDFLimiterInfo (be_bytes 32 21) 1 (be_bytes 32 3) (be_bytes 32 4) (be_bytes 32 0) [be_bytes 32 21]) (10 ^ 18) (10 ^ 18))
    ExpiryExample.b5.
Definition snap : EmaSnapshot := EmaSnapshot_genesis (price_header (ph_header parent)).
Definition chunk : list byte := repeat x05 32.
Definition solution : SolutionContext :=
  mkSolutionContext 2 42 1 Derive (Some [x02]) chunk 3 (be_bytes 32 23) (compute_solution_hash chunk 42 (be_bytes 32 23) true).

Definition data_tx (h : DataTransactionHeader) : DataTx := mkDataTx h 0 0 (Some 7).
Definition selection : Selection :=
  mkSelection [] [data_tx TreasuryExample.tx5] [data_tx TreasuryExample.tx6] [] ExpiryExample.epoch [14] 5 [data_tx ExpiryExample.tx4].
(** Miners 3 and 4 are staked; the third proof is again of miner 3. *)
Definition proof_reads : ProofReads Z :=
  mkProofReads (λ _, inr [mkCachedProof 3 3; mkCachedProof 4 4; mkCachedProof 5 3]) (λ _, false) (λ _, inr true) (λ ps _, Some (take 1 ps, 1%nat)) id.

Definition path : option (list byte) := Some [x01].
Definition node_reads : Reads :=
  mkReads (Some ExpiryExample.epoch) (λ attempt, inr (if (attempt =? 2)%nat then Some (mkEvmParent 1105 8) else None)) 1000500 (inr selection)
    (Some (ExpiryExample.epoch, TreasuryExample.commitments)) (mkJobReads None (inl TxPathTimedOut) (Some (inr path)) true) (Some ExpiryExample.epoch)
    (mkJobReads (Some (inr path)) (inr path) (Some (inr path)) true)
    (mkVdfState 3 10 [be_bytes 32 21; be_bytes 32 22; be_bytes 32 23] 1 0) (Some (2 * 10 ^ 18, 1000)) (Some (be_bytes 32 106)) true.
Definition version (tx : CommitmentTransaction) : Z := 1.

Notation mempool_txs := (get_mempool_txs ExpiryExample.node config proof_reads version (rd_selection node_reads) (rd_snapshots node_reads) (ph_ledgers parent) (to_secs (rd_timestamp node_reads))).
Definition bundle : MempoolTxsBundle Z :=
  match mempool_txs with Ok b => b | _ => mkBundle [] [] [] [] [] [] None empty_delta [] [] ExpiryExample.epoch end.
Definition reward : BlockRewardSplit :=
  match block_reward_split TreasuryExample.config TreasuryExample.reward_curve TreasuryExample.block_time 5 1000 false with Ok r => r | _ => mkBlockRewardSplit 0 0 end.
Definition generated_txs : list TxEip1559 :=
  match create_evm_block_txs TreasuryExample.destination 21000 1000 1270 TreasuryExample.recover (producer_input config bundle reward 1000 (sol_hash solution))
          (publish_ledger bundle) 1000000 (mb_aggregated_miner_fees bundle) (mb_commitment_refund_events bundle) (mb_unstake_refund_events bundle) ExpiryExample.epoch with
  | Ok r => r.1
  | _ => []
  end.

(** The execution layer: it knows the one request. *)
#[local] Instance TxEnv_eq_dec : EqDecision TxEnv.
Proof. solve_decision. Defined.
#[local] Instance SignedTx_eq_dec : EqDecision SignedTx.
Proof. solve_decision. Defined.
#[local] Instance attributes_eq_dec : EqDecision IrysPayloadAttributes.
Proof. solve_decision. Defined.

Definition attributes : IrysPayloadAttributes := mkPayloadAttributes 1105 1000 8 1 None (Some 105) (signed 1 <$> generated_txs).
Definition evm_txs : list SignedTx := (signed 1 <$> generated_txs) ++ [TreasuryExample.other_tx].
Definition payload : ExecutionData :=
  mkExecutionData true [] 0 0 None None 1000 1105 6 1106 (Some 105) (Some (mkEvmBlock 1 None evm_txs)).
Definition built : EthBuiltPayload := mkBuiltPayload 1106 evm_txs (Some payload).
Definition layer : ExecutionLayer :=
  mkExecutionLayer (λ a, if bool_decide (a = attributes) then Some (inr 1) else None) (λ _, Some (inr built)) (λ _, Some PayloadValid).
Definition evm_number (hash : Z) : Z := hash - 1100.

Notation produce :=
  (produce_block_with_parent id TreasuryExample.destination 21000 1000 TreasuryExample.recover version layer ExpiryExample.node config proof_reads node_reads solution parent snap).

(** ** Witnesses *)

Lemma bundle_computed : mempool_txs = Ok bundle.
Proof. vm_compute. reflexivity. Qed.

Lemma is_bundle b : mempool_txs = Ok b → b = bundle.
Proof.
  assert (∀ x y : MempoolTxsBundle Z, (Ok x : result TxSelectorError _) = Ok y → y = x) as Hok by congruence. rewrite bundle_computed. apply Hok.
Qed.

Lemma header_config_good : header_config_ok header_config.
Proof.
  constructor; cbn; [|lia..]. unfold difficulty_config_ok. cbn. split_and!; [lia..| |]; eexists; (split; [done|lia]).
Qed.

Lemma run_fits : production_fits config node_reads solution parent (3, λ k, be_bytes 32 (20 + k)) 1000000.
Proof.
  constructor.
  - constructor; [constructor; cbn; lia|by vm_compute|by vm_compute|cbn; lia|done].
  - by vm_compute.
  - done.
  - by eexists.
  - by eexists.
  - unfold window_of. cbn [node_reads rd_vdf_state global_step seeds capacity fst snd length]. split_and!; [done|lia|lia|lia|].
    intros [|[|[|i]]] x Hx; cbn in Hx; simplify_eq; reflexivity.
  - by vm_compute.
  - by vm_compute.
  - by vm_compute.
  - by vm_compute.
  - by vm_compute.
  - by vm_compute.
  - by intros x u [= <- _].
  - done.
Qed.

Lemma roots_good : bundle_roots_fit bundle.
Proof. split_and!; (split; [apply (bool_decide_unpack _); vm_compute; exact I|vm_compute; reflexivity]). Qed.

Lemma amounts_good r : 0 ≤ split_miner r < 2 ^ 256 → 0 ≤ split_treasury r → bundle_amounts_fit config node_reads solution parent bundle r.
Proof.
  intros Hm Ht. split; [split|..]; try done; try (apply (bool_decide_unpack _); vm_compute; exact I); try (apply TreasuryExample.fits_txs; vm_compute; reflexivity).
  exact TreasuryExample.fee_params_good.
Qed.

(** The run gives a block with the promotion, the other uploads and the refunded commitments;
    refunds and settlement leave 943440 of the treasury of 1000000. *)
Lemma block_computed : ∃ b, produce = Ok (Some (b, built)) ∧ lh_treasury (sb_header (pb_block b)) = 943440 ∧
  commitment_ledger_txs (pb_transactions b) = [TreasuryExample.unpledge; TreasuryExample.unstake] ∧
  ∀ l, data_ledger_txs (pb_transactions b) l = match l with Publish => [ExpiryExample.tx4] | Submit => [TreasuryExample.tx5] | OneYear => [TreasuryExample.tx6] | ThirtyDay => [] end.
Proof. eexists. split; [vm_compute; reflexivity|]. split; [vm_compute; reflexivity|]. split; [vm_compute; reflexivity|]. by intros []; vm_compute. Qed.


Lemma reads_good : reads_agree node_reads solution ExpiryExample.epoch TreasuryExample.commitments.
Proof.
  constructor.
  - by intros x [= <-].
  - by intros x [= <-].
  - by intros x [= <-].
  - by intros x [= <-].
  - by intros p p' [= <-] [= <-].
Qed.

Lemma layer_good : layer_builds TreasuryExample.destination layer evm_number.
Proof.
  intros a i bp data Ha [= <-] [= <-]. cbn [layer send_new_payload] in Ha. case_bool_decide as Heq; [|done]. subst a. constructor; [reflexivity..|].
  intros rest Hrest. apply app_inv_head in Hrest as <-. apply Forall_singleton. split; [vm_compute; reflexivity|done].
Qed.

Lemma run_node_good : node_consistent ExpiryExample.node config parent ExpiryExample.epoch bundle.
Proof.
  assert (∀ l, bundle_ledger bundle l = match l with Publish => [data_tx ExpiryExample.tx4] | Submit => [data_tx TreasuryExample.tx5] | OneYear => [data_tx TreasuryExample.tx6] | ThirtyDay => [] end)
    as Htxs by (by intros []; vm_compute).
  constructor; [vm_compute; reflexivity|done| |by vm_compute].
  intros l l' a b. rewrite !Htxs. destruct l, l'; intros Ha Hb; try (by apply elem_of_nil in Ha); try (by apply elem_of_nil in Hb);
    apply list_elem_of_singleton in Ha as ->; apply list_elem_of_singleton in Hb as ->; done.
Qed.

Lemma produced_block_accepted_witness :
  ∃ b, produce = Ok (Some (b, built)) ∧
    shadow_transactions_are_valid TreasuryExample.destination TreasuryExample.recover ExpiryExample.node TreasuryExample.config TreasuryExample.prices TreasuryExample.reward_curve
      TreasuryExample.block_time (pb_block b) payload ExpiryExample.epoch TreasuryExample.commitments (pb_transactions b) = Ok ().
Proof.
  destruct block_computed as (b & Hb & _ & Hcom & Hdata). exists b. split; [exact Hb|].
  destruct (produced_block_accepted id TreasuryExample.destination 21000 1000 TreasuryExample.recover version layer ExpiryExample.node config proof_reads node_reads solution parent snap
    ExpiryExample.epoch TreasuryExample.commitments reads_good evm_number b built Hb) as (_ & data & [= <-] & Hvalid).
  - apply _.
  - exact layer_good.
  - reflexivity.
  - intros bundle' Hb'. apply is_bundle in Hb' as ->. exact run_node_good.
  - reflexivity.
  - vm_compute. reflexivity.
  - exact TreasuryExample.parameters_good.
  - split; [exact TreasuryExample.node_fits|exact (bf_unpledges _ _ _ _ (TreasuryExample.inputs_good true))| | |].
    + rewrite Hcom. apply (bool_decide_unpack _). vm_compute. exact I.
    + intros l. rewrite Hdata. apply TreasuryExample.fits_txs. by destruct l; vm_compute.
    + rewrite Hdata. vm_compute. reflexivity.
  - vm_compute. discriminate.
  - vm_compute. split; [discriminate|reflexivity].
  - exact Hvalid.
Defined.
End ProducerExample.
